(* ===== verification/_CoqProject ===== *)
-Q . S2P
Prelude.v
Coding.v
IntCast.v
Escape.v
Utf8.v
YsonStream.v
YsonLexer.v
YsonEvents.v
YsonParser.v
YsonGrammar.v
YsonWriter.v
YsonReplay.v
SyntaxChecker.v
PullParser.v
PullTraversal.v
YsonCursor.v
TokenWriter.v
Deserialize.v
Tokenizer.v
PullParserValues.v
Compare.v
CompositeCompare.v
TruncateYson.v
RowValues.v
KeyBound.v
Comparator.v
KeyOrder.v
KeyRanges.v
LegacyRows.v
KeyWidening.v
RowCodec.v
KeySuccessors.v
YsonConsumers.v
YPath.v
YPathStack.v
StringFilter.v
YPathTrie.v
Formula.v
FormulaText.v
FenwickTree.v
Heap.v
SlidingWindow.v
TopologicalOrdering.v
Decimal.v
DecimalIntegers.v
DecimalText.v
LogicalType.v
ComplexTypeValidator.v
ComplexTypeValues.v
LogicalTypeText.v
LogicalTypeParsing.v
TypeCompatibility.v
TypeCompatibilityValues.v
TypeMerging.v
RowValidation.v
ColumnValues.v
SchemaCompatibility.v
ClientRows.v
