(* ===== verification/Prelude.v ===== *)
(** * YSON, paths and the table keys of the YTsaurus C++ SDK

    YSON is the data format of YTsaurus: every value, attribute and configuration passes
    through it, in a text and in a binary form that may be mixed. This library models the
    code that reads, checks, writes, compares and deserializes YSON (yt/yt/core/yson), the
    integer and string coding below it (library/cpp/yt/coding, util/string, util/charset),
    the paths into trees of YSON (yt/yt/core/ypath) and the code that orders rows and keys of
    tables (yt/yt/client/table_client), and proves what makes that code correct. All paths in
    comments are relative to src/.

    ** The parts and how they interact

    A stream of blocks is read by a lexer. Three front ends use the lexer: the push parser
    ([TParser]) calls a consumer for every event, the pull parser ([TYsonPullParser]) returns
    an item per call and lets a syntax checker, a pushdown automaton, decide what may come
    next, the tokenizer ([TTokenizer]) returns single tokens and checks nothing. A cursor over
    the pull parser skips, transfers or iterates over whole values, and the [Deserialize]
    overloads read typed values from a cursor. Writers are consumers that produce text;
    consumers around consumers cut a document at a depth or drop its attributes on the way
    from the parser to a writer. The checked token writer shares the syntax checker with the
    pull parser, and together they normalize documents. Paths have a tokenizer of their own;
    a stack builds paths, a trie stores sets of them; the string filter walks a cursor with a
    stack and writes what is at the requested paths. Formulas over variables, which
    configurations select hosts and times with, are read from strings of YSON into postfix
    form and evaluated on a stack. On top of the pull parser, composite
    values are compared and truncated; rows of values are compared, serialized and given successors; keys and key bounds are
    compared by a comparator that knows the sort order of every column.

    ** Files

    - [Prelude]: this header, results of calls, bytes, machine words, automation.
    - [Coding] (varint-inl.h, zig_zag-inl.h): zig-zag and varint coding.
    - [IntCast] (util/string/cast.cpp): [FromString] and [ToString] of integers.
    - [Escape] (util/string/escape.cpp, writer.cpp): [EscapeC], [UnescapeC].
    - [Utf8] (util/charset/utf8.h, writer.cpp): decoding, [WriteUtf8String].
    - [YsonStream] (detail.h): [TCharStream], [TCodedStream] over blocks.
    - [YsonLexer] (detail.h, parser_helpers.cpp): [TLexerBase].
    - [YsonEvents] (consumer.h): the calls of [IYsonConsumer], trees and their calls.
    - [YsonParser] (parser_detail.h): [TParser]; totality and soundness.
    - [YsonGrammar]: the texts of the language; completeness of the push parser.
    - [YsonWriter] (writer.cpp, token_writer): the three forms of [TYsonWriter], the buffered
      binary writer. [YsonReplay]: parsing with a consumer is replaying the recorded calls.
    - [SyntaxChecker] (syntax_checker.h, -inl.h, .cpp): module [TYsonSyntaxChecker], the
      abstract automaton it refines and the language of token sequences.
    - [PullParser], [PullTraversal], [PullParserValues] (pull_parser-inl.h, pull_parser.cpp):
      [Next], whole values, typed and varint readers.
    - [YsonCursor] (pull_parser.h, -inl.h, .cpp): module [Cursor], [TYsonPullParserCursor].
    - [TokenWriter] (token_writer.cpp, pull_parser.cpp, ytree/convert.cpp): module
      [CheckedWriter], the transfer of a cursor to it, normalization.
    - [Tokenizer] (token.cpp, lexer_detail.h, lexer.cpp, tokenizer.cpp): module [Token], the
      stateless lexer, [TTokenizer] and the conversions that use it.
    - [Deserialize] (pull_parser_deserialize, convert-inl.h, cast-inl.h): the overloads, as
      instances of a class, and the laws of the class.
    - [YsonConsumers] (null_consumer.cpp, forwarding_consumer.cpp,
      depth_limiting_yson_consumer.cpp, attributes_stripper.cpp): module [Forwarding] and the
      consumers built on it.
    - [Compare] (compare-inl.h), [CompositeCompare], [TruncateYson] (composite_compare.cpp).
    - [RowValues], [RowCodec], [KeySuccessors] (unversioned_row.cpp, row_base).
    - [KeyBound] (key.cpp, key_bound.cpp), [Comparator] (comparator.cpp, -inl.h) and what is
      proved of them: [KeyOrder], [KeyRanges], [LegacyRows], [KeyWidening].
    - [YPath] (ypath/token.cpp, tokenizer.cpp, helpers): module [YPathTokenizer], literals,
      functions on paths. [YPathStack] (stack.cpp): module [Stack]. [YPathTrie] (trie.cpp).
    - [Formula], [FormulaText] (misc/arithmetic_formula.cpp): the code and the language of
      formulas; formulas as texts.
    - [StringFilter] (string_filter.cpp): the builder, the filterer, [FilterYsonString].
    - Containers and algorithms of yt/yt/core/misc that services are built from:
      [FenwickTree] (fenwick_tree), [Heap] (heap), [SlidingWindow] (sliding_window),
      [TopologicalOrdering] (topological_ordering).
    - [Decimal] (library/decimal/decimal.cpp): the code, generic over a class of integers;
      [DecimalIntegers]: the laws of the class, for the integers of the machine and for the
      arithmetic of 256 bits by words; [DecimalText]: the conversions.
    - [LogicalType] (table_client/logical_type.cpp, row_base.h): the types of columns.
      [ComplexTypeValidator] (validate_logical_type.cpp): the check of composite values by a
      type, with a cursor; [ComplexTypeValues]: the values of a type and the theorems.
      [LogicalTypeText]: the parser and the printer of types; [LogicalTypeParsing]: theorems.
      [TypeCompatibility] (complex_types/check_type_compatibility.cpp): whether data of one
      type can be read as data of another; [TypeCompatibilityValues]: theorems.
      [TypeMerging] (merge_complex_types.cpp): the type for the data of two types.
    - [RowValidation] (table_client/unversioned_row.cpp, schema.h): the checks of values by
      their columns and of the rows of clients; [ColumnValues], [ClientRows]: theorems.
      [SchemaCompatibility] (check_schema_compatibility.cpp, schema.cpp): table schemas.

    ** How code becomes definitions

    A C++ function becomes a function of the same name. State is passed explicitly: a class
    becomes a record, a member function takes and returns it. [Result] has the outcomes of a
    call: a value, an exception ([Throw], one error per family of throw sites), an abort
    ([Crash]: a failed [YT_VERIFY], an access out of range) and [OutOfFuel]. Machine words are
    integers with wrap-around written out ([wrap_u], [wrap_s]); bytes are [Byte.byte]; doubles
    are their 64 bits. Loops and recursion that are not structural take fuel; the fuel is
    computed from the input (the bytes still to be read, the length of the text), and the
    theorems that a call returns or throws exclude [OutOfFuel], so the bounds are enough.
    Code outside the repository, or that is not modelled, is a parameter: the conversion of a
    text to a double ([fd], of which only totality is assumed) and of a double to a text, the
    consumers, hash functions, the order in which a hash container is visited, generated
    comparers.

    ** What the theorems show

    - Coding: all readers of varints invert the writers and agree with each other; integer
      literals are read exactly; escaping is inverted by unescaping.
    - Streams and lexer: reading does not depend on how the text is cut into blocks; every
      token reader terminates inside its block and its memory limit.
    - Push parser: total on every input; a parse that returns made the calls of one
      well-formed document within the nesting limit; every text of the grammar is accepted
      with exactly its calls. Writers: what is written is read back, in all three forms; the
      buffered writer is byte for byte the plain one.
    - Syntax checker: a refinement of an abstract automaton, which accepts exactly the token
      sequences of documents. Pull parser: sound, complete for the same grammar, the fast
      paths of the typed readers equivalent to [Next] with a check.
    - Cursor and deserialization: transferring a value makes the calls of the push parser;
      [Deserialize] computes for every type built from the modelled overloads the meaning of
      the type on the tree of the document, errors included.
    - Token writer: accepts exactly the documents, which are read back; normalization keeps
      the items and is idempotent. Tokenizer: total on every input; [SkipAttributes] returns
      exactly on balanced braces; its conversions agree with deserialization on documents.
    - Consumers around consumers: the depth limiting consumer passes on the calls of the cut
      tree, the stripper those of the tree without attributes. String filter: the result is
      the smallest document with the requested values, and no check of the builder fails.
    - Formulas: the operator stack decides the grammar with its precedences; what passes the
      check of types never fails a check of the evaluator and has the value of its tree; the
      operators that put texts of boolean formulas together are those of logic.
    - Paths: the tokenizer decides the language of paths and gives the only reading; escaping,
      joining and splitting are inverse; the stack is the list of its entries; a trie, flat
      or of nodes, answers what its set of paths says by definition.
    - Composite values: comparison refines the order of trees, is total on arbitrary bytes;
      truncation fits the size and does not increase the value.
    - Rows and keys: the order of values is a total preorder; serialized rows are read back, without flags;
      successors are least; comparing keys and bounds is comparing points of a line, from
      which inversion, intersection, emptiness, singleton ranges, shortening, widening and
      the translation of legacy rows follow.
    - Containers: a Fenwick tree is the list of its items, an array kept with the operations
      on heaps stays a heap whose front is least, a sliding window delivers every accepted
      packet once and in order (for several sources: independently), an ordering is kept
      topological for as long as there is no cycle.
    - Decimals: the texts that are read, with their values; printing, within its buffer, and
      reading back; strings that compare as the numbers; validation by the tables.
    - Logical types: validation accepts the well-formed types; for these the validator of
      composite values accepts the YSON of exactly the values of the type, with and without
      tags. Their parser decides the language of texts and reads back what is printed. Fully
      compatible types take over every value, and so does the merged type of two, with which
      both are fully compatible, under restrictions on types that the theorems name and that
      examples show to be needed.
    - Rows and schemas: for any bytes in values of type Any, a column accepts exactly the values
      of its logical type, and a row of a client is accepted exactly when it satisfies the limits
      and the schema; the rows of a table are rows of a table with a fully compatible schema,
      under the same restrictions as for types. Composite values are taken to be documents.

    ** Not modelled

    Positions and contexts that exceptions carry; recording of the bytes read by the pull
    parser and what depends on it (deserialization of smart pointers); deserialization of
    doubles, enums, times, GUIDs and protobuf messages; the other forms of logical types
    (protobuf, YSON); derived table schemas and the validation of whole schemas; versioned
    rows, wire protocol and columnar formats; node trees and their services; the client API,
    RPC, concurrency, the map-reduce client (I/O around remote services); vendored libraries.
    They are listed with reasons in the manifest; the remaining consumers of YSON, operations
    on schemas and versioned rows would come next. *)

From Stdlib Require Export ZArith Lia Strings.Byte Strings.String.
From stdpp Require Export base tactics list numbers option decidable countable.

#[global] Set Default Goal Selector "!".
#[global] Open Scope Z_scope.
#[global] Open Scope list_scope.

(** ** Results of calls that may throw, abort or run out of fuel *)

(** What a [THROW_ERROR_EXCEPTION] (or a thrown [TSimpleException],
    [TFromStringException]) carries: one constructor per throw site family. *)
Inductive TError : Set :=
| EPrematureEndOfStream
| EVarintTooLong
| EVarintOverflow
| EMemoryLimitExceeded
| EDepthLimitExceeded
| EUnexpectedChar (ch : byte)
| EUnexpectedEndOfStream
| EExpectedChar (expected found : byte)
| EBadLiteral
| ENegativeLength
| EStrayChar (ch : byte)
| EFromString
| EUnexpectedToken
| ESeveralAttributeMaps
| EKeyNotString
| EUnexpectedItem
| EMalformedEscape
| EInvalidArgument
| EKeyLengthMismatch
| EKeyBoundTooLong
| EBadValueType
| EIncomparable
| EBufferExhausted
| EOutOfRange
| EDuplicateKey
| ERepeatedAttributes
| EConsumer
| EMalformedFormula
| EUndefinedVariable
| EDivisionByZero
| EDivisionOverflow
| EEmptyFormula
| EPacketTooSmall
| EPacketQueued
| EWindowOverflow
| EInvalidDecimal
| ESchemaViolation
| EBadLogicalType
| EBadRow.

#[export] Instance byte_eq_dec : EqDecision byte := Byte.byte_eq_dec.
#[export] Instance byte_countable : Countable byte := inj_countable Byte.to_N Byte.of_N Byte.of_to_N.

#[export] Instance TError_eq_dec : EqDecision TError.
Proof. solve_decision. Defined.

(** [Throw] is a C++ exception; [Crash] a failed [YT_VERIFY], a [YT_ABORT] or
    an access outside an array; [OutOfFuel] only says that the bound given to
    a model of a loop was too small. *)
Inductive Result (A : Type) : Type :=
| Ok (a : A)
| Throw (e : TError)
| Crash
| OutOfFuel.
Arguments Ok {A} a.
Arguments Throw {A} e.
Arguments Crash {A}.
Arguments OutOfFuel {A}.

#[export] Instance Result_eq_dec {A} `{EqDecision A} : EqDecision (Result A).
Proof. solve_decision. Defined.

#[export] Instance result_ret : MRet Result := @Ok.
#[export] Instance result_bind : MBind Result := fun A B f m =>
  match m with
  | Ok a => f a
  | Throw e => Throw e
  | Crash => Crash
  | OutOfFuel => OutOfFuel
  end.
#[export] Instance result_fmap : FMap Result := fun A B f m =>
  match m with
  | Ok a => Ok (f a)
  | Throw e => Throw e
  | Crash => Crash
  | OutOfFuel => OutOfFuel
  end.

(** [YT_VERIFY(b)]. *)
Definition Verify (b : bool) : Result unit := if b then Ok () else Crash.

Definition is_ok {A} (r : Result A) : bool := match r with Ok _ => true | _ => false end.
Definition is_throw {A} (r : Result A) : bool := match r with Throw _ => true | _ => false end.

Lemma bind_ok {A B} (m : Result A) (f : A → Result B) b :
  m ≫= f = Ok b ↔ ∃ a, m = Ok a ∧ f a = Ok b.
Proof.
  split; [destruct m; simpl; naive_solver|]. intros (a & -> & H). exact H.
Qed.

Lemma bind_assoc_result {A B C} (m : Result A) (f : A → Result B) (g : B → Result C) :
  (m ≫= f) ≫= g = m ≫= (λ a, f a ≫= g).
Proof. by destruct m. Qed.

(** Two calls with the same outcome: the same value, or an exception each, whichever it is. *)
Inductive same_outcome {A} : Result A → Result A → Prop :=
| same_Ok a : same_outcome (Ok a) (Ok a)
| same_Throw e1 e2 : same_outcome (Throw e1) (Throw e2)
| same_Crash : same_outcome Crash Crash
| same_OutOfFuel : same_outcome OutOfFuel OutOfFuel.
Infix "≈" := same_outcome (at level 70).

#[export] Instance same_outcome_equiv {A} : Equivalence (@same_outcome A).
Proof.
  split; [intros []; constructor|by intros ? ? []; constructor|].
  intros r1 r2 r3 H12 H23. destruct H12; inversion H23; constructor.
Qed.

#[export] Instance bind_same {A B} : Proper (pointwise_relation A same_outcome ==> same_outcome ==> same_outcome)
  (mbind (M := Result) (A := A) (B := B)).
Proof. intros f g Hfg r1 r2 []; simpl; [apply Hfg|constructor..]. Qed.

Lemma bind_same_l {A B} (f : A → Result B) r1 r2 : r1 ≈ r2 → r1 ≫= f ≈ r2 ≫= f.
Proof. by intros ->. Qed.

Lemma throw_same {A} (r : Result A) e : r ≈ Throw e ↔ ∃ e', r = Throw e'.
Proof. split; [inversion 1; eauto|]. intros (e' & ->). constructor. Qed.

#[export] Hint Constructors same_outcome : core.

(** Run a bind whose first call is a value, and take apart a bind that returned. *)
Ltac run_bind := cbn [mbind result_bind].
Tactic Notation "run_bind" "in" hyp(H) := cbn [mbind result_bind] in H.
Tactic Notation "bind_inv" hyp(H) "as" simple_intropattern(p) := apply bind_ok in H as p.

Lemma verify_ok b : Verify b = Ok () ↔ b = true.
Proof. by destruct b. Qed.

(** ** Bytes *)

Declare Scope yt_scope.
Delimit Scope yt_scope with yt.

(** The value of an [unsigned char]. *)
Definition byte_val (b : byte) : Z := Z.of_N (Byte.to_N b).

(** [static_cast<ui8>(z)]. *)
Definition byte_of (z : Z) : byte :=
  match Byte.of_N (Z.to_N (z mod 256)) with
  | Some b => b
  | None => x00
  end.

#[global] Arguments byte_of : simpl never.
#[global] Arguments byte_val : simpl never.

(** A C++ string literal. *)
Definition bytes_of_string (s : string) : list byte := list_byte_of_string s.
Notation "'B' s" := (bytes_of_string s%string) (at level 1, s at level 0, format "'B' s") : yt_scope.
#[global] Open Scope yt_scope.

Lemma byte_val_range b : 0 <= byte_val b < 256.
Proof. unfold byte_val. pose proof (Byte.to_N_bounded b). lia. Qed.

Lemma byte_of_val b : byte_of (byte_val b) = b.
Proof.
  unfold byte_of. rewrite Z.mod_small by apply byte_val_range.
  unfold byte_val. by rewrite N2Z.id, Byte.of_to_N.
Qed.

Lemma byte_val_of z : byte_val (byte_of z) = z mod 256.
Proof.
  unfold byte_of. pose proof (Z.mod_pos_bound z 256 ltac:(lia)) as Hz.
  destruct (Byte.of_N (Z.to_N (z mod 256))) as [b|] eqn:E.
  - apply Byte.to_of_N in E. unfold byte_val. lia.
  - apply Byte.of_N_None_iff in E. lia.
Qed.

Lemma byte_val_inj b1 b2 : byte_val b1 = byte_val b2 → b1 = b2.
Proof. intros H. rewrite <- (byte_of_val b1), <- (byte_of_val b2). by rewrite H. Qed.

Lemma byte_eqb_refl b : Byte.eqb b b = true.
Proof. by apply byte_dec_lb. Qed.

Lemma byte_eqb_neq a b : a ≠ b → Byte.eqb a b = false.
Proof. intros Hne. destruct (Byte.eqb a b) eqn:E; [|done]. by apply byte_dec_bl in E. Qed.

Lemma byte_eqb_sym a b : Byte.eqb a b = Byte.eqb b a.
Proof.
  destruct (decide (a = b)) as [->|Hne]; [done|]. by rewrite !byte_eqb_neq by congruence.
Qed.

(** Every byte, to decide universally quantified facts about bytes by
    computation. *)
Definition all_bytes : list byte := map (λ n, byte_of (Z.of_nat n)) (seq 0 256).

Lemma elem_of_all_bytes b : b ∈ all_bytes.
Proof.
  apply list_elem_of_In, in_map_iff. exists (Z.to_nat (byte_val b)).
  pose proof (byte_val_range b). split.
  - rewrite Z2Nat.id by lia. apply byte_of_val.
  - apply in_seq. lia.
Qed.

Lemma forall_bytes (P : byte → bool) :
  forallb P all_bytes = true → ∀ b, P b = true.
Proof.
  intros H b. eapply forallb_forall in H; [exact H|].
  apply list_elem_of_In, elem_of_all_bytes.
Qed.

Lemma forall_bytes2 (P : byte → byte → bool) :
  forallb (λ a, forallb (P a) all_bytes) all_bytes = true → ∀ a b, P a b = true.
Proof.
  intros H a b. pose proof (forall_bytes _ H a) as Ha. exact (forall_bytes _ Ha b).
Qed.

(** ** Machine words *)

(** [static_cast<uiN>]: wrap-around modulo [2^w]. *)
Definition wrap_u (w z : Z) : Z := z mod 2 ^ w.

(** [static_cast<iN>] of the two's complement bits of [z]. *)
Definition wrap_s (w z : Z) : Z :=
  let u := z mod 2 ^ w in if u <? 2 ^ (w - 1) then u else u - 2 ^ w.

Definition in_u (w z : Z) : Prop := 0 <= z < 2 ^ w.
Definition in_s (w z : Z) : Prop := - 2 ^ (w - 1) <= z < 2 ^ (w - 1).
#[export] Instance in_u_dec w z : Decision (in_u w z).
Proof. unfold in_u. apply _. Defined.
#[export] Instance in_s_dec w z : Decision (in_s w z).
Proof. unfold in_s. apply _. Defined.

Definition max_u (w : Z) : Z := 2 ^ w - 1.
Definition max_s (w : Z) : Z := 2 ^ (w - 1) - 1.

(** Ranges of machine words are linear facts. *)
Create HintDb words.
#[export] Hint Unfold in_u in_s max_u max_s : words.
Ltac word := autounfold with words in *; lia.

(** Facts on token sequences and grammars, declared where they are proved. *)
Create HintDb yson.

Lemma wrap_u_range w z : 0 <= w → in_u w (wrap_u w z).
Proof. intros. unfold in_u, wrap_u. apply Z.mod_pos_bound. lia. Qed.

Lemma wrap_u_id w z : in_u w z → wrap_u w z = z.
Proof. apply Z.mod_small. Qed.

Lemma pow2_split w : 0 < w → 2 ^ w = 2 * 2 ^ (w - 1).
Proof. intros. rewrite <- Z.pow_succ_r by lia. f_equal. lia. Qed.

Lemma wrap_s_range w z : 0 < w → in_s w (wrap_s w z).
Proof.
  intros Hw. unfold in_s, wrap_s. pose proof (pow2_split w Hw).
  pose proof (Z.mod_pos_bound z (2 ^ w) ltac:(lia)).
  destruct (Z.ltb_spec (z mod 2 ^ w) (2 ^ (w - 1))); lia.
Qed.

Lemma wrap_s_id w z : 0 < w → in_s w z → wrap_s w z = z.
Proof.
  intros Hw Hz. unfold in_s, wrap_s in *. pose proof (pow2_split w Hw).
  destruct (decide (0 <= z)).
  - rewrite Z.mod_small by lia. destruct (Z.ltb_spec z (2 ^ (w - 1))); lia.
  - replace (z mod 2 ^ w) with (z + 2 ^ w).
    + destruct (Z.ltb_spec (z + 2 ^ w) (2 ^ (w - 1))); lia.
    + symmetry. rewrite <- (Z.mod_small (z + 2 ^ w) (2 ^ w)) by lia.
      rewrite <- Z.add_mod_idemp_r, Z.mod_same, Z.add_0_r by lia. done.
Qed.

Lemma wrap_s_wrap_u w z : 0 < w → wrap_s w (wrap_u w z) = wrap_s w z.
Proof. intros. unfold wrap_s, wrap_u. by rewrite Z.mod_mod by lia. Qed.

Lemma in_u_testbit_high w x i : 0 <= w <= i → in_u w x → Z.testbit x i = false.
Proof.
  intros Hi Hx. rewrite <- (Z.mod_small x (2 ^ w)) by exact Hx.
  apply Z.mod_pow2_bits_high. lia.
Qed.

Lemma lor_low_high a b k : 0 <= k → in_u k a → Z.lor a (b * 2 ^ k) = a + b * 2 ^ k.
Proof.
  intros Hk Ha. pose proof (Z.add_lor_land a (b * 2 ^ k)) as H.
  assert (Z.land a (b * 2 ^ k) = 0) as H0; [|lia].
  apply Z.bits_inj'. intros i Hi. rewrite Z.land_spec, Z.bits_0.
  destruct (decide (i < k)).
  - rewrite Z.mul_pow2_bits_low by lia. apply Bool.andb_false_r.
  - by rewrite (in_u_testbit_high k) by (done || lia).
Qed.

Lemma land_127 x : Z.land x 127 = x mod 128.
Proof. change 127 with (Z.ones 7). by rewrite Z.land_ones. Qed.
