(* ===== verification/Coding.v ===== *)
(** Integer coding: [library/cpp/yt/coding] (zig-zag and varint).

    [Module ZigZag] models [zig_zag-inl.h], [Module Varint] models
    [varint-inl.h]: the writer, the unrolled pointer reader, the byte-by-byte
    reader used for streams and for short buffers, and the range reader that
    chooses between the two.  Shown here: the zig-zag maps are mutually inverse
    bijections between the signed and the unsigned words of a width, every
    reader returns what the writer wrote and stops right behind it, and the
    unrolled reader refines the byte-by-byte one. *)

From S2P Require Import Prelude.

Module ZigZag.

(** The two maps of [zig_zag-inl.h] at a width [w] (32 or 64). *)
Definition encode (w n : Z) : Z :=
  Z.lxor (wrap_u w (Z.shiftl (wrap_u w n) 1)) (wrap_u w (Z.shiftr n (w - 1))).

Definition decode (w n : Z) : Z :=
  wrap_s w (Z.lxor (Z.shiftr n 1) (wrap_u w (wrap_u w (Z.lnot (Z.land n 1)) + 1))).

Definition ZigZagEncode32 (n : Z) : Z := encode 32 n.
Definition ZigZagDecode32 (n : Z) : Z := decode 32 n.
Definition ZigZagEncode64 (n : Z) : Z := encode 64 n.
Definition ZigZagDecode64 (n : Z) : Z := decode 64 n.

Lemma lxor_ones w x : 0 <= w → in_u w x → Z.lxor x (2 ^ w - 1) = 2 ^ w - 1 - x.
Proof.
  intros Hw Hx. replace (2 ^ w - 1) with (Z.ones w) by (rewrite Z.ones_equiv; lia).
  assert (Z.lxor x (Z.ones w) = Z.ldiff (Z.ones w) x) as ->.
  - apply Z.bits_inj'. intros i Hi. rewrite Z.lxor_spec, Z.ldiff_spec.
    rewrite Z.testbit_ones_nonneg by lia.
    destruct (Z.ltb_spec i w); [by destruct (Z.testbit x i)|].
    by rewrite (in_u_testbit_high w) by (done || lia).
  - rewrite <- Z.sub_nocarry_ldiff; [done|]. apply Z.bits_inj'. intros i Hi.
    rewrite Z.ldiff_spec, Z.bits_0, Z.testbit_ones_nonneg by lia.
    destruct (Z.ltb_spec i w); [by rewrite Bool.andb_false_r|].
    by rewrite (in_u_testbit_high w) by (done || lia).
Qed.

(** The arithmetic reading of the two bit-twiddling definitions. *)
Lemma encode_spec w n : 0 < w → in_s w n → encode w n = if 0 <=? n then 2 * n else -2 * n - 1.
Proof.
  intros Hw Hn. unfold encode. unfold in_s in Hn.
  pose proof (pow2_split w Hw) as Hp.
  assert (wrap_u w (Z.shiftl (wrap_u w n) 1) = (2 * n) mod 2 ^ w) as ->.
  { unfold wrap_u. rewrite Z.shiftl_mul_pow2 by lia.
    rewrite Z.mul_mod_idemp_l by lia. f_equal. lia. }
  rewrite Z.shiftr_div_pow2 by lia.
  destruct (Z.leb_spec 0 n).
  - rewrite (Z.div_small n), (wrap_u_id w 0), Z.lxor_0_r by word.
    apply Z.mod_small. lia.
  - assert (n / 2 ^ (w - 1) = -1) as ->.
    { symmetry. apply (Z.div_unique_pos n (2 ^ (w - 1)) (-1) (n + 2 ^ (w - 1))); lia. }
    assert (wrap_u w (-1) = 2 ^ w - 1) as ->.
    { symmetry. apply (Z.mod_unique_pos (-1) (2 ^ w) (-1) (2 ^ w - 1)); lia. }
    rewrite lxor_ones by (lia || (apply wrap_u_range; lia)).
    assert ((2 * n) mod 2 ^ w = 2 * n + 2 ^ w) as ->; [|lia].
    symmetry. apply (Z.mod_unique_pos (2 * n) (2 ^ w) (-1) (2 * n + 2 ^ w)); lia.
Qed.

Lemma decode_spec w u : 0 < w → in_u w u →
  decode w u = if Z.even u then u / 2 else - (u / 2) - 1.
Proof.
  intros Hw Hu. unfold decode. unfold in_u in Hu. pose proof (pow2_split w Hw) as Hp.
  change 1 with (Z.ones 1) at 2. rewrite Z.land_ones by lia. change (2 ^ 1) with 2.
  rewrite Z.shiftr_div_pow2 by lia. change (2 ^ 1) with 2.
  assert (0 <= u / 2 < 2 ^ (w - 1)) as Hd.
  { split; [apply Z.div_pos; lia|]. apply Z.div_lt_upper_bound; lia. }
  rewrite Zmod_even. destruct (Z.even u).
  - change (Z.lnot 0) with (-1).
    assert (wrap_u w (wrap_u w (-1) + 1) = 0) as ->.
    { unfold wrap_u. rewrite Z.add_mod_idemp_l by lia. apply Z.mod_0_l. lia. }
    rewrite Z.lxor_0_r. apply wrap_s_id; [done|]. unfold in_s. lia.
  - change (Z.lnot 1) with (-2).
    assert (wrap_u w (wrap_u w (-2) + 1) = 2 ^ w - 1) as ->.
    { unfold wrap_u. rewrite Z.add_mod_idemp_l by lia.
      symmetry. apply (Z.mod_unique_pos _ (2 ^ w) (-1) (2 ^ w - 1)); lia. }
    rewrite lxor_ones by word.
    unfold wrap_s. rewrite Z.mod_small by lia.
    destruct (Z.ltb_spec (2 ^ w - 1 - u / 2) (2 ^ (w - 1))); lia.
Qed.

Lemma encode_range w n : 0 < w → in_s w n → in_u w (encode w n).
Proof.
  intros Hw Hn. rewrite encode_spec by done. unfold in_s, in_u in *.
  pose proof (pow2_split w Hw). destruct (Z.leb_spec 0 n); lia.
Qed.

Lemma decode_range w u : 0 < w → in_s w (decode w u).
Proof. intros. by apply wrap_s_range. Qed.

Lemma decode_encode w n : 0 < w → in_s w n → decode w (encode w n) = n.
Proof.
  intros Hw Hn. rewrite decode_spec by (done || by apply encode_range).
  rewrite encode_spec by done. destruct (Z.leb_spec 0 n).
  - rewrite Z.even_mul. simpl. rewrite Z.mul_comm, Z.div_mul; lia.
  - replace (-2 * n - 1) with (1 + 2 * (-n - 1)) by lia.
    rewrite Z.even_add_mul_2. simpl. rewrite Z.mul_comm, Z.div_add by lia.
    change (1 / 2) with 0. lia.
Qed.

Lemma encode_decode w u : 0 < w → in_u w u → encode w (decode w u) = u.
Proof.
  intros Hw Hu. rewrite encode_spec by (done || by apply decode_range).
  rewrite decode_spec by done. unfold in_u in Hu.
  pose proof (Z.div_mod u 2 ltac:(lia)) as Hdm. rewrite Zmod_even in Hdm.
  pose proof (Z.div_pos u 2 ltac:(lia) ltac:(lia)).
  destruct (Z.even u); [destruct (Z.leb_spec 0 (u / 2))|destruct (Z.leb_spec 0 (- (u / 2) - 1))]; lia.
Qed.

End ZigZag.

Module Varint.

Definition MaxVarUint64Size : nat := Z.to_nat ((8 * 8 - 1) / 7 + 1).

(** [output[count - 1] |= 0x80]. *)
Definition flag (b : byte) : byte := byte_of (Z.lor (byte_val b) 0x80).

(** The do/while of [WriteVarUint64]: [output] holds the flagged bytes, the
    pending byte [output[count - 1]] is [static_cast<ui8>(value)].  A 64-bit
    value leaves after at most nine iterations. *)
Fixpoint write_loop (fuel : nat) (output : list byte) (value : Z) : list byte :=
  match fuel with
  | O => output ++ [byte_of value]
  | S fuel =>
      let output := output ++ [flag (byte_of value)] in
      let value := Z.shiftr value 7 in
      if value >=? 0x80 then write_loop fuel output value
      else output ++ [byte_of value]
  end.

Definition WriteVarUint64 (value : Z) : list byte :=
  if value <? 0x80 then [byte_of value]
  else
    let output := [flag (byte_of value)] in
    let value := Z.shiftr value 7 in
    if value <? 0x80 then output ++ [byte_of value]
    else write_loop MaxVarUint64Size output value.

Definition WriteVarUint32 (value : Z) : list byte := WriteVarUint64 value.
Definition WriteVarInt32 (value : Z) : list byte := WriteVarUint64 (ZigZag.ZigZagEncode32 value).
Definition WriteVarInt64 (value : Z) : list byte := WriteVarUint64 (ZigZag.ZigZagEncode64 value).

(** [ReadVarUintKnownSize<ui64, N>]. *)
Definition ReadVarUintKnownSize (N : nat) (buffer : list byte) : Z :=
  foldl (λ result i,
           wrap_u 64 (result + wrap_u 64 (Z.shiftl (byte_val (nth i buffer x00) - 0x80) (7 * Z.of_nat i))))
        (wrap_u 64 (Z.shiftl (byte_val (nth (N - 1) buffer x00)) (7 * (Z.of_nat N - 1))))
        (seq 0 (N - 1)).

(** [READ_VARUINT_STEP(ui64, size, bound)]; reading past the buffer is a crash. *)
Definition read_step (input : list byte) (size : nat) (bound : Z)
    (otherwise : Result (Z * Z)) : Result (Z * Z) :=
  match input !! (size - 1)%nat with
  | None => Crash
  | Some b =>
      if byte_val b <? bound then Ok (ReadVarUintKnownSize size input, Z.of_nat size)
      else otherwise
  end.

(** [ReadVarUint64(const char *input, ui64 &value)]: (value, bytes read). *)
Definition ReadVarUint64_ptr (input : list byte) : Result (Z * Z) :=
  foldr (λ size, read_step input size 0x80)
        (read_step input 10 0x02 (Throw EVarintOverflow))
        (seq 1 9).

(** [ReadVarUint32(const char *input, ui32 &value)]. *)
Definition ReadVarUint32_ptr (input : list byte) : Result (Z * Z) :=
  '(value, size) ← foldr (λ size, read_step input size 0x80)
                         (read_step input 5 0x10 (Throw EVarintOverflow))
                         (seq 1 4);
  Ok (wrap_u 32 value, size).

(** The byte-by-byte [ReadVarUint64(TInvocable)] with a reader that
    throws at the end of [input]; also returns what it left unread. *)
Fixpoint read_loop (input : list byte) (count result : Z) : Result (Z * Z * list byte) :=
  match input with
  | [] => Throw EPrematureEndOfStream
  | b :: input =>
      let result := Z.lor result (wrap_u 64 (Z.shiftl (Z.land (byte_val b) 0x7F) (7 * count))) in
      let count := count + 1 in
      if count >? Z.of_nat MaxVarUint64Size then Throw EVarintOverflow
      else if Z.land (byte_val b) 0x80 =? 0 then Ok (result, count, input)
      else read_loop input count result
  end.

Definition ReadVarUint64_bytes (input : list byte) : Result (Z * Z * list byte) :=
  read_loop input 0 0.

(** [ReadVarUint64(const char *input, const char *end, ui64 &value)]. *)
Definition ReadVarUint64_range (input : list byte) : Result (Z * Z) :=
  if Nat.leb MaxVarUint64Size (length input) then ReadVarUint64_ptr input
  else '(value, count, _) ← ReadVarUint64_bytes input; Ok (value, count).

Definition ReadVarUint32_range (input : list byte) : Result (Z * Z) :=
  '(value, count) ← ReadVarUint64_range input;
  if value >? max_u 32 then Throw EVarintOverflow else Ok (value, count).

Definition ReadVarInt32_range (input : list byte) : Result (Z * Z) :=
  '(value, count) ← ReadVarUint64_range input;
  if value >? max_u 32 then Throw EVarintOverflow
  else Ok (ZigZag.ZigZagDecode32 value, count).

Definition ReadVarInt64_range (input : list byte) : Result (Z * Z) :=
  '(value, count) ← ReadVarUint64_range input;
  Ok (ZigZag.ZigZagDecode64 value, count).

(** [ReadVarInt64(const char *input, i64 *value)]. *)
Definition ReadVarInt64_ptr (input : list byte) : Result (Z * Z) :=
  '(value, count) ← ReadVarUint64_ptr input;
  Ok (ZigZag.ZigZagDecode64 value, count).

(** ** The abstract code: base-128 digits, least significant first *)

Fixpoint shape (bs : list byte) : bool :=
  match bs with
  | [] => false
  | b :: rest => if byte_val b <? 128 then match rest with [] => true | _ => false end else shape rest
  end.

Fixpoint value_of (bs : list byte) : Z :=
  match bs with
  | [] => 0
  | b :: rest => byte_val b mod 128 + 128 * value_of rest
  end.

Lemma value_of_nonneg bs : 0 <= value_of bs.
Proof. induction bs as [|b bs IH]; simpl; [lia|]. pose proof (Z.mod_pos_bound (byte_val b) 128). lia. Qed.

Lemma value_of_bound bs : value_of bs < 2 ^ (7 * Z.of_nat (length bs)).
Proof.
  induction bs as [|b bs IH]; [done|]. cbn [value_of length].
  replace (7 * Z.of_nat (S (length bs))) with (7 + 7 * Z.of_nat (length bs)) by lia.
  rewrite Z.pow_add_r by lia. change (2 ^ 7) with 128.
  pose proof (Z.mod_pos_bound (byte_val b) 128). lia.
Qed.

Lemma land_128 b : (Z.land (byte_val b) 0x80 =? 0) = (byte_val b <? 128).
Proof.
  apply Bool.eqb_prop. revert b. apply (forall_bytes (λ b, Bool.eqb _ _)). by vm_compute.
Qed.

Lemma byte_val_flag v : byte_val (flag (byte_of v)) = 128 + v mod 128.
Proof.
  unfold flag. rewrite !byte_val_of.
  assert (∀ b, (Z.lor (byte_val b) 128) mod 256 = 128 + byte_val b mod 128) as H.
  { intros b. apply Z.eqb_eq. revert b. apply (forall_bytes (λ b, Z.eqb _ _)). by vm_compute. }
  specialize (H (byte_of v)). rewrite byte_val_of in H. rewrite H.
  f_equal. apply Z.mod_mod_divide. by exists 2.
Qed.

Lemma byte_val_small v : 0 <= v < 256 → byte_val (byte_of v) = v.
Proof. intros. rewrite byte_val_of. by apply Z.mod_small. Qed.

(** The writer emits the base-128 digits of its argument. *)
Fixpoint digits (fuel : nat) (v : Z) : list byte :=
  match fuel with
  | O => [byte_of v]
  | S fuel => if v <? 128 then [byte_of v] else flag (byte_of v) :: digits fuel (Z.shiftr v 7)
  end.

Lemma write_loop_digits fuel out v : 128 <= v →
  write_loop fuel out v = out ++ digits fuel v.
Proof.
  revert out v. induction fuel as [|fuel IH]; intros out v Hv; [done|].
  cbn [write_loop digits]. destruct (Z.ltb_spec v 128); [lia|].
  destruct (Z.geb_spec (Z.shiftr v 7) 0x80) as [Hge|Hlt].
  - rewrite IH by lia. by rewrite <- app_assoc.
  - rewrite <- app_assoc. simpl. destruct fuel; simpl; [done|].
    by destruct (Z.ltb_spec (Z.shiftr v 7) 128); [|lia].
Qed.

Lemma WriteVarUint64_digits v : WriteVarUint64 v = digits 11 v.
Proof.
  unfold WriteVarUint64. change (digits 11 v) with
    (if v <? 128 then [byte_of v] else flag (byte_of v) :: digits 10 (Z.shiftr v 7)).
  destruct (Z.ltb_spec v 0x80) as [|Hv]; [done|].
  destruct (Z.ltb_spec (Z.shiftr v 7) 0x80) as [Hlt|Hge].
  - cbn [digits]. by destruct (Z.ltb_spec (Z.shiftr v 7) 128); [|lia].
  - change MaxVarUint64Size with 10%nat. by rewrite write_loop_digits by lia.
Qed.

Lemma shiftr_7 v : Z.shiftr v 7 = v / 128.
Proof. by rewrite Z.shiftr_div_pow2. Qed.

Lemma digits_spec fuel v : 0 <= v < 2 ^ (7 * Z.of_nat (S fuel)) →
  shape (digits fuel v) = true ∧ value_of (digits fuel v) = v.
Proof.
  revert v. induction fuel as [|fuel IH]; intros v Hv.
  - change (2 ^ _) with 128 in Hv. simpl. rewrite !byte_val_small by lia.
    destruct (Z.ltb_spec v 128); [|lia]. split; [done|]. rewrite Z.mod_small; lia.
  - cbn [digits]. destruct (Z.ltb_spec v 128) as [Hlt|Hge].
    + simpl. rewrite !byte_val_small by lia.
      destruct (Z.ltb_spec v 128); [|lia]. split; [done|]. rewrite Z.mod_small; lia.
    + replace (7 * Z.of_nat (S (S fuel))) with (7 + 7 * Z.of_nat (S fuel)) in Hv by lia.
      rewrite Z.pow_add_r in Hv by lia. change (2 ^ 7) with 128 in Hv.
      destruct (IH (Z.shiftr v 7)) as [IH1 IH2].
      { rewrite shiftr_7. split; [apply Z.div_pos; lia|]. apply Z.div_lt_upper_bound; lia. }
      cbn [shape value_of]. rewrite byte_val_flag, IH1, IH2, shiftr_7.
      pose proof (Z.mod_pos_bound v 128 ltac:(lia)).
      destruct (Z.ltb_spec (128 + v mod 128) 128); [lia|]. split; [done|].
      rewrite Z.add_mod, Z.mod_same, Z.add_0_l, !Z.mod_mod by lia.
      pose proof (Z.div_mod v 128). lia.
Qed.

Lemma length_digits fuel k v : (1 <= k)%nat → 0 <= v < 2 ^ (7 * Z.of_nat k) →
  (length (digits fuel v) <= k)%nat.
Proof.
  revert k v. induction fuel as [|fuel IH]; intros k v Hk Hv; [simpl; lia|].
  cbn [digits]. destruct (Z.ltb_spec v 128); [simpl; lia|].
  destruct k as [|[|k]]; [lia|change (2 ^ _) with 128 in Hv; lia|].
  replace (7 * Z.of_nat (S (S k))) with (7 + 7 * Z.of_nat (S k)) in Hv by lia.
  rewrite Z.pow_add_r in Hv by lia. change (2 ^ 7) with 128 in Hv.
  simpl. apply le_n_S, IH; [lia|]. rewrite shiftr_7.
  split; [apply Z.div_pos; lia|]. apply Z.div_lt_upper_bound; lia.
Qed.

Lemma u64_digit_bound v k : in_u 64 v → 64 <= 7 * k → 0 <= v < 2 ^ (7 * k).
Proof.
  intros [Hv0 Hv] Hk. split; [done|].
  eapply Z.lt_le_trans; [exact Hv|]. apply Z.pow_le_mono_r; lia.
Qed.

Lemma WriteVarUint64_spec v : in_u 64 v →
  shape (WriteVarUint64 v) = true ∧ value_of (WriteVarUint64 v) = v ∧
  (length (WriteVarUint64 v) <= 10)%nat.
Proof.
  intros Hv. rewrite WriteVarUint64_digits.
  destruct (digits_spec 11 v) as [H1 H2]; [apply u64_digit_bound; [done|lia]|].
  split; [exact H1|]. split; [exact H2|].
  apply length_digits; [lia|]. apply u64_digit_bound; [done|lia].
Qed.

Lemma length_digits_pos fuel v : (1 <= length (digits fuel v))%nat.
Proof. destruct fuel; cbn [digits]; [|destruct (v <? 128)]; cbn [length]; lia. Qed.

Lemma length_WriteVarUint64_pos v : (1 <= length (WriteVarUint64 v))%nat.
Proof. rewrite WriteVarUint64_digits. apply length_digits_pos. Qed.

(** One iteration of a reading loop: digit [x] enters at position [c]. *)
Lemma accumulate acc x c : 0 <= c <= 9 → in_u (7 * c) acc →
  Z.lor acc (wrap_u 64 (Z.shiftl (Z.land x 0x7F) (7 * c))) =
    wrap_u 64 (acc + (x mod 128) * 2 ^ (7 * c)).
Proof.
  intros Hc Hacc. rewrite land_127, Z.shiftl_mul_pow2 by lia.
  unfold in_u in Hacc.
  assert (2 ^ 64 = 2 ^ (64 - 7 * c) * 2 ^ (7 * c)) as H64.
  { rewrite <- Z.pow_add_r by lia. f_equal. lia. }
  assert (0 < 2 ^ (64 - 7 * c)) by (apply Z.pow_pos_nonneg; lia).
  unfold wrap_u. rewrite H64. rewrite Z.mul_mod_distr_r by lia.
  rewrite lor_low_high by (lia || done).
  set (m := x mod 128). set (A := 2 ^ (64 - 7 * c)) in *. set (C := 2 ^ (7 * c)) in *.
  apply (Z.mod_unique_pos _ (A * C) (m / A)).
  - pose proof (Z.mod_pos_bound m A). nia.
  - pose proof (Z.div_mod m A). nia.
Qed.

Lemma accumulate_range acc x c : 0 <= c <= 8 → in_u (7 * c) acc →
  in_u (7 * (c + 1)) (acc + (x mod 128) * 2 ^ (7 * c)) ∧
  wrap_u 64 (acc + (x mod 128) * 2 ^ (7 * c)) = acc + (x mod 128) * 2 ^ (7 * c).
Proof.
  intros Hc Hacc. unfold in_u in *.
  assert (2 ^ (7 * (c + 1)) = 128 * 2 ^ (7 * c)) as E.
  { change 128 with (2 ^ 7). rewrite <- Z.pow_add_r by lia. f_equal. lia. }
  assert (2 ^ (7 * (c + 1)) <= 2 ^ 64) by (apply Z.pow_le_mono_r; lia).
  pose proof (Z.mod_pos_bound x 128 ltac:(lia)). split; [nia|].
  apply wrap_u_id. unfold in_u. nia.
Qed.

Lemma read_loop_spec bs rest count acc :
  shape bs = true → 0 <= count → count + Z.of_nat (length bs) <= 10 → in_u (7 * count) acc →
  read_loop (bs ++ rest) count acc =
    Ok (wrap_u 64 (acc + value_of bs * 2 ^ (7 * count)), count + Z.of_nat (length bs), rest).
Proof.
  revert count acc. induction bs as [|b bs IH]; [done|].
  intros count acc Hs Hc Hlen Hacc. cbn [length] in Hlen. cbn [app read_loop].
  change (Z.of_nat MaxVarUint64Size) with 10.
  destruct (Z.gtb_spec (count + 1) 10); [lia|].
  rewrite accumulate, land_128 by (done || lia). cbn [shape] in Hs.
  destruct (Z.ltb_spec (byte_val b) 128) as [Hb|Hb].
  - destruct bs; [|done]. cbn [app value_of length].
    do 3 f_equal. by rewrite Z.mul_0_r, Z.add_0_r.
  - assert (bs ≠ []) as Hne by (intros ->; done).
    assert (1 <= Z.of_nat (length bs)) by (destruct bs; [done|cbn [length]; lia]).
    destruct (accumulate_range acc (byte_val b) count) as [Hr ->]; [lia|done|].
    rewrite IH by (done || lia). cbn [length value_of]. do 3 f_equal; [|lia].
    f_equal. replace (7 * (count + 1)) with (7 + 7 * count) by lia.
    rewrite Z.pow_add_r by lia. change (2 ^ 7) with 128. ring.
Qed.

Lemma value_of_app a b : value_of (a ++ b) = value_of a + 2 ^ (7 * Z.of_nat (length a)) * value_of b.
Proof.
  induction a as [|x a IH]; [cbn [app value_of length]; change (2 ^ _) with 1; ring|].
  cbn [app value_of length]. rewrite IH.
  replace (7 * Z.of_nat (S (length a))) with (7 + 7 * Z.of_nat (length a)) by lia.
  rewrite Z.pow_add_r by lia. change (2 ^ 7) with 128. ring.
Qed.

Lemma shape_snoc bs : shape bs = true →
  ∃ p b, bs = p ++ [b] ∧ byte_val b < 128 ∧ Forall (λ x, 128 <= byte_val x) p.
Proof.
  induction bs as [|x bs IH]; [done|]. cbn [shape]. intros H.
  destruct (Z.ltb_spec (byte_val x) 128).
  - destruct bs; [|done]. exists [], x. split_and!; [done|lia|constructor].
  - destruct (IH H) as (p & b & -> & Hb & Hp). exists (x :: p), b. split_and!; [done..|].
    by constructor.
Qed.

Lemma flagged_mod b : 128 <= byte_val b → byte_val b mod 128 = byte_val b - 128.
Proof.
  intros. pose proof (byte_val_range b).
  symmetry. apply (Z.mod_unique_pos _ 128 1); lia.
Qed.

Lemma known_size_spec p b rest : byte_val b < 128 → Forall (λ x, 128 <= byte_val x) p →
  ReadVarUintKnownSize (S (length p)) (p ++ b :: rest) = wrap_u 64 (value_of (p ++ [b])).
Proof.
  intros Hb Hp. unfold ReadVarUintKnownSize.
  replace (S (length p) - 1)%nat with (length p) by lia.
  rewrite app_nth2, Nat.sub_diag by lia. cbn [nth].
  rewrite Z.shiftl_mul_pow2 by lia. set (base := byte_val b * _).
  assert (∀ i, (i <= length p)%nat →
    foldl (λ result i, wrap_u 64 (result + wrap_u 64 (Z.shiftl
        (byte_val (nth i (p ++ b :: rest) x00) - 0x80) (7 * Z.of_nat i))))
      (wrap_u 64 base) (seq 0 i) = wrap_u 64 (base + value_of (take i p))) as H.
  - intros i. induction i as [|i IH]; intros Hi; [cbn; by rewrite Z.add_0_r|].
    rewrite seq_S, foldl_app. cbn [foldl]. rewrite IH by lia. rewrite Nat.add_0_l.
    destruct (lookup_lt_is_Some_2 p i ltac:(lia)) as [x Hx].
    rewrite (nth_lookup_Some _ _ _ x) by (rewrite lookup_app_l by lia; done).
    rewrite (take_S_r _ _ x Hx), value_of_app, length_take, Nat.min_l by lia.
    cbn [value_of]. rewrite flagged_mod by (rewrite Forall_lookup in Hp; eauto).
    rewrite Z.shiftl_mul_pow2 by lia. unfold wrap_u.
    rewrite <- Z.add_mod by lia. f_equal. ring.
  - rewrite H, firstn_all by lia. f_equal. rewrite value_of_app. cbn [value_of].
    rewrite Z.mod_small by (pose proof (byte_val_range b); lia).
    subst base. replace (7 * (Z.of_nat (S (length p)) - 1)) with (7 * Z.of_nat (length p)) by lia.
    ring.
Qed.

(** Steps whose byte is flagged fall through to the next one. *)
Lemma steps_skip p rest last start k :
  (1 <= start)%nat → (start + k <= S (length p))%nat → Forall (λ x, 128 <= byte_val x) p →
  foldr (λ size, read_step (p ++ rest) size 0x80) last (seq start k) = last.
Proof.
  intros H1 Hk Hp. revert start H1 Hk. induction k as [|k IH]; intros start H1 Hk; [done|].
  cbn [seq foldr]. rewrite IH by lia. unfold read_step.
  destruct (lookup_lt_is_Some_2 p (start - 1) ltac:(lia)) as [x Hx].
  rewrite lookup_app_l, Hx by lia. rewrite Forall_lookup in Hp. specialize (Hp _ _ Hx).
  by destruct (Z.ltb_spec (byte_val x) 0x80); [lia|].
Qed.

Lemma step_hit p b rest bound last : byte_val b < 128 → Forall (λ x, 128 <= byte_val x) p →
  read_step (p ++ b :: rest) (S (length p)) bound last =
    if byte_val b <? bound then Ok (wrap_u 64 (value_of (p ++ [b])), Z.of_nat (S (length p)))
    else last.
Proof.
  intros Hb Hp. unfold read_step. rewrite Nat.sub_succ, Nat.sub_0_r.
  rewrite list_lookup_middle by done. by rewrite known_size_spec.
Qed.

(** The unrolled reader on a terminated code of at most [m] groups. *)
Lemma ptr_steps p b rest m last : byte_val b < 128 → Forall (λ x, 128 <= byte_val x) p →
  (length p < m)%nat →
  foldr (λ size, read_step (p ++ b :: rest) size 0x80) last (seq 1 m) =
    Ok (wrap_u 64 (value_of (p ++ [b])), Z.of_nat (S (length p))).
Proof.
  intros Hb Hp Hm. replace m with (length p + S (m - length p - 1))%nat by lia.
  rewrite seq_app, foldr_app, steps_skip by (done || lia).
  cbn [seq foldr]. replace (1 + length p)%nat with (S (length p)) by lia.
  rewrite step_hit by done. by destruct (Z.ltb_spec (byte_val b) 0x80); [|lia].
Qed.

(** Every buffer of [n] bytes starts with a terminated code or with [n]
    flagged bytes. *)
Lemma code_cases n input : (n <= length input)%nat →
  (∃ p b rest, input = p ++ b :: rest ∧ byte_val b < 128 ∧
     Forall (λ x, 128 <= byte_val x) p ∧ (length p < n)%nat) ∨
  (∃ p rest, input = p ++ rest ∧ length p = n ∧ Forall (λ x, 128 <= byte_val x) p).
Proof.
  revert input. induction n as [|n IH]; intros input Hn.
  - right. by exists [], input.
  - destruct input as [|x input]; [simpl in Hn; lia|]. simpl in Hn.
    destruct (Z.ltb_spec (byte_val x) 128).
    + left. exists [], x, input. split_and!; [done..|simpl; lia].
    + destruct (IH input ltac:(lia)) as [(p & b & rest & -> & Hb & Hp & Hl)|(p & rest & -> & Hl & Hp)].
      * left. exists (x :: p), b, rest. split_and!; [done|done|by constructor|simpl; lia].
      * right. exists (x :: p), rest. split_and!; [done|simpl; lia|by constructor].
Qed.

Lemma shape_of p b : byte_val b < 128 → Forall (λ x, 128 <= byte_val x) p → shape (p ++ [b]) = true.
Proof.
  intros Hb Hp. induction Hp as [|x p Hx Hp IH]; cbn [app shape].
  - by destruct (Z.ltb_spec (byte_val b) 128); [|lia].
  - by destruct (Z.ltb_spec (byte_val x) 128); [lia|].
Qed.

Lemma ReadVarUint64_bytes_write v rest : in_u 64 v →
  ReadVarUint64_bytes (WriteVarUint64 v ++ rest) =
    Ok (v, Z.of_nat (length (WriteVarUint64 v)), rest).
Proof.
  intros Hv. destruct (WriteVarUint64_spec v Hv) as (Hs & Hval & Hlen).
  unfold ReadVarUint64_bytes. rewrite read_loop_spec; [|done|lia|lia|unfold in_u; lia].
  rewrite Hval. replace (0 + v * 2 ^ (7 * 0)) with v by lia. by rewrite wrap_u_id.
Qed.

Lemma ptr_spec p b rest : byte_val b < 128 → Forall (λ x, 128 <= byte_val x) p →
  (length p < 10)%nat →
  ReadVarUint64_ptr (p ++ b :: rest) =
    if (Nat.ltb (length p) 9 || (byte_val b <? 2))
    then Ok (wrap_u 64 (value_of (p ++ [b])), Z.of_nat (S (length p)))
    else Throw EVarintOverflow.
Proof.
  intros Hb Hp Hl. unfold ReadVarUint64_ptr. destruct (Nat.ltb_spec (length p) 9).
  - by rewrite ptr_steps.
  - assert (length p = 9%nat) as H9 by lia. rewrite steps_skip by (done || lia).
    rewrite <- H9 at 1. rewrite <- Nat.add_1_r, Nat.add_comm.
    change (1 + length p)%nat with (S (length p)). by rewrite step_hit.
Qed.

Lemma bytes_spec p b rest : byte_val b < 128 → Forall (λ x, 128 <= byte_val x) p →
  (length p < 10)%nat →
  ReadVarUint64_bytes (p ++ b :: rest) =
    Ok (wrap_u 64 (value_of (p ++ [b])), Z.of_nat (S (length p)), rest).
Proof.
  intros Hb Hp Hl. unfold ReadVarUint64_bytes.
  replace (p ++ b :: rest) with ((p ++ [b]) ++ rest) by by rewrite <- app_assoc.
  rewrite read_loop_spec; [|by apply shape_of|lia|rewrite length_app; simpl; lia|unfold in_u; lia].
  rewrite length_app. do 3 f_equal; [f_equal; lia|simpl; lia].
Qed.

Lemma ptr_write v rest : in_u 64 v →
  ReadVarUint64_ptr (WriteVarUint64 v ++ rest) = Ok (v, Z.of_nat (length (WriteVarUint64 v))).
Proof.
  intros Hv. destruct (WriteVarUint64_spec v Hv) as (Hs & Hval & Hlen).
  destruct (shape_snoc _ Hs) as (p & b & E & Hb & Hp). rewrite E in *.
  rewrite <- app_assoc. cbn [app]. rewrite length_app in *. cbn [length] in *.
  rewrite ptr_spec by (done || lia). rewrite Hval, wrap_u_id by done.
  replace (length p + 1)%nat with (S (length p)) by lia.
  destruct (Nat.ltb_spec (length p) 9); [done|]. assert (length p = 9%nat) as H9 by lia.
  destruct (Z.ltb_spec (byte_val b) 2) as [|Hb2]; [done|]. exfalso.
  rewrite value_of_app, H9 in Hval. cbn [value_of] in Hval. rewrite Z.mod_small in Hval.
  - destruct Hv as [_ Hv]. pose proof (value_of_nonneg p).
    change (2 ^ (7 * Z.of_nat 9)) with (2 ^ 63) in Hval. change (2 ^ 64) with (2 * 2 ^ 63) in Hv. nia.
  - pose proof (byte_val_range b). lia.
Qed.

Lemma length_WriteVarUint32 v : in_u 32 v → (length (WriteVarUint32 v) <= 5)%nat.
Proof.
  intros [H0 H1]. unfold WriteVarUint32. rewrite WriteVarUint64_digits. apply length_digits; [lia|].
  split; [done|]. eapply Z.lt_le_trans; [exact H1|]. apply Z.pow_le_mono_r; lia.
Qed.

Lemma ptr32_write v rest : in_u 32 v →
  ReadVarUint32_ptr (WriteVarUint32 v ++ rest) = Ok (v, Z.of_nat (length (WriteVarUint32 v))).
Proof.
  intros Hv. assert (in_u 64 v) as Hv64 by (unfold in_u in *; lia).
  pose proof (length_WriteVarUint32 v Hv) as Hl. unfold WriteVarUint32 in *.
  destruct (WriteVarUint64_spec v Hv64) as (Hs & Hval & _).
  destruct (shape_snoc _ Hs) as (p & b & E & Hb & Hp). rewrite E in *.
  rewrite <- app_assoc. cbn [app]. rewrite length_app in *. cbn [length] in *.
  replace (length p + 1)%nat with (S (length p)) by lia. unfold ReadVarUint32_ptr.
  destruct (Nat.ltb_spec (length p) 4).
  - rewrite ptr_steps by (done || lia). simpl. by rewrite Hval, (wrap_u_id 64), wrap_u_id by done.
  - assert (length p = 4%nat) as H4 by lia. rewrite steps_skip by (done || lia).
    change 5%nat with (S 4). rewrite <- H4, step_hit by done. destruct (Z.ltb_spec (byte_val b) 0x10) as [|Hb16].
    + simpl. by rewrite Hval, (wrap_u_id 64), wrap_u_id by done.
    + exfalso. rewrite value_of_app, H4 in Hval. cbn [value_of] in Hval. rewrite Z.mod_small in Hval by (pose proof (byte_val_range b); lia).
      destruct Hv as [_ Hv]. pose proof (value_of_nonneg p).
      change (2 ^ (7 * Z.of_nat 4)) with (2 ^ 28) in Hval. change (2 ^ 32) with (16 * 2 ^ 28) in Hv. nia.
Qed.

Lemma int64_ptr_write v rest : in_s 64 v →
  ReadVarInt64_ptr (WriteVarInt64 v ++ rest) = Ok (v, Z.of_nat (length (WriteVarInt64 v))).
Proof.
  intros Hv. unfold ReadVarInt64_ptr, WriteVarInt64, ZigZag.ZigZagEncode64.
  rewrite ptr_write by (by apply ZigZag.encode_range). simpl. unfold ZigZag.ZigZagDecode64. by rewrite ZigZag.decode_encode.
Qed.

Lemma range_write v rest : in_u 64 v →
  ReadVarUint64_range (WriteVarUint64 v ++ rest) = Ok (v, Z.of_nat (length (WriteVarUint64 v))).
Proof.
  intros Hv. unfold ReadVarUint64_range. destruct (Nat.leb _ _).
  - by apply ptr_write.
  - by rewrite ReadVarUint64_bytes_write.
Qed.

(** The unrolled pointer reader refines the byte-by-byte reader: on a buffer of at
    least ten bytes it never reads outside the buffer, whatever it returns is what the
    byte-by-byte reader returns (value, byte count and position), the value fits 64
    bits, and it throws exactly when nine flagged bytes are followed by a tenth that
    carries more than the one remaining bit. *)
Theorem ReadVarUint64_ptr_refines (input : list byte) (Hlen : (10 <= length input)%nat) :
  match ReadVarUint64_ptr input with
  | Ok (v, c) =>
      ReadVarUint64_bytes input = Ok (v, c, drop (Z.to_nat c) input) ∧ in_u 64 v ∧ 1 <= c <= 10
  | Throw e =>
      e = EVarintOverflow ∧ Forall (λ b, 128 <= byte_val b) (take 9 input) ∧
      ∃ b, input !! 9%nat = Some b ∧ 2 <= byte_val b
  | _ => False
  end.
Proof.
  destruct (code_cases 10 input Hlen) as [(p & b & rest & -> & Hb & Hp & Hl)|(p & rest & -> & Hl & Hp)].
  - rewrite ptr_spec, bytes_spec by done.
    destruct (Nat.ltb_spec (length p) 9); [|destruct (Z.ltb_spec (byte_val b) 2)]; cbn [orb].
    1,2: split_and!; [|apply wrap_u_range; lia|lia..];
      rewrite Nat2Z.id; do 2 f_equal;
      replace (p ++ b :: rest) with ((p ++ [b]) ++ rest) by (by rewrite <- app_assoc);
      rewrite drop_app_length'; [done|rewrite length_app; simpl; lia].
    assert (length p = 9%nat) as H9 by lia. split_and!; [done|by rewrite take_app_length'|].
    exists b. rewrite <- H9. by rewrite list_lookup_middle.
  - unfold ReadVarUint64_ptr. rewrite steps_skip by (done || lia). unfold read_step.
    destruct (lookup_lt_is_Some_2 p 9 ltac:(lia)) as [b Hb].
    change (10 - 1)%nat with 9%nat. rewrite lookup_app_l, Hb by lia.
    pose proof (proj1 (Forall_lookup _ _) Hp _ _ Hb) as Hb128. simpl in Hb128.
    destruct (Z.ltb_spec (byte_val b) 0x02); [lia|]. split_and!; [done| |].
    + rewrite take_app_le by lia. by apply Forall_take.
    + exists b. split; [done|lia].
Qed.

Lemma ReadVarUint64_ptr_refines_witness :
  ReadVarUint64_ptr (WriteVarUint64 624485 ++ replicate 10 x00) = Ok (624485, 3) ∧
  ReadVarUint64_bytes (WriteVarUint64 624485 ++ replicate 10 x00) = Ok (624485, 3, replicate 10 x00).
Proof.
  pose proof (ReadVarUint64_ptr_refines (WriteVarUint64 624485 ++ replicate 10 x00)
                ltac:(vm_compute; lia)) as H.
  vm_compute in H |- *. destruct H as [H _]. by split.
Defined.

(** Reading back what was written: for every 64-bit value all three readers (the
    pointer reader, the byte-by-byte stream reader and the range reader) return the value
    and the number of bytes the writer produced, whatever follows, and the signed 32- and
    64-bit variants return the signed value that was encoded. *)
Theorem varint_roundtrip (v i32 i64 : Z) (rest : list byte)
    (Hv : in_u 64 v) (Hi32 : in_s 32 i32) (Hi64 : in_s 64 i64) :
  ReadVarUint64_ptr (WriteVarUint64 v ++ rest) = Ok (v, Z.of_nat (length (WriteVarUint64 v))) ∧
  ReadVarUint64_bytes (WriteVarUint64 v ++ rest)
    = Ok (v, Z.of_nat (length (WriteVarUint64 v)), rest) ∧
  ReadVarUint64_range (WriteVarUint64 v ++ rest) = Ok (v, Z.of_nat (length (WriteVarUint64 v))) ∧
  ReadVarInt32_range (WriteVarInt32 i32 ++ rest)
    = Ok (i32, Z.of_nat (length (WriteVarInt32 i32))) ∧
  ReadVarInt64_range (WriteVarInt64 i64 ++ rest)
    = Ok (i64, Z.of_nat (length (WriteVarInt64 i64))) ∧
  (1 <= length (WriteVarUint64 v) <= MaxVarUint64Size)%nat.
Proof.
  pose proof (ZigZag.encode_range 32 i32 ltac:(lia) Hi32) as H32.
  pose proof (ZigZag.encode_range 64 i64 ltac:(lia) Hi64) as H64.
  destruct (WriteVarUint64_spec v Hv) as (_ & _ & Hlen).
  split_and!; [by apply ptr_write|by apply ReadVarUint64_bytes_write|by apply range_write| | | |done].
  - unfold ReadVarInt32_range, WriteVarInt32, ZigZag.ZigZagEncode32.
    rewrite range_write by (unfold in_u in *; lia). simpl. unfold ZigZag.ZigZagDecode32, max_u.
    destruct (Z.gtb_spec (ZigZag.encode 32 i32) (2 ^ 32 - 1)); [unfold in_u in H32; lia|].
    by rewrite ZigZag.decode_encode.
  - unfold ReadVarInt64_range, WriteVarInt64, ZigZag.ZigZagEncode64.
    rewrite range_write by done. simpl. unfold ZigZag.ZigZagDecode64.
    by rewrite ZigZag.decode_encode.
  - apply length_WriteVarUint64_pos.
Qed.

Lemma varint_roundtrip_witness :
  in_u 64 (2 ^ 64 - 1) ∧ in_s 32 (- 2 ^ 31) ∧ in_s 64 (- 2 ^ 63) ∧
  ReadVarUint64_range (WriteVarUint64 (2 ^ 64 - 1) ++ [x00]) = Ok (2 ^ 64 - 1, 10).
Proof.
  assert (in_u 64 (2 ^ 64 - 1)) as H1 by (vm_compute; intuition discriminate).
  assert (in_s 32 (- 2 ^ 31)) as H2 by (vm_compute; intuition discriminate).
  assert (in_s 64 (- 2 ^ 63)) as H3 by (vm_compute; intuition discriminate).
  destruct (varint_roundtrip (2 ^ 64 - 1) (- 2 ^ 31) (- 2 ^ 63) [x00] H1 H2 H3)
    as (_ & _ & H & _).
  split; [exact H1|]. split; [exact H2|]. split; [exact H3|]. rewrite H. by vm_compute.
Defined.

End Varint.
