(* ===== verification/IntCast.v ===== *)
(** Decimal, octal and hexadecimal integers as text: the integer part of
    [util/string/cast.cpp] and [TIntStringBuf] of [util/string/cast.h].

    All integer types go through a 64-bit accumulator and a pair of bounds
    ([TBounds]); short inputs take an unrolled path without overflow checks.
    Shown here: both paths accept exactly the digit strings whose value is
    within the bound and return that value, and reading what [ToString] printed
    gives the number back. *)

From S2P Require Import Prelude.

Definition LetterToIntMap : list Z :=
  replicate 48 20 ++ [0; 1; 2; 3; 4; 5; 6; 7; 8; 9] ++ replicate 7 20 ++
  [10; 11; 12; 13; 14; 15] ++ replicate 26 20 ++ [10; 11; 12; 13; 14; 15].

(** Both [CharToDigit] overloads: a table for bases above ten, a subtraction
    below. *)
Definition CharToDigit (base : Z) (c : byte) : option Z :=
  if base >? 10 then
    match LetterToIntMap !! Z.to_nat (byte_val c) with
    | None => None
    | Some digit => if digit <? base then Some digit else None
    end
  else if byte_val c >=? 48 then
    let digit := byte_val c - 48 in
    if digit <? base then Some digit else None
  else None.

Inductive EParseStatus : Set :=
| PS_EMPTY_STRING | PS_PLUS_STRING | PS_MINUS_STRING | PS_BAD_SYMBOL | PS_OVERFLOW.

Inductive parse_result : Set :=
| PS_OK (target : Z)
| PS_ERROR (status : EParseStatus).

Module TBasicIntParser.

(** The row of [SAFE_LENS] for eight-byte accumulators. *)
Definition SAFE_LENS_8 : list Z :=
  [0; 0; 63; 40; 31; 27; 24; 22; 21; 20; 19; 18; 17; 17; 16; 16; 15].

(** The two loops of [ParseFast]: digits in pairs, then one by one. *)
Fixpoint fast_pairs (base result : Z) (pos : list byte) {struct pos} : Z * list byte :=
  match pos with
  | c1 :: ((c2 :: rest) as _) =>
      match CharToDigit base c1, CharToDigit base c2 with
      | Some d1, Some d2 => fast_pairs base (wrap_u 64 (result * (base * base) + d1 * base + d2)) rest
      | _, _ => (result, pos)
      end
  | _ => (result, pos)
  end.

Fixpoint fast_singles (base result : Z) (pos : list byte) : Z * list byte :=
  match pos with
  | [] => (result, [])
  | c :: rest =>
      match CharToDigit base c with
      | Some d => fast_singles base (wrap_u 64 (result * base + d)) rest
      | None => (result, pos)
      end
  end.

Definition ParseFast (base : Z) (pos : list byte) : option Z :=
  let '(result, pos) := fast_pairs base 0 pos in
  let '(result, pos) := fast_singles base result pos in
  match pos with [] => Some result | _ => None end.

Fixpoint slow_loop (base max result : Z) (pos : list byte) : parse_result :=
  match pos with
  | [] => PS_OK result
  | c :: rest =>
      match CharToDigit base c with
      | None => PS_ERROR PS_BAD_SYMBOL
      | Some digit =>
          if result >? max / base then PS_ERROR PS_OVERFLOW
          else
            let result := wrap_u 64 (result * base) in
            if result >? wrap_u 64 (max - digit) then PS_ERROR PS_OVERFLOW
            else slow_loop base max (wrap_u 64 (result + digit)) rest
      end
  end.

Definition ParseSlow (base max : Z) (pos : list byte) : parse_result := slow_loop base max 0 pos.

Definition Parse (base max : Z) (pos : list byte) : parse_result :=
  let fast :=
    if Z.of_nat (length pos) <=? nth (Z.to_nat base) SAFE_LENS_8 0
    then ParseFast base pos else None in
  match fast with
  | Some result => if result <=? max then PS_OK result else ParseSlow base max pos
  | None => ParseSlow base max pos
  end.

(** ** Reference: the value of a string of digits *)

Fixpoint value_from (base acc : Z) (ds : list byte) : option Z :=
  match ds with
  | [] => Some acc
  | c :: ds =>
      match CharToDigit base c with
      | Some d => value_from base (acc * base + d) ds
      | None => None
      end
  end.

Definition digits_value (base : Z) (ds : list byte) : option Z := value_from base 0 ds.

Lemma CharToDigit_range base c d : 2 <= base → CharToDigit base c = Some d → 0 <= d < base.
Proof.
  intros Hb. unfold CharToDigit. destruct (Z.gtb_spec base 10).
  - destruct (LetterToIntMap !! _) as [x|] eqn:E; [|done].
    assert (Forall (λ x, 0 <= x) LetterToIntMap) as H0
      by (apply (bool_decide_unpack _); by vm_compute).
    pose proof (proj1 (Forall_lookup _ _) H0 _ _ E) as Hx. simpl in Hx.
    destruct (Z.ltb_spec x base); naive_solver lia.
  - destruct (Z.geb_spec (byte_val c) 48); [|done].
    destruct (Z.ltb_spec (byte_val c - 48) base); naive_solver lia.
Qed.

Lemma value_from_ge base acc ds v : 2 <= base → 0 <= acc → value_from base acc ds = Some v → acc <= v.
Proof.
  intros Hb. revert acc. induction ds as [|c ds IH]; intros acc Ha; simpl; [naive_solver lia|].
  destruct (CharToDigit base c) as [d|] eqn:E; [|done].
  pose proof (CharToDigit_range _ _ _ Hb E). intros Hv. apply IH in Hv; nia.
Qed.

Lemma value_from_lt base acc ds v : 2 <= base → 0 <= acc → value_from base acc ds = Some v →
  v < (acc + 1) * base ^ Z.of_nat (length ds).
Proof.
  intros Hb. revert acc. induction ds as [|c ds IH]; intros acc Ha.
  - cbn [value_from length]. intros [= ->]. change (base ^ Z.of_nat 0) with 1. lia.
  - cbn [value_from length]. destruct (CharToDigit base c) as [d|] eqn:E; [|done].
    pose proof (CharToDigit_range _ _ _ Hb E). intros Hv%IH; [|nia].
    rewrite Nat2Z.inj_succ, Z.pow_succ_r by lia.
    assert (0 < base ^ Z.of_nat (length ds)) by (apply Z.pow_pos_nonneg; lia). nia.
Qed.

(** The checked loop computes the reference value, or stops at the first
    prefix whose value exceeds [max]. *)
Lemma slow_loop_spec base max result ds :
  2 <= base → base <= max < 2 ^ 64 → 0 <= result <= max →
  match slow_loop base max result ds with
  | PS_OK v => value_from base result ds = Some v ∧ v <= max
  | PS_ERROR _ => ∀ v, value_from base result ds = Some v → max < v
  end.
Proof.
  intros Hb Hm. revert result. induction ds as [|c ds IH]; intros result Hr.
  - simpl. split; [done|lia].
  - cbn [slow_loop value_from]. destruct (CharToDigit base c) as [d|] eqn:E; [|done].
    pose proof (CharToDigit_range _ _ _ Hb E) as Hd.
    assert (∀ v, value_from base (result * base + d) ds = Some v → result * base + d <= v) as Hge
      by (intros v; apply value_from_ge; nia).
    destruct (Z.gtb_spec result (max / base)) as [Hgt|Hle].
    + intros v Hv%Hge. pose proof (Z.mul_succ_div_gt max base ltac:(lia)). nia.
    + assert (result * base <= max) by (pose proof (Z.mul_div_le max base ltac:(lia)); nia).
      rewrite (wrap_u_id 64 (result * base)) by (unfold in_u; nia).
      rewrite (wrap_u_id 64 (max - d)) by word.
      destruct (Z.gtb_spec (result * base) (max - d)) as [Hgt|Hle'].
      * intros v Hv%Hge. lia.
      * rewrite (wrap_u_id 64 (result * base + d)) by word. apply IH. lia.
Qed.

(** Without wrap-around the unchecked loops compute the same value. *)
Lemma fast_pairs_spec base result ds r rest :
  2 <= base → 0 <= result → (result + 1) * base ^ Z.of_nat (length ds) <= 2 ^ 64 →
  fast_pairs base result ds = (r, rest) →
  value_from base result ds = value_from base r rest ∧ 0 <= r ∧
  (r + 1) * base ^ Z.of_nat (length rest) <= 2 ^ 64.
Proof.
  intros Hb. remember (length ds) as n eqn:Hn. revert result ds Hn.
  induction n as [n IH] using lt_wf_ind. intros result ds -> Hr Hlim.
  destruct ds as [|c1 [|c2 ds]]; [by intros [= <- <-]..|]. cbn [fast_pairs value_from].
  destruct (CharToDigit base c1) as [d1|] eqn:E1; [|intros [= <- <-]; simpl; by rewrite E1].
  destruct (CharToDigit base c2) as [d2|] eqn:E2;
    [|intros [= <- <-]; simpl; by rewrite E1, E2].
  pose proof (CharToDigit_range _ _ _ Hb E1). pose proof (CharToDigit_range _ _ _ Hb E2).
  cbn [length] in Hlim. rewrite !Nat2Z.inj_succ, !Z.pow_succ_r in Hlim by lia.
  assert (0 < base ^ Z.of_nat (length ds)) as Hp by (apply Z.pow_pos_nonneg; lia).
  set (P := base ^ Z.of_nat (length ds)) in *.
  replace ((result * base + d1) * base + d2)
    with (result * (base * base) + d1 * base + d2) by ring.
  assert (result * (base * base) + d1 * base + d2 + 1 <= (result + 1) * (base * base)) by nia.
  assert (((result + 1) * (base * base)) * P <= 2 ^ 64) by nia.
  rewrite wrap_u_id by (unfold in_u; nia). intros H'.
  by apply (IH (length ds)) in H'; [|simpl; lia|done|nia|fold P; nia].
Qed.

Lemma fast_singles_spec base result ds r rest :
  2 <= base → 0 <= result → (result + 1) * base ^ Z.of_nat (length ds) <= 2 ^ 64 →
  fast_singles base result ds = (r, rest) →
  value_from base result ds = match rest with [] => Some r | _ => None end.
Proof.
  intros Hb. revert result. induction ds as [|c ds IH]; intros result Hr Hlim.
  - by intros [= <- <-].
  - cbn [fast_singles value_from]. destruct (CharToDigit base c) as [d|] eqn:E; [|by intros [= <- <-]].
    pose proof (CharToDigit_range _ _ _ Hb E).
    cbn [length] in Hlim. rewrite Nat2Z.inj_succ, Z.pow_succ_r in Hlim by lia.
    assert (0 < base ^ Z.of_nat (length ds)) as Hp by (apply Z.pow_pos_nonneg; lia).
    set (P := base ^ Z.of_nat (length ds)) in *.
    assert ((result * base + d + 1) * P <= (result + 1) * base * P) by nia.
    rewrite wrap_u_id by (unfold in_u; nia). apply IH; [nia|]. fold P. nia.
Qed.

Lemma ParseFast_spec base ds :
  2 <= base → base ^ Z.of_nat (length ds) <= 2 ^ 64 → ParseFast base ds = digits_value base ds.
Proof.
  intros Hb Hlim. unfold ParseFast, digits_value.
  destruct (fast_pairs base 0 ds) as [r1 p1] eqn:E1.
  apply fast_pairs_spec in E1 as (-> & Hr1 & Hlim1); [|done|lia|lia].
  destruct (fast_singles base r1 p1) as [r2 p2] eqn:E2.
  apply fast_singles_spec in E2 as ->; [|done..]. by destruct p2.
Qed.

(** The lengths of [SAFE_LENS] are safe. *)
Lemma SAFE_LENS_safe base : 2 <= base <= 16 → base ^ nth (Z.to_nat base) SAFE_LENS_8 0 <= 2 ^ 64.
Proof.
  intros Hb. assert (forallb (λ n, Z.of_nat n ^ nth n SAFE_LENS_8 0 <=? 2 ^ 64) (seq 2 15) = true) as H
    by by vm_compute.
  rewrite forallb_forall in H. specialize (H (Z.to_nat base)).
  rewrite Z2Nat.id in H by lia. apply Z.leb_le, H, in_seq. lia.
Qed.

Lemma Parse_ok base max ds v :
  2 <= base <= 16 → base <= max < 2 ^ 64 →
  Parse base max ds = PS_OK v ↔ digits_value base ds = Some v ∧ v <= max.
Proof.
  intros Hb Hm. unfold Parse.
  assert (ParseSlow base max ds = PS_OK v ↔ digits_value base ds = Some v ∧ v <= max) as Hslow.
  { unfold ParseSlow, digits_value. pose proof (slow_loop_spec base max 0 ds) as H.
    specialize (H ltac:(lia) ltac:(lia) ltac:(lia)).
    destruct (slow_loop base max 0 ds) as [u|e]; [by destruct H as [-> H]; split; [intros [= <-]|intros [[= <-] _]]|].
    split; [done|]. intros [Hv Hle]. apply H in Hv. lia. }
  destruct (Z.leb_spec (Z.of_nat (length ds)) (nth (Z.to_nat base) SAFE_LENS_8 0)); [|done].
  rewrite ParseFast_spec; [|lia|].
  - destruct (digits_value base ds) as [u|]; [|done].
    destruct (Z.leb_spec u max); [|done].
    split; [by intros [= <-]|by intros [[= <-] _]].
  - etrans; [apply Z.pow_le_mono_r; [lia|eassumption]|]. by apply SAFE_LENS_safe.
Qed.

End TBasicIntParser.

(** [NegatePositiveSigned], written so that [2^63] does not overflow. *)
Definition NegatePositiveSigned (value : Z) : Z :=
  if value >? 0 then - wrap_s 64 (value - 1) - 1 else 0.

(** [TBounds<ui64>]. *)
Record TBounds := { PositiveMax : Z; NegativeMax : Z }.

Definition llSBounds : TBounds := {| PositiveMax := max_s 64; NegativeMax := max_u 64 - max_s 64 |}.
Definition llUBounds : TBounds := {| PositiveMax := max_u 64; NegativeMax := 0 |}.
Definition iSBounds : TBounds := {| PositiveMax := max_s 32; NegativeMax := max_u 32 - max_s 32 |}.
Definition iUBounds : TBounds := {| PositiveMax := max_u 32; NegativeMax := 0 |}.
Definition sUBounds : TBounds := {| PositiveMax := max_u 16; NegativeMax := 0 |}.

(** [TIntParser<T, base, char>::Parse]. *)
Definition TIntParser_Parse (isSigned : bool) (base : Z) (bounds : TBounds) (data : list byte)
    : parse_result :=
  match data with
  | [] => PS_ERROR PS_EMPTY_STRING
  | c :: rest =>
      let finish (max : Z) (negative : bool) (pos : list byte) :=
        match TBasicIntParser.Parse base max pos with
        | PS_ERROR e => PS_ERROR e
        | PS_OK result =>
            PS_OK (if isSigned
                   then if negative then NegatePositiveSigned result else wrap_s 64 result
                   else result)
        end in
      if Byte.eqb c "+" then
        match rest with [] => PS_ERROR PS_PLUS_STRING | _ => finish (PositiveMax bounds) false rest end
      else if isSigned && Byte.eqb c "-" then
        match rest with [] => PS_ERROR PS_MINUS_STRING | _ => finish (NegativeMax bounds) true rest end
      else finish (PositiveMax bounds) false data
  end.

(** [ParseInt] / [TryParseInt]: a failed status becomes an exception / [false]. *)
Definition ParseInt (isSigned : bool) (base : Z) (bounds : TBounds) (data : list byte) : Result Z :=
  match TIntParser_Parse isSigned base bounds data with
  | PS_OK v => Ok v
  | PS_ERROR _ => Throw EFromString
  end.

Definition TryParseInt (isSigned : bool) (base : Z) (bounds : TBounds) (data : list byte) : option Z :=
  match TIntParser_Parse isSigned base bounds data with
  | PS_OK v => Some v
  | PS_ERROR _ => None
  end.

(** The instances of [FromString] and [IntFromString] the SDK code calls. *)
Definition FromString_i64 (data : list byte) : Result Z := ParseInt true 10 llSBounds data.
Definition FromString_ui64 (data : list byte) : Result Z := ParseInt false 10 llUBounds data.
Definition FromString_int (data : list byte) : Result Z := ParseInt true 10 iSBounds data.
Definition TryFromString_i64 (data : list byte) : option Z := TryParseInt true 10 llSBounds data.
Definition TryIntFromString16_ui16 (data : list byte) : option Z := TryParseInt false 16 sUBounds data.
Definition IntFromString_ui32 (base : Z) (data : list byte) : Result Z := ParseInt false base iUBounds data.

(** [TIntStringBuf<T, 10>::ConvertUnsigned]: the loop fills the buffer from its
    end; [room] is [be - buf]. *)
Fixpoint convert_loop (room : nat) (t : Z) (acc : list byte) : Result (list byte) :=
  if t >? 0 then
    match room with
    | O => Throw EInvalidArgument
    | S room => let v := t / 10 in convert_loop room v (byte_of (t - 10 * v + 48) :: acc)
    end
  else Ok acc.

Definition ConvertUnsigned (t : Z) (bufLen : nat) : Result (list byte) :=
  match bufLen with
  | O => Throw EInvalidArgument
  | _ => if t =? 0 then Ok ["0"%byte] else convert_loop bufLen t []
  end.

(** [TIntStringBuf<T, 10>::Convert] with [bufLen] already cut to [bufferSize]:
    21 characters for both 64-bit types. *)
Definition bufferSize : nat := 21.

Definition Convert (t : Z) : Result (list byte) :=
  if t <? 0 then
    let mt := wrap_u 64 (wrap_u 64 (- (t + 1)) + 1) in
    out ← ConvertUnsigned mt (bufferSize - 1);
    Ok ("-"%byte :: out)
  else ConvertUnsigned t bufferSize.

(** [::ToString] of an [i64] or a [ui64]. *)
Definition ToString_int (value : Z) : Result (list byte) := Convert value.

(** ** Reference: a signed literal *)

Definition int_literal (isSigned : bool) (base : Z) (data : list byte) : option Z :=
  match data with
  | [] => None
  | c :: rest =>
      if Byte.eqb c "+" then
        match rest with [] => None | _ => TBasicIntParser.digits_value base rest end
      else if isSigned && Byte.eqb c "-" then
        match rest with [] => None | _ => Z.opp <$> TBasicIntParser.digits_value base rest end
      else TBasicIntParser.digits_value base data
  end.

Lemma Negate_spec v : 0 <= v <= 2 ^ 63 → NegatePositiveSigned v = - v.
Proof.
  intros Hv. unfold NegatePositiveSigned. destruct (Z.gtb_spec v 0); [|lia].
  rewrite wrap_s_id; [lia|lia|unfold in_s; lia].
Qed.

Lemma digits_value_nonneg base ds v : 2 <= base →
  TBasicIntParser.digits_value base ds = Some v → 0 <= v.
Proof. intros Hb. apply TBasicIntParser.value_from_ge; lia. Qed.

(** What [ParseInt] makes of the digits behind the sign. *)
Lemma finish_spec base max ds v (f g : Z → Z) :
  2 <= base <= 16 → base <= max < 2 ^ 64 → (∀ u, 0 <= u <= max → f u = g u) →
  match match TBasicIntParser.Parse base max ds with
        | PS_ERROR e => PS_ERROR e | PS_OK r => PS_OK (f r) end
  with PS_OK u => Ok u | PS_ERROR _ => Throw EFromString end = Ok v ↔
  ∃ u, TBasicIntParser.digits_value base ds = Some u ∧ u <= max ∧ v = g u.
Proof.
  intros Hb Hm Hfg. pose proof (TBasicIntParser.Parse_ok base max ds) as H.
  destruct (TBasicIntParser.Parse base max ds) as [u|e].
  - destruct (proj1 (H u Hb Hm) eq_refl) as [Hu Hle].
    pose proof (digits_value_nonneg base ds u ltac:(lia) Hu).
    rewrite Hfg by lia. split.
    + intros [= <-]. by exists u.
    + intros (u' & Hu' & _ & ->). rewrite Hu in Hu'. by injection Hu' as ->.
  - split; [done|]. intros (u & Hu & Hle & _).
    by pose proof (proj2 (H u Hb Hm) (conj Hu Hle)).
Qed.

Lemma ParseInt_signed base bounds data v :
  2 <= base <= 16 → base <= PositiveMax bounds < 2 ^ 63 → base <= NegativeMax bounds <= 2 ^ 63 →
  ParseInt true base bounds data = Ok v ↔
  int_literal true base data = Some v ∧ - NegativeMax bounds <= v <= PositiveMax bounds.
Proof.
  intros Hb Hp Hn. unfold ParseInt, TIntParser_Parse, int_literal.
  assert (∀ u, 0 <= u <= PositiveMax bounds → wrap_s 64 u = id u) as Hpos
    by (intros; unfold id; apply wrap_s_id; unfold in_s; lia).
  assert (∀ u, 0 <= u <= NegativeMax bounds → NegatePositiveSigned u = - u) as Hneg
    by (intros; apply Negate_spec; lia).
  assert (∀ ds, (∃ u, TBasicIntParser.digits_value base ds = Some u ∧ u <= PositiveMax bounds ∧ v = id u) ↔
    TBasicIntParser.digits_value base ds = Some v ∧ - NegativeMax bounds <= v <= PositiveMax bounds) as Hfin.
  { intros ds. split.
    - intros (u & Hu & Hle & ->). apply digits_value_nonneg in Hu as Hge; [|lia].
      split; [done|]. unfold id. lia.
    - intros [Hv Hr]. exists v. split_and!; [done|lia|done]. }
  destruct data as [|c rest]; [by split; [|intros [? _]]|]. destruct (Byte.eqb c "+").
  { destruct rest as [|c' rest]; [by split; [|intros [? _]]|].
    rewrite (finish_spec _ _ _ _ _ id) by (done || lia). apply Hfin. }
  cbn [andb]. destruct (Byte.eqb c "-").
  - destruct rest as [|c' rest]; [by split; [|intros [? _]]|].
    rewrite (finish_spec _ _ _ _ _ Z.opp) by (done || lia).
    set (ds := c' :: rest). split.
    + intros (u & Hu & Hle & ->). apply digits_value_nonneg in Hu as Hge; [|lia].
      rewrite Hu. split; [done|lia].
    + destruct (TBasicIntParser.digits_value base ds) as [u|]; [|by intros [? _]].
      intros [[= <-] Hr]. exists u. split_and!; [done|lia|done].
  - rewrite (finish_spec _ _ _ _ _ id) by (done || lia). apply Hfin.
Qed.

Lemma ParseInt_unsigned base bounds data v :
  2 <= base <= 16 → base <= PositiveMax bounds < 2 ^ 64 →
  ParseInt false base bounds data = Ok v ↔
  int_literal false base data = Some v ∧ v <= PositiveMax bounds.
Proof.
  intros Hb Hp. unfold ParseInt, TIntParser_Parse, int_literal.
  assert (∀ ds, (∃ u, TBasicIntParser.digits_value base ds = Some u ∧ u <= PositiveMax bounds ∧ v = id u) ↔
    TBasicIntParser.digits_value base ds = Some v ∧ v <= PositiveMax bounds) as Hfin.
  { intros ds. split; [by intros (u & Hu & Hle & ->)|]. intros [Hv Hr]. by exists v. }
  destruct data as [|c rest]; [by split; [|intros [? _]]|]. destruct (Byte.eqb c "+").
  - destruct rest as [|c' rest]; [by split; [|intros [? _]]|].
    rewrite (finish_spec _ _ _ _ (λ u, u) id) by (done || lia). apply Hfin.
  - cbn [andb]. rewrite (finish_spec _ _ _ _ (λ u, u) id) by (done || lia). apply Hfin.
Qed.

Lemma ParseInt_total isSigned base bounds data :
  is_ok (ParseInt isSigned base bounds data) = true ∨
  ParseInt isSigned base bounds data = Throw EFromString.
Proof. unfold ParseInt. destruct (TIntParser_Parse _ _ _ _); auto. Qed.

(** ** Printing and reading back *)

Definition is_dec_digit (b : byte) : bool := (48 <=? byte_val b) && (byte_val b <=? 57).

Lemma value_from_app base a x y :
  TBasicIntParser.value_from base a (x ++ y) =
    TBasicIntParser.value_from base a x ≫= λ v, TBasicIntParser.value_from base v y.
Proof.
  revert a. induction x as [|c x IH]; intros a; [done|]. simpl.
  by destruct (CharToDigit base c).
Qed.

Lemma CharToDigit_dec d : 0 <= d < 10 → CharToDigit 10 (byte_of (d + 48)) = Some d.
Proof.
  intros Hd. unfold CharToDigit. simpl. rewrite byte_val_of, Z.mod_small by lia.
  destruct (Z.geb_spec (d + 48) 48); [|lia].
  replace (d + 48 - 48) with d by lia. by destruct (Z.ltb_spec d 10); [|lia].
Qed.

Lemma is_dec_digit_of d : 0 <= d < 10 → is_dec_digit (byte_of (d + 48)) = true.
Proof.
  intros Hd. unfold is_dec_digit. rewrite byte_val_of, Z.mod_small by lia.
  destruct (Z.leb_spec 48 (d + 48)), (Z.leb_spec (d + 48) 57); simpl; lia.
Qed.

Lemma convert_loop_spec room t acc : 0 <= t < 10 ^ Z.of_nat room →
  ∃ ds, convert_loop room t acc = Ok (ds ++ acc) ∧ TBasicIntParser.digits_value 10 ds = Some t ∧
        Forall (λ b, is_dec_digit b = true) ds ∧ (0 < t → ds ≠ []).
Proof.
  revert t acc. induction room as [|room IH]; intros t acc Ht.
  - change (10 ^ _) with 1 in Ht. assert (t = 0) as -> by lia.
    exists []. split_and!; [done|done|constructor|lia].
  - rewrite Nat2Z.inj_succ, Z.pow_succ_r in Ht by lia. cbn [convert_loop].
    destruct (Z.gtb_spec t 0) as [Hpos|Hneg].
    + destruct (IH (t / 10) (byte_of (t - 10 * (t / 10) + 48) :: acc)) as (ds & -> & Hv & Hf & _).
      { split; [apply Z.div_pos; lia|]. apply Z.div_lt_upper_bound; lia. }
      pose proof (Z.div_mod t 10 ltac:(lia)). pose proof (Z.mod_pos_bound t 10 ltac:(lia)).
      exists (ds ++ [byte_of (t - 10 * (t / 10) + 48)]). split_and!.
      * by rewrite <- app_assoc.
      * unfold TBasicIntParser.digits_value in *. rewrite value_from_app, Hv. cbn [mbind option_bind].
        cbn [TBasicIntParser.value_from]. rewrite CharToDigit_dec by lia. f_equal. lia.
      * apply Forall_app. split; [done|]. constructor; [|constructor]. apply is_dec_digit_of. lia.
      * intros _ Hnil. by destruct (app_eq_nil _ _ Hnil).
    + assert (t = 0) as -> by lia. exists []. split_and!; [done|done|constructor|lia].
Qed.

(** Every number that fits the buffer prints as digits denoting it. *)
Lemma ConvertUnsigned_spec t n : 0 <= t < 10 ^ Z.of_nat n → (0 < n)%nat →
  ∃ c ds, ConvertUnsigned t n = Ok (c :: ds) ∧ TBasicIntParser.digits_value 10 (c :: ds) = Some t ∧
        Forall (λ b, is_dec_digit b = true) (c :: ds).
Proof.
  intros Ht Hn. unfold ConvertUnsigned. destruct n as [|n]; [lia|].
  destruct (Z.eqb_spec t 0) as [->|Hne].
  - exists "0"%byte, []. split_and!; [done|done|]. by repeat constructor.
  - destruct (convert_loop_spec (S n) t [] Ht) as (ds & -> & Hv & Hf & Hds).
    destruct ds as [|c ds]; [by destruct Hds; [lia|]|]. exists c, ds. by rewrite app_nil_r.
Qed.

Lemma u64_fits t : in_u 64 t → 0 <= t < 10 ^ Z.of_nat bufferSize ∧ 0 <= t < 10 ^ Z.of_nat (bufferSize - 1).
Proof.
  intros [H0 H]. assert (2 ^ 64 <= 10 ^ Z.of_nat bufferSize) by by vm_compute.
  assert (2 ^ 64 <= 10 ^ Z.of_nat (bufferSize - 1)) by by vm_compute. lia.
Qed.

Lemma digit_not_sign c : is_dec_digit c = true → Byte.eqb c "+" = false ∧ Byte.eqb c "-" = false.
Proof.
  intros H. assert (implb (is_dec_digit c) (negb (Byte.eqb c "+") && negb (Byte.eqb c "-")) = true) as H'.
  { revert c H. intros c _. revert c.
    apply (forall_bytes (λ c, implb (is_dec_digit c) _)). by vm_compute. }
  rewrite H in H'. by destruct (Byte.eqb c "+"), (Byte.eqb c "-").
Qed.

Lemma int_literal_digits isSigned c ds v :
  Forall (λ b, is_dec_digit b = true) (c :: ds) →
  TBasicIntParser.digits_value 10 (c :: ds) = Some v → int_literal isSigned 10 (c :: ds) = Some v.
Proof.
  intros Hf Hv. pose proof (Forall_inv Hf) as Hc. destruct (digit_not_sign c Hc) as [E1 E2].
  unfold int_literal. by rewrite E1, E2, Bool.andb_false_r.
Qed.

(** The text of a nonnegative number: digits only. *)
Lemma ToString_nonneg v : in_u 64 v →
  ∃ c ds, ToString_int v = Ok (c :: ds) ∧ Forall (λ b, is_dec_digit b = true) (c :: ds) ∧
          (∀ isSigned, int_literal isSigned 10 (c :: ds) = Some v).
Proof.
  intros Hv. destruct (u64_fits v Hv) as [H1 _].
  destruct (ConvertUnsigned_spec v bufferSize H1 ltac:(unfold bufferSize; lia)) as (c & ds & E & Hd & Hf).
  exists c, ds. unfold ToString_int, Convert. destruct Hv. destruct (Z.ltb_spec v 0); [lia|].
  split_and!; [done|done|]. intros. by apply int_literal_digits.
Qed.

(** The text of a negative number: a minus sign and digits. *)
Lemma ToString_neg v : - 2 ^ 63 <= v < 0 →
  ∃ c ds, ToString_int v = Ok ("-"%byte :: c :: ds) ∧ Forall (λ b, is_dec_digit b = true) (c :: ds) ∧
          int_literal true 10 ("-"%byte :: c :: ds) = Some v.
Proof.
  intros Hv. assert (in_u 64 (- v)) as Hm by word.
  destruct (u64_fits _ Hm) as [_ H2].
  destruct (ConvertUnsigned_spec (- v) (bufferSize - 1) H2 ltac:(unfold bufferSize; lia))
    as (c & ds & E & Hd & Hf).
  exists c, ds. unfold ToString_int, Convert. destruct (Z.ltb_spec v 0); [|lia].
  rewrite (wrap_u_id 64 (- (v + 1))), wrap_u_id by word.
  replace (- (v + 1) + 1) with (- v) by lia. rewrite E. split_and!; [done|done|].
  unfold int_literal. change (Byte.eqb "-" "+") with false. change (Byte.eqb "-" "-") with true.
  cbn [andb]. rewrite Hd. cbn. f_equal. lia.
Qed.

Lemma convert_loop_length room t acc out : convert_loop room t acc = Ok out →
  (length out <= room + length acc)%nat.
Proof.
  revert t acc. induction room as [|room IH]; intros t acc; cbn [convert_loop]; destruct (t >? 0); try done.
  - intros [= <-]. lia.
  - intros H%IH. simpl in H. lia.
  - intros [= <-]. lia.
Qed.

(** The buffer bounds the text of every number. *)
Lemma length_ToString v t : ToString_int v = Ok t → (length t <= bufferSize)%nat.
Proof.
  assert (∀ n v t, ConvertUnsigned v n = Ok t → (length t <= n)%nat) as Hu.
  { intros [|n] v' t'; [done|]. unfold ConvertUnsigned. destruct (v' =? 0); [intros [= <-]; simpl; lia|].
    intros H%convert_loop_length. simpl in H. lia. }
  unfold ToString_int, Convert. destruct (v <? 0); [|apply Hu].
  intros (out & H%Hu & [= <-])%bind_ok. unfold bufferSize in *. simpl. lia.
Qed.

Lemma FromString_i64_spec data v : FromString_i64 data = Ok v ↔ int_literal true 10 data = Some v ∧ in_s 64 v.
Proof.
  unfold FromString_i64. rewrite ParseInt_signed by (unfold llSBounds, max_s, max_u; simpl; lia).
  unfold in_s, llSBounds, max_s, max_u. simpl. intuition lia.
Qed.

Lemma FromString_ui64_spec data v : FromString_ui64 data = Ok v ↔ int_literal false 10 data = Some v ∧ v <= max_u 64.
Proof. unfold FromString_ui64. by rewrite ParseInt_unsigned by (unfold llUBounds, max_u; simpl; lia). Qed.

(** Printing a 64-bit number: a first character, digits behind it, and what reading gives. *)
Lemma ToString_i64 i : in_s 64 i → ∃ c ds, ToString_int i = Ok (c :: ds) ∧
  (is_dec_digit c = true ∨ c = "-"%byte) ∧ Forall (λ b, is_dec_digit b = true) ds ∧ FromString_i64 (c :: ds) = Ok i.
Proof.
  intros Hi. destruct (decide (i < 0)).
  - destruct (ToString_neg i) as (c & ds & -> & Hd & E); [unfold in_s in Hi; lia|].
    exists "-"%byte, (c :: ds). split_and!; [done|by right|done|]. apply FromString_i64_spec. by rewrite E.
  - destruct (ToString_nonneg i) as (c & ds & -> & Hd & E); [unfold in_s, in_u in *; lia|].
    exists c, ds. pose proof (Forall_inv Hd). apply Forall_inv_tail in Hd.
    split_and!; [done|by left|done|]. apply FromString_i64_spec. by rewrite E.
Qed.

Lemma ToString_ui64 u : in_u 64 u → ∃ c ds, ToString_int u = Ok (c :: ds) ∧
  is_dec_digit c = true ∧ Forall (λ b, is_dec_digit b = true) ds ∧ FromString_ui64 (c :: ds) = Ok u.
Proof.
  intros Hu. destruct (ToString_nonneg u Hu) as (c & ds & -> & Hd & E).
  exists c, ds. pose proof (Forall_inv Hd). apply Forall_inv_tail in Hd. split_and!; [done|done|done|].
  apply FromString_ui64_spec. rewrite E. split; [done|]. unfold in_u, max_u in *. lia.
Qed.

Lemma FromString_ui64_range data v : FromString_ui64 data = Ok v → in_u 64 v.
Proof.
  intros [Hd Hv]%FromString_ui64_spec. split; [|unfold max_u in Hv; lia].
  unfold int_literal in Hd. destruct data as [|c rest]; [done|]. simpl in Hd.
  destruct (Byte.eqb c "+"); [destruct rest; [done|]|]; by eapply (digits_value_nonneg 10).
Qed.

(** Integer literals: [FromString<i64>] and [FromString<ui64>] succeed exactly on the
    texts of an optional sign and at least one decimal digit whose value fits the type and
    then return that value (any other text throws); and they invert [ToString], which
    never runs out of its buffer. *)
Theorem FromString_correct (data : list byte) (v i u : Z) (Hi : in_s 64 i) (Hu : in_u 64 u) :
  (FromString_i64 data = Ok v ↔ int_literal true 10 data = Some v ∧ in_s 64 v) ∧
  (FromString_ui64 data = Ok v ↔ int_literal false 10 data = Some v ∧ v <= max_u 64) ∧
  (ToString_int i ≫= FromString_i64) = Ok i ∧
  (ToString_int u ≫= FromString_ui64) = Ok u.
Proof.
  split_and!; [apply FromString_i64_spec|apply FromString_ui64_spec| |].
  - destruct (ToString_i64 i Hi) as (c & ds & -> & _ & _ & E). exact E.
  - destruct (ToString_ui64 u Hu) as (c & ds & -> & _ & _ & E). exact E.
Qed.

Lemma FromString_correct_witness :
  FromString_i64 (B"-9223372036854775808") = Ok (- 2 ^ 63) ∧
  FromString_i64 (B"9223372036854775808") = Throw EFromString ∧
  (ToString_int (- 2 ^ 63) ≫= FromString_i64) = Ok (- 2 ^ 63).
Proof.
  assert (in_s 64 (- 2 ^ 63)) as H1 by (vm_compute; intuition discriminate).
  assert (in_u 64 (2 ^ 64 - 1)) as H2 by (vm_compute; intuition discriminate).
  destruct (FromString_correct (B"-9223372036854775808") (- 2 ^ 63) _ _ H1 H2) as (H & _ & H3 & _).
  split; [apply H; split; [by vm_compute|exact H1]|]. split; [by vm_compute|]. exact H3.
Defined.
