(* ===== verification/Escape.v ===== *)
(** C-style string escaping: the copy of [EscapeC] in [core/yson/writer.cpp] (used
    by the text YSON writer) and [UnescapeC] of [util/string/escape.cpp] (used by
    the YSON lexer).

    [EscapeC] needs the following character to choose between a one-digit octal,
    a hexadecimal and a three-digit octal escape; [DoUnescapeC] reads octal and
    hexadecimal runs greedily.  Shown here: unescaping terminates, never throws
    and never grows the text, and it inverts escaping. *)

From S2P Require Import Prelude IntCast.

Definition HexDigit (value : Z) : byte :=
  if value <? 10 then byte_of (48 + value) else byte_of (65 + value - 10).
Definition OctDigit (value : Z) : byte := byte_of (48 + value).

Definition in_range (c : byte) (lo hi : byte) : bool :=
  (byte_val lo <=? byte_val c) && (byte_val c <=? byte_val hi).

Definition IsPrintable (c : byte) : bool := (32 <=? byte_val c) && (byte_val c <=? 126).
Definition IsHexDigit (c : byte) : bool :=
  in_range c "0" "9" || in_range c "A" "F" || in_range c "a" "f".
Definition IsOctDigit (c : byte) : bool := in_range c "0" "7".

(** [size_t EscapeC(unsigned char c, char next, char r[4])]: the characters
    written to [r]. *)
Definition EscapeC_char (c next : byte) : list byte :=
  if Byte.eqb c x22 then [x5c; x22]
  else if Byte.eqb c x5c then [x5c; x5c]
  else if IsPrintable c then [c]
  else if Byte.eqb c x0d then [x5c; "r"%byte]
  else if Byte.eqb c x0a then [x5c; "n"%byte]
  else if Byte.eqb c x09 then [x5c; "t"%byte]
  else if (byte_val c <? 8) && negb (IsOctDigit next) then [x5c; OctDigit (byte_val c)]
  else if negb (IsHexDigit next) then
    [x5c; "x"%byte; HexDigit (Z.shiftr (Z.land (byte_val c) 0xF0) 4);
     HexDigit (Z.shiftr (Z.land (byte_val c) 0x0F) 0)]
  else
    [x5c; OctDigit (Z.shiftr (Z.land (byte_val c) 448) 6);
     OctDigit (Z.shiftr (Z.land (byte_val c) 56) 3); OctDigit (Z.shiftr (Z.land (byte_val c) 7) 0)].

(** The copying loop of [EscapeC(const char*, size_t, IOutputStream&)]: [run] is
    [str + j .. str + i], the characters not yet written out. *)
Fixpoint escape_loop (str run output : list byte) : list byte :=
  match str with
  | [] => output ++ run
  | c :: str' =>
      let r := EscapeC_char c (match str' with next :: _ => next | [] => x00 end) in
      if (1 <? Z.of_nat (length r)) then escape_loop str' [] (output ++ run ++ r)
      else escape_loop str' (run ++ [c]) output
  end.

Definition EscapeC (str : list byte) : list byte := escape_loop str [] [].

(** [CountHex<sz>] and [CountOct<sz>]: how many digits of the base start [p]. *)
Fixpoint CountHex (sz : nat) (p : list byte) : nat :=
  match sz, p with
  | S sz, c :: p => if IsHexDigit c then S (CountHex sz p) else O
  | _, _ => O
  end.

Fixpoint count_oct_loop (maxsz : nat) (p : list byte) : nat :=
  match maxsz, p with
  | S maxsz, c :: p => if IsOctDigit c then S (count_oct_loop maxsz p) else O
  | _, _ => O
  end.

Definition CountOct (sz : nat) (p : list byte) : nat :=
  let maxsz := Nat.min sz (length p) in
  let maxsz :=
    if Nat.eqb 3 sz && Nat.eqb 3 maxsz &&
       negb (match p with c :: _ => in_range c "0" "3" | [] => false end)
    then 2%nat else maxsz in
  count_oct_loop maxsz p.

(** [ParseHex<4>]: four characters accepted by [TryIntFromString<16>]. *)
Definition ParseHex4 (p : list byte) : option Z :=
  if Nat.leb 4 (length p) then TryIntFromString16_ui16 (take 4 p) else None.

(** [WriteUTF8Char] of [util/charset/utf8.h]. *)
Definition WriteUTF8Char (rune : Z) : list byte :=
  let cont (shift : Z) := byte_of (Z.lor 0x80 (Z.land (Z.shiftr rune shift) 0x3F)) in
  if rune <? 0x80 then [byte_of rune]
  else if rune <? 0x800 then [byte_of (Z.lor 0xC0 (Z.shiftr rune 6)); cont 0]
  else if rune <? 0x10000 then [byte_of (Z.lor 0xE0 (Z.shiftr rune 12)); cont 6; cont 0]
  else [byte_of (Z.lor 0xF0 (Z.land (Z.shiftr rune 18) 0x07)); cont 12; cont 6; cont 0].

(** [ReadSymbol] on a two-element UTF-16 buffer ([util/charset/wide.h]). *)
Definition BROKEN_RUNE : Z := 0xFFFD.
Definition IsW16SurrogateLead (c : Z) : bool := (0xD800 <=? c) && (c <=? 0xDBFF).
Definition IsW16SurrogateTail (c : Z) : bool := (0xDC00 <=? c) && (c <=? 0xDFFF).
Definition ReadSurrogatePair (lead tail : Z) : Z :=
  wrap_u 32 (Z.shiftl lead 10 + tail + wrap_u 32 (0x10000 - Z.shiftl 0xD800 10 - 0xDC00)).
Definition ReadSymbol (c0 c1 : Z) : Z :=
  if IsW16SurrogateLead c0 then
    if IsW16SurrogateTail c1 then ReadSurrogatePair c0 c1 else BROKEN_RUNE
  else if IsW16SurrogateTail c0 then BROKEN_RUNE
  else c0.

(** The [switch] of [DoUnescapeC] behind a backslash: [e] is the character at
    [p], [q] what follows it; the appended bytes and the number of characters
    of [q] consumed beyond [e]. *)
Definition unescape_switch (e : byte) (q : list byte) : Result (list byte * nat) :=
  match e with
  | "a"%byte => Ok ([x07], 0%nat)
  | "b"%byte => Ok ([x08], 0%nat)
  | "f"%byte => Ok ([x0c], 0%nat)
  | "n"%byte => Ok ([x0a], 0%nat)
  | "r"%byte => Ok ([x0d], 0%nat)
  | "t"%byte => Ok ([x09], 0%nat)
  | "v"%byte => Ok ([x0b], 0%nat)
  | "u"%byte =>
      match ParseHex4 q with
      | Some cp0 =>
          let plain := Ok (WriteUTF8Char cp0, 4%nat) in
          if (0xD800 <=? cp0) && (cp0 <=? 0xDBFF) then
            match ParseHex4 (drop 6 q), q !! 4%nat, q !! 5%nat with
            | Some cp1, Some x5c, Some "u"%byte => Ok (WriteUTF8Char (ReadSymbol cp0 cp1), 10%nat)
            | _, _, _ => plain
            end
          else plain
      | None => Ok ([e], 0%nat)
      end
  | "U"%byte =>
      if negb (Nat.eqb (CountHex 8 q) 8) then Ok ([e], 0%nat)
      else rune ← IntFromString_ui32 16 (take 8 q); Ok (WriteUTF8Char rune, 8%nat)
  | "x"%byte =>
      match CountHex 2 q with
      | O => Ok ([e], 0%nat)
      | v => n ← IntFromString_ui32 16 (take v q); Ok ([byte_of n], v)
      end
  | "0"%byte | "1"%byte | "2"%byte | "3"%byte =>
      let v := CountOct 3 (e :: q) in
      n ← IntFromString_ui32 8 (take v (e :: q)); Ok ([byte_of n], (v - 1)%nat)
  | "4"%byte | "5"%byte | "6"%byte | "7"%byte =>
      let v := CountOct 2 (e :: q) in
      n ← IntFromString_ui32 8 (take v (e :: q)); Ok ([byte_of n], (v - 1)%nat)
  | _ => Ok ([e], 0%nat)
  end.

(** The characters up to the next backslash. *)
Fixpoint plain_run (p : list byte) : list byte :=
  match p with
  | [] => []
  | c :: p => if Byte.eqb c x5c then [] else c :: plain_run p
  end.

Fixpoint unescape_loop (fuel : nat) (p res : list byte) : Result (list byte) :=
  match fuel with
  | O => OutOfFuel
  | S fuel =>
      match p with
      | [] => Ok res
      | c :: p' =>
          if Byte.eqb c x5c then
            match p' with
            | [] => Ok res
            | e :: q =>
                '(appended, skip) ← unescape_switch e q;
                unescape_loop fuel (drop skip q) (res ++ appended)
            end
          else
            let run := plain_run p in
            unescape_loop fuel (drop (length run) p) (res ++ run)
      end
  end.

(** Every iteration consumes a character, so [length p + 1] rounds suffice. *)
Definition UnescapeC (p : list byte) : Result (list byte) := unescape_loop (S (length p)) p [].

(** ** Escaping as a left-to-right map *)

Definition next_char (s : list byte) : byte := match s with c :: _ => c | [] => x00 end.

Fixpoint escape_all (s : list byte) : list byte :=
  match s with
  | [] => []
  | c :: s => EscapeC_char c (next_char s) ++ escape_all s
  end.

(** Bytes that [EscapeC] copies unchanged. *)
Definition is_plain (c : byte) : bool :=
  IsPrintable c && negb (Byte.eqb c x22) && negb (Byte.eqb c x5c).

Lemma EscapeC_char_plain c next : is_plain c = true → EscapeC_char c next = [c].
Proof.
  unfold is_plain, EscapeC_char. intros [[Hp Hq]%andb_prop Hb]%andb_prop.
  rewrite Hp. by destruct (Byte.eqb c x22), (Byte.eqb c x5c).
Qed.

Lemma EscapeC_char_special c next : is_plain c = false →
  ∃ e q, EscapeC_char c next = x5c :: e :: q.
Proof.
  unfold is_plain, EscapeC_char. intros Hc.
  destruct (Byte.eqb c x22), (Byte.eqb c x5c), (IsPrintable c); simpl in Hc; try done; eauto;
  repeat case_match; eauto.
Qed.

Lemma escape_loop_all s run out : escape_loop s run out = out ++ run ++ escape_all s.
Proof.
  revert run out. induction s as [|c s IH]; intros run out; simpl; [by rewrite app_nil_r|].
  change (match s with [] => x00 | next :: _ => next end) with (next_char s).
  destruct (is_plain c) eqn:Hc.
  - rewrite EscapeC_char_plain by done. simpl. rewrite IH. by rewrite <- app_assoc.
  - destruct (EscapeC_char_special c (next_char s) Hc) as (e & q & ->).
    destruct (Z.ltb_spec 1 (Z.of_nat (length (x5c :: e :: q)))); [|simpl in *; lia].
    rewrite IH. by rewrite <- !app_assoc.
Qed.

Lemma EscapeC_all s : EscapeC s = escape_all s.
Proof. apply escape_loop_all. Qed.

(** What can follow an escape sequence chosen for the next character [next]. *)
Definition follows (next : byte) (tail : list byte) : Prop :=
  match tail with [] => True | h :: _ => h = next ∨ h = x5c end.

Lemma follows_escape s : follows (next_char s) (escape_all s).
Proof.
  destruct s as [|c s]; [done|]. simpl. destruct (is_plain c) eqn:Hc.
  - rewrite EscapeC_char_plain by done. simpl. by left.
  - destruct (EscapeC_char_special c (next_char s) Hc) as (e & q & ->). by right.
Qed.

Lemma follows_not_oct next tail : IsOctDigit next = false → follows next tail →
  match tail with h :: _ => IsOctDigit h = false | [] => True end.
Proof. destruct tail as [|h t]; [done|]. by intros ? [->| ->]. Qed.

Lemma CountOct_one n e q : (2 <= n)%nat → IsOctDigit e = true →
  match q with h :: _ => IsOctDigit h = false | [] => True end → CountOct n (e :: q) = 1%nat.
Proof.
  intros Hn He Hq. unfold CountOct.
  set (m := if _ : bool then _ else _).
  assert (1 <= m)%nat as Hm by (unfold m; match goal with |- context [if ?b then _ else _] => destruct b end; simpl; lia).
  destruct m as [|m]; [lia|]. simpl. rewrite He. f_equal.
  destruct m, q; simpl; try done. by rewrite Hq.
Qed.

Lemma switch_octal e q : IsOctDigit e = true →
  unescape_switch e q =
    let v := CountOct (if in_range e "0" "3" then 3 else 2)%nat (e :: q) in
    n ← IntFromString_ui32 8 (take v (e :: q)); Ok ([byte_of n], (v - 1)%nat).
Proof. intros H; destruct e; vm_compute in H; (discriminate H || reflexivity). Qed.

Lemma switch_oct1 c tail : byte_val c < 8 →
  match tail with h :: _ => IsOctDigit h = false | [] => True end →
  unescape_switch (OctDigit (byte_val c)) tail = Ok ([c], 0%nat).
Proof.
  intros Hc Ht. set (e := OctDigit _).
  assert (implb (byte_val c <? 8) (IsOctDigit e &&
    bool_decide (IntFromString_ui32 8 [e] = Ok (byte_val c))) = true) as H.
  { subst e. clear. revert c. apply forall_bytes. by vm_compute. }
  apply Z.ltb_lt in Hc. rewrite Hc in H.
  apply andb_prop in H as [H1 H2%bool_decide_eq_true].
  rewrite switch_octal by done. rewrite CountOct_one by (done || (destruct (in_range e "0" "3"); lia)).
  cbv zeta. change (take 1 (e :: tail)) with [e]. rewrite H2. cbn. by rewrite byte_of_val.
Qed.

Lemma switch_oct3 c tail :
  unescape_switch (OctDigit (Z.shiftr (Z.land (byte_val c) 448) 6))
    (OctDigit (Z.shiftr (Z.land (byte_val c) 56) 3) ::
     OctDigit (Z.shiftr (Z.land (byte_val c) 7) 0) :: tail) = Ok ([c], 2%nat).
Proof.
  set (e := OctDigit _). set (h1 := OctDigit _). set (h2 := OctDigit _).
  assert (IsOctDigit e && in_range e "0" "3" && IsOctDigit h1 && IsOctDigit h2 &&
    bool_decide (IntFromString_ui32 8 [e; h1; h2] = Ok (byte_val c)) = true) as H.
  { subst e h1 h2. revert c. apply forall_bytes. by vm_compute. }
  apply andb_prop in H as [[[[H0 Hr]%andb_prop H1]%andb_prop H2]%andb_prop H3%bool_decide_eq_true].
  rewrite switch_octal, Hr by done. cbv zeta. unfold CountOct. cbn [length Nat.min Nat.eqb andb].
  rewrite Hr. cbn [negb count_oct_loop]. rewrite H0, H1, H2.
  change (take 3 (e :: h1 :: h2 :: tail)) with [e; h1; h2]. rewrite H3. cbn.
  by rewrite byte_of_val.
Qed.

Lemma switch_hex c tail :
  unescape_switch "x" (HexDigit (Z.shiftr (Z.land (byte_val c) 0xF0) 4) ::
    HexDigit (Z.shiftr (Z.land (byte_val c) 0x0F) 0) :: tail) = Ok ([c], 2%nat).
Proof.
  set (h1 := HexDigit _). set (h2 := HexDigit _).
  assert (IsHexDigit h1 && IsHexDigit h2 &&
    bool_decide (IntFromString_ui32 16 [h1; h2] = Ok (byte_val c)) = true) as H.
  { subst h1 h2. revert c. apply forall_bytes. by vm_compute. }
  apply andb_prop in H as [[H1 H2]%andb_prop H3%bool_decide_eq_true].
  cbn [unescape_switch CountHex]. rewrite H1, H2.
  change (take 2 (h1 :: h2 :: tail)) with [h1; h2]. rewrite H3. cbn.
  by rewrite byte_of_val.
Qed.

(** Every escape sequence that [EscapeC] emits is read back as its character,
    whatever admissible text follows. *)
Lemma switch_escape c next tail e q :
  EscapeC_char c next = x5c :: e :: q → is_plain c = false → follows next tail →
  unescape_switch e (q ++ tail) = Ok ([c], length q).
Proof.
  unfold EscapeC_char, is_plain. intros Hr Hc Hf.
  destruct (Byte.eqb c x22) eqn:E1; [apply byte_dec_bl in E1; by simplify_eq|].
  destruct (Byte.eqb c x5c) eqn:E2; [apply byte_dec_bl in E2; by simplify_eq|].
  destruct (IsPrintable c); [done|].
  destruct (Byte.eqb c x0d) eqn:E3; [apply byte_dec_bl in E3; by simplify_eq|].
  destruct (Byte.eqb c x0a) eqn:E4; [apply byte_dec_bl in E4; by simplify_eq|].
  destruct (Byte.eqb c x09) eqn:E5; [apply byte_dec_bl in E5; by simplify_eq|].
  destruct ((byte_val c <? 8) && negb (IsOctDigit next)) eqn:E6.
  { apply andb_prop in E6 as [?%Z.ltb_lt ?%negb_true_iff]. simplify_eq. simpl.
    apply switch_oct1; [done|]. by eapply follows_not_oct. }
  destruct (IsHexDigit next); simpl in Hr; simplify_eq; [apply switch_oct3|apply switch_hex].
Qed.

(** ** The unescaping loop *)

Lemma plain_run_length p : (length (plain_run p) <= length p)%nat.
Proof. induction p as [|c p IH]; simpl; [lia|]. case_match; simpl; lia. Qed.

Lemma take_plain_run p : p = plain_run p ++ drop (length (plain_run p)) p.
Proof. induction p as [|c p IH]; simpl; [done|]. case_match; simpl; [done|]. by f_equal. Qed.

Lemma IntFromString_digits base ds : 2 <= base <= 16 → ds ≠ [] →
  Forall (λ c, is_Some (CharToDigit base c) ∧ Byte.eqb c "+" = false) ds →
  base ^ Z.of_nat (length ds) <= 2 ^ 32 → ∃ n, IntFromString_ui32 base ds = Ok n.
Proof.
  intros Hb Hne Hds Hlen.
  assert (∀ a l, Forall (λ c, is_Some (CharToDigit base c) ∧ Byte.eqb c "+" = false) l →
    is_Some (TBasicIntParser.value_from base a l)) as Hsome.
  { intros a l Hl. revert a. induction Hl as [|c l [[d Hd] _] _ IH]; intros a; simpl; [by eexists|].
    rewrite Hd. apply IH. }
  destruct (Hsome 0 ds Hds) as [v Hv]. exists v.
  apply ParseInt_unsigned; [done|unfold iUBounds, max_u; simpl; lia|].
  pose proof (TBasicIntParser.value_from_lt base 0 ds v ltac:(lia) ltac:(lia) Hv).
  split; [|unfold iUBounds, max_u; simpl; lia].
  destruct ds as [|c ds]; [done|]. apply Forall_inv in Hds as [_ Hc].
  unfold int_literal. by rewrite Hc.
Qed.

Lemma IsHexDigit_digit c : IsHexDigit c = true →
  is_Some (CharToDigit 16 c) ∧ Byte.eqb c "+" = false.
Proof.
  assert (implb (IsHexDigit c) (bool_decide (is_Some (CharToDigit 16 c) ∧ Byte.eqb c "+" = false)) = true) as H
    by (revert c; apply forall_bytes; by vm_compute).
  intros Hc. rewrite Hc in H. by apply bool_decide_eq_true in H.
Qed.

Lemma IsOctDigit_digit c : IsOctDigit c = true →
  is_Some (CharToDigit 8 c) ∧ Byte.eqb c "+" = false.
Proof.
  assert (implb (IsOctDigit c) (bool_decide (is_Some (CharToDigit 8 c) ∧ Byte.eqb c "+" = false)) = true) as H
    by (revert c; apply forall_bytes; by vm_compute).
  intros Hc. rewrite Hc in H. by apply bool_decide_eq_true in H.
Qed.

Lemma CountHex_spec n p : (CountHex n p <= n)%nat ∧ (CountHex n p <= length p)%nat ∧
  Forall (λ c, IsHexDigit c = true) (take (CountHex n p) p).
Proof.
  revert p. induction n as [|n IH]; intros [|c p]; simpl; try (split_and!; [lia|lia|constructor]).
  destruct (IsHexDigit c) eqn:E; simpl; [|split_and!; [lia|lia|constructor]].
  destruct (IH p) as (? & ? & ?). split_and!; [lia|lia|by constructor].
Qed.

Lemma count_oct_loop_spec n p : (count_oct_loop n p <= n)%nat ∧ (count_oct_loop n p <= length p)%nat ∧
  Forall (λ c, IsOctDigit c = true) (take (count_oct_loop n p) p).
Proof.
  revert p. induction n as [|n IH]; intros [|c p]; simpl; try (split_and!; [lia|lia|constructor]).
  destruct (IsOctDigit c) eqn:E; simpl; [|split_and!; [lia|lia|constructor]].
  destruct (IH p) as (? & ? & ?). split_and!; [lia|lia|by constructor].
Qed.

Lemma CountOct_spec n e q : (2 <= n <= 3)%nat → IsOctDigit e = true →
  let v := CountOct n (e :: q) in
  (1 <= v <= 3)%nat ∧ (v <= S (length q))%nat ∧ Forall (λ c, IsOctDigit c = true) (take v (e :: q)).
Proof.
  intros Hn He. cbv zeta. unfold CountOct. set (m := if _ : bool then _ else _).
  assert (1 <= m <= 3)%nat as Hm
    by (unfold m; match goal with |- context [if ?b then _ else _] => destruct b end; simpl; lia).
  destruct (count_oct_loop_spec m (e :: q)) as (? & ? & ?). simpl in *.
  split_and!; [|lia|lia|done]. destruct m; [lia|]. simpl. rewrite He. lia.
Qed.

Lemma length_WriteUTF8Char rune : (1 <= length (WriteUTF8Char rune) <= 4)%nat.
Proof. unfold WriteUTF8Char. repeat case_match; simpl; lia. Qed.

Lemma length_WriteUTF8Char_short rune : rune < 0x10000 → (length (WriteUTF8Char rune) <= 3)%nat.
Proof. intros. unfold WriteUTF8Char. destruct (Z.ltb_spec rune 0x10000); [|lia]. repeat case_match; simpl; lia. Qed.

Lemma switch_oct_total e q : IsOctDigit e = true →
  ∃ a k, unescape_switch e q = Ok (a, k) ∧ (k <= length q)%nat ∧ (length a <= k + 1)%nat.
Proof.
  intros He. rewrite switch_octal by done. cbv zeta.
  destruct (CountOct_spec (if in_range e "0" "3" then 3 else 2)%nat e q) as (Hv & Hl & Hf);
    [destruct (in_range e "0" "3"); lia|done|].
  set (v := CountOct _ _) in *.
  destruct (IntFromString_digits 8 (take v (e :: q))) as [n ->]; [lia| | | |].
  - destruct v; [lia|done].
  - eapply Forall_impl; [|exact Hf]. simpl. apply IsOctDigit_digit.
  - rewrite length_take. etrans; [apply (Z.pow_le_mono_r 8 _ 3); lia|lia].
  - exists [byte_of n], (v - 1)%nat. simpl. split_and!; [done|lia|lia].
Qed.

Lemma ParseHex4_spec q cp : ParseHex4 q = Some cp → (4 <= length q)%nat ∧ 0 <= cp < 0x10000.
Proof.
  unfold ParseHex4. destruct (Nat.leb_spec 4 (length q)); [|done].
  unfold TryIntFromString16_ui16, TryParseInt. intros Hp. split; [done|].
  pose proof (ParseInt_unsigned 16 sUBounds (take 4 q) cp) as Hs. unfold ParseInt in Hs.
  destruct (TIntParser_Parse false 16 sUBounds (take 4 q)) as [v|]; [|done]. simplify_eq.
  destruct Hs as [Hs _]; [lia|unfold sUBounds, max_u; simpl; lia|].
  destruct (Hs eq_refl) as [Hlit Hle]. unfold sUBounds, max_u in Hle. simpl in Hle. split; [|lia].
  unfold int_literal in Hlit. repeat case_match; simplify_eq; eapply digits_value_nonneg; eauto; lia.
Qed.

Lemma switch_total e q :
  ∃ a k, unescape_switch e q = Ok (a, k) ∧ (k <= length q)%nat ∧ (length a <= k + 1)%nat.
Proof.
  destruct (IsOctDigit e) eqn:He; [by apply switch_oct_total|].
  assert (∃ a k, Ok ([e], 0%nat) = Ok (a, k) ∧ (k <= length q)%nat ∧ (length a <= k + 1)%nat) as Hself
    by (exists [e], 0%nat; simpl; split_and!; [done|lia|lia]).
  assert (∀ v, (1 <= CountHex v q)%nat → 16 ^ Z.of_nat v <= 2 ^ 32 →
    ∃ n, IntFromString_ui32 16 (take (CountHex v q) q) = Ok n) as Hhex.
  { intros v Hv Hp. destruct (CountHex_spec v q) as (Hn & Hl & Hf).
    apply IntFromString_digits; [lia| | |].
    - destruct q; [simpl in *; lia|]. by destruct (CountHex v _); [lia|].
    - eapply Forall_impl; [|exact Hf]. simpl. apply IsHexDigit_digit.
    - rewrite length_take. etrans; [apply (Z.pow_le_mono_r 16 _ (Z.of_nat v)); lia|done]. }
  destruct e; try discriminate He; cbn [unescape_switch]; try exact Hself;
    try (eexists [_], 0%nat; simpl; split_and!; [reflexivity|lia|lia]).
  - (* U *)
    destruct (Nat.eqb_spec (CountHex 8 q) 8) as [E|]; [|exact Hself].
    destruct (CountHex_spec 8 q) as (_ & Hl & _).
    destruct (Hhex 8%nat ltac:(lia) ltac:(lia)) as [n Hn]. rewrite E in Hn. rewrite Hn.
    exists (WriteUTF8Char n), 8%nat. pose proof (length_WriteUTF8Char n).
    simpl. split_and!; [done|lia|lia].
  - (* u *)
    destruct (ParseHex4 q) as [cp|] eqn:E; [|exact Hself].
    apply ParseHex4_spec in E as (Hl & Hcp).
    pose proof (length_WriteUTF8Char_short cp ltac:(lia)).
    assert (∃ a k, Ok (WriteUTF8Char cp, 4%nat) = Ok (a, k) ∧ (k <= length q)%nat ∧ (length a <= k + 1)%nat)
      as Hplain by (eexists _, 4%nat; split_and!; [done|lia|lia]).
    destruct (_ && _); [|exact Hplain].
    destruct (ParseHex4 (drop 6 q)) as [cp1|] eqn:E1; [|exact Hplain].
    apply ParseHex4_spec in E1 as (Hl1 & _). rewrite length_drop in Hl1.
    pose proof (length_WriteUTF8Char (ReadSymbol cp cp1)).
    repeat case_match; try exact Hplain. eexists _, 10%nat; split_and!; [done|lia|lia].
  - (* x *)
    destruct (CountHex_spec 2 q) as (_ & Hl & _). pose proof (Hhex 2%nat) as Hx.
    destruct (CountHex 2 q) as [|v]; [exact Hself|].
    destruct Hx as [n Hn]; [lia|lia|]. rewrite Hn. exists [byte_of n], (S v).
    simpl. split_and!; [done|lia|lia].
Qed.

Lemma plain_run_cons c p : Byte.eqb c x5c = false → plain_run (c :: p) = c :: plain_run p.
Proof. simpl. by intros ->. Qed.

Lemma unescape_loop_S fuel c p res : unescape_loop (S fuel) (c :: p) res =
  if Byte.eqb c x5c then
    match p with
    | [] => Ok res
    | e :: q =>
        '(appended, skip) ← unescape_switch e q;
        unescape_loop fuel (drop skip q) (res ++ appended)
    end
  else
    let run := plain_run (c :: p) in
    unescape_loop fuel (drop (length run) (c :: p)) (res ++ run).
Proof. reflexivity. Qed.

Lemma unescape_loop_fuel n fuel p res : (length p < fuel)%nat → (length p <= n)%nat →
  unescape_loop fuel p res = app res <$> UnescapeC p.
Proof.
  revert fuel p res. induction n as [|n IH]; intros fuel p res Hf Hn.
  { destruct p; [|simpl in *; lia]. destruct fuel; [lia|].
    change (Ok res = app res <$> Ok []). simpl. by rewrite app_nil_r. }
  destruct fuel as [|fuel]; [lia|]. unfold UnescapeC.
  destruct p as [|c p]; [change (Ok res = app res <$> Ok []); simpl; by rewrite app_nil_r|].
  rewrite (unescape_loop_S fuel), (unescape_loop_S (length (c :: p))). cbv zeta. simpl in Hf, Hn.
  destruct (Byte.eqb c x5c) eqn:Ec.
  - destruct p as [|e q]; [simpl; by rewrite app_nil_r|]. simpl in Hf, Hn.
    destruct (switch_total e q) as (a & k & -> & _ & _). cbn [mbind result_bind length app].
    rewrite (IH fuel), (IH (S (S (length q)))) by (rewrite ?length_drop; simpl; lia).
    destruct (UnescapeC _); simpl; by rewrite ?app_assoc.
  - rewrite plain_run_cons by done. cbn [length app drop skipn].
    pose proof (plain_run_length p).
    rewrite (IH fuel), (IH (S (length p))) by (rewrite ?length_drop; simpl; lia).
    destruct (UnescapeC _); simpl; by rewrite <- ?app_assoc.
Qed.

Lemma UnescapeC_escape e q a k : unescape_switch e q = Ok (a, k) →
  UnescapeC (x5c :: e :: q) = app a <$> UnescapeC (drop k q).
Proof.
  intros Hs. unfold UnescapeC at 1. rewrite unescape_loop_S. cbn [Byte.eqb].
  change (Byte.eqb x5c x5c) with true. cbv iota. rewrite Hs. cbn [mbind result_bind app].
  by rewrite (unescape_loop_fuel (length q)) by (rewrite length_drop; simpl; lia).
Qed.

Lemma UnescapeC_run p : UnescapeC p = app (plain_run p) <$> UnescapeC (drop (length (plain_run p)) p).
Proof.
  destruct p as [|c p]; [done|]. destruct (Byte.eqb c x5c) eqn:Ec.
  { cbn [plain_run]. rewrite Ec. simpl. by destruct (UnescapeC _). }
  unfold UnescapeC at 1. rewrite unescape_loop_S. cbv zeta. rewrite Ec, plain_run_cons by done.
  pose proof (plain_run_length p).
  by rewrite (unescape_loop_fuel (length p)) by (rewrite length_drop; simpl; lia).
Qed.

Lemma UnescapeC_plain c p : Byte.eqb c x5c = false → UnescapeC (c :: p) = cons c <$> UnescapeC p.
Proof.
  intros Hc. rewrite UnescapeC_run, (UnescapeC_run p), plain_run_cons by done. simpl.
  by destruct (UnescapeC _).
Qed.

Lemma UnescapeC_escape_all s : UnescapeC (escape_all s) = Ok s.
Proof.
  induction s as [|c s IH]; [done|]. simpl. destruct (is_plain c) eqn:Hc.
  - rewrite EscapeC_char_plain by done. simpl. rewrite UnescapeC_plain, IH; [done|].
    unfold is_plain in Hc. apply andb_prop in Hc as [_ Hb]. by destruct (Byte.eqb c x5c).
  - destruct (EscapeC_char_special c (next_char s) Hc) as (e & q & Hr). rewrite Hr. simpl.
    rewrite (UnescapeC_escape e (q ++ escape_all s) [c] (length q)).
    + by rewrite drop_app_length, IH.
    + eapply switch_escape; [done|done|apply follows_escape].
Qed.

Lemma UnescapeC_total n p : (length p <= n)%nat →
  ∃ out, UnescapeC p = Ok out ∧ (length out <= length p)%nat.
Proof.
  revert p. induction n as [|n IH]; intros p Hn; [destruct p; [by exists []|simpl in Hn; lia]|].
  destruct p as [|c p]; [by exists []|]. simpl in Hn. destruct (Byte.eqb c x5c) eqn:Ec.
  - apply byte_dec_bl in Ec as ->. destruct p as [|e q]; [exists []; simpl; split; [done|lia]|].
    destruct (switch_total e q) as (a & k & Hs & Hk & Ha).
    rewrite (UnescapeC_escape _ _ _ _ Hs). simpl in Hn.
    destruct (IH (drop k q)) as (out & -> & Hout); [rewrite length_drop; lia|].
    rewrite length_drop in Hout. exists (a ++ out). simpl. rewrite length_app. split; [done|lia].
  - rewrite UnescapeC_plain by done. destruct (IH p) as (out & -> & Hout); [lia|].
    exists (c :: out). simpl. split; [done|lia].
Qed.

Lemma EscapeC_char_printable c next : Forall (λ b, IsPrintable b = true) (EscapeC_char c next).
Proof.
  apply (bool_decide_unpack _), Is_true_true.
  revert c next. apply forall_bytes2. by vm_compute.
Qed.

(** Escaping and unescaping are inverse, for every byte string: the choice
    between the one-digit octal, hexadecimal and three-digit octal forms, made by
    looking at the next character, never lets the greedy digit runs of the reader
    swallow a following character; and the escaped text consists of printable
    ASCII only. *)
Theorem UnescapeC_EscapeC (s : list byte) :
  UnescapeC (EscapeC s) = Ok s ∧ Forall (λ b, IsPrintable b = true) (EscapeC s).
Proof.
  rewrite EscapeC_all. split; [apply UnescapeC_escape_all|].
  induction s as [|c s IH]; simpl; [constructor|].
  apply Forall_app. split; [apply EscapeC_char_printable|done].
Qed.

(** Unescaping is total: on every byte string, well formed or not (a dangling
    backslash, truncated [\x], [\u], [\U] or octal escapes, unpaired surrogates,
    values above the Unicode range), it terminates without throwing or aborting,
    and the result is never longer than the input. *)
Theorem UnescapeC_never_fails (p : list byte) :
  ∃ out, UnescapeC p = Ok out ∧ (length out <= length p)%nat.
Proof. by apply (UnescapeC_total (length p)). Qed.
