(* ===== verification/Utf8.v ===== *)
(** The UTF-8 routines of [util/charset/utf8.h] and [utf8.cpp] that the text writer uses to
    pass UTF-8 characters through, and [WriteUtf8String] of [core/yson/writer.cpp].

    Shown here: a string that [IsUtf] accepts is written without a failed check, bytes
    outside ASCII verbatim and the others escaped, and is read back unchanged. *)

From S2P Require Import Prelude Coding IntCast Escape.

Definition UTF8RuneLen (lead_byte : byte) : nat :=
  let c := byte_val lead_byte in
  if Z.land c 0x80 =? 0x00 then 1
  else if Z.land c 0xe0 =? 0xc0 then 2
  else if Z.land c 0xf0 =? 0xe0 then 3
  else if Z.land c 0xf8 =? 0xf0 then 4
  else 0.

Definition UTF8LeadByteMask (utf8_rune_len : nat) : Z := nth utf8_rune_len [0; 0; 31; 15; 7] 0.

Definition IsUTF8ContinuationByte (c : byte) : bool := Z.land (byte_val c) 0xC0 =? 0x80.

Definition PutUTF8SixBits (rune : Z) (c : byte) : Z :=
  Z.lor (wrap_u 32 (Z.shiftl rune 6)) (Z.land (byte_val c) 0x3F).

Inductive RECODE_RESULT (A : Type) := RECODE_OK (a : A) | RECODE_BROKENSYMBOL | RECODE_EOINPUT.
Arguments RECODE_OK {A} a.
Arguments RECODE_BROKENSYMBOL {A}.
Arguments RECODE_EOINPUT {A}.

(** [GetUTF8CharLen(n, p, e)] on the range [p], which is not empty. *)
Definition GetUTF8CharLen (p : list byte) : RECODE_RESULT nat :=
  match p with
  | [] => RECODE_EOINPUT
  | c :: q =>
      match UTF8RuneLen c with
      | O => RECODE_BROKENSYMBOL
      | 1%nat => RECODE_OK 1%nat
      | n =>
          if Nat.ltb (length p) n then RECODE_EOINPUT
          else if negb (forallb IsUTF8ContinuationByte (take (n - 1) q)) then RECODE_BROKENSYMBOL
          else RECODE_OK n
      end
  end.

(** [IsValidUTF8Rune<runeLen, StrictUTF8::No>]. *)
Definition IsValidUTF8Rune (runeLen : nat) (rune : Z) : bool :=
  match runeLen with
  | 2%nat => 0x80 <=? rune
  | 3%nat => 0x800 <=? rune
  | 4%nat => (rune <=? 0x10FFFF) && (0x10000 <=? rune)
  | _ => true
  end.

(** The continuation bytes, each checked before its six bits are taken. *)
Fixpoint read_continuation (n : nat) (rune : Z) (s : list byte) : RECODE_RESULT Z :=
  match n with
  | O => RECODE_OK rune
  | S n =>
      match s with
      | [] => RECODE_EOINPUT
      | ch :: s =>
          if negb (IsUTF8ContinuationByte ch) then RECODE_BROKENSYMBOL
          else read_continuation n (PutUTF8SixBits rune ch) s
      end
  end.

(** [SafeReadUTF8Char<StrictUTF8::No>]: the rune and its length. *)
Definition SafeReadUTF8Char (s : list byte) : RECODE_RESULT (Z * nat) :=
  match s with
  | [] => RECODE_EOINPUT
  | c :: q =>
      let len := UTF8RuneLen c in
      if Nat.ltb (length s) len then RECODE_EOINPUT
      else if Nat.eqb len 0 then RECODE_BROKENSYMBOL
      else if Nat.ltb 1 len then
        match read_continuation (len - 1) (Z.land (byte_val c) (UTF8LeadByteMask len)) q with
        | RECODE_OK rune => if IsValidUTF8Rune len rune then RECODE_OK (rune, len) else RECODE_BROKENSYMBOL
        | RECODE_BROKENSYMBOL => RECODE_BROKENSYMBOL
        | RECODE_EOINPUT => RECODE_EOINPUT
        end
      else RECODE_OK (byte_val c, len)
  end.

Inductive EUTF8Detect := NotUTF8 | UTF8 | ASCII.

(** Every round reads at least one byte. *)
Fixpoint detect_loop (fuel : nat) (s : list byte) (res : EUTF8Detect) : EUTF8Detect :=
  match fuel with
  | O => res
  | S fuel =>
      match s with
      | [] => res
      | _ =>
          match SafeReadUTF8Char s with
          | RECODE_OK (_, rune_len) =>
              detect_loop fuel (drop rune_len s) (if Nat.ltb 1 rune_len then UTF8 else res)
          | _ => NotUTF8
          end
      end
  end.

Definition UTF8Detect (s : list byte) : EUTF8Detect := detect_loop (S (length s)) s ASCII.

Definition IsUtf (input : list byte) : bool :=
  match UTF8Detect input with NotUTF8 => false | _ => true end.

(** [WriteUtf8String(str, len, output)]: what is appended to [output]. *)
Fixpoint utf8_loop (fuel : nat) (str output : list byte) : Result (list byte) :=
  match fuel with
  | O => OutOfFuel
  | S fuel =>
      match str with
      | [] => Ok output
      | c :: str' =>
          match GetUTF8CharLen str with
          | RECODE_OK runeLen =>
              if Nat.ltb 1 runeLen then utf8_loop fuel (drop runeLen str) (output ++ take runeLen str)
              else utf8_loop fuel str'
                     (output ++ EscapeC_char c (match str' with next :: _ => next | [] => x00 end))
          | _ => Crash
          end
      end
  end.

Definition WriteUtf8String (str : list byte) : Result (list byte) := utf8_loop (S (length str)) str [].

(** ** What the loop writes *)

(** ASCII characters escaped, all other bytes verbatim. *)
Fixpoint utf8_all (s : list byte) : list byte :=
  match s with
  | [] => []
  | c :: s => (if 128 <=? byte_val c then [c] else EscapeC_char c (next_char s)) ++ utf8_all s
  end.

Lemma rune_len_one c : UTF8RuneLen c = 1%nat ↔ byte_val c < 128.
Proof.
  assert (Bool.eqb (Nat.eqb (UTF8RuneLen c) 1) (byte_val c <? 128) = true) as H
    by (revert c; apply forall_bytes; by vm_compute).
  apply eqb_prop in H. rewrite <- Nat.eqb_eq, H. apply Z.ltb_lt.
Qed.

Lemma rune_len_le c : (UTF8RuneLen c <= 4)%nat.
Proof. unfold UTF8RuneLen. repeat case_match; lia. Qed.

Lemma continuation_high c : IsUTF8ContinuationByte c = true → 128 <= byte_val c.
Proof.
  assert (implb (IsUTF8ContinuationByte c) (128 <=? byte_val c) = true) as H
    by (revert c; apply forall_bytes; by vm_compute).
  intros Hc. rewrite Hc in H. by apply Z.leb_le.
Qed.

Lemma read_continuation_ok n rune s r : read_continuation n rune s = RECODE_OK r →
  forallb IsUTF8ContinuationByte (take n s) = true.
Proof.
  revert rune s. induction n as [|n IH]; intros rune [|ch s]; simpl; try done.
  destruct (IsUTF8ContinuationByte ch); simpl; [|done]. apply IH.
Qed.

(** A rune accepted by the detector is accepted by [GetUTF8CharLen], with the same length. *)
Lemma SafeRead_GetCharLen c q rune len : SafeReadUTF8Char (c :: q) = RECODE_OK (rune, len) →
  GetUTF8CharLen (c :: q) = RECODE_OK len ∧ (1 <= len <= S (length q))%nat ∧
  (len = 1%nat → byte_val c < 128) ∧
  ((1 < len)%nat → Forall (λ b, 128 <= byte_val b) (take len (c :: q))).
Proof.
  unfold SafeReadUTF8Char, GetUTF8CharLen. pose proof (rune_len_one c) as Hone.
  set (n := UTF8RuneLen c) in *. clearbody n.
  destruct (Nat.ltb_spec (length (c :: q)) n) as [|Hl]; [done|]. simpl in Hl.
  destruct (Nat.eqb_spec n 0) as [|Hn]; [done|]. destruct (Nat.ltb_spec 1 n) as [H1|H1].
  - destruct (read_continuation (n - 1) _ q) as [r| |] eqn:E; try done. apply read_continuation_ok in E.
    destruct (IsValidUTF8Rune n r); [|done]. intros [= _ <-].
    split; [|split; [lia|split; [lia|]]].
    + destruct n as [|[|n]]; [lia|lia|]. rewrite (proj2 (Nat.ltb_ge _ _)) by (simpl; lia). by rewrite E.
    + intros _. destruct n as [|n']; [lia|]. simpl in E |- *. rewrite Nat.sub_0_r in E. constructor.
      * lia.
      * apply Forall_forall. intros x Hx. apply continuation_high. eapply forallb_forall in E; [exact E|done].
  - assert (n = 1%nat) as E1 by lia. intros [= _ <-]. rewrite E1. split_and!; [done|lia|lia| |lia].
    intros _. by apply Hone.
Qed.

Lemma utf8_all_high p s : Forall (λ b, 128 <= byte_val b) p → utf8_all (p ++ s) = p ++ utf8_all s.
Proof.
  induction 1 as [|c p Hc Hp IH]; simpl; [done|]. rewrite (proj2 (Z.leb_le _ _)) by done. simpl. by rewrite IH.
Qed.

Lemma detect_write fuel s res out : (length s < fuel)%nat → detect_loop fuel s res ≠ NotUTF8 →
  utf8_loop fuel s out = Ok (out ++ utf8_all s).
Proof.
  revert s res out. induction fuel as [|fuel IH]; intros s res out Hf Hd; [lia|].
  destruct s as [|c q]; [simpl; by rewrite app_nil_r|]. cbn [detect_loop utf8_loop] in *. simpl in Hf.
  destruct (SafeReadUTF8Char (c :: q)) as [[rune len]| |] eqn:E; [|done..].
  destruct (SafeRead_GetCharLen _ _ _ _ E) as (-> & Hlen & H1 & Hm).
  destruct (Nat.ltb_spec 1 len) as [Hlt|Hle].
  - rewrite (IH _ _ _) with (2 := Hd) by (rewrite length_drop; simpl; lia).
    rewrite <- app_assoc. do 2 f_equal. rewrite <- (take_drop len (c :: q)) at 3. by rewrite utf8_all_high by auto.
  - assert (len = 1%nat) as -> by lia. change (drop 1 (c :: q)) with q in Hd.
    rewrite (IH _ _ _) with (2 := Hd) by lia. cbn [utf8_all]. specialize (H1 eq_refl).
    rewrite (proj2 (Z.leb_gt _ _)) by lia. by rewrite <- app_assoc.
Qed.

Lemma WriteUtf8String_ok s : IsUtf s = true → WriteUtf8String s = Ok (utf8_all s).
Proof.
  unfold IsUtf, UTF8Detect, WriteUtf8String. intros Hs.
  apply (detect_write _ s ASCII []); [lia|]. by destruct (detect_loop _ _ _).
Qed.

Lemma follows_utf8 s : follows (next_char s) (utf8_all s).
Proof.
  destruct s as [|c s]; [done|]. simpl. destruct (128 <=? byte_val c); [by left|]. destruct (is_plain c) eqn:Hc.
  - rewrite EscapeC_char_plain by done. by left.
  - destruct (EscapeC_char_special c (next_char s) Hc) as (e & q & ->). by right.
Qed.

Lemma UnescapeC_utf8_all s : UnescapeC (utf8_all s) = Ok s.
Proof.
  induction s as [|c s IH]; [done|]. cbn [utf8_all].
  destruct (Z.leb_spec 128 (byte_val c)) as [Hc|Hc].
  - cbn [app]. rewrite UnescapeC_plain, IH; [done|]. destruct (Byte.eqb c x5c) eqn:E; [|done].
    apply byte_dec_bl in E as ->. by vm_compute in Hc.
  - destruct (is_plain c) eqn:Hp.
    + rewrite EscapeC_char_plain by done. cbn [app]. rewrite UnescapeC_plain, IH; [done|].
      unfold is_plain in Hp. apply andb_prop in Hp as [_ Hb]. by destruct (Byte.eqb c x5c).
    + destruct (EscapeC_char_special c (next_char s) Hp) as (e & q & Hr). rewrite Hr. cbn [app].
      rewrite (UnescapeC_escape e (q ++ utf8_all s) [c] (length q)).
      * by rewrite drop_app_length, IH.
      * eapply switch_escape; [done|done|apply follows_utf8].
Qed.

Lemma length_utf8_all s : (length (utf8_all s) <= 4 * length s)%nat.
Proof.
  induction s as [|c s IH]; [simpl; lia|]. cbn [utf8_all length]. rewrite length_app.
  assert (length (if (128 <=? byte_val c)%Z then [c] else EscapeC_char c (next_char s)) <= 4)%nat; [|lia].
  destruct (128 <=? byte_val c); [simpl; lia|]. unfold EscapeC_char. repeat case_match; simpl; lia.
Qed.

(** Passing UTF-8 through: for every string that [IsUtf] accepts, [WriteUtf8String] never
    fails its check, keeps every non-ASCII byte as it is, and what it writes unescapes to
    the string. *)
Theorem WriteUtf8String_roundtrip (s : list byte) (Hs : IsUtf s = true) :
  ∃ t, WriteUtf8String s = Ok t ∧ UnescapeC t = Ok s ∧
    List.filter (λ b, 128 <=? byte_val b) t = List.filter (λ b, 128 <=? byte_val b) s.
Proof.
  exists (utf8_all s). split_and!; [by apply WriteUtf8String_ok|apply UnescapeC_utf8_all|]. clear Hs.
  induction s as [|c s IH]; [done|]. cbn [utf8_all List.filter]. rewrite List.filter_app, IH.
  destruct (128 <=? byte_val c) eqn:Hc; [cbn [List.filter]; by rewrite Hc|].
  assert (∀ l, Forall (λ b, IsPrintable b = true) l → List.filter (λ b, 128 <=? byte_val b) l = []) as Hnil.
  { induction 1 as [|b l [_ Hb%Z.leb_le]%andb_prop Hl IHl]; cbn [List.filter]; [done|].
    rewrite (proj2 (Z.leb_gt _ _)) by lia. done. }
  by rewrite Hnil by apply EscapeC_char_printable.
Qed.

Lemma WriteUtf8String_roundtrip_witness :
  IsUtf [xd0; x9f; x0a; x22] = true ∧ ∃ t, WriteUtf8String [xd0; x9f; x0a; x22] = Ok t ∧ UnescapeC t = Ok [xd0; x9f; x0a; x22].
Proof.
  assert (IsUtf [xd0; x9f; x0a; x22] = true) as H by (by vm_compute). split; [exact H|].
  destruct (WriteUtf8String_roundtrip [xd0; x9f; x0a; x22] H) as (t & H1 & H2 & _). eauto.
Defined.
