(* ===== verification/YsonStream.v ===== *)
(** The streams under the YSON reader ([core/yson/detail.h]): block streams
    ([TStringReader], [TBlockReader]), [TCharStream] and [TCodedStream].

    The input arrives in blocks.  [Block] is what lies between [Current()] and
    [End()] of the current block, [Past] how far [Current()] has been moved beyond
    [End()] (the code does so once in front of a throw), [Rest] the blocks that
    [RefreshBlock] will still deliver; the last of them carries the finish flag.
    [TStringReader] is the case of a single block.

    Shown here: the optimised varint readers stay inside the block and agree with
    the byte-by-byte one however the input is cut into blocks. *)

From S2P Require Import Prelude Coding.

Record TStream := { Block : list byte; Past : nat; Rest : list (list byte) }.

Definition TStringReader (data : list byte) : TStream := {| Block := data; Past := 0; Rest := [] |}.

(** The blocks passed to [TYsonParser::Read], the last one with the finish flag. *)
Definition TBlockReader (block : list byte) (rest : list (list byte)) : TStream :=
  {| Block := block; Past := 0; Rest := rest |}.

(** ** TCharStream *)

Definition IsFinished (s : TStream) : bool := match Rest s with [] => true | _ => false end.

Definition IsEmpty (s : TStream) : bool :=
  match Block s with [] => Nat.eqb (Past s) 0 | _ => false end.

(** [*Current()]. *)
Definition Deref (s : TStream) : Result byte :=
  match Block s with c :: _ => Ok c | [] => Crash end.

Definition Advance (n : nat) (s : TStream) : TStream :=
  {| Block := drop n (Block s); Past := Past s + (n - length (Block s)); Rest := Rest s |}.

Definition Length (s : TStream) : nat := length (Block s).

(** The loop of [Refresh]: blocks are replaced until one is not empty or the
    finish flag is met. *)
Fixpoint refresh_blocks (rest : list (list byte)) : list byte * list (list byte) :=
  match rest with
  | [] => ([], [])
  | [] :: rest => refresh_blocks rest
  | b :: rest => (b, rest)
  end.

Definition Refresh (AllowFinish : bool) (s : TStream) : Result TStream :=
  let s :=
    if IsEmpty s then
      let '(b, rest) := refresh_blocks (Rest s) in {| Block := b; Past := 0; Rest := rest |}
    else s in
  if IsEmpty s && IsFinished s && negb AllowFinish then Throw EPrematureEndOfStream else Ok s.

Definition GetChar (AllowFinish : bool) (s : TStream) : Result (TStream * byte) :=
  if negb (IsEmpty s) then c ← Deref s; Ok (s, c)
  else
    s ← Refresh AllowFinish s;
    if negb (IsEmpty s) then c ← Deref s; Ok (s, c) else Ok (s, x00).

(** ** TCodedStream *)

Definition MaxVarintBytes : nat := 10.
Definition MaxVarint32Bytes : nat := 5.

Definition flagged (b : byte) : bool := negb (Z.land (byte_val b) 0x80 =? 0).

(** The condition of the fast paths: [MaxVarintBytes] are available, or the last
    byte of the block ends a varint. *)
Definition FastPath (s : TStream) : bool :=
  Nat.leb MaxVarintBytes (length (Block s)) ||
  match list.last (Block s) with Some b => negb (flagged b) | None => false end.

(** The unrolled [b = *(ptr++); result |= ...; if (!(b & 0x80)) goto done;] lines of
    [ReadVarint64]: [steps] lines are left, [n] bytes were read. *)
Fixpoint varint64_array (steps : nat) (ptr : list byte) (n : nat) (result : Z) : Result (Z * nat) :=
  match steps with
  | O => Throw EVarintTooLong
  | S steps =>
      match ptr with
      | [] => Crash
      | b :: ptr =>
          let result := Z.lor result (wrap_u 64 (Z.shiftl (Z.land (byte_val b) 0x7F) (7 * Z.of_nat n))) in
          if flagged b then varint64_array steps ptr (S n) result else Ok (result, S n)
      end
  end.

Fixpoint varint64_slow (fuel : nat) (s : TStream) (count : nat) (result : Z) : Result (TStream * Z) :=
  match fuel with
  | O => OutOfFuel
  | S fuel =>
      if Nat.eqb count MaxVarintBytes then Throw EVarintTooLong
      else
        s ← (if IsEmpty s then Refresh false s else Ok s);
        b ← Deref s;
        let result := Z.lor result (wrap_u 64 (Z.shiftl (Z.land (byte_val b) 0x7F) (7 * Z.of_nat count))) in
        let s := Advance 1 s in
        if flagged b then varint64_slow fuel s (S count) result else Ok (s, result)
  end.

(** The loop runs at most [MaxVarintBytes] times before it throws. *)
Definition ReadVarint64Slow (s : TStream) : Result (TStream * Z) :=
  varint64_slow (S MaxVarintBytes) s 0 0.

Definition ReadVarint64 (s : TStream) : Result (TStream * Z) :=
  if FastPath s then
    '(result, n) ← varint64_array MaxVarintBytes (Block s) 0 0;
    Ok (Advance n s, result)
  else ReadVarint64Slow s.

(** [ReadVarint32FromArray]: four lines that mask, one that keeps the low bits of a
    whole byte, then bytes that are only skipped. *)
Fixpoint varint32_skip (steps : nat) (ptr : list byte) (n : nat) (result : Z) : Result (Z * nat) :=
  match steps with
  | O => Throw EVarintTooLong
  | S steps =>
      match ptr with
      | [] => Crash
      | b :: ptr => if flagged b then varint32_skip steps ptr (S n) result else Ok (result, S n)
      end
  end.

Fixpoint varint32_array (masked : nat) (ptr : list byte) (n : nat) (result : Z) : Result (Z * nat) :=
  match ptr with
  | [] => Crash
  | b :: ptr =>
      match masked with
      | S masked =>
          let result := Z.lor result (Z.shiftl (Z.land (byte_val b) 0x7F) (7 * Z.of_nat n)) in
          if flagged b then varint32_array masked ptr (S n) result else Ok (result, S n)
      | O =>
          let result := Z.lor result (wrap_u 32 (Z.shiftl (byte_val b) 28)) in
          if flagged b then varint32_skip (MaxVarintBytes - MaxVarint32Bytes) ptr (S n) result
          else Ok (result, S n)
      end
  end.

Definition ReadVarint32FromArray (s : TStream) : Result (TStream * Z) :=
  '(result, n) ← varint32_array 4 (Block s) 0 0;
  Ok (Advance n s, result).

Definition ReadVarint32Slow (s : TStream) : Result (TStream * Z) :=
  '(s, result) ← ReadVarint64 s;
  Ok (s, wrap_u 32 result).

Definition ReadVarint32Fallback (s : TStream) : Result (TStream * Z) :=
  if FastPath s then ReadVarint32FromArray s else ReadVarint32Slow s.

Definition ReadVarint32 (s : TStream) : Result (TStream * Z) :=
  match Block s with
  | b :: _ =>
      if byte_val b <? 0x80 then Ok (Advance 1 s, byte_val b) else ReadVarint32Fallback s
  | [] => ReadVarint32Fallback s
  end.

(** [ReadVarint64ToArray]: the bytes copied to [out]. *)
Fixpoint varint_copy (steps : nat) (ptr out : list byte) : Result (list byte) :=
  match steps with
  | O => Throw EVarintTooLong
  | S steps =>
      match ptr with
      | [] => Crash
      | b :: ptr => if flagged b then varint_copy steps ptr (out ++ [b]) else Ok (out ++ [b])
      end
  end.

Definition ReadVarint64ToArray (s : TStream) : Result (TStream * list byte) :=
  if FastPath s then
    out ← varint_copy MaxVarintBytes (Block s) [];
    Ok (Advance (length out) s, out)
  else
    '(s, value) ← ReadVarint64Slow s;
    Ok (s, Varint.WriteVarUint64 value).

(** How many characters and block boundaries a stream still holds: what bounds
    the loops over it. *)
Definition stream_size (s : TStream) : nat :=
  length (Block s) + list_sum (map (λ b, S (length b)) (Rest s)).

(** ** What is still to be read *)

Definition text_of (s : TStream) : list byte := Block s ++ concat (Rest s).

(** [s] has the text [t] in front of it, and [Current()] is inside its block. *)
Definition at_stream (s : TStream) (t : list byte) : Prop := Past s = 0%nat ∧ text_of s = t.

Lemma length_text s : (length (text_of s) <= stream_size s)%nat.
Proof.
  unfold text_of, stream_size. rewrite length_app.
  induction (Rest s) as [|b r IH]; simpl; [lia|]. rewrite length_app. lia.
Qed.

Lemma refresh_blocks_spec rest b r : refresh_blocks rest = (b, r) →
  concat rest = b ++ concat r ∧ (b = [] → r = []) ∧
  (length b + list_sum (map (λ b, S (length b)) r) + (if decide (rest = []) then 0 else 1) <=
   list_sum (map (λ b, S (length b)) rest))%nat.
Proof.
  induction rest as [|[|c b'] rest IH]; simpl; intros Heq; simplify_eq.
  - split_and!; [done|done|simpl; lia].
  - destruct (IH Heq) as (H1 & H2 & H3). split_and!; [done|done|].
    destruct (decide (rest = [])); simpl; lia.
  - split_and!; [done|done|simpl; lia].
Qed.

Lemma IsEmpty_cons s c b : Block s = c :: b → IsEmpty s = false.
Proof. unfold IsEmpty. by intros ->. Qed.

Lemma IsEmpty_true s : IsEmpty s = true → Block s = [] ∧ Past s = 0%nat.
Proof. unfold IsEmpty. destruct (Block s); [|done]. by intros ?%Nat.eqb_eq. Qed.

Lemma IsEmpty_false s t : at_stream s t → IsEmpty s = false →
  ∃ c b, Block s = c :: b ∧ t = c :: b ++ concat (Rest s).
Proof.
  intros [Hp Ht]. unfold IsEmpty, text_of in *. rewrite Hp.
  destruct (Block s) as [|c b]; [done|]. intros _. exists c, b. by rewrite <- Ht.
Qed.

Lemma Refresh_text a s c t : at_stream s (c :: t) →
  ∃ s' b, (if IsEmpty s then Refresh a s else Ok s) = Ok s' ∧ at_stream s' (c :: t) ∧ Block s' = c :: b.
Proof.
  intros Hs. destruct (IsEmpty s) eqn:E.
  - apply IsEmpty_true in E as [E1 E2]. destruct Hs as [Hp Ht].
    unfold text_of in Ht. rewrite E1 in Ht. simpl in Ht.
    unfold Refresh, IsEmpty. rewrite E1, E2. simpl.
    destruct (refresh_blocks (Rest s)) as [b r] eqn:Er. simpl.
    apply refresh_blocks_spec in Er as (Hc & Hn & _). rewrite Hc in Ht.
    destruct b as [|c' b]; [rewrite Hn in Ht by done; done|]. simplify_eq/=.
    eexists _, b. split_and!; [done| |done]. split; [done|]. unfold text_of. simpl. by f_equal.
  - destruct (IsEmpty_false _ _ Hs E) as (c' & b & Hb & Heq). simplify_eq. eauto.
Qed.

Lemma Refresh_end a s : at_stream s [] →
  Refresh a s = if a then Ok (TStringReader []) else Throw EPrematureEndOfStream.
Proof.
  intros [Hp Ht]. unfold text_of in Ht. apply app_nil in Ht as [Hb Hr].
  unfold Refresh, IsEmpty. rewrite Hb, Hp. simpl.
  destruct (refresh_blocks (Rest s)) as [b r] eqn:Er.
  apply refresh_blocks_spec in Er as (Hc & Hn & _). rewrite Hr in Hc. symmetry in Hc.
  apply app_nil in Hc as [-> _]. rewrite Hn by done. by destruct a.
Qed.

Lemma at_nil_empty s : at_stream s [] → IsEmpty s = true.
Proof.
  intros [Hp Ht]. apply app_nil in Ht as [Hb _]. unfold IsEmpty. by rewrite Hb, Hp.
Qed.

Lemma GetChar_text a s c t : at_stream s (c :: t) →
  ∃ s' b, GetChar a s = Ok (s', c) ∧ at_stream s' (c :: t) ∧ Block s' = c :: b.
Proof.
  intros Hs. destruct (Refresh_text a s c t Hs) as (s' & b & Hr & Hs' & Hb).
  unfold GetChar, Deref. destruct (IsEmpty s) eqn:E; simpl.
  - rewrite Hr. simpl. rewrite (IsEmpty_cons _ _ _ Hb). simpl. rewrite Hb. simpl. eauto.
  - injection Hr as ->. rewrite Hb. simpl. eauto.
Qed.

Lemma GetChar_end s : at_stream s [] → GetChar true s = Ok (TStringReader [], x00).
Proof.
  intros Hs. unfold GetChar. rewrite (at_nil_empty _ Hs). simpl. by rewrite (Refresh_end true).
Qed.

Lemma GetChar_end_false s : at_stream s [] → GetChar false s = Throw EPrematureEndOfStream.
Proof.
  intros Hs. unfold GetChar. rewrite (at_nil_empty _ Hs). simpl. by rewrite (Refresh_end false).
Qed.

Lemma Advance_text s c b t : at_stream s (c :: t) → Block s = c :: b → at_stream (Advance 1 s) t.
Proof.
  intros [Hp Ht] Hb. unfold text_of in Ht. rewrite Hb in Ht. simplify_eq/=.
  split; unfold text_of; simpl; rewrite Hb; simpl; [lia|done].
Qed.

Lemma Advance_many n s t : at_stream s t → (n <= length (Block s))%nat → at_stream (Advance n s) (drop n t).
Proof.
  intros [Hp Ht] Hn. split; unfold text_of in *; simpl; [lia|].
  by rewrite <- Ht, drop_app_le by lia.
Qed.

Lemma Refresh_shrinks a s s' : IsEmpty s = true → IsFinished s = false → Refresh a s = Ok s' →
  (stream_size s' < stream_size s)%nat.
Proof.
  intros He Hf. destruct (IsEmpty_true _ He) as [Hb Hp]. unfold Refresh. rewrite He.
  destruct (refresh_blocks (Rest s)) as [b r] eqn:Er. apply refresh_blocks_spec in Er as (_ & _ & Hl).
  unfold IsFinished in Hf. destruct (decide (Rest s = [])) as [E|]; [by rewrite E in Hf|].
  destruct (_ && negb a); [done|]. intros [= <-]. unfold stream_size. rewrite Hb. simpl. lia.
Qed.

Lemma Advance_shrinks n s : (0 < n <= length (Block s))%nat →
  (stream_size (Advance n s) + n = stream_size s)%nat.
Proof. intros Hn. unfold stream_size. simpl. rewrite length_drop. lia. Qed.

Lemma Refresh_text' a s c t : at_stream s (c :: t) → IsEmpty s = true →
  ∃ s' b, Refresh a s = Ok s' ∧ at_stream s' (c :: t) ∧ Block s' = c :: b.
Proof. intros Hs He. pose proof (Refresh_text a s c t Hs) as H. by rewrite He in H. Qed.

(** ** Varints across block boundaries *)

Lemma flagged_spec b : flagged b = (128 <=? byte_val b).
Proof.
  unfold flagged. rewrite Varint.land_128. symmetry. apply Z.leb_antisym.
Qed.

Lemma flagged_true b : flagged b = true ↔ 128 <= byte_val b.
Proof. rewrite flagged_spec. apply Z.leb_le. Qed.

Lemma flagged_false b : flagged b = false ↔ byte_val b < 128.
Proof. rewrite flagged_spec. rewrite Z.leb_gt. done. Qed.

(** [p] are flagged bytes, [b] is not: a complete varint. *)
Definition is_varint (p : list byte) (b : byte) : Prop :=
  Forall (λ x, flagged x = true) p ∧ flagged b = false.

Definition acc64 (n : nat) (result : Z) (bs : list byte) : Z :=
  (foldl (λ '(n, r) b,
    (S n, Z.lor r (wrap_u 64 (Z.shiftl (Z.land (byte_val b) 0x7F) (7 * Z.of_nat n))))) (n, result) bs).2.

Lemma acc64_cons n r b bs : acc64 n r (b :: bs) =
  acc64 (S n) (Z.lor r (wrap_u 64 (Z.shiftl (Z.land (byte_val b) 0x7F) (7 * Z.of_nat n)))) bs.
Proof. reflexivity. Qed.

Lemma varint64_array_spec p b rest steps n r : is_varint p b → (length p < steps)%nat →
  varint64_array steps (p ++ b :: rest) n r = Ok (acc64 n r (p ++ [b]), (n + length p + 1)%nat).
Proof.
  intros [Hp Hb]. revert steps n r. induction Hp as [|x p Hx Hp IH]; intros [|steps] n r Hl; simpl in Hl; try lia; simpl.
  - rewrite Hb. do 2 f_equal. lia.
  - rewrite Hx, IH by lia. rewrite acc64_cons. do 2 f_equal. lia.
Qed.

Lemma varint64_array_long p rest steps n r : Forall (λ x, flagged x = true) p → length p = steps →
  varint64_array steps (p ++ rest) n r = Throw EVarintTooLong.
Proof.
  intros Hp. revert steps n r. induction Hp as [|x p Hx Hp IH]; intros steps n r <-; simpl; [done|].
  rewrite Hx. by apply IH.
Qed.

Lemma varint64_slow_spec p b rest fuel s n r : is_varint p b → at_stream s (p ++ b :: rest) →
  (n + length p < 10)%nat → (length p < fuel)%nat →
  ∃ s', varint64_slow fuel s n r = Ok (s', acc64 n r (p ++ [b])) ∧ at_stream s' rest.
Proof.
  intros [Hp Hb]. revert s fuel n r. induction Hp as [|x p Hx Hp IH]; intros s [|fuel] n r Hs Hn Hf;
    simpl in Hn, Hf; try lia; simpl varint64_slow; simpl app in *.
  - destruct (Refresh_text false s _ _ Hs) as (s' & bl & -> & Hs' & Hbl). simpl.
    destruct (Nat.eqb_spec n MaxVarintBytes) as [E|_]; [unfold MaxVarintBytes in E; lia|].
    unfold Deref. rewrite Hbl. simpl. rewrite Hb. eexists. split; [done|]. by eapply Advance_text.
  - destruct (Refresh_text false s _ _ Hs) as (s' & bl & -> & Hs' & Hbl). simpl.
    destruct (Nat.eqb_spec n MaxVarintBytes) as [E|_]; [unfold MaxVarintBytes in E; lia|].
    unfold Deref. rewrite Hbl. simpl. rewrite Hx.
    destruct (IH (Advance 1 s') fuel (S n) (Z.lor r (wrap_u 64 (Z.shiftl (Z.land (byte_val x) 0x7F) (7 * Z.of_nat n)))))
      as (s2 & -> & Hs2); [by eapply Advance_text|lia|lia|]. eauto.
Qed.

(** Under the fast-path condition a complete varint lies inside the block. *)
Lemma FastPath_inside s p b rest : FastPath s = true → is_varint p b → (length p < 10)%nat →
  at_stream s (p ++ b :: rest) → ∃ rest', Block s = p ++ b :: rest'.
Proof.
  intros Hf [Hp Hb] Hl [_ Ht]. unfold text_of in Ht.
  assert (length p < length (Block s))%nat as Hlen.
  { apply orb_prop in Hf as [Hf|Hf]; [apply Nat.leb_le in Hf; unfold MaxVarintBytes in Hf; lia|].
    destruct (list.last (Block s)) as [x|] eqn:E; [|done]. apply negb_true_iff in Hf.
    destruct (decide (length p < length (Block s))%nat) as [|Hn]; [done|].
    assert (Block s = take (length (Block s)) p) as Hpre.
    { rewrite <- (take_app_le p (b :: rest)) by lia. rewrite <- Ht. by rewrite take_app_length. }
    assert (Forall (λ x, flagged x = true) (Block s)) as Hall
      by (rewrite Hpre; by apply Forall_take).
    apply last_Some in E as [l' E]. rewrite E in Hall.
    apply Forall_app in Hall as [_ Hx]. apply Forall_inv in Hx. congruence. }
  exists (drop (S (length p)) (Block s)).
  rewrite <- (take_drop (S (length p)) (Block s)) at 1.
  replace (take (S (length p)) (Block s)) with (p ++ [b]); [by rewrite <- app_assoc|].
  assert (take (S (length p)) (Block s ++ concat (Rest s)) = take (S (length p)) (p ++ b :: rest)) as H by by rewrite Ht.
  rewrite take_app_le in H by lia. rewrite H. rewrite take_app. rewrite take_ge by lia.
  by replace (S (length p) - length p)%nat with 1%nat by lia.
Qed.

Lemma acc64_spec p b n r : is_varint p b → (n + length p < 10)%nat → in_u (7 * Z.of_nat n) r →
  acc64 n r (p ++ [b]) = wrap_u 64 (r + Varint.value_of (p ++ [b]) * 2 ^ (7 * Z.of_nat n)).
Proof.
  intros [Hp Hb]. revert n r. induction Hp as [|x p Hx Hp IH]; intros n r Hn Hr; simpl in Hn; cbn [app].
  - rewrite acc64_cons. unfold acc64. cbn [foldl snd Varint.value_of].
    rewrite Varint.accumulate by (done || lia). do 2 f_equal. ring.
  - rewrite acc64_cons, Varint.accumulate by (done || lia). cbn [Varint.value_of].
    destruct (Varint.accumulate_range r (byte_val x) (Z.of_nat n)) as [Hr' ->]; [lia|done|].
    rewrite IH; [|lia|by rewrite Nat2Z.inj_succ, <- Z.add_1_r].
    f_equal. rewrite Nat2Z.inj_succ, Z.mul_succ_r, Z.pow_add_r by lia.
    change (2 ^ 7) with 128. ring.
Qed.

Lemma acc64_value p b : is_varint p b → (length p < 10)%nat →
  acc64 0 0 (p ++ [b]) = wrap_u 64 (Varint.value_of (p ++ [b])).
Proof. intros. rewrite acc64_spec by (done || lia || (unfold in_u; simpl; lia)). f_equal. simpl. lia. Qed.

Lemma Advance_varint s p b rest rest' : at_stream s (p ++ b :: rest) → Block s = p ++ b :: rest' →
  at_stream (Advance (length p + 1) s) rest.
Proof.
  intros Hs Hb. pose proof (Advance_many (length p + 1) s _ Hs) as H.
  rewrite Hb, length_app in H. simpl in H. specialize (H ltac:(lia)).
  replace (p ++ b :: rest) with ((p ++ [b]) ++ rest) in H by by rewrite <- app_assoc.
  by rewrite drop_app_length' in H by (rewrite length_app; simpl; lia).
Qed.

Lemma ReadVarint64_text s p b rest : is_varint p b → (length p < 10)%nat →
  at_stream s (p ++ b :: rest) →
  ∃ s', ReadVarint64 s = Ok (s', wrap_u 64 (Varint.value_of (p ++ [b]))) ∧ at_stream s' rest.
Proof.
  intros Hv Hl Hs. unfold ReadVarint64. destruct (FastPath s) eqn:Hf.
  - destruct (FastPath_inside s p b rest Hf Hv Hl Hs) as [rest' Hb]. rewrite Hb.
    rewrite varint64_array_spec by (done || unfold MaxVarintBytes; lia). simpl.
    rewrite acc64_value by done. eexists. split; [done|]. by eapply Advance_varint.
  - unfold ReadVarint64Slow.
    destruct (varint64_slow_spec p b rest (S MaxVarintBytes) s 0 0) as (s' & -> & Hs');
      [done|done|simpl; lia|unfold MaxVarintBytes; lia|].
    rewrite acc64_value by done. eauto.
Qed.

(** The five-byte unrolled 32-bit reader computes the low 32 bits. *)
Lemma varint32_skip_spec p b rest steps n r : is_varint p b → (length p < steps)%nat →
  varint32_skip steps (p ++ b :: rest) n r = Ok (r, (n + length p + 1)%nat).
Proof.
  intros [Hp Hb]. revert steps n. induction Hp as [|x p Hx Hp IH]; intros [|steps] n Hl; simpl in Hl; try lia; simpl.
  - rewrite Hb. do 2 f_equal. lia.
  - rewrite Hx, IH by lia. do 2 f_equal. lia.
Qed.

Lemma lor_digit r x n : 0 <= n → in_u (7 * n) r →
  Z.lor r (Z.shiftl (Z.land x 0x7F) (7 * n)) = r + (x mod 128) * 2 ^ (7 * n).
Proof. intros Hn Hr. rewrite land_127, Z.shiftl_mul_pow2 by lia. by rewrite lor_low_high by (lia || done). Qed.

Lemma digit_range r x n : 0 <= n → in_u (7 * n) r → in_u (7 * (n + 1)) (r + (x mod 128) * 2 ^ (7 * n)).
Proof.
  intros Hn Hr. unfold in_u in *. replace (7 * (n + 1)) with (7 + 7 * n) by lia.
  rewrite Z.pow_add_r by lia. change (2 ^ 7) with 128. pose proof (Z.mod_pos_bound x 128). nia.
Qed.

(** The fifth byte is shifted whole: its flag and high bits fall off a [ui32]. *)
Lemma fifth_digit r x v : in_u 28 r → 0 <= x < 256 → 0 <= v →
  Z.lor r (wrap_u 32 (Z.shiftl x 28)) = wrap_u 32 (r + (x mod 128 + 128 * v) * 2 ^ 28).
Proof.
  intros Hr Hx Hv. rewrite Z.shiftl_mul_pow2 by lia. unfold wrap_u, in_u in *.
  change (2 ^ 32) with (16 * 2 ^ 28). rewrite Z.mul_mod_distr_r by lia.
  rewrite lor_low_high by (done || lia).
  apply (Z.mod_unique_pos _ _ ((x mod 128 + 128 * v) / 16)).
  - pose proof (Z.mod_pos_bound x 16). lia.
  - assert (x mod 16 = (x mod 128 + 128 * v) mod 16) as ->.
    { rewrite Z.add_mod, (Z.mul_mod 128 v) by lia. change (128 mod 16) with 0. simpl.
      rewrite Z.add_0_r, Z.mod_mod by lia. change 128 with (16 * 8). rewrite Z.rem_mul_r by lia.
      rewrite Z.add_mod, (Z.mul_comm 16), Z.mod_mul by lia. by rewrite Z.add_0_r, !Z.mod_mod by lia. }
    pose proof (Z.div_mod (x mod 128 + 128 * v) 16). lia.
Qed.

Lemma varint32_array_spec p b rest n r : is_varint p b → (n <= 4)%nat → (n + length p < 10)%nat →
  in_u (7 * Z.of_nat n) r →
  varint32_array (4 - n) (p ++ b :: rest) n r =
    Ok (wrap_u 32 (r + Varint.value_of (p ++ [b]) * 2 ^ (7 * Z.of_nat n)), (n + length p + 1)%nat).
Proof.
  intros Hv Hn. remember (4 - n)%nat as m eqn:Em. revert p n r Em Hv Hn.
  induction m as [|m IH]; intros p n r Em [Hp Hb] Hn Hl Hr.
  - assert (n = 4%nat) as -> by lia. change (7 * Z.of_nat 4) with 28 in *.
    destruct Hp as [|x p Hx Hp]; cbn [app varint32_array Varint.value_of].
    + rewrite Hb, (fifth_digit r _ 0) by (done || lia || apply byte_val_range). do 2 f_equal.
    + rewrite Hx, (fifth_digit r _ (Varint.value_of (p ++ [b])))
        by (done || apply byte_val_range || apply Varint.value_of_nonneg).
      simpl in Hl. rewrite varint32_skip_spec by (done || (unfold MaxVarintBytes, MaxVarint32Bytes; lia)).
      cbn [length]. do 2 f_equal; lia.
  - assert (∀ x q, 7 * Z.of_nat (S n) = 7 * (Z.of_nat n + 1) ∧
      r + x mod 128 * 2 ^ (7 * Z.of_nat n) + q * 2 ^ (7 * (Z.of_nat n + 1)) =
      r + (x mod 128 + 128 * q) * 2 ^ (7 * Z.of_nat n)) as Hval.
    { intros x q. split; [lia|]. rewrite Z.mul_add_distr_l, Z.pow_add_r by lia.
      change (2 ^ (7 * 1)) with 128. ring. }
    destruct Hp as [|x p Hx Hp]; cbn [app varint32_array Varint.value_of].
    + rewrite Hb, lor_digit by (done || lia). do 2 f_equal; [|simpl; lia].
      rewrite Z.mul_0_r, Z.add_0_r. symmetry. apply wrap_u_id.
      pose proof (digit_range r (byte_val b) (Z.of_nat n) ltac:(lia) Hr) as H. unfold in_u in *.
      assert (2 ^ (7 * (Z.of_nat n + 1)) <= 2 ^ 32) by (apply Z.pow_le_mono_r; lia). lia.
    + rewrite Hx, lor_digit by (done || lia). simpl in Hl. rewrite IH; [|lia|done|lia|lia|].
      * destruct (Hval (byte_val x) (Varint.value_of (p ++ [b]))) as [-> ->].
        cbn [length]. do 2 f_equal. lia.
      * destruct (Hval 0 0) as [-> _]. apply digit_range; [lia|done].
Qed.

Lemma wrap_u_32_64 z : wrap_u 32 (wrap_u 64 z) = wrap_u 32 z.
Proof. unfold wrap_u. change (2 ^ 64) with (2 ^ 32 * 2 ^ 32). rewrite Z.rem_mul_r by lia.
  rewrite Z.add_mod, Z.mul_comm, Z.mod_mul by lia. by rewrite Z.add_0_r, !Z.mod_mod by lia. Qed.

Lemma ReadVarint32_text s p b rest : is_varint p b → (length p < 10)%nat →
  at_stream s (p ++ b :: rest) →
  ∃ s', ReadVarint32 s = Ok (s', wrap_u 32 (Varint.value_of (p ++ [b]))) ∧ at_stream s' rest.
Proof.
  intros Hv Hl Hs.
  assert (∃ s', ReadVarint32Fallback s = Ok (s', wrap_u 32 (Varint.value_of (p ++ [b]))) ∧ at_stream s' rest) as Hfb.
  { unfold ReadVarint32Fallback. destruct (FastPath s) eqn:Hf.
    - destruct (FastPath_inside s p b rest Hf Hv Hl Hs) as [rest' Hb]. unfold ReadVarint32FromArray.
      change 4%nat with (4 - 0)%nat. rewrite Hb, (varint32_array_spec p b rest' 0 0) by (done || lia || (unfold in_u; simpl; lia)). simpl.
      rewrite Z.mul_1_r. eexists. split; [done|]. by eapply Advance_varint.
    - unfold ReadVarint32Slow. destruct (ReadVarint64_text s p b rest Hv Hl Hs) as (s' & -> & Hs').
      simpl. rewrite wrap_u_32_64. eauto. }
  unfold ReadVarint32. destruct (Block s) as [|c bl] eqn:Hb; [done|].
  destruct (Z.ltb_spec (byte_val c) 0x80) as [Hc|]; [|done].
  destruct Hs as [Hpast Ht]. unfold text_of in Ht. rewrite Hb in Ht.
  assert (p = []) as ->.
  { destruct Hv as [Hp _]. destruct p as [|x p]; [done|]. simplify_eq/=.
    apply Forall_inv, flagged_true in Hp. lia. }
  simplify_eq/=. eexists. split; [|eapply Advance_text; [|exact Hb]; split; [done|unfold text_of; by rewrite Hb]].
  do 2 f_equal. pose proof (byte_val_range b). rewrite Z.mul_0_r, Z.add_0_r, Z.mod_small by lia.
  rewrite wrap_u_id; [done|unfold in_u; lia].
Qed.

Lemma varint_cases (t : list byte) n :
  (∃ p b rest, t = p ++ b :: rest ∧ is_varint p b ∧ (length p < n)%nat) ∨
  (∃ p rest, t = p ++ rest ∧ Forall (λ x, flagged x = true) p ∧ length p = n) ∨
  (Forall (λ x, flagged x = true) t ∧ (length t < n)%nat).
Proof.
  revert n. induction t as [|x t IH]; intros n.
  - destruct n as [|n]; [right; left; by exists [], []|]. right; right. split; [constructor|simpl; lia].
  - destruct n as [|n]; [right; left; by exists [], (x :: t)|]. destruct (flagged x) eqn:Hx.
    + destruct (IH n) as [(p & b & r & -> & [Hp Hb] & Hl)|[(p & r & -> & Hp & Hl)|[Ht Hl]]].
      * left. exists (x :: p), b, r. split_and!; [done| |simpl; lia]. split; [by constructor|done].
      * right; left. exists (x :: p), r. split_and!; [done|by constructor|simpl; lia].
      * right; right. split; [by constructor|simpl; lia].
    + left. exists [], x, t. split_and!; [done|split; [constructor|done]|simpl; lia].
Qed.

Lemma last_flagged (l : list byte) b : Forall (λ x, flagged x = true) l → list.last l = Some b → flagged b = true.
Proof.
  intros Hl [l' ->]%last_Some. apply Forall_app in Hl as [_ Hx]. by apply Forall_inv in Hx.
Qed.

Lemma FastPath_flagged s : (length (Block s) < 10)%nat → Forall (λ x, flagged x = true) (Block s) →
  FastPath s = false.
Proof.
  intros Hl Hp. unfold FastPath. rewrite (proj2 (Nat.leb_gt _ _)) by (unfold MaxVarintBytes; lia).
  simpl. destruct (list.last (Block s)) eqn:E; [|done]. by rewrite (last_flagged _ _ Hp E).
Qed.

Lemma varint64_slow_bad p rest fuel s n r : Forall (λ x, flagged x = true) p → at_stream s (p ++ rest) →
  (n + length p = 10 ∨ (n + length p < 10 ∧ rest = []))%nat → (length p < fuel)%nat →
  ∃ e, varint64_slow fuel s n r = Throw e ∧ e = if decide (n + length p = 10)%nat then EVarintTooLong else EPrematureEndOfStream.
Proof.
  intros Hp. revert s fuel n r. induction Hp as [|x p Hx Hp IH]; intros s [|fuel] n r Hs Hn Hf;
    simpl in Hn, Hf; try lia; simpl varint64_slow; simpl app in *.
  - destruct (Nat.eqb_spec n MaxVarintBytes) as [E|E]; unfold MaxVarintBytes in E.
    + rewrite decide_True by (simpl; lia). eauto.
    + destruct Hn as [Hn|[Hn ->]]; [lia|]. rewrite (at_nil_empty _ Hs), (Refresh_end _ _ Hs). simpl.
      rewrite decide_False by lia. eauto.
  - destruct (Nat.eqb_spec n MaxVarintBytes) as [E|_]; [unfold MaxVarintBytes in E; lia|].
    destruct (Refresh_text false s _ _ Hs) as (s' & bl & -> & Hs' & Hbl). simpl.
    unfold Deref. rewrite Hbl. simpl. rewrite Hx.
    destruct (IH (Advance 1 s') fuel (S n) (Z.lor r (wrap_u 64 (Z.shiftl (Z.land (byte_val x) 0x7F) (7 * Z.of_nat n)))))
      as (e & -> & ->); [by eapply Advance_text|destruct Hn as [?|[? ?]]; [left; lia|right; split; [lia|done]]|lia|].
    eexists. split; [done|]. repeat destruct (decide _); (done || simpl in *; lia).
Qed.

Lemma ReadVarint64_bad s p rest : Forall (λ x, flagged x = true) p → at_stream s (p ++ rest) →
  (length p = 10 ∨ (length p < 10 ∧ rest = []))%nat →
  ReadVarint64 s = Throw (if decide (length p = 10)%nat then EVarintTooLong else EPrematureEndOfStream).
Proof.
  intros Hp Hs Hl. unfold ReadVarint64. destruct (FastPath s) eqn:Hf.
  - destruct Hs as [_ Ht]. unfold text_of in Ht.
    assert (10 <= length (Block s))%nat as H10.
    { destruct (decide (10 <= length (Block s))%nat) as [|Hn]; [done|]. exfalso.
      assert (Forall (λ x, flagged x = true) (Block s)) as Hall; [|by rewrite FastPath_flagged in Hf by (done || lia)].
      destruct Hl as [Hl|[Hl ->]].
      - replace (Block s) with (take (length (Block s)) (Block s ++ concat (Rest s)))
          by apply take_app_length. rewrite Ht, take_app_le by lia. by apply Forall_take.
      - rewrite app_nil_r in Ht. rewrite <- Ht in Hp. by apply Forall_app in Hp as [? _]. }
    destruct Hl as [Hl|[Hl ->]].
    + rewrite <- (take_drop 10 (Block s)).
      replace (take 10 (Block s)) with p.
      * rewrite varint64_array_long by (done || unfold MaxVarintBytes; lia). simpl. by rewrite decide_True.
      * rewrite <- (take_app_le (Block s) (concat (Rest s))) by lia. rewrite Ht.
        by rewrite take_app_length' by lia.
    + rewrite app_nil_r in Ht. rewrite <- Ht, length_app in Hl. lia.
  - unfold ReadVarint64Slow.
    destruct (varint64_slow_bad p rest (S MaxVarintBytes) s 0 0 Hp Hs) as (e & -> & ->);
      [done|unfold MaxVarintBytes; lia|done].
Qed.

(** ** Safety on arbitrary input *)

Definition stream_safe {A} (s : TStream) (r : Result (TStream * A)) (Q : TStream → A → Prop) : Prop :=
  match r with
  | Ok (s', a) => Past s' = 0%nat ∧ (stream_size s' <= stream_size s)%nat ∧ Q s' a
  | Throw _ => True
  | _ => False
  end.

Lemma Refresh_safe a s : Past s = 0%nat →
  match Refresh a s with
  | Ok s' => Past s' = 0%nat ∧ (stream_size s' <= stream_size s)%nat ∧
      ((∃ c b, Block s' = c :: b) ∨ (a = true ∧ at_stream s' [] ∧ Rest s' = []))
  | Throw _ => a = false
  | _ => False
  end.
Proof.
  intros Hp. destruct (text_of s) as [|c t] eqn:Ht.
  - rewrite (Refresh_end a s (conj Hp Ht)). destruct a; [|done].
    split_and!; [done|unfold stream_size; simpl; lia|]. by right.
  - destruct (IsEmpty s) eqn:E.
    + destruct (Refresh_text' a s c t (conj Hp Ht) E) as (s' & b & Hr & [Hp' _] & Hb). rewrite Hr.
      split_and!; [done| |eauto]. destruct (IsFinished s) eqn:Ef.
      * unfold IsFinished in Ef. destruct (Rest s) eqn:Er; [|done]. apply IsEmpty_true in E as [E _].
        unfold text_of in Ht. by rewrite E, Er in Ht.
      * pose proof (Refresh_shrinks a s s' E Ef Hr). lia.
    + destruct (IsEmpty_false s _ (conj Hp Ht) E) as (x & b & Hb & _).
      unfold Refresh. rewrite E. rewrite E. simpl. split_and!; [done|done|]. left. eauto.
Qed.

Lemma GetChar_safe a s : Past s = 0%nat →
  stream_safe s (GetChar a s) (λ s' c, (∃ b, Block s' = c :: b) ∨ (c = x00 ∧ a = true ∧ at_stream s' [])).
Proof.
  intros Hp. unfold GetChar. destruct (IsEmpty s) eqn:E; simpl.
  - pose proof (Refresh_safe a s Hp) as Hr. destruct (Refresh a s) as [s'| | |]; simpl; try done.
    destruct Hr as (Hp' & Hs & [(c & b & Hb)|(-> & Hat & _)]).
    + rewrite (IsEmpty_cons _ _ _ Hb). unfold Deref. rewrite Hb. simpl. split_and!; [done|done|eauto].
    + rewrite (at_nil_empty _ Hat). simpl. split_and!; [done|done|auto].
  - destruct (IsEmpty_false s _ (conj Hp eq_refl) E) as (x & b & Hb & _).
    unfold Deref. rewrite Hb. simpl. split_and!; [done|done|eauto].
Qed.

Lemma Advance_safe n s : Past s = 0%nat → (n <= length (Block s))%nat →
  Past (Advance n s) = 0%nat ∧ (stream_size (Advance n s) + n = stream_size s)%nat.
Proof.
  intros Hp Hn. unfold stream_size. simpl. rewrite length_drop. lia.
Qed.

Lemma varint64_array_bound steps ptr n r v m :
  varint64_array steps ptr n r = Ok (v, m) → (n < m <= n + length ptr)%nat.
Proof.
  revert ptr n r. induction steps as [|steps IH]; intros [|b ptr] n r; simpl; try done.
  destruct (flagged b); [|intros [= _ <-]; lia]. intros H%IH. lia.
Qed.

Lemma varint64_slow_size fuel s n r s' v : Past s = 0%nat →
  varint64_slow fuel s n r = Ok (s', v) → Past s' = 0%nat ∧ (stream_size s' <= stream_size s)%nat.
Proof.
  revert s n r. induction fuel as [|fuel IH]; intros s n r Hp; simpl; [done|].
  destruct (Nat.eqb n MaxVarintBytes); [done|].
  destruct (text_of s) as [|c t] eqn:Ht.
  { rewrite (at_nil_empty s (conj Hp Ht)), (Refresh_end false s (conj Hp Ht)). done. }
  destruct (Refresh_text false s c t (conj Hp Ht)) as (s1 & b & Hr & [Hp1 _] & Hb). rewrite Hr. simpl.
  unfold Deref. rewrite Hb. simpl.
  assert (stream_size s1 <= stream_size s)%nat as Hs1.
  { destruct (IsEmpty s) eqn:E; [|by simplify_eq]. pose proof (Refresh_safe false s Hp) as H. rewrite Hr in H. tauto. }
  pose proof (Advance_safe 1 s1 Hp1) as Ha. rewrite Hb in Ha. destruct Ha as [Hp2 Hs2]; [simpl; lia|].
  destruct (flagged c); [|intros [= <- _]; split; [done|lia]].
  intros [? ?]%IH; [split; [done|lia]|done].
Qed.

Lemma ReadVarint64_outcome s : Past s = 0%nat →
  match ReadVarint64 s with
  | Ok (s', v) => in_u 64 v
  | Throw _ => True
  | _ => False
  end.
Proof.
  intros Hp.
  destruct (varint_cases (text_of s) 10) as [(p & b & r & Ht & Hv & Hl)|[(p & r & Ht & Hpf & Hl)|[Hpf Hl]]].
  - destruct (ReadVarint64_text s p b r Hv Hl (conj Hp Ht)) as (s' & -> & _). apply wrap_u_range. lia.
  - by rewrite (ReadVarint64_bad s p r Hpf (conj Hp Ht)) by auto.
  - by rewrite (ReadVarint64_bad s (text_of s) []) by (rewrite ?app_nil_r; auto; by split).
Qed.

Lemma ReadVarint64_safe s : Past s = 0%nat → stream_safe s (ReadVarint64 s) (λ _ v, in_u 64 v).
Proof.
  intros Hp. pose proof (ReadVarint64_outcome s Hp) as Hout. unfold stream_safe.
  destruct (ReadVarint64 s) as [[s' v]| | |] eqn:E; try done.
  cut (Past s' = 0%nat ∧ (stream_size s' <= stream_size s)%nat); [by intros [? ?]; split_and!|].
  unfold ReadVarint64 in E. destruct (FastPath s).
  - apply bind_ok in E as ([r n] & Ha & [= <- <-]). apply varint64_array_bound in Ha.
    destruct (Advance_safe n s Hp) as [? ?]; [lia|]. split; [done|lia].
  - by eapply varint64_slow_size.
Qed.

Lemma varint32_skip_bound steps ptr n r v m :
  varint32_skip steps ptr n r = Ok (v, m) → (n < m <= n + length ptr)%nat.
Proof.
  revert ptr n. induction steps as [|steps IH]; intros [|b ptr] n; simpl; try done.
  destruct (flagged b); [|intros [= _ <-]; lia]. intros H%IH. lia.
Qed.

Lemma varint32_array_bound masked ptr n r v m :
  varint32_array masked ptr n r = Ok (v, m) → (n < m <= n + length ptr)%nat.
Proof.
  revert masked n r. induction ptr as [|b ptr IH]; intros [|masked] n r; cbn [varint32_array length]; try done.
  - destruct (flagged b); [|intros [= _ <-]; lia]. intros H%varint32_skip_bound. lia.
  - destruct (flagged b); [|intros [= _ <-]; lia]. intros H%IH. lia.
Qed.

Lemma varint32_skip_long p rest steps n r : Forall (λ x, flagged x = true) p → length p = steps →
  varint32_skip steps (p ++ rest) n r = Throw EVarintTooLong.
Proof.
  intros Hp. revert steps n r. induction Hp as [|x p Hx Hp IH]; intros steps n r <-; simpl; [done|].
  rewrite Hx. by apply IH.
Qed.

Lemma varint32_array_long p rest masked n r : Forall (λ x, flagged x = true) p → length p = (masked + 6)%nat →
  varint32_array masked (p ++ rest) n r = Throw EVarintTooLong.
Proof.
  intros Hp. revert masked n r. induction Hp as [|x p Hx Hp IH]; intros masked n r Hl; simpl in Hl; [lia|].
  destruct masked as [|masked]; cbn [varint32_array app]; rewrite Hx; [|apply IH; lia].
  apply varint32_skip_long; [done|unfold MaxVarintBytes, MaxVarint32Bytes; lia].
Qed.

Lemma varint32_skip_fuel steps ptr n r : varint32_skip steps ptr n r ≠ OutOfFuel.
Proof.
  revert ptr n. induction steps as [|steps IH]; intros [|b ptr] n; simpl; try done.
  destruct (flagged b); [apply IH|done].
Qed.

Lemma varint32_array_fuel masked ptr n r : varint32_array masked ptr n r ≠ OutOfFuel.
Proof.
  revert ptr n r. induction masked as [|masked IH]; intros [|b ptr] n r; cbn [varint32_array]; try done;
    destruct (flagged b); (done || apply IH || apply varint32_skip_fuel).
Qed.

Lemma ReadVarint32_safe s : Past s = 0%nat → stream_safe s (ReadVarint32 s) (λ _ _, True).
Proof.
  intros Hp.
  assert (stream_safe s (ReadVarint32Fallback s) (λ _ _, True)) as Hfb.
  { unfold ReadVarint32Fallback. destruct (FastPath s) eqn:Hf.
    - unfold ReadVarint32FromArray. destruct (varint32_array 4 (Block s) 0 0) as [[v n]| | |] eqn:E; simpl.
      + apply varint32_array_bound in E. destruct (Advance_safe n s Hp) as [? ?]; [lia|]. split_and!; [done|lia|done].
      + done.
      + destruct (varint_cases (Block s) 10) as [(p & b & r & Hb & Hv & Hl)|[(p & r & Hb & Hpf & Hl)|[Hpf Hl]]].
        * rewrite Hb in E. change 4%nat with (4 - 0)%nat in E.
          by rewrite varint32_array_spec in E by (done || lia || (unfold in_u; simpl; lia)).
        * rewrite Hb in E. by rewrite varint32_array_long in E by (done || lia).
        * by rewrite FastPath_flagged in Hf.
      + by apply varint32_array_fuel in E.
    - unfold ReadVarint32Slow. pose proof (ReadVarint64_safe s Hp) as H.
      destruct (ReadVarint64 s) as [[s' v]| | |]; simpl in *; try done. tauto. }
  unfold ReadVarint32. destruct (Block s) as [|c b] eqn:Hb; [done|]. destruct (byte_val c <? 0x80); [|done].
  pose proof (Advance_safe 1 s Hp) as Ha. rewrite Hb in Ha. simpl in Ha.
  destruct Ha as [? ?]; [lia|]. split_and!; [done|lia|done].
Qed.

(** The stream varint readers, however the input is cut into blocks: on every
    stream [ReadVarint64] either reads one complete varint of at most ten bytes, returns
    its value modulo 2^64 and leaves the stream right behind it, and [ReadVarint32]
    returns the same value modulo 2^32 and stops at the same place; or it throws, for
    ten continuation bytes in a row or for an input that ends inside a varint.  The fast
    paths never read outside the block. *)
Theorem ReadVarint64_any_blocks (s : TStream) (t : list byte) (Ht : at_stream s t) :
  match ReadVarint64 s with
  | Ok (s', v) =>
      ∃ p b rest, t = p ++ b :: rest ∧ is_varint p b ∧ (length p < 10)%nat ∧
        v = wrap_u 64 (Varint.value_of (p ++ [b])) ∧ at_stream s' rest ∧
        ∃ s32, ReadVarint32 s = Ok (s32, wrap_u 32 v) ∧ at_stream s32 rest
  | Throw EVarintTooLong => ∃ p rest, t = p ++ rest ∧ length p = 10%nat ∧ Forall (λ x, flagged x = true) p
  | Throw EPrematureEndOfStream => Forall (λ x, flagged x = true) t ∧ (length t < 10)%nat
  | _ => False
  end.
Proof.
  destruct (varint_cases t 10) as [(p & b & r & -> & Hv & Hl)|[(p & r & -> & Hp & Hl)|[Hp Hl]]].
  - destruct (ReadVarint64_text s p b r Hv Hl Ht) as (s' & -> & Hs').
    destruct (ReadVarint32_text s p b r Hv Hl Ht) as (s32 & H32 & Hs32).
    exists p, b, r. split_and!; [done|done|done|done|done|]. exists s32. by rewrite wrap_u_32_64.
  - rewrite (ReadVarint64_bad s p r) by auto. rewrite decide_True by done. eauto.
  - rewrite (ReadVarint64_bad s t []) by (rewrite ?app_nil_r; auto). rewrite decide_False by lia. done.
Qed.

Lemma ReadVarint64_any_blocks_witness :
  at_stream (TBlockReader [xe5] [[]; [x8e; x26]; [x00]]) [xe5; x8e; x26; x00] ∧
  ∃ s' s32, ReadVarint64 (TBlockReader [xe5] [[]; [x8e; x26]; [x00]]) = Ok (s', 624485) ∧
    ReadVarint32 (TBlockReader [xe5] [[]; [x8e; x26]; [x00]]) = Ok (s32, wrap_u 32 624485).
Proof.
  assert (at_stream (TBlockReader [xe5] [[]; [x8e; x26]; [x00]]) [xe5; x8e; x26; x00]) as H by done.
  pose proof (ReadVarint64_any_blocks _ _ H) as Hr. split; [exact H|].
  assert (ReadVarint64 (TBlockReader [xe5] [[]; [x8e; x26]; [x00]]) =
    Ok (TBlockReader [] [[x00]], 624485)) as E by (by vm_compute).
  rewrite E in Hr. destruct Hr as (_ & _ & _ & _ & _ & _ & _ & _ & s32 & H32 & _). eauto.
Defined.

