(* ===== verification/YsonLexer.v ===== *)
(** [TLexerBase] of [core/yson/detail.h], the token readers of the YSON parser, with
    [IsSpace] of [core/misc/parser_helpers.cpp].  The lexer keeps a stream and a
    buffer bounded by the memory limit; doubles are their 64-bit patterns.

    Shown here: every routine reads exactly the text of its token, whatever the
    block boundaries; on any input whatsoever it returns or throws (it terminates,
    stays inside its blocks, and keeps the buffer within the memory limit). *)

From S2P Require Import Prelude Coding IntCast Escape YsonStream.

(** ** TLexerBase *)

(** [isdigit] and [isalpha] in the "C" locale; the table of [IsSpace]. *)
Definition isdigit (c : byte) : bool := in_range c "0" "9".
Definition isalpha (c : byte) : bool := in_range c "A" "Z" || in_range c "a" "z".
Definition IsSpace (c : byte) : bool := ((9 <=? byte_val c) && (byte_val c <=? 13)) || (byte_val c =? 32).

Inductive ENumericResult := NumericInt64 | NumericUint64 | NumericDouble.
#[export] Instance ENumericResult_eq_dec : EqDecision ENumericResult.
Proof. solve_decision. Defined.

(** The bits of [numeric_limits<double>::infinity()], its negation and
    [quiet_NaN()]. *)
Definition PlusInf : Z := 0x7FF0000000000000.
Definition MinusInf : Z := 0xFFF0000000000000.
Definition QuietNaN : Z := 0x7FF8000000000000.

(** [Buffer_] is a [std::vector<char>]: its elements and its capacity. *)
Record TLexer := { Stream : TStream; Buffer : list byte; Capacity : Z }.

Definition set_Stream (l : TLexer) (s : TStream) : TLexer :=
  {| Stream := s; Buffer := Buffer l; Capacity := Capacity l |}.

Definition lift {A} (f : TStream → Result (TStream * A)) (l : TLexer) : Result (TLexer * A) :=
  '(s, a) ← f (Stream l); Ok (set_Stream l s, a).

Definition ClearBuffer (l : TLexer) : TLexer :=
  {| Stream := Stream l; Buffer := []; Capacity := Capacity l |}.

Definition advance (n : nat) (l : TLexer) : TLexer := set_Stream l (Advance n (Stream l)).

Section TLexerBase.
Context (MemoryLimit : Z).

Definition ReserveAndCheckMemoryLimit (size : Z) (l : TLexer) : Result TLexer :=
  let minReserveSize := Z.of_nat (length (Buffer l)) + size in
  let reserveSize := Z.max (Capacity l * 2) minReserveSize in
  if minReserveSize >? wrap_u 64 MemoryLimit then Throw EMemoryLimitExceeded
  else
    let reserveSize := Z.min reserveSize (wrap_u 64 MemoryLimit) in
    if minReserveSize <=? Capacity l then Ok l
    else
      _ ← Verify (reserveSize >=? minReserveSize);
      Ok {| Stream := Stream l; Buffer := Buffer l; Capacity := reserveSize |}.

Definition Insert (bytes : list byte) (l : TLexer) : Result TLexer :=
  l ← ReserveAndCheckMemoryLimit (Z.of_nat (length bytes)) l;
  Ok {| Stream := Stream l; Buffer := Buffer l ++ bytes; Capacity := Capacity l |}.

Definition PushBack (ch : byte) (l : TLexer) : Result TLexer :=
  l ← ReserveAndCheckMemoryLimit 1 l;
  Ok {| Stream := Stream l; Buffer := Buffer l ++ [ch]; Capacity := Capacity l |}.

Fixpoint numeric_loop (AllowFinish : bool) (fuel : nat) (l : TLexer) (result : ENumericResult)
    : Result (TLexer * ENumericResult) :=
  match fuel with
  | O => OutOfFuel
  | S fuel =>
      '(l, ch) ← lift (GetChar AllowFinish) l;
      let continue result := l ← PushBack ch l; numeric_loop AllowFinish fuel (advance 1 l) result in
      if isdigit ch || Byte.eqb ch "+" || Byte.eqb ch "-" then continue result
      else if Byte.eqb ch "." || Byte.eqb ch "e" || Byte.eqb ch "E" then continue NumericDouble
      else if Byte.eqb ch "u" then continue NumericUint64
      else if isalpha ch then Throw (EUnexpectedChar ch)
      else Ok (l, result)
  end.

Definition stream_fuel (l : TLexer) : nat := S (stream_size (Stream l)).

Definition ReadNumeric (AllowFinish : bool) (l : TLexer) : Result (TLexer * (ENumericResult * list byte)) :=
  '(l, result) ← numeric_loop AllowFinish (stream_fuel l) (ClearBuffer l) NumericInt64;
  Ok (l, (result, Buffer l)).

(** [PushBack(GetChar<AllowFinish>()); Advance(1);] *)
Definition push_char (AllowFinish : bool) (l : TLexer) : Result (TLexer * byte) :=
  '(l, ch) ← lift (GetChar AllowFinish) l;
  l ← PushBack ch l;
  Ok (advance 1 l, ch).

(** The loops that compare the following characters with the rest of a literal. *)
Fixpoint expect_chars (AllowFinish : bool) (expected : list byte) (l : TLexer) : Result TLexer :=
  match expected with
  | [] => Ok l
  | e :: expected =>
      '(l, ch) ← push_char AllowFinish l;
      if Byte.eqb ch e then expect_chars AllowFinish expected l else Throw EBadLiteral
  end.

Definition ReadNanOrInf (AllowFinish : bool) (l : TLexer) : Result (TLexer * Z) :=
  '(l, ch) ← push_char AllowFinish (ClearBuffer l);
  let expect tail value := l ← expect_chars AllowFinish tail l; Ok (l, value) in
  if Byte.eqb ch "+" then expect (B"inf") PlusInf
  else if Byte.eqb ch "-" then expect (B"inf") MinusInf
  else if Byte.eqb ch "i" then expect (B"nf") PlusInf
  else if Byte.eqb ch "n" then expect (B"an") QuietNaN
  else Throw EBadLiteral.

Definition ReadBoolean (AllowFinish : bool) (l : TLexer) : Result (TLexer * bool) :=
  '(l, ch) ← push_char AllowFinish (ClearBuffer l);
  let expect tail value := l ← expect_chars AllowFinish tail l; Ok (l, value) in
  if Byte.eqb ch "t" then expect (B"rue") true
  else if Byte.eqb ch "f" then expect (B"alse") false
  else Throw EBadLiteral.

(** The number of backslashes at the end of the buffer; [int length] keeps the low
    32 bits of the size. *)
Fixpoint leading_slashes (s : list byte) : nat :=
  match s with
  | c :: s => if Byte.eqb c x5c then S (leading_slashes s) else O
  | [] => O
  end.
Definition slashCount (buffer : list byte) : nat :=
  let length := wrap_s 32 (Z.of_nat (length buffer)) in
  leading_slashes (reverse (take (Z.to_nat length) buffer)).

Fixpoint quoted_loop (fuel : nat) (l : TLexer) : Result TLexer :=
  match fuel with
  | O => OutOfFuel
  | S fuel =>
      s ← (if IsEmpty (Stream l) then Refresh false (Stream l) else Ok (Stream l));
      ch ← Deref s;
      let l := advance 1 (set_Stream l s) in
      if negb (Byte.eqb ch x22) then l ← PushBack ch l; quoted_loop fuel l
      else if Nat.even (slashCount (Buffer l)) then Ok l
      else l ← PushBack ch l; quoted_loop fuel l
  end.

Definition ReadQuotedString (l : TLexer) : Result (TLexer * list byte) :=
  l ← quoted_loop (stream_fuel l) (ClearBuffer l);
  unquotedValue ← UnescapeC (Buffer l);
  l ← Insert unquotedValue (ClearBuffer l);
  Ok (l, Buffer l).

Definition is_unquoted_char (ch : byte) : bool :=
  isalpha ch || isdigit ch || Byte.eqb ch "_" || Byte.eqb ch "-" || Byte.eqb ch "%" || Byte.eqb ch ".".

Fixpoint unquoted_loop (AllowFinish : bool) (fuel : nat) (l : TLexer) : Result TLexer :=
  match fuel with
  | O => OutOfFuel
  | S fuel =>
      '(l, ch) ← lift (GetChar AllowFinish) l;
      if is_unquoted_char ch then l ← PushBack ch l; unquoted_loop AllowFinish fuel (advance 1 l)
      else Ok l
  end.

Definition ReadUnquotedString (AllowFinish : bool) (l : TLexer) : Result (TLexer * list byte) :=
  l ← unquoted_loop AllowFinish (stream_fuel l) (ClearBuffer l);
  Ok (l, Buffer l).

Fixpoint binary_string_loop (fuel : nat) (needToRead : nat) (l : TLexer) : Result TLexer :=
  match fuel with
  | O => OutOfFuel
  | S fuel =>
      match needToRead with
      | O => Ok l
      | _ =>
          if IsEmpty (Stream l) then
            s ← Refresh false (Stream l); binary_string_loop fuel needToRead (set_Stream l s)
          else
            let readingBytes := Nat.min needToRead (Length (Stream l)) in
            l ← Insert (take readingBytes (Block (Stream l))) l;
            binary_string_loop fuel (needToRead - readingBytes) (advance readingBytes l)
      end
  end.

Definition ReadBinaryString (l : TLexer) : Result (TLexer * list byte) :=
  '(l, ulength) ← lift ReadVarint32 l;
  let length := ZigZag.ZigZagDecode32 ulength in
  if length <? 0 then Throw ENegativeLength
  else
    let length := Z.to_nat length in
    if Nat.leb length (Length (Stream l)) then
      Ok (advance length l, take length (Block (Stream l)))
    else
      l ← binary_string_loop (S (stream_fuel l)) length (ClearBuffer l);
      Ok (l, Buffer l).

Definition ReadBinaryInt64 (l : TLexer) : Result (TLexer * Z) :=
  '(l, uvalue) ← lift ReadVarint64 l;
  Ok (l, ZigZag.ZigZagDecode64 uvalue).

Definition ReadBinaryUint64 (l : TLexer) : Result (TLexer * Z) := lift ReadVarint64 l.

(** A little-endian value: the bytes of a [double] in memory. *)
Fixpoint le_value (bs : list byte) : Z :=
  match bs with [] => 0 | b :: bs => byte_val b + 256 * le_value bs end.

(** The [n] low bytes of a value as they lie in memory. *)
Fixpoint le_bytes (n : nat) (v : Z) : list byte :=
  match n with O => [] | S n => byte_of v :: le_bytes n (v / 256) end.

Fixpoint double_loop (fuel : nat) (needToRead : nat) (result : list byte) (l : TLexer)
    : Result (TLexer * list byte) :=
  match fuel with
  | O => OutOfFuel
  | S fuel =>
      match needToRead with
      | O => Ok (l, result)
      | _ =>
          if IsEmpty (Stream l) then
            s ← Refresh false (Stream l); double_loop fuel needToRead result (set_Stream l s)
          else
            let chunkSize := Nat.min needToRead (Length (Stream l)) in
            if Nat.eqb chunkSize 0 then Throw EBadLiteral
            else double_loop fuel (needToRead - chunkSize)
                   (result ++ take chunkSize (Block (Stream l))) (advance chunkSize l)
      end
  end.

Definition ReadBinaryDouble (l : TLexer) : Result (TLexer * Z) :=
  '(l, result) ← double_loop (S (stream_fuel l)) 8 [] l;
  Ok (l, le_value result).

Fixpoint skip_space_loop (AllowFinish : bool) (fuel : nat) (l : TLexer) : Result (TLexer * byte) :=
  match fuel with
  | O => OutOfFuel
  | S fuel =>
      if IsEmpty (Stream l) then
        if IsFinished (Stream l) then Ok (l, x00)
        else s ← Refresh AllowFinish (Stream l); skip_space_loop AllowFinish fuel (set_Stream l s)
      else
        c ← Deref (Stream l);
        if negb (IsSpace c) then lift (GetChar AllowFinish) l
        else skip_space_loop AllowFinish fuel (advance 1 l)
  end.

Definition SkipSpaceAndGetCharFallback (AllowFinish : bool) (l : TLexer) : Result (TLexer * byte) :=
  skip_space_loop AllowFinish (S (stream_fuel l)) l.

Definition SkipSpaceAndGetChar (AllowFinish : bool) (l : TLexer) : Result (TLexer * byte) :=
  if negb (IsEmpty (Stream l)) then
    ch ← Deref (Stream l);
    if negb (IsSpace ch) then Ok (l, ch) else SkipSpaceAndGetCharFallback AllowFinish l
  else SkipSpaceAndGetCharFallback AllowFinish l.

Definition SkipCharToken (symbol : byte) (l : TLexer) : Result TLexer :=
  '(l, ch) ← SkipSpaceAndGetChar false l;
  if negb (Byte.eqb ch symbol) then Throw (EExpectedChar symbol ch) else Ok (advance 1 l).
End TLexerBase.

(** The lexer has the text [t] in front of it. *)
Definition at_text (l : TLexer) (t : list byte) : Prop := at_stream (Stream l) t.

Lemma at_text_fuel l t : at_text l t → (length t < stream_fuel l)%nat.
Proof. intros [_ <-]. unfold stream_fuel. pose proof (length_text (Stream l)). lia. Qed.

(** ** The buffer and its memory limit *)

Definition buffer_inv (MemoryLimit : Z) (l : TLexer) : Prop :=
  Z.of_nat (length (Buffer l)) <= Capacity l <= wrap_u 64 MemoryLimit.

Lemma Insert_spec ML bs l : 
  match Insert ML bs l with
  | Ok l' => Stream l' = Stream l ∧ Buffer l' = Buffer l ++ bs ∧
      Z.of_nat (length (Buffer l) + length bs) <= wrap_u 64 ML ∧
      (buffer_inv ML l → buffer_inv ML l')
  | Throw e => e = EMemoryLimitExceeded ∧ wrap_u 64 ML < Z.of_nat (length (Buffer l) + length bs)
  | _ => False
  end.
Proof.
  unfold Insert, ReserveAndCheckMemoryLimit.
  destruct (Z.gtb_spec (Z.of_nat (length (Buffer l)) + Z.of_nat (length bs)) (wrap_u 64 ML)); simpl; [split; [done|lia]|].
  destruct (Z.leb_spec (Z.of_nat (length (Buffer l)) + Z.of_nat (length bs)) (Capacity l)); simpl.
  - split_and!; [done|done|lia|]. unfold buffer_inv. simpl. rewrite length_app. lia.
  - rewrite (proj2 (Z.geb_le _ _)) by lia. simpl. split_and!; [done|done|lia|].
    unfold buffer_inv. simpl. rewrite length_app. lia.
Qed.

Lemma PushBack_Insert ML ch l : PushBack ML ch l = Insert ML [ch] l.
Proof. done. Qed.

Lemma PushBack_ok ML ch l : Z.of_nat (length (Buffer l)) + 1 <= wrap_u 64 ML →
  ∃ l', PushBack ML ch l = Ok l' ∧ Stream l' = Stream l ∧ Buffer l' = Buffer l ++ [ch].
Proof.
  intros Hm. rewrite PushBack_Insert. pose proof (Insert_spec ML [ch] l) as H.
  destruct (Insert ML [ch] l) as [l'|e| |]; simpl in H; [destruct H as (? & ? & _); eauto|lia|done|done].
Qed.

Lemma Insert_ok ML bs l : Z.of_nat (length (Buffer l) + length bs) <= wrap_u 64 ML →
  ∃ l', Insert ML bs l = Ok l' ∧ Stream l' = Stream l ∧ Buffer l' = Buffer l ++ bs.
Proof.
  intros Hm. pose proof (Insert_spec ML bs l) as H.
  destruct (Insert ML bs l) as [l'|e| |]; simpl in H; [destruct H as (? & ? & _); eauto|lia|done|done].
Qed.

(** ** Tokens, whatever the block boundaries *)

(** What ends a run of characters in [P]: another character, or the end of the
    stream when it is allowed there. *)
Definition stops (P : byte → bool) (AllowFinish : bool) (rest : list byte) : Prop :=
  match rest with [] => AllowFinish = true ∧ P x00 = false | c :: _ => P c = false end.

Lemma lift_GetChar_text a l c t : at_text l (c :: t) →
  ∃ l' b, lift (GetChar a) l = Ok (l', c) ∧ at_text l' (c :: t) ∧ Block (Stream l') = c :: b ∧
    Buffer l' = Buffer l.
Proof.
  intros Hl. unfold lift. destruct (GetChar_text a _ _ _ Hl) as (s' & b & -> & Hs & Hb).
  simpl. eexists _, b. split_and!; [done|done|done|done].
Qed.

Lemma lift_GetChar_end l : at_text l [] →
  ∃ l', lift (GetChar true) l = Ok (l', x00) ∧ at_text l' [] ∧ Buffer l' = Buffer l.
Proof. intros Hl. unfold lift. rewrite (GetChar_end _ Hl). simpl. eexists. by split_and!. Qed.

Lemma lift_GetChar_stop P a l rest : at_text l rest → stops P a rest →
  ∃ l' c, lift (GetChar a) l = Ok (l', c) ∧ P c = false ∧ at_text l' rest ∧ Buffer l' = Buffer l.
Proof.
  intros Hl Hs. destruct rest as [|c rest]; simpl in Hs.
  - destruct Hs as [-> Hp]. destruct (lift_GetChar_end l Hl) as (l' & -> & ? & ?). eauto 6.
  - destruct (lift_GetChar_text a l c rest Hl) as (l' & b & -> & ? & ? & ?). eauto 6.
Qed.

(** [PushBack(ch); Advance(1)] behind a [GetChar] that returned [ch]. *)
Lemma push_advance ML c b t l : at_text l (c :: t) → Block (Stream l) = c :: b →
  Z.of_nat (length (Buffer l)) + 1 <= wrap_u 64 ML →
  ∃ l', PushBack ML c l = Ok l' ∧ at_text (advance 1 l') t ∧ Buffer (advance 1 l') = Buffer l ++ [c].
Proof.
  intros Hl Hb Hm. destruct (PushBack_ok ML c l Hm) as (l' & -> & Hs & HB).
  exists l'. split_and!; [done| |done]. unfold at_text, advance. simpl. rewrite Hs. by eapply Advance_text.
Qed.

Definition is_numeric_char (c : byte) : bool :=
  isdigit c || Byte.eqb c "+" || Byte.eqb c "-" || Byte.eqb c "." || Byte.eqb c "e" || Byte.eqb c "E" || Byte.eqb c "u".

Definition numeric_step (r : ENumericResult) (c : byte) : ENumericResult :=
  if Byte.eqb c "." || Byte.eqb c "e" || Byte.eqb c "E" then NumericDouble
  else if Byte.eqb c "u" then NumericUint64 else r.

(** One turn of the loop of [ReadNumeric], by the class of the character. *)
Lemma numeric_turn {A} c r (k : ENumericResult → Result A) (t f : Result A) :
  (if isdigit c || Byte.eqb c "+" || Byte.eqb c "-" then k r
   else if Byte.eqb c "." || Byte.eqb c "e" || Byte.eqb c "E" then k NumericDouble
   else if Byte.eqb c "u" then k NumericUint64
   else if isalpha c then t else f) =
  if is_numeric_char c then k (numeric_step r c) else if isalpha c then t else f.
Proof.
  unfold is_numeric_char, numeric_step.
  assert (implb (isdigit c || Byte.eqb c "+" || Byte.eqb c "-")
    (negb (Byte.eqb c "." || Byte.eqb c "e" || Byte.eqb c "E" || Byte.eqb c "u")) = true) as H
    by (revert c; apply forall_bytes; by vm_compute).
  destruct (isdigit c || Byte.eqb c "+" || Byte.eqb c "-"), (Byte.eqb c "."), (Byte.eqb c "e"), (Byte.eqb c "E"),
    (Byte.eqb c "u"); simpl in *; done.
Qed.

Lemma numeric_loop_text ML a t rest fuel l r : at_text l (t ++ rest) →
  Forall (λ c, is_numeric_char c = true) t → stops (λ c, is_numeric_char c || isalpha c) a rest →
  Z.of_nat (length (Buffer l) + length t) <= wrap_u 64 ML → (length t < fuel)%nat →
  ∃ l', numeric_loop ML a fuel l r = Ok (l', foldl numeric_step r t) ∧ at_text l' rest ∧
    Buffer l' = Buffer l ++ t.
Proof.
  intros Hl Ht Hs. revert l fuel r Hl. induction Ht as [|c t Hc Ht IH]; intros l [|fuel] r Hl Hm Hf;
    simpl in Hf, Hm; try lia; cbn [numeric_loop].
  - destruct (lift_GetChar_stop _ _ _ _ Hl Hs) as (l' & c & -> & Hc & Hl' & HB).
    run_bind. cbv zeta.
    rewrite (numeric_turn c r (λ r, l ← PushBack ML c l'; numeric_loop ML a fuel (advance 1 l) r)).
    apply orb_false_elim in Hc as [-> ->]. exists l'. by rewrite app_nil_r.
  - destruct (lift_GetChar_text a _ _ _ Hl) as (l' & b & -> & Hl' & Hb & HB).
    run_bind. cbv zeta.
    rewrite (numeric_turn c r (λ r, l ← PushBack ML c l'; numeric_loop ML a fuel (advance 1 l) r)). rewrite Hc.
    destruct (push_advance ML c b _ l' Hl' Hb) as (l2 & -> & Hl2 & HB2); [rewrite HB; lia|]. run_bind.
    destruct (IH (advance 1 l2) fuel (numeric_step r c)) as (l3 & -> & Hl3 & HB3); [done| |lia|].
    + rewrite HB2, HB, length_app. simpl. lia.
    + exists l3. split_and!; [done|done|]. by rewrite HB3, HB2, HB, <- app_assoc.
Qed.

Lemma at_text_clear l t : at_text l t → at_text (ClearBuffer l) t.
Proof. done. Qed.

Lemma ReadNumeric_text ML a t rest l : at_text l (t ++ rest) →
  Forall (λ c, is_numeric_char c = true) t → stops (λ c, is_numeric_char c || isalpha c) a rest →
  Z.of_nat (length t) <= wrap_u 64 ML →
  ∃ l', ReadNumeric ML a l = Ok (l', (foldl numeric_step NumericInt64 t, t)) ∧ at_text l' rest.
Proof.
  intros Hl Ht Hs Hm. unfold ReadNumeric.
  destruct (numeric_loop_text ML a t rest (stream_fuel l) (ClearBuffer l) NumericInt64) as (l' & -> & Hl' & HB);
    [by apply at_text_clear|done|done|done|apply at_text_fuel in Hl; rewrite length_app in Hl; lia|].
  simpl. rewrite HB. eauto.
Qed.

Lemma unquoted_loop_text ML a t rest fuel l : at_text l (t ++ rest) →
  Forall (λ c, is_unquoted_char c = true) t → stops is_unquoted_char a rest →
  Z.of_nat (length (Buffer l) + length t) <= wrap_u 64 ML → (length t < fuel)%nat →
  ∃ l', unquoted_loop ML a fuel l = Ok l' ∧ at_text l' rest ∧ Buffer l' = Buffer l ++ t.
Proof.
  intros Hl Ht Hs. revert l fuel Hl. induction Ht as [|c t Hc Ht IH]; intros l [|fuel] Hl Hm Hf;
    simpl in Hf, Hm; try lia; cbn [unquoted_loop].
  - destruct (lift_GetChar_stop _ _ _ _ Hl Hs) as (l' & c & -> & Hc & Hl' & HB).
    run_bind. rewrite Hc. exists l'. by rewrite app_nil_r.
  - destruct (lift_GetChar_text a _ _ _ Hl) as (l' & b & -> & Hl' & Hb & HB).
    run_bind. rewrite Hc.
    destruct (push_advance ML c b _ l' Hl' Hb) as (l2 & -> & Hl2 & HB2); [rewrite HB; lia|]. run_bind.
    destruct (IH (advance 1 l2) fuel) as (l3 & -> & Hl3 & HB3); [done| |lia|].
    + rewrite HB2, HB, length_app. simpl. lia.
    + exists l3. split_and!; [done|done|]. by rewrite HB3, HB2, HB, <- app_assoc.
Qed.

Lemma ReadUnquotedString_text ML a t rest l : at_text l (t ++ rest) →
  Forall (λ c, is_unquoted_char c = true) t → stops is_unquoted_char a rest →
  Z.of_nat (length t) <= wrap_u 64 ML →
  ∃ l', ReadUnquotedString ML a l = Ok (l', t) ∧ at_text l' rest.
Proof.
  intros Hl Ht Hs Hm. unfold ReadUnquotedString.
  destruct (unquoted_loop_text ML a t rest (stream_fuel l) (ClearBuffer l)) as (l' & -> & Hl' & HB);
    [by apply at_text_clear|done|done|done|apply at_text_fuel in Hl; rewrite length_app in Hl; lia|].
  simpl. rewrite HB. eauto.
Qed.

(** Scanning a quoted body: is the next character escaped?  [None] when an
    unescaped quote ends the literal. *)
Fixpoint quoted_scan (escaped : bool) (t : list byte) : option bool :=
  match t with
  | [] => Some escaped
  | c :: t =>
      if escaped then quoted_scan false t
      else if Byte.eqb c x5c then quoted_scan true t
      else if Byte.eqb c x22 then None
      else quoted_scan false t
  end.

Lemma quoted_scan_app e t1 t2 : quoted_scan e (t1 ++ t2) = quoted_scan e t1 ≫= λ e, quoted_scan e t2.
Proof. revert e. induction t1 as [|c t1 IH]; intros e; simpl; [done|]. by repeat case_match. Qed.

(** Counting the backslashes at the end of the buffer tells whether the next
    character is escaped, as long as the size fits an [int]. *)
Definition trailing_parity (buffer : list byte) : bool := Nat.odd (leading_slashes (reverse buffer)).

Lemma slashCount_parity buffer : Z.of_nat (length buffer) < 2 ^ 31 →
  Nat.even (slashCount buffer) = negb (trailing_parity buffer).
Proof.
  intros Hl. unfold slashCount, trailing_parity.
  rewrite wrap_s_id by (lia || (unfold in_s; simpl; lia)).
  rewrite Nat2Z.id, take_ge by lia. by rewrite <- Nat.negb_odd.
Qed.

Lemma trailing_parity_snoc buffer c :
  trailing_parity (buffer ++ [c]) = if Byte.eqb c x5c then negb (trailing_parity buffer) else false.
Proof.
  unfold trailing_parity. rewrite reverse_snoc. simpl. destruct (Byte.eqb c x5c); [|done].
  by rewrite Nat.odd_succ, Nat.negb_odd.
Qed.

Lemma quoted_loop_text ML t rest fuel l : at_text l (t ++ x22 :: rest) →
  quoted_scan (trailing_parity (Buffer l)) t = Some false →
  Z.of_nat (length (Buffer l) + length t) <= wrap_u 64 ML →
  Z.of_nat (length (Buffer l) + length t) < 2 ^ 31 → (length t < fuel)%nat →
  ∃ l', quoted_loop ML fuel l = Ok l' ∧ at_text l' rest ∧ Buffer l' = Buffer l ++ t.
Proof.
  revert l fuel. induction t as [|c t IH]; intros l [|fuel] Hl Hq Hm Hi Hf; simpl in Hf, Hm, Hi; try lia;
    cbn [quoted_loop]; simpl app in Hl;
    destruct (Refresh_text false _ _ _ Hl) as (s' & b & -> & Hs & Hb); run_bind;
    unfold Deref; rewrite Hb; run_bind; cbv zeta;
    set (l1 := advance 1 (set_Stream l s')).
  - simpl. injection Hq as Hq. subst l1. cbn [advance set_Stream Buffer].
    rewrite slashCount_parity, Hq by lia. simpl. eexists. split_and!; [done| |by rewrite app_nil_r].
    by eapply Advance_text.
  - assert (at_text l1 (t ++ x22 :: rest)) as Hl1 by by eapply Advance_text.
    assert (Buffer l1 = Buffer l) as HB by done.
    destruct (PushBack_ok ML c l1) as (l2 & -> & HS2 & HB2); [rewrite HB; lia|]. run_bind.
    assert (∃ l', quoted_loop ML fuel l2 = Ok l' ∧ at_text l' rest ∧ Buffer l' = Buffer l ++ c :: t) as Hgo.
    { destruct (IH l2 fuel) as (l3 & -> & Hl3 & HB3).
      - unfold at_text. by rewrite HS2.
      - rewrite HB2, HB, trailing_parity_snoc. simpl in Hq.
        destruct (trailing_parity (Buffer l)), (Byte.eqb c x5c) eqn:Ec; simpl; try done.
        by destruct (Byte.eqb c x22).
      - rewrite HB2, HB, length_app. simpl. lia.
      - rewrite HB2, HB, length_app. simpl. lia.
      - lia.
      - exists l3. split_and!; [done|done|]. by rewrite HB3, HB2, HB, <- app_assoc. }
    destruct (Byte.eqb c x22) eqn:Ec; cbn [negb]; [|done].
    rewrite HB, slashCount_parity by lia. simpl in Hq. rewrite Ec in Hq.
    apply byte_dec_bl in Ec as ->. by destruct (trailing_parity (Buffer l)).
Qed.

Lemma ReadQuotedString_text ML t rest value l : at_text l (t ++ x22 :: rest) →
  quoted_scan false t = Some false → UnescapeC t = Ok value →
  Z.of_nat (length t) <= wrap_u 64 ML → Z.of_nat (length t) < 2 ^ 31 →
  ∃ l', ReadQuotedString ML l = Ok (l', value) ∧ at_text l' rest.
Proof.
  intros Hl Hq Hu Hm Hi. unfold ReadQuotedString.
  destruct (quoted_loop_text ML t rest (stream_fuel l) (ClearBuffer l)) as (l1 & -> & Hl1 & HB);
    [by apply at_text_clear|done|simpl; lia|simpl; lia| |].
  { apply at_text_fuel in Hl. rewrite length_app in Hl. lia. }
  run_bind. rewrite HB. simpl app. rewrite Hu. run_bind.
  destruct (UnescapeC_total (length t) t) as (out & Hout & Hlen); [done|]. rewrite Hu in Hout. simplify_eq.
  destruct (Insert_ok ML out (ClearBuffer l1)) as (l2 & -> & HS2 & HB2); [simpl; lia|].
  run_bind. exists l2. rewrite HB2. split; [done|]. unfold at_text. by rewrite HS2.
Qed.

Lemma quoted_scan_escape s : quoted_scan false (escape_all s) = Some false.
Proof.
  induction s as [|c s IH]; simpl; [done|]. rewrite quoted_scan_app.
  assert (quoted_scan false (EscapeC_char c (next_char s)) = Some false) as ->; [|done].
  apply (bool_decide_unpack _), Is_true_true. generalize (next_char s). revert c.
  apply forall_bytes2. by vm_compute.
Qed.

Lemma length_EscapeC s : (length (EscapeC s) <= 4 * length s)%nat.
Proof.
  rewrite EscapeC_all. induction s as [|c s IH]; simpl; [lia|]. rewrite length_app.
  assert (length (EscapeC_char c (next_char s)) <= 4)%nat; [|lia].
  unfold EscapeC_char. repeat case_match; simpl; lia.
Qed.

(** ** Literals behind a percent sign *)

Lemma push_char_text ML a c t l : at_text l (c :: t) → Z.of_nat (length (Buffer l)) + 1 <= wrap_u 64 ML →
  ∃ l', push_char ML a l = Ok (l', c) ∧ at_text l' t ∧ Buffer l' = Buffer l ++ [c].
Proof.
  intros Hl Hm. unfold push_char. destruct (lift_GetChar_text a l c t Hl) as (l1 & b & -> & Hl1 & Hb & HB).
  run_bind.
  destruct (push_advance ML c b t l1 Hl1 Hb) as (l2 & -> & Hl2 & HB2); [by rewrite HB|].
  run_bind. rewrite HB in HB2. eauto.
Qed.

Lemma expect_chars_text ML a e t l : at_text l (e ++ t) →
  Z.of_nat (length (Buffer l) + length e) <= wrap_u 64 ML →
  ∃ l', expect_chars ML a e l = Ok l' ∧ at_text l' t.
Proof.
  revert l. induction e as [|c e IH]; intros l Hl Hm; simpl in Hm; cbn [expect_chars]; [eauto|].
  destruct (push_char_text ML a c (e ++ t) l) as (l1 & -> & Hl1 & HB); [done|lia|]. run_bind.
  rewrite byte_dec_lb by done. apply IH; [done|]. rewrite HB, length_app. simpl. lia.
Qed.

Lemma ReadBoolean_text ML a (v : bool) t l : at_text l ((if v then B"true" else B"false") ++ t) →
  5 <= wrap_u 64 ML → ∃ l', ReadBoolean ML a l = Ok (l', v) ∧ at_text l' t.
Proof.
  intros Hl Hm. unfold ReadBoolean. destruct v; simpl in Hl.
  - destruct (push_char_text ML a "t" _ (ClearBuffer l) (at_text_clear _ _ Hl)) as (l1 & -> & Hl1 & HB); [simpl; lia|].
    run_bind. cbv zeta. simpl Byte.eqb. cbv iota.
    destruct (expect_chars_text ML a (B"rue") t l1) as (l2 & -> & Hl2); [done|rewrite HB; simpl; lia|].
    simpl. eauto.
  - destruct (push_char_text ML a "f" _ (ClearBuffer l) (at_text_clear _ _ Hl)) as (l1 & -> & Hl1 & HB); [simpl; lia|].
    run_bind. cbv zeta. simpl Byte.eqb. cbv iota.
    destruct (expect_chars_text ML a (B"alse") t l1) as (l2 & -> & Hl2); [done|rewrite HB; simpl; lia|].
    simpl. eauto.
Qed.

(** The three values behind [%] that are not booleans. *)
Definition special_doubles : list (byte * list byte * Z) :=
  [("n"%byte, B"an", QuietNaN); ("i"%byte, B"nf", PlusInf); ("-"%byte, B"inf", MinusInf); ("+"%byte, B"inf", PlusInf)].

Lemma ReadNanOrInf_text ML a c e v t l : (c, e, v) ∈ special_doubles → at_text l (c :: e ++ t) →
  4 <= wrap_u 64 ML → ∃ l', ReadNanOrInf ML a l = Ok (l', v) ∧ at_text l' t.
Proof.
  intros Hin Hl Hm. unfold ReadNanOrInf.
  destruct (push_char_text ML a c _ (ClearBuffer l) (at_text_clear _ _ Hl)) as (l1 & -> & Hl1 & HB); [simpl; lia|].
  run_bind. cbv zeta.
  destruct (expect_chars_text ML a e t l1) as (l2 & He & Hl2); [done| |].
  { rewrite HB. apply list_elem_of_In in Hin. simpl in Hin.
    repeat (destruct Hin as [Hin|Hin]; [simplify_eq; simpl; lia|]). done. }
  apply list_elem_of_In in Hin. simpl in Hin.
  repeat (destruct Hin as [Hin|Hin]; [simplify_eq; simpl Byte.eqb; cbv iota; rewrite He; simpl; eauto|]). done.
Qed.

(** ** Loops that advance block by block *)

Lemma at_text_cons_unfinished l c t : at_text l (c :: t) → IsEmpty (Stream l) = true →
  IsFinished (Stream l) = false.
Proof.
  intros [_ Ht] [Hb _]%IsEmpty_true. unfold IsFinished. destruct (Rest (Stream l)) eqn:E; [|done].
  unfold text_of in Ht. by rewrite Hb, E in Ht.
Qed.

Lemma skip_space_loop_text a ws c t fuel l : Forall (λ x, IsSpace x = true) ws → IsSpace c = false →
  at_text l (ws ++ c :: t) → (stream_size (Stream l) < fuel)%nat →
  ∃ l' b, skip_space_loop a fuel l = Ok (l', c) ∧ at_text l' (c :: t) ∧ Block (Stream l') = c :: b.
Proof.
  intros Hws Hc. revert l ws Hws. induction fuel as [|fuel IH]; intros l ws Hws Hl Hf; [lia|].
  cbn [skip_space_loop]. destruct (IsEmpty (Stream l)) eqn:E.
  - assert (∃ x y, ws ++ c :: t = x :: y) as (x & y & Hxy) by (destruct ws; simpl; eauto).
    rewrite Hxy in Hl. rewrite (at_text_cons_unfinished _ _ _ Hl E).
    destruct (Refresh_text' a _ _ _ Hl E) as (s' & b & Hr & Hs' & Hb). rewrite Hr. run_bind.
    apply (IH (set_Stream l s') ws); [done|by rewrite Hxy|]. simpl.
    pose proof (Refresh_shrinks a _ _ E (at_text_cons_unfinished _ _ _ Hl E) Hr). lia.
  - destruct (IsEmpty_false _ _ Hl E) as (x & b & Hb & Hxy). unfold Deref. rewrite Hb. run_bind.
    destruct Hws as [|w ws Hw Hws]; simpl in Hxy, Hl; simplify_eq.
    + rewrite Hc. simpl. destruct (lift_GetChar_text a l x _ Hl) as (l' & b' & -> & ? & ? & _). eauto.
    + rewrite Hw. simpl. apply (IH (advance 1 l) ws); [done|by eapply Advance_text|].
      pose proof (Advance_shrinks 1 (Stream l)) as H. rewrite Hb in H. simpl in *. lia.
Qed.

Lemma SkipSpaceAndGetChar_text a ws c t l : Forall (λ x, IsSpace x = true) ws → IsSpace c = false →
  at_text l (ws ++ c :: t) →
  ∃ l' b, SkipSpaceAndGetChar a l = Ok (l', c) ∧ at_text l' (c :: t) ∧ Block (Stream l') = c :: b.
Proof.
  intros Hws Hc Hl. unfold SkipSpaceAndGetChar.
  assert (∃ l' b, SkipSpaceAndGetCharFallback a l = Ok (l', c) ∧ at_text l' (c :: t) ∧ Block (Stream l') = c :: b) as Hfb
    by (eapply skip_space_loop_text; [done|done|done|unfold stream_fuel; lia]).
  destruct (IsEmpty (Stream l)) eqn:E; [done|]. simpl.
  destruct (IsEmpty_false _ _ Hl E) as (x & b & Hb & Hxy). unfold Deref. rewrite Hb. run_bind.
  destruct (IsSpace x) eqn:Hx; [done|]. simpl. exists l, b.
  destruct Hws as [|w ws Hw Hws]; simpl in Hxy, Hl; simplify_eq; [by split_and!|congruence].
Qed.

Lemma skip_space_loop_end a ws fuel l : Forall (λ x, IsSpace x = true) ws →
  at_text l ws → (stream_size (Stream l) < fuel)%nat →
  (∃ l', skip_space_loop a fuel l = Ok (l', x00) ∧ at_text l' [] ∧ Rest (Stream l') = []) ∨
  (a = false ∧ skip_space_loop a fuel l = Throw EPrematureEndOfStream).
Proof.
  intros Hws. revert l ws Hws. induction fuel as [|fuel IH]; intros l ws Hws Hl Hf; [lia|].
  cbn [skip_space_loop]. destruct (IsEmpty (Stream l)) eqn:E.
  - destruct Hws as [|w ws Hw Hws].
    + destruct (IsFinished (Stream l)) eqn:Ef.
      { left. exists l. split_and!; [done|done|]. unfold IsFinished in Ef. by destruct (Rest (Stream l)). }
      pose proof (Refresh_end a _ Hl) as Hr. destruct a; [|right; rewrite Hr; by split].
      rewrite Hr. run_bind. apply (IH _ []); [constructor|done|].
      pose proof (Refresh_shrinks true _ _ E Ef Hr). simpl in *. lia.
    + rewrite (at_text_cons_unfinished _ _ _ Hl E).
      destruct (Refresh_text' a _ _ _ Hl E) as (s' & b & Hr & Hs' & Hb). rewrite Hr. run_bind.
      apply (IH (set_Stream l s') (w :: ws)); [by constructor|done|]. simpl.
      pose proof (Refresh_shrinks a _ _ E (at_text_cons_unfinished _ _ _ Hl E) Hr). lia.
  - destruct (IsEmpty_false _ _ Hl E) as (x & b & Hb & Hxy). unfold Deref. rewrite Hb. run_bind.
    destruct Hws as [|w ws Hw Hws]; [done|]. simplify_eq. rewrite Hw. simpl.
    eapply (IH (advance 1 l)); [done|by eapply Advance_text|].
    pose proof (Advance_shrinks 1 (Stream l)) as H. rewrite Hb in H. simpl in *. lia.
Qed.

Lemma SkipSpaceAndGetChar_end ws l : Forall (λ x, IsSpace x = true) ws → at_text l ws →
  ∃ l', SkipSpaceAndGetChar true l = Ok (l', x00) ∧ at_text l' [] ∧ Rest (Stream l') = [].
Proof.
  intros Hws Hl. unfold SkipSpaceAndGetChar.
  assert (∃ l', SkipSpaceAndGetCharFallback true l = Ok (l', x00) ∧ at_text l' [] ∧ Rest (Stream l') = []) as Hfb.
  { destruct (skip_space_loop_end true ws (S (stream_fuel l)) l) as [?|[? _]];
      [done|done|unfold stream_fuel; lia|done|done]. }
  destruct (IsEmpty (Stream l)) eqn:E; [done|]. simpl.
  destruct (IsEmpty_false _ _ Hl E) as (x & b & Hb & Hxy). unfold Deref. rewrite Hb. run_bind.
  destruct Hws as [|w ws Hw Hws]; [done|]. simplify_eq. rewrite Hw. done.
Qed.

Lemma binary_string_loop_text ML t rest fuel l : at_text l (t ++ rest) →
  Z.of_nat (length (Buffer l) + length t) <= wrap_u 64 ML → (S (stream_size (Stream l)) < fuel)%nat →
  ∃ l', binary_string_loop ML fuel (length t) l = Ok l' ∧ at_text l' rest ∧ Buffer l' = Buffer l ++ t.
Proof.
  revert l t. induction fuel as [|fuel IH]; intros l t Hl Hm Hf; [lia|]. cbn [binary_string_loop].
  destruct t as [|c t]; [exists l; simpl; by rewrite app_nil_r|]. cbn [length].
  simpl app in Hl. destruct (IsEmpty (Stream l)) eqn:E.
  - destruct (Refresh_text' false _ _ _ Hl E) as (s' & b & Hr & Hs' & Hb). rewrite Hr. run_bind.
    apply (IH (set_Stream l s') (c :: t)); [done|done|].
    pose proof (Refresh_shrinks _ _ _ E (at_text_cons_unfinished _ _ _ Hl E) Hr). simpl. lia.
  - destruct (IsEmpty_false _ _ Hl E) as (x & b & Hb & Hxy). set (n := Nat.min _ _).
    assert (0 < n <= length (Block (Stream l)))%nat as Hn by (subst n; unfold Length; rewrite Hb; simpl; lia).
    assert (n <= length (c :: t))%nat as Hnt by (subst n; cbn [length]; lia). clearbody n.
    assert (take n (Block (Stream l)) = take n (c :: t)) as Htake.
    { destruct Hl as [_ Ht]. unfold text_of in Ht.
      rewrite <- (take_app_le _ (concat (Rest (Stream l)))) by lia. rewrite Ht.
      change (c :: t ++ rest) with ((c :: t) ++ rest). by rewrite take_app_le. }
    destruct (Insert_ok ML (take n (Block (Stream l))) l) as (l1 & -> & HS & HB).
    { rewrite length_take. lia. }
    run_bind.
    destruct (IH (advance n l1) (drop n (c :: t))) as (l2 & He & Hl2 & HB2).
    + unfold at_text, advance. cbn [Stream set_Stream]. rewrite HS.
      pose proof (Advance_many n (Stream l) _ Hl ltac:(lia)) as H.
      change (c :: t ++ rest) with ((c :: t) ++ rest) in H. by rewrite drop_app_le in H by lia.
    + cbn [advance set_Stream Buffer]. rewrite HB, length_app, length_take, length_drop. lia.
    + cbn [advance set_Stream Stream]. rewrite HS. pose proof (Advance_shrinks n (Stream l) Hn). lia.
    + rewrite length_drop in He. exists l2. split_and!; [exact He|done|].
      rewrite HB2. cbn [advance set_Stream Buffer]. by rewrite HB, Htake, <- app_assoc, take_drop.
Qed.

(** A varint written by [WriteVarUint64], seen by the stream reader. *)
Lemma WriteVarUint64_varint v : in_u 64 v →
  ∃ p b, Varint.WriteVarUint64 v = p ++ [b] ∧ is_varint p b ∧ (length p < 10)%nat ∧ Varint.value_of (p ++ [b]) = v.
Proof.
  intros Hv. destruct (Varint.WriteVarUint64_spec v Hv) as (Hs & Hval & Hlen).
  destruct (Varint.shape_snoc _ Hs) as (p & b & E & Hb & Hp). exists p, b. rewrite E in *.
  rewrite length_app in Hlen. simpl in Hlen. split_and!; [done| |lia|done].
  split; [|by apply flagged_false]. eapply Forall_impl; [|exact Hp]. intros x. simpl. apply flagged_true.
Qed.

Lemma ReadVarint64_write s v rest : in_u 64 v → at_stream s (Varint.WriteVarUint64 v ++ rest) →
  ∃ s', ReadVarint64 s = Ok (s', v) ∧ at_stream s' rest.
Proof.
  intros Hv Hs. destruct (WriteVarUint64_varint v Hv) as (p & b & E & Hp & Hl & Hval).
  rewrite E, <- app_assoc in Hs. destruct (ReadVarint64_text s p b rest Hp Hl Hs) as (s' & H & Hs').
  rewrite Hval, wrap_u_id in H by done. eauto.
Qed.

Lemma ReadBinaryString_text ML t rest l : Z.of_nat (length t) < 2 ^ 31 →
  at_text l (Varint.WriteVarInt32 (Z.of_nat (length t)) ++ t ++ rest) →
  Z.of_nat (length t) <= wrap_u 64 ML →
  ∃ l', ReadBinaryString ML l = Ok (l', t) ∧ at_text l' rest.
Proof.
  intros Hlen Hl Hm. unfold ReadBinaryString, lift.
  assert (in_s 32 (Z.of_nat (length t))) as Hs by (unfold in_s; simpl; lia).
  pose proof (ZigZag.encode_range 32 _ ltac:(lia) Hs) as Hr.
  destruct (WriteVarUint64_varint (ZigZag.encode 32 (Z.of_nat (length t)))) as (p & b & E & Hp & Hlp & Hval);
    [unfold in_u in *; simpl in *; lia|].
  unfold Varint.WriteVarInt32, ZigZag.ZigZagEncode32 in Hl. rewrite E, <- app_assoc in Hl.
  destruct (ReadVarint32_text (Stream l) p b (t ++ rest) Hp Hlp Hl) as (s' & -> & Hs').
  run_bind. rewrite Hval, wrap_u_id by done. unfold ZigZag.ZigZagDecode32.
  rewrite ZigZag.decode_encode by (done || lia). rewrite (proj2 (Z.ltb_ge _ _)) by lia.
  cbv zeta. rewrite Nat2Z.id. destruct (Nat.leb_spec (length t) (Length (Stream (set_Stream l s')))) as [Hle|Hgt].
  - unfold Length in Hle. simpl in Hle.
    assert (take (length t) (Block s') = t) as Ht.
    { destruct Hs' as [_ Ht]. unfold text_of in Ht.
      rewrite <- (take_app_le _ (concat (Rest s'))) by lia. rewrite Ht. apply take_app_length. }
    eexists. split; [cbn [set_Stream Stream]; by rewrite Ht|].
    pose proof (Advance_many (length t) s' _ Hs' Hle) as H. by rewrite drop_app_length in H.
  - destruct (binary_string_loop_text ML t rest (S (stream_fuel (set_Stream l s'))) (ClearBuffer (set_Stream l s')))
      as (l2 & -> & Hl2 & HB); [done|done|unfold stream_fuel; simpl; lia|].
    run_bind. rewrite HB. simpl. eauto.
Qed.

Lemma length_le_bytes n v : length (le_bytes n v) = n.
Proof. revert v. induction n as [|n IH]; intros v; simpl; [done|]. by rewrite IH. Qed.

Lemma le_value_bytes n v : 0 <= v < 256 ^ Z.of_nat n → le_value (le_bytes n v) = v.
Proof.
  revert v. induction n as [|n IH]; intros v Hv; [simpl in *; lia|]. cbn [le_bytes le_value].
  rewrite Nat2Z.inj_succ, Z.pow_succ_r in Hv by lia.
  rewrite IH.
  - rewrite byte_val_of. pose proof (Z.div_mod v 256). lia.
  - split; [apply Z.div_pos; lia|]. apply Z.div_lt_upper_bound; lia.
Qed.

Lemma double_loop_text t rest fuel out l : at_text l (t ++ rest) →
  (S (stream_size (Stream l)) < fuel)%nat →
  ∃ l', double_loop fuel (length t) out l = Ok (l', out ++ t) ∧ at_text l' rest.
Proof.
  revert l t out. induction fuel as [|fuel IH]; intros l t out Hl Hf; [lia|]. cbn [double_loop].
  destruct t as [|c t]; [exists l; simpl; by rewrite app_nil_r|]. cbn [length].
  simpl app in Hl. destruct (IsEmpty (Stream l)) eqn:E.
  - destruct (Refresh_text' false _ _ _ Hl E) as (s' & b & Hr & Hs' & Hb). rewrite Hr. run_bind.
    apply (IH (set_Stream l s') (c :: t)); [done|].
    pose proof (Refresh_shrinks _ _ _ E (at_text_cons_unfinished _ _ _ Hl E) Hr). simpl. lia.
  - destruct (IsEmpty_false _ _ Hl E) as (x & b & Hb & Hxy). set (n := Nat.min _ _).
    assert (0 < n <= length (Block (Stream l)))%nat as Hn by (subst n; unfold Length; rewrite Hb; simpl; lia).
    assert (n <= length (c :: t))%nat as Hnt by (subst n; cbn [length]; lia). clearbody n.
    rewrite (proj2 (Nat.eqb_neq n 0)) by lia.
    assert (take n (Block (Stream l)) = take n (c :: t)) as Htake.
    { destruct Hl as [_ Ht]. unfold text_of in Ht.
      rewrite <- (take_app_le _ (concat (Rest (Stream l)))) by lia. rewrite Ht.
      change (c :: t ++ rest) with ((c :: t) ++ rest). by rewrite take_app_le. }
    destruct (IH (advance n l) (drop n (c :: t)) (out ++ take n (Block (Stream l)))) as (l2 & He & Hl2).
    + pose proof (Advance_many n (Stream l) _ Hl ltac:(lia)) as H.
      change (c :: t ++ rest) with ((c :: t) ++ rest) in H. by rewrite drop_app_le in H by lia.
    + cbn [advance set_Stream Stream]. pose proof (Advance_shrinks n (Stream l) Hn). lia.
    + rewrite length_drop in He. exists l2. rewrite Htake, <- app_assoc, take_drop in He.
      rewrite Htake. by split.
Qed.

Lemma ReadBinaryDouble_text v rest l : in_u 64 v → at_text l (le_bytes 8 v ++ rest) →
  ∃ l', ReadBinaryDouble l = Ok (l', v) ∧ at_text l' rest.
Proof.
  intros Hv Hl. unfold ReadBinaryDouble.
  destruct (double_loop_text (le_bytes 8 v) rest (S (stream_fuel l)) [] l) as (l' & He & Hl');
    [done|unfold stream_fuel; lia|].
  rewrite length_le_bytes in He. rewrite He. cbn [mbind result_bind app]. exists l'.
  by rewrite le_value_bytes by exact Hv.
Qed.

Lemma ReadBinaryInt64_text v rest l : in_s 64 v → at_text l (Varint.WriteVarInt64 v ++ rest) →
  ∃ l', ReadBinaryInt64 l = Ok (l', v) ∧ at_text l' rest.
Proof.
  intros Hv Hl. unfold ReadBinaryInt64, lift.
  destruct (ReadVarint64_write (Stream l) (ZigZag.encode 64 v) rest) as (s' & -> & Hs');
    [by apply ZigZag.encode_range|done|]. simpl. exists (set_Stream l s').
  unfold ZigZag.ZigZagDecode64. by rewrite ZigZag.decode_encode.
Qed.

Lemma ReadBinaryUint64_text v rest l : in_u 64 v → at_text l (Varint.WriteVarUint64 v ++ rest) →
  ∃ l', ReadBinaryUint64 l = Ok (l', v) ∧ at_text l' rest.
Proof.
  intros Hv Hl. unfold ReadBinaryUint64, lift.
  destruct (ReadVarint64_write (Stream l) v rest Hv Hl) as (s' & -> & Hs'). simpl. eauto.
Qed.

Lemma SkipCharToken_text ws c t l : Forall (λ x, IsSpace x = true) ws → IsSpace c = false →
  at_text l (ws ++ c :: t) → ∃ l', SkipCharToken c l = Ok l' ∧ at_text l' t.
Proof.
  intros Hws Hc Hl. unfold SkipCharToken.
  destruct (SkipSpaceAndGetChar_text false ws c t l Hws Hc Hl) as (l1 & b & -> & Hl1 & Hb).
  run_bind. rewrite byte_dec_lb by done. simpl. eexists. split; [done|].
  by eapply Advance_text.
Qed.

(** ** Safety on arbitrary input *)

Section Safety.
Context (ML : Z).

(** The lexer's invariant: [Current()] inside its block, the buffer within the
    memory limit. *)
Definition ready (l : TLexer) : Prop := Past (Stream l) = 0%nat ∧ buffer_inv ML l.

(** [l'] is a state the lexer may be left in by a routine started in [l]. *)
Definition good (l l' : TLexer) : Prop := ready l' ∧ (stream_size (Stream l') <= stream_size (Stream l))%nat.

Definition safe {A} (l : TLexer) (r : Result (TLexer * A)) (Q : TLexer → A → Prop) : Prop :=
  match r with
  | Ok (l', a) => good l l' ∧ Q l' a
  | Throw _ => True
  | _ => False
  end.

Definition safe0 (l : TLexer) (r : Result TLexer) : Prop :=
  match r with Ok l' => good l l' | Throw _ => True | _ => False end.

(** The lexer holds the character [c] it has just returned, unless it returned the
    end symbol. *)
Definition peeked (l : TLexer) (c : byte) : Prop := c ≠ x00 → ∃ b, Block (Stream l) = c :: b.

Lemma good_refl l : ready l → good l l.
Proof. by split. Qed.

Lemma good_trans l1 l2 l3 : good l1 l2 → good l2 l3 → good l1 l3.
Proof. intros [_ ?] [? ?]. split; [done|lia]. Qed.

Lemma safe_mono {A} l l' (r : Result (TLexer * A)) Q Q' :
  (stream_size (Stream l') <= stream_size (Stream l))%nat →
  safe l' r Q → (∀ l a, Q l a → Q' l a) → safe l r Q'.
Proof.
  intros Hs Hr HQ. destruct r as [[l2 a]| | |]; simpl in *; try done.
  destruct Hr as [[? ?] ?]. split; [split; [done|lia]|auto].
Qed.

Lemma safe0_mono l l' r : (stream_size (Stream l') <= stream_size (Stream l))%nat → safe0 l' r → safe0 l r.
Proof. intros Hs. destruct r as [l2| | |]; simpl; try done. intros [? ?]. split; [done|lia]. Qed.

Lemma safe_bind {A T} l (r : Result (TLexer * A)) (k : TLexer * A → Result (TLexer * T)) Q Q' :
  safe l r Q → (∀ l' a, good l l' → Q l' a → safe l' (k (l', a)) Q') → safe l (r ≫= k) Q'.
Proof.
  intros Hr Hk. destruct r as [[l' a]| | |]; simpl in *; try done. destruct Hr as [Hg HQ].
  eapply safe_mono; [apply Hg|by apply Hk|done].
Qed.

Lemma safe0_bind {T} l (r : Result TLexer) (k : TLexer → Result (TLexer * T)) Q' :
  safe0 l r → (∀ l', good l l' → safe l' (k l') Q') → safe l (r ≫= k) Q'.
Proof.
  intros Hr Hk. destruct r as [l'| | |]; simpl in *; try done.
  eapply safe_mono; [apply Hr|by apply Hk|done].
Qed.

Lemma safe_lift {A} l (f : TStream → Result (TStream * A)) (Q : TStream → A → Prop) : ready l →
  stream_safe (Stream l) (f (Stream l)) Q → safe l (lift f l) (λ l' a, Q (Stream l') a ∧ Buffer l' = Buffer l).
Proof.
  intros [Hp Hb] Hf. unfold lift. destruct (f (Stream l)) as [[s' a]| | |]; simpl in *; try done.
  destruct Hf as (? & ? & ?).
  split; [split; [split; [done|exact Hb]|done]|by split].
Qed.

Lemma ready_clear l : ready l → ready (ClearBuffer l).
Proof. intros [? [? ?]]. split; [done|]. unfold buffer_inv in *. simpl. lia. Qed.

Lemma lift_GetChar_safe a l : ready l → safe l (lift (GetChar a) l) (λ l' c, peeked l' c).
Proof.
  intros Hl. eapply safe_mono; [done|apply safe_lift; [done|apply GetChar_safe, Hl]|].
  intros l' c [[[b Hb]|(-> & _ & _)] _] Hc; [eauto|done].
Qed.

Lemma Insert_safe bs l : ready l →
  match Insert ML bs l with Ok l' => ready l' ∧ Stream l' = Stream l | Throw _ => True | _ => False end.
Proof.
  intros [Hp Hb]. pose proof (Insert_spec ML bs l) as H. destruct (Insert ML bs l) as [l'| | |]; try done.
  destruct H as (Hs & _ & _ & Hi). unfold ready. rewrite Hs. auto.
Qed.

Lemma push_advance_safe c l : ready l → peeked l c → c ≠ x00 →
  match PushBack ML c l with
  | Ok l' => good l (advance 1 l') ∧ (stream_size (Stream (advance 1 l')) < stream_size (Stream l))%nat
  | Throw _ => True
  | _ => False
  end.
Proof.
  intros Hl Hc Hne. rewrite PushBack_Insert. pose proof (Insert_safe [c] l Hl) as H.
  destruct (Insert ML [c] l) as [l'| | |]; try done. destruct H as [[Hp Hb] Hs].
  destruct (Hc Hne) as [b Hblk]. pose proof (Advance_safe 1 (Stream l') Hp) as Ha.
  rewrite Hs, Hblk in Ha. destruct Ha as [? ?]; [simpl; lia|].
  unfold good, ready, advance. cbn [set_Stream Stream]. rewrite Hs. split_and!; try done; lia.
Qed.

Lemma class_not_nul (P : byte → bool) c : P x00 = false → P c = true → c ≠ x00.
Proof. intros H0 H1 ->. congruence. Qed.

Lemma numeric_loop_safe a fuel l r : ready l → (stream_size (Stream l) < fuel)%nat →
  safe l (numeric_loop ML a fuel l r) (λ _ _, True).
Proof.
  revert l r. induction fuel as [|fuel IH]; intros l r Hl Hf; [lia|]. cbn [numeric_loop].
  eapply safe_bind; [by apply lift_GetChar_safe|]. intros l1 c [Hl1 Hs1] Hc. cbv zeta.
  rewrite (numeric_turn c r (λ r, l ← PushBack ML c l1; numeric_loop ML a fuel (advance 1 l) r)).
  destruct (is_numeric_char c) eqn:Hn; [|destruct (isalpha c); [done|]; split; [by apply good_refl|done]].
  pose proof (push_advance_safe c l1 Hl1 Hc (class_not_nul _ _ eq_refl Hn)) as Hp.
  destruct (PushBack ML c l1) as [l2| | |]; try done. destruct Hp as [[? ?] ?]. run_bind.
  eapply safe_mono; [|apply IH; [done|lia]|done]. lia.
Qed.

Lemma unquoted_loop_safe a fuel l : ready l → (stream_size (Stream l) < fuel)%nat →
  safe0 l (unquoted_loop ML a fuel l).
Proof.
  revert l. induction fuel as [|fuel IH]; intros l Hl Hf; [lia|]. cbn [unquoted_loop].
  pose proof (lift_GetChar_safe a l Hl) as H. destruct (lift (GetChar a) l) as [[l1 c]| | |]; try done.
  destruct H as [[Hl1 Hs1] Hc]. run_bind.
  destruct (is_unquoted_char c) eqn:Hn; [|by split].
  pose proof (push_advance_safe c l1 Hl1 Hc (class_not_nul _ _ eq_refl Hn)) as Hp.
  destruct (PushBack ML c l1) as [l2| | |]; try done. destruct Hp as [[? ?] ?]. run_bind.
  eapply safe0_mono; [|apply IH; [done|lia]]. lia.
Qed.

Lemma ReadNumeric_safe a l : ready l → safe l (ReadNumeric ML a l) (λ _ _, True).
Proof.
  intros Hl. unfold ReadNumeric.
  eapply safe_bind; [eapply safe_mono; [|apply numeric_loop_safe|]|].
  - done.
  - by apply ready_clear.
  - unfold stream_fuel. simpl. lia.
  - by intros ? ? ?.
  - intros l' r [Hl' _] _. split; [by apply good_refl|done].
Qed.

Lemma ReadUnquotedString_safe a l : ready l → safe l (ReadUnquotedString ML a l) (λ _ _, True).
Proof.
  intros Hl. unfold ReadUnquotedString.
  eapply safe0_bind; [eapply (safe0_mono _ (ClearBuffer l)); [done|apply unquoted_loop_safe]|].
  - by apply ready_clear.
  - unfold stream_fuel. simpl. lia.
  - intros l' [Hl' _]. split; [by apply good_refl|done].
Qed.

(** [if (IsEmpty()) Refresh();] followed by an access to the current character. *)
Lemma refresh_deref_safe l : ready l →
  match (if IsEmpty (Stream l) then Refresh false (Stream l) else Ok (Stream l)) with
  | Ok s => Past s = 0%nat ∧ (stream_size s <= stream_size (Stream l))%nat ∧ ∃ c b, Block s = c :: b
  | Throw _ => True
  | _ => False
  end.
Proof.
  intros [Hp Hb]. destruct (IsEmpty (Stream l)) eqn:E.
  - pose proof (Refresh_safe false _ Hp) as H. destruct (Refresh false (Stream l)) as [s| | |]; try done.
    destruct H as (? & ? & [?|[? _]]); done.
  - destruct (IsEmpty_false _ _ (conj Hp eq_refl) E) as (x & b & Hx & _). split_and!; eauto.
Qed.

Lemma quoted_loop_safe fuel l : ready l → (stream_size (Stream l) < fuel)%nat →
  safe0 l (quoted_loop ML fuel l).
Proof.
  revert l. induction fuel as [|fuel IH]; intros l Hl Hf; [lia|]. cbn [quoted_loop].
  pose proof (refresh_deref_safe l Hl) as H. destruct (if IsEmpty _ then _ else _) as [s| | |]; try done.
  destruct H as (Hp & Hs & c & b & Hb). run_bind. unfold Deref. rewrite Hb.
  run_bind. cbv zeta. set (l1 := advance 1 (set_Stream l s)).
  pose proof (Advance_safe 1 s Hp) as Ha. rewrite Hb in Ha. destruct Ha as [Hp1 Hs1]; [simpl; lia|].
  assert (ready l1) as Hl1 by (split; [exact Hp1|apply Hl]).
  assert (stream_size (Stream l1) < stream_size (Stream l))%nat as Hlt by (subst l1; simpl in *; lia).
  assert (safe0 l (l0 ← PushBack ML c l1; quoted_loop ML fuel l0)) as Hgo.
  { rewrite PushBack_Insert. pose proof (Insert_safe [c] l1 Hl1) as HI.
    destruct (Insert ML [c] l1) as [l2| | |]; try done. destruct HI as [Hl2 HS2]. run_bind.
    eapply safe0_mono; [|apply IH; [done|]]; rewrite HS2; lia. }
  destruct (negb _); [done|]. destruct (Nat.even _); [|done]. simpl. split; [done|lia].
Qed.

Lemma ReadQuotedString_safe l : ready l → safe l (ReadQuotedString ML l) (λ _ _, True).
Proof.
  intros Hl. unfold ReadQuotedString.
  eapply safe0_bind; [eapply (safe0_mono _ (ClearBuffer l)); [done|apply quoted_loop_safe]|].
  - by apply ready_clear.
  - unfold stream_fuel. simpl. lia.
  - intros l' [Hl' _]. destruct (UnescapeC_total _ (Buffer l') (le_n _)) as (out & -> & _).
    run_bind. pose proof (Insert_safe out (ClearBuffer l') (ready_clear _ Hl')) as H.
    destruct (Insert ML out (ClearBuffer l')) as [l2| | |]; try done. destruct H as [H2 HS].
    simpl. split; [|done]. split; [done|]. rewrite HS. simpl. lia.
Qed.

(** A failed comparison throws even when [Advance] has left the block. *)
Lemma push_char_safe a l : ready l →
  match push_char ML a l with
  | Ok (l', c) => c ≠ x00 → good l l'
  | Throw _ => True
  | _ => False
  end.
Proof.
  intros Hl. unfold push_char. pose proof (lift_GetChar_safe a l Hl) as H.
  destruct (lift (GetChar a) l) as [[l1 c]| | |]; try done. destruct H as [[Hl1 Hs1] Hc]. run_bind.
  destruct (decide (c = x00)) as [->|Hne].
  - rewrite PushBack_Insert. pose proof (Insert_safe [x00] l1 Hl1) as HI.
    by destruct (Insert ML [x00] l1) as [l2| | |].
  - pose proof (push_advance_safe c l1 Hl1 Hc Hne) as Hp.
    destruct (PushBack ML c l1) as [l2| | |]; try done. run_bind. intros _.
    destruct Hp as [[? ?] ?]. split; [done|lia].
Qed.

Lemma expect_chars_safe a e l : ready l → Forall (λ c, c ≠ x00) e → safe0 l (expect_chars ML a e l).
Proof.
  intros Hl He. revert l Hl. induction He as [|c e Hc He IH]; intros l Hl; [by split|]. cbn [expect_chars].
  pose proof (push_char_safe a l Hl) as H. destruct (push_char ML a l) as [[l1 ch]| | |]; try done.
  run_bind. destruct (Byte.eqb ch c) eqn:E; [|done]. apply byte_dec_bl in E as ->.
  destruct (H Hc) as [? ?]. eapply safe0_mono; [|by apply IH]. done.
Qed.

(** The common part of [ReadBoolean] and [ReadNanOrInf]. *)
Lemma literal_safe {A} a l (k : TLexer * byte → Result (TLexer * A)) : ready l →
  (∀ l' c, c ≠ x00 → ready l' → safe l' (k (l', c)) (λ _ _, True)) →
  (∀ l', ∃ e, k (l', x00) = Throw e) →
  safe l (push_char ML a (ClearBuffer l) ≫= k) (λ _ _, True).
Proof.
  intros Hl Hk H0. pose proof (push_char_safe a _ (ready_clear _ Hl)) as H.
  destruct (push_char ML a (ClearBuffer l)) as [[l1 c]| | |]; try done. run_bind.
  destruct (decide (c = x00)) as [->|Hne]; [by destruct (H0 l1) as [e ->]|].
  destruct (H Hne) as [? ?]. eapply safe_mono; [|by apply Hk|done]. done.
Qed.

Lemma expect_value_safe {A} a e l (v : A) : ready l → Forall (λ c, c ≠ x00) e →
  safe l (l ← expect_chars ML a e l; Ok (l, v)) (λ _ _, True).
Proof.
  intros Hl He. eapply safe0_bind; [by apply expect_chars_safe|]. intros l' [? _]. by split.
Qed.

Lemma ReadBoolean_safe a l : ready l → safe l (ReadBoolean ML a l) (λ _ _, True).
Proof.
  intros Hl. apply literal_safe; [done| |by eexists].
  intros l' c Hc Hl'. cbv zeta.
  repeat (case_match; [apply expect_value_safe; [done|by repeat constructor]|]). done.
Qed.

Lemma ReadNanOrInf_safe a l : ready l → safe l (ReadNanOrInf ML a l) (λ _ _, True).
Proof.
  intros Hl. apply literal_safe; [done| |by eexists].
  intros l' c Hc Hl'. cbv zeta.
  repeat (case_match; [apply expect_value_safe; [done|by repeat constructor]|]). done.
Qed.

(** One turn of a loop that copies what the current block holds. *)
Lemma chunk_safe n l : ready l → IsEmpty (Stream l) = false → (0 < n)%nat →
  let k := Nat.min n (Length (Stream l)) in
  (0 < k)%nat ∧ good l (advance k l) ∧ (stream_size (Stream (advance k l)) < stream_size (Stream l))%nat.
Proof.
  intros Hl E Hn. cbv zeta. destruct (IsEmpty_false _ _ (conj (proj1 Hl) eq_refl) E) as (x & b & Hb & _).
  set (k := Nat.min _ _).
  assert (0 < k <= length (Block (Stream l)))%nat as Hk by (subst k; unfold Length; rewrite Hb; simpl; lia).
  destruct (Advance_safe k (Stream l) (proj1 Hl)) as [? ?]; [lia|].
  split; [lia|]. unfold good, ready, advance. cbn [set_Stream Stream].
  split; [|lia]. split; [|lia]. split; [done|]. apply Hl.
Qed.

Lemma refresh_turn l : ready l → IsEmpty (Stream l) = true →
  match Refresh false (Stream l) with
  | Ok s => good l (set_Stream l s) ∧ (stream_size s < stream_size (Stream l))%nat
  | Throw _ => True
  | _ => False
  end.
Proof.
  intros Hl E. pose proof (Refresh_safe false _ (proj1 Hl)) as H.
  destruct (Refresh false (Stream l)) as [s| | |] eqn:Er; try done.
  destruct H as (Hp & Hs & [(c & b & Hb)|[? _]]); [|done].
  assert (IsFinished (Stream l) = false) as Ef.
  { unfold IsFinished. destruct (Rest (Stream l)) eqn:Erest; [|done].
    destruct (IsEmpty_true _ E) as [Hbl _]. unfold Refresh in Er. rewrite E, Erest in Er. simplify_eq/=. }
  pose proof (Refresh_shrinks false _ _ E Ef Er). split; [|lia]. split; [|simpl; lia]. split; [done|apply Hl].
Qed.

Lemma binary_string_loop_safe fuel n l : ready l → (S (stream_size (Stream l)) < fuel)%nat →
  safe0 l (binary_string_loop ML fuel n l).
Proof.
  revert l n. induction fuel as [|fuel IH]; intros l n Hl Hf; [lia|]. cbn [binary_string_loop].
  destruct n as [|n]; [by split|]. destruct (IsEmpty (Stream l)) eqn:E.
  - pose proof (refresh_turn l Hl E) as H. destruct (Refresh false (Stream l)) as [s| | |]; try done.
    destruct H as [[? ?] ?]. run_bind.
    eapply safe0_mono; [|apply IH; [done|simpl; lia]]. done.
  - destruct (chunk_safe (S n) l Hl E ltac:(lia)) as (Hk & [[Hp _] Hs] & Hlt). set (k := Nat.min _ _) in *.
    pose proof (Insert_safe (take k (Block (Stream l))) l Hl) as H.
    destruct (Insert ML _ l) as [l1| | |]; try done. destruct H as [Hl1 HS]. run_bind.
    assert (Stream (advance k l1) = Stream (advance k l)) as HSk by (unfold advance; simpl; by rewrite HS).
    eapply safe0_mono; [|apply IH]; [by rewrite HSk| |rewrite HSk; lia].
    split; [by rewrite HSk|apply Hl1].
Qed.

Lemma ReadBinaryString_safe l : ready l → safe l (ReadBinaryString ML l) (λ _ _, True).
Proof.
  intros Hl. unfold ReadBinaryString.
  eapply safe_bind; [apply safe_lift; [done|by apply ReadVarint32_safe, Hl]|].
  intros l' v [Hl' _] _. destruct (_ <? 0); [done|]. cbv zeta.
  destruct (Nat.leb_spec (Z.to_nat (ZigZag.ZigZagDecode32 v)) (Length (Stream l'))) as [Hle|_].
  - destruct (Advance_safe _ (Stream l') (proj1 Hl') Hle). simpl. split; [|done].
    split; [|simpl; lia]. split; [done|apply Hl'].
  - eapply safe0_bind; [eapply (safe0_mono _ (ClearBuffer l')); [done|apply binary_string_loop_safe]|].
    + by apply ready_clear.
    + unfold stream_fuel. simpl. lia.
    + intros l2 [? _]. by split.
Qed.

Lemma double_loop_safe fuel n out l : ready l → (S (stream_size (Stream l)) < fuel)%nat →
  safe l (double_loop fuel n out l) (λ _ _, True).
Proof.
  revert l n out. induction fuel as [|fuel IH]; intros l n out Hl Hf; [lia|]. cbn [double_loop].
  destruct n as [|n]; [by split|]. destruct (IsEmpty (Stream l)) eqn:E.
  - pose proof (refresh_turn l Hl E) as H. destruct (Refresh false (Stream l)) as [s| | |]; try done.
    destruct H as [[? ?] ?]. run_bind.
    eapply safe_mono; [|apply IH; [done|simpl; lia]|done]. done.
  - destruct (chunk_safe (S n) l Hl E ltac:(lia)) as (Hk & [Hl' Hs] & Hlt). set (k := Nat.min _ _) in *.
    rewrite (proj2 (Nat.eqb_neq k 0)) by lia.
    eapply safe_mono; [|apply IH; [done|lia]|done]. lia.
Qed.

Lemma ReadBinaryDouble_safe l : ready l → safe l (ReadBinaryDouble l) (λ _ _, True).
Proof.
  intros Hl. unfold ReadBinaryDouble.
  eapply safe_bind; [apply double_loop_safe; [done|unfold stream_fuel; lia]|].
  intros l' v [Hl' _] _. by split.
Qed.

Lemma ReadBinaryInt64_safe l : ready l → safe l (ReadBinaryInt64 l) (λ _ v, in_s 64 v).
Proof.
  intros Hl. unfold ReadBinaryInt64.
  eapply safe_bind; [apply safe_lift; [done|by apply ReadVarint64_safe, Hl]|].
  intros l' v [Hl' _] _. split; [by split|]. apply ZigZag.decode_range. lia.
Qed.

Lemma ReadBinaryUint64_safe l : ready l → safe l (ReadBinaryUint64 l) (λ _ v, in_u 64 v).
Proof.
  intros Hl. eapply safe_mono; [done|apply safe_lift; [done|by apply ReadVarint64_safe, Hl]|]. by intros ? ? [? _].
Qed.

Lemma skip_space_loop_safe a fuel l : ready l → (stream_size (Stream l) < fuel)%nat →
  safe l (skip_space_loop a fuel l) (λ l' c, peeked l' c).
Proof.
  revert l. induction fuel as [|fuel IH]; intros l Hl Hf; [lia|]. cbn [skip_space_loop].
  destruct (IsEmpty (Stream l)) eqn:E.
  - destruct (IsFinished (Stream l)) eqn:Ef; [split; [by apply good_refl|by intros ?]|].
    pose proof (Refresh_safe a _ (proj1 Hl)) as H. destruct (Refresh a (Stream l)) as [s| | |] eqn:Er; try done.
    pose proof (Refresh_shrinks a _ _ E Ef Er). destruct H as (Hp & Hs & _). run_bind.
    eapply safe_mono; [|apply IH; [|simpl; lia]|done]; [done|]. split; [done|apply Hl].
  - destruct (IsEmpty_false _ _ (conj (proj1 Hl) eq_refl) E) as (x & b & Hb & _).
    unfold Deref. rewrite Hb. run_bind.
    destruct (negb (IsSpace x)); [by apply lift_GetChar_safe|].
    pose proof (Advance_safe 1 (Stream l) (proj1 Hl)) as Ha. rewrite Hb in Ha.
    destruct Ha as [? ?]; [simpl; lia|].
    eapply safe_mono; [|apply IH; [|simpl in *; lia]|done]; [simpl in *; lia|]. split; [done|apply Hl].
Qed.

Lemma SkipSpaceAndGetChar_safe a l : ready l → safe l (SkipSpaceAndGetChar a l) (λ l' c, peeked l' c).
Proof.
  intros Hl. unfold SkipSpaceAndGetChar.
  assert (safe l (SkipSpaceAndGetCharFallback a l) (λ l' c, peeked l' c)) as Hfb
    by (apply skip_space_loop_safe; [done|unfold stream_fuel; lia]).
  destruct (IsEmpty (Stream l)) eqn:E; [done|]. simpl.
  destruct (IsEmpty_false _ _ (conj (proj1 Hl) eq_refl) E) as (x & b & Hb & _).
  unfold Deref. rewrite Hb. run_bind. destruct (negb (IsSpace x)); [|done].
  split; [by apply good_refl|]. intros _. eauto.
Qed.

Lemma SkipCharToken_safe c l : c ≠ x00 → ready l → safe0 l (SkipCharToken c l).
Proof.
  intros Hc Hl. unfold SkipCharToken. pose proof (SkipSpaceAndGetChar_safe false l Hl) as H.
  destruct (SkipSpaceAndGetChar false l) as [[l1 ch]| | |]; try done. destruct H as [[Hl1 Hs1] Hp].
  run_bind. destruct (Byte.eqb ch c) eqn:E; [|done]. apply byte_dec_bl in E as ->. simpl.
  destruct (Hp Hc) as [b Hb]. pose proof (Advance_safe 1 (Stream l1) (proj1 Hl1)) as Ha. rewrite Hb in Ha.
  destruct Ha as [? ?]; [simpl; lia|]. split; [|simpl in *; lia]. split; [done|apply Hl1].
Qed.
End Safety.

(** White space skipping leaves an empty block only at the end of the stream. *)
Lemma skip_space_loop_finished a fuel l l' c : skip_space_loop a fuel l = Ok (l', c) →
  IsEmpty (Stream l') = true → IsFinished (Stream l') = true.
Proof.
  revert l. induction fuel as [|fuel IH]; intros l; [done|]. cbn [skip_space_loop].
  destruct (IsEmpty (Stream l)) eqn:E.
  - destruct (IsFinished (Stream l)) eqn:Ef; [intros [= <- _]; done|].
    intros (s & _ & Hs)%bind_ok. exact (IH _ Hs).
  - intros (x & Hd & Hx)%bind_ok. destruct (negb (IsSpace x)); [|exact (IH _ Hx)].
    unfold lift, GetChar in Hx. rewrite E, Hd in Hx. simpl in Hx. simplify_eq/=. congruence.
Qed.

Lemma SkipSpaceAndGetChar_finished a l l' c : SkipSpaceAndGetChar a l = Ok (l', c) →
  IsEmpty (Stream l') = true → IsFinished (Stream l') = true.
Proof.
  unfold SkipSpaceAndGetChar. destruct (IsEmpty (Stream l)) eqn:E; simpl; [apply skip_space_loop_finished|].
  intros (x & Hd & Hx)%bind_ok. destruct (negb (IsSpace x)); [simplify_eq; congruence|].
  exact (skip_space_loop_finished _ _ _ _ _ Hx).
Qed.

(** [TLexerBase(blockStream, memoryLimit)]. *)
Definition NewLexer (s : TStream) : TLexer := {| Stream := s; Buffer := []; Capacity := 0 |}.

Lemma NewLexer_ready ML s : Past s = 0%nat → ready ML (NewLexer s).
Proof.
  intros Hp. split; [done|]. unfold buffer_inv. simpl. pose proof (wrap_u_range 64 ML ltac:(lia)) as [? _]. lia.
Qed.

Lemma ReadQuotedString_EscapeC ML s rest l : at_text l (EscapeC s ++ x22 :: rest) →
  4 * Z.of_nat (length s) <= wrap_u 64 ML → 4 * Z.of_nat (length s) < 2 ^ 31 →
  ∃ l', ReadQuotedString ML l = Ok (l', s) ∧ at_text l' rest.
Proof.
  intros Hl Hm Hi. pose proof (length_EscapeC s). eapply ReadQuotedString_text; [exact Hl| | |lia|lia].
  - rewrite EscapeC_all. apply quoted_scan_escape.
  - rewrite EscapeC_all. apply UnescapeC_escape_all.
Qed.

(** C24. The lexer is total and memory safe on every input, well formed or not, and for
    every way of cutting it into blocks: started in a state where the current position
    is inside its block and the buffer respects the memory limit, each token reader
    terminates and either throws or returns with the same invariant, the buffer never
    reserving more than the memory limit, and never moves backwards in the stream; what
    it never does is read outside a block, fail an assertion or loop. *)
Theorem TLexerBase_safe (ML : Z) (AllowFinish : bool) (l : TLexer) (Hl : ready ML l) :
  safe ML l (ReadNumeric ML AllowFinish l) (λ _ _, True) ∧
  safe ML l (ReadNanOrInf ML AllowFinish l) (λ _ _, True) ∧
  safe ML l (ReadBoolean ML AllowFinish l) (λ _ _, True) ∧
  safe ML l (ReadQuotedString ML l) (λ _ _, True) ∧
  safe ML l (ReadUnquotedString ML AllowFinish l) (λ _ _, True) ∧
  safe ML l (ReadBinaryString ML l) (λ _ _, True) ∧
  safe ML l (ReadBinaryInt64 l) (λ _ v, in_s 64 v) ∧
  safe ML l (ReadBinaryUint64 l) (λ _ v, in_u 64 v) ∧
  safe ML l (ReadBinaryDouble l) (λ _ _, True) ∧
  safe ML l (SkipSpaceAndGetChar AllowFinish l) (λ l' c, peeked l' c) ∧
  ∀ c, c ≠ x00 → safe0 ML l (SkipCharToken c l).
Proof.
  split_and!; [by apply ReadNumeric_safe|by apply ReadNanOrInf_safe|by apply ReadBoolean_safe
    |by apply ReadQuotedString_safe|by apply ReadUnquotedString_safe|by apply ReadBinaryString_safe
    |by apply ReadBinaryInt64_safe|by apply ReadBinaryUint64_safe|by apply ReadBinaryDouble_safe
    |by apply SkipSpaceAndGetChar_safe|intros; by apply SkipCharToken_safe].
Qed.

Lemma TLexerBase_safe_witness :
  let l := NewLexer (TBlockReader [x22; x61] [[]; [x5c]]) in
  ready 16 l ∧ safe 16 l (ReadQuotedString 16 l) (λ _ _, True).
Proof.
  intros l. assert (ready 16 l) as H by (by apply NewLexer_ready). split; [exact H|].
  by destruct (TLexerBase_safe 16 true l H) as (_ & _ & _ & Hq & _).
Defined.

(** Quoted literals, however the text is cut into blocks: counting the backslashes
    at the end of the buffer finds the closing quote, so the escaped form of any byte
    string followed by a quote is read back as that string, and the stream is left
    right behind the quote. *)
Theorem ReadQuotedString_reads_escaped (ML : Z) (s rest : list byte) (l : TLexer)
    (Hl : at_text l (EscapeC s ++ x22 :: rest))
    (Hmem : 4 * Z.of_nat (length s) <= wrap_u 64 ML) (Hint : 4 * Z.of_nat (length s) < 2 ^ 31) :
  ∃ l', ReadQuotedString ML l = Ok (l', s) ∧ at_text l' rest.
Proof. by apply ReadQuotedString_EscapeC. Qed.

Lemma ReadQuotedString_reads_escaped_witness :
  ∃ l', ReadQuotedString 64 (NewLexer (TBlockReader [x5c] [[x22; x5c; x5c]; [x22; x3b]]))
    = Ok (l', [x22; x5c]) ∧ at_text l' [x3b].
Proof.
  apply (ReadQuotedString_reads_escaped 64 [x22; x5c] [x3b]
    (NewLexer (TBlockReader [x5c] [[x22; x5c; x5c]; [x22; x3b]]))); [by vm_compute|by vm_compute|by vm_compute].
Defined.
