(* ===== verification/YsonEvents.v ===== *)
(** YSON as a stream of events: the consumer interface ([library/cpp/yt/yson/consumer.h])
    and the documents that event streams describe.

    The parser and the writers meet at [IYsonConsumer]: the class below is that
    interface, a writer is one of its instances, and the parser is a client of any
    instance.  A consumer may throw, and it may call [Stop] on the parser that feeds it. *)

From S2P Require Import Prelude.

Inductive EYsonType := YsonNode | YsonListFragment | YsonMapFragment.
#[export] Instance EYsonType_eq_dec : EqDecision EYsonType.
Proof. solve_decision. Defined.

(** One constructor per method of [IYsonConsumer]; a double is its 64-bit pattern. *)
Inductive TYsonEvent :=
| OnStringScalar (value : list byte)
| OnInt64Scalar (value : Z)
| OnUint64Scalar (value : Z)
| OnDoubleScalar (value : Z)
| OnBooleanScalar (value : bool)
| OnEntity
| OnBeginList
| OnListItem
| OnEndList
| OnBeginMap
| OnKeyedItem (key : list byte)
| OnEndMap
| OnBeginAttributes
| OnEndAttributes
| OnRaw (yson : list byte) (type : EYsonType).
#[export] Instance TYsonEvent_eq_dec : EqDecision TYsonEvent.
Proof. solve_decision. Defined.

(** The effect of a method call on the consumer's state, and whether it called
    [Stop()] on the parser. *)
Class IYsonConsumer (C : Type) := OnEvent : TYsonEvent → C → Result (C * bool).

(** The consumer that records what it is told and never stops. *)
Definition TRecorder := list TYsonEvent.
#[export] Instance Recorder : IYsonConsumer TRecorder := λ ev trace, Ok (trace ++ [ev], false).

(** Feeding a list of events, up to and including the first one that stops. *)
Fixpoint feed {C} `{IYsonConsumer C} (evs : list TYsonEvent) (c : C) : Result (C * bool) :=
  match evs with
  | [] => Ok (c, false)
  | ev :: evs =>
      '(c, stop) ← OnEvent ev c;
      if stop : bool then Ok (c, true) else feed evs c
  end.

Lemma feed_app {C} `{IYsonConsumer C} evs1 evs2 (c : C) :
  feed (evs1 ++ evs2) c =
    '(c, stop) ← feed evs1 c; if stop : bool then Ok (c, true) else feed evs2 c.
Proof.
  revert c. induction evs1 as [|ev evs1 IH]; intros c; simpl; [done|].
  destruct (OnEvent ev c) as [[c' stop]| | |]; simpl; try done. by destruct stop.
Qed.

Lemma feed_recorder evs trace : feed (C := TRecorder) evs trace = Ok (trace ++ evs, false).
Proof.
  revert trace. induction evs as [|ev evs IH]; intros trace; simpl; [by rewrite app_nil_r|].
  rewrite IH. by rewrite <- app_assoc.
Qed.

(** ** Documents *)

#[local] Set Warnings "-register-all".

Inductive TNode :=
| Node (attributes : option (list (list byte * TNode))) (value : TValue)
with TValue :=
| VString (s : list byte)
| VInt64 (z : Z)
| VUint64 (z : Z)
| VDouble (bits : Z)
| VBoolean (b : bool)
| VEntity
| VList (items : list TNode)
| VMap (items : list (list byte * TNode)).

(** The calls that describe a document, as the comments of [IYsonConsumer] prescribe. *)
Fixpoint node_events (n : TNode) : list TYsonEvent :=
  match n with
  | Node attributes value =>
      match attributes with
      | None => []
      | Some items =>
          OnBeginAttributes ::
          (fix go (items : list (list byte * TNode)) :=
             match items with
             | [] => []
             | (key, n) :: items => OnKeyedItem key :: node_events n ++ go items
             end) items ++ [OnEndAttributes]
      end ++ value_events value
  end
with value_events (v : TValue) : list TYsonEvent :=
  match v with
  | VString s => [OnStringScalar s]
  | VInt64 z => [OnInt64Scalar z]
  | VUint64 z => [OnUint64Scalar z]
  | VDouble bits => [OnDoubleScalar bits]
  | VBoolean b => [OnBooleanScalar b]
  | VEntity => [OnEntity]
  | VList items =>
      OnBeginList ::
      (fix go (items : list TNode) :=
         match items with
         | [] => []
         | n :: items => OnListItem :: node_events n ++ go items
         end) items ++ [OnEndList]
  | VMap items =>
      OnBeginMap ::
      (fix go (items : list (list byte * TNode)) :=
         match items with
         | [] => []
         | (key, n) :: items => OnKeyedItem key :: node_events n ++ go items
         end) items ++ [OnEndMap]
  end.

Fixpoint list_events (items : list TNode) : list TYsonEvent :=
  match items with
  | [] => []
  | n :: items => OnListItem :: node_events n ++ list_events items
  end.

Fixpoint map_events (items : list (list byte * TNode)) : list TYsonEvent :=
  match items with
  | [] => []
  | (key, n) :: items => OnKeyedItem key :: node_events n ++ map_events items
  end.

Definition attribute_events (attributes : option (list (list byte * TNode))) : list TYsonEvent :=
  match attributes with
  | None => []
  | Some items => OnBeginAttributes :: map_events items ++ [OnEndAttributes]
  end.

Lemma node_events_eq attributes value :
  node_events (Node attributes value) = attribute_events attributes ++ value_events value.
Proof. destruct attributes as [items|]; simpl; [|done]. do 3 f_equal. Qed.

Lemma value_events_list items : value_events (VList items) = OnBeginList :: list_events items ++ [OnEndList].
Proof. simpl. do 2 f_equal. Qed.

Lemma value_events_map items : value_events (VMap items) = OnBeginMap :: map_events items ++ [OnEndMap].
Proof. simpl. do 2 f_equal. Qed.

(** The nesting level of a document: every node is one level below the node or the
    attribute map it belongs to. *)
Fixpoint node_depth (n : TNode) : nat :=
  match n with
  | Node attributes value =>
      S (Nat.max
          (match attributes with
           | None => 0
           | Some items =>
               (fix go (items : list (list byte * TNode)) :=
                  match items with [] => 0%nat | (_, n) :: items => Nat.max (node_depth n) (go items) end) items
           end)
          (value_depth value))
  end
with value_depth (v : TValue) : nat :=
  match v with
  | VList items =>
      (fix go (items : list TNode) :=
         match items with [] => 0%nat | n :: items => Nat.max (node_depth n) (go items) end) items
  | VMap items =>
      (fix go (items : list (list byte * TNode)) :=
         match items with [] => 0%nat | (_, n) :: items => Nat.max (node_depth n) (go items) end) items
  | _ => 0%nat
  end.

Fixpoint list_depth (items : list TNode) : nat :=
  match items with [] => 0%nat | n :: items => Nat.max (node_depth n) (list_depth items) end.
Fixpoint map_depth (items : list (list byte * TNode)) : nat :=
  match items with [] => 0%nat | (_, n) :: items => Nat.max (node_depth n) (map_depth items) end.

Lemma node_depth_eq attributes value :
  node_depth (Node attributes value) =
    S (Nat.max (match attributes with None => 0 | Some items => map_depth items end) (value_depth value)).
Proof. destruct attributes; reflexivity. Qed.

Lemma value_depth_list items : value_depth (VList items) = list_depth items.
Proof. reflexivity. Qed.

Lemma value_depth_map items : value_depth (VMap items) = map_depth items.
Proof. reflexivity. Qed.

(** ** Induction over documents *)

Section Induction.
Context (P : TNode → Prop) (Q : TValue → Prop).
Context (HNode : ∀ attributes value,
  (∀ items, attributes = Some items → Forall (λ kn, P kn.2) items) → Q value → P (Node attributes value)).
Context (HString : ∀ s, Q (VString s)) (HInt64 : ∀ z, Q (VInt64 z)) (HUint64 : ∀ z, Q (VUint64 z)).
Context (HDouble : ∀ z, Q (VDouble z)) (HBoolean : ∀ b, Q (VBoolean b)) (HEntity : Q VEntity).
Context (HList : ∀ items, Forall P items → Q (VList items)).
Context (HMap : ∀ items, Forall (λ kn, P kn.2) items → Q (VMap items)).

Fixpoint node_ind' (n : TNode) : P n :=
  match n with
  | Node attributes value =>
      HNode attributes value
        (match attributes return ∀ items, attributes = Some items → Forall (λ kn, P kn.2) items with
         | None => λ items H, False_ind _ (eq_ind None (λ o, match o with None => True | Some _ => False end) I _ H)
         | Some items0 => λ items H,
             eq_ind items0 (λ items, Forall (λ kn : list byte * TNode, P kn.2) items)
               ((fix go items : Forall (λ kn : list byte * TNode, P kn.2) items :=
                   match items with
                   | [] => List.Forall_nil _
                   | kn :: items => List.Forall_cons _ _ _ (node_ind' kn.2) (go items)
                   end) items0) items
               (eq_ind (Some items0) (λ o, match o with Some i => items0 = i | None => True end) eq_refl _ H)
         end)
        (value_ind' value)
  end
with value_ind' (v : TValue) : Q v :=
  match v with
  | VString s => HString s
  | VInt64 z => HInt64 z
  | VUint64 z => HUint64 z
  | VDouble bits => HDouble bits
  | VBoolean b => HBoolean b
  | VEntity => HEntity
  | VList items =>
      HList items
        ((fix go items : Forall P items :=
            match items with
            | [] => List.Forall_nil _
            | n :: items => List.Forall_cons _ _ _ (node_ind' n) (go items)
            end) items)
  | VMap items =>
      HMap items
        ((fix go items : Forall (λ kn : list byte * TNode, P kn.2) items :=
            match items with
            | [] => List.Forall_nil _
            | kn :: items => List.Forall_cons _ _ _ (node_ind' kn.2) (go items)
            end) items)
  end.
End Induction.
