(* ===== verification/YsonParser.v ===== *)
(** The YSON parser, [NDetail::TParser] of [core/yson/parser_detail.h], a client of the
    lexer and of any [IYsonConsumer].

    The recursive routines [ParseNode], [ParseAttributes], [ParseMap], [ParseList],
    [ParseMapFragment] and [ParseListFragment] become one mutual recursion on fuel;
    [parser_fuel] gives four units per character still in the stream, and
    [DoParse_total] shows that it never runs out: the parser returns or throws on every
    input.  Error contexts ([CheckpointContext], [GetErrorAttributes]) only decorate
    exceptions and are not modelled here.  [FromString<double>] is a parameter. *)

From S2P Require Import Prelude Coding IntCast Escape YsonStream YsonLexer YsonEvents.

(** [library/cpp/yt/yson_string/format.h]. *)
Definition BeginListSymbol : byte := "["%byte.
Definition EndListSymbol : byte := "]"%byte.
Definition BeginMapSymbol : byte := "{"%byte.
Definition EndMapSymbol : byte := "}"%byte.
Definition BeginAttributesSymbol : byte := "<"%byte.
Definition EndAttributesSymbol : byte := ">"%byte.
Definition ItemSeparatorSymbol : byte := ";"%byte.
Definition KeyValueSeparatorSymbol : byte := "="%byte.
Definition EntitySymbol : byte := "#"%byte.
Definition StringMarker : byte := x01.
Definition Int64Marker : byte := x02.
Definition DoubleMarker : byte := x03.
Definition FalseMarker : byte := x04.
Definition TrueMarker : byte := x05.
Definition Uint64Marker : byte := x06.

(** [EndSymbol] of [detail.h]: what the lexer returns at the end of the stream. *)
Definition EndSymbol : byte := x00.

Section TParser.
Context {C : Type} `{IYsonConsumer C}.
Context (FromString_double : list byte → Result Z).
Context (MemoryLimit NestingLevelLimit : Z).

Record TParser := { Lexer : TLexer; NestingLevel : Z; Stopped : bool; Consumer : C }.

Definition set_Lexer (p : TParser) (l : TLexer) : TParser :=
  {| Lexer := l; NestingLevel := NestingLevel p; Stopped := Stopped p; Consumer := Consumer p |}.
Definition set_NestingLevel (p : TParser) (n : Z) : TParser :=
  {| Lexer := Lexer p; NestingLevel := n; Stopped := Stopped p; Consumer := Consumer p |}.

(** A call of a lexer routine, of [Advance(1)], of a consumer's method. *)
Definition on_lexer {A} (f : TLexer → Result (TLexer * A)) (p : TParser) : Result (TParser * A) :=
  '(l, a) ← f (Lexer p); Ok (set_Lexer p l, a).
Definition skip1 (p : TParser) : TParser := set_Lexer p (advance 1 (Lexer p)).
Definition emit (ev : TYsonEvent) (p : TParser) : Result TParser :=
  '(c, stop) ← OnEvent ev (Consumer p);
  Ok {| Lexer := Lexer p; NestingLevel := NestingLevel p; Stopped := Stopped p || stop; Consumer := c |}.

(** [ReadNumeric<AllowFinish>]. *)
Definition ParseNumeric (AllowFinish : bool) (p : TParser) : Result TParser :=
  '(p, (numericResult, valueBuffer)) ← on_lexer (ReadNumeric MemoryLimit AllowFinish) p;
  match numericResult with
  | NumericDouble =>
      match FromString_double valueBuffer with
      | Throw _ => Throw EBadLiteral
      | r => value ← r; emit (OnDoubleScalar value) p
      end
  | NumericInt64 =>
      match FromString_i64 valueBuffer with
      | Throw _ => Throw EBadLiteral
      | r => value ← r; emit (OnInt64Scalar value) p
      end
  | NumericUint64 =>
      match FromString_ui64 (take (length valueBuffer - 1) valueBuffer) with
      | Throw _ => Throw EBadLiteral
      | r => value ← r; emit (OnUint64Scalar value) p
      end
  end.

(** The cases of [ParseNode]'s [switch] that do not open a collection. *)
Definition ParseScalar (AllowFinish : bool) (ch : byte) (p : TParser) : Result TParser :=
  if Byte.eqb ch x22 then
    '(p, value) ← on_lexer (ReadQuotedString MemoryLimit) (skip1 p); emit (OnStringScalar value) p
  else if Byte.eqb ch StringMarker then
    '(p, value) ← on_lexer (ReadBinaryString MemoryLimit) (skip1 p); emit (OnStringScalar value) p
  else if Byte.eqb ch Int64Marker then
    '(p, value) ← on_lexer ReadBinaryInt64 (skip1 p); emit (OnInt64Scalar value) p
  else if Byte.eqb ch Uint64Marker then
    '(p, value) ← on_lexer ReadBinaryUint64 (skip1 p); emit (OnUint64Scalar value) p
  else if Byte.eqb ch DoubleMarker then
    '(p, value) ← on_lexer ReadBinaryDouble (skip1 p); emit (OnDoubleScalar value) p
  else if Byte.eqb ch FalseMarker then emit (OnBooleanScalar false) (skip1 p)
  else if Byte.eqb ch TrueMarker then emit (OnBooleanScalar true) (skip1 p)
  else if Byte.eqb ch EntitySymbol then emit OnEntity (skip1 p)
  else if isdigit ch || Byte.eqb ch "-" || Byte.eqb ch "+" then ParseNumeric AllowFinish p
  else if isalpha ch || Byte.eqb ch "_" then
    '(p, value) ← on_lexer (ReadUnquotedString MemoryLimit AllowFinish) p; emit (OnStringScalar value) p
  else if Byte.eqb ch "%" then
    '(p, ch) ← on_lexer (lift (GetChar AllowFinish)) (skip1 p);
    if Byte.eqb ch "t" || Byte.eqb ch "f" then
      '(p, value) ← on_lexer (ReadBoolean MemoryLimit AllowFinish) p; emit (OnBooleanScalar value) p
    else
      '(p, value) ← on_lexer (ReadNanOrInf MemoryLimit AllowFinish) p; emit (OnDoubleScalar value) p
  else if Byte.eqb ch EndSymbol then Throw EUnexpectedEndOfStream
  else Throw (EUnexpectedChar ch).

Definition ParseKey (ch : byte) (p : TParser) : Result TParser :=
  if Byte.eqb ch x22 then
    '(p, value) ← on_lexer (ReadQuotedString MemoryLimit) (skip1 p); emit (OnKeyedItem value) p
  else if Byte.eqb ch StringMarker then
    '(p, value) ← on_lexer (ReadBinaryString MemoryLimit) (skip1 p); emit (OnKeyedItem value) p
  else if isalpha ch || Byte.eqb ch "_" then
    '(p, value) ← on_lexer (ReadUnquotedString MemoryLimit false) p; emit (OnKeyedItem value) p
  else Throw (EUnexpectedChar ch).

(** [if (ch == ItemSeparatorSymbol) ... else if (ch != endSymbol) throw] at the end of
    both fragment loops. *)
Definition ParseSeparator (AllowFinish : bool) (endSymbol ch : byte) (p : TParser) : Result (TParser * byte) :=
  if Byte.eqb ch ItemSeparatorSymbol then on_lexer (SkipSpaceAndGetChar AllowFinish) (skip1 p)
  else if negb (Byte.eqb ch endSymbol) then Throw (EExpectedChar endSymbol ch)
  else Ok (p, ch).

(** [SkipCharToken(symbol)] and the closing event of a collection. *)
Definition CloseCollection (symbol : byte) (ev : TYsonEvent) (p : TParser) : Result TParser :=
  l ← SkipCharToken symbol (Lexer p); emit ev (set_Lexer p l).

Fixpoint ParseNode (fuel : nat) (AllowFinish : bool) (ch : byte) (p : TParser) : Result TParser :=
  match fuel with
  | O => OutOfFuel
  | S fuel =>
      if NestingLevel p >=? NestingLevelLimit then Throw EDepthLimitExceeded
      else
        let level := NestingLevel p in
        let p := set_NestingLevel p (level + 1) in
        p ← (if Byte.eqb ch BeginAttributesSymbol then
               p ← ParseAttributes fuel (skip1 p);
               if Stopped p then Ok p
               else
                 '(p, ch) ← on_lexer (SkipSpaceAndGetChar false) p;
                 ParseValue fuel AllowFinish ch p
             else ParseValue fuel AllowFinish ch p);
        Ok (set_NestingLevel p (NestingLevel p - 1))
  end
with ParseValue (fuel : nat) (AllowFinish : bool) (ch : byte) (p : TParser) : Result TParser :=
  match fuel with
  | O => OutOfFuel
  | S fuel =>
      if Byte.eqb ch BeginMapSymbol then ParseMap fuel (skip1 p)
      else if Byte.eqb ch BeginListSymbol then ParseList fuel (skip1 p)
      else ParseScalar AllowFinish ch p
  end
with ParseAttributes (fuel : nat) (p : TParser) : Result TParser :=
  match fuel with
  | O => OutOfFuel
  | S fuel =>
      p ← emit OnBeginAttributes p;
      if Stopped p then Ok p
      else
        '(p, ch) ← on_lexer (SkipSpaceAndGetChar false) p;
        p ← map_loop fuel false EndAttributesSymbol ch p;
        if Stopped p then Ok p else CloseCollection EndAttributesSymbol OnEndAttributes p
  end
with ParseMap (fuel : nat) (p : TParser) : Result TParser :=
  match fuel with
  | O => OutOfFuel
  | S fuel =>
      p ← emit OnBeginMap p;
      if Stopped p then Ok p
      else
        '(p, ch) ← on_lexer (SkipSpaceAndGetChar false) p;
        p ← map_loop fuel false EndMapSymbol ch p;
        if Stopped p then Ok p else CloseCollection EndMapSymbol OnEndMap p
  end
with ParseList (fuel : nat) (p : TParser) : Result TParser :=
  match fuel with
  | O => OutOfFuel
  | S fuel =>
      p ← emit OnBeginList p;
      if Stopped p then Ok p
      else
        '(p, ch) ← on_lexer (SkipSpaceAndGetChar false) p;
        p ← list_loop fuel false EndListSymbol ch p;
        if Stopped p then Ok p else CloseCollection EndListSymbol OnEndList p
  end
(** The loops [while (ch != endSymbol)] of [ParseMapFragment] and [ParseListFragment]. *)
with map_loop (fuel : nat) (AllowFinish : bool) (endSymbol ch : byte) (p : TParser) : Result TParser :=
  match fuel with
  | O => OutOfFuel
  | S fuel =>
      if Byte.eqb ch endSymbol then Ok p
      else
        p ← ParseKey ch p;
        if Stopped p then Ok p
        else
          '(p, ch) ← on_lexer (SkipSpaceAndGetChar AllowFinish) p;
          if negb (Byte.eqb ch KeyValueSeparatorSymbol) then Throw (EExpectedChar KeyValueSeparatorSymbol ch)
          else
            '(p, ch) ← on_lexer (SkipSpaceAndGetChar false) (skip1 p);
            p ← ParseNode fuel AllowFinish ch p;
            if Stopped p then Ok p
            else
              '(p, ch) ← on_lexer (SkipSpaceAndGetChar AllowFinish) p;
              '(p, ch) ← ParseSeparator AllowFinish endSymbol ch p;
              map_loop fuel AllowFinish endSymbol ch p
  end
with list_loop (fuel : nat) (AllowFinish : bool) (endSymbol ch : byte) (p : TParser) : Result TParser :=
  match fuel with
  | O => OutOfFuel
  | S fuel =>
      if Byte.eqb ch endSymbol then Ok p
      else
        p ← emit OnListItem p;
        if Stopped p then Ok p
        else
          p ← ParseNode fuel AllowFinish ch p;
          if Stopped p then Ok p
          else
            '(p, ch) ← on_lexer (SkipSpaceAndGetChar AllowFinish) p;
            '(p, ch) ← ParseSeparator AllowFinish endSymbol ch p;
            list_loop fuel AllowFinish endSymbol ch p
  end.

Definition parser_fuel (p : TParser) : nat := 8 + 4 * stream_size (Stream (Lexer p)).

Definition ParseMapFragment (AllowFinish : bool) (endSymbol : byte) (p : TParser) : Result TParser :=
  let fuel := parser_fuel p in
  '(p, ch) ← on_lexer (SkipSpaceAndGetChar AllowFinish) p;
  map_loop fuel AllowFinish endSymbol ch p.

Definition ParseListFragment (AllowFinish : bool) (endSymbol : byte) (p : TParser) : Result TParser :=
  let fuel := parser_fuel p in
  '(p, ch) ← on_lexer (SkipSpaceAndGetChar AllowFinish) p;
  list_loop fuel AllowFinish endSymbol ch p.

(** The loop of [DoParse] that accepts white space (and NUL) behind the document. *)
Fixpoint trailing_loop (fuel : nat) (l : TLexer) : Result TLexer :=
  match fuel with
  | O => OutOfFuel
  | S fuel =>
      if IsFinished (Stream l) && IsEmpty (Stream l) then Ok l
      else
        '(l, ch) ← SkipSpaceAndGetChar true l;
        if negb (Byte.eqb ch EndSymbol) then
          character ← Deref (Stream l); Throw (EStrayChar character)
        else if negb (IsEmpty (Stream l)) then trailing_loop fuel (advance 1 l)
        else trailing_loop fuel l
  end.

Definition DoParse (parsingMode : EYsonType) (p : TParser) : Result TParser :=
  let p := {| Lexer := Lexer p; NestingLevel := NestingLevel p; Stopped := false; Consumer := Consumer p |} in
  let fuel := parser_fuel p in
  p ← match parsingMode with
      | YsonNode =>
          '(p, ch) ← on_lexer (SkipSpaceAndGetChar false) p;
          ParseNode fuel true ch p
      | YsonListFragment => ParseListFragment true EndSymbol p
      | YsonMapFragment => ParseMapFragment true EndSymbol p
      end;
  if Stopped p then Ok p
  else
    l ← trailing_loop (2 + stream_fuel (Lexer p)) (Lexer p);
    Ok (set_Lexer p l).

(** [TParser(blockStream, consumer, memoryLimit, nestingLevelLimit)]. *)
Definition NewParser (s : TStream) (c : C) : TParser :=
  {| Lexer := NewLexer s; NestingLevel := 0; Stopped := false; Consumer := c |}.
End TParser.
Arguments TParser : clear implicits.
Arguments Lexer {C} _.
Arguments NestingLevel {C} _.
Arguments Stopped {C} _.
Arguments Consumer {C} _.

(** ** The parser returns or throws on every input *)

(** A consumer whose methods return or throw; likewise for a conversion. *)
Definition total_consumer {C} (O : IYsonConsumer C) : Prop :=
  ∀ ev c, match O ev c with Ok _ | Throw _ => True | _ => False end.
Definition total_conversion {A T} (f : A → Result T) : Prop :=
  ∀ x, match f x with Ok _ | Throw _ => True | _ => False end.

Section Totality.
Context {C : Type} `{O : IYsonConsumer C} (HO : total_consumer O).
Context (fd : list byte → Result Z) (Hfd : total_conversion fd).
Context (ML NL : Z).

#[local] Abbreviation size p := (stream_size (Stream (Lexer p))).

Definition pready (p : TParser C) : Prop := ready ML (Lexer p).
Definition ptotal (p : TParser C) (r : Result (TParser C)) : Prop :=
  match r with Ok p' => pready p' ∧ (size p' <= size p)%nat | Throw _ => True | _ => False end.
Definition ptotal2 {A} (p : TParser C) (r : Result (TParser C * A)) (Q : TParser C → A → Prop) : Prop :=
  match r with Ok (p', a) => pready p' ∧ (size p' <= size p)%nat ∧ Q p' a | Throw _ => True | _ => False end.

Lemma ptotal_mono p p' r : (size p' <= size p)%nat → ptotal p' r → ptotal p r.
Proof. intros Hs. destruct r as [p2| | |]; simpl; try done. intros [? ?]. split; [done|lia]. Qed.

Lemma ptotal_bind p r k : ptotal p r → (∀ p', pready p' → (size p' <= size p)%nat → ptotal p' (k p')) →
  ptotal p (r ≫= k).
Proof.
  intros Hr Hk. destruct r as [p'| | |]; simpl in *; try done. destruct Hr as [? ?].
  eapply ptotal_mono; [|by apply Hk]. done.
Qed.

Lemma ptotal2_bind {A} p (r : Result (TParser C * A)) k Q : ptotal2 p r Q →
  (∀ p' a, pready p' → (size p' <= size p)%nat → Q p' a → ptotal p' (k (p', a))) → ptotal p (r ≫= k).
Proof.
  intros Hr Hk. destruct r as [[p' a]| | |]; simpl in *; try done. destruct Hr as (? & ? & ?).
  eapply ptotal_mono; [|by apply Hk]. done.
Qed.

Lemma on_lexer_total {A} (f : TLexer → Result (TLexer * A)) Q p :
  safe ML (Lexer p) (f (Lexer p)) Q → ptotal2 p (on_lexer f p) (λ p' a, Q (Lexer p') a).
Proof.
  unfold on_lexer. destruct (f (Lexer p)) as [[l a]| | |]; simpl; try done. intros [[? ?] ?]. by split_and!.
Qed.

Lemma emit_total ev p : pready p → ptotal p (emit ev p).
Proof.
  intros Hp. unfold emit. specialize (HO ev (Consumer p)). unfold OnEvent.
  destruct (O ev (Consumer p)) as [[c stop]| | |]; simpl; try done.
Qed.

Lemma skip1_total c p : pready p → peeked (Lexer p) c → c ≠ x00 →
  pready (skip1 p) ∧ (size (skip1 p) + 1 = size p)%nat.
Proof.
  intros [Hp Hb] Hc Hne. destruct (Hc Hne) as [b Hblk].
  pose proof (Advance_safe 1 (Stream (Lexer p)) Hp) as Ha. rewrite Hblk in Ha.
  destruct Ha as [? ?]; [simpl; lia|]. split; [by split|done].
Qed.

Lemma eqb_neq_nul ch c : Byte.eqb ch c = true → c ≠ x00 → ch ≠ x00.
Proof. by intros ->%byte_dec_bl. Qed.

(** [Advance(1)], a lexer routine, and an event with what it read. *)
Lemma token_total {A} (f : TLexer → Result (TLexer * A)) Q (ev : A → TYsonEvent) p :
  pready p → (∀ l, ready ML l → safe ML l (f l) Q) →
  ptotal p ('(p, value) ← on_lexer f p; emit (ev value) p).
Proof.
  intros Hp Hf. eapply ptotal2_bind; [by apply on_lexer_total, Hf|].
  intros p' a Hp' _ _. by apply emit_total.
Qed.

Lemma skipped_token_total {A} (f : TLexer → Result (TLexer * A)) Q (ev : A → TYsonEvent) c p :
  pready p → peeked (Lexer p) c → c ≠ x00 → (∀ l, ready ML l → safe ML l (f l) Q) →
  ptotal p ('(p, value) ← on_lexer f (skip1 p); emit (ev value) p).
Proof.
  intros Hp Hc Hne Hf. destruct (skip1_total c p Hp Hc Hne) as [Hp' Hs].
  eapply ptotal_mono; [|by eapply token_total]. lia.
Qed.

Lemma skipped_emit_total ev c p : pready p → peeked (Lexer p) c → c ≠ x00 → ptotal p (emit ev (skip1 p)).
Proof.
  intros Hp Hc Hne. destruct (skip1_total c p Hp Hc Hne) as [Hp' Hs].
  eapply ptotal_mono; [|by apply emit_total]. lia.
Qed.

Lemma FromString_total f ds : f = FromString_i64 ∨ f = FromString_ui64 →
  match f ds with Ok _ | Throw _ => True | _ => False end.
Proof.
  intros [->| ->]; [destruct (ParseInt_total true 10 llSBounds ds) as [E|E]
    |destruct (ParseInt_total false 10 llUBounds ds) as [E|E]];
    unfold FromString_i64, FromString_ui64; destruct (ParseInt _ _ _ ds); done.
Qed.

Lemma ParseNumeric_total a p : pready p → ptotal p (ParseNumeric fd ML a p).
Proof.
  intros Hp. eapply ptotal2_bind; [by apply on_lexer_total, ReadNumeric_safe|].
  intros p' [r v] Hp' _ _. destruct r.
  - pose proof (FromString_total FromString_i64 v (or_introl eq_refl)).
    destruct (FromString_i64 v); try done. by apply emit_total.
  - pose proof (FromString_total FromString_ui64 (take (length v - 1) v) (or_intror eq_refl)).
    destruct (FromString_ui64 _); try done. by apply emit_total.
  - specialize (Hfd v). destruct (fd v); try done. by apply emit_total.
Qed.

Lemma ParseScalar_total a ch p : pready p → peeked (Lexer p) ch → ptotal p (ParseScalar fd ML a ch p).
Proof.
  intros Hp Hc. unfold ParseScalar.
  destruct (Byte.eqb ch x22) eqn:E1; [eapply skipped_token_total; [done|done|by eapply eqb_neq_nul|by apply ReadQuotedString_safe]|].
  destruct (Byte.eqb ch StringMarker) eqn:E2; [eapply skipped_token_total; [done|done|by eapply eqb_neq_nul|by apply ReadBinaryString_safe]|].
  destruct (Byte.eqb ch Int64Marker) eqn:E3; [eapply skipped_token_total; [done|done|by eapply eqb_neq_nul|by apply ReadBinaryInt64_safe]|].
  destruct (Byte.eqb ch Uint64Marker) eqn:E4; [eapply skipped_token_total; [done|done|by eapply eqb_neq_nul|by apply ReadBinaryUint64_safe]|].
  destruct (Byte.eqb ch DoubleMarker) eqn:E5; [eapply skipped_token_total; [done|done|by eapply eqb_neq_nul|by apply ReadBinaryDouble_safe]|].
  destruct (Byte.eqb ch FalseMarker) eqn:E6; [eapply skipped_emit_total; [done|done|by eapply eqb_neq_nul]|].
  destruct (Byte.eqb ch TrueMarker) eqn:E7; [eapply skipped_emit_total; [done|done|by eapply eqb_neq_nul]|].
  destruct (Byte.eqb ch EntitySymbol) eqn:E8; [eapply skipped_emit_total; [done|done|by eapply eqb_neq_nul]|].
  destruct (isdigit ch || _ || _); [by apply ParseNumeric_total|].
  destruct (isalpha ch || _); [eapply token_total; [done|by apply ReadUnquotedString_safe]|].
  destruct (Byte.eqb ch "%") eqn:E9; [|by destruct (Byte.eqb ch EndSymbol)].
  destruct (skip1_total ch p Hp Hc (eqb_neq_nul _ _ E9 ltac:(done))) as [Hp' Hs].
  eapply ptotal_mono; [|eapply ptotal2_bind; [by apply on_lexer_total, lift_GetChar_safe|]]; [lia|].
  intros p2 ch2 Hp2 _ _. destruct (Byte.eqb ch2 "t" || _).
  - eapply token_total; [done|by apply ReadBoolean_safe].
  - eapply token_total; [done|by apply ReadNanOrInf_safe].
Qed.

Lemma ParseKey_total ch p : pready p → peeked (Lexer p) ch → ptotal p (ParseKey ML ch p).
Proof.
  intros Hp Hc. unfold ParseKey.
  destruct (Byte.eqb ch x22) eqn:E1; [eapply skipped_token_total; [done|done|by eapply eqb_neq_nul|by apply ReadQuotedString_safe]|].
  destruct (Byte.eqb ch StringMarker) eqn:E2; [eapply skipped_token_total; [done|done|by eapply eqb_neq_nul|by apply ReadBinaryString_safe]|].
  destruct (isalpha ch || _); [eapply token_total; [done|by apply ReadUnquotedString_safe]|done].
Qed.

Lemma skip_space_total a p : pready p →
  ptotal2 p (on_lexer (SkipSpaceAndGetChar a) p) (λ p' ch, peeked (Lexer p') ch).
Proof. intros Hp. by apply on_lexer_total, SkipSpaceAndGetChar_safe. Qed.

(** Behind a separator the stream is strictly shorter; otherwise the loop stops. *)
Lemma ParseSeparator_total a e ch p : pready p → peeked (Lexer p) ch →
  ptotal2 p (ParseSeparator a e ch p) (λ p' ch', peeked (Lexer p') ch' ∧ (ch' = e ∨ (size p' < size p)%nat)).
Proof.
  intros Hp Hc. unfold ParseSeparator. destruct (Byte.eqb ch ItemSeparatorSymbol) eqn:E.
  - destruct (skip1_total ch p Hp Hc (eqb_neq_nul _ _ E ltac:(done))) as [Hp' Hs].
    pose proof (skip_space_total a (skip1 p) Hp') as H.
    destruct (on_lexer _ (skip1 p)) as [[p2 c2]| | |]; simpl in *; try done.
    destruct H as (? & ? & ?). split_and!; [done|lia|done|]. right. lia.
  - destruct (Byte.eqb ch e) eqn:E2; [|done]. apply byte_dec_bl in E2 as ->. simpl. split_and!; [done|done|done|by left].
Qed.

Lemma CloseCollection_total c ev p : c ≠ x00 → pready p → ptotal p (CloseCollection c ev p).
Proof.
  intros Hc Hp. unfold CloseCollection. pose proof (SkipCharToken_safe ML c _ Hc Hp) as H.
  destruct (SkipCharToken c (Lexer p)) as [l| | |]; simpl in *; try done. destruct H as [? ?].
  eapply ptotal_mono; [|by apply emit_total]. done.
Qed.

#[local] Abbreviation ParseNode := (ParseNode fd ML NL).
#[local] Abbreviation ParseValue := (ParseValue fd ML NL).
#[local] Abbreviation map_loop := (map_loop fd ML NL).
#[local] Abbreviation list_loop := (list_loop fd ML NL).

(** What the fuel must cover, by routine; a routine that opens a collection has
    consumed its opening character. *)
Definition parse_total (fuel : nat) : Prop :=
  (∀ a ch p, pready p → peeked (Lexer p) ch → (4 * size p + 2 <= fuel)%nat → ptotal p (ParseNode fuel a ch p)) ∧
  (∀ a ch p, pready p → peeked (Lexer p) ch → (4 * size p + 1 <= fuel)%nat → ptotal p (ParseValue fuel a ch p)) ∧
  (∀ p, pready p → (4 * size p + 4 <= fuel)%nat → ptotal p (ParseAttributes fd ML NL fuel p)) ∧
  (∀ p, pready p → (4 * size p + 4 <= fuel)%nat → ptotal p (ParseMap fd ML NL fuel p)) ∧
  (∀ p, pready p → (4 * size p + 4 <= fuel)%nat → ptotal p (ParseList fd ML NL fuel p)) ∧
  (∀ a e ch p, pready p → peeked (Lexer p) ch → (4 * size p + 3 <= fuel)%nat → ptotal p (map_loop fuel a e ch p)) ∧
  (∀ a e ch p, pready p → peeked (Lexer p) ch → (4 * size p + 3 <= fuel)%nat → ptotal p (list_loop fuel a e ch p)).

Lemma loop_stop_map fuel a ch p : (1 <= fuel)%nat → map_loop fuel a ch ch p = Ok p.
Proof. destruct fuel; [lia|]. intros _. simpl. by rewrite byte_dec_lb. Qed.

Lemma loop_stop_list fuel a ch p : (1 <= fuel)%nat → list_loop fuel a ch ch p = Ok p.
Proof. destruct fuel; [lia|]. intros _. simpl. by rewrite byte_dec_lb. Qed.

(** The common end of both loops: a separator, then the next round. *)
Lemma next_round_total fuel a e p (loop : byte → TParser C → Result (TParser C)) :
  pready p → (4 * size p + 3 <= S fuel)%nat →
  (∀ p', loop e p' = Ok p') →
  (∀ ch p', pready p' → peeked (Lexer p') ch → (4 * size p' + 3 <= fuel)%nat → ptotal p' (loop ch p')) →
  ptotal p ('(p, ch) ← on_lexer (SkipSpaceAndGetChar a) p;
            '(p, ch) ← ParseSeparator a e ch p;
            loop ch p).
Proof.
  intros Hp Hf Hstop Hgo. eapply ptotal2_bind; [by apply skip_space_total|].
  intros p1 ch1 Hp1 Hs1 Hc1. eapply ptotal2_bind; [by apply ParseSeparator_total|].
  intros p2 ch2 Hp2 Hs2 [Hc2 [->|Hlt]]; [rewrite Hstop; by split|]. apply Hgo; [done|done|lia].
Qed.

Lemma map_loop_total fuel : parse_total fuel → ∀ a e ch p, pready p → peeked (Lexer p) ch →
  (4 * size p + 3 <= S fuel)%nat → ptotal p (map_loop (S fuel) a e ch p).
Proof.
  intros (HN & _ & _ & _ & _ & HM & _) a e ch p Hp Hc Hf. cbn [YsonParser.map_loop].
  destruct (Byte.eqb ch e); [by split|].
  eapply ptotal_bind; [by apply ParseKey_total|]. intros p1 Hp1 Hs1. destruct (Stopped p1); [by split|].
  eapply ptotal2_bind; [by apply skip_space_total|]. intros p2 ch2 Hp2 Hs2 Hc2.
  destruct (Byte.eqb ch2 KeyValueSeparatorSymbol) eqn:E; [|done]. cbn [negb].
  destruct (skip1_total ch2 p2 Hp2 Hc2 (eqb_neq_nul _ _ E ltac:(done))) as [Hp3 Hs3].
  eapply ptotal_mono; [|eapply ptotal2_bind; [by apply skip_space_total|]]; [lia|].
  intros p4 ch4 Hp4 Hs4 Hc4.
  eapply ptotal_bind; [apply HN; [done|done|lia]|]. intros p5 Hp5 Hs5. destruct (Stopped p5); [by split|].
  apply (next_round_total fuel a e p5 (map_loop fuel a e)); [done|lia| |by intros; apply HM].
  intros p'. apply loop_stop_map. lia.
Qed.

Lemma list_loop_total fuel : parse_total fuel → ∀ a e ch p, pready p → peeked (Lexer p) ch →
  (4 * size p + 3 <= S fuel)%nat → ptotal p (list_loop (S fuel) a e ch p).
Proof.
  intros (HN & _ & _ & _ & _ & _ & HL) a e ch p Hp Hc Hf. cbn [YsonParser.list_loop].
  destruct (Byte.eqb ch e); [by split|].
  pose proof (emit_total OnListItem p Hp) as He.
  assert (∀ p1, emit OnListItem p = Ok p1 → Lexer p1 = Lexer p) as Hlex.
  { unfold emit. intros p1 (x & _ & H1)%bind_ok. destruct x. by simplify_eq. }
  destruct (emit OnListItem p) as [p1| | |]; try done. destruct He as [Hp1 Hs1]. run_bind.
  specialize (Hlex p1 eq_refl). destruct (Stopped p1); [by split|].
  eapply ptotal_mono; [exact Hs1|].
  eapply ptotal_bind; [apply HN; [done|by rewrite Hlex|lia]|]. intros p5 Hp5 Hs5. destruct (Stopped p5); [by split|].
  apply (next_round_total fuel a e p5 (list_loop fuel a e)); [done|lia| |by intros; apply HL].
  intros p'. apply loop_stop_list. lia.
Qed.

(** A collection: its opening event, the loop, the closing symbol and event. *)
Lemma collection_total fuel p c ev1 ev2 (loop : byte → TParser C → Result (TParser C)) :
  pready p → c ≠ x00 → (4 * size p + 4 <= S fuel)%nat →
  (∀ ch p', pready p' → peeked (Lexer p') ch → (4 * size p' + 3 <= fuel)%nat → ptotal p' (loop ch p')) →
  ptotal p (p ← emit ev1 p;
            if Stopped p then Ok p
            else '(p, ch) ← on_lexer (SkipSpaceAndGetChar false) p;
                 p ← loop ch p;
                 if Stopped p then Ok p else CloseCollection c ev2 p).
Proof.
  intros Hp Hc Hf Hloop. eapply ptotal_bind; [by apply emit_total|]. intros p1 Hp1 Hs1.
  destruct (Stopped p1); [by split|]. eapply ptotal2_bind; [by apply skip_space_total|].
  intros p2 ch2 Hp2 Hs2 Hc2. eapply ptotal_bind; [apply Hloop; [done|done|lia]|].
  intros p3 Hp3 Hs3. destruct (Stopped p3); [by split|]. by apply CloseCollection_total.
Qed.

Lemma ParseValue_total fuel : parse_total fuel → ∀ a ch p, pready p → peeked (Lexer p) ch →
  (4 * size p + 1 <= S fuel)%nat → ptotal p (ParseValue (S fuel) a ch p).
Proof.
  intros (_ & _ & _ & HM & HL & _) a ch p Hp Hc Hf. cbn [YsonParser.ParseValue].
  destruct (Byte.eqb ch BeginMapSymbol) eqn:E1.
  { destruct (skip1_total ch p Hp Hc (eqb_neq_nul _ _ E1 ltac:(done))) as [Hp1 Hs1].
    eapply ptotal_mono; [|apply HM; [done|lia]]. lia. }
  destruct (Byte.eqb ch BeginListSymbol) eqn:E2; [|by apply ParseScalar_total].
  destruct (skip1_total ch p Hp Hc (eqb_neq_nul _ _ E2 ltac:(done))) as [Hp1 Hs1].
  eapply ptotal_mono; [|apply HL; [done|lia]]. lia.
Qed.

Lemma ParseNode_total fuel : parse_total fuel → ∀ a ch p, pready p → peeked (Lexer p) ch →
  (4 * size p + 2 <= S fuel)%nat → ptotal p (ParseNode (S fuel) a ch p).
Proof.
  intros (_ & HV & HA & _) a ch p Hp Hc Hf. cbn [YsonParser.ParseNode].
  destruct (_ >=? _); [done|]. cbv zeta.
  set (p0 := set_NestingLevel p _).
  assert (ptotal p0 (if Byte.eqb ch BeginAttributesSymbol then
      p ← ParseAttributes fd ML NL fuel (skip1 p0);
      if Stopped p then Ok p
      else '(p, ch) ← on_lexer (SkipSpaceAndGetChar false) p; ParseValue fuel a ch p
    else ParseValue fuel a ch p0)) as Hbody.
  { destruct (Byte.eqb ch BeginAttributesSymbol) eqn:E; [|apply HV; [done|done|simpl; lia]].
    destruct (skip1_total ch p0 Hp Hc (eqb_neq_nul _ _ E ltac:(done))) as [Hp1 Hs1].
    assert (size p0 = size p) as Hs0 by done.
    eapply ptotal_mono; [|eapply ptotal_bind; [apply HA; [done|lia]|]]; [lia|].
    intros p2 Hp2 Hs2. destruct (Stopped p2); [by split|].
    eapply ptotal2_bind; [by apply skip_space_total|]. intros p3 ch3 Hp3 Hs3 Hc3. apply HV; [done|done|lia]. }
  destruct (if Byte.eqb ch BeginAttributesSymbol then _ else _) as [p1| | |]; simpl in *; done.
Qed.

Lemma parse_total_all fuel : parse_total fuel.
Proof.
  induction fuel as [|fuel IH]; [unfold parse_total; split_and!; intros; lia|].
  unfold parse_total. split_and!.
  - by apply ParseNode_total.
  - by apply ParseValue_total.
  - intros p Hp Hf. cbn [ParseAttributes].
    apply (collection_total fuel p EndAttributesSymbol _ _ (map_loop fuel false EndAttributesSymbol)); [done|done|lia|].
    intros. by apply IH.
  - intros p Hp Hf. cbn [ParseMap].
    apply (collection_total fuel p EndMapSymbol _ _ (map_loop fuel false EndMapSymbol)); [done|done|lia|].
    intros. by apply IH.
  - intros p Hp Hf. cbn [ParseList].
    apply (collection_total fuel p EndListSymbol _ _ (list_loop fuel false EndListSymbol)); [done|done|lia|].
    intros. by apply IH.
  - by apply map_loop_total.
  - by apply list_loop_total.
Qed.

Lemma trailing_loop_total fuel l : ready ML l → (stream_size (Stream l) + 2 <= fuel)%nat →
  match trailing_loop fuel l with Ok l' => ready ML l' | Throw _ => True | _ => False end.
Proof.
  revert l. induction fuel as [|fuel IH]; intros l Hl Hf; [lia|]. cbn [trailing_loop].
  destruct (IsFinished (Stream l) && IsEmpty (Stream l)) eqn:E; [done|].
  pose proof (SkipSpaceAndGetChar_safe ML true l Hl) as Hs.
  pose proof (SkipSpaceAndGetChar_finished true l) as Hfin.
  destruct (SkipSpaceAndGetChar true l) as [[l1 c]| | |]; try done. destruct Hs as [[Hl1 Hs1] Hc].
  run_bind. destruct (Byte.eqb c EndSymbol) eqn:Ec; cbn [negb].
  - destruct (IsEmpty (Stream l1)) eqn:Ee; cbn [negb].
    + destruct fuel as [|fuel]; [lia|]. cbn [trailing_loop]. by rewrite (Hfin _ _ eq_refl Ee), Ee.
    + destruct (IsEmpty_false _ _ (conj (proj1 Hl1) eq_refl) Ee) as (x & b & Hb & _).
      pose proof (Advance_safe 1 (Stream l1) (proj1 Hl1)) as Ha. rewrite Hb in Ha.
      destruct Ha as [? ?]; [simpl; lia|]. apply IH; [split; [done|apply Hl1]|simpl in *; lia].
  - destruct (Hc) as [b Hb]; [intros ->; by rewrite byte_dec_lb in Ec|]. unfold Deref. by rewrite Hb.
Qed.

Lemma DoParse_ok mode p : pready p →
  match DoParse fd ML NL mode p with Ok p' => pready p' | Throw _ => True | _ => False end.
Proof.
  intros Hp. unfold DoParse. cbv zeta. set (p0 := Build_TParser _ _ _ _).
  assert (ptotal p0 (match mode with
    | YsonNode => '(p, ch) ← on_lexer (SkipSpaceAndGetChar false) p0; ParseNode (parser_fuel p0) true ch p
    | YsonListFragment => ParseListFragment fd ML NL true EndSymbol p0
    | YsonMapFragment => ParseMapFragment fd ML NL true EndSymbol p0 end)) as Hmode.
  { destruct mode; (eapply ptotal2_bind; [by apply skip_space_total|]); intros p1 ch1 Hp1 Hs1 Hc1;
      apply parse_total_all; (done || unfold parser_fuel; lia). }
  destruct (match mode with YsonNode => _ | _ => _ end) as [p1| | |]; try done.
  run_bind. destruct Hmode as [Hp1 _]. destruct (Stopped p1); [done|].
  pose proof (trailing_loop_total (2 + stream_fuel (Lexer p1)) (Lexer p1) Hp1) as Ht.
  assert (stream_size (Stream (Lexer p1)) + 2 <= 2 + stream_fuel (Lexer p1))%nat as Hf
    by (unfold stream_fuel; lia).
  specialize (Ht Hf). by destruct (trailing_loop _ (Lexer p1)).
Qed.
End Totality.

(** ** What the parser tells its consumer *)

Section Soundness.
Context {C : Type} `{O : IYsonConsumer C}.
Context (fd : list byte → Result Z) (ML NL : Z).

(** [p'] differs from [p] in the lexer only. *)
Definition same (p p' : TParser C) : Prop :=
  Consumer p' = Consumer p ∧ Stopped p' = Stopped p ∧ NestingLevel p' = NestingLevel p.

(** From [p] to [p'] the consumer was fed [evs], up to the event that stopped it;
    when it did not stop, [P] holds. *)
Definition fed (evs : list TYsonEvent) (p p' : TParser C) (P : Prop) : Prop :=
  feed evs (Consumer p) = Ok (Consumer p', Stopped p') ∧ NestingLevel p' = NestingLevel p ∧
  (Stopped p' = false → P).

Lemma on_lexer_same {A} (f : TLexer → Result (TLexer * A)) p p' a : on_lexer f p = Ok (p', a) → same p p'.
Proof. unfold on_lexer. intros ([l x] & _ & H)%bind_ok. by simplify_eq. Qed.

Lemma skip1_same p : same p (skip1 p).
Proof. done. Qed.

Lemma same_trans p1 p2 p3 : same p1 p2 → same p2 p3 → same p1 p3.
Proof. unfold same. intros (-> & -> & ->) (-> & -> & ->). done. Qed.

Lemma emit_fed ev p p' : Stopped p = false → emit ev p = Ok p' → fed [ev] p p' True.
Proof.
  intros Hs. unfold emit, fed. intros ([c stop] & Ho & H)%bind_ok. simplify_eq/=. rewrite Ho, Hs. simpl.
  split; [by destruct stop|done].
Qed.

Lemma fed_same evs p p1 p' P : same p p1 → fed evs p1 p' P → fed evs p p' P.
Proof. unfold fed. intros (-> & _ & ->). done. Qed.

Lemma fed_weaken evs p p' P (Q : Prop) : fed evs p p' P → (Stopped p' = false → P → Q) → fed evs p p' Q.
Proof. intros (? & ? & HP) HQ. split_and!; [done|done|]. intros Hs. by apply HQ, HP. Qed.

Lemma fed_stopped evs evs' p p' P Q : fed evs p p' P → Stopped p' = true → fed (evs ++ evs') p p' Q.
Proof.
  intros (Hf & Hn & _) Hs. rewrite Hs in Hf. split_and!; [|done|congruence].
  rewrite feed_app, Hf, Hs. done.
Qed.

Lemma fed_app evs evs' p p1 p' P Q : fed evs p p1 P → Stopped p1 = false → fed evs' p1 p' Q →
  fed (evs ++ evs') p p' (P ∧ Q).
Proof.
  intros (Hf & Hn & HP) Hs (Hf' & Hn' & HQ). rewrite Hs in Hf. split_and!; [|congruence|auto].
  by rewrite feed_app, Hf.
Qed.

Lemma token_fed {A} (f : TLexer → Result (TLexer * A)) (ev : A → TYsonEvent) p p' : Stopped p = false →
  ('(p, value) ← on_lexer f p; emit (ev value) p) = Ok p' → ∃ a, fed [ev a] p p' True.
Proof.
  intros Hs ([p1 a] & H1 & H2)%bind_ok. apply on_lexer_same in H1. exists a.
  eapply fed_same; [done|]. eapply emit_fed; [|done]. destruct H1 as (_ & -> & _). done.
Qed.

Definition is_scalar (v : TValue) : bool := match v with VList _ | VMap _ => false | _ => true end.

Lemma ParseNumeric_fed a p p' : Stopped p = false → ParseNumeric fd ML a p = Ok p' →
  ∃ v, is_scalar v = true ∧ fed (value_events v) p p' True.
Proof.
  intros Hs. unfold ParseNumeric. intros ([p1 [r t]] & H1 & H2)%bind_ok. apply on_lexer_same in H1.
  assert (Stopped p1 = false) as Hs1 by by destruct H1 as (_ & -> & _).
  destruct r.
  - destruct (FromString_i64 t) as [z| | |]; simpl in H2; try done. exists (VInt64 z).
    split; [done|]. eapply fed_same; [done|]. by apply emit_fed.
  - destruct (FromString_ui64 _) as [z| | |]; simpl in H2; try done. exists (VUint64 z).
    split; [done|]. eapply fed_same; [done|]. by apply emit_fed.
  - destruct (fd t) as [z| | |]; simpl in H2; try done. exists (VDouble z).
    split; [done|]. eapply fed_same; [done|]. by apply emit_fed.
Qed.

Lemma ParseScalar_fed a ch p p' : Stopped p = false → ParseScalar fd ML a ch p = Ok p' →
  ∃ v, is_scalar v = true ∧ fed (value_events v) p p' True.
Proof.
  intros Hs. unfold ParseScalar.
  case_match; [intros [s ?]%token_fed; [by exists (VString s)|done]|].
  case_match; [intros [s ?]%token_fed; [by exists (VString s)|done]|].
  case_match; [intros [z ?]%token_fed; [by exists (VInt64 z)|done]|].
  case_match; [intros [z ?]%token_fed; [by exists (VUint64 z)|done]|].
  case_match; [intros [z ?]%token_fed; [by exists (VDouble z)|done]|].
  case_match; [intros ?%emit_fed; [by exists (VBoolean false)|done]|].
  case_match; [intros ?%emit_fed; [by exists (VBoolean true)|done]|].
  case_match; [intros ?%emit_fed; [by exists VEntity|done]|].
  case_match; [by apply ParseNumeric_fed|].
  case_match; [intros [s ?]%token_fed; [by exists (VString s)|done]|].
  case_match; [|by case_match].
  intros ([p1 c1] & Hlex & Htok)%bind_ok. apply on_lexer_same in Hlex.
  assert (Stopped p1 = false) as Hs1 by by destruct Hlex as (_ & -> & _).
  case_match; apply token_fed in Htok as [x Hx]; try done.
  - exists (VBoolean x). split; [done|]. by eapply fed_same.
  - exists (VDouble x). split; [done|]. by eapply fed_same.
Qed.

Lemma ParseKey_fed ch p p' : Stopped p = false → ParseKey ML ch p = Ok p' → ∃ key, fed [OnKeyedItem key] p p' True.
Proof.
  intros Hs. unfold ParseKey.
  repeat (case_match; [intros [s ?]%token_fed; [by exists s|done]|]). done.
Qed.

Definition depth_ok (p : TParser C) (d : nat) : Prop := d = 0%nat ∨ NestingLevel p + Z.of_nat d <= NL.

Definition parse_sound (fuel : nat) : Prop :=
  (∀ a ch p p', Stopped p = false → ParseNode fd ML NL fuel a ch p = Ok p' →
     ∃ n, fed (node_events n) p p' (depth_ok p (node_depth n))) ∧
  (∀ a ch p p', Stopped p = false → ParseValue fd ML NL fuel a ch p = Ok p' →
     ∃ v, fed (value_events v) p p' (depth_ok p (value_depth v))) ∧
  (∀ p p', Stopped p = false → ParseAttributes fd ML NL fuel p = Ok p' →
     ∃ items, fed (attribute_events (Some items)) p p' (depth_ok p (map_depth items))) ∧
  (∀ p p', Stopped p = false → ParseMap fd ML NL fuel p = Ok p' →
     ∃ items, fed (value_events (VMap items)) p p' (depth_ok p (map_depth items))) ∧
  (∀ p p', Stopped p = false → ParseList fd ML NL fuel p = Ok p' →
     ∃ items, fed (value_events (VList items)) p p' (depth_ok p (list_depth items))) ∧
  (∀ a e ch p p', Stopped p = false → map_loop fd ML NL fuel a e ch p = Ok p' →
     ∃ items, fed (map_events items) p p' (depth_ok p (map_depth items))) ∧
  (∀ a e ch p p', Stopped p = false → list_loop fd ML NL fuel a e ch p = Ok p' →
     ∃ items, fed (list_events items) p p' (depth_ok p (list_depth items))).

Lemma depth_ok_level p p' d : NestingLevel p' = NestingLevel p → depth_ok p' d → depth_ok p d.
Proof. unfold depth_ok. intros ->. done. Qed.

Lemma depth_ok_max p d1 d2 : depth_ok p d1 → depth_ok p d2 → depth_ok p (Nat.max d1 d2).
Proof. unfold depth_ok. lia. Qed.

Lemma ParseSeparator_same a e ch p p' ch' : ParseSeparator a e ch p = Ok (p', ch') → same p p'.
Proof.
  unfold ParseSeparator. case_match; [intros H'%on_lexer_same; exact H'|].
  case_match; [done|]. by intros [= <- <-].
Qed.

Lemma list_loop_fed fuel : parse_sound fuel → ∀ a e ch p p', Stopped p = false →
  list_loop fd ML NL (S fuel) a e ch p = Ok p' → ∃ items, fed (list_events items) p p' (depth_ok p (list_depth items)).
Proof.
  intros (HN & _ & _ & _ & _ & _ & HL) a e ch p p' Hs. cbn [list_loop].
  destruct (Byte.eqb ch e).
  { intros [= <-]. exists []. split_and!; [simpl; by rewrite Hs|done|by left]. }
  intros (p1 & H1 & H2)%bind_ok. apply emit_fed in H1; [|done]. destruct (Stopped p1) eqn:Hs1.
  { simplify_eq. exists [Node None VEntity]. by eapply (fed_stopped [OnListItem]). }
  apply bind_ok in H2 as (p2 & H2 & H3). apply HN in H2 as [n H2]; [|done].
  pose proof (fed_app _ _ _ _ _ _ _ H1 Hs1 H2) as H12. destruct (Stopped p2) eqn:Hs2.
  { simplify_eq. exists [n]. simpl. rewrite app_nil_r.
    eapply fed_weaken; [exact H12|congruence]. }
  apply bind_ok in H3 as ([p3 ch3] & H3 & H4). apply on_lexer_same in H3.
  apply bind_ok in H4 as ([p4 ch4] & H4 & H5). apply ParseSeparator_same in H4.
  pose proof (same_trans _ _ _ H3 H4) as H34.
  apply HL in H5 as [items H5]; [|destruct H34 as (_ & -> & _); done].
  exists (n :: items). pose proof (fed_app _ _ _ _ _ _ _ H12 Hs2 (fed_same _ _ _ _ _ H34 H5)) as Hall.
  eapply fed_weaken; [exact Hall|]. intros _ [[_ Hd1] Hd2]. simpl.
  apply depth_ok_max; [eapply depth_ok_level; [|exact Hd1]; apply H1|].
  eapply depth_ok_level; [|exact Hd2]. destruct H34 as (_ & _ & ->). apply H12.
Qed.

Lemma map_loop_fed fuel : parse_sound fuel → ∀ a e ch p p', Stopped p = false →
  map_loop fd ML NL (S fuel) a e ch p = Ok p' → ∃ items, fed (map_events items) p p' (depth_ok p (map_depth items)).
Proof.
  intros (HN & _ & _ & _ & _ & HM & _) a e ch p p' Hs. cbn [map_loop].
  destruct (Byte.eqb ch e).
  { intros [= <-]. exists []. split_and!; [simpl; by rewrite Hs|done|by left]. }
  intros (p1 & H1 & H2)%bind_ok. apply ParseKey_fed in H1 as [key H1]; [|done]. destruct (Stopped p1) eqn:Hs1.
  { simplify_eq. exists [(key, Node None VEntity)]. by eapply (fed_stopped [OnKeyedItem key]). }
  apply bind_ok in H2 as ([p2 ch2] & H2 & H3). apply on_lexer_same in H2.
  destruct (negb _); [done|]. apply bind_ok in H3 as ([p3 ch3] & H3 & H4). apply on_lexer_same in H3.
  pose proof (same_trans _ _ _ (same_trans _ _ _ H2 (skip1_same p2)) H3) as H23.
  apply bind_ok in H4 as (p4 & H4 & H5). apply HN in H4 as [n H4]; [|destruct H23 as (_ & -> & _); done].
  pose proof (fed_app _ _ _ _ _ _ _ H1 Hs1 (fed_same _ _ _ _ _ H23 H4)) as H14. destruct (Stopped p4) eqn:Hs4.
  { simplify_eq. exists [(key, n)]. simpl. rewrite app_nil_r.
    eapply fed_weaken; [exact H14|congruence]. }
  apply bind_ok in H5 as ([p5 ch5] & H5 & H6). apply on_lexer_same in H5.
  apply bind_ok in H6 as ([p6 ch6] & H6 & H7). apply ParseSeparator_same in H6.
  pose proof (same_trans _ _ _ H5 H6) as H56.
  apply HM in H7 as [items H7]; [|destruct H56 as (_ & -> & _); done].
  exists ((key, n) :: items). pose proof (fed_app _ _ _ _ _ _ _ H14 Hs4 (fed_same _ _ _ _ _ H56 H7)) as Hall.
  eapply fed_weaken; [exact Hall|]. intros _ [[_ Hd1] Hd2]. simpl.
  apply depth_ok_max; [eapply depth_ok_level; [|exact Hd1]|eapply depth_ok_level; [|exact Hd2]].
  - destruct H23 as (_ & _ & ->). apply H1.
  - destruct H56 as (_ & _ & ->). apply H14.
Qed.

Lemma CloseCollection_fed c ev p p' : Stopped p = false → CloseCollection c ev p = Ok p' → fed [ev] p p' True.
Proof.
  intros Hs. unfold CloseCollection. intros (l & _ & H1)%bind_ok. by apply emit_fed in H1.
Qed.

(** A collection tells its opening event, its items and its closing event. *)
Lemma collection_fed {I} c ev1 ev2 (events : list I → list TYsonEvent) (depth : list I → nat)
    (loop : byte → TParser C → Result (TParser C)) p p' : Stopped p = false → events [] = [] →
  (∀ ch p p', Stopped p = false → loop ch p = Ok p' → ∃ items, fed (events items) p p' (depth_ok p (depth items))) →
  (p ← emit ev1 p;
   if Stopped p then Ok p
   else '(p, ch) ← on_lexer (SkipSpaceAndGetChar false) p;
        p ← loop ch p;
        if Stopped p then Ok p else CloseCollection c ev2 p) = Ok p' →
  ∃ items, fed (ev1 :: events items ++ [ev2]) p p' (depth_ok p (depth items)).
Proof.
  intros Hs Hnil Hloop (p1 & H1 & H2)%bind_ok. apply emit_fed in H1; [|done]. destruct (Stopped p1) eqn:Hs1.
  { simplify_eq. exists []. rewrite Hnil. by eapply (fed_stopped [ev1]). }
  apply bind_ok in H2 as ([p2 ch2] & H2 & H3). apply on_lexer_same in H2.
  apply bind_ok in H3 as (p3 & H3 & H4). apply Hloop in H3 as [items H3]; [|destruct H2 as (_ & -> & _); done].
  exists items. pose proof (fed_app _ _ _ _ _ _ _ H1 Hs1 (fed_same _ _ _ _ _ H2 H3)) as H13.
  destruct (Stopped p3) eqn:Hs3.
  { simplify_eq. by eapply (fed_stopped (ev1 :: events items)). }
  apply CloseCollection_fed in H4; [|done].
  pose proof (fed_app _ _ _ _ _ _ _ H13 Hs3 H4) as Hall.
  eapply fed_weaken; [exact Hall|]. intros _ [[_ Hd] _].
  eapply depth_ok_level; [|exact Hd]. destruct H2 as (_ & _ & ->). apply H1.
Qed.

Lemma ParseValue_fed fuel : parse_sound fuel → ∀ a ch p p', Stopped p = false →
  ParseValue fd ML NL (S fuel) a ch p = Ok p' → ∃ v, fed (value_events v) p p' (depth_ok p (value_depth v)).
Proof.
  intros (_ & _ & _ & HM & HL & _) a ch p p' Hs. cbn [ParseValue].
  destruct (Byte.eqb ch BeginMapSymbol).
  { intros [items H1]%HM; [|done]. by exists (VMap items). }
  destruct (Byte.eqb ch BeginListSymbol).
  { intros [items H1]%HL; [|done]. by exists (VList items). }
  intros (v & Hv & H1)%ParseScalar_fed; [|done]. exists v.
  eapply fed_weaken; [exact H1|]. intros _ _. left. by destruct v.
Qed.

(** The attributes and the value of a node, one level deeper. *)
Lemma node_body_fed fuel : parse_sound fuel → ∀ a ch p p', Stopped p = false →
  (if Byte.eqb ch BeginAttributesSymbol then
     p ← ParseAttributes fd ML NL fuel (skip1 p);
     if Stopped p then Ok p
     else '(p, ch) ← on_lexer (SkipSpaceAndGetChar false) p; ParseValue fd ML NL fuel a ch p
   else ParseValue fd ML NL fuel a ch p) = Ok p' →
  ∃ n, fed (node_events n) p p' (depth_ok p (node_depth n - 1)).
Proof.
  intros (_ & HV & HA & _) a ch p p' Hs. destruct (Byte.eqb ch BeginAttributesSymbol).
  - intros (p1 & H1 & H2)%bind_ok. apply HA in H1 as [items H1]; [|done].
    apply (fed_same _ p _ _ _ (skip1_same p)) in H1. destruct (Stopped p1) eqn:Hs1.
    { simplify_eq. exists (Node (Some items) VEntity). rewrite node_events_eq. by eapply fed_stopped. }
    apply bind_ok in H2 as ([p2 ch2] & H2 & H3). apply on_lexer_same in H2.
    apply HV in H3 as [v H3]; [|destruct H2 as (_ & -> & _); done].
    exists (Node (Some items) v). rewrite node_events_eq.
    eapply fed_weaken; [exact (fed_app _ _ _ _ _ _ _ H1 Hs1 (fed_same _ _ _ _ _ H2 H3))|].
    intros _ [Hd1 Hd2]. rewrite node_depth_eq. simpl Nat.sub. rewrite Nat.sub_0_r.
    apply depth_ok_max; [exact Hd1|]. eapply depth_ok_level; [|exact Hd2].
    destruct H2 as (_ & _ & ->). apply H1.
  - intros [v H1]%HV; [|done]. exists (Node None v). rewrite node_events_eq.
    eapply fed_weaken; [exact H1|]. intros _. rewrite node_depth_eq. simpl. by rewrite Nat.sub_0_r.
Qed.

Lemma ParseNode_fed fuel : parse_sound fuel → ∀ a ch p p', Stopped p = false →
  ParseNode fd ML NL (S fuel) a ch p = Ok p' → ∃ n, fed (node_events n) p p' (depth_ok p (node_depth n)).
Proof.
  intros IH a ch p p' Hs. cbn [ParseNode]. destruct (Z.geb_spec (NestingLevel p) NL) as [|Hlt]; [done|].
  cbv zeta. intros (p1 & H1 & H2)%bind_ok. apply (node_body_fed fuel IH) in H1 as [n (Hf & Hn & Hd)]; [|done].
  simplify_eq. exists n. simpl in *.
  split_and!; [done|simpl; lia|]. simpl. intros Hs'. specialize (Hd Hs').
  assert (node_depth n = S (node_depth n - 1)) as E by (destruct n; rewrite node_depth_eq; lia).
  rewrite E. right. unfold depth_ok in Hd. simpl in Hd. lia.
Qed.

Lemma parse_sound_all fuel : parse_sound fuel.
Proof.
  induction fuel as [|fuel IH]; [unfold parse_sound; by split_and!|].
  unfold parse_sound. split_and!.
  - by apply ParseNode_fed.
  - by apply ParseValue_fed.
  - intros p p' Hs. cbn [ParseAttributes].
    apply (collection_fed _ _ _ map_events map_depth); [done|done|]. intros. by eapply IH.
  - intros p p' Hs. cbn [ParseMap].
    intros [items Hi]%(collection_fed _ _ _ map_events map_depth); [|done|done|intros; by eapply IH].
    exists items. by rewrite value_events_map.
  - intros p p' Hs. cbn [ParseList].
    intros [items Hi]%(collection_fed _ _ _ list_events list_depth); [|done|done|intros; by eapply IH].
    exists items. by rewrite value_events_list.
  - by apply map_loop_fed.
  - by apply list_loop_fed.
Qed.
End Soundness.

(** What a parsing mode accepts: the events of one node, of a list's items, of a
    map's items. *)
Definition mode_events (mode : EYsonType) (evs : list TYsonEvent) (depth : nat) : Prop :=
  match mode with
  | YsonNode => ∃ n, evs = node_events n ∧ depth = node_depth n
  | YsonListFragment => ∃ items, evs = list_events items ∧ depth = list_depth items
  | YsonMapFragment => ∃ items, evs = map_events items ∧ depth = map_depth items
  end.

Lemma DoParse_fed {C} `{O : IYsonConsumer C} fd ML NL mode (p p' : TParser C) :
  DoParse fd ML NL mode p = Ok p' →
  ∃ evs d, mode_events mode evs d ∧ feed evs (Consumer p) = Ok (Consumer p', Stopped p') ∧
    NestingLevel p' = NestingLevel p ∧
    (Stopped p' = false → d = 0%nat ∨ NestingLevel p + Z.of_nat d <= NL).
Proof.
  unfold DoParse. cbv zeta. set (p0 := Build_TParser _ _ _ _). intros (p1 & H1 & H2)%bind_ok.
  assert (∃ evs d, mode_events mode evs d ∧ fed evs p0 p1 (depth_ok NL p0 d)) as (evs & d & Hm & Hf & Hn & Hd).
  { destruct mode; apply bind_ok in H1 as ([p2 ch2] & Hl & H1); apply on_lexer_same in Hl as Hsame;
      apply (parse_sound_all fd ML NL) in H1 as [x Hx]; try (by destruct Hsame as (_ & -> & _));
      eexists _, _; (split; [by exists x|]); (eapply fed_same; [exact Hsame|]);
      (eapply fed_weaken; [exact Hx|]); intros _; apply depth_ok_level; by destruct Hsame as (_ & _ & ->). }
  exists evs, d. destruct (Stopped p1) eqn:Hs1.
  - simplify_eq. rewrite Hs1 in *. by split_and!.
  - apply bind_ok in H2 as (l & _ & H2). simplify_eq. simpl. rewrite Hs1. by split_and!.
Qed.

(** C2. The parser terminates on every input: for every byte sequence, cut into blocks in
    any way, every parsing mode, memory limit and nesting limit, and every consumer and
    floating-point conversion that return or throw, parsing returns or throws; it never
    reads outside its blocks, fails an assertion or runs forever. *)
Theorem DoParse_total {C} (O : IYsonConsumer C) (fd : list byte → Result Z) (ML NL : Z) (mode : EYsonType)
    (blocks : list (list byte)) (first : list byte) (c : C)
    (HO : total_consumer O) (Hfd : total_conversion fd) :
  match DoParse fd ML NL mode (NewParser (TBlockReader first blocks) c) with
  | Ok _ | Throw _ => True
  | _ => False
  end.
Proof.
  pose proof (DoParse_ok HO fd Hfd ML NL mode (NewParser (TBlockReader first blocks) c)
    (NewLexer_ready ML (TBlockReader first blocks) eq_refl)) as H.
  by destruct (DoParse _ _ _ _ _).
Qed.

Lemma DoParse_total_witness :
  match DoParse (C := TRecorder) (λ _, Ok 0) 16 4 YsonNode (NewParser (TBlockReader [x5b] [[x5b]; []]) []) with
  | Ok _ | Throw _ => True
  | _ => False
  end.
Proof. apply (DoParse_total Recorder (λ _, Ok 0) 16 4 YsonNode [[x5b]; []] [x5b] []); done. Defined.

(** C3. The parser only tells well-formed stories: whenever parsing succeeds, on any input
    and with any consumer, the calls it made are the calls that describe one document (or
    the items of one list or map, for the fragment modes), in order and properly nested,
    cut off exactly at the call in which the consumer asked to stop; a document that was
    parsed to its end is nested no deeper than the limit, and the parser's nesting level is
    back at zero. *)
Theorem DoParse_sound {C} (O : IYsonConsumer C) (fd : list byte → Result Z) (ML NL : Z) (mode : EYsonType)
    (s : TStream) (c : C) (p' : TParser C)
    (Hparse : DoParse fd ML NL mode (NewParser s c) = Ok p') :
  ∃ evs depth, mode_events mode evs depth ∧
    feed evs c = Ok (Consumer p', Stopped p') ∧ NestingLevel p' = 0 ∧
    (Stopped p' = false → depth = 0%nat ∨ Z.of_nat depth <= NL).
Proof. by apply DoParse_fed in Hparse. Qed.

Lemma DoParse_sound_witness :
  ∃ p', DoParse (C := TRecorder) (λ _, Ok 0) 64 4 YsonNode (NewParser (TStringReader (B"<a=1>[x;#]")) []) = Ok p' ∧
  ∃ evs depth, mode_events YsonNode evs depth ∧
    feed evs [] = Ok (Consumer p', Stopped p') ∧ NestingLevel p' = 0 ∧
    (Stopped p' = false → depth = 0%nat ∨ Z.of_nat depth <= 4).
Proof.
  destruct (DoParse (C := TRecorder) (λ _, Ok 0) 64 4 YsonNode (NewParser (TStringReader (B"<a=1>[x;#]")) []))
    as [p'| | |] eqn:E; [|vm_compute in E; discriminate E..].
  exists p'. split; [reflexivity|].
  exact (DoParse_sound Recorder (λ _, Ok 0) 64 4 YsonNode (TStringReader (B"<a=1>[x;#]")) [] p' E).
Defined.
