(* ===== verification/YsonGrammar.v ===== *)
(** The YSON grammar, and that the parser accepts it.

    [NodeText n t] says that [t] is a text of the document [n]: text and binary scalars
    may be mixed, white space is free between tokens, the separator behind the last item
    is optional.  The parser, given any text of the grammar, in any blocks, makes exactly
    the calls that describe the document. *)

From S2P Require Import Prelude Coding IntCast Escape YsonStream YsonLexer YsonEvents YsonParser.

Definition spaces (ws : list byte) : Prop := Forall (λ c, IsSpace c = true) ws.

Section Grammar.
Context (fd : list byte → Result Z) (ML : Z).

(** A literal the lexer's buffer can hold. *)
Definition fits (t : list byte) : Prop :=
  Z.of_nat (length t) <= wrap_u 64 ML ∧ Z.of_nat (length t) < 2 ^ 31.

Inductive StringText : list byte → list byte → Prop :=
| QuotedText t s : quoted_scan false t = Some false → UnescapeC t = Ok s → fits t →
    StringText s (x22 :: t ++ [x22])
| BinaryStringText s : fits s →
    StringText s (StringMarker :: Varint.WriteVarInt32 (Z.of_nat (length s)) ++ s)
| UnquotedText c t : isalpha c || Byte.eqb c "_" = true → Forall (λ c, is_unquoted_char c = true) t →
    fits (c :: t) → StringText (c :: t) (c :: t).

(** A numeric literal of the class [r]. *)
Definition numeric_literal (r : ENumericResult) (t : list byte) : Prop :=
  (∃ c t', t = c :: t' ∧ isdigit c || Byte.eqb c "-" || Byte.eqb c "+" = true) ∧
  Forall (λ c, is_numeric_char c = true) t ∧ foldl numeric_step NumericInt64 t = r ∧ fits t.

Inductive ScalarText : TValue → list byte → Prop :=
| TextString s t : StringText s t → ScalarText (VString s) t
| TextInt64 t z : numeric_literal NumericInt64 t → FromString_i64 t = Ok z → ScalarText (VInt64 z) t
| TextUint64 t z : numeric_literal NumericUint64 (t ++ ["u"%byte]) → FromString_ui64 t = Ok z →
    ScalarText (VUint64 z) (t ++ ["u"%byte])
| TextDouble t z : numeric_literal NumericDouble t → fd t = Ok z → ScalarText (VDouble z) t
| TextSpecial c e z : (c, e, z) ∈ special_doubles → 4 <= wrap_u 64 ML → ScalarText (VDouble z) ("%"%byte :: c :: e)
| TextBoolean (b : bool) : 5 <= wrap_u 64 ML →
    ScalarText (VBoolean b) ("%"%byte :: (if b then B"true" else B"false"))
| TextEntity : ScalarText VEntity [EntitySymbol]
| BinaryInt64 z : in_s 64 z → ScalarText (VInt64 z) (Int64Marker :: Varint.WriteVarInt64 z)
| BinaryUint64 z : in_u 64 z → ScalarText (VUint64 z) (Uint64Marker :: Varint.WriteVarUint64 z)
| BinaryDouble z : in_u 64 z → ScalarText (VDouble z) (DoubleMarker :: le_bytes 8 z)
| BinaryBoolean (b : bool) : ScalarText (VBoolean b) [if b then TrueMarker else FalseMarker].

Inductive NodeText : TNode → list byte → Prop :=
| PlainNode v t : ValueText v t → NodeText (Node None v) t
| AttributedNode items ta ws v t : MapText items ta → spaces ws → ValueText v t →
    NodeText (Node (Some items) v) (BeginAttributesSymbol :: ta ++ EndAttributesSymbol :: ws ++ t)
with ValueText : TValue → list byte → Prop :=
| ScalarValue v t : ScalarText v t → ValueText v t
| ListValue items t : ListText items t → ValueText (VList items) (BeginListSymbol :: t ++ [EndListSymbol])
| MapValue items t : MapText items t → ValueText (VMap items) (BeginMapSymbol :: t ++ [EndMapSymbol])
(** What stands between the brackets. *)
with ListText : list TNode → list byte → Prop :=
| ListEnd ws : spaces ws → ListText [] ws
| ListLast ws1 n t ws2 : spaces ws1 → NodeText n t → spaces ws2 → ListText [n] (ws1 ++ t ++ ws2)
| ListItem ws1 n t ws2 items t' : spaces ws1 → NodeText n t → spaces ws2 → ListText items t' →
    ListText (n :: items) (ws1 ++ t ++ ws2 ++ ItemSeparatorSymbol :: t')
with MapText : list (list byte * TNode) → list byte → Prop :=
| MapEnd ws : spaces ws → MapText [] ws
| MapLast ws1 key tk ws2 ws3 n t ws4 : spaces ws1 → StringText key tk → spaces ws2 → spaces ws3 →
    NodeText n t → spaces ws4 →
    MapText [(key, n)] (ws1 ++ tk ++ ws2 ++ KeyValueSeparatorSymbol :: ws3 ++ t ++ ws4)
| MapItem ws1 key tk ws2 ws3 n t ws4 items t' : spaces ws1 → StringText key tk → spaces ws2 → spaces ws3 →
    NodeText n t → spaces ws4 → MapText items t' →
    MapText ((key, n) :: items)
      (ws1 ++ tk ++ ws2 ++ KeyValueSeparatorSymbol :: ws3 ++ t ++ ws4 ++ ItemSeparatorSymbol :: t').
End Grammar.

Scheme NodeText_mind := Induction for NodeText Sort Prop
  with ValueText_mind := Induction for ValueText Sort Prop
  with ListText_mind := Induction for ListText Sort Prop
  with MapText_mind := Induction for MapText Sort Prop.
Combined Scheme grammar_ind from NodeText_mind, ValueText_mind, ListText_mind, MapText_mind.

(** ** Characters that end a token *)

Definition token_char (c : byte) : bool := is_unquoted_char c || is_numeric_char c || isalpha c.
Definition delimited (a : bool) (rest : list byte) : Prop := stops token_char a rest.

Lemma delimited_unquoted a rest : delimited a rest → stops is_unquoted_char a rest.
Proof.
  unfold delimited, stops. destruct rest as [|c rest]; [done|]. unfold token_char.
  by intros [[? ?]%orb_false_elim ?]%orb_false_elim.
Qed.

Lemma delimited_numeric a rest : delimited a rest → stops (λ c, is_numeric_char c || isalpha c) a rest.
Proof.
  unfold delimited, stops. destruct rest as [|c rest]; [done|]. unfold token_char.
  intros [[? ?]%orb_false_elim ?]%orb_false_elim. by apply orb_false_intro.
Qed.

Lemma IsSpace_not_token c : IsSpace c = true → token_char c = false.
Proof.
  assert (implb (IsSpace c) (negb (token_char c)) = true) as H by (revert c; apply forall_bytes; by vm_compute).
  intros Hc. rewrite Hc in H. by apply negb_true_iff in H.
Qed.

Lemma delimited_spaces a ws rest : spaces ws → delimited a rest → delimited a (ws ++ rest).
Proof. intros Hws Hr. destruct Hws as [|c ws Hc Hws]; [done|]. by apply IsSpace_not_token. Qed.

Lemma delimited_true rest : delimited false rest → delimited true rest.
Proof. unfold delimited, stops. destruct rest; [|done]. by intros [? _]. Qed.

(** A character a node or a key may start with: no white space, no punctuation that
    could end a collection. *)
Definition starts (c : byte) : bool :=
  negb (IsSpace c) && negb (bool_decide (c ∈ [x00; EndListSymbol; EndMapSymbol; EndAttributesSymbol])).
(** ... and one a scalar may start with. *)
Definition scalar_start (c : byte) : bool :=
  starts c && negb (bool_decide (c ∈ [BeginListSymbol; BeginMapSymbol; BeginAttributesSymbol])).

Lemma class_neq (P : byte → bool) c d : P c = true → P d = false → Byte.eqb c d = false.
Proof. intros Hc Hd. destruct (Byte.eqb c d) eqn:E; [|done]. apply byte_dec_bl in E as ->. congruence. Qed.

Lemma class_scalar_start (P : byte → bool) c :
  forallb (λ c, implb (P c) (scalar_start c)) all_bytes = true → P c = true → scalar_start c = true.
Proof. intros H Hc. pose proof (forall_bytes _ H c) as Hi. cbv beta in Hi. by rewrite Hc in Hi. Qed.

Lemma StringText_start ML s t : StringText ML s t → ∃ c t', t = c :: t' ∧ scalar_start c = true.
Proof.
  intros [t0 s0 _ _ _|s0 _|c t0 Hc _ _]; eexists _, _; (split; [done|]); [done|done|].
  by eapply (class_scalar_start (λ c, isalpha c || Byte.eqb c "_")); [vm_compute|].
Qed.

Lemma numeric_start ML r t : numeric_literal ML r t → ∃ c t', t = c :: t' ∧ scalar_start c = true.
Proof.
  intros [(c & t' & -> & Hc) _]. exists c, t'. split; [done|].
  by eapply (class_scalar_start (λ c, isdigit c || Byte.eqb c "-" || Byte.eqb c "+")); [vm_compute|].
Qed.

Lemma ScalarText_start fd ML v t : ScalarText fd ML v t → ∃ c t', t = c :: t' ∧ scalar_start c = true.
Proof.
  destruct 1; try (eexists _, _; split; [done|]; done); eauto using StringText_start, numeric_start.
  destruct b; eexists _, _; (split; [done|]; done).
Qed.

Lemma scalar_start_starts c : scalar_start c = true → starts c = true.
Proof. by intros [? _]%andb_prop. Qed.

Lemma NodeText_start fd ML n t : NodeText fd ML n t → ∃ c t', t = c :: t' ∧ starts c = true.
Proof.
  assert (∀ v t, ValueText fd ML v t → ∃ c t', t = c :: t' ∧ starts c = true) as Hv.
  { intros v t0 [v0 t1 Hs| |]; [|by eexists _, _..].
    destruct (ScalarText_start _ _ _ _ Hs) as (c & t' & -> & Hc). eauto using scalar_start_starts. }
  intros [v t0 Hv0|items ta ws v t0 _ _ _]; [by eapply Hv|by eexists _, _].
Qed.

Lemma starts_space c : starts c = true → IsSpace c = false.
Proof. by intros [?%negb_true_iff _]%andb_prop. Qed.

Lemma starts_not_end c e : starts c = true → e ∈ [x00; EndListSymbol; EndMapSymbol; EndAttributesSymbol] →
  Byte.eqb c e = false.
Proof.
  intros [_ Hc%negb_true_iff%bool_decide_eq_false]%andb_prop He.
  destruct (Byte.eqb c e) eqn:E; [|done]. by apply byte_dec_bl in E as ->.
Qed.

Lemma scalar_not_open c e : scalar_start c = true → e ∈ [BeginListSymbol; BeginMapSymbol; BeginAttributesSymbol] →
  Byte.eqb c e = false.
Proof.
  intros [_ Hc%negb_true_iff%bool_decide_eq_false]%andb_prop He.
  destruct (Byte.eqb c e) eqn:E; [|done]. by apply byte_dec_bl in E as ->.
Qed.

(** ** The parser on texts of the grammar *)

Section Completeness.
Context {C : Type} `{O : IYsonConsumer C}.
Context (fd : list byte → Result Z) (ML NL : Z).

(** Started in [p], [r] makes the calls [evs] and stops in front of [rest]; it does
    what the consumer does when a call throws or stops the parser. *)
Definition reads (r : Result (TParser C)) (p : TParser C) (evs : list TYsonEvent) (rest : list byte) : Prop :=
  match feed evs (Consumer p) with
  | Ok (c, stop) =>
      ∃ p', r = Ok p' ∧ Consumer p' = c ∧ Stopped p' = stop ∧ NestingLevel p' = NestingLevel p ∧
        (stop = false → at_text (Lexer p') rest)
  | Throw e => r = Throw e
  | Crash => r = Crash
  | OutOfFuel => r = OutOfFuel
  end.

(** [p] has read up to [ch :: t], and [ch] is in its block. *)
Definition holds (p : TParser C) (ch : byte) (t : list byte) : Prop :=
  at_text (Lexer p) (ch :: t) ∧ ∃ b, Block (Stream (Lexer p)) = ch :: b.

Lemma reads_emit ev p rest : Stopped p = false → at_text (Lexer p) rest → reads (emit ev p) p [ev] rest.
Proof.
  intros Hs Hl. unfold reads, emit. simpl. destruct (OnEvent ev (Consumer p)) as [[c stop]| | |]; simpl; try done.
  destruct stop; simpl; eexists; rewrite Hs; by split_and!.
Qed.

Lemma reads_same r p p1 evs rest : same p p1 → reads r p1 evs rest → reads r p evs rest.
Proof. unfold reads. intros (-> & _ & ->). done. Qed.

Lemma reads_bind r k p evs mid evs' rest : reads r p evs mid →
  (∀ p1, Stopped p1 = false → NestingLevel p1 = NestingLevel p → at_text (Lexer p1) mid → reads (k p1) p1 evs' rest) →
  reads (p1 ← r; if Stopped p1 then Ok p1 else k p1) p (evs ++ evs') rest.
Proof.
  unfold reads. rewrite feed_app. intros Hr Hk.
  destruct (feed evs (Consumer p)) as [[c stop]| | |]; simpl; try by rewrite Hr.
  destruct Hr as (p1 & -> & <- & Hs & Hn & Hl). simpl. rewrite Hs. destruct stop.
  - eexists. by split_and!.
  - specialize (Hk p1 Hs Hn (Hl eq_refl)). rewrite Hn in Hk. exact Hk.
Qed.

Lemma on_lexer_ok {A} (f : TLexer → Result (TLexer * A)) (p : TParser C) l a : f (Lexer p) = Ok (l, a) →
  on_lexer f p = Ok (set_Lexer p l, a).
Proof. unfold on_lexer. by intros ->. Qed.

Lemma skip1_holds p ch t : holds p ch t → at_text (Lexer (skip1 p)) t.
Proof. intros [Ht [b Hb]]. by eapply Advance_text. Qed.

(** A token reader that returns [a], and the event about it. *)
Lemma reads_token {A} (f : TLexer → Result (TLexer * A)) (ev : A → TYsonEvent) p l a rest :
  Stopped p = false → f (Lexer p) = Ok (l, a) → at_text l rest →
  reads ('(p, value) ← on_lexer f p; emit (ev value) p) p [ev a] rest.
Proof.
  intros Hs Hf Hl. rewrite (on_lexer_ok _ _ _ _ Hf). run_bind.
  apply (reads_same _ _ (set_Lexer p l)); [done|]. by apply reads_emit.
Qed.

Lemma reads_string (ev : list byte → TYsonEvent) s t ch t' p rest (a : bool) (other : Result (TParser C)) :
  StringText ML s t → t = ch :: t' → holds p ch (t' ++ rest) → delimited a rest → Stopped p = false →
  reads (if Byte.eqb ch x22 then '(p, value) ← on_lexer (ReadQuotedString ML) (skip1 p); emit (ev value) p
         else if Byte.eqb ch StringMarker then
           '(p, value) ← on_lexer (ReadBinaryString ML) (skip1 p); emit (ev value) p
         else if isalpha ch || Byte.eqb ch "_" then
           '(p, value) ← on_lexer (ReadUnquotedString ML a) p; emit (ev value) p
         else other) p [ev s] rest.
Proof.
  intros Ht E Hh Hd Hs. destruct Ht as [t0 s0 Hq Hu [Hf1 Hf2]|s0 [Hf1 Hf2]|c t0 Hc Ht0 [Hf1 Hf2]]; simplify_eq.
  - apply skip1_holds in Hh. rewrite <- app_assoc in Hh. simpl in Hh |- *.
    destruct (ReadQuotedString_text ML t0 rest s0 _ Hh Hq Hu Hf1 Hf2) as (l & Hl & Hat).
    apply (reads_same _ _ (skip1 p)); [done|]. by eapply reads_token.
  - apply skip1_holds in Hh. rewrite <- app_assoc in Hh. simpl.
    destruct (ReadBinaryString_text ML s0 rest _ Hf2 Hh Hf1) as (l & Hl & Hat).
    apply (reads_same _ _ (skip1 p)); [done|]. by eapply reads_token.
  - assert (Byte.eqb ch x22 = false ∧ Byte.eqb ch StringMarker = false) as [-> ->].
    { split; by apply (class_neq (λ c, isalpha c || Byte.eqb c "_")). }
    rewrite Hc. destruct Hh as [Hh _].
    destruct (ReadUnquotedString_text ML a (ch :: t') rest (Lexer p)) as (l & Hl & Hat); [done| |by apply delimited_unquoted|done|].
    + constructor; [|done]. unfold is_unquoted_char. apply orb_prop in Hc as [->| ->]; by rewrite ?orb_true_r.
    + by eapply reads_token.
Qed.

Lemma ParseKey_reads s t ch t' p rest : StringText ML s t → t = ch :: t' → holds p ch (t' ++ rest) →
  delimited false rest → Stopped p = false → reads (ParseKey ML ch p) p [OnKeyedItem s] rest.
Proof. intros. unfold ParseKey. by eapply reads_string. Qed.

Lemma ParseScalar_alpha a c p : isalpha c || Byte.eqb c "_" = true →
  ParseScalar fd ML a c p =
    '(p, value) ← on_lexer (ReadUnquotedString ML a) p; emit (OnStringScalar value) p.
Proof.
  intros Hc. pose proof Hc as Hc'. unfold ParseScalar.
  rewrite !(class_neq (λ c, isalpha c || Byte.eqb c "_") c _ Hc) by (by vm_compute).
  assert (isdigit c = false) as ->.
  { pose proof (forall_bytes (λ c, implb (isalpha c || Byte.eqb c "_") (negb (isdigit c))) ltac:(by vm_compute) c) as H.
    cbv beta in H. rewrite Hc in H. by apply negb_true_iff in H. }
  simpl. by rewrite Hc.
Qed.

Lemma ParseScalar_numeric a c p : isdigit c || Byte.eqb c "-" || Byte.eqb c "+" = true →
  ParseScalar fd ML a c p = ParseNumeric fd ML a p.
Proof.
  intros Hc. unfold ParseScalar.
  assert (∀ d, d ∈ [x22; StringMarker; Int64Marker; Uint64Marker; DoubleMarker; FalseMarker; TrueMarker; EntitySymbol] →
    Byte.eqb c d = false) as Hd.
  { intros d Hd. apply (class_neq (λ c, isdigit c || Byte.eqb c "-" || Byte.eqb c "+") c d Hc).
    apply list_elem_of_In in Hd. simpl in Hd. by repeat destruct Hd as [<-|Hd]. }
  rewrite !Hd by (apply (bool_decide_unpack _); by vm_compute). by rewrite Hc.
Qed.

Lemma ParseScalar_string a s t ch t' p : StringText ML s t → t = ch :: t' →
  ParseScalar fd ML a ch p =
    if Byte.eqb ch x22 then '(p, value) ← on_lexer (ReadQuotedString ML) (skip1 p); emit (OnStringScalar value) p
    else if Byte.eqb ch StringMarker then
      '(p, value) ← on_lexer (ReadBinaryString ML) (skip1 p); emit (OnStringScalar value) p
    else if isalpha ch || Byte.eqb ch "_" then
      '(p, value) ← on_lexer (ReadUnquotedString ML a) p; emit (OnStringScalar value) p
    else Crash.
Proof.
  intros [t0 s0 _ _ _|s0 _|c t0 Hc _ _] E; simplify_eq; [done|done|].
  rewrite ParseScalar_alpha, Hc by done.
  by rewrite !(class_neq (λ c, isalpha c || Byte.eqb c "_") ch _ Hc) by (by vm_compute).
Qed.

(** A numeric literal of class [r] whose conversion gives [ev]. *)
Lemma ParseNumeric_reads a r t (p : TParser C) rest : numeric_literal ML r t → at_text (Lexer p) (t ++ rest) →
  delimited a rest → ∃ l, on_lexer (ReadNumeric ML a) p = Ok (set_Lexer p l, (r, t)) ∧ at_text l rest.
Proof.
  intros (_ & Hn & Hr & Hf & _) Hl Hd.
  destruct (ReadNumeric_text ML a t rest (Lexer p) Hl Hn (delimited_numeric _ _ Hd) Hf) as (l & He & Hat).
  exists l. split; [|done]. rewrite <- Hr. by apply on_lexer_ok.
Qed.

Ltac skipped_token p := apply (reads_same _ _ (skip1 p)); [done|]; by eapply reads_token.

Lemma ParseScalar_reads a v t ch t' p rest : ScalarText fd ML v t → t = ch :: t' → holds p ch (t' ++ rest) →
  delimited a rest → Stopped p = false → reads (ParseScalar fd ML a ch p) p (value_events v) rest.
Proof.
  intros Hv E Hh Hd Hs. pose proof Hh as [Hat0 _].
  change (ch :: t' ++ rest) with ((ch :: t') ++ rest) in Hat0. rewrite <- E in Hat0.
  destruct Hv as [s t Ht|t z Hn Hz|t z Hn Hz|t z Hn Hz|c e z Hin Hm|b Hm| |z Hz|z Hz|z Hz|b]; cbn [value_events].
  - rewrite (ParseScalar_string a s t ch t') by done. by eapply reads_string.
  - destruct (proj1 Hn) as (c & t0 & E' & Hc). simplify_eq. rewrite ParseScalar_numeric by done. unfold ParseNumeric.
    destruct (ParseNumeric_reads a _ _ p rest Hn Hat0 Hd) as (l & -> & Hat). run_bind. rewrite Hz.
    run_bind. apply (reads_same _ _ (set_Lexer p l)); [done|]. by apply reads_emit.
  - destruct (proj1 Hn) as (c & t0 & E' & Hc). rewrite E in E'. simplify_eq. rewrite ParseScalar_numeric by done.
    unfold ParseNumeric. destruct (ParseNumeric_reads a _ _ p rest Hn Hat0 Hd) as (l & -> & Hat). run_bind.
    rewrite length_app, Nat.add_sub, take_app_length, Hz.
    run_bind. apply (reads_same _ _ (set_Lexer p l)); [done|]. by apply reads_emit.
  - destruct (proj1 Hn) as (c & t0 & E' & Hc). simplify_eq. rewrite ParseScalar_numeric by done. unfold ParseNumeric.
    destruct (ParseNumeric_reads a _ _ p rest Hn Hat0 Hd) as (l & -> & Hat). run_bind. rewrite Hz.
    run_bind. apply (reads_same _ _ (set_Lexer p l)); [done|]. by apply reads_emit.
  - simplify_eq. apply skip1_holds in Hh. cbn.
    destruct (lift_GetChar_text a _ _ _ Hh) as (l1 & b1 & Hg & Hat1 & _ & _).
    rewrite (on_lexer_ok _ (skip1 p) _ _ Hg). run_bind.
    assert (Byte.eqb c "t" || Byte.eqb c "f" = false) as ->.
    { apply list_elem_of_In in Hin. simpl in Hin. by repeat (destruct Hin as [Hin|Hin]; [simplify_eq|]). }
    destruct (ReadNanOrInf_text ML a c e z rest l1 Hin Hat1 Hm) as (l & Hl & Hat).
    apply (reads_same _ _ (set_Lexer (skip1 p) l1)); [done|]. by eapply reads_token.
  - simplify_eq. apply skip1_holds in Hh.
    assert (∃ c e, (if b then B"true" else B"false") = c :: e ∧ Byte.eqb c "t" || Byte.eqb c "f" = true) as (c & e & Ec & Hc)
      by (destruct b; by eexists _, _). pose proof Hh as Hh'. rewrite Ec in Hh. cbn.
    destruct (lift_GetChar_text a _ _ _ Hh) as (l1 & b1 & Hg & Hat1 & _ & _).
    rewrite (on_lexer_ok _ (skip1 p) _ _ Hg). run_bind. rewrite Hc.
    destruct (ReadBoolean_text ML a b rest l1) as (l & Hl & Hat); [by rewrite Ec|done|].
    apply (reads_same _ _ (set_Lexer (skip1 p) l1)); [done|]. by eapply reads_token.
  - simplify_eq. apply skip1_holds in Hh. apply (reads_same _ _ (skip1 p)); [done|]. by apply reads_emit.
  - simplify_eq. apply skip1_holds in Hh. destruct (ReadBinaryInt64_text z rest _ Hz Hh) as (l & Hl & Hat). skipped_token p.
  - simplify_eq. apply skip1_holds in Hh. destruct (ReadBinaryUint64_text z rest _ Hz Hh) as (l & Hl & Hat). skipped_token p.
  - simplify_eq. apply skip1_holds in Hh. destruct (ReadBinaryDouble_text z rest _ Hz Hh) as (l & Hl & Hat). skipped_token p.
  - simplify_eq. apply skip1_holds in Hh. apply (reads_same _ _ (skip1 p)); [done|]. destruct b; by apply reads_emit.
Qed.

(** What ends a collection, or a fragment at the end of the stream. *)
Definition closes (a : bool) (e : byte) (tail : list byte) : Prop :=
  (e ∈ [EndListSymbol; EndMapSymbol; EndAttributesSymbol] ∧ ∃ r, tail = e :: r) ∨
  (e = EndSymbol ∧ tail = [] ∧ a = true).

Lemma closes_cases a e tail : closes a e tail →
  e ∈ [x00; EndListSymbol; EndMapSymbol; EndAttributesSymbol] ∧ delimited a tail ∧ Byte.eqb ItemSeparatorSymbol e = false ∧
  Byte.eqb e ItemSeparatorSymbol = false.
Proof.
  intros [[He [r ->]]|(-> & -> & ->)]; [|by split_and!; [left|..]].
  apply list_elem_of_In in He. simpl in He.
  repeat (destruct He as [<-|He]; [by split_and!; [apply (bool_decide_unpack _); by vm_compute|..]|]). done.
Qed.

Lemma peek_char a ws c t (p : TParser C) : spaces ws → IsSpace c = false → at_text (Lexer p) (ws ++ c :: t) →
  ∃ p1, on_lexer (SkipSpaceAndGetChar a) p = Ok (p1, c) ∧ same p p1 ∧ holds p1 c t.
Proof.
  intros Hws Hc Hl. destruct (SkipSpaceAndGetChar_text a ws c t _ Hws Hc Hl) as (l & b & Hsk & Hat & Hb).
  exists (set_Lexer p l). split_and!; [by apply on_lexer_ok|done|]. split; [done|eauto].
Qed.

Lemma peek_close a e ws tail (p : TParser C) : spaces ws → closes a e tail → at_text (Lexer p) (ws ++ tail) →
  ∃ p1, on_lexer (SkipSpaceAndGetChar a) p = Ok (p1, e) ∧ same p p1 ∧ at_text (Lexer p1) tail.
Proof.
  intros Hws Hcl Hl. destruct Hcl as [[He [r ->]]|(-> & -> & ->)].
  - destruct (peek_char a ws e r p Hws) as (p1 & Hp1 & Hsame & [Hat _]); [|done|eauto].
    apply list_elem_of_In in He. simpl in He. by repeat destruct He as [<-|He].
  - rewrite app_nil_r in Hl. destruct (SkipSpaceAndGetChar_end ws _ Hws Hl) as (l & Hsk & Hat & _).
    exists (set_Lexer p l). split_and!; [by apply on_lexer_ok|done|done].
Qed.

Definition PN (n : TNode) (t : list byte) : Prop := ∀ fuel a p ch t' rest,
  t = ch :: t' → holds p ch (t' ++ rest) → delimited a rest → Stopped p = false →
  NestingLevel p + Z.of_nat (node_depth n) <= NL → (4 * length t + 2 <= fuel)%nat →
  reads (ParseNode fd ML NL fuel a ch p) p (node_events n) rest.
Definition PV (v : TValue) (t : list byte) : Prop := ∀ fuel a p ch t' rest,
  t = ch :: t' → holds p ch (t' ++ rest) → delimited a rest → Stopped p = false →
  NestingLevel p + Z.of_nat (value_depth v) <= NL → (4 * length t + 1 <= fuel)%nat →
  reads (ParseValue fd ML NL fuel a ch p) p (value_events v) rest.
Definition PL (items : list TNode) (t : list byte) : Prop := ∀ fuel a e p tail,
  closes a e tail → at_text (Lexer p) (t ++ tail) → Stopped p = false →
  NestingLevel p + Z.of_nat (list_depth items) <= NL → (4 * length t + 3 <= fuel)%nat →
  ∃ p1 ch, on_lexer (SkipSpaceAndGetChar a) p = Ok (p1, ch) ∧ same p p1 ∧
    reads (list_loop fd ML NL fuel a e ch p1) p1 (list_events items) tail.
Definition PM (items : list (list byte * TNode)) (t : list byte) : Prop := ∀ fuel a e p tail,
  closes a e tail → at_text (Lexer p) (t ++ tail) → Stopped p = false →
  NestingLevel p + Z.of_nat (map_depth items) <= NL → (4 * length t + 3 <= fuel)%nat →
  ∃ p1 ch, on_lexer (SkipSpaceAndGetChar a) p = Ok (p1, ch) ∧ same p p1 ∧
    reads (map_loop fd ML NL fuel a e ch p1) p1 (map_events items) tail.

Lemma reads_nil p rest : at_text (Lexer p) rest → Stopped p = false → reads (Ok p) p [] rest.
Proof. intros Hl Hs. unfold reads. simpl. eexists. by split_and!. Qed.

(** An empty collection, and the last round of a loop. *)
Lemma list_end fuel a e (p : TParser C) : (1 <= fuel)%nat → list_loop fd ML NL fuel a e e p = Ok p.
Proof. destruct fuel; [lia|]. intros _. simpl. by rewrite byte_dec_lb. Qed.
Lemma map_end fuel a e (p : TParser C) : (1 <= fuel)%nat → map_loop fd ML NL fuel a e e p = Ok p.
Proof. destruct fuel; [lia|]. intros _. simpl. by rewrite byte_dec_lb. Qed.

(** Behind an item: a separator and the rest, or the end. *)
Lemma after_item {I} (loop : byte → TParser C → Result (TParser C)) (events : list I → list TYsonEvent) items
    ws a e (p : TParser C) tail : spaces ws → closes a e tail → Stopped p = false →
  (items = [] ∧ events [] = [] ∧ at_text (Lexer p) (ws ++ tail) ∧ (∀ p, loop e p = Ok p)) ∨
  (∃ t0, at_text (Lexer p) (ws ++ ItemSeparatorSymbol :: t0 ++ tail) ∧
    ∀ p2, same p p2 → at_text (Lexer p2) (t0 ++ tail) →
      ∃ p1 ch, on_lexer (SkipSpaceAndGetChar a) p2 = Ok (p1, ch) ∧ same p2 p1 ∧ reads (loop ch p1) p1 (events items) tail) →
  reads ('(p, ch) ← on_lexer (SkipSpaceAndGetChar a) p;
         '(p, ch) ← ParseSeparator a e ch p;
         loop ch p) p (events items) tail.
Proof.
  intros Hws Hcl Hs [(-> & Hnil & Hl & Hend)|(t0 & Hl & Hgo)]; destruct (closes_cases _ _ _ Hcl) as (_ & _ & Hne & Hne').
  - destruct (peek_close a e ws tail p Hws Hcl Hl) as (p1 & -> & Hsame & Hat). run_bind.
    unfold ParseSeparator. rewrite Hne'. rewrite (@byte_dec_lb e e eq_refl). cbn [negb mbind result_bind].
    rewrite Hend, Hnil. eapply reads_same; [exact Hsame|]. apply reads_nil; [done|]. by destruct Hsame as (_ & -> & _).
  - destruct (peek_char a ws ItemSeparatorSymbol (t0 ++ tail) p Hws eq_refl Hl) as (p1 & -> & Hsame & Hh).
    run_bind. unfold ParseSeparator. rewrite (@byte_dec_lb ItemSeparatorSymbol _ eq_refl).
    destruct (Hgo (skip1 p1)) as (p2 & ch & -> & Hsame2 & Hr); [exact (same_trans _ _ _ Hsame (skip1_same p1))|by apply skip1_holds in Hh|].
    run_bind. eapply reads_same; [|exact Hr].
    exact (same_trans _ _ _ Hsame (same_trans _ _ _ (skip1_same p1) Hsame2)).
Qed.

(** One item of a list, given what its continuation reads. *)
Lemma list_item fuel a e p n t items ws1 rest tail : spaces ws1 → NodeText fd ML n t → PN n t →
  e ∈ [x00; EndListSymbol; EndMapSymbol; EndAttributesSymbol] → delimited a rest →
  at_text (Lexer p) (ws1 ++ t ++ rest) → Stopped p = false →
  NestingLevel p + Z.of_nat (node_depth n) <= NL → (4 * length t + 2 <= fuel)%nat →
  (∀ p2, Stopped p2 = false → NestingLevel p2 = NestingLevel p → at_text (Lexer p2) rest →
     reads ('(p, ch) ← on_lexer (SkipSpaceAndGetChar a) p2;
            '(p, ch) ← ParseSeparator a e ch p;
            list_loop fd ML NL fuel a e ch p) p2 (list_events items) tail) →
  ∃ p1 ch, on_lexer (SkipSpaceAndGetChar a) p = Ok (p1, ch) ∧ same p p1 ∧
    reads (list_loop fd ML NL (S fuel) a e ch p1) p1 (list_events (n :: items)) tail.
Proof.
  intros Hws Hnt HN He Hd Hl Hs Hdepth Hf Hk.
  destruct (NodeText_start _ _ _ _ Hnt) as (c & t' & -> & Hc).
  destruct (peek_char a ws1 c (t' ++ rest) p Hws (starts_space _ Hc) Hl) as (p1 & Hp1 & Hsame & Hh).
  exists p1, c. split_and!; [done|done|]. cbn [list_loop]. rewrite (starts_not_end _ _ Hc He).
  assert (Stopped p1 = false) as Hs1 by by destruct Hsame as (_ & -> & _).
  change (list_events (n :: items)) with ([OnListItem] ++ (node_events n ++ list_events items)).
  assert (∀ p2, Stopped p2 = false → NestingLevel p2 = NestingLevel p1 → holds p2 c (t' ++ rest) →
    reads (p3 ← ParseNode fd ML NL fuel a c p2;
           if Stopped p3 then Ok p3
           else '(p, ch) ← on_lexer (SkipSpaceAndGetChar a) p3;
                '(p, ch) ← ParseSeparator a e ch p;
                list_loop fd ML NL fuel a e ch p) p2 (node_events n ++ list_events items) tail) as Hnode.
  { intros p2 Hs2 Hn2 Hh2. eapply reads_bind; [apply (HN fuel a p2 c t' rest); try done|].
    - rewrite Hn2. destruct Hsame as (_ & _ & ->). done.
    - intros p3 Hs3 Hn3 Hl3. apply Hk; [done| |done]. rewrite Hn3, Hn2. by destruct Hsame as (_ & _ & ->). }
  unfold reads. rewrite feed_app. unfold emit. simpl feed.
  destruct (OnEvent OnListItem (Consumer p1)) as [[c1 stop]| | |]; simpl; try done.
  destruct stop; simpl; rewrite Hs1; simpl; [eexists; by split_and!|].
  set (p2 := Build_TParser _ _ _ _). exact (Hnode p2 eq_refl eq_refl Hh).
Qed.

Lemma map_item fuel a e p key tk n t items ws1 ws2 ws3 rest tail : spaces ws1 → StringText ML key tk → spaces ws2 →
  spaces ws3 → NodeText fd ML n t → PN n t →
  e ∈ [x00; EndListSymbol; EndMapSymbol; EndAttributesSymbol] → delimited a rest →
  at_text (Lexer p) (ws1 ++ tk ++ ws2 ++ KeyValueSeparatorSymbol :: ws3 ++ t ++ rest) → Stopped p = false →
  NestingLevel p + Z.of_nat (node_depth n) <= NL → (4 * length t + 2 <= fuel)%nat →
  (∀ p2, Stopped p2 = false → NestingLevel p2 = NestingLevel p → at_text (Lexer p2) rest →
     reads ('(p, ch) ← on_lexer (SkipSpaceAndGetChar a) p2;
            '(p, ch) ← ParseSeparator a e ch p;
            map_loop fd ML NL fuel a e ch p) p2 (map_events items) tail) →
  ∃ p1 ch, on_lexer (SkipSpaceAndGetChar a) p = Ok (p1, ch) ∧ same p p1 ∧
    reads (map_loop fd ML NL (S fuel) a e ch p1) p1 (map_events ((key, n) :: items)) tail.
Proof.
  intros Hws1 Hkt Hws2 Hws3 Hnt HN He Hd Hl Hs Hdepth Hf Hk.
  destruct (StringText_start _ _ _ Hkt) as (c & t' & Htk & Hc). rewrite Htk in Hl.
  destruct (peek_char a ws1 c _ p Hws1 (starts_space _ (scalar_start_starts _ Hc)) Hl) as (p1 & Hp1 & Hsame & Hh).
  exists p1, c. split_and!; [done|done|]. cbn [map_loop].
  rewrite (starts_not_end _ _ (scalar_start_starts _ Hc) He).
  assert (Stopped p1 = false) as Hs1 by by destruct Hsame as (_ & -> & _).
  change (map_events ((key, n) :: items)) with ([OnKeyedItem key] ++ (node_events n ++ map_events items)).
  eapply reads_bind.
  { eapply (ParseKey_reads key tk c t' p1); [done|done|exact Hh| |done]. by apply delimited_spaces. }
  intros p2 Hs2 Hn2 Hl2.
  destruct (peek_char a ws2 KeyValueSeparatorSymbol (ws3 ++ t ++ rest) p2 Hws2 eq_refl Hl2) as (p3 & -> & Hsame3 & Hh3).
  run_bind. rewrite (@byte_dec_lb KeyValueSeparatorSymbol _ eq_refl). cbn [negb].
  destruct (NodeText_start _ _ _ _ Hnt) as (c4 & t4 & Et & Hc4).
  apply skip1_holds in Hh3. rewrite Et in Hh3.
  destruct (peek_char false ws3 c4 (t4 ++ rest) (skip1 p3) Hws3 (starts_space _ Hc4) Hh3) as (p4 & -> & Hsame4 & Hh4).
  run_bind.
  pose proof (same_trans _ _ _ Hsame3 (same_trans _ _ _ (skip1_same p3) Hsame4)) as H24.
  eapply reads_same; [exact H24|].
  assert (NestingLevel p4 = NestingLevel p) as Hn4.
  { destruct H24 as (_ & _ & ->). rewrite Hn2. by destruct Hsame as (_ & _ & ->). }
  assert (Stopped p4 = false) as Hs4 by (destruct H24 as (_ & -> & _); done).
  eapply reads_bind; [apply (HN fuel a p4 c4 t4 rest); try done; by rewrite Hn4|].
  intros p5 Hs5 Hn5 Hl5. apply Hk; [done|congruence|done].
Qed.

Lemma reads_level r p evs rest :
  reads r (set_NestingLevel p (NestingLevel p + 1)) evs rest →
  reads (p1 ← r; Ok (set_NestingLevel p1 (NestingLevel p1 - 1))) p evs rest.
Proof.
  unfold reads. simpl. destruct (feed evs (Consumer p)) as [[c stop]| | |]; try by intros ->.
  intros (p1 & -> & ? & ? & Hn & Hl). simpl. eexists. split_and!; [done|done|done|simpl; lia|done].
Qed.

(** A collection, given what its loop reads. *)
Lemma collection_reads (loop : byte → TParser C → Result (TParser C)) c ev1 ev2 evs p t rest :
  c ∈ [EndListSymbol; EndMapSymbol; EndAttributesSymbol] → Stopped p = false → at_text (Lexer p) (t ++ c :: rest) →
  (∀ p0, Stopped p0 = false → NestingLevel p0 = NestingLevel p → at_text (Lexer p0) (t ++ c :: rest) →
     ∃ p1 ch, on_lexer (SkipSpaceAndGetChar false) p0 = Ok (p1, ch) ∧ same p0 p1 ∧ reads (loop ch p1) p1 evs (c :: rest)) →
  reads (p ← emit ev1 p;
         if Stopped p then Ok p
         else '(p, ch) ← on_lexer (SkipSpaceAndGetChar false) p;
              p ← loop ch p;
              if Stopped p then Ok p else CloseCollection c ev2 p) p (ev1 :: evs ++ [ev2]) rest.
Proof.
  intros Hc Hs Hl Hloop. change (ev1 :: evs ++ [ev2]) with ([ev1] ++ (evs ++ [ev2])).
  eapply reads_bind; [by apply reads_emit|]. intros p1 Hs1 Hn1 Hl1.
  destruct (Hloop p1 Hs1 Hn1 Hl1) as (p2 & ch & -> & Hsame & Hr). run_bind.
  eapply reads_same; [exact Hsame|]. eapply reads_bind; [exact Hr|].
  intros p3 Hs3 Hn3 Hl3. unfold CloseCollection.
  destruct (SkipCharToken_text [] c rest (Lexer p3)) as (l & -> & Hat); [constructor| |done|].
  - apply list_elem_of_In in Hc. simpl in Hc. by repeat destruct Hc as [<-|Hc].
  - run_bind. apply (reads_same _ _ (set_Lexer p3 l)); [done|]. by apply reads_emit.
Qed.

Lemma closing c rest : c ∈ [EndListSymbol; EndMapSymbol; EndAttributesSymbol] → closes false c (c :: rest).
Proof. intros Hc. left. eauto. Qed.

Lemma is_close_list : EndListSymbol ∈ [EndListSymbol; EndMapSymbol; EndAttributesSymbol].
Proof. by left. Qed.
Lemma is_close_map : EndMapSymbol ∈ [EndListSymbol; EndMapSymbol; EndAttributesSymbol].
Proof. right. by left. Qed.
Lemma is_close_attributes : EndAttributesSymbol ∈ [EndListSymbol; EndMapSymbol; EndAttributesSymbol].
Proof. right. right. by left. Qed.

Lemma ParseMap_reads items t p rest fuel : PM items t → at_text (Lexer p) (t ++ EndMapSymbol :: rest) →
  Stopped p = false → NestingLevel p + Z.of_nat (map_depth items) <= NL → (4 * length t + 4 <= fuel)%nat →
  reads (ParseMap fd ML NL fuel p) p (value_events (VMap items)) rest.
Proof.
  intros HM Hl Hs Hd Hf. destruct fuel as [|fuel]; [lia|]. cbn [ParseMap]. rewrite value_events_map.
  apply (collection_reads _ _ _ _ _ _ t); [apply is_close_map|done|done|].
  intros p0 Hs0 Hn0 Hl0. apply (HM fuel); [apply closing, is_close_map|done|done|by rewrite Hn0|lia].
Qed.

Lemma ParseAttributes_reads items t p rest fuel : PM items t → at_text (Lexer p) (t ++ EndAttributesSymbol :: rest) →
  Stopped p = false → NestingLevel p + Z.of_nat (map_depth items) <= NL → (4 * length t + 4 <= fuel)%nat →
  reads (ParseAttributes fd ML NL fuel p) p (attribute_events (Some items)) rest.
Proof.
  intros HM Hl Hs Hd Hf. destruct fuel as [|fuel]; [lia|]. cbn [ParseAttributes attribute_events].
  apply (collection_reads _ _ _ _ _ _ t); [apply is_close_attributes|done|done|].
  intros p0 Hs0 Hn0 Hl0. apply (HM fuel); [apply closing, is_close_attributes|done|done|by rewrite Hn0|lia].
Qed.

Lemma ParseList_reads items t p rest fuel : PL items t → at_text (Lexer p) (t ++ EndListSymbol :: rest) →
  Stopped p = false → NestingLevel p + Z.of_nat (list_depth items) <= NL → (4 * length t + 4 <= fuel)%nat →
  reads (ParseList fd ML NL fuel p) p (value_events (VList items)) rest.
Proof.
  intros HL Hl Hs Hd Hf. destruct fuel as [|fuel]; [lia|]. cbn [ParseList]. rewrite value_events_list.
  apply (collection_reads _ _ _ _ _ _ t); [apply is_close_list|done|done|].
  intros p0 Hs0 Hn0 Hl0. apply (HL fuel); [apply closing, is_close_list|done|done|by rewrite Hn0|lia].
Qed.

Lemma value_reads v t : ValueText fd ML v t →
  (∀ items t0, v = VList items → t = BeginListSymbol :: t0 ++ [EndListSymbol] → ListText fd ML items t0 → PL items t0) →
  (∀ items t0, v = VMap items → t = BeginMapSymbol :: t0 ++ [EndMapSymbol] → MapText fd ML items t0 → PM items t0) →
  PV v t.
Proof.
  intros Hv HL HM fuel a p ch t' rest Et Hh Hd Hs Hdepth Hf. destruct fuel as [|fuel]; [lia|].
  destruct Hv as [v t Hsc|items t0 Hl|items t0 Hm]; cbn [ParseValue].
  - destruct (ScalarText_start _ _ _ _ Hsc) as (c & t0 & Ec & Hc). rewrite Et in Ec. simplify_eq.
    rewrite !(scalar_not_open c _ Hc) by (apply (bool_decide_unpack _); by vm_compute).
    by eapply ParseScalar_reads.
  - simplify_eq. simpl. apply skip1_holds in Hh. rewrite <- app_assoc in Hh.
    apply (reads_same _ _ (skip1 p)); [done|]. apply (ParseList_reads items t0); [by eapply HL|done|done|done|].
    simpl in Hf. rewrite length_app in Hf. lia.
  - simplify_eq. simpl. apply skip1_holds in Hh. rewrite <- app_assoc in Hh.
    apply (reads_same _ _ (skip1 p)); [done|]. apply (ParseMap_reads items t0); [by eapply HM|done|done|done|].
    simpl in Hf. rewrite length_app in Hf. lia.
Qed.

Lemma ValueText_not_attributes v t ch t' : ValueText fd ML v t → t = ch :: t' →
  Byte.eqb ch BeginAttributesSymbol = false.
Proof.
  intros [v0 t0 Hsc|items t0 _|items t0 _] E; simplify_eq; [|done|done].
  destruct (ScalarText_start _ _ _ _ Hsc) as (c & t1 & Ec & Hc). simplify_eq.
  apply (scalar_not_open _ _ Hc), (bool_decide_unpack _). by vm_compute.
Qed.

Lemma plain_node v t : ValueText fd ML v t → PV v t → PN (Node None v) t.
Proof.
  intros Ht HV fuel a p ch t' rest Et Hh Hd Hs Hdepth Hf. destruct fuel as [|fuel]; [lia|]. cbn [ParseNode].
  rewrite node_depth_eq in Hdepth. destruct (Z.geb_spec (NestingLevel p) NL); [lia|]. cbv zeta.
  rewrite (ValueText_not_attributes v t ch t') by done. rewrite node_events_eq.
  apply reads_level, (HV fuel a _ ch t' rest); simpl; (done || lia).
Qed.

Lemma attributed_node items ta ws v t : PM items ta → spaces ws → ValueText fd ML v t → PV v t →
  PN (Node (Some items) v) (BeginAttributesSymbol :: ta ++ EndAttributesSymbol :: ws ++ t).
Proof.
  intros HA Hws Ht HV fuel a p ch t' rest Et Hh Hd Hs Hdepth Hf. destruct fuel as [|fuel]; [lia|]. cbn [ParseNode].
  rewrite node_depth_eq in Hdepth. destruct (Z.geb_spec (NestingLevel p) NL); [lia|]. cbv zeta.
  simplify_eq. rewrite (@byte_dec_lb BeginAttributesSymbol _ eq_refl). rewrite node_events_eq.
  apply reads_level. set (p0 := set_NestingLevel p _).
  cbn [length] in Hf. rewrite length_app in Hf. cbn [length] in Hf. rewrite length_app in Hf.
  assert (holds p0 BeginAttributesSymbol ((ta ++ EndAttributesSymbol :: ws ++ t) ++ rest)) as Hh0 by exact Hh.
  apply skip1_holds in Hh0. rewrite <- app_assoc in Hh0. cbn [app] in Hh0. rewrite <- app_assoc in Hh0.
  apply (reads_same _ _ (skip1 p0)); [done|]. eapply reads_bind.
  { apply (ParseAttributes_reads items ta); [done|exact Hh0|done|subst p0; simpl; lia|lia]. }
  intros p2 Hs2 Hn2 Hl2.
  assert (∃ c t0, t = c :: t0 ∧ starts c = true) as (c & t0 & -> & Hc) by (eapply NodeText_start, PlainNode, Ht).
  destruct (peek_char false ws c (t0 ++ rest) p2 Hws (starts_space _ Hc) Hl2) as (p3 & -> & Hsame & Hh3).
  run_bind. eapply reads_same; [exact Hsame|].
  apply (HV fuel a p3 c t0 rest); [done|done|done| | |lia].
  - by destruct Hsame as (_ & -> & _).
  - destruct Hsame as (_ & _ & ->). rewrite Hn2. subst p0. simpl. lia.
Qed.

Lemma list_end_reads ws : spaces ws → PL [] ws.
Proof.
  intros Hws fuel a e p tail Hcl Hl Hs Hd Hf.
  destruct (peek_close a e ws tail p Hws Hcl Hl) as (p1 & Hp1 & Hsame & Hat). exists p1, e. split_and!; [done|done|].
  rewrite list_end by lia. apply reads_nil; [done|]. by destruct Hsame as (_ & -> & _).
Qed.

Lemma map_end_reads ws : spaces ws → PM [] ws.
Proof.
  intros Hws fuel a e p tail Hcl Hl Hs Hd Hf.
  destruct (peek_close a e ws tail p Hws Hcl Hl) as (p1 & Hp1 & Hsame & Hat). exists p1, e. split_and!; [done|done|].
  rewrite map_end by lia. apply reads_nil; [done|]. by destruct Hsame as (_ & -> & _).
Qed.

Lemma list_last_reads ws1 n t ws2 : spaces ws1 → NodeText fd ML n t → PN n t → spaces ws2 → PL [n] (ws1 ++ t ++ ws2).
Proof.
  intros Hws1 Ht IH Hws2 fuel a e p tail Hcl Hl Hs Hd Hf. destruct fuel as [|fuel]; [lia|].
  rewrite !length_app in Hf. simpl in Hd. destruct (closes_cases _ _ _ Hcl) as (He & Hdl & _).
  rewrite <- !app_assoc in Hl.
  apply (list_item fuel a e p n t [] ws1 (ws2 ++ tail)); [done|done|done|done|by apply delimited_spaces|done|done|lia|lia|].
  intros p2 Hs2 _ Hl2. apply (after_item _ list_events [] ws2 a e p2 tail); [done|done|done|]. left.
  split_and!; [done|done|done|]. intros p3. apply list_end. lia.
Qed.

Lemma list_item_reads ws1 n t ws2 items t' : spaces ws1 → NodeText fd ML n t → PN n t → spaces ws2 → PL items t' →
  PL (n :: items) (ws1 ++ t ++ ws2 ++ ItemSeparatorSymbol :: t').
Proof.
  intros Hws1 Ht IH Hws2 IHl fuel a e p tail Hcl Hl Hs Hd Hf. destruct fuel as [|fuel]; [lia|].
  rewrite !length_app in Hf. cbn [length] in Hf. simpl in Hd. destruct (closes_cases _ _ _ Hcl) as (He & Hdl & _).
  rewrite <- !app_assoc in Hl. cbn [app] in Hl.
  apply (list_item fuel a e p n t items ws1 (ws2 ++ ItemSeparatorSymbol :: t' ++ tail));
    [done|done|done|done|by apply delimited_spaces|done|done|lia|lia|].
  intros p2 Hs2 Hn2 Hl2. apply (after_item _ list_events items ws2 a e p2 tail); [done|done|done|]. right.
  exists t'. split; [done|]. intros p3 Hsame Hl3. apply (IHl fuel); [done|done| | |lia].
  - by destruct Hsame as (_ & -> & _).
  - destruct Hsame as (_ & _ & ->). lia.
Qed.

Lemma map_last_reads ws1 key tk ws2 ws3 n t ws4 : spaces ws1 → StringText ML key tk → spaces ws2 → spaces ws3 →
  NodeText fd ML n t → PN n t → spaces ws4 →
  PM [(key, n)] (ws1 ++ tk ++ ws2 ++ KeyValueSeparatorSymbol :: ws3 ++ t ++ ws4).
Proof.
  intros Hws1 Hk Hws2 Hws3 Ht IH Hws4 fuel a e p tail Hcl Hl Hs Hd Hf.
  destruct fuel as [|fuel]; [lia|]. rewrite !length_app in Hf. cbn [length] in Hf. rewrite !length_app in Hf.
  simpl in Hd. destruct (closes_cases _ _ _ Hcl) as (He & Hdl & _).
  rewrite <- !app_assoc in Hl. cbn [app] in Hl. rewrite <- !app_assoc in Hl.
  apply (map_item fuel a e p key tk n t [] ws1 ws2 ws3 (ws4 ++ tail));
    [done|done|done|done|done|done|done|by apply delimited_spaces|done|done|lia|lia|].
  intros p2 Hs2 _ Hl2. apply (after_item _ map_events [] ws4 a e p2 tail); [done|done|done|]. left.
  split_and!; [done|done|done|]. intros p3. apply map_end. lia.
Qed.

Lemma map_item_reads ws1 key tk ws2 ws3 n t ws4 items t' : spaces ws1 → StringText ML key tk → spaces ws2 → spaces ws3 →
  NodeText fd ML n t → PN n t → spaces ws4 → PM items t' →
  PM ((key, n) :: items) (ws1 ++ tk ++ ws2 ++ KeyValueSeparatorSymbol :: ws3 ++ t ++ ws4 ++ ItemSeparatorSymbol :: t').
Proof.
  intros Hws1 Hk Hws2 Hws3 Ht IH Hws4 IHl fuel a e p tail Hcl Hl Hs Hd Hf.
  destruct fuel as [|fuel]; [lia|]. rewrite !length_app in Hf. cbn [length] in Hf. rewrite !length_app in Hf.
  cbn [length] in Hf. simpl in Hd. destruct (closes_cases _ _ _ Hcl) as (He & Hdl & _).
  rewrite <- !app_assoc in Hl. cbn [app] in Hl. rewrite <- !app_assoc in Hl. cbn [app] in Hl.
  apply (map_item fuel a e p key tk n t items ws1 ws2 ws3 (ws4 ++ ItemSeparatorSymbol :: t' ++ tail));
    [done|done|done|done|done|done|done|by apply delimited_spaces|done|done|lia|lia|].
  intros p2 Hs2 Hn2 Hl2. apply (after_item _ map_events items ws4 a e p2 tail); [done|done|done|]. right.
  exists t'. split; [done|]. intros p3 Hsame Hl3. apply (IHl fuel); [done|done| | |lia].
  - by destruct Hsame as (_ & -> & _).
  - destruct Hsame as (_ & _ & ->). lia.
Qed.

Lemma grammar_reads :
  (∀ n t, NodeText fd ML n t → PN n t) ∧ (∀ v t, ValueText fd ML v t → PV v t) ∧
  (∀ items t, ListText fd ML items t → PL items t) ∧ (∀ items t, MapText fd ML items t → PM items t).
Proof.
  apply (grammar_ind fd ML (λ n t _, PN n t) (λ v t _, PV v t) (λ i t _, PL i t) (λ i t _, PM i t)).
  - intros. by apply plain_node.
  - intros. by apply attributed_node.
  - intros v t Hsc. apply value_reads; [by constructor|by intros ? ? -> _; inversion Hsc|by intros ? ? -> _; inversion Hsc].
  - intros items t Hl IH. apply value_reads; [by constructor| |done].
    intros ? ? [= <-] [= E] _. by apply app_inj_tail in E as [<- _].
  - intros items t Hm IH. apply value_reads; [by constructor|done|].
    intros ? ? [= <-] [= E] _. by apply app_inj_tail in E as [<- _].
  - intros. by apply list_end_reads.
  - intros. by apply list_last_reads.
  - intros. by apply list_item_reads.
  - intros. by apply map_end_reads.
  - intros. by apply map_last_reads.
  - intros. by apply map_item_reads.
Qed.

Lemma trailing_spaces ws fuel l : spaces ws → at_text l ws → (3 <= fuel)%nat →
  ∃ l', trailing_loop fuel l = Ok l' ∧ at_text l' [].
Proof.
  intros Hws Hl Hf. destruct fuel as [|[|fuel]]; [lia|lia|]. cbn [trailing_loop].
  destruct (IsFinished (Stream l) && IsEmpty (Stream l)) eqn:E.
  - apply andb_prop in E as [Ef Ee]. exists l. split; [done|]. unfold at_text in *. destruct Hl as [Hp Ht].
    destruct (IsEmpty_true _ Ee) as [Hb _]. split; [done|]. unfold text_of in *. rewrite Hb in *.
    unfold IsFinished in Ef. by destruct (Rest (Stream l)).
  - destruct (SkipSpaceAndGetChar_end ws l Hws Hl) as (l' & -> & Hat & Hr). run_bind.
    rewrite (@byte_dec_lb x00 EndSymbol eq_refl). cbn [negb]. rewrite (at_nil_empty _ Hat). cbn [negb].
    unfold IsFinished. rewrite Hr. simpl. eauto.
Qed.
End Completeness.

(** A text for a parsing mode, with the events it stands for and its depth. *)
Inductive ModeText (fd : list byte → Result Z) (ML : Z) : EYsonType → list TYsonEvent → nat → list byte → Prop :=
| NodeMode ws1 n t ws2 : spaces ws1 → NodeText fd ML n t → spaces ws2 →
    ModeText fd ML YsonNode (node_events n) (node_depth n) (ws1 ++ t ++ ws2)
| ListMode items t : ListText fd ML items t →
    ModeText fd ML YsonListFragment (list_events items) (list_depth items) t
| MapMode items t : MapText fd ML items t →
    ModeText fd ML YsonMapFragment (map_events items) (map_depth items) t.

Lemma at_text_size l t : at_text l t → (length t <= stream_size (Stream l))%nat.
Proof. intros [_ <-]. apply length_text. Qed.

Lemma mode_reads {C} `{O : IYsonConsumer C} fd ML NL mode evs d t (p : TParser C) :
  ModeText fd ML mode evs d t → at_text (Lexer p) t → Stopped p = false → NestingLevel p + Z.of_nat d <= NL →
  ∃ ws, spaces ws ∧ reads (match mode with
    | YsonNode => '(p1, ch) ← on_lexer (SkipSpaceAndGetChar false) p; ParseNode fd ML NL (parser_fuel p) true ch p1
    | YsonListFragment => ParseListFragment fd ML NL true EndSymbol p
    | YsonMapFragment => ParseMapFragment fd ML NL true EndSymbol p end) p evs ws.
Proof.
  destruct (grammar_reads (C := C) fd ML NL) as (HN & _ & HL & HM).
  intros [ws1 n t0 ws2 Hws1 Ht Hws2|items t0 Ht|items t0 Ht] Hl Hs Hd; pose proof (at_text_size _ _ Hl) as Hsize.
  - exists ws2. split; [done|]. rewrite !length_app in Hsize.
    destruct (NodeText_start _ _ _ _ Ht) as (c & t1 & E & Hc). rewrite E in Hl.
    destruct (peek_char false ws1 c (t1 ++ ws2) p Hws1 (starts_space _ Hc) Hl) as (p1 & -> & Hsame & Hh).
    run_bind. eapply reads_same; [exact Hsame|].
    apply (HN n t0 Ht _ true p1 c t1 ws2); [done|done| | | |unfold parser_fuel; lia].
    + rewrite <- (app_nil_r ws2). by apply delimited_spaces.
    + by destruct Hsame as (_ & -> & _).
    + by destruct Hsame as (_ & _ & ->).
  - exists []. split; [constructor|]. unfold ParseListFragment. cbv zeta.
    destruct (HL items t0 Ht (parser_fuel p) true EndSymbol p []) as (p1 & ch & -> & Hsame & Hr);
      [by right|by rewrite app_nil_r|done|done|unfold parser_fuel; lia|].
    run_bind. by eapply reads_same.
  - exists []. split; [constructor|]. unfold ParseMapFragment. cbv zeta.
    destruct (HM items t0 Ht (parser_fuel p) true EndSymbol p []) as (p1 & ch & -> & Hsame & Hr);
      [by right|by rewrite app_nil_r|done|done|unfold parser_fuel; lia|].
    run_bind. by eapply reads_same.
Qed.

Lemma DoParse_accepts {C} (O : IYsonConsumer C) (fd : list byte → Result Z) (ML NL : Z) (mode : EYsonType)
    (evs : list TYsonEvent) (depth : nat) (t : list byte) (s : TStream) (c : C)
    (Ht : ModeText fd ML mode evs depth t) (Hs : at_stream s t) (Hdepth : Z.of_nat depth <= NL) :
  match feed evs c with
  | Ok (c', stop) => ∃ p', DoParse fd ML NL mode (NewParser s c) = Ok p' ∧ Consumer p' = c' ∧ Stopped p' = stop
  | Throw e => DoParse fd ML NL mode (NewParser s c) = Throw e
  | Crash => DoParse fd ML NL mode (NewParser s c) = Crash
  | OutOfFuel => DoParse fd ML NL mode (NewParser s c) = OutOfFuel
  end.
Proof.
  unfold DoParse. cbv zeta. set (p0 := Build_TParser _ _ _ _).
  destruct (mode_reads fd ML NL mode evs depth t p0 Ht Hs eq_refl Hdepth) as (ws & Hws & Hr).
  unfold reads in Hr. change (Consumer p0) with c in Hr.
  destruct (feed evs c) as [[c' stop]| | |]; [|by rewrite Hr..].
  destruct Hr as (p1 & Hp1 & Hc & Hst & _ & Hl). rewrite Hp1. run_bind. rewrite Hst.
  destruct stop; [eauto|].
  destruct (trailing_spaces ws (2 + stream_fuel (Lexer p1)) (Lexer p1) Hws (Hl eq_refl)) as (l & -> & _);
    [unfold stream_fuel; lia|]. run_bind. eexists. by split_and!.
Qed.

(** C4. The parser accepts the whole grammar: for every text of a document (or of a list or
    map fragment), with text and binary literals mixed at will, any white space between
    tokens and an optional last separator, cut into blocks in any way, and for every
    consumer, parsing makes exactly the calls that describe the document and ends; if a
    call throws, parsing throws the same, and if the consumer stops the parser, parsing
    returns there. *)
Theorem DoParse_complete {C} (O : IYsonConsumer C) (fd : list byte → Result Z) (ML NL : Z) (mode : EYsonType)
    (evs : list TYsonEvent) (depth : nat) (t : list byte) (s : TStream) (c : C)
    (Ht : ModeText fd ML mode evs depth t) (Hs : at_stream s t) (Hdepth : Z.of_nat depth <= NL) :
  match feed evs c with
  | Ok (c', stop) => ∃ p', DoParse fd ML NL mode (NewParser s c) = Ok p' ∧ Consumer p' = c' ∧ Stopped p' = stop
  | Throw e => DoParse fd ML NL mode (NewParser s c) = Throw e
  | Crash => DoParse fd ML NL mode (NewParser s c) = Crash
  | OutOfFuel => DoParse fd ML NL mode (NewParser s c) = OutOfFuel
  end.
Proof. by eapply DoParse_accepts. Qed.

Lemma DoParse_complete_witness :
  ModeText (λ _, Ok 0) 64 YsonNode (node_events (Node None (VList [Node None VEntity; Node None (VBoolean true)]))) 2
    (B" [#; %true]") ∧
  ∃ p', DoParse (C := TRecorder) (λ _, Ok 0) 64 2 YsonNode (NewParser (TBlockReader (B" [#") [B"; %tr"; B"ue]"]) []) = Ok p' ∧
    Consumer p' = node_events (Node None (VList [Node None VEntity; Node None (VBoolean true)])) ∧ Stopped p' = false.
Proof.
  assert (ModeText (λ _, Ok 0) 64 YsonNode
    (node_events (Node None (VList [Node None VEntity; Node None (VBoolean true)]))) 2 (B" [#; %true]")) as Ht.
  { apply (NodeMode (λ _, Ok 0) 64 (B" ") (Node None (VList [Node None VEntity; Node None (VBoolean true)])) (B"[#; %true]") []); [by constructor| |constructor].
    apply PlainNode, (ListValue _ _ _ (B"#; %true")).
    apply (ListItem _ _ [] _ (B"#") [] _ (B" %true")); [constructor| |constructor|].
    - apply PlainNode, ScalarValue, TextEntity.
    - apply (ListLast _ _ (B" ") _ (B"%true") []); [by constructor| |constructor].
      apply PlainNode, ScalarValue, (TextBoolean _ _ true). by vm_compute. }
  split; [exact Ht|].
  pose proof (DoParse_complete Recorder (λ _, Ok 0) 64 2 YsonNode _ _ _ (TBlockReader (B" [#") [B"; %tr"; B"ue]"]) [] Ht) as H.
  rewrite feed_recorder in H. apply H; [by vm_compute|by vm_compute].
Defined.
