(* ===== verification/YsonWriter.v ===== *)
(** The YSON writers of [core/yson/writer.cpp] and [token_writer-inl.h] / [token_writer.cpp]:
    [TYsonWriter] (binary, text and pretty formats) and [TBufferedBinaryYsonWriter] over
    [TUncheckedYsonTokenWriter], both instances of [IYsonConsumer].

    The output stream is the list of bytes written so far.  [FloatToString] (shortest
    decimal form of a double) and [FromString<double>] are parameters; what the round trip
    needs of them is the record [double_conversions].

    Shown here: the writer's output is a text of the grammar, so that parsing what was
    written tells any consumer the events that were written, in every format; the buffered
    writer writes the same bytes as the binary [TYsonWriter]. *)

From S2P Require Import Prelude Coding IntCast Escape Utf8 YsonStream YsonLexer YsonEvents YsonParser YsonGrammar.

Inductive EYsonFormat := Binary | Text | Pretty.
#[export] Instance EYsonFormat_eq_dec : EqDecision EYsonFormat.
Proof. solve_decision. Defined.

(** [std::isfinite], [std::isnan] and [value > 0] on the bits of a double. *)
Definition double_exponent (bits : Z) : Z := Z.land (Z.shiftr bits 52) 0x7FF.
Definition isfinite (bits : Z) : bool := negb (double_exponent bits =? 0x7FF).
Definition isnan (bits : Z) : bool := (double_exponent bits =? 0x7FF) && negb (Z.land bits 0xFFFFFFFFFFFFF =? 0).
Definition isinf (bits : Z) : bool := (double_exponent bits =? 0x7FF) && (Z.land bits 0xFFFFFFFFFFFFF =? 0).
Definition is_positive (bits : Z) : bool := Z.shiftr bits 63 =? 0.

Definition contains (c : byte) (s : list byte) : bool := existsb (Byte.eqb c) s.

(** [TYsonParserConfig]'s defaults. *)
Definition DefaultMemoryLimit : Z := max_s 64.
Definition DefaultYsonParserNestingLevelLimit : Z := 256.

Section Writers.
Context (FloatToString : Z → list byte) (FromString_double : list byte → Result Z).

(** [FloatToStringWithNanInf(value, buf, size)] of [error/text_yson.cpp] and its copy in
    [token_writer.cpp]: the characters written to [buf]. *)
Definition FloatToStringWithNanInf (value : Z) (size : nat) : Result (list byte) :=
  if isfinite value then Ok (FloatToString value)
  else
    let str :=
      if isnan value then B"%nan"
      else if isinf value && is_positive value then B"%inf"
      else B"%-inf" in
    _ ← Verify (Nat.leb (length str + 1) size);
    Ok str.

(** The text of a double: a [.] is added when nothing else marks it as one. *)
Definition double_text (value : Z) : Result (list byte) :=
  str ← FloatToStringWithNanInf value 256;
  Ok (str ++ if negb (contains "." str) && negb (contains "e" str) && isfinite value then B"." else []).

(** ** TUncheckedYsonTokenWriter: what each method appends *)

Definition WriteBinaryBoolean (value : bool) (out : list byte) : list byte :=
  out ++ [if value then TrueMarker else FalseMarker].
Definition WriteBinaryInt64 (value : Z) (out : list byte) : list byte :=
  (out ++ [Int64Marker]) ++ Varint.WriteVarInt64 value.
Definition WriteBinaryUint64 (value : Z) (out : list byte) : list byte :=
  (out ++ [Uint64Marker]) ++ Varint.WriteVarUint64 value.
Definition WriteBinaryDouble (value : Z) (out : list byte) : list byte :=
  (out ++ [DoubleMarker]) ++ le_bytes 8 value.
Definition WriteBinaryString (value : list byte) (out : list byte) : list byte :=
  ((out ++ [StringMarker]) ++ Varint.WriteVarInt32 (wrap_s 32 (Z.of_nat (length value)))) ++ value.
Definition WriteSymbol (symbol : byte) (out : list byte) : list byte := out ++ [symbol].

Definition WriteTextBoolean (value : bool) (out : list byte) : list byte :=
  out ++ (if value then B"%true" else B"%false").
Definition WriteTextInt64 (value : Z) (out : list byte) : Result (list byte) :=
  res ← ToString_int value; Ok (out ++ res).
Definition WriteTextUint64 (value : Z) (out : list byte) : Result (list byte) :=
  res ← ToString_int value; Ok ((out ++ res) ++ B"u").
Definition WriteTextDouble (value : Z) (out : list byte) : Result (list byte) :=
  str ← double_text value; Ok (out ++ str).
Definition WriteTextString (value : list byte) (out : list byte) : list byte :=
  ((out ++ [x22]) ++ EscapeC value) ++ [x22].

(** ** TYsonWriter *)

Record TYsonWriterConfig := {
  Format : EYsonFormat;
  Type_ : EYsonType;
  EnableRaw : bool;
  IndentSize : Z;
  PassThroughUtf8Characters : bool }.

Record TYsonWriter := { Output : list byte; Depth : Z; EmptyCollection : bool }.

Definition NewYsonWriter : TYsonWriter := {| Output := []; Depth := 0; EmptyCollection := true |}.

Section TYsonWriter.
Context (cfg : TYsonWriterConfig).

Definition Write (bytes : list byte) (w : TYsonWriter) : TYsonWriter :=
  {| Output := Output w ++ bytes; Depth := Depth w; EmptyCollection := EmptyCollection w |}.

Definition WriteIndent (w : TYsonWriter) : TYsonWriter :=
  Write (replicate (Z.to_nat (IndentSize cfg * Depth w)) x20) w.

Definition EndNode (w : TYsonWriter) : TYsonWriter :=
  if (Depth w >? 0) || negb (bool_decide (Type_ cfg = YsonNode)) then
    let w := Write [ItemSeparatorSymbol] w in
    if ((Depth w >? 0) && bool_decide (Format cfg = Pretty)) ||
       ((Depth w =? 0) && negb (bool_decide (Format cfg = Binary)))
    then Write [x0a] w else w
  else w.

Definition BeginCollection (ch : byte) (w : TYsonWriter) : TYsonWriter :=
  Write [ch] {| Output := Output w; Depth := Depth w + 1; EmptyCollection := true |}.

Definition CollectionItem (w : TYsonWriter) : TYsonWriter :=
  let w :=
    if bool_decide (Format cfg = Pretty) then
      WriteIndent (if EmptyCollection w && (Depth w >? 0) then Write [x0a] w else w)
    else w in
  {| Output := Output w; Depth := Depth w; EmptyCollection := false |}.

Definition EndCollection (ch : byte) (w : TYsonWriter) : TYsonWriter :=
  let w := {| Output := Output w; Depth := Depth w - 1; EmptyCollection := EmptyCollection w |} in
  let w := if bool_decide (Format cfg = Pretty) && negb (EmptyCollection w) then WriteIndent w else w in
  Write [ch] {| Output := Output w; Depth := Depth w; EmptyCollection := false |}.

(** The body of a text string literal. *)
Definition string_body (value : list byte) : Result (list byte) :=
  if PassThroughUtf8Characters cfg && IsUtf value then WriteUtf8String value else Ok (EscapeC value).

Definition WriteStringScalar (value : list byte) (w : TYsonWriter) : Result TYsonWriter :=
  match Format cfg with
  | Binary =>
      Ok (Write value (Write (Varint.WriteVarInt32 (wrap_s 32 (Z.of_nat (length value)))) (Write [StringMarker] w)))
  | _ =>
      body ← string_body value;
      Ok (Write [x22] (Write body (Write [x22] w)))
  end.

Definition WriteScalar (ev : TYsonEvent) (w : TYsonWriter) : Result TYsonWriter :=
  match ev, Format cfg with
  | OnStringScalar value, _ => WriteStringScalar value w
  | OnInt64Scalar value, Binary => Ok (Write (Varint.WriteVarInt64 value) (Write [Int64Marker] w))
  | OnInt64Scalar value, _ => str ← ToString_int value; Ok (Write str w)
  | OnUint64Scalar value, Binary => Ok (Write (Varint.WriteVarUint64 value) (Write [Uint64Marker] w))
  | OnUint64Scalar value, _ => str ← ToString_int value; Ok (Write (B"u") (Write str w))
  | OnDoubleScalar value, Binary => Ok (Write (le_bytes 8 value) (Write [DoubleMarker] w))
  | OnDoubleScalar value, _ => str ← double_text value; Ok (Write str w)
  | OnBooleanScalar value, Binary => Ok (Write [if value then TrueMarker else FalseMarker] w)
  | OnBooleanScalar value, _ => Ok (Write (if value then B"%true" else B"%false") w)
  | OnEntity, _ => Ok (Write [EntitySymbol] w)
  | _, _ => Crash
  end.

Definition OnKeyedItem_ (key : list byte) (w : TYsonWriter) : Result TYsonWriter :=
  let space := if bool_decide (Format cfg = Pretty) then B" " else [] in
  w ← WriteStringScalar key (CollectionItem w);
  Ok (Write space (Write [KeyValueSeparatorSymbol] (Write space w))).

(** The methods of [TYsonWriter] other than [OnRaw]. *)
Definition OnPlainEvent (ev : TYsonEvent) (w : TYsonWriter) : Result TYsonWriter :=
  match ev with
  | OnBeginList => Ok (BeginCollection BeginListSymbol w)
  | OnListItem => Ok (CollectionItem w)
  | OnEndList => Ok (EndNode (EndCollection EndListSymbol w))
  | OnBeginMap => Ok (BeginCollection BeginMapSymbol w)
  | OnKeyedItem key => OnKeyedItem_ key w
  | OnEndMap => Ok (EndNode (EndCollection EndMapSymbol w))
  | OnBeginAttributes => Ok (BeginCollection BeginAttributesSymbol w)
  | OnEndAttributes =>
      let w := EndCollection EndAttributesSymbol w in
      Ok (if bool_decide (Format cfg = Pretty) then Write (B" ") w else w)
  | OnRaw _ _ => Crash
  | _ => w ← WriteScalar ev w; Ok (EndNode w)
  end.

Definition PlainConsumer : IYsonConsumer TYsonWriter := λ ev w, w ← OnPlainEvent ev w; Ok (w, false).

(** [ParseYsonStringBuffer(str, type, this)] of [TYsonConsumerBase::OnRaw]. *)
Definition Reparse {C} (O : IYsonConsumer C) (str : list byte) (type : EYsonType) (c : C) : Result C :=
  p ← DoParse (H := O) FromString_double DefaultMemoryLimit DefaultYsonParserNestingLevelLimit type
        (NewParser (TStringReader str) c);
  Ok (Consumer p).

#[export] Instance YsonWriter : IYsonConsumer TYsonWriter := λ ev w,
  w ← match ev with
      | OnRaw yson type =>
          if EnableRaw cfg then
            let w := Write yson w in
            Ok (if bool_decide (type = YsonNode) then EndNode w else w)
          else Reparse PlainConsumer yson type w
      | _ => OnPlainEvent ev w
      end;
  Ok (w, false).
End TYsonWriter.

(** ** TBufferedBinaryYsonWriter *)

Record TBufferedBinaryYsonWriter := { TokenWriter : list byte; BDepth : Z }.

Section Buffered.
Context (BType : EYsonType) (BEnableRaw : bool) (BNestingLevelLimit : Z).

Definition tokens (f : list byte → list byte) (w : TBufferedBinaryYsonWriter) : TBufferedBinaryYsonWriter :=
  {| TokenWriter := f (TokenWriter w); BDepth := BDepth w |}.

Definition BEndNode (w : TBufferedBinaryYsonWriter) : TBufferedBinaryYsonWriter :=
  if negb (bool_decide (BType = YsonNode)) || (BDepth w >? 0) then tokens (WriteSymbol ItemSeparatorSymbol) w else w.

Definition BBeginCollection (w : TBufferedBinaryYsonWriter) : Result TBufferedBinaryYsonWriter :=
  let w := {| TokenWriter := TokenWriter w; BDepth := BDepth w + 1 |} in
  if BDepth w >? BNestingLevelLimit then Throw EDepthLimitExceeded else Ok w.

Definition BEndCollection (w : TBufferedBinaryYsonWriter) : TBufferedBinaryYsonWriter :=
  {| TokenWriter := TokenWriter w; BDepth := BDepth w - 1 |}.

(** The methods of [TBufferedBinaryYsonWriter] other than [OnRaw]. *)
Definition BOnPlainEvent (ev : TYsonEvent) (w : TBufferedBinaryYsonWriter) : Result TBufferedBinaryYsonWriter :=
  match ev with
  | OnStringScalar value => Ok (BEndNode (tokens (WriteBinaryString value) w))
  | OnInt64Scalar value => Ok (BEndNode (tokens (WriteBinaryInt64 value) w))
  | OnUint64Scalar value => Ok (BEndNode (tokens (WriteBinaryUint64 value) w))
  | OnDoubleScalar value => Ok (BEndNode (tokens (WriteBinaryDouble value) w))
  | OnBooleanScalar value => Ok (BEndNode (tokens (WriteBinaryBoolean value) w))
  | OnEntity => Ok (BEndNode (tokens (WriteSymbol EntitySymbol) w))
  | OnBeginList => w ← BBeginCollection w; Ok (tokens (WriteSymbol BeginListSymbol) w)
  | OnListItem => Ok w
  | OnEndList => Ok (BEndNode (tokens (WriteSymbol EndListSymbol) (BEndCollection w)))
  | OnBeginMap => w ← BBeginCollection w; Ok (tokens (WriteSymbol BeginMapSymbol) w)
  | OnKeyedItem key =>
      Ok (tokens (WriteSymbol KeyValueSeparatorSymbol) (tokens (WriteBinaryString key) w))
  | OnEndMap => Ok (BEndNode (tokens (WriteSymbol EndMapSymbol) (BEndCollection w)))
  | OnBeginAttributes => w ← BBeginCollection w; Ok (tokens (WriteSymbol BeginAttributesSymbol) w)
  | OnEndAttributes => Ok (tokens (WriteSymbol EndAttributesSymbol) (BEndCollection w))
  | OnRaw _ _ => Crash
  end.

Definition BPlainConsumer : IYsonConsumer TBufferedBinaryYsonWriter := λ ev w, w ← BOnPlainEvent ev w; Ok (w, false).

#[export] Instance BufferedBinaryYsonWriter : IYsonConsumer TBufferedBinaryYsonWriter := λ ev w,
  w ← match ev with
      | OnRaw yson type =>
          if BEnableRaw then
            let w := tokens (λ out, out ++ yson) w in
            Ok (if bool_decide (type = YsonNode) then BEndNode w else w)
          else Reparse BPlainConsumer yson type w
      | _ => BOnPlainEvent ev w
      end;
  Ok (w, false).
End Buffered.
End Writers.

(** ** What the round trip needs of the conversions of doubles *)

(** [FloatToString] prints finite doubles in the alphabet of numeric literals, starting
    with a digit or a minus sign, and [FromString<double>] reads back what was printed, also
    with the [.] the writer appends. *)
Record double_conversions (FloatToString : Z → list byte) (FromString_double : list byte → Result Z) : Prop := {
  printed_alphabet : ∀ v, in_u 64 v → isfinite v = true →
    Forall (λ c, is_numeric_char c = true ∧ c ≠ "u"%byte ∧ c ≠ "E"%byte) (FloatToString v) ∧
    (∃ c t, FloatToString v = c :: t ∧ isdigit c || Byte.eqb c "-" = true) ∧
    (length (FloatToString v) < 256)%nat;
  read_back : ∀ v, in_u 64 v → isfinite v = true →
    FromString_double (FloatToString v) = Ok v ∧ FromString_double (FloatToString v ++ B".") = Ok v }.

(** ** The writer's output is a text of the grammar *)

Section WriterText.
Context (FloatToString : Z → list byte) (fd : list byte → Result Z) (Hdc : double_conversions FloatToString fd).
Context (cfg : TYsonWriterConfig) (ML : Z) (HML : 256 <= wrap_u 64 ML).

#[local] Abbreviation OnPlainEvent := (OnPlainEvent FloatToString cfg).
#[local] Abbreviation is_pretty := (bool_decide (Format cfg = Pretty)).
#[local] Abbreviation is_binary := (bool_decide (Format cfg = Binary)).

(** What a value must satisfy to survive the format: strings that fit a literal, integers
    of their width, and in the text formats no NaN payload. *)
Definition string_ok (s : list byte) : Prop :=
  4 * Z.of_nat (length s) <= wrap_u 64 ML ∧ 4 * Z.of_nat (length s) < 2 ^ 31.
Definition event_ok (ev : TYsonEvent) : Prop :=
  match ev with
  | OnStringScalar s | OnKeyedItem s => string_ok s
  | OnInt64Scalar z => in_s 64 z
  | OnUint64Scalar z => in_u 64 z
  | OnDoubleScalar z => in_u 64 z ∧ (isfinite z = true ∨ z = PlusInf ∨ z = MinusInf ∨ z = QuietNaN ∨ Format cfg = Binary)
  | OnRaw _ _ => False
  | _ => True
  end.

Fixpoint run (evs : list TYsonEvent) (w : TYsonWriter) : Result TYsonWriter :=
  match evs with
  | [] => Ok w
  | ev :: evs => w ← OnPlainEvent ev w; run evs w
  end.

Lemma run_app evs1 evs2 w : run (evs1 ++ evs2) w = w ← run evs1 w; run evs2 w.
Proof.
  revert w. induction evs1 as [|ev evs1 IH]; intros w; simpl; [done|].
  destruct (OnPlainEvent ev w); simpl; [apply IH|done..].
Qed.

(** What [EndNode] writes, and the white space in it. *)
Definition separates (d : Z) : bool := (d >? 0) || negb (bool_decide (Type_ cfg = YsonNode)).
Definition line_end (d : Z) : list byte :=
  if ((d >? 0) && is_pretty) || ((d =? 0) && negb is_binary) then [x0a] else [].
Definition end_text (d : Z) : list byte := if separates d then ItemSeparatorSymbol :: line_end d else [].

Lemma line_end_spaces d : spaces (line_end d).
Proof. unfold line_end, spaces. destruct (_ || _); repeat constructor. Qed.

Lemma EndNode_text w : EndNode cfg w =
  {| Output := Output w ++ end_text (Depth w); Depth := Depth w; EmptyCollection := EmptyCollection w |}.
Proof.
  unfold EndNode, end_text, separates, line_end, Write. destruct w as [o d e]. simpl.
  destruct (_ || _); simpl; [|by rewrite app_nil_r]. destruct (_ || _); simpl; by rewrite <- ?app_assoc.
Qed.

(** Indentation is white space. *)
Definition item_space (w : TYsonWriter) : list byte :=
  if is_pretty then (if EmptyCollection w && (Depth w >? 0) then [x0a] else []) ++
    replicate (Z.to_nat (IndentSize cfg * Depth w)) x20 else [].

Lemma item_space_spaces w : spaces (item_space w).
Proof.
  unfold item_space, spaces. destruct is_pretty; [|constructor]. apply Forall_app. split.
  - destruct (_ && _); repeat constructor.
  - by apply Forall_replicate.
Qed.

Lemma CollectionItem_text w : CollectionItem cfg w =
  {| Output := Output w ++ item_space w; Depth := Depth w; EmptyCollection := false |}.
Proof.
  unfold CollectionItem, item_space, WriteIndent, Write. destruct is_pretty; simpl; [|by rewrite app_nil_r].
  destruct (_ && _); simpl; [by rewrite <- app_assoc|done].
Qed.

Definition close_space (w : TYsonWriter) : list byte :=
  if is_pretty && negb (EmptyCollection w) then replicate (Z.to_nat (IndentSize cfg * (Depth w - 1))) x20 else [].

Lemma close_space_spaces w : spaces (close_space w).
Proof. unfold close_space, spaces. destruct (_ && _); [|constructor]. by apply Forall_replicate. Qed.

Lemma EndCollection_text ch w : EndCollection cfg ch w =
  {| Output := Output w ++ close_space w ++ [ch]; Depth := Depth w - 1; EmptyCollection := false |}.
Proof.
  unfold EndCollection, close_space, WriteIndent, Write. simpl. destruct (_ && _); simpl; by rewrite <- ?app_assoc.
Qed.

Lemma quoted_scan_utf8 s : quoted_scan false (utf8_all s) = Some false.
Proof.
  induction s as [|c s IH]; [done|]. cbn [utf8_all]. rewrite quoted_scan_app.
  assert (quoted_scan false (if 128 <=? byte_val c then [c] else EscapeC_char c (next_char s)) = Some false) as ->; [|done].
  apply (bool_decide_unpack _), Is_true_true. generalize (next_char s). revert c. apply forall_bytes2. by vm_compute.
Qed.

Lemma string_body_text s : string_ok s → ∃ t, string_body cfg s = Ok t ∧ quoted_scan false t = Some false ∧
  UnescapeC t = Ok s ∧ fits ML t.
Proof.
  intros [H1 H2]. unfold string_body. destruct (_ && IsUtf s) eqn:E.
  - apply andb_prop in E as [_ E]. exists (utf8_all s). pose proof (length_utf8_all s).
    split_and!; [by apply WriteUtf8String_ok|apply quoted_scan_utf8|apply UnescapeC_utf8_all|split; lia].
  - exists (EscapeC s). pose proof (length_EscapeC s). rewrite EscapeC_all in *.
    split_and!; [done|apply quoted_scan_escape|apply UnescapeC_escape_all|split; lia].
Qed.

Lemma WriteStringScalar_text s w : string_ok s → ∃ t,
  WriteStringScalar cfg s w = Ok (Write t w) ∧ StringText ML s t.
Proof.
  intros Hs. pose proof Hs as [H1 H2]. unfold WriteStringScalar.
  assert (∃ t, (body ← string_body cfg s; Ok (Write [x22] (Write body (Write [x22] w)))) = Ok (Write t w) ∧ StringText ML s t) as Ht.
  { destruct (string_body_text s Hs) as (t & -> & Hq & Hu & Hf). exists (x22 :: t ++ [x22]). simpl.
    split; [unfold Write; simpl; by rewrite <- !app_assoc|by constructor]. }
  destruct (Format cfg); [|done|done].
  exists (StringMarker :: Varint.WriteVarInt32 (Z.of_nat (length s)) ++ s).
  rewrite wrap_s_id by (lia || (unfold in_s; simpl; lia)).
  split; [unfold Write; simpl; by rewrite <- !app_assoc|]. constructor. split; lia.
Qed.

Lemma dec_digit_numeric c : is_dec_digit c = true →
  is_numeric_char c = true ∧ isdigit c = true ∧ ∀ r, numeric_step r c = r.
Proof.
  assert (implb (is_dec_digit c) (is_numeric_char c && isdigit c &&
    negb (Byte.eqb c "." || Byte.eqb c "e" || Byte.eqb c "E") && negb (Byte.eqb c "u")) = true) as H
    by (revert c; apply forall_bytes; by vm_compute).
  intros Hc. rewrite Hc in H. apply andb_prop in H as [[[H1 H2]%andb_prop H3%negb_true_iff]%andb_prop H4%negb_true_iff].
  split_and!; [done|done|]. intros r. unfold numeric_step. by rewrite H3, H4.
Qed.

Lemma digits_numeric ds r : Forall (λ b, is_dec_digit b = true) ds →
  Forall (λ c, is_numeric_char c = true) ds ∧ foldl numeric_step r ds = r.
Proof.
  induction 1 as [|c ds Hc Hds [IH1 IH2]]; [done|]. destruct (dec_digit_numeric c Hc) as (H1 & _ & H2).
  simpl. rewrite H2. by split; [constructor|].
Qed.

Lemma short_fits t : (length t <= 256)%nat → fits ML t.
Proof. intros. split; lia. Qed.

Lemma int64_literal z : in_s 64 z → ∃ t, ToString_int z = Ok t ∧ numeric_literal ML NumericInt64 t ∧ FromString_i64 t = Ok z.
Proof.
  intros Hz. destruct (ToString_i64 z Hz) as (c & ds & E & Hc & Hds & Hf). exists (c :: ds).
  pose proof (length_ToString _ _ E) as Hl. unfold bufferSize in Hl.
  destruct (digits_numeric ds NumericInt64 Hds) as [Hn Hr].
  assert (is_numeric_char c = true ∧ isdigit c || Byte.eqb c "-" = true ∧ numeric_step NumericInt64 c = NumericInt64) as (H1 & H2 & H3).
  { destruct Hc as [Hc| ->]; [|done]. destruct (dec_digit_numeric c Hc) as (? & -> & ?). auto. }
  split_and!; [done| |done]. split_and!.
  - exists c, ds. split; [done|]. by rewrite H2.
  - by constructor.
  - simpl. by rewrite H3.
  - apply short_fits. lia.
Qed.

Lemma uint64_literal z : in_u 64 z → ∃ t, ToString_int z = Ok t ∧
  numeric_literal ML NumericUint64 (t ++ B"u") ∧ FromString_ui64 t = Ok z.
Proof.
  intros Hz. destruct (ToString_ui64 z Hz) as (c & ds & E & Hc & Hds & Hf). exists (c :: ds).
  pose proof (length_ToString _ _ E) as Hl. unfold bufferSize in Hl.
  destruct (digits_numeric (c :: ds) NumericInt64) as [Hn Hr]; [by constructor|].
  split_and!; [done| |done]. split_and!.
  - exists c, (ds ++ B"u"). split; [done|]. by destruct (dec_digit_numeric c Hc) as (_ & -> & _).
  - apply Forall_app. split; [done|]. by repeat constructor.
  - by rewrite foldl_app, Hr.
  - apply short_fits. rewrite length_app. simpl in *. lia.
Qed.

(** The class of a printed double: [.] or [e] somewhere, or the [.] appended. *)
Lemma double_class t r : Forall (λ c, is_numeric_char c = true ∧ c ≠ "u"%byte ∧ c ≠ "E"%byte) t →
  foldl numeric_step r t = if contains "." t || contains "e" t then NumericDouble else r.
Proof.
  intros Ht. revert r. induction Ht as [|c t (Hc & Hu & HE) Ht IH]; intros r; [done|]. simpl. rewrite IH.
  unfold numeric_step. rewrite (byte_eqb_neq c "u"), (byte_eqb_neq c "E"), orb_false_r by done.
  rewrite (byte_eqb_sym "." c), (byte_eqb_sym "e" c).
  destruct (Byte.eqb c "."), (Byte.eqb c "e"), (contains "." t), (contains "e" t); done.
Qed.

Lemma double_literal z : in_u 64 z → isfinite z = true → ∃ t, double_text FloatToString z = Ok t ∧
  numeric_literal ML NumericDouble t ∧ fd t = Ok z.
Proof.
  intros Hz Hfin. destruct (printed_alphabet _ _ Hdc z Hz Hfin) as (Ha & (c & t & E & Hc) & Hl).
  destruct (read_back _ _ Hdc z Hz Hfin) as [Hr1 Hr2].
  unfold double_text, FloatToStringWithNanInf. rewrite Hfin. simpl. rewrite andb_true_r.
  set (s := FloatToString z) in *.
  assert (Forall (λ c, is_numeric_char c = true) s) as Hn by (eapply Forall_impl; [|exact Ha]; by intros x [? _]).
  assert (∀ x, (∃ c' t', s ++ x = c' :: t' ∧ isdigit c' || Byte.eqb c' "-" || Byte.eqb c' "+" = true)) as Hhead.
  { intros x. exists c, (t ++ x). rewrite E. split; [done|]. by rewrite Hc. }
  pose proof (double_class s NumericInt64 Ha) as Hcl.
  eexists. split; [done|]. destruct (contains "." s), (contains "e" s); simpl in *; try rewrite app_nil_r.
  4: { split; [|done]. split_and!; [apply Hhead| |by rewrite foldl_app, Hcl|].
       - apply Forall_app. split; [done|]. by repeat constructor.
       - apply short_fits. rewrite length_app. simpl. lia. }
  all: split; [|done]; split_and!; [specialize (Hhead []); by rewrite app_nil_r in Hhead|done|done|apply short_fits; lia].
Qed.

Lemma special_literal z : in_u 64 z → z = PlusInf ∨ z = MinusInf ∨ z = QuietNaN →
  ∃ c e, double_text FloatToString z = Ok ("%"%byte :: c :: e) ∧ (c, e, z) ∈ special_doubles.
Proof.
  intros _ [->|[->| ->]].
  - exists "i"%byte, (B"nf"). split; [done|]. apply list_elem_of_In. simpl. auto.
  - exists "-"%byte, (B"inf"). split; [done|]. apply list_elem_of_In. simpl. auto.
  - exists "n"%byte, (B"an"). split; [done|]. apply list_elem_of_In. simpl. auto.
Qed.

Lemma WriteScalar_text v w : is_scalar v = true → Forall event_ok (value_events v) →
  ∃ ev t, value_events v = [ev] ∧ OnPlainEvent ev w = Ok (EndNode cfg (Write t w)) ∧ ScalarText fd ML v t.
Proof.
  intros Hv Hok. destruct v as [s|z|z|z|b| | |]; try done; apply Forall_inv in Hok; simpl in Hok;
    [exists (OnStringScalar s)|exists (OnInt64Scalar z)|exists (OnUint64Scalar z)|exists (OnDoubleScalar z)
    |exists (OnBooleanScalar b)|exists OnEntity]; cbn [value_events YsonWriter.OnPlainEvent WriteScalar].
  - destruct (WriteStringScalar_text s w Hok) as (t & -> & Ht). exists t. split_and!; [done|done|by constructor].
  - destruct (int64_literal z Hok) as (t & E & Hn & Hf). rewrite E.
    destruct (Format cfg); [eexists; split_and!; [done|unfold Write; simpl; by rewrite <- app_assoc|by constructor]
      |exists t; by split_and!; [done|done|constructor]..].
  - destruct (uint64_literal z Hok) as (t & E & Hn & Hf). rewrite E.
    destruct (Format cfg); [eexists; split_and!; [done|unfold Write; simpl; by rewrite <- app_assoc|by constructor]
      |exists (t ++ B"u"); split_and!; [done|unfold Write; simpl; by rewrite <- app_assoc|by constructor]..].
  - destruct Hok as [Hz Hf]. destruct (decide (Format cfg = Binary)) as [->|Hnb].
    { eexists. split_and!; [done|unfold Write; simpl; by rewrite <- app_assoc|by constructor]. }
    assert (∃ t, double_text FloatToString z = Ok t ∧ ScalarText fd ML (VDouble z) t) as (t & Ht & Hs).
    { destruct Hf as [Hf|Hf].
      - destruct (double_literal z Hz Hf) as (t & ? & ? & ?). exists t. split; [done|]. by constructor.
      - destruct (special_literal z Hz) as (c & e & ? & ?); [tauto|]. eexists. split; [done|]. constructor; [done|lia]. }
    exists t. rewrite Ht. destruct (Format cfg); [done|by split_and!..].
  - destruct (Format cfg); eexists; (split_and!; [done|done|]); [constructor|..].
    all: destruct b; constructor; lia.
  - eexists. split_and!; [done|done|constructor].
Qed.

(** Leading white space is free. *)
Lemma ListText_spaces items t ws : spaces ws → ListText fd ML items t → ListText fd ML items (ws ++ t).
Proof.
  intros Hws [ws0 H0|ws1 n t0 ws2 H1 Hn H2|ws1 n t0 ws2 items' t' H1 Hn H2 Hl]; [|rewrite app_assoc..].
  - constructor. by apply Forall_app.
  - constructor; [by apply Forall_app|done|done].
  - constructor; [by apply Forall_app|done|done|done].
Qed.

Lemma MapText_spaces items t ws : spaces ws → MapText fd ML items t → MapText fd ML items (ws ++ t).
Proof.
  intros Hws [ws0 H0|ws1 key tk ws2 ws3 n t0 ws4 H1 Hk H2 H3 Hn H4|ws1 key tk ws2 ws3 n t0 ws4 items' t' H1 Hk H2 H3 Hn H4 Hl];
    [|rewrite app_assoc..].
  - constructor. by apply Forall_app.
  - constructor; [by apply Forall_app|done..].
  - constructor; [by apply Forall_app|done..].
Qed.

(** The writer, started in [w], appends [t] and comes back to its depth. *)
Definition appends (evs : list TYsonEvent) (w : TYsonWriter) (t : list byte) : Prop :=
  ∃ e, run evs w = Ok {| Output := Output w ++ t; Depth := Depth w; EmptyCollection := e |}.

Definition WN (n : TNode) : Prop := Forall event_ok (node_events n) → ∀ w, 0 <= Depth w →
  ∃ t, appends (node_events n) w (t ++ end_text (Depth w)) ∧ NodeText fd ML n t.
Definition WV (v : TValue) : Prop := Forall event_ok (value_events v) → ∀ w, 0 <= Depth w →
  ∃ t, appends (value_events v) w (t ++ end_text (Depth w)) ∧ ValueText fd ML v t.
Definition WL (items : list TNode) : Prop := Forall event_ok (list_events items) → ∀ w, 0 <= Depth w →
  separates (Depth w) = true →
  ∃ t, appends (list_events items) w t ∧ ∀ ws, spaces ws → ListText fd ML items (t ++ ws).
Definition WM (items : list (list byte * TNode)) : Prop := Forall event_ok (map_events items) → ∀ w, 0 <= Depth w →
  separates (Depth w) = true →
  ∃ t, appends (map_events items) w t ∧ ∀ ws, spaces ws → MapText fd ML items (t ++ ws).

Lemma appends_app evs1 evs2 w t1 t2 : appends evs1 w t1 →
  (∀ e, appends evs2 {| Output := Output w ++ t1; Depth := Depth w; EmptyCollection := e |} t2) →
  appends (evs1 ++ evs2) w (t1 ++ t2).
Proof.
  intros [e1 H1] H2. destruct (H2 e1) as [e2 H2']. exists e2. rewrite run_app, H1. simpl in *.
  by rewrite H2', app_assoc.
Qed.

Lemma list_writes items : Forall WN items → WL items.
Proof.
  induction 1 as [|n items Hn _ IH]; intros Hok w Hd Hsep.
  { exists []. split; [exists (EmptyCollection w); destruct w; simpl; by rewrite app_nil_r|]. intros ws Hws. by constructor. }
  cbn [list_events] in *. inversion_clear Hok as [|? ? _ Hok']. apply Forall_app in Hok' as [Hok1 Hok2].
  destruct (Hn Hok1 (CollectionItem cfg w)) as (t & Ht & HN); [by rewrite CollectionItem_text|].
  rewrite CollectionItem_text in Ht. simpl in Ht.
  destruct Ht as [e1 He1].
  destruct (IH Hok2 {| Output := (Output w ++ item_space w) ++ t ++ end_text (Depth w); Depth := Depth w; EmptyCollection := e1 |}
    Hd Hsep) as (t2 & [e2 He2] & HL2). simpl in He1, He2.
  exists (item_space w ++ t ++ end_text (Depth w) ++ t2). split.
  - exists e2. simpl. rewrite CollectionItem_text, run_app, He1. simpl. rewrite He2. by rewrite <- !app_assoc.
  - intros ws Hws. unfold end_text. rewrite Hsep. rewrite <- ?app_assoc. simpl. rewrite <- ?app_assoc.
    apply (ListItem _ _ (item_space w) n t []); [apply item_space_spaces|done|constructor|].
    apply ListText_spaces; [apply line_end_spaces|by apply HL2].
Qed.

(** The spaces around [=]. *)
Definition key_space : list byte := if is_pretty then B" " else [].
Lemma key_space_spaces : spaces key_space.
Proof. unfold key_space, spaces. destruct is_pretty; repeat constructor. Qed.

Lemma OnKeyedItem_text key w : string_ok key → ∃ tk,
  OnPlainEvent (OnKeyedItem key) w =
    Ok {| Output := Output w ++ item_space w ++ tk ++ key_space ++ KeyValueSeparatorSymbol :: key_space;
          Depth := Depth w; EmptyCollection := false |} ∧ StringText ML key tk.
Proof.
  intros Hk. cbn [YsonWriter.OnPlainEvent]. unfold OnKeyedItem_. rewrite CollectionItem_text.
  destruct (WriteStringScalar_text key {| Output := Output w ++ item_space w; Depth := Depth w; EmptyCollection := false |} Hk)
    as (tk & -> & Ht). exists tk. split; [|done]. unfold Write, key_space. simpl. by rewrite <- !app_assoc.
Qed.

Lemma map_writes items : Forall (λ kn, WN kn.2) items → WM items.
Proof.
  induction 1 as [|[key n] items Hn _ IH]; intros Hok w Hd Hsep.
  { exists []. split; [exists (EmptyCollection w); destruct w; simpl; by rewrite app_nil_r|]. intros ws Hws. by constructor. }
  cbn [map_events] in *. inversion_clear Hok as [|? ? Hk Hok']. apply Forall_app in Hok' as [Hok1 Hok2].
  destruct (OnKeyedItem_text key w Hk) as (tk & Htk & Hkt).
  set (pre := item_space w ++ tk ++ key_space ++ KeyValueSeparatorSymbol :: key_space) in *.
  destruct (Hn Hok1 {| Output := Output w ++ pre; Depth := Depth w; EmptyCollection := false |} Hd) as (t & [e1 He1] & HN).
  simpl in He1.
  destruct (IH Hok2 {| Output := (Output w ++ pre) ++ t ++ end_text (Depth w); Depth := Depth w; EmptyCollection := e1 |}
    Hd Hsep) as (t2 & [e2 He2] & HM2). simpl in He2.
  exists (pre ++ t ++ end_text (Depth w) ++ t2). split.
  - exists e2. cbn [run]. rewrite Htk. run_bind. rewrite run_app, He1. run_bind.
    rewrite He2. by rewrite <- !app_assoc.
  - intros ws Hws. unfold end_text, pre. rewrite Hsep. rewrite <- ?app_assoc. cbn [app]. rewrite <- ?app_assoc. cbn [app].
    rewrite <- ?app_assoc.
    apply (MapItem _ _ (item_space w) key tk key_space key_space n t []);
      [apply item_space_spaces|done|apply key_space_spaces|apply key_space_spaces|done|constructor|].
    apply MapText_spaces; [apply line_end_spaces|by apply HM2].
Qed.

Lemma separates_inner d : 0 <= d → separates (d + 1) = true.
Proof. intros. unfold separates. by destruct (Z.gtb_spec (d + 1) 0); [|lia]. Qed.

(** A collection: its opening symbol, its items one level deeper, its closing symbol. *)
Lemma collection_writes evs open close w t : appends evs (BeginCollection open w) t →
  ∃ ws w2, spaces ws ∧ run evs (BeginCollection open w) = Ok w2 ∧
    EndCollection cfg close w2 =
      {| Output := Output w ++ open :: (t ++ ws) ++ [close]; Depth := Depth w; EmptyCollection := false |}.
Proof.
  intros [e He]. eexists _, _. split_and!; [|exact He|]; [apply close_space_spaces|].
  rewrite EndCollection_text. simpl. f_equal; [|lia]. by rewrite <- !app_assoc.
Qed.

Lemma value_writes_list items : Forall WN items → WV (VList items).
Proof.
  intros Hi Hok w Hd. rewrite value_events_list in *. inversion_clear Hok as [|? ? _ Hok'].
  apply Forall_app in Hok' as [Hok1 _].
  destruct (list_writes items Hi Hok1 (BeginCollection BeginListSymbol w)) as (t & Ht & HL);
    [simpl; lia|simpl; by apply separates_inner|].
  destruct (collection_writes _ _ EndListSymbol _ _ Ht) as (ws & w2 & Hws & Hrun & Hend).
  exists (BeginListSymbol :: (t ++ ws) ++ [EndListSymbol]). split; [|constructor; by apply HL].
  exists false. cbn [run YsonWriter.OnPlainEvent mbind result_bind]. rewrite run_app, Hrun. simpl.
  rewrite Hend, EndNode_text. simpl. rewrite <- ?app_assoc. simpl. by rewrite <- ?app_assoc.
Qed.

Lemma value_writes_map items : Forall (λ kn, WN kn.2) items → WV (VMap items).
Proof.
  intros Hi Hok w Hd. rewrite value_events_map in *. inversion_clear Hok as [|? ? _ Hok'].
  apply Forall_app in Hok' as [Hok1 _].
  destruct (map_writes items Hi Hok1 (BeginCollection BeginMapSymbol w)) as (t & Ht & HM);
    [simpl; lia|simpl; by apply separates_inner|].
  destruct (collection_writes _ _ EndMapSymbol _ _ Ht) as (ws & w2 & Hws & Hrun & Hend).
  exists (BeginMapSymbol :: (t ++ ws) ++ [EndMapSymbol]). split; [|constructor; by apply HM].
  exists false. cbn [run YsonWriter.OnPlainEvent mbind result_bind]. rewrite run_app, Hrun. simpl.
  rewrite Hend, EndNode_text. simpl. rewrite <- ?app_assoc. simpl. by rewrite <- ?app_assoc.
Qed.

Lemma value_writes_scalar v : is_scalar v = true → WV v.
Proof.
  intros Hv Hok w Hd. destruct (WriteScalar_text v w Hv Hok) as (ev & t & -> & Hev & Ht).
  exists t. split; [|by constructor]. exists (EmptyCollection w). cbn [run]. rewrite Hev, EndNode_text. simpl.
  by rewrite <- app_assoc.
Qed.

Lemma node_writes attributes v : (∀ items, attributes = Some items → Forall (λ kn, WN kn.2) items) → WV v →
  WN (Node attributes v).
Proof.
  intros Ha Hv Hok w Hd. rewrite node_events_eq in *. apply Forall_app in Hok as [Hok1 Hok2].
  destruct attributes as [items|]; cbn [attribute_events] in *.
  2: { destruct (Hv Hok2 w Hd) as (t & Ht & HV). exists t. split; [exact Ht|by constructor]. }
  inversion_clear Hok1 as [|? ? _ Hok']. apply Forall_app in Hok' as [Hoki _].
  destruct (map_writes items (Ha _ eq_refl) Hoki (BeginCollection BeginAttributesSymbol w)) as (t & Ht & HM);
    [simpl; lia|simpl; by apply separates_inner|].
  destruct (collection_writes _ _ EndAttributesSymbol _ _ Ht) as (ws & w2 & Hws & Hrun & Hend).
  set (out := Output w ++ BeginAttributesSymbol :: (t ++ ws) ++ EndAttributesSymbol :: key_space).
  destruct (Hv Hok2 {| Output := out; Depth := Depth w; EmptyCollection := false |} Hd) as (tv & [e He] & HV). simpl in He.
  exists (BeginAttributesSymbol :: (t ++ ws) ++ EndAttributesSymbol :: key_space ++ tv).
  split; [|apply AttributedNode; [by apply HM|apply key_space_spaces|done]].
  exists e. cbn [app run YsonWriter.OnPlainEvent mbind result_bind]. rewrite <- app_assoc, run_app, Hrun.
  cbn [mbind result_bind app run YsonWriter.OnPlainEvent]. rewrite Hend.
  replace (if is_pretty then Write _ _ else _) with
    {| Output := out; Depth := Depth w; EmptyCollection := false |}.
  - rewrite He. subst out. rewrite <- ?app_assoc. cbn [app]. by rewrite <- ?app_assoc.
  - subst out. unfold key_space, Write. destruct is_pretty; simpl; by rewrite <- ?app_assoc; cbn [app]; rewrite <- ?app_assoc.
Qed.

Lemma writer_text n : WN n.
Proof.
  apply (node_ind' WN WV); [apply node_writes|by intros; apply value_writes_scalar..|apply value_writes_list|apply value_writes_map].
Qed.

Lemma writer_feed evs w : Forall event_ok evs →
  feed (H := YsonWriter FloatToString fd cfg) evs w = w ← run evs w; Ok (w, false).
Proof.
  intros Hok. revert w. induction Hok as [|ev evs Hev Hok IH]; intros w; [done|]. cbn [feed run]. unfold OnEvent, YsonWriter.
  replace (match ev with OnRaw yson type => _ | _ => OnPlainEvent ev w end) with (OnPlainEvent ev w) by by destruct ev.
  by destruct (OnPlainEvent ev w) as [w1| | |]; simpl; [apply IH|..].
Qed.

Lemma writer_mode_text evs d : mode_events (Type_ cfg) evs d → Forall event_ok evs →
  ∃ w, run evs NewYsonWriter = Ok w ∧ ModeText fd ML (Type_ cfg) evs d (Output w).
Proof.
  intros Hm Hok.
  assert (∀ items, Forall WN items) as HL by (intros; apply Forall_forall; intros; apply writer_text).
  assert (∀ items : list (list byte * TNode), Forall (λ kn, WN kn.2) items) as HM
    by (intros; apply Forall_forall; intros; apply writer_text).
  destruct (Type_ cfg) eqn:Ety.
  - destruct Hm as (n & -> & ->). destruct (writer_text n Hok NewYsonWriter) as (t & [e He] & Ht); [done|].
    eexists. split; [exact He|]. simpl. unfold end_text, separates. rewrite Ety. simpl. apply (NodeMode _ _ [] n t []); [constructor|done|constructor].
  - destruct Hm as (items & -> & ->). assert (separates 0 = true) as Hsep by (unfold separates; by rewrite Ety).
    destruct (list_writes items (HL _) Hok NewYsonWriter) as (t & [e He] & Ht); [done|done|].
    eexists. split; [exact He|]. simpl. constructor. rewrite <- (app_nil_r t). apply Ht. constructor.
  - destruct Hm as (items & -> & ->). assert (separates 0 = true) as Hsep by (unfold separates; by rewrite Ety).
    destruct (map_writes items (HM _) Hok NewYsonWriter) as (t & [e He] & Ht); [done|done|].
    eexists. split; [exact He|]. simpl. constructor. rewrite <- (app_nil_r t). apply Ht. constructor.
Qed.
End WriterText.

#[export] Instance event_ok_dec cfg ML ev : Decision (event_ok cfg ML ev).
Proof. destruct ev; unfold event_ok, string_ok; apply _. Defined.

(** The hypotheses on conversions of doubles can be met: the decimal form of the bits. *)
Module ExampleConversions.
Definition print_bits (v : Z) : list byte := match ToString_int v with Ok t => t | _ => [] end.
Definition strip_point (t : list byte) : list byte :=
  match reverse t with "."%byte :: t' => reverse t' | _ => t end.
Definition read_bits (t : list byte) : Result Z := FromString_ui64 (strip_point t).

Lemma strip_digits t : Forall (λ b, is_dec_digit b = true) t → strip_point t = t ∧ strip_point (t ++ B".") = t.
Proof.
  intros Ht. unfold strip_point. split; [|change (B".") with ["."%byte]; by rewrite reverse_snoc, reverse_involutive].
  destruct (reverse t) as [|c t'] eqn:E; [done|]. destruct (decide (c = "."%byte)) as [->|Hne]; [|by destruct c].
  assert ("."%byte ∈ t) as Hin by (rewrite <- (reverse_involutive t), E, elem_of_reverse; by left).
  rewrite Forall_forall in Ht. apply list_elem_of_In in Hin. by specialize (Ht _ Hin).
Qed.

Lemma conversions : double_conversions print_bits read_bits.
Proof.
  split; intros v Hv _; unfold print_bits; destruct (ToString_ui64 v Hv) as (c & ds & E & Hc & Hds & Hf); rewrite E.
  - split_and!.
    + assert (∀ b, is_dec_digit b = true → is_numeric_char b = true ∧ b ≠ "u"%byte ∧ b ≠ "E"%byte) as Hb.
      { intros b Hb. split; [apply (dec_digit_numeric b Hb)|]. split; by intros ->. }
      constructor; [by apply Hb|]. eapply Forall_impl; [|exact Hds]. simpl. apply Hb.
    + exists c, ds. split; [done|]. by destruct (dec_digit_numeric c Hc) as (_ & -> & _).
    + apply length_ToString in E. unfold bufferSize in E. lia.
  - destruct (strip_digits (c :: ds)) as [E1 E2]; [by constructor|]. unfold read_bits. by rewrite E1, E2.
Qed.
End ExampleConversions.

(** C1. Writing and parsing are inverse in every format: for every document (or list or map
    fragment) whose strings fit a literal and whose doubles the format can express, nested
    within the limit, the writer (binary, text or pretty, any indentation, with or without
    passing UTF-8 through) accepts the events, and parsing what it wrote, cut into blocks in
    any way, makes exactly the same calls on any consumer. *)
Theorem write_parse_roundtrip (FloatToString : Z → list byte) (fd : list byte → Result Z)
    (cfg : TYsonWriterConfig) (ML NL : Z) (evs : list TYsonEvent) (depth : nat)
    (Hdc : double_conversions FloatToString fd) (HML : 256 <= wrap_u 64 ML)
    (Hevs : mode_events (Type_ cfg) evs depth) (Hok : Forall (event_ok cfg ML) evs) (Hdepth : Z.of_nat depth <= NL) :
  ∃ w, feed (H := YsonWriter FloatToString fd cfg) evs NewYsonWriter = Ok (w, false) ∧
  ∀ C (O : IYsonConsumer C) (c : C) (s : TStream), at_stream s (Output w) →
    match feed evs c with
    | Ok (c', stop) => ∃ p', DoParse fd ML NL (Type_ cfg) (NewParser s c) = Ok p' ∧ Consumer p' = c' ∧ Stopped p' = stop
    | Throw e => DoParse fd ML NL (Type_ cfg) (NewParser s c) = Throw e
    | Crash => DoParse fd ML NL (Type_ cfg) (NewParser s c) = Crash
    | OutOfFuel => DoParse fd ML NL (Type_ cfg) (NewParser s c) = OutOfFuel
    end.
Proof.
  destruct (writer_mode_text FloatToString fd Hdc cfg ML HML evs depth Hevs Hok) as (w & Hw & Ht).
  exists w. rewrite (writer_feed FloatToString fd cfg ML evs NewYsonWriter Hok), Hw. split; [done|].
  intros C O c s Hs. by eapply DoParse_accepts.
Qed.

Definition example_config (format : EYsonFormat) : TYsonWriterConfig :=
  {| Format := format; Type_ := YsonNode; EnableRaw := false; IndentSize := 4; PassThroughUtf8Characters := true |}.
Definition example_node : TNode :=
  Node (Some [(B"a", Node None (VInt64 (-5)))])
    (VList [Node None (VMap [(B"k", Node None (VString [x22; x0a; xff]))]); Node None (VDouble PlusInf); Node None VEntity]).

Lemma write_parse_roundtrip_witness :
  ∃ w, feed (H := YsonWriter ExampleConversions.print_bits ExampleConversions.read_bits (example_config Pretty))
         (node_events example_node) NewYsonWriter = Ok (w, false) ∧
  ∃ p', DoParse (H := Recorder) ExampleConversions.read_bits (max_s 64) 256 YsonNode
          (NewParser (TStringReader (Output w)) []) = Ok p' ∧ Consumer p' = node_events example_node.
Proof.
  assert (mode_events YsonNode (node_events example_node) 3) as Hm by (by exists example_node).
  assert (Forall (event_ok (example_config Pretty) (max_s 64)) (node_events example_node)) as Hok
    by (apply (bool_decide_unpack _); by vm_compute).
  destruct (write_parse_roundtrip ExampleConversions.print_bits ExampleConversions.read_bits (example_config Pretty)
    (max_s 64) 256 (node_events example_node) 3 ExampleConversions.conversions ltac:(by vm_compute) Hm Hok ltac:(lia))
    as (w & Hw & Hparse).
  exists w. split; [exact Hw|].
  pose proof (Hparse TRecorder Recorder [] (TStringReader (Output w))) as H. rewrite feed_recorder in H.
  destruct H as (p' & Hp & Hc & _); [split; [done|]; unfold text_of; simpl; apply app_nil_r|]. eauto.
Defined.

(** ** The buffered writer against the plain one *)

Definition NewBufferedWriter : TBufferedBinaryYsonWriter := {| TokenWriter := []; BDepth := 0 |}.

(** How far the collections opened by [evs] exceed those closed. *)
Fixpoint open_depth (evs : list TYsonEvent) : Z :=
  match evs with
  | [] => 0
  | (OnBeginList | OnBeginMap | OnBeginAttributes) :: evs => 1 + open_depth evs
  | (OnEndList | OnEndMap | OnEndAttributes) :: evs => open_depth evs - 1
  | _ :: evs => open_depth evs
  end.

Section Buffered.
Context (FloatToString : Z → list byte) (fd : list byte → Result Z) (cfg : TYsonWriterConfig).
Context (Hformat : Format cfg = Binary) (Hraw : EnableRaw cfg = true) (limit : Z).

Definition similar (w : TYsonWriter) (b : TBufferedBinaryYsonWriter) : Prop :=
  Output w = TokenWriter b ∧ Depth w = BDepth b.

Lemma EndNode_similar w b : similar w b → similar (EndNode cfg w) (BEndNode (Type_ cfg) b).
Proof.
  unfold similar, EndNode, BEndNode, tokens, WriteSymbol. intros [Ho Hd]. rewrite Hformat, Hd.
  destruct (BDepth b >? 0), (bool_decide (Type_ cfg = YsonNode)); simpl; rewrite ?andb_false_r, ?Ho, ?Hd; simpl; try done.
  all: rewrite Hd, ?andb_false_r; simpl; by rewrite Ho.
Qed.

Definition step_open (ev : TYsonEvent) : Z := open_depth [ev].

Lemma buffered_step ev w b : similar w b →
  match BufferedBinaryYsonWriter fd (Type_ cfg) true limit ev b with
  | Ok (b', stop) => stop = false ∧ BDepth b' = BDepth b + step_open ev ∧
      ∃ w', YsonWriter FloatToString fd cfg ev w = Ok (w', false) ∧ similar w' b'
  | Throw e => e = EDepthLimitExceeded ∧ step_open ev = 1 ∧ limit < BDepth b + 1
  | _ => False
  end.
Proof.
  intros [Ho Hd]. unfold BufferedBinaryYsonWriter, YsonWriter.
  assert (∀ b, BDepth (BEndNode (Type_ cfg) b) = BDepth b) as HB by (intros b0; unfold BEndNode; by destruct (_ || _)).
  assert (∀ w' b', similar w' b' → BDepth b' = BDepth b →
    false = false ∧ BDepth (BEndNode (Type_ cfg) b') = BDepth b + 0 ∧
    ∃ w2, Ok (EndNode cfg w', false) = Ok (w2, false) ∧ similar w2 (BEndNode (Type_ cfg) b')) as Hscalar.
  { intros w' b' Hs' Hb'. split_and!; [done|rewrite HB; lia|]. eexists. split; [done|]. by apply EndNode_similar. }
  assert (∀ w' b', similar w' b' → BDepth b' = BDepth b - 1 →
    false = false ∧ BDepth (BEndNode (Type_ cfg) b') = BDepth b + -1 ∧
    ∃ w2, Ok (EndNode cfg w', false) = Ok (w2, false) ∧ similar w2 (BEndNode (Type_ cfg) b')) as Hclose.
  { intros w' b' Hs' Hb'. split_and!; [done|rewrite HB; lia|]. eexists. split; [done|]. by apply EndNode_similar. }
  assert (∀ sym, match (w ← (w ← BBeginCollection limit b; Ok (tokens (WriteSymbol sym) w)); Ok (w, false)) with
    | Ok (b', stop) => stop = false ∧ BDepth b' = BDepth b + 1 ∧
        ∃ w', Ok (BeginCollection sym w, false) = Ok (w', false) ∧ similar w' b'
    | Throw e => e = EDepthLimitExceeded ∧ 1 = 1 ∧ limit < BDepth b + 1
    | _ => False end) as Hopen.
  { intros sym. unfold BBeginCollection. simpl. destruct (Z.gtb_spec (BDepth b + 1) limit); simpl; [by split_and!; [|..|lia]|].
    split_and!; [done|done|]. eexists. split; [done|]. split; simpl; [by rewrite Ho|lia]. }
  destruct ev; cbn [BOnPlainEvent OnPlainEvent WriteScalar WriteStringScalar mbind result_bind];
    unfold WriteScalar, WriteStringScalar; rewrite ?Hformat, ?Hraw; run_bind;
    try (apply Hopen);
    try (apply Hscalar; [split; simpl; by rewrite ?Ho|done]);
    try (apply Hclose; [split; unfold EndCollection, CollectionItem; rewrite ?Hformat; simpl; [by rewrite Ho|lia]|done]).
  - split_and!; [done|cbv [step_open open_depth]; simpl; lia|]. eexists. split; [done|]. unfold CollectionItem. rewrite Hformat. by split.
  - unfold OnKeyedItem_, WriteStringScalar. rewrite Hformat. run_bind. split_and!; [done|cbv [step_open open_depth]; simpl; lia|].
    eexists. split; [done|]. unfold CollectionItem. rewrite Hformat. split; simpl; [by rewrite app_nil_r, app_nil_r, Ho|done].
  - split_and!; [done|cbv [step_open open_depth]; simpl; lia|]. eexists. split; [done|]. unfold EndCollection. rewrite Hformat.
    split; simpl; [by rewrite Ho|lia].
  - destruct (bool_decide (type = YsonNode)); [apply Hscalar; [split; simpl; by rewrite ?Ho|done]|].
    split_and!; [done|cbv [step_open open_depth]; simpl; lia|]. eexists. split; [done|]. split; simpl; [by rewrite Ho|done].
Qed.

Lemma open_depth_app e1 e2 : open_depth (e1 ++ e2) = open_depth e1 + open_depth e2.
Proof. induction e1 as [|ev e1 IH]; [done|]. cbn [app open_depth]. rewrite IH. destruct ev; lia. Qed.

Lemma buffered_feed evs w b : similar w b →
  match feed (H := BufferedBinaryYsonWriter fd (Type_ cfg) true limit) evs b with
  | Ok (b', stop) => stop = false ∧ BDepth b' = BDepth b + open_depth evs ∧
      ∃ w', feed (H := YsonWriter FloatToString fd cfg) evs w = Ok (w', false) ∧ similar w' b'
  | Throw e => e = EDepthLimitExceeded ∧ ∃ pre ev post, evs = pre ++ ev :: post ∧ limit < BDepth b + open_depth (pre ++ [ev])
  | _ => False
  end.
Proof.
  revert w b. induction evs as [|ev evs IH]; intros w b Hs.
  { cbn [feed open_depth]. split_and!; [done|lia|eauto]. }
  cbn [feed]. pose proof (buffered_step ev w b Hs) as Hstep. unfold OnEvent.
  destruct (BufferedBinaryYsonWriter fd (Type_ cfg) true limit ev b) as [[b1 stop]|e| |]; [|..|done|done].
  - destruct Hstep as (-> & Hb1 & w1 & Hw1 & Hs1). rewrite Hw1. run_bind.
    specialize (IH w1 b1 Hs1). destruct (feed _ b1) as [[b2 stop]|e| |]; try done.
    + destruct IH as (-> & Hb2 & Hw2). split_and!; [done| |done]. unfold step_open in Hb1.
      rewrite (open_depth_app [ev] evs : open_depth (ev :: evs) = _). lia.
    + destruct IH as (-> & pre & ev' & post & -> & Hl). split; [done|]. exists (ev :: pre), ev', post. split; [done|].
      rewrite (open_depth_app [ev] (pre ++ [ev']) : open_depth ((ev :: pre) ++ [ev']) = _). unfold step_open in Hb1. lia.
  - destruct Hstep as (-> & Hst & Hl). run_bind. split; [done|]. exists [], ev, evs. split; [done|].
    unfold step_open in Hst. simpl app. lia.
Qed.
End Buffered.

(** The buffered binary writer is an optimisation of [TYsonWriter]: for every sequence of
    calls, well formed or not, raw fragments included, it writes byte for byte what the
    binary [TYsonWriter] writes and reports the same depth; the only other outcome is the
    depth error, thrown exactly when a call opens a collection beyond the nesting limit. *)
Theorem buffered_writer_equivalent (FloatToString : Z → list byte) (fd : list byte → Result Z)
    (cfg : TYsonWriterConfig) (limit : Z) (evs : list TYsonEvent)
    (Hformat : Format cfg = Binary) (Hraw : EnableRaw cfg = true) :
  match feed (H := BufferedBinaryYsonWriter fd (Type_ cfg) true limit) evs NewBufferedWriter with
  | Ok (b, stop) => stop = false ∧ BDepth b = open_depth evs ∧
      ∃ w, feed (H := YsonWriter FloatToString fd cfg) evs NewYsonWriter = Ok (w, false) ∧
        Output w = TokenWriter b ∧ Depth w = BDepth b
  | Throw e => e = EDepthLimitExceeded ∧ ∃ pre ev post, evs = pre ++ ev :: post ∧ limit < open_depth (pre ++ [ev])
  | _ => False
  end.
Proof.
  exact (buffered_feed FloatToString fd cfg Hformat Hraw limit evs NewYsonWriter NewBufferedWriter (conj eq_refl eq_refl)).
Qed.

Lemma buffered_writer_equivalent_witness :
  match feed (H := BufferedBinaryYsonWriter (λ _, Ok 0) YsonNode true 1) (node_events example_node) NewBufferedWriter with
  | Ok _ => False
  | Throw e => e = EDepthLimitExceeded
  | _ => False
  end.
Proof.
  pose proof (buffered_writer_equivalent (λ _, []) (λ _, Ok 0)
    {| Format := Binary; Type_ := YsonNode; EnableRaw := true; IndentSize := 4; PassThroughUtf8Characters := false |}
    1 (node_events example_node) eq_refl eq_refl) as H.
  cbn [Type_] in H.
  destruct (feed _ NewBufferedWriter) as [[b stop]|e| |] eqn:E; [vm_compute in E; discriminate E|exact (proj1 H)|exact H|exact H].
Defined.
