(* ===== verification/YsonReplay.v ===== *)
(** The parser does not look at its consumer: parsing with any consumer is recording the calls and
    replaying them. What a consumer sees and decides can therefore be read off the recorded calls,
    for every text, well-formed or not. *)

From S2P Require Import Prelude IntCast Coding YsonStream YsonLexer YsonEvents YsonParser YsonGrammar YsonWriter.

Section Replay.
Context {C : Type} `{O : IYsonConsumer C} (fd : list byte → Result Z) (ML NL : Z).
Implicit Types (p : TParser C) (q : TParser TRecorder).

(** Two parsers at the same place, the second of which records. *)
Definition abreast p q : Prop := Lexer p = Lexer q ∧ NestingLevel p = NestingLevel q ∧ Stopped p = false ∧ Stopped q = false.

(** What becomes of a run from the calls that were recorded from its beginning on: their outcome. *)
Definition outcome (fed : Result (C * bool)) (r : Result (TParser C)) (l : TLexer) (level : Z) : Prop :=
  match fed with
  | Ok (c, false) => r = Ok {| Lexer := l; NestingLevel := level; Stopped := false; Consumer := c |}
  | Ok (c, true) => ∃ p, r = Ok p ∧ Consumer p = c ∧ Stopped p = true
  | Throw e => r = Throw e
  | Crash => r = Crash
  | OutOfFuel => r = OutOfFuel
  end.

(** Where the recording fails, a run returns only because the consumer stopped it. *)
Definition replays p q (r1 : Result (TParser C)) (r2 : Result (TParser TRecorder)) : Prop :=
  match r2 with
  | Ok q' => Stopped q' = false ∧ ∃ evs, Consumer q' = Consumer q ++ evs ∧ outcome (feed evs (Consumer p)) r1 (Lexer q') (NestingLevel q')
  | _ => ∀ p', r1 = Ok p' → Stopped p' = true
  end.

Lemma abreast_skip p q : abreast p q → abreast (skip1 p) (skip1 q).
Proof. intros (H1 & H2 & H3 & H4). unfold abreast, skip1. cbn. by rewrite H1. Qed.

Lemma abreast_lexer p q l : abreast p q → abreast (set_Lexer p l) (set_Lexer q l).
Proof. by intros (H1 & H2 & H3 & H4). Qed.

Lemma abreast_level p q level : abreast p q → abreast (set_NestingLevel p level) (set_NestingLevel q level).
Proof. by intros (H1 & H2 & H3 & H4). Qed.

Lemma replays_ok p q : abreast p q → replays p q (Ok p) (Ok q).
Proof. intros (H1 & H2 & H3 & H4). split; [done|]. exists []. rewrite app_nil_r. split; [done|]. cbn. rewrite <- H1, <- H2, <- H3. by destruct p. Qed.

Lemma replays_emit ev p q : abreast p q → replays p q (emit ev p) (emit ev q).
Proof.
  intros (H1 & H2 & H3 & H4). unfold emit. cbn. rewrite H4. split; [done|]. exists [ev]. split; [done|]. cbn. destruct (OnEvent ev (Consumer p)) as [[c [|]]| | |]; cbn; try done.
  - eexists. split; [done|]. cbn. by rewrite H3.
  - by rewrite H1, H2, H3.
Qed.

(** A run goes on behind the calls that it made; a stopped one stays so. *)
Definition stays (k : TParser C → Result (TParser C)) : Prop := ∀ p, Stopped p = true → ∃ p', k p = Ok p' ∧ Consumer p' = Consumer p ∧ Stopped p' = true.

Lemma replays_bind p q r1 r2 k1 k2 : replays p q r1 r2 → stays k1 → (∀ p' q', abreast p' q' → replays p' q' (k1 p') (k2 q')) → replays p q (r1 ≫= k1) (r2 ≫= k2).
Proof.
  intros Hr Hstays Hk. destruct r2 as [q'|e| |].
  2-4: cbn in *; intros p' (p1 & E1 & E2)%bind_ok; destruct (Hstays p1 (Hr p1 E1)) as (p2 & E & _ & Hs); congruence.
  destruct Hr as (Hq & evs & Ec & Ho). run_bind. destruct (feed evs (Consumer p)) as [[c [|]]|e| |] eqn:Ef; cbn [outcome] in Ho.
  2: { subst r1. run_bind. set (p1 := Build_TParser _ _ _ _). specialize (Hk p1 q' ltac:(by split_and!)). unfold replays in *. destruct (k2 q') as [q''| | |]; try done.
    destruct Hk as (Hq' & evs' & Ec' & Ho'). split; [done|]. exists (evs ++ evs'). split; [by rewrite Ec', Ec, app_assoc|]. by rewrite feed_app, Ef. }
  all: set (p0 := Build_TParser (Lexer q') (NestingLevel q') false (Consumer p)); pose proof (Hk p0 q' ltac:(by split_and!)) as Hgrow.
  all: assert (∀ evs' l level, outcome (feed (evs ++ evs') (Consumer p)) (r1 ≫= k1) l level) as Hhalt.
  all: try (intros evs' l level; rewrite feed_app, Ef; cbn; by rewrite Ho).
  1: { intros evs' l level. rewrite feed_app, Ef. cbn. destruct Ho as (p1 & -> & <- & Hs). run_bind. by apply Hstays. }
  all: unfold replays in *; destruct (k2 q') as [q''| | |].
  all: try (destruct Hgrow as (Hq' & evs' & Ec' & _); split; [done|]; exists (evs ++ evs'); split; [by rewrite Ec', Ec, app_assoc|apply Hhalt]).
  all: intros p' E; specialize (Hhalt [] (Lexer q') 0); rewrite app_nil_r, Ef in Hhalt; cbn in Hhalt; rewrite E in Hhalt; try done.
  all: by destruct Hhalt as (p2 & [= ->] & _ & Hs).
Qed.

(** Reading does not depend on the consumer. *)
Lemma replays_lexer {A} (f : TLexer → Result (TLexer * A)) p q k1 k2 : abreast p q →
  (∀ p' q' a, abreast p' q' → Consumer p' = Consumer p → Consumer q' = Consumer q → replays p' q' (k1 (p', a)) (k2 (q', a))) → replays p q (on_lexer f p ≫= k1) (on_lexer f q ≫= k2).
Proof.
  intros Hpq Hk. unfold on_lexer. pose proof Hpq as (<- & _). destruct (f (Lexer p)) as [[l a]| | |]; run_bind; try done. exact (Hk _ _ a (abreast_lexer p q l Hpq) eq_refl eq_refl).
Qed.

Lemma replays_token {A} (f : TLexer → Result (TLexer * A)) (ev : A → TYsonEvent) p q : abreast p q →
  replays p q ('(p, value) ← on_lexer f p; emit (ev value) p) ('(q, value) ← on_lexer f q; emit (ev value) q).
Proof. intros Hpq. apply replays_lexer; [done|]. intros p' q' a Hpq' _ _. by apply replays_emit. Qed.

Lemma replays_skip p q r1 r2 : replays (skip1 p) (skip1 q) r1 r2 → replays p q r1 r2.
Proof. done. Qed.

Lemma ParseNumeric_replays a p q : abreast p q → replays p q (ParseNumeric fd ML a p) (ParseNumeric fd ML a q).
Proof.
  intros Hpq. unfold ParseNumeric. apply replays_lexer; [done|]. intros p' q' [[| |] buffer] Hpq' _ _.
  - destruct (FromString_i64 buffer); try done. by apply replays_emit.
  - destruct (FromString_ui64 _); try done. by apply replays_emit.
  - destruct (fd buffer); try done. by apply replays_emit.
Qed.

Lemma ParseScalar_replays a ch p q : abreast p q → replays p q (ParseScalar fd ML a ch p) (ParseScalar fd ML a ch q).
Proof.
  intros Hpq. pose proof (abreast_skip _ _ Hpq) as Hskip. unfold ParseScalar. repeat (case_match; [first [by apply replays_skip, replays_token|by apply replays_token|by apply replays_skip, replays_emit|by apply ParseNumeric_replays|idtac]|]); try done.
  apply replays_skip, replays_lexer; [done|]. intros p' q' c Hpq' _ _. case_match; by apply replays_token.
Qed.

Lemma ParseKey_replays ch p q : abreast p q → replays p q (ParseKey ML ch p) (ParseKey ML ch q).
Proof.
  intros Hpq. pose proof (abreast_skip _ _ Hpq) as Hskip. unfold ParseKey. repeat (case_match; [first [by apply replays_skip, replays_token|by apply replays_token]|]). done.
Qed.

Lemma replays_separator a e ch p q k1 k2 : abreast p q →
  (∀ p' q' c, abreast p' q' → replays p' q' (k1 (p', c)) (k2 (q', c))) → replays p q (ParseSeparator a e ch p ≫= k1) (ParseSeparator a e ch q ≫= k2).
Proof.
  intros Hpq Hk. unfold ParseSeparator. case_match; [apply replays_skip, replays_lexer; [by apply abreast_skip|]; intros p' q' c Hpq' _ _; by apply Hk|]. case_match; [done|]. run_bind. by apply Hk.
Qed.

Lemma CloseCollection_replays symbol ev p q : abreast p q → replays p q (CloseCollection symbol ev p) (CloseCollection symbol ev q).
Proof. intros Hpq. unfold CloseCollection. pose proof Hpq as (<- & _). destruct (SkipCharToken symbol (Lexer p)) as [l| | |]; run_bind; try done. apply (replays_emit ev (set_Lexer p l) (set_Lexer q l)). by apply abreast_lexer. Qed.

(** [if (Stopped) return;] before the run goes on. *)
Lemma replays_unless p q r1 r2 k1 k2 : replays p q r1 r2 → (∀ p' q', abreast p' q' → replays p' q' (k1 p') (k2 q')) →
  replays p q (p ← r1; if Stopped p then Ok p else k1 p) (q ← r2; if Stopped q then Ok q else k2 q).
Proof.
  intros Hr Hk. apply replays_bind; [done| |]; [intros p' Hs; rewrite Hs; by eauto|]. intros p' q' Hpq. pose proof Hpq as (_ & _ & -> & ->). by apply Hk.
Qed.

Definition all_replay (fuel : nat) : Prop :=
  (∀ a ch p q, abreast p q → replays p q (ParseNode fd ML NL fuel a ch p) (ParseNode fd ML NL fuel a ch q)) ∧
  (∀ a ch p q, abreast p q → replays p q (ParseValue fd ML NL fuel a ch p) (ParseValue fd ML NL fuel a ch q)) ∧
  (∀ p q, abreast p q → replays p q (ParseAttributes fd ML NL fuel p) (ParseAttributes fd ML NL fuel q)) ∧
  (∀ p q, abreast p q → replays p q (ParseMap fd ML NL fuel p) (ParseMap fd ML NL fuel q)) ∧
  (∀ p q, abreast p q → replays p q (ParseList fd ML NL fuel p) (ParseList fd ML NL fuel q)) ∧
  (∀ a e ch p q, abreast p q → replays p q (map_loop fd ML NL fuel a e ch p) (map_loop fd ML NL fuel a e ch q)) ∧
  (∀ a e ch p q, abreast p q → replays p q (list_loop fd ML NL fuel a e ch p) (list_loop fd ML NL fuel a e ch q)).

(** A collection between its two calls. *)
Lemma collection_replays ev1 ev2 symbol (loop1 : byte → TParser C → Result (TParser C)) (loop2 : byte → TParser TRecorder → Result (TParser TRecorder)) p q : abreast p q →
  (∀ ch p q, abreast p q → replays p q (loop1 ch p) (loop2 ch q)) →
  replays p q (p ← emit ev1 p; if Stopped p then Ok p else '(p, ch) ← on_lexer (SkipSpaceAndGetChar false) p; p ← loop1 ch p; if Stopped p then Ok p else CloseCollection symbol ev2 p)
    (q ← emit ev1 q; if Stopped q then Ok q else '(q, ch) ← on_lexer (SkipSpaceAndGetChar false) q; q ← loop2 ch q; if Stopped q then Ok q else CloseCollection symbol ev2 q).
Proof.
  intros Hpq Hloop. apply replays_unless; [by apply replays_emit|]. intros p1 q1 H1. apply replays_lexer; [done|]. intros p2 q2 ch H2 _ _. apply replays_unless; [by apply Hloop|]. intros p3 q3 H3. by apply CloseCollection_replays.
Qed.

Lemma parse_all_replay fuel : all_replay fuel.
Proof.
  induction fuel as [|fuel (IHn & IHv & IHa & IHm & IHl & IHml & IHll)]; [by split_and!|]. split_and!; intros *; [..|intros Hpq|intros Hpq].
  - intros Hpq. cbn [ParseNode]. pose proof Hpq as (_ & -> & _). destruct (_ >=? _); [done|]. cbv zeta. set (level := NestingLevel q + 1). apply (replays_bind (set_NestingLevel p level) (set_NestingLevel q level)).
    + pose proof (abreast_level _ _ level Hpq) as Hl. case_match; [|by apply IHv]. apply replays_skip, replays_unless; [by apply IHa, abreast_skip|]. intros p1 q1 H1. apply replays_lexer; [done|]. intros p2 q2 c H2 _ _. by apply IHv.
    + intros p' Hs. by eexists.
    + intros p' q' H'. pose proof H' as (_ & -> & _). apply (replays_ok (set_NestingLevel p' _) (set_NestingLevel q' _)). by apply abreast_level.
  - intros Hpq. pose proof (abreast_skip _ _ Hpq) as Hs. cbn [ParseValue]. case_match; [by apply replays_skip, IHm|]. case_match; [by apply replays_skip, IHl|]. by apply ParseScalar_replays.
  - intros Hpq. by apply (collection_replays _ _ _ _ _ p q Hpq); auto.
  - intros Hpq. by apply (collection_replays _ _ _ _ _ p q Hpq); auto.
  - intros Hpq. by apply (collection_replays _ _ _ _ _ p q Hpq); auto.
  - cbn [map_loop]. case_match; [by apply replays_ok|]. apply replays_unless; [by apply ParseKey_replays|]. intros p1 q1 H1. apply replays_lexer; [done|]. intros p2 q2 c2 H2 _ _. case_match; [done|].
    apply replays_skip, replays_lexer; [by apply abreast_skip|]. intros p3 q3 c3 H3 _ _. apply replays_unless; [by apply IHn|]. intros p4 q4 H4. apply replays_lexer; [done|]. intros p5 q5 c5 H5 _ _. apply replays_separator; [done|]. intros p6 q6 c6 H6. by apply IHml.
  - cbn [list_loop]. case_match; [by apply replays_ok|]. apply replays_unless; [by apply replays_emit|]. intros p1 q1 H1. apply replays_unless; [by apply IHn|]. intros p4 q4 H4. apply replays_lexer; [done|]. intros p5 q5 c5 H5 _ _. apply replays_separator; [done|]. intros p6 q6 c6 H6. by apply IHll.
Qed.

Lemma DoParse_replays mode s c : replays (NewParser s c) (NewParser s []) (DoParse fd ML NL mode (NewParser s c)) (DoParse (C := TRecorder) fd ML NL mode (NewParser s [])).
Proof.
  unfold DoParse. cbv zeta. cbn [Lexer NestingLevel Consumer NewParser]. set (p := Build_TParser _ _ _ c). set (q := Build_TParser (C := TRecorder) _ _ _ _). assert (abreast p q) as Hpq by done. apply (replays_unless p q).
  - destruct (parse_all_replay (parser_fuel q)) as (Hn & _ & _ & _ & _ & Hm & Hl). change (parser_fuel p) with (parser_fuel q). unfold ParseListFragment, ParseMapFragment.
    destruct mode; (apply (replays_lexer _ p q); [done|]); intros p' q' ch H' _ _; [by apply Hn|by apply Hl|by apply Hm].
  - intros p' q' H'. pose proof H' as (-> & _). destruct (trailing_loop _ _) as [l| | |]; run_bind; try done. apply (replays_ok (set_Lexer p' l) (set_Lexer q' l)). by apply abreast_lexer.
Qed.
End Replay.

(** What a text says: the calls that the parser makes for it. *)
Definition Calls (fd : list byte → Result Z) (mode : EYsonType) (yson : list byte) (evs : list TYsonEvent) : Prop :=
  ∃ q, DoParse (C := TRecorder) fd DefaultMemoryLimit DefaultYsonParserNestingLevelLimit mode (NewParser (TStringReader yson) []) = Ok q ∧ Consumer q = evs.

Lemma Calls_unique fd mode yson evs1 evs2 : Calls fd mode yson evs1 → Calls fd mode yson evs2 → evs1 = evs2.
Proof. intros (q1 & E1 & <-) (q2 & E2 & <-). congruence. Qed.

(** Every text has calls, those of a document or a fragment, or is refused. *)
Lemma Calls_decide fd mode yson : (∃ evs depth, Calls fd mode yson evs ∧ mode_events mode evs depth) ∨ ∀ evs, ¬ Calls fd mode yson evs.
Proof.
  unfold Calls. destruct (DoParse (C := TRecorder) _ _ _ _ _) as [q| | |] eqn:E; [|by right; intros evs (q & ? & _)..]. left. pose proof (DoParse_fed _ _ _ _ _ _ E) as (evs & depth & Hm & Hf & _).
  rewrite feed_recorder in Hf. injection Hf as Hc _. exists evs, depth. split; [|done]. exists q. by split.
Qed.

(** Parsing with a consumer that never stops: the calls are replayed, or there are none and parsing throws. *)
Lemma parse_consumer {C} `{O : IYsonConsumer C} fd mode yson (c : C) : total_conversion fd → total_consumer O → (∀ ev c c', OnEvent ev c ≠ Ok (c', true)) →
  (∃ evs, Calls fd mode yson evs ∧ (p ← DoParse fd DefaultMemoryLimit DefaultYsonParserNestingLevelLimit mode (NewParser (TStringReader yson) c); Ok (Consumer p)) = ('(c, _) ← feed evs c; Ok c)) ∨
  (∀ evs, ¬ Calls fd mode yson evs) ∧ ∃ e, (p ← DoParse fd DefaultMemoryLimit DefaultYsonParserNestingLevelLimit mode (NewParser (TStringReader yson) c); Ok (Consumer p)) = Throw e.
Proof.
  intros Hfd HO Hgo. assert (∀ evs c c', feed evs c ≠ Ok (c', true)) as Hfeed.
  { intros evs. induction evs as [|ev evs IH]; intros c1 c2; cbn; [done|]. destruct (OnEvent ev c1) as [[c3 [|]]| | |] eqn:E; run_bind; try done. by destruct (Hgo ev c1 c3). }
  pose proof (DoParse_replays fd DefaultMemoryLimit DefaultYsonParserNestingLevelLimit mode (TStringReader yson) c) as H. pose proof (DoParse_ok HO fd Hfd DefaultMemoryLimit DefaultYsonParserNestingLevelLimit mode (NewParser (TStringReader yson) c) (NewLexer_ready DefaultMemoryLimit (TStringReader yson) eq_refl)) as Htotal.
  destruct (Calls_decide fd mode yson) as [(evs & _ & Hc & _)|Hnone].
  - left. exists evs. split; [done|]. destruct Hc as (q & E & <-). rewrite E in H. destruct H as (_ & evs & -> & Ho). cbn [app NewParser Consumer]. cbn [NewParser Consumer] in Ho.
    destruct (feed evs c) as [[c' [|]]| | |] eqn:Ef; cbn [outcome] in Ho; [by destruct (Hfeed evs c c')|by rewrite Ho..].
  - right. split; [done|]. assert (∀ p, DoParse fd DefaultMemoryLimit DefaultYsonParserNestingLevelLimit mode (NewParser (TStringReader yson) c) ≠ Ok p) as Hnot.
    { intros p E. assert (Stopped p = true) as Hs by (destruct (DoParse (C := TRecorder) _ _ _ _ _) as [q| | |] eqn:Eq; [by destruct (Hnone (Consumer q)); exists q|by apply H..]).
      apply DoParse_fed in E as (evs & _ & _ & Hf & _). rewrite Hs in Hf. by apply Hfeed in Hf. }
    destruct (DoParse _ _ _ _ (NewParser (TStringReader yson) c)) as [p|e| |]; [by destruct (Hnot p)|by exists e|done..].
Qed.
