(* ===== verification/SyntaxChecker.v ===== *)
(** The token-level syntax checker [TYsonSyntaxChecker] ([yt/yt/core/yson/syntax_checker.h],
    [syntax_checker-inl.h], [syntax_checker.cpp]), a push-down automaton that the pull parser
    and the checked token writer consult on every token.

    The specification is a grammar of token sequences ([NodeTok] and its companions); the
    theorem is that the automaton accepts exactly the sequences of that grammar whose
    brackets are nested less deep than the limit. *)

From S2P Require Import Prelude YsonEvents.

(** ** Items and tokens *)

Inductive EYsonItemType : Set :=
| EndOfStream | BeginMap | EndMap | BeginAttributes | EndAttributes | BeginList | EndList
| EntityValue | BooleanValue | Int64Value | Uint64Value | DoubleValue | StringValue.
#[export] Instance EYsonItemType_eq_dec : EqDecision EYsonItemType.
Proof. solve_decision. Defined.

(** [TYsonItem] of [pull_parser.h]: a type and its payload; a double is its bit pattern. *)
Inductive TYsonItem :=
| Simple (type : EYsonItemType)
| ItemBoolean (data : bool)
| ItemInt64 (data : Z)
| ItemUint64 (data : Z)
| ItemDouble (data : Z)
| ItemString (data : list byte).
#[export] Instance TYsonItem_eq_dec : EqDecision TYsonItem.
Proof. solve_decision. Defined.

Definition GetType (item : TYsonItem) : EYsonItemType :=
  match item with
  | Simple type => type
  | ItemBoolean _ => BooleanValue
  | ItemInt64 _ => Int64Value
  | ItemUint64 _ => Uint64Value
  | ItemDouble _ => DoubleValue
  | ItemString _ => StringValue
  end.

Inductive EYsonState : Set :=
| Terminated | ExpectValue | ExpectAttributelessValue
| InsideListFragmentExpectAttributelessValue | InsideListFragmentExpectValue | InsideListFragmentExpectSeparator
| InsideMapFragmentExpectKey | InsideMapFragmentExpectEquality | InsideMapFragmentExpectAttributelessValue
| InsideMapFragmentExpectValue | InsideMapFragmentExpectSeparator
| InsideMapExpectKey | InsideMapExpectEquality | InsideMapExpectAttributelessValue
| InsideMapExpectValue | InsideMapExpectSeparator
| InsideAttributeMapExpectKey | InsideAttributeMapExpectEquality | InsideAttributeMapExpectAttributelessValue
| InsideAttributeMapExpectValue | InsideAttributeMapExpectSeparator
| InsideListExpectAttributelessValue | InsideListExpectValue | InsideListExpectSeparator.
#[export] Instance EYsonState_eq_dec : EqDecision EYsonState.
Proof. solve_decision. Defined.

(** ** The automaton *)

Module TYsonSyntaxChecker.

(** The head of [StateStack] is [StateStack_.back()]. *)
Record t := { StateStack : list EYsonState; NestingLevel : Z; NestingLevelLimit : Z }.

Definition New (ysonType : EYsonType) (nestingLevelLimit : Z) : t :=
  {| StateStack :=
       match ysonType with
       | YsonNode => [ExpectValue; Terminated]
       | YsonListFragment => [InsideListFragmentExpectValue; Terminated]
       | YsonMapFragment => [InsideMapFragmentExpectKey; Terminated]
       end;
     NestingLevel := 0; NestingLevelLimit := wrap_u 32 nestingLevelLimit |}.

Definition back (c : t) : Result EYsonState :=
  match StateStack c with [] => Crash | state :: _ => Ok state end.
Definition set_back (state : EYsonState) (c : t) : t :=
  {| StateStack := state :: tail (StateStack c); NestingLevel := NestingLevel c; NestingLevelLimit := NestingLevelLimit c |}.
Definition push_back (state : EYsonState) (c : t) : t :=
  {| StateStack := state :: StateStack c; NestingLevel := NestingLevel c; NestingLevelLimit := NestingLevelLimit c |}.
Definition pop_back (c : t) : t :=
  {| StateStack := tail (StateStack c); NestingLevel := NestingLevel c; NestingLevelLimit := NestingLevelLimit c |}.

Definition IncrementNestingLevel (c : t) : Result t :=
  let level := wrap_u 32 (NestingLevel c + 1) in
  if level >=? NestingLevelLimit c then Throw EDepthLimitExceeded
  else Ok {| StateStack := StateStack c; NestingLevel := level; NestingLevelLimit := NestingLevelLimit c |}.

Definition DecrementNestingLevel (c : t) : Result t :=
  _ ← Verify (NestingLevel c >? 0);
  Ok {| StateStack := StateStack c; NestingLevel := NestingLevel c - 1; NestingLevelLimit := NestingLevelLimit c |}.

Definition OnSimple (isString : bool) (c : t) : Result t :=
  state ← back c;
  match state with
  | ExpectValue | ExpectAttributelessValue => Ok (pop_back c)
  | InsideListFragmentExpectValue | InsideListFragmentExpectAttributelessValue =>
      Ok (set_back InsideListFragmentExpectSeparator c)
  | InsideListExpectValue | InsideListExpectAttributelessValue => Ok (set_back InsideListExpectSeparator c)
  | InsideMapFragmentExpectKey =>
      if isString then Ok (set_back InsideMapFragmentExpectEquality c) else Throw EKeyNotString
  | InsideMapFragmentExpectValue | InsideMapFragmentExpectAttributelessValue =>
      Ok (set_back InsideMapFragmentExpectSeparator c)
  | InsideMapExpectKey => if isString then Ok (set_back InsideMapExpectEquality c) else Throw EKeyNotString
  | InsideMapExpectValue | InsideMapExpectAttributelessValue => Ok (set_back InsideMapExpectSeparator c)
  | InsideAttributeMapExpectKey =>
      if isString then Ok (set_back InsideAttributeMapExpectEquality c) else Throw EKeyNotString
  | InsideAttributeMapExpectAttributelessValue | InsideAttributeMapExpectValue =>
      Ok (set_back InsideAttributeMapExpectSeparator c)
  | _ => Throw EUnexpectedToken
  end.

Definition OnSimpleNonstring (c : t) : Result t := OnSimple false c.
Definition OnString (c : t) : Result t := OnSimple true c.

Definition OnFinish (c : t) : Result t :=
  state ← back c;
  match state with
  | Terminated | InsideListFragmentExpectValue | InsideListFragmentExpectSeparator
  | InsideMapFragmentExpectKey | InsideMapFragmentExpectSeparator => Ok c
  | _ => Throw EUnexpectedToken
  end.

Definition OnEquality (c : t) : Result t :=
  state ← back c;
  match state with
  | InsideMapExpectEquality => Ok (set_back InsideMapExpectValue c)
  | InsideAttributeMapExpectEquality => Ok (set_back InsideAttributeMapExpectValue c)
  | InsideMapFragmentExpectEquality => Ok (set_back InsideMapFragmentExpectValue c)
  | _ => Throw EUnexpectedToken
  end.

Definition OnSeparator (c : t) : Result t :=
  state ← back c;
  match state with
  | InsideMapFragmentExpectSeparator => Ok (set_back InsideMapFragmentExpectKey c)
  | InsideMapExpectSeparator => Ok (set_back InsideMapExpectKey c)
  | InsideAttributeMapExpectSeparator => Ok (set_back InsideAttributeMapExpectKey c)
  | InsideListExpectSeparator => Ok (set_back InsideListExpectValue c)
  | InsideListFragmentExpectSeparator => Ok (set_back InsideListFragmentExpectValue c)
  | _ => Throw EUnexpectedToken
  end.

(** The [switch] that [OnBeginList] and [OnBeginMap] share, up to the state of the new
    collection. *)
Definition OnBeginCollection (inside : EYsonState) (c : t) : Result t :=
  state ← back c;
  c ← match state with
      | ExpectValue | ExpectAttributelessValue => Ok (set_back inside c)
      | InsideListFragmentExpectValue | InsideListFragmentExpectAttributelessValue =>
          Ok (push_back inside (set_back InsideListFragmentExpectSeparator c))
      | InsideListExpectValue | InsideListExpectAttributelessValue =>
          Ok (push_back inside (set_back InsideListExpectSeparator c))
      | InsideMapFragmentExpectValue | InsideMapFragmentExpectAttributelessValue =>
          Ok (push_back inside (set_back InsideMapFragmentExpectSeparator c))
      | InsideMapExpectValue | InsideMapExpectAttributelessValue =>
          Ok (push_back inside (set_back InsideMapExpectSeparator c))
      | InsideAttributeMapExpectAttributelessValue | InsideAttributeMapExpectValue =>
          Ok (push_back inside (set_back InsideAttributeMapExpectSeparator c))
      | _ => Throw EUnexpectedToken
      end;
  IncrementNestingLevel c.

Definition OnBeginList (c : t) : Result t := OnBeginCollection InsideListExpectValue c.
Definition OnBeginMap (c : t) : Result t := OnBeginCollection InsideMapExpectKey c.

Definition OnEndList (c : t) : Result t :=
  state ← back c;
  c ← match state with
      | InsideListExpectValue | InsideListExpectSeparator => Ok (pop_back c)
      | _ => Throw EUnexpectedToken
      end;
  DecrementNestingLevel c.

Definition OnEndMap (c : t) : Result t :=
  state ← back c;
  c ← match state with
      | InsideMapExpectKey | InsideMapExpectSeparator => Ok (pop_back c)
      | _ => Throw EUnexpectedToken
      end;
  DecrementNestingLevel c.

Definition OnAttributesBegin (c : t) : Result t :=
  state ← back c;
  c ← match state with
      | ExpectValue => Ok (push_back InsideAttributeMapExpectKey (set_back ExpectAttributelessValue c))
      | InsideListFragmentExpectValue =>
          Ok (push_back InsideAttributeMapExpectKey (set_back InsideListFragmentExpectAttributelessValue c))
      | InsideMapFragmentExpectValue =>
          Ok (push_back InsideAttributeMapExpectKey (set_back InsideMapFragmentExpectAttributelessValue c))
      | InsideMapExpectValue =>
          Ok (push_back InsideAttributeMapExpectKey (set_back InsideMapExpectAttributelessValue c))
      | InsideAttributeMapExpectValue =>
          Ok (push_back InsideAttributeMapExpectKey (set_back InsideAttributeMapExpectAttributelessValue c))
      | InsideListExpectValue =>
          Ok (push_back InsideAttributeMapExpectKey (set_back InsideListExpectAttributelessValue c))
      | InsideListFragmentExpectAttributelessValue | InsideMapFragmentExpectAttributelessValue
      | ExpectAttributelessValue | InsideMapExpectAttributelessValue | InsideListExpectAttributelessValue
      | InsideAttributeMapExpectAttributelessValue => Throw ESeveralAttributeMaps
      | _ => Throw EUnexpectedToken
      end;
  IncrementNestingLevel c.

Definition OnAttributesEnd (c : t) : Result t :=
  state ← back c;
  c ← match state with
      | InsideAttributeMapExpectKey | InsideAttributeMapExpectSeparator => Ok (pop_back c)
      | _ => Throw EUnexpectedToken
      end;
  DecrementNestingLevel c.

Definition GetNestingLevel (c : t) : Z := NestingLevel c.

Definition IsOnValueBoundary (nestingLevel : Z) (c : t) : Result bool :=
  if negb (NestingLevel c =? nestingLevel) then Ok false
  else
    state ← back c;
    Ok match state with
       | Terminated | ExpectValue | InsideListFragmentExpectValue | InsideListFragmentExpectSeparator
       | InsideMapFragmentExpectEquality | InsideMapFragmentExpectSeparator
       | InsideMapExpectEquality | InsideMapExpectSeparator
       | InsideAttributeMapExpectEquality | InsideAttributeMapExpectSeparator
       | InsideListExpectValue | InsideListExpectSeparator => true
       | _ => false
       end.

Definition IsOnKey (c : t) : Result bool :=
  state ← back c;
  Ok match state with
     | InsideMapFragmentExpectEquality | InsideMapExpectEquality | InsideAttributeMapExpectEquality => true
     | _ => false
     end.

Definition IsListSeparator (c : t) : Result bool :=
  state ← back c;
  Ok match state with InsideListFragmentExpectValue | InsideListExpectValue => true | _ => false end.

(** The call an item makes on the checker. *)
Definition OnItem (item : TYsonItem) (c : t) : Result t :=
  match GetType item with
  | EndOfStream => OnFinish c
  | BeginMap => OnBeginMap c
  | EndMap => OnEndMap c
  | BeginAttributes => OnAttributesBegin c
  | EndAttributes => OnAttributesEnd c
  | BeginList => OnBeginList c
  | EndList => OnEndList c
  | StringValue => OnString c
  | _ => OnSimpleNonstring c
  end.
End TYsonSyntaxChecker.

(** ** The language: documents as token sequences *)

(** What the pull parser and the checked writer tell the checker; the end of the stream is
    [OnFinish], not a token. *)
Inductive TToken :=
| Item (item : TYsonItem)
| Equality
| Separator.

Definition OnToken (token : TToken) (c : TYsonSyntaxChecker.t) : Result TYsonSyntaxChecker.t :=
  match token with
  | Item item => TYsonSyntaxChecker.OnItem item c
  | Equality => TYsonSyntaxChecker.OnEquality c
  | Separator => TYsonSyntaxChecker.OnSeparator c
  end.

Fixpoint OnTokens (tokens : list TToken) (c : TYsonSyntaxChecker.t) : Result TYsonSyntaxChecker.t :=
  match tokens with
  | [] => Ok c
  | token :: tokens => c ← OnToken token c; OnTokens tokens c
  end.

Definition real_token (token : TToken) : bool :=
  match token with Item item => negb (bool_decide (GetType item = EndOfStream)) | _ => true end.

Definition scalar_item (v : TValue) : option TYsonItem :=
  match v with
  | VString s => Some (ItemString s)
  | VInt64 z => Some (ItemInt64 z)
  | VUint64 z => Some (ItemUint64 z)
  | VDouble bits => Some (ItemDouble bits)
  | VBoolean b => Some (ItemBoolean b)
  | VEntity => Some (Simple EntityValue)
  | VList _ | VMap _ => None
  end.

Inductive NodeTok : TNode → list TToken → Prop :=
| NodeTok_plain v t : ValueTok v t → NodeTok (Node None v) t
| NodeTok_attributes attributes v ta t :
    MapTok attributes ta → ValueTok v t →
    NodeTok (Node (Some attributes) v)
      (Item (Simple BeginAttributes) :: ta ++ Item (Simple EndAttributes) :: t)
with ValueTok : TValue → list TToken → Prop :=
| ValueTok_scalar v item : scalar_item v = Some item → ValueTok v [Item item]
| ValueTok_list items t :
    ListTok items t → ValueTok (VList items) (Item (Simple BeginList) :: t ++ [Item (Simple EndList)])
| ValueTok_map items t :
    MapTok items t → ValueTok (VMap items) (Item (Simple BeginMap) :: t ++ [Item (Simple EndMap)])
with ListTok : list TNode → list TToken → Prop :=
| ListTok_nil : ListTok [] []
| ListTok_last n t : NodeTok n t → ListTok [n] t
| ListTok_item n t items ts : NodeTok n t → ListTok items ts → ListTok (n :: items) (t ++ Separator :: ts)
with MapTok : list (list byte * TNode) → list TToken → Prop :=
| MapTok_nil : MapTok [] []
| MapTok_last key n t : NodeTok n t → MapTok [(key, n)] (Item (ItemString key) :: Equality :: t)
| MapTok_item key n t items ts :
    NodeTok n t → MapTok items ts →
    MapTok ((key, n) :: items) (Item (ItemString key) :: Equality :: t ++ Separator :: ts).

Scheme NodeTok_mind := Induction for NodeTok Sort Prop
  with ValueTok_mind := Induction for ValueTok Sort Prop
  with ListTok_mind := Induction for ListTok Sort Prop
  with MapTok_mind := Induction for MapTok Sort Prop.
Combined Scheme Tok_mutind from NodeTok_mind, ValueTok_mind, ListTok_mind, MapTok_mind.

(** How many brackets are open at once inside a document; attribute maps count. *)
Fixpoint node_levels (n : TNode) : nat :=
  match n with
  | Node attributes value =>
      Nat.max
        (match attributes with
         | None => 0
         | Some items =>
             S ((fix go (items : list (list byte * TNode)) :=
                match items with [] => 0%nat | (_, n) :: items => Nat.max (node_levels n) (go items) end) items)
         end)
        (value_levels value)
  end
with value_levels (v : TValue) : nat :=
  match v with
  | VList items =>
      S ((fix go (items : list TNode) :=
         match items with [] => 0%nat | n :: items => Nat.max (node_levels n) (go items) end) items)
  | VMap items =>
      S ((fix go (items : list (list byte * TNode)) :=
         match items with [] => 0%nat | (_, n) :: items => Nat.max (node_levels n) (go items) end) items)
  | _ => 0%nat
  end.

Fixpoint list_levels (items : list TNode) : nat :=
  match items with [] => 0%nat | n :: items => Nat.max (node_levels n) (list_levels items) end.
Fixpoint map_levels (items : list (list byte * TNode)) : nat :=
  match items with [] => 0%nat | (_, n) :: items => Nat.max (node_levels n) (map_levels items) end.

Lemma node_levels_attributes items value :
  node_levels (Node (Some items) value) = Nat.max (S (map_levels items)) (value_levels value).
Proof. reflexivity. Qed.

Lemma value_levels_list items : value_levels (VList items) = S (list_levels items).
Proof. reflexivity. Qed.

Lemma value_levels_map items : value_levels (VMap items) = S (map_levels items).
Proof. reflexivity. Qed.

Lemma list_levels_app items1 items2 :
  list_levels (items1 ++ items2) = Nat.max (list_levels items1) (list_levels items2).
Proof. induction items1 as [|n items1 IH]; simpl; [done|]. rewrite IH. lia. Qed.

Lemma map_levels_app items1 items2 :
  map_levels (items1 ++ items2) = Nat.max (map_levels items1) (map_levels items2).
Proof. induction items1 as [|[k n] items1 IH]; simpl; [done|]. rewrite IH. lia. Qed.

(** The token sequences of a document or a fragment, with the calls that describe it. *)
Inductive ModeTok : EYsonType → list TYsonEvent → nat → list TToken → Prop :=
| ModeTok_node n t : NodeTok n t → ModeTok YsonNode (node_events n) (node_levels n) t
| ModeTok_list items t : ListTok items t → ModeTok YsonListFragment (list_events items) (list_levels items) t
| ModeTok_map items t : MapTok items t → ModeTok YsonMapFragment (map_events items) (map_levels items) t.

(** ** The abstract automaton: a stack of contexts, each with a position *)

Inductive TContext : Set := CNode | CListFragment | CMapFragment | CMap | CAttributes | CList.
Inductive TPosition : Set := PKey | PEquality | PAttributeless | PValue | PSeparator.
Definition TFrame : Set := TContext * TPosition.

Definition is_map (c : TContext) : bool := match c with CMapFragment | CMap | CAttributes => true | _ => false end.
Definition is_outer (c : TContext) : bool := match c with CNode | CListFragment | CMapFragment => true | _ => false end.
Definition start (c : TContext) : TPosition := if is_map c then PKey else PValue.
Definition expects (p : TPosition) : bool := match p with PValue | PAttributeless => true | _ => false end.

Definition step (L : nat) (token : TToken) (a : list TFrame) : option (list TFrame) :=
  match a with
  | [] => None
  | (c, p) :: a' =>
      match token, p with
      | Equality, PEquality => Some ((c, PValue) :: a')
      | Separator, PSeparator =>
          match c with CNode => None | _ => Some ((c, start c) :: a') end
      | Item item, _ =>
          match GetType item with
          | BeginList =>
              if expects p && (length a <? L)%nat then Some ((CList, PValue) :: (c, PSeparator) :: a') else None
          | BeginMap =>
              if expects p && (length a <? L)%nat then Some ((CMap, PKey) :: (c, PSeparator) :: a') else None
          | BeginAttributes =>
              match p with
              | PValue => if (length a <? L)%nat then Some ((CAttributes, PKey) :: (c, PAttributeless) :: a') else None
              | _ => None
              end
          | EndList => match c, p with CList, PValue | CList, PSeparator => Some a' | _, _ => None end
          | EndMap => match c, p with CMap, PKey | CMap, PSeparator => Some a' | _, _ => None end
          | EndAttributes => match c, p with CAttributes, PKey | CAttributes, PSeparator => Some a' | _, _ => None end
          | StringValue =>
              match p with
              | PKey => Some ((c, PEquality) :: a')
              | _ => if expects p then Some ((c, PSeparator) :: a') else None
              end
          | EndOfStream => None
          | _ => if expects p then Some ((c, PSeparator) :: a') else None
          end
      | _, _ => None
      end
  end.

Fixpoint steps (L : nat) (tokens : list TToken) (a : list TFrame) : option (list TFrame) :=
  match tokens with
  | [] => Some a
  | token :: tokens => a ← step L token a; steps L tokens a
  end.

Definition accepting (a : list TFrame) : bool :=
  match a with
  | [(CNode, PSeparator)] | [(CListFragment, PValue)] | [(CListFragment, PSeparator)]
  | [(CMapFragment, PKey)] | [(CMapFragment, PSeparator)] => true
  | _ => false
  end.

Definition initial (mode : EYsonType) : list TFrame :=
  match mode with
  | YsonNode => [(CNode, PValue)]
  | YsonListFragment => [(CListFragment, PValue)]
  | YsonMapFragment => [(CMapFragment, PKey)]
  end.

(** ** The checker implements the abstract automaton *)

Definition state_of (f : TFrame) : EYsonState :=
  match f with
  | (CNode, PValue) => ExpectValue
  | (CNode, PAttributeless) => ExpectAttributelessValue
  | (CNode, _) => Terminated
  | (CListFragment, PAttributeless) => InsideListFragmentExpectAttributelessValue
  | (CListFragment, PSeparator) => InsideListFragmentExpectSeparator
  | (CListFragment, _) => InsideListFragmentExpectValue
  | (CMapFragment, PKey) => InsideMapFragmentExpectKey
  | (CMapFragment, PEquality) => InsideMapFragmentExpectEquality
  | (CMapFragment, PAttributeless) => InsideMapFragmentExpectAttributelessValue
  | (CMapFragment, PValue) => InsideMapFragmentExpectValue
  | (CMapFragment, PSeparator) => InsideMapFragmentExpectSeparator
  | (CMap, PKey) => InsideMapExpectKey
  | (CMap, PEquality) => InsideMapExpectEquality
  | (CMap, PAttributeless) => InsideMapExpectAttributelessValue
  | (CMap, PValue) => InsideMapExpectValue
  | (CMap, PSeparator) => InsideMapExpectSeparator
  | (CAttributes, PKey) => InsideAttributeMapExpectKey
  | (CAttributes, PEquality) => InsideAttributeMapExpectEquality
  | (CAttributes, PAttributeless) => InsideAttributeMapExpectAttributelessValue
  | (CAttributes, PValue) => InsideAttributeMapExpectValue
  | (CAttributes, PSeparator) => InsideAttributeMapExpectSeparator
  | (CList, PAttributeless) => InsideListExpectAttributelessValue
  | (CList, PSeparator) => InsideListExpectSeparator
  | (CList, _) => InsideListExpectValue
  end.

(** A finished top-level node is popped, so [Terminated] stands for it. *)
Fixpoint concrete (a : list TFrame) : list EYsonState :=
  match a with
  | [] | (CNode, PSeparator) :: _ => [Terminated]
  | f :: a => state_of f :: concrete a
  end.

Definition valid (f : TFrame) : bool :=
  match f with (c, PKey) | (c, PEquality) => is_map c | _ => true end.

Fixpoint wf (a : list TFrame) : bool :=
  match a with
  | [] => false
  | [f] => is_outer f.1 && valid f
  | f :: a => negb (is_outer f.1) && valid f && wf a
  end.

Definition checker (L : nat) (a : list TFrame) : TYsonSyntaxChecker.t :=
  {| TYsonSyntaxChecker.StateStack := concrete a;
     TYsonSyntaxChecker.NestingLevel := Z.of_nat (length a - 1);
     TYsonSyntaxChecker.NestingLevelLimit := Z.of_nat L |}.

Definition simulates (L : nat) (a : list TFrame) (c : TYsonSyntaxChecker.t) : Prop :=
  wf a = true ∧ (length a = 1 ∨ length a <= L)%nat ∧ c = checker L a.

(** What a call on the checker does when the abstract automaton does [o]. *)
Definition implements (L : nat) (o : option (list TFrame)) (r : Result TYsonSyntaxChecker.t) : Prop :=
  match o with
  | Some a => ∃ c, r = Ok c ∧ simulates L a c
  | None => ∃ e, r = Throw e
  end.

Lemma wf_tail f a : wf (f :: a) = true → is_outer f.1 = false → wf a = true.
Proof. intros H Hf. destruct a; simpl in H; rewrite Hf in H; [done|]. by apply andb_prop in H as [_ H]. Qed.

Lemma wf_outer f a : wf (f :: a) = true → is_outer f.1 = true → a = [].
Proof. intros H Hf. destruct a; [done|]. simpl in H. by rewrite Hf in H. Qed.

Lemma wf_top f f' a : wf (f :: a) = true → f'.1 = f.1 → valid f' = true → wf (f' :: a) = true.
Proof.
  intros H Hc Hv. destruct a; simpl in *; rewrite Hc, Hv.
  - by apply andb_prop in H as [-> _].
  - apply andb_prop in H as [[-> _]%andb_prop ->]. done.
Qed.

Lemma wf_push f a : wf a = true → is_outer f.1 = false → valid f = true → wf (f :: a) = true.
Proof. intros H Hf Hv. destruct a; [done|]. simpl. by rewrite Hf, Hv. Qed.

Lemma IncrementNestingLevel_spec L stack n :
  (Z.of_nat L < 2 ^ 32) → (n = 0 ∨ n < L)%nat →
  TYsonSyntaxChecker.IncrementNestingLevel
    {| TYsonSyntaxChecker.StateStack := stack; TYsonSyntaxChecker.NestingLevel := Z.of_nat n;
       TYsonSyntaxChecker.NestingLevelLimit := Z.of_nat L |} =
  if (S n <? L)%nat then
    Ok {| TYsonSyntaxChecker.StateStack := stack; TYsonSyntaxChecker.NestingLevel := Z.of_nat (S n);
          TYsonSyntaxChecker.NestingLevelLimit := Z.of_nat L |}
  else Throw EDepthLimitExceeded.
Proof.
  intros HL Hn. unfold TYsonSyntaxChecker.IncrementNestingLevel. simpl.
  rewrite wrap_u_id by word. replace (Z.of_nat n + 1) with (Z.of_nat (S n)) by lia.
  destruct (Nat.ltb_spec (S n) L), (Z.geb_spec (Z.of_nat (S n)) (Z.of_nat L)); try lia; done.
Qed.

(** Replacing the top frame, opening and closing a bracket. *)
Lemma implements_top L f f' a : simulates L (f :: a) (checker L (f :: a)) → f'.1 = f.1 → valid f' = true →
  implements L (Some (f' :: a)) (Ok (checker L (f' :: a))).
Proof. intros (Hwf & Hlen & _) Hc Hv. eexists. split; [done|]. split_and!; [by eapply wf_top|done|done]. Qed.

Lemma implements_open L f f' g a : Z.of_nat L < 2 ^ 32 → simulates L (f :: a) (checker L (f :: a)) →
  f'.1 = f.1 → valid f' = true → is_outer g.1 = false → valid g = true →
  implements L (if (length (f :: a) <? L)%nat then Some (g :: f' :: a) else None)
    (TYsonSyntaxChecker.IncrementNestingLevel
       {| TYsonSyntaxChecker.StateStack := state_of g :: concrete (f' :: a);
          TYsonSyntaxChecker.NestingLevel := Z.of_nat (length (f :: a) - 1);
          TYsonSyntaxChecker.NestingLevelLimit := Z.of_nat L |}).
Proof.
  intros HL (Hwf & Hlen & _) Hc Hv Hg Hvg. simpl length in *.
  rewrite IncrementNestingLevel_spec by (done || lia).
  replace (S (S (length a) - 1)) with (S (length a)) by lia.
  destruct (Nat.ltb_spec (S (length a)) L); [|by eexists].
  eexists. split; [done|]. split_and!.
  - apply wf_push; [by eapply wf_top|done|done].
  - right. simpl. lia.
  - by destruct g as [[] []].
Qed.

Lemma implements_close L f a : simulates L (f :: a) (checker L (f :: a)) → is_outer f.1 = false →
  implements L (Some a)
    (TYsonSyntaxChecker.DecrementNestingLevel
       {| TYsonSyntaxChecker.StateStack := concrete a;
          TYsonSyntaxChecker.NestingLevel := Z.of_nat (length (f :: a) - 1);
          TYsonSyntaxChecker.NestingLevelLimit := Z.of_nat L |}).
Proof.
  intros (Hwf & Hlen & _) Hf. pose proof (wf_tail _ _ Hwf Hf) as Ha.
  destruct a as [|g a]; [done|]. unfold TYsonSyntaxChecker.DecrementNestingLevel. simpl TYsonSyntaxChecker.NestingLevel.
  rewrite (proj2 (Z.gtb_lt _ _)) by (simpl; lia). eexists. split; [done|].
  split_and!; [done|simpl in *; lia|]. unfold checker. simpl. f_equal. lia.
Qed.

Lemma OnToken_implements L token a c :
  Z.of_nat L < 2 ^ 32 → real_token token = true → simulates L a c →
  implements L (step L token a) (OnToken token c).
Proof.
  intros HL Hreal Hsim. destruct a as [|[x p] a]; [by destruct Hsim|].
  assert (c = checker L ((x, p) :: a)) as -> by apply Hsim.
  assert (is_outer x = true → a = []) as Ho by (intros; eapply (wf_outer (x, p)); [apply Hsim|done]).
  assert (valid (x, p) = true) as Hv.
  { destruct Hsim as [Hwf _]. destruct a; simpl in Hwf; [by apply andb_prop in Hwf as [_ ?]|].
    by apply andb_prop in Hwf as [[_ ?]%andb_prop _]. }
  destruct token as [item| |]; [destruct item as [[]| | | | |]|..]; try done;
    destruct x, p; try discriminate Hv; try (by eexists);
    try (specialize (Ho eq_refl); subst a).
  all: cbn [step expects start is_map GetType andb].
  all: match goal with
       | |- implements _ (if _ then Some (?g :: ?f :: _) else None) _ =>
           exact (implements_open L _ f g _ HL Hsim eq_refl eq_refl eq_refl eq_refl)
       | |- implements _ (Some (?f :: _)) _ => exact (implements_top L _ f _ Hsim eq_refl eq_refl)
       | |- _ => exact (implements_close L _ _ Hsim eq_refl)
       end.
Qed.

Lemma OnTokens_implements L tokens a c :
  Z.of_nat L < 2 ^ 32 → Forall (λ token, real_token token = true) tokens → simulates L a c →
  implements L (steps L tokens a) (OnTokens tokens c).
Proof.
  intros HL Htokens. revert a c. induction Htokens as [|token tokens Ht Hts IH]; intros a c Hsim; simpl; [by exists c|].
  pose proof (OnToken_implements L token a c HL Ht Hsim) as H.
  destruct (step L token a) as [a'|]; simpl in *.
  - destruct H as (c' & -> & Hsim'). by apply IH.
  - destruct H as (e & ->). by exists e.
Qed.

Lemma OnFinish_accepting L a c : simulates L a c →
  if accepting a then TYsonSyntaxChecker.OnFinish c = Ok c else ∃ e, TYsonSyntaxChecker.OnFinish c = Throw e.
Proof.
  intros (Hwf & _ & ->). destruct a as [|[x p] [|g a]]; [done| |].
  - destruct x, p; try discriminate Hwf; try (by exists EUnexpectedToken); done.
  - destruct x, p; try discriminate Hwf; by exists EUnexpectedToken.
Qed.

Lemma New_simulates mode L : Z.of_nat L < 2 ^ 32 → simulates L (initial mode) (TYsonSyntaxChecker.New mode (Z.of_nat L)).
Proof.
  intros HL. unfold TYsonSyntaxChecker.New. rewrite wrap_u_id by word.
  destruct mode; (split_and!; [done|by left|done]).
Qed.

(** ** Every document is accepted *)

Lemma steps_app L t1 t2 a : steps L (t1 ++ t2) a = a ← steps L t1 a; steps L t2 a.
Proof. revert a. induction t1 as [|token t1 IH]; intros a; simpl; [done|]. by destruct (step L token a); simpl. Qed.

(** [d] more brackets fit above [n] open ones. *)
Definition fits_level (L n d : nat) : Prop := d = 0%nat ∨ (n + d < L)%nat.

Lemma fits_max L n d1 d2 : fits_level L n (Nat.max d1 d2) ↔ fits_level L n d1 ∧ fits_level L n d2.
Proof. unfold fits_level. lia. Qed.

Lemma fits_S L n d : fits_level L n (S d) ↔ (S n < L)%nat ∧ fits_level L (S n) d.
Proof. unfold fits_level. lia. Qed.

(** Opening brackets that the limit allows. *)
Lemma step_begin_list L c p (a : list TFrame) : expects p = true → (S (length a) < L)%nat →
  step L (Item (Simple BeginList)) ((c, p) :: a) = Some ((CList, PValue) :: (c, PSeparator) :: a).
Proof. intros Hp Hlt. cbn [step GetType]. rewrite Hp. simpl. by rewrite (proj2 (Nat.ltb_lt _ _)). Qed.

Lemma step_begin_map L c p (a : list TFrame) : expects p = true → (S (length a) < L)%nat →
  step L (Item (Simple BeginMap)) ((c, p) :: a) = Some ((CMap, PKey) :: (c, PSeparator) :: a).
Proof. intros Hp Hlt. cbn [step GetType]. rewrite Hp. simpl. by rewrite (proj2 (Nat.ltb_lt _ _)). Qed.

Lemma step_begin_attributes L c (a : list TFrame) : (S (length a) < L)%nat →
  step L (Item (Simple BeginAttributes)) ((c, PValue) :: a) = Some ((CAttributes, PKey) :: (c, PAttributeless) :: a).
Proof. intros Hlt. simpl. by rewrite (proj2 (Nat.ltb_lt _ _)). Qed.

#[export] Hint Resolve step_begin_list step_begin_map step_begin_attributes : yson.

Lemma steps_complete L :
  (∀ n t, NodeTok n t → ∀ c a, fits_level L (length a) (node_levels n) →
     steps L t ((c, PValue) :: a) = Some ((c, PSeparator) :: a)) ∧
  (∀ v t, ValueTok v t → ∀ c p a, expects p = true → fits_level L (length a) (value_levels v) →
     steps L t ((c, p) :: a) = Some ((c, PSeparator) :: a)) ∧
  (∀ items t, ListTok items t → ∀ c a, c = CList ∨ c = CListFragment → fits_level L (length a) (list_levels items) →
     ∃ p, steps L t ((c, PValue) :: a) = Some ((c, p) :: a) ∧ (p = PValue ∨ p = PSeparator)) ∧
  (∀ items t, MapTok items t → ∀ c a, is_map c = true → fits_level L (length a) (map_levels items) →
     ∃ p, steps L t ((c, PKey) :: a) = Some ((c, p) :: a) ∧ (p = PKey ∨ p = PSeparator)).
Proof.
  apply Tok_mutind.
  - intros v t _ IH c a Hf. by apply IH.
  - intros attributes v ta t _ IHa _ IHv c a Hf. rewrite node_levels_attributes in Hf.
    apply fits_max in Hf as [[Hlt Hfa]%fits_S Hfv]. simpl. rewrite (proj2 (Nat.ltb_lt _ _)) by done. simpl.
    destruct (IHa CAttributes ((c, PAttributeless) :: a) eq_refl Hfa) as (p & Hp & Hcase).
    rewrite steps_app, Hp. simpl. destruct Hcase as [-> | ->]; simpl; by apply IHv.
  - intros v item Hv c p a Hp _. destruct v; simplify_eq/=; by destruct p.
  - intros items t _ IH c p a Hp Hf. rewrite value_levels_list in Hf. apply fits_S in Hf as [Hlt Hf].
    cbn [steps step GetType]. rewrite Hp. simpl length. rewrite (proj2 (Nat.ltb_lt _ _)) by done. simpl.
    destruct (IH CList ((c, PSeparator) :: a) (or_introl eq_refl) Hf) as (q & Hq & Hcase).
    rewrite steps_app, Hq. by destruct Hcase as [-> | ->].
  - intros items t _ IH c p a Hp Hf. rewrite value_levels_map in Hf. apply fits_S in Hf as [Hlt Hf].
    cbn [steps step GetType]. rewrite Hp. simpl length. rewrite (proj2 (Nat.ltb_lt _ _)) by done. simpl.
    destruct (IH CMap ((c, PSeparator) :: a) eq_refl Hf) as (q & Hq & Hcase).
    rewrite steps_app, Hq. by destruct Hcase as [-> | ->].
  - intros c a _ _. exists PValue. split; [done|by left].
  - intros n t _ IH c a Hc Hf. simpl in Hf. exists PSeparator. rewrite IH; [by auto|]. by apply fits_max in Hf as [? _].
  - intros n t items ts _ IHn _ IHi c a Hc Hf. apply fits_max in Hf as [Hfn Hfi].
    rewrite steps_app, IHn by done. destruct (IHi c a Hc Hfi) as (p & Hp & Hcase). exists p. split; [|done].
    by destruct Hc as [-> | ->]; simpl.
  - intros c a _ _. exists PKey. split; [done|by left].
  - intros key n t _ IH c a Hc Hf. simpl in Hf. exists PSeparator. split; [|by right]. simpl. apply IH.
    by apply fits_max in Hf as [? _].
  - intros key n t items ts _ IHn _ IHi c a Hc Hf. apply fits_max in Hf as [Hfn Hfi]. simpl.
    rewrite steps_app, IHn by done. destruct (IHi c a Hc Hfi) as (p & Hp & Hcase). exists p. split; [|done].
    by destruct c; simpl.
Qed.

(** ** Only documents are accepted *)

(** Items that are all followed by a separator. *)
Inductive ListSep : list TNode → list TToken → Prop :=
| ListSep_nil : ListSep [] []
| ListSep_snoc items t n tn : ListSep items t → NodeTok n tn → ListSep (items ++ [n]) (t ++ tn ++ [Separator]).
Inductive MapSep : list (list byte * TNode) → list TToken → Prop :=
| MapSep_nil : MapSep [] []
| MapSep_snoc items t key n tn :
    MapSep items t → NodeTok n tn →
    MapSep (items ++ [(key, n)]) (t ++ Item (ItemString key) :: Equality :: tn ++ [Separator]).

Lemma ListSep_app items t items' t' : ListSep items t → ListTok items' t' → ListTok (items ++ items') (t ++ t').
Proof.
  intros H. revert items' t'. induction H as [|items t n tn _ IH Hn]; intros items' t' H'; [done|].
  rewrite <- !app_assoc. apply IH. simpl. by constructor.
Qed.

Lemma MapSep_app items t items' t' : MapSep items t → MapTok items' t' → MapTok (items ++ items') (t ++ t').
Proof.
  intros H. revert items' t'. induction H as [|items t key n tn _ IH Hn]; intros items' t' H'; [done|].
  rewrite <- !app_assoc. apply IH. simpl. rewrite <- app_assoc. by constructor.
Qed.

(** What has been read of the innermost collection when a value is expected there: [d] is
    how many brackets were open at once inside it. *)
Inductive BeforeValue : TContext → nat → list TToken → Prop :=
| Before_node : BeforeValue CNode 0 []
| Before_list c items t : c = CList ∨ c = CListFragment → ListSep items t → BeforeValue c (list_levels items) t
| Before_map c items t key :
    is_map c = true → MapSep items t → BeforeValue c (map_levels items) (t ++ [Item (ItemString key); Equality]).

(** What has been read of a collection, by the position in it. *)
Inductive Frame : TContext → TPosition → nat → list TToken → Prop :=
| Frame_key c items t : is_map c = true → MapSep items t → Frame c PKey (map_levels items) t
| Frame_equality c items t key :
    is_map c = true → MapSep items t → Frame c PEquality (map_levels items) (t ++ [Item (ItemString key)])
| Frame_value c d t : BeforeValue c d t → Frame c PValue d t
| Frame_attributeless c d t items ta :
    BeforeValue c d t → MapTok items ta →
    Frame c PAttributeless (Nat.max d (S (map_levels items)))
      (t ++ Item (Simple BeginAttributes) :: ta ++ [Item (Simple EndAttributes)])
| Frame_separator c d t n tn :
    BeforeValue c d t → NodeTok n tn → Frame c PSeparator (Nat.max d (node_levels n)) (t ++ tn).

Lemma Frame_separate c d t : Frame c PSeparator d t → c ≠ CNode → Frame c (start c) d (t ++ [Separator]).
Proof.
  inversion_clear 1 as [| | | |? d0 t0 n tn Hb Hn]. intros Hc. rewrite <- app_assoc.
  inversion Hb as [|? items t1 Hlist Hsep|? items t1 key Hmap Hsep]; subst; [done| |].
  - assert (start c = PValue) as -> by (by destruct Hlist as [-> | ->]).
    replace (Nat.max _ _) with (list_levels (items ++ [n])) by (rewrite list_levels_app; simpl; lia).
    apply Frame_value, Before_list; [done|]. by constructor.
  - assert (start c = PKey) as -> by (unfold start; by rewrite Hmap).
    replace (Nat.max _ _) with (map_levels (items ++ [(key, n)])) by (rewrite map_levels_app; simpl; lia).
    apply Frame_key; [done|]. rewrite <- app_assoc. by constructor.
Qed.

Lemma Frame_scalar c p d t v tv : Frame c p d t → expects p = true → ValueTok v tv →
  Frame c PSeparator (Nat.max d (value_levels v)) (t ++ tv).
Proof.
  intros H Hp Hv. inversion H as [| |? ? ? Hb|? d0 t0 items ta Hb Ha|]; subst; try done.
  - apply (Frame_separator c d t (Node None v) tv); [done|by constructor].
  - replace (Nat.max _ _) with (Nat.max d0 (node_levels (Node (Some items) v))) by (rewrite node_levels_attributes; lia).
    rewrite <- app_assoc. apply Frame_separator; [done|]. simpl. rewrite <- app_assoc. by constructor.
Qed.

Lemma Frame_list c p d t : Frame c p d t → c = CList ∨ c = CListFragment → p = PValue ∨ p = PSeparator →
  ∃ items, ListTok items t ∧ list_levels items = d.
Proof.
  intros H Hc Hp. inversion H as [| |? ? ? Hb| |? d0 t0 n tn Hb Hn]; subst; try (by destruct Hp).
  - inversion Hb as [|? items t0 _ Hs|]; subst; [by destruct Hc| |by destruct Hc as [-> | ->]]. exists items. split; [|done].
    rewrite <- (app_nil_r items), <- (app_nil_r t). apply ListSep_app; [done|constructor].
  - inversion Hb as [|? items t1 _ Hs|]; subst; [by destruct Hc| |by destruct Hc as [-> | ->]]. exists (items ++ [n]).
    split; [|rewrite list_levels_app; simpl; lia]. apply ListSep_app; [done|by constructor].
Qed.

Lemma Frame_map c p d t : Frame c p d t → is_map c = true → p = PKey ∨ p = PSeparator →
  ∃ items, MapTok items t ∧ map_levels items = d.
Proof.
  intros H Hc Hp. inversion H as [? items ? _ Hs| | | |? d0 t0 n tn Hb Hn]; subst; try (by destruct Hp).
  - exists items. split; [|done]. rewrite <- (app_nil_r items), <- (app_nil_r t). apply MapSep_app; [done|constructor].
  - inversion Hb as [|? items t1 [-> | ->]|? items t1 key _ Hs]; subst; [done..|].
    exists (items ++ [(key, n)]). split; [|rewrite map_levels_app; simpl; lia].
    rewrite <- app_assoc. apply MapSep_app; [done|by constructor].
Qed.

(** The tokens read so far, given the automaton's stack: inside each open collection, and
    before its opening bracket. *)
Inductive Doc (L : nat) (o : TContext) : list TFrame → list TToken → Prop :=
| Doc_outer p d t : is_outer o = true → Frame o p d t → fits_level L 0 d → Doc L o [(o, p)] t
| Doc_value k c p p' a d t t' :
    Doc L o ((c, p) :: a) t → expects p = true → k = CList ∨ k = CMap → (S (length a) < L)%nat →
    Frame k p' d t' → fits_level L (S (length a)) d →
    Doc L o ((k, p') :: (c, PSeparator) :: a)
      (t ++ Item (Simple (match k with CMap => BeginMap | _ => BeginList end)) :: t')
| Doc_attributes c p' a d t t' :
    Doc L o ((c, PValue) :: a) t → (S (length a) < L)%nat →
    Frame CAttributes p' d t' → fits_level L (S (length a)) d →
    Doc L o ((CAttributes, p') :: (c, PAttributeless) :: a) (t ++ Item (Simple BeginAttributes) :: t').

(** A step inside the innermost collection. *)
Lemma Doc_top L o c p p' a t u d' :
  (∀ d t, Frame c p d t → Frame c p' (Nat.max d d') (t ++ u)) → fits_level L (length a) d' →
  Doc L o ((c, p) :: a) t → Doc L o ((c, p') :: a) (t ++ u).
Proof.
  intros Hf Hd HD. inversion HD as [? d ? Ho HF Hfit|k x px ? a' d t0 t1 HD0 Hp Hk HL HF Hfit|x ? a' d t0 t1 HD0 HL HF Hfit]; subst.
  - eapply Doc_outer; [done|by apply Hf|by apply fits_max].
  - rewrite <- app_assoc. simpl. eapply Doc_value; [done..|by apply Hf|by apply fits_max].
  - rewrite <- app_assoc. simpl. eapply Doc_attributes; [done..|by apply Hf|by apply fits_max].
Qed.

Lemma Doc_complete_value L o c p a t v tv :
  Doc L o ((c, p) :: a) t → expects p = true → ValueTok v tv → fits_level L (length a) (value_levels v) →
  Doc L o ((c, PSeparator) :: a) (t ++ tv).
Proof. intros HD Hp Hv Hf. eapply Doc_top; [|exact Hf|done]. intros d t' HF. by eapply Frame_scalar. Qed.

Lemma Doc_open L o k c p a t : Doc L o ((c, p) :: a) t → expects p = true → k = CList ∨ k = CMap → (S (length a) < L)%nat →
  Doc L o ((k, start k) :: (c, PSeparator) :: a)
    (t ++ [Item (Simple (match k with CMap => BeginMap | _ => BeginList end))]).
Proof.
  intros HD Hp Hk HL. eapply (Doc_value L o k c p _ a 0 t []); [done..| |by left].
  destruct Hk as [-> | ->].
  - apply Frame_value, (Before_list CList []); [by left|constructor].
  - apply (Frame_key CMap []); [done|constructor].
Qed.

Lemma Doc_open_attributes L o c a t : Doc L o ((c, PValue) :: a) t → (S (length a) < L)%nat →
  Doc L o ((CAttributes, PKey) :: (c, PAttributeless) :: a) (t ++ [Item (Simple BeginAttributes)]).
Proof.
  intros HD HL. eapply (Doc_attributes L o c PKey a 0 t []); [done..| |by left].
  apply (Frame_key CAttributes []); [done|constructor].
Qed.

Lemma Doc_close_list L o p a t : Doc L o ((CList, p) :: a) t → p = PValue ∨ p = PSeparator →
  Doc L o a (t ++ [Item (Simple EndList)]).
Proof.
  intros HD Hp. inversion HD as [? ? ? Ho|k c px ? a' d t0 t1 HD0 Hpx Hk HL HF Hfit|]; subst; [done|].
  destruct (Frame_list _ _ _ _ HF (or_introl eq_refl) Hp) as (items & Hi & <-). rewrite <- app_assoc. simpl.
  eapply Doc_complete_value; [done|done|by constructor|]. by apply fits_S.
Qed.

Lemma Doc_close_map L o p a t : Doc L o ((CMap, p) :: a) t → p = PKey ∨ p = PSeparator →
  Doc L o a (t ++ [Item (Simple EndMap)]).
Proof.
  intros HD Hp. inversion HD as [? ? ? Ho|k c px ? a' d t0 t1 HD0 Hpx Hk HL HF Hfit|]; subst; [done|].
  destruct (Frame_map _ _ _ _ HF eq_refl Hp) as (items & Hi & <-). rewrite <- app_assoc. simpl.
  eapply Doc_complete_value; [done|done|by constructor|]. by apply fits_S.
Qed.

Lemma Doc_close_attributes L o p a t : Doc L o ((CAttributes, p) :: a) t → p = PKey ∨ p = PSeparator →
  Doc L o a (t ++ [Item (Simple EndAttributes)]).
Proof.
  intros HD Hp. inversion HD as [? ? ? Ho|k c px ? a' d t0 t1 _ _ Hk|c ? a' d t0 t1 HD0 HL HF Hfit]; subst;
    [done|by destruct Hk|].
  destruct (Frame_map _ _ _ _ HF eq_refl Hp) as (items & Hi & <-). rewrite <- app_assoc. simpl.
  eapply (Doc_top L o c PValue); [|apply fits_S; split; [exact HL|exact Hfit]|done].
  intros d t HF'. inversion HF'; subst. by apply Frame_attributeless.
Qed.

Lemma Frame_after_key c d t : Frame c PEquality d t → Frame c PValue (Nat.max d 0) (t ++ [Equality]).
Proof.
  inversion_clear 1 as [|? items t0 key Hc Hs| | |]. rewrite Nat.max_0_r, <- app_assoc.
  by apply Frame_value, Before_map.
Qed.

Lemma Frame_add_key c d t key : Frame c PKey d t → Frame c PEquality (Nat.max d 0) (t ++ [Item (ItemString key)]).
Proof. inversion_clear 1. rewrite Nat.max_0_r. by apply Frame_equality. Qed.

(** Tokens that carry the payload their type calls for. *)
Definition proper_token (token : TToken) : Prop :=
  match token with
  | Item (Simple (EndOfStream | BooleanValue | Int64Value | Uint64Value | DoubleValue | StringValue)) => False
  | _ => True
  end.
#[export] Instance proper_token_dec token : Decision (proper_token token).
Proof. destruct token as [[[]| | | | |]| |]; simpl; apply _. Defined.

Lemma proper_real token : proper_token token → real_token token = true.
Proof. by destruct token as [[[]| | | | |]| |]. Qed.

Lemma step_sound L o token a a' t : proper_token token → Doc L o a t → step L token a = Some a' → Doc L o a' (t ++ [token]).
Proof.
  intros Hproper HD Hstep. destruct a as [|[c p] a]; [done|].
  assert (∀ v item, token = Item item → scalar_item v = Some item → expects p = true →
    Doc L o ((c, PSeparator) :: a) (t ++ [token])) as Hscalar.
  { intros v item -> Hv Hp. eapply (Doc_complete_value L o c p a t v); [done|done|by constructor|].
    left. by destruct v. }
  destruct token as [item| |]; [destruct item as [[]|b|z|z|z|s]|..]; simpl in Hstep; try done.
  - destruct (expects p) eqn:Hp; [|done]. destruct (Nat.ltb_spec (S (length a)) L); simplify_eq/=.
    apply (Doc_open L o CMap c p a t); auto.
  - destruct c, p; simplify_eq/=; eapply Doc_close_map; eauto.
  - destruct p; try done. destruct (Nat.ltb_spec (S (length a)) L); simplify_eq/=. by apply Doc_open_attributes.
  - destruct c, p; simplify_eq/=; eapply Doc_close_attributes; eauto.
  - destruct (expects p) eqn:Hp; [|done]. destruct (Nat.ltb_spec (S (length a)) L); simplify_eq/=.
    apply (Doc_open L o CList c p a t); auto.
  - destruct c, p; simplify_eq/=; eapply Doc_close_list; eauto.
  - destruct (expects p) eqn:Hp; simplify_eq. by apply (Hscalar VEntity (Simple EntityValue)).
  - destruct (expects p) eqn:Hp; simplify_eq. by apply (Hscalar (VBoolean b) (ItemBoolean b)).
  - destruct (expects p) eqn:Hp; simplify_eq. by apply (Hscalar (VInt64 z) (ItemInt64 z)).
  - destruct (expects p) eqn:Hp; simplify_eq. by apply (Hscalar (VUint64 z) (ItemUint64 z)).
  - destruct (expects p) eqn:Hp; simplify_eq. by apply (Hscalar (VDouble z) (ItemDouble z)).
  - destruct p; simplify_eq/=; try (by apply (Hscalar (VString s) (ItemString s))).
    eapply (Doc_top L o c PKey _ _ _ _ 0); [|by left|done]. intros. by apply Frame_add_key.
  - destruct p; simplify_eq/=. eapply (Doc_top L o c PEquality _ _ _ _ 0); [|by left|done]. intros. by apply Frame_after_key.
  - destruct p; try done. assert (c ≠ CNode ∧ a' = (c, start c) :: a) as [Hc ->] by (destruct c; by simplify_eq).
    eapply (Doc_top L o c PSeparator _ _ _ _ 0); [|by left|done]. intros d t' HF. rewrite Nat.max_0_r. by apply Frame_separate.
Qed.

Lemma steps_sound L o tokens a a' t : Forall proper_token tokens → Doc L o a t → steps L tokens a = Some a' →
  Doc L o a' (t ++ tokens).
Proof.
  intros Hp. revert a t. induction Hp as [|token tokens Ht _ IH]; intros a t HD H; simpl in H.
  - simplify_eq. by rewrite app_nil_r.
  - apply bind_Some in H as (a1 & Hs & H). apply (step_sound _ _ _ _ _ _ Ht HD) in Hs.
    rewrite (app_assoc t [token] tokens : t ++ token :: tokens = _). by eapply IH.
Qed.

Definition outermost (mode : EYsonType) : TContext :=
  match mode with YsonNode => CNode | YsonListFragment => CListFragment | YsonMapFragment => CMapFragment end.

Lemma Doc_initial L mode : Doc L (outermost mode) (initial mode) [].
Proof.
  destruct mode; simpl.
  - apply (Doc_outer L CNode PValue 0); [done|apply Frame_value; constructor|by left].
  - apply (Doc_outer L CListFragment PValue 0); [done| |by left].
    apply Frame_value, (Before_list CListFragment []); [by right|constructor].
  - apply (Doc_outer L CMapFragment PKey 0); [done| |by left]. apply (Frame_key CMapFragment []); [done|constructor].
Qed.

Lemma Doc_accepting L mode a t : Doc L (outermost mode) a t → accepting a = true →
  ∃ evs levels, ModeTok mode evs levels t ∧ fits_level L 0 levels.
Proof.
  intros HD Ha. inversion HD as [p d ? _ HF Hfit|k c px p' a' d t0 t1|c p' a' d t0 t1]; subst;
    [|by destruct k, p'|by destruct p'].
  destruct mode; simpl in *.
  - destruct p; try done. inversion HF as [| | | |? d0 t0 n tn Hb Hn]; subst.
    inversion Hb as [|? ? ? [|]|]; subst; try done. exists (node_events n), (node_levels n). by split; [constructor|].
  - destruct (Frame_list _ _ _ _ HF) as (items & Hi & <-); [by right|destruct p; try done; auto|].
    exists (list_events items), (list_levels items). by split; [constructor|].
  - destruct (Frame_map _ _ _ _ HF eq_refl) as (items & Hi & <-); [destruct p; try done; auto|].
    exists (map_events items), (map_levels items). by split; [constructor|].
Qed.

Lemma ModeTok_steps L mode evs levels t : ModeTok mode evs levels t → fits_level L 0 levels →
  ∃ a, steps L t (initial mode) = Some a ∧ accepting a = true.
Proof.
  destruct (steps_complete L) as (HN & _ & HLi & HM). destruct 1 as [n t Hn|items t Hi|items t Hi]; intros Hf; simpl.
  - rewrite (HN _ _ Hn CNode []) by done. by eexists.
  - destruct (HLi _ _ Hi CListFragment [] ltac:(by right) Hf) as (p & -> & [-> | ->]); by eexists.
  - destruct (HM _ _ Hi CMapFragment [] eq_refl Hf) as (p & -> & [-> | ->]); by eexists.
Qed.

Lemma ModeTok_proper mode evs levels t : ModeTok mode evs levels t → Forall proper_token t.
Proof.
  assert ((∀ n t, NodeTok n t → Forall proper_token t) ∧ (∀ v t, ValueTok v t → Forall proper_token t) ∧
    (∀ items t, ListTok items t → Forall proper_token t) ∧ (∀ items t, MapTok items t → Forall proper_token t))
    as (HN & _ & HLi & HM).
  { apply Tok_mutind; intros; repeat (apply List.Forall_cons || apply Forall_app_2 || apply List.Forall_nil); try done.
    by destruct v; simplify_eq/=. }
  destruct 1; eauto.
Qed.

(** ** The theorem *)

Lemma checker_accepts (mode : EYsonType) (limit : nat) (tokens : list TToken) :
  Z.of_nat limit < 2 ^ 32 → Forall proper_token tokens →
  match (OnTokens tokens (TYsonSyntaxChecker.New mode (Z.of_nat limit)) ≫= TYsonSyntaxChecker.OnFinish) with
  | Ok c => TYsonSyntaxChecker.GetNestingLevel c = 0 ∧
      ∃ evs levels, ModeTok mode evs levels tokens ∧ fits_level limit 0 levels
  | Throw _ => ¬ ∃ evs levels, ModeTok mode evs levels tokens ∧ fits_level limit 0 levels
  | _ => False
  end.
Proof.
  intros HL Htokens.
  pose proof (OnTokens_implements limit tokens _ _ HL (List.Forall_impl _ proper_real Htokens) (New_simulates mode limit HL)) as H.
  assert (steps limit tokens (initial mode) = None → ¬ ∃ evs levels, ModeTok mode evs levels tokens ∧ fits_level limit 0 levels) as Hnone.
  { intros HN (evs & levels & Hm & Hf). destruct (ModeTok_steps _ _ _ _ _ Hm Hf) as (? & ? & _). congruence. }
  destruct (steps limit tokens (initial mode)) as [a|] eqn:Hsteps; simpl in H.
  - destruct H as (c & -> & Hsim). simpl. pose proof (OnFinish_accepting _ _ _ Hsim) as Hfin.
    destruct (accepting a) eqn:Hacc.
    + rewrite Hfin. split.
      * destruct Hsim as (_ & _ & ->). by destruct a as [|[[] []] []].
      * eapply Doc_accepting; [|exact Hacc]. by apply (steps_sound _ _ _ _ _ [] Htokens (Doc_initial limit mode)).
    + destruct Hfin as (e & ->). intros (evs & levels & Hm & Hf).
      destruct (ModeTok_steps _ _ _ _ _ Hm Hf) as (? & ? & ?). congruence.
  - destruct H as (e & ->). simpl. by apply Hnone.
Qed.

(** C5. The syntax checker accepts exactly the token sequences of documents: for every
    sequence of tokens, in each of the three modes, the checker either throws or gets to
    the end, it never looks at an empty stack and never decrements a zero level; and it
    gets to the end, [OnFinish] included, exactly when the tokens are those of a document
    (a node, the items of a list, the items of a map; separators between items, an
    optional one behind the last, at most one attribute map per value) whose brackets,
    attribute maps included, are nested less deep than the limit. *)
Theorem TYsonSyntaxChecker_correct (mode : EYsonType) (limit : nat) (tokens : list TToken)
    (Hlimit : Z.of_nat limit < 2 ^ 31) (Htokens : Forall proper_token tokens) :
  match (OnTokens tokens (TYsonSyntaxChecker.New mode (Z.of_nat limit)) ≫= TYsonSyntaxChecker.OnFinish) with
  | Ok c => TYsonSyntaxChecker.GetNestingLevel c = 0 ∧
      ∃ evs levels, ModeTok mode evs levels tokens ∧ fits_level limit 0 levels
  | Throw _ => ¬ ∃ evs levels, ModeTok mode evs levels tokens ∧ fits_level limit 0 levels
  | _ => False
  end.
Proof. apply checker_accepts; [lia|done]. Qed.

Lemma TYsonSyntaxChecker_correct_witness :
  let tokens := [Item (Simple BeginAttributes); Item (ItemString (B"a")); Equality; Item (ItemInt64 1);
                 Item (Simple EndAttributes); Item (Simple BeginList); Item (Simple EntityValue); Separator;
                 Item (Simple EndList)] in
  ∃ evs levels, ModeTok YsonNode evs levels tokens ∧ fits_level 2 0 levels.
Proof.
  intros tokens. assert (Forall proper_token tokens) as Hp by (apply (bool_decide_unpack _); by vm_compute).
  pose proof (TYsonSyntaxChecker_correct YsonNode 2 tokens ltac:(lia) Hp) as H.
  destruct (_ ≫= _) as [c| | |] eqn:E in H; vm_compute in E; try discriminate E. apply H.
Defined.
