(* ===== verification/PullParser.v ===== *)
(** The pull parser ([yt/yt/core/yson/pull_parser.h], [pull_parser-inl.h],
    [pull_parser.cpp]): the same lexer as the push parser's, the syntax checker instead of
    recursion, and one call of [Next] per item.

    [NextImpl] is a template over a visitor; here a visitor is a record of operations on
    its own state, and the four visitors of the source are its instances: the one that
    returns items ([Next]), the one that does nothing ([SkipComplexValue]), the one that
    writes tokens and the one that calls a consumer ([TransferComplexValue]). *)

From S2P Require Import Prelude Coding IntCast YsonStream YsonLexer YsonEvents YsonParser YsonGrammar YsonWriter SyntaxChecker.

Module Checker := TYsonSyntaxChecker.

(** The blocks an [IZeroCopyInput] hands out, the empty one it ends with included; nothing
    is read before the first [RefreshBlock]. *)
Definition TZeroCopyInputStreamReader (blocks : list (list byte)) : TStream :=
  {| Block := []; Past := 0; Rest := blocks ++ [[]] |}.

Record TYsonPullParser := { PLexer : TLexer; SyntaxChecker_ : Checker.t }.

Definition NewPullParser (s : TStream) (ysonType : EYsonType) (nestingLevelLimit : Z) : TYsonPullParser :=
  {| PLexer := NewLexer s; SyntaxChecker_ := Checker.New ysonType nestingLevelLimit |}.

(** A call on the lexer, on the checker. *)
Definition with_lexer {A} (f : TLexer → Result (TLexer * A)) (p : TYsonPullParser) : Result (TYsonPullParser * A) :=
  '(l, a) ← f (PLexer p); Ok ({| PLexer := l; SyntaxChecker_ := SyntaxChecker_ p |}, a).
Definition with_checker (f : Checker.t → Result Checker.t) (p : TYsonPullParser) : Result TYsonPullParser :=
  c ← f (SyntaxChecker_ p); Ok {| PLexer := PLexer p; SyntaxChecker_ := c |}.
Definition advance1 (p : TYsonPullParser) : TYsonPullParser :=
  {| PLexer := advance 1 (PLexer p); SyntaxChecker_ := SyntaxChecker_ p |}.

(** ** Visitors *)

Record TVisitor (V R : Type) := {
  VisitItem : TYsonItem → Checker.t → V → Result (V * R);
  VisitEquality : Checker.t → V → Result V;
  VisitSeparator : Checker.t → V → Result V
}.
Arguments VisitItem {V R} _ _ _ _.
Arguments VisitEquality {V R} _ _ _.
Arguments VisitSeparator {V R} _ _ _.

Definition TYsonItemCreatingVisitor : TVisitor unit TYsonItem :=
  {| VisitItem item _ v := Ok (v, item); VisitEquality _ v := Ok v; VisitSeparator _ v := Ok v |}.

Definition TNullVisitor : TVisitor unit unit :=
  {| VisitItem _ _ v := Ok (v, ()); VisitEquality _ v := Ok v; VisitSeparator _ v := Ok v |}.

(** The bytes [TUncheckedYsonTokenWriter] writes for an item in binary form. *)
Definition WriteItem (item : TYsonItem) (out : list byte) : list byte :=
  match item with
  | Simple BeginAttributes => WriteSymbol BeginAttributesSymbol out
  | Simple EndAttributes => WriteSymbol EndAttributesSymbol out
  | Simple BeginMap => WriteSymbol BeginMapSymbol out
  | Simple EndMap => WriteSymbol EndMapSymbol out
  | Simple BeginList => WriteSymbol BeginListSymbol out
  | Simple EndList => WriteSymbol EndListSymbol out
  | Simple EntityValue => WriteSymbol EntitySymbol out
  | Simple _ => out
  | ItemString value => WriteBinaryString value out
  | ItemInt64 value => WriteBinaryInt64 value out
  | ItemUint64 value => WriteBinaryUint64 value out
  | ItemDouble value => WriteBinaryDouble value out
  | ItemBoolean value => WriteBinaryBoolean value out
  end.

Definition TYsonTokenWritingVisitor : TVisitor (list byte) unit :=
  {| VisitItem item _ out := Ok (WriteItem item out, ());
     VisitEquality _ out := Ok (WriteSymbol KeyValueSeparatorSymbol out);
     VisitSeparator _ out := Ok (WriteSymbol ItemSeparatorSymbol out) |}.

Section ConsumerVisitor.
Context {C : Type} `{IYsonConsumer C}.

Record TYsonConsumerVisitor := { VConsumer : C; WaitingForListItem_ : list bool }.

Definition SetWaitingForListItem (value : bool) (nestingLevelDelta : Z) (checker : Checker.t)
    (v : TYsonConsumerVisitor) : Result (TYsonConsumerVisitor * bool) :=
  let nestingLevel := Checker.GetNestingLevel checker + nestingLevelDelta in
  let waiting := WaitingForListItem_ v in
  let waiting :=
    if nestingLevel >=? Z.of_nat (length waiting) then
      waiting ++ replicate (Z.to_nat (Z.max (nestingLevel + 1) (2 * Z.of_nat (length waiting))) - length waiting) false
    else waiting in
  if nestingLevel <? 0 then Crash
  else
    match waiting !! Z.to_nat nestingLevel with
    | None => Crash
    | Some was =>
        Ok ({| VConsumer := VConsumer v; WaitingForListItem_ := <[Z.to_nat nestingLevel := value]> waiting |}, was)
    end.

Definition call (ev : TYsonEvent) (v : TYsonConsumerVisitor) : Result TYsonConsumerVisitor :=
  '(c, _) ← OnEvent ev (VConsumer v);
  Ok {| VConsumer := c; WaitingForListItem_ := WaitingForListItem_ v |}.

Definition MaybeEmitOnListItem (nestingLevelDelta : Z) (checker : Checker.t) (v : TYsonConsumerVisitor)
    : Result TYsonConsumerVisitor :=
  '(v, wasWaiting) ← SetWaitingForListItem false nestingLevelDelta checker v;
  if wasWaiting : bool then call OnListItem v else Ok v.

Definition VisitConsumer (item : TYsonItem) (checker : Checker.t) (v : TYsonConsumerVisitor)
    : Result (TYsonConsumerVisitor * unit) :=
  v ← match item with
      | Simple BeginAttributes => v ← MaybeEmitOnListItem (-1) checker v; call OnBeginAttributes v
      | Simple EndAttributes => call OnEndAttributes v
      | Simple BeginMap => v ← MaybeEmitOnListItem (-1) checker v; call OnBeginMap v
      | Simple EndMap => call OnEndMap v
      | Simple BeginList =>
          v ← MaybeEmitOnListItem (-1) checker v;
          '(v, _) ← SetWaitingForListItem true 0 checker v;
          call OnBeginList v
      | Simple EndList => '(v, _) ← SetWaitingForListItem false 1 checker v; call OnEndList v
      | ItemString value =>
          isOnKey ← Checker.IsOnKey checker;
          if isOnKey : bool then call (OnKeyedItem value) v
          else v ← MaybeEmitOnListItem 0 checker v; call (OnStringScalar value) v
      | ItemInt64 value => v ← MaybeEmitOnListItem 0 checker v; call (OnInt64Scalar value) v
      | ItemUint64 value => v ← MaybeEmitOnListItem 0 checker v; call (OnUint64Scalar value) v
      | ItemDouble value => v ← MaybeEmitOnListItem 0 checker v; call (OnDoubleScalar value) v
      | ItemBoolean value => v ← MaybeEmitOnListItem 0 checker v; call (OnBooleanScalar value) v
      | Simple EntityValue => v ← MaybeEmitOnListItem 0 checker v; call OnEntity v
      | Simple _ => Ok v
      end;
  Ok (v, ()).

Definition ConsumerVisitor : TVisitor TYsonConsumerVisitor unit :=
  {| VisitItem := VisitConsumer;
     VisitEquality _ v := Ok v;
     VisitSeparator checker v :=
       isListSeparator ← Checker.IsListSeparator checker;
       if isListSeparator : bool then '(v, _) ← SetWaitingForListItem true 0 checker v; Ok v else Ok v |}.
End ConsumerVisitor.
Arguments TYsonConsumerVisitor : clear implicits.

(** ** The parser *)

Section TYsonPullParser.
Context (FromString_double : list byte → Result Z).

(** The lexer's default memory limit. *)
#[local] Abbreviation ML := DefaultMemoryLimit.

(** The branch of [NextImpl] for a literal that starts with a digit or a sign. *)
Definition NextNumeric (p : TYsonPullParser) : Result (TYsonPullParser * option TToken) :=
  '(p, (numericResult, valueBuffer)) ← with_lexer (ReadNumeric ML true) p;
  let literal (r : Result Z) (item : Z → TYsonItem) :=
    match r with
    | Throw _ => Throw EBadLiteral
    | r => value ← r; p ← with_checker Checker.OnSimpleNonstring p; Ok (p, Some (Item (item value)))
    end in
  match numericResult with
  | NumericDouble => literal (FromString_double valueBuffer) ItemDouble
  | NumericInt64 => literal (FromString_i64 valueBuffer) ItemInt64
  | NumericUint64 => literal (FromString_ui64 (take (length valueBuffer - 1) valueBuffer)) ItemUint64
  end.

(** The [switch] of [NextImpl], up to the visitor: the lexer's and the checker's calls in
    their order, and the token that was read; [None] is white space. *)
Definition NextSwitch (ch : byte) (p : TYsonPullParser) : Result (TYsonPullParser * option TToken) :=
  let bracket check type := p ← with_checker check (advance1 p); Ok (p, Some (Item (Simple type))) in
  if Byte.eqb ch BeginAttributesSymbol then bracket Checker.OnAttributesBegin BeginAttributes
  else if Byte.eqb ch EndAttributesSymbol then bracket Checker.OnAttributesEnd EndAttributes
  else if Byte.eqb ch BeginMapSymbol then bracket Checker.OnBeginMap BeginMap
  else if Byte.eqb ch EndMapSymbol then bracket Checker.OnEndMap EndMap
  else if Byte.eqb ch BeginListSymbol then bracket Checker.OnBeginList BeginList
  else if Byte.eqb ch EndListSymbol then bracket Checker.OnEndList EndList
  else if Byte.eqb ch x22 then
    '(p, value) ← with_lexer (ReadQuotedString ML) (advance1 p);
    p ← with_checker Checker.OnString p; Ok (p, Some (Item (ItemString value)))
  else if Byte.eqb ch StringMarker then
    p ← with_checker Checker.OnString (advance1 p);
    '(p, value) ← with_lexer (ReadBinaryString ML) p; Ok (p, Some (Item (ItemString value)))
  else if Byte.eqb ch Int64Marker then
    '(p, value) ← with_lexer ReadBinaryInt64 (advance1 p);
    p ← with_checker Checker.OnSimpleNonstring p; Ok (p, Some (Item (ItemInt64 value)))
  else if Byte.eqb ch Uint64Marker then
    '(p, value) ← with_lexer ReadBinaryUint64 (advance1 p);
    p ← with_checker Checker.OnSimpleNonstring p; Ok (p, Some (Item (ItemUint64 value)))
  else if Byte.eqb ch DoubleMarker then
    '(p, value) ← with_lexer ReadBinaryDouble (advance1 p);
    p ← with_checker Checker.OnSimpleNonstring p; Ok (p, Some (Item (ItemDouble value)))
  else if Byte.eqb ch FalseMarker then
    p ← with_checker Checker.OnSimpleNonstring (advance1 p); Ok (p, Some (Item (ItemBoolean false)))
  else if Byte.eqb ch TrueMarker then
    p ← with_checker Checker.OnSimpleNonstring (advance1 p); Ok (p, Some (Item (ItemBoolean true)))
  else if Byte.eqb ch EntitySymbol then
    p ← with_checker Checker.OnSimpleNonstring (advance1 p); Ok (p, Some (Item (Simple EntityValue)))
  else if Byte.eqb ch EndSymbol then
    p ← with_checker Checker.OnFinish p; Ok (p, Some (Item (Simple EndOfStream)))
  else if Byte.eqb ch "%" then
    '(p, ch) ← with_lexer (lift (GetChar false)) (advance1 p);
    if Byte.eqb ch "t" || Byte.eqb ch "f" then
      p ← with_checker Checker.OnSimpleNonstring p;
      '(p, value) ← with_lexer (ReadBoolean ML false) p; Ok (p, Some (Item (ItemBoolean value)))
    else
      p ← with_checker Checker.OnSimpleNonstring p;
      '(p, value) ← with_lexer (ReadNanOrInf ML false) p; Ok (p, Some (Item (ItemDouble value)))
  else if Byte.eqb ch KeyValueSeparatorSymbol then
    p ← with_checker Checker.OnEquality p; Ok (advance1 p, Some Equality)
  else if Byte.eqb ch ItemSeparatorSymbol then
    p ← with_checker Checker.OnSeparator p; Ok (advance1 p, Some Separator)
  else if IsSpace ch then
    '(p, _) ← with_lexer (SkipSpaceAndGetChar true) p; Ok (p, None)
  else if isdigit ch || Byte.eqb ch "-" || Byte.eqb ch "+" then NextNumeric p
  else if isalpha ch || Byte.eqb ch "_" then
    '(p, value) ← with_lexer (ReadUnquotedString ML true) p;
    p ← with_checker Checker.OnString p; Ok (p, Some (Item (ItemString value)))
  else Throw (EUnexpectedChar ch).

Definition NextTurn (p : TYsonPullParser) : Result (TYsonPullParser * option TToken) :=
  '(p, ch) ← with_lexer (lift (GetChar true)) p; NextSwitch ch p.

Fixpoint next_loop {V R} (visitor : TVisitor V R) (fuel : nat) (p : TYsonPullParser) (v : V)
    : Result (TYsonPullParser * V * R) :=
  match fuel with
  | O => OutOfFuel
  | S fuel =>
      '(p, token) ← NextTurn p;
      match token with
      | None => next_loop visitor fuel p v
      | Some Equality => v ← VisitEquality visitor (SyntaxChecker_ p) v; next_loop visitor fuel p v
      | Some Separator => v ← VisitSeparator visitor (SyntaxChecker_ p) v; next_loop visitor fuel p v
      | Some (Item item) => '(v, r) ← VisitItem visitor item (SyntaxChecker_ p) v; Ok (p, v, r)
      end
  end.

Definition pull_fuel (p : TYsonPullParser) : nat := S (stream_size (Stream (PLexer p))).

Definition NextImpl {V R} (visitor : TVisitor V R) (p : TYsonPullParser) (v : V) : Result (TYsonPullParser * V * R) :=
  next_loop visitor (pull_fuel p) p v.

Definition Next (p : TYsonPullParser) : Result (TYsonPullParser * TYsonItem) :=
  '(p, _, item) ← NextImpl TYsonItemCreatingVisitor p (); Ok (p, item).

(** ** Whole values *)

(** [while (GetNestingLevel() >= nestingLevel) NextImpl(visitor)]. *)
Fixpoint traverse_loop {V R} (visitor : TVisitor V R) (fuel : nat) (nestingLevel : Z) (p : TYsonPullParser) (v : V)
    : Result (TYsonPullParser * V) :=
  match fuel with
  | O => OutOfFuel
  | S fuel =>
      if Checker.GetNestingLevel (SyntaxChecker_ p) >=? nestingLevel then
        '(p, v, _) ← NextImpl visitor p v; traverse_loop visitor fuel nestingLevel p v
      else Ok (p, v)
  end.

Definition traverse {V R} (visitor : TVisitor V R) (p : TYsonPullParser) (v : V) : Result (TYsonPullParser * V) :=
  traverse_loop visitor (S (pull_fuel p)) (Checker.GetNestingLevel (SyntaxChecker_ p)) p v.

(** [TForwardingVisitor]: the visitor, and the item it was shown, from which [IsAttributes]
    and [IsComposite] are read off. *)
Definition TForwardingVisitor {V R} (visitor : TVisitor V R) : TVisitor V TYsonItem :=
  {| VisitItem item checker v := '(v, _) ← VisitItem visitor item checker v; Ok (v, item);
     VisitEquality := VisitEquality visitor;
     VisitSeparator := VisitSeparator visitor |}.

Definition IsAttributes (item : TYsonItem) : bool := bool_decide (GetType item = BeginAttributes).
Definition IsComposite (item : TYsonItem) : bool :=
  match GetType item with BeginAttributes | BeginMap | BeginList => true | _ => false end.

Fixpoint traverse_value {V R} (visitor : TVisitor V R) (fuel : nat) (stopAfterAttributes : bool) (p : TYsonPullParser) (v : V)
    : Result (TYsonPullParser * V) :=
  match fuel with
  | O => OutOfFuel
  | S fuel =>
      '(p, v, item) ← NextImpl (TForwardingVisitor visitor) p v;
      if negb (IsComposite item) then Ok (p, v)
      else
        '(p, v) ← traverse visitor p v;
        if negb stopAfterAttributes && IsAttributes item then traverse_value visitor fuel stopAfterAttributes p v
        else Ok (p, v)
  end.

(** [TraverseComplexValueOrAttributes(visitor, stopAfterAttributes)]: the value behind an
    attribute map has none, so that it calls itself at most once. *)
Definition TraverseComplexValueOrAttributes {V R} (visitor : TVisitor V R) (stopAfterAttributes : bool)
    (p : TYsonPullParser) (v : V) : Result (TYsonPullParser * V) :=
  traverse_value visitor 2 stopAfterAttributes p v.

(** ... with the item that [Next] has already returned. *)
Definition TraverseFrom {V R} (visitor : TVisitor V R) (previousItem : TYsonItem) (stopAfterAttributes : bool)
    (p : TYsonPullParser) (v : V) : Result (TYsonPullParser * V) :=
  match GetType previousItem with
  | EndOfStream | EndAttributes | EndMap | EndList => Crash
  | BeginAttributes =>
      '(v, _) ← VisitItem visitor previousItem (SyntaxChecker_ p) v;
      '(p, v) ← traverse visitor p v;
      if negb stopAfterAttributes then TraverseComplexValueOrAttributes visitor stopAfterAttributes p v else Ok (p, v)
  | BeginList | BeginMap =>
      '(v, _) ← VisitItem visitor previousItem (SyntaxChecker_ p) v;
      traverse visitor p v
  | _ => '(v, _) ← VisitItem visitor previousItem (SyntaxChecker_ p) v; Ok (p, v)
  end.

Definition SkipComplexValue (p : TYsonPullParser) : Result TYsonPullParser :=
  '(p, _) ← TraverseComplexValueOrAttributes TNullVisitor false p (); Ok p.

Definition SkipComplexValueFrom (previousItem : TYsonItem) (p : TYsonPullParser) : Result TYsonPullParser :=
  '(p, _) ← TraverseFrom TNullVisitor previousItem false p (); Ok p.

Definition SkipAttributes (previousItem : TYsonItem) (p : TYsonPullParser) : Result TYsonPullParser :=
  if bool_decide (GetType previousItem = BeginAttributes) then
    '(p, _) ← TraverseFrom TNullVisitor previousItem true p (); Ok p
  else Throw EUnexpectedItem.

Definition TransferComplexValueToWriter (p : TYsonPullParser) (out : list byte) : Result (TYsonPullParser * list byte) :=
  TraverseComplexValueOrAttributes TYsonTokenWritingVisitor false p out.

Definition TransferComplexValue {C} `{IYsonConsumer C} (previousItem : TYsonItem) (p : TYsonPullParser) (consumer : C)
    : Result (TYsonPullParser * C) :=
  '(p, v) ← TraverseFrom ConsumerVisitor previousItem false p {| VConsumer := consumer; WaitingForListItem_ := [] |};
  Ok (p, VConsumer v).

Definition TransferAttributes {C} `{IYsonConsumer C} (previousItem : TYsonItem) (p : TYsonPullParser) (consumer : C)
    : Result (TYsonPullParser * C) :=
  if bool_decide (GetType previousItem = BeginAttributes) then
    '(p, v) ← TraverseFrom ConsumerVisitor previousItem true p {| VConsumer := consumer; WaitingForListItem_ := [] |};
    Ok (p, VConsumer v)
  else Throw EUnexpectedItem.
End TYsonPullParser.

(** ** One turn, on arbitrary input *)

Section Turn.
Context (fd : list byte → Result Z) (Hfd : total_conversion fd).

#[local] Abbreviation ML := DefaultMemoryLimit.
#[local] Abbreviation lsize l := (stream_size (Stream l)).
#[local] Abbreviation size p := (lsize (PLexer p)).

(** A lexer routine that started with [n] bytes to come and leaves fewer. *)
Definition consumes {A} (n : nat) (r : Result (TLexer * A)) : Prop :=
  match r with Ok (l, _) => ready ML l ∧ (lsize l < n)%nat | Throw _ => True | _ => False end.

Lemma safe_consumes {A} n l (r : Result (TLexer * A)) Q : safe ML l r Q → (lsize l < n)%nat → consumes n r.
Proof. destruct r as [[l' a]| | |]; simpl; try done. intros [[? ?] _] ?. split; [done|lia]. Qed.

Lemma GetChar_peeked a l c b : Block (Stream l) = c :: b → lift (GetChar a) l = Ok (l, c).
Proof.
  intros Hb. unfold lift, GetChar. rewrite (IsEmpty_cons _ _ _ Hb). simpl. unfold Deref. rewrite Hb. simpl.
  by destruct l.
Qed.

Lemma ReadNumeric_consumes a l c : ready ML l → peeked l c → is_numeric_char c = true →
  consumes (lsize l) (ReadNumeric ML a l).
Proof.
  intros Hl Hc Hn. pose proof (class_not_nul _ _ eq_refl Hn) as Hne. destruct (Hc Hne) as [b Hb].
  unfold ReadNumeric, stream_fuel. cbn [numeric_loop]. rewrite (GetChar_peeked a (ClearBuffer l) c b Hb).
  run_bind. cbv zeta.
  rewrite (numeric_turn c _ (λ r, l' ← PushBack ML c (ClearBuffer l); numeric_loop ML a (lsize l) (advance 1 l') r)), Hn.
  pose proof (push_advance_safe ML c (ClearBuffer l) (ready_clear _ _ Hl) Hc Hne) as Hp.
  destruct (PushBack ML c (ClearBuffer l)) as [l2| | |]; try done. destruct Hp as [[Hl2 _] Hs]. run_bind.
  pose proof (numeric_loop_safe ML a (lsize l) (advance 1 l2) (numeric_step NumericInt64 c) Hl2 Hs) as H.
  destruct (numeric_loop _ _ _ _ _) as [[l3 r]| | |]; try done. destruct H as [[? ?] _].
  split; [done|]. change (lsize (ClearBuffer l)) with (lsize l) in Hs. lia.
Qed.

Lemma ReadUnquotedString_consumes a l c : ready ML l → peeked l c → is_unquoted_char c = true →
  consumes (lsize l) (ReadUnquotedString ML a l).
Proof.
  intros Hl Hc Hn. pose proof (class_not_nul _ _ eq_refl Hn) as Hne. destruct (Hc Hne) as [b Hb].
  unfold ReadUnquotedString, stream_fuel. cbn [unquoted_loop]. rewrite (GetChar_peeked a (ClearBuffer l) c b Hb).
  run_bind. rewrite Hn.
  pose proof (push_advance_safe ML c (ClearBuffer l) (ready_clear _ _ Hl) Hc Hne) as Hp.
  destruct (PushBack ML c (ClearBuffer l)) as [l2| | |]; try done. destruct Hp as [[Hl2 _] Hs]. run_bind.
  pose proof (unquoted_loop_safe ML a (lsize l) (advance 1 l2) Hl2 Hs) as H.
  destruct (unquoted_loop _ _ _ _) as [l3| | |]; try done. destruct H as [? ?].
  split; [done|]. change (lsize (ClearBuffer l)) with (lsize l) in Hs. lia.
Qed.

Lemma SkipSpace_consumes a l c : ready ML l → peeked l c → IsSpace c = true →
  consumes (lsize l) (SkipSpaceAndGetChar a l).
Proof.
  intros Hl Hc Hsp. pose proof (class_not_nul _ _ eq_refl Hsp) as Hne. destruct (Hc Hne) as [b Hb].
  unfold SkipSpaceAndGetChar. rewrite (IsEmpty_cons _ _ _ Hb). unfold Deref. rewrite Hb. cbn [negb mbind result_bind].
  rewrite Hsp. cbn [negb]. unfold SkipSpaceAndGetCharFallback. cbn [skip_space_loop].
  rewrite (IsEmpty_cons _ _ _ Hb). unfold Deref. rewrite Hb. run_bind. rewrite Hsp. cbn [negb].
  pose proof (Advance_safe 1 (Stream l) (proj1 Hl)) as Ha. rewrite Hb in Ha. destruct Ha as [? ?]; [simpl; lia|].
  eapply safe_consumes; [apply (skip_space_loop_safe ML a (stream_fuel l) (advance 1 l))|].
  - split; [done|apply Hl].
  - unfold stream_fuel. simpl in *. lia.
  - simpl in *. lia.
Qed.

Context (L : nat) (HL : Z.of_nat L < 2 ^ 32).

Definition pull_inv (p : TYsonPullParser) : Prop :=
  ready ML (PLexer p) ∧ ∃ a, simulates L a (SyntaxChecker_ p).

(** What a turn promises, by the token it returns. *)
Definition turn_ok (p p' : TYsonPullParser) (token : option TToken) : Prop :=
  pull_inv p' ∧
  match token with
  | None => SyntaxChecker_ p' = SyntaxChecker_ p ∧ (size p' < size p)%nat
  | Some (Item (Simple EndOfStream)) =>
      p' = {| PLexer := PLexer p'; SyntaxChecker_ := SyntaxChecker_ p |} ∧ (size p' <= size p)%nat ∧
      Checker.OnFinish (SyntaxChecker_ p) = Ok (SyntaxChecker_ p)
  | Some token =>
      proper_token token ∧ OnToken token (SyntaxChecker_ p) = Ok (SyntaxChecker_ p') ∧ (size p' < size p)%nat
  end.

Definition turn (p : TYsonPullParser) (r : Result (TYsonPullParser * option TToken)) : Prop :=
  match r with Ok (p', token) => turn_ok p p' token | Throw _ => True | _ => False end.

Lemma checker_call token p : proper_token token → (∃ a, simulates L a (SyntaxChecker_ p)) →
  match OnToken token (SyntaxChecker_ p) with
  | Ok c => ∃ a, simulates L a c | Throw _ => True | _ => False end.
Proof.
  intros Ht (a & Ha). pose proof (OnToken_implements L token a _ HL (proper_real _ Ht) Ha) as H.
  destruct (step L token a) as [a'|]; simpl in H; [destruct H as (c & -> & ?); eauto|by destruct H as (e & ->)].
Qed.

Lemma turn_token p p' token : proper_token token → ready ML (PLexer p') → (size p' < size p)%nat →
  (∃ a, simulates L a (SyntaxChecker_ p')) → OnToken token (SyntaxChecker_ p) = Ok (SyntaxChecker_ p') →
  turn_ok p p' (Some token).
Proof. intros Ht Hl Hs Ha Hc. split; [by split|]. by destruct token as [[[]| | | | |]| |]. Qed.

Lemma turn_check (f : Checker.t → Result Checker.t) p p1 token :
  proper_token token → (∀ c, f c = OnToken token c) → pull_inv p →
  ready ML (PLexer p1) → SyntaxChecker_ p1 = SyntaxChecker_ p → (size p1 < size p)%nat →
  turn p (p2 ← with_checker f p1; Ok (p2, Some token)).
Proof.
  intros Ht Hf [_ Ha] Hl Hc Hs. unfold with_checker. rewrite Hf, Hc. pose proof (checker_call token p Ht Ha) as H.
  destruct (OnToken token (SyntaxChecker_ p)) as [c| | |] eqn:E; try done. by apply turn_token.
Qed.

Lemma turn_lex_check {A} (g : TLexer → Result (TLexer * A)) (f : Checker.t → Result Checker.t) (token : A → TToken) p p1 :
  (∀ v, proper_token (token v)) → (∀ v c, f c = OnToken (token v) c) → pull_inv p →
  SyntaxChecker_ p1 = SyntaxChecker_ p → consumes (size p) (g (PLexer p1)) →
  turn p ('(p2, v) ← with_lexer g p1; p3 ← with_checker f p2; Ok (p3, Some (token v))).
Proof.
  intros Ht Hf Hp Hc Hg. unfold with_lexer. destruct (g (PLexer p1)) as [[l v]| | |]; try done.
  destruct Hg as [Hl Hs]. run_bind. by apply turn_check.
Qed.

Lemma turn_check_lex {A} (g : TLexer → Result (TLexer * A)) (f : Checker.t → Result Checker.t) (token : A → TToken)
    (token0 : TToken) p p1 :
  proper_token token0 → (∀ c, f c = OnToken token0 c) →
  (∀ v, proper_token (token v)) → (∀ v c, f c = OnToken (token v) c) → pull_inv p →
  SyntaxChecker_ p1 = SyntaxChecker_ p → consumes (size p) (g (PLexer p1)) →
  turn p (p2 ← with_checker f p1; '(p3, v) ← with_lexer g p2; Ok (p3, Some (token v))).
Proof.
  intros Ht0 Hf0 Ht Hf [Hr Ha] Hc Hg. unfold with_checker, with_lexer. rewrite Hc.
  pose proof (checker_call token0 p Ht0 Ha) as H. rewrite <- Hf0 in H.
  destruct (f (SyntaxChecker_ p)) as [c| | |] eqn:E; try done. cbn [mbind result_bind PLexer].
  destruct (g (PLexer p1)) as [[l v]| | |]; try done. destruct Hg as [Hl Hs]. run_bind.
  apply turn_token; [done..|]. by rewrite <- Hf.
Qed.

Lemma NextNumeric_turn p c : pull_inv p → peeked (PLexer p) c → is_numeric_char c = true → turn p (NextNumeric fd p).
Proof.
  intros Hp Hc Hn. pose proof (ReadNumeric_consumes true _ c (proj1 Hp) Hc Hn) as H.
  unfold NextNumeric, with_lexer. destruct (ReadNumeric ML true (PLexer p)) as [[l [r v]]| | |]; try done.
  destruct H as [Hl Hs]. run_bind.
  assert (∀ (r : Result Z) item, match r with Ok _ | Throw _ => True | _ => False end →
    (∀ z, proper_token (Item (item z))) → (∀ z c, Checker.OnSimpleNonstring c = OnToken (Item (item z)) c) →
    turn p (match r with
            | Throw _ => Throw EBadLiteral
            | _ => value ← r; p ← with_checker Checker.OnSimpleNonstring {| PLexer := l; SyntaxChecker_ := SyntaxChecker_ p |};
                   Ok (p, Some (Item (item value)))
            end)) as Hlit.
  { intros [z| | |] item Hr Ht Hcheck; try done. by apply turn_check. }
  destruct r.
  - apply (Hlit (FromString_i64 v) ItemInt64); [|done..]. by apply FromString_total; left.
  - apply (Hlit (FromString_ui64 _) ItemUint64); [|done..]. by apply FromString_total; right.
  - apply (Hlit (fd v) ItemDouble); [apply Hfd|done..].
Qed.

(** [Advance(1)] behind a [GetChar]. *)
Lemma advance1_ready p c : ready ML (PLexer p) → peeked (PLexer p) c → c ≠ x00 →
  ready ML (PLexer (advance1 p)) ∧ (size (advance1 p) < size p)%nat.
Proof.
  intros [Hp Hb] Hc Hne. destruct (Hc Hne) as [b Hblk].
  pose proof (Advance_safe 1 (Stream (PLexer p)) Hp) as Ha. rewrite Hblk in Ha.
  destruct Ha as [? ?]; [simpl; lia|]. split; [by split|]. simpl in *. lia.
Qed.

Lemma turn_mono p p1 r : SyntaxChecker_ p1 = SyntaxChecker_ p → (size p1 <= size p)%nat → turn p1 r → turn p r.
Proof.
  intros Hc Hs. destruct r as [[p' token]| | |]; simpl; try done. unfold turn_ok. rewrite Hc.
  intros [? H]. split; [done|]. destruct token as [[[[]| | | | |]| |]|]; intuition lia.
Qed.

Lemma turn_check_advance (f : Checker.t → Result Checker.t) p token :
  proper_token token → (∀ c, f c = OnToken token c) → pull_inv p →
  ready ML (PLexer (advance1 p)) → (size (advance1 p) < size p)%nat →
  turn p (p1 ← with_checker f p; Ok (advance1 p1, Some token)).
Proof.
  intros Ht Hf [_ Ha] Hl Hs. unfold with_checker. rewrite Hf. pose proof (checker_call token p Ht Ha) as H.
  destruct (OnToken token (SyntaxChecker_ p)) as [c| | |] eqn:E; try done. by apply turn_token.
Qed.

Lemma turn_GetChar a p p1 k : ready ML (PLexer p1) →
  (∀ l c, ready ML l → (lsize l <= size p1)%nat → peeked l c →
     turn p (k ({| PLexer := l; SyntaxChecker_ := SyntaxChecker_ p1 |}, c))) →
  turn p (with_lexer (lift (GetChar a)) p1 ≫= k).
Proof.
  intros Hp1 Hk. pose proof (lift_GetChar_safe ML a _ Hp1) as H. unfold with_lexer.
  destruct (lift (GetChar a) (PLexer p1)) as [[l c]| | |]; try done. destruct H as [[Hl Hs] Hc]. by apply Hk.
Qed.

Lemma turn_finish p : pull_inv p → turn p (p1 ← with_checker Checker.OnFinish p; Ok (p1, Some (Item (Simple EndOfStream)))).
Proof.
  intros Hp. destruct (proj2 Hp) as (a & Ha). unfold with_checker. pose proof (OnFinish_accepting L a _ Ha) as H.
  destruct (accepting a); [|by destruct H as (e & ->)]. rewrite H. run_bind.
  destruct p as [l c]. by split_and!.
Qed.

Lemma NextSwitch_turn ch p : pull_inv p → peeked (PLexer p) ch → turn p (NextSwitch fd ch p).
Proof.
  intros Hp Hch. unfold NextSwitch. cbv zeta.
  assert (∀ d, Byte.eqb ch d = true → d ≠ x00 → ready ML (PLexer (advance1 p)) ∧ (size (advance1 p) < size p)%nat) as Hadv.
  { intros d Hd Hne. eapply advance1_ready; [apply Hp|exact Hch|by eapply eqb_neq_nul]. }
  repeat match goal with
  | |- turn _ (if Byte.eqb ch EndSymbol then _ else _) => destruct (Byte.eqb ch EndSymbol) eqn:?
  | |- turn _ (if Byte.eqb ch ?d then _ else _) => destruct (Byte.eqb ch d) eqn:?; [destruct (Hadv d) as [? ?]; [done|done|]|]
  end.
  all: try (by apply turn_check).
  - apply (turn_lex_check _ _ (λ v, Item (ItemString v))); try done.
    by eapply safe_consumes; [apply ReadQuotedString_safe|].
  - apply (turn_check_lex _ _ (λ v, Item (ItemString v)) (Item (ItemString []))); try done.
    by eapply safe_consumes; [apply ReadBinaryString_safe|].
  - apply (turn_lex_check _ _ (λ v, Item (ItemInt64 v))); try done.
    by eapply safe_consumes; [apply (ReadBinaryInt64_safe ML)|].
  - apply (turn_lex_check _ _ (λ v, Item (ItemUint64 v))); try done.
    by eapply safe_consumes; [apply (ReadBinaryUint64_safe ML)|].
  - apply (turn_lex_check _ _ (λ v, Item (ItemDouble v))); try done.
    by eapply safe_consumes; [apply (ReadBinaryDouble_safe ML)|].
  - by apply turn_finish.
  - apply turn_GetChar; [done|]. intros l c Hl Hs _. destruct (Byte.eqb c "t" || Byte.eqb c "f").
    + apply (turn_check_lex _ _ (λ v, Item (ItemBoolean v)) (Item (ItemBoolean true))); try done.
      eapply safe_consumes; [by apply (ReadBoolean_safe ML)|simpl in *; lia].
    + apply (turn_check_lex _ _ (λ v, Item (ItemDouble v)) (Item (ItemDouble 0))); try done.
      eapply safe_consumes; [by apply (ReadNanOrInf_safe ML)|simpl in *; lia].
  - by apply turn_check_advance.
  - by apply turn_check_advance.
  - destruct (IsSpace ch) eqn:Hsp.
    { pose proof (SkipSpace_consumes true _ ch (proj1 Hp) Hch Hsp) as H. unfold with_lexer.
      destruct (SkipSpaceAndGetChar true (PLexer p)) as [[l c]| | |]; try done. destruct H as [Hl Hs].
      split; [split; [done|apply Hp]|done]. }
    destruct (isdigit ch || Byte.eqb ch "-" || Byte.eqb ch "+") eqn:Hn.
    { apply (NextNumeric_turn p ch Hp Hch). unfold is_numeric_char.
      apply orb_prop in Hn as [[->| ->]%orb_prop| ->]; by rewrite ?orb_true_r. }
    destruct (isalpha ch || Byte.eqb ch "_") eqn:Ha; [|done].
    apply (turn_lex_check _ _ (λ v, Item (ItemString v))); try done.
    apply (ReadUnquotedString_consumes true _ ch (proj1 Hp) Hch). unfold is_unquoted_char.
    apply orb_prop in Ha as [->| ->]; by rewrite ?orb_true_r.
Qed.

Lemma NextTurn_turn p : pull_inv p → turn p (NextTurn fd p).
Proof.
  intros Hp. apply turn_GetChar; [apply Hp|]. intros l ch Hl Hs Hch.
  apply (turn_mono p {| PLexer := l; SyntaxChecker_ := SyntaxChecker_ p |}); [done|done|].
  apply NextSwitch_turn; [|done]. split; [done|apply Hp].
Qed.
End Turn.

(** ** Reading items *)

(** What a client that reads to the end of the stream gets. *)
Fixpoint read_loop (fd : list byte → Result Z) (fuel : nat) (p : TYsonPullParser) : Result (list TYsonItem) :=
  match fuel with
  | O => OutOfFuel
  | S fuel =>
      '(p, item) ← Next fd p;
      if bool_decide (item = Simple EndOfStream) then Ok []
      else items ← read_loop fd fuel p; Ok (item :: items)
  end.

Definition ReadItems (fd : list byte → Result Z) (p : TYsonPullParser) : Result (list TYsonItem) :=
  read_loop fd (pull_fuel p) p.

Fixpoint token_items (tokens : list TToken) : list TYsonItem :=
  match tokens with
  | [] => []
  | Item item :: tokens => item :: token_items tokens
  | _ :: tokens => token_items tokens
  end.

Definition event_item (ev : TYsonEvent) : list TYsonItem :=
  match ev with
  | OnStringScalar s | OnKeyedItem s => [ItemString s]
  | OnInt64Scalar z => [ItemInt64 z]
  | OnUint64Scalar z => [ItemUint64 z]
  | OnDoubleScalar z => [ItemDouble z]
  | OnBooleanScalar b => [ItemBoolean b]
  | OnEntity => [Simple EntityValue]
  | OnBeginList => [Simple BeginList]
  | OnEndList => [Simple EndList]
  | OnBeginMap => [Simple BeginMap]
  | OnEndMap => [Simple EndMap]
  | OnBeginAttributes => [Simple BeginAttributes]
  | OnEndAttributes => [Simple EndAttributes]
  | OnListItem | OnRaw _ _ => []
  end.
Definition event_items (evs : list TYsonEvent) : list TYsonItem := evs ≫= event_item.

Lemma event_items_app evs1 evs2 : event_items (evs1 ++ evs2) = event_items evs1 ++ event_items evs2.
Proof. apply bind_app. Qed.

Lemma token_items_app t1 t2 : token_items (t1 ++ t2) = token_items t1 ++ token_items t2.
Proof. induction t1 as [|[item| |] t1 IH]; simpl; [done|by rewrite IH|done|done]. Qed.

Lemma token_items_events :
  (∀ n t, NodeTok n t → token_items t = event_items (node_events n)) ∧
  (∀ v t, ValueTok v t → token_items t = event_items (value_events v)) ∧
  (∀ items t, ListTok items t → token_items t = event_items (list_events items)) ∧
  (∀ items t, MapTok items t → token_items t = event_items (map_events items)).
Proof.
  apply Tok_mutind.
  - intros v t _ IH. rewrite node_events_eq. exact IH.
  - intros attributes v ta t _ IHa _ IHv. rewrite node_events_eq. cbn [attribute_events token_items app].
    rewrite token_items_app. cbn [token_items]. rewrite IHa, IHv.
    change (event_items (OnBeginAttributes :: ?x)) with (Simple BeginAttributes :: event_items x).
    by rewrite !event_items_app, <- !app_assoc.
  - intros v item Hv. by destruct v; simplify_eq/=.
  - intros items t _ IH. rewrite value_events_list. cbn [token_items]. rewrite token_items_app, IH.
    change (event_items (OnBeginList :: ?x)) with (Simple BeginList :: event_items x). by rewrite event_items_app.
  - intros items t _ IH. rewrite value_events_map. cbn [token_items]. rewrite token_items_app, IH.
    change (event_items (OnBeginMap :: ?x)) with (Simple BeginMap :: event_items x). by rewrite event_items_app.
  - done.
  - intros n t _ IH. cbn [list_events]. change (event_items (OnListItem :: ?x)) with (event_items x).
    by rewrite event_items_app, app_nil_r.
  - intros n t items ts _ IHn _ IHi. cbn [list_events]. change (event_items (OnListItem :: ?x)) with (event_items x).
    by rewrite event_items_app, token_items_app, IHn; cbn [token_items]; rewrite IHi.
  - done.
  - intros key n t _ IH. cbn [map_events token_items]. change (event_items (OnKeyedItem key :: ?x)) with (ItemString key :: event_items x).
    by rewrite event_items_app, app_nil_r, IH.
  - intros key n t items ts _ IHn _ IHi. cbn [map_events token_items].
    change (event_items (OnKeyedItem key :: ?x)) with (ItemString key :: event_items x).
    by rewrite event_items_app, token_items_app, IHn; cbn [token_items]; rewrite IHi.
Qed.

Lemma ModeTok_items mode evs levels t : ModeTok mode evs levels t → token_items t = event_items evs.
Proof. destruct token_items_events as (HN & _ & HLi & HM). destruct 1; eauto. Qed.

(** ** Every input: [Next] returns or throws, and reads a prefix of a document *)

Section Sound.
Context (fd : list byte → Result Z) (Hfd : total_conversion fd).
Context (L : nat) (HL : Z.of_nat L < 2 ^ 32).

#[local] Abbreviation size p := (stream_size (Stream (PLexer p))).

Lemma OnTokens_app t1 t2 c : OnTokens (t1 ++ t2) c = c ← OnTokens t1 c; OnTokens t2 c.
Proof. revert c. induction t1 as [|token t1 IH]; intros c; simpl; [done|]. by destruct (OnToken token c); simpl. Qed.

(** What [Next] promises: the tokens it went through, all of them accepted by the checker. *)
Definition next_ok (p p' : TYsonPullParser) (item : TYsonItem) : Prop :=
  pull_inv L p' ∧ ∃ tokens, Forall proper_token tokens ∧ OnTokens tokens (SyntaxChecker_ p) = Ok (SyntaxChecker_ p') ∧
  if bool_decide (item = Simple EndOfStream) then
    token_items tokens = [] ∧ (size p' <= size p)%nat ∧ Checker.OnFinish (SyntaxChecker_ p') = Ok (SyntaxChecker_ p')
  else token_items tokens = [item] ∧ (size p' < size p)%nat.

Lemma next_ok_skip p p1 p' token item : proper_token token → token_items [token] = [] →
  OnToken token (SyntaxChecker_ p) = Ok (SyntaxChecker_ p1) → (size p1 < size p)%nat →
  next_ok p1 p' item → next_ok p p' item.
Proof.
  intros Ht Hi Hc Hs (Hinv & tokens & Hp & Hck & H). split; [done|]. exists (token :: tokens).
  split_and!; [by constructor|simpl; by rewrite Hc|]. change (token :: tokens) with ([token] ++ tokens).
  rewrite token_items_app, Hi. destruct (bool_decide _); [|split; [apply H|lia]]. destruct H as (? & ? & ?). split_and!; [done|lia|done].
Qed.

Lemma next_loop_ok fuel p : pull_inv L p → (size p < fuel)%nat →
  match next_loop fd TYsonItemCreatingVisitor fuel p () with
  | Ok (p', _, item) => next_ok p p' item | Throw _ => True | _ => False end.
Proof.
  revert p. induction fuel as [|fuel IH]; intros p Hp Hf; [lia|]. cbn [next_loop].
  pose proof (NextTurn_turn fd Hfd L HL p Hp) as H. destruct (NextTurn fd p) as [[p1 token]| | |]; try done.
  run_bind. destruct H as [Hinv H]. destruct token as [[item| |]|].
  - cbn [VisitItem TYsonItemCreatingVisitor mbind result_bind]. split; [done|].
    destruct (decide (item = Simple EndOfStream)) as [->|Hne].
    + destruct H as (Hc & Hs & Hfin). rewrite Hc. exists []. rewrite bool_decide_eq_true_2 by done.
      split_and!; [by apply List.Forall_nil|done|done|done|done].
    + exists [Item item]. rewrite bool_decide_eq_false_2 by done.
      assert (proper_token (Item item) ∧ OnToken (Item item) (SyntaxChecker_ p) = Ok (SyntaxChecker_ p1) ∧ (size p1 < size p)%nat)
        as (Ht & Hc & Hs) by (by destruct item as [[]| | | | |]).
      split_and!; [by constructor|simpl in *; by rewrite Hc|done|done].
  - destruct H as (Ht & Hc & Hs). cbn [VisitEquality TYsonItemCreatingVisitor mbind result_bind].
    specialize (IH p1 Hinv ltac:(lia)). destruct (next_loop _ _ _ _ _) as [[[p' u] item]| | |]; try done.
    by eapply next_ok_skip.
  - destruct H as (Ht & Hc & Hs). cbn [VisitSeparator TYsonItemCreatingVisitor mbind result_bind].
    specialize (IH p1 Hinv ltac:(lia)). destruct (next_loop _ _ _ _ _) as [[[p' u] item]| | |]; try done.
    by eapply next_ok_skip.
  - destruct H as [Hc Hs]. specialize (IH p1 Hinv ltac:(lia)).
    destruct (next_loop _ _ _ _ _) as [[[p' u] item]| | |]; try done.
    destruct IH as (Hinv' & tokens & H1 & H2 & H3). split; [done|]. exists tokens. rewrite <- Hc. split_and!; [done|done|].
    destruct (bool_decide _); [destruct H3 as (? & ? & ?); split_and!; [done|lia|done]|destruct H3; split; [done|lia]].
Qed.

Lemma Next_ok p : pull_inv L p →
  match Next fd p with Ok (p', item) => next_ok p p' item | Throw _ => True | _ => False end.
Proof.
  intros Hp. unfold Next, NextImpl. pose proof (next_loop_ok (pull_fuel p) p Hp ltac:(unfold pull_fuel; lia)) as H.
  by destruct (next_loop _ _ _ _ _) as [[[p' u] item]| | |].
Qed.

Lemma next_ok_proper p p' item : next_ok p p' item → item = Simple EndOfStream ∨ proper_token (Item item).
Proof.
  intros (_ & tokens & Ht & _ & Hi). destruct (decide (item = Simple EndOfStream)) as [->|Hne]; [by left|right].
  rewrite bool_decide_eq_false_2 in Hi by done. destruct Hi as [Hi _].
  induction Ht as [|[i| |] tokens Ht _ IH]; simpl in Hi; try done; [by simplify_eq|auto|auto].
Qed.

Lemma read_loop_ok fuel p : pull_inv L p → (size p < fuel)%nat →
  match read_loop fd fuel p with
  | Ok items => ∃ tokens c, Forall proper_token tokens ∧ token_items tokens = items ∧
      OnTokens tokens (SyntaxChecker_ p) = Ok c ∧ Checker.OnFinish c = Ok c
  | Throw _ => True | _ => False end.
Proof.
  revert p. induction fuel as [|fuel IH]; intros p Hp Hf; [lia|]. cbn [read_loop].
  pose proof (Next_ok p Hp) as H. destruct (Next fd p) as [[p1 item]| | |]; try done. run_bind.
  destruct H as (Hinv & tokens & Ht & Hc & H). destruct (bool_decide (item = Simple EndOfStream)).
  - destruct H as (Hi & _ & Hfin). eauto 6.
  - destruct H as [Hi Hs]. specialize (IH p1 Hinv ltac:(lia)). destruct (read_loop fd fuel p1) as [items| | |]; try done.
    run_bind. destruct IH as (tokens' & c & Ht' & Hi' & Hc' & Hfin).
    exists (tokens ++ tokens'), c. split_and!; [by apply Forall_app_2|by rewrite token_items_app, Hi, Hi'| |done].
    by rewrite OnTokens_app, Hc.
Qed.
End Sound.

(** ** Texts as token sequences *)

Definition punctuation (token : TToken) : option byte :=
  match token with
  | Equality => Some KeyValueSeparatorSymbol
  | Separator => Some ItemSeparatorSymbol
  | Item (Simple BeginAttributes) => Some BeginAttributesSymbol
  | Item (Simple EndAttributes) => Some EndAttributesSymbol
  | Item (Simple BeginMap) => Some BeginMapSymbol
  | Item (Simple EndMap) => Some EndMapSymbol
  | Item (Simple BeginList) => Some BeginListSymbol
  | Item (Simple EndList) => Some EndListSymbol
  | Item _ => None
  end.

Section Complete.
Context (fd : list byte → Result Z).
#[local] Abbreviation ML := DefaultMemoryLimit.

Inductive TokText : list TToken → list byte → Prop :=
| TokText_nil ws : spaces ws → TokText [] ws
| TokText_punctuation ws token c tokens t :
    spaces ws → punctuation token = Some c → TokText tokens t → TokText (token :: tokens) (ws ++ c :: t)
| TokText_scalar ws v item s tokens t :
    spaces ws → scalar_item v = Some item → ScalarText fd ML v s → TokText tokens t → delimited true t →
    TokText (Item item :: tokens) (ws ++ s ++ t).

Lemma TokText_spaces ws tokens t : spaces ws → TokText tokens t → TokText tokens (ws ++ t).
Proof.
  intros Hws [ws' Hws'|ws' token c tokens' t' Hws' Hp Ht|ws' v item s tokens' t' Hws' Hv Hs Ht Hd].
  - constructor. by apply Forall_app_2.
  - rewrite app_assoc. constructor; [by apply Forall_app_2|done|done].
  - rewrite app_assoc. econstructor; [by apply Forall_app_2|done..].
Qed.

Lemma punctuation_not_token token c : punctuation token = Some c → token_char c = false.
Proof. destruct token as [[[]| | | | |]| |]; simpl; intros [= <-]; done. Qed.

(** The grammar's texts, in front of what may follow a value. *)
Lemma grammar_tokens :
  (∀ n t, NodeText fd ML n t → ∃ tokens, NodeTok n tokens ∧
     ∀ tokens' rest, TokText tokens' rest → delimited true rest → TokText (tokens ++ tokens') (t ++ rest)) ∧
  (∀ v t, ValueText fd ML v t → ∃ tokens, ValueTok v tokens ∧
     ∀ tokens' rest, TokText tokens' rest → delimited true rest → TokText (tokens ++ tokens') (t ++ rest)) ∧
  (∀ items t, ListText fd ML items t → ∃ tokens, ListTok items tokens ∧
     ∀ tokens' rest, TokText tokens' rest → delimited true rest → TokText (tokens ++ tokens') (t ++ rest)) ∧
  (∀ items t, MapText fd ML items t → ∃ tokens, MapTok items tokens ∧
     ∀ tokens' rest, TokText tokens' rest → delimited true rest → TokText (tokens ++ tokens') (t ++ rest)).
Proof.
  assert (∀ token c tokens t, punctuation token = Some c → TokText tokens t → TokText (token :: tokens) (c :: t)) as Hpunct.
  { intros. by apply (TokText_punctuation []); [constructor|..]. }
  assert (∀ key tk ws tokens rest, StringText ML key tk → spaces ws → TokText tokens rest →
    TokText (Item (ItemString key) :: Equality :: tokens) (tk ++ ws ++ KeyValueSeparatorSymbol :: rest)) as Hkey.
  { intros key tk ws tokens rest Hk Hws Ht. apply (TokText_scalar [] (VString key)); [constructor|done|by constructor| |].
    - apply TokText_spaces; [done|]. by apply Hpunct.
    - by apply delimited_spaces. }
  apply grammar_ind.
  - intros v t _ (tokens & Hv & IH). exists tokens. split; [by constructor|done].
  - intros items ta ws v t _ (toksa & Ha & IHa) Hws _ (toksv & Hv & IHv). eexists. split; [by constructor|].
    intros tokens' rest Ht Hd. simpl. apply Hpunct; [done|]. rewrite <- !app_assoc. apply IHa; [|done].
    simpl. apply Hpunct; [done|]. rewrite <- app_assoc. apply TokText_spaces; [done|]. by apply IHv.
  - intros v t Hs. assert (∃ item, scalar_item v = Some item) as (item & Hi).
    { destruct Hs; simpl; eauto. }
    exists [Item item]. split; [by constructor|]. intros tokens' rest Ht Hd. simpl.
    by apply (TokText_scalar [] v); [constructor|..].
  - intros items t _ (tokens & Hi & IH). eexists. split; [by constructor|]. intros tokens' rest Ht Hd. simpl.
    apply Hpunct; [done|]. rewrite <- !app_assoc. apply IH; [|done]. by apply Hpunct.
  - intros items t _ (tokens & Hi & IH). eexists. split; [by constructor|]. intros tokens' rest Ht Hd. simpl.
    apply Hpunct; [done|]. rewrite <- !app_assoc. apply IH; [|done]. by apply Hpunct.
  - intros ws Hws. exists []. split; [constructor|]. intros tokens' rest Ht Hd. by apply TokText_spaces.
  - intros ws1 n t ws2 Hws1 _ (tokens & Hn & IH) Hws2. exists tokens. split; [by constructor|]. intros tokens' rest Ht Hd.
    rewrite <- !app_assoc. apply TokText_spaces; [done|]. apply IH; [by apply TokText_spaces|by apply delimited_spaces].
  - intros ws1 n t ws2 items t' Hws1 _ (tokens & Hn & IHn) Hws2 _ (tokensi & Hi & IHi). eexists.
    split; [by constructor|]. intros tokens' rest Ht Hd. rewrite <- !app_assoc. apply TokText_spaces; [done|].
    apply IHn; [|by apply delimited_spaces]. apply TokText_spaces; [done|]. simpl. apply Hpunct; [done|]. by apply IHi.
  - intros ws Hws. exists []. split; [constructor|]. intros tokens' rest Ht Hd. by apply TokText_spaces.
  - intros ws1 key tk ws2 ws3 n t ws4 Hws1 Hk Hws2 Hws3 _ (tokens & Hn & IH) Hws4. eexists. split; [by constructor|].
    intros tokens' rest Ht Hd. rewrite <- !app_assoc. apply TokText_spaces; [done|]. simpl.
    apply Hkey; [done|done|]. rewrite <- !app_assoc. apply TokText_spaces; [done|].
    apply IH; [by apply TokText_spaces|by apply delimited_spaces].
  - intros ws1 key tk ws2 ws3 n t ws4 items t' Hws1 Hk Hws2 Hws3 _ (tokens & Hn & IH) Hws4 _ (tokensi & Hi & IHi).
    eexists. split; [by constructor|].
    intros tokens' rest Ht Hd. rewrite <- !app_assoc. apply TokText_spaces; [done|]. simpl.
    apply Hkey; [done|done|]. rewrite <- !app_assoc. apply TokText_spaces; [done|].
    apply IH; [|by apply delimited_spaces]. apply TokText_spaces; [done|]. simpl. apply Hpunct; [done|]. by apply IHi.
Qed.

Lemma levels_depth :
  (∀ n, (node_levels n <= node_depth n)%nat) ∧ (∀ v, (value_levels v <= S (value_depth v))%nat).
Proof.
  assert (∀ items, Forall (λ n, (node_levels n <= node_depth n)%nat) items → (list_levels items <= list_depth items)%nat) as Hli.
  { induction 1; simpl; lia. }
  assert (∀ items, Forall (λ kn : list byte * TNode, (node_levels kn.2 <= node_depth kn.2)%nat) items →
    (map_levels items <= map_depth items)%nat) as Hm.
  { induction 1 as [|[k n] items ? _ IH]; simpl in *; lia. }
  split; [apply (node_ind' _ (λ v, (value_levels v <= S (value_depth v))%nat))
         |apply (value_ind' (λ n, (node_levels n <= node_depth n)%nat))]; try (simpl; lia).
  all: try (intros items H; rewrite ?value_levels_list, ?value_levels_map, ?value_depth_list, ?value_depth_map;
    first [specialize (Hli items H) | specialize (Hm items H)]; lia).
  all: try (intros [items|] value Ha Hv; rewrite node_depth_eq; [rewrite node_levels_attributes; specialize (Hm items (Ha _ eq_refl)); lia
    |change (node_levels (Node None value)) with (value_levels value); lia]).
Qed.

(** The result of a turn that reads [token] and leaves the lexer in [l]. *)
Definition turned (p : TYsonPullParser) (token : TToken) (l : TLexer) : Result (TYsonPullParser * option TToken) :=
  c ← OnToken token (SyntaxChecker_ p); Ok ({| PLexer := l; SyntaxChecker_ := c |}, Some token).

Lemma lex_check_turned {A} (g : TLexer → Result (TLexer * A)) f (token : A → TToken) p p1 l v :
  SyntaxChecker_ p1 = SyntaxChecker_ p → g (PLexer p1) = Ok (l, v) → (∀ c, f c = OnToken (token v) c) →
  ('(p2, v) ← with_lexer g p1; p3 ← with_checker f p2; Ok (p3, Some (token v))) = turned p (token v) l.
Proof.
  intros Hc Hg Hf. unfold with_lexer, with_checker, turned. rewrite Hg, Hc. simpl. rewrite Hf.
  by destruct (OnToken (token v) (SyntaxChecker_ p)).
Qed.

Lemma check_lex_turned {A} (g : TLexer → Result (TLexer * A)) f (token : A → TToken) p p1 l v :
  SyntaxChecker_ p1 = SyntaxChecker_ p → g (PLexer p1) = Ok (l, v) → (∀ c, f c = OnToken (token v) c) →
  (p2 ← with_checker f p1; '(p3, v) ← with_lexer g p2; Ok (p3, Some (token v))) = turned p (token v) l.
Proof.
  intros Hc Hg Hf. unfold with_lexer, with_checker, turned. rewrite Hc, Hf.
  destruct (OnToken (token v) (SyntaxChecker_ p)) as [c| | |]; simpl; [|done..]. by rewrite Hg.
Qed.

Lemma check_turned f token p p1 : SyntaxChecker_ p1 = SyntaxChecker_ p → (∀ c, f c = OnToken token c) →
  (p2 ← with_checker f p1; Ok (p2, Some token)) = turned p token (PLexer p1).
Proof. intros Hc Hf. unfold with_checker, turned. rewrite Hc, Hf. by destruct (OnToken token (SyntaxChecker_ p)). Qed.

Definition is_alpha_start (c : byte) : bool := isalpha c || Byte.eqb c "_".
Definition is_numeric_start (c : byte) : bool := isdigit c || Byte.eqb c "-" || Byte.eqb c "+".

Lemma NextSwitch_alpha c p : is_alpha_start c = true →
  NextSwitch fd c p = '(p, value) ← with_lexer (ReadUnquotedString ML true) p;
    p ← with_checker Checker.OnString p; Ok (p, Some (Item (ItemString value))).
Proof.
  intros Hc. unfold NextSwitch. cbv zeta. rewrite !(class_neq is_alpha_start c _ Hc) by (by vm_compute).
  pose proof (forall_bytes (λ c, implb (is_alpha_start c) (negb (isdigit c) && negb (IsSpace c))) ltac:(by vm_compute) c) as H.
  cbv beta in H. rewrite Hc in H. apply andb_prop in H as [H1%negb_true_iff H2%negb_true_iff].
  unfold is_alpha_start in Hc. by rewrite H1, H2, Hc.
Qed.

Lemma NextSwitch_numeric c p : is_numeric_start c = true → NextSwitch fd c p = NextNumeric fd p.
Proof.
  intros Hc. unfold NextSwitch. cbv zeta.
  assert (∀ d, is_numeric_start d = false → Byte.eqb c d = false) as Hd by (intros d Hd; by apply (class_neq is_numeric_start)).
  rewrite !Hd by (by vm_compute).
  pose proof (forall_bytes (λ c, implb (is_numeric_start c) (negb (IsSpace c))) ltac:(by vm_compute) c) as H.
  cbv beta in H. rewrite Hc in H. apply negb_true_iff in H. unfold is_numeric_start in Hc. by rewrite H, Hc.
Qed.

Lemma NextNumeric_text p r t rest z (item : Z → TYsonItem) :
  numeric_literal ML r t → at_text (PLexer p) (t ++ rest) → delimited true rest →
  match r with
  | NumericDouble => (fd t, ItemDouble)
  | NumericInt64 => (FromString_i64 t, ItemInt64)
  | NumericUint64 => (FromString_ui64 (take (length t - 1) t), ItemUint64)
  end = (Ok z, item) →
  ∃ l, NextNumeric fd p = turned p (Item (item z)) l ∧ at_text l rest.
Proof.
  intros (_ & Hn & Hr & Hf & _) Hl Hd Hconv.
  destruct (ReadNumeric_text ML true t rest (PLexer p) Hl Hn (delimited_numeric _ _ Hd) Hf) as (l & He & Hat).
  exists l. split; [|done]. unfold NextNumeric, with_lexer. rewrite He, Hr. run_bind.
  destruct r; simplify_eq; rewrite H; run_bind; by apply check_turned.
Qed.

Lemma with_lexer_ok {A} (f : TLexer → Result (TLexer * A)) p l a : f (PLexer p) = Ok (l, a) →
  with_lexer f p = Ok ({| PLexer := l; SyntaxChecker_ := SyntaxChecker_ p |}, a).
Proof. intros H. unfold with_lexer. by rewrite H. Qed.

(** Behind a percent sign. *)
Definition percent (ch : byte) (p : TYsonPullParser) : Result (TYsonPullParser * option TToken) :=
  if Byte.eqb ch "t" || Byte.eqb ch "f" then
    p ← with_checker Checker.OnSimpleNonstring p;
    '(p, value) ← with_lexer (ReadBoolean ML false) p; Ok (p, Some (Item (ItemBoolean value)))
  else
    p ← with_checker Checker.OnSimpleNonstring p;
    '(p, value) ← with_lexer (ReadNanOrInf ML false) p; Ok (p, Some (Item (ItemDouble value))).

Lemma NextSwitch_scalar v item s c b s' rest p : scalar_item v = Some item → ScalarText fd ML v s → s = c :: s' →
  Block (Stream (PLexer p)) = c :: b → at_text (PLexer p) (s ++ rest) → delimited true rest →
  ∃ l, NextSwitch fd c p = turned p (Item item) l ∧ at_text l rest.
Proof.
  intros Hi Hs E Hb Hat Hd. assert (at_text (PLexer (advance1 p)) (s' ++ rest)) as Hadv.
  { unfold at_text. simpl. eapply Advance_text; [|exact Hb]. by rewrite E in Hat. }
  destruct Hs as [s t Ht|t z Hn Hz|t z Hn Hz|t z Hn Hz|d e z Hin Hm|x Hm| |z Hz|z Hz|z Hz|x]; cbn in Hi; injection Hi as <-.
  - destruct Ht as [t0 s0 Hq Hu [Hf1 Hf2]|s0 [Hf1 Hf2]|d t0 Hc Ht0 [Hf1 Hf2]]; simplify_eq.
    + rewrite <- app_assoc in Hadv. destruct (ReadQuotedString_text ML t0 rest s0 _ Hadv Hq Hu Hf1 Hf2) as (l & Hl & Hl').
      exists l. split; [|done]. by apply (lex_check_turned (ReadQuotedString ML) _ (λ v, Item (ItemString v)) p (advance1 p)).
    + rewrite <- app_assoc in Hadv. destruct (ReadBinaryString_text ML s0 rest _ Hf2 Hadv Hf1) as (l & Hl & Hl').
      exists l. split; [|done]. by apply (check_lex_turned (ReadBinaryString ML) _ (λ v, Item (ItemString v)) p (advance1 p)).
    + rewrite NextSwitch_alpha by done.
      destruct (ReadUnquotedString_text ML true (c :: s') rest (PLexer p)) as (l & Hl & Hl');
        [done| |by apply delimited_unquoted|done|].
      * constructor; [|done]. unfold is_unquoted_char. apply orb_prop in Hc as [->| ->]; by rewrite ?orb_true_r.
      * exists l. split; [|done]. by apply (lex_check_turned (ReadUnquotedString ML true) _ (λ v, Item (ItemString v)) p p).
  - destruct (proj1 Hn) as (d & t0 & E' & Hc). simplify_eq. rewrite NextSwitch_numeric by done.
    by eapply (NextNumeric_text p NumericInt64); [..|by rewrite Hz].
  - destruct (proj1 Hn) as (d & t0 & E' & Hc). rewrite E in E'. simplify_eq. rewrite NextSwitch_numeric by done.
    eapply (NextNumeric_text p NumericUint64); [done..|].
    by rewrite length_app, Nat.add_sub, take_app_length, Hz.
  - destruct (proj1 Hn) as (d & t0 & E' & Hc). simplify_eq. rewrite NextSwitch_numeric by done.
    by eapply (NextNumeric_text p NumericDouble); [..|by rewrite Hz].
  - simplify_eq. destruct (lift_GetChar_text false _ _ _ Hadv) as (l1 & b1 & Hg & Hat1 & _ & _).
    destruct (ReadNanOrInf_text ML false d e z rest l1 Hin Hat1 Hm) as (l & Hl & Hl'). exists l. split; [|done].
    change (NextSwitch fd "%" p) with ('(p, ch) ← with_lexer (lift (GetChar false)) (advance1 p); percent ch p).
    rewrite (with_lexer_ok _ _ _ _ Hg). run_bind.
    assert (Byte.eqb d "t" || Byte.eqb d "f" = false) as Hd'.
    { apply list_elem_of_In in Hin. simpl in Hin. by repeat (destruct Hin as [Hin|Hin]; [simplify_eq|]). }
    unfold percent. rewrite Hd'. by apply (check_lex_turned (ReadNanOrInf ML false) _ (λ v, Item (ItemDouble v)) p).
  - simplify_eq.
    assert (∃ d e, (if x then B"true" else B"false") = d :: e ∧ Byte.eqb d "t" || Byte.eqb d "f" = true) as (d & e & Ec & Hc)
      by (destruct x; by eexists _, _). pose proof Hadv as Hadv'. rewrite Ec in Hadv'.
    destruct (lift_GetChar_text false _ _ _ Hadv') as (l1 & b1 & Hg & Hat1 & _ & _).
    destruct (ReadBoolean_text ML false x rest l1) as (l & Hl & Hl'); [by rewrite Ec|done|]. exists l. split; [|done].
    change (NextSwitch fd "%" p) with ('(p, ch) ← with_lexer (lift (GetChar false)) (advance1 p); percent ch p).
    rewrite (with_lexer_ok _ _ _ _ Hg). run_bind.
    unfold percent. rewrite Hc. by apply (check_lex_turned (ReadBoolean ML false) _ (λ v, Item (ItemBoolean v)) p).
  - simplify_eq. exists (PLexer (advance1 p)). split; [|done]. by apply (check_turned Checker.OnSimpleNonstring).
  - simplify_eq. destruct (ReadBinaryInt64_text z rest _ Hz Hadv) as (l & Hl & Hl'). exists l. split; [|done].
    by apply (lex_check_turned ReadBinaryInt64 _ (λ v, Item (ItemInt64 v)) p (advance1 p)).
  - simplify_eq. destruct (ReadBinaryUint64_text z rest _ Hz Hadv) as (l & Hl & Hl'). exists l. split; [|done].
    by apply (lex_check_turned ReadBinaryUint64 _ (λ v, Item (ItemUint64 v)) p (advance1 p)).
  - simplify_eq. destruct (ReadBinaryDouble_text z rest _ Hz Hadv) as (l & Hl & Hl'). exists l. split; [|done].
    by apply (lex_check_turned ReadBinaryDouble _ (λ v, Item (ItemDouble v)) p (advance1 p)).
  - simplify_eq. exists (PLexer (advance1 p)). split; [|done]. destruct x; by apply (check_turned Checker.OnSimpleNonstring).
Qed.

Lemma NextSwitch_punctuation token c b t p : punctuation token = Some c →
  Block (Stream (PLexer p)) = c :: b → at_text (PLexer p) (c :: t) →
  ∃ l, NextSwitch fd c p = turned p token l ∧ at_text l t.
Proof.
  intros Hp Hb Hat. assert (at_text (PLexer (advance1 p)) t) as Hadv.
  { unfold at_text. simpl. by eapply Advance_text. }
  exists (PLexer (advance1 p)). split; [|done].
  destruct token as [[[]| | | | |]| |]; simpl in Hp; try discriminate Hp; injection Hp as <-; try (by apply check_turned).
  - unfold turned, with_checker. simpl OnToken. change (NextSwitch fd KeyValueSeparatorSymbol p) with
      (p ← with_checker Checker.OnEquality p; Ok (advance1 p, Some Equality)).
    unfold with_checker. by destruct (Checker.OnEquality _).
  - unfold turned, with_checker. simpl OnToken. change (NextSwitch fd ItemSeparatorSymbol p) with
      (p ← with_checker Checker.OnSeparator p; Ok (advance1 p, Some Separator)).
    unfold with_checker. by destruct (Checker.OnSeparator _).
Qed.

Lemma NextSwitch_space c p : IsSpace c = true →
  NextSwitch fd c p = '(p, _) ← with_lexer (SkipSpaceAndGetChar true) p; Ok (p, None).
Proof.
  intros Hc. unfold NextSwitch. cbv zeta. rewrite !(class_neq IsSpace c _ Hc) by (by vm_compute). by rewrite Hc.
Qed.

(** One turn: white space, or the next token. *)
Lemma NextTurn_text token tokens t p : TokText (token :: tokens) t → at_text (PLexer p) t →
  (∃ l t', NextTurn fd p = turned p token l ∧ at_text l t' ∧ TokText tokens t') ∨
  (∃ l t', NextTurn fd p = Ok ({| PLexer := l; SyntaxChecker_ := SyntaxChecker_ p |}, None) ∧ at_text l t' ∧
     TokText (token :: tokens) t' ∧ ∀ c t'', t' = c :: t'' → IsSpace c = false).
Proof.
  intros Ht Hat. set (text := t) in *.
  assert (∃ ws c t', text = ws ++ c :: t' ∧ spaces ws ∧ IsSpace c = false ∧ TokText (token :: tokens) (c :: t') ∧
    ∀ p b, Block (Stream (PLexer p)) = c :: b → at_text (PLexer p) (c :: t') →
      ∃ l t'', NextSwitch fd c p = turned p token l ∧ at_text l t'' ∧ TokText tokens t'')
    as (ws & c & t' & E & Hws & Hc & Ht' & Hturn).
  { inversion Ht as [|ws token' c tokens' t' Hws Hp Ht'|ws v item s tokens' t' Hws Hv Hs Ht' Hd]; subst.
    - exists ws, c, t'. split_and!; [done|done| |by apply (TokText_punctuation []); [constructor|..]|].
      + by destruct token as [[[]| | | | |]| |]; simplify_eq/=.
      + intros p' b Hb Hat'. destruct (NextSwitch_punctuation token c b t' p' Hp Hb Hat') as (l & ? & ?). eauto.
    - destruct (ScalarText_start _ _ _ _ Hs) as (c & s' & Es & Hc). exists ws, c, (s' ++ t').
      split_and!; [by rewrite Es| done|by apply starts_space, scalar_start_starts| |].
      + change (c :: s' ++ t') with ((c :: s') ++ t'). rewrite <- Es. by apply (TokText_scalar [] v); [constructor|..].
      + intros p' b Hb Hat'. destruct (NextSwitch_scalar v item s c b s' t' p' Hv Hs Es Hb) as (l & ? & ?); [by rewrite Es|done|]. eauto. }
  unfold NextTurn. rewrite E in Hat. destruct ws as [|w ws].
  - left. destruct (lift_GetChar_text true _ _ _ Hat) as (l1 & b1 & Hg & Hat1 & Hb1 & _).
    rewrite (with_lexer_ok _ _ _ _ Hg). run_bind. by apply (Hturn {| PLexer := l1; SyntaxChecker_ := SyntaxChecker_ p |} b1).
  - right. simpl in Hat. destruct (lift_GetChar_text true _ _ _ Hat) as (l1 & b1 & Hg & Hat1 & Hb1 & _).
    rewrite (with_lexer_ok _ _ _ _ Hg). run_bind.
    destruct (SkipSpaceAndGetChar_text true (w :: ws) c t' l1 Hws Hc Hat1) as (l2 & b2 & Hl2 & Hat2 & _).
    exists l2, (c :: t'). split_and!; [|done|done|intros ? ? [= <- _]; done].
    rewrite NextSwitch_space by (by inversion Hws). unfold with_lexer. simpl PLexer. rewrite Hl2. done.
Qed.

Context (Hfd : total_conversion fd).
Context (L : nat) (HL : Z.of_nat L < 2 ^ 32).
#[local] Abbreviation size p := (stream_size (Stream (PLexer p))).

Lemma turned_inv token p l p' token' : pull_inv L p → NextTurn fd p = turned p token l → turned p token l = Ok (p', token') →
  pull_inv L p' ∧ (proper_token token → (size p' < size p)%nat).
Proof.
  intros Hp Hturn E. pose proof (NextTurn_turn fd Hfd L HL p Hp) as H. rewrite Hturn, E in H. destruct H as [Hinv H].
  split; [done|]. unfold turned in E. destruct (OnToken token (SyntaxChecker_ p)) as [c| | |]; simplify_eq/=.
  intros Ht. destruct token as [[[]| | | | |]| |]; try done; by destruct H as (_ & _ & ?).
Qed.

(** [NextImpl] on a text, with any visitor: white space is skipped, the next token goes to
    the checker and to the visitor. *)
Lemma next_loop_text {V R} (visitor : TVisitor V R) token tokens t p v fuel :
  TokText (token :: tokens) t → at_text (PLexer p) t → pull_inv L p → (size p < fuel)%nat → proper_token token →
  ∃ l t' fuel', at_text l t' ∧ TokText tokens t' ∧
    (∀ c, OnToken token (SyntaxChecker_ p) = Ok c →
      pull_inv L {| PLexer := l; SyntaxChecker_ := c |} ∧ (stream_size (Stream l) < Nat.min fuel' (size p))%nat) ∧
    next_loop fd visitor fuel p v =
      c ← OnToken token (SyntaxChecker_ p);
      let p := {| PLexer := l; SyntaxChecker_ := c |} in
      match token with
      | Item item => '(v, r) ← VisitItem visitor item c v; Ok (p, v, r)
      | Equality => v ← VisitEquality visitor c v; next_loop fd visitor fuel' p v
      | Separator => v ← VisitSeparator visitor c v; next_loop fd visitor fuel' p v
      end.
Proof.
  intros Ht Hat Hp Hf Hproper. revert t p Ht Hat Hp Hf. induction fuel as [|fuel IH]; intros t p Ht Hat Hp Hf; [lia|].
  destruct (NextTurn_text token tokens t p Ht Hat) as [(l & t' & Hturn & Hl & Ht')|(l & t' & Hturn & Hl & Ht' & Hsp)].
  - exists l, t', fuel. split_and!; [done|done| |].
    + intros c Hc. destruct (turned_inv token p l {| PLexer := l; SyntaxChecker_ := c |} (Some token) Hp Hturn) as [Hinv Hs]; [unfold turned; by rewrite Hc|].
      specialize (Hs Hproper). split; [done|]. simpl in Hs. lia.
    + cbn [next_loop]. rewrite Hturn. unfold turned. destruct (OnToken token (SyntaxChecker_ p)) as [c| | |]; [|done..].
      by destruct token.
  - pose proof (NextTurn_turn fd Hfd L HL p Hp) as H. rewrite Hturn in H. destruct H as (Hinv & _ & Hs).
    destruct (IH t' {| PLexer := l; SyntaxChecker_ := SyntaxChecker_ p |} Ht' Hl Hinv ltac:(lia))
      as (l2 & t2 & fuel2 & H1 & H2 & H3 & H5).
    exists l2, t2, fuel2. split_and!; [done|done| |cbn [next_loop]; rewrite Hturn; exact H5].
    intros c Hc. destruct (H3 c Hc). split; [done|]. simpl in *. lia.
Qed.

Lemma next_loop_end {V R} (visitor : TVisitor V R) t p v fuel :
  TokText [] t → at_text (PLexer p) t → pull_inv L p → (size p < fuel)%nat →
  ∃ l, at_text l [] ∧ next_loop fd visitor fuel p v =
    c ← Checker.OnFinish (SyntaxChecker_ p);
    '(v, r) ← VisitItem visitor (Simple EndOfStream) c v; Ok ({| PLexer := l; SyntaxChecker_ := c |}, v, r).
Proof.
  intros Ht Hat Hp Hf. assert (spaces t) as Hws by (by inversion Ht).
  assert (∀ p, at_text (PLexer p) [] → ∃ l, at_text l [] ∧ NextTurn fd p =
    c ← Checker.OnFinish (SyntaxChecker_ p); Ok ({| PLexer := l; SyntaxChecker_ := c |}, Some (Item (Simple EndOfStream)))) as Hend.
  { intros p0 H0. destruct (lift_GetChar_end _ H0) as (l & Hl & Hl' & _). exists l. split; [done|].
    unfold NextTurn. rewrite (with_lexer_ok _ _ _ _ Hl). run_bind.
    change (NextSwitch fd x00 ?q) with (p ← with_checker Checker.OnFinish q; Ok (p, Some (Item (Simple EndOfStream)))).
    unfold with_checker. simpl. by destruct (Checker.OnFinish _). }
  destruct fuel as [|fuel]; [lia|]. destruct t as [|w ws].
  - destruct (Hend p Hat) as (l & Hl & E). exists l. split; [done|]. cbn [next_loop]. rewrite E.
    by destruct (Checker.OnFinish _).
  - destruct (lift_GetChar_text true _ _ _ Hat) as (l1 & b1 & Hg & Hat1 & Hb1 & _).
    destruct (SkipSpaceAndGetChar_end (w :: ws) l1 Hws Hat1) as (l2 & Hl2 & Hat2 & _).
    assert (NextTurn fd p = Ok ({| PLexer := l2; SyntaxChecker_ := SyntaxChecker_ p |}, None)) as Hturn.
    { unfold NextTurn. rewrite (with_lexer_ok _ _ _ _ Hg). run_bind.
      rewrite NextSwitch_space by (by inversion Hws). unfold with_lexer. cbn [PLexer]. rewrite Hl2. reflexivity. }
    pose proof (NextTurn_turn fd Hfd L HL p Hp) as H. rewrite Hturn in H. destruct H as (Hinv & _ & Hs).
    destruct fuel as [|fuel]; [lia|].
    destruct (Hend {| PLexer := l2; SyntaxChecker_ := SyntaxChecker_ p |} Hat2) as (l & Hl & E). exists l. split; [done|].
    cbn [next_loop]. rewrite Hturn. run_bind. rewrite E. by destruct (Checker.OnFinish _).
Qed.

Lemma read_text tokens t p v fuel fuel' c : TokText tokens t → at_text (PLexer p) t → pull_inv L p →
  (size p < fuel')%nat → (size p <= fuel)%nat →
  Forall proper_token tokens → OnTokens tokens (SyntaxChecker_ p) = Ok c → Checker.OnFinish c = Ok c →
  ('(p, _, item) ← next_loop fd TYsonItemCreatingVisitor fuel' p v;
   if bool_decide (item = Simple EndOfStream) then Ok []
   else items ← read_loop fd fuel p; Ok (item :: items)) = Ok (token_items tokens).
Proof.
  revert t p v fuel fuel'. induction tokens as [|token tokens IH]; intros t p v fuel fuel' Ht Hat Hp Hf' Hf Hproper Hc Hfin.
  - destruct (next_loop_end TYsonItemCreatingVisitor t p v fuel' Ht Hat Hp Hf') as (l & _ & ->).
    simpl in Hc. simplify_eq. rewrite Hfin. simpl. done.
  - pose proof (Forall_inv Hproper) as Htok. apply Forall_inv_tail in Hproper. simpl in Hc. apply bind_ok in Hc as (c1 & Hc1 & Hc).
    destruct (next_loop_text TYsonItemCreatingVisitor token tokens t p v fuel' Ht Hat Hp Hf' Htok)
      as (l & t' & fuel2 & Hl & Ht' & Hinv & ->). destruct (Hinv c1 Hc1) as [Hp1 Hs]. rewrite Hc1. run_bind. cbv zeta.
    destruct token as [item| |]; cbn [token_items].
    + simpl. rewrite bool_decide_eq_false_2 by (by intros ->). destruct fuel as [|fuel]; [lia|]. cbn [read_loop].
      unfold Next, NextImpl. rewrite bind_assoc_result.
      specialize (IH t' {| PLexer := l; SyntaxChecker_ := c1 |} () fuel (pull_fuel {| PLexer := l; SyntaxChecker_ := c1 |})
        Ht' Hl Hp1 ltac:(unfold pull_fuel; lia) ltac:(simpl; lia) Hproper Hc Hfin).
      destruct (next_loop _ _ _ _ _) as [[[p2 u] item2]| | |]; simpl in *; [|done..].
      rewrite IH. reflexivity.
    + apply (IH t'); [done|done|done|simpl; lia|simpl; lia|done..].
    + apply (IH t'); [done|done|done|simpl; lia|simpl; lia|done..].
Qed.
End Complete.

Lemma NewPullParser_inv s mode (limit : nat) : Past s = 0%nat → Z.of_nat limit < 2 ^ 32 →
  pull_inv limit (NewPullParser s mode (Z.of_nat limit)).
Proof. intros Hs HL. split; [by apply NewLexer_ready|]. exists (initial mode). by apply New_simulates. Qed.

Lemma ModeText_tokens fd mode evs depth t : ModeText fd DefaultMemoryLimit mode evs depth t →
  ∃ tokens levels, ModeTok mode evs levels tokens ∧ (levels <= depth)%nat ∧ TokText fd tokens t.
Proof.
  destruct (grammar_tokens fd) as (HN & _ & HLi & HM). destruct levels_depth as [Hlevels _].
  assert (∀ tokens t, (∀ tokens' rest, TokText fd tokens' rest → delimited true rest → TokText fd (tokens ++ tokens') (t ++ rest)) →
    TokText fd tokens t) as Hend.
  { intros tokens t0 H. rewrite <- (app_nil_r tokens), <- (app_nil_r t0). apply H; [|done]. constructor. constructor. }
  destruct 1 as [ws1 n t ws2 Hws1 Hn Hws2|items t Hi|items t Hi].
  - destruct (HN _ _ Hn) as (tokens & Ht & H). exists tokens, (node_levels n). split_and!; [by constructor|apply Hlevels|].
    apply TokText_spaces; [done|]. rewrite <- (app_nil_r tokens). apply H; [by constructor|].
    rewrite <- (app_nil_r ws2). by apply delimited_spaces.
  - destruct (HLi _ _ Hi) as (tokens & Ht & H). exists tokens, (list_levels items). split_and!; [by constructor| |by apply Hend].
    clear -Hlevels. induction items as [|n items IH]; simpl; [lia|]. specialize (Hlevels n). lia.
  - destruct (HM _ _ Hi) as (tokens & Ht & H). exists tokens, (map_levels items). split_and!; [by constructor| |by apply Hend].
    clear -Hlevels. induction items as [|[k n] items IH]; simpl; [lia|]. specialize (Hlevels n). lia.
Qed.
Lemma checker_runs mode limit tokens evs levels : Z.of_nat limit < 2 ^ 32 →
  ModeTok mode evs levels tokens → fits_level limit 0 levels →
  ∃ c, OnTokens tokens (Checker.New mode (Z.of_nat limit)) = Ok c ∧ Checker.OnFinish c = Ok c.
Proof.
  intros HL Hm Hf. pose proof (checker_accepts mode limit tokens HL (ModeTok_proper _ _ _ _ Hm)) as Hc.
  destruct (OnTokens tokens _) as [c|e| |]; run_bind in Hc; [|destruct Hc; by eauto|done..].
  exists c. split; [done|]. destruct (Checker.OnFinish c) as [c'|e| |] eqn:Efin; [|destruct Hc; by eauto|done..].
  revert Efin. unfold Checker.OnFinish. destruct (Checker.back c) as [[]| | |]; simpl; congruence.
Qed.

Lemma ReadItems_tokens (fd : list byte → Result Z) mode evs levels tokens (limit : nat) t s : total_conversion fd →
  ModeTok mode evs levels tokens → fits_level limit 0 levels → TokText fd tokens t → at_stream s t → Z.of_nat limit < 2 ^ 32 →
  ReadItems fd (NewPullParser s mode (Z.of_nat limit)) = Ok (event_items evs).
Proof.
  intros Hfd Hm Hf Htok Hs HL. pose proof (ModeTok_proper _ _ _ _ Hm) as Hproper.
  destruct (checker_runs mode limit tokens evs levels HL Hm Hf) as (c & Etok & Efin).
  unfold ReadItems. set (p := NewPullParser s mode (Z.of_nat limit)).
  pose proof (read_text fd Hfd limit HL tokens t p () (stream_size (Stream (PLexer p))) (pull_fuel p) c Htok) as H.
  unfold pull_fuel in *. cbn [read_loop]. unfold Next, NextImpl. rewrite bind_assoc_result.
  rewrite <- (ModeTok_items _ _ _ _ Hm), <- H; try done.
  all: try lia. 2: { by apply NewPullParser_inv; [apply Hs|]. }
  by destruct (next_loop _ _ _ _ _) as [[[? ?] ?]| | |].
Qed.

Lemma ReadItems_text (fd : list byte → Result Z) (mode : EYsonType) (evs : list TYsonEvent) (depth limit : nat)
    (t : list byte) (s : TStream) : total_conversion fd → ModeText fd DefaultMemoryLimit mode evs depth t → at_stream s t →
  (depth < limit)%nat → Z.of_nat limit < 2 ^ 32 →
  ReadItems fd (NewPullParser s mode (Z.of_nat limit)) = Ok (event_items evs).
Proof.
  intros Hfd Ht Hs Hdepth HL. destruct (ModeText_tokens fd mode evs depth t Ht) as (tokens & levels & Hm & Hle & Htok).
  by apply (ReadItems_tokens fd mode evs levels tokens limit t s); [..|right; lia|done|done|done].
Qed.

(** ** Theorems *)

(** C8. Reading with [Next] to the end of the stream is total and sound: on every input, cut
    into blocks in any way, in each mode, a client that calls [Next] until [EndOfStream]
    gets there or gets an exception (no abort, no access outside a block, no endless
    loop); and when it gets there, the items it was given are those of one document (or
    of the items of a list or a map), in order, nested less deep than the limit. *)
Theorem ReadItems_sound (fd : list byte → Result Z) (mode : EYsonType) (limit : nat) (s : TStream)
    (Hfd : total_conversion fd) (Hs : Past s = 0%nat) (Hlimit : Z.of_nat limit < 2 ^ 31) :
  match ReadItems fd (NewPullParser s mode (Z.of_nat limit)) with
  | Ok items => ∃ evs levels tokens, ModeTok mode evs levels tokens ∧ fits_level limit 0 levels ∧ items = event_items evs
  | Throw _ => True
  | _ => False
  end.
Proof.
  assert (Z.of_nat limit < 2 ^ 32) as HL by lia.
  pose proof (read_loop_ok fd Hfd limit HL (pull_fuel (NewPullParser s mode (Z.of_nat limit))) _
    (NewPullParser_inv s mode limit Hs HL) ltac:(unfold pull_fuel; lia)) as H.
  unfold ReadItems. destruct (read_loop _ _ _) as [items| | |]; [|done..].
  destruct H as (tokens & c & Ht & Hi & Hc & Hfin). pose proof (checker_accepts mode limit tokens HL Ht) as H.
  simpl in Hc. rewrite Hc in H. run_bind in H. rewrite Hfin in H.
  destruct H as (_ & evs & levels & Hm & Hf). exists evs, levels, tokens. split_and!; [done|done|].
  rewrite <- Hi. by eapply ModeTok_items.
Qed.

Lemma ReadItems_sound_witness :
  ∃ items, ReadItems (λ _, Ok 0) (NewPullParser (TZeroCopyInputStreamReader [B"<a=1>["; B"x;#]"]) YsonNode 4) = Ok items ∧
  ∃ evs levels tokens, ModeTok YsonNode evs levels tokens ∧ fits_level 4 0 levels ∧ items = event_items evs.
Proof.
  pose proof (ReadItems_sound (λ _, Ok 0) YsonNode 4 (TZeroCopyInputStreamReader [B"<a=1>["; B"x;#]"])
    ltac:(done) eq_refl ltac:(lia)) as H. change (Z.of_nat 4) with 4 in H.
  destruct (ReadItems _ _) as [items| | |] eqn:E; [|vm_compute in E; discriminate E..].
  exists items. split; [reflexivity|exact H].
Defined.

(** C9. The pull parser accepts the grammar of the push parser: for every text of a document
    (or of a list or map fragment) that is nested less deep than the limit, cut into
    blocks in any way, calling [Next] to the end of the stream gives exactly the items of
    the calls the push parser makes for that text. *)
Theorem ReadItems_complete (fd : list byte → Result Z) (mode : EYsonType) (evs : list TYsonEvent) (depth limit : nat)
    (t : list byte) (s : TStream) (Hfd : total_conversion fd)
    (Ht : ModeText fd DefaultMemoryLimit mode evs depth t) (Hs : at_stream s t)
    (Hdepth : (depth < limit)%nat) (Hlimit : Z.of_nat limit < 2 ^ 31) :
  ReadItems fd (NewPullParser s mode (Z.of_nat limit)) = Ok (event_items evs).
Proof. eapply ReadItems_text; [done..|lia]. Qed.

Lemma ReadItems_complete_witness :
  ModeText (λ _, Ok 0) DefaultMemoryLimit YsonNode (node_events (Node None (VList [Node None VEntity; Node None (VBoolean true)]))) 2
    (B" [#; %true]") ∧
  ReadItems (λ _, Ok 0) (NewPullParser (TZeroCopyInputStreamReader [B" [#"; B"; %tr"; B"ue]"]) YsonNode 3) =
    Ok [Simple BeginList; Simple EntityValue; ItemBoolean true; Simple EndList].
Proof.
  assert (ModeText (λ _, Ok 0) DefaultMemoryLimit YsonNode
    (node_events (Node None (VList [Node None VEntity; Node None (VBoolean true)]))) 2 (B" [#; %true]")) as Ht.
  { apply (NodeMode _ _ (B" ") (Node None (VList [Node None VEntity; Node None (VBoolean true)])) (B"[#; %true]") []);
      [by constructor| |constructor].
    apply PlainNode, (ListValue _ _ _ (B"#; %true")).
    apply (ListItem _ _ [] _ (B"#") [] _ (B" %true")); [constructor| |constructor|].
    - apply PlainNode, ScalarValue, TextEntity.
    - apply (ListLast _ _ (B" ") _ (B"%true") []); [by constructor| |constructor].
      apply PlainNode, ScalarValue, (TextBoolean _ _ true). by vm_compute. }
  split; [exact Ht|].
  exact (ReadItems_complete (λ _, Ok 0) YsonNode _ 2 3 _ (TZeroCopyInputStreamReader [B" [#"; B"; %tr"; B"ue]"])
    ltac:(done) Ht ltac:(by vm_compute) ltac:(lia) ltac:(lia)).
Defined.

(** The two parsers count nesting differently: a document nested exactly as deep as the limit
    passes the push parser and not the pull parser. *)
Lemma nesting_limits_differ :
  ReadItems (λ _, Ok 0) (NewPullParser (TZeroCopyInputStreamReader [B"[[]]"]) YsonNode 2) = Throw EDepthLimitExceeded ∧
  ∃ p, DoParse (H := Recorder) (λ _, Ok 0) DefaultMemoryLimit 2 YsonNode (NewParser (TStringReader (B"[[]]")) []) = Ok p ∧
    Consumer p = [OnBeginList; OnListItem; OnBeginList; OnEndList; OnEndList].
Proof. split; [by vm_compute|]. eexists. by vm_compute. Qed.
