(* ===== verification/PullTraversal.v ===== *)
(** Whole values through the pull parser: [SkipComplexValue], [TransferComplexValue] and the
    loop behind them.

    [TraverseComplexValueOrAttributes] calls [NextImpl] until the nesting level is back
    where it was. The lemmas say, for any visitor, that this shows the visitor exactly the
    tokens of one node ([visit_tokens]) and stops right behind them; for the visitor that
    calls a consumer, the tokens of a node are the calls [node_events] prescribes, the list
    item calls that the stack [WaitingForListItem_] decides about included. *)

From S2P Require Import Prelude YsonStream YsonLexer YsonEvents YsonParser YsonGrammar YsonWriter SyntaxChecker PullParser.

(** ** What a visitor is shown *)

Section Visit.
Context {V R : Type} (visitor : TVisitor V R) (L : nat).

Definition visit_token (token : TToken) (c : Checker.t) (v : V) : Result V :=
  match token with
  | Item item => '(v, _) ← VisitItem visitor item c v; Ok v
  | Equality => VisitEquality visitor c v
  | Separator => VisitSeparator visitor c v
  end.

Fixpoint visit_tokens (tokens : list TToken) (a : list TFrame) (v : V) : Result V :=
  match tokens with
  | [] => Ok v
  | token :: tokens =>
      match step L token a with
      | None => Crash
      | Some a => v ← visit_token token (checker L a) v; visit_tokens tokens a v
      end
  end.

Lemma visit_tokens_app t1 t2 a a1 v : steps L t1 a = Some a1 →
  visit_tokens (t1 ++ t2) a v = v ← visit_tokens t1 a v; visit_tokens t2 a1 v.
Proof.
  revert a v. induction t1 as [|token t1 IH]; intros a v E; simpl in *; [by simplify_eq|].
  destruct (step L token a) as [a'|]; [|done]. simpl in E.
  destruct (visit_token token (checker L a') v); [|done..]. run_bind. by apply IH.
Qed.
End Visit.

(** ** Runs that stay above a level *)

(** Before every token more than [b] frames are open. *)
Fixpoint runs (L b : nat) (tokens : list TToken) (a a' : list TFrame) : Prop :=
  match tokens with
  | [] => a = a'
  | token :: tokens => (b < length a)%nat ∧ ∃ a1, step L token a = Some a1 ∧ runs L b tokens a1 a'
  end.

Lemma steps_snoc L tokens token a a1 a2 : steps L tokens a = Some a1 → step L token a1 = Some a2 → steps L (tokens ++ [token]) a = Some a2.
Proof. intros E1 E2. rewrite steps_app, E1. cbn [steps mbind option_bind]. by rewrite E2. Qed.

Lemma runs_app L b t1 t2 a a1 a2 : runs L b t1 a a1 → runs L b t2 a1 a2 → runs L b (t1 ++ t2) a a2.
Proof.
  revert a. induction t1 as [|token t1 IH]; intros a; simpl; [by intros ->|].
  intros (Hb & a' & Ha & H) H2. split; [done|]. exists a'. split; [done|by apply IH].
Qed.

Lemma runs_steps L b tokens a a' : runs L b tokens a a' → steps L tokens a = Some a'.
Proof. revert a. induction tokens as [|token tokens IH]; intros a; simpl; [by intros ->|]. intros (_ & a1 & -> & H). by apply IH. Qed.

Lemma runs_complete L :
  (∀ n t, NodeTok n t → ∀ c (a : list TFrame) b, (b <= length a)%nat → fits_level L (length a) (node_levels n) →
     runs L b t ((c, PValue) :: a) ((c, PSeparator) :: a)) ∧
  (∀ v t, ValueTok v t → ∀ c p (a : list TFrame) b, (b <= length a)%nat → expects p = true → fits_level L (length a) (value_levels v) →
     runs L b t ((c, p) :: a) ((c, PSeparator) :: a)) ∧
  (∀ items t, ListTok items t → ∀ (a : list TFrame) b, (b <= length a)%nat → fits_level L (length a) (list_levels items) →
     ∃ p, runs L b t ((CList, PValue) :: a) ((CList, p) :: a) ∧ (p = PValue ∨ p = PSeparator)) ∧
  (∀ items t, MapTok items t → ∀ c (a : list TFrame) b, (b <= length a)%nat → is_map c = true → fits_level L (length a) (map_levels items) →
     ∃ p, runs L b t ((c, PKey) :: a) ((c, p) :: a) ∧ (p = PKey ∨ p = PSeparator)).
Proof.
  apply Tok_mutind.
  - intros v t _ IH c a b Hb Hf. by apply IH.
  - intros attributes v ta t _ IHa _ IHv c a b Hb Hf. rewrite node_levels_attributes in Hf.
    apply fits_max in Hf as [[Hlt Hfa]%fits_S Hfv].
    destruct (IHa CAttributes ((c, PAttributeless) :: a) b ltac:(simpl; lia) eq_refl Hfa) as (p & Hp & Hcase).
    split; [simpl; lia|]. eexists. split; [by auto with yson|].
    apply (runs_app _ _ _ _ _ _ _ Hp). split; [simpl; lia|]. exists ((c, PAttributeless) :: a).
    split; [by destruct Hcase as [-> | ->]|by apply IHv].
  - intros v item Hv c p a b Hb Hp _. split; [simpl; lia|]. exists ((c, PSeparator) :: a). split; [|done].
    destruct v; simplify_eq/=; by destruct p.
  - intros items t _ IH c p a b Hb Hp Hf. rewrite value_levels_list in Hf. apply fits_S in Hf as [Hlt Hf].
    destruct (IH ((c, PSeparator) :: a) b ltac:(simpl; lia) Hf) as (q & Hq & Hcase).
    split; [simpl; lia|]. eexists. split; [by auto with yson|].
    apply (runs_app _ _ _ _ _ _ _ Hq). split; [simpl; lia|]. exists ((c, PSeparator) :: a). split; [by destruct Hcase as [-> | ->]|done].
  - intros items t _ IH c p a b Hb Hp Hf. rewrite value_levels_map in Hf. apply fits_S in Hf as [Hlt Hf].
    destruct (IH CMap ((c, PSeparator) :: a) b ltac:(simpl; lia) eq_refl Hf) as (q & Hq & Hcase).
    split; [simpl; lia|]. eexists. split; [by auto with yson|].
    apply (runs_app _ _ _ _ _ _ _ Hq). split; [simpl; lia|]. exists ((c, PSeparator) :: a). split; [by destruct Hcase as [-> | ->]|done].
  - intros a b _ _. exists PValue. split; [done|by left].
  - intros n t _ IH a b Hb Hf. simpl in Hf. exists PSeparator. split; [|by right]. apply IH; [done|]. by apply fits_max in Hf as [? _].
  - intros n t items ts _ IHn _ IHi a b Hb Hf. apply fits_max in Hf as [Hfn Hfi].
    destruct (IHi a b Hb Hfi) as (p & Hp & Hcase). exists p. split; [|done].
    eapply runs_app; [by apply IHn|]. split; [simpl; lia|]. eexists. split; [done|exact Hp].
  - intros c a b _ _ _. exists PKey. split; [done|by left].
  - intros key n t _ IH c a b Hb Hc Hf. simpl in Hf. exists PSeparator. split; [|by right]. split; [simpl; lia|].
    exists ((c, PEquality) :: a). split; [done|]. split; [simpl; lia|]. exists ((c, PValue) :: a). split; [done|]. apply IH; [done|].
    by apply fits_max in Hf as [? _].
  - intros key n t items ts _ IHn _ IHi c a b Hb Hc Hf. apply fits_max in Hf as [Hfn Hfi].
    destruct (IHi c a b Hb Hc Hfi) as (p & Hp & Hcase). exists p. split; [|done]. split; [simpl; lia|].
    exists ((c, PEquality) :: a). split; [done|]. split; [simpl; lia|]. exists ((c, PValue) :: a). split; [done|].
    eapply runs_app; [by apply IHn|]. split; [simpl; lia|]. exists ((c, PKey) :: a). split; [by destruct c|exact Hp].
Qed.

(** A collection, up to its closing bracket. *)
Definition closing (c : TContext) : EYsonItemType := match c with CList => EndList | CMap => EndMap | _ => EndAttributes end.

Lemma list_brackets L items body g (a : list TFrame) : ListTok items body → fits_level L (S (length a)) (list_levels items) →
  runs L (S (length a)) (body ++ [Item (Simple EndList)]) ((CList, PValue) :: g :: a) (g :: a).
Proof.
  intros Hbody Hf. destruct (runs_complete L) as (_ & _ & RL & _). destruct (RL _ _ Hbody (g :: a) (S (length a)) ltac:(simpl; lia) Hf) as (q & Hr & Hcase).
  apply (runs_app _ _ _ _ _ _ _ Hr). split; [simpl; lia|]. eexists. split; [|done]. by destruct Hcase as [-> | ->].
Qed.

Lemma map_brackets L c items body g (a : list TFrame) : c = CMap ∨ c = CAttributes → MapTok items body → fits_level L (S (length a)) (map_levels items) →
  runs L (S (length a)) (body ++ [Item (Simple (closing c))]) ((c, PKey) :: g :: a) (g :: a).
Proof.
  intros Hc Hbody Hf. destruct (runs_complete L) as (_ & _ & _ & RM).
  destruct (RM _ _ Hbody c (g :: a) (S (length a)) ltac:(simpl; lia) ltac:(by destruct Hc as [-> | ->]) Hf) as (q & Hr & Hcase).
  apply (runs_app _ _ _ _ _ _ _ Hr). split; [simpl; lia|]. eexists. split; [|done]. by destruct Hc as [-> | ->], Hcase as [-> | ->].
Qed.

(** ** The loop *)

Section Traverse.
Context (fd : list byte → Result Z) (Hfd : total_conversion fd) (L : nat) (HL : Z.of_nat L < 2 ^ 32).

#[local] Abbreviation size p := (stream_size (Stream (PLexer p))).
#[local] Abbreviation at_frames l a := {| PLexer := l; SyntaxChecker_ := checker L a |}.

(** A call that ends in front of [tokens] with frames [a], fewer than [n] bytes to come, and
    the outcome [r] for the visitor. *)
Definition lands {A} (tokens : list TToken) (a : list TFrame) (n : nat) (r : Result A) (lhs : Result (TYsonPullParser * A)) : Prop :=
  match r with
  | Ok v => ∃ l t, at_text l t ∧ TokText fd tokens t ∧ pull_inv L (at_frames l a) ∧ (stream_size (Stream l) < n)%nat ∧
      lhs = Ok (at_frames l a, v)
  | Throw e => lhs = Throw e
  | Crash => lhs = Crash
  | OutOfFuel => lhs = OutOfFuel
  end.

Lemma lands_bind {A A'} tokens a n tokens1 a1 n1 (r : Result A) lhs (f : A → Result A') (g : TYsonPullParser * A → Result (TYsonPullParser * A')) :
  lands tokens1 a1 n1 r lhs →
  (∀ v l t, at_text l t → TokText fd tokens1 t → pull_inv L (at_frames l a1) → (stream_size (Stream l) < n1)%nat → r = Ok v →
    lands tokens a n (f v) (g (at_frames l a1, v))) →
  lands tokens a n (r ≫= f) (lhs ≫= g).
Proof.
  intros H Hk. destruct r as [v| | |]; simpl in *; [|by rewrite H..].
  destruct H as (l & t & H1 & H2 & H3 & H4 & ->). run_bind. by eapply Hk.
Qed.

Lemma lands_weaken {A} tokens a n n' (r : Result A) lhs : (n <= n')%nat → lands tokens a n r lhs → lands tokens a n' r lhs.
Proof.
  intros Hn. destruct r as [v| | |]; simpl; try done. intros (l & t & H1 & H2 & H3 & H4 & H5).
  exists l, t. do 3 (split; [done|]). split; [lia|done].
Qed.

Lemma step_checker token a a1 c : proper_token token → simulates L a c → step L token a = Some a1 →
  OnToken token c = Ok (checker L a1) ∧ simulates L a1 (checker L a1).
Proof.
  intros Ht Hs E. pose proof (OnToken_implements L token a c HL (proper_real token Ht) Hs) as H. rewrite E in H.
  destruct H as (c' & -> & H). assert (c' = checker L a1) as -> by apply H. done.
Qed.

Definition is_punct (token : TToken) : Prop := match token with Item _ => False | _ => True end.

(** [NextImpl]: separators, then an item. *)
Lemma next_lands {V R} (visitor : TVisitor V R) pre item tokens t p v fuel a a1 a2 :
  Forall is_punct pre → TokText fd (pre ++ Item item :: tokens) t → at_text (PLexer p) t → pull_inv L p → (size p < fuel)%nat →
  proper_token (Item item) → simulates L a (SyntaxChecker_ p) → steps L pre a = Some a1 → step L (Item item) a1 = Some a2 →
  lands tokens a2 (size p) (v ← visit_tokens visitor L pre a v; VisitItem visitor item (checker L a2) v)
    ('(p, v, r) ← next_loop fd visitor fuel p v; Ok (p, (v, r))).
Proof.
  intros Hpre. revert t p v fuel a. induction Hpre as [|token pre Htok _ IH]; intros t p v fuel a Ht Hat Hp Hf Hi Hs E1 E2.
  - simpl in E1. injection E1 as ->. destruct (next_loop_text fd Hfd L HL visitor (Item item) tokens t p v fuel Ht Hat Hp Hf Hi)
      as (l & t' & fuel' & Hl & Ht' & Hinv & ->). destruct (step_checker _ _ _ _ Hi Hs E2) as [Ec _]. rewrite Ec.
    destruct (Hinv _ Ec) as [Hp' Hsz]. run_bind. cbv zeta. simpl visit_tokens. run_bind.
    destruct (VisitItem visitor item (checker L a2) v) as [[v' r]| | |]; [|done..]. exists l, t'. split_and!; [done..|lia|done].
  - assert (proper_token token) as Hproper by (by destruct token).
    destruct (next_loop_text fd Hfd L HL visitor token (pre ++ Item item :: tokens) t p v fuel Ht Hat Hp Hf Hproper)
      as (l & t' & fuel' & Hl & Ht' & Hinv & ->). simpl in E1. destruct (step L token a) as [a'|] eqn:Ea; [|done].
    destruct (step_checker _ _ _ _ Hproper Hs Ea) as [Ec Hs']. rewrite Ec. destruct (Hinv _ Ec) as [Hp' Hsz]. run_bind. cbv zeta.
    cbn [visit_tokens]. rewrite Ea.
    assert (∀ v, lands tokens a2 (size p) (v ← visit_tokens visitor L pre a' v; VisitItem visitor item (checker L a2) v)
      ('(p, v, r) ← next_loop fd visitor fuel' (at_frames l a') v; Ok (p, (v, r)))) as Hnext.
    { intros v1. apply (lands_weaken _ _ (size (at_frames l a'))); [simpl; lia|]. by eapply IH; try done; simpl; lia. }
    destruct token as [|  |]; [done|..]; simpl visit_token.
    + destruct (VisitEquality visitor (checker L a') v) as [v1| | |]; [|done..]. apply Hnext.
    + destruct (VisitSeparator visitor (checker L a') v) as [v1| | |]; [|done..]. apply Hnext.
Qed.

(** The [while] loop, from inside a call of [NextImpl] on. *)
Lemma traverse_lands {V R} (visitor : TVisitor V R) b tokens tokens' t p v fuel fuel' a a' :
  tokens ≠ [] → TokText fd (tokens ++ tokens') t → at_text (PLexer p) t → pull_inv L p → (size p < fuel')%nat → (size p <= fuel)%nat →
  Forall proper_token tokens → simulates L a (SyntaxChecker_ p) → runs L b tokens a a' → length a' = b → (0 < b)%nat →
  lands tokens' a' (size p) (visit_tokens visitor L tokens a v)
    ('(p, v, _) ← next_loop fd visitor fuel' p v; traverse_loop fd visitor fuel (Z.of_nat b) p v).
Proof.
  intros Hne Ht Hat Hp Hf' Hf Hproper Hs Hruns Hb Hb0. revert t p v fuel fuel' a Hne Ht Hat Hp Hf' Hf Hproper Hs Hruns.
  induction tokens as [|token tokens IH]; intros t p v fuel fuel' a Hne Ht Hat Hp Hf' Hf Hproper Hs Hruns; [done|].
  pose proof (Forall_inv Hproper) as Htok. apply Forall_inv_tail in Hproper. destruct Hruns as (Hlen & a1 & Ea & Hruns).
  destruct (next_loop_text fd Hfd L HL visitor token (tokens ++ tokens') t p v fuel' Ht Hat Hp Hf' Htok)
    as (l & t' & fuel2 & Hl & Ht' & Hinv & ->). destruct (step_checker _ _ _ _ Htok Hs Ea) as [Ec Hs']. rewrite Ec.
  destruct (Hinv _ Ec) as [Hp1 Hsz]. run_bind. cbv zeta. cbn [visit_tokens]. rewrite Ea.
  assert (is_punct token → tokens ≠ []) as Hrest.
  { intros Hpunct ->. simpl in Hruns. subst a1. destruct token as [| |]; [done|..]; destruct a as [|[c q] a]; try done; simpl in Ea, Hlen.
    - destruct q; simplify_eq/=. simpl in *. lia.
    - destruct q; simplify_eq/=. destruct c; simplify_eq/=; lia. }
  assert (is_punct token → ∀ v1, lands tokens' a' (size p) (visit_tokens visitor L tokens a1 v1)
    ('(p, v, _) ← next_loop fd visitor fuel2 (at_frames l a1) v1; traverse_loop fd visitor fuel (Z.of_nat b) p v)) as Hpunct.
  { intros Hpunct v1. apply (lands_weaken _ _ (size (at_frames l a1))); [simpl; lia|].
    by apply (IH t'); try done; [by apply Hrest|simpl; lia|simpl; lia]. }
  destruct token as [item| |]; simpl visit_token.
  - destruct (VisitItem visitor item (checker L a1) v) as [[v1 r]| | |]; [|done..]. run_bind. destruct fuel as [|fuel]; [lia|]. cbn [traverse_loop].
    cbn [SyntaxChecker_ checker Checker.GetNestingLevel Checker.NestingLevel]. destruct tokens as [|token2 tokens].
    + simpl in Hruns. subst a1. destruct (Z.geb_spec (Z.of_nat (length a' - 1)) (Z.of_nat b)); [lia|]. simpl.
      exists l, t'. split_and!; [done..|lia|done].
    + destruct (Z.geb_spec (Z.of_nat (length a1 - 1)) (Z.of_nat b)); [|destruct Hruns; lia].
      apply (lands_weaken _ _ (size (at_frames l a1))); [simpl; lia|]. unfold NextImpl.
      by apply (IH t'); try done; [unfold pull_fuel; simpl; lia|simpl; lia].
  - destruct (VisitEquality visitor (checker L a1) v) as [v1| | |]; [|done..]. by apply Hpunct.
  - destruct (VisitSeparator visitor (checker L a1) v) as [v1| | |]; [|done..]. by apply Hpunct.
Qed.

Lemma steps_simulates tokens a a' c : Forall proper_token tokens → simulates L a c → steps L tokens a = Some a' → simulates L a' (checker L a').
Proof.
  intros Ht. revert a c. induction Ht as [|token tokens Htok _ IH]; intros a c Hs E; simpl in E.
  - injection E as <-. by assert (c = checker L a) as <- by apply Hs.
  - destruct (step L token a) as [a1|] eqn:Ea; [|done]. destruct (step_checker _ _ _ _ Htok Hs Ea) as [_ Hs1]. by eapply IH.
Qed.

Lemma punct_proper pre : Forall is_punct pre → Forall proper_token pre.
Proof. apply List.Forall_impl. by intros []. Qed.

Lemma visit_forwarding {V R} (visitor : TVisitor V R) pre a v : Forall is_punct pre →
  visit_tokens (TForwardingVisitor visitor) L pre a v = visit_tokens visitor L pre a v.
Proof.
  intros Hpre. revert a v. induction Hpre as [|token pre Htok _ IH]; intros a v; simpl; [done|].
  destruct (step L token a) as [a1|]; [|done]. destruct token as [| |]; [done|..]; simpl.
  - destruct (VisitEquality _ _ _); [|done..]. apply IH.
  - destruct (VisitSeparator _ _ _); [|done..]. apply IH.
Qed.

(** The first item of a value, and what is done with it. *)
Lemma first_lands {V R A} (visitor : TVisitor V R) pre item tokens1 t p v a a1 a2 tokens a' n (F : V → Result A) (K : TYsonPullParser → V → TYsonItem → Result (TYsonPullParser * A)) :
  Forall is_punct pre → TokText fd (pre ++ Item item :: tokens1) t → at_text (PLexer p) t → pull_inv L p →
  proper_token (Item item) → simulates L a (SyntaxChecker_ p) → steps L pre a = Some a1 → step L (Item item) a1 = Some a2 →
  (∀ v l t, at_text l t → TokText fd tokens1 t → pull_inv L (at_frames l a2) → (stream_size (Stream l) < size p)%nat →
     simulates L a2 (checker L a2) → lands tokens a' n (F v) (K (at_frames l a2) v item)) →
  lands tokens a' n (v ← visit_tokens visitor L (pre ++ [Item item]) a v; F v)
    ('(p, v, item) ← NextImpl fd (TForwardingVisitor visitor) p v; K p v item).
Proof.
  intros Hpre Ht Hat Hp Hi Hs E1 E2 HK.
  pose proof (next_lands (TForwardingVisitor visitor) pre item tokens1 t p v (pull_fuel p) a a1 a2 Hpre Ht Hat Hp ltac:(unfold pull_fuel; lia) Hi Hs E1 E2) as H.
  rewrite visit_forwarding in H by done. unfold NextImpl.
  assert (simulates L a2 (checker L a2)) as Hs2.
  { apply (step_checker (Item item) a1 a2 (checker L a1)); [done| |done]. eapply steps_simulates; [by apply punct_proper|done|done]. }
  rewrite (visit_tokens_app visitor L pre [Item item] a a1 v E1). set (r := next_loop fd (TForwardingVisitor visitor) (pull_fuel p) p v) in *. clearbody r.
  destruct (visit_tokens visitor L pre a v) as [v1| | |]; run_bind in H; run_bind.
  2-4: destruct r as [[[p' v'] i]| | |]; by simplify_eq/=.
  cbn [visit_tokens]. rewrite E2. cbn [visit_token]. cbn [VisitItem TForwardingVisitor] in H.
  destruct (VisitItem visitor item (checker L a2) v1) as [[v2 r2]| | |]; run_bind in H; run_bind.
  2-4: destruct r as [[[p' v'] i]| | |]; by simplify_eq/=.
  destruct H as (l & t' & H1 & H2 & H3 & H4 & H5). destruct r as [[[p' v'] i]| | |]; try discriminate H5. run_bind in H5. injection H5 as -> -> ->.
  run_bind. by eapply HK.
Qed.

(** [traverse]: up to the bracket that closes the innermost open one. *)
Lemma traverse_closes {V R} (visitor : TVisitor V R) tokens tokens' t l v (f : TFrame) (a a' : list TFrame) :
  tokens ≠ [] → TokText fd (tokens ++ tokens') t → at_text l t → pull_inv L (at_frames l (f :: a)) → Forall proper_token tokens →
  simulates L (f :: a) (checker L (f :: a)) → runs L (length a) tokens (f :: a) a' → length a' = length a → (0 < length a)%nat →
  lands tokens' a' (stream_size (Stream l)) (visit_tokens visitor L tokens (f :: a) v) (traverse fd visitor (at_frames l (f :: a)) v).
Proof.
  intros Hne Ht Hat Hp Hproper Hs Hruns Hlen Ha. unfold traverse. cbn [traverse_loop].
  rewrite (proj2 (Z.geb_le _ _)) by lia. unfold NextImpl.
  assert (Checker.GetNestingLevel (SyntaxChecker_ (at_frames l (f :: a))) = Z.of_nat (length a)) as -> by (cbn; f_equal; lia).
  apply (traverse_lands visitor (length a) tokens tokens' t (at_frames l (f :: a))); try done; unfold pull_fuel; simpl; lia.
Qed.

Lemma tok_proper : (∀ n t, NodeTok n t → Forall proper_token t) ∧ (∀ v t, ValueTok v t → Forall proper_token t) ∧
  (∀ items t, ListTok items t → Forall proper_token t) ∧ (∀ items t, MapTok items t → Forall proper_token t).
Proof.
  split_and!.
  - intros n t H. eapply (ModeTok_proper YsonNode). by constructor.
  - intros v t H. eapply (ModeTok_proper YsonNode), ModeTok_node. by constructor.
  - intros items t H. eapply (ModeTok_proper YsonListFragment). by constructor.
  - intros items t H. eapply (ModeTok_proper YsonMapFragment). by constructor.
Qed.

(** A list or a map, from its first bracket on. *)
Lemma collection_lands {V R} (visitor : TVisitor V R) fuel stop pre opening body closing tokens' t p x a0 a1 f g (a : list TFrame) :
  Forall is_punct pre → TokText fd (pre ++ (Item (Simple opening) :: body ++ [Item (Simple closing)]) ++ tokens') t →
  at_text (PLexer p) t → pull_inv L p → simulates L a0 (SyntaxChecker_ p) → steps L pre a0 = Some a1 →
  step L (Item (Simple opening)) a1 = Some (f :: g :: a) → runs L (S (length a)) (body ++ [Item (Simple closing)]) (f :: g :: a) (g :: a) →
  Forall proper_token (Item (Simple opening) :: body ++ [Item (Simple closing)]) → opening = BeginList ∨ opening = BeginMap →
  lands tokens' (g :: a) (size p) (visit_tokens visitor L (pre ++ Item (Simple opening) :: body ++ [Item (Simple closing)]) a0 x)
    (traverse_value fd visitor (S fuel) stop p x).
Proof.
  intros Hpre Ht Hat Hp Hs E1 E2 Hruns Hproper Ho. cbn [traverse_value].
  change (Item (Simple opening) :: body ++ ?z) with ([Item (Simple opening)] ++ body ++ z). rewrite (app_assoc pre).
  rewrite (visit_tokens_app visitor L (pre ++ [Item (Simple opening)]) _ a0 (f :: g :: a) x) by (by eapply steps_snoc).
  apply (first_lands visitor pre (Simple opening) ((body ++ [Item (Simple closing)]) ++ tokens') t p x a0 a1 (f :: g :: a));
    try done; [by apply Forall_inv in Hproper|].
  intros v1 l t1 H1 H2 H3 H4 Hs2. assert (IsComposite (Simple opening) = true) as -> by (by destruct Ho as [-> | ->]). cbn [negb].
  assert (IsAttributes (Simple opening) = false) as -> by (by destruct Ho as [-> | ->]). rewrite andb_false_r.
  apply (lands_weaken _ _ (stream_size (Stream l))); [lia|].
  pose proof (traverse_closes visitor (body ++ [Item (Simple closing)]) tokens' t1 l v1 f (g :: a) (g :: a)
    ltac:(by destruct body) H2 H1 H3 (Forall_inv_tail Hproper) Hs2 Hruns eq_refl ltac:(simpl; lia)) as H.
  destruct (visit_tokens visitor L _ _ v1) as [v2| | |]; simpl in H |- *; [|by rewrite H..].
  destruct H as (l2 & t2 & ? & ? & ? & ? & ->). by exists l2, t2.
Qed.

(** A value without attributes. *)
Lemma value_lands {V R} (visitor : TVisitor V R) fuel stop pre v tt tokens' t p x a0 c q (a : list TFrame) :
  ValueTok v tt → Forall is_punct pre → TokText fd (pre ++ tt ++ tokens') t → at_text (PLexer p) t → pull_inv L p →
  simulates L a0 (SyntaxChecker_ p) → steps L pre a0 = Some ((c, q) :: a) → expects q = true → fits_level L (length a) (value_levels v) →
  lands tokens' ((c, PSeparator) :: a) (size p) (visit_tokens visitor L (pre ++ tt) a0 x) (traverse_value fd visitor (S fuel) stop p x).
Proof.
  intros Htt Hpre Ht Hat Hp Hs Esteps Hq Hfits.
  destruct (runs_complete L) as (_ & RV & _). destruct tok_proper as (_ & PV & _).
  pose proof (PV _ _ Htt) as Hproper. pose proof (RV _ _ Htt c q a 0%nat ltac:(lia) Hq Hfits) as Hruns.
  destruct Htt as [v item Hv|items body Hbody|items body Hbody].
  - destruct Hruns as (_ & a2 & E2 & <-). cbn [traverse_value].
    replace (visit_tokens visitor L (pre ++ [Item item]) a0 x) with (v ← visit_tokens visitor L (pre ++ [Item item]) a0 x; Ok v) by (by destruct (visit_tokens _ _ _ _ _)).
    eapply (first_lands visitor pre item tokens' t p x a0); try done; [by apply Forall_inv in Hproper|].
    intros v1 l t1 H1 H2 H3 H4 _. assert (IsComposite item = false) as -> by (by destruct v; simplify_eq/=). simpl. exists l, t1. by split_and!.
  - destruct Hruns as (_ & a2 & E2 & _). rewrite value_levels_list in Hfits. apply fits_S in Hfits as [Hlt Hfits].
    eapply (collection_lands visitor fuel stop pre BeginList body EndList tokens' t p x a0 ((c, q) :: a) (CList, PValue)); try done; [..|by left].
    + by auto with yson.
    + by eapply list_brackets.
  - destruct Hruns as (_ & a2 & E2 & _). rewrite value_levels_map in Hfits. apply fits_S in Hfits as [Hlt Hfits].
    eapply (collection_lands visitor fuel stop pre BeginMap body EndMap tokens' t p x a0 ((c, q) :: a) (CMap, PKey)); try done; [..|by right].
    + by auto with yson.
    + by apply (map_brackets L CMap items); [left|..].
Qed.

(** An attribute map that has been opened, and the value behind it. *)
Lemma attributes_lands {V R} (visitor : TVisitor V R) fuel attributes v ta tv tokens' t l x c (a : list TFrame)
    (a2 := (CAttributes, PKey) :: (c, PAttributeless) :: a) :
  MapTok attributes ta → ValueTok v tv → TokText fd ((ta ++ Item (Simple EndAttributes) :: tv) ++ tokens') t → at_text l t →
  pull_inv L (at_frames l a2) → simulates L a2 (checker L a2) →
  fits_level L (S (length a)) (map_levels attributes) → fits_level L (length a) (value_levels v) →
  lands tokens' ((c, PSeparator) :: a) (stream_size (Stream l)) (visit_tokens visitor L (ta ++ Item (Simple EndAttributes) :: tv) a2 x)
    ('(p, v) ← traverse fd visitor (at_frames l a2) x; traverse_value fd visitor (S fuel) false p v).
Proof.
  intros Ha Hv Ht Hat Hp Hs Hfa Hfv. destruct tok_proper as (_ & _ & _ & PM). set (body := ta ++ [Item (Simple EndAttributes)]).
  pose proof (map_brackets L CAttributes attributes ta (c, PAttributeless) a ltac:(by right) Ha Hfa) as Hbody.
  assert (Forall proper_token body) as Hproper by (apply Forall_app_2; [by eapply PM|by repeat constructor]).
  assert (ta ++ Item (Simple EndAttributes) :: tv = body ++ tv) as Et by (unfold body; by rewrite <- app_assoc). rewrite Et, <- app_assoc in *.
  rewrite (visit_tokens_app visitor L body tv a2 _ x (runs_steps _ _ _ _ _ Hbody)). eapply lands_bind.
  - eapply (traverse_closes visitor body (tv ++ tokens')); try done; [by destruct ta|simpl; lia].
  - intros v2 l2 t2 G1 G2 G3 G4 _. apply (lands_weaken _ _ (size (at_frames l2 ((c, PAttributeless) :: a)))); [simpl; lia|].
    apply (value_lands visitor fuel false [] v tv tokens' t2 _ v2 ((c, PAttributeless) :: a) c PAttributeless a); try done.
    eapply (steps_simulates body a2); [done|done|by eapply runs_steps].
Qed.

(** A node, from the separators in front of it on. *)
Lemma node_lands {V R} (visitor : TVisitor V R) pre n tt tokens' t p x a0 c (a : list TFrame) :
  NodeTok n tt → Forall is_punct pre → TokText fd (pre ++ tt ++ tokens') t → at_text (PLexer p) t → pull_inv L p →
  simulates L a0 (SyntaxChecker_ p) → steps L pre a0 = Some ((c, PValue) :: a) → fits_level L (length a) (node_levels n) →
  lands tokens' ((c, PSeparator) :: a) (size p) (visit_tokens visitor L (pre ++ tt) a0 x)
    (TraverseComplexValueOrAttributes fd visitor false p x).
Proof.
  intros Htt Hpre Ht Hat Hp Hs Esteps Hfits. unfold TraverseComplexValueOrAttributes. destruct Htt as [v tv Hv|attributes v ta tv Ha Hv].
  - by eapply value_lands.
  - rewrite node_levels_attributes in Hfits. apply fits_max in Hfits as [[Hlt Hfa]%fits_S Hfv].
    set (a2 := (CAttributes, PKey) :: (c, PAttributeless) :: a).
    assert (step L (Item (Simple BeginAttributes)) ((c, PValue) :: a) = Some a2) as E2 by (by apply step_begin_attributes).
    change (Item (Simple BeginAttributes) :: ta ++ ?z) with ([Item (Simple BeginAttributes)] ++ ta ++ z) in *. rewrite (app_assoc pre).
    rewrite (visit_tokens_app visitor L (pre ++ [Item (Simple BeginAttributes)]) _ a0 a2 x) by (by eapply steps_snoc).
    cbn [traverse_value]. eapply (first_lands visitor pre (Simple BeginAttributes) ((ta ++ Item (Simple EndAttributes) :: tv) ++ tokens')); try done.
    intros v1 l t1 H1 H2 H3 H4 Hs2. apply (lands_weaken _ _ (stream_size (Stream l))); [lia|].
    change (IsComposite (Simple BeginAttributes)) with true. change (IsAttributes (Simple BeginAttributes)) with true. cbn [negb andb].
    exact (attributes_lands visitor 0 attributes v ta tv tokens' t1 l v1 c a Ha Hv H2 H1 H3 Hs2 Hfa Hfv).
Qed.

(** ... and from the item that [Next] has already returned. *)
Lemma from_lands {V R} (visitor : TVisitor V R) n item rest tokens' t p x c (a a2 : list TFrame) :
  NodeTok n (Item item :: rest) → TokText fd (rest ++ tokens') t → at_text (PLexer p) t → pull_inv L p →
  step L (Item item) ((c, PValue) :: a) = Some a2 → SyntaxChecker_ p = checker L a2 → simulates L a2 (checker L a2) →
  fits_level L (length a) (node_levels n) →
  lands tokens' ((c, PSeparator) :: a) (S (size p)) (visit_tokens visitor L (Item item :: rest) ((c, PValue) :: a) x)
    (TraverseFrom fd visitor item false p x).
Proof.
  intros Hn Ht Hat Hp E2 Hc Hs Hfits. destruct tok_proper as (PN & _).
  pose proof (Forall_inv_tail (PN _ _ Hn)) as Hproper. destruct p as [l chk]; simpl in Hc, Hat; subst chk.
  assert (∀ f g x1, a2 = f :: g :: a → rest ≠ [] → runs L (S (length a)) rest a2 (g :: a) →
    lands tokens' (g :: a) (S (stream_size (Stream l))) (visit_tokens visitor L rest a2 x1) (traverse fd visitor (at_frames l a2) x1)) as Hclose.
  { intros f g x1 -> Hne Hr. apply (lands_weaken _ _ (stream_size (Stream l))); [lia|].
    apply (traverse_closes visitor rest tokens' t l x1 f (g :: a)); try done; simpl; lia. }
  cbn [visit_tokens]. rewrite E2. cbn [visit_token]. remember (Item item :: rest) as tt eqn:Ett.
  destruct Hn as [v tv Hv|attributes v ta tv Ha Hv]; [destruct Hv as [v item' Hv|items body Hbody|items body Hbody]|]; simplify_eq Ett; intros; subst.
  - assert (a2 = (c, PSeparator) :: a) as -> by (destruct v; simplify_eq/=; done).
    assert (TraverseFrom fd visitor item false (at_frames l ((c, PSeparator) :: a)) x =
      '(v, _) ← VisitItem visitor item (checker L ((c, PSeparator) :: a)) x; Ok (at_frames l ((c, PSeparator) :: a), v)) as ->
      by (by destruct v; simplify_eq/=).
    destruct (VisitItem _ _ _ _) as [[v1 r]| | |]; simpl; [|done..]. exists l, t. split_and!; [done..|lia|done].
  - simpl in Hfits. cbn [step GetType expects andb] in E2. destruct (_ <? _)%nat eqn:Hlt in E2; [|done]. injection E2 as <-.
    unfold TraverseFrom. cbn [GetType SyntaxChecker_]. destruct (VisitItem _ _ _ _) as [[v1 r]| | |]; [|done..]. run_bind.
    apply (Hclose (CList, PValue)); [done|by destruct body|]. change (node_levels (Node None (VList items))) with (S (list_levels items)) in Hfits.
    apply fits_S in Hfits as [_ Hfits]. by eapply list_brackets.
  - simpl in Hfits. cbn [step GetType expects andb] in E2. destruct (_ <? _)%nat eqn:Hlt in E2; [|done]. injection E2 as <-.
    unfold TraverseFrom. cbn [GetType SyntaxChecker_]. destruct (VisitItem _ _ _ _) as [[v1 r]| | |]; [|done..]. run_bind.
    apply (Hclose (CMap, PKey)); [done|by destruct body|]. change (node_levels (Node None (VMap items))) with (S (map_levels items)) in Hfits.
    apply fits_S in Hfits as [_ Hfits]. by apply (map_brackets L CMap items); [left|..].
  - rewrite node_levels_attributes in Hfits. apply fits_max in Hfits as [[Hlt Hfa]%fits_S Hfv].
    cbn [step GetType expects andb] in E2. destruct (_ <? _)%nat in E2; [|done]. injection E2 as <-.
    unfold TraverseFrom. cbn [GetType SyntaxChecker_ negb]. destruct (VisitItem _ _ _ _) as [[v1 r]| | |]; [|done..]. run_bind.
    apply (lands_weaken _ _ (stream_size (Stream l))); [simpl; lia|].
    exact (attributes_lands visitor 1 attributes v ta tv tokens' t l v1 c a Ha Hv Ht Hat Hp Hs Hfa Hfv).
Qed.
End Traverse.

(** ** The calls a consumer gets *)

Section Consumer.
Context {C : Type} `{IYsonConsumer C} (L : nat).

#[local] Abbreviation visitor := (TYsonConsumerVisitor C).

(** Calls in a row; [TransferComplexValue] has no [Stop]. *)
Fixpoint deliver (evs : list TYsonEvent) (consumer : C) : Result C :=
  match evs with
  | [] => Ok consumer
  | ev :: evs => '(consumer, _) ← OnEvent ev consumer; deliver evs consumer
  end.

Lemma deliver_app evs1 evs2 consumer : deliver (evs1 ++ evs2) consumer = deliver evs1 consumer ≫= deliver evs2.
Proof.
  revert consumer. induction evs1 as [|ev evs1 IH]; intros consumer; simpl; [done|].
  destruct (OnEvent ev consumer) as [[? ?]| | |]; simpl; [apply IH|done..].
Qed.

(** Whether an item is waited for at a level. *)
Definition waits (v : visitor) (level : nat) : bool := default false (WaitingForListItem_ v !! level).

(** The visitor makes the calls [evs] and is left in a state where [P] holds. *)
Definition tells (v : visitor) (evs : list TYsonEvent) (P : visitor → Prop) (r : Result visitor) : Prop :=
  match deliver evs (VConsumer v) with
  | Ok consumer => ∃ v', P v' ∧ VConsumer v' = consumer ∧ r = Ok v'
  | Throw e => r = Throw e
  | Crash => r = Crash
  | OutOfFuel => r = OutOfFuel
  end.

Lemma tells_bind v evs1 evs2 P Q r f : tells v evs1 P r → (∀ v1, P v1 → tells v1 evs2 Q (f v1)) → tells v (evs1 ++ evs2) Q (r ≫= f).
Proof.
  unfold tells at 1 3. rewrite deliver_app. destruct (deliver evs1 (VConsumer v)) as [consumer| | |]; simpl; [|by intros ->..].
  intros (v1 & HP & <- & ->) Hf. by apply Hf.
Qed.

Lemma tells_call ev v (P : visitor → Prop) : (∀ v', WaitingForListItem_ v' = WaitingForListItem_ v → P v') → tells v [ev] P (call ev v).
Proof.
  intros HP. unfold tells, call, deliver. destruct (OnEvent ev (VConsumer v)) as [[consumer stop]| | |]; simpl; try done.
  exists {| VConsumer := consumer; WaitingForListItem_ := WaitingForListItem_ v |}. split_and!; [by apply HP|done..].
Qed.

Lemma SetWaitingForListItem_spec value delta c v (i : nat) : Checker.GetNestingLevel c + delta = Z.of_nat i →
  ∃ v', SetWaitingForListItem value delta c v = Ok (v', waits v i) ∧ VConsumer v' = VConsumer v ∧
    ∀ j, waits v' j = if decide (j = i) then value else waits v j.
Proof.
  intros Hi. unfold SetWaitingForListItem, waits. rewrite Hi. cbv zeta. set (w := WaitingForListItem_ v).
  destruct (Z.ltb_spec (Z.of_nat i) 0); [lia|]. rewrite Nat2Z.id.
  set (w' := if Z.of_nat i >=? Z.of_nat (length w) then _ else w).
  assert (∀ j, default false (w' !! j) = default false (w !! j)) as Hw.
  { intros j. unfold w'. destruct (Z.of_nat i >=? _); [|done]. destruct (decide (j < length w)%nat); [by rewrite lookup_app_l|].
    rewrite lookup_app_r, (lookup_ge_None_2 w) by lia. simpl.
    destruct (replicate _ false !! (j - length w)%nat) as [b|] eqn:E; [|done]. by apply lookup_replicate in E as [-> _]. }
  assert (i < length w')%nat as Hlt.
  { unfold w'. destruct (Z.geb_spec (Z.of_nat i) (Z.of_nat (length w))); [|lia]. rewrite length_app, length_replicate. lia. }
  clearbody w'. destruct (lookup_lt_is_Some_2 w' i Hlt) as [was E]. rewrite E. eexists. split; [f_equal; f_equal; rewrite <- Hw, E; done|]. split; [done|].
  intros j. simpl. destruct (decide (j = i)) as [->|Hne]; [by rewrite list_lookup_insert_eq|]. by rewrite list_lookup_insert_ne, Hw by done.
Qed.

(** The levels at which items are waited for. *)
Definition shaped (W : nat → bool) (v : visitor) : Prop := ∀ j, waits v j = W j.
Definition update (W : nat → bool) (i : nat) (value : bool) : nat → bool := λ j, if decide (j = i) then value else W j.

Lemma shaped_same W v v' : WaitingForListItem_ v' = WaitingForListItem_ v → shaped W v → shaped W v'.
Proof. intros E HW j. unfold waits. rewrite E. apply HW. Qed.

Lemma tells_weaken v evs (P Q : visitor → Prop) r : (∀ v', P v' → Q v') → tells v evs P r → tells v evs Q r.
Proof. intros HPQ. unfold tells. destruct (deliver _ _); [|done..]. intros (v1 & ? & ? & ?). exists v1. auto. Qed.

Lemma tells_none v (P : visitor → Prop) : P v → tells v [] P (Ok v).
Proof. intros. by exists v. Qed.

Lemma tells_set W value delta c v (i : nat) : Checker.GetNestingLevel c + delta = Z.of_nat i → shaped W v →
  tells v [] (shaped (update W i value)) ('(v, _) ← SetWaitingForListItem value delta c v; Ok v).
Proof.
  intros Hi HW. destruct (SetWaitingForListItem_spec value delta c v i Hi) as (v1 & -> & Hc & Hw). exists v1. split_and!; [|done..].
  intros j. unfold update. rewrite Hw. by destruct (decide _).
Qed.

Lemma tells_shaped W ev v : shaped W v → tells v [ev] (shaped W) (call ev v).
Proof. intros HW. apply tells_call. intros v' E. by apply (shaped_same W v). Qed.

Lemma MaybeEmit_tells W delta c v (i : nat) : Checker.GetNestingLevel c + delta = Z.of_nat i → shaped W v →
  tells v (if W i then [OnListItem] else []) (shaped (update W i false)) (MaybeEmitOnListItem delta c v).
Proof.
  intros Hi HW. unfold MaybeEmitOnListItem. destruct (SetWaitingForListItem_spec false delta c v i Hi) as (v1 & -> & Hc & Hw). run_bind.
  assert (shaped (update W i false) v1) as H1 by (intros j; unfold update; rewrite Hw; by destruct (decide _)).
  rewrite HW. destruct (W i); [|by exists v1]. pose proof (tells_shaped _ OnListItem v1 H1) as Hcall. unfold tells in *. by rewrite Hc in Hcall.
Qed.

(** ** One token *)

#[local] Abbreviation level_of a := (length (a : list TFrame)).

Lemma checker_level f (a : list TFrame) : Checker.GetNestingLevel (checker L (f :: a)) = Z.of_nat (length a).
Proof. cbn. f_equal. lia. Qed.

Lemma emit_tells W delta c v (i : nat) ev : Checker.GetNestingLevel c + delta = Z.of_nat i → shaped W v →
  tells v ((if W i then [OnListItem] else []) ++ [ev]) (shaped (update W i false)) (v ← MaybeEmitOnListItem delta c v; call ev v).
Proof. intros Hi HW. eapply tells_bind; [by apply MaybeEmit_tells|]. intros v1. apply tells_shaped. Qed.

Lemma visit_item item c x : visit_token ConsumerVisitor (Item item) c x = '(v, _) ← VisitConsumer item c x; Ok v.
Proof. reflexivity. Qed.

Lemma scalar_tells W v item c (a : list TFrame) x : scalar_item v = Some item → shaped W x →
  tells x ((if W (length a) then [OnListItem] else []) ++ value_events v) (shaped (update W (length a) false))
    (visit_token ConsumerVisitor (Item item) (checker L ((c, PSeparator) :: a)) x).
Proof.
  intros Hv HW. rewrite visit_item. unfold VisitConsumer.
  assert (Checker.IsOnKey (checker L ((c, PSeparator) :: a)) = Ok false) as Hkey by (by destruct c).
  assert (∀ ev, tells x ((if W (length a) then [OnListItem] else []) ++ [ev]) (shaped (update W (length a) false))
    (v ← MaybeEmitOnListItem 0 (checker L ((c, PSeparator) :: a)) x; call ev v)) as Hemit.
  { intros ev. apply emit_tells; [|done]. rewrite checker_level. lia. }
  assert (∀ ev (r : Result visitor), r = (v ← MaybeEmitOnListItem 0 (checker L ((c, PSeparator) :: a)) x; call ev v) →
    tells x ((if W (length a) then [OnListItem] else []) ++ [ev]) (shaped (update W (length a) false)) ('(v, _) ← (v ← r; Ok (v, ())); Ok v)) as Hdone.
  { intros ev r ->. specialize (Hemit ev). by destruct (v ← MaybeEmitOnListItem 0 _ x; call ev v). }
  destruct v; simplify_eq/=; try by apply Hdone. rewrite Hkey. by apply Hdone.
Qed.
(** An item that makes one call, with no list item in front of it. *)
Lemma plain_tells W item ev c x : shaped W x → VisitConsumer item c x = (v ← call ev x; Ok (v, ())) →
  tells x [ev] (shaped W) (visit_token ConsumerVisitor (Item item) c x).
Proof.
  intros HW E. rewrite visit_item, E. pose proof (tells_shaped W ev x HW) as Ht. by destruct (call ev x).
Qed.

(** An opening bracket. *)
Lemma open_tells W opening ev f g (a : list TFrame) x : opening = BeginAttributes ∧ ev = OnBeginAttributes ∨ opening = BeginMap ∧ ev = OnBeginMap →
  shaped W x →
  tells x ((if W (length a) then [OnListItem] else []) ++ [ev]) (shaped (update W (length a) false))
    (visit_token ConsumerVisitor (Item (Simple opening)) (checker L (f :: g :: a)) x).
Proof.
  intros Ho HW. rewrite visit_item. pose proof (emit_tells W (-1) (checker L (f :: g :: a)) x (length a) ev) as He.
  rewrite checker_level in He. specialize (He ltac:(simpl; lia) HW).
  destruct Ho as [[-> ->]|[-> ->]]; unfold VisitConsumer; by destruct (v ← MaybeEmitOnListItem _ _ _; call _ v).
Qed.

Lemma open_list_tells W f g (a : list TFrame) x : shaped W x →
  tells x ((if W (length a) then [OnListItem] else []) ++ [OnBeginList]) (shaped (update (update W (length a) false) (S (length a)) true))
    (visit_token ConsumerVisitor (Item (Simple BeginList)) (checker L (f :: g :: a)) x).
Proof.
  intros HW. rewrite visit_item. unfold VisitConsumer. set (c := checker L (f :: g :: a)).
  assert (Checker.GetNestingLevel c = Z.of_nat (S (length a))) as Hlevel by (unfold c; by rewrite checker_level).
  set (Q := shaped (update (update W (length a) false) (S (length a)) true)).
  enough (tells x ((if W (length a) then [OnListItem] else []) ++ [OnBeginList]) Q
    (v ← MaybeEmitOnListItem (-1) c x; '(v, _) ← SetWaitingForListItem true 0 c v; call OnBeginList v)) as Hb
    by (by destruct (v ← MaybeEmitOnListItem _ _ _; _)).
  eapply tells_bind; [apply MaybeEmit_tells; [lia|done]|]. intros v1 H1.
  destruct (SetWaitingForListItem_spec true 0 c v1 (S (length a)) ltac:(lia)) as (v2 & -> & Hc & Hw). run_bind.
  unfold tells. rewrite <- Hc. apply tells_shaped. intros j. unfold update at 1. rewrite Hw. by destruct (decide _).
Qed.

Lemma close_list_tells W f (a : list TFrame) x : shaped W x →
  tells x [OnEndList] (shaped (update W (S (length a)) false)) (visit_token ConsumerVisitor (Item (Simple EndList)) (checker L (f :: a)) x).
Proof.
  intros HW. rewrite visit_item. unfold VisitConsumer. set (c := checker L (f :: a)).
  assert (Checker.GetNestingLevel c = Z.of_nat (length a)) as Hlevel by (unfold c; by rewrite checker_level).
  destruct (SetWaitingForListItem_spec false 1 c x (S (length a)) ltac:(lia)) as (v2 & -> & Hc & Hw). run_bind.
  assert (shaped (update W (S (length a)) false) v2) as H2 by (intros j; unfold update; rewrite Hw; by destruct (decide _)).
  pose proof (tells_shaped _ OnEndList v2 H2) as Ht. unfold tells in *. rewrite Hc in Ht. by destruct (call OnEndList v2).
Qed.

Lemma separator_tells W (a : list TFrame) x : shaped W x →
  tells x [] (shaped (update W (length a) true)) (visit_token ConsumerVisitor Separator (checker L ((CList, PValue) :: a)) x).
Proof.
  intros HW. pose proof (tells_set W true 0 (checker L ((CList, PValue) :: a)) x (length a)) as Ht. apply Ht; [|done]. rewrite checker_level. lia.
Qed.

Lemma tells_step token tokens a a1 x evs1 evs2 P Q : step L token a = Some a1 → tells x evs1 P (visit_token ConsumerVisitor token (checker L a1) x) →
  (∀ v, P v → tells v evs2 Q (visit_tokens ConsumerVisitor L tokens a1 v)) →
  tells x (evs1 ++ evs2) Q (visit_tokens ConsumerVisitor L (token :: tokens) a x).
Proof. intros E H1 H2. cbn [visit_tokens]. rewrite E. by eapply tells_bind. Qed.

Lemma tells_app t1 t2 a a1 x evs1 evs2 P Q : steps L t1 a = Some a1 → tells x evs1 P (visit_tokens ConsumerVisitor L t1 a x) →
  (∀ v, P v → tells v evs2 Q (visit_tokens ConsumerVisitor L t2 a1 v)) →
  tells x (evs1 ++ evs2) Q (visit_tokens ConsumerVisitor L (t1 ++ t2) a x).
Proof. intros E H1 H2. rewrite (visit_tokens_app _ _ _ _ _ _ _ E). by eapply tells_bind. Qed.
(** ** A node *)

Definition above (W : nat → bool) (i : nat) : Prop := ∀ j, (i < j)%nat → W j = false.
Definition lead (W : nat → bool) (i : nat) : list TYsonEvent := if W i then [OnListItem] else [].

#[local] Abbreviation visit := (visit_tokens ConsumerVisitor L).

Definition node_tells n t : Prop := ∀ W c (a : list TFrame) x,
  above W (length a) → shaped W x → fits_level L (length a) (node_levels n) →
  tells x (lead W (length a) ++ node_events n) (shaped (update W (length a) false)) (visit t ((c, PValue) :: a) x).
Definition value_tells v t : Prop := ∀ W c p (a : list TFrame) x,
  above W (length a) → shaped W x → expects p = true → fits_level L (length a) (value_levels v) →
  tells x (lead W (length a) ++ value_events v) (shaped (update W (length a) false)) (visit t ((c, p) :: a) x).
Definition list_tells items t : Prop := ∀ W (a : list TFrame) x,
  above W (length a) → W (length a) = true → shaped W x → fits_level L (length a) (list_levels items) →
  tells x (list_events items) (λ v, ∃ b, shaped (update W (length a) b) v) (visit t ((CList, PValue) :: a) x).
Definition map_tells items t : Prop := ∀ W c (a : list TFrame) x,
  above W (length a) → W (length a) = false → shaped W x → is_map c = true → fits_level L (length a) (map_levels items) →
  tells x (map_events items) (shaped W) (visit t ((c, PKey) :: a) x).

Lemma shaped_ext W W' v : (∀ j, W' j = W j) → shaped W v → shaped W' v.
Proof. intros HW Hs j. rewrite HW. apply Hs. Qed.

Lemma update_lt W i j b : (i < j)%nat → update W i b j = W j.
Proof. intros. unfold update. rewrite decide_False by lia. done. Qed.
Lemma update_eq W i b : update W i b i = b.
Proof. unfold update. by rewrite decide_True. Qed.
Lemma above_update W i b : above W i → above (update W i b) i.
Proof. intros Ha j Hj. rewrite update_lt by done. by apply Ha. Qed.
Lemma above_S W i : above W i → above W (S i).
Proof. intros Ha j Hj. apply Ha. lia. Qed.

Lemma above_update_S W i b : above W i → above (update W (S i) b) (S i).
Proof. intros Ha. by apply above_update, above_S. Qed.

(** A list between its brackets. *)
Lemma list_value_tells items t : ListTok items t → list_tells items t → value_tells (VList items) (Item (Simple BeginList) :: t ++ [Item (Simple EndList)]).
Proof.
  intros Hitems IH W c p a x Ha HW Hp Hf. rewrite value_levels_list in Hf. apply fits_S in Hf as [Hlt Hf].
  rewrite value_events_list. change (OnBeginList :: list_events items ++ [OnEndList]) with ([OnBeginList] ++ list_events items ++ [OnEndList]).
  rewrite (app_assoc (lead W _)). destruct (runs_complete L) as (_ & _ & RL & _).
  destruct (RL _ _ Hitems ((c, PSeparator) :: a) 0%nat ltac:(lia) Hf) as (q & Hr & Hq). set (W1 := update W (length a) false).
  eapply (tells_step _ _ _ ((CList, PValue) :: (c, PSeparator) :: a)).
  { by auto with yson. }
  { by apply open_list_tells. }
  intros v1 H1. eapply (tells_app t); [by eapply runs_steps| |].
  { apply (IH (update W1 (S (length a)) true) ((c, PSeparator) :: a)); [|by apply update_eq|exact H1|done]. by apply above_update_S, above_update. }
  intros v2 [b H2]. apply (tells_step _ [] _ ((c, PSeparator) :: a) v2 [OnEndList] [] (shaped (update W (length a) false))).
  { by destruct Hq as [-> | ->]. }
  { eapply tells_weaken; [|by apply close_list_tells]. intros v3. apply shaped_ext. intros j. unfold update, W1.
    cbn [length]. destruct (decide (j = S (length a))) as [->|]; [|done]. rewrite decide_False by lia. apply Ha. lia. }
  intros v3 H3. by apply tells_none.
Qed.

(** A map, or an attribute map, between its brackets. *)
Lemma map_body_tells c0 ending ev items t : (c0 = CMap ∧ ending = EndMap ∧ ev = OnEndMap ∨ c0 = CAttributes ∧ ending = EndAttributes ∧ ev = OnEndAttributes) →
  MapTok items t → map_tells items t → ∀ W f (a : list TFrame) x, above W (length a) → shaped W x → fits_level L (S (length a)) (map_levels items) →
  tells x (map_events items ++ [ev]) (shaped W) (visit (t ++ [Item (Simple ending)]) ((c0, PKey) :: f :: a) x).
Proof.
  intros Hc Hitems IH W f a x Ha HW Hf. destruct (runs_complete L) as (_ & _ & _ & RM).
  assert (is_map c0 = true) as Hmap by (by destruct Hc as [(-> & _)|(-> & _)]).
  destruct (RM _ _ Hitems c0 (f :: a) 0%nat ltac:(lia) Hmap Hf) as (q & Hr & Hq).
  eapply (tells_app t); [by eapply runs_steps| |].
  { apply (IH W c0 (f :: a)); try done; [by apply above_S|]. apply Ha. simpl. lia. }
  intros v2 H2. apply (tells_step _ [] _ (f :: a) v2 [ev] [] (shaped W)).
  - by destruct Hc as [(-> & -> & ->)|(-> & -> & ->)], Hq as [-> | ->].
  - destruct Hc as [(_ & -> & ->)|(_ & -> & ->)]; by apply plain_tells.
  - intros v3 H3. by apply tells_none.
Qed.
(** A node with its attributes. *)
Lemma attributed_tells attributes v ta t : MapTok attributes ta → map_tells attributes ta → value_tells v t →
  node_tells (Node (Some attributes) v) (Item (Simple BeginAttributes) :: ta ++ Item (Simple EndAttributes) :: t).
Proof.
  intros Hitems IHa IHv W c a x Ha HW Hf. rewrite node_levels_attributes in Hf. apply fits_max in Hf as [[Hlt Hfa]%fits_S Hfv].
  rewrite node_events_eq. set (W1 := update W (length a) false).
  change (attribute_events (Some attributes) ++ value_events v) with ([OnBeginAttributes] ++ (map_events attributes ++ [OnEndAttributes]) ++ value_events v).
  rewrite (app_assoc (lead W _)). eapply (tells_step _ _ _ ((CAttributes, PKey) :: (c, PAttributeless) :: a)).
  { by auto with yson. }
  { apply open_tells; [by left|done]. }
  intros v1 H1. change (Item (Simple EndAttributes) :: t) with ([Item (Simple EndAttributes)] ++ t). rewrite (app_assoc ta).
  assert (above W1 (length a)) as Ha1 by (by apply above_update).
  eapply (tells_app (ta ++ [Item (Simple EndAttributes)])).
  - eapply runs_steps. apply (map_brackets L CAttributes attributes); [by right|done|done].
  - apply (map_body_tells CAttributes EndAttributes OnEndAttributes attributes ta) with (W := W1); try done. by right.
  - intros v2 H2. pose proof (IHv W1 c PAttributeless a v2 Ha1 H2 eq_refl Hfv) as Hv. unfold lead, W1 in Hv. rewrite update_eq in Hv.
    eapply tells_weaken; [|exact Hv]. intros v3. apply shaped_ext. intros j. unfold W1, update. by destruct (decide _).
Qed.

Lemma map_value_tells items t : MapTok items t → map_tells items t → value_tells (VMap items) (Item (Simple BeginMap) :: t ++ [Item (Simple EndMap)]).
Proof.
  intros Hitems IH W c p a x Ha HW Hp Hf. rewrite value_levels_map in Hf. apply fits_S in Hf as [Hlt Hf].
  rewrite value_events_map. change (OnBeginMap :: map_events items ++ [OnEndMap]) with ([OnBeginMap] ++ map_events items ++ [OnEndMap]).
  rewrite (app_assoc (lead W _)). eapply (tells_step _ _ _ ((CMap, PKey) :: (c, PSeparator) :: a)).
  { by auto with yson. }
  { apply open_tells; [by right|done]. }
  intros v1 H1. eapply map_body_tells; try done; [by left|by apply above_update].
Qed.

(** One item of a map. *)
Lemma keyed_tells key n t W c (a : list TFrame) x : node_tells n t → above W (length a) → W (length a) = false → shaped W x → is_map c = true →
  fits_level L (length a) (node_levels n) →
  tells x (OnKeyedItem key :: node_events n) (shaped W) (visit (Item (ItemString key) :: Equality :: t) ((c, PKey) :: a) x).
Proof.
  intros IH Ha Hw HW Hc Hf. apply (tells_step _ _ _ ((c, PEquality) :: a) x [OnKeyedItem key] (node_events n) (shaped W)); [done| |].
  - apply plain_tells; [done|]. unfold VisitConsumer.
    assert (Checker.IsOnKey (checker L ((c, PEquality) :: a)) = Ok true) as -> by (by destruct c). done.
  - intros v1 H1. apply (tells_step _ _ _ ((c, PValue) :: a) v1 [] (node_events n) (shaped W)); [done|by apply tells_none|].
    intros v2 H2. pose proof (IH W c a v2 Ha H2 Hf) as Hn. unfold lead in Hn. rewrite Hw in Hn.
    eapply tells_weaken; [|exact Hn]. intros v3. apply shaped_ext. intros j. unfold update. destruct (decide _) as [->|]; done.
Qed.

(** One item of a list, whose [OnListItem] is due. *)
Lemma item_tells n t W (a : list TFrame) x : node_tells n t → above W (length a) → W (length a) = true → shaped W x →
  fits_level L (length a) (node_levels n) →
  tells x (OnListItem :: node_events n) (shaped (update W (length a) false)) (visit t ((CList, PValue) :: a) x).
Proof. intros IH Ha Hw HW Hf. pose proof (IH W CList a x Ha HW Hf) as Hn. unfold lead in Hn. by rewrite Hw in Hn. Qed.

Lemma all_tells : (∀ n t, NodeTok n t → node_tells n t) ∧ (∀ v t, ValueTok v t → value_tells v t) ∧
  (∀ items t, ListTok items t → list_tells items t) ∧ (∀ items t, MapTok items t → map_tells items t).
Proof.
  destruct (runs_complete L) as (RN & _). apply Tok_mutind.
  - intros v t _ IH W c a x Ha HW Hf. by apply IH.
  - intros attributes v ta t Hta IHa _ IHv. by apply attributed_tells.
  - intros v item Hv W c p a x Ha HW Hp _. rewrite <- (app_nil_r (lead _ _ ++ _)).
    eapply (tells_step _ _ _ ((c, PSeparator) :: a)); [|by apply scalar_tells|intros v1 H1; by apply tells_none].
    destruct v; simplify_eq/=; by destruct p.
  - apply list_value_tells.
  - apply map_value_tells.
  - intros W a x Ha Hw HW _. apply tells_none. exists true. revert HW. apply shaped_ext. intros j. unfold update. by destruct (decide _) as [->|].
  - intros n t _ IH W a x Ha Hw HW Hf. simpl in Hf. apply fits_max in Hf as [Hf _]. cbn [list_events]. rewrite app_nil_r.
    eapply tells_weaken; [|by apply item_tells]. intros v1 H1. by exists false.
  - intros n t items ts Hn IHn _ IHi W a x Ha Hw HW Hf. apply fits_max in Hf as [Hfn Hfi].
    cbn [list_events]. rewrite app_comm_cons. eapply tells_app; [eapply runs_steps, (RN _ _ Hn CList a 0%nat); [lia|done]|by apply item_tells|].
    intros v1 H1. apply (tells_step Separator ts _ ((CList, PValue) :: a) v1 []) with (P := shaped W); [done| |intros v2 H2; by apply IHi].
    eapply tells_weaken; [|by apply separator_tells]. intros v2. apply shaped_ext. intros j. unfold update. by destruct (decide _) as [->|].
  - intros W c a x Ha Hw HW _ _. by apply tells_none.
  - intros key n t _ IH W c a x Ha Hw HW Hc Hf. simpl in Hf. apply fits_max in Hf as [Hf _]. cbn [map_events]. rewrite app_nil_r. by apply keyed_tells.
  - intros key n t items ts Hn IHn _ IHi W c a x Ha Hw HW Hc Hf. apply fits_max in Hf as [Hfn Hfi].
    cbn [map_events]. rewrite app_comm_cons. change (Item (ItemString key) :: Equality :: t ++ ?z) with ((Item (ItemString key) :: Equality :: t) ++ z).
    eapply tells_app; [|by apply keyed_tells|].
    { apply (runs_steps L 0). split; [simpl; lia|]. exists ((c, PEquality) :: a). split; [done|]. split; [simpl; lia|].
      exists ((c, PValue) :: a). split; [done|]. apply (RN _ _ Hn); [lia|done]. }
    intros v1 H1. apply (tells_step Separator ts _ ((c, PKey) :: a) v1 []) with (P := shaped W); [by destruct c| |intros v2 H2; by apply IHi].
    assert (visit_token ConsumerVisitor Separator (checker L ((c, PKey) :: a)) v1 = Ok v1) as -> by (by destruct c). by apply tells_none.
Qed.
End Consumer.
