(* ===== verification/YsonCursor.v ===== *)
(** The cursor over a pull parser ([TYsonPullParserCursor], pull_parser.h, pull_parser-inl.h,
    pull_parser.cpp).

    A cursor holds the item it is positioned over. Operations work on the value that item
    starts and move to the item behind it; [ParseMap], [ParseList] and [ParseAttributes]
    call a function for each item of a collection. The relation [on] ties a cursor to the
    tokens in front of it, and each operation gets a lemma that says to which tokens it
    moves the cursor. *)

From S2P Require Import Prelude YsonStream YsonLexer YsonEvents YsonParser YsonGrammar YsonWriter SyntaxChecker PullParser PullTraversal.

Module Cursor.
(** [Parser_] is a pointer to a parser that nobody else uses meanwhile. *)
Record t := New_ { IsOnFragmentStart_ : bool; Current_ : TYsonItem; Parser_ : TYsonPullParser }.

Section Operations.
(** The conversion of the standard library that the lexer calls, and whether the build
    defines [NDEBUG]. *)
Context (fd : list byte → Result Z) (ndebug : bool).

(** [GetYsonType()] and [GetTotalReadSize()] of the parser are arguments. *)
Definition New (ysonType : EYsonType) (totalReadSize : nat) (parser : TYsonPullParser) : Result t :=
  let isOnFragmentStart := negb (bool_decide (ysonType = YsonNode)) && Nat.eqb totalReadSize 0 in
  '(parser, current) ← Next fd parser;
  Ok {| IsOnFragmentStart_ := isOnFragmentStart; Current_ := current; Parser_ := parser |}.

Definition GetType (cursor : t) : EYsonItemType := GetType (Current_ cursor).

(** [Current_ = Parser_->Next()]. *)
Definition take (cursor : t) (parser : TYsonPullParser) : Result t :=
  '(parser, current) ← Next fd parser;
  Ok {| IsOnFragmentStart_ := IsOnFragmentStart_ cursor; Current_ := current; Parser_ := parser |}.

Definition Next (cursor : t) : Result t :=
  if negb ndebug && IsOnFragmentStart_ cursor then Crash else take cursor (Parser_ cursor).

Definition SkipComplexValue (cursor : t) : Result t :=
  parser ← SkipComplexValueFrom fd (Current_ cursor) (Parser_ cursor); take cursor parser.

Definition TransferComplexValue {C} `{IYsonConsumer C} (cursor : t) (consumer : C) : Result (t * C) :=
  '(parser, consumer) ← TransferComplexValue fd (Current_ cursor) (Parser_ cursor) consumer;
  cursor ← take cursor parser; Ok (cursor, consumer).

Definition SkipAttributes (cursor : t) : Result t :=
  parser ← SkipAttributes fd (Current_ cursor) (Parser_ cursor); take cursor parser.

Definition TransferAttributes {C} `{IYsonConsumer C} (cursor : t) (consumer : C) : Result (t * C) :=
  '(parser, consumer) ← TransferAttributes fd (Current_ cursor) (Parser_ cursor) consumer;
  cursor ← take cursor parser; Ok (cursor, consumer).

Definition TryConsumeFragmentStart (cursor : t) : t * bool :=
  ({| IsOnFragmentStart_ := false; Current_ := Current_ cursor; Parser_ := Parser_ cursor |}, IsOnFragmentStart_ cursor).

Definition EnsureYsonToken (cursor : t) (expected : EYsonItemType) : Result () :=
  if bool_decide (expected = GetType cursor) then Ok () else Throw EUnexpectedItem.

(** [while (cursor->GetType() != endItemType) function(cursor)]. *)
Fixpoint parse_loop {V} (endItemType : EYsonItemType) (function : t → V → Result (t * V)) (fuel : nat) (cursor : t) (v : V)
    : Result (t * V) :=
  match fuel with
  | O => OutOfFuel
  | S fuel =>
      if bool_decide (GetType cursor = endItemType) then Ok (cursor, v)
      else '(cursor, v) ← function cursor v; parse_loop endItemType function fuel cursor v
  end.

(** A function that consumes its item reads at least a byte of what is left. *)
Definition loop_fuel (cursor : t) : nat := S (pull_fuel (Parser_ cursor)).

Definition ParseComposite {V} (beginItemType endItemType : EYsonItemType) (function : t → V → Result (t * V)) (cursor : t) (v : V)
    : Result (t * V) :=
  _ ← EnsureYsonToken cursor beginItemType;
  cursor ← Next cursor;
  '(cursor, v) ← parse_loop endItemType function (loop_fuel cursor) cursor v;
  cursor ← Next cursor;
  Ok (cursor, v).

Definition ParseMap {V} (function : t → V → Result (t * V)) := ParseComposite BeginMap EndMap function.
Definition ParseList {V} (function : t → V → Result (t * V)) := ParseComposite BeginList EndList function.
Definition ParseAttributes {V} (function : t → V → Result (t * V)) := ParseComposite BeginAttributes EndAttributes function.
End Operations.
End Cursor.

(** ** Token sequences *)

Lemma node_head n tt : NodeTok n tt → ∃ item rest, tt = Item item :: rest.
Proof. destruct 1 as [v t Hv|]; [destruct Hv|]; eauto. Qed.

Lemma list_count items body : ListTok items body → (length items <= length body)%nat.
Proof.
  induction 1 as [|n t Hn|n t items ts Hn _ IH] using ListTok_ind; simpl; [lia|..].
  - destruct (node_head _ _ Hn) as (item & rest & ->). simpl. lia.
  - rewrite length_app. simpl. lia.
Qed.

Lemma map_count items body : MapTok items body → (length items <= length body)%nat.
Proof. induction 1 as [| |key n t items ts Hn _ IH] using MapTok_ind; simpl; [lia..|]. rewrite length_app. simpl. lia. Qed.

(** Tokens that do not start with a separator. *)
Definition starts (tokens : list TToken) : Prop := match tokens with [] | Item _ :: _ => True | _ => False end.

Lemma list_starts items body tail : ListTok items body → starts tail → starts (body ++ tail).
Proof. destruct 1 as [|n t Hn|n t items ts Hn _]; [done|..]; intros _; by destruct (node_head _ _ Hn) as (item & rest & ->). Qed.

Lemma map_starts items body tail : MapTok items body → starts tail → starts (body ++ tail).
Proof. by destruct 1. Qed.

(** ** Where a cursor is *)

Section Position.
Context (fd : list byte → Result Z) (ndebug : bool) (Hfd : total_conversion fd) (L : nat) (HL : Z.of_nat L < 2 ^ 32).

#[local] Abbreviation at_frames l a := {| PLexer := l; SyntaxChecker_ := checker L a |}.
#[local] Abbreviation cursor := Cursor.t.

(** The tokens lead from the frames [a] to the end of a document. *)
Definition valid (tokens : list TToken) (a : list TFrame) : Prop :=
  Forall proper_token tokens ∧ wf a = true ∧ (length a = 1 ∨ length a <= L)%nat ∧
  ∃ a', steps L tokens a = Some a' ∧ accepting a' = true.

(** A parser with the tokens in front of it. *)
Definition before (tokens : list TToken) (a : list TFrame) (p : TYsonPullParser) : Prop :=
  ∃ l t, p = at_frames l a ∧ at_text l t ∧ TokText fd tokens t ∧ pull_inv L p.

(** A cursor over the first item of the tokens. *)
Fixpoint over (cur : cursor) (tokens : list TToken) (a : list TFrame) : Prop :=
  match tokens with
  | [] => Cursor.Current_ cur = Simple EndOfStream
  | Item item :: rest =>
      Cursor.Current_ cur = item ∧ ∃ a', step L (Item item) a = Some a' ∧ before rest a' (Cursor.Parser_ cur)
  | token :: rest => ∃ a', step L token a = Some a' ∧ over cur rest a'
  end.

Definition on (cur : cursor) (tokens : list TToken) (a : list TFrame) : Prop :=
  Cursor.IsOnFragmentStart_ cur = false ∧ valid tokens a ∧ over cur tokens a.

Lemma valid_simulates tokens a : valid tokens a → simulates L a (checker L a).
Proof. by intros (_ & ? & ? & _). Qed.

Lemma valid_step token tokens a : valid (token :: tokens) a → ∃ a', step L token a = Some a' ∧ valid tokens a'.
Proof.
  intros (Hp & Hwf & Hlen & a' & Hs & Ha). pose proof (Forall_inv Hp) as Htok. apply Forall_inv_tail in Hp. simpl in Hs.
  destruct (step L token a) as [a1|] eqn:E; [|done]. exists a1. split; [done|].
  destruct (step_checker L HL token a a1 (checker L a) Htok ltac:(done) E) as [_ (? & ? & _)]. split_and!; [done..|]. by exists a'.
Qed.

Lemma valid_app t1 tokens a a1 : valid (t1 ++ tokens) a → steps L t1 a = Some a1 → valid tokens a1.
Proof.
  revert a. induction t1 as [|token t1 IH]; intros a Hv E; simpl in E; [by simplify_eq|].
  destruct (valid_step _ _ _ Hv) as (a' & Ea & Hv'). rewrite Ea in E. by apply (IH a').
Qed.

(** [Next] of the parser puts the cursor over what is in front of the parser. *)
Lemma next_over tokens a p fuel : valid tokens a → before tokens a p → (stream_size (Stream (PLexer p)) < fuel)%nat →
  ∃ p' item, next_loop fd TYsonItemCreatingVisitor fuel p () = Ok (p', (), item) ∧
    ∀ b, over {| Cursor.IsOnFragmentStart_ := b; Cursor.Current_ := item; Cursor.Parser_ := p' |} tokens a.
Proof.
  revert a p fuel. induction tokens as [|token tokens IH]; intros a p fuel Hv (l & t & -> & Hat & Ht & Hp) Hf; pose proof (valid_simulates _ _ Hv) as Hsim.
  - destruct (next_loop_end fd Hfd L HL TYsonItemCreatingVisitor t (at_frames l a) () fuel Ht Hat Hp Hf) as (l' & _ & ->).
    destruct Hv as (_ & _ & _ & a' & Hs & Ha). simpl in Hs. injection Hs as ->.
    pose proof (OnFinish_accepting L a' (checker L a') Hsim) as Hfin. rewrite Ha in Hfin. cbn [SyntaxChecker_]. rewrite Hfin. run_bind.
    eexists _, _. by split.
  - pose proof (Forall_inv (proj1 Hv)) as Htok. destruct (valid_step _ _ _ Hv) as (a1 & Ea & Hv1).
    destruct (next_loop_text fd Hfd L HL TYsonItemCreatingVisitor token tokens t (at_frames l a) () fuel Ht Hat Hp Hf Htok)
      as (l' & t' & fuel' & Hl & Ht' & Hinv & ->). destruct (step_checker L HL _ _ _ _ Htok Hsim Ea) as [Ec _].
    cbn [SyntaxChecker_]. rewrite Ec. destruct (Hinv _ Ec) as [Hp1 Hsz]. run_bind. cbv zeta.
    assert (before tokens a1 (at_frames l' a1)) as Hb by (by exists l', t').
    destruct token as [item| |].
    + simpl. eexists _, _. split; [done|]. intros b. split; [done|]. by exists a1.
    + simpl. destruct (IH a1 (at_frames l' a1) fuel' Hv1 Hb ltac:(simpl; lia)) as (p' & item & E & Ho). eexists _, _. split; [exact E|]. intros b. by exists a1.
    + simpl. destruct (IH a1 (at_frames l' a1) fuel' Hv1 Hb ltac:(simpl; lia)) as (p' & item & E & Ho). eexists _, _. split; [exact E|]. intros b. by exists a1.
Qed.

Lemma take_on tokens a cur p : Cursor.IsOnFragmentStart_ cur = false → valid tokens a → before tokens a p →
  ∃ cur', Cursor.take fd cur p = Ok cur' ∧ on cur' tokens a.
Proof.
  intros Hs Hv Hb. destruct (next_over tokens a p (pull_fuel p) Hv Hb ltac:(unfold pull_fuel; lia)) as (p' & item & E & Ho).
  unfold Cursor.take, Next, NextImpl. rewrite E. run_bind. eexists. split; [done|]. by split_and!.
Qed.

(** [Next] of the cursor. *)
Lemma next_on item tokens a a1 cur : on cur (Item item :: tokens) a → step L (Item item) a = Some a1 →
  ∃ cur', Cursor.Next fd ndebug cur = Ok cur' ∧ on cur' tokens a1.
Proof.
  intros (Hs & Hv & _ & a' & E & Hb) E1. simplify_eq. unfold Cursor.Next. rewrite Hs, andb_false_r.
  apply take_on; [done| |done]. destruct (valid_step _ _ _ Hv) as (a1' & E2 & ?). by simplify_eq.
Qed.

(** Separators in front of the cursor's item are behind it already. *)
Lemma on_punct token tokens a a1 cur : is_punct token → on cur (token :: tokens) a → step L token a = Some a1 → on cur tokens a1.
Proof.
  intros Hp (Hs & Hv & Ho) E. destruct (valid_step _ _ _ Hv) as (a' & E' & Hv'). simplify_eq. split_and!; [done..|].
  destruct token; [done|..]; destruct Ho as (a' & E' & Ho); by simplify_eq.
Qed.

Lemma on_current item tokens a cur : on cur (Item item :: tokens) a → Cursor.Current_ cur = item.
Proof. by intros (_ & _ & ? & _). Qed.

(** ** Values *)

(** A traversal that starts at the cursor's item, with any visitor. *)
Lemma from_on {V R} (visitor : TVisitor V R) n tt tokens c (a : list TFrame) cur x : NodeTok n tt → on cur (tt ++ tokens) ((c, PValue) :: a) →
  fits_level L (length a) (node_levels n) →
  match visit_tokens visitor L tt ((c, PValue) :: a) x with
  | Ok x' => ∃ p, TraverseFrom fd visitor (Cursor.Current_ cur) false (Cursor.Parser_ cur) x = Ok (p, x') ∧
      ∃ cur', Cursor.take fd cur p = Ok cur' ∧ on cur' tokens ((c, PSeparator) :: a)
  | Throw e => TraverseFrom fd visitor (Cursor.Current_ cur) false (Cursor.Parser_ cur) x = Throw e
  | Crash => TraverseFrom fd visitor (Cursor.Current_ cur) false (Cursor.Parser_ cur) x = Crash
  | OutOfFuel => TraverseFrom fd visitor (Cursor.Current_ cur) false (Cursor.Parser_ cur) x = OutOfFuel
  end.
Proof.
  intros Hn Hon Hf. destruct (node_head _ _ Hn) as (item & rest & ->). pose proof Hon as (Hstart & Hv & Hcur & a2 & E2 & l & t & Hp & Hat & Ht & Hinv).
  destruct (steps_complete L) as (SN & _). pose proof (valid_app _ _ _ _ Hv (SN _ _ Hn c a Hf)) as Hv'.
  destruct (valid_step _ _ _ Hv) as (a2' & E2' & Hv2). assert (a2' = a2) as -> by congruence. rewrite Hcur.
  pose proof (from_lands fd Hfd L HL visitor n item rest tokens t (Cursor.Parser_ cur) x c a a2 Hn Ht) as H. rewrite Hp in H.
  specialize (H Hat ltac:(by rewrite <- Hp) E2 eq_refl (valid_simulates _ _ Hv2) Hf). rewrite <- Hp in H.
  set (r := visit_tokens visitor L _ _ x) in *. destruct r as [x'| | |]; [|exact H..].
  destruct H as (l' & t' & H1 & H2 & H3 & _ & ->). eexists. split; [done|]. apply take_on; [done..|]. by exists l', t'.
Qed.

Lemma visit_null tokens a : (∃ a', steps L tokens a = Some a') → visit_tokens TNullVisitor L tokens a () = Ok ().
Proof.
  revert a. induction tokens as [|token tokens IH]; intros a [a' E]; simpl in *; [done|].
  destruct (step L token a) as [a1|]; [|done]. destruct token; simpl; by apply IH; exists a'.
Qed.

Lemma skip_on n tt tokens c (a : list TFrame) cur : NodeTok n tt → on cur (tt ++ tokens) ((c, PValue) :: a) → fits_level L (length a) (node_levels n) →
  ∃ cur', Cursor.SkipComplexValue fd cur = Ok cur' ∧ on cur' tokens ((c, PSeparator) :: a).
Proof.
  intros Hn Hon Hf. pose proof (from_on TNullVisitor n tt tokens c a cur () Hn Hon Hf) as H.
  destruct (steps_complete L) as (SN & _). rewrite visit_null in H by (eexists; exact (SN _ _ Hn c a Hf)).
  destruct H as (p & E & cur' & Et & Ho). exists cur'. split; [|done]. unfold Cursor.SkipComplexValue, SkipComplexValueFrom. by rewrite E.
Qed.

(** Up to the closing bracket of attributes. *)
Lemma skip_attributes_on attributes ta tokens c (a : list TFrame) cur : MapTok attributes ta →
  on cur (Item (Simple BeginAttributes) :: ta ++ Item (Simple EndAttributes) :: tokens) ((c, PValue) :: a) →
  fits_level L (S (length a)) (map_levels attributes) →
  ∃ cur', Cursor.SkipAttributes fd cur = Ok cur' ∧ on cur' tokens ((c, PAttributeless) :: a).
Proof.
  intros Ha Hon Hf. pose proof Hon as (Hstart & Hv & Hcur & a2 & E2 & l & t & Hp & Hat & Ht & Hinv).
  destruct (valid_step _ _ _ Hv) as (a2' & E2' & Hv2). assert (a2' = a2) as -> by congruence. set (body := ta ++ [Item (Simple EndAttributes)]).
  assert (ta ++ Item (Simple EndAttributes) :: tokens = body ++ tokens) as Et by (unfold body; by rewrite <- app_assoc).
  assert (a2 = (CAttributes, PKey) :: (c, PAttributeless) :: a) as -> by (simpl in E2; by destruct (_ <? _)%nat; simplify_eq/=).
  pose proof (map_brackets L CAttributes attributes ta (c, PAttributeless) a ltac:(by right) Ha Hf) as Hruns. fold body in Hruns. rewrite Et in *.
  destruct tok_proper as (_ & _ & _ & PM). assert (Forall proper_token body) as Hproper by (apply Forall_app_2; [by eapply PM|by repeat constructor]).
  unfold Cursor.SkipAttributes, SkipAttributes. rewrite Hcur, Hp, bool_decide_eq_true_2 by done.
  change (TraverseFrom fd TNullVisitor (Simple BeginAttributes) true ?q ()) with ('(p, v) ← traverse fd TNullVisitor q (); Ok (p, v)).
  pose proof (traverse_closes fd Hfd L HL TNullVisitor body tokens t l () (CAttributes, PKey) ((c, PAttributeless) :: a) ((c, PAttributeless) :: a)) as H.
  rewrite visit_null in H by (eexists; by eapply runs_steps). destruct H as (l' & t' & H1 & H2 & H3 & _ & H5); try done.
  { unfold body. by destruct ta. } { rewrite Hp in Hinv. exact Hinv. } { by apply (valid_simulates (body ++ tokens)). } { simpl. lia. }
  match type of H5 with ?lhs = _ => change (traverse fd TNullVisitor _ ()) with lhs end. rewrite H5. run_bind. apply take_on; [done| |by exists l', t']. eapply valid_app; [exact Hv2|by eapply runs_steps].
Qed.

(** A call that gives [r], and when it returns leaves the cursor in front of the tokens. *)
Definition moves {A} (tokens : list TToken) (a : list TFrame) (r : Result A) (lhs : Result (cursor * A)) : Prop :=
  match r with
  | Ok v => ∃ cur, lhs = Ok (cur, v) ∧ on cur tokens a
  | Throw e => lhs = Throw e
  | Crash => lhs = Crash
  | OutOfFuel => lhs = OutOfFuel
  end.

Lemma moves_bind {A A'} tokens1 a1 tokens a (r : Result A) lhs (f : A → Result A') (g : cursor * A → Result (cursor * A')) :
  moves tokens1 a1 r lhs → (∀ cur v, on cur tokens1 a1 → moves tokens a (f v) (g (cur, v))) → moves tokens a (r ≫= f) (lhs ≫= g).
Proof. intros H Hk. destruct r as [v| | |]; simpl in *; [|by rewrite H..]. destruct H as (cur & -> & Hon). run_bind. by apply Hk. Qed.

Lemma transfer_on {C} `{IYsonConsumer C} n tt tokens c (a : list TFrame) cur (consumer : C) : NodeTok n tt → on cur (tt ++ tokens) ((c, PValue) :: a) →
  fits_level L (length a) (node_levels n) →
  moves tokens ((c, PSeparator) :: a) (deliver (node_events n) consumer) (Cursor.TransferComplexValue fd cur consumer).
Proof.
  intros Hn Hon Hf. set (x := {| VConsumer := consumer; WaitingForListItem_ := [] |}).
  pose proof (from_on ConsumerVisitor n tt tokens c a cur x Hn Hon Hf) as Hfrom.
  destruct (all_tells (C := C) L) as (HN & _).
  assert (shaped (λ _, false) x) as Hx by (intros j; done).
  pose proof (HN n tt Hn (λ _, false) c a x ltac:(done) Hx Hf) as Ht. unfold lead in Ht. cbn [app] in Ht. unfold tells in Ht. cbn [VConsumer x] in Ht.
  unfold Cursor.TransferComplexValue, TransferComplexValue. fold x. destruct (deliver (node_events n) consumer) as [consumer'| | |]; simpl.
  2-4: rewrite Ht in Hfrom; by rewrite Hfrom.
  destruct Ht as (v & _ & Hc & E). rewrite E in Hfrom. destruct Hfrom as (p & -> & cur' & Et & Ho). run_bind. rewrite Et. run_bind.
  rewrite Hc. by exists cur'.
Qed.

(** ** Collections *)

Section Loop.
Context {V : Type} (function : cursor → V → Result (cursor * V)).

(** The function consumes the node in front of the cursor. *)
Definition consumes (n : TNode) (g : V → Result V) : Prop := ∀ tt tokens c (a : list TFrame) cur v,
  NodeTok n tt → on cur (tt ++ tokens) ((c, PValue) :: a) → fits_level L (length a) (node_levels n) →
  moves tokens ((c, PSeparator) :: a) (g v) (function cur v).

(** The function consumes the key in front of the cursor and its value. *)
Definition consumes_keyed (key : list byte) (n : TNode) (g : V → Result V) : Prop := ∀ tt tokens c (a : list TFrame) cur v,
  NodeTok n tt → is_map c = true → on cur (Item (ItemString key) :: Equality :: tt ++ tokens) ((c, PKey) :: a) →
  fits_level L (length a) (node_levels n) →
  moves tokens ((c, PSeparator) :: a) (g v) (function cur v).

Fixpoint over_items {I} (g : I → V → Result V) (items : list I) (v : V) : Result V :=
  match items with [] => Ok v | i :: items => v ← g i v; over_items g items v end.

Definition is_end (type : EYsonItemType) : bool :=
  match type with EndList | EndMap | EndAttributes | EndOfStream => true | _ => false end.

Lemma node_head_type n tt : NodeTok n tt → ∃ item rest, tt = Item item :: rest ∧ is_end (GetType item) = false.
Proof.
  destruct 1 as [v t Hv|attributes v ta t _ _]; [destruct Hv as [v item E| |]|]; eexists _, _; (split; [done|]); try done.
  by destruct v; simplify_eq/=.
Qed.

Context (endItemType : EYsonItemType) (Hend : is_end endItemType = true).
Context (c : TContext) (a : list TFrame) (tail : list TToken).
Context (Htail : ∀ cur p, on cur tail ((c, p) :: a) → Cursor.GetType cur = endItemType).

(** What the loop ends with. *)
Definition ends (r : Result V) (lhs : Result (cursor * V)) : Prop := ∃ p, moves tail ((c, p) :: a) r lhs.

Lemma loop_end p cur v fuel : on cur tail ((c, p) :: a) → ends (Ok v) (Cursor.parse_loop endItemType function (S fuel) cur v).
Proof. intros Hon. exists p. exists cur. split; [|done]. simpl. by rewrite (Htail _ _ Hon), bool_decide_eq_true_2. Qed.

Lemma loop_turn item rest p cur v fuel : on cur (Item item :: rest) ((c, p) :: a) → is_end (GetType item) = false →
  Cursor.parse_loop endItemType function (S fuel) cur v =
    '(cur, v) ← function cur v; Cursor.parse_loop endItemType function fuel cur v.
Proof.
  intros Hon Hi. simpl. unfold Cursor.GetType. rewrite (on_current _ _ _ _ Hon), bool_decide_eq_false_2; [done|]. intros E. congruence.
Qed.

Lemma ends_bind tokens p (r : Result V) lhs g k : moves tokens ((c, p) :: a) r lhs → (∀ cur v, on cur tokens ((c, p) :: a) → ends (g v) (k (cur, v))) →
  ends (r ≫= g) (lhs ≫= k).
Proof.
  intros H Hk. destruct r as [v| | |]; simpl in H.
  2-4: exists p; by rewrite H. destruct H as (cur & -> & Hon). by apply Hk.
Qed.

Lemma loop_list (g : TNode → V → Result V) items body cur v fuel : (∀ n, consumes n (g n)) → c = CList ∨ c = CListFragment → ListTok items body →
  on cur (body ++ tail) ((c, PValue) :: a) → fits_level L (length a) (list_levels items) → (length items < fuel)%nat →
  ends (over_items g items v) (Cursor.parse_loop endItemType function fuel cur v).
Proof.
  intros Hg Hc Hbody. revert cur v fuel. induction Hbody as [|n t Hn|n t items ts Hn Hts IH] using ListTok_ind; intros cur v fuel Hon Hf Hfuel;
    (destruct fuel as [|fuel]; [simpl in Hfuel; lia|]).
  - by eapply loop_end.
  - simpl in Hf. apply fits_max in Hf as [Hf _]. destruct (node_head_type _ _ Hn) as (item & rest & -> & Hi).
    rewrite (loop_turn item (rest ++ tail) PValue) by done. simpl over_items. destruct fuel as [|fuel]; [simpl in Hfuel; lia|].
    eapply ends_bind; [by apply (Hg n _ tail c a cur v Hn)|]. intros cur1 v1 H1. by eapply loop_end.
  - simpl in Hf. apply fits_max in Hf as [Hfn Hfi]. destruct (node_head_type _ _ Hn) as (item & rest & Et & Hi).
    rewrite <- app_assoc in Hon. rewrite (loop_turn item (rest ++ Separator :: ts ++ tail) PValue) by (by subst t). simpl over_items.
    eapply ends_bind; [by apply (Hg n _ (Separator :: ts ++ tail) c a cur v Hn)|]. intros cur1 v1 H1.
    apply IH; [|done|simpl in Hfuel; lia]. apply (on_punct Separator _ ((c, PSeparator) :: a)); [done|done|]. by destruct Hc as [-> | ->].
Qed.

Lemma loop_map (g : list byte * TNode → V → Result V) items body cur v fuel : (∀ key n, consumes_keyed key n (g (key, n))) → is_map c = true → MapTok items body →
  on cur (body ++ tail) ((c, PKey) :: a) → fits_level L (length a) (map_levels items) → (length items < fuel)%nat →
  ends (over_items g items v) (Cursor.parse_loop endItemType function fuel cur v).
Proof.
  intros Hg Hc Hbody. revert cur v fuel. induction Hbody as [|key n t Hn|key n t items ts Hn Hts IH] using MapTok_ind; intros cur v fuel Hon Hf Hfuel;
    (destruct fuel as [|fuel]; [simpl in Hfuel; lia|]).
  - by eapply loop_end.
  - simpl in Hf. apply fits_max in Hf as [Hf _].
    rewrite (loop_turn (ItemString key) (Equality :: t ++ tail) PKey) by done. simpl over_items. destruct fuel as [|fuel]; [simpl in Hfuel; lia|].
    eapply ends_bind; [by apply (Hg key n t tail c a cur v Hn)|]. intros cur1 v1 H1. by eapply loop_end.
  - simpl in Hf. apply fits_max in Hf as [Hfn Hfi].
    change ((Item (ItemString key) :: Equality :: t ++ Separator :: ts) ++ tail) with (Item (ItemString key) :: Equality :: (t ++ Separator :: ts) ++ tail) in Hon.
    rewrite <- app_assoc in Hon. rewrite (loop_turn (ItemString key) (Equality :: t ++ Separator :: ts ++ tail) PKey) by done. simpl over_items.
    eapply ends_bind; [by apply (Hg key n t (Separator :: ts ++ tail) c a cur v Hn)|]. intros cur1 v1 H1.
    apply IH; [|done|simpl in Hfuel; lia]. apply (on_punct Separator _ ((c, PSeparator) :: a)); [done|done|]. by destruct c.
Qed.
End Loop.

(** ** Fuel *)

Lemma TokText_length tokens t : TokText fd tokens t → (length tokens <= length t)%nat.
Proof.
  induction 1 as [ws|ws token c tokens t _ _ _ IH|ws v item s tokens t _ _ Hs _ IH _]; simpl; [lia|..].
  - rewrite length_app. simpl. lia.
  - destruct (ScalarText_start _ _ _ _ Hs) as (ch & s' & -> & _). rewrite !length_app. simpl. lia.
Qed.

Lemma before_length tokens a p : before tokens a p → (length tokens <= stream_size (Stream (PLexer p)))%nat.
Proof.
  intros (l & t & -> & Hat & Ht & _). apply TokText_length in Ht. destruct Hat as [_ <-]. pose proof (length_text (Stream l)). simpl. lia.
Qed.

Lemma on_length cur tokens a : on cur tokens a → starts tokens → (length tokens < Cursor.loop_fuel cur)%nat.
Proof.
  intros (_ & _ & Ho) Hs. unfold Cursor.loop_fuel, pull_fuel. destruct tokens as [|[item| |] rest]; [simpl; lia| |done..].
  destruct Ho as (_ & a' & _ & Hb). apply before_length in Hb. simpl. lia.
Qed.

(** ** A list or a map, from its bracket on *)

Lemma end_moves {A} item tokens c p (a : list TFrame) (r : Result A) lhs : step L (Item item) ((c, p) :: a) = Some a →
  moves (Item item :: tokens) ((c, p) :: a) r lhs → moves tokens a r ('(cur, v) ← lhs; cur ← Cursor.Next fd ndebug cur; Ok (cur, v)).
Proof.
  intros E. destruct r as [v| | |]; simpl; [|by intros ->..]. intros (cur & -> & Hon). run_bind.
  destruct (next_on item tokens _ a cur Hon E) as (cur' & -> & Hon'). run_bind. by exists cur'.
Qed.

Lemma ends_step {V} item tokens c (a : list TFrame) (r : Result V) lhs :
  (∀ p cur, on cur (Item item :: tokens) ((c, p) :: a) → step L (Item item) ((c, p) :: a) = Some a) →
  ends c a (Item item :: tokens) r lhs → moves tokens a r ('(cur, v) ← lhs; cur ← Cursor.Next fd ndebug cur; Ok (cur, v)).
Proof.
  intros Hstep [p H]. destruct r as [v| | |]; simpl in *; [|by rewrite H..]. pose proof H as (cur & E & Hon).
  exact (end_moves item tokens c p a (Ok v) lhs (Hstep p cur Hon) H).
Qed.

Lemma closing_step c p (a : list TFrame) tokens cur : on cur (Item (Simple (closing c)) :: tokens) ((c, p) :: a) → c = CList ∨ c = CMap ∨ c = CAttributes →
  step L (Item (Simple (closing c))) ((c, p) :: a) = Some a.
Proof. intros (_ & _ & _ & a' & E & _) [-> | [-> | ->]]; destruct p; done. Qed.

Lemma tail_end c (a : list TFrame) tokens cur p : on cur (Item (Simple (closing c)) :: tokens) ((c, p) :: a) → Cursor.GetType cur = closing c.
Proof. intros Hon. unfold Cursor.GetType. by rewrite (on_current _ _ _ _ Hon). Qed.

Lemma closing_is_end c : is_end (closing c) = true.
Proof. by destruct c. Qed.

Lemma parse_list_on {V} (function : cursor → V → Result (cursor * V)) (g : TNode → V → Result V) items body tokens c p (a : list TFrame) cur v :
  (∀ n, consumes function n (g n)) → ListTok items body → expects p = true →
  on cur (Item (Simple BeginList) :: body ++ Item (Simple EndList) :: tokens) ((c, p) :: a) → fits_level L (length a) (value_levels (VList items)) →
  moves tokens ((c, PSeparator) :: a) (over_items g items v) (Cursor.ParseList fd ndebug function cur v).
Proof.
  intros Hg Hbody Hp Hon Hf. rewrite value_levels_list in Hf. apply fits_S in Hf as [Hlt Hf].
  unfold Cursor.ParseList, Cursor.ParseComposite, Cursor.EnsureYsonToken, Cursor.GetType. rewrite (on_current _ _ _ _ Hon), bool_decide_eq_true_2 by done. run_bind.
  destruct (next_on _ _ _ ((CList, PValue) :: (c, PSeparator) :: a) cur Hon) as (cur1 & -> & Hon1).
  { by auto with yson. }
  run_bind. apply (ends_step (Simple EndList) tokens CList); [intros q cur2 H2; by apply (closing_step CList q _ tokens cur2); [|left]|].
  apply loop_list with (body := body); try done; [intros; by eapply (tail_end CList)|by left|].
  pose proof (on_length _ _ _ Hon1 (list_starts _ _ (Item (Simple EndList) :: tokens) Hbody I)) as Hlen. rewrite length_app in Hlen. apply list_count in Hbody. lia.
Qed.

Lemma parse_map_on {V} (function : cursor → V → Result (cursor * V)) (g : list byte * TNode → V → Result V) items body tokens c p (a : list TFrame) cur v :
  (∀ key n, consumes_keyed function key n (g (key, n))) → MapTok items body → expects p = true →
  on cur (Item (Simple BeginMap) :: body ++ Item (Simple EndMap) :: tokens) ((c, p) :: a) → fits_level L (length a) (value_levels (VMap items)) →
  moves tokens ((c, PSeparator) :: a) (over_items g items v) (Cursor.ParseMap fd ndebug function cur v).
Proof.
  intros Hg Hbody Hp Hon Hf. rewrite value_levels_map in Hf. apply fits_S in Hf as [Hlt Hf].
  unfold Cursor.ParseMap, Cursor.ParseComposite, Cursor.EnsureYsonToken, Cursor.GetType. rewrite (on_current _ _ _ _ Hon), bool_decide_eq_true_2 by done. run_bind.
  destruct (next_on _ _ _ ((CMap, PKey) :: (c, PSeparator) :: a) cur Hon) as (cur1 & -> & Hon1).
  { by auto with yson. }
  run_bind. apply (ends_step (Simple EndMap) tokens CMap); [intros q cur2 H2; by apply (closing_step CMap q _ tokens cur2); [|right; left]|].
  apply loop_map with (body := body); try done; [intros; by eapply (tail_end CMap)|].
  pose proof (on_length _ _ _ Hon1 (map_starts _ _ (Item (Simple EndMap) :: tokens) Hbody I)) as Hlen. rewrite length_app in Hlen. apply map_count in Hbody. lia.
Qed.

(** ** The start *)

Lemma new_on mode tokens p size : valid tokens (initial mode) → before tokens (initial mode) p →
  ∃ cur, Cursor.New fd mode size p = Ok cur ∧ on (fst (Cursor.TryConsumeFragmentStart cur)) tokens (initial mode) ∧
    Cursor.IsOnFragmentStart_ cur = negb (bool_decide (mode = YsonNode)) && Nat.eqb size 0.
Proof.
  intros Hv Hb. destruct (next_over tokens _ p (pull_fuel p) Hv Hb ltac:(unfold pull_fuel; lia)) as (p' & item & E & Ho).
  unfold Cursor.New, Next, NextImpl. rewrite E. run_bind. eexists. split; [done|]. split; [|done]. split_and!; [done..|]. apply Ho.
Qed.
End Position.

Lemma consume_false cur : Cursor.IsOnFragmentStart_ cur = false → fst (Cursor.TryConsumeFragmentStart cur) = cur.
Proof. by destruct cur; simpl; intros ->. Qed.

(** ** Texts *)

Lemma ModeTok_valid mode evs levels tokens (limit : nat) : Z.of_nat limit < 2 ^ 32 → ModeTok mode evs levels tokens → fits_level limit 0 levels →
  valid limit tokens (initial mode).
Proof.
  intros HL Hm Hf. split; [by eapply ModeTok_proper|]. destruct (New_simulates mode limit HL) as (? & ? & _). split_and!; [done..|].
  destruct (steps_complete limit) as (SN & _ & SL & SM). destruct Hm as [n t Hn|items t Hi|items t Hi]; simpl initial.
  - eexists. split; [exact (SN _ _ Hn CNode [] Hf)|done].
  - destruct (SL _ _ Hi CListFragment [] ltac:(by right) Hf) as (p & E & Hp). eexists. split; [exact E|]. by destruct Hp as [-> | ->].
  - destruct (SM _ _ Hi CMapFragment [] eq_refl Hf) as (p & E & Hp). eexists. split; [exact E|]. by destruct Hp as [-> | ->].
Qed.

(** A new parser in front of a text. *)
Lemma new_before fd mode (L : nat) tokens t : Z.of_nat L < 2 ^ 32 → TokText fd tokens t →
  before fd L tokens (initial mode) (NewPullParser (TZeroCopyInputStreamReader [t]) mode (Z.of_nat L)).
Proof.
  intros HL Ht. exists (NewLexer (TZeroCopyInputStreamReader [t])), t. destruct (New_simulates mode L HL) as (_ & _ & E).
  split_and!; [|split; [done|]|done|by apply NewPullParser_inv].
  - unfold NewPullParser. by rewrite E.
  - unfold text_of. simpl. by rewrite app_nil_r.
Qed.

Lemma new_parser_before fd mode evs depth t s (limit : nat) : Z.of_nat limit < 2 ^ 32 → ModeText fd DefaultMemoryLimit mode evs depth t → at_stream s t →
  (depth < limit)%nat →
  ∃ tokens levels, ModeTok mode evs levels tokens ∧ fits_level limit 0 levels ∧ valid limit tokens (initial mode) ∧
    before fd limit tokens (initial mode) (NewPullParser s mode (Z.of_nat limit)).
Proof.
  intros HL Ht Hs Hd. destruct (ModeText_tokens fd mode evs depth t Ht) as (tokens & levels & Hm & Hle & Htok).
  assert (fits_level limit 0 levels) as Hf by (right; lia). exists tokens, levels. split_and!; [done..|by eapply ModeTok_valid|].
  exists (NewLexer s), t. split_and!; [|exact Hs|done|by apply NewPullParser_inv; [apply Hs|]].
  destruct (New_simulates mode limit HL) as (_ & _ & E). unfold NewPullParser. by rewrite E.
Qed.

(** ** Theorems *)

(** C7. A cursor gives a consumer the same calls as the push parser: positioned over a document
    of any text the grammar allows, nested less deep than the limit and cut into blocks in
    any way, [TransferComplexValue] makes exactly the calls that describe the document, in
    order (an exception of the consumer ends it at that call), and leaves the cursor at
    the end of the stream. *)
Theorem TransferComplexValue_correct {C} `{IYsonConsumer C} (fd : list byte → Result Z) (evs : list TYsonEvent) (depth limit : nat)
    (t : list byte) (s : TStream) (consumer : C) (Hfd : total_conversion fd)
    (Ht : ModeText fd DefaultMemoryLimit YsonNode evs depth t) (Hs : at_stream s t)
    (Hdepth : (depth < limit)%nat) (Hlimit : Z.of_nat limit < 2 ^ 31) :
  ('(cursor, consumer) ← (cursor ← Cursor.New fd YsonNode 0 (NewPullParser s YsonNode (Z.of_nat limit));
                          Cursor.TransferComplexValue fd cursor consumer);
   Ok (Cursor.GetType cursor, consumer)) =
  (consumer ← deliver evs consumer; Ok (EndOfStream, consumer)).
Proof.
  assert (Z.of_nat limit < 2 ^ 32) as HL by lia.
  destruct (new_parser_before fd YsonNode evs depth t s limit HL Ht Hs Hdepth) as (tokens & levels & Hm & Hf & Hv & Hb).
  destruct (new_on fd Hfd limit HL YsonNode tokens _ 0 Hv Hb) as (cur & -> & Hon & Hstart). run_bind. simpl in Hstart.
  rewrite consume_false in Hon by done.
  inversion Hm as [n t' Hn| |]; subst. rewrite <- (app_nil_r tokens) in Hon.
  pose proof (transfer_on fd Hfd limit HL n tokens [] CNode [] cur consumer Hn Hon Hf) as H0.
  destruct (deliver (node_events n) consumer) as [consumer'| | |]; simpl in H0; [|by rewrite H0..].
  destruct H0 as (cur' & -> & _ & _ & Ho). run_bind. unfold Cursor.GetType. by rewrite Ho.
Qed.

Lemma TransferComplexValue_correct_witness :
  ModeText (λ _, Ok 0) DefaultMemoryLimit YsonNode (node_events (Node None (VList [Node None VEntity; Node None (VBoolean true)]))) 2 (B" [#; %true]") ∧
  ('(cursor, calls) ← (cursor ← Cursor.New (λ _, Ok 0) YsonNode 0 (NewPullParser (TZeroCopyInputStreamReader [B" [#"; B"; %tr"; B"ue]"]) YsonNode 3);
                       Cursor.TransferComplexValue (λ _, Ok 0) cursor ([] : TRecorder));
   Ok (Cursor.GetType cursor, calls)) =
  Ok (EndOfStream, [OnBeginList; OnListItem; OnEntity; OnListItem; OnBooleanScalar true; OnEndList]).
Proof.
  assert (ModeText (λ _, Ok 0) DefaultMemoryLimit YsonNode
    (node_events (Node None (VList [Node None VEntity; Node None (VBoolean true)]))) 2 (B" [#; %true]")) as Ht.
  { apply (NodeMode _ _ (B" ") (Node None (VList [Node None VEntity; Node None (VBoolean true)])) (B"[#; %true]") []);
      [by constructor| |constructor].
    apply PlainNode, (ListValue _ _ _ (B"#; %true")).
    apply (ListItem _ _ [] _ (B"#") [] _ (B" %true")); [constructor| |constructor|].
    - apply PlainNode, ScalarValue, TextEntity.
    - apply (ListLast _ _ (B" ") _ (B"%true") []); [by constructor| |constructor].
      apply PlainNode, ScalarValue, (TextBoolean _ _ true). by vm_compute. }
  split; [exact Ht|].
  exact (TransferComplexValue_correct (C := TRecorder) (λ _, Ok 0) _ 2 3 _ (TZeroCopyInputStreamReader [B" [#"; B"; %tr"; B"ue]"]) []
    ltac:(done) Ht ltac:(by vm_compute) ltac:(lia) ltac:(lia)).
Defined.
