(* ===== verification/TokenWriter.v ===== *)
(** The checked token writer ([TCheckedYsonTokenWriter], token_writer.h, token_writer.cpp), and
    transfer of values from a cursor to a token writer ([ConvertToYsonStringNestingLimited],
    ytree/convert.cpp).

    The writer tells a syntax checker about every token before it writes it. Calls are a
    data type here, so that a client is a list of calls. *)

From S2P Require Import Prelude Coding IntCast Escape YsonStream YsonLexer YsonEvents YsonParser YsonGrammar YsonWriter SyntaxChecker PullParser PullTraversal YsonCursor.

(** [std::isspace] in the C locale. *)
Definition isspace (c : byte) : bool := IsSpace c.

Module CheckedWriter.
Record t := { Checker_ : Checker.t; UncheckedWriter_ : list byte }.

Definition New (type : EYsonType) (nestingLevelLimit : Z) : t :=
  {| Checker_ := Checker.New type nestingLevelLimit; UncheckedWriter_ := [] |}.

Section Methods.
(** [IsChecked] tells [TCheckedYsonTokenWriter] from [TUncheckedYsonTokenWriter], which has the
    same methods and no checker; [TCheckedInDebugYsonTokenWriter] is the one or the other. *)
Context (FloatToString : Z → list byte) (IsChecked ndebug : bool).

(** A call on the checker, then one on the unchecked writer. *)
Definition checked (check : Checker.t → Result Checker.t) (write : list byte → Result (list byte)) (w : t) : Result t :=
  c ← (if IsChecked then check (Checker_ w) else Ok (Checker_ w)); out ← write (UncheckedWriter_ w); Ok {| Checker_ := c; UncheckedWriter_ := out |}.

Definition WriteTextBoolean (value : bool) := checked Checker.OnSimpleNonstring (λ out, Ok (WriteTextBoolean value out)).
Definition WriteBinaryBoolean (value : bool) := checked Checker.OnSimpleNonstring (λ out, Ok (WriteBinaryBoolean value out)).
Definition WriteTextInt64 (value : Z) := checked Checker.OnSimpleNonstring (WriteTextInt64 value).
Definition WriteBinaryInt64 (value : Z) := checked Checker.OnSimpleNonstring (λ out, Ok (WriteBinaryInt64 value out)).
Definition WriteTextUint64 (value : Z) := checked Checker.OnSimpleNonstring (WriteTextUint64 value).
Definition WriteBinaryUint64 (value : Z) := checked Checker.OnSimpleNonstring (λ out, Ok (WriteBinaryUint64 value out)).
Definition WriteTextDouble (value : Z) := checked Checker.OnSimpleNonstring (WriteTextDouble FloatToString value).
Definition WriteBinaryDouble (value : Z) := checked Checker.OnSimpleNonstring (λ out, Ok (WriteBinaryDouble value out)).
Definition WriteTextString (value : list byte) := checked Checker.OnString (λ out, Ok (WriteTextString value out)).
Definition WriteBinaryString (value : list byte) := checked Checker.OnString (λ out, Ok (WriteBinaryString value out)).
Definition WriteEntity := checked Checker.OnSimpleNonstring (λ out, Ok (WriteSymbol EntitySymbol out)).
Definition WriteBeginMap := checked Checker.OnBeginMap (λ out, Ok (WriteSymbol BeginMapSymbol out)).
Definition WriteEndMap := checked Checker.OnEndMap (λ out, Ok (WriteSymbol EndMapSymbol out)).
Definition WriteBeginAttributes := checked Checker.OnAttributesBegin (λ out, Ok (WriteSymbol BeginAttributesSymbol out)).
Definition WriteEndAttributes := checked Checker.OnAttributesEnd (λ out, Ok (WriteSymbol EndAttributesSymbol out)).
Definition WriteBeginList := checked Checker.OnBeginList (λ out, Ok (WriteSymbol BeginListSymbol out)).
Definition WriteEndList := checked Checker.OnEndList (λ out, Ok (WriteSymbol EndListSymbol out)).
Definition WriteItemSeparator := checked Checker.OnSeparator (λ out, Ok (WriteSymbol ItemSeparatorSymbol out)).
Definition WriteKeyValueSeparator := checked Checker.OnEquality (λ out, Ok (WriteSymbol KeyValueSeparatorSymbol out)).

(** [YT_ASSERT] is checked in debug builds. *)
Definition WriteSpace (value : byte) :=
  checked Ok (λ out, if negb ndebug && negb (isspace value) then Crash else Ok (WriteSymbol value out)).

Definition WriteRawNodeUnchecked (value : list byte) := checked Checker.OnSimpleNonstring (λ out, Ok (out ++ value)).

Definition Finish := checked Checker.OnFinish Ok.

(** The calls of a client. *)
Inductive TCall :=
| TextBoolean (value : bool) | BinaryBoolean (value : bool)
| TextInt64 (value : Z) | BinaryInt64 (value : Z)
| TextUint64 (value : Z) | BinaryUint64 (value : Z)
| TextDouble (value : Z) | BinaryDouble (value : Z)
| TextString (value : list byte) | BinaryString (value : list byte)
| Entity | BeginMap_ | EndMap_ | BeginAttributes_ | EndAttributes_ | BeginList_ | EndList_
| ItemSeparator | KeyValueSeparator | Space (value : byte).

Definition Call (call : TCall) : t → Result t :=
  match call with
  | TextBoolean value => WriteTextBoolean value
  | BinaryBoolean value => WriteBinaryBoolean value
  | TextInt64 value => WriteTextInt64 value
  | BinaryInt64 value => WriteBinaryInt64 value
  | TextUint64 value => WriteTextUint64 value
  | BinaryUint64 value => WriteBinaryUint64 value
  | TextDouble value => WriteTextDouble value
  | BinaryDouble value => WriteBinaryDouble value
  | TextString value => WriteTextString value
  | BinaryString value => WriteBinaryString value
  | Entity => WriteEntity
  | BeginMap_ => WriteBeginMap
  | EndMap_ => WriteEndMap
  | BeginAttributes_ => WriteBeginAttributes
  | EndAttributes_ => WriteEndAttributes
  | BeginList_ => WriteBeginList
  | EndList_ => WriteEndList
  | ItemSeparator => WriteItemSeparator
  | KeyValueSeparator => WriteKeyValueSeparator
  | Space value => WriteSpace value
  end.

Fixpoint Calls (calls : list TCall) (w : t) : Result t :=
  match calls with [] => Ok w | call :: calls => w ← Call call w; Calls calls w end.
End Methods.
End CheckedWriter.
Import CheckedWriter.

(** ** From a cursor to a writer *)

Definition item_call (item : TYsonItem) : option TCall :=
  match item with
  | Simple BeginAttributes => Some BeginAttributes_
  | Simple EndAttributes => Some EndAttributes_
  | Simple BeginMap => Some BeginMap_
  | Simple EndMap => Some EndMap_
  | Simple BeginList => Some BeginList_
  | Simple EndList => Some EndList_
  | Simple EntityValue => Some Entity
  | Simple _ => None
  | ItemString value => Some (BinaryString value)
  | ItemInt64 value => Some (BinaryInt64 value)
  | ItemUint64 value => Some (BinaryUint64 value)
  | ItemDouble value => Some (BinaryDouble value)
  | ItemBoolean value => Some (BinaryBoolean value)
  end.

Section Transfer.
Context (FloatToString : Z → list byte) (fd : list byte → Result Z) (ndebug : bool).

(** The writer of a debug build is checked. *)
#[local] Abbreviation Call := (Call FloatToString (negb ndebug) ndebug).

Definition WritingVisitor : TVisitor CheckedWriter.t unit :=
  {| VisitItem item _ w := w ← match item_call item with Some call => Call call w | None => Ok w end; Ok (w, ());
     VisitEquality _ w := Call KeyValueSeparator w;
     VisitSeparator _ w := Call ItemSeparator w |}.

Definition CursorTransferComplexValue (cursor : Cursor.t) (writer : CheckedWriter.t) : Result (Cursor.t * CheckedWriter.t) :=
  '(parser, writer) ← TraverseFrom fd WritingVisitor (Cursor.Current_ cursor) false (Cursor.Parser_ cursor) writer;
  cursor ← Cursor.take fd cursor parser; Ok (cursor, writer).

(** [ConvertToYsonStringNestingLimited(TYsonString)], the bytes of the result. *)
Definition ConvertToYsonStringNestingLimited (type : EYsonType) (value : list byte) (nestingLevelLimit : Z) : Result (list byte) :=
  cursor ← Cursor.New fd type 0 (NewPullParser (TZeroCopyInputStreamReader [value]) type nestingLevelLimit);
  '(_, writer) ← CursorTransferComplexValue cursor (New type nestingLevelLimit);
  writer ← Finish (negb ndebug) writer;
  Ok (UncheckedWriter_ writer).
End Transfer.

(** ** What a call stands for *)

Definition call_token (call : TCall) : option TToken :=
  match call with
  | TextBoolean b | BinaryBoolean b => Some (Item (ItemBoolean b))
  | TextInt64 z | BinaryInt64 z => Some (Item (ItemInt64 z))
  | TextUint64 z | BinaryUint64 z => Some (Item (ItemUint64 z))
  | TextDouble z | BinaryDouble z => Some (Item (ItemDouble z))
  | TextString s | BinaryString s => Some (Item (ItemString s))
  | Entity => Some (Item (Simple EntityValue))
  | BeginMap_ => Some (Item (Simple BeginMap))
  | EndMap_ => Some (Item (Simple EndMap))
  | BeginAttributes_ => Some (Item (Simple BeginAttributes))
  | EndAttributes_ => Some (Item (Simple EndAttributes))
  | BeginList_ => Some (Item (Simple BeginList))
  | EndList_ => Some (Item (Simple EndList))
  | ItemSeparator => Some Separator
  | KeyValueSeparator => Some Equality
  | Space _ => None
  end.

Definition call_tokens (calls : list TCall) : list TToken := omap call_token calls.

(** Arguments that the format can express. *)
Definition call_ok (call : TCall) : Prop :=
  match call with
  | TextInt64 z | BinaryInt64 z => in_s 64 z
  | TextUint64 z | BinaryUint64 z => in_u 64 z
  | TextDouble z => in_u 64 z ∧ (isfinite z = true ∨ z = PlusInf ∨ z = MinusInf ∨ z = QuietNaN)
  | BinaryDouble z => in_u 64 z
  | TextString s => string_ok DefaultMemoryLimit s
  | BinaryString s => fits DefaultMemoryLimit s
  | Space c => isspace c = true
  | _ => True
  end.

Section Soundness.
Context (FloatToString : Z → list byte) (fd : list byte → Result Z) (Hdc : double_conversions FloatToString fd) (IsChecked ndebug : bool).
Context (L : nat) (HL : Z.of_nat L < 2 ^ 32).

#[local] Abbreviation ML := DefaultMemoryLimit.

Lemma ML_large : 256 <= wrap_u 64 ML.
Proof. by vm_compute. Qed.

(** What a call appends to the output. *)
Definition call_text (call : TCall) : list byte :=
  match call with
  | TextBoolean b => if b then B"%true" else B"%false"
  | TextInt64 z => match ToString_int z with Ok t => t | _ => [] end
  | TextUint64 z => match ToString_int z with Ok t => t ++ B"u" | _ => [] end
  | TextDouble z => match double_text FloatToString z with Ok t => t | _ => [] end
  | TextString s => x22 :: EscapeC s ++ [x22]
  | BinaryBoolean b => [if b then TrueMarker else FalseMarker]
  | BinaryInt64 z => Int64Marker :: Varint.WriteVarInt64 z
  | BinaryUint64 z => Uint64Marker :: Varint.WriteVarUint64 z
  | BinaryDouble z => DoubleMarker :: le_bytes 8 z
  | BinaryString s => StringMarker :: Varint.WriteVarInt32 (wrap_s 32 (Z.of_nat (length s))) ++ s
  | Entity => [EntitySymbol]
  | BeginMap_ => [BeginMapSymbol]
  | EndMap_ => [EndMapSymbol]
  | BeginAttributes_ => [BeginAttributesSymbol]
  | EndAttributes_ => [EndAttributesSymbol]
  | BeginList_ => [BeginListSymbol]
  | EndList_ => [EndListSymbol]
  | ItemSeparator => [ItemSeparatorSymbol]
  | KeyValueSeparator => [KeyValueSeparatorSymbol]
  | Space c => [c]
  end.

Definition call_check (call : TCall) (c : Checker.t) : Result Checker.t :=
  match call_token call with Some token => if IsChecked then OnToken token c else Ok c | None => Ok c end.

(** A text that stands for a scalar, text or binary. *)
Definition scalar_call (call : TCall) : option TValue :=
  match call with
  | TextBoolean b | BinaryBoolean b => Some (VBoolean b)
  | TextInt64 z | BinaryInt64 z => Some (VInt64 z)
  | TextUint64 z | BinaryUint64 z => Some (VUint64 z)
  | TextDouble z | BinaryDouble z => Some (VDouble z)
  | TextString s | BinaryString s => Some (VString s)
  | Entity => Some VEntity
  | _ => None
  end.

Lemma text_double_scalar z : call_ok (TextDouble z) → ∃ t, double_text FloatToString z = Ok t ∧ ScalarText fd ML (VDouble z) t.
Proof.
  intros [Hz Hf]. destruct Hf as [Hf|Hf].
  - destruct (double_literal FloatToString fd Hdc ML ML_large z Hz Hf) as (t & ? & ? & ?). exists t. split; [done|]. by constructor.
  - destruct (special_literal FloatToString z Hz) as (c & e & ? & ?); [tauto|]. eexists. split; [done|]. constructor; [done|by vm_compute].
Qed.

Lemma string_fits s : string_ok ML s → fits ML (EscapeC s).
Proof. intros [H1 H2]. pose proof (length_EscapeC s). split; lia. Qed.

Lemma scalar_call_text call v : call_ok call → scalar_call call = Some v → ScalarText fd ML v (call_text call).
Proof.
  intros Hok Hv. destruct call; try discriminate Hv; injection Hv as <-; cbn [call_text]; cbn [call_ok] in Hok.
  - destruct value; constructor; by vm_compute.
  - constructor.
  - destruct (int64_literal ML ML_large value Hok) as (t & -> & ? & ?). by constructor.
  - by constructor.
  - destruct (uint64_literal ML ML_large value Hok) as (t & -> & ? & ?). by constructor.
  - by constructor.
  - destruct (text_double_scalar value Hok) as (t & -> & ?). done.
  - by constructor.
  - pose proof (string_fits value Hok) as Hf. constructor. rewrite EscapeC_all in *. apply QuotedText; [apply quoted_scan_escape|apply UnescapeC_escape_all|done].
  - constructor. rewrite wrap_s_id; [by apply BinaryStringText|lia|]. destruct Hok. word.
  - constructor.
Qed.

Lemma call_token_scalar call v : scalar_call call = Some v → ∃ item, call_token call = Some (Item item) ∧ scalar_item v = Some item.
Proof. destruct call; intros E; try discriminate E; injection E as <-; by eexists. Qed.

Lemma call_token_other call : scalar_call call = None →
  (∃ token c, call_token call = Some token ∧ punctuation token = Some c ∧ call_text call = [c]) ∨ (∃ c, call = Space c).
Proof. destruct call; intros E; try discriminate E; [left; by eexists _, _..|right; by eexists]. Qed.

(** Behind a scalar only a bracket, a separator or white space can come. *)
Definition settled (p : TPosition) : bool := match p with PEquality | PSeparator => true | _ => false end.

Lemma settled_next token c p a a' : settled p = true → step L token ((c, p) :: a) = Some a' →
  ∃ ch, punctuation token = Some ch.
Proof.
  intros Hp E. destruct token as [item| |]; [|by eexists..]. destruct p; try discriminate Hp; simpl in E;
    destruct (GetType item) eqn:Et; try discriminate E; destruct item as [[]| | | | |]; try discriminate Et; by eexists.
Qed.

Lemma scalar_settles item v c p a a' : scalar_item v = Some item → step L (Item item) ((c, p) :: a) = Some a' →
  ∃ q, a' = (c, q) :: a ∧ settled q = true.
Proof.
  intros Hv E. destruct v; simplify_eq/=; destruct p; simplify_eq/=; by eexists.
Qed.

Definition calls_text (calls : list TCall) : list byte := concat (map call_text calls).

Lemma calls_delimited calls c p a a' : Forall call_ok calls → settled p = true → steps L (call_tokens calls) ((c, p) :: a) = Some a' →
  delimited true (calls_text calls).
Proof.
  intros Hok Hp E. destruct calls as [|call calls]; [done|]. pose proof (Forall_inv Hok) as Hcall. unfold calls_text. simpl.
  destruct (scalar_call call) as [v|] eqn:Ev.
  - destruct (call_token_scalar call v Ev) as (item & Et & Hi). unfold call_tokens in E. simpl in E. rewrite Et in E. cbn [steps] in E.
    destruct (step L (Item item) ((c, p) :: a)) as [a1|] eqn:E1; [|discriminate E].
    destruct (settled_next _ _ _ _ _ Hp E1) as (ch & Hch). by destruct v; simplify_eq/=.
  - destruct (call_token_other call Ev) as [(token & ch & Et & Hch & ->)|(ch & ->)].
    + simpl. by apply (punctuation_not_token token).
    + simpl in Hcall |- *. by apply IsSpace_not_token.
Qed.

Lemma call_token_proper call token : call_token call = Some token → proper_token token.
Proof. by destruct call; intros [= <-]. Qed.

(** The output is a text of the tokens. *)
Lemma calls_TokText calls a a' : Forall call_ok calls → simulates L a (checker L a) → steps L (call_tokens calls) a = Some a' →
  TokText fd (call_tokens calls) (calls_text calls).
Proof.
  intros Hok. revert a. induction Hok as [|call calls Hcall Hok IH]; intros a Ha E; [apply TokText_nil; constructor|].
  unfold calls_text, call_tokens in *. simpl in *. destruct (call_token call) as [token|] eqn:Et.
  - cbn [steps] in E. destruct (step L token a) as [a1|] eqn:E1; [|discriminate E].
    destruct (step_checker L HL token a a1 _ (call_token_proper _ _ Et) Ha E1) as [_ Ha1]. destruct (scalar_call call) as [v|] eqn:Ev.
    + destruct (call_token_scalar call v Ev) as (item & Et' & Hi). assert (token = Item item) as -> by congruence.
      destruct a as [|[c p] a]; [by destruct Ha|]. destruct (scalar_settles item v c p a a1 Hi E1) as (q & -> & Hq).
      apply (TokText_scalar fd [] v); [constructor|done|by apply scalar_call_text|by apply (IH ((c, q) :: a))|]. by eapply calls_delimited.
    + destruct (call_token_other call Ev) as [(token' & ch & Et' & Hch & ->)|(ch & ->)]; [|done]. assert (token' = token) as -> by congruence.
      apply (TokText_punctuation fd [] token ch); [constructor|done|]. by apply (IH a1).
  - destruct call; try discriminate Et. apply (TokText_spaces fd [value]); [by constructor|]. by apply (IH a).
Qed.

(** The writer appends the texts while the checker accepts the tokens. *)
Lemma Call_spec call w : call_ok call →
  Call FloatToString IsChecked ndebug call w = c ← call_check call (Checker_ w); Ok {| Checker_ := c; UncheckedWriter_ := UncheckedWriter_ w ++ call_text call |}.
Proof.
  intros Hok. unfold call_check. assert (∀ check write, write (UncheckedWriter_ w) = Ok (UncheckedWriter_ w ++ call_text call) →
    checked IsChecked check write w = c ← (if IsChecked then check (Checker_ w) else Ok (Checker_ w)); Ok {| Checker_ := c; UncheckedWriter_ := UncheckedWriter_ w ++ call_text call |}) as Hc.
  { intros check write E. unfold checked. rewrite E. by destruct IsChecked; [destruct (check (Checker_ w))|]. }
  destruct call; try (apply Hc; reflexivity); [apply Hc..|].
  - cbn [call_ok] in Hok. unfold YsonWriter.WriteTextInt64. cbn [call_text]. by destruct (int64_literal ML ML_large value Hok) as (t & -> & _).
  - unfold YsonWriter.WriteBinaryInt64. by rewrite <- app_assoc.
  - cbn [call_ok] in Hok. unfold YsonWriter.WriteTextUint64. cbn [call_text]. destruct (uint64_literal ML ML_large value Hok) as (t & -> & _).
    run_bind. by rewrite <- app_assoc.
  - unfold YsonWriter.WriteBinaryUint64. by rewrite <- app_assoc.
  - unfold YsonWriter.WriteTextDouble. cbn [call_text]. by destruct (text_double_scalar value Hok) as (t & -> & _).
  - unfold YsonWriter.WriteBinaryDouble. by rewrite <- app_assoc.
  - unfold YsonWriter.WriteTextString. by rewrite <- !app_assoc.
  - unfold YsonWriter.WriteBinaryString. by rewrite <- !app_assoc.
  - cbn [call_ok] in Hok. cbn [Call call_token]. unfold WriteSpace, checked. rewrite Hok, andb_false_r. by destruct IsChecked.
Qed.

Lemma Calls_spec calls w : Forall call_ok calls →
  Calls FloatToString IsChecked ndebug calls w =
    c ← (if IsChecked then OnTokens (call_tokens calls) (Checker_ w) else Ok (Checker_ w)); Ok {| Checker_ := c; UncheckedWriter_ := UncheckedWriter_ w ++ calls_text calls |}.
Proof.
  intros Hok. revert w. induction Hok as [|call calls Hcall _ IH]; intros w.
  - destruct w. unfold calls_text. simpl. rewrite app_nil_r. by destruct IsChecked.
  - cbn [Calls]. rewrite Call_spec by done. unfold call_check, call_tokens, calls_text. simpl. destruct (call_token call) as [token|].
    + cbn [OnTokens]. destruct IsChecked; [destruct (OnToken token (Checker_ w)) as [c| | |]; [|done..]|]; run_bind; rewrite IH; simpl; by rewrite <- app_assoc.
    + run_bind. rewrite IH. simpl. by rewrite <- app_assoc.
Qed.
End Soundness.

(** ** The tokens of a text, written again *)

Definition token_call (token : TToken) : option TCall :=
  match token with Item item => item_call item | Equality => Some KeyValueSeparator | Separator => Some ItemSeparator end.
Definition token_calls (tokens : list TToken) : list TCall := omap token_call tokens.

Lemma token_call_token token call : token_call token = Some call → call_token call = Some token.
Proof. destruct token as [[[]| | | | |]| |]; simpl; by intros [= <-]. Qed.

Lemma token_call_proper token : proper_token token → ∃ call, token_call token = Some call.
Proof. destruct token as [[[]| | | | |]| |]; try done; by eexists. Qed.

Lemma call_tokens_back tokens : Forall proper_token tokens → call_tokens (token_calls tokens) = tokens.
Proof.
  induction 1 as [|token tokens Ht _ IH]; [done|]. destruct (token_call_proper token Ht) as (call & E).
  unfold token_calls. simpl. rewrite E. unfold call_tokens. simpl. rewrite (token_call_token _ _ E). f_equal. exact IH.
Qed.

(** The double that a literal is read as has 64 bits. *)
Definition double_bits (fd : list byte → Result Z) : Prop := ∀ t z, fd t = Ok z → in_u 64 z.

Lemma scalar_binary_ok fd v item s call : double_bits fd → scalar_item v = Some item → ScalarText fd DefaultMemoryLimit v s → item_call item = Some call →
  call_ok call.
Proof.
  intros Hfd Hi Hs Hc. destruct Hs as [s t Ht|t z _ Hz|t z _ Hz|t z _ Hz|c e z Hin _| | |z Hz|z Hz|z Hz| ]; injection Hi as <-; injection Hc as <-; cbn [call_ok]; try done.
  - destruct Ht as [t s Hq Hu Hf| |]; [|done..]. destruct (UnescapeC_never_fails t) as (s' & Hu' & Hlen). assert (s' = s) as -> by congruence.
    destruct Hf. split; lia.
  - by apply FromString_i64_spec in Hz as [_ ?].
  - by apply FromString_ui64_range in Hz.
  - by eapply Hfd.
  - assert (Forall (λ x : byte * list byte * Z, in_u 64 x.2) special_doubles) as Hall by (apply (bool_decide_unpack _); by vm_compute).
    rewrite List.Forall_forall in Hall. apply (Hall (c, e, z)). by apply list_elem_of_In.
Qed.

Lemma TokText_calls_ok fd tokens t : double_bits fd → TokText fd tokens t → Forall call_ok (token_calls tokens).
Proof.
  intros Hfd. induction 1 as [ws|ws token c tokens t _ Hp _ IH|ws v item s tokens t _ Hi Hs _ IH _]; [constructor|..]; unfold token_calls; simpl.
  - assert (∀ call, token_call token = Some call → call_ok call) as Hcall.
    { destruct token as [[[]| | | | |]| |]; try discriminate Hp; by intros call [= <-]. }
    destruct (token_call token); [constructor; [by apply Hcall|done]|done].
  - destruct (item_call item) eqn:E; [|done]. constructor; [|done]. by eapply scalar_binary_ok.
Qed.

Lemma visit_writes FloatToString ndebug L tokens a a' w : Forall proper_token tokens → steps L tokens a = Some a' →
  visit_tokens (WritingVisitor FloatToString ndebug) L tokens a w = Calls FloatToString (negb ndebug) ndebug (token_calls tokens) w.
Proof.
  intros Hp. revert a w. induction Hp as [|token tokens Ht _ IH]; intros a w E; [done|]. simpl in E.
  destruct (step L token a) as [a1|] eqn:E1; [|done]. cbn [visit_tokens]. rewrite E1.
  destruct (token_call_proper token Ht) as (call & Hc). unfold token_calls. simpl. rewrite Hc. cbn [Calls].
  assert (visit_token (WritingVisitor FloatToString ndebug) token (checker L a1) w = Call FloatToString (negb ndebug) ndebug call w) as ->.
  { destruct token; simpl in *; [rewrite Hc|by injection Hc as <-..]. by destruct (Call _ _ _ call w). }
  destruct (Call _ _ _ call w); [|done..]. by apply IH.
Qed.

(** All the tokens of a document are written. *)
Lemma document_written FloatToString fd ndebug mode evs levels tokens t (limit : nat) : double_conversions FloatToString fd → double_bits fd →
  Z.of_nat limit < 2 ^ 32 → ModeTok mode evs levels tokens → fits_level limit 0 levels → TokText fd tokens t →
  ∃ w w', Calls FloatToString (negb ndebug) ndebug (token_calls tokens) (New mode (Z.of_nat limit)) = Ok w ∧ Finish (negb ndebug) w = Ok w' ∧
    UncheckedWriter_ w' = calls_text FloatToString (token_calls tokens) ∧ TokText fd tokens (UncheckedWriter_ w').
Proof.
  intros Hdc Hbits HL Hm Hf Ht. pose proof (ModeTok_proper _ _ _ _ Hm) as Hproper. pose proof (TokText_calls_ok fd tokens t Hbits Ht) as Hok.
  destruct (ModeTok_valid mode evs levels tokens limit HL Hm Hf) as (_ & H1 & H2 & a' & Ea & _).
  pose proof (calls_TokText FloatToString fd Hdc limit HL (token_calls tokens) (initial mode) a' Hok ltac:(done)) as Htext.
  rewrite (call_tokens_back tokens Hproper) in Htext. specialize (Htext Ea).
  rewrite (Calls_spec FloatToString fd Hdc (negb ndebug) ndebug) by done. rewrite (call_tokens_back tokens Hproper). cbn [Checker_ New].
  destruct (checker_runs mode limit tokens evs levels HL Hm Hf) as (c & Ec & Efin).
  destruct ndebug; simpl negb; [|rewrite Ec]; run_bind; eexists _, _; (split; [done|]); unfold Finish, checked; cbn [Checker_ UncheckedWriter_ New]; rewrite ?Efin;
    (split; [done|]); (split; [done|exact Htext]).
Qed.

Lemma convert_tokens FloatToString fd ndebug evs levels tokens t (limit : nat) w w' : total_conversion fd → Z.of_nat limit < 2 ^ 32 →
  ModeTok YsonNode evs levels tokens → fits_level limit 0 levels → TokText fd tokens t →
  Calls FloatToString (negb ndebug) ndebug (token_calls tokens) (New YsonNode (Z.of_nat limit)) = Ok w → Finish (negb ndebug) w = Ok w' →
  ConvertToYsonStringNestingLimited FloatToString fd ndebug YsonNode t (Z.of_nat limit) = Ok (UncheckedWriter_ w').
Proof.
  intros Hfd HL Hm Hf Ht Ew Efin. pose proof (ModeTok_valid YsonNode evs levels tokens limit HL Hm Hf) as Hv.
  pose proof (new_before fd YsonNode limit tokens t HL Ht) as Hb.
  destruct (new_on fd Hfd limit HL YsonNode tokens _ 0 Hv Hb) as (cur & E & Hon & Hstart). simpl in Hstart. rewrite consume_false in Hon by done.
  unfold ConvertToYsonStringNestingLimited, CursorTransferComplexValue. rewrite E. run_bind. inversion Hm as [n t' Hn| |]; subst.
  rewrite <- (app_nil_r tokens) in Hon.
  pose proof (from_on fd Hfd limit HL (WritingVisitor FloatToString ndebug) n tokens [] CNode [] cur (New YsonNode (Z.of_nat limit)) Hn Hon Hf) as H.
  destruct Hv as (Hproper & _ & _ & a' & Ea & _). rewrite (visit_writes FloatToString ndebug limit tokens _ a' _ Hproper Ea), Ew in H.
  destruct H as (p & -> & cur' & Et & _). run_bind. rewrite Et. run_bind. by rewrite Efin.
Qed.

(** ** Theorems *)

(** C10. The checked writer writes documents and nothing else: for every sequence of calls, in each
    mode, with arguments the format can express (text or binary forms mixed at will, white
    space anywhere), the calls and [Finish] succeed exactly when the tokens are those of a
    document (or of the items of a list or a map) nested less deep than the limit; and then
    the pull parser, given the output cut into blocks in any way, reads back exactly the
    items that were written. No call aborts. *)
Theorem CheckedWriter_correct (FloatToString : Z → list byte) (fd : list byte → Result Z) (ndebug : bool) (mode : EYsonType) (limit : nat)
    (calls : list TCall) (Hdc : double_conversions FloatToString fd) (Hfd : total_conversion fd) (Hok : Forall call_ok calls)
    (Hlimit : Z.of_nat limit < 2 ^ 31) :
  match Calls FloatToString true ndebug calls (New mode (Z.of_nat limit)) ≫= Finish true with
  | Ok w => ∃ evs levels, ModeTok mode evs levels (call_tokens calls) ∧ fits_level limit 0 levels ∧
      ∀ s, at_stream s (UncheckedWriter_ w) → ReadItems fd (NewPullParser s mode (Z.of_nat limit)) = Ok (event_items evs)
  | Throw _ => ¬ ∃ evs levels, ModeTok mode evs levels (call_tokens calls) ∧ fits_level limit 0 levels
  | _ => False
  end.
Proof.
  assert (Z.of_nat limit < 2 ^ 32) as HL by lia. rewrite (Calls_spec FloatToString fd Hdc true ndebug calls) by done.
  assert (Forall proper_token (call_tokens calls)) as Hproper.
  { clear. induction calls as [|call calls IH]; [constructor|]. unfold call_tokens in *. simpl. destruct (call_token call) eqn:E; [|done].
    constructor; [by eapply call_token_proper|done]. }
  pose proof (checker_accepts mode limit (call_tokens calls) HL Hproper) as Hc. cbn [Checker_ New].
  destruct (OnTokens (call_tokens calls) _) as [c|e| |] eqn:Ec; run_bind in Hc; run_bind; [|exact Hc|done..].
  unfold Finish, checked. cbn [Checker_ UncheckedWriter_]. destruct (Checker.OnFinish c) as [c'|e| |]; run_bind; [|exact Hc|done..].
  destruct Hc as (_ & evs & levels & Hm & Hf). exists evs, levels. split_and!; [done..|]. simpl. intros s Hs.
  destruct (ModeTok_valid mode evs levels _ limit HL Hm Hf) as (_ & H1 & H2 & a' & Ea & _).
  apply (ReadItems_tokens fd mode evs levels (call_tokens calls) limit (calls_text FloatToString calls)); try done.
  eapply (calls_TokText FloatToString fd Hdc limit HL); done.
Qed.

Lemma read_bits_total : total_conversion ExampleConversions.read_bits.
Proof. intros t. unfold ExampleConversions.read_bits. by apply FromString_total; right. Qed.

Lemma read_bits_double : double_bits ExampleConversions.read_bits.
Proof. intros t z. apply FromString_ui64_range. Qed.

Lemma CheckedWriter_correct_witness :
  let calls := [BeginList_; TextInt64 (-7); Space x20; ItemSeparator; BinaryString (B"x"); EndList_] in
  ∃ w, (Calls ExampleConversions.print_bits true false calls (New YsonNode 4) ≫= Finish true) = Ok w ∧
  ReadItems ExampleConversions.read_bits (NewPullParser (TZeroCopyInputStreamReader [UncheckedWriter_ w]) YsonNode 4) =
    Ok [Simple BeginList; ItemInt64 (-7); ItemString (B"x"); Simple EndList].
Proof.
  intros calls.
  pose proof (CheckedWriter_correct ExampleConversions.print_bits ExampleConversions.read_bits false YsonNode 4 calls ExampleConversions.conversions
    read_bits_total ltac:(repeat constructor; by vm_compute) ltac:(lia)) as H. change (Z.of_nat 4) with 4 in H.
  destruct (Calls _ _ _ calls _ ≫= Finish true) as [w| | |] eqn:E; [|vm_compute in E; discriminate E..]. exists w. split; [reflexivity|].
  destruct H as (evs & levels & Hm & _ & Hr). rewrite Hr by (split; [done|]; unfold text_of; simpl; by rewrite app_nil_r).
  f_equal. by rewrite <- (ModeTok_items _ _ _ _ Hm).
Defined.

(** C11. Normalization: for every text of a document nested less deep than the limit (any mixture
    of text and binary forms, white space), [ConvertToYsonStringNestingLimited] succeeds, in
    debug and in release builds, and its result, read by the pull parser, gives the items of
    the original document; applied to its own result it changes nothing. *)
Theorem ConvertToYsonString_normalizes (FloatToString : Z → list byte) (fd : list byte → Result Z) (ndebug : bool)
    (evs : list TYsonEvent) (depth limit : nat) (t : list byte)
    (Hdc : double_conversions FloatToString fd) (Hbits : double_bits fd) (Hfd : total_conversion fd)
    (Ht : ModeText fd DefaultMemoryLimit YsonNode evs depth t) (Hdepth : (depth < limit)%nat) (Hlimit : Z.of_nat limit < 2 ^ 31) :
  ∃ out, ConvertToYsonStringNestingLimited FloatToString fd ndebug YsonNode t (Z.of_nat limit) = Ok out ∧
    (∀ s, at_stream s out → ReadItems fd (NewPullParser s YsonNode (Z.of_nat limit)) = Ok (event_items evs)) ∧
    ConvertToYsonStringNestingLimited FloatToString fd ndebug YsonNode out (Z.of_nat limit) = Ok out.
Proof.
  assert (Z.of_nat limit < 2 ^ 32) as HL by lia. destruct (ModeText_tokens fd YsonNode evs depth t Ht) as (tokens & levels & Hm & Hle & Htok).
  assert (fits_level limit 0 levels) as Hf by (right; lia).
  destruct (document_written FloatToString fd ndebug YsonNode evs levels tokens t limit Hdc Hbits HL Hm Hf Htok) as (w & w' & Ew & Efin & Eout & Hout).
  exists (UncheckedWriter_ w'). split_and!.
  - by eapply convert_tokens.
  - intros s Hs. by eapply ReadItems_tokens.
  - by eapply convert_tokens.
Qed.

Lemma ConvertToYsonString_normalizes_witness :
  ModeText ExampleConversions.read_bits DefaultMemoryLimit YsonNode (node_events (Node None (VList [Node None VEntity; Node None (VBoolean true)]))) 2 (B" [#; %true]") ∧
  ∃ out, ConvertToYsonStringNestingLimited ExampleConversions.print_bits ExampleConversions.read_bits true YsonNode (B" [#; %true]") 3 = Ok out ∧
    ConvertToYsonStringNestingLimited ExampleConversions.print_bits ExampleConversions.read_bits true YsonNode out 3 = Ok out.
Proof.
  assert (ModeText ExampleConversions.read_bits DefaultMemoryLimit YsonNode
    (node_events (Node None (VList [Node None VEntity; Node None (VBoolean true)]))) 2 (B" [#; %true]")) as Ht.
  { apply (NodeMode _ _ (B" ") (Node None (VList [Node None VEntity; Node None (VBoolean true)])) (B"[#; %true]") []); [by constructor| |constructor].
    apply PlainNode, (ListValue _ _ _ (B"#; %true")). apply (ListItem _ _ [] _ (B"#") [] _ (B" %true")); [constructor| |constructor|].
    - apply PlainNode, ScalarValue, TextEntity.
    - apply (ListLast _ _ (B" ") _ (B"%true") []); [by constructor| |constructor]. apply PlainNode, ScalarValue, (YsonGrammar.TextBoolean _ _ true). by vm_compute. }
  split; [exact Ht|].
  destruct (ConvertToYsonString_normalizes ExampleConversions.print_bits ExampleConversions.read_bits true _ 2 3 _ ExampleConversions.conversions
    read_bits_double read_bits_total Ht ltac:(lia) ltac:(lia)) as (out & E1 & _ & E2).
  change (Z.of_nat 3) with 3 in E1, E2. exists out. split; assumption.
Defined.

(** Of a list fragment only the first item is converted. *)
Lemma convert_fragment_first :
  ConvertToYsonStringNestingLimited ExampleConversions.print_bits ExampleConversions.read_bits true YsonListFragment (B"%true;#;%false") 256 = Ok [TrueMarker].
Proof. by vm_compute. Qed.
