(* ===== verification/Deserialize.v ===== *)
(** Typed values out of YSON texts (pull_parser_deserialize.h, pull_parser_deserialize-inl.h,
    pull_parser_deserialize.cpp, [ConvertTo] of ytree/convert-inl.h, the integral casts of
    library/cpp/yt/misc/cast-inl.h).

    The overload set [Deserialize] is the class [Deserializable]; each instance is one
    overload. [Meaning], an instance of [Readable] per type, says on trees what the type reads
    from a document, and [DeserializeLaws] is the statement that the overload computes just
    this on a cursor: it is proved for containers from the same statement for their items.
    [TTypeCode] is the closed family of the types that are built from the modelled overloads;
    for its types the laws are proved outright. *)

From stdpp Require Import gmap.
From S2P Require Import Prelude YsonStream YsonLexer YsonEvents YsonParser YsonGrammar YsonWriter SyntaxChecker PullParser PullTraversal YsonCursor.

(** ** Integral casts *)

Section Cast.
(** The type cast to; the value's type is [i64] or [ui64]. *)
Context (isSigned : bool) (w : Z).

Definition lowest : Z := if isSigned then - 2 ^ (w - 1) else 0.
Definition max_value : Z := if isSigned then max_s w else max_u w.

Definition IsInIntegralRange (fromSigned : bool) (value : Z) : bool :=
  match isSigned, fromSigned with
  | true, true => (value >=? lowest) && (value <=? max_value)
  | true, false => value <=? wrap_u w max_value
  | false, true => (value >=? 0) && (wrap_u 64 value <=? max_value)
  | false, false => value <=? max_value
  end.

Definition TryCheckedIntegralCast (fromSigned : bool) (value : Z) : option Z :=
  if negb (IsInIntegralRange fromSigned value) then None
  else Some (if isSigned then wrap_s w value else wrap_u w value).

Definition CheckedIntegralCast (fromSigned : bool) (value : Z) : Result Z :=
  match TryCheckedIntegralCast fromSigned value with None => Throw EOutOfRange | Some value => Ok value end.

Lemma CheckedIntegralCast_spec (fromSigned : bool) (value : Z) : 0 < w → (if fromSigned then in_s 64 value else in_u 64 value) →
  CheckedIntegralCast fromSigned value = if bool_decide (lowest <= value <= max_value) then Ok value else Throw EOutOfRange.
Proof.
  intros Hw Hv. unfold CheckedIntegralCast, TryCheckedIntegralCast.
  assert (lowest <= value <= max_value → (if isSigned then wrap_s w value else wrap_u w value) = value) as Hid.
  { unfold lowest, max_value, max_s, max_u. destruct isSigned; intros ?; [apply wrap_s_id|apply wrap_u_id]; unfold in_s, in_u; lia. }
  assert (IsInIntegralRange fromSigned value = bool_decide (lowest <= value <= max_value)) as ->.
  { unfold IsInIntegralRange, lowest, max_value, max_s, max_u, in_s, in_u in *. pose proof (pow2_split w Hw) as Hsplit.
    assert (0 < 2 ^ (w - 1)) by (apply Z.pow_pos_nonneg; lia).
    destruct isSigned, fromSigned; [|rewrite wrap_u_id by word| |].
    all: rewrite ?Z.geb_leb. all: symmetry. 1: case_bool_decide; lia. 1: case_bool_decide; lia. 2: case_bool_decide; lia.
    destruct (Z.leb_spec 0 value); [rewrite wrap_u_id by word|]; case_bool_decide; lia. }
  case_bool_decide as Hr; [|done]. simpl. by rewrite Hid.
Qed.
End Cast.

(** ** The overloads *)

(** [Deserialize(value, cursor)] for a reference [value]: the value before is an argument.
    [Construct] is the default constructor; [fd] and [ndebug] are those of the cursor. *)
Class Deserializable (T : Type) := {
  Construct : T;
  Deserialize : (list byte → Result Z) → bool → T → Cursor.t → Result (Cursor.t * T)
}.

Section Helpers.
Context (fd : list byte → Result Z) (ndebug : bool).

Definition SkipAttributes (cursor : Cursor.t) : Result Cursor.t :=
  cursor ← Cursor.SkipAttributes fd cursor;
  if bool_decide (Cursor.GetType cursor = BeginAttributes) then Throw ERepeatedAttributes else Ok cursor.

Definition MaybeSkipAttributes (cursor : Cursor.t) : Result Cursor.t :=
  if bool_decide (Cursor.GetType cursor = BeginAttributes) then SkipAttributes cursor else Ok cursor.

Definition ExtractTo (T : Type) `{Deserializable T} (cursor : Cursor.t) : Result (Cursor.t * T) :=
  Deserialize fd ndebug Construct cursor.

(** [SkipAttributes(cursor); Deserialize(value, cursor)]: the call recurs, at most once since
    [SkipAttributes] refuses a second attribute map. *)
Fixpoint DeserializeInteger (fuel : nat) (isSigned : bool) (w : Z) (cursor : Cursor.t) : Result (Cursor.t * Z) :=
  match fuel with
  | O => OutOfFuel
  | S fuel =>
      match Cursor.Current_ cursor with
      | ItemInt64 z => value ← CheckedIntegralCast isSigned w true z; cursor ← Cursor.Next fd ndebug cursor; Ok (cursor, value)
      | ItemUint64 z => value ← CheckedIntegralCast isSigned w false z; cursor ← Cursor.Next fd ndebug cursor; Ok (cursor, value)
      | Simple BeginAttributes => cursor ← SkipAttributes cursor; DeserializeInteger fuel isSigned w cursor
      | _ => Throw EUnexpectedItem
      end
  end.

Definition DeserializeString (cursor : Cursor.t) : Result (Cursor.t * list byte) :=
  cursor ← MaybeSkipAttributes cursor;
  _ ← Cursor.EnsureYsonToken cursor StringValue;
  match Cursor.Current_ cursor with
  | ItemString value => cursor ← Cursor.Next fd ndebug cursor; Ok (cursor, value)
  | _ => Crash
  end.

Definition TryParseBool (value : list byte) : option bool :=
  if bool_decide (value = B"true") || bool_decide (value = B"1") then Some true
  else if bool_decide (value = B"false") || bool_decide (value = B"0") then Some false
  else None.

Definition ParseBool (value : list byte) : Result bool :=
  match TryParseBool value with None => Throw EInvalidArgument | Some result => Ok result end.

(** The two integer cases of [Deserialize(bool&)]. *)
Definition bool_of_integer (value : Z) : Result bool :=
  if negb (value =? 0) && negb (value =? 1) then Throw EInvalidArgument else Ok (negb (value =? 0)).

Fixpoint DeserializeBool (fuel : nat) (cursor : Cursor.t) : Result (Cursor.t * bool) :=
  match fuel with
  | O => OutOfFuel
  | S fuel =>
      match Cursor.Current_ cursor with
      | ItemBoolean value => cursor ← Cursor.Next fd ndebug cursor; Ok (cursor, value)
      | ItemString s => value ← ParseBool s; cursor ← Cursor.Next fd ndebug cursor; Ok (cursor, value)
      | ItemInt64 z => value ← bool_of_integer z; cursor ← Cursor.Next fd ndebug cursor; Ok (cursor, value)
      | ItemUint64 z => value ← bool_of_integer z; cursor ← Cursor.Next fd ndebug cursor; Ok (cursor, value)
      | Simple BeginAttributes => cursor ← SkipAttributes cursor; DeserializeBool fuel cursor
      | _ => Throw EUnexpectedItem
      end
  end.

Definition DeserializeChar (cursor : Cursor.t) : Result (Cursor.t * byte) :=
  cursor ← MaybeSkipAttributes cursor;
  _ ← Cursor.EnsureYsonToken cursor StringValue;
  match Cursor.Current_ cursor with
  | ItemString [value] => cursor ← Cursor.Next fd ndebug cursor; Ok (cursor, value)
  | ItemString _ => Throw EInvalidArgument
  | _ => Crash
  end.

Definition DeserializeOptional {T} `{Deserializable T} (value : option T) (cursor : Cursor.t) : Result (Cursor.t * option T) :=
  cursor ← MaybeSkipAttributes cursor;
  if bool_decide (Cursor.GetType cursor = EntityValue) then cursor ← Cursor.Next fd ndebug cursor; Ok (cursor, None)
  else '(cursor, v) ← Deserialize fd ndebug (default Construct value) cursor; Ok (cursor, Some v).

(** The [if (cursor->TryConsumeFragmentStart())] that the collections share. *)
Definition over_collection {V} (parse : (Cursor.t → V → Result (Cursor.t * V)) → Cursor.t → V → Result (Cursor.t * V))
    (itemVisitor : Cursor.t → V → Result (Cursor.t * V)) (cursor : Cursor.t) (v : V) : Result (Cursor.t * V) :=
  let '(cursor, isOnFragmentStart) := Cursor.TryConsumeFragmentStart cursor in
  if isOnFragmentStart : bool then Cursor.parse_loop EndOfStream itemVisitor (Cursor.loop_fuel cursor) cursor v
  else cursor ← MaybeSkipAttributes cursor; parse itemVisitor cursor v.

(** The state of the lambda: [value] and [index]. *)
Definition vector_item {T} `{Deserializable T} (cursor : Cursor.t) (v : list T * nat) : Result (Cursor.t * (list T * nat)) :=
  let '(value, index) := v in
  match value !! index with
  | Some old => '(cursor, new) ← Deserialize fd ndebug old cursor; Ok (cursor, (<[index := new]> value, S index))
  | None => '(cursor, new) ← Deserialize fd ndebug Construct cursor; Ok (cursor, (value ++ [new], S index))
  end.

Definition DeserializeVector {T} `{Deserializable T} (value : list T) (cursor : Cursor.t) : Result (Cursor.t * list T) :=
  '(cursor, (value, index)) ← over_collection (Cursor.ParseList fd ndebug) vector_item cursor (value, 0%nat);
  Ok (cursor, take index value).

Definition set_item {T} `{Deserializable T, Countable T} (cursor : Cursor.t) (value : gset T) : Result (Cursor.t * gset T) :=
  '(cursor, item) ← ExtractTo T cursor; Ok (cursor, {[item]} ∪ value).

Definition DeserializeSet {T} `{Deserializable T, Countable T} (cursor : Cursor.t) : Result (Cursor.t * gset T) :=
  over_collection (Cursor.ParseList fd ndebug) set_item cursor ∅.

Definition map_item {K T} `{Deserializable K, Countable K, Deserializable T} (cursor : Cursor.t) (value : gmap K T)
    : Result (Cursor.t * gmap K T) :=
  '(cursor, key) ← ExtractTo K cursor;
  '(cursor, item) ← ExtractTo T cursor;
  match value !! key with Some _ => Throw EDuplicateKey | None => Ok (cursor, <[key := item]> value) end.

Definition DeserializeMap {K T} `{Deserializable K, Countable K, Deserializable T} (cursor : Cursor.t) : Result (Cursor.t * gmap K T) :=
  over_collection (Cursor.ParseMap fd ndebug) map_item cursor ∅.
End Helpers.

(** [TTupleHelper]: the components from the first on, as long as there are items. *)
Class TupleDeserializable (T : Type) := {
  TupleConstruct : T;
  DeserializeItem : (list byte → Result Z) → bool → T → Cursor.t → Result (Cursor.t * T)
}.

#[export] Instance tuple_none : TupleDeserializable () := {| TupleConstruct := (); DeserializeItem _ _ value cursor := Ok (cursor, value) |}.

Definition DeserializeItemOfTuple {T A} `{TupleDeserializable T, Deserializable A} (fd : list byte → Result Z) (ndebug : bool)
    (value : T * A) (cursor : Cursor.t) : Result (Cursor.t * (T * A)) :=
  '(cursor, first) ← DeserializeItem fd ndebug (fst value) cursor;
  if bool_decide (Cursor.GetType cursor = EndList) then Ok (cursor, (first, snd value))
  else '(cursor, last) ← Deserialize fd ndebug (snd value) cursor; Ok (cursor, (first, last)).

#[export] Instance tuple_more {T A} `{TupleDeserializable T, Deserializable A} : TupleDeserializable (T * A) :=
  {| TupleConstruct := (TupleConstruct, Construct); DeserializeItem := DeserializeItemOfTuple |}.

Definition DeserializeTuple (fd : list byte → Result Z) (ndebug : bool) {T} `{TupleDeserializable T} (value : T) (cursor : Cursor.t)
    : Result (Cursor.t * T) :=
  let '(cursor, isListFragment) := Cursor.TryConsumeFragmentStart cursor in
  cursor ← (if isListFragment : bool then Ok cursor
            else cursor ← MaybeSkipAttributes fd cursor; _ ← Cursor.EnsureYsonToken cursor BeginList; Cursor.Next fd ndebug cursor);
  '(cursor, value) ← DeserializeItem fd ndebug value cursor;
  let endItemType := if isListFragment then EndOfStream else EndList in
  '(cursor, _) ← Cursor.parse_loop endItemType (λ cursor _, cursor ← Cursor.SkipComplexValue fd cursor; Ok (cursor, ()))
                   (Cursor.loop_fuel cursor) cursor ();
  cursor ← (if isListFragment then Ok cursor else Cursor.Next fd ndebug cursor);
  Ok (cursor, value).

(** The types, and their overloads. *)
Definition TInt (isSigned : bool) (w : Z) : Type := Z.
Definition TString : Type := list byte.
Definition TTuple (T : Type) : Type := T.
#[global] Typeclasses Opaque TInt TString TTuple.

#[export] Instance TString_eq_dec : EqDecision TString := _ : EqDecision (list byte).
#[export] Instance TString_countable : Countable TString := _ : Countable (list byte).
#[export] Instance TInt_eq_dec isSigned w : EqDecision (TInt isSigned w) := _ : EqDecision Z.
#[export] Instance TInt_countable isSigned w : Countable (TInt isSigned w) := _ : Countable Z.

#[export] Instance int_deserializable isSigned w : Deserializable (TInt isSigned w) :=
  {| Construct := 0 : TInt isSigned w; Deserialize fd ndebug _ := DeserializeInteger fd ndebug 2 isSigned w |}.
#[export] Instance string_deserializable : Deserializable TString :=
  {| Construct := [] : TString; Deserialize fd ndebug _ := DeserializeString fd ndebug |}.
#[export] Instance bool_deserializable : Deserializable bool :=
  {| Construct := false; Deserialize fd ndebug _ := DeserializeBool fd ndebug 2 |}.
#[export] Instance char_deserializable : Deserializable byte :=
  {| Construct := x00; Deserialize fd ndebug _ := DeserializeChar fd ndebug |}.
#[export] Instance optional_deserializable {T} `{Deserializable T} : Deserializable (option T) :=
  {| Construct := None; Deserialize fd ndebug := DeserializeOptional fd ndebug |}.
#[export] Instance vector_deserializable {T} `{Deserializable T} : Deserializable (list T) :=
  {| Construct := []; Deserialize fd ndebug := DeserializeVector fd ndebug |}.
#[export] Instance set_deserializable {T} `{Deserializable T, Countable T} : Deserializable (gset T) :=
  {| Construct := ∅; Deserialize fd ndebug _ := DeserializeSet fd ndebug |}.
#[export] Instance map_deserializable {K T} `{Deserializable K, Countable K, Deserializable T} : Deserializable (gmap K T) :=
  {| Construct := ∅; Deserialize fd ndebug _ := DeserializeMap fd ndebug |}.
#[export] Instance tuple_deserializable {T} `{TupleDeserializable T} : Deserializable (TTuple T) :=
  {| Construct := (TupleConstruct : T) : TTuple T; Deserialize fd ndebug := DeserializeTuple fd ndebug (T := T) |}.

(** [ConvertTo<TTo>(TYsonString)]. *)
Definition ConvertTo (fd : list byte → Result Z) (ndebug : bool) (T : Type) `{Deserializable T} (type : EYsonType) (data : list byte) : Result T :=
  cursor ← Cursor.New fd type 0 (NewPullParser (TZeroCopyInputStreamReader [data]) type DefaultYsonParserNestingLevelLimit);
  '(cursor, result) ← Deserialize fd ndebug Construct cursor;
  if bool_decide (Cursor.GetType cursor = EndOfStream) then Ok result else Throw EUnexpectedItem.

(** ** What a type reads, on trees *)

Definition node_value (n : TNode) : TValue := match n with Node _ v => v end.
Definition node_attributes (n : TNode) : option (list (list byte * TNode)) := match n with Node attributes _ => attributes end.

(** A node may have attributes where they are allowed. *)
Definition allowed (n : TNode) (p : TPosition) : Prop := p = PValue ∨ p = PAttributeless ∧ node_attributes n = None.

(** The overload reads a node from the cursor as [meaning] says. *)
Definition reads_as {T} `{Deserializable T} (meaning : T → TValue → Result T) : Prop :=
  ∀ fd ndebug L n tt tokens c p (a : list TFrame) cursor old, total_conversion fd → Z.of_nat L < 2 ^ 32 →
    NodeTok n tt → allowed n p → on fd L cursor (tt ++ tokens) ((c, p) :: a) → fits_level L (length a) (node_levels n) →
    moves fd L tokens ((c, PSeparator) :: a) (meaning old (node_value n)) (Deserialize fd ndebug old cursor).

(** What is read from a value over a value that was there before. *)
Class Readable (T : Type) := { Meaning : T → TValue → Result T }.
Class DeserializeLaws (T : Type) `{Deserializable T, Readable T} : Prop := { Deserialize_on : reads_as Meaning }.

Section Spec.
Context (fd : list byte → Result Z) (ndebug : bool) (Hfd : total_conversion fd) (L : nat) (HL : Z.of_nat L < 2 ^ 32).

#[local] Abbreviation on := (on fd L).
#[local] Abbreviation moves := (moves fd L).

Definition value_head (v : TValue) : TYsonItem :=
  match v with VList _ => Simple BeginList | VMap _ => Simple BeginMap | _ => default (Simple EntityValue) (scalar_item v) end.

Lemma value_head_tok v tv : ValueTok v tv → ∃ rest, tv = Item (value_head v) :: rest.
Proof. destruct 1 as [v item E| |]; [|by eexists..]. destruct v; simplify_eq/=; by eexists. Qed.

Lemma value_current v tv tokens c p (a : list TFrame) cur : ValueTok v tv → on cur (tv ++ tokens) ((c, p) :: a) → Cursor.Current_ cur = value_head v.
Proof. intros Hv Hon. destruct (value_head_tok v tv Hv) as (rest & ->). by eapply on_current. Qed.

Lemma value_head_plain v : GetType (value_head v) ≠ BeginAttributes.
Proof. by destruct v. Qed.

(** [Next] behind a scalar. *)
Lemma scalar_next v item tv tokens c p (a : list TFrame) cur : ValueTok v tv → scalar_item v = Some item → expects p = true →
  on cur (tv ++ tokens) ((c, p) :: a) → ∃ cur', Cursor.Next fd ndebug cur = Ok cur' ∧ on cur' tokens ((c, PSeparator) :: a).
Proof.
  intros Hv Hi Hp Hon. destruct Hv as [v item' E|items t|items t]; [|done..]. assert (item' = item) as -> by congruence.
  apply (next_on fd ndebug Hfd L HL item tokens ((c, p) :: a)); [done|]. destruct v; simplify_eq/=; by destruct p.
Qed.

(** Attributes are skipped; what is left is a value. *)
Lemma maybe_skip_on n tt tokens c p (a : list TFrame) cur : NodeTok n tt → allowed n p → on cur (tt ++ tokens) ((c, p) :: a) →
  fits_level L (length a) (node_levels n) →
  ∃ cur' tv p', MaybeSkipAttributes fd cur = Ok cur' ∧ ValueTok (node_value n) tv ∧ expects p' = true ∧
    on cur' (tv ++ tokens) ((c, p') :: a) ∧ fits_level L (length a) (value_levels (node_value n)).
Proof.
  intros Hn Hp Hon Hf. unfold MaybeSkipAttributes. destruct Hn as [v tv Hv|attributes v ta tv Ha Hv].
  - exists cur, tv, p. pose proof (value_current _ _ _ _ _ _ _ Hv Hon) as Hcur. rewrite bool_decide_eq_false_2 by (unfold Cursor.GetType; rewrite Hcur; apply value_head_plain).
    split_and!; try done. by destruct Hp as [-> |[-> _]].
  - destruct Hp as [-> |[_ ?]]; [|done]. rewrite node_levels_attributes in Hf. apply fits_max in Hf as [[_ Hfa]%fits_S Hfv].
    cbn [app] in Hon. rewrite <- app_assoc in Hon. rewrite bool_decide_eq_true_2 by (unfold Cursor.GetType; by rewrite (on_current _ _ _ _ _ _ Hon)).
    destruct (skip_attributes_on fd Hfd L HL attributes ta (tv ++ tokens) c a cur Ha Hon Hfa) as (cur' & E & Hon').
    exists cur', tv, PAttributeless. unfold SkipAttributes. rewrite E. run_bind. 
    rewrite bool_decide_eq_false_2 by (unfold Cursor.GetType; rewrite (value_current _ _ _ _ _ _ _ Hv Hon'); apply value_head_plain). by split_and!.
Qed.

(** ** Scalars *)

Lemma DeserializeInteger_skip isSigned w cur :
  DeserializeInteger fd ndebug 2 isSigned w cur = MaybeSkipAttributes fd cur ≫= DeserializeInteger fd ndebug 1 isSigned w.
Proof.
  unfold MaybeSkipAttributes. case_bool_decide as E; unfold Cursor.GetType in E; [|run_bind].
  - cbn [DeserializeInteger]. by destruct (Cursor.Current_ cur) as [[]| | | | |].
  - cbn [DeserializeInteger]. by destruct (Cursor.Current_ cur) as [[]| | | | |].
Qed.

Lemma DeserializeBool_skip cur : DeserializeBool fd ndebug 2 cur = MaybeSkipAttributes fd cur ≫= DeserializeBool fd ndebug 1.
Proof.
  unfold MaybeSkipAttributes. case_bool_decide as E; unfold Cursor.GetType in E; [|run_bind].
  - cbn [DeserializeBool]. by destruct (Cursor.Current_ cur) as [[]| | | | |].
  - cbn [DeserializeBool]. by destruct (Cursor.Current_ cur) as [[]| | | | |].
Qed.

(** A result, then [Next]. *)
Lemma result_next {A} (r : Result A) v item tv tokens c p (a : list TFrame) cur : ValueTok v tv → scalar_item v = Some item → expects p = true →
  on cur (tv ++ tokens) ((c, p) :: a) →
  moves tokens ((c, PSeparator) :: a) r (x ← r; cur ← Cursor.Next fd ndebug cur; Ok (cur, x)).
Proof.
  intros Hv Hi Hp Hon. destruct r as [x| | |]; [|done..]. destruct (scalar_next v item tv tokens c p a cur Hv Hi Hp Hon) as (cur' & E & Hon').
  run_bind. rewrite E. run_bind. by exists cur'.
Qed.

Definition int_meaning (isSigned : bool) (w : Z) (v : TValue) : Result Z :=
  match v with
  | VInt64 z => CheckedIntegralCast isSigned w true z
  | VUint64 z => CheckedIntegralCast isSigned w false z
  | _ => Throw EUnexpectedItem
  end.

Definition string_meaning (v : TValue) : Result (list byte) := match v with VString s => Ok s | _ => Throw EUnexpectedItem end.

Definition bool_meaning (v : TValue) : Result bool :=
  match v with
  | VBoolean b => Ok b
  | VString s => ParseBool s
  | VInt64 z | VUint64 z => bool_of_integer z
  | _ => Throw EUnexpectedItem
  end.

Definition char_meaning (v : TValue) : Result byte :=
  match v with VString [b] => Ok b | VString _ => Throw EInvalidArgument | _ => Throw EUnexpectedItem end.

(** A function that skips attributes first has to be right on values. *)
Lemma skipping_on {A} (f : Cursor.t → Result (Cursor.t * A)) (r : TValue → Result A) n tt tokens c p (a : list TFrame) cur :
  (∀ v tv p cur, ValueTok v tv → expects p = true → on cur (tv ++ tokens) ((c, p) :: a) → fits_level L (length a) (value_levels v) →
     moves tokens ((c, PSeparator) :: a) (r v) (f cur)) →
  NodeTok n tt → allowed n p → on cur (tt ++ tokens) ((c, p) :: a) → fits_level L (length a) (node_levels n) →
  moves tokens ((c, PSeparator) :: a) (r (node_value n)) (MaybeSkipAttributes fd cur ≫= f).
Proof.
  intros Hf Hn Hp Hon Hfits. destruct (maybe_skip_on n tt tokens c p a cur Hn Hp Hon Hfits) as (cur' & tv & p' & -> & Hv & Hp' & Hon' & Hfv).
  run_bind. by eapply Hf.
Qed.

Lemma integer_on isSigned w v tv tokens c p (a : list TFrame) cur : ValueTok v tv → expects p = true → on cur (tv ++ tokens) ((c, p) :: a) →
  moves tokens ((c, PSeparator) :: a) (int_meaning isSigned w v) (DeserializeInteger fd ndebug 1 isSigned w cur).
Proof.
  intros Hv Hp Hon. cbn [DeserializeInteger]. rewrite (value_current _ _ _ _ _ _ _ Hv Hon). destruct v; simpl; try done; by eapply result_next.
Qed.

Lemma bool_on v tv tokens c p (a : list TFrame) cur : ValueTok v tv → expects p = true → on cur (tv ++ tokens) ((c, p) :: a) →
  moves tokens ((c, PSeparator) :: a) (bool_meaning v) (DeserializeBool fd ndebug 1 cur).
Proof.
  intros Hv Hp Hon. cbn [DeserializeBool]. rewrite (value_current _ _ _ _ _ _ _ Hv Hon). destruct v as [| | | |b| | |]; simpl; try done; try by eapply result_next.
  by eapply (result_next (Ok b)).
Qed.

Lemma ensure_head v tv tokens c p (a : list TFrame) cur expected : ValueTok v tv → on cur (tv ++ tokens) ((c, p) :: a) →
  Cursor.EnsureYsonToken cur expected = if bool_decide (expected = GetType (value_head v)) then Ok () else Throw EUnexpectedItem.
Proof. intros Hv Hon. unfold Cursor.EnsureYsonToken, Cursor.GetType. by rewrite (value_current _ _ _ _ _ _ _ Hv Hon). Qed.

Lemma string_on v tv tokens c p (a : list TFrame) cur : ValueTok v tv → expects p = true → on cur (tv ++ tokens) ((c, p) :: a) →
  moves tokens ((c, PSeparator) :: a) (string_meaning v)
    (_ ← Cursor.EnsureYsonToken cur StringValue;
     match Cursor.Current_ cur with ItemString value => cursor ← Cursor.Next fd ndebug cur; Ok (cursor, value) | _ => Crash end).
Proof.
  intros Hv Hp Hon. rewrite (ensure_head v tv tokens c p a cur StringValue Hv Hon), (value_current _ _ _ _ _ _ _ Hv Hon).
  destruct v as [s| | | | | | |]; simpl; try done. by eapply (result_next (Ok s)).
Qed.

Lemma char_on v tv tokens c p (a : list TFrame) cur : ValueTok v tv → expects p = true → on cur (tv ++ tokens) ((c, p) :: a) →
  moves tokens ((c, PSeparator) :: a) (char_meaning v)
    (_ ← Cursor.EnsureYsonToken cur StringValue;
     match Cursor.Current_ cur with
     | ItemString [value] => cursor ← Cursor.Next fd ndebug cur; Ok (cursor, value)
     | ItemString _ => Throw EInvalidArgument
     | _ => Crash
     end).
Proof.
  intros Hv Hp Hon. rewrite (ensure_head v tv tokens c p a cur StringValue Hv Hon), (value_current _ _ _ _ _ _ _ Hv Hon).
  destruct v as [[|b []]| | | | | | |]; simpl; try done. by eapply (result_next (Ok b)).
Qed.
End Spec.

Lemma int_reads isSigned w : reads_as (T := TInt isSigned w) (λ _, int_meaning isSigned w).
Proof.
  intros fd ndebug L n tt tokens c p a cursor old Hfd HL Hn Hp Hon Hf. cbn [Deserialize int_deserializable]. rewrite DeserializeInteger_skip.
  eapply (skipping_on fd Hfd L HL); try done. intros. by eapply integer_on.
Qed.
#[export] Instance int_readable isSigned w : Readable (TInt isSigned w) := {| Meaning _ := int_meaning isSigned w |}.
#[export] Instance int_laws isSigned w : DeserializeLaws (TInt isSigned w).
Proof. constructor. exact (int_reads isSigned w). Qed.

Lemma bool_reads : reads_as (T := bool) (λ _, bool_meaning).
Proof.
  intros fd ndebug L n tt tokens c p a cursor old Hfd HL Hn Hp Hon Hf. cbn [Deserialize bool_deserializable]. rewrite DeserializeBool_skip.
  eapply (skipping_on fd Hfd L HL); try done. intros. by eapply bool_on.
Qed.
#[export] Instance bool_readable : Readable (bool) := {| Meaning _ := bool_meaning |}.
#[export] Instance bool_laws : DeserializeLaws (bool).
Proof. constructor. exact bool_reads. Qed.

Lemma string_reads : reads_as (T := TString) (λ _, string_meaning).
Proof.
  intros fd ndebug L n tt tokens c p a cursor old Hfd HL Hn Hp Hon Hf. cbn [Deserialize string_deserializable]. unfold DeserializeString.
  eapply (skipping_on fd Hfd L HL); try done. intros. by eapply string_on.
Qed.
#[export] Instance string_readable : Readable (TString) := {| Meaning _ := string_meaning |}.
#[export] Instance string_laws : DeserializeLaws (TString).
Proof. constructor. exact string_reads. Qed.

Lemma char_reads : reads_as (T := byte) (λ _, char_meaning).
Proof.
  intros fd ndebug L n tt tokens c p a cursor old Hfd HL Hn Hp Hon Hf. cbn [Deserialize char_deserializable]. unfold DeserializeChar.
  eapply (skipping_on fd Hfd L HL); try done. intros. by eapply char_on.
Qed.
#[export] Instance char_readable : Readable (byte) := {| Meaning _ := char_meaning |}.
#[export] Instance char_laws : DeserializeLaws (byte).
Proof. constructor. exact char_reads. Qed.

(** ** Optionals and collections *)

Lemma reads_value {T} `{DeserializeLaws T} fd ndebug L v tv tokens c p (a : list TFrame) cur old : total_conversion fd → Z.of_nat L < 2 ^ 32 →
  ValueTok v tv → expects p = true → on fd L cur (tv ++ tokens) ((c, p) :: a) → fits_level L (length a) (value_levels v) →
  moves fd L tokens ((c, PSeparator) :: a) (Meaning old v) (Deserialize fd ndebug old cur).
Proof.
  intros Hfd HL Hv Hp Hon Hf. apply (Deserialize_on fd ndebug L (Node None v) tv tokens c p a cur old); try done.
  - by constructor.
  - destruct p; try done; [by right|by left].
Qed.

Definition optional_meaning {T} `{Deserializable T, Readable T} (old : option T) (v : TValue) : Result (option T) :=
  match v with VEntity => Ok None | _ => x ← Meaning (default Construct old) v; Ok (Some x) end.

Lemma optional_reads {T} `{DeserializeLaws T} : reads_as (optional_meaning (T := T)).
Proof.
  intros fd ndebug L n tt tokens c p a cursor old Hfd HL Hn Hp Hon Hf. cbn [Deserialize optional_deserializable]. unfold DeserializeOptional.
  eapply (skipping_on fd Hfd L HL _ (optional_meaning old)); try done. clear n tt p cursor Hn Hp Hon Hf. intros v tv p cur Hv Hp Hon Hf.
  assert (Cursor.GetType cur = GetType (value_head v)) as Htype by (unfold Cursor.GetType; by rewrite (value_current _ _ _ _ _ _ _ _ _ Hv Hon)).
  assert (v ≠ VEntity → moves fd L tokens ((c, PSeparator) :: a) (optional_meaning old v)
    ('(cursor, x) ← Deserialize fd ndebug (default Construct old) cur; Ok (cursor, Some x))) as Hsome.
  { intros Hne. assert (optional_meaning old v = x ← Meaning (default Construct old) v; Ok (Some x)) as -> by (by destruct v).
    eapply moves_bind; [by eapply reads_value|]. intros cur' x Hon'. by exists cur'. }
  case_bool_decide as E; rewrite Htype in E.
  - destruct v; try done. by eapply (result_next fd ndebug Hfd L HL (Ok None)).
  - apply Hsome. by intros ->.
Qed.
#[export] Instance optional_readable {T} `{Deserializable T, Readable T} : Readable (option T) := {| Meaning := optional_meaning |}.
#[export] Instance optional_laws {T} `{DeserializeLaws T} : DeserializeLaws (option T).
Proof. constructor. exact optional_reads. Qed.

Lemma consume_off cur : Cursor.IsOnFragmentStart_ cur = false → Cursor.TryConsumeFragmentStart cur = (cur, false).
Proof. by destruct cur; simpl; intros ->. Qed.

Lemma over_collection_off {V} fd parse (f : Cursor.t → V → Result (Cursor.t * V)) cur v : Cursor.IsOnFragmentStart_ cur = false →
  over_collection fd parse f cur v = cur ← MaybeSkipAttributes fd cur; parse f cur v.
Proof. destruct cur; simpl. by intros ->. Qed.

Lemma over_collection_on {V} fd parse (f : Cursor.t → V → Result (Cursor.t * V)) cur v : Cursor.IsOnFragmentStart_ cur = true →
  over_collection fd parse f cur v = Cursor.parse_loop EndOfStream f (Cursor.loop_fuel cur) (fst (Cursor.TryConsumeFragmentStart cur)) v.
Proof. destruct cur; simpl. by intros ->. Qed.

(** A collection that is a list, a map, in a document. *)
Lemma list_collection {V} fd ndebug L (f : Cursor.t → V → Result (Cursor.t * V)) (g : TNode → V → Result V) n tt tokens c p (a : list TFrame) cur x :
  total_conversion fd → Z.of_nat L < 2 ^ 32 → (∀ n, consumes fd L f n (g n)) → NodeTok n tt → allowed n p →
  on fd L cur (tt ++ tokens) ((c, p) :: a) → fits_level L (length a) (node_levels n) →
  moves fd L tokens ((c, PSeparator) :: a) (match node_value n with VList items => over_items g items x | _ => Throw EUnexpectedItem end)
    (over_collection fd (Cursor.ParseList fd ndebug) f cur x).
Proof.
  intros Hfd HL Hg Hn Hp Hon Hf. rewrite over_collection_off by apply Hon.
  apply (skipping_on fd Hfd L HL _ (λ v, match v with VList items => over_items g items x | _ => Throw EUnexpectedItem end) n tt tokens c p); try done.
  clear - Hfd HL Hg. intros v tv p cur Hv Hp Hon Hf. destruct v as [| | | | | |items|]; cycle 6.
  { inversion Hv as [? ? E|items' body Hbody|]; [done|]; subst. cbn [app] in Hon. rewrite <- app_assoc in Hon.
    by eapply (parse_list_on fd ndebug Hfd L HL). }
  all: unfold Cursor.ParseList, Cursor.ParseComposite; by rewrite (ensure_head fd L _ tv tokens c p a cur _ Hv Hon).
Qed.

Lemma map_collection {V} fd ndebug L (f : Cursor.t → V → Result (Cursor.t * V)) (g : list byte * TNode → V → Result V) n tt tokens c p (a : list TFrame) cur x :
  total_conversion fd → Z.of_nat L < 2 ^ 32 → (∀ key n, consumes_keyed fd L f key n (g (key, n))) → NodeTok n tt → allowed n p →
  on fd L cur (tt ++ tokens) ((c, p) :: a) → fits_level L (length a) (node_levels n) →
  moves fd L tokens ((c, PSeparator) :: a) (match node_value n with VMap items => over_items g items x | _ => Throw EUnexpectedItem end)
    (over_collection fd (Cursor.ParseMap fd ndebug) f cur x).
Proof.
  intros Hfd HL Hg Hn Hp Hon Hf. rewrite over_collection_off by apply Hon.
  apply (skipping_on fd Hfd L HL _ (λ v, match v with VMap items => over_items g items x | _ => Throw EUnexpectedItem end) n tt tokens c p); try done.
  clear - Hfd HL Hg. intros v tv p cur Hv Hp Hon Hf. destruct v as [| | | | | | |items]; cycle 7.
  { inversion Hv as [? ? E| |items' body Hbody]; [done|]; subst. cbn [app] in Hon. rewrite <- app_assoc in Hon.
    by eapply (parse_map_on fd ndebug Hfd L HL). }
  all: unfold Cursor.ParseMap, Cursor.ParseComposite; by rewrite (ensure_head fd L _ tv tokens c p a cur _ Hv Hon).
Qed.

(** ** Vectors *)

Section Vector.
Context {T : Type} `{DeserializeLaws T}.

(** Item by item; an item that was there before is read over. *)
Fixpoint vector_items (olds : list T) (items : list TNode) : Result (list T) :=
  match items with
  | [] => Ok []
  | n :: items => x ← Meaning (default Construct (head olds)) (node_value n); xs ← vector_items (tail olds) items; Ok (x :: xs)
  end.

Definition vector_step (n : TNode) (v : list T * nat) : Result (list T * nat) :=
  let '(value, index) := v in
  match value !! index with
  | Some old => x ← Meaning old (node_value n); Ok (<[index := x]> value, S index)
  | None => x ← Meaning Construct (node_value n); Ok (value ++ [x], S index)
  end.

Lemma vector_item_consumes fd ndebug L n : total_conversion fd → Z.of_nat L < 2 ^ 32 → consumes fd L (vector_item fd ndebug) n (vector_step n).
Proof.
  intros Hfd HL tt tokens c a cur [value index] Hn Hon Hf. simpl.
  destruct (value !! index) as [old|]; (eapply moves_bind; [eapply Deserialize_on; try done; by left|]); intros cur' x Hon'; by exists cur'.
Qed.

(** [index] never exceeds the size; what is behind it is the old value. *)
Lemma vector_steps items done olds :
  over_items vector_step items (done ++ olds, length done) =
    xs ← vector_items olds items; Ok ((done ++ xs) ++ drop (length items) olds, (length done + length items)%nat).
Proof.
  revert done olds. induction items as [|n items IH]; intros done olds; simpl.
  - by rewrite app_nil_r, drop_0, Nat.add_0_r.
  - rewrite lookup_app_r, Nat.sub_diag by lia. destruct olds as [|old olds]; simpl.
    + destruct (Meaning Construct (node_value n)) as [x| | |]; [|done..]. simpl. specialize (IH (done ++ [x]) []).
      rewrite length_app in IH. simpl in IH. rewrite app_nil_r, Nat.add_comm in IH. simpl in IH. rewrite app_nil_r, IH.
      destruct (vector_items [] items) as [xs| | |]; [|done..]. simpl. rewrite drop_nil, !app_nil_r, <- app_assoc, Nat.add_succ_r. done.
    + destruct (Meaning old (node_value n)) as [x| | |]; [|done..]. simpl. rewrite insert_app_r_alt, Nat.sub_diag by lia. simpl.
      specialize (IH (done ++ [x]) olds). rewrite length_app, <- app_assoc in IH. simpl in IH. rewrite Nat.add_comm in IH. simpl in IH. rewrite IH.
      destruct (vector_items olds items) as [xs| | |]; [|done..]. simpl. by rewrite <- (app_assoc done), Nat.add_succ_r.
Qed.

Lemma vector_items_length olds items xs : vector_items olds items = Ok xs → length xs = length items.
Proof.
  revert olds xs. induction items as [|n items IH]; intros olds xs; simpl; [by intros [= <-]|].
  destruct (Meaning _ _) as [x| | |]; [|done..]. simpl. destruct (vector_items (tail olds) items) as [xs'| | |] eqn:E; [|done..].
  simpl. intros [= <-]. simpl. f_equal. by eapply IH.
Qed.

Lemma vector_result items olds :
  ('(value, index) ← over_items vector_step items (olds, 0%nat); Ok (take index value)) = vector_items olds items.
Proof.
  rewrite (vector_steps items [] olds : over_items _ _ (olds, 0%nat) = _). destruct (vector_items olds items) as [xs| | |] eqn:E; [|done..].
  simpl. apply vector_items_length in E. by rewrite take_app_le, take_ge by lia.
Qed.

Definition vector_meaning (old : list T) (v : TValue) : Result (list T) :=
  match v with VList items => vector_items old items | _ => Throw EUnexpectedItem end.

Lemma vector_reads : reads_as vector_meaning.
Proof.
  intros fd ndebug L n tt tokens c p a cur old Hfd HL Hn Hp Hon Hf. cbn [Deserialize vector_deserializable]. unfold DeserializeVector.
  pose proof (list_collection fd ndebug L (vector_item fd ndebug) vector_step n tt tokens c p a cur (old, 0%nat) Hfd HL
    (λ n, vector_item_consumes fd ndebug L n Hfd HL) Hn Hp Hon Hf) as Hc.
  assert (vector_meaning old (node_value n) =
    '(value, index) ← match node_value n with VList items => over_items vector_step items (old, 0%nat) | _ => Throw EUnexpectedItem end; Ok (take index value)) as ->.
  { destruct (node_value n); try done. symmetry. apply vector_result. }
  eapply moves_bind; [exact Hc|]. intros cur' [value index] Hon'. by exists cur'.
Qed.
End Vector.
#[export] Instance vector_readable {T} `{Deserializable T, Readable T} : Readable (list T) := {| Meaning := vector_meaning |}.
#[export] Instance vector_laws {T} `{DeserializeLaws T} : DeserializeLaws (list T).
Proof. constructor. exact vector_reads. Qed.

(** ** Sets and maps *)

Section Associative.
Context {T : Type} `{DeserializeLaws T}.

(** The elements of the list. *)
Definition set_meaning `{Countable T} (_ : gset T) (v : TValue) : Result (gset T) :=
  match v with VList items => xs ← vector_items [] items; Ok (list_to_set xs) | _ => Throw EUnexpectedItem end.

Definition set_step `{Countable T} (n : TNode) (value : gset T) : Result (gset T) :=
  x ← Meaning Construct (node_value n); Ok ({[x]} ∪ value).

Lemma set_steps `{Countable T} items (value : gset T) :
  over_items set_step items value = xs ← vector_items [] items; Ok (list_to_set xs ∪ value).
Proof.
  revert value. induction items as [|n items IH]; intros value; simpl; [f_equal; by rewrite (left_id_L ∅ (∪))|].
  change (set_step n value) with (x ← Meaning Construct (node_value n); Ok ({[x]} ∪ value)). destruct (Meaning Construct (node_value n)) as [x| | |]; [|done..]. simpl. rewrite IH.
  destruct (vector_items [] items) as [xs| | |]; [|done..]. simpl. f_equal. rewrite !(assoc_L (∪)). f_equal. apply (comm_L (∪)).
Qed.

Lemma set_item_consumes `{Countable T} fd ndebug L n : total_conversion fd → Z.of_nat L < 2 ^ 32 → consumes fd L (set_item fd ndebug) n (set_step n).
Proof.
  intros Hfd HL tt tokens c a cur value Hn Hon Hf. eapply moves_bind; [eapply Deserialize_on; try done; by left|]. intros cur' x Hon'. by exists cur'.
Qed.

Lemma set_reads `{Countable T} : reads_as set_meaning.
Proof.
  intros fd ndebug L n tt tokens c p a cur old Hfd HL Hn Hp Hon Hf. cbn [Deserialize set_deserializable]. unfold DeserializeSet.
  pose proof (list_collection fd ndebug L (set_item fd ndebug) set_step n tt tokens c p a cur ∅ Hfd HL
    (λ n, set_item_consumes fd ndebug L n Hfd HL) Hn Hp Hon Hf) as Hc.
  replace (set_meaning old (node_value n)) with
    (match node_value n with VList items => over_items set_step items ∅ | _ => Throw EUnexpectedItem end); [exact Hc|].
  destruct (node_value n) as [| | | | | |items|]; try done. simpl. rewrite set_steps.
  destruct (vector_items [] items) as [xs| | |]; [|done..]. simpl. f_equal. apply (right_id_L ∅ (∪)).
Qed.

(** One key at a time; a key that is there already is refused, after its value was read. *)
Definition map_step (item : list byte * TNode) (value : gmap TString T) : Result (gmap TString T) :=
  let '(key, n) := item in
  x ← Meaning Construct (node_value n);
  match value !! (key : TString) with Some _ => Throw EDuplicateKey | None => Ok (<[key : TString := x]> value) end.

Definition map_meaning (_ : gmap TString T) (v : TValue) : Result (gmap TString T) :=
  match v with VMap items => over_items map_step items ∅ | _ => Throw EUnexpectedItem end.

Lemma key_on fd ndebug L key tokens c (a : list TFrame) cur (old : TString) : total_conversion fd → Z.of_nat L < 2 ^ 32 → is_map c = true →
  on fd L cur (Item (ItemString key) :: Equality :: tokens) ((c, PKey) :: a) →
  ∃ cur', Deserialize fd ndebug old cur = Ok (cur', key : TString) ∧ on fd L cur' tokens ((c, PValue) :: a).
Proof.
  intros Hfd HL Hc Hon. cbn [Deserialize string_deserializable]. unfold DeserializeString, MaybeSkipAttributes, Cursor.EnsureYsonToken, Cursor.GetType.
  rewrite (on_current _ _ _ _ _ _ Hon), bool_decide_eq_false_2 by done. run_bind.
  rewrite (on_current _ _ _ _ _ _ Hon), bool_decide_eq_true_2 by done. run_bind.
  destruct (next_on fd ndebug Hfd L HL _ _ _ ((c, PEquality) :: a) cur Hon) as (cur' & -> & Hon'); [by destruct c|]. run_bind.
  exists cur'. split; [done|]. eapply (on_punct _ _ HL Equality); done.
Qed.

Lemma map_item_consumes fd ndebug L key n : total_conversion fd → Z.of_nat L < 2 ^ 32 →
  consumes_keyed fd L (map_item fd ndebug (K := TString)) key n (map_step (key, n)).
Proof.
  intros Hfd HL tt tokens c a cur value Hn Hc Hon Hf. unfold map_item, ExtractTo.
  destruct (key_on fd ndebug L key (tt ++ tokens) c a cur Construct Hfd HL Hc Hon) as (cur1 & -> & Hon1). run_bind. unfold map_step.
  eapply moves_bind; [eapply Deserialize_on; try done; by left|]. intros cur2 x Hon2. simpl.
  destruct (value !! (key : TString)); [done|]. by exists cur2.
Qed.

Lemma map_reads : reads_as map_meaning.
Proof.
  intros fd ndebug L n tt tokens c p a cur old Hfd HL Hn Hp Hon Hf.
  exact (map_collection fd ndebug L (map_item fd ndebug) map_step n tt tokens c p a cur ∅ Hfd HL
    (λ key n, map_item_consumes fd ndebug L key n Hfd HL) Hn Hp Hon Hf).
Qed.
End Associative.
#[export] Instance set_readable {T} `{Deserializable T, Readable T, Countable T} : Readable (gset T) := {| Meaning := set_meaning |}.
#[export] Instance set_laws {T} `{DeserializeLaws T, Countable T} : DeserializeLaws (gset T).
Proof. constructor. exact set_reads. Qed.
#[export] Instance map_readable {T} `{Deserializable T, Readable T} : Readable (gmap TString T) := {| Meaning := map_meaning |}.
#[export] Instance map_laws {T} `{DeserializeLaws T} : DeserializeLaws (gmap TString T).
Proof. constructor. exact map_reads. Qed.

(** ** Tuples *)

(** The cursor is inside a list with these items to come. *)
Definition in_list fd L (items : list TNode) cur tokens (a : list TFrame) : Prop := ∃ body p,
  (ListTok items body ∧ p = PValue ∨ items = [] ∧ body = [] ∧ p = PSeparator) ∧
  on fd L cur (body ++ Item (Simple EndList) :: tokens) ((CList, p) :: a) ∧ fits_level L (length a) (list_levels items).

(** The components take items as long as there are any; the items left over. *)
Definition reads_items {T} `{TupleDeserializable T} (meaning : T → list TNode → Result (T * list TNode)) : Prop :=
  ∀ fd ndebug L items tokens (a : list TFrame) cur old, total_conversion fd → Z.of_nat L < 2 ^ 32 → in_list fd L items cur tokens a →
    match meaning old items with
    | Ok (x, rest) => ∃ cur', DeserializeItem fd ndebug old cur = Ok (cur', x) ∧ in_list fd L rest cur' tokens a
    | Throw e => DeserializeItem fd ndebug old cur = Throw e
    | Crash => DeserializeItem fd ndebug old cur = Crash
    | OutOfFuel => DeserializeItem fd ndebug old cur = OutOfFuel
    end.

Class TupleReadable (T : Type) := { ItemsMeaning : T → list TNode → Result (T * list TNode) }.
Class TupleLaws (T : Type) `{TupleDeserializable T, TupleReadable T} : Prop := { DeserializeItem_on : reads_items ItemsMeaning }.

Lemma tuple_none_reads : reads_items (T := ()) (λ x items, Ok (x, items)).
Proof. intros fd ndebug L items tokens a cur old Hfd HL Hin. by exists cur. Qed.
#[export] Instance tuple_none_readable : TupleReadable () := {| ItemsMeaning x items := Ok (x, items) |}.
#[export] Instance tuple_none_laws : TupleLaws ().
Proof. constructor. exact tuple_none_reads. Qed.

Lemma in_list_nil fd L cur tokens (a : list TFrame) : in_list fd L [] cur tokens a → Cursor.GetType cur = EndList.
Proof.
  intros (body & p & Hbody & Hon & _). assert (body = []) as -> by (destruct Hbody as [[Hb _]|(_ & -> & _)]; [by inversion Hb|done]).
  unfold Cursor.GetType. by rewrite (on_current _ _ _ _ _ _ Hon).
Qed.

Lemma in_list_cons fd L n items cur tokens (a : list TFrame) : Z.of_nat L < 2 ^ 32 → in_list fd L (n :: items) cur tokens a →
  Cursor.GetType cur ≠ EndList ∧ ∃ tt ts, NodeTok n tt ∧ on fd L cur (tt ++ ts) ((CList, PValue) :: a) ∧ fits_level L (length a) (node_levels n) ∧
    ∀ cur', on fd L cur' ts ((CList, PSeparator) :: a) → in_list fd L items cur' tokens a.
Proof.
  intros HL (body & p & Hbody & Hon & Hf). destruct Hbody as [[Hbody ->]|(? & _)]; [|done]. simpl in Hf. apply fits_max in Hf as [Hfn Hfi].
  assert (∃ tt ts, NodeTok n tt ∧ body ++ Item (Simple EndList) :: tokens = tt ++ ts ∧
    ∀ cur', on fd L cur' ts ((CList, PSeparator) :: a) → in_list fd L items cur' tokens a) as (tt & ts & Hn & E & Hrest).
  { inversion Hbody as [|n' t Hn|n' t items' ts Hn Hts]; subst.
    - exists body, (Item (Simple EndList) :: tokens). split_and!; [done..|]. intros cur' H'. exists [], PSeparator. split_and!; [by right|done|by left].
    - exists t, (Separator :: ts ++ Item (Simple EndList) :: tokens). split_and!; [done|by rewrite <- app_assoc|]. intros cur' H'.
      exists ts, PValue. split_and!; [by left| |done]. by eapply (on_punct _ _ HL Separator). }
  rewrite E in Hon. split; [|by exists tt, ts]. destruct (node_head_type _ _ Hn) as (item & rest & -> & Hi).
  unfold Cursor.GetType. rewrite (on_current _ _ _ _ _ _ Hon). intros E'. by rewrite E' in Hi.
Qed.

Definition tuple_more_meaning {T A} `{TupleReadable T, Readable A} (old : T * A) (items : list TNode) : Result (T * A * list TNode) :=
  '(first, items) ← ItemsMeaning (fst old) items;
  match items with
  | [] => Ok ((first, snd old), [])
  | n :: items => last ← Meaning (snd old) (node_value n); Ok ((first, last), items)
  end.

Lemma tuple_more_reads {T A} `{TupleLaws T, DeserializeLaws A} : reads_items (tuple_more_meaning (T := T) (A := A)).
Proof.
  intros fd ndebug L items tokens a cur [first last] Hfd HL Hin. pose proof (DeserializeItem_on fd ndebug L items tokens a cur first Hfd HL Hin) as Hfirst.
  unfold tuple_more_meaning. cbn [DeserializeItem tuple_more]. unfold DeserializeItemOfTuple. cbn [fst snd]. destruct (ItemsMeaning first items) as [[x rest]| | |]; run_bind; [|by rewrite Hfirst..].
  destruct Hfirst as (cur1 & -> & Hin1). run_bind. destruct rest as [|n rest].
  - rewrite bool_decide_eq_true_2 by (by eapply in_list_nil). by exists cur1.
  - destruct (in_list_cons fd L n rest cur1 tokens a HL Hin1) as (Hne & tt & ts & Hn & Hon & Hf & Hrest). rewrite bool_decide_eq_false_2 by done.
    pose proof (Deserialize_on fd ndebug L n tt ts CList PValue a cur1 last Hfd HL Hn ltac:(by left) Hon Hf) as Hd.
    destruct (Meaning last (node_value n)) as [y| | |]; simpl in Hd; run_bind; [|by rewrite Hd..].
    destruct Hd as (cur2 & -> & Hon2). run_bind. exists cur2. split; [done|by apply Hrest].
Qed.
#[export] Instance tuple_more_readable {T A} `{TupleReadable T, Readable A} : TupleReadable (T * A) := {| ItemsMeaning := tuple_more_meaning |}.
#[export] Instance tuple_more_laws {T A} `{TupleLaws T, DeserializeLaws A} : TupleLaws (T * A).
Proof. constructor. exact tuple_more_reads. Qed.

(** The items left over are skipped. *)
Lemma skip_rest fd L items cur tokens (a : list TFrame) : total_conversion fd → Z.of_nat L < 2 ^ 32 → in_list fd L items cur tokens a →
  ∃ cur' p, Cursor.parse_loop EndList (λ cursor _, cursor ← Cursor.SkipComplexValue fd cursor; Ok (cursor, ())) (Cursor.loop_fuel cur) cur () = Ok (cur', ()) ∧
    on fd L cur' (Item (Simple EndList) :: tokens) ((CList, p) :: a).
Proof.
  intros Hfd HL (body & p & Hbody & Hon & Hf). set (f := λ cursor (_ : ()), _).
  assert (∀ n, consumes fd L f n (λ _, Ok ())) as Hg.
  { intros n tt ts c b cur1 v Hn Hon1 Hf1. destruct (skip_on fd Hfd L HL n tt ts c b cur1 Hn Hon1 Hf1) as (cur2 & E & Hon2).
    unfold f. rewrite E. by exists cur2. }
  assert (∀ items, over_items (λ (_ : TNode) (_ : ()), Ok ()) items () = Ok ()) as Hover by (intros items0; by induction items0).
  assert (ends fd L CList a (Item (Simple EndList) :: tokens) (Ok ()) (Cursor.parse_loop EndList f (Cursor.loop_fuel cur) cur ())) as [q (cur' & E & Hon')].
  2: { by exists cur', q. }
  assert (∀ cur p, on fd L cur (Item (Simple EndList) :: tokens) ((CList, p) :: a) → Cursor.GetType cur = EndList) as Htail.
  { intros. by eapply (tail_end fd L CList). }
  destruct Hbody as [[Hbody ->]|(-> & -> & ->)]; [|by eapply loop_end].
  rewrite <- (Hover items). eapply (loop_list fd L HL f EndList eq_refl CList a _ Htail (λ _ _, Ok ()) items body); try done; [by left|].
  pose proof (on_length fd L _ _ _ Hon (list_starts _ _ (Item (Simple EndList) :: tokens) Hbody I)) as Hlen. rewrite length_app in Hlen. apply list_count in Hbody. lia.
Qed.

Definition tuple_meaning {T} `{TupleReadable T} (old : T) (v : TValue) : Result T :=
  match v with VList items => '(x, _) ← ItemsMeaning old items; Ok x | _ => Throw EUnexpectedItem end.

Lemma tuple_reads {T} `{TupleLaws T} : reads_as (T := TTuple T) (tuple_meaning (T := T)).
Proof.
  intros fd ndebug L n tt tokens c p a cur old Hfd HL Hn Hp Hon Hf. cbn [Deserialize tuple_deserializable]. unfold DeserializeTuple. rewrite (consume_off cur (proj1 Hon)).
  destruct (maybe_skip_on fd Hfd L HL n tt tokens c p a cur Hn Hp Hon Hf) as (cur1 & tv & p' & -> & Hv & Hp' & Hon1 & Hfv). run_bind.
  rewrite (ensure_head fd L _ tv tokens c p' a cur1 _ Hv Hon1). destruct (node_value n) as [| | | | | |items|]; try done. simpl bool_decide. run_bind.
  inversion Hv as [? ? E|items' body Hbody|]; [done|]; subst. cbn [app] in Hon1. rewrite <- app_assoc in Hon1.
  rewrite value_levels_list in Hfv. apply fits_S in Hfv as [Hlt Hfi].
  destruct (next_on fd ndebug Hfd L HL _ _ _ ((CList, PValue) :: (c, PSeparator) :: a) cur1 Hon1) as (cur2 & -> & Hon2).
  { by auto with yson. }
  run_bind. assert (in_list fd L items cur2 tokens ((c, PSeparator) :: a)) as Hin by (exists body, PValue; split_and!; [by left|done..]).
  pose proof (DeserializeItem_on (T := T) fd ndebug L items tokens _ cur2 old Hfd HL Hin) as Hitems. unfold tuple_meaning.
  destruct (ItemsMeaning (T := T) old items) as [[x rest]| | |]; run_bind; [|by rewrite Hitems..]. destruct Hitems as (cur3 & -> & Hin3). run_bind.
  destruct (skip_rest fd L rest cur3 tokens _ Hfd HL Hin3) as (cur4 & q & E & Hon4). rewrite E. run_bind.
  destruct (next_on fd ndebug Hfd L HL _ _ _ ((c, PSeparator) :: a) cur4 Hon4) as (cur5 & -> & Hon5); [by apply (closing_step fd L CList q _ tokens cur4); [|left]|].
  run_bind. by exists cur5.
Qed.
#[export] Instance tuple_readable {T} `{TupleReadable T} : Readable (TTuple T) := {| Meaning := tuple_meaning (T := T) |}.
#[export] Instance tuple_laws {T} `{TupleLaws T} : DeserializeLaws (TTuple T).
Proof. constructor. exact tuple_reads. Qed.

(** ** The types that can be read *)

(** The types built from the overloads; the components of a tuple from the last to the first. *)
Inductive TTypeCode : Set :=
| CodeInt (isSigned : bool) (w : Z)
| CodeString
| CodeBool
| CodeChar
| CodeOptional (code : TTypeCode)
| CodeVector (code : TTypeCode)
| CodeSet (code : TTypeCode)
| CodeMap (code : TTypeCode)
| CodeTuple (codes : TTupleCode)
with TTupleCode : Set :=
| CodeNone
| CodeMore (codes : TTupleCode) (code : TTypeCode).

(** A type with what its overload needs and what it reads. *)
Record TCoded := {
  coded_type :> Type;
  coded_eq : EqDecision coded_type;
  coded_countable : Countable coded_type;
  coded_deserializable : Deserializable coded_type;
  coded_readable : Readable coded_type
}.
Record TCodedTuple := {
  tuple_type :> Type;
  tuple_eq : EqDecision tuple_type;
  tuple_countable : Countable tuple_type;
  tuple_items : TupleDeserializable tuple_type;
  tuple_items_readable : TupleReadable tuple_type
}.
#[export] Existing Instances coded_eq coded_countable coded_deserializable coded_readable tuple_eq tuple_countable tuple_items tuple_items_readable.

#[export] Instance TTuple_eq_dec `{EqDecision T} : EqDecision (TTuple T) := _ : EqDecision T.
#[export] Instance TTuple_countable `{Countable T} : Countable (TTuple T) := _ : Countable T.

(** The type of a code. *)
Definition Coded (T : Type) `{Countable T, Deserializable T, Readable T} : TCoded :=
  {| coded_type := T; coded_eq := _; coded_countable := _; coded_deserializable := _; coded_readable := _ |}.
Definition CodedTuple (T : Type) `{Countable T, TupleDeserializable T, TupleReadable T} : TCodedTuple :=
  {| tuple_type := T; tuple_eq := _; tuple_countable := _; tuple_items := _; tuple_items_readable := _ |}.

Fixpoint coded (code : TTypeCode) : TCoded :=
  match code with
  | CodeInt isSigned w => Coded (TInt isSigned w)
  | CodeString => Coded TString
  | CodeBool => Coded bool
  | CodeChar => Coded byte
  | CodeOptional code => Coded (option (coded code))
  | CodeVector code => Coded (list (coded code))
  | CodeSet code => Coded (gset (coded code))
  | CodeMap code => Coded (gmap TString (coded code))
  | CodeTuple codes => Coded (TTuple (coded_tuple codes))
  end
with coded_tuple (codes : TTupleCode) : TCodedTuple :=
  match codes with
  | CodeNone => CodedTuple ()
  | CodeMore codes code => CodedTuple (coded_tuple codes * coded code)
  end.

Scheme TTypeCode_mutual := Induction for TTypeCode Sort Prop
with TTupleCode_mutual := Induction for TTupleCode Sort Prop.

(** Every overload computes what its type reads. *)
Lemma coded_laws code : DeserializeLaws (coded code).
Proof. induction code using TTypeCode_mutual with (P0 := λ codes, TupleLaws (coded_tuple codes)); cbn [coded coded_tuple Coded CodedTuple]; apply _. Qed.
#[export] Existing Instance coded_laws.

(** ** Whole texts *)

Lemma ConvertTo_text {T} `{DeserializeLaws T} fd ndebug n t ws1 ws2 : total_conversion fd → spaces ws1 → NodeText fd DefaultMemoryLimit n t → spaces ws2 →
  (node_depth n < 256)%nat → ConvertTo fd ndebug T YsonNode (ws1 ++ t ++ ws2) = Meaning Construct (node_value n).
Proof.
  intros Hfd Hws1 Ht Hws2 Hd. destruct (grammar_tokens fd) as (HN & _). destruct (HN _ _ Ht) as (tokens & Hn & Htok).
  assert (TokText fd tokens (ws1 ++ t ++ ws2)) as Htext.
  { apply TokText_spaces; [done|]. rewrite <- (app_nil_r tokens). apply Htok; [by constructor|]. rewrite <- (app_nil_r ws2). by apply delimited_spaces. }
  assert (fits_level 256 0 (node_levels n)) as Hf by (right; pose proof (proj1 levels_depth n); lia).
  assert (Z.of_nat 256 < 2 ^ 32) as HL by lia. pose proof (ModeTok_valid YsonNode _ _ _ 256 HL (ModeTok_node _ _ Hn) Hf) as Hv.
  set (s := TZeroCopyInputStreamReader [ws1 ++ t ++ ws2]).
  pose proof (new_before fd YsonNode 256 tokens _ HL Htext) as Hb. fold s in Hb.
  destruct (new_on fd Hfd 256 HL YsonNode tokens _ 0 Hv Hb) as (cur & E & Hon & Hstart). simpl in Hstart. rewrite consume_false in Hon by done.
  unfold ConvertTo. change DefaultYsonParserNestingLevelLimit with (Z.of_nat 256). fold s. rewrite E. run_bind. rewrite <- (app_nil_r tokens) in Hon.
  pose proof (Deserialize_on fd ndebug 256%nat n tokens [] CNode PValue [] cur Construct Hfd HL Hn ltac:(by left) Hon Hf) as Hd'.
  destruct (Meaning Construct (node_value n)) as [x| | |]; simpl in Hd'; [|by rewrite Hd'..].
  destruct Hd' as (cur' & -> & _ & _ & Ho). run_bind. by rewrite bool_decide_eq_true_2 by (unfold Cursor.GetType; by rewrite Ho).
Qed.

(** A collection that is a list fragment, from the first item to the end of the stream. *)
Lemma list_fragment {V} fd L parse (f : Cursor.t → V → Result (Cursor.t * V)) (g : TNode → V → Result V) items body cur x :
  Z.of_nat L < 2 ^ 32 → (∀ n, consumes fd L f n (g n)) → ListTok items body →
  Cursor.IsOnFragmentStart_ cur = true → on fd L (fst (Cursor.TryConsumeFragmentStart cur)) body (initial YsonListFragment) → fits_level L 0 (list_levels items) →
  ∃ p, moves fd L [] [(CListFragment, p)] (over_items g items x) (over_collection fd parse f cur x).
Proof.
  intros HL Hg Hbody Hstart Hon Hf. rewrite over_collection_on by done. rewrite <- (app_nil_r body) in Hon.
  apply (loop_list fd L HL f EndOfStream eq_refl CListFragment [] [] ltac:(intros cur' p (_ & _ & Ho); unfold Cursor.GetType; by rewrite Ho) g items body); try done; [by right|].
  pose proof (on_length fd L _ _ _ Hon (list_starts _ _ [] Hbody I)) as Hlen. rewrite app_nil_r in Hlen. apply list_count in Hbody.
  unfold Cursor.loop_fuel in *. simpl in Hlen. lia.
Qed.

Lemma fragment_cursor_items fd items t : total_conversion fd → ListText fd DefaultMemoryLimit items t → (list_depth items < 256)%nat →
  ∃ body cur, ListTok items body ∧ fits_level 256 0 (list_levels items) ∧
    Cursor.New fd YsonListFragment 0 (NewPullParser (TZeroCopyInputStreamReader [t]) YsonListFragment DefaultYsonParserNestingLevelLimit) = Ok cur ∧
    Cursor.IsOnFragmentStart_ cur = true ∧ on fd 256 (fst (Cursor.TryConsumeFragmentStart cur)) body (initial YsonListFragment).
Proof.
  intros Hfd Ht Hd. destruct (grammar_tokens fd) as (_ & _ & HLi & _). destruct (HLi _ _ Ht) as (body & Hbody & Htok).
  assert (Z.of_nat 256 < 2 ^ 32) as HL by lia. assert (list_levels items <= list_depth items)%nat as Hle.
  { clear. induction items as [|n items IH]; simpl; [lia|]. pose proof (proj1 levels_depth n). lia. }
  assert (fits_level 256 0 (list_levels items)) as Hf by (right; lia).
  pose proof (ModeTok_valid YsonListFragment _ _ _ 256 HL (ModeTok_list _ _ Hbody) Hf) as Hv.
  assert (before fd 256 body (initial YsonListFragment) (NewPullParser (TZeroCopyInputStreamReader [t]) YsonListFragment (Z.of_nat 256))) as Hb.
  { apply new_before; [done|]. rewrite <- (app_nil_r body), <- (app_nil_r t). apply Htok; [|done]. constructor. constructor. }
  destruct (new_on fd Hfd 256 HL YsonListFragment body _ 0 Hv Hb) as (cur & E & Hon & Hstart). by exists body, cur.
Qed.

(** ** Theorems *)

(** C6. Deserialization computes what the type reads from the document: for every type built
    from integers of any width, strings, booleans, characters, optionals, vectors, sets, maps
    with string keys and tuples, nested at will, and every text of a document (with any white
    space, attribute maps and mixture of text and binary forms) nested less deep than the
    limit, [ConvertTo] gives exactly what [Meaning] defines on the tree of the document, by
    recursion on the type and on the tree: integers that fit the type, the items of vectors in
    order, the elements of sets, maps without a repeated key, tuples with what there is for
    them; and the error defined there for documents of another form. Nothing is assumed of the
    overloads. (This is the template [ConvertTo]; an integer or a string that is the whole
    document has a specialization of its own, through the tokenizer.) *)
Theorem ConvertTo_correct (code : TTypeCode) (fd : list byte → Result Z) (ndebug : bool) (n : TNode) (t ws1 ws2 : list byte)
    (Hfd : total_conversion fd) (Hws1 : spaces ws1) (Ht : NodeText fd DefaultMemoryLimit n t) (Hws2 : spaces ws2)
    (Hdepth : (node_depth n < 256)%nat) :
  ConvertTo fd ndebug (coded code) YsonNode (ws1 ++ t ++ ws2) = Meaning Construct (node_value n).
Proof. by apply ConvertTo_text. Qed.

Lemma ConvertTo_correct_witness (code := CodeMap (CodeOptional (CodeInt true 8)))
  (n := λ key, Node None (VMap [(B"a", Node None VEntity); (key, Node None (VInt64 (-3)))])) :
  NodeText (λ _, Ok 0) DefaultMemoryLimit (n (B"b")) (B"{a=#;b=-3}") ∧
  ConvertTo (λ _, Ok 0) false (coded code) YsonNode (B" {a=#;b=-3}") = Ok (list_to_map [(B"a" : TString, None); (B"b" : TString, Some (-3 : TInt true 8))] : gmap TString (option (TInt true 8))) ∧
  ConvertTo (λ _, Ok 0) false (coded code) YsonNode (B"{a=#;a=-3}") = Throw EDuplicateKey.
Proof.
  assert (∀ c : byte, c = "a"%byte ∨ c = "b"%byte → NodeText (λ _, Ok 0) DefaultMemoryLimit (n [c]) (B"{a=#;" ++ c :: B"=-3}")) as Ht.
  { intros c Hc. assert (∀ d : byte, d = "a"%byte ∨ d = "b"%byte → StringText DefaultMemoryLimit [d] [d]) as Hs by (intros d [-> | ->]; (apply UnquotedText; [done|by repeat constructor|by vm_compute])).
    apply PlainNode. change (B"{a=#;" ++ c :: B"=-3}") with (BeginMapSymbol :: (B"a=#;" ++ c :: B"=-3") ++ [EndMapSymbol]). apply MapValue.
    apply (MapItem _ _ [] (B"a") (B"a") [] [] (Node None VEntity) (B"#") [] _ (c :: B"=-3")); [constructor|apply Hs; by left|constructor..| |constructor|].
    - apply PlainNode, ScalarValue, TextEntity.
    - apply (MapLast _ _ [] [c] [c] [] [] (Node None (VInt64 (-3))) (B"-3") []); [constructor|by apply Hs|constructor..| |constructor]. apply PlainNode, ScalarValue, TextInt64; [|by vm_compute].
      split; [by eexists _, _|]. split; [by repeat constructor|]. split; [done|]. by vm_compute. }
  split; [exact (Ht "b"%byte (or_intror eq_refl))|]. split.
  - exact (ConvertTo_correct code (λ _, Ok 0) false _ _ (B" ") [] ltac:(done) ltac:(by constructor) (Ht "b"%byte (or_intror eq_refl)) ltac:(constructor) ltac:(simpl; lia)).
  - exact (ConvertTo_correct code (λ _, Ok 0) false _ _ [] [] ltac:(done) ltac:(by constructor) (Ht "a"%byte (or_introl eq_refl)) ltac:(constructor) ltac:(simpl; lia)).
Defined.

(** List fragments: [ConvertTo] of a vector type reads the items of a list fragment, up to the
    end of the stream, exactly as it reads the same items between brackets. *)
Theorem ConvertTo_fragment {T} `{DeserializeLaws T} (fd : list byte → Result Z) (ndebug : bool) (items : list TNode) (t : list byte)
    (Hfd : total_conversion fd) (Ht : ListText fd DefaultMemoryLimit items t) (Hdepth : (list_depth items < 255)%nat) :
  ConvertTo fd ndebug (list T) YsonListFragment t = vector_items [] items ∧
  ConvertTo fd ndebug (list T) YsonNode (BeginListSymbol :: t ++ [EndListSymbol]) = vector_items [] items.
Proof.
  assert (Z.of_nat 256 < 2 ^ 32) as HL by lia. split.
  - destruct (fragment_cursor_items fd items t Hfd Ht ltac:(lia)) as (body & cur & Hbody & Hf & E & Hstart & Hon). unfold ConvertTo. rewrite E. run_bind.
    cbn [Deserialize vector_deserializable Construct]. unfold DeserializeVector.
    destruct (list_fragment fd 256 (Cursor.ParseList fd ndebug) (vector_item fd ndebug) vector_step items body cur ([], 0%nat) HL
      (λ n, vector_item_consumes fd ndebug 256 n Hfd HL) Hbody Hstart Hon Hf) as [p Hm].
    rewrite <- vector_result. destruct (over_items vector_step items ([], 0%nat)) as [[value index]| | |]; simpl in Hm; [|by rewrite Hm..].
    destruct Hm as (cur' & -> & _ & _ & Ho). run_bind. by rewrite bool_decide_eq_true_2 by (unfold Cursor.GetType; by rewrite Ho).
  - rewrite <- (app_nil_l (_ :: _)), <- (app_nil_r (BeginListSymbol :: _)).
    rewrite (ConvertTo_text (T := list T) fd ndebug (Node None (VList items)) _ [] []); [done|done|constructor|by apply PlainNode, ListValue|constructor|].
    change (node_depth (Node None (VList items))) with (S (Nat.max 0 (list_depth items))). lia.
Qed.

Lemma ConvertTo_fragment_witness :
  ListText (λ _, Ok 0) DefaultMemoryLimit [Node None (VBoolean true); Node None VEntity] (B"%true;#") ∧
  ConvertTo (λ _, Ok 0) false (list (option bool)) YsonListFragment (B"%true;#") = Ok [Some true; None] ∧
  ConvertTo (λ _, Ok 0) false (list (option bool)) YsonNode (B"[%true;#]") = Ok [Some true; None].
Proof.
  assert (ListText (λ _, Ok 0) DefaultMemoryLimit [Node None (VBoolean true); Node None VEntity] (B"%true;#")) as Ht.
  { apply (ListItem _ _ [] _ (B"%true") [] _ (B"#")); [constructor| |constructor|].
    - apply PlainNode, ScalarValue, (TextBoolean _ _ true). by vm_compute.
    - apply (ListLast _ _ [] _ (B"#") []); [constructor| |constructor]. apply PlainNode, ScalarValue, TextEntity. }
  split; [exact Ht|]. exact (ConvertTo_fragment (T := option bool) (λ _, Ok 0) false _ _ ltac:(done) Ht ltac:(simpl; lia)).
Defined.

(** [CheckedIntegralCast] to an integer type of any width, signed or not, from a signed or an
    unsigned 64-bit value: the value itself when the type can represent it, an exception
    otherwise; the mixed comparisons of the four [IsInIntegralRange] overloads never
    confuse a negative value with a large one. *)
Theorem CheckedIntegralCast_correct (isSigned : bool) (w : Z) (fromSigned : bool) (value : Z) (Hw : 0 < w)
    (Hvalue : if fromSigned then in_s 64 value else in_u 64 value) :
  CheckedIntegralCast isSigned w fromSigned value =
    if (if isSigned then bool_decide (in_s w value) else bool_decide (in_u w value)) then Ok value else Throw EOutOfRange.
Proof.
  rewrite CheckedIntegralCast_spec by done. unfold lowest, max_value, max_s, max_u, in_s, in_u.
  destruct isSigned; repeat case_bool_decide; try done; lia.
Qed.

Lemma CheckedIntegralCast_correct_witness :
  CheckedIntegralCast true 8 true (-128) = Ok (-128) ∧ CheckedIntegralCast false 8 true (-1) = Throw EOutOfRange ∧
  CheckedIntegralCast true 64 false (2 ^ 63) = Throw EOutOfRange.
Proof.
  split_and!.
  - exact (CheckedIntegralCast_correct true 8 true (-128) ltac:(lia) ltac:(unfold in_s; lia)).
  - exact (CheckedIntegralCast_correct false 8 true (-1) ltac:(lia) ltac:(unfold in_s; lia)).
  - exact (CheckedIntegralCast_correct true 64 false (2 ^ 63) ltac:(lia) ltac:(unfold in_u; lia)).
Defined.

(** A tuple may be given fewer items than it has components when they stand in a list, but not
    when they are a list fragment: [TTupleHelper] looks for the end of a list only. *)
Lemma tuple_short_fragment : let T := TTuple (() * TInt true 32 * TInt true 32) in
  ConvertTo (λ _, Ok 0) false T YsonNode (B"[5]") = Ok ((), 5, 0) ∧
  ConvertTo (λ _, Ok 0) false T YsonListFragment (B"5") = Throw EUnexpectedItem ∧
  ConvertTo (λ _, Ok 0) false T YsonListFragment (B"5;6;7") = Ok ((), 5, 6).
Proof. by vm_compute. Qed.

(** What a map is read as, when its keys differ. *)
Lemma map_meaning_entries {T} `{DeserializeLaws T} items (value m : gmap TString T) : over_items map_step items value = Ok m →
  NoDup (items.*1) ∧ (∀ (key : list byte) n, (key, n) ∈ items → value !! (key : TString) = None) ∧
  ∀ (key : list byte) x, m !! (key : TString) = Some x ↔
    value !! (key : TString) = Some x ∨ ∃ n, (key, n) ∈ items ∧ Meaning Construct (node_value n) = Ok x.
Proof.
  revert value. induction items as [|[key n] items IH]; intros value; simpl.
  - intros [= <-]. split_and!; [constructor|by intros ? ? ?%not_elem_of_nil|]. intros key x. split; [by left|]. by intros [?|(n & ?%not_elem_of_nil & _)].
  - destruct (Meaning Construct (node_value n)) as [y| | |] eqn:Ey; [|done..]. simpl. destruct (value !! (key : TString)) eqn:Ekey; [done|]. simpl.
    intros Hm. destruct (IH _ Hm) as (Hnodup & Hnew & Hlookup). split_and!.
    + constructor; [|done]. intros ([k n'] & -> & Hin)%list_elem_of_fmap. simpl in *. pose proof (Hnew k n' Hin) as Hk. by rewrite lookup_insert_eq in Hk.
    + intros k n' [[= -> ->]|Hin]%elem_of_cons; [done|]. pose proof (Hnew k n' Hin) as Hk. by apply lookup_insert_None in Hk as [? _].
    + intros k x. rewrite Hlookup. destruct (decide (k = key)) as [->|Hne].
      * rewrite lookup_insert_eq, Ekey. split.
        -- intros [[= ->]|(n' & Hin & Hx)]; [right; exists n; split; [left|done]|]. pose proof (Hnew key n' Hin) as Hk. by rewrite lookup_insert_eq in Hk.
        -- intros [?|(n' & [[= ->]|Hin]%elem_of_cons & Hx)]; [done|left; congruence|right; by exists n'].
      * rewrite lookup_insert_ne by done. split; (intros [?|(n' & Hin & Hx)]; [by left|right; exists n'; split; [|done]]); [by right|].
        by apply elem_of_cons in Hin as [[= -> ->]|?].
Qed.
