(* ===== verification/Tokenizer.v ===== *)
(** The tokenizer, a third reader of YSON texts beside the push and the pull parser (token.h,
    token.cpp, lexer_detail.h, lexer.cpp, tokenizer.cpp), and the specializations of
    [ConvertTo] that read an integer or a string through it (ytree/convert-inl.h,
    ytree/convert.cpp).

    [TLexer::ParseToken] dispatches on a table of 256 start cases whose bits are a decision
    tree; [TTokenizer] restarts a stateless lexer on what is left of the input for every
    token. *)

From S2P Require Import Prelude Coding IntCast YsonStream YsonLexer YsonEvents YsonParser YsonGrammar YsonWriter SyntaxChecker PullParser PullTraversal YsonCursor Deserialize.

(** ** Tokens *)

Module Token.
Inductive ETokenType : Set :=
| EndOfStream
| String | Int64 | Uint64 | Double | Boolean
| Semicolon | Equals | Hash | LeftBracket | RightBracket | LeftBrace | RightBrace | LeftAngle | RightAngle
| LeftParenthesis | RightParenthesis | Plus | Colon | Comma
| Slash.

#[global] Instance ETokenType_eq_dec : EqDecision ETokenType.
Proof. solve_decision. Defined.

(** The enumerators in their order. *)
Definition types : list ETokenType :=
  [EndOfStream; String; Int64; Uint64; Double; Boolean; Semicolon; Equals; Hash; LeftBracket; RightBracket; LeftBrace; RightBrace;
   LeftAngle; RightAngle; LeftParenthesis; RightParenthesis; Plus; Colon; Comma; Slash].

(** [static_cast<ui8>(type)]. *)
Definition type_index (type : ETokenType) : Z :=
  match type with
  | EndOfStream => 0
  | String => 1 | Int64 => 2 | Uint64 => 3 | Double => 4 | Boolean => 5
  | Semicolon => 6 | Equals => 7 | Hash => 8 | LeftBracket => 9 | RightBracket => 10 | LeftBrace => 11 | RightBrace => 12
  | LeftAngle => 13 | RightAngle => 14 | LeftParenthesis => 15 | RightParenthesis => 16 | Plus => 17 | Colon => 18 | Comma => 19
  | Slash => 20
  end.

Definition CharToTokenType (ch : byte) : ETokenType :=
  match ch with
  | ";"%byte => Semicolon
  | "="%byte => Equals
  | "{"%byte => LeftBrace
  | "}"%byte => RightBrace
  | "#"%byte => Hash
  | "["%byte => LeftBracket
  | "]"%byte => RightBracket
  | "<"%byte => LeftAngle
  | ">"%byte => RightAngle
  | "("%byte => LeftParenthesis
  | ")"%byte => RightParenthesis
  | "+"%byte => Plus
  | ":"%byte => Colon
  | ","%byte => Comma
  | "/"%byte => Slash
  | _ => EndOfStream
  end.

Definition TokenTypeToChar (type : ETokenType) : Result byte :=
  match type with
  | Semicolon => Ok ";"%byte
  | Equals => Ok "="%byte
  | Hash => Ok "#"%byte
  | LeftBracket => Ok "["%byte
  | RightBracket => Ok "]"%byte
  | LeftBrace => Ok "{"%byte
  | RightBrace => Ok "}"%byte
  | LeftAngle => Ok "<"%byte
  | RightAngle => Ok ">"%byte
  | LeftParenthesis => Ok "("%byte
  | RightParenthesis => Ok ")"%byte
  | Plus => Ok "+"%byte
  | Colon => Ok ":"%byte
  | Comma => Ok ","%byte
  | Slash => Ok "/"%byte
  | _ => Crash
  end.

(** [TToken]. *)
Record t := {
  Type_ : ETokenType;
  StringValue_ : list byte;
  BinaryString_ : bool;
  Int64Value_ : Z;
  Uint64Value_ : Z;
  DoubleValue_ : Z;
  BooleanValue_ : bool
}.

(** The default constructor. *)
Definition New : t :=
  {| Type_ := EndOfStream; StringValue_ := []; BinaryString_ := false; Int64Value_ := 0; Uint64Value_ := 0; DoubleValue_ := 0; BooleanValue_ := false |}.

Definition set_Type (type : ETokenType) (token : t) : t :=
  {| Type_ := type; StringValue_ := StringValue_ token; BinaryString_ := BinaryString_ token; Int64Value_ := Int64Value_ token;
     Uint64Value_ := Uint64Value_ token; DoubleValue_ := DoubleValue_ token; BooleanValue_ := BooleanValue_ token |}.

(** The constructors: a special type, a string, numbers, a boolean. *)
Definition OfType (type : ETokenType) : Result t :=
  match type with
  | String | Int64 | Uint64 | Double | Boolean => Crash
  | _ => Ok (set_Type type New)
  end.
Definition OfString (stringValue : list byte) (binaryString : bool) : t :=
  {| Type_ := String; StringValue_ := stringValue; BinaryString_ := binaryString; Int64Value_ := 0; Uint64Value_ := 0; DoubleValue_ := 0; BooleanValue_ := false |}.
Definition OfInt64 (int64Value : Z) : t :=
  {| Type_ := Int64; StringValue_ := []; BinaryString_ := false; Int64Value_ := int64Value; Uint64Value_ := 0; DoubleValue_ := 0; BooleanValue_ := false |}.
Definition OfUint64 (uint64Value : Z) : t :=
  {| Type_ := Uint64; StringValue_ := []; BinaryString_ := false; Int64Value_ := 0; Uint64Value_ := uint64Value; DoubleValue_ := 0; BooleanValue_ := false |}.
Definition OfDouble (doubleValue : Z) : t :=
  {| Type_ := Double; StringValue_ := []; BinaryString_ := false; Int64Value_ := 0; Uint64Value_ := 0; DoubleValue_ := doubleValue; BooleanValue_ := false |}.
Definition OfBoolean (booleanValue : bool) : t :=
  {| Type_ := Boolean; StringValue_ := []; BinaryString_ := false; Int64Value_ := 0; Uint64Value_ := 0; DoubleValue_ := 0; BooleanValue_ := booleanValue |}.

Definition ExpectType (expectedType : ETokenType) (token : t) : Result unit :=
  if bool_decide (Type_ token = expectedType) then Ok ()
  else if bool_decide (Type_ token = EndOfStream) then Throw EUnexpectedEndOfStream
  else Throw EUnexpectedToken.

Definition ExpectTypes (expectedTypes : list ETokenType) (token : t) : Result unit :=
  match expectedTypes with
  | [expectedType] => ExpectType expectedType token
  | _ =>
      if bool_decide (Type_ token ∈ expectedTypes) then Ok ()
      else if bool_decide (Type_ token = EndOfStream) then Throw EUnexpectedEndOfStream
      else Throw EUnexpectedToken
  end.

Definition ThrowUnexpected (token : t) : Result unit :=
  if bool_decide (Type_ token = EndOfStream) then Throw EUnexpectedEndOfStream else Throw EUnexpectedToken.

Definition GetStringValue (token : t) : Result (list byte) := _ ← ExpectType String token; Ok (StringValue_ token).
Definition IsBinaryString (token : t) : Result bool := _ ← ExpectType String token; Ok (BinaryString_ token).
Definition GetInt64Value (token : t) : Result Z := _ ← ExpectType Int64 token; Ok (Int64Value_ token).
Definition GetUint64Value (token : t) : Result Z := _ ← ExpectType Uint64 token; Ok (Uint64Value_ token).
Definition GetDoubleValue (token : t) : Result Z := _ ← ExpectType Double token; Ok (DoubleValue_ token).
Definition GetBooleanValue (token : t) : Result bool := _ ← ExpectType Boolean token; Ok (BooleanValue_ token).

(** [Reset] leaves [BinaryString_] alone. *)
Definition Reset (token : t) : t :=
  {| Type_ := EndOfStream; StringValue_ := []; BinaryString_ := BinaryString_ token; Int64Value_ := 0; Uint64Value_ := 0; DoubleValue_ := 0; BooleanValue_ := false |}.
End Token.

(** ** The lexer *)

Module EReadStartCase.
Definition BinaryString : Z := 0.
Definition OtherSpecialToken : Z := 2.
Definition BinaryInt64 : Z := 1.
Definition BinaryDouble : Z := 5.
Definition BinaryFalse : Z := 9.
Definition BinaryTrue : Z := 13.
Definition BinaryUint64 : Z := 17.
Definition Quote : Z := 3.
Definition DigitOrMinus : Z := 7.
Definition String : Z := 11.
Definition Space : Z := 15.
Definition Plus : Z := 19.
Definition None : Z := 23.
Definition Percent : Z := 27.
End EReadStartCase.

Definition lookupTable : list Z :=
  let NN := EReadStartCase.None in
  let BS := EReadStartCase.BinaryString in
  let BI := EReadStartCase.BinaryInt64 in
  let BD := EReadStartCase.BinaryDouble in
  let BF := EReadStartCase.BinaryFalse in
  let BT := EReadStartCase.BinaryTrue in
  let BU := EReadStartCase.BinaryUint64 in
  let SP := NN in
  let DM := EReadStartCase.DigitOrMinus in
  let ST := EReadStartCase.String in
  let PL := EReadStartCase.Plus in
  let QU := EReadStartCase.Quote in
  let PC := EReadStartCase.Percent in
  let TT type := Z.lor (wrap_u 8 (Z.shiftl (Token.type_index type) 2)) EReadStartCase.OtherSpecialToken in
  [NN;BS;BI;BD;BF;BT;BU;NN;NN;SP;SP;SP;SP;SP;NN;NN;
   NN;NN;NN;NN;NN;NN;NN;NN;NN;NN;NN;NN;NN;NN;NN;NN;
   SP; NN; QU; TT Token.Hash; NN; PC; NN; NN;
   TT Token.LeftParenthesis; TT Token.RightParenthesis; NN; PL; TT Token.Comma; DM; NN; TT Token.Slash;
   DM;DM;DM;DM;DM;DM;DM;DM;DM;DM;
   TT Token.Colon; TT Token.Semicolon; TT Token.LeftAngle; TT Token.Equals; TT Token.RightAngle; NN;
   NN;
   ST;ST;ST;ST;ST;ST;ST;ST;ST;ST;ST;ST;ST;
   ST;ST;ST;ST;ST;ST;ST;ST;ST;ST;ST;ST;ST;
   TT Token.LeftBracket; NN; TT Token.RightBracket; NN; ST;
   NN;
   ST;ST;ST;ST;ST;ST;ST;ST;ST;ST;ST;ST;ST;
   ST;ST;ST;ST;ST;ST;ST;ST;ST;ST;ST;ST;ST;
   TT Token.LeftBrace; NN; TT Token.RightBrace; NN; NN] ++
  replicate 128 NN.

Definition GetStartState (ch : byte) : Result Z :=
  match lookupTable !! Z.to_nat (byte_val ch) with Some state => Ok state | None => Crash end.

(** [ETokenType(bits)]. *)
Definition ETokenType_of (bits : Z) : Token.ETokenType := nth (Z.to_nat bits) Token.types Token.EndOfStream.

Section TLexer.
Context (FromString_double : list byte → Result Z).

#[local] Abbreviation ML := DefaultMemoryLimit.

(** [TLexer::ReadNumeric<true>]. *)
Definition ReadNumericToken (l : TLexer) : Result (TLexer * Token.t) :=
  '(l, (numericResult, valueBuffer)) ← ReadNumeric ML true l;
  let literal (r : Result Z) (token : Z → Token.t) :=
    match r with
    | Throw _ => Throw EBadLiteral
    | r => value ← r; Ok (l, token value)
    end in
  match numericResult with
  | NumericDouble => literal (FromString_double valueBuffer) Token.OfDouble
  | NumericInt64 => literal (FromString_i64 valueBuffer) Token.OfInt64
  | NumericUint64 => literal (FromString_ui64 (take (length valueBuffer - 1) valueBuffer)) Token.OfUint64
  end.

(** The cases [xxx11b]. *)
Definition ParseOther (state : Z) (ch : byte) (l : TLexer) : Result (TLexer * Token.t) :=
  if state =? EReadStartCase.Quote then
    '(l, value) ← ReadQuotedString ML (advance 1 l); Ok (l, Token.OfString value false)
  else if state =? EReadStartCase.DigitOrMinus then ReadNumericToken l
  else if state =? EReadStartCase.Plus then
    '(l, ch) ← lift (GetChar true) (advance 1 l);
    if negb (isdigit ch) then token ← Token.OfType Token.Plus; Ok (l, token) else ReadNumericToken l
  else if state =? EReadStartCase.String then
    '(l, value) ← ReadUnquotedString ML true l; Ok (l, Token.OfString value false)
  else if state =? EReadStartCase.Percent then
    '(l, ch) ← lift (GetChar true) (advance 1 l);
    if Byte.eqb ch "t" || Byte.eqb ch "f" then '(l, value) ← ReadBoolean ML true l; Ok (l, Token.OfBoolean value)
    else '(l, value) ← ReadNanOrInf ML true l; Ok (l, Token.OfDouble value)
  else _ ← Verify (state =? EReadStartCase.None); Throw (EUnexpectedChar ch).

(** The cases [xx01b]. *)
Definition ParseBinaryScalar (state : Z) (l : TLexer) : Result (TLexer * Token.t) :=
  let l := advance 1 l in
  if state =? EReadStartCase.BinaryDouble then '(l, value) ← ReadBinaryDouble l; Ok (l, Token.OfDouble value)
  else if state =? EReadStartCase.BinaryInt64 then '(l, value) ← ReadBinaryInt64 l; Ok (l, Token.OfInt64 value)
  else if state =? EReadStartCase.BinaryUint64 then '(l, value) ← ReadBinaryUint64 l; Ok (l, Token.OfUint64 value)
  else if state =? EReadStartCase.BinaryFalse then Ok (l, Token.OfBoolean false)
  else if state =? EReadStartCase.BinaryTrue then Ok (l, Token.OfBoolean true)
  else Crash.

Definition bit (bits i : Z) : bool := negb (Z.land bits (Z.shiftl 1 i) =? 0).

Definition ParseToken (l : TLexer) : Result (TLexer * Token.t) :=
  '(l, ch) ← SkipSpaceAndGetChar false l;
  state ← GetStartState ch;
  if Byte.eqb ch x00 then Ok (l, Token.New)
  else if bit state 0 then
    if bit state 1 then ParseOther state ch l else ParseBinaryScalar state l
  else
    let l := advance 1 l in
    if bit state 1 then
      _ ← Verify (Z.land state 3 =? EReadStartCase.OtherSpecialToken);
      token ← Token.OfType (ETokenType_of (Z.shiftr state 2)); Ok (l, token)
    else
      _ ← Verify (Z.land state 3 =? EReadStartCase.BinaryString);
      '(l, value) ← ReadBinaryString ML l; Ok (l, Token.OfString value true).

(** [TStatelessLexer::ParseToken]: the token and the number of bytes read. [SetBuffer] makes
    [data] the only block of the lexer's stream, so that [Current() - data.begin()] is what
    is no longer in front of it. *)
Definition SetBuffer (data : list byte) (l : TLexer) : TLexer := set_Stream l (TStringReader data).

Definition StatelessParseToken (data : list byte) (l : TLexer) : Result (TLexer * (Token.t * nat)) :=
  '(l, token) ← ParseToken (SetBuffer data l);
  Ok (l, (token, (length data - length (text_of (Stream l)) + Past (Stream l))%nat)).

(** ** The tokenizer *)

Record TTokenizer := { Input_ : list byte; Token_ : Token.t; Lexer_ : TLexer; Parsed_ : nat; Position_ : nat }.

Definition NewTokenizer (input : list byte) : TTokenizer :=
  {| Input_ := input; Token_ := Token.New; Lexer_ := NewLexer (TStringReader []); Parsed_ := 0; Position_ := 0 |}.

(** [TStringBuf::Tail]. *)
Definition Tail (pos : nat) (s : list byte) : list byte := drop pos s.

Definition GetCurrentType (tokenizer : TTokenizer) : Token.ETokenType := Token.Type_ (Token_ tokenizer).
Definition GetCurrentSuffix (tokenizer : TTokenizer) : list byte := Tail (Parsed_ tokenizer) (Input_ tokenizer).
Definition GetPosition (tokenizer : TTokenizer) : nat := Position_ tokenizer.

Definition ParseNext (tokenizer : TTokenizer) : Result (TTokenizer * bool) :=
  let input := Tail (Parsed_ tokenizer) (Input_ tokenizer) in
  '(l, (token, parsed)) ← StatelessParseToken input (Lexer_ tokenizer);
  let tokenizer := {| Input_ := input; Token_ := token; Lexer_ := l; Parsed_ := parsed; Position_ := Position_ tokenizer + parsed |} in
  Ok (tokenizer, negb (bool_decide (GetCurrentType tokenizer = Token.EndOfStream))).

(** The change of [depth] that a token makes in [SkipAttributes]; [None] for the tokens of
    the default branch. *)
Definition brace (type : Token.ETokenType) : option Z :=
  match type with
  | Token.LeftBrace | Token.LeftAngle => Some 1
  | Token.RightBrace | Token.RightAngle => Some (-1)
  | _ => None
  end.

(** The loop of [SkipAttributes], which has no end of its own: at the end of the stream
    [ParseNext] keeps returning [EndOfStream]. *)
Fixpoint skip_attributes_loop (fuel : nat) (depth : Z) (tokenizer : TTokenizer) : Result TTokenizer :=
  match fuel with
  | O => OutOfFuel
  | S fuel =>
      '(tokenizer, _) ← ParseNext tokenizer;
      match brace (GetCurrentType tokenizer) with
      | Some delta => skip_attributes_loop fuel (depth + delta) tokenizer
      | None => if depth =? 0 then Ok tokenizer else skip_attributes_loop fuel depth tokenizer
      end
  end.

Definition skip_fuel (tokenizer : TTokenizer) : nat := S (S (length (GetCurrentSuffix tokenizer))).
Definition SkipAttributes (tokenizer : TTokenizer) : Result TTokenizer := skip_attributes_loop (skip_fuel tokenizer) 0 tokenizer.

(** ** ConvertTo *)

(** [ConvertTo<intN>(TYsonString)], [IMPLEMENT_CHECKED_INTEGRAL_CONVERT_TO]. *)
Definition ConvertToIntegral (isSigned : bool) (w : Z) (str : list byte) : Result Z :=
  tokenizer ← SkipAttributes (NewTokenizer str);
  let token := Token_ tokenizer in
  match Token.Type_ token with
  | Token.Int64 => value ← Token.GetInt64Value token; CheckedIntegralCast isSigned w true value
  | Token.Uint64 => value ← Token.GetUint64Value token; CheckedIntegralCast isSigned w false value
  | _ => Throw EUnexpectedItem
  end.

Definition ConvertYsonStringBufToString (yson : list byte) : Result (list byte) :=
  tokenizer ← SkipAttributes (NewTokenizer yson);
  let token := Token_ tokenizer in
  match Token.Type_ token with
  | Token.String =>
      result ← Token.GetStringValue token;
      '(tokenizer, _) ← ParseNext tokenizer;
      _ ← Token.ExpectType Token.EndOfStream (Token_ tokenizer);
      Ok result
  | _ => Throw EUnexpectedItem
  end.

(** All tokens up to the end of the stream, which is not among them. *)
Fixpoint tokens_loop (fuel : nat) (tokenizer : TTokenizer) : Result (list Token.t * TTokenizer) :=
  match fuel with
  | O => OutOfFuel
  | S fuel =>
      '(tokenizer, more) ← ParseNext tokenizer;
      if (more : bool) then '(tokens, last) ← tokens_loop fuel tokenizer; Ok (Token_ tokenizer :: tokens, last) else Ok ([], tokenizer)
  end.

Definition ReadTokens (tokenizer : TTokenizer) : Result (list Token.t * TTokenizer) := tokens_loop (skip_fuel tokenizer) tokenizer.
End TLexer.

(** ** The decision tree as a chain of tests *)

Section Dispatch.
Context (fd : list byte → Result Z).

#[local] Abbreviation ML := DefaultMemoryLimit.

(** [ParseToken] behind the white space. *)
Definition dispatch (ch : byte) (l : TLexer) : Result (TLexer * Token.t) :=
  if Byte.eqb ch x00 then Ok (l, Token.New)
  else if Byte.eqb ch x22 then '(l, value) ← ReadQuotedString ML (advance 1 l); Ok (l, Token.OfString value false)
  else if isdigit ch || Byte.eqb ch "-" then ReadNumericToken fd l
  else if Byte.eqb ch "+" then
    '(l, ch) ← lift (GetChar true) (advance 1 l);
    if negb (isdigit ch) then Ok (l, Token.set_Type Token.Plus Token.New) else ReadNumericToken fd l
  else if isalpha ch || Byte.eqb ch "_" then '(l, value) ← ReadUnquotedString ML true l; Ok (l, Token.OfString value false)
  else if Byte.eqb ch "%" then
    '(l, ch) ← lift (GetChar true) (advance 1 l);
    if Byte.eqb ch "t" || Byte.eqb ch "f" then '(l, value) ← ReadBoolean ML true l; Ok (l, Token.OfBoolean value)
    else '(l, value) ← ReadNanOrInf ML true l; Ok (l, Token.OfDouble value)
  else if Byte.eqb ch StringMarker then '(l, value) ← ReadBinaryString ML (advance 1 l); Ok (l, Token.OfString value true)
  else if Byte.eqb ch Int64Marker then '(l, value) ← ReadBinaryInt64 (advance 1 l); Ok (l, Token.OfInt64 value)
  else if Byte.eqb ch Uint64Marker then '(l, value) ← ReadBinaryUint64 (advance 1 l); Ok (l, Token.OfUint64 value)
  else if Byte.eqb ch DoubleMarker then '(l, value) ← ReadBinaryDouble (advance 1 l); Ok (l, Token.OfDouble value)
  else if Byte.eqb ch FalseMarker then Ok (advance 1 l, Token.OfBoolean false)
  else if Byte.eqb ch TrueMarker then Ok (advance 1 l, Token.OfBoolean true)
  else if bool_decide (Token.CharToTokenType ch = Token.EndOfStream) then Throw (EUnexpectedChar ch)
  else Ok (advance 1 l, Token.set_Type (Token.CharToTokenType ch) Token.New).

Lemma ParseToken_dispatch l : ParseToken fd l = '(l, ch) ← SkipSpaceAndGetChar false l; dispatch ch l.
Proof.
  unfold ParseToken. destruct (SkipSpaceAndGetChar false l) as [[l' ch]| | |]; [|done..]. run_bind. unfold dispatch.
  by destruct ch.
Qed.

(** ** Totality *)

#[local] Abbreviation lsize l := (stream_size (Stream l)).

(** A call that started with [n] bytes to come returns a token and fewer bytes, or the end of
    the stream, or throws. *)
Definition token_read (n : nat) (r : Result (TLexer * Token.t)) : Prop :=
  match r with
  | Ok (l, token) => ready ML l ∧ (lsize l <= n)%nat ∧ (Token.Type_ token ≠ Token.EndOfStream → (lsize l < n)%nat)
  | Throw _ => True
  | _ => False
  end.

Lemma consumes_read {A} n (r : Result (TLexer * A)) (token : A → Token.t) :
  PullParser.consumes n r → token_read n ('(l, value) ← r; Ok (l, token value)).
Proof. destruct r as [[l a]| | |]; simpl; try done. intros [? ?]. split_and!; [done|lia|done]. Qed.

Lemma safe_read {A} n l (r : Result (TLexer * A)) Q (token : A → Token.t) :
  safe ML l r Q → (lsize l < n)%nat → token_read n ('(l, value) ← r; Ok (l, token value)).
Proof. intros Hr Hn. by eapply consumes_read, safe_consumes. Qed.

Context (Hfd : total_conversion fd).

Lemma ReadNumericToken_read n l c : ready ML l → peeked l c → isdigit c || Byte.eqb c "-" = true → (lsize l <= n)%nat →
  token_read n (ReadNumericToken fd l).
Proof.
  intros Hl Hc Hn Hle. assert (is_numeric_char c = true) as Hn'.
  { unfold is_numeric_char. by apply orb_prop in Hn as [->| ->]; rewrite ?orb_true_r. }
  pose proof (ReadNumeric_consumes true l c Hl Hc Hn') as H. unfold ReadNumericToken.
  destruct (ReadNumeric ML true l) as [[l' [r v]]| | |]; simpl in H; try done. destruct H as [Hl' Hlt]. run_bind.
  assert (∀ (r : Result Z) (token : Z → Token.t), match r with Ok _ | Throw _ => True | _ => False end →
    token_read n (match r with Throw _ => Throw EBadLiteral | r => value ← r; Ok (l', token value) end)) as Hlit.
  { intros [z| | |] token Hr; simpl; try done. split_and!; [done|lia|intros _; lia]. }
  destruct r; apply Hlit; [apply FromString_total; by left|apply FromString_total; by right|apply Hfd].
Qed.

Lemma advance_ready l c : ready ML l → peeked l c → c ≠ x00 → ready ML (advance 1 l) ∧ (lsize (advance 1 l) < lsize l)%nat.
Proof.
  intros [Hp Hb] Hc Hne. destruct (Hc Hne) as [b Hblk]. pose proof (Advance_safe 1 (Stream l) Hp) as Ha. rewrite Hblk in Ha.
  destruct Ha as [? ?]; [simpl; lia|]. split; [by split|]. simpl in *. lia.
Qed.

Lemma dispatch_read ch l : ready ML l → peeked l ch → token_read (lsize l) (dispatch ch l).
Proof.
  intros Hl Hc. unfold dispatch. destruct (Byte.eqb ch x00) eqn:E0; [simpl; by split_and!|].
  assert (ch ≠ x00) as Hne by (intros ->; discriminate E0). destruct (advance_ready l ch Hl Hc Hne) as [Hl1 Hlt].
  assert (∀ k : TLexer * byte → Result (TLexer * Token.t), (∀ l' c, ready ML l' → peeked l' c → (lsize l' < lsize l)%nat → token_read (lsize l) (k (l', c))) →
    token_read (lsize l) (lift (GetChar true) (advance 1 l) ≫= k)) as Hget.
  { intros k Hk. pose proof (lift_GetChar_safe ML true (advance 1 l) Hl1) as H.
    destruct (lift (GetChar true) (advance 1 l)) as [[l' c]| | |]; simpl in H; try done. destruct H as [[? ?] ?]. apply Hk; [done|done|lia]. }
  destruct (Byte.eqb ch x22); [eapply (safe_read _ _ _ _ (λ v, Token.OfString v false)); [by apply ReadQuotedString_safe|done]|].
  destruct (isdigit ch || Byte.eqb ch "-") eqn:En; [by eapply ReadNumericToken_read|].
  destruct (Byte.eqb ch "+").
  { apply Hget. intros l' c Hl' Hc' Hlt'. destruct (isdigit c) eqn:Ed; cbn [negb]; [|simpl; split_and!; [done|lia|done]].
    eapply ReadNumericToken_read; [done|done|by rewrite Ed|lia]. }
  destruct (isalpha ch || Byte.eqb ch "_") eqn:Ea.
  { apply (consumes_read _ _ (λ v, Token.OfString v false)), (ReadUnquotedString_consumes true l ch Hl Hc).
    unfold is_unquoted_char. by apply orb_prop in Ea as [->| ->]; rewrite ?orb_true_r. }
  destruct (Byte.eqb ch "%").
  { apply Hget. intros l' c Hl' Hc' Hlt'. destruct (Byte.eqb c "t" || Byte.eqb c "f").
    - eapply (safe_read _ l' _ _ Token.OfBoolean); [by apply ReadBoolean_safe|done].
    - eapply (safe_read _ l' _ _ Token.OfDouble); [by apply ReadNanOrInf_safe|done]. }
  destruct (Byte.eqb ch StringMarker); [eapply (safe_read _ _ _ _ (λ v, Token.OfString v true)); [by apply ReadBinaryString_safe|done]|].
  destruct (Byte.eqb ch Int64Marker); [eapply (safe_read _ _ _ _ Token.OfInt64); [by apply (ReadBinaryInt64_safe ML)|done]|].
  destruct (Byte.eqb ch Uint64Marker); [eapply (safe_read _ _ _ _ Token.OfUint64); [by apply (ReadBinaryUint64_safe ML)|done]|].
  destruct (Byte.eqb ch DoubleMarker); [eapply (safe_read _ _ _ _ Token.OfDouble); [by apply (ReadBinaryDouble_safe ML)|done]|].
  destruct (Byte.eqb ch FalseMarker); [simpl in *; split_and!; [done|lia|done]|].
  destruct (Byte.eqb ch TrueMarker); [simpl in *; split_and!; [done|lia|done]|].
  case_bool_decide; [done|]. simpl in *. split_and!; [done|lia|done].
Qed.

Lemma ParseToken_read l : ready ML l → token_read (lsize l) (ParseToken fd l).
Proof.
  intros Hl. rewrite ParseToken_dispatch. pose proof (SkipSpaceAndGetChar_safe ML false l Hl) as H.
  destruct (SkipSpaceAndGetChar false l) as [[l' c]| | |]; simpl in H; try done. destruct H as [[Hl' Hle] Hc]. run_bind.
  pose proof (dispatch_read c l' Hl' Hc) as Hd. destruct (dispatch c l') as [[l2 token]| | |]; simpl in *; try done.
  destruct Hd as (? & ? & Hd). split_and!; [done|lia|]. intros Ht. specialize (Hd Ht). lia.
Qed.
End Dispatch.

(** ** White space in front of a token *)

Fixpoint drop_spaces (t : list byte) : list byte :=
  match t with [] => [] | c :: t' => if IsSpace c then drop_spaces t' else t end.

Lemma drop_spaces_app ws t : spaces ws → drop_spaces (ws ++ t) = drop_spaces t.
Proof. induction 1 as [|c ws Hc _ IH]; [done|]. simpl. by rewrite Hc. Qed.

Lemma drop_spaces_suffix t : ∃ ws, t = ws ++ drop_spaces t.
Proof.
  induction t as [|c t (ws & IH)]; [by exists []|]. simpl. destruct (IsSpace c); [|by exists []]. exists (c :: ws). simpl. by f_equal.
Qed.

Lemma drop_spaces_idem t : drop_spaces (drop_spaces t) = drop_spaces t.
Proof. induction t as [|c t IH]; [done|]. simpl. destruct (IsSpace c) eqn:E; [done|]. simpl. by rewrite E. Qed.

(** The character in front of the lexer. *)
Definition front (t : list byte) : byte := match t with [] => x00 | c :: _ => c end.

Lemma skip_space_string fuel t l : (length t < fuel)%nat →
  skip_space_loop false fuel (SetBuffer t l) = Ok (SetBuffer (drop_spaces t) l, front (drop_spaces t)).
Proof.
  revert t. induction fuel as [|fuel IH]; intros t Hf; [lia|]. cbn [skip_space_loop]. destruct t as [|c t]; [done|]. simpl in Hf.
  change (IsEmpty (Stream (SetBuffer (c :: t) l))) with false. cbv iota. change (Deref (Stream (SetBuffer (c :: t) l))) with (Ok c). run_bind.
  cbn [drop_spaces]. destruct (IsSpace c) eqn:E; cbn [negb].
  - change (advance 1 (SetBuffer (c :: t) l)) with (SetBuffer t l). apply IH. lia.
  - done.
Qed.

Lemma SkipSpaceAndGetChar_string t l :
  SkipSpaceAndGetChar false (SetBuffer t l) = Ok (SetBuffer (drop_spaces t) l, front (drop_spaces t)).
Proof.
  assert (SkipSpaceAndGetCharFallback false (SetBuffer t l) = Ok (SetBuffer (drop_spaces t) l, front (drop_spaces t))) as H.
  { apply skip_space_string. unfold stream_fuel. pose proof (length_text (Stream (SetBuffer t l))) as Hs. unfold text_of in Hs. simpl in *.
    rewrite app_nil_r in Hs. lia. }
  unfold SkipSpaceAndGetChar. rewrite H. destruct t as [|c t]; [done|]. change (IsEmpty (Stream (SetBuffer (c :: t) l))) with false. cbn [negb].
  change (Deref (Stream (SetBuffer (c :: t) l))) with (Ok c). run_bind. destruct (IsSpace c) eqn:E; cbn [negb]; [done|]. simpl. by rewrite E.
Qed.

Section Tokens.
Context (fd : list byte → Result Z).
#[local] Abbreviation ML := DefaultMemoryLimit.

(** The tokenizer has the text [t] in front of it. *)
Definition tokenizer_at (tk : TTokenizer) (t : list byte) : Prop := GetCurrentSuffix tk = t ∧ buffer_inv ML (Lexer_ tk).

Lemma NewTokenizer_at t : tokenizer_at (NewTokenizer t) t.
Proof. split; [done|]. by vm_compute. Qed.

Lemma set_buffer_ready t l : buffer_inv ML l → ready ML (SetBuffer t l).
Proof. by split. Qed.

Lemma set_buffer_size t l : stream_size (Stream (SetBuffer t l)) = length t.
Proof. unfold stream_size. simpl. lia. Qed.

Lemma ParseNext_dispatch tk t : tokenizer_at tk t →
  ParseNext fd tk = '(l, token) ← dispatch fd (front (drop_spaces t)) (SetBuffer (drop_spaces t) (Lexer_ tk));
    let parsed := (length t - length (text_of (Stream l)) + Past (Stream l))%nat in
    Ok ({| Input_ := t; Token_ := token; Lexer_ := l; Parsed_ := parsed; Position_ := Position_ tk + parsed |},
        negb (bool_decide (Token.Type_ token = Token.EndOfStream))).
Proof.
  intros [<- _]. unfold ParseNext, StatelessParseToken, GetCurrentSuffix. rewrite ParseToken_dispatch, SkipSpaceAndGetChar_string. run_bind.
  by destruct (dispatch _ _ _) as [[l token]| | |].
Qed.

Lemma dispatch_end l : dispatch fd x00 l = Ok (l, Token.New).
Proof. done. Qed.

Lemma value_token {A} (r : Result (TLexer * A)) l' token (f : A → Token.t) : (∀ z, Token.Type_ (f z) ≠ Token.EndOfStream) →
  ('(l, v) ← r; Ok (l, f v)) = Ok (l', token) → Token.Type_ token ≠ Token.EndOfStream.
Proof. intros Hf E. bind_inv E as ([l2 v] & _ & [= _ <-]). apply Hf. Qed.

Lemma numeric_token l l' token : ReadNumericToken fd l = Ok (l', token) → Token.Type_ token ≠ Token.EndOfStream.
Proof.
  intros E. unfold ReadNumericToken in E. bind_inv E as ([l3 [r v]] & _ & E).
  destruct r; simpl in E; [destruct (FromString_i64 v)|destruct (FromString_ui64 _)|destruct (fd v)]; by simplify_eq/=.
Qed.

(** Only the end symbol gives the end of the stream. *)
Lemma dispatch_token c l l' token : c ≠ x00 → dispatch fd c l = Ok (l', token) → Token.Type_ token ≠ Token.EndOfStream.
Proof.
  intros Hc. unfold dispatch. rewrite (byte_eqb_neq c x00 Hc).
  repeat (match goal with |- (if ?b then _ else _) = _ → _ => destruct b eqn:? end; try solve [intros [= _ <-]; done | by apply numeric_token
    | by apply (value_token _ _ _ Token.OfInt64) | by apply (value_token _ _ _ Token.OfUint64) | by apply (value_token _ _ _ Token.OfDouble)
    | by apply (value_token _ _ _ (λ v, Token.OfString v false)) | by apply (value_token _ _ _ (λ v, Token.OfString v true))]).
  - intros E. bind_inv E as ([l1 c1] & _ & E). destruct (negb (isdigit c1)); [by simplify_eq/=|by eapply numeric_token].
  - intros E. bind_inv E as ([l1 c1] & _ & E). destruct (Byte.eqb c1 "t" || Byte.eqb c1 "f").
    + by apply (value_token _ _ _ Token.OfBoolean) in E.
    + by apply (value_token _ _ _ Token.OfDouble) in E.
  - intros [= _ <-]. by case_bool_decide.
Qed.

Context (Hfd : total_conversion fd).

(** What one call of [ParseNext] promises on any input. *)
Definition next_read (tk : TTokenizer) (r : Result (TTokenizer * bool)) : Prop :=
  match r with
  | Ok (tk', more) =>
      let t := GetCurrentSuffix tk in let t' := GetCurrentSuffix tk' in
      buffer_inv ML (Lexer_ tk') ∧ more = negb (bool_decide (GetCurrentType tk' = Token.EndOfStream)) ∧
      (length t' <= length t)%nat ∧ (more = true → (length t' < length t)%nat) ∧ (Position_ tk' + length t' = Position_ tk + length t)%nat
  | Throw _ => True
  | _ => False
  end.

Lemma ParseNext_read tk : buffer_inv ML (Lexer_ tk) → next_read tk (ParseNext fd tk).
Proof.
  intros Hb. set (t := GetCurrentSuffix tk). rewrite (ParseNext_dispatch tk t) by done.
  set (l := SetBuffer (drop_spaces t) (Lexer_ tk)). assert (ready ML l) as Hl by done.
  assert (peeked l (front (drop_spaces t))) as Hp by (intros Hne; subst l; destruct (drop_spaces t) as [|c t']; [done|by exists t']).
  pose proof (dispatch_read fd Hfd _ l Hl Hp) as H. unfold token_read in H. destruct (dispatch fd _ l) as [[l' token]| | |]; try done.
  destruct H as ([Hpast Hb'] & Hle & Hlt). run_bind. cbv zeta. simpl. unfold GetCurrentSuffix. simpl. change (Tail (Parsed_ tk) (Input_ tk)) with t.
  pose proof (length_text (Stream l')) as Hlen. rewrite Hpast. unfold l in Hle, Hlt. rewrite set_buffer_size in Hle, Hlt.
  destruct (drop_spaces_suffix t) as [ws Hws]. assert (length (drop_spaces t) <= length t)%nat by (rewrite Hws at 2; rewrite length_app; lia).
  unfold Tail. rewrite !length_drop. split_and!; [done|done|lia| |lia]. intros Hm. case_bool_decide; [done|]. specialize (Hlt H0). lia.
Qed.

(** The end of the stream is met again and again. *)
Lemma ParseNext_end tk tk' : buffer_inv ML (Lexer_ tk) → ParseNext fd tk = Ok (tk', false) →
  buffer_inv ML (Lexer_ tk') ∧ ∃ tk'', ParseNext fd tk' = Ok (tk'', false) ∧ Token_ tk'' = Token_ tk' ∧ Token_ tk' = Token.New.
Proof.
  intros Hb E. set (t := GetCurrentSuffix tk). rewrite (ParseNext_dispatch tk t) in E by done.
  destruct (decide (front (drop_spaces t) = x00)) as [Hc|Hc].
  - rewrite Hc, dispatch_end in E. run_bind in E. injection E as <-. cbn [Lexer_ Token_]. split; [done|].
    destruct (drop_spaces_suffix t) as [ws Hws].
    set (tk1 := {| Input_ := _ |}). assert (tokenizer_at tk1 (drop_spaces t)) as Hat.
    { split; [|done]. unfold tk1, GetCurrentSuffix, Tail. cbn [Parsed_ Input_]. unfold text_of. simpl. rewrite app_nil_r, Nat.add_0_r.
      rewrite Hws at 1 3. rewrite length_app. replace (_ + _ - _)%nat with (length ws) by lia. by rewrite drop_app_length. }
    rewrite (ParseNext_dispatch tk1 _ Hat), drop_spaces_idem, Hc, dispatch_end. run_bind. by eexists.
  - bind_inv E as ([l token] & E & E'). apply (dispatch_token _ _ _ _ Hc) in E. injection E' as _ E'. by case_bool_decide.
Qed.

(** ** All tokens, and attributes skipped *)

(** The first token outside of braces that is not a brace. *)
Fixpoint skip_tokens (depth : Z) (tokens : list Token.t) : option Token.t :=
  match tokens with
  | [] => None
  | token :: tokens =>
      match brace (Token.Type_ token) with
      | Some delta => skip_tokens (depth + delta) tokens
      | None => if depth =? 0 then Some token else skip_tokens depth tokens
      end
  end.

Lemma tokens_loop_total fuel tk : buffer_inv ML (Lexer_ tk) → (length (GetCurrentSuffix tk) < fuel)%nat →
  match tokens_loop fd fuel tk with
  | Ok (tokens, last) =>
      (length tokens + length (GetCurrentSuffix last) <= length (GetCurrentSuffix tk))%nat ∧
      (Position_ last + length (GetCurrentSuffix last) = Position_ tk + length (GetCurrentSuffix tk))%nat ∧
      Forall (λ token, Token.Type_ token ≠ Token.EndOfStream) tokens ∧ GetCurrentType last = Token.EndOfStream
  | Throw _ => True
  | _ => False
  end.
Proof.
  revert tk. induction fuel as [|fuel IH]; intros tk Hb Hf; [lia|]. cbn [tokens_loop]. pose proof (ParseNext_read tk Hb) as H.
  destruct (ParseNext fd tk) as [[tk' more]| | |]; simpl in H; try done. destruct H as (Hb' & Hm & Hle & Hlt & Hpos). run_bind. destruct more.
  - specialize (IH tk' Hb' ltac:(lia)). specialize (Hlt eq_refl). destruct (tokens_loop fd fuel tk') as [[tokens last]| | |]; simpl; try done.
    destruct IH as (? & ? & ? & ?). split_and!; [lia|lia| |done]. constructor; [|done]. symmetry in Hm. apply negb_true_iff in Hm.
    by apply bool_decide_eq_false in Hm.
  - split_and!; [simpl; lia|lia|constructor|]. symmetry in Hm. apply negb_false_iff in Hm. by apply bool_decide_eq_true in Hm.
Qed.

Lemma skip_loop_end fuel depth tk tk' : buffer_inv ML (Lexer_ tk) → ParseNext fd tk = Ok (tk', false) → depth ≠ 0 →
  skip_attributes_loop fd fuel depth tk = OutOfFuel.
Proof.
  intros Hb E Hd. revert tk tk' Hb E. induction fuel as [|fuel IH]; intros tk tk' Hb E; [done|]. cbn [skip_attributes_loop]. rewrite E. run_bind.
  destruct (ParseNext_end tk tk' Hb E) as (Hb' & tk'' & E' & _ & Ht). unfold GetCurrentType. rewrite Ht. cbn [Token.Type_ Token.New brace].
  rewrite (proj2 (Z.eqb_neq depth 0) Hd). by apply (IH tk' tk'').
Qed.

Lemma skip_loop_tokens fuel depth tk tokens last : buffer_inv ML (Lexer_ tk) → tokens_loop fd fuel tk = Ok (tokens, last) →
  match skip_tokens depth (tokens ++ [Token.New]) with
  | Some token => ∃ tk', skip_attributes_loop fd fuel depth tk = Ok tk' ∧ Token_ tk' = token
  | None => ∀ fuel, skip_attributes_loop fd fuel depth tk = OutOfFuel
  end.
Proof.
  revert depth tk tokens. induction fuel as [|fuel IH]; intros depth tk tokens Hb E; [done|]. cbn [tokens_loop] in E.
  bind_inv E as ([tk' more] & E1 & E). pose proof (ParseNext_read tk Hb) as H. rewrite E1 in H. destruct H as (Hb' & Hm & _). destruct more.
  - bind_inv E as ([tokens' last'] & E2 & [= <- <-]). cbn [app skip_tokens]. change (Token.Type_ (Token_ tk')) with (GetCurrentType tk').
    assert (∀ depth', match skip_tokens depth' (tokens' ++ [Token.New]) with
      | Some token => ∃ tk1, skip_attributes_loop fd fuel depth' tk' = Ok tk1 ∧ Token_ tk1 = token
      | None => ∀ fuel, skip_attributes_loop fd fuel depth' tk' = OutOfFuel end) as IH' by (intros; by apply IH).
    assert (∀ d, (∀ fuel, skip_attributes_loop fd (S fuel) depth tk = skip_attributes_loop fd fuel d tk') →
      match skip_tokens d (tokens' ++ [Token.New]) with
      | Some token => ∃ tk1, skip_attributes_loop fd (S fuel) depth tk = Ok tk1 ∧ Token_ tk1 = token
      | None => ∀ fuel, skip_attributes_loop fd fuel depth tk = OutOfFuel end) as Hstep.
    { intros d Hd. specialize (IH' d). destruct (skip_tokens d _); [by rewrite Hd|]. intros [|fuel']; [done|by rewrite Hd]. }
    destruct (brace (GetCurrentType tk')) as [delta|] eqn:Ebr.
    + apply Hstep. intros fuel'. cbn [skip_attributes_loop]. rewrite E1. run_bind. by rewrite Ebr.
    + destruct (Z.eqb_spec depth 0) as [->|Hd].
      * exists tk'. split; [|done]. cbn [skip_attributes_loop]. rewrite E1. run_bind. by rewrite Ebr.
      * apply Hstep. intros fuel'. cbn [skip_attributes_loop]. rewrite E1. run_bind. rewrite Ebr. by rewrite (proj2 (Z.eqb_neq depth 0) Hd).
  - injection E as <- <-. destruct (ParseNext_end tk tk' Hb E1) as (_ & _ & _ & _ & Ht). cbn [app skip_tokens Token.Type_ Token.New brace].
    destruct (Z.eqb_spec depth 0) as [->|Hd].
    + exists tk'. split; [|done]. cbn [skip_attributes_loop]. rewrite E1. run_bind. unfold GetCurrentType. by rewrite Ht.
    + intros fuel'. by eapply skip_loop_end.
Qed.
End Tokens.

(** ** Texts of the grammar *)

(** A plus sign is a token of its own unless a digit comes behind it, where the parsers pass
    it to the number. *)
Definition plus_digit (t : list byte) : bool :=
  match t with
  | c :: t' => negb (Byte.eqb c "+") || match t' with d :: _ => isdigit d | [] => false end
  | [] => true
  end.

Definition tokenizer_double (fd : list byte → Result Z) (t : list byte) : Result Z :=
  if plus_digit t then fd t else Throw EBadLiteral.

(** A sign in front of a number changes nothing. *)
Definition ignores_plus (fd : list byte → Result Z) : Prop := ∀ d t z, isdigit d = true → fd ("+"%byte :: d :: t) = Ok z → fd (d :: t) = Ok z.

(** The token of the other readers that a token stands for. *)
Definition token_item (token : Token.t) : option TToken :=
  match Token.Type_ token with
  | Token.EndOfStream => Some (Item (Simple EndOfStream))
  | Token.String => Some (Item (ItemString (Token.StringValue_ token)))
  | Token.Int64 => Some (Item (ItemInt64 (Token.Int64Value_ token)))
  | Token.Uint64 => Some (Item (ItemUint64 (Token.Uint64Value_ token)))
  | Token.Double => Some (Item (ItemDouble (Token.DoubleValue_ token)))
  | Token.Boolean => Some (Item (ItemBoolean (Token.BooleanValue_ token)))
  | Token.Semicolon => Some Separator
  | Token.Equals => Some Equality
  | Token.Hash => Some (Item (Simple EntityValue))
  | Token.LeftBracket => Some (Item (Simple BeginList))
  | Token.RightBracket => Some (Item (Simple EndList))
  | Token.LeftBrace => Some (Item (Simple BeginMap))
  | Token.RightBrace => Some (Item (Simple EndMap))
  | Token.LeftAngle => Some (Item (Simple BeginAttributes))
  | Token.RightAngle => Some (Item (Simple EndAttributes))
  | Token.LeftParenthesis | Token.RightParenthesis | Token.Plus | Token.Colon | Token.Comma | Token.Slash => None
  end.

Lemma digits_start d ds v : TBasicIntParser.digits_value 10 (d :: ds) = Some v → isdigit d = true.
Proof.
  unfold TBasicIntParser.digits_value. simpl. destruct (CharToDigit 10 d) eqn:E; [|done]. intros _.
  pose proof (forall_bytes (λ d, implb (bool_decide (is_Some (CharToDigit 10 d))) (isdigit d)) ltac:(by vm_compute) d) as H.
  cbv beta in H. by rewrite bool_decide_eq_true_2 in H by (rewrite E; eauto).
Qed.

Lemma digit_no_sign d : isdigit d = true → Byte.eqb d "+" = false ∧ Byte.eqb d "-" = false.
Proof. intros H. split; by apply (class_neq isdigit). Qed.

Lemma int_literal_plus isSigned t v : int_literal isSigned 10 ("+"%byte :: t) = Some v →
  ∃ d t', t = d :: t' ∧ isdigit d = true ∧ int_literal isSigned 10 t = Some v.
Proof.
  intros H. simpl in H. destruct t as [|d t']; [done|]. exists d, t'. pose proof (digits_start _ _ _ H) as Hd.
  split_and!; [done..|]. unfold int_literal. destruct (digit_no_sign d Hd) as [-> ->]. by rewrite andb_false_r.
Qed.

Section Texts.
Context (fd : list byte → Result Z) (Hplus : ignores_plus fd).
#[local] Abbreviation ML := DefaultMemoryLimit.
#[local] Abbreviation fdt := (tokenizer_double fd).

(** The value of a numeric literal. *)
Definition literal_value (r : ENumericResult) (t : list byte) : Result Z * (Z → TYsonItem) :=
  match r with
  | NumericDouble => (fdt t, ItemDouble)
  | NumericInt64 => (FromString_i64 t, ItemInt64)
  | NumericUint64 => (FromString_ui64 (take (length t - 1) t), ItemUint64)
  end.

Lemma ReadNumericToken_text l r t rest z (item : Z → TYsonItem) : at_text l (t ++ rest) → delimited true rest →
  Forall (λ c, is_numeric_char c = true) t → foldl numeric_step NumericInt64 t = r → Z.of_nat (length t) <= wrap_u 64 ML →
  literal_value r t = (Ok z, item) →
  ∃ l' token, ReadNumericToken fd l = Ok (l', token) ∧ token_item token = Some (Item (item z)) ∧ at_text l' rest.
Proof.
  intros Hl Hd Hn Hr Hf Hv. destruct (ReadNumeric_text ML true t rest l Hl Hn (delimited_numeric _ _ Hd) Hf) as (l' & He & Hat).
  unfold ReadNumericToken. rewrite He, Hr. run_bind.
  assert (literal_value r t = (Ok z, item) → match r with NumericDouble => fd t = Ok z ∧ item = ItemDouble | NumericInt64 => FromString_i64 t = Ok z ∧ item = ItemInt64
    | NumericUint64 => FromString_ui64 (take (length t - 1) t) = Ok z ∧ item = ItemUint64 end) as Hlit.
  { unfold literal_value, tokenizer_double. destruct r; intros E; injection E as E1 <-; split; try done. by destruct (plus_digit t). }
  specialize (Hlit Hv). destruct r; destruct Hlit as [-> ->]; run_bind; eauto.
Qed.

(** A plus sign in front of a literal can be left out. *)
Lemma literal_plus r t z item : numeric_literal ML r ("+"%byte :: t) → literal_value r ("+"%byte :: t) = (Ok z, item) →
  ∃ d t', t = d :: t' ∧ isdigit d = true ∧ literal_value r t = (Ok z, item) ∧ foldl numeric_step NumericInt64 t = r.
Proof.
  intros (_ & Hn & Hr & _) Hv. assert (foldl numeric_step NumericInt64 t = r) as Hr' by done.
  unfold literal_value in *. destruct r; injection Hv as Hv <-.
  - apply FromString_i64_spec in Hv as [Hv Hz]. destruct (int_literal_plus _ _ _ Hv) as (d & t' & -> & Hd & Hv'). exists d, t'. split_and!; try done.
    f_equal. by apply FromString_i64_spec.
  - destruct t as [|d t']; [done|]. cbn [length] in Hv. replace (S (S (length t')) - 1)%nat with (S (length t')) in Hv by lia. cbn [take] in Hv.
    apply FromString_ui64_spec in Hv as [Hv Hz]. destruct (int_literal_plus _ _ _ Hv) as (d' & t'' & E & Hd & Hv').
    destruct (length t') as [|n] eqn:El; [done|]. cbn [take] in E. injection E as <- _. exists d, t'. split_and!; try done. f_equal.
    cbn [length]. rewrite El. replace (S (S n) - 1)%nat with (S n) by lia. by apply FromString_ui64_spec.
  - unfold tokenizer_double in *. destruct (plus_digit ("+"%byte :: t)) eqn:E; [|done]. destruct t as [|d t']; [done|]. simpl in E. exists d, t'.
    split_and!; try done. f_equal. unfold plus_digit. rewrite (proj1 (digit_no_sign d E)). simpl. by apply Hplus.
Qed.

Lemma dispatch_numeric c l : isdigit c || Byte.eqb c "-" = true → dispatch fd c l = ReadNumericToken fd l.
Proof. intros Hc. unfold dispatch. rewrite !(class_neq (λ c, isdigit c || Byte.eqb c "-") c _ Hc) by done. by rewrite Hc. Qed.

Lemma dispatch_percent l : dispatch fd "%" l = '(l, ch) ← lift (GetChar true) (advance 1 l);
  if Byte.eqb ch "t" || Byte.eqb ch "f" then '(l, value) ← ReadBoolean ML true l; Ok (l, Token.OfBoolean value)
  else '(l, value) ← ReadNanOrInf ML true l; Ok (l, Token.OfDouble value).
Proof. done. Qed.

Lemma dispatch_numeric_text r t c t' rest z item l b : numeric_literal ML r t → t = c :: t' → literal_value r t = (Ok z, item) →
  Block (Stream l) = c :: b → at_text l (t ++ rest) → delimited true rest →
  ∃ l' token, dispatch fd c l = Ok (l', token) ∧ token_item token = Some (Item (item z)) ∧ at_text l' rest.
Proof.
  intros Hlit E Hv Hb Hat Hd. pose proof Hlit as ((c' & t0 & E' & Hc) & Hn & Hr & Hf & _). rewrite E in E'. injection E' as <- <-.
  destruct (isdigit c || Byte.eqb c "-") eqn:Ec.
  - rewrite dispatch_numeric by done. by eapply ReadNumericToken_text.
  - cbn [orb] in Hc. apply byte_dec_bl in Hc as ->. subst t. destruct (literal_plus r t' z item Hlit Hv) as (d & t1 & -> & Hdig & Hv' & Hr').
    change (dispatch fd "+" l) with ('(l, ch) ← lift (GetChar true) (advance 1 l);
      if negb (isdigit ch) then Ok (l, Token.set_Type Token.Plus Token.New) else ReadNumericToken fd l).
    assert (at_text (advance 1 l) ((d :: t1) ++ rest)) as Hadv by (by eapply Advance_text).
    destruct (lift_GetChar_text true _ _ _ Hadv) as (l1 & b1 & Hg & Hat1 & _ & _). rewrite Hg. run_bind. rewrite Hdig. cbn [negb].
    eapply (ReadNumericToken_text l1 r (d :: t1)); try done; [by inversion Hn|]. cbn [length] in *. lia.
Qed.

(** A call that reads a value, as a token. *)
Lemma value_read {A} (r : Result (TLexer * A)) l v (f : A → Token.t) token rest : r = Ok (l, v) → token_item (f v) = Some token → at_text l rest →
  ∃ l' token', ('(l, v) ← r; Ok (l, f v)) = Ok (l', token') ∧ token_item token' = Some token ∧ at_text l' rest.
Proof. intros ->. run_bind. eauto. Qed.

Lemma dispatch_scalar v item s c b s' rest l : scalar_item v = Some item → ScalarText fdt ML v s → s = c :: s' →
  Block (Stream l) = c :: b → at_text l (s ++ rest) → delimited true rest →
  ∃ l' token, dispatch fd c l = Ok (l', token) ∧ token_item token = Some (Item item) ∧ at_text l' rest.
Proof.
  intros Hi Hs E Hb Hat Hd. assert (at_text (advance 1 l) (s' ++ rest)) as Hadv by (eapply Advance_text; [by rewrite E in Hat|exact Hb]).
  destruct Hs as [s t Ht|t z Hn Hz|t z Hn Hz|t z Hn Hz|d e z Hin Hm|x Hm| |z Hz|z Hz|z Hz|x]; cbn in Hi; injection Hi as <-.
  - destruct Ht as [t0 s0 Hq Hu [Hf1 Hf2]|s0 [Hf1 Hf2]|d t0 Hc Ht0 [Hf1 Hf2]]; simplify_eq.
    + rewrite <- app_assoc in Hadv. destruct (ReadQuotedString_text ML t0 rest s0 _ Hadv Hq Hu Hf1 Hf2) as (l' & Hl & Hl').
      by apply (value_read _ l' s0 (λ v, Token.OfString v false)).
    + rewrite <- app_assoc in Hadv. destruct (ReadBinaryString_text ML s0 rest _ Hf2 Hadv Hf1) as (l' & Hl & Hl').
      by apply (value_read _ l' s0 (λ v, Token.OfString v true)).
    + assert (is_alpha_start c = true) as Ha by done. unfold dispatch. rewrite !(class_neq is_alpha_start c _ Ha) by (by vm_compute).
      pose proof (forall_bytes (λ c, implb (is_alpha_start c) (negb (isdigit c))) ltac:(by vm_compute) c) as H. cbv beta in H. rewrite Ha in H.
      apply negb_true_iff in H. rewrite H. cbn [orb]. change (isalpha c || Byte.eqb c "_") with (is_alpha_start c). rewrite Ha.
      destruct (ReadUnquotedString_text ML true (c :: s') rest l) as (l' & Hl & Hl'); [done| |by apply delimited_unquoted|done|].
      * constructor; [|done]. unfold is_unquoted_char. apply orb_prop in Hc as [->| ->]; by rewrite ?orb_true_r.
      * by apply (value_read _ l' (c :: s') (λ v, Token.OfString v false)).
  - by eapply (dispatch_numeric_text NumericInt64); [..|by unfold literal_value; rewrite Hz| | |].
  - eapply (dispatch_numeric_text NumericUint64); [done|exact E| |done..]. unfold literal_value. by rewrite length_app, Nat.add_sub, take_app_length, Hz.
  - by eapply (dispatch_numeric_text NumericDouble); [..|by unfold literal_value; rewrite Hz| | |].
  - simplify_eq. destruct (lift_GetChar_text true _ _ _ Hadv) as (l1 & b1 & Hg & Hat1 & _ & _).
    destruct (ReadNanOrInf_text ML true d e z rest l1 Hin Hat1 Hm) as (l' & Hl & Hl').
    assert (Byte.eqb d "t" || Byte.eqb d "f" = false) as Hd'.
    { apply list_elem_of_In in Hin. simpl in Hin. by repeat (destruct Hin as [Hin|Hin]; [simplify_eq|]). }
    rewrite dispatch_percent, Hg. run_bind. rewrite Hd'. by apply (value_read _ l' z Token.OfDouble).
  - simplify_eq.
    assert (∃ d e, (if x then B"true" else B"false") = d :: e ∧ Byte.eqb d "t" || Byte.eqb d "f" = true) as (d & e & Ec & Hc)
      by (destruct x; by eexists _, _). pose proof Hadv as Hadv'. rewrite Ec in Hadv'.
    destruct (lift_GetChar_text true _ _ _ Hadv') as (l1 & b1 & Hg & Hat1 & _ & _).
    destruct (ReadBoolean_text ML true x rest l1) as (l' & Hl & Hl'); [by rewrite Ec|done|].
    rewrite dispatch_percent, Hg. run_bind. rewrite Hc. by apply (value_read _ l' x Token.OfBoolean).
  - simplify_eq. by eexists _, _.
  - simplify_eq. destruct (ReadBinaryInt64_text z rest _ Hz Hadv) as (l' & Hl & Hl'). by apply (value_read _ l' z Token.OfInt64).
  - simplify_eq. destruct (ReadBinaryUint64_text z rest _ Hz Hadv) as (l' & Hl & Hl'). by apply (value_read _ l' z Token.OfUint64).
  - simplify_eq. destruct (ReadBinaryDouble_text z rest _ Hz Hadv) as (l' & Hl & Hl'). by apply (value_read _ l' z Token.OfDouble).
  - simplify_eq. destruct x; by eexists _, _.
Qed.

Lemma dispatch_punctuation token c b t l : punctuation token = Some c → Block (Stream l) = c :: b → at_text l (c :: t) →
  ∃ l' token', dispatch fd c l = Ok (l', token') ∧ token_item token' = Some token ∧ at_text l' t.
Proof.
  intros Hp Hb Hat. assert (at_text (advance 1 l) t) as Hadv by (by eapply Advance_text).
  destruct token as [[[]| | | | |]| |]; simpl in Hp; try discriminate Hp; injection Hp as <-; by eexists _, _.
Qed.

(** One call on the text of a token sequence. *)
Lemma ParseNext_text tk token tokens t : TokText fdt (token :: tokens) t → tokenizer_at tk t → total_conversion fd →
  ∃ tk' t', ParseNext fd tk = Ok (tk', true) ∧ token_item (Token_ tk') = Some token ∧ tokenizer_at tk' t' ∧ TokText fdt tokens t'.
Proof.
  intros Ht Hat Hfd. pose proof (ParseNext_read fd Hfd tk (proj2 Hat)) as Hread.
  assert (∃ ws c s t' l' token', t = ws ++ c :: s ++ t' ∧ spaces ws ∧ IsSpace c = false ∧ TokText fdt tokens t' ∧ c ≠ x00 ∧
    dispatch fd c (SetBuffer (c :: s ++ t') (Lexer_ tk)) = Ok (l', token') ∧ token_item token' = Some token ∧ at_text l' t')
    as (ws & c & s & t' & l' & token' & -> & Hws & Hc & Ht' & Hne & Hd & Htok & Hl').
  { inversion Ht as [|ws token' c tokens' t' Hws Hp Ht'|ws v item s tokens' t' Hws Hv Hs Ht' Hdel]; subst.
    - set (l := SetBuffer (c :: t') (Lexer_ tk)). assert (at_text l (c :: t')) as Hl by (split; [done|]; unfold text_of; simpl; by rewrite app_nil_r).
      destruct (dispatch_punctuation token c t' t' l Hp eq_refl Hl) as (l' & token' & E & ? & ?). exists ws, c, [], t', l', token'.
      split_and!; try done; by destruct token as [[[]| | | | |]| |]; simplify_eq/=.
    - destruct (ScalarText_start _ _ _ _ Hs) as (c & s' & -> & Hc). set (l := SetBuffer (c :: s' ++ t') (Lexer_ tk)).
      assert (at_text l ((c :: s') ++ t')) as Hl by (split; [done|]; unfold text_of; simpl; by rewrite app_nil_r).
      destruct (dispatch_scalar v item (c :: s') c (s' ++ t') s' t' l Hv Hs eq_refl eq_refl Hl Hdel) as (l' & token' & E & ? & ?).
      exists ws, c, s', t', l', token'. split_and!; try done; [by apply starts_space, scalar_start_starts|]. by intros ->. }
  rewrite (ParseNext_dispatch fd tk _ Hat), drop_spaces_app in Hread |- * by done. cbn [drop_spaces] in Hread |- *. rewrite Hc in Hread |- *. cbn [front] in Hread |- *.
  rewrite Hd in Hread |- *. run_bind in Hread. run_bind. cbv zeta in Hread |- *. destruct Hread as (Hb' & _). destruct Hl' as [Hpast Htext].
  rewrite bool_decide_eq_false_2 by (by eapply dispatch_token). eexists _, t'. split_and!; [done|done| |done]. split; [|done].
  unfold GetCurrentSuffix, Tail. cbn [Parsed_ Input_]. rewrite Hpast, Htext. rewrite (app_comm_cons s t' c), (app_assoc ws), Nat.add_0_r.
  rewrite length_app, Nat.add_sub. by rewrite drop_app_length.
Qed.

Lemma ParseNext_spaces tk t : spaces t → tokenizer_at tk t → ∃ tk', ParseNext fd tk = Ok (tk', false) ∧ Token_ tk' = Token.New.
Proof.
  intros Hws Hat. rewrite (ParseNext_dispatch fd tk t Hat). pose proof (drop_spaces_app t [] Hws) as E. rewrite app_nil_r in E.
  rewrite E. cbn [drop_spaces front]. rewrite dispatch_end. run_bind. by eexists.
Qed.

(** ** Attributes are skipped *)

Definition token_brace (token : TToken) : option Z :=
  match token with
  | Item (Simple BeginMap) | Item (Simple BeginAttributes) => Some 1
  | Item (Simple EndMap) | Item (Simple EndAttributes) => Some (-1)
  | _ => None
  end.

Lemma token_item_brace token token' : token_item token = Some token' → brace (Token.Type_ token) = token_brace token'.
Proof. unfold token_item. destruct (Token.Type_ token); intros [= <-]; done. Qed.

Fixpoint total (tokens : list TToken) : Z :=
  match tokens with [] => 0 | token :: tokens => default 0 (token_brace token) + total tokens end.

(** Every token that is not a brace comes inside of braces. *)
Fixpoint inside (depth : Z) (tokens : list TToken) : Prop :=
  match tokens with
  | [] => True
  | token :: tokens =>
      match token_brace token with
      | Some delta => inside (depth + delta) tokens
      | None => depth ≠ 0 ∧ inside depth tokens
      end
  end.

Lemma total_app a b : total (a ++ b) = total a + total b.
Proof. induction a as [|token a IH]; [done|]. simpl. rewrite IH. lia. Qed.

Lemma inside_app depth a b : inside depth a → inside (depth + total a) b → inside depth (a ++ b).
Proof.
  revert depth. induction a as [|token a IH]; intros depth Ha Hb; simpl in *; [by rewrite Z.add_0_r in Hb|].
  destruct (token_brace token) as [delta|]; simpl in *.
  - apply IH; [done|]. by rewrite <- Z.add_assoc.
  - destruct Ha. split; [done|]. by apply IH.
Qed.

(** What stands between matching braces. *)
Definition closed (tokens : list TToken) : Prop := total tokens = 0 ∧ ∀ depth, 0 < depth → inside depth tokens.

Lemma closed_nil : closed [].
Proof. done. Qed.

Lemma closed_app a b : closed a → closed b → closed (a ++ b).
Proof.
  intros [Ha Ia] [Hb Ib]. split; [rewrite total_app; lia|]. intros depth Hd. apply inside_app; [by apply Ia|]. rewrite Ha, Z.add_0_r. by apply Ib.
Qed.

Lemma closed_cons token a : token_brace token = None → closed a → closed (token :: a).
Proof. intros Ht [Ha Ia]. split; simpl; rewrite Ht; [done|]. intros depth Hd. split; [lia|by apply Ia]. Qed.

Lemma closed_braces token1 token2 a b : token_brace token1 = Some 1 → token_brace token2 = Some (-1) → closed a → closed b →
  closed (token1 :: a ++ token2 :: b).
Proof.
  intros H1 H2 [Ha Ia] [Hb Ib]. split; simpl; rewrite H1.
  - rewrite total_app. simpl. rewrite H2. simpl. lia.
  - intros depth Hd. apply inside_app; [apply Ia; lia|]. simpl. rewrite H2. apply Ib. lia.
Qed.

#[local] Hint Resolve closed_nil closed_app closed_cons closed_braces : yson.

Lemma tokens_closed :
  (∀ n t, NodeTok n t → closed t) ∧ (∀ v t, ValueTok v t → closed t) ∧ (∀ items t, ListTok items t → closed t) ∧ (∀ items t, MapTok items t → closed t).
Proof.
  apply Tok_mutind; intros; try (by auto with yson).
  apply closed_cons; [by destruct v; simplify_eq/=|done].
Qed.

(** Braces with a closed sequence in between, from outside. *)
Lemma braces_inside token1 token2 a : token_brace token1 = Some 1 → token_brace token2 = Some (-1) → closed a →
  inside 0 (token1 :: a ++ [token2]) ∧ total (token1 :: a ++ [token2]) = 0.
Proof.
  intros H1 H2 [Ha Ia]. simpl. rewrite H1. split.
  - apply inside_app; [by apply Ia|]. simpl. by rewrite H2.
  - rewrite total_app. simpl. rewrite H2. simpl. lia.
Qed.

Context (Hfd : total_conversion fd).

Lemma skip_inside body : ∀ depth rest t tk, inside depth body → TokText fdt (body ++ rest) t → tokenizer_at tk t →
  ∃ tk' t', tokenizer_at tk' t' ∧ TokText fdt rest t' ∧
    ∀ fuel, skip_attributes_loop fd (length body + fuel) depth tk = skip_attributes_loop fd fuel (depth + total body) tk'.
Proof.
  induction body as [|token body IH]; intros depth rest t tk Hi Ht Hat.
  { exists tk, t. split_and!; [done|done|]. intros fuel. simpl. by rewrite Z.add_0_r. }
  destruct (ParseNext_text tk token _ t Ht Hat Hfd) as (tk1 & t1 & E & Htok & Hat1 & Ht1). apply token_item_brace in Htok.
  simpl in Hi. destruct (token_brace token) as [delta|] eqn:Eb.
  - destruct (IH _ rest t1 tk1 Hi Ht1 Hat1) as (tk' & t' & ? & ? & Hl). exists tk', t'. split_and!; [done|done|]. intros fuel.
    cbn [length Nat.add skip_attributes_loop total]. rewrite E. run_bind. unfold GetCurrentType. rewrite Htok, Eb. simpl. rewrite Hl. f_equal. lia.
  - destruct Hi as [Hd Hi]. destruct (IH _ rest t1 tk1 Hi Ht1 Hat1) as (tk' & t' & ? & ? & Hl). exists tk', t'. split_and!; [done|done|]. intros fuel.
    cbn [length Nat.add skip_attributes_loop total]. rewrite E. run_bind. unfold GetCurrentType. rewrite Htok, Eb. simpl.
    rewrite (proj2 (Z.eqb_neq depth 0) Hd). by rewrite Hl.
Qed.

Lemma lexer_text_length tokens t : TokText fdt tokens t → (length tokens <= length t)%nat.
Proof.
  induction 1 as [|ws token c tokens t Hws Hp Ht IH|ws v item s tokens t Hws Hv Hs Ht IH Hd]; simpl; [lia| |].
  - rewrite length_app. simpl. lia.
  - destruct (ScalarText_start _ _ _ _ Hs) as (c & s' & -> & _). rewrite !length_app. simpl. lia.
Qed.

(** Where [SkipAttributes] stops on a document: behind the attributes at a scalar or an
    opening bracket, or behind a map at the end of the text. *)
Definition stop_token (v : TValue) : TToken :=
  match v with
  | VList _ => Item (Simple BeginList)
  | VMap _ => Item (Simple EndOfStream)
  | v => match scalar_item v with Some item => Item item | None => Separator end
  end.

Lemma skip_value v tv t tk fuel : ValueTok v tv → TokText fdt tv t → tokenizer_at tk t → (length tv < fuel)%nat →
  ∃ tk', skip_attributes_loop fd fuel 0 tk = Ok tk' ∧ token_item (Token_ tk') = Some (stop_token v) ∧
    (is_Some (scalar_item v) → ∃ t', spaces t' ∧ tokenizer_at tk' t').
Proof.
  intros Hv Ht Hat Hf. destruct Hv as [v item Hi|items ti Hi|items ti Hi].
  - destruct (ParseNext_text tk _ _ t Ht Hat Hfd) as (tk1 & t1 & E & Htok & Hat1 & Ht1). destruct fuel as [|fuel]; [simpl in Hf; lia|].
    exists tk1. cbn [skip_attributes_loop]. rewrite E. run_bind. unfold GetCurrentType. rewrite (token_item_brace _ _ Htok).
    assert (token_brace (Item item) = None) as -> by (by destruct v; simplify_eq/=). split_and!; [done| |].
    + rewrite Htok. f_equal. by destruct v; simplify_eq/=.
    + intros _. exists t1. split; [by inversion Ht1|done].
  - destruct (ParseNext_text tk _ _ t Ht Hat Hfd) as (tk1 & t1 & E & Htok & Hat1 & Ht1). destruct fuel as [|fuel]; [simpl in Hf; lia|].
    exists tk1. cbn [skip_attributes_loop]. rewrite E. run_bind. unfold GetCurrentType. rewrite (token_item_brace _ _ Htok). simpl.
    split_and!; [done..|]. by intros [].
  - destruct tokens_closed as (_ & _ & _ & Hm). destruct (braces_inside (Item (Simple BeginMap)) (Item (Simple EndMap)) ti eq_refl eq_refl (Hm _ _ Hi)) as [Hin Htot].
    set (body := Item (Simple BeginMap) :: ti ++ [Item (Simple EndMap)]) in *.
    destruct (skip_inside body 0 [] t tk Hin) as (tk1 & t1 & Hat1 & Ht1 & Hl); [by rewrite app_nil_r|done|].
    assert (spaces t1) as Hsp by (by inversion Ht1). destruct (ParseNext_spaces tk1 t1 Hsp Hat1) as (tk2 & E & Htok).
    exists tk2. replace fuel with (length body + (S (fuel - length body - 1)))%nat by lia. rewrite Hl, Htot. cbn [skip_attributes_loop]. rewrite E. run_bind.
    unfold GetCurrentType. rewrite Htok. simpl. split_and!; [done..|]. by intros [].
Qed.

Lemma skip_node n tokens t : NodeTok n tokens → TokText fdt tokens t →
  ∃ tk', SkipAttributes fd (NewTokenizer t) = Ok tk' ∧ token_item (Token_ tk') = Some (stop_token (node_value n)) ∧
    (is_Some (scalar_item (node_value n)) → ∃ t', spaces t' ∧ tokenizer_at tk' t').
Proof.
  intros Hn Ht. pose proof (lexer_text_length _ _ Ht) as Hlen. pose proof (NewTokenizer_at t) as Hat.
  unfold SkipAttributes, skip_fuel. rewrite (proj1 Hat). destruct Hn as [v tv Hv|items v ta tv Ha Hv].
  - apply (skip_value v tv t); [done..|lia].
  - destruct tokens_closed as (_ & _ & _ & Hm).
    destruct (braces_inside (Item (Simple BeginAttributes)) (Item (Simple EndAttributes)) ta eq_refl eq_refl (Hm _ _ Ha)) as [Hin Htot].
    set (body := Item (Simple BeginAttributes) :: ta ++ [Item (Simple EndAttributes)]) in *.
    assert (Item (Simple BeginAttributes) :: ta ++ Item (Simple EndAttributes) :: tv = body ++ tv) as E by (subst body; simpl; by rewrite <- app_assoc).
    rewrite E in Ht, Hlen. rewrite length_app in Hlen. destruct (skip_inside body 0 tv t _ Hin Ht Hat) as (tk1 & t1 & Hat1 & Ht1 & Hl).
    replace (S (S (length t))) with (length body + (S (S (length t)) - length body))%nat by lia. rewrite Hl, Htot. apply (skip_value v tv t1); [done..|lia].
Qed.
End Texts.

(** A text that the tokenizer reads is one of the grammar. *)
Lemma tokenizer_double_mono fd t z : tokenizer_double fd t = Ok z → fd t = Ok z.
Proof. unfold tokenizer_double. by destruct (plus_digit t). Qed.

Lemma ScalarText_mono fd fd' ML v t : (∀ t z, fd' t = Ok z → fd t = Ok z) → ScalarText fd' ML v t → ScalarText fd ML v t.
Proof. intros H Hs. destruct Hs; by econstructor; eauto. Qed.

Lemma grammar_mono fd fd' ML : (∀ t z, fd' t = Ok z → fd t = Ok z) →
  (∀ n t, NodeText fd' ML n t → NodeText fd ML n t) ∧ (∀ v t, ValueText fd' ML v t → ValueText fd ML v t) ∧
  (∀ items t, ListText fd' ML items t → ListText fd ML items t) ∧ (∀ items t, MapText fd' ML items t → MapText fd ML items t).
Proof.
  intros H. apply grammar_ind; intros;
    [apply PlainNode|apply AttributedNode|apply ScalarValue|apply ListValue|apply MapValue|apply ListEnd|apply ListLast|apply ListItem|apply MapEnd|apply MapLast|apply MapItem];
    eauto using ScalarText_mono.
Qed.

Lemma int_token isSigned w token v : token_item token = Some (stop_token v) →
  match Token.Type_ token with
  | Token.Int64 => value ← Token.GetInt64Value token; CheckedIntegralCast isSigned w true value
  | Token.Uint64 => value ← Token.GetUint64Value token; CheckedIntegralCast isSigned w false value
  | _ => Throw EUnexpectedItem
  end = int_meaning isSigned w v.
Proof.
  unfold token_item, Token.GetInt64Value, Token.GetUint64Value, Token.ExpectType.
  destruct (Token.Type_ token) eqn:E; intros [= Hv]; destruct v; simplify_eq/=; try done.
Qed.

Lemma string_token token v : token_item token = Some (stop_token v) →
  (Token.Type_ token = Token.String ∧ v = VString (Token.StringValue_ token)) ∨ (Token.Type_ token ≠ Token.String ∧ string_meaning v = Throw EUnexpectedItem).
Proof.
  unfold token_item. destruct (Token.Type_ token) eqn:E; intros [= Hv]; destruct v; simplify_eq/=; auto.
Qed.

Section Whole.
Context (fd : list byte → Result Z) (Hfd : total_conversion fd) (Hplus : ignores_plus fd).

Lemma skip_document n t ws1 ws2 : spaces ws1 → NodeText (tokenizer_double fd) DefaultMemoryLimit n t → spaces ws2 →
  ∃ tk', SkipAttributes fd (NewTokenizer (ws1 ++ t ++ ws2)) = Ok tk' ∧ token_item (Token_ tk') = Some (stop_token (node_value n)) ∧
    (is_Some (scalar_item (node_value n)) → ∃ t', spaces t' ∧ tokenizer_at tk' t').
Proof.
  intros Hws1 Ht Hws2. destruct (grammar_tokens (tokenizer_double fd)) as (HN & _). destruct (HN _ _ Ht) as (tokens & Hn & Htok).
  apply (skip_node fd Hplus Hfd n tokens); [done|]. apply TokText_spaces; [done|]. rewrite <- (app_nil_r tokens). apply Htok; [by constructor|].
  rewrite <- (app_nil_r ws2). by apply delimited_spaces.
Qed.

Lemma ConvertToIntegral_document isSigned w n t ws1 ws2 : spaces ws1 → NodeText (tokenizer_double fd) DefaultMemoryLimit n t → spaces ws2 →
  ConvertToIntegral fd isSigned w (ws1 ++ t ++ ws2) = int_meaning isSigned w (node_value n).
Proof.
  intros Hws1 Ht Hws2. destruct (skip_document n t ws1 ws2 Hws1 Ht Hws2) as (tk & E & Htok & _).
  unfold ConvertToIntegral. rewrite E. run_bind. by apply int_token.
Qed.

Lemma ConvertToString_document n t ws1 ws2 : spaces ws1 → NodeText (tokenizer_double fd) DefaultMemoryLimit n t → spaces ws2 →
  ConvertYsonStringBufToString fd (ws1 ++ t ++ ws2) = string_meaning (node_value n).
Proof.
  intros Hws1 Ht Hws2. destruct (skip_document n t ws1 ws2 Hws1 Ht Hws2) as (tk & E & Htok & Hrest).
  unfold ConvertYsonStringBufToString. rewrite E. run_bind. destruct (string_token _ _ Htok) as [[Et Hv]|[Et ->]].
  - rewrite Hv in Hrest |- *. destruct Hrest as (t' & Hsp & Hat); [by eexists|]. destruct (ParseNext_spaces fd tk t' Hsp Hat) as (tk' & E' & Hnew).
    unfold Token.GetStringValue, Token.ExpectType. rewrite Et, bool_decide_eq_true_2 by done. run_bind. rewrite E'. run_bind. by rewrite Hnew.
  - by destruct (Token.Type_ (Token_ tk)).
Qed.
End Whole.

(** The tokenizer on arbitrary bytes: reading tokens up to the end of the stream returns
    or throws, it never reads outside its input, aborts or loops: every token takes at least
    one byte, and the position it reports is that of the rest of the input. *)
Theorem TTokenizer_total (fd : list byte → Result Z) (input : list byte) (Hfd : total_conversion fd) :
  match ReadTokens fd (NewTokenizer input) with
  | Ok (tokens, last) =>
      (length tokens + length (GetCurrentSuffix last) <= length input)%nat ∧
      (GetPosition last + length (GetCurrentSuffix last) = length input)%nat ∧
      Forall (λ token, Token.Type_ token ≠ Token.EndOfStream) tokens ∧ GetCurrentType last = Token.EndOfStream
  | Throw _ => True
  | _ => False
  end.
Proof.
  destruct (NewTokenizer_at input) as [Hs Hb]. unfold ReadTokens, skip_fuel. rewrite Hs.
  pose proof (tokens_loop_total fd Hfd (S (S (length input))) (NewTokenizer input) Hb ltac:(rewrite Hs; lia)) as H.
  destruct (tokens_loop fd _ _) as [[tokens last]| | |]; [|done..]. rewrite Hs in H. exact H.
Qed.

Lemma TTokenizer_total_witness :
  ∃ tokens last, ReadTokens (λ _, Ok 0) (NewTokenizer (B"{a=[1;%true]} +(7u)")) = Ok (tokens, last) ∧
    length tokens = 13%nat ∧ GetPosition last = 19%nat ∧ GetCurrentType last = Token.EndOfStream.
Proof.
  pose proof (TTokenizer_total (λ _, Ok 0) (B"{a=[1;%true]} +(7u)") ltac:(done)) as H.
  destruct (ReadTokens (λ _, Ok 0) (NewTokenizer (B"{a=[1;%true]} +(7u)"))) as [[tokens last]| | |] eqn:E; [|vm_compute in E; discriminate E..].
  exists tokens, last. destruct H as (_ & _ & _ & Ht). split_and!; [done| | |exact Ht]; vm_compute in E; by injection E as <- <-.
Defined.

(** C38. [SkipAttributes] returns exactly when it meets a token other than a brace outside of
    braces: then it stops there (at the end of the stream at the latest); when braces are
    not balanced up to the end of the input, the loop never ends, whatever its bound. *)
Theorem SkipAttributes_exact (fd : list byte → Result Z) (input : list byte) (tokens : list Token.t) (last : TTokenizer)
    (Hfd : total_conversion fd) (Htokens : ReadTokens fd (NewTokenizer input) = Ok (tokens, last)) :
  match skip_tokens 0 (tokens ++ [Token.New]) with
  | Some token => ∃ tokenizer, SkipAttributes fd (NewTokenizer input) = Ok tokenizer ∧ Token_ tokenizer = token
  | None => ∀ fuel, skip_attributes_loop fd fuel 0 (NewTokenizer input) = OutOfFuel
  end.
Proof. by apply (skip_loop_tokens fd Hfd _ 0 _ _ last (proj2 (NewTokenizer_at input))). Qed.

Lemma SkipAttributes_exact_witness :
  (∃ tokenizer, SkipAttributes (λ _, Ok 0) (NewTokenizer (B"<a={}>#")) = Ok tokenizer ∧ GetCurrentType tokenizer = Token.Hash) ∧
  (∀ fuel, skip_attributes_loop (λ _, Ok 0) fuel 0 (NewTokenizer (B"<a=1")) = OutOfFuel).
Proof.
  split.
  - epose proof (SkipAttributes_exact (λ _, Ok 0) (B"<a={}>#") _ _ ltac:(done) ltac:(vm_compute; reflexivity)) as H.
    destruct H as (tk & E & Ht). exists tk. split; [exact E|]. unfold GetCurrentType. by rewrite Ht.
  - epose proof (SkipAttributes_exact (λ _, Ok 0) (B"<a=1") _ _ ltac:(done) ltac:(vm_compute; reflexivity)) as H. exact H.
Defined.

(** Two ways to the same value: on every text of a document (with any white space,
    attributes and mixture of text and binary forms) nested less deep than the limit, the
    specializations of [ConvertTo] for integers and strings, which go through the tokenizer,
    return or throw exactly what the template returns or throws, which goes through the pull
    parser. (A double literal that starts with a plus sign has a digit behind it: the
    tokenizer reads any other plus as a token.) *)
Theorem ConvertTo_specializations (fd : list byte → Result Z) (ndebug isSigned : bool) (w : Z) (n : TNode) (t ws1 ws2 : list byte)
    (Hfd : total_conversion fd) (Hplus : ignores_plus fd) (Hws1 : spaces ws1) (Ht : NodeText (tokenizer_double fd) DefaultMemoryLimit n t)
    (Hws2 : spaces ws2) (Hdepth : (node_depth n < 256)%nat) :
  ConvertToIntegral fd isSigned w (ws1 ++ t ++ ws2) = ConvertTo fd ndebug (TInt isSigned w) YsonNode (ws1 ++ t ++ ws2) ∧
  ConvertYsonStringBufToString fd (ws1 ++ t ++ ws2) = ConvertTo fd ndebug TString YsonNode (ws1 ++ t ++ ws2).
Proof.
  pose proof (proj1 (grammar_mono fd _ DefaultMemoryLimit (tokenizer_double_mono fd)) _ _ Ht) as Ht'. split.
  - by rewrite (ConvertTo_text (T := TInt isSigned w) fd ndebug n t ws1 ws2) by done; apply ConvertToIntegral_document.
  - by rewrite (ConvertTo_text (T := TString) fd ndebug n t ws1 ws2) by done; apply ConvertToString_document.
Qed.

Lemma ConvertTo_specializations_witness :
  NodeText (tokenizer_double (λ _, Ok 0)) DefaultMemoryLimit (Node (Some [(B"a", Node None VEntity)]) (VInt64 7)) (B"<a=#>+7") ∧
  ConvertToIntegral (λ _, Ok 0) true 8 (B" <a=#>+7") = ConvertTo (λ _, Ok 0) false (TInt true 8) YsonNode (B" <a=#>+7").
Proof.
  assert (NodeText (tokenizer_double (λ _, Ok 0)) DefaultMemoryLimit (Node (Some [(B"a", Node None VEntity)]) (VInt64 7)) (B"<a=#>+7")) as Ht.
  { apply (AttributedNode _ _ _ (B"a=#") [] _ (B"+7")); [|constructor|].
    - apply (MapLast _ _ [] _ (B"a") [] [] _ (B"#") []); [constructor| |constructor|constructor|apply PlainNode, ScalarValue, TextEntity|constructor].
      apply (UnquotedText _ "a" []); [done|constructor|by vm_compute].
    - apply ScalarValue, TextInt64; [|by vm_compute]. split; [by eexists _, _|]. split; [by repeat constructor|]. split; [reflexivity|].
      split; vm_compute; done. }
  split; [exact Ht|].
  exact (proj1 (ConvertTo_specializations (λ _, Ok 0) false true 8 _ _ (B" ") [] ltac:(done) ltac:(intros ? ? ? _ E; exact E) ltac:(by repeat constructor) Ht ltac:(constructor) ltac:(simpl; lia))).
Defined.

(** On unbalanced attributes the conversion hangs; behind an integer the rest of the text is
    not looked at, unlike in the template and in the conversion to a string. *)
Lemma ConvertToIntegral_tail :
  ConvertToIntegral (λ _, Ok 0) true 64 (B"<a=1") = OutOfFuel ∧
  ConvertToIntegral (λ _, Ok 0) true 64 (B"5 6}") = Ok 5 ∧
  is_throw (ConvertTo (λ _, Ok 0) false (TInt true 64) YsonNode (B"5 6}")) = true ∧
  is_throw (ConvertYsonStringBufToString (λ _, Ok 0) (B"a b")) = true.
Proof. by vm_compute. Qed.
