(* ===== verification/PullParserValues.v ===== *)
(** The typed readers of the pull parser ([yt/yt/core/yson/pull_parser-inl.h]):
    [ParseInt64], [ParseOptionalString], [ParseBeginList], [ParseUint64AsVarint], ... Each
    looks at the next byte and has a fast path for the binary form it expects; everything
    else goes through [Next]. The theorems show that the fast paths change nothing: each
    reader does what [Next] followed by a check of the item's type would do, up to which
    of two exceptions is thrown. *)

From S2P Require Import Prelude Coding IntCast YsonStream YsonLexer YsonEvents YsonParser YsonGrammar YsonWriter SyntaxChecker PullParser.

(** ** The value types the readers are instantiated at *)

Inductive TValueType := i64 | ui64 | double | TStringBuf | bool_.

Definition TValueOf (T : TValueType) : Type :=
  match T with TStringBuf => list byte | bool_ => bool | _ => Z end.

Definition ItemType (T : TValueType) : EYsonItemType :=
  match T with
  | i64 => Int64Value | ui64 => Uint64Value | double => DoubleValue | TStringBuf => StringValue | bool_ => BooleanValue
  end.

(** [TYsonItem::UncheckedAs<T>], where the item has the type asked for. *)
Definition UncheckedAs (T : TValueType) (item : TYsonItem) : option (TValueOf T) :=
  match T, item with
  | i64, ItemInt64 value => Some value
  | ui64, ItemUint64 value => Some value
  | double, ItemDouble value => Some value
  | TStringBuf, ItemString value => Some value
  | bool_, ItemBoolean value => Some value
  | _, _ => None
  end.

(** [ItemTypeToMarker]; it is evaluated at compile time, where a throw does not compile. *)
Definition ItemTypeToMarker (itemType : EYsonItemType) : option byte :=
  match itemType with
  | Uint64Value => Some Uint64Marker
  | Int64Value => Some Int64Marker
  | DoubleValue => Some DoubleMarker
  | StringValue => Some StringMarker
  | BeginList => Some BeginListSymbol
  | EndList => Some EndListSymbol
  | EntityValue => Some EntitySymbol
  | _ => None
  end.

Definition is_marker (c : byte) (itemType : EYsonItemType) : bool :=
  match ItemTypeToMarker itemType with Some marker => Byte.eqb c marker | None => false end.

Section TypedReaders.
Context (FromString_double : list byte → Result Z).

#[local] Abbreviation ML := DefaultMemoryLimit.
#[local] Abbreviation Next := (Next FromString_double).

Definition MaybeSkipSemicolon (p : TYsonPullParser) : Result TYsonPullParser :=
  '(p, c) ← with_lexer (lift (GetChar true)) p;
  if Byte.eqb c ";" then with_checker Checker.OnSeparator (advance1 p) else Ok p.

(** The checker's call for a bracket or an entity. *)
Definition OnSimpleItem (itemType : EYsonItemType) : Checker.t → Result Checker.t :=
  match itemType with
  | BeginList => Checker.OnBeginList
  | EndList => Checker.OnEndList
  | EntityValue => Checker.OnSimpleNonstring
  | _ => λ _, Crash
  end.

(** [ParseItem<ItemType, IsOptional>], at [BeginList], [EndList] and [EntityValue]: [false]
    is returned for the entity of an absent optional. *)
Definition ParseItem (itemType : EYsonItemType) (isOptional : bool) (p : TYsonPullParser) : Result (TYsonPullParser * bool) :=
  p ← MaybeSkipSemicolon p;
  '(p, c) ← with_lexer (lift (GetChar false)) p;
  if is_marker c itemType then
    p ← with_checker (OnSimpleItem itemType) (advance1 p); Ok (p, true)
  else if isOptional && Byte.eqb c EntitySymbol then
    p ← with_checker Checker.OnSimpleNonstring (advance1 p); Ok (p, false)
  else
    '(p, item) ← Next p;
    if bool_decide (GetType item = itemType) then Ok (p, true)
    else if isOptional && bool_decide (GetType item = EntityValue) then Ok (p, false)
    else Throw EUnexpectedItem.

Definition ParseBeginList := ParseItem BeginList false.
Definition ParseOptionalBeginList := ParseItem BeginList true.
Definition ParseEndList := ParseItem EndList false.
Definition ParseEntity := ParseItem EntityValue false.

Fixpoint marker_loop (marker : byte) (fuel : nat) (c : byte) (p : TYsonPullParser) : Result (TYsonPullParser * bool) :=
  match fuel with
  | O => OutOfFuel
  | S fuel =>
      if Byte.eqb c ";" || IsSpace c then
        let p := advance1 p in
        p ← (if Byte.eqb c ";" then with_checker Checker.OnSeparator p else Ok p);
        '(p, c) ← with_lexer (lift (GetChar false)) p;
        marker_loop marker fuel c p
      else Ok (p, Byte.eqb c marker)
  end.

Definition IsMarker (marker : byte) (p : TYsonPullParser) : Result (TYsonPullParser * bool) :=
  p ← MaybeSkipSemicolon p;
  '(p, c) ← with_lexer (lift (GetChar false)) p;
  if Byte.eqb c marker then Ok (p, true) else marker_loop marker (pull_fuel p) c p.

Definition IsEndList := IsMarker EndListSymbol.
Definition IsEntity := IsMarker EntitySymbol.

(** [None] is [std::nullopt]; a value that is not optional is always [Some]. *)
Definition ParseTypedValueFallback (T : TValueType) (isOptional : bool) (p : TYsonPullParser)
    : Result (TYsonPullParser * option (TValueOf T)) :=
  '(p, item) ← Next p;
  if bool_decide (GetType item = ItemType T) then
    match UncheckedAs T item with Some value => Ok (p, Some value) | None => Crash end
  else if isOptional && bool_decide (GetType item = EntityValue) then Ok (p, None)
  else Throw EUnexpectedItem.

Definition readBinaryValue (T : TValueType) : TYsonPullParser → Result (TYsonPullParser * TValueOf T) :=
  match T with
  | i64 => λ p, p ← with_checker Checker.OnSimpleNonstring p; with_lexer ReadBinaryInt64 p
  | ui64 => λ p, p ← with_checker Checker.OnSimpleNonstring p; with_lexer ReadBinaryUint64 p
  | double => λ p, p ← with_checker Checker.OnSimpleNonstring p; with_lexer ReadBinaryDouble p
  | TStringBuf => λ p, p ← with_checker Checker.OnString p; with_lexer (ReadBinaryString ML) p
  | bool_ => λ _, Crash
  end.

(** [ParseTypedValue], at [i64], [ui64], [double] and [TStringBuf]. *)
Definition ParseTypedValue (T : TValueType) (isOptional : bool) (p : TYsonPullParser)
    : Result (TYsonPullParser * option (TValueOf T)) :=
  p ← MaybeSkipSemicolon p;
  '(p, c) ← with_lexer (lift (GetChar false)) p;
  if is_marker c (ItemType T) then
    '(p, value) ← readBinaryValue T (advance1 p); Ok (p, Some value)
  else if isOptional && Byte.eqb c EntitySymbol then
    p ← with_checker Checker.OnSimpleNonstring (advance1 p); Ok (p, None)
  else ParseTypedValueFallback T isOptional p.

Definition ParseInt64 := ParseTypedValue i64 false.
Definition ParseOptionalInt64 := ParseTypedValue i64 true.
Definition ParseUint64 := ParseTypedValue ui64 false.
Definition ParseOptionalUint64 := ParseTypedValue ui64 true.
Definition ParseDouble := ParseTypedValue double false.
Definition ParseOptionalDouble := ParseTypedValue double true.
Definition ParseString := ParseTypedValue TStringBuf false.
Definition ParseOptionalString := ParseTypedValue TStringBuf true.

(** [ParseBoolean] and, where [isOptional], [ParseOptionalBoolean]. *)
Definition ParseBooleanImpl (isOptional : bool) (p : TYsonPullParser) : Result (TYsonPullParser * option bool) :=
  p ← MaybeSkipSemicolon p;
  '(p, c) ← with_lexer (lift (GetChar false)) p;
  if Byte.eqb c TrueMarker || Byte.eqb c FalseMarker then
    p ← with_checker Checker.OnSimpleNonstring (advance1 p); Ok (p, Some (Byte.eqb c TrueMarker))
  else if isOptional && Byte.eqb c EntitySymbol then
    p ← with_checker Checker.OnSimpleNonstring (advance1 p); Ok (p, None)
  else ParseTypedValueFallback bool_ isOptional p.

Definition ParseBoolean := ParseBooleanImpl false.
Definition ParseOptionalBoolean := ParseBooleanImpl true.

(** [ParseVarintToArray], at [i64] (where [signed]) and [ui64]: the bytes written to [out]. *)
Definition ParseVarintToArray (signed isOptional : bool) (p : TYsonPullParser) : Result (TYsonPullParser * list byte) :=
  let T := if signed then i64 else ui64 in
  p ← MaybeSkipSemicolon p;
  '(p, c) ← with_lexer (lift (GetChar false)) p;
  if is_marker c (ItemType T) then
    '(p, out) ← with_lexer (lift ReadVarint64ToArray) (advance1 p);
    p ← with_checker Checker.OnSimpleNonstring p; Ok (p, out)
  else if isOptional && Byte.eqb c EntitySymbol then
    p ← with_checker Checker.OnSimpleNonstring (advance1 p); Ok (p, [])
  else if signed then
    '(p, value) ← ParseTypedValueFallback i64 isOptional p;
    match value with None => Ok (p, []) | Some value => Ok (p, Varint.WriteVarInt64 value) end
  else
    '(p, value) ← ParseTypedValueFallback ui64 isOptional p;
    match value with None => Ok (p, []) | Some value => Ok (p, Varint.WriteVarUint64 value) end.

Definition ParseUint64AsVarint := ParseVarintToArray false false.
Definition ParseOptionalUint64AsVarint := ParseVarintToArray false true.
Definition ParseInt64AsZigzagVarint := ParseVarintToArray true false.
Definition ParseOptionalInt64AsZigzagVarint := ParseVarintToArray true true.
End TypedReaders.

(** ** The fast paths *)

Lemma GetChar_cases s : Past s = 0%nat →
  (at_stream s [] ∧ GetChar true s = Ok (TStringReader [], x00) ∧ GetChar false s = Throw EPrematureEndOfStream) ∨
  ∃ s' c b, GetChar true s = Ok (s', c) ∧ GetChar false s = Ok (s', c) ∧ Block s' = c :: b.
Proof.
  intros Hp. destruct (text_of s) as [|c t] eqn:Ht.
  - left. assert (at_stream s []) by done. by rewrite GetChar_end, GetChar_end_false by done.
  - right. destruct (GetChar_text true s c t (conj Hp Ht)) as (s1 & b1 & H1 & _ & Hb1).
    exists s1, c, b1. split_and!; [done| |done]. rewrite <- H1. unfold GetChar.
    destruct (IsEmpty s) eqn:E; [simpl|done]. destruct (GetChar_text false s c t (conj Hp Ht)) as (s2 & b2 & H2 & _).
    unfold GetChar in H1, H2. rewrite E in H1, H2. simpl in H1, H2. unfold Refresh in *. rewrite E in *.
    destruct (refresh_blocks (Rest s)) as [b r]. destruct (IsEmpty _ && _); [done|]. done.
Qed.

(** Copying a varint and decoding it. *)
Lemma varint_copy_spec p b rest steps out : is_varint p b → (length p < steps)%nat →
  varint_copy steps (p ++ b :: rest) out = Ok (out ++ p ++ [b]).
Proof.
  intros [Hp Hb]. revert steps out. induction Hp as [|x p Hx Hp IH]; intros [|steps] out Hl; simpl in Hl; try lia; simpl.
  - by rewrite Hb.
  - rewrite Hx, IH by lia. by rewrite <- app_assoc.
Qed.

Lemma varint_copy_bad p rest steps out : Forall (λ x, flagged x = true) p → length p = steps →
  varint_copy steps (p ++ rest) out = Throw EVarintTooLong.
Proof.
  intros Hp. revert steps out. induction Hp as [|x p Hx Hp IH]; intros steps out <-; simpl; [done|].
  rewrite Hx. by apply IH.
Qed.

(** The bytes are one varint, and it decodes to the value. *)
Definition encodes (out : list byte) (value : Z) : Prop :=
  (length out <= MaxVarintBytes)%nat ∧ ∃ s, ReadVarint64 (TStringReader out) = Ok (s, value) ∧ at_stream s [].

Lemma encodes_write v : in_u 64 v → encodes (Varint.WriteVarUint64 v) v.
Proof.
  intros Hv. split.
  - destruct (WriteVarUint64_varint v Hv) as (p & b & -> & _ & Hl & _). rewrite length_app. unfold MaxVarintBytes. simpl. lia.
  - destruct (ReadVarint64_write (TStringReader (Varint.WriteVarUint64 v)) v [] Hv) as (s & ? & ?); [|by eauto].
    split; [done|]. unfold text_of. simpl. done.
Qed.

Lemma encodes_copy p b rest s s' value : is_varint p b → (length p < 10)%nat → at_stream s (p ++ b :: rest) →
  ReadVarint64 s = Ok (s', value) → encodes (p ++ [b]) value.
Proof.
  intros Hv Hl Hs E. split; [rewrite length_app; unfold MaxVarintBytes; simpl; lia|].
  destruct (ReadVarint64_text s p b rest Hv Hl Hs) as (s1 & E1 & _). rewrite E in E1. simplify_eq.
  apply (ReadVarint64_text _ p b []); [done|done|]. split; [done|]. unfold text_of. simpl. by rewrite app_nil_r.
Qed.

Lemma ReadVarint64ToArray_spec s : Past s = 0%nat →
  match ReadVarint64ToArray s, ReadVarint64 s with
  | Ok (s1, out), Ok (s2, value) => s1 = s2 ∧ encodes out value
  | Throw _, Throw _ => True
  | _, _ => False
  end.
Proof.
  intros Hp. pose proof (ReadVarint64_outcome s Hp) as Hout. unfold ReadVarint64ToArray.
  destruct (FastPath s) eqn:Hf.
  - destruct (varint_cases (Block s) 10) as [(p & b & r & Hb & Hv & Hl)|[(p & r & Hb & Hpf & Hl)|[Hpf Hl]]].
    + rewrite Hb, (varint_copy_spec p b r MaxVarintBytes []) by done. cbn [mbind result_bind app].
      assert (ReadVarint64 s = Ok (Advance (length (p ++ [b])) s, acc64 0 0 (p ++ [b]))) as E.
      { unfold ReadVarint64. rewrite Hf, Hb, varint64_array_spec by done. run_bind.
        rewrite length_app. simpl. reflexivity. }
      rewrite E. split; [done|]. eapply (encodes_copy p b (r ++ concat (Rest s)) s); [done|done| |exact E].
      split; [done|]. unfold text_of. by rewrite Hb, <- app_assoc.
    + rewrite Hb, (varint_copy_bad p r MaxVarintBytes) by done. run_bind.
      unfold ReadVarint64. by rewrite Hf, Hb, (varint64_array_long p r MaxVarintBytes).
    + by rewrite FastPath_flagged in Hf.
  - unfold ReadVarint64 in *. rewrite Hf in *. destruct (ReadVarint64Slow s) as [[s' v]| | |]; try done.
    run_bind. split; [done|by apply encodes_write].
Qed.

Section FastPaths.
Context (fd : list byte → Result Z) (Hfd : total_conversion fd).
Context (L : nat) (HL : Z.of_nat L < 2 ^ 32).

#[local] Abbreviation size p := (stream_size (Stream (PLexer p))).

Lemma next_loop_fuel {V R} (visitor : TVisitor V R) fuel1 fuel2 p v : pull_inv L p →
  (size p < fuel1)%nat → (size p < fuel2)%nat →
  next_loop fd visitor fuel1 p v = next_loop fd visitor fuel2 p v.
Proof.
  revert fuel2 p v. induction fuel1 as [|fuel1 IH]; intros [|fuel2] p v Hp H1 H2; try lia. cbn [next_loop].
  pose proof (NextTurn_turn fd Hfd L HL p Hp) as Ht. destruct (NextTurn fd p) as [[p1 token]| | |]; try done.
  run_bind. destruct Ht as [Hp1 Ht]. destruct token as [[item| |]|]; [done|..].
  - destruct Ht as (_ & _ & Hs). destruct (VisitEquality _ _ _); [|done..]. apply IH; [done|lia..].
  - destruct Ht as (_ & _ & Hs). destruct (VisitSeparator _ _ _); [|done..]. apply IH; [done|lia..].
  - apply IH; [done|lia..].
Qed.

(** [Next], one turn at a time. *)
Lemma Next_turn p : pull_inv L p →
  Next fd p = '(p, token) ← NextTurn fd p;
    match token with Some (Item item) => Ok (p, item) | _ => Next fd p end.
Proof.
  intros Hp. unfold Next at 1, NextImpl, pull_fuel. cbn [next_loop].
  pose proof (NextTurn_turn fd Hfd L HL p Hp) as Ht. destruct (NextTurn fd p) as [[p1 token]| | |]; try done.
  run_bind. destruct Ht as [Hp1 Ht]. unfold Next, NextImpl.
  destruct token as [[item| |]|]; [done|..]; cbn [VisitEquality VisitSeparator TYsonItemCreatingVisitor mbind result_bind].
  - destruct Ht as (_ & _ & Hs). by rewrite (next_loop_fuel _ _ (pull_fuel p1)) by (done || unfold pull_fuel; lia).
  - destruct Ht as (_ & _ & Hs). by rewrite (next_loop_fuel _ _ (pull_fuel p1)) by (done || unfold pull_fuel; lia).
  - by rewrite (next_loop_fuel _ _ (pull_fuel p1)) by (done || unfold pull_fuel; lia).
Qed.

Lemma NextTurn_peeked p c b : Block (Stream (PLexer p)) = c :: b → NextTurn fd p = NextSwitch fd c p.
Proof.
  intros Hb. unfold NextTurn, with_lexer. rewrite (GetChar_peeked true _ _ _ Hb). by destruct p.
Qed.

Lemma pull_inv_GetChar a p l c : pull_inv L p → lift (GetChar a) (PLexer p) = Ok (l, c) →
  pull_inv L {| PLexer := l; SyntaxChecker_ := SyntaxChecker_ p |}.
Proof.
  intros Hp E. pose proof (lift_GetChar_safe _ a _ (proj1 Hp)) as H. rewrite E in H. destruct H as [[? _] _].
  split; [done|apply Hp].
Qed.

(** Looking at the next byte: nothing is lost, and at the end of the stream [Next] can only
    return [EndOfStream] or throw. *)
Lemma peek_cases p : pull_inv L p →
  (∃ p1 c b, with_lexer (lift (GetChar true)) p = Ok (p1, c) ∧ with_lexer (lift (GetChar false)) p = Ok (p1, c) ∧
     pull_inv L p1 ∧ Block (Stream (PLexer p1)) = c :: b ∧ Next fd p = Next fd p1) ∨
  (∃ p1, with_lexer (lift (GetChar true)) p = Ok (p1, x00) ∧ (∃ e, with_lexer (lift (GetChar false)) p1 = Throw e) ∧
     (∃ e, with_lexer (lift (GetChar false)) p = Throw e) ∧
     ((∃ e, Next fd p = Throw e) ∨ ∃ p2, Next fd p = Ok (p2, Simple EndOfStream))).
Proof.
  intros Hp. destruct (GetChar_cases (Stream (PLexer p)) (proj1 (proj1 Hp))) as [(Hnil & Ht & Hf)|(s' & c & b & Ht & Hf & Hb)].
  - right. unfold with_lexer, lift. rewrite Ht, Hf. run_bind. eexists. split; [reflexivity|].
    split_and!; [by eexists|by eexists|].
    rewrite (Next_turn p Hp). unfold NextTurn, with_lexer, lift. rewrite Ht. run_bind.
    change (NextSwitch fd x00 ?q) with (p ← with_checker Checker.OnFinish q; Ok (p, Some (Item (Simple EndOfStream)))).
    destruct (proj2 Hp) as (a & Ha). unfold with_checker. pose proof (OnFinish_accepting L a _ Ha) as H. cbn [SyntaxChecker_].
    destruct (accepting a); [rewrite H; right; by eexists|]. destruct H as (e & ->). left. by eexists.
  - left. unfold with_lexer, lift. rewrite Ht, Hf. run_bind.
    eexists _, c, b. split_and!; [done|done| |done|].
    + eapply (pull_inv_GetChar true); [done|]. unfold lift. rewrite Ht. done.
    + rewrite (Next_turn p Hp). unfold NextTurn at 1, with_lexer, lift. rewrite Ht. run_bind.
      rewrite Next_turn; [by rewrite (NextTurn_peeked _ c b)|].
      eapply (pull_inv_GetChar true); [done|]. unfold lift. rewrite Ht. done.
Qed.

(** The common shape of the readers: skip a separator, look at the next byte, branch. *)
Definition with_peek {A} (body : byte → TYsonPullParser → Result A) (p : TYsonPullParser) : Result A :=
  p ← MaybeSkipSemicolon p;
  '(p, c) ← with_lexer (lift (GetChar false)) p;
  body c p.

Lemma with_peek_next {A} (body : byte → TYsonPullParser → Result A) (k : TYsonPullParser * TYsonItem → Result A) p :
  (∀ p c b, pull_inv L p → Block (Stream (PLexer p)) = c :: b → body c p ≈ Next fd p ≫= k) →
  (∀ p, ∃ e, k (p, Simple EndOfStream) = Throw e) →
  pull_inv L p → with_peek body p ≈ Next fd p ≫= k.
Proof.
  intros Hbody Hk Hp.
  assert (∀ p, pull_inv L p → ('(p, c) ← with_lexer (lift (GetChar false)) p; body c p) ≈ Next fd p ≫= k) as Hpeek.
  { clear p Hp. intros p Hp. destruct (peek_cases p Hp) as [(p1 & c & b & _ & -> & Hp1 & Hb & ->)|(p1 & _ & _ & (e & ->) & HN)].
    - by eapply Hbody.
    - destruct HN as [(e' & ->)|(p2 & ->)]; run_bind; [auto|]. destruct (Hk p2) as (e' & ->). auto. }
  unfold with_peek, MaybeSkipSemicolon.
  destruct (peek_cases p Hp) as [(p1 & c & b & Ht & _ & Hp1 & Hb & HN)|(p1 & Ht & (e & Hf) & _ & HN)]; rewrite Ht; run_bind.
  - rewrite HN. destruct (Byte.eqb c ";") eqn:Hc; [|by apply Hpeek].
    apply byte_dec_bl in Hc as ->. rewrite (Next_turn p1 Hp1), (NextTurn_peeked p1 _ _ Hb).
    pose proof (NextTurn_turn fd Hfd L HL p1 Hp1) as Hturn. rewrite (NextTurn_peeked p1 _ _ Hb) in Hturn.
    change (NextSwitch fd ";" p1) with (p ← with_checker Checker.OnSeparator p1; Ok (advance1 p, Some Separator)) in *.
    unfold with_checker in *. change (SyntaxChecker_ (advance1 p1)) with (SyntaxChecker_ p1).
    destruct (Checker.OnSeparator (SyntaxChecker_ p1)) as [c'| | |]; try done; run_bind; auto.
    apply Hpeek, Hturn.
  - change (Byte.eqb x00 ";") with false. run_bind. rewrite Hf. run_bind.
    destruct HN as [(e' & ->)|(p2 & ->)]; run_bind; [auto|]. destruct (Hk p2) as (e' & ->). auto.
Qed.

Lemma Next_peeked p c b : pull_inv L p → Block (Stream (PLexer p)) = c :: b →
  Next fd p = '(p, token) ← NextSwitch fd c p; match token with Some (Item item) => Ok (p, item) | _ => Next fd p end.
Proof. intros Hp Hb. by rewrite (Next_turn p Hp), (NextTurn_peeked p _ _ Hb). Qed.

(** A checker call and a lexer call do not depend on each other's order. *)
Lemma check_lex_swap {A A'} (f : Checker.t → Result Checker.t) (g : TLexer → Result (TLexer * A))
    (k : TYsonPullParser → A → Result A') p :
  (match g (PLexer p) with Ok _ | Throw _ => True | _ => False end) →
  (match f (SyntaxChecker_ p) with Ok _ | Throw _ => True | _ => False end) →
  (p ← with_checker f p; '(p, a) ← with_lexer g p; k p a) ≈ ('(p, a) ← with_lexer g p; p ← with_checker f p; k p a).
Proof.
  intros Hg Hf. unfold with_checker, with_lexer. cbn [PLexer SyntaxChecker_].
  destruct (f (SyntaxChecker_ p)) as [c| | |] eqn:Ef, (g (PLexer p)) as [[l a]| | |] eqn:Eg; try done; cbn [mbind result_bind PLexer SyntaxChecker_];
    rewrite ?Ef, ?Eg; run_bind; auto.
  reflexivity.
Qed.

Lemma checker_total token p : proper_token token → pull_inv L p →
  match OnToken token (SyntaxChecker_ p) with Ok _ | Throw _ => True | _ => False end.
Proof.
  intros Ht [_ Ha]. pose proof (checker_call L HL token p Ht Ha) as H. by destruct (OnToken token (SyntaxChecker_ p)).
Qed.

Lemma lexer_total {A} (g : TLexer → Result (TLexer * A)) Q p c b : pull_inv L p →
  Block (Stream (PLexer p)) = c :: b → c ≠ x00 →
  (∀ l, ready DefaultMemoryLimit l → safe DefaultMemoryLimit l (g l) Q) →
  match g (PLexer (advance1 p)) with Ok _ | Throw _ => True | _ => False end.
Proof.
  intros [Hl _] Hb Hc Hg. destruct (advance1_ready L p c Hl ltac:(intros _; eauto) Hc) as [Hr _].
  specialize (Hg _ Hr). by destruct (g _) as [[? ?]| | |].
Qed.

(** A binary value behind its marker: the fast path's order of calls and [Next]'s. *)
Lemma marker_value {A A'} (f : Checker.t → Result Checker.t) (g : TLexer → Result (TLexer * A)) (item : A → TYsonItem)
    (a0 : A) (k : TYsonPullParser * TYsonItem → Result A') (k' : TYsonPullParser → A → Result A') Q c p b :
  pull_inv L p → Block (Stream (PLexer p)) = c :: b → c ≠ x00 →
  (∀ l, ready DefaultMemoryLimit l → safe DefaultMemoryLimit l (g l) Q) →
  (∀ ch, f ch = OnToken (Item (item a0)) ch) → proper_token (Item (item a0)) →
  (∀ p a, k (p, item a) = k' p a) →
  NextSwitch fd c p ≈ ('(p, value) ← with_lexer g (advance1 p); p ← with_checker f p; Ok (p, Some (Item (item value)))) →
  (p ← with_checker f (advance1 p); '(p, value) ← with_lexer g p; k' p value) ≈ Next fd p ≫= k.
Proof.
  intros Hp Hb Hc Hg Hf Ht Hk HN. rewrite (Next_peeked p c b Hp Hb), HN, check_lex_swap.
  - unfold with_lexer, with_checker. destruct (g (PLexer (advance1 p))) as [[l a]| | |]; run_bind; auto.
    destruct (f _) as [ch| | |]; run_bind; auto. by rewrite Hk.
  - by eapply lexer_total.
  - rewrite Hf. by apply (checker_total _ p).
Qed.

(** A bracket, a boolean marker or an entity. *)
Lemma marker_simple {A} (f : Checker.t → Result Checker.t) (item : TYsonItem) (k : TYsonPullParser * TYsonItem → Result A)
    (k' : TYsonPullParser → Result A) c p b :
  pull_inv L p → Block (Stream (PLexer p)) = c :: b → (∀ p, k (p, item) = k' p) →
  NextSwitch fd c p = (p ← with_checker f (advance1 p); Ok (p, Some (Item item))) →
  (p ← with_checker f (advance1 p); k' p) ≈ Next fd p ≫= k.
Proof.
  intros Hp Hb Hk HN. rewrite (Next_peeked p c b Hp Hb), HN. unfold with_checker.
  destruct (f _); run_bind; auto. by rewrite Hk.
Qed.

Lemma ParseTypedValue_next T isOptional p : T ≠ bool_ → pull_inv L p →
  ParseTypedValue fd T isOptional p ≈ ParseTypedValueFallback fd T isOptional p.
Proof.
  intros HT Hp. unfold ParseTypedValueFallback.
  apply (with_peek_next (λ c p,
    if is_marker c (ItemType T) then '(p, value) ← readBinaryValue T (advance1 p); Ok (p, Some value)
    else if isOptional && Byte.eqb c EntitySymbol then p ← with_checker Checker.OnSimpleNonstring (advance1 p); Ok (p, None)
    else ParseTypedValueFallback fd T isOptional p)); [|by intros; destruct T, isOptional; eexists|done].
  clear p Hp. intros p c b Hp Hb. destruct (is_marker c (ItemType T)) eqn:Hm.
  - assert (∀ m, Byte.eqb c m = true → c = m) as Heq by (intros m; apply byte_dec_bl).
    destruct T; unfold is_marker in Hm; simpl in Hm; try done; apply Heq in Hm as ->; cbn [readBinaryValue]; rewrite bind_assoc_result.
    + by eapply (marker_value _ _ ItemInt64 0); [done|done|done|apply ReadBinaryInt64_safe| | | |].
    + by eapply (marker_value _ _ ItemUint64 0); [done|done|done|apply ReadBinaryUint64_safe| | | |].
    + by eapply (marker_value _ _ ItemDouble 0); [done|done|done|apply ReadBinaryDouble_safe| | | |].
    + eapply (marker_value _ _ ItemString []); [done|done|done|apply ReadBinaryString_safe|done|done|done|].
      change (NextSwitch fd StringMarker p) with (p ← with_checker Checker.OnString (advance1 p);
        '(p, value) ← with_lexer (ReadBinaryString DefaultMemoryLimit) p; Ok (p, Some (Item (ItemString value)))).
      apply check_lex_swap; [by eapply lexer_total; [..|apply ReadBinaryString_safe]|].
      by apply (checker_total (Item (ItemString [])) p).
  - destruct (isOptional && Byte.eqb c EntitySymbol) eqn:Ho; [|reflexivity].
    apply andb_true_iff in Ho as [-> Ho]. apply byte_dec_bl in Ho as ->.
    eapply (marker_simple _ (Simple EntityValue)); [done|done|by destruct T|done].
Qed.

Lemma ParseBoolean_next isOptional p : pull_inv L p →
  ParseBooleanImpl fd isOptional p ≈ ParseTypedValueFallback fd bool_ isOptional p.
Proof.
  intros Hp. unfold ParseTypedValueFallback.
  apply (with_peek_next (λ c p,
    if Byte.eqb c TrueMarker || Byte.eqb c FalseMarker then
      p ← with_checker Checker.OnSimpleNonstring (advance1 p); Ok (p, Some (Byte.eqb c TrueMarker))
    else if isOptional && Byte.eqb c EntitySymbol then p ← with_checker Checker.OnSimpleNonstring (advance1 p); Ok (p, None)
    else ParseTypedValueFallback fd bool_ isOptional p)); [|by intros; destruct isOptional; eexists|done].
  clear p Hp. intros p c b Hp Hb. destruct (Byte.eqb c TrueMarker || Byte.eqb c FalseMarker) eqn:Hm.
  - apply orb_prop in Hm as [Hm|Hm]; apply byte_dec_bl in Hm as ->.
    + by apply (marker_simple _ (ItemBoolean true) _ (λ p, Ok (p, Some true)) TrueMarker p b).
    + by apply (marker_simple _ (ItemBoolean false) _ (λ p, Ok (p, Some false)) FalseMarker p b).
  - destruct (isOptional && Byte.eqb c EntitySymbol) eqn:Ho; [|reflexivity].
    apply andb_true_iff in Ho as [-> Ho]. apply byte_dec_bl in Ho as ->.
    by apply (marker_simple _ (Simple EntityValue) _ (λ p, Ok (p, None)) EntitySymbol p b).
Qed.

(** What [ParseItem] promises: the next item is of the type. *)
Definition ExpectItem (itemType : EYsonItemType) (isOptional : bool) (p : TYsonPullParser) : Result (TYsonPullParser * bool) :=
  '(p, item) ← Next fd p;
  if bool_decide (GetType item = itemType) then Ok (p, true)
  else if isOptional && bool_decide (GetType item = EntityValue) then Ok (p, false)
  else Throw EUnexpectedItem.

Lemma ParseItem_next itemType isOptional p : itemType ∈ [BeginList; EndList; EntityValue] → pull_inv L p →
  ParseItem fd itemType isOptional p ≈ ExpectItem itemType isOptional p.
Proof.
  intros HT Hp. unfold ExpectItem.
  apply (with_peek_next (λ c p,
    if is_marker c itemType then p ← with_checker (OnSimpleItem itemType) (advance1 p); Ok (p, true)
    else if isOptional && Byte.eqb c EntitySymbol then p ← with_checker Checker.OnSimpleNonstring (advance1 p); Ok (p, false)
    else ExpectItem itemType isOptional p)); [| |done].
  - clear p Hp. intros p c b Hp Hb. destruct (is_marker c itemType) eqn:Hm.
    + rewrite !elem_of_cons, elem_of_nil in HT.
      destruct HT as [->|[->|[->|[]]]]; unfold is_marker in Hm; simpl in Hm; apply byte_dec_bl in Hm as ->.
      * by apply (marker_simple _ (Simple BeginList) _ (λ p, Ok (p, true)) BeginListSymbol p b).
      * by apply (marker_simple _ (Simple EndList) _ (λ p, Ok (p, true)) EndListSymbol p b).
      * by apply (marker_simple _ (Simple EntityValue) _ (λ p, Ok (p, true)) EntitySymbol p b).
    + destruct (isOptional && Byte.eqb c EntitySymbol) eqn:Ho; [|reflexivity].
      apply andb_true_iff in Ho as [-> Ho]. apply byte_dec_bl in Ho as ->.
      apply (marker_simple _ (Simple EntityValue) _ (λ p, Ok (p, false)) EntitySymbol p b); [done|done| |done].
      intros q. simpl. by destruct itemType.
  - intros q. exists EUnexpectedItem. rewrite !elem_of_cons, elem_of_nil in HT.
    by destruct HT as [->|[->|[->|[]]]], isOptional.
Qed.

(** The integers of the items are in the range of their types. *)
Definition item_fits (item : TYsonItem) : Prop :=
  match item with ItemInt64 v => in_s 64 v | ItemUint64 v => in_u 64 v | _ => True end.

Definition result_fits (r : Result (TYsonPullParser * option TToken)) : Prop :=
  ∀ p item, r = Ok (p, Some (Item item)) → item_fits item.

Lemma check_fits (f : Checker.t → Result Checker.t) item p : item_fits item →
  result_fits (p ← with_checker f p; Ok (p, Some (Item item))).
Proof. intros Hi p' item' (p1 & _ & E)%bind_ok. by simplify_eq. Qed.

Lemma lex_check_fits {A} (g : TLexer → Result (TLexer * A)) (f : Checker.t → Result Checker.t) (item : A → TYsonItem) p :
  (∀ l a, g (PLexer p) = Ok (l, a) → item_fits (item a)) →
  result_fits ('(p, a) ← with_lexer g p; p ← with_checker f p; Ok (p, Some (Item (item a)))).
Proof.
  intros Hg. unfold with_lexer. destruct (g (PLexer p)) as [[l a]| | |]; run_bind; try by intros ? ?.
  apply check_fits. by eapply Hg.
Qed.

Lemma check_lex_fits {A} (g : TLexer → Result (TLexer * A)) (f : Checker.t → Result Checker.t) (item : A → TYsonItem) p :
  (∀ a, item_fits (item a)) → result_fits (p ← with_checker f p; '(p, a) ← with_lexer g p; Ok (p, Some (Item (item a)))).
Proof. intros Hi p' item' (p1 & _ & ([p2 a] & _ & E)%bind_ok)%bind_ok. by simplify_eq. Qed.

Lemma NextNumeric_fits p : result_fits (NextNumeric fd p).
Proof.
  unfold NextNumeric. destruct (with_lexer _ p) as [[p1 [r buffer]]| | |]; run_bind; try by intros ? ?. cbv zeta.
  destruct r.
  - destruct (FromString_i64 buffer) as [v| | |] eqn:E; run_bind; try by intros ? ?.
    apply FromString_i64_spec in E as [_ E]. by apply check_fits.
  - destruct (FromString_ui64 _) as [v| | |] eqn:E; run_bind; try by intros ? ?.
    apply FromString_ui64_range in E. by apply check_fits.
  - destruct (fd buffer) as [v| | |]; run_bind; try by intros ? ?. by apply check_fits.
Qed.

Lemma NextSwitch_fits c p : pull_inv L p → peeked (PLexer p) c → result_fits (NextSwitch fd c p).
Proof.
  intros Hp Hc. unfold NextSwitch. cbv zeta.
  assert (∀ m, Byte.eqb c m = true → m ≠ x00 → ready DefaultMemoryLimit (PLexer (advance1 p))) as Hadv.
  { intros m Hm Hne. apply byte_dec_bl in Hm as ->. by apply (advance1_ready L p m (proj1 Hp) Hc Hne). }
  repeat match goal with |- result_fits (if Byte.eqb c ?m then _ else _) => destruct (Byte.eqb c m) eqn:? end.
  all: try (by apply check_fits). all: try (by apply lex_check_fits). all: try (by apply check_lex_fits).
  - apply lex_check_fits. intros l v E. pose proof (ReadBinaryInt64_safe DefaultMemoryLimit _ (Hadv Int64Marker ltac:(done) ltac:(done))) as H.
    rewrite E in H. apply H.
  - apply lex_check_fits. intros l v E. pose proof (ReadBinaryUint64_safe DefaultMemoryLimit _ (Hadv Uint64Marker ltac:(done) ltac:(done))) as H.
    rewrite E in H. apply H.
  - destruct (with_lexer _ (advance1 p)) as [[p1 ch]| | |]; run_bind; try by intros ? ?.
    destruct (_ || _); by apply check_lex_fits.
  - intros p' item (p1 & _ & E)%bind_ok. done.
  - intros p' item (p1 & _ & E)%bind_ok. done.
  - destruct (IsSpace c); [by intros p' item ([p1 ?] & _ & E)%bind_ok|].
    destruct (_ || _ || _); [apply NextNumeric_fits|]. destruct (_ || _); [by apply lex_check_fits|by intros ? ?].
Qed.

Lemma Next_fits p p' item : pull_inv L p → Next fd p = Ok (p', item) → item_fits item.
Proof.
  assert (∀ n p, (size p < n)%nat → pull_inv L p → Next fd p = Ok (p', item) → item_fits item) as H; [|intros; by eapply (H (S (size p)) p); [lia|..]].
  clear p. intros n. induction n as [|n IH]; intros p Hs Hp; [lia|]. rewrite (Next_turn p Hp).
  pose proof (NextTurn_turn fd Hfd L HL p Hp) as Ht. intros ([p1 token] & E & E1)%bind_ok. rewrite E in Ht. destruct Ht as [Hp1 Ht].
  destruct token as [[item'| |]|].
  - simplify_eq. unfold NextTurn in E. apply bind_ok in E as ([p2 c] & Eg & E). unfold with_lexer in Eg.
    apply bind_ok in Eg as ([l c'] & Eg & [= <- <-]). pose proof (lift_GetChar_safe _ true _ (proj1 Hp)) as Hg.
    rewrite Eg in Hg. destruct Hg as [_ Hg].
    eapply (NextSwitch_fits c' {| PLexer := l; SyntaxChecker_ := SyntaxChecker_ p |}); [|done|exact E].
    by eapply pull_inv_GetChar.
  - destruct Ht as (_ & _ & ?). by apply (IH p1); [lia|..].
  - destruct Ht as (_ & _ & ?). by apply (IH p1); [lia|..].
  - destruct Ht as (_ & ?). by apply (IH p1); [lia|..].
Qed.

(** What the bytes written by [ParseVarintToArray] stand for. *)
Definition varint_of (signed : bool) (out : list byte) (value : option Z) : Prop :=
  match value with
  | None => out = []
  | Some value => ∃ u, encodes out u ∧ value = (if signed then ZigZag.ZigZagDecode64 u else u)
  end.

Definition agree {A A'} (Q : A → A' → Prop) (r1 : Result (TYsonPullParser * A)) (r2 : Result (TYsonPullParser * A')) : Prop :=
  match r1, r2 with
  | Ok (p1, a1), Ok (p2, a2) => p1 = p2 ∧ Q a1 a2
  | Throw _, Throw _ => True
  | _, _ => False
  end.

Lemma agree_same {A A'} (Q : A → A' → Prop) r1 r2 r2' : agree Q r1 r2 → r2 ≈ r2' → agree Q r1 r2'.
Proof. intros H Hs. destruct Hs; [done|by destruct r1 as [[? ?]| | |]|by destruct r1 as [[? ?]| | |]..]. Qed.

(** The shape of [ParseVarintToArray] against [ParseTypedValue]: the same peeks, then
    branches that agree. *)
Lemma with_peek_agree {A A'} (Q : A → A' → Prop) body1 body2 p : pull_inv L p →
  (∀ p c b, pull_inv L p → Block (Stream (PLexer p)) = c :: b → agree Q (body1 c p) (body2 c p)) →
  agree Q (with_peek body1 p) (with_peek body2 p).
Proof.
  intros Hp Hbody.
  assert (∀ p, pull_inv L p → agree Q ('(p, c) ← with_lexer (lift (GetChar false)) p; body1 c p)
    ('(p, c) ← with_lexer (lift (GetChar false)) p; body2 c p)) as Hpeek.
  { clear p Hp. intros p Hp. destruct (peek_cases p Hp) as [(p1 & c & b & _ & -> & Hp1 & Hb & _)|(p1 & _ & _ & (e & ->) & _)]; [|done].
    by eapply Hbody. }
  unfold with_peek, MaybeSkipSemicolon.
  destruct (peek_cases p Hp) as [(p1 & c & b & -> & _ & Hp1 & Hb & _)|(p1 & -> & (e & Hf) & _)]; run_bind.
  - destruct (Byte.eqb c ";") eqn:Hc; [|by apply Hpeek]. apply byte_dec_bl in Hc as ->.
    pose proof (NextTurn_turn fd Hfd L HL p1 Hp1) as Hturn. rewrite (NextTurn_peeked p1 _ _ Hb) in Hturn.
    change (NextSwitch fd ";" p1) with (p ← with_checker Checker.OnSeparator p1; Ok (advance1 p, Some Separator)) in *.
    unfold with_checker in *. change (SyntaxChecker_ (advance1 p1)) with (SyntaxChecker_ p1).
    destruct (Checker.OnSeparator (SyntaxChecker_ p1)) as [c'| | |]; try done. apply Hpeek, Hturn.
  - change (Byte.eqb x00 ";") with false. run_bind. by rewrite Hf.
Qed.

Lemma marker_varint (g : TLexer → Result (TLexer * Z)) (decode : Z → Z) (signed : bool) p c b :
  pull_inv L p → Block (Stream (PLexer p)) = c :: b → c ≠ x00 →
  decode = (if signed then ZigZag.ZigZagDecode64 else id) →
  (∀ l, g l = '(l, u) ← lift ReadVarint64 l; Ok (l, decode u)) →
  agree (varint_of signed)
    ('(p, out) ← with_lexer (lift ReadVarint64ToArray) (advance1 p); p ← with_checker Checker.OnSimpleNonstring p; Ok (p, out))
    (p ← with_checker Checker.OnSimpleNonstring (advance1 p); '(p, value) ← with_lexer g p; Ok (p, Some value)).
Proof.
  intros Hp Hb Hc -> Hg. destruct (advance1_ready L p c (proj1 Hp) ltac:(intros _; eauto) Hc) as [[Hpast _] _].
  pose proof (ReadVarint64ToArray_spec _ Hpast) as H.
  pose proof (checker_total (Item (ItemInt64 0)) p ltac:(done) Hp) as Hck.
  change (OnToken (Item (ItemInt64 0))) with Checker.OnSimpleNonstring in Hck.
  unfold with_lexer, with_checker. cbn [PLexer SyntaxChecker_]. change (SyntaxChecker_ (advance1 p)) with (SyntaxChecker_ p).
  unfold lift at 1. destruct (ReadVarint64ToArray _) as [[s1 out]| | |] eqn:E1,
    (ReadVarint64 (Stream (PLexer (advance1 p)))) as [[s2 v]| | |] eqn:E2; try done;
    cbn [mbind result_bind PLexer SyntaxChecker_];
    destruct (Checker.OnSimpleNonstring (SyntaxChecker_ p)); try done; cbn [mbind result_bind PLexer];
    rewrite ?Hg; unfold lift; rewrite ?E2; try done.
  run_bind. destruct H as [-> H]. split; [done|]. simpl. exists v. split; [done|]. by destruct signed.
Qed.
Lemma fallback_varint {A} (signed : bool) (write : Z → list byte) (r : Result (TYsonPullParser * A)) (v : A → option Z) :
  (match r with Ok _ | Throw _ => True | _ => False end) →
  (∀ p a z, r = Ok (p, a) → v a = Some z → varint_of signed (write z) (Some z)) →
  agree (λ out a, varint_of signed out (v a))
    ('(p, value) ← r; match v value with None => Ok (p, []) | Some value => Ok (p, write value) end) r.
Proof.
  intros Hr Hv. destruct r as [[p a]| | |]; try done. run_bind.
  destruct (v a) as [z|] eqn:E; (split; [done|]); rewrite E; [|done]. by eapply Hv.
Qed.

Lemma fallback_total T isOptional p : pull_inv L p →
  match ParseTypedValueFallback fd T isOptional p with Ok _ | Throw _ => True | _ => False end.
Proof.
  intros Hp. pose proof (Next_ok fd Hfd L HL p Hp) as H. unfold ParseTypedValueFallback.
  destruct (Next fd p) as [[p1 item]| | |]; try done. run_bind.
  apply next_ok_proper in H as [->|Hproper]; [by destruct T, isOptional|]. by destruct T, isOptional, item as [[]| | | | |].
Qed.

Lemma ParseInt64AsZigzagVarint_agrees isOptional p : pull_inv L p →
  agree (varint_of true) (ParseVarintToArray fd true isOptional p) (ParseTypedValue fd i64 isOptional p).
Proof.
  intros Hp. eapply with_peek_agree; [done|]. clear p Hp. intros p c b Hp Hb. destruct (is_marker c (ItemType i64)) eqn:Hm.
  - change (is_marker c (ItemType i64)) with (Byte.eqb c Int64Marker) in Hm. apply byte_dec_bl in Hm as ->.
    cbn [readBinaryValue]. rewrite bind_assoc_result. by eapply (marker_varint ReadBinaryInt64 _ true).
  - destruct (isOptional && Byte.eqb c EntitySymbol); cbn [ItemType].
    + pose proof (checker_total (Item (ItemInt64 0)) p ltac:(done) Hp) as H.
      change (OnToken (Item (ItemInt64 0))) with Checker.OnSimpleNonstring in H. unfold with_checker.
      change (SyntaxChecker_ (advance1 p)) with (SyntaxChecker_ p). by destruct (Checker.OnSimpleNonstring _).
    + apply (fallback_varint true Varint.WriteVarInt64 _ id); [exact (fallback_total i64 isOptional p Hp)|].
      intros p' v z ([p1 item] & E & E1)%bind_ok Hz. pose proof (Next_fits p p1 item Hp E) as Hi.
      assert (in_s 64 z) by (destruct isOptional, item as [[]| | | | |]; simpl in *; by simplify_eq/=).
      exists (ZigZag.ZigZagEncode64 z). split; [by apply encodes_write, ZigZag.encode_range|].
      unfold ZigZag.ZigZagDecode64, ZigZag.ZigZagEncode64. by rewrite ZigZag.decode_encode.
Qed.

Lemma ParseUint64AsVarint_agrees isOptional p : pull_inv L p →
  agree (varint_of false) (ParseVarintToArray fd false isOptional p) (ParseTypedValue fd ui64 isOptional p).
Proof.
  intros Hp. eapply with_peek_agree; [done|]. clear p Hp. intros p c b Hp Hb. destruct (is_marker c (ItemType ui64)) eqn:Hm.
  - change (is_marker c (ItemType ui64)) with (Byte.eqb c Uint64Marker) in Hm. apply byte_dec_bl in Hm as ->.
    cbn [readBinaryValue]. rewrite bind_assoc_result. eapply (marker_varint ReadBinaryUint64 _ false); [done|done|done|done|].
    intros l. unfold ReadBinaryUint64. by destruct (lift ReadVarint64 l) as [[? ?]| | |].
  - destruct (isOptional && Byte.eqb c EntitySymbol); cbn [ItemType].
    + pose proof (checker_total (Item (ItemInt64 0)) p ltac:(done) Hp) as H.
      change (OnToken (Item (ItemInt64 0))) with Checker.OnSimpleNonstring in H. unfold with_checker.
      change (SyntaxChecker_ (advance1 p)) with (SyntaxChecker_ p). by destruct (Checker.OnSimpleNonstring _).
    + apply (fallback_varint false Varint.WriteVarUint64 _ id); [exact (fallback_total ui64 isOptional p Hp)|].
      intros p' v z ([p1 item] & E & E1)%bind_ok Hz. pose proof (Next_fits p p1 item Hp E) as Hi.
      assert (in_u 64 z) by (destruct isOptional, item as [[]| | | | |]; simpl in *; by simplify_eq/=).
      exists z. split; [by apply encodes_write|done].
Qed.

(** Every reader gives a result or throws. *)
Lemma Next_total p : pull_inv L p → match Next fd p with Ok _ | Throw _ => True | _ => False end.
Proof. intros Hp. pose proof (Next_ok fd Hfd L HL p Hp) as H. by destruct (Next fd p) as [[? ?]| | |]. Qed.
End FastPaths.

(** ** Theorems *)

(** C25. The typed readers are [Next] with a check of the type: in every state of the parser
    and for every input, [ParseInt64], [ParseUint64], [ParseDouble], [ParseString],
    [ParseBoolean], their optional versions, [ParseBeginList], [ParseOptionalBeginList],
    [ParseEndList] and [ParseEntity], whose fast paths look at single bytes and call the
    lexer and the checker themselves, leave the same parser and return the same value as
    calling [Next] and comparing the item's type, or throw exactly when that throws. *)
Theorem typed_readers_equivalent (fd : list byte → Result Z) (Hfd : total_conversion fd) (L : nat) (HL : Z.of_nat L < 2 ^ 31)
    (T : TValueType) (itemType : EYsonItemType) (isOptional : bool) (p : TYsonPullParser)
    (HT : T ≠ bool_) (Hitem : itemType ∈ [BeginList; EndList; EntityValue]) (Hp : pull_inv L p) :
  ParseTypedValue fd T isOptional p ≈ ParseTypedValueFallback fd T isOptional p ∧
  ParseBooleanImpl fd isOptional p ≈ ParseTypedValueFallback fd bool_ isOptional p ∧
  ParseItem fd itemType isOptional p ≈ ExpectItem fd itemType isOptional p.
Proof.
  assert (Z.of_nat L < 2 ^ 32) by lia.
  split_and!; [by eapply ParseTypedValue_next|by eapply ParseBoolean_next|by eapply ParseItem_next].
Qed.

Lemma typed_readers_equivalent_witness :
  let p := NewPullParser (TStringReader [x02; x03; ";"%byte; "]"%byte]) YsonListFragment 16 in
  pull_inv 16 p ∧
  (∃ p', ParseInt64 (λ _, Ok 0) p = Ok (p', Some (-2)) ∧ ParseTypedValueFallback (λ _, Ok 0) i64 false p = Ok (p', Some (-2))) ∧
  ParseItem (λ _, Ok 0) BeginList false p ≈ Throw EUnexpectedItem.
Proof.
  intros p. assert (pull_inv 16 p) as Hp by (apply (NewPullParser_inv _ YsonListFragment 16); [reflexivity|lia]).
  destruct (typed_readers_equivalent (λ _, Ok 0) ltac:(done) 16 ltac:(lia) i64 BeginList false p ltac:(done)
    ltac:(by apply elem_of_cons; left) Hp) as (H1 & _ & H3).
  split; [exact Hp|]. split.
  - change (ParseTypedValue (λ _, Ok 0) i64 false) with (ParseInt64 (λ _, Ok 0)) in H1. eexists.
    assert (ParseInt64 (λ _, Ok 0) p = Ok (_, Some (-2))) as E by (vm_compute; reflexivity).
    split; [exact E|]. rewrite E in H1. by inversion H1.
  - etransitivity; [exact H3|]. vm_compute. constructor.
Defined.

(** The varint readers copy what the typed readers decode: in every state and for every
    input, [ParseInt64AsZigzagVarint] and [ParseUint64AsVarint] (and the optional
    versions) leave the same parser as [ParseInt64] and [ParseUint64] and throw exactly
    when those throw; what they write is at most [MaxVarintBytes] long, nothing for an
    absent value, and otherwise one varint that the stream decodes to the value (zigzag
    decoded where it is signed), whether the input held it in binary or as text. *)
Theorem varint_readers_agree (fd : list byte → Result Z) (Hfd : total_conversion fd) (L : nat) (HL : Z.of_nat L < 2 ^ 31)
    (isOptional : bool) (p : TYsonPullParser) (Hp : pull_inv L p) :
  agree (varint_of true) (ParseVarintToArray fd true isOptional p) (ParseTypedValue fd i64 isOptional p) ∧
  agree (varint_of false) (ParseVarintToArray fd false isOptional p) (ParseTypedValue fd ui64 isOptional p).
Proof.
  assert (Z.of_nat L < 2 ^ 32) by lia.
  split; [by eapply ParseInt64AsZigzagVarint_agrees|by eapply ParseUint64AsVarint_agrees].
Qed.

Lemma varint_readers_agree_witness :
  let p := NewPullParser (TStringReader (B"-300;")) YsonListFragment 16 in
  pull_inv 16 p ∧
  (∃ p', ParseInt64 (λ _, Ok 0) p = Ok (p', Some (-300)) ∧ ParseInt64AsZigzagVarint (λ _, Ok 0) p = Ok (p', [xd7; x04])) ∧
  agree (varint_of true) (ParseInt64AsZigzagVarint (λ _, Ok 0) p) (ParseInt64 (λ _, Ok 0) p).
Proof.
  intros p. assert (pull_inv 16 p) as Hp by (apply (NewPullParser_inv _ YsonListFragment 16); [reflexivity|lia]).
  destruct (varint_readers_agree (λ _, Ok 0) ltac:(done) 16 ltac:(lia) false p Hp) as [H _].
  split; [exact Hp|]. split; [|exact H]. eexists. split; vm_compute; reflexivity.
Defined.

(** The bytes of a varint are copied unchecked: a tenth byte whose upper bits do not fit
    64 bits is accepted by the stream's reader, which drops them, and copied as it is, and
    the copy is refused by the coding library's [ReadVarUint64]. *)
Theorem varint_copy_not_canonical :
  let data := [x06; xff; xff; xff; xff; xff; xff; xff; xff; xff; x7f] in
  let p := NewPullParser (TStringReader data) YsonNode 16 in
  ∃ p', ParseUint64 (λ _, Ok 0) p = Ok (p', Some (2 ^ 64 - 1)) ∧
        ParseUint64AsVarint (λ _, Ok 0) p = Ok (p', drop 1 data) ∧
        is_throw (Varint.ReadVarUint64_ptr (drop 1 data)) = true.
Proof. eexists. split_and!; vm_compute; reflexivity. Qed.
