(* ===== verification/Compare.v ===== *)
(** Three-way comparison ([library/cpp/yt/misc/compare-inl.h]) of integers, strings and
    doubles, and what the comparisons of the table client need of it: each is a total
    preorder. A double is its 64-bit IEEE 754 pattern. *)

From S2P Require Import Prelude.

Definition TernaryCompare (lhs rhs : Z) : Z :=
  if lhs =? rhs then 0 else if lhs <? rhs then -1 else 1.

Definition GetSign (value : Z) : Z := if value <? 0 then -1 else if value >? 0 then 1 else 0.

(** [std::string_view::compare]: the first differing byte decides, then the length. *)
Fixpoint string_compare (lhs rhs : list byte) : Z :=
  match lhs, rhs with
  | [], [] => 0
  | [], _ => -1
  | _, [] => 1
  | a :: lhs, b :: rhs =>
      if byte_val a =? byte_val b then string_compare lhs rhs else byte_val a - byte_val b
  end.

Definition TernaryCompare_string (lhs rhs : list byte) : Z := GetSign (string_compare lhs rhs).

Definition TernaryCompare_bool (lhs rhs : bool) : Z := TernaryCompare (Z.b2z lhs) (Z.b2z rhs).

(** ** Doubles *)

Definition magnitude (d : Z) : Z := Z.land d (Z.ones 63).
Definition isnan (d : Z) : bool := 0x7FF0000000000000 <? magnitude d.

(** The numbers that are not NaN in their order; both zeros are [0]. *)
Definition double_rank (d : Z) : Z := if Z.testbit d 63 then - magnitude d else magnitude d.

(** The operator [<] of [double]. *)
Definition double_lt (lhs rhs : Z) : bool :=
  negb (isnan lhs) && negb (isnan rhs) && (double_rank lhs <? double_rank rhs).

Definition NaNSafeTernaryCompare (lhs rhs : Z) : Z :=
  if double_lt lhs rhs then -1
  else if double_lt rhs lhs then 1
  else if isnan lhs then (if isnan rhs then 0 else 1)
  else if isnan rhs then -1
  else 0.

(** ** Total preorders *)

(** What a comparator promises: its sign is antisymmetric and transitive. *)
Class TotalCompare {A} (cmp : A → A → Z) : Prop := {
  cmp_antisym a b : cmp b a = - cmp a b;
  cmp_trans a b c : cmp a b <= 0 → cmp b c <= 0 → cmp a c <= 0
}.

Section TotalCompare.
Context {A : Type} {cmp : A → A → Z} `{!TotalCompare cmp}.

Lemma cmp_refl a : cmp a a = 0.
Proof. pose proof (cmp_antisym (cmp := cmp) a a). lia. Qed.

Lemma cmp_lt_l a b c : cmp a b < 0 → cmp b c <= 0 → cmp a c < 0.
Proof.
  intros H1 H2. pose proof (cmp_trans (cmp := cmp) a b c ltac:(lia) H2).
  destruct (decide (cmp a c = 0)); [|lia]. pose proof (cmp_antisym (cmp := cmp) a c). pose proof (cmp_antisym (cmp := cmp) a b).
  pose proof (cmp_trans (cmp := cmp) b c a H2 ltac:(lia)). lia.
Qed.

Lemma cmp_lt_r a b c : cmp a b <= 0 → cmp b c < 0 → cmp a c < 0.
Proof.
  intros H1 H2. pose proof (cmp_trans (cmp := cmp) a b c H1 ltac:(lia)).
  destruct (decide (cmp a c = 0)); [|lia]. pose proof (cmp_antisym (cmp := cmp) a c). pose proof (cmp_antisym (cmp := cmp) b c).
  pose proof (cmp_trans (cmp := cmp) c a b ltac:(lia) H1). lia.
Qed.

Lemma cmp_eq_l a b c : cmp a b = 0 → (cmp a c <= 0 ↔ cmp b c <= 0).
Proof.
  intros H. pose proof (cmp_antisym (cmp := cmp) a b).
  split; intros; [apply (cmp_trans b a c)|apply (cmp_trans a b c)]; lia.
Qed.
End TotalCompare.

Lemma TernaryCompare_cases a b :
  (a < b ∧ TernaryCompare a b = -1) ∨ (a = b ∧ TernaryCompare a b = 0) ∨ (b < a ∧ TernaryCompare a b = 1).
Proof. unfold TernaryCompare. destruct (Z.eqb_spec a b), (Z.ltb_spec a b); lia. Qed.

#[export] Instance TernaryCompare_total : TotalCompare TernaryCompare.
Proof.
  split; [intros a b|intros a b c]; destruct (TernaryCompare_cases a b) as [[? ?]|[[? ?]|[? ?]]].
  1-3: destruct (TernaryCompare_cases b a) as [[? ?]|[[? ?]|[? ?]]]; lia.
  all: destruct (TernaryCompare_cases b c) as [[? ?]|[[? ?]|[? ?]]], (TernaryCompare_cases a c) as [[? ?]|[[? ?]|[? ?]]]; lia.
Qed.

(** Comparing images, and signs, keeps the laws. *)
Lemma total_compare_on {A A'} (f : A → A') (cmp : A' → A' → Z) : TotalCompare cmp → TotalCompare (λ a b, cmp (f a) (f b)).
Proof. intros H. split; intros; [apply cmp_antisym|by eapply cmp_trans]. Qed.

Lemma GetSign_spec z : (z < 0 ∧ GetSign z = -1) ∨ (z = 0 ∧ GetSign z = 0) ∨ (0 < z ∧ GetSign z = 1).
Proof. unfold GetSign. destruct (Z.ltb_spec z 0), (Z.gtb_spec z 0); lia. Qed.

Lemma total_compare_sign {A} (cmp : A → A → Z) : TotalCompare cmp → TotalCompare (λ a b, GetSign (cmp a b)).
Proof.
  intros H. split; intros *; [|intros H1 H2].
  - pose proof (cmp_antisym a b). destruct (GetSign_spec (cmp a b)) as [?|[?|?]], (GetSign_spec (cmp b a)) as [?|[?|?]]; lia.
  - pose proof (cmp_trans a b c). destruct (GetSign_spec (cmp a b)) as [?|[?|?]], (GetSign_spec (cmp b c)) as [?|[?|?]],
      (GetSign_spec (cmp a c)) as [?|[?|?]]; lia.
Qed.

#[export] Instance string_compare_total : TotalCompare string_compare.
Proof.
  split.
  - intros a. induction a as [|x a IH]; intros [|y b]; simpl; try done.
    destruct (Z.eqb_spec (byte_val x) (byte_val y)) as [E|E].
    + rewrite E, Z.eqb_refl. apply IH.
    + rewrite (proj2 (Z.eqb_neq _ _)) by congruence. lia.
  - intros a. induction a as [|x a IH]; intros [|y b] [|z c]; simpl; try lia; try done.
    destruct (Z.eqb_spec (byte_val x) (byte_val y)), (Z.eqb_spec (byte_val y) (byte_val z)),
      (Z.eqb_spec (byte_val x) (byte_val z)); try lia. apply IH.
Qed.

#[export] Instance TernaryCompare_string_total : TotalCompare TernaryCompare_string.
Proof. apply total_compare_sign, _. Qed.

#[export] Instance TernaryCompare_bool_total : TotalCompare TernaryCompare_bool.
Proof. apply (total_compare_on Z.b2z), _. Qed.

(** Doubles are ordered by rank, with every NaN behind every number. *)
Lemma NaNSafeTernaryCompare_spec a b :
  NaNSafeTernaryCompare a b = TernaryCompare_bool (isnan a) (isnan b) ∧ isnan a || isnan b = true ∨
  NaNSafeTernaryCompare a b = TernaryCompare (double_rank a) (double_rank b) ∧ isnan a || isnan b = false.
Proof.
  unfold NaNSafeTernaryCompare, double_lt, TernaryCompare_bool. destruct (isnan a), (isnan b); simpl; auto.
  right. split; [|done]. destruct (TernaryCompare_cases (double_rank a) (double_rank b)) as [[? ->]|[[? ->]|[? ->]]];
    destruct (Z.ltb_spec (double_rank a) (double_rank b)), (Z.ltb_spec (double_rank b) (double_rank a)); lia.
Qed.

#[export] Instance NaNSafeTernaryCompare_total : TotalCompare NaNSafeTernaryCompare.
Proof.
  split.
  - intros a b. destruct (NaNSafeTernaryCompare_spec a b) as [[-> H1]|[-> H1]], (NaNSafeTernaryCompare_spec b a) as [[-> H2]|[-> H2]].
    2,3: by rewrite orb_comm, H1 in H2. all: apply cmp_antisym.
  - intros a b c. destruct (NaNSafeTernaryCompare_spec a b) as [[-> H1]|[-> H1]], (NaNSafeTernaryCompare_spec b c) as [[-> H2]|[-> H2]],
      (NaNSafeTernaryCompare_spec a c) as [[-> H3]|[-> H3]]; try apply cmp_trans;
      destruct (isnan a), (isnan b), (isnan c); try done; unfold TernaryCompare_bool; simpl; try lia; try done.
Qed.

Lemma TernaryCompare_range a b : -1 <= TernaryCompare a b <= 1.
Proof. destruct (TernaryCompare_cases a b) as [[? ?]|[[? ?]|[? ?]]]; lia. Qed.

Lemma NaNSafeTernaryCompare_range a b : -1 <= NaNSafeTernaryCompare a b <= 1.
Proof. destruct (NaNSafeTernaryCompare_spec a b) as [[-> _]|[-> _]]; apply TernaryCompare_range. Qed.
