(* ===== verification/CompositeCompare.v ===== *)
(** Comparing, truncating and hashing YSON values
    ([yt/yt/client/table_client/composite_compare.cpp]).

    [CompareYsonValues] walks two pull parsers in step and stops at the first pair of items
    that differ. The specification is a comparison of trees ([compare_composite]): scalars
    by kind and value, lists lexicographically; it is a total preorder, and the loop
    computes it. [TruncateYsonValue] cuts a value to a size; [CompositeFarmHash] folds a
    fingerprint over the items. *)

From S2P Require Import Prelude Coding IntCast YsonStream YsonLexer YsonEvents YsonParser YsonGrammar YsonWriter SyntaxChecker PullParser Compare.

(** ** The order of items *)

(** The value of the enumerator. *)
Definition item_type_index (type : EYsonItemType) : Z :=
  match type with
  | EndOfStream => 0 | BeginMap => 1 | EndMap => 2 | BeginAttributes => 3 | EndAttributes => 4
  | BeginList => 5 | EndList => 6 | EntityValue => 7 | BooleanValue => 8 | Int64Value => 9
  | Uint64Value => 10 | DoubleValue => 11 | StringValue => 12
  end.

Inductive ECompareClass := Incomparable | ClassEndList | ClassEntity | BeginValue.
#[export] Instance ECompareClass_eq_dec : EqDecision ECompareClass.
Proof. solve_decision. Defined.

Definition compare_class_index (c : ECompareClass) : Z :=
  match c with Incomparable => 0 | ClassEndList => 1 | ClassEntity => 2 | BeginValue => 3 end.

Definition compare_class_of (z : Z) : ECompareClass :=
  if z =? 0 then Incomparable else if z =? 1 then ClassEndList else if z =? 2 then ClassEntity else BeginValue.

Definition SetMask (type : EYsonItemType) (compareClass : ECompareClass) : Z :=
  wrap_u 32 (Z.shiftl (compare_class_index compareClass) (item_type_index type * 2)).

Definition compareClassMask : Z :=
  Z.lor (SetMask EndList ClassEndList)
  (Z.lor (SetMask EntityValue ClassEntity)
  (Z.lor (SetMask BeginList BeginValue)
  (Z.lor (SetMask Int64Value BeginValue)
  (Z.lor (SetMask Uint64Value BeginValue)
  (Z.lor (SetMask DoubleValue BeginValue)
  (Z.lor (SetMask BooleanValue BeginValue) (SetMask StringValue BeginValue))))))).

Definition GetCompareClass (type : EYsonItemType) : ECompareClass :=
  compare_class_of (Z.land 3 (Z.shiftr compareClassMask (item_type_index type * 2))).

(** The types of the values of rows ([row_base.h]), with their order. *)
Inductive EValueType : Set :=
| TypeMin | TheBottom | TypeNull | TypeInt64 | TypeUint64 | TypeDouble | TypeBoolean
| TypeString | TypeAny | TypeComposite | TypeMax.
#[export] Instance EValueType_eq_dec : EqDecision EValueType.
Proof. solve_decision. Defined.

Definition value_type_index (type : EValueType) : Z :=
  match type with
  | TypeMin => 0x00 | TheBottom => 0x01 | TypeNull => 0x02 | TypeInt64 => 0x03 | TypeUint64 => 0x04
  | TypeDouble => 0x05 | TypeBoolean => 0x06 | TypeString => 0x10 | TypeAny => 0x11 | TypeComposite => 0x12
  | TypeMax => 0xef
  end.

Definition MapItemTypeToValueType (itemType : EYsonItemType) : Result EValueType :=
  let valueType :=
    match itemType with
    | BeginList => TypeAny
    | BooleanValue => TypeBoolean
    | Int64Value => TypeInt64
    | Uint64Value => TypeUint64
    | DoubleValue => TypeDouble
    | StringValue => TypeString
    | _ => TypeMin
    end in
  if bool_decide (valueType = TypeMin) then Throw EIncomparable else Ok valueType.

Definition CompareYsonItems (lhs rhs : TYsonItem) : Result Z :=
  if bool_decide (GetType lhs = GetType rhs) then
    match lhs, rhs with
    | Simple EndOfStream, _ | Simple BeginList, _ | Simple EndList, _ | Simple EntityValue, _ => Ok 0
    | ItemInt64 l, ItemInt64 r => Ok (TernaryCompare l r)
    | ItemUint64 l, ItemUint64 r => Ok (TernaryCompare l r)
    | ItemDouble l, ItemDouble r => Ok (NaNSafeTernaryCompare l r)
    | ItemBoolean l, ItemBoolean r => Ok (TernaryCompare_bool l r)
    | ItemString l, ItemString r => Ok (TernaryCompare_string l r)
    | Simple BeginMap, _ | Simple EndMap, _ | Simple BeginAttributes, _ | Simple EndAttributes, _ => Throw EIncomparable
    | _, _ => Crash
    end
  else
    let lhsClass := GetCompareClass (GetType lhs) in
    let rhsClass := GetCompareClass (GetType rhs) in
    if bool_decide (lhsClass = Incomparable) then Throw EIncomparable
    else if bool_decide (rhsClass = Incomparable) then Throw EIncomparable
    else if bool_decide (lhsClass = BeginValue) && bool_decide (rhsClass = BeginValue) then
      l ← MapItemTypeToValueType (GetType lhs);
      r ← MapItemTypeToValueType (GetType rhs);
      Ok (TernaryCompare (value_type_index l) (value_type_index r))
    else Ok (TernaryCompare (compare_class_index lhsClass) (compare_class_index rhsClass)).

Section Composite.
Context (FromString_double : list byte → Result Z).

#[local] Abbreviation Next := (Next FromString_double).

(** [YT_ASSERT] is modelled as [YT_VERIFY]: it never fires. *)
Fixpoint compare_loop (fuel : nat) (lhsParser rhsParser : TYsonPullParser) : Result Z :=
  match fuel with
  | O => OutOfFuel
  | S fuel =>
      '(lhsParser, lhsItem) ← Next lhsParser;
      '(rhsParser, rhsItem) ← Next rhsParser;
      res ← CompareYsonItems lhsItem rhsItem;
      if negb (res =? 0) then Ok res
      else if bool_decide (GetType lhsItem = EndOfStream) then Ok 0
      else
        Verify (negb (bool_decide (GetType lhsItem = EndOfStream)) && negb (bool_decide (GetType rhsItem = EndOfStream)));;
        compare_loop fuel lhsParser rhsParser
  end.

Definition NodeParser (yson : list byte) : TYsonPullParser :=
  NewPullParser (TZeroCopyInputStreamReader [yson]) YsonNode DefaultYsonParserNestingLevelLimit.

Definition CompareYsonValues (lhs rhs : list byte) : Result Z :=
  compare_loop (S (pull_fuel (NodeParser lhs))) (NodeParser lhs) (NodeParser rhs).

(** ** Fingerprints *)

Section FarmHash.

(** The [FarmFingerprint] functions of the hash library. *)
Context (FarmFingerprint : Z → Z) (FarmFingerprint2 : Z → Z → Z) (FarmFingerprintBytes : list byte → Z).

Definition first_fingerprint (item : TYsonItem) : Result Z :=
  match item with
  | Simple BeginList => Ok (FarmFingerprint 0x5B)
  | Simple EndList => Ok (FarmFingerprint 0x5D)
  | Simple EntityValue => Ok (FarmFingerprint 0)
  | ItemInt64 value => Ok (FarmFingerprint (wrap_u 64 value))
  | ItemUint64 value => Ok (FarmFingerprint value)
  | ItemDouble bits => Ok (FarmFingerprint bits)
  | ItemBoolean value => Ok (FarmFingerprint (Z.b2z value))
  | ItemString value => Ok (FarmFingerprint (FarmFingerprintBytes value))
  | Simple EndOfStream => Crash
  | _ => Throw EIncomparable
  end.

(** [None] is the end of the stream. *)
Definition next_fingerprint (result : Z) (item : TYsonItem) : Result (option Z) :=
  match item with
  | Simple BeginList => Ok (Some (FarmFingerprint2 result 0x5B))
  | Simple EndList => Ok (Some (FarmFingerprint2 result 0x5D))
  | Simple EntityValue => Ok (Some (FarmFingerprint2 result 0))
  | ItemInt64 value => Ok (Some (FarmFingerprint2 (wrap_u 64 value) result))
  | ItemUint64 value => Ok (Some (FarmFingerprint2 result value))
  | ItemDouble bits => Ok (Some (FarmFingerprint bits))
  | ItemBoolean value => Ok (Some (FarmFingerprint2 result (Z.b2z value)))
  | ItemString value => Ok (Some (FarmFingerprint2 result (FarmFingerprintBytes value)))
  | Simple EndOfStream => Ok None
  | _ => Throw EIncomparable
  end.

Fixpoint hash_loop (fuel : nat) (parser : TYsonPullParser) (result : Z) : Result Z :=
  match fuel with
  | O => OutOfFuel
  | S fuel =>
      '(parser, item) ← Next parser;
      next ← next_fingerprint result item;
      match next with None => Ok result | Some result => hash_loop fuel parser result end
  end.

Definition CompositeFarmHash (value : list byte) : Result Z :=
  '(parser, item) ← Next (NodeParser value);
  result ← first_fingerprint item;
  hash_loop (pull_fuel parser) parser result.
End FarmHash.

(** ** Truncation *)

(** [TYsonItem::GetBinarySize]. *)
Definition GetBinarySize (item : TYsonItem) : Z :=
  match item with
  | Simple EndOfStream => 0
  | Simple _ | ItemBoolean _ => 1
  | ItemInt64 value => 1 + Z.of_nat (length (Varint.WriteVarInt64 value))
  | ItemUint64 value => 1 + Z.of_nat (length (Varint.WriteVarUint64 value))
  | ItemDouble _ => 1 + 8
  | ItemString value => 1 + Z.of_nat (length (Varint.WriteVarInt32 (wrap_s 32 (Z.of_nat (length value))))) + Z.of_nat (length value)
  end.

Definition GetMinResultingSize (item : TYsonItem) (isInsideList : bool) : Result Z :=
  if bool_decide (GetType item = EndList) then Ok 0
  else
    let resultingSize := GetBinarySize item in
    resultingSize ←
      match item with
      | ItemString value =>
          let resultingSize := resultingSize - Z.of_nat (length value) in
          Verify (resultingSize >=? 0);; Ok resultingSize
      | _ => Ok resultingSize
      end;
    let resultingSize :=
      if bool_decide (GetType item = BeginList) then resultingSize + GetBinarySize (Simple EndList) else resultingSize in
    Ok (if isInsideList then resultingSize + 1 else resultingSize).

(** The item that is written; [None] ends the loop ([isEof]). *)
Definition truncated_item (item : TYsonItem) (room : Z) : option TYsonItem :=
  match item with
  | ItemString value => Some (ItemString (take (Z.to_nat room) value))
  | Simple (BeginAttributes | EndAttributes | BeginMap | EndMap | EndOfStream) => None
  | item => Some item
  end.

Record TTruncation := { Truncated : list byte; UnclosedListCount : Z; EmptyResult : bool }.

(** One turn of the loop, behind [Next]; [None] leaves the loop. *)
Definition truncate_step (item : TYsonItem) (remainingBytes : Z) (t : TTruncation) : Result (option (Z * TTruncation)) :=
  let isInsideList := UnclosedListCount t >? 0 in
  resultingItemSize ← GetMinResultingSize item isInsideList;
  if resultingItemSize >? remainingBytes then Ok None
  else
    match truncated_item item (remainingBytes - resultingItemSize) with
    | None => Ok None
    | Some written =>
        let unclosedListCount :=
          match item with
          | Simple BeginList => UnclosedListCount t + 1
          | Simple EndList => UnclosedListCount t - 1
          | _ => UnclosedListCount t
          end in
        let resultingItemSize :=
          match written with
          | ItemString value => resultingItemSize + Z.of_nat (length value)
          | _ => resultingItemSize
          end in
        let out := WriteItem written (Truncated t) in
        let out :=
          if negb (unclosedListCount =? 0) && negb (bool_decide (GetType item = BeginList))
          then WriteSymbol ItemSeparatorSymbol out else out in
        Ok (Some (remainingBytes - resultingItemSize,
          {| Truncated := out; UnclosedListCount := unclosedListCount; EmptyResult := false |}))
    end.

Fixpoint truncate_loop (fuel : nat) (valueParser : TYsonPullParser) (remainingBytes : Z) (t : TTruncation) : Result TTruncation :=
  match fuel with
  | O => OutOfFuel
  | S fuel =>
      '(valueParser, item) ← Next valueParser;
      next ← truncate_step item remainingBytes t;
      match next with
      | None => Ok t
      | Some (remainingBytes, t) => truncate_loop fuel valueParser remainingBytes t
      end
  end.

(** [while (unclosedListCount) { ... }]. *)
Fixpoint close_lists (unclosedListCount : nat) (out : list byte) : list byte :=
  match unclosedListCount with
  | O => out
  | S n =>
      let out := WriteSymbol EndListSymbol out in
      close_lists n (match n with O => out | _ => WriteSymbol ItemSeparatorSymbol out end)
  end.

(** The token writer is that of release builds: the checks that [TCheckedInDebugYsonTokenWriter] adds in debug builds
    are left out here. *)
Definition TruncateYsonValue (originalYson : list byte) (size : Z) : Result (option (list byte)) :=
  Verify (size >=? 0);;
  if size =? 0 then Ok None
  else
    let parser := NodeParser originalYson in
    t ← truncate_loop (S (pull_fuel parser)) parser size {| Truncated := []; UnclosedListCount := 0; EmptyResult := true |};
    Verify (UnclosedListCount t >=? 0);;
    let out := close_lists (Z.to_nat (UnclosedListCount t)) (Truncated t) in
    if EmptyResult t then Ok None else Ok (Some out).
End Composite.

(** ** The loop on arbitrary input *)

(** Items of different types are compared by their types alone. *)
Definition compare_types (lhs rhs : EYsonItemType) : Result Z :=
  if bool_decide (lhs = rhs) then Ok 0 else CompareYsonItems (Simple lhs) (Simple rhs).

Lemma compare_types_facts lhs rhs :
  compare_types rhs lhs ≈ Z.opp <$> compare_types lhs rhs ∧
  match compare_types lhs rhs with
  | Ok z => -1 <= z <= 1 ∧ (z = 0 → lhs = rhs)
  | Throw _ => True
  | _ => False
  end.
Proof. destruct lhs, rhs; vm_compute; (split; [constructor|]); done. Qed.

(** Items of the same type, by their values. *)
Definition compare_data (lhs rhs : TYsonItem) : Result Z :=
  match lhs, rhs with
  | Simple EndOfStream, _ | Simple BeginList, _ | Simple EndList, _ | Simple EntityValue, _ => Ok 0
  | ItemInt64 l, ItemInt64 r => Ok (TernaryCompare l r)
  | ItemUint64 l, ItemUint64 r => Ok (TernaryCompare l r)
  | ItemDouble l, ItemDouble r => Ok (NaNSafeTernaryCompare l r)
  | ItemBoolean l, ItemBoolean r => Ok (TernaryCompare_bool l r)
  | ItemString l, ItemString r => Ok (TernaryCompare_string l r)
  | Simple BeginMap, _ | Simple EndMap, _ | Simple BeginAttributes, _ | Simple EndAttributes, _ => Throw EIncomparable
  | _, _ => Crash
  end.

Lemma CompareYsonItems_cases lhs rhs :
  CompareYsonItems lhs rhs =
    if bool_decide (GetType lhs = GetType rhs) then compare_data lhs rhs else compare_types (GetType lhs) (GetType rhs).
Proof.
  unfold CompareYsonItems, compare_types. destruct (bool_decide (GetType lhs = GetType rhs)) eqn:E; [done|].
  unfold CompareYsonItems. simpl GetType. by rewrite E.
Qed.

Lemma GetSign_range z : -1 <= GetSign z <= 1.
Proof. destruct (GetSign_spec z) as [[? ->]|[[? ->]|[? ->]]]; lia. Qed.

Lemma compare_data_facts lhs rhs : GetType lhs = GetType rhs →
  compare_data rhs lhs ≈ Z.opp <$> compare_data lhs rhs ∧ match compare_data lhs rhs with Ok z => -1 <= z <= 1 | _ => True end.
Proof.
  intros Ht. destruct lhs as [[]| | | | |], rhs as [[]| | | | |]; try discriminate Ht; simpl; (split; [|try lia; done||idtac]).
  all: try constructor. all: try (rewrite cmp_antisym; constructor).
  all: first [apply TernaryCompare_range|apply NaNSafeTernaryCompare_range|apply GetSign_range].
Qed.

Lemma CompareYsonItems_sym lhs rhs : CompareYsonItems rhs lhs ≈ Z.opp <$> CompareYsonItems lhs rhs.
Proof.
  rewrite !CompareYsonItems_cases. destruct (decide (GetType lhs = GetType rhs)) as [E|E].
  - rewrite !bool_decide_eq_true_2 by done. by apply compare_data_facts.
  - rewrite !bool_decide_eq_false_2 by congruence. apply compare_types_facts.
Qed.

Lemma CompareYsonItems_range lhs rhs z : CompareYsonItems lhs rhs = Ok z → -1 <= z <= 1.
Proof.
  rewrite CompareYsonItems_cases. destruct (decide (GetType lhs = GetType rhs)) as [E|E].
  - rewrite bool_decide_eq_true_2 by done. destruct (compare_data_facts _ _ E) as [_ H]. intros Hz. by rewrite Hz in H.
  - rewrite bool_decide_eq_false_2 by done. destruct (compare_types_facts (GetType lhs) (GetType rhs)) as [_ H].
    intros Hz. rewrite Hz in H. apply H.
Qed.

Lemma CompareYsonItems_zero lhs rhs : CompareYsonItems lhs rhs = Ok 0 → GetType lhs = GetType rhs.
Proof.
  rewrite CompareYsonItems_cases. destruct (decide (GetType lhs = GetType rhs)) as [E|E]; [done|].
  rewrite bool_decide_eq_false_2 by done. destruct (compare_types_facts (GetType lhs) (GetType rhs)) as [_ H].
  intros Hz. rewrite Hz in H. by apply H.
Qed.

Section Loop.
Context (fd : list byte → Result Z) (Hfd : total_conversion fd).
Context (L : nat) (HL : Z.of_nat L < 2 ^ 32).

#[local] Abbreviation size p := (stream_size (Stream (PLexer p))).

(** What [Next] gives: an item the checker knows, and progress unless the stream ended. *)
Definition next_step (p : TYsonPullParser) (r : Result (TYsonPullParser * TYsonItem)) : Prop :=
  match r with
  | Ok (p', item) => pull_inv L p' ∧ (item = Simple EndOfStream ∨ proper_token (Item item)) ∧
      (item ≠ Simple EndOfStream → (size p' < size p)%nat) ∧ (size p' <= size p)%nat
  | Throw _ => True
  | _ => False
  end.

Lemma Next_step p : pull_inv L p → next_step p (Next fd p).
Proof.
  intros Hp. pose proof (Next_ok fd Hfd L HL p Hp) as H. destruct (Next fd p) as [[p' item]| | |]; try done.
  split_and!; [apply H|by eapply next_ok_proper|..].
  - intros Hne. destruct H as (_ & tokens & _ & _ & H). rewrite bool_decide_eq_false_2 in H by done. apply H.
  - destruct H as (_ & tokens & _ & _ & H). destruct (bool_decide _); lia.
Qed.

Lemma CompareYsonItems_total lhs rhs :
  (lhs = Simple EndOfStream ∨ proper_token (Item lhs)) → (rhs = Simple EndOfStream ∨ proper_token (Item rhs)) →
  match CompareYsonItems lhs rhs with Ok _ | Throw _ => True | _ => False end.
Proof.
  intros Hl Hr. rewrite CompareYsonItems_cases. destruct (decide (GetType lhs = GetType rhs)) as [E|E].
  - rewrite bool_decide_eq_true_2 by done.
    destruct lhs as [[]| | | | |], rhs as [[]| | | | |]; try done; by destruct Hl, Hr.
  - rewrite bool_decide_eq_false_2 by done. destruct (compare_types_facts (GetType lhs) (GetType rhs)) as [_ H].
    by destruct (compare_types _ _).
Qed.

Lemma end_type item : (item = Simple EndOfStream ∨ proper_token (Item item)) →
  bool_decide (GetType item = EndOfStream) = bool_decide (item = Simple EndOfStream).
Proof. intros H. destruct item as [[]| | | | |]; try done. Qed.

Lemma compare_loop_total fuel lp rp : pull_inv L lp → pull_inv L rp → (size lp < fuel)%nat →
  match compare_loop fd fuel lp rp with Ok z => -1 <= z <= 1 | Throw _ => True | _ => False end.
Proof.
  revert lp rp. induction fuel as [|fuel IH]; intros lp rp Hl Hr Hf; [lia|]. cbn [compare_loop].
  pose proof (Next_step lp Hl) as H1. destruct (Next fd lp) as [[lp1 li]| | |]; try done. run_bind.
  pose proof (Next_step rp Hr) as H2. destruct (Next fd rp) as [[rp1 ri]| | |]; try done. run_bind.
  destruct H1 as (Hl1 & Hli & Hs1 & _), H2 as (Hr1 & Hri & Hs2 & _).
  pose proof (CompareYsonItems_total li ri Hli Hri) as Ht. destruct (CompareYsonItems li ri) as [z| | |] eqn:E; try done.
  run_bind. destruct (Z.eqb_spec z 0) as [->|Hz]; simpl; [|by eapply CompareYsonItems_range].
  apply CompareYsonItems_zero in E. rewrite <- E, end_type by done.
  destruct (decide (li = Simple EndOfStream)) as [->|Hne]; [by rewrite bool_decide_eq_true_2|].
  rewrite bool_decide_eq_false_2 by done. simpl. apply IH; [done|done|]. specialize (Hs1 Hne). lia.
Qed.

Lemma compare_loop_fuel fuel fuel' lp rp z : compare_loop fd fuel lp rp = z → z ≠ OutOfFuel → (fuel <= fuel')%nat →
  compare_loop fd fuel' lp rp = z.
Proof.
  revert fuel' lp rp. induction fuel as [|fuel IH]; intros [|fuel'] lp rp <- Hz Hf; try done; try lia. cbn [compare_loop] in *.
  destruct (Next fd lp) as [[lp1 li]| | |]; try done. cbn [mbind result_bind] in *.
  destruct (Next fd rp) as [[rp1 ri]| | |]; try done. cbn [mbind result_bind] in *.
  destruct (CompareYsonItems li ri) as [z| | |]; try done. cbn [mbind result_bind] in *.
  destruct (negb (z =? 0)); [done|]. destruct (bool_decide _); [done|]. destruct (Verify _); try done. cbn [mbind result_bind] in *.
  apply IH; [done|done|lia].
Qed.

Lemma compare_loop_sym fuel lp rp : pull_inv L lp → pull_inv L rp →
  compare_loop fd fuel rp lp ≈ Z.opp <$> compare_loop fd fuel lp rp.
Proof.
  revert lp rp. induction fuel as [|fuel IH]; intros lp rp Hl Hr; [constructor|]. cbn [compare_loop].
  pose proof (Next_step lp Hl) as H1. pose proof (Next_step rp Hr) as H2.
  destruct (Next fd lp) as [[lp1 li]| | |], (Next fd rp) as [[rp1 ri]| | |]; try done; cbn [mbind result_bind fmap result_fmap]; auto.
  destruct H1 as (Hl1 & Hli & _), H2 as (Hr1 & Hri & _).
  pose proof (CompareYsonItems_sym li ri) as Hs. destruct (CompareYsonItems li ri) as [z| | |] eqn:E, (CompareYsonItems ri li) as [z'| | |];
    inversion Hs; subst; cbn [mbind result_bind fmap result_fmap]; auto.
  destruct (Z.eqb_spec z 0) as [->|Hz]; cbn [negb fmap result_fmap].
  - change (- 0 =? 0) with true. cbn [negb]. pose proof (CompareYsonItems_zero _ _ E) as Ht. rewrite <- Ht.
    destruct (bool_decide (GetType li = EndOfStream)); cbn [mbind result_bind Verify negb andb fmap result_fmap]; [constructor|]. by apply IH.
  - rewrite (proj2 (Z.eqb_neq (- z) 0)) by lia. constructor.
Qed.
End Loop.

(** ** Values as trees *)

#[local] Set Warnings "-register-all".

(** The values that can be compared: no maps and no attributes. *)
Inductive TComposite :=
| CEntity
| CInt64 (value : Z)
| CUint64 (value : Z)
| CDouble (bits : Z)
| CBoolean (value : bool)
| CString (value : list byte)
| CList (items : list TComposite).

Lemma composite_ind (P : TComposite → Prop) :
  P CEntity → (∀ z, P (CInt64 z)) → (∀ z, P (CUint64 z)) → (∀ z, P (CDouble z)) → (∀ b, P (CBoolean b)) →
  (∀ s, P (CString s)) → (∀ items, Forall P items → P (CList items)) → ∀ v, P v.
Proof.
  intros HE HI HU HD HB HS HL. fix IH 1. intros [| | | | | |items]; [done|done|done|done|done|done|].
  apply HL. induction items as [|v items IHi]; constructor; [apply IH|apply IHi].
Qed.

Fixpoint composite_node (v : TComposite) : TNode :=
  Node None
    match v with
    | CEntity => VEntity
    | CInt64 z => VInt64 z
    | CUint64 z => VUint64 z
    | CDouble z => VDouble z
    | CBoolean b => VBoolean b
    | CString s => VString s
    | CList items => VList (map composite_node items)
    end.

Fixpoint composite_items (v : TComposite) : list TYsonItem :=
  match v with
  | CEntity => [Simple EntityValue]
  | CInt64 z => [ItemInt64 z]
  | CUint64 z => [ItemUint64 z]
  | CDouble z => [ItemDouble z]
  | CBoolean b => [ItemBoolean b]
  | CString s => [ItemString s]
  | CList items => Simple BeginList :: flat_map composite_items items ++ [Simple EndList]
  end.

Lemma event_items_composite v : event_items (node_events (composite_node v)) = composite_items v.
Proof.
  induction v as [| | | | | |items IH] using composite_ind; try done.
  change (node_events (composite_node (CList items))) with (OnBeginList :: list_events (map composite_node items) ++ [OnEndList]).
  cbn [composite_items]. change (OnBeginList :: ?l) with ([OnBeginList] ++ l). rewrite !event_items_app.
  change (event_items [OnBeginList]) with [Simple BeginList]. change (event_items [OnEndList]) with [Simple EndList].
  simpl. do 2 f_equal. induction IH as [|v items Hv _ IH]; [done|]. cbn [map list_events flat_map].
  change (OnListItem :: ?l) with ([OnListItem] ++ l). rewrite !event_items_app, Hv, IH. done.
Qed.

(** Kinds of values in their order. *)
Definition composite_rank (v : TComposite) : Z :=
  match v with
  | CEntity => value_type_index TypeNull
  | CInt64 _ => value_type_index TypeInt64
  | CUint64 _ => value_type_index TypeUint64
  | CDouble _ => value_type_index TypeDouble
  | CBoolean _ => value_type_index TypeBoolean
  | CString _ => value_type_index TypeString
  | CList _ => value_type_index TypeAny
  end.

Section Lexicographic.
Context {A : Type} (cmp : A → A → Z).

(** Lexicographic order: a proper prefix comes first. *)
Fixpoint lex_compare (l1 l2 : list A) : Z :=
  match l1, l2 with
  | [], [] => 0
  | [], _ => -1
  | _, [] => 1
  | a :: l1, b :: l2 => if cmp a b =? 0 then lex_compare l1 l2 else cmp a b
  end.
End Lexicographic.

(** The specification: lists are compared lexicographically, scalars of one kind by value,
    values of different kinds by kind. *)
Fixpoint compare_composite (v1 v2 : TComposite) : Z :=
  match v1, v2 with
  | CEntity, CEntity => 0
  | CInt64 a, CInt64 b => TernaryCompare a b
  | CUint64 a, CUint64 b => TernaryCompare a b
  | CDouble a, CDouble b => NaNSafeTernaryCompare a b
  | CBoolean a, CBoolean b => TernaryCompare_bool a b
  | CString a, CString b => TernaryCompare_string a b
  | CList l1, CList l2 => lex_compare compare_composite l1 l2
  | _, _ => TernaryCompare (composite_rank v1) (composite_rank v2)
  end.

(** The order laws, one pair of values at a time so that they go through the recursion. *)
Lemma lex_antisym {A} (cmp : A → A → Z) l1 l2 : Forall (λ a, ∀ b, cmp b a = - cmp a b) l1 →
  lex_compare cmp l2 l1 = - lex_compare cmp l1 l2.
Proof.
  intros H. revert l2. induction H as [|a l1 Ha _ IH]; intros [|b l2]; simpl; try done. rewrite Ha.
  destruct (Z.eqb_spec (cmp a b) 0) as [->|Hne]; [apply IH|]. by rewrite (proj2 (Z.eqb_neq (- cmp a b) 0)) by lia.
Qed.

Lemma compare_composite_antisym v1 v2 : compare_composite v2 v1 = - compare_composite v1 v2.
Proof.
  revert v2. induction v1 as [| | | | | |items IH] using composite_ind; intros []; simpl; try done.
  all: try apply cmp_antisym. by apply lex_antisym.
Qed.

(** The transitivity statements about three values, in all orders, given their comparisons. *)
Definition coherent (ab bc ac : Z) : Prop :=
  (ab <= 0 → bc <= 0 → ac <= 0) ∧ (ac <= 0 → bc >= 0 → ab <= 0) ∧ (ab >= 0 → ac <= 0 → bc <= 0) ∧
  (bc <= 0 → ac >= 0 → ab >= 0) ∧ (ac >= 0 → ab <= 0 → bc >= 0) ∧ (bc >= 0 → ab >= 0 → ac >= 0).

Lemma total_coherent {A} (cmp : A → A → Z) `{!TotalCompare cmp} a b c : coherent (cmp a b) (cmp b c) (cmp a c).
Proof.
  pose proof (cmp_antisym (cmp := cmp) a b). pose proof (cmp_antisym (cmp := cmp) b c). pose proof (cmp_antisym (cmp := cmp) a c).
  pose proof (cmp_trans (cmp := cmp) a b c). pose proof (cmp_trans (cmp := cmp) a c b). pose proof (cmp_trans (cmp := cmp) b a c).
  pose proof (cmp_trans (cmp := cmp) b c a). pose proof (cmp_trans (cmp := cmp) c a b). pose proof (cmp_trans (cmp := cmp) c b a).
  unfold coherent. lia.
Qed.

Lemma lex_coherent {A} (cmp : A → A → Z) l1 l2 l3 :
  Forall (λ a, ∀ b c, coherent (cmp a b) (cmp b c) (cmp a c)) l1 → (∀ b c, cmp c b = - cmp b c) →
  coherent (lex_compare cmp l1 l2) (lex_compare cmp l2 l3) (lex_compare cmp l1 l3).
Proof.
  intros H1 Hs. revert l2 l3. induction H1 as [|a l1 Ha _ IH]; intros [|b l2] [|c l3]; simpl; try (unfold coherent; lia).
  specialize (Ha b c). specialize (IH l2 l3). unfold coherent in *.
  destruct (Z.eqb_spec (cmp a b) 0), (Z.eqb_spec (cmp b c) 0), (Z.eqb_spec (cmp a c) 0); lia.
Qed.

#[export] Instance compare_composite_total : TotalCompare compare_composite.
Proof.
  assert (∀ v1 v2 v3, coherent (compare_composite v1 v2) (compare_composite v2 v3) (compare_composite v1 v3)) as H.
  { intros v1. induction v1 as [| | | | | |items IH] using composite_ind; intros [| | | | | |items2] [| | | | | |items3];
      cbn [compare_composite composite_rank value_type_index]; try apply (total_coherent _);
      try (by apply lex_coherent, compare_composite_antisym).
    all: cbv [TernaryCompare Z.eqb Z.ltb Z.compare Pos.compare Pos.compare_cont Pos.eqb]; unfold coherent; lia. }
  split; [apply compare_composite_antisym|]. intros a b c. apply H.
Qed.

(** ** The loop computes the specification *)

(** The comparison on the items that two parsers will return. *)
Fixpoint compare_items (lhs rhs : list TYsonItem) : Result Z :=
  let rhsItem := hd (Simple EndOfStream) rhs in
  match lhs with
  | [] => CompareYsonItems (Simple EndOfStream) rhsItem
  | lhsItem :: lhs =>
      res ← CompareYsonItems lhsItem rhsItem;
      if negb (res =? 0) then Ok res else compare_items lhs (tail rhs)
  end.

Lemma read_loop_next fd fuel p items : read_loop fd fuel p = Ok items →
  ∃ p', Next fd p = Ok (p', hd (Simple EndOfStream) items) ∧
    (items = [] ∨ hd (Simple EndOfStream) items ≠ Simple EndOfStream ∧ ∃ fuel', read_loop fd fuel' p' = Ok (tail items)).
Proof.
  destruct fuel as [|fuel]; [done|]. cbn [read_loop]. intros ([p' item] & E & H)%bind_ok. exists p'.
  destruct (decide (item = Simple EndOfStream)) as [->|Hne].
  - rewrite bool_decide_eq_true_2 in H by done. simplify_eq. split; [done|by left].
  - rewrite bool_decide_eq_false_2 in H by done. apply bind_ok in H as (items' & H & [= <-]).
    split; [done|]. right. split; [done|]. by exists fuel.
Qed.

Lemma CompareYsonItems_end item : item ≠ Simple EndOfStream → CompareYsonItems item (Simple EndOfStream) ≠ Ok 0.
Proof. intros Hne H. apply CompareYsonItems_zero in H. by destruct item as [[]| | | | |]. Qed.

Lemma compare_loop_items fd fuel fuel1 fuel2 lp rp lhs rhs : read_loop fd fuel1 lp = Ok lhs → read_loop fd fuel2 rp = Ok rhs →
  (length lhs < fuel)%nat → compare_loop fd fuel lp rp = compare_items lhs rhs.
Proof.
  revert fuel1 fuel2 lp rp lhs rhs. induction fuel as [|fuel IH]; intros fuel1 fuel2 lp rp lhs rhs Hl Hr Hf; [lia|].
  destruct (read_loop_next _ _ _ _ Hl) as (lp1 & El & Hl1), (read_loop_next _ _ _ _ Hr) as (rp1 & Er & Hr1).
  cbn [compare_loop]. rewrite El, Er. run_bind.
  destruct Hl1 as [->|(Hne & fuel1' & Hl1)].
  - cbn [hd compare_items]. destruct (CompareYsonItems (Simple EndOfStream) _) as [z| | |]; try done. run_bind.
    destruct (Z.eqb_spec z 0) as [->|?]; done.
  - destruct lhs as [|li lhs]; [done|]. cbn [hd tail compare_items] in *.
    destruct (CompareYsonItems li _) as [z| | |] eqn:E; try done. run_bind.
    destruct (Z.eqb_spec z 0) as [->|?]; [|done]. cbn [negb].
    destruct Hr1 as [->|(Hne2 & fuel2' & Hr1)]; [by apply CompareYsonItems_end in E|].
    rewrite (CompareYsonItems_zero _ _ E) in *. assert (GetType (hd (Simple EndOfStream) rhs) ≠ EndOfStream) as Ht.
    { apply CompareYsonItems_zero in E. intros Ht. rewrite Ht in E. by destruct li as [[]| | | | |]. }
    rewrite bool_decide_eq_false_2 by done. cbn [negb andb Verify mbind result_bind]. eapply IH; [done|done|simpl in Hf; lia].
Qed.

(** Values in front of further items decide, unless they are equal. *)
Definition decides (v1 v2 : TComposite) : Prop := ∀ r1 r2,
  compare_items (composite_items v1 ++ r1) (composite_items v2 ++ r2) =
    if compare_composite v1 v2 =? 0 then compare_items r1 r2 else Ok (compare_composite v1 v2).

Lemma compare_items_ne li ri lhs rhs z : CompareYsonItems li ri = Ok z → z ≠ 0 → compare_items (li :: lhs) (ri :: rhs) = Ok z.
Proof. intros E Hz. cbn [compare_items hd]. rewrite E. run_bind. by rewrite (proj2 (Z.eqb_neq z 0)). Qed.

Lemma compare_items_lists l1 l2 r1 r2 : Forall (λ v1, ∀ v2, decides v1 v2) l1 →
  compare_items (flat_map composite_items l1 ++ Simple EndList :: r1) (flat_map composite_items l2 ++ Simple EndList :: r2) =
    if lex_compare compare_composite l1 l2 =? 0 then compare_items r1 r2 else Ok (lex_compare compare_composite l1 l2).
Proof.
  assert (∀ v, ∃ item items, composite_items v = item :: items ∧
    CompareYsonItems (Simple EndList) item = Ok (-1) ∧ CompareYsonItems item (Simple EndList) = Ok 1) as Hhead.
  { intros []; eexists _, _; split_and!; reflexivity. }
  intros H. revert l2. induction H as [|v1 l1 Hv _ IH]; intros [|v2 l2]; cbn [flat_map lex_compare app].
  - reflexivity.
  - destruct (Hhead v2) as (item & items & -> & E & _). simpl. by rewrite E.
  - destruct (Hhead v1) as (item & items & -> & _ & E). simpl. by rewrite E.
  - rewrite <- !app_assoc, Hv. destruct (compare_composite v1 v2 =? 0) eqn:E; [apply IH|]. by rewrite E.
Qed.

Lemma compare_items_values v1 v2 : decides v1 v2.
Proof.
  revert v2. induction v1 as [| | | | | |items IH] using composite_ind; intros [| | | | | |items2] r1 r2; try reflexivity.
  1-5: cbn [composite_items app compare_items hd tail compare_composite]; rewrite CompareYsonItems_cases;
    cbn [GetType compare_data]; rewrite bool_decide_eq_true_2 by done; run_bind; by destruct (_ =? 0).
  change (compare_items (composite_items (CList items) ++ r1) (composite_items (CList items2) ++ r2)) with
    (compare_items ((flat_map composite_items items ++ [Simple EndList]) ++ r1) ((flat_map composite_items items2 ++ [Simple EndList]) ++ r2)).
  rewrite <- !app_assoc. by apply compare_items_lists.
Qed.

(** ** Theorems *)

(** [DefaultYsonParserNestingLevelLimit]. *)
Definition nesting_limit : nat := 256.

(** The text of a value that can be compared, as far as the parser's limit lets it be read. *)
Definition comparable_text (fd : list byte → Result Z) (v : TComposite) (yson : list byte) : Prop :=
  ModeText fd DefaultMemoryLimit YsonNode (node_events (composite_node v)) (node_depth (composite_node v)) yson ∧
  (node_depth (composite_node v) < nesting_limit)%nat.

Lemma comparable_reads fd v yson : total_conversion fd → comparable_text fd v yson →
  ReadItems fd (NodeParser yson) = Ok (composite_items v).
Proof.
  intros Hfd [Ht Hd]. rewrite <- event_items_composite. eapply (ReadItems_text fd YsonNode _ _ nesting_limit); [done|exact Ht| |done|done].
  split; [done|]. unfold text_of. simpl. by rewrite !app_nil_r.
Qed.

Lemma read_loop_length fd fuel p items : read_loop fd fuel p = Ok items → (length items < fuel)%nat.
Proof.
  revert p items. induction fuel as [|fuel IH]; intros p items; [done|]. cbn [read_loop].
  intros ([p' item] & _ & H)%bind_ok. destruct (bool_decide _); [simplify_eq; simpl; lia|].
  apply bind_ok in H as (items' & H & [= <-]). apply IH in H. simpl. lia.
Qed.

Lemma CompareYsonValues_composite fd v1 v2 lhs rhs : total_conversion fd → comparable_text fd v1 lhs → comparable_text fd v2 rhs →
  CompareYsonValues fd lhs rhs = Ok (compare_composite v1 v2).
Proof.
  intros Hfd H1 H2. pose proof (comparable_reads fd v1 lhs Hfd H1) as E1. pose proof (comparable_reads fd v2 rhs Hfd H2) as E2.
  unfold CompareYsonValues. rewrite (compare_loop_items fd _ _ _ _ _ _ _ E1 E2).
  - pose proof (compare_items_values v1 v2 [] []) as H. rewrite !app_nil_r in H. rewrite H.
    destruct (Z.eqb_spec (compare_composite v1 v2) 0) as [->|?]; reflexivity.
  - apply read_loop_length in E1. lia.
Qed.

(** ** The binary form *)

(** What a writer of values holds: integers of their widths, strings whose length is an [i32]. *)
Fixpoint representable (v : TComposite) : Prop :=
  match v with
  | CInt64 z => in_s 64 z
  | CUint64 z | CDouble z => in_u 64 z
  | CString s => Z.of_nat (length s) < 2 ^ 31
  | CList items => (fix go items := match items with [] => True | v :: items => representable v ∧ go items end) items
  | CEntity | CBoolean _ => True
  end.

Lemma representable_list items : representable (CList items) ↔ Forall representable items.
Proof.
  simpl. induction items as [|v items IH]; [split; [constructor|done]|]. rewrite IH. split.
  - intros [? ?]. by constructor.
  - intros H. split; [exact (Forall_inv H)|exact (Forall_inv_tail H)].
Qed.

(** A separator behind every item of a list. *)
Fixpoint composite_binary (v : TComposite) : list byte :=
  match v with
  | CEntity => [EntitySymbol]
  | CInt64 z => Int64Marker :: Varint.WriteVarInt64 z
  | CUint64 z => Uint64Marker :: Varint.WriteVarUint64 z
  | CDouble z => DoubleMarker :: le_bytes 8 z
  | CBoolean b => [if b then TrueMarker else FalseMarker]
  | CString s => StringMarker :: Varint.WriteVarInt32 (Z.of_nat (length s)) ++ s
  | CList items => BeginListSymbol :: flat_map (λ v, composite_binary v ++ [ItemSeparatorSymbol]) items ++ [EndListSymbol]
  end.

Lemma composite_binary_text fd v : representable v → NodeText fd DefaultMemoryLimit (composite_node v) (composite_binary v).
Proof.
  induction v as [| | | | | |items IH] using composite_ind; intros Hv.
  1-6: apply PlainNode, ScalarValue; try (by constructor).
  - apply TextString, BinaryStringText. simpl in Hv. split; [|done]. change (wrap_u 64 DefaultMemoryLimit) with (2 ^ 63 - 1). lia.
  - apply PlainNode, ListValue. apply representable_list in Hv. induction IH as [|v items Hn _ IHl]; [by repeat constructor|].
    cbn [map flat_map]. pose proof (Forall_inv Hv). apply Forall_inv_tail in Hv. specialize (IHl Hv).
    rewrite <- app_assoc. apply (ListItem _ _ [] _ _ []); [constructor|by apply Hn|constructor|done].
Qed.

Lemma composite_binary_comparable fd v : representable v →
  (node_depth (composite_node v) < nesting_limit)%nat → comparable_text fd v (composite_binary v).
Proof.
  intros Hv Hd. split; [|done]. rewrite <- (app_nil_r (composite_binary v)).
  apply (NodeMode _ _ [] _ _ []); [constructor|by apply composite_binary_text|constructor].
Qed.

Lemma NodeParser_inv yson : pull_inv nesting_limit (NodeParser yson).
Proof. by apply (NewPullParser_inv _ YsonNode nesting_limit). Qed.

(** C13. [CompareYsonValues] compares the trees: on the texts of two values without maps and
    attributes, in text or binary form, the walk over the two parsers returns the
    comparison of the values as trees: lists lexicographically, scalars of one kind by
    value (with every NaN behind every number), null first, and otherwise by the order of
    the value types; and that comparison is a total preorder. *)
Theorem CompareYsonValues_refines (fd : list byte → Result Z) (Hfd : total_conversion fd) (v1 v2 v3 : TComposite)
    (yson1 yson2 : list byte) (H1 : comparable_text fd v1 yson1) (H2 : comparable_text fd v2 yson2) :
  CompareYsonValues fd yson1 yson2 = Ok (compare_composite v1 v2) ∧
  compare_composite v2 v1 = - compare_composite v1 v2 ∧
  (compare_composite v1 v2 <= 0 → compare_composite v2 v3 <= 0 → compare_composite v1 v3 <= 0).
Proof. split_and!; [by apply CompareYsonValues_composite|apply cmp_antisym|apply cmp_trans]. Qed.

Lemma CompareYsonValues_refines_witness :
  let v1 := CList [CInt64 1; CEntity] in
  let v2 := CList [CInt64 1; CList []] in
  CompareYsonValues (λ _, Ok 0) (composite_binary v1) (composite_binary v2) = Ok (-1) ∧ compare_composite v2 v1 = 1.
Proof.
  intros v1 v2. assert (comparable_text (λ _, Ok 0) v1 (composite_binary v1)) as H1.
  { apply composite_binary_comparable; [|simpl; unfold nesting_limit; lia]. split_and!; [split; vm_compute; discriminate || reflexivity|done|done]. }
  assert (comparable_text (λ _, Ok 0) v2 (composite_binary v2)) as H2.
  { apply composite_binary_comparable; [|simpl; unfold nesting_limit; lia]. split_and!; [split; vm_compute; discriminate || reflexivity|done|done]. }
  destruct (CompareYsonValues_refines (λ _, Ok 0) ltac:(done) v1 v2 v1 _ _ H1 H2) as (E1 & E2 & _).
  split; [exact E1|exact E2].
Defined.

(** [CompareYsonValues] on arbitrary bytes: it returns -1, 0 or 1 or throws, it neither
    aborts nor loops, its assertion never fires, and swapping the arguments negates the
    result and throws exactly when the call throws. *)
Theorem CompareYsonValues_total (fd : list byte → Result Z) (Hfd : total_conversion fd) (lhs rhs : list byte) :
  match CompareYsonValues fd lhs rhs with Ok z => -1 <= z <= 1 | Throw _ => True | _ => False end ∧
  CompareYsonValues fd rhs lhs ≈ Z.opp <$> CompareYsonValues fd lhs rhs.
Proof.
  pose proof (NodeParser_inv lhs) as Hl. pose proof (NodeParser_inv rhs) as Hr. unfold CompareYsonValues.
  pose proof (compare_loop_total fd Hfd nesting_limit ltac:(done) (S (pull_fuel (NodeParser lhs))) _ _ Hl Hr ltac:(unfold pull_fuel; lia)) as H1.
  pose proof (compare_loop_total fd Hfd nesting_limit ltac:(done) (S (pull_fuel (NodeParser rhs))) _ _ Hr Hl ltac:(unfold pull_fuel; lia)) as H2.
  split; [done|]. set (n := Nat.max (S (pull_fuel (NodeParser lhs))) (S (pull_fuel (NodeParser rhs)))).
  assert (∀ p q, match compare_loop fd (S (pull_fuel p)) p q with Ok z => -1 <= z <= 1 | Throw _ => True | _ => False end →
    (S (pull_fuel p) <= n)%nat → compare_loop fd (S (pull_fuel p)) p q = compare_loop fd n p q) as Hn.
  { intros p q H Hle. symmetry. eapply compare_loop_fuel; [exact nesting_limit|done|by destruct (compare_loop fd (S (pull_fuel p)) p q)|done]. }
  rewrite !Hn by (done || lia).
  by apply (compare_loop_sym fd Hfd nesting_limit).
Qed.

Lemma CompareYsonValues_total_witness :
  CompareYsonValues (λ _, Ok 0) (B"[1;{}]") (B"[1;%true]") ≈ Z.opp <$> Throw EIncomparable ∧
  CompareYsonValues (λ _, Ok 0) (B"[2]") (B"[1;%true]") = Ok 1.
Proof.
  destruct (CompareYsonValues_total (λ _, Ok 0) ltac:(done) (B"[1;%true]") (B"[1;{}]")) as [_ H].
  split; [|vm_compute; reflexivity]. etransitivity; [exact H|]. vm_compute. constructor.
Defined.

(** The fingerprint of a composite value forgets everything in front of a double: for
    any fingerprint functions, two lists that end with the same double have the same
    fingerprint, whatever their other items. *)
Theorem CompositeFarmHash_double_forgets (F1 : Z → Z) (F2 : Z → Z → Z) (F3 : list byte → Z) :
  let x := composite_binary (CList [CString (B"a"); CDouble 1]) in
  let y := composite_binary (CList [CString (B"b"); CInt64 7; CDouble 1]) in
  CompositeFarmHash (λ _, Ok 0) F1 F2 F3 x = CompositeFarmHash (λ _, Ok 0) F1 F2 F3 y ∧
  CompositeFarmHash (λ _, Ok 0) F1 F2 F3 x = Ok (F2 (F1 1) 0x5D) ∧
  CompareYsonValues (λ _, Ok 0) x y = Ok (-1).
Proof. vm_compute. done. Qed.
