(* ===== verification/TruncateYson.v ===== *)
(** Truncating a YSON value to a size ([TruncateYsonValue] of
    [yt/yt/client/table_client/composite_compare.cpp], whose model is in
    [CompositeCompare]): the result is again a value, of at most the given size, that does
    not compare greater than the original.

    The loop over items is first read as a recursion over the tree ([truncate_value]), in
    which the budget is threaded through and a flag says that the loop has stopped. *)

From S2P Require Import Prelude Coding IntCast YsonStream YsonLexer YsonEvents YsonParser YsonGrammar YsonWriter SyntaxChecker PullParser Compare CompositeCompare.

(** ** Lengths of varints *)

Lemma length_digits_mono fuel v w : 0 <= v <= w → (length (Varint.digits fuel v) <= length (Varint.digits fuel w))%nat.
Proof.
  revert v w. induction fuel as [|fuel IH]; intros v w H; cbn [Varint.digits].
  - done.
  - destruct (Z.ltb_spec v 128), (Z.ltb_spec w 128); simpl; try lia.
    apply le_n_S, IH. rewrite !Varint.shiftr_7. split; [apply Z.div_pos; lia|apply Z.div_le_mono; lia].
Qed.

Lemma length_WriteVarInt32_mono a b : 0 <= a <= b → b < 2 ^ 31 →
  (length (Varint.WriteVarInt32 a) <= length (Varint.WriteVarInt32 b))%nat.
Proof.
  intros H1 H2. unfold Varint.WriteVarInt32. rewrite !Varint.WriteVarUint64_digits. apply length_digits_mono.
  unfold ZigZag.ZigZagEncode32. rewrite !ZigZag.encode_spec by word.
  destruct (Z.leb_spec 0 a), (Z.leb_spec 0 b); lia.
Qed.

(** ** The loop over a list of items *)

Fixpoint truncate_items (items : list TYsonItem) (remainingBytes : Z) (t : TTruncation) : Result TTruncation :=
  match items with
  | [] => Ok t
  | item :: items =>
      next ← truncate_step item remainingBytes t;
      match next with None => Ok t | Some (remainingBytes, t) => truncate_items items remainingBytes t end
  end.

Lemma truncate_loop_items fd fuel fuel1 p items rem t : read_loop fd fuel1 p = Ok items → (length items < fuel)%nat →
  truncate_loop fd fuel p rem t = truncate_items items rem t.
Proof.
  revert fuel1 p items rem t. induction fuel as [|fuel IH]; intros fuel1 p items rem t Hp Hf; [lia|].
  destruct (read_loop_next _ _ _ _ Hp) as (p1 & E & H1). cbn [truncate_loop]. rewrite E. run_bind.
  destruct H1 as [->|(Hne & fuel1' & H1)].
  - cbn [hd]. unfold truncate_step. destruct (GetMinResultingSize _ _) as [m| | |] eqn:Em; [|by destruct (_ >? 0)..].
    run_bind. by destruct (m >? rem).
  - destruct items as [|item items]; [done|]. cbn [hd tail truncate_items] in *.
    destruct (truncate_step item rem t) as [[[rem' t']|]| | |]; try done. run_bind. eapply IH; [done|simpl in Hf; lia].
Qed.

(** ** The recursion over the tree *)

(** The budget is threaded through; [true] says that the loop stopped inside. *)
Section TruncateList.
Context (f : TComposite → Z → option TComposite * Z * bool).

Fixpoint truncate_list (items : list TComposite) (rem : Z) : list TComposite * Z * bool :=
  match items with
  | [] => ([], rem, false)
  | v :: items =>
      match f v rem with
      | (None, rem, _) => ([], rem, true)
      | (Some v', rem, true) => ([v'], rem, true)
      | (Some v', rem, false) => let '(items', rem, stopped) := truncate_list items rem in (v' :: items', rem, stopped)
      end
  end.
End TruncateList.

Definition min_size (v : TComposite) : Z :=
  match v with
  | CEntity | CBoolean _ => 1
  | CInt64 z => 1 + Z.of_nat (length (Varint.WriteVarInt64 z))
  | CUint64 z => 1 + Z.of_nat (length (Varint.WriteVarUint64 z))
  | CDouble _ => 9
  | CString s => 1 + Z.of_nat (length (Varint.WriteVarInt32 (Z.of_nat (length s))))
  | CList _ => 2
  end.

Fixpoint truncate_value (inside : bool) (v : TComposite) (rem : Z) : option TComposite * Z * bool :=
  let m := min_size v + Z.b2z inside in
  if m >? rem then (None, rem, true)
  else
    match v with
    | CString s =>
        let s' := take (Z.to_nat (rem - m)) s in
        (Some (CString s'), rem - (m + Z.of_nat (length s')), false)
    | CList items =>
        let '(items', rem, stopped) := truncate_list (truncate_value true) items (rem - m) in
        (Some (CList items'), rem, stopped)
    | v => (Some v, rem - m, false)
    end.

(** ** Budget, order and shape of the truncated value *)

Definition sep (inside : bool) : list byte := if inside then [ItemSeparatorSymbol] else [].

Definition written (inside : bool) (o : option TComposite) : list byte :=
  match o with None => [] | Some v => composite_binary v ++ sep inside end.

Definition spent (bytes : list byte) (rem rem' : Z) : Prop := 0 <= rem' ∧ Z.of_nat (length bytes) <= rem - rem'.

Lemma length_sep inside : Z.of_nat (length (sep inside)) = Z.b2z inside.
Proof. by destruct inside. Qed.

Lemma truncate_list_spent f items rem items' rem' st : 0 <= rem →
  Forall (λ v, ∀ rem o rem' st, 0 <= rem → f v rem = (o, rem', st) → spent (written true o) rem rem') items →
  truncate_list f items rem = (items', rem', st) →
  spent (flat_map (λ v, composite_binary v ++ [ItemSeparatorSymbol]) items') rem rem'.
Proof.
  intros Hrem H. revert rem items' Hrem. induction H as [|v items Hv _ IH]; intros rem items' Hrem; simpl.
  - intros [= <- <- <-]. split; [done|simpl; lia].
  - destruct (f v rem) as [[[v'|] rem1] st1] eqn:E; apply Hv in E as [H0 H1]; [|done|intros [= <- <- <-]; split; simpl in *; lia|done].
    destruct st1.
    + intros [= <- <- <-]. split; [done|]. cbn [flat_map]. rewrite app_nil_r. exact H1.
    + destruct (truncate_list f items rem1) as [[items1 rem2] st2] eqn:E2. intros [= <- <- <-].
      destruct (IH _ _ H0 E2) as [H2 H3]. split; [done|]. cbn [flat_map]. rewrite length_app.
      unfold written, sep in H1. lia.
Qed.

(** The cases of [truncate_value]: nothing fits, or the head does. *)
Ltac truncate_cases :=
  cbn [truncate_value]; cbv zeta;
  match goal with |- context [?m >? ?rem] => destruct (Z.gtb_spec m rem) as [Hm|Hm] end;
  [intros [= <- <- <-]|cbn [min_size] in *].

Lemma scalar_spent inside v rem : 0 <= rem → min_size v + Z.b2z inside <= rem →
  Z.of_nat (length (composite_binary v)) = min_size v → spent (written inside (Some v)) rem (rem - (min_size v + Z.b2z inside)).
Proof. intros H1 H2 H3. split; [lia|]. unfold written. rewrite length_app, Nat2Z.inj_add, length_sep. lia. Qed.

Lemma string_spent inside s rem : 0 <= rem → Z.of_nat (length s) < 2 ^ 31 →
  let m := min_size (CString s) + Z.b2z inside in m <= rem →
  let s' := take (Z.to_nat (rem - m)) s in
  spent (written inside (Some (CString s'))) rem (rem - (m + Z.of_nat (length s'))).
Proof.
  intros Hrem Hs m Hm s'. unfold m, min_size in *.
  assert (length s' <= Z.to_nat (rem - m) ∧ length s' <= length s)%nat as [H1 H2] by (unfold s'; rewrite length_take; lia).
  pose proof (length_WriteVarInt32_mono (Z.of_nat (length s')) (Z.of_nat (length s)) ltac:(lia) Hs).
  split; [unfold m in *; lia|]. unfold written. rewrite length_app, Nat2Z.inj_add, length_sep.
  cbn [composite_binary length]. rewrite length_app. lia.
Qed.

Lemma truncate_value_spent inside v rem o rem' st : representable v → 0 <= rem →
  truncate_value inside v rem = (o, rem', st) → spent (written inside o) rem rem'.
Proof.
  revert inside rem o rem' st. induction v as [| | | | | |items IH] using composite_ind; intros inside rem o rem' st Hv Hrem;
    truncate_cases; try (split; simpl; lia); try (intros [= <- <- <-]).
  1,2,3,5: apply scalar_spent; try done; cbn [composite_binary min_size length]; lia.
  - apply (scalar_spent inside (CDouble z)); [done|done|]. cbn [composite_binary min_size length]. by rewrite length_le_bytes.
  - by apply string_spent.
  - destruct (truncate_list _ _ _) as [[items' rem1] st1] eqn:E. intros [= <- <- <-].
    apply truncate_list_spent in E as [H1 H2]; [|lia|].
    + split; [done|]. unfold written. rewrite length_app, Nat2Z.inj_add, length_sep. cbn [composite_binary length].
      rewrite length_app. simpl length. lia.
    + apply representable_list in Hv. clear -IH Hv. induction IH as [|v items Hn _ IHl]; constructor.
      * intros rem o rem' st. apply Hn, (Forall_inv Hv).
      * apply IHl, (Forall_inv_tail Hv).
Qed.

(** The truncated value does not compare greater, and stays within the bounds of the original. *)
Lemma string_prefix_le n s : string_compare (take n s) s <= 0.
Proof. revert n. induction s as [|c s IH]; intros [|n]; simpl; try lia. by rewrite Z.eqb_refl. Qed.

Lemma GetSign_le z : z <= 0 → GetSign z <= 0.
Proof. destruct (GetSign_spec z) as [?|[?|?]]; lia. Qed.

Definition below (v v' : TComposite) : Prop :=
  compare_composite v' v <= 0 ∧ (representable v → representable v') ∧
  (node_depth (composite_node v') <= node_depth (composite_node v))%nat.

Lemma truncate_list_below f items rem items' rem' st :
  Forall (λ v, ∀ rem v' rem' st, f v rem = (Some v', rem', st) → below v v') items →
  truncate_list f items rem = (items', rem', st) →
  lex_compare compare_composite items' items <= 0 ∧ (Forall representable items → Forall representable items') ∧
  (list_depth (map composite_node items') <= list_depth (map composite_node items))%nat.
Proof.
  intros H. revert rem items'. induction H as [|v items Hv _ IH]; intros rem items'; simpl; [by intros [= <- <- <-]|].
  destruct (f v rem) as [[[v'|] rem1] st1] eqn:E; [|intros [= <- <- <-]; split_and!; [simpl; lia|constructor|simpl; lia]].
  apply Hv in E as (H1 & H2 & H3). destruct st1.
  - intros [= <- <- <-]. cbn [lex_compare map list_depth]. split_and!; [|intros Hr; constructor; [apply H2, (Forall_inv Hr)|constructor]|lia].
    destruct (Z.eqb_spec (compare_composite v' v) 0); [by destruct items|lia].
  - destruct (truncate_list f items rem1) as [[items1 rem2] st2] eqn:E2. intros [= <- <- <-].
    destruct (IH _ _ E2) as (H4 & H5 & H6). cbn [lex_compare map list_depth]. split_and!; [by destruct (_ =? 0)| |lia].
    intros Hr. constructor; [apply H2, (Forall_inv Hr)|apply H5, (Forall_inv_tail Hr)].
Qed.

Lemma truncate_value_below inside v rem v' rem' st : truncate_value inside v rem = (Some v', rem', st) → below v v'.
Proof.
  revert inside rem v' rem' st. induction v as [| | | | | |items IH] using composite_ind; intros inside rem v' rem' st;
    cbn [truncate_value]; cbv zeta; (destruct (_ >? rem); [done|]).
  1-5: intros [= <- <- <-]; unfold below; by rewrite cmp_refl.
  - intros [= <- <- <-]. split_and!; [|simpl; rewrite length_take; lia|done]. cbn [compare_composite]. unfold TernaryCompare_string. apply GetSign_le, string_prefix_le.
  - destruct (truncate_list _ _ _) as [[items' rem1] st1] eqn:E. intros [= <- <- <-].
    apply truncate_list_below in E as (H1 & H2 & H3).
    + split_and!; [done|by rewrite !representable_list|]. change (composite_node (CList ?l)) with (Node None (VList (map composite_node l))).
      rewrite !node_depth_eq, !value_depth_list. lia.
    + eapply List.Forall_impl; [|exact IH]. simpl. intros v Hn rem2 v2 rem2' st2. apply Hn.
Qed.

Lemma truncate_value_not_none inside v rem rem' : truncate_value inside v rem ≠ (None, rem', false).
Proof. destruct v; cbn [truncate_value]; cbv zeta; destruct (_ >? rem); try done. by destruct (truncate_list _ _ _) as [[? ?] ?]. Qed.

(** ** The loop is the recursion *)

Definition unclosed (t : TTruncation) : bool := UnclosedListCount t >? 0.

Definition append (t : TTruncation) (bytes : list byte) : TTruncation :=
  {| Truncated := Truncated t ++ bytes; UnclosedListCount := UnclosedListCount t; EmptyResult := false |}.

Definition append_opt (t : TTruncation) (o : option TComposite) : TTruncation :=
  match o with None => t | Some _ => append t (written (unclosed t) o) end.

Definition open_list (t : TTruncation) : TTruncation :=
  {| Truncated := Truncated t ++ [BeginListSymbol]; UnclosedListCount := UnclosedListCount t + 1; EmptyResult := false |}.

(** What is left of the state when the open lists are closed. *)
Definition finish (t : TTruncation) : list byte * bool :=
  (close_lists (Z.to_nat (UnclosedListCount t)) (Truncated t), EmptyResult t).

(** The loop over the items of a value, or of the values of a list, and what follows them. *)
Definition runs (items rest : list TYsonItem) (rem : Z) (t t1 : TTruncation) (rem1 : Z) (stopped : bool) : Prop :=
  if stopped then
    ∃ t', truncate_items (items ++ rest) rem t = Ok t' ∧ UnclosedListCount t' >= 0 ∧ finish t' = finish t1
  else truncate_items (items ++ rest) rem t = truncate_items rest rem1 t1.

Lemma sep_unclosed t : 0 <= UnclosedListCount t → negb (UnclosedListCount t =? 0) = unclosed t.
Proof. intros H. unfold unclosed. destruct (Z.eqb_spec (UnclosedListCount t) 0), (Z.gtb_spec (UnclosedListCount t) 0); done || lia. Qed.

Definition is_fixed (v : TComposite) : Prop := match v with CString _ | CList _ => False | _ => True end.

Lemma step_scalar item v rem t : composite_items v = [item] → 0 <= UnclosedListCount t → is_fixed v →
  truncate_step item rem t =
    if min_size v + Z.b2z (unclosed t) >? rem then Ok None
    else Ok (Some (rem - (min_size v + Z.b2z (unclosed t)), append t (composite_binary v ++ sep (unclosed t)))).
Proof.
  intros Hv Ht Hs. unfold truncate_step. fold (unclosed t).
  assert (GetMinResultingSize item (unclosed t) = Ok (min_size v + Z.b2z (unclosed t))) as ->.
  { destruct v; simplify_eq/=; try done. all: unfold GetMinResultingSize; cbn [GetType mbind result_bind];
      rewrite !bool_decide_eq_false_2 by done; cbn [GetBinarySize min_size]; destruct (unclosed t); unfold Z.b2z; f_equal; lia. }
  run_bind. destruct (_ >? rem); [done|].
  destruct v; simplify_eq/=; try done; rewrite sep_unclosed, andb_true_r by done; unfold append; destruct (unclosed t);
    unfold WriteSymbol, WriteBinaryInt64, WriteBinaryUint64, WriteBinaryDouble, WriteBinaryBoolean; simpl; rewrite <- ?app_assoc, ?app_nil_r; done.
Qed.

Lemma step_string s rem t : 0 <= UnclosedListCount t → Z.of_nat (length s) < 2 ^ 31 →
  let m := min_size (CString s) + Z.b2z (unclosed t) in
  let s' := take (Z.to_nat (rem - m)) s in
  truncate_step (ItemString s) rem t =
    if m >? rem then Ok None
    else Ok (Some (rem - (m + Z.of_nat (length s')), append t (composite_binary (CString s') ++ sep (unclosed t)))).
Proof.
  intros Ht Hs m s'. assert (GetMinResultingSize (ItemString s) (unclosed t) = Ok m) as E.
  { unfold GetMinResultingSize. cbn [GetType]. rewrite !bool_decide_eq_false_2 by done. cbn [GetBinarySize]. rewrite wrap_s_id by word.
    replace (_ >=? 0) with true by (symmetry; apply Z.geb_le; lia). unfold m. cbn [Verify mbind result_bind min_size].
    destruct (unclosed t); unfold Z.b2z; f_equal; lia. }
  unfold truncate_step. fold (unclosed t). rewrite E. run_bind. destruct (m >? rem); [done|].
  cbn [truncated_item WriteItem GetType]. rewrite sep_unclosed, bool_decide_eq_false_2 by done. cbn [negb]. rewrite andb_true_r.
  fold s'. assert (length s' <= length s)%nat by (unfold s'; rewrite length_take; lia).
  unfold append, WriteBinaryString, WriteSymbol. rewrite wrap_s_id by word. cbn [composite_binary].
  destruct (unclosed t); cbn [sep]; rewrite ?app_nil_r, <- ?app_assoc; cbn [app]; rewrite <- ?app_assoc; done.
Qed.

Lemma step_begin rem t : 0 <= UnclosedListCount t →
  truncate_step (Simple BeginList) rem t =
    if 2 + Z.b2z (unclosed t) >? rem then Ok None else Ok (Some (rem - (2 + Z.b2z (unclosed t)), open_list t)).
Proof.
  intros Ht. unfold truncate_step. fold (unclosed t).
  assert (GetMinResultingSize (Simple BeginList) (unclosed t) = Ok (2 + Z.b2z (unclosed t))) as -> by (by destruct (unclosed t)).
  run_bind. destruct (_ >? rem); [done|]. cbn [truncated_item WriteItem GetType].
  rewrite bool_decide_eq_true_2 by done. by rewrite andb_false_r.
Qed.

Lemma step_end rem t bytes : 0 <= rem → 0 <= UnclosedListCount t →
  truncate_step (Simple EndList) rem (append (open_list t) bytes) =
    Ok (Some (rem, append t (BeginListSymbol :: bytes ++ EndListSymbol :: sep (unclosed t)))).
Proof.
  intros Hrem Ht. unfold truncate_step.
  change (GetMinResultingSize (Simple EndList) ?b) with (Ok (A := Z) 0). run_bind.
  replace (0 >? rem) with false by (destruct (Z.gtb_spec 0 rem); [lia|done]). cbn [truncated_item].
  cbn [UnclosedListCount append open_list WriteItem Truncated]. replace (UnclosedListCount t + 1 - 1) with (UnclosedListCount t) by lia.
  rewrite sep_unclosed, bool_decide_eq_false_2 by done. cbn [negb]. rewrite andb_true_r, Z.sub_0_r.
  unfold append, WriteSymbol. destruct (unclosed t); cbn [sep]; rewrite <- ?app_assoc; done.
Qed.

Lemma finish_open t bytes : 0 <= UnclosedListCount t →
  finish (append (open_list t) bytes) = finish (append t (BeginListSymbol :: bytes ++ EndListSymbol :: sep (unclosed t))).
Proof.
  intros Ht. unfold finish. cbn [UnclosedListCount append open_list Truncated EmptyResult].
  replace (Z.to_nat (UnclosedListCount t + 1)) with (S (Z.to_nat (UnclosedListCount t))) by lia. cbn [close_lists]. f_equal. f_equal.
  unfold unclosed, WriteSymbol. destruct (Z.gtb_spec (UnclosedListCount t) 0).
  - destruct (Z.to_nat (UnclosedListCount t)) eqn:E; [lia|]. rewrite <- !app_assoc. done.
  - replace (UnclosedListCount t) with 0 by lia. simpl. rewrite <- !app_assoc. done.
Qed.

Definition value_runs (v : TComposite) : Prop := ∀ t rest rem o rem' st, 0 <= UnclosedListCount t → 0 <= rem → representable v →
  truncate_value (unclosed t) v rem = (o, rem', st) → runs (composite_items v) rest rem t (append_opt t o) rem' st.

Lemma append_app t a b : append (append t a) b = append t (a ++ b).
Proof. unfold append. simpl. by rewrite <- app_assoc. Qed.

Lemma list_runs items t rest rem items' rem' st : Forall value_runs items → Forall representable items →
  0 < UnclosedListCount t → 0 <= rem → truncate_list (truncate_value true) items rem = (items', rem', st) →
  runs (flat_map composite_items items) rest rem t
    (if items' is [] then t else append t (flat_map (λ v, composite_binary v ++ [ItemSeparatorSymbol]) items')) rem' st.
Proof.
  intros H. revert t rem items'. induction H as [|v items Hv _ IH]; intros t rem items' Hr Ht Hrem; simpl; [by intros [= <- <- <-]|].
  assert (unclosed t = true) as Hin by (unfold unclosed; destruct (Z.gtb_spec (UnclosedListCount t) 0); [done|lia]).
  pose proof (Forall_inv Hr) as Hrv. apply Forall_inv_tail in Hr.
  destruct (truncate_value true v rem) as [[o rem1] st1] eqn:E. rewrite <- Hin in E.
  pose proof (Hv t (flat_map composite_items items ++ rest) rem o rem1 st1 ltac:(lia) Hrem Hrv E) as Hrun.
  destruct o as [v'|].
  2: { intros [= <- <- <-]. destruct st1; [|by eapply truncate_value_not_none in E]. unfold runs in *. rewrite <- app_assoc. exact Hrun. }
  cbn [append_opt written] in Hrun. rewrite Hin in Hrun. cbn [sep] in Hrun. destruct st1.
  - intros [= <- <- <-]. unfold runs in *. rewrite <- app_assoc. cbn [flat_map]. by rewrite app_nil_r.
  - destruct (truncate_list _ items rem1) as [[items1 rem2] st2] eqn:E2. intros [= <- <- <-].
    assert (0 <= rem1) as Hrem1 by (by eapply (truncate_value_spent _ v)).
    specialize (IH (append t (composite_binary v' ++ [ItemSeparatorSymbol])) rem1 items1 Hr Ht Hrem1 E2).
    unfold runs in *. rewrite <- app_assoc, Hrun. cbn [flat_map].
    destruct items1 as [|v1 items1]; [by rewrite app_nil_r|]. by rewrite append_app in IH.
Qed.

Lemma scalar_runs v item : composite_items v = [item] → is_fixed v → value_runs v.
Proof.
  intros Hi Hf t rest rem o rem' st Ht Hrem Hv E.
  assert (truncate_value (unclosed t) v rem = if min_size v + Z.b2z (unclosed t) >? rem then (None, rem, true)
    else (Some v, rem - (min_size v + Z.b2z (unclosed t)), false)) as E' by (by destruct v).
  rewrite E' in E. clear E'. unfold runs. rewrite Hi. cbn [app truncate_items]. rewrite (step_scalar item v rem t Hi Ht Hf).
  destruct (_ >? rem); run_bind; simplify_eq; [|done]. exists t. split_and!; [done|lia|done].
Qed.

Lemma all_runs v : value_runs v.
Proof.
  induction v as [| | | | | |items IH] using composite_ind; try (by eapply scalar_runs).
  - intros t rest rem o rem' st Ht Hrem Hv E. unfold runs. cbn [composite_items app truncate_items]. rewrite step_string by done.
    cbn [truncate_value] in E. cbv zeta in *. destruct (_ >? rem); run_bind; simplify_eq; [|done].
    exists t. split_and!; [done|lia|done].
  - intros t rest rem o rem' st Ht Hrem Hv E. unfold runs.
    change (composite_items (CList items)) with (Simple BeginList :: flat_map composite_items items ++ [Simple EndList]).
    cbn [app truncate_items]. rewrite step_begin by done. cbn [truncate_value min_size] in E. cbv zeta in E.
    destruct (Z.gtb_spec (2 + Z.b2z (unclosed t)) rem) as [Hm|Hm]; run_bind.
    { simplify_eq. exists t. split_and!; [done|lia|done]. }
    destruct (truncate_list _ _ _) as [[items' rem1] st1] eqn:El. injection E as <- <- <-.
    apply representable_list in Hv.
    pose proof (list_runs items (open_list t) (Simple EndList :: rest) (rem - (2 + Z.b2z (unclosed t))) _ _ _ IH Hv ltac:(simpl; lia) ltac:(lia) El) as H.
    set (bytes := flat_map (λ v, composite_binary v ++ [ItemSeparatorSymbol]) items') in *.
    assert ((if items' is [] then open_list t else append (open_list t) bytes) = append (open_list t) bytes) as Eb.
    { destruct items'; [|done]. unfold append, open_list, bytes. simpl. by rewrite app_nil_r. }
    rewrite Eb in H. unfold runs in H. rewrite <- app_assoc. cbn [app append_opt written].
    assert (composite_binary (CList items') ++ sep (unclosed t) = BeginListSymbol :: bytes ++ EndListSymbol :: sep (unclosed t)) as Ec.
    { unfold bytes. cbn [composite_binary app]. f_equal. by rewrite <- app_assoc. }
    rewrite Ec. destruct st1.
    + destruct H as (t' & H1 & H2 & H3). exists t'. split_and!; [done|done|]. rewrite H3. by apply finish_open.
    + rewrite H. cbn [truncate_items]. rewrite step_end; [done| |done].
      apply truncate_list_spent in El as [? _]; [done|lia|]. clear -Hv. induction Hv as [|v items Hn _ IHl]; constructor; [|done].
      intros rem o rem' st Hrem. by apply truncate_value_spent.
Qed.

Lemma TruncateYsonValue_tree fd v yson size : total_conversion fd → comparable_text fd v yson → representable v → 0 < size →
  TruncateYsonValue fd yson size = Ok (composite_binary <$> (truncate_value false v size).1.1).
Proof.
  intros Hfd Ht Hv Hs. unfold TruncateYsonValue. replace (size >=? 0) with true by (symmetry; apply Z.geb_le; lia).
  rewrite (proj2 (Z.eqb_neq size 0)) by lia. cbn [Verify mbind result_bind].
  pose proof (comparable_reads fd v yson Hfd Ht) as E. rewrite (truncate_loop_items fd _ _ _ _ size _ E); [|apply read_loop_length in E; lia].
  set (t0 := {| Truncated := []; UnclosedListCount := 0; EmptyResult := true |}).
  destruct (truncate_value false v size) as [[o rem'] st] eqn:Ev.
  pose proof (all_runs v t0 [] size o rem' st ltac:(done) ltac:(lia) Hv Ev) as H.
  assert (∃ t', truncate_items (composite_items v) size t0 = Ok t' ∧ UnclosedListCount t' >= 0 ∧ finish t' = finish (append_opt t0 o))
    as (t' & -> & Hc & Hf).
  { unfold runs in H. rewrite app_nil_r in H. destruct st; [exact H|]. exists (append_opt t0 o). split_and!; [exact H|by destruct o|done]. }
  run_bind. replace (UnclosedListCount t' >=? 0) with true by (symmetry; apply Z.geb_le; lia). cbn [Verify mbind result_bind].
  unfold finish in Hf. injection Hf as Hf1 Hf2. rewrite Hf1, Hf2. destruct o as [v'|]; [|done].
  cbn. by rewrite app_nil_r.
Qed.

(** ** Theorem *)

(** C14. [TruncateYsonValue] cuts a value down to size: for the text of a value without maps
    and attributes, in text or binary form, and any positive size, the call succeeds; when
    it returns a value, that is the YSON of a value again, it is at most [size] bytes long,
    and it does not compare greater than the original, so that a truncated upper part of a
    key stays a lower estimate. *)
Theorem TruncateYsonValue_correct (fd : list byte → Result Z) (Hfd : total_conversion fd) (v : TComposite)
    (yson : list byte) (size : Z) (Ht : comparable_text fd v yson) (Hv : representable v) (Hs : 0 < size) :
  ∃ result, TruncateYsonValue fd yson size = Ok result ∧
  match result with
  | None => size < min_size v
  | Some truncated => Z.of_nat (length truncated) <= size ∧
      ∃ v' z, comparable_text fd v' truncated ∧ CompareYsonValues fd truncated yson = Ok z ∧ z <= 0
  end.
Proof.
  exists (composite_binary <$> (truncate_value false v size).1.1). split; [by apply TruncateYsonValue_tree|].
  destruct (truncate_value false v size) as [[[v'|] rem'] st] eqn:E; simpl.
  - destruct (truncate_value_below _ _ _ _ _ _ E) as (Hle & Hrep & Hd). apply truncate_value_spent in E as [H0 H1]; [|done|lia].
    unfold written, sep in H1. rewrite app_nil_r in H1. split; [lia|].
    assert (comparable_text fd v' (composite_binary v')) as Ht'.
    { apply composite_binary_comparable; [by apply Hrep|]. destruct Ht. lia. }
    exists v', (compare_composite v' v). split_and!; [done| |done]. by apply CompareYsonValues_composite.
  - assert ((min_size v + Z.b2z false >? size) = true) as Hm; [|apply Z.gtb_lt in Hm; simpl in Hm; lia].
    destruct v; cbn [truncate_value] in E; cbv zeta in E; destruct (_ >? size); try done.
    by destruct (truncate_list _ _ _) as [[? ?] ?].
Qed.

Lemma TruncateYsonValue_correct_witness :
  let v := CList [CInt64 1; CList [CString (B"abcdefgh"); CEntity]] in
  TruncateYsonValue (λ _, Ok 0) (composite_binary v) 14 = Ok (Some (composite_binary (CList [CInt64 1; CList [CString (B"abc")]]))) ∧
  ∃ result, TruncateYsonValue (λ _, Ok 0) (composite_binary v) 14 = Ok result ∧
  match result with
  | None => 14 < min_size v
  | Some truncated => Z.of_nat (length truncated) <= 14 ∧
      ∃ v' z, comparable_text (λ _, Ok 0) v' truncated ∧ CompareYsonValues (λ _, Ok 0) truncated (composite_binary v) = Ok z ∧ z <= 0
  end.
Proof.
  intros v. assert (representable v) as Hv.
  { simpl. unfold in_s. repeat split; lia. }
  split; [vm_compute; reflexivity|].
  apply (TruncateYsonValue_correct (λ _, Ok 0) ltac:(done) v (composite_binary v) 14); [|exact Hv|lia].
  apply composite_binary_comparable; [exact Hv|]. vm_compute. lia.
Defined.
