(* ===== verification/RowValues.v ===== *)
(** The values of rows and their comparison ([yt/yt/client/table_client/row_base.h],
    [row_base.cpp], [unversioned_row.cpp]).

    A value is its type and its datum; [Any] and [Composite] values hold YSON and are
    compared with [CompareYsonValues]. Values are compared column by column: the theorem
    says that on the values of one column the comparison is total and a total preorder, and
    gives it as the comparison of what the values denote. The class [ValueOrder] is what
    the key comparator relies on. *)

From S2P Require Import Prelude YsonParser Compare CompositeCompare.

(** The union [Data] goes with [Type]; [Id], [Flags] and [Aggregate] play no part here. *)
Inductive TUnversionedValue :=
| ValueMin
| ValueTheBottom
| ValueNull
| ValueInt64 (data : Z)
| ValueUint64 (data : Z)
| ValueDouble (bits : Z)
| ValueBoolean (data : bool)
| ValueString (data : list byte)
| ValueAny (yson : list byte)
| ValueComposite (yson : list byte)
| ValueMax.
#[export] Instance TUnversionedValue_eq_dec : EqDecision TUnversionedValue.
Proof. solve_decision. Defined.

Definition ValueType (value : TUnversionedValue) : EValueType :=
  match value with
  | ValueMin => TypeMin
  | ValueTheBottom => TheBottom
  | ValueNull => TypeNull
  | ValueInt64 _ => TypeInt64
  | ValueUint64 _ => TypeUint64
  | ValueDouble _ => TypeDouble
  | ValueBoolean _ => TypeBoolean
  | ValueString _ => TypeString
  | ValueAny _ => TypeAny
  | ValueComposite _ => TypeComposite
  | ValueMax => TypeMax
  end.

(** ** Validation *)

Definition ValidateDataValueType (type : EValueType) : Result unit :=
  match type with
  | TypeInt64 | TypeUint64 | TypeDouble | TypeBoolean | TypeString | TypeAny | TypeComposite | TypeNull => Ok ()
  | _ => Throw EBadValueType
  end.

Definition ValidateKeyValueType (type : EValueType) : Result unit :=
  match type with
  | TypeInt64 | TypeUint64 | TypeDouble | TypeBoolean | TypeString | TypeAny | TypeComposite | TypeNull
  | TypeMin | TypeMax => Ok ()
  | _ => Throw EBadValueType
  end.

Definition ValidateSchemaValueType (type : EValueType) : Result unit :=
  match type with
  | TypeNull | TypeInt64 | TypeUint64 | TypeDouble | TypeBoolean | TypeString | TypeAny | TypeComposite => Ok ()
  | _ => Throw EBadValueType
  end.

Fixpoint ValidateValueTypes (range : list TUnversionedValue) : Result unit :=
  match range with
  | [] => Ok ()
  | value :: range => ValidateDataValueType (ValueType value);; ValidateValueTypes range
  end.

(** ** Comparison *)

Definition IsSentinel (valueType : EValueType) : bool :=
  bool_decide (valueType = TypeMin) || bool_decide (valueType = TypeMax).

Definition TernaryCompareTypes (lhs rhs : EValueType) : Z := TernaryCompare (value_type_index lhs) (value_type_index rhs).

Section CompareRowValues.
Context (FromString_double : list byte → Result Z).

(** The [try] block around [CompareYsonValues]. *)
Definition CompareComplexValues (lhsData rhsData : list byte) : Result Z :=
  match CompareYsonValues FromString_double lhsData rhsData with
  | Throw _ => Throw EIncomparable
  | result => result
  end.

Definition CompareRowValues (lhs rhs : TUnversionedValue) : Result Z :=
  let lhsType := ValueType lhs in
  let rhsType := ValueType rhs in
  if bool_decide (lhsType = TypeAny) || bool_decide (rhsType = TypeAny) then
    if negb (bool_decide (lhsType = rhsType)) then
      if bool_decide (lhsType = TypeComposite) || bool_decide (rhsType = TypeComposite) then Throw EIncomparable
      else Ok (TernaryCompareTypes lhsType rhsType)
    else
      match lhs, rhs with
      | ValueAny lhsData, ValueAny rhsData => CompareComplexValues lhsData rhsData
      | _, _ => Crash
      end
  else if bool_decide (lhsType = TypeComposite) || bool_decide (rhsType = TypeComposite) then
    if negb (bool_decide (lhsType = rhsType)) then
      if negb (IsSentinel lhsType) && negb (bool_decide (lhsType = TypeNull)) &&
         negb (IsSentinel rhsType) && negb (bool_decide (rhsType = TypeNull)) then Throw EIncomparable
      else Ok (TernaryCompareTypes lhsType rhsType)
    else
      match lhs, rhs with
      | ValueComposite lhsData, ValueComposite rhsData => CompareComplexValues lhsData rhsData
      | _, _ => Crash
      end
  else if negb (bool_decide (lhsType = rhsType)) then Ok (TernaryCompareTypes lhsType rhsType)
  else
    match lhs, rhs with
    | ValueInt64 l, ValueInt64 r => Ok (TernaryCompare l r)
    | ValueUint64 l, ValueUint64 r => Ok (TernaryCompare l r)
    | ValueDouble l, ValueDouble r => Ok (NaNSafeTernaryCompare l r)
    | ValueBoolean l, ValueBoolean r => Ok (TernaryCompare_bool l r)
    | ValueString l, ValueString r => Ok (TernaryCompare_string l r)
    | _, _ => Ok 0
    end.

Fixpoint compare_ranges (lhs rhs : list TUnversionedValue) : Result Z :=
  match lhs, rhs with
  | l :: lhs, r :: rhs =>
      result ← CompareRowValues l r;
      if negb (result =? 0) then Ok result else compare_ranges lhs rhs
  | _, _ => Ok 0
  end.

(** The loop, then [std::ssize(lhs) - std::ssize(rhs)]. *)
Definition CompareValueRanges (lhs rhs : list TUnversionedValue) : Result Z :=
  result ← compare_ranges lhs rhs;
  if negb (result =? 0) then Ok result else Ok (Z.of_nat (length lhs) - Z.of_nat (length rhs)).

(** A row is [None] where it is a null row. *)
Definition CompareRows (lhs rhs : option (list TUnversionedValue)) (prefixLength : nat) : Result Z :=
  match lhs, rhs with
  | None, None => Ok 0
  | Some _, None => Ok 1
  | None, Some _ => Ok (-1)
  | Some lhs, Some rhs =>
      CompareValueRanges (take (Nat.min (length lhs) prefixLength) lhs) (take (Nat.min (length rhs) prefixLength) rhs)
  end.
End CompareRowValues.

(** ** What values denote *)

(** A type's place in the order and what is compared inside the type. *)
Definition TDatum : Type := Z * TComposite.

Definition compare_datum (d1 d2 : TDatum) : Z :=
  if d1.1 =? d2.1 then compare_composite d1.2 d2.2 else TernaryCompare d1.1 d2.1.

#[export] Instance compare_datum_total : TotalCompare compare_datum.
Proof.
  split.
  - intros [r1 c1] [r2 c2]. unfold compare_datum. simpl. destruct (Z.eqb_spec r1 r2) as [->|E].
    + rewrite Z.eqb_refl. apply cmp_antisym.
    + rewrite (proj2 (Z.eqb_neq r2 r1)) by congruence. apply cmp_antisym.
  - intros [r1 c1] [r2 c2] [r3 c3]. unfold compare_datum. simpl.
    destruct (TernaryCompare_cases r1 r2) as [[? ->]|[[? ->]|[? ->]]], (TernaryCompare_cases r2 r3) as [[? ->]|[[? ->]|[? ->]]],
      (TernaryCompare_cases r1 r3) as [[? ->]|[[? ->]|[? ->]]],
      (Z.eqb_spec r1 r2), (Z.eqb_spec r2 r3), (Z.eqb_spec r1 r3); try lia. apply cmp_trans.
Qed.

(** The datum of a value; YSON must be the text of a value that can be compared. *)
Definition denotes (fd : list byte → Result Z) (value : TUnversionedValue) (d : TDatum) : Prop :=
  d.1 = value_type_index (ValueType value) ∧
  match value with
  | ValueInt64 z => d.2 = CInt64 z
  | ValueUint64 z => d.2 = CUint64 z
  | ValueDouble z => d.2 = CDouble z
  | ValueBoolean b => d.2 = CBoolean b
  | ValueString s => d.2 = CString s
  | ValueAny yson | ValueComposite yson => comparable_text fd d.2 yson
  | _ => d.2 = CEntity
  end.

(** The types that may meet in one column. *)
Definition column_type (isComposite : bool) (type : EValueType) : Prop :=
  if isComposite then type = TypeComposite ∨ type = TypeNull ∨ type = TypeMin ∨ type = TypeMax
  else type ≠ TypeComposite.
#[export] Instance column_type_dec isComposite type : Decision (column_type isComposite type).
Proof. unfold column_type. destruct isComposite; apply _. Defined.

Definition column_value (fd : list byte → Result Z) (isComposite : bool) (value : TUnversionedValue) (d : TDatum) : Prop :=
  denotes fd value d ∧ column_type isComposite (ValueType value).

(** ** The interface to the key comparator *)

(** A comparison of values and what it computes: the values of column [i] denote data that
    a total preorder compares. *)
Class ValueOrder {D} (compare : TUnversionedValue → TUnversionedValue → Result Z)
    (column : nat → TUnversionedValue → D → Prop) (cmp : D → D → Z) : Prop := {
  order_total :: TotalCompare cmp;
  order_compare i v1 v2 d1 d2 : column i v1 d1 → column i v2 d2 → compare v1 v2 = Ok (cmp d1 d2)
}.

Lemma CompareComplexValues_composite fd v1 v2 yson1 yson2 : total_conversion fd →
  comparable_text fd v1 yson1 → comparable_text fd v2 yson2 →
  CompareComplexValues fd yson1 yson2 = Ok (compare_composite v1 v2).
Proof. intros Hfd H1 H2. unfold CompareComplexValues. by rewrite (CompareYsonValues_composite fd v1 v2). Qed.

Lemma value_type_index_inj t1 t2 : value_type_index t1 = value_type_index t2 → t1 = t2.
Proof. by destruct t1, t2. Qed.

Lemma CompareRowValues_types fd v1 v2 : ValueType v1 ≠ ValueType v2 → (∃ c, column_type c (ValueType v1) ∧ column_type c (ValueType v2)) →
  CompareRowValues fd v1 v2 = Ok (TernaryCompareTypes (ValueType v1) (ValueType v2)).
Proof.
  intros Hne (c & H1 & H2). unfold CompareRowValues. cbv zeta. rewrite (bool_decide_eq_false_2 (ValueType v1 = ValueType v2)) by done. cbn [negb].
  destruct c, v1, v2; simpl in *; try (by destruct H1 as [?|[?|[?|?]]], H2 as [?|[?|[?|?]]]); try done; reflexivity.
Qed.

Lemma CompareRowValues_column fd c v1 v2 d1 d2 : total_conversion fd → column_value fd c v1 d1 → column_value fd c v2 d2 →
  CompareRowValues fd v1 v2 = Ok (compare_datum d1 d2).
Proof.
  intros Hfd [[Hr1 Hd1] Hc1] [[Hr2 Hd2] Hc2]. unfold compare_datum. destruct (decide (ValueType v1 = ValueType v2)) as [Ht|Ht].
  - rewrite Hr1, Hr2, Ht, Z.eqb_refl. unfold CompareRowValues. cbv zeta. rewrite Ht, (bool_decide_eq_true_2 (ValueType v2 = ValueType v2)) by done.
    destruct d1 as [r1 t1], d2 as [r2 t2], v1, v2; simplify_eq/=; try reflexivity; by apply CompareComplexValues_composite.
  - rewrite CompareRowValues_types by eauto. rewrite Hr1, Hr2. rewrite (proj2 (Z.eqb_neq _ _)); [done|]. intros E. by apply Ht, value_type_index_inj.
Qed.

(** The implementation keeps what the interface promises, for any choice of composite columns. *)
#[export] Instance RowValueOrder fd (Hfd : total_conversion fd) (composite : nat → bool) :
  ValueOrder (CompareRowValues fd) (λ i, column_value fd (composite i)) compare_datum.
Proof. split; [apply _|]. intros i v1 v2 d1 d2. by apply CompareRowValues_column. Qed.

(** ** Theorem *)

(** C39. [CompareRowValues] orders the values of a column: on the values of one column (a
    column of composite values, with nulls and sentinels; or a column of any other types,
    [any] included), with YSON that can be compared, the call never throws, its result is
    antisymmetric and transitive, and two values of different types are ordered as their
    types are. *)
Theorem CompareRowValues_order (fd : list byte → Result Z) (Hfd : total_conversion fd) (isComposite : bool)
    (v1 v2 v3 : TUnversionedValue) (d1 d2 d3 : TDatum)
    (H1 : column_value fd isComposite v1 d1) (H2 : column_value fd isComposite v2 d2) (H3 : column_value fd isComposite v3 d3) :
  ∃ z12 z23 z13,
    CompareRowValues fd v1 v2 = Ok z12 ∧ CompareRowValues fd v2 v3 = Ok z23 ∧ CompareRowValues fd v1 v3 = Ok z13 ∧
    CompareRowValues fd v2 v1 = Ok (- z12) ∧
    (z12 <= 0 → z23 <= 0 → z13 <= 0 ∧ (z13 = 0 → z12 = 0 ∧ z23 = 0)) ∧
    (ValueType v1 ≠ ValueType v2 → z12 = TernaryCompareTypes (ValueType v1) (ValueType v2)).
Proof.
  exists (compare_datum d1 d2), (compare_datum d2 d3), (compare_datum d1 d3).
  split_and!; try (by eapply CompareRowValues_column).
  - rewrite <- cmp_antisym. by eapply CompareRowValues_column.
  - intros Ha Hb. pose proof (cmp_trans d1 d2 d3 Ha Hb). pose proof (cmp_lt_l d1 d2 d3). pose proof (cmp_lt_r d1 d2 d3). lia.
  - intros Ht. assert (Ok (compare_datum d1 d2) = Ok (TernaryCompareTypes (ValueType v1) (ValueType v2))) as E; [|by injection E].
    rewrite <- (CompareRowValues_column fd isComposite v1 v2) by done. apply CompareRowValues_types; [done|].
    exists isComposite. split; [apply H1|apply H2].
Qed.

Lemma CompareRowValues_order_witness :
  let v := CList [CInt64 1; CEntity] in
  CompareRowValues (λ _, Ok 0) (ValueAny (composite_binary v)) (ValueString (B"b")) = Ok 1 ∧
  CompareRowValues (λ _, Ok 0) (ValueString (B"b")) (ValueAny (composite_binary v)) = Ok (- 1).
Proof.
  intros v. assert (column_value (λ _, Ok 0) false (ValueAny (composite_binary v)) (0x11, v)) as H1.
  { split; [split; [reflexivity|]|done]. apply composite_binary_comparable; [simpl; unfold in_s; repeat split; lia|vm_compute; lia]. }
  assert (column_value (λ _, Ok 0) false (ValueString (B"b")) (0x10, CString (B"b"))) as H2 by done.
  destruct (CompareRowValues_order (λ _, Ok 0) ltac:(done) false _ _ _ _ _ _ H1 H2 H1) as (z12 & z23 & z13 & E1 & _ & _ & E4 & _ & E6).
  rewrite (E6 ltac:(done)) in E1, E4. split; [exact E1|exact E4].
Defined.
