(* ===== verification/KeyBound.v ===== *)
(** Keys and key bounds ([yt/yt/client/table_client/key.cpp], [key_bound.cpp]): a bound is a
    row prefix, a direction and an inclusiveness, and stands for a ray of keys; legacy rows
    say the same with sentinel values.

    Owning and non-owning versions of the classes differ in who holds the memory; they are
    one definition here. *)

From S2P Require Import Prelude Compare CompositeCompare RowValues.

(** A null row is [None]; it has no elements. *)
Definition TUnversionedRow : Type := option (list TUnversionedValue).

Definition Elements (row : TUnversionedRow) : list TUnversionedValue := default [] row.
Definition GetCount (row : TUnversionedRow) : nat := length (Elements row).

(** ** Keys *)

Definition TKey : Type := option (list TUnversionedValue).

Module TKey.

Definition FromRow (row : TUnversionedRow) (len : option nat) : Result TKey :=
  match row with
  | None => Ok None
  | Some values =>
      let keyLength := default (length values) len in
      Verify (Nat.leb keyLength (length values));;
      ValidateValueTypes (take keyLength values);;
      Ok (Some (take keyLength values))
  end.

(** Without [NDEBUG] the types are checked and a failure is fatal. *)
Definition FromRowUnchecked (row : TUnversionedRow) (len : option nat) : Result TKey :=
  match row with
  | None => Ok None
  | Some values =>
      let keyLength := default (length values) len in
      Verify (Nat.leb keyLength (length values));;
      Ok (Some (take keyLength values))
  end.

Definition GetLength (key : TKey) : nat := length (default [] key).

Definition AsOwningRow (key : TKey) : TUnversionedRow := key.
End TKey.

Definition LegacyKeyToKeyFriendlyOwningRow (row : TUnversionedRow) (keyLength : nat) : Result TUnversionedRow :=
  match row with
  | None => Ok None
  | Some values =>
      let value index :=
        match values !! index with
        | Some value => if IsSentinel (ValueType value) then ValueNull else value
        | None => ValueNull
        end in
      let result := map value (seq 0 keyLength) in
      Verify (Nat.eqb (length result) keyLength);;
      Ok (Some result)
  end.

(** ** Key bounds *)

Record TKeyBound := { Prefix : TUnversionedRow; IsInclusive : bool; IsUpper : bool }.
#[export] Instance TKeyBound_eq_dec : EqDecision TKeyBound.
Proof. solve_decision. Defined.

(** [operator bool]. *)
Definition IsSet (row : TUnversionedRow) : bool := match row with Some _ => true | None => false end.

Definition RelationToIsUpperAndIsInclusive (relation : list byte) : Result (bool * bool) :=
  if bool_decide (relation = B"<=") then Ok (true, true)
  else if bool_decide (relation = B">=") then Ok (true, false)
  else if bool_decide (relation = B"<") then Ok (false, true)
  else if bool_decide (relation = B">") then Ok (false, false)
  else Throw EInvalidArgument.

Definition NullKeyBound : TKeyBound := {| Prefix := None; IsInclusive := false; IsUpper := false |}.

Definition FromRow (row : TUnversionedRow) (isInclusive isUpper : bool) : Result TKeyBound :=
  Verify (IsSet row);;
  ValidateValueTypes (Elements row);;
  Ok {| Prefix := row; IsInclusive := isInclusive; IsUpper := isUpper |}.

Definition FromRowUnchecked (row : TUnversionedRow) (isInclusive isUpper : bool) : Result TKeyBound :=
  Verify (IsSet row);;
  Ok {| Prefix := row; IsInclusive := isInclusive; IsUpper := isUpper |}.

Definition EmptyKey : TUnversionedRow := Some [].

Definition MakeUniversal (isUpper : bool) : Result TKeyBound := FromRow EmptyKey true isUpper.
Definition MakeEmpty (isUpper : bool) : Result TKeyBound := FromRow EmptyKey false isUpper.

Definition IsUniversal (bound : TKeyBound) : bool :=
  IsInclusive bound && IsSet (Prefix bound) && Nat.eqb (GetCount (Prefix bound)) 0.
Definition IsEmptyBound (bound : TKeyBound) : bool :=
  negb (IsInclusive bound) && IsSet (Prefix bound) && Nat.eqb (GetCount (Prefix bound)) 0.

Definition Invert (bound : TKeyBound) : Result TKeyBound :=
  Verify (IsSet (Prefix bound));;
  FromRowUnchecked (Prefix bound) (negb (IsInclusive bound)) (negb (IsUpper bound)).

Definition ToggleInclusiveness (bound : TKeyBound) : Result TKeyBound :=
  Verify (IsSet (Prefix bound));;
  FromRowUnchecked (Prefix bound) (negb (IsInclusive bound)) (IsUpper bound).

Definition UpperCounterpart (bound : TKeyBound) : Result TKeyBound :=
  Verify (IsSet (Prefix bound));;
  if IsUpper bound then Ok bound else Invert bound.

Definition LowerCounterpart (bound : TKeyBound) : Result TKeyBound :=
  Verify (IsSet (Prefix bound));;
  if IsUpper bound then Invert bound else Ok bound.

Definition GetRelation (bound : TKeyBound) : list byte :=
  if IsUpper bound && IsInclusive bound then B"<="
  else if IsUpper bound && negb (IsInclusive bound) then B"<"
  else if negb (IsUpper bound) && IsInclusive bound then B">="
  else B">".

(** ** Legacy rows *)

(** The loop of [GetBoundPrefixAndInclusiveness] at [index]: [isLongRow], the leftmost
    sentinel and the length of the prefix in front of it. *)
Fixpoint bound_loop (row : list TUnversionedValue) (index keyLength prefixLength : nat) : bool * option EValueType * nat :=
  match row with
  | [] => (false, None, prefixLength)
  | value :: row =>
      if negb (Nat.leb index keyLength) then (false, None, prefixLength)
      else if Nat.eqb index keyLength then (true, None, prefixLength)
      else if negb (bool_decide (ValueType value = TypeMin)) && negb (bool_decide (ValueType value = TypeMax)) then
        bound_loop row (S index) keyLength (S prefixLength)
      else (false, Some (ValueType value), prefixLength)
  end.

Definition GetBoundPrefixAndInclusiveness (row : TUnversionedRow) (isUpper : bool) (keyLength : nat) : Result (nat * bool) :=
  Verify (IsSet row);;
  let '(isLongRow, leftmostSentinelType, prefixLength) := bound_loop (Elements row) 0 keyLength 0 in
  let toggleInclusiveness := isLongRow || bool_decide (leftmostSentinelType = Some TypeMax) in
  let isInclusive := (isUpper && toggleInclusiveness) || (negb isUpper && negb toggleInclusiveness) in
  Ok (prefixLength, isInclusive).

Definition KeyBoundFromLegacyRow (row : TUnversionedRow) (isUpper : bool) (keyLength : nat) : Result TKeyBound :=
  match row with
  | None => MakeUniversal isUpper
  | Some values =>
      '(prefixLength, isInclusive) ← GetBoundPrefixAndInclusiveness row isUpper keyLength;
      Verify (Nat.leb prefixLength (length values));;
      FromRow (Some (take prefixLength values)) isInclusive isUpper
  end.

Definition KeyBoundToLegacyRow (keyBound : TKeyBound) : TUnversionedRow :=
  match Prefix keyBound with
  | None => None
  | Some prefix =>
      let shouldAddMax := (IsUpper keyBound && IsInclusive keyBound) || (negb (IsUpper keyBound) && negb (IsInclusive keyBound)) in
      Some (prefix ++ (if shouldAddMax then [ValueMax] else []))
  end.

(** The version over a row buffer; the owning one leaves out the first test. *)
Definition ShortenKeyBound (keyBound : TKeyBound) (length : nat) : Result TKeyBound :=
  if negb (IsSet (Prefix keyBound)) then Ok NullKeyBound
  else if Nat.leb (GetCount (Prefix keyBound)) length then Ok keyBound
  else FromRowUnchecked (Some (take length (Elements (Prefix keyBound)))) true (IsUpper keyBound).

(** [operator==]: prefixes are compared as rows. *)
Definition KeyBoundEqual (compareRows : TUnversionedRow → TUnversionedRow → Result Z) (lhs rhs : TKeyBound) : Result bool :=
  result ← compareRows (Prefix lhs) (Prefix rhs);
  Ok ((result =? 0) && Bool.eqb (IsInclusive lhs) (IsInclusive rhs) && Bool.eqb (IsUpper lhs) (IsUpper rhs)).
