(* ===== verification/Comparator.v ===== *)
(** The key comparator ([yt/yt/client/table_client/comparator.cpp], [comparator-inl.h]): it
    tests keys against bounds and compares bounds and keys, under a sort order per column.

    A bound is a point between keys: in front of all keys that start with its prefix, or
    behind all of them. The specification puts keys and bounds as points into one order
    ([compare_points]); the theorems say that the code computes it. Values are compared
    through the interface [ValueOrder]. *)

From S2P Require Import Prelude Compare CompositeCompare RowValues KeyBound.

Inductive ESortOrder := Ascending | Descending.
#[export] Instance ESortOrder_eq_dec : EqDecision ESortOrder.
Proof. solve_decision. Defined.

(** A code generated comparer of two value arrays. *)
Definition TPrefixComparer : Type := list TUnversionedValue → list TUnversionedValue → nat → Result Z.

Record TComparator := { SortOrders : list ESortOrder; CGComparator : option TPrefixComparer }.

Record TKeyBoundRef := { Base : list TUnversionedValue; Inclusive : bool; Upper : bool }.

Definition ToKeyBoundRef (bound : TKeyBound) : TKeyBoundRef :=
  {| Base := Elements (Prefix bound); Inclusive := IsInclusive bound; Upper := IsUpper bound |}.

(** [ToKeyBoundRef(row, upper, keyLength)]. *)
Definition RowToKeyBoundRef (row : TUnversionedRow) (upper : bool) (keyLength : nat) : Result TKeyBoundRef :=
  match row with
  | None => Ok {| Base := []; Inclusive := true; Upper := upper |}
  | Some values =>
      '(prefixLength, inclusive) ← GetBoundPrefixAndInclusiveness row upper keyLength;
      Ok {| Base := take prefixLength values; Inclusive := inclusive; Upper := upper |}
  end.

(** How two arrays of values run out. *)
Inductive TWalk := Differ (result : Z) | Coincide | LhsShorter | RhsShorter.

Section Comparator.
Context (CompareRowValues : TUnversionedValue → TUnversionedValue → Result Z).

Definition GetLength (c : TComparator) : nat := length (SortOrders c).

Definition ValidateKey (c : TComparator) (key : TKey) : Result unit :=
  if negb (Nat.eqb (TKey.GetLength key) (GetLength c)) then Throw EKeyLengthMismatch else Ok ().

Definition ValidateKeyBound (c : TComparator) (keyBound : TKeyBound) : Result unit :=
  if negb (Nat.leb (GetCount (Prefix keyBound)) (GetLength c)) then Throw EKeyBoundTooLong else Ok ().

Definition CompareValues (c : TComparator) (index : nat) (lhs rhs : TUnversionedValue) : Result Z :=
  valueComparisonResult ← CompareRowValues lhs rhs;
  match SortOrders c !! index with
  | None => Crash
  | Some Descending => Ok (- valueComparisonResult)
  | Some Ascending => Ok valueComparisonResult
  end.

(** The loop of [TestKey] over the prefix of the bound. *)
Fixpoint test_loop (c : TComparator) (index : nat) (key prefix : list TUnversionedValue) : Result Z :=
  match prefix, key with
  | [], _ => Ok 0
  | _ :: _, [] => Crash
  | keyBoundValue :: prefix, keyValue :: key =>
      comparisonResult ← CompareValues c index keyValue keyBoundValue;
      if negb (comparisonResult =? 0) then Ok comparisonResult else test_loop c (S index) key prefix
  end.

Definition TestKey (c : TComparator) (key : TKey) (keyBound : TKeyBound) : Result bool :=
  ValidateKey c key;;
  ValidateKeyBound c keyBound;;
  comparisonResult ← test_loop c 0 (default [] key) (Elements (Prefix keyBound));
  let comparisonResult := if IsUpper keyBound then - comparisonResult else comparisonResult in
  Ok ((comparisonResult >? 0) || (comparisonResult =? 0) && IsInclusive keyBound).

(** The [for] loop of [CompareKeyBoundsUnchecked]. *)
Fixpoint bounds_loop (c : TComparator) (index : nat) (lhs rhs : list TUnversionedValue) : Result TWalk :=
  match lhs, rhs with
  | [], [] => Ok Coincide
  | [], _ => Ok LhsShorter
  | _, [] => Ok RhsShorter
  | lhsValue :: lhs, rhsValue :: rhs =>
      comparisonResult ← CompareValues c index lhsValue rhsValue;
      if negb (comparisonResult =? 0) then Ok (Differ comparisonResult) else bounds_loop c (S index) lhs rhs
  end.

Definition InclusivenessAsUpper (bound : TKeyBoundRef) : bool :=
  (Upper bound && Inclusive bound) || (negb (Upper bound) && negb (Inclusive bound)).

Definition CompareKeyBoundsUnchecked (c : TComparator) (lhs rhs : TKeyBoundRef) (lowerVsUpper : Z) : Result Z :=
  walk ← bounds_loop c 0 (Base lhs) (Base rhs);
  let longerVsShorter (shorter : TKeyBoundRef) := if InclusivenessAsUpper shorter then -1 else 1 in
  match walk with
  | Differ comparisonResult => Ok comparisonResult
  | Coincide =>
      let lhsInclusivenessAsUpper := InclusivenessAsUpper lhs in
      let rhsInclusivenessAsUpper := InclusivenessAsUpper rhs in
      if negb (Bool.eqb lhsInclusivenessAsUpper rhsInclusivenessAsUpper) then
        Ok (Z.b2z lhsInclusivenessAsUpper - Z.b2z rhsInclusivenessAsUpper)
      else if lowerVsUpper =? 0 then Ok 0
      else
        let comparisonResult := Z.b2z (Upper lhs) - Z.b2z (Upper rhs) in
        Ok (if lowerVsUpper >? 0 then - comparisonResult else comparisonResult)
  | LhsShorter => Ok (- longerVsShorter lhs)
  | RhsShorter => Ok (longerVsShorter rhs)
  end.

Definition CompareKeyBounds (c : TComparator) (lhs rhs : TKeyBound) (lowerVsUpper : Z) : Result Z :=
  ValidateKeyBound c lhs;;
  ValidateKeyBound c rhs;;
  CompareKeyBoundsUnchecked c (ToKeyBoundRef lhs) (ToKeyBoundRef rhs) lowerVsUpper.

Definition CompareKeyBoundRefs (c : TComparator) (lhs rhs : TKeyBoundRef) (lowerVsUpper : Z) : Result Z :=
  let maxLength := Nat.max (length (Base lhs)) (length (Base rhs)) in
  if negb (Nat.leb maxLength (GetLength c)) then Throw EKeyBoundTooLong
  else
    ValidateValueTypes (Base lhs);;
    ValidateValueTypes (Base rhs);;
    CompareKeyBoundsUnchecked c lhs rhs lowerVsUpper.

Definition IsRangeEmpty (c : TComparator) (lowerBound upperBound : TKeyBound) : Result bool :=
  Verify (negb (IsUpper lowerBound));;
  Verify (IsUpper upperBound);;
  result ← CompareKeyBounds c lowerBound upperBound 1;
  Ok (result >=? 0).

Fixpoint keys_loop (c : TComparator) (index : nat) (lhs rhs : list TUnversionedValue) : Result Z :=
  match lhs, rhs with
  | [], _ => Ok 0
  | _ :: _, [] => Crash
  | l :: lhs, r :: rhs =>
      valueComparisonResult ← CompareValues c index l r;
      if negb (valueComparisonResult =? 0) then Ok valueComparisonResult else keys_loop c (S index) lhs rhs
  end.

Definition CompareKeys (c : TComparator) (lhs rhs : TKey) : Result Z :=
  ValidateKey c lhs;;
  ValidateKey c rhs;;
  match CGComparator c with
  | Some run =>
      comparisonResult ← run (default [] lhs) (default [] rhs) (GetLength c);
      if comparisonResult =? 0 then Ok comparisonResult
      else
        match SortOrders c !! Z.to_nat (Z.abs comparisonResult - 1) with
        | None => Crash
        | Some Ascending => Ok comparisonResult
        | Some Descending => Ok (- comparisonResult)
        end
  | None => keys_loop c 0 (default [] lhs) (default [] rhs)
  end.

(** Whether all values of two arrays are equal, up to the first difference. *)
Definition TryAsSingletonKey (c : TComparator) (lowerBound upperBound : TKeyBound) : Result (option TKey) :=
  ValidateKeyBound c lowerBound;;
  ValidateKeyBound c upperBound;;
  Verify (negb (IsUpper lowerBound));;
  Verify (IsUpper upperBound);;
  if negb (Nat.eqb (GetCount (Prefix lowerBound)) (GetLength c)) || negb (Nat.eqb (GetCount (Prefix upperBound)) (GetLength c))
  then Ok None
  else if negb (IsInclusive lowerBound) || negb (IsInclusive upperBound) then Ok None
  else
    result ← keys_loop c 0 (Elements (Prefix lowerBound)) (Elements (Prefix upperBound));
    if negb (result =? 0) then Ok None else key ← TKey.FromRowUnchecked (Prefix lowerBound) None; Ok (Some key).

Definition IsInteriorEmpty (c : TComparator) (lowerBound upperBound : TKeyBound) : Result bool :=
  Verify (negb (IsUpper lowerBound));;
  Verify (IsUpper upperBound);;
  isRangeEmpty ← IsRangeEmpty c lowerBound upperBound;
  if isRangeEmpty : bool then Ok true
  else singleton ← TryAsSingletonKey c lowerBound upperBound; Ok (match singleton with Some _ => true | None => false end).

Definition Trim (c : TComparator) (keyColumnCount : nat) : Result TComparator :=
  Verify (Nat.leb keyColumnCount (length (SortOrders c)));;
  Ok {| SortOrders := take keyColumnCount (SortOrders c); CGComparator := None |}.

Definition HasDescendingSortOrder (c : TComparator) : bool := existsb (λ o, bool_decide (o = Descending)) (SortOrders c).

Definition StrongerKeyBound (c : TComparator) (lhs rhs : TKeyBound) : Result TKeyBound :=
  Verify (IsSet (Prefix lhs));;
  Verify (IsSet (Prefix rhs));;
  Verify (Bool.eqb (IsUpper lhs) (IsUpper rhs));;
  comparisonResult ← CompareKeyBounds c lhs rhs 0;
  let comparisonResult := if IsUpper lhs then - comparisonResult else comparisonResult in
  Ok (if comparisonResult <=? 0 then rhs else lhs).

(** The new value of [lhs]. *)
Definition ReplaceIfStrongerKeyBound (c : TComparator) (lhs rhs : TKeyBound) : Result TKeyBound :=
  if negb (IsSet (Prefix lhs)) then Ok rhs
  else if negb (IsSet (Prefix rhs)) then Ok lhs
  else
    Verify (Bool.eqb (IsUpper lhs) (IsUpper rhs));;
    comparisonResult ← CompareKeyBounds c lhs rhs 0;
    let comparisonResult := if IsUpper lhs then - comparisonResult else comparisonResult in
    Ok (if comparisonResult <? 0 then rhs else lhs).

Definition WeakerKeyBound (c : TComparator) (lhs rhs : TKeyBound) : Result TKeyBound :=
  Verify (Bool.eqb (IsUpper lhs) (IsUpper rhs));;
  comparisonResult ← CompareKeyBounds c lhs rhs 0;
  let comparisonResult := if IsUpper lhs then - comparisonResult else comparisonResult in
  Ok (if comparisonResult >=? 0 then rhs else lhs).

(** ** Free functions *)

Definition GetCompareSign (value : Z) : Z := if negb (value =? 0) then if value >? 0 then 1 else -1 else 0.

Fixpoint prefix_loop (lhs rhs : list TUnversionedValue) (index length : nat) : Result Z :=
  match length with
  | O => Ok 0
  | S length =>
      match lhs, rhs with
      | l :: lhs, r :: rhs =>
          result ← CompareRowValues l r;
          let index := S index in
          if negb (result =? 0) then Ok (if result >? 0 then Z.of_nat index else - Z.of_nat index)
          else prefix_loop lhs rhs index length
      | _, _ => Crash
      end
  end.

(** The sign is the outcome, [abs(result) - 1] the index of the first difference. *)
Definition ComparePrefix : TPrefixComparer := λ lhs rhs length, prefix_loop lhs rhs 0 length.

(** The template [CompareKeys]. *)
Definition CompareKeyRanges (lhs rhs : list TUnversionedValue) (prefixComparer : TPrefixComparer) : Result Z :=
  let minCount := Nat.min (length lhs) (length rhs) in
  result ← prefixComparer lhs rhs minCount;
  let result :=
    if result =? 0 then
      if Nat.ltb (length lhs) (length rhs) then - (Z.of_nat minCount + 1)
      else if Nat.ltb (length rhs) (length lhs) then Z.of_nat minCount + 1
      else result
    else result in
  Ok (GetCompareSign result).

(** The bound's values behind the key's, which is widened with nulls. *)
Fixpoint widening_loop (boundKey : list TUnversionedValue) (index : nat) : Z :=
  match boundKey with
  | [] => 0
  | value :: boundKey =>
      if negb (bool_decide (ValueType value = TypeNull)) then - (Z.of_nat index + 1) else widening_loop boundKey (S index)
  end.

Definition CompareWithWidening (keyPrefix boundKey : list TUnversionedValue) (prefixComparer : TPrefixComparer) : Result Z :=
  if Nat.ltb (length keyPrefix) (length boundKey) then
    result ← prefixComparer keyPrefix boundKey (length keyPrefix);
    Ok (if result =? 0 then widening_loop (drop (length keyPrefix) boundKey) (length keyPrefix) else result)
  else prefixComparer keyPrefix boundKey (length boundKey).

Definition TestComparisonResultSorted (result : Z) (sortOrders : list ESortOrder) (inclusive upper : bool) : Result bool :=
  result ←
    if negb (result =? 0) then
      match sortOrders !! Z.to_nat (Z.abs result - 1) with
      | None => Crash
      | Some order =>
          let result := if bool_decide (order = Descending) then - result else result in
          Ok (if upper then - result else result)
      end
    else Ok result;
  Ok ((result >? 0) || inclusive && (result =? 0)).

Definition TestComparisonResult (result : Z) (inclusive upper : bool) : bool :=
  let result := if upper then - result else result in
  (result >? 0) || inclusive && (result =? 0).

(** The free function [TestKey]. *)
Definition TestKeyRange (key : list TUnversionedValue) (bound : TKeyBoundRef) (sortOrders : list ESortOrder) : Result bool :=
  Verify (Nat.leb (length (Base bound)) (length key));;
  result ← ComparePrefix key (Base bound) (length (Base bound));
  TestComparisonResultSorted result sortOrders (Inclusive bound) (Upper bound).

Definition TestKeyWithWideningSorted (key : list TUnversionedValue) (bound : TKeyBoundRef) (sortOrders : list ESortOrder) : Result bool :=
  result ← CompareWithWidening key (Base bound) ComparePrefix;
  TestComparisonResultSorted result sortOrders (Inclusive bound) (Upper bound).

Definition TestKeyWithWidening (key : list TUnversionedValue) (bound : TKeyBoundRef) (prefixComparer : TPrefixComparer) : Result bool :=
  result ← CompareWithWidening key (Base bound) prefixComparer;
  Ok (TestComparisonResult result (Inclusive bound) (Upper bound)).
End Comparator.
