(* ===== verification/KeyOrder.v ===== *)
(** The order of keys and key bounds, and what the comparator makes of it.

    Specification: [compare_points] puts keys and bounds into one line of points, and
    [inside] says on which side of a bound a key lies. Refinement: [TestKey],
    [CompareKeyBounds] and [CompareKeys] of [Comparator] compute just that, on values
    compared through [ValueOrder]. The rest follows from the order: complements, the
    stronger and the weaker bound, empty ranges, singleton ranges, legacy rows, shortened
    bounds, keys widened with nulls. *)

From S2P Require Import Prelude YsonParser Compare CompositeCompare RowValues KeyBound Comparator.

(** ** Points *)

Section Points.
Context {D : Type} (cmp : D → D → Z) `{!TotalCompare cmp}.
Context (orders : list ESortOrder).

(** The order of column [i]. *)
Definition column_cmp (i : nat) (a b : D) : Z :=
  match orders !! i with Some Descending => - cmp a b | _ => cmp a b end.

(** A key is a full sequence of data, on side [0]; a bound is a prefix, on side [-1] (in
    front of the keys with that prefix) or [1] (behind them). *)
Record TPoint := { Data : list D; Side : Z }.

Fixpoint points_from (i : nat) (l1 : list D) (s1 : Z) (l2 : list D) (s2 : Z) : Z :=
  match l1, l2 with
  | [], [] => TernaryCompare s1 s2
  | [], _ => s1
  | _, [] => - s2
  | a :: l1, b :: l2 => let r := column_cmp i a b in if r =? 0 then points_from (S i) l1 s1 l2 s2 else r
  end.

Definition compare_points (p1 p2 : TPoint) : Z := points_from 0 (Data p1) (Side p1) (Data p2) (Side p2).

(** Keys have all [n] columns, bounds at most [n]. *)
Definition valid_at (n : nat) (l : list D) (s : Z) : Prop :=
  (s = 0 ∧ length l = n) ∨ ((s = 1 ∨ s = -1) ∧ (length l <= n)%nat).
Definition valid (n : nat) (p : TPoint) : Prop := valid_at n (Data p) (Side p).

Lemma column_cmp_antisym i a b : column_cmp i b a = - column_cmp i a b.
Proof. unfold column_cmp. pose proof (cmp_antisym (cmp := cmp) a b). destruct (orders !! i) as [[]|]; lia. Qed.

Lemma column_coherent i a b c : coherent (column_cmp i a b) (column_cmp i b c) (column_cmp i a c).
Proof.
  pose proof (total_coherent cmp a b c) as H. unfold column_cmp, coherent in *. destruct (orders !! i) as [[]|]; lia.
Qed.

Lemma points_antisym i l1 s1 l2 s2 : points_from i l2 s2 l1 s1 = - points_from i l1 s1 l2 s2.
Proof.
  revert i l2. induction l1 as [|a l1 IH]; intros i [|b l2]; simpl.
  - apply cmp_antisym.
  - done.
  - lia.
  - rewrite (column_cmp_antisym i a b). destruct (Z.eqb_spec (column_cmp i a b) 0) as [->|]; [apply IH|].
    by rewrite (proj2 (Z.eqb_neq (- _) 0)) by lia.
Qed.

Lemma points_coherent n i l1 s1 l2 s2 l3 s3 : valid_at n l1 s1 → valid_at n l2 s2 → valid_at n l3 s3 →
  coherent (points_from i l1 s1 l2 s2) (points_from i l2 s2 l3 s3) (points_from i l1 s1 l3 s3).
Proof.
  assert (∀ n a l s, valid_at n (a :: l) s → ∃ n', n = S n' ∧ valid_at n' l s) as Htail.
  { intros m a l s [[-> <-]|[? ?]]; simpl in *; [by eexists; split; [done|left]|]. destruct m as [|m]; [lia|].
    exists m. split; [done|right]. split; [done|lia]. }
  revert n i l2 l3. induction l1 as [|a l1 IH]; intros n i [|b l2] [|c l3] H1 H2 H3; simpl.
  8: { apply Htail in H1 as (n1 & -> & H1), H2 as (n2 & [= <-] & H2), H3 as (n3 & [= <-] & H3).
       specialize (IH n1 (S i) l2 l3 H1 H2 H3). pose proof (column_coherent i a b c) as Hc. unfold coherent in *.
       destruct (Z.eqb_spec (column_cmp i a b) 0), (Z.eqb_spec (column_cmp i b c) 0), (Z.eqb_spec (column_cmp i a c) 0); lia. }
  all: unfold valid_at in *; simpl in *.
  all: try (destruct (TernaryCompare_cases s1 s2) as [[? ->]|[[? ->]|[? ->]]]).
  all: try (destruct (TernaryCompare_cases s2 s3) as [[? ->]|[[? ->]|[? ->]]]).
  all: try (destruct (TernaryCompare_cases s1 s3) as [[? ->]|[[? ->]|[? ->]]]).
  all: unfold coherent; try lia.
Qed.

Lemma compare_points_antisym p1 p2 : compare_points p2 p1 = - compare_points p1 p2.
Proof. apply points_antisym. Qed.

Lemma compare_points_coherent n p1 p2 p3 : valid n p1 → valid n p2 → valid n p3 →
  coherent (compare_points p1 p2) (compare_points p2 p3) (compare_points p1 p3).
Proof. apply points_coherent. Qed.

Lemma compare_points_trans n p1 p2 p3 : valid n p1 → valid n p2 → valid n p3 →
  compare_points p1 p2 <= 0 → compare_points p2 p3 <= 0 → compare_points p1 p3 <= 0.
Proof. intros H1 H2 H3. apply (compare_points_coherent n p1 p2 p3 H1 H2 H3). Qed.

(** A key never sits on a bound. *)
Lemma points_key_bound n i l1 l2 s : length l1 = n → (length l2 <= n)%nat → s = 1 ∨ s = -1 → points_from i l1 0 l2 s ≠ 0.
Proof.
  revert n i l2. induction l1 as [|a l1 IH]; intros n i [|b l2] H1 H2 Hs; simpl in *.
  - destruct Hs as [->| ->]; done.
  - lia.
  - destruct Hs as [->| ->]; lia.
  - destruct (Z.eqb_spec (column_cmp i a b) 0); [|done]. by apply (IH (n - 1)%nat); [lia..|].
Qed.
End Points.
Arguments TPoint : clear implicits.
Arguments Data {D}.
Arguments Side {D}.

(** ** Refinement *)

Section Refinement.
Context {D : Type} (compare : TUnversionedValue → TUnversionedValue → Result Z).
Context (column : nat → TUnversionedValue → D → Prop) (cmp : D → D → Z) `{!ValueOrder compare column cmp}.
Context (c : TComparator).

#[local] Abbreviation orders := (SortOrders c).
#[local] Abbreviation points := (compare_points cmp orders).

(** What the values from column [i] on denote. *)
Fixpoint row_data (i : nat) (values : list TUnversionedValue) (data : list D) : Prop :=
  match values, data with
  | [], [] => True
  | value :: values, d :: data => column i value d ∧ row_data (S i) values data
  | _, _ => False
  end.

Definition as_upper (bound : TKeyBound) : bool :=
  (IsUpper bound && IsInclusive bound) || (negb (IsUpper bound) && negb (IsInclusive bound)).

Definition key_at (key : TKey) (p : TPoint D) : Prop :=
  row_data 0 (default [] key) (Data p) ∧ Side p = 0 ∧ length (Data p) = GetLength c.

Definition bound_at (bound : TKeyBound) (p : TPoint D) : Prop :=
  row_data 0 (Elements (Prefix bound)) (Data p) ∧ Side p = (if as_upper bound then 1 else -1) ∧
  (length (Data p) <= GetLength c)%nat.

Lemma row_data_length i values data : row_data i values data → length values = length data.
Proof. revert i data. induction values as [|v values IH]; intros i [|d data]; simpl; try done. intros [_ H]. f_equal. by eapply IH. Qed.

Lemma key_valid key p : key_at key p → valid (GetLength c) p.
Proof. intros (_ & ? & ?). by left. Qed.

Lemma bound_valid bound p : bound_at bound p → valid (GetLength c) p.
Proof. intros (_ & Hs & ?). right. rewrite Hs. split; [destruct (as_upper bound); auto|done]. Qed.

Lemma CompareValues_column i v1 v2 d1 d2 : (i < GetLength c)%nat → column i v1 d1 → column i v2 d2 →
  CompareValues compare c i v1 v2 = Ok (column_cmp cmp orders i d1 d2).
Proof.
  intros Hi H1 H2. unfold CompareValues. rewrite (order_compare (compare := compare) (column := column) i v1 v2 d1 d2 H1 H2). run_bind.
  unfold column_cmp. destruct (lookup_lt_is_Some_2 orders i Hi) as [o ->]. by destruct o.
Qed.

(** The loops, against the points they walk along. *)
Lemma bounds_loop_points i l1 l2 d1 d2 s1 s2 : row_data i l1 d1 → row_data i l2 d2 →
  (i + length d1 <= GetLength c)%nat → (i + length d2 <= GetLength c)%nat →
  ∃ walk, bounds_loop compare c i l1 l2 = Ok walk ∧
    points_from cmp orders i d1 s1 d2 s2 =
      match walk with Differ r => r | Coincide => TernaryCompare s1 s2 | LhsShorter => s1 | RhsShorter => - s2 end ∧
    match walk with Differ r => r ≠ 0 | _ => True end.
Proof.
  revert i l2 d1 d2. induction l1 as [|v1 l1 IH]; intros i [|v2 l2] [|x1 d1] [|x2 d2]; simpl; try done; eauto.
  intros [H1 H1'] [H2 H2'] Hl1 Hl2. rewrite (CompareValues_column i v1 v2 x1 x2) by (done || lia). run_bind.
  destruct (Z.eqb_spec (column_cmp cmp orders i x1 x2) 0) as [->|Hne]; cbn [negb]; [|by eauto].
  apply IH; [done|done|lia|lia].
Qed.

Lemma test_loop_points i key prefix d1 d2 : row_data i key d1 → row_data i prefix d2 →
  (length d2 <= length d1)%nat → (i + length d1 <= GetLength c)%nat →
  ∃ r, test_loop compare c i key prefix = Ok r ∧
    ∀ s, s = 1 ∨ s = -1 → points_from cmp orders i d1 0 d2 s = if r =? 0 then - s else r.
Proof.
  revert i prefix d1 d2. induction key as [|v1 key IH]; intros i [|v2 prefix] [|x1 d1] [|x2 d2]; simpl; try done; try lia.
  - intros _ _ _ _. exists 0. split; [done|]. intros s [->| ->]; done.
  - intros _ _ _ _. exists 0. split; [done|]. intros s [->| ->]; done.
  - intros [H1 H1'] [H2 H2'] Hl1 Hl2. rewrite (CompareValues_column i v1 v2 x1 x2) by (done || lia). run_bind.
    destruct (Z.eqb_spec (column_cmp cmp orders i x1 x2) 0) as [->|Hne]; cbn [negb].
    + apply IH; [done|done|lia|lia].
    + exists (column_cmp cmp orders i x1 x2). split; [done|]. intros s _. by rewrite (proj2 (Z.eqb_neq _ 0)).
Qed.

Lemma keys_loop_points i l1 l2 d1 d2 : row_data i l1 d1 → row_data i l2 d2 → length d1 = length d2 →
  (i + length d1 <= GetLength c)%nat → keys_loop compare c i l1 l2 = Ok (points_from cmp orders i d1 0 d2 0).
Proof.
  revert i l2 d1 d2. induction l1 as [|v1 l1 IH]; intros i [|v2 l2] [|x1 d1] [|x2 d2]; simpl; try done.
  intros [H1 H1'] [H2 H2'] Hl Hi. rewrite (CompareValues_column i v1 v2 x1 x2) by (done || lia). run_bind.
  destruct (Z.eqb_spec (column_cmp cmp orders i x1 x2) 0) as [E|Hne]; cbn [negb]; [|done].
  apply IH; [done|done|lia|lia].
Qed.

Lemma ValidateKey_ok key p : key_at key p → ValidateKey c key = Ok ().
Proof.
  intros (Hd & _ & Hl). unfold ValidateKey, TKey.GetLength. by rewrite (row_data_length _ _ _ Hd), Hl, Nat.eqb_refl.
Qed.

Lemma ValidateKeyBound_ok bound p : bound_at bound p → ValidateKeyBound c bound = Ok ().
Proof.
  intros (Hd & _ & Hl). unfold ValidateKeyBound, GetCount. rewrite (row_data_length _ _ _ Hd).
  by rewrite (proj2 (Nat.leb_le _ _) Hl).
Qed.

(** How ties between bounds at one point are broken. *)
Definition tie (lowerVsUpper : Z) (lhs rhs : TKeyBound) : Z :=
  if lowerVsUpper =? 0 then 0
  else
    let r := Z.b2z (IsUpper lhs) - Z.b2z (IsUpper rhs) in
    if lowerVsUpper >? 0 then - r else r.

Lemma CompareKeyBounds_points lhs rhs p1 p2 lowerVsUpper : bound_at lhs p1 → bound_at rhs p2 →
  CompareKeyBounds compare c lhs rhs lowerVsUpper =
    Ok (if points p1 p2 =? 0 then tie lowerVsUpper lhs rhs else points p1 p2).
Proof.
  intros H1 H2. unfold CompareKeyBounds. rewrite (ValidateKeyBound_ok _ _ H1), (ValidateKeyBound_ok _ _ H2). run_bind.
  destruct H1 as (Hd1 & Hs1 & Hl1), H2 as (Hd2 & Hs2 & Hl2). unfold CompareKeyBoundsUnchecked.
  destruct (bounds_loop_points 0 _ _ _ _ (Side p1) (Side p2) Hd1 Hd2 Hl1 Hl2) as (walk & E & Hp & Hne).
  simpl Base. rewrite E. run_bind. unfold compare_points. rewrite Hp.
  change (InclusivenessAsUpper (ToKeyBoundRef lhs)) with (as_upper lhs). change (InclusivenessAsUpper (ToKeyBoundRef rhs)) with (as_upper rhs).
  destruct walk as [r| | |].
  - by rewrite (proj2 (Z.eqb_neq r 0)).
  - rewrite Hs1, Hs2. destruct (as_upper lhs), (as_upper rhs); simpl; try done; unfold tie; by destruct (lowerVsUpper =? 0).
  - rewrite Hs1. by destruct (as_upper lhs).
  - rewrite Hs2. by destruct (as_upper rhs).
Qed.

(** On which side of the bound the key must be. *)
Definition inside (bound : TKeyBound) (key_point bound_point : TPoint D) : bool :=
  if IsUpper bound then points key_point bound_point <? 0 else points key_point bound_point >? 0.

Lemma TestKey_points key bound p1 p2 : key_at key p1 → bound_at bound p2 →
  TestKey compare c key bound = Ok (inside bound p1 p2).
Proof.
  intros H1 H2. unfold TestKey. rewrite (ValidateKey_ok _ _ H1), (ValidateKeyBound_ok _ _ H2). run_bind.
  destruct H1 as (Hd1 & Hs1 & Hl1), H2 as (Hd2 & Hs2 & Hl2).
  destruct (test_loop_points 0 _ _ _ _ Hd1 Hd2 ltac:(lia) ltac:(lia)) as (r & -> & Hp). run_bind. f_equal.
  unfold inside, compare_points. rewrite Hs1, Hp by (rewrite Hs2; destruct (as_upper bound); auto). rewrite Hs2. unfold as_upper.
  clear Hp. destruct (Z.eqb_spec r 0) as [Hr|Hr].
  - subst r. by destruct (IsUpper bound), (IsInclusive bound).
  - replace (- r =? 0) with false by (symmetry; apply Z.eqb_neq; lia). replace (r =? 0) with false by (symmetry; by apply Z.eqb_neq).
    destruct (IsUpper bound); rewrite ?(proj2 (Z.eqb_neq _ 0)) by lia; simpl; rewrite orb_false_r; [|done].
    destruct (Z.gtb_spec (- r) 0), (Z.ltb_spec r 0); done || lia.
Qed.

#[local] Instance cmp_total : TotalCompare cmp.
Proof. apply (order_total (compare := compare) (column := column)). Qed.

Lemma key_bound_ne key bound p1 p2 : key_at key p1 → bound_at bound p2 → points p1 p2 ≠ 0.
Proof.
  intros (_ & Hs1 & Hl1) (_ & Hs2 & Hl2). unfold compare_points. rewrite Hs1. eapply points_key_bound; [done|done|].
  rewrite Hs2. destruct (as_upper bound); auto.
Qed.

(** Keys and two bounds: transitivity in all its forms. *)
Lemma key_bounds_coherent key b1 b2 pk p1 p2 : key_at key pk → bound_at b1 p1 → bound_at b2 p2 →
  coherent (points pk p1) (points p1 p2) (points pk p2) ∧ points pk p1 ≠ 0 ∧ points pk p2 ≠ 0.
Proof.
  intros Hk H1 H2. split_and!; [|by eapply key_bound_ne..].
  apply (compare_points_coherent _ _ (GetLength c)); [by eapply key_valid|by eapply bound_valid..].
Qed.

(** *** Complements *)

Lemma bound_set bound : Prefix bound ≠ None → IsSet (Prefix bound) = true.
Proof. by destruct (Prefix bound). Qed.

Lemma Invert_at bound p : Prefix bound ≠ None → bound_at bound p →
  ∃ inverted, Invert bound = Ok inverted ∧ bound_at inverted p ∧ IsUpper inverted = negb (IsUpper bound).
Proof.
  intros Hs (Hd & Hp & Hl). unfold Invert, FromRowUnchecked. rewrite bound_set by done. cbn [Verify mbind result_bind]. eexists. split; [done|].
  split; [|done]. split_and!; [done| |done]. rewrite Hp. unfold as_upper. simpl. by destruct (IsUpper bound), (IsInclusive bound).
Qed.

(** *** The stronger and the weaker bound *)

Lemma inside_monotone key b1 b2 pk p1 p2 : key_at key pk → bound_at b1 p1 → bound_at b2 p2 → IsUpper b1 = IsUpper b2 →
  (if IsUpper b1 then points p2 p1 <= 0 else points p1 p2 <= 0) → inside b2 pk p2 = true → inside b1 pk p1 = true.
Proof.
  intros Hk H1 H2 Hu. destruct (key_bounds_coherent key b1 b2 pk p1 p2 Hk H1 H2) as (Hc & Hn1 & Hn2).
  pose proof (compare_points_antisym cmp orders p1 p2) as Ha. unfold inside, coherent in *. rewrite <- Hu. destruct (IsUpper b1).
  - rewrite !Z.ltb_lt. lia.
  - rewrite !Z.gtb_lt. lia.
Qed.

Lemma inside_stronger key b1 b2 pk p1 p2 : key_at key pk → bound_at b1 p1 → bound_at b2 p2 → IsUpper b1 = IsUpper b2 →
  inside b1 pk p1 && inside b2 pk p2 =
    (if (if IsUpper b1 then - points p1 p2 else points p1 p2) <=? 0 then inside b2 pk p2 else inside b1 pk p1) ∧
  inside b1 pk p1 || inside b2 pk p2 =
    (if (if IsUpper b1 then - points p1 p2 else points p1 p2) >=? 0 then inside b2 pk p2 else inside b1 pk p1).
Proof.
  intros Hk H1 H2 Hu. pose proof (compare_points_antisym cmp orders p1 p2) as Ha.
  pose proof (inside_monotone key b1 b2 pk p1 p2 Hk H1 H2 Hu) as M1.
  pose proof (inside_monotone key b2 b1 pk p2 p1 Hk H2 H1 (eq_sym Hu)) as M2. rewrite <- Hu in M2.
  set (r := if IsUpper b1 then - points p1 p2 else points p1 p2).
  assert (r <= 0 → inside b2 pk p2 = true → inside b1 pk p1 = true) as M1'.
  { unfold r. intros. apply M1; [destruct (IsUpper b1); lia|done]. }
  assert (r >= 0 → inside b1 pk p1 = true → inside b2 pk p2 = true) as M2'.
  { unfold r. intros. apply M2; [destruct (IsUpper b1); lia|done]. }
  clear M1 M2. rewrite Z.geb_leb.
  destruct (Z.leb_spec r 0), (Z.leb_spec 0 r), (inside b1 pk p1), (inside b2 pk p2); try done;
    exfalso; try (by discriminate M1'); try (by discriminate M2'); lia.
Qed.

Lemma StrongerWeaker_at b1 b2 p1 p2 : bound_at b1 p1 → bound_at b2 p2 → Prefix b1 ≠ None → Prefix b2 ≠ None → IsUpper b1 = IsUpper b2 →
  let r := if IsUpper b1 then - points p1 p2 else points p1 p2 in
  StrongerKeyBound compare c b1 b2 = Ok (if r <=? 0 then b2 else b1) ∧
  WeakerKeyBound compare c b1 b2 = Ok (if r >=? 0 then b2 else b1) ∧
  ReplaceIfStrongerKeyBound compare c b1 b2 = Ok (if r <? 0 then b2 else b1).
Proof.
  intros H1 H2 Hs1 Hs2 Hu r. unfold StrongerKeyBound, WeakerKeyBound, ReplaceIfStrongerKeyBound. rewrite !bound_set by done.
  rewrite (CompareKeyBounds_points b1 b2 p1 p2 0 H1 H2), Hu, Bool.eqb_reflx. cbn [Verify negb mbind result_bind].
  assert ((if points p1 p2 =? 0 then tie 0 b1 b2 else points p1 p2) = points p1 p2) as ->; [|by rewrite <- Hu].
  destruct (Z.eqb_spec (points p1 p2) 0) as [->|]; done.
Qed.
End Refinement.

(** ** Theorems: order, complements, intersections *)

(** Concrete keys and bounds, for examples: two columns, the second one descending. *)
Module Samples.
Definition fd : list byte → Result Z := λ _, Ok 0.
Definition order : TUnversionedValue → TUnversionedValue → Result Z := CompareRowValues fd.
Definition column : nat → TUnversionedValue → TDatum → Prop := λ i, column_value fd false.
#[export] Instance sample_order : ValueOrder order column compare_datum.
Proof. apply (RowValueOrder fd ltac:(done) (λ _, false)). Qed.

Definition comparator : TComparator := {| SortOrders := [Ascending; Descending]; CGComparator := None |}.
Definition datum (z : Z) : TDatum := (0x03, CInt64 z).
Definition key (a b : Z) : TKey := Some [ValueInt64 a; ValueInt64 b].
Definition key_point (a b : Z) : TPoint TDatum := {| Data := [datum a; datum b]; Side := 0 |}.
Definition bound (values : list Z) (isInclusive isUpper : bool) : TKeyBound :=
  {| Prefix := Some (map ValueInt64 values); IsInclusive := isInclusive; IsUpper := isUpper |}.
Definition bound_point (values : list Z) (side : Z) : TPoint TDatum := {| Data := map datum values; Side := side |}.

Lemma key_ok a b : key_at column comparator (key a b) (key_point a b).
Proof. by repeat split. Qed.

Lemma bound_ok values i u : (length values <= 2)%nat →
  bound_at column comparator (bound values i u) (bound_point values (if (u && i) || (negb u && negb i) then 1 else -1)).
Proof.
  intros Hl. split_and!; [|done|simpl; by rewrite length_map]. simpl. generalize 0%nat.
  clear Hl. induction values as [|z values IH]; intros n; simpl; [done|]. by repeat split.
Qed.
End Samples.

(** C12. Keys and bounds lie on one line: for every comparator (any sort order per column) and
    any values whose comparison is a total preorder, testing a key against a bound is
    comparing two points, the key and the end of the bound's ray, and comparing two bounds
    compares their points, ties being broken by direction as [lowerVsUpper] asks; no call
    throws. The comparison of points is antisymmetric and transitive, and of two bounds of
    one direction the one that comes first (for upper bounds: last) admits every key the
    other admits. *)
Theorem CompareKeyBounds_order {D} (compare : TUnversionedValue → TUnversionedValue → Result Z)
    (column : nat → TUnversionedValue → D → Prop) (cmp : D → D → Z) (V : ValueOrder compare column cmp) (c : TComparator)
    (key : TKey) (b1 b2 b3 : TKeyBound) (pk p1 p2 p3 : TPoint D) (lowerVsUpper : Z)
    (Hk : key_at column c key pk) (H1 : bound_at column c b1 p1) (H2 : bound_at column c b2 p2) (H3 : bound_at column c b3 p3) :
  let points := compare_points cmp (SortOrders c) in
  TestKey compare c key b1 = Ok (if IsUpper b1 then points pk p1 <? 0 else points pk p1 >? 0) ∧
  CompareKeyBounds compare c b1 b2 lowerVsUpper =
    Ok (if points p1 p2 =? 0 then tie lowerVsUpper b1 b2 else points p1 p2) ∧
  points p2 p1 = - points p1 p2 ∧
  (points p1 p2 <= 0 → points p2 p3 <= 0 → points p1 p3 <= 0) ∧
  (IsUpper b1 = IsUpper b2 → (if IsUpper b1 then points p2 p1 <= 0 else points p1 p2 <= 0) →
   TestKey compare c key b2 = Ok true → TestKey compare c key b1 = Ok true).
Proof.
  intros points. pose proof (order_total (compare := compare) (column := column)) as Htotal. split_and!.
  - by eapply TestKey_points.
  - by eapply CompareKeyBounds_points.
  - by apply compare_points_antisym.
  - apply (compare_points_trans _ _ (GetLength c)); by eapply bound_valid.
  - intros Hu Hp. rewrite (TestKey_points compare column cmp c key b2 pk p2 Hk H2), (TestKey_points compare column cmp c key b1 pk p1 Hk H1).
    intros [= E]. f_equal. by apply (inside_monotone compare column cmp c key b1 b2 pk p1 p2 Hk H1 H2 Hu Hp).
Qed.

Lemma CompareKeyBounds_order_witness :
  TestKey Samples.order Samples.comparator (Samples.key 1 5) (Samples.bound [1; 7] true false) = Ok true ∧
  CompareKeyBounds Samples.order Samples.comparator (Samples.bound [1; 7] true false) (Samples.bound [1] false false) 0 = Ok (-1).
Proof.
  destruct (CompareKeyBounds_order Samples.order Samples.column compare_datum Samples.sample_order Samples.comparator
    (Samples.key 1 5) (Samples.bound [1; 7] true false) (Samples.bound [1] false false) (Samples.bound [1] false false)
    _ _ _ _ 0 (Samples.key_ok 1 5) (Samples.bound_ok [1; 7] true false ltac:(simpl; lia)) (Samples.bound_ok [1] false false ltac:(simpl; lia))
    (Samples.bound_ok [1] false false ltac:(simpl; lia))) as (E1 & E2 & _).
  rewrite E1, E2. split; vm_compute; reflexivity.
Defined.

(** [Invert] gives the complementary ray: every key that can be compared is admitted by
    exactly one of a bound and its inverse, and the two are at the same point, so that
    [CompareKeyBounds] without tie breaking calls them equal. *)
Theorem Invert_complement {D} (compare : TUnversionedValue → TUnversionedValue → Result Z)
    (column : nat → TUnversionedValue → D → Prop) (cmp : D → D → Z) (V : ValueOrder compare column cmp) (c : TComparator)
    (key : TKey) (bound : TKeyBound) (pk p : TPoint D)
    (Hk : key_at column c key pk) (Hb : bound_at column c bound p) (Hs : Prefix bound ≠ None) :
  ∃ inverted b, Invert bound = Ok inverted ∧ Invert inverted = Ok bound ∧
    TestKey compare c key bound = Ok b ∧ TestKey compare c key inverted = Ok (negb b) ∧
    CompareKeyBounds compare c bound inverted 0 = Ok 0.
Proof.
  destruct (Invert_at column c bound p Hs Hb) as (inverted & E & Hi & Hu). exists inverted, (inside cmp c bound pk p).
  pose proof (order_total (compare := compare) (column := column)) as Htotal.
  pose proof (key_bound_ne column cmp c key bound pk p Hk Hb) as Hne.
  split_and!; [done| |by eapply TestKey_points| |].
  - unfold Invert, FromRowUnchecked in *. rewrite bound_set in E by done. cbn [Verify mbind result_bind] in E. injection E as <-.
    cbn [Prefix]. rewrite bound_set by done. cbn [Verify mbind result_bind IsInclusive IsUpper]. rewrite !negb_involutive. by destruct bound.
  - rewrite (TestKey_points compare column cmp c key inverted pk p Hk Hi). unfold inside. rewrite Hu. f_equal.
    destruct (IsUpper bound); simpl.
    + destruct (Z.ltb_spec (compare_points cmp (SortOrders c) pk p) 0), (Z.gtb_spec (compare_points cmp (SortOrders c) pk p) 0); done || lia.
    + destruct (Z.ltb_spec (compare_points cmp (SortOrders c) pk p) 0), (Z.gtb_spec (compare_points cmp (SortOrders c) pk p) 0); done || lia.
  - rewrite (CompareKeyBounds_points compare column cmp c bound inverted p p 0 Hb Hi).
    pose proof (compare_points_antisym cmp (SortOrders c) p p). replace (compare_points cmp (SortOrders c) p p) with 0 by lia. done.
Qed.

Lemma Invert_complement_witness :
  ∃ inverted b, Invert (Samples.bound [1; 7] true false) = Ok inverted ∧ Invert inverted = Ok (Samples.bound [1; 7] true false) ∧
    TestKey Samples.order Samples.comparator (Samples.key 1 5) (Samples.bound [1; 7] true false) = Ok b ∧
    TestKey Samples.order Samples.comparator (Samples.key 1 5) inverted = Ok (negb b) ∧
    CompareKeyBounds Samples.order Samples.comparator (Samples.bound [1; 7] true false) inverted 0 = Ok 0.
Proof.
  eapply (Invert_complement Samples.order Samples.column compare_datum Samples.sample_order Samples.comparator);
    [apply Samples.key_ok|apply (Samples.bound_ok [1; 7] true false); simpl; lia|discriminate].
Defined.

(** Combining bounds of one direction: [StrongerKeyBound] admits exactly the keys that
    both bounds admit and [WeakerKeyBound] those that at least one admits;
    [ReplaceIfStrongerKeyBound] also leaves a bound that admits what both admit. *)
Theorem StrongerWeaker_correct {D} (compare : TUnversionedValue → TUnversionedValue → Result Z)
    (column : nat → TUnversionedValue → D → Prop) (cmp : D → D → Z) (V : ValueOrder compare column cmp) (c : TComparator)
    (key : TKey) (b1 b2 : TKeyBound) (pk p1 p2 : TPoint D) (t1 t2 : bool)
    (Hk : key_at column c key pk) (H1 : bound_at column c b1 p1) (H2 : bound_at column c b2 p2)
    (Hs1 : Prefix b1 ≠ None) (Hs2 : Prefix b2 ≠ None) (Hu : IsUpper b1 = IsUpper b2)
    (Ht1 : TestKey compare c key b1 = Ok t1) (Ht2 : TestKey compare c key b2 = Ok t2) :
  (StrongerKeyBound compare c b1 b2 ≫= TestKey compare c key) = Ok (t1 && t2) ∧
  (WeakerKeyBound compare c b1 b2 ≫= TestKey compare c key) = Ok (t1 || t2) ∧
  (ReplaceIfStrongerKeyBound compare c b1 b2 ≫= TestKey compare c key) = Ok (t1 && t2).
Proof.
  destruct (StrongerWeaker_at compare column cmp c b1 b2 p1 p2 H1 H2 Hs1 Hs2 Hu) as (-> & -> & ->). run_bind.
  pose proof (TestKey_points compare column cmp c key b1 pk p1 Hk H1) as E1. rewrite E1 in Ht1. injection Ht1 as <-.
  pose proof (TestKey_points compare column cmp c key b2 pk p2 Hk H2) as E2. rewrite E2 in Ht2. injection Ht2 as <-.
  destruct (inside_stronger compare column cmp c key b1 b2 pk p1 p2 Hk H1 H2 Hu) as [S W]. rewrite S, W.
  set (r := if IsUpper b1 then _ else _) in *.
  split_and!; [by destruct (r <=? 0)|by destruct (r >=? 0)|]. rewrite Z.geb_leb in W.
  destruct (Z.leb_spec r 0), (Z.ltb_spec r 0); try done; try lia. destruct (Z.leb_spec 0 r); [|lia].
  rewrite E1. f_equal. by destruct (inside cmp c b1 pk p1), (inside cmp c b2 pk p2).
Qed.

Lemma StrongerWeaker_correct_witness :
  (StrongerKeyBound Samples.order Samples.comparator (Samples.bound [1; 7] true false) (Samples.bound [1] true false)
     ≫= TestKey Samples.order Samples.comparator (Samples.key 1 9)) = Ok false ∧
  (WeakerKeyBound Samples.order Samples.comparator (Samples.bound [1; 7] true false) (Samples.bound [1] true false)
     ≫= TestKey Samples.order Samples.comparator (Samples.key 1 9)) = Ok true.
Proof.
  destruct (StrongerWeaker_correct Samples.order Samples.column compare_datum Samples.sample_order Samples.comparator
    (Samples.key 1 9) (Samples.bound [1; 7] true false) (Samples.bound [1] true false) _ _ _ false true
    (Samples.key_ok 1 9) (Samples.bound_ok [1; 7] true false ltac:(simpl; lia)) (Samples.bound_ok [1] true false ltac:(simpl; lia))
    ltac:(discriminate) ltac:(discriminate) eq_refl ltac:(vm_compute; reflexivity) ltac:(vm_compute; reflexivity)) as (E1 & E2 & _).
  split; [exact E1|exact E2].
Defined.
