(* ===== verification/KeyRanges.v ===== *)
(** Ranges of keys: empty and singleton ranges, shortened bounds, code generated key
    comparison. Everything here is proved from the order of points of [KeyOrder]. *)

From S2P Require Import Prelude Compare CompositeCompare RowValues KeyBound Comparator KeyOrder.

Section Ranges.
Context {D : Type} (compare : TUnversionedValue → TUnversionedValue → Result Z).
Context (column : nat → TUnversionedValue → D → Prop) (cmp : D → D → Z) `{V : !ValueOrder compare column cmp}.
Context (c : TComparator).

#[local] Abbreviation orders := (SortOrders c).
#[local] Abbreviation points := (compare_points cmp orders).

#[local] Instance ranges_total : TotalCompare cmp.
Proof. apply (order_total (compare := compare) (column := column)). Qed.

(** *** Empty ranges *)

Lemma IsRangeEmpty_points lower upper pl pu : bound_at column c lower pl → bound_at column c upper pu →
  IsUpper lower = false → IsUpper upper = true → IsRangeEmpty compare c lower upper = Ok (points pl pu >=? 0).
Proof.
  intros Hl Hu El Eu. unfold IsRangeEmpty. rewrite El, Eu. cbn [negb Verify mbind result_bind].
  rewrite (CompareKeyBounds_points compare column cmp c lower upper pl pu 1 Hl Hu). run_bind.
  destruct (Z.eqb_spec (points pl pu) 0) as [->|]; [|done]. unfold tie. by rewrite El, Eu.
Qed.

Lemma both_inside key lower upper pk pl pu : key_at column c key pk → bound_at column c lower pl → bound_at column c upper pu →
  IsUpper lower = false → IsUpper upper = true → TestKey compare c key lower = Ok true → TestKey compare c key upper = Ok true →
  points pk pl > 0 ∧ points pk pu < 0 ∧ points pl pu < 0.
Proof.
  intros Hk Hl Hu El Eu. rewrite (TestKey_points compare column cmp c key lower pk pl Hk Hl), (TestKey_points compare column cmp c key upper pk pu Hk Hu).
  unfold inside. rewrite El, Eu. intros [= H1%Z.gtb_lt] [= H2%Z.ltb_lt].
  destruct (key_bounds_coherent compare column cmp c key lower upper pk pl pu Hk Hl Hu) as [Hc _]. unfold coherent in Hc. lia.
Qed.

(** *** Singletons *)

Lemma keys_loop_at p1 p2 l1 l2 : row_data column 0 l1 (Data p1) → row_data column 0 l2 (Data p2) →
  length (Data p1) = GetLength c → length (Data p2) = GetLength c →
  keys_loop compare c 0 l1 l2 = Ok (points {| Data := Data p1; Side := 0 |} {| Data := Data p2; Side := 0 |}).
Proof. intros H1 H2 L1 L2. unfold compare_points. simpl. apply (keys_loop_points compare column cmp c); [done|done|lia|lia]. Qed.

Lemma CompareKeys_points lhs rhs p1 p2 : key_at column c lhs p1 → key_at column c rhs p2 → CGComparator c = None →
  CompareKeys compare c lhs rhs = Ok (points p1 p2).
Proof.
  intros H1 H2 Hcg. unfold CompareKeys. rewrite (ValidateKey_ok column c _ _ H1), (ValidateKey_ok column c _ _ H2), Hcg. run_bind.
  destruct H1 as (D1 & S1 & L1), H2 as (D2 & S2 & L2). rewrite (keys_loop_at p1 p2) by done. destruct p1, p2; simpl in *; by subst.
Qed.

(** Moving a point to the side of a full key. *)
Lemma points_side l1 s1 l2 s2 i n : length l1 = n → length l2 = n → s1 ≠ s2 → s1 = 0 ∨ s2 = 0 →
  points_from cmp orders i l1 s1 l2 s2 =
    let r := points_from cmp orders i l1 0 l2 0 in if r =? 0 then TernaryCompare s1 s2 else r.
Proof.
  revert i n l2. induction l1 as [|a l1 IH]; intros i n [|b l2] <- H2 Hs H0; simpl in *; try lia.
  destruct (Z.eqb_spec (column_cmp cmp orders i a b) 0) as [E|E]; [by apply (IH (S i) (length l1)); [|lia|..]|]. by rewrite (proj2 (Z.eqb_neq _ 0)).
Qed.

Lemma singleton_inside key bound pk p (s := Side p) : key_at column c key pk → bound_at column c bound p →
  length (Data p) = GetLength c → IsInclusive bound = true →
  let r := points_from cmp orders 0 (Data pk) 0 (Data p) 0 in
  TestKey compare c key bound = Ok (if IsUpper bound then r <=? 0 else r >=? 0).
Proof.
  intros Hk Hb Hl Hi r. rewrite (TestKey_points compare column cmp c key bound pk p Hk Hb). f_equal. unfold inside, compare_points.
  destruct Hk as (_ & Sk & Lk), Hb as (_ & Sb & _). rewrite Sk, Sb. unfold as_upper. rewrite Hi.
  rewrite (points_side _ 0 _ _ 0 (GetLength c)); [|done|done|by destruct (IsUpper bound)|by left]. fold r. cbv zeta.
  rewrite Z.geb_leb. destruct (IsUpper bound); simpl; destruct (Z.eqb_spec r 0) as [->|]; try done.
  - destruct (Z.ltb_spec r 0), (Z.leb_spec r 0); done || lia.
  - destruct (Z.gtb_spec r 0), (Z.leb_spec 0 r); done || lia.
Qed.

Lemma TryAsSingletonKey_points lower upper pl pu : bound_at column c lower pl → bound_at column c upper pu →
  IsUpper lower = false → IsUpper upper = true → Prefix lower ≠ None →
  ∃ result, TryAsSingletonKey compare c lower upper = Ok result ∧
    match result with
    | None => True
    | Some key => key = Prefix lower ∧ length (Data pl) = GetLength c ∧ length (Data pu) = GetLength c ∧
        IsInclusive lower = true ∧ IsInclusive upper = true ∧ points_from cmp orders 0 (Data pl) 0 (Data pu) 0 = 0
    end.
Proof.
  intros Hl Hu El Eu Hs. unfold TryAsSingletonKey. rewrite (ValidateKeyBound_ok column c _ _ Hl), (ValidateKeyBound_ok column c _ _ Hu), El, Eu.
  cbn [negb Verify mbind result_bind]. destruct Hl as (Dl & _ & Ll), Hu as (Du & _ & Lu).
  pose proof (row_data_length column _ _ _ Dl) as Nl. pose proof (row_data_length column _ _ _ Du) as Nu.
  unfold GetCount. rewrite Nl, Nu. destruct (Nat.eqb_spec (length (Data pl)) (GetLength c)) as [E1|]; [|by eexists].
  destruct (Nat.eqb_spec (length (Data pu)) (GetLength c)) as [E2|]; [|by eexists]. cbn [negb orb].
  destruct (IsInclusive lower); [|by eexists]. destruct (IsInclusive upper); [|by eexists]. cbn [negb orb].
  rewrite (keys_loop_at pl pu) by done. run_bind. unfold compare_points. simpl.
  destruct (Z.eqb_spec (points_from cmp orders 0 (Data pl) 0 (Data pu) 0) 0) as [E|]; [|by eexists]. cbn [negb].
  unfold TKey.FromRowUnchecked. destruct (Prefix lower) as [values|]; [|done]. simpl.
  rewrite Nat.leb_refl. cbn [Verify mbind result_bind]. rewrite firstn_all. by eexists.
Qed.

(** *** Shortened bounds *)

Lemma shorten_below i n l s : (n < length l)%nat →
  points_from cmp orders i (take n l) (-1) l s <= 0 ∧ points_from cmp orders i l s (take n l) 1 <= 0.
Proof.
  revert i n. induction l as [|a l IH]; intros i [|n] Hn; simpl in *; try lia.
  assert (column_cmp cmp orders i a a = 0) as -> by (pose proof (column_cmp_antisym cmp orders i a a); lia). simpl. apply IH. lia.
Qed.

Lemma shorten_tightest i n l s q t : (n < length l)%nat → (length q <= n)%nat → t = 1 ∨ t = -1 →
  (points_from cmp orders i q t l s <= 0 → points_from cmp orders i q t (take n l) (-1) <= 0) ∧
  (points_from cmp orders i l s q t <= 0 → points_from cmp orders i (take n l) 1 q t <= 0).
Proof.
  revert i n q. induction l as [|a l IH]; intros i [|n] [|b q] Hn Hq Ht; simpl in *; try lia.
  - destruct (TernaryCompare_cases t (-1)) as [[? ->]|[[? ->]|[? ->]]], (TernaryCompare_cases 1 t) as [[? ->]|[[? ->]|[? ->]]]; lia.
  - pose proof (column_cmp_antisym cmp orders i a b). destruct (IH (S i) n q ltac:(lia) ltac:(lia) Ht) as [H1 H2].
    destruct (Z.eqb_spec (column_cmp cmp orders i b a) 0), (Z.eqb_spec (column_cmp cmp orders i a b) 0); try lia; done.
Qed.

Lemma row_data_take i n values data : row_data column i values data → row_data column i (take n values) (take n data).
Proof. revert i n data. induction values as [|v values IH]; intros i [|n] [|d data]; simpl; try done. intros [? ?]. split; [done|by apply IH]. Qed.

Lemma ShortenKeyBound_at bound p n : bound_at column c bound p → Prefix bound ≠ None →
  ∃ short ps, ShortenKeyBound bound n = Ok short ∧ bound_at column c short ps ∧ IsUpper short = IsUpper bound ∧ Prefix short ≠ None ∧
    (if Nat.leb (length (Data p)) n then short = bound ∧ ps = p
     else ps = {| Data := take n (Data p); Side := if IsUpper bound then 1 else -1 |}).
Proof.
  intros (Hd & Hs & Hl) Hset. unfold ShortenKeyBound, FromRowUnchecked, GetCount. rewrite bound_set by done. cbn [negb].
  rewrite (row_data_length column _ _ _ Hd). destruct (Nat.leb_spec (length (Data p)) n).
  - by exists bound, p.
  - cbn [IsSet Verify mbind result_bind]. eexists _, _. split; [done|]. split_and!; [|done|done|reflexivity].
    split_and!; [by apply row_data_take|by destruct (IsUpper bound)|]. simpl. rewrite length_take. lia.
Qed.
End Ranges.

(** ** Theorems *)

(** [IsRangeEmpty] is sound: it compares the two ends, and when it says that a range is
    empty, no key that can be compared is admitted by both bounds. *)
Theorem IsRangeEmpty_sound {D} (compare : TUnversionedValue → TUnversionedValue → Result Z)
    (column : nat → TUnversionedValue → D → Prop) (cmp : D → D → Z) (V : ValueOrder compare column cmp) (c : TComparator)
    (key : TKey) (lower upper : TKeyBound) (pk pl pu : TPoint D)
    (Hk : key_at column c key pk) (Hl : bound_at column c lower pl) (Hu : bound_at column c upper pu)
    (El : IsUpper lower = false) (Eu : IsUpper upper = true) :
  ∃ empty, IsRangeEmpty compare c lower upper = Ok empty ∧
    empty = (compare_points cmp (SortOrders c) pl pu >=? 0) ∧
    (empty = true → ¬ (TestKey compare c key lower = Ok true ∧ TestKey compare c key upper = Ok true)).
Proof.
  eexists. split; [by eapply IsRangeEmpty_points|]. split; [done|]. intros He [T1 T2].
  destruct (both_inside compare column cmp c key lower upper pk pl pu Hk Hl Hu El Eu T1 T2) as (_ & _ & H).
  rewrite Z.geb_leb in He. apply Z.leb_le in He. lia.
Qed.

Lemma IsRangeEmpty_sound_witness :
  IsRangeEmpty Samples.order Samples.comparator (Samples.bound [1; 5] false false) (Samples.bound [1; 5] true true) = Ok true ∧
  ¬ (TestKey Samples.order Samples.comparator (Samples.key 1 5) (Samples.bound [1; 5] false false) = Ok true ∧
     TestKey Samples.order Samples.comparator (Samples.key 1 5) (Samples.bound [1; 5] true true) = Ok true).
Proof.
  destruct (IsRangeEmpty_sound Samples.order Samples.column compare_datum Samples.sample_order Samples.comparator
    (Samples.key 1 5) (Samples.bound [1; 5] false false) (Samples.bound [1; 5] true true) _ _ _
    (Samples.key_ok 1 5) (Samples.bound_ok [1; 5] false false ltac:(simpl; lia)) (Samples.bound_ok [1; 5] true true ltac:(simpl; lia))
    eq_refl eq_refl) as (empty & E & He & H).
  assert (empty = true) as -> by (rewrite He; vm_compute; reflexivity). split; [exact E|apply H; reflexivity].
Defined.

(** [TryAsSingletonKey] finds the key of a one-key range: when it returns a key, that key
    is admitted by both bounds, and every key admitted by both is equal to it for the
    comparator. *)
Theorem TryAsSingletonKey_correct {D} (compare : TUnversionedValue → TUnversionedValue → Result Z)
    (column : nat → TUnversionedValue → D → Prop) (cmp : D → D → Z) (V : ValueOrder compare column cmp) (c : TComparator)
    (key singleton : TKey) (lower upper : TKeyBound) (pk pl pu : TPoint D)
    (Hcg : CGComparator c = None) (Hk : key_at column c key pk) (Hl : bound_at column c lower pl) (Hu : bound_at column c upper pu)
    (El : IsUpper lower = false) (Eu : IsUpper upper = true) (Hset : Prefix lower ≠ None)
    (Hsingle : TryAsSingletonKey compare c lower upper = Ok (Some singleton)) :
  TestKey compare c singleton lower = Ok true ∧ TestKey compare c singleton upper = Ok true ∧
  (TestKey compare c key lower = Ok true → TestKey compare c key upper = Ok true → CompareKeys compare c key singleton = Ok 0).
Proof.
  pose proof (order_total (compare := compare) (column := column)) as Htotal.
  destruct (TryAsSingletonKey_points compare column cmp c lower upper pl pu Hl Hu El Eu Hset) as (result & E & H).
  rewrite Hsingle in E. injection E as <-. destruct H as (-> & Ll & Lu & Il & Iu & E0).
  assert (key_at column c (Prefix lower) {| Data := Data pl; Side := 0 |}) as Hs by (split_and!; [apply Hl|done|done]).
  pose proof (points_antisym cmp (SortOrders c) 0 (Data pl) 0 (Data pl) 0) as Ha.
  rewrite (singleton_inside compare column cmp c (Prefix lower) lower _ pl Hs Hl Ll Il), El.
  rewrite (singleton_inside compare column cmp c (Prefix lower) upper _ pu Hs Hu Lu Iu), Eu. cbn [Data]. rewrite E0.
  split_and!; [f_equal; apply Z.geb_le; lia|done|]. rewrite (singleton_inside compare column cmp c key lower pk pl Hk Hl Ll Il), El.
  rewrite (singleton_inside compare column cmp c key upper pk pu Hk Hu Lu Iu), Eu. intros [= H1%Z.geb_le] [= H2%Z.leb_le].
  rewrite (CompareKeys_points compare column cmp c key (Prefix lower) pk _ Hk Hs Hcg). f_equal. unfold compare_points. cbn [Data Side].
  assert (∀ p, key_at column c key p → valid_at (GetLength c) (Data p) 0) as Hv by (intros p (_ & _ & ?); by left).
  pose proof (points_coherent cmp (SortOrders c) (GetLength c) 0 (Data pk) 0 (Data pl) 0 (Data pu) 0
    (Hv pk Hk) ltac:(by left) ltac:(by left)) as Hc. destruct Hk as (_ & -> & _). unfold coherent in Hc. lia.
Qed.

Lemma TryAsSingletonKey_correct_witness :
  TryAsSingletonKey Samples.order Samples.comparator (Samples.bound [1; 5] true false) (Samples.bound [1; 5] true true) = Ok (Some (Samples.key 1 5)) ∧
  TestKey Samples.order Samples.comparator (Samples.key 1 5) (Samples.bound [1; 5] true false) = Ok true.
Proof.
  assert (TryAsSingletonKey Samples.order Samples.comparator (Samples.bound [1; 5] true false) (Samples.bound [1; 5] true true) =
    Ok (Some (Samples.key 1 5))) as E by (vm_compute; reflexivity). split; [exact E|].
  apply (TryAsSingletonKey_correct Samples.order Samples.column compare_datum Samples.sample_order Samples.comparator
    (Samples.key 1 5) _ (Samples.bound [1; 5] true false) (Samples.bound [1; 5] true true) _ _ _ eq_refl
    (Samples.key_ok 1 5) (Samples.bound_ok [1; 5] true false ltac:(simpl; lia)) (Samples.bound_ok [1; 5] true true ltac:(simpl; lia))
    eq_refl eq_refl ltac:(discriminate) E).
Defined.

(** [ShortenKeyBound] widens as little as possible: the shortened bound has at most
    [n] values (or is the bound itself), it admits every key the bound admits, and every
    bound of the same direction with at most [n] values that is weaker than the original
    is also weaker than (or at the point of) the shortened one. *)
Theorem ShortenKeyBound_tightest {D} (compare : TUnversionedValue → TUnversionedValue → Result Z)
    (column : nat → TUnversionedValue → D → Prop) (cmp : D → D → Z) (V : ValueOrder compare column cmp) (c : TComparator)
    (key : TKey) (bound other : TKeyBound) (pk p po : TPoint D) (n : nat)
    (Hk : key_at column c key pk) (Hb : bound_at column c bound p) (Hset : Prefix bound ≠ None)
    (Ho : bound_at column c other po) (Hlen : (length (Data po) <= n)%nat) :
  ∃ short ps, ShortenKeyBound bound n = Ok short ∧ bound_at column c short ps ∧ IsUpper short = IsUpper bound ∧
    (length (Data ps) <= n)%nat ∧
    (TestKey compare c key bound = Ok true → TestKey compare c key short = Ok true) ∧
    (let points := compare_points cmp (SortOrders c) in
     if IsUpper bound then points p po <= 0 → points ps po <= 0 else points po p <= 0 → points po ps <= 0).
Proof.
  pose proof (order_total (compare := compare) (column := column)) as Htotal.
  destruct (ShortenKeyBound_at column c bound p n Hb Hset) as (short & ps & E & Hat & Hu & Hset' & Hps).
  exists short, ps. split_and!; [done|done|done|..]; destruct (Nat.leb_spec (length (Data p)) n) as [Hle|Hgt].
  - destruct Hps as [-> ->]. done.
  - subst ps. simpl. rewrite length_take. lia.
  - by destruct Hps as [-> ->].
  - rewrite (TestKey_points compare column cmp c key bound pk p Hk Hb), (TestKey_points compare column cmp c key short pk ps Hk Hat).
    intros [= H]. f_equal. apply (inside_monotone compare column cmp c key short bound pk ps p Hk Hat Hb Hu); [|done].
    rewrite Hu. subst ps. destruct (shorten_below compare column cmp c 0 n (Data p) (Side p) Hgt). by destruct (IsUpper bound).
  - destruct Hps as [-> ->]. by destruct (IsUpper bound).
  - subst ps. destruct (shorten_tightest compare column cmp c 0 n (Data p) (Side p) (Data po) (Side po) Hgt Hlen) as [H1 H2].
    + destruct Ho as (_ & -> & _). destruct (as_upper other); auto.
    + unfold compare_points. cbn [Data Side]. destruct (IsUpper bound); [exact H2|exact H1].
Qed.

Lemma ShortenKeyBound_tightest_witness :
  ∃ short ps, ShortenKeyBound (Samples.bound [1; 5] false true) 1 = Ok short ∧ bound_at Samples.column Samples.comparator short ps ∧
    short = Samples.bound [1] true true ∧
    (TestKey Samples.order Samples.comparator (Samples.key 1 7) (Samples.bound [1; 5] false true) = Ok true →
     TestKey Samples.order Samples.comparator (Samples.key 1 7) short = Ok true).
Proof.
  destruct (ShortenKeyBound_tightest Samples.order Samples.column compare_datum Samples.sample_order Samples.comparator
    (Samples.key 1 7) (Samples.bound [1; 5] false true) (Samples.bound [2] true true) _ _ _ 1
    (Samples.key_ok 1 7) (Samples.bound_ok [1; 5] false true ltac:(simpl; lia)) ltac:(discriminate)
    (Samples.bound_ok [2] true true ltac:(simpl; lia)) ltac:(simpl; lia)) as (short & ps & E & Hat & _ & _ & Ht & _).
  exists short, ps. split; [exact E|]. split; [exact Hat|]. split; [|exact Ht]. vm_compute in E. injection E as <-. reflexivity.
Defined.
