(* ===== verification/LegacyRows.v ===== *)
(** Legacy rows as bounds, and keys shorter than a bound.

    Before key bounds, limits were rows: a lower limit admits the keys that are not less
    than the row, an upper limit those that are less, under [CompareRows]; sentinels [Min]
    and [Max] stand for the ends of a column. [KeyBoundFromLegacyRow] turns such a row into
    a bound; the theorem says that it admits the same keys. Widening completes a short key
    with nulls. Values are those of [CompareRowValues]; the specification is again the
    order of points of [KeyOrder]. *)

From S2P Require Import Prelude YsonParser Compare CompositeCompare RowValues KeyBound Comparator KeyOrder KeyRanges.

(** Values a key or a bound may hold. *)
Definition is_data (value : TUnversionedValue) : Prop := is_ok (ValidateDataValueType (ValueType value)) = true.
#[export] Instance is_data_dec value : Decision (is_data value).
Proof. unfold is_data. apply _. Defined.

Lemma ValidateValueTypes_data values : Forall is_data values → ValidateValueTypes values = Ok ().
Proof. induction 1 as [|v values Hv _ IH]; simpl; [done|]. unfold is_data in Hv. by destruct v. Qed.

Lemma data_not_sentinel value : is_data value → IsSentinel (ValueType value) = false.
Proof. by destruct value. Qed.

Lemma bool_decide_sentinel value :
  negb (bool_decide (ValueType value = TypeMin)) && negb (bool_decide (ValueType value = TypeMax)) = negb (IsSentinel (ValueType value)).
Proof. by destruct value. Qed.

Section Legacy.
Context (fd : list byte → Result Z) (Hfd : total_conversion fd) (composite : nat → bool).
Context (c : TComparator).

#[local] Abbreviation compare := (CompareRowValues fd).
#[local] Abbreviation column := (λ i, column_value fd (composite i)).
#[local] Abbreviation points_at := (points_from compare_datum (SortOrders c)).

#[local] Instance legacy_order : ValueOrder compare column compare_datum.
Proof. by apply RowValueOrder. Qed.

(** What may stand in column [i] of a row: data of the column, or a sentinel. *)
Fixpoint legal_row (i : nat) (row : list TUnversionedValue) : Prop :=
  match row with
  | [] => True
  | value :: row => (∃ d, column i value d) ∧ (is_data value ∨ value = ValueMin ∨ value = ValueMax) ∧ legal_row (S i) row
  end.

Lemma column_cmp_ascending i a b : HasDescendingSortOrder c = false → column_cmp compare_datum (SortOrders c) i a b = compare_datum a b.
Proof.
  unfold HasDescendingSortOrder, column_cmp. intros H. destruct (SortOrders c !! i) as [[]|] eqn:E; [done| |done].
  assert (existsb (λ o, bool_decide (o = Descending)) (SortOrders c) = true) as H'; [|congruence].
  apply existsb_exists. exists Descending. split; [|by apply bool_decide_eq_true_2]. apply list_elem_of_In. by eapply list_elem_of_lookup_2.
Qed.

Lemma compare_sentinel i value sentinel d : column i value d → is_data value → IsSentinel (ValueType sentinel) = true →
  compare value sentinel = Ok (if bool_decide (ValueType sentinel = TypeMax) then -1 else 1).
Proof.
  intros [_ Hc] Hd Hs. rewrite CompareRowValues_types.
  - unfold is_data in Hd. by destruct value, sentinel.
  - unfold is_data in Hd. by destruct value, sentinel.
  - exists (composite i). split; [done|]. destruct sentinel; try done; destruct (composite i); simpl; auto.
Qed.

Lemma CompareValueRanges_cons k r key row :
  CompareValueRanges fd (k :: key) (r :: row) =
    z ← compare k r; if negb (z =? 0) then Ok z else CompareValueRanges fd key row.
Proof.
  unfold CompareValueRanges. cbn [compare_ranges length]. destruct (compare k r) as [z| | |]; [|done..]. run_bind.
  destruct (Z.eqb_spec z 0) as [->|Hz]; cbn [negb].
  - destruct (compare_ranges fd key row); [|done..]. run_bind. destruct (negb _); [done|]. f_equal. lia.
  - run_bind. by rewrite (proj2 (Z.eqb_neq z 0)) by done.
Qed.

(** [GetBoundPrefixAndInclusiveness] on a row, walked along a key. *)
Lemma legacy_points n i key row dk p : HasDescendingSortOrder c = false → row_data column i key dk → Forall is_data key →
  (i + length key = n)%nat → legal_row i row →
  ∃ long sentinel len data z, bound_loop row i n p = (long, sentinel, (p + len)%nat) ∧
    row_data column i (take len row) data ∧ Forall is_data (take len row) ∧ (len <= length row)%nat ∧ (len <= length key)%nat ∧
    CompareValueRanges fd key row = Ok z ∧
    (z >=? 0) = (points_at i dk 0 data (if long || bool_decide (sentinel = Some TypeMax) then 1 else -1) >? 0).
Proof.
  intros Ha. revert i row dk p. induction key as [|k key IH]; intros i [|r row] dk p Hd Hk Hn Hr; destruct dk as [|x dk]; try done; simpl in *.
  - eexists false, None, 0%nat, [], 0. rewrite Nat.add_0_r. split_and!; [done|done|constructor|simpl; lia..|reflexivity|done].
  - rewrite (proj2 (Nat.leb_le i n)), (proj2 (Nat.eqb_eq i n)) by lia. simpl. eexists true, None, 0%nat, [], _. rewrite Nat.add_0_r.
    split_and!; [done|done|constructor|simpl; lia..|reflexivity|]. simpl. rewrite Z.geb_leb. apply Z.leb_gt. lia.
  - eexists false, None, 0%nat, [], _. rewrite Nat.add_0_r. split_and!; [done|done|constructor|simpl; lia..|reflexivity|]. simpl. rewrite Z.geb_leb. apply Z.leb_le. lia.
  - destruct Hd as [Hx Hd], Hr as [[d Hrd] [Hs Hr]]. rewrite (proj2 (Nat.leb_le i n)), (proj2 (Nat.eqb_neq i n)) by lia. cbn [negb].
    rewrite bool_decide_sentinel. pose proof (Forall_inv Hk) as Hkd. apply Forall_inv_tail in Hk.
    destruct Hs as [Hs|Hs].
    + rewrite (data_not_sentinel r Hs). cbn [negb].
      destruct (IH (S i) row dk (S p) Hd Hk ltac:(lia) Hr) as (long & sentinel & len & data & z & E & Hrow & Hall & Hl1 & Hl2 & Ez & Hz).
      eexists long, sentinel, (S len), (d :: data), _. rewrite E. simpl.
      split_and!; [by rewrite Nat.add_succ_r|done|done|by constructor|lia|lia| |].
      * rewrite CompareValueRanges_cons, (CompareRowValues_column fd (composite i) k r x d Hfd Hx Hrd). run_bind. rewrite Ez.
        instantiate (1 := if compare_datum x d =? 0 then z else compare_datum x d). by destruct (compare_datum x d =? 0).
      * rewrite column_cmp_ascending by done. destruct (Z.eqb_spec (compare_datum x d) 0); [exact Hz|].
        rewrite Z.geb_leb. destruct (Z.leb_spec 0 (compare_datum x d)), (Z.gtb_spec (compare_datum x d) 0); done || lia.
    + assert (IsSentinel (ValueType r) = true) as Hsr by (by destruct Hs as [->| ->]). rewrite Hsr. cbn [negb].
      eexists false, (Some (ValueType r)), 0%nat, [], _. rewrite Nat.add_0_r. split_and!; [done|done|constructor|simpl; lia..| |].
      * rewrite CompareValueRanges_cons, (compare_sentinel i k r x Hx Hkd Hsr). run_bind.
        instantiate (1 := if bool_decide (ValueType r = TypeMax) then -1 else 1). by destruct (bool_decide _).
      * simpl. by destruct Hs as [->| ->].
Qed.

(** The bound of a legacy row is at the point of the row. *)
Lemma KeyBoundFromLegacyRow_at key row pk isUpper : HasDescendingSortOrder c = false →
  key_at column c (Some key) pk → Forall is_data key → legal_row 0 row →
  ∃ bound p z, KeyBoundFromLegacyRow (Some row) isUpper (GetLength c) = Ok bound ∧ IsUpper bound = isUpper ∧
    bound_at column c bound p ∧ CompareValueRanges fd key row = Ok z ∧
    (z >=? 0) = (compare_points compare_datum (SortOrders c) pk p >? 0).
Proof.
  intros Ha Hk Hdata Hrow. destruct (Hk) as (Hd & Hs & Hl). simpl in Hd. pose proof (row_data_length column _ _ _ Hd) as Hlen.
  destruct (legacy_points (GetLength c) 0 key row (Data pk) 0 Ha Hd Hdata ltac:(lia) Hrow)
    as (long & sentinel & len & data & z & E & Hrd & Hall & Hl1 & Hl2 & Ez & Hz).
  unfold KeyBoundFromLegacyRow, GetBoundPrefixAndInclusiveness. cbn [IsSet Verify]. run_bind.
  change (Elements (Some row)) with row. rewrite E. run_bind. simpl plus. rewrite (proj2 (Nat.leb_le _ _) Hl1). cbn [Verify]. run_bind.
  unfold FromRow. cbn [IsSet Verify]. run_bind. change (Elements (Some ?l)) with l. rewrite ValidateValueTypes_data by done. run_bind.
  eexists _, {| Data := data; Side := if long || bool_decide (sentinel = Some TypeMax) then 1 else -1 |}, z.
  split; [done|]. split; [done|]. split_and!; [|done|].
  - pose proof (row_data_length column _ _ _ Hrd) as Hlr. rewrite length_take in Hlr.
    split_and!; [done| |simpl; lia]. unfold as_upper. simpl. by destruct isUpper, (long || bool_decide (sentinel = Some TypeMax)).
  - unfold compare_points. cbn [Data Side]. by rewrite Hs.
Qed.
End Legacy.

(** ** Theorems *)

(** [KeyBoundFromLegacyRow] keeps the meaning of a limit: for a comparator without
    descending columns, a key and a row whose columns hold data or the sentinels [Min] and
    [Max] (the row may be shorter or longer than the key), the key passes the bound made of
    the row as a lower limit exactly when [CompareRows] does not put the key before the
    row, and as an upper limit exactly when it does; the row that is no row at all becomes
    the bound that admits every key. Neither call throws. *)
Theorem KeyBoundFromLegacyRow_correct (fd : list byte → Result Z) (Hfd : total_conversion fd) (composite : nat → bool)
    (c : TComparator) (key row : list TUnversionedValue) (pk : TPoint TDatum) (isUpper : bool) (prefixLength : nat)
    (Hasc : HasDescendingSortOrder c = false)
    (Hkey : key_at (λ i, column_value fd (composite i)) c (Some key) pk) (Hdata : Forall is_data key)
    (Hrow : legal_row fd composite 0 row) (Hprefix : (length key <= prefixLength ∧ length row <= prefixLength)%nat) :
  (∃ bound z, KeyBoundFromLegacyRow (Some row) isUpper (GetLength c) = Ok bound ∧ IsUpper bound = isUpper ∧
    CompareRows fd (Some key) (Some row) prefixLength = Ok z ∧
    TestKey (CompareRowValues fd) c (Some key) bound = Ok (if isUpper then z <? 0 else z >=? 0)) ∧
  (∃ universal, KeyBoundFromLegacyRow None isUpper (GetLength c) = Ok universal ∧
    TestKey (CompareRowValues fd) c (Some key) universal = Ok true).
Proof.
  pose proof (RowValueOrder fd Hfd composite) as V. split.
  - destruct (KeyBoundFromLegacyRow_at fd Hfd composite c key row pk isUpper Hasc Hkey Hdata Hrow) as (bound & p & z & E & Hu & Hb & Ez & Hz).
    exists bound, z. split_and!; [done|done| |].
    + unfold CompareRows. rewrite !Nat.min_l, !firstn_all by lia. exact Ez.
    + rewrite (TestKey_points (CompareRowValues fd) _ compare_datum c (Some key) bound pk p Hkey Hb). f_equal. unfold inside. rewrite Hu.
      pose proof (key_bound_ne _ compare_datum c (Some key) bound pk p Hkey Hb). rewrite <- Hz. destruct isUpper; [|done].
      rewrite Z.geb_leb in Hz. set (r := compare_points compare_datum (SortOrders c) pk p) in *.
      destruct (Z.ltb_spec r 0), (Z.ltb_spec z 0), (Z.leb_spec 0 z), (Z.gtb_spec r 0); done || lia.
  - eexists. split; [reflexivity|].
    rewrite (TestKey_points (CompareRowValues fd) _ compare_datum c (Some key) _ pk {| Data := []; Side := if isUpper then 1 else -1 |} Hkey).
    + f_equal. destruct Hkey as (_ & Hs & _). unfold inside, compare_points. cbn [IsUpper Data Side]. rewrite Hs. by destruct isUpper, (Data pk).
    + split_and!; [done|by destruct isUpper|simpl; lia].
Qed.

Lemma KeyBoundFromLegacyRow_correct_witness :
  let c := {| SortOrders := [Ascending; Ascending]; CGComparator := None |} in
  let row := [ValueInt64 1; ValueMax; ValueInt64 9] in
  ∃ bound, KeyBoundFromLegacyRow (Some row) true 2 = Ok bound ∧
    CompareRows Samples.fd (Samples.key 1 5) (Some row) 10 = Ok (-1) ∧ TestKey Samples.order c (Samples.key 1 5) bound = Ok true.
Proof.
  intros c row.
  destruct (KeyBoundFromLegacyRow_correct Samples.fd ltac:(done) (λ _, false) c [ValueInt64 1; ValueInt64 5] row (Samples.key_point 1 5) true 10)
    as [(bound & z & E & _ & Ez & Et) _].
  - reflexivity.
  - by repeat split.
  - repeat constructor.
  - split; [by exists (Samples.datum 1)|]. split; [by left|]. split; [by exists (value_type_index TypeMax, CEntity)|].
    split; [by right; right|]. split; [by exists (Samples.datum 9)|]. split; [by left|done].
  - simpl. lia.
  - exists bound. split; [exact E|]. assert (z = -1) as -> by (vm_compute in Ez; congruence). split; [exact Ez|exact Et].
Defined.

(** Bounds survive the way through legacy rows: for a bound whose prefix holds data and
    is no longer than the key, [KeyBoundFromLegacyRow] of [KeyBoundToLegacyRow] is the
    bound itself. *)
Theorem legacy_row_roundtrip (bound : TKeyBound) (prefix : list TUnversionedValue) (keyLength : nat)
    (Hprefix : Prefix bound = Some prefix) (Hdata : Forall is_data prefix) (Hlength : (length prefix <= keyLength)%nat) :
  KeyBoundFromLegacyRow (KeyBoundToLegacyRow bound) (IsUpper bound) keyLength = Ok bound.
Proof.
  unfold KeyBoundToLegacyRow. rewrite Hprefix. set (tail := if _ || _ then [ValueMax] else []).
  assert (∀ l i p, Forall is_data l → (i + length l <= keyLength)%nat →
    bound_loop (l ++ tail) i keyLength p =
      (bool_decide (tail ≠ []) && Nat.eqb (i + length l) keyLength, (if bool_decide (tail ≠ []) && negb (Nat.eqb (i + length l) keyLength) then Some TypeMax else None), (p + length l)%nat)) as Hloop.
  { induction l as [|v l IH]; intros i p Hl Hi; simpl in *.
    - rewrite !Nat.add_0_r. unfold tail. destruct (_ || _); simpl; [|done]. rewrite (proj2 (Nat.leb_le i keyLength)) by lia. simpl. by destruct (Nat.eqb_spec i keyLength).
    - rewrite (proj2 (Nat.leb_le i keyLength)), (proj2 (Nat.eqb_neq i keyLength)) by lia. cbn [negb].
      rewrite bool_decide_sentinel, data_not_sentinel by (by apply Forall_inv in Hl). cbn [negb].
      rewrite IH by (by eapply Forall_inv_tail || lia). by rewrite <- !Nat.add_succ_comm. }
  unfold KeyBoundFromLegacyRow, GetBoundPrefixAndInclusiveness. cbn [IsSet Verify]. run_bind. change (Elements (Some ?l)) with l.
  rewrite (Hloop prefix 0%nat 0%nat) by (done || lia). run_bind. simpl plus. rewrite (proj2 (Nat.leb_le _ _)) by (rewrite length_app; lia). cbn [Verify]. run_bind.
  rewrite take_app_length. unfold FromRow. cbn [IsSet Verify]. run_bind. change (Elements (Some ?l)) with l. rewrite ValidateValueTypes_data by done.
  run_bind. f_equal. destruct bound as [q i u]; simpl in *. subst q tail. f_equal.
  destruct u, i; simpl; destruct (Nat.eqb (length prefix) keyLength); done.
Qed.

Lemma legacy_row_roundtrip_witness :
  KeyBoundToLegacyRow (Samples.bound [1; 7] true true) = Some [ValueInt64 1; ValueInt64 7; ValueMax] ∧
  KeyBoundFromLegacyRow (KeyBoundToLegacyRow (Samples.bound [1; 7] true true)) true 2 = Ok (Samples.bound [1; 7] true true).
Proof.
  split; [reflexivity|].
  apply (legacy_row_roundtrip (Samples.bound [1; 7] true true) [ValueInt64 1; ValueInt64 7] 2); [reflexivity|repeat constructor|simpl; lia].
Defined.
