(* ===== verification/KeyWidening.v ===== *)
(** The free functions of the comparator: [ComparePrefix] with its coded result (the sign is
    the outcome, the magnitude says which column decided), keys widened with nulls, code
    generated key comparison and ranges with an empty interior.

    The coded result is specified by [first_diff] on the data of the columns; one lemma
    relates it to the order of points of [KeyOrder]. *)

From S2P Require Import Prelude YsonParser Compare CompositeCompare RowValues KeyBound Comparator KeyOrder KeyRanges LegacyRows.

(** ** The coded first difference *)

Section FirstDiff.
Context {D : Type} (compare : TUnversionedValue → TUnversionedValue → Result Z).
Context (column : nat → TUnversionedValue → D → Prop) (cmp : D → D → Z) `{V : !ValueOrder compare column cmp}.
Context (orders : list ESortOrder).

(** Along [d2], which is not longer than [d1]. *)
Fixpoint first_diff (i : nat) (d1 d2 : list D) : Z :=
  match d2, d1 with
  | x2 :: d2, x1 :: d1 =>
      let r := cmp x1 x2 in
      if r =? 0 then first_diff (S i) d1 d2 else if r >? 0 then Z.of_nat (S i) else - Z.of_nat (S i)
  | _, _ => 0
  end.

(** The outcome under the order of the column that decided. *)
Definition with_order (z : Z) : Z :=
  match orders !! Z.to_nat (Z.abs z - 1) with Some Descending => - z | _ => z end.

Lemma ComparePrefix_first_diff i l1 l2 d1 d2 n : row_data column i l1 d1 → row_data column i l2 d2 →
  (n <= length d1)%nat → (n <= length d2)%nat →
  prefix_loop compare l1 l2 i n = Ok (first_diff i d1 (take n d2)).
Proof.
  revert i l1 l2 d1 d2. induction n as [|n IH]; intros i [|v1 l1] [|v2 l2] [|x1 d1] [|x2 d2]; simpl; try done; try lia.
  intros [H1 H1'] [H2 H2'] L1 L2. rewrite (order_compare (compare := compare) (column := column) i v1 v2 x1 x2 H1 H2). run_bind.
  destruct (Z.eqb_spec (cmp x1 x2) 0); cbn [negb]; [apply IH; [done|done|lia|lia]|]. by destruct (cmp x1 x2 >? 0).
Qed.

Lemma first_diff_app i d1 e1 d2 e2 : length d1 = length d2 →
  first_diff i (d1 ++ e1) (d2 ++ e2) =
    let r := first_diff i d1 d2 in if r =? 0 then first_diff (i + length d1) e1 e2 else r.
Proof.
  revert i d2. induction d1 as [|x1 d1 IH]; intros i [|x2 d2]; simpl; try done; [by rewrite Nat.add_0_r|]. intros [= L].
  destruct (Z.eqb_spec (cmp x1 x2) 0); [by rewrite IH, Nat.add_succ_comm|].
  destruct (Z.gtb_spec (cmp x1 x2) 0); by rewrite (proj2 (Z.eqb_neq _ 0)) by lia.
Qed.

Lemma first_diff_prefix i d1 e1 d2 : (length d2 <= length d1)%nat → first_diff i (d1 ++ e1) d2 = first_diff i d1 d2.
Proof.
  revert i d2. induction d1 as [|x1 d1 IH]; intros i [|x2 d2]; simpl; try done; try lia; [by destruct e1|].
  intros. destruct (_ =? 0); [apply IH; lia|done].
Qed.

(** The code points at a column in range, and its outcome is the order of the points. *)
Lemma first_diff_points i d1 d2 s1 s2 : (length d2 <= length d1)%nat → (i + length d2 <= length orders)%nat →
  (s1 = 0 ∧ (s2 = 1 ∨ s2 = -1)) ∨ (s2 = 0 ∧ s1 = 0 ∧ length d1 = length d2) →
  let z := first_diff i d1 d2 in
  let p := points_from cmp orders i d1 s1 d2 s2 in
  (z = 0 ∧ p = - s2) ∨
  (z ≠ 0 ∧ is_Some (orders !! Z.to_nat (Z.abs z - 1)) ∧ (0 < with_order z ↔ 0 < p) ∧ (with_order z < 0 ↔ p < 0)).
Proof.
  revert i d2. induction d1 as [|x1 d1 IH]; intros i [|x2 d2] L1 L2 Hs; simpl in *; try lia.
  - left. split; [done|]. by destruct Hs as [[-> [->| ->]]|[-> [-> _]]].
  - unfold column_cmp. destruct (lookup_lt_is_Some_2 orders i ltac:(lia)) as [o Ho]. rewrite Ho.
    destruct (Z.eqb_spec (cmp x1 x2) 0) as [E|E].
    + rewrite E. replace (match o with Ascending => 0 | Descending => - 0 end =? 0) with true by (by destruct o).
      apply IH; [lia|lia|]. destruct Hs as [?|(? & ? & ?)]; [by left|right; lia].
    + right. destruct (Z.gtb_spec (cmp x1 x2) 0); (split; [lia|]); unfold with_order.
      * replace (Z.to_nat (Z.abs _ - 1)) with i by lia. rewrite Ho. split; [by eexists|].
        destruct o; rewrite (proj2 (Z.eqb_neq _ 0)) by lia; lia.
      * replace (Z.to_nat (Z.abs _ - 1)) with i by lia. rewrite Ho. split; [by eexists|].
        destruct o; rewrite (proj2 (Z.eqb_neq _ 0)) by lia; lia.
Qed.
End FirstDiff.

(** ** Testing a coded result *)

Section Testing.
Context {D : Type} (compare : TUnversionedValue → TUnversionedValue → Result Z).
Context (column : nat → TUnversionedValue → D → Prop) (cmp : D → D → Z) `{V : !ValueOrder compare column cmp}.
Context (c : TComparator).

Lemma TestComparisonResult_points bound key pk p : key_at column c key pk → bound_at column c bound p →
  let z := first_diff cmp 0 (Data pk) (Data p) in
  TestComparisonResultSorted z (SortOrders c) (IsInclusive bound) (IsUpper bound) = Ok (inside cmp c bound pk p) ∧
  (HasDescendingSortOrder c = false → TestComparisonResult z (IsInclusive bound) (IsUpper bound) = inside cmp c bound pk p).
Proof.
  intros (_ & Sk & Lk) (_ & Sb & Lb) z. unfold GetLength in *.
  assert (Side p = 1 ∨ Side p = -1) as Hside by (rewrite Sb; destruct (as_upper bound); auto).
  pose proof (first_diff_points cmp (SortOrders c) 0 (Data pk) (Data p) 0 (Side p) ltac:(lia) ltac:(lia) ltac:(left; by split)) as H.
  cbv zeta in H. fold z in H. unfold inside, compare_points, TestComparisonResultSorted, TestComparisonResult. rewrite Sk.
  set (r := points_from cmp (SortOrders c) 0 (Data pk) 0 (Data p) (Side p)) in *.
  destruct H as [[-> ->]|(Hz & [o Ho] & Hp & Hn)].
  - rewrite Sb. unfold as_upper. split; [|intros _]; by destruct (IsUpper bound), (IsInclusive bound).
  - assert (∀ w : Z, w ≠ 0 → (0 < w ↔ 0 < r) → (w < 0 ↔ r < 0) →
      (((if IsUpper bound then - w else w) >? 0) || IsInclusive bound && ((if IsUpper bound then - w else w) =? 0)) =
      (if IsUpper bound then r <? 0 else r >? 0)) as Htest.
    { intros w Hw H1 H2. rewrite (proj2 (Z.eqb_neq _ 0)) by (destruct (IsUpper bound); lia). rewrite andb_false_r, orb_false_r.
      destruct (IsUpper bound).
      - destruct (Z.gtb_spec (- w) 0), (Z.ltb_spec r 0); done || lia.
      - destruct (Z.gtb_spec w 0), (Z.gtb_spec r 0); done || lia. }
    split.
    + rewrite (proj2 (Z.eqb_neq z 0) Hz). cbn [negb]. rewrite Ho. run_bind. f_equal. unfold with_order in Hp, Hn. rewrite Ho in Hp, Hn.
      destruct o; [rewrite bool_decide_eq_false_2 by done|rewrite bool_decide_eq_true_2 by done]; apply Htest; done || lia.
    + intros Hasc. unfold with_order in Hp, Hn. rewrite Ho in Hp, Hn. destruct o; [by apply Htest|]. exfalso.
      assert (HasDescendingSortOrder c = true); [|congruence]. apply existsb_exists. exists Descending.
      split; [apply list_elem_of_In; by eapply list_elem_of_lookup_2|by apply bool_decide_eq_true_2].
Qed.

(** Two keys, through [ComparePrefix] as the code generated comparer. *)
Lemma CompareKeys_prefix lhs rhs p1 p2 : key_at column c lhs p1 → key_at column c rhs p2 →
  CGComparator c = Some (ComparePrefix compare) →
  ∃ z, CompareKeys compare c lhs rhs = Ok z ∧ GetSign z = GetSign (compare_points cmp (SortOrders c) p1 p2).
Proof.
  intros H1 H2 Hcg. unfold CompareKeys. rewrite (ValidateKey_ok column c _ _ H1), (ValidateKey_ok column c _ _ H2), Hcg. run_bind.
  destruct H1 as (D1 & S1 & L1), H2 as (D2 & S2 & L2). unfold ComparePrefix.
  rewrite (ComparePrefix_first_diff compare column cmp 0 _ _ (Data p1) (Data p2) (GetLength c)) by (done || lia). run_bind.
  rewrite <- L2, firstn_all. unfold compare_points. rewrite S1, S2.
  pose proof (first_diff_points cmp (SortOrders c) 0 (Data p1) (Data p2) 0 0 ltac:(lia) ltac:(unfold GetLength in *; lia) ltac:(right; lia)) as H.
  cbv zeta in H. set (z := first_diff cmp 0 (Data p1) (Data p2)) in *. set (r := points_from _ _ _ _ _ _ _) in *.
  destruct H as [[-> ->]|(Hz & [o Ho] & Hp & Hn)]; [by exists 0|]. rewrite (proj2 (Z.eqb_neq z 0) Hz), Ho. unfold with_order in *. rewrite Ho in Hp, Hn.
  destruct o; eexists; (split; [reflexivity|]).
  - destruct (GetSign_spec z) as [[? ->]|[[? ->]|[? ->]]], (GetSign_spec r) as [[? ->]|[[? ->]|[? ->]]]; lia.
  - destruct (GetSign_spec (- z)) as [[? ->]|[[? ->]|[? ->]]], (GetSign_spec r) as [[? ->]|[[? ->]|[? ->]]]; lia.
Qed.

(** A range with an empty interior has at most one key. *)
Lemma interior_at_most_one k1 k2 lower upper p1 p2 pl pu : key_at column c k1 p1 → key_at column c k2 p2 →
  bound_at column c lower pl → bound_at column c upper pu → IsUpper lower = false → IsUpper upper = true → Prefix lower ≠ None →
  ∃ empty, IsInteriorEmpty compare c lower upper = Ok empty ∧
    (empty = true → (∀ k, k ∈ [k1; k2] → TestKey compare c k lower = Ok true ∧ TestKey compare c k upper = Ok true) →
     compare_points cmp (SortOrders c) p1 p2 = 0).
Proof.
  intros H1 H2 Hl Hu El Eu Hset. unfold IsInteriorEmpty. rewrite El, Eu. cbn [negb Verify mbind result_bind].
  rewrite (IsRangeEmpty_points compare column cmp c lower upper pl pu Hl Hu El Eu). run_bind.
  destruct (compare_points cmp (SortOrders c) pl pu >=? 0) eqn:Ee.
  - exists true. split; [done|]. intros _ Hin. destruct (Hin k1 ltac:(by left)) as [T1 T2].
    destruct (both_inside compare column cmp c k1 lower upper p1 pl pu H1 Hl Hu El Eu T1 T2) as (_ & _ & ?).
    rewrite Z.geb_leb in Ee. apply Z.leb_le in Ee. lia.
  - destruct (TryAsSingletonKey_points compare column cmp c lower upper pl pu Hl Hu El Eu Hset) as ([key|] & -> & Hkey); run_bind; [|by exists false].
    exists true. split; [done|]. intros _ Hin. destruct Hkey as (_ & Ll & Lu & Il & Iu & E0).
    pose proof (order_total (compare := compare) (column := column)) as Htotal.
    assert (∀ k p, k ∈ [k1; k2] → key_at column c k p → points_from cmp (SortOrders c) 0 (Data p) 0 (Data pl) 0 = 0) as Heq.
    { intros k p Hk Hp. destruct (Hin k Hk) as [T1 T2].
      rewrite (singleton_inside compare column cmp c k lower p pl Hp Hl Ll Il), El in T1. injection T1 as T1%Z.geb_le.
      rewrite (singleton_inside compare column cmp c k upper p pu Hp Hu Lu Iu), Eu in T2. injection T2 as T2%Z.leb_le.
      pose proof (points_coherent cmp (SortOrders c) (GetLength c) 0 (Data p) 0 (Data pl) 0 (Data pu) 0
        ltac:(destruct Hp as (_ & _ & ?); by left) ltac:(by left) ltac:(by left)) as Hc. unfold coherent in Hc. lia. }
    pose proof (Heq k1 p1 ltac:(by left) H1) as E1. pose proof (Heq k2 p2 ltac:(by right; left) H2) as E2.
    destruct H1 as (_ & S1 & L1), H2 as (_ & S2 & L2). unfold compare_points. rewrite S1, S2.
    pose proof (points_antisym cmp (SortOrders c) 0 (Data p2) 0 (Data pl) 0).
    pose proof (points_coherent cmp (SortOrders c) (GetLength c) 0 (Data p1) 0 (Data pl) 0 (Data p2) 0
      ltac:(by left) ltac:(by left) ltac:(by left)) as Hc. unfold coherent in Hc. lia.
Qed.
End Testing.

(** ** Widening *)

Section Widening.
Context (fd : list byte → Result Z) (Hfd : total_conversion fd) (composite : nat → bool) (c : TComparator).

#[local] Abbreviation compare := (CompareRowValues fd).
#[local] Abbreviation column := (λ i, column_value fd (composite i)).

#[local] Instance widening_order : ValueOrder compare column compare_datum.
Proof. by apply RowValueOrder. Qed.

Definition null_datum : TDatum := (value_type_index TypeNull, CEntity).

Lemma column_null i : column i ValueNull null_datum.
Proof. split; [done|]. unfold column_type. destruct (composite i); simpl; auto. Qed.

Lemma compare_null i value d : column i value d → is_data value →
  compare_datum null_datum d = if bool_decide (ValueType value = TypeNull) then 0 else -1.
Proof.
  intros Hv Hd. assert (Ok (compare_datum null_datum d) = Ok (if bool_decide (ValueType value = TypeNull) then 0 else -1)) as E; [|by injection E].
  rewrite <- (CompareRowValues_column fd (composite i) ValueNull value) by (done || apply column_null).
  destruct (decide (ValueType value = TypeNull)) as [Ht|Ht]; [rewrite bool_decide_eq_true_2 by done; by destruct value|].
  rewrite bool_decide_eq_false_2 by done. rewrite CompareRowValues_types.
  - unfold is_data in Hd. by destruct value.
  - by destruct value.
  - exists (composite i). split; [apply (column_null i)|apply Hv].
Qed.

Lemma row_data_nulls i m : row_data column i (replicate m ValueNull) (replicate m null_datum).
Proof. revert i. induction m as [|m IH]; intros i; simpl; [done|]. split; [apply column_null|apply IH]. Qed.

Lemma widening_first_diff i boundKey data m : row_data column i boundKey data → Forall is_data boundKey → (length data <= m)%nat →
  widening_loop boundKey i = first_diff compare_datum i (replicate m null_datum) data.
Proof.
  revert i data m. induction boundKey as [|v boundKey IH]; intros i [|d data] [|m]; simpl; try done; try lia.
  intros [Hv Hb] Hd Hm. rewrite (compare_null i v d Hv (Forall_inv Hd)). destruct (bool_decide _); cbn [negb]; [|simpl; lia].
  apply IH; [done|by eapply Forall_inv_tail|lia].
Qed.

Lemma row_data_app_drop i n l d : row_data column i l d → (n <= length l)%nat → row_data column (i + n) (drop n l) (drop n d).
Proof.
  revert i n d. induction l as [|v l IH]; intros i [|n] [|x d]; simpl; try done; try lia; rewrite ?Nat.add_0_r; try done.
  intros [_ H] Hn. rewrite <- Nat.add_succ_comm. apply IH; [done|lia].
Qed.

Lemma row_data_append i l1 d1 l2 d2 : row_data column i l1 d1 → row_data column (i + length l1) l2 d2 → row_data column i (l1 ++ l2) (d1 ++ d2).
Proof.
  revert i d1. induction l1 as [|v l1 IH]; intros i [|x d1]; simpl; try done; rewrite ?Nat.add_0_r; [done|].
  intros [H1 H2] H3. split; [done|]. apply IH; [done|]. by rewrite Nat.add_succ_comm.
Qed.

Lemma CompareWithWidening_first_diff key boundKey dk db m : row_data column 0 key dk → row_data column 0 boundKey db →
  Forall is_data boundKey → (length db <= length dk + m)%nat →
  CompareWithWidening key boundKey (ComparePrefix compare) = Ok (first_diff compare_datum 0 (dk ++ replicate m null_datum) db).
Proof.
  intros Hk Hb Hd Hm. pose proof (row_data_length column _ _ _ Hk) as Lk. pose proof (row_data_length column _ _ _ Hb) as Lb.
  unfold CompareWithWidening, ComparePrefix. destruct (Nat.ltb_spec (length key) (length boundKey)) as [Hlt|Hge].
  - rewrite (ComparePrefix_first_diff compare column compare_datum 0 _ _ dk db) by (done || lia). run_bind. f_equal.
    rewrite <- (take_drop (length key) db) at 3. rewrite first_diff_app by (rewrite length_take; lia). cbv zeta.
    destruct (_ =? 0); [|done]. simpl plus. rewrite <- Lk.
    rewrite (widening_first_diff (length key) _ (drop (length key) db) m); [done|apply (row_data_app_drop 0); [done|lia]| |rewrite length_drop; lia].
    by apply Forall_drop.
  - rewrite (ComparePrefix_first_diff compare column compare_datum 0 _ _ dk db) by (done || lia).
    rewrite Lb, firstn_all, first_diff_prefix by lia. done.
Qed.
End Widening.

(** ** Theorems *)

(** Widening is padding with nulls: for a key of at most the comparator's length and any
    bound of data values, [TestKeyWithWidening] under the sort orders of the comparator
    says what [TestKey] says of the key completed with nulls; without descending columns so
    does the version that is given a prefix comparer; and for a key not shorter than the
    bound, so does the free function [TestKey]. *)
Theorem TestKeyWithWidening_correct (fd : list byte → Result Z) (Hfd : total_conversion fd) (composite : nat → bool) (c : TComparator)
    (key : list TUnversionedValue) (dk : list TDatum) (bound : TKeyBound) (p : TPoint TDatum)
    (Hkey : row_data (λ i, column_value fd (composite i)) 0 key dk) (Hlen : (length key <= GetLength c)%nat)
    (Hbound : bound_at (λ i, column_value fd (composite i)) c bound p) (Hdata : Forall is_data (Elements (Prefix bound))) :
  let compare := CompareRowValues fd in
  ∃ b, TestKey compare c (Some (key ++ replicate (GetLength c - length key) ValueNull)) bound = Ok b ∧
    TestKeyWithWideningSorted compare key (ToKeyBoundRef bound) (SortOrders c) = Ok b ∧
    (HasDescendingSortOrder c = false → TestKeyWithWidening key (ToKeyBoundRef bound) (ComparePrefix compare) = Ok b) ∧
    ((length (Elements (Prefix bound)) <= length key)%nat → TestKeyRange compare key (ToKeyBoundRef bound) (SortOrders c) = Ok b).
Proof.
  cbv zeta. pose proof (RowValueOrder fd Hfd composite) as V. set (m := (GetLength c - length key)%nat).
  set (pk := {| Data := dk ++ replicate m null_datum; Side := 0 |}).
  pose proof (row_data_length _ _ _ _ Hkey) as Lk. pose proof (row_data_length _ _ _ _ (proj1 Hbound)) as Lb.
  assert (key_at (λ i, column_value fd (composite i)) c (Some (key ++ replicate m ValueNull)) pk) as Hk.
  { split_and!; [|done|simpl; rewrite length_app, length_replicate; lia].
    apply (row_data_append fd composite); [done|apply row_data_nulls]. }
  destruct (TestComparisonResult_points _ compare_datum c bound _ pk p Hk Hbound) as [T1 T2]. cbn [Data pk] in T1, T2.
  exists (inside compare_datum c bound pk p). pose proof (proj2 (proj2 Hbound)) as Hbl. split_and!.
  - by eapply TestKey_points.
  - unfold TestKeyWithWideningSorted. simpl Base.
    rewrite (CompareWithWidening_first_diff fd Hfd composite key _ dk (Data p) m Hkey (proj1 Hbound) Hdata) by lia. exact T1.
  - intros Hasc. unfold TestKeyWithWidening. simpl Base.
    rewrite (CompareWithWidening_first_diff fd Hfd composite key _ dk (Data p) m Hkey (proj1 Hbound) Hdata) by lia. run_bind. f_equal. by apply T2.
  - intros Hle. unfold TestKeyRange. simpl Base. rewrite (proj2 (Nat.leb_le _ _) Hle). cbn [Verify]. run_bind. unfold ComparePrefix.
    rewrite (ComparePrefix_first_diff (CompareRowValues fd) _ compare_datum 0 _ _ dk (Data p)) by (done || apply Hbound || lia). run_bind.
    rewrite Lb, firstn_all, <- (first_diff_prefix compare_datum 0 dk (replicate m null_datum)) by lia. exact T1.
Qed.

Lemma TestKeyWithWidening_correct_witness :
  TestKeyWithWideningSorted Samples.order [ValueInt64 1] (ToKeyBoundRef (Samples.bound [1; 7] false false)) [Ascending; Descending] = Ok true ∧
  TestKey Samples.order Samples.comparator (Some [ValueInt64 1; ValueNull]) (Samples.bound [1; 7] false false) = Ok true.
Proof.
  destruct (TestKeyWithWidening_correct Samples.fd ltac:(done) (λ _, false) Samples.comparator [ValueInt64 1] [Samples.datum 1]
    (Samples.bound [1; 7] false false) _ ltac:(by repeat split) ltac:(vm_compute; lia)
    (Samples.bound_ok [1; 7] false false ltac:(simpl; lia)) ltac:(repeat constructor)) as (b & E1 & E2 & _).
  assert (b = true) as -> by (vm_compute in E2; congruence). split; [exact E2|exact E1].
Defined.

(** A code generated comparer agrees with the loop: when it is [ComparePrefix] (whose
    result is the column that decides, signed), [CompareKeys] has the sign of the order of
    the two keys, descending columns included, just as without it. *)
Theorem CompareKeys_generated {D} (compare : TUnversionedValue → TUnversionedValue → Result Z)
    (column : nat → TUnversionedValue → D → Prop) (cmp : D → D → Z) (V : ValueOrder compare column cmp) (orders : list ESortOrder)
    (lhs rhs : TKey) (p1 p2 : TPoint D) (generated : TComparator)
    (Hgen : generated = {| SortOrders := orders; CGComparator := Some (ComparePrefix compare) |})
    (H1 : key_at column generated lhs p1) (H2 : key_at column generated rhs p2) :
  ∃ z z', CompareKeys compare generated lhs rhs = Ok z ∧
    CompareKeys compare {| SortOrders := orders; CGComparator := None |} lhs rhs = Ok z' ∧
    GetSign z = GetSign z' ∧ z' = compare_points cmp orders p1 p2.
Proof.
  destruct (CompareKeys_prefix compare column cmp generated lhs rhs p1 p2 H1 H2 ltac:(by subst)) as (z & E & Hz).
  exists z, (compare_points cmp orders p1 p2). subst generated. split_and!; [done| |done|done].
  by apply (CompareKeys_points compare column cmp {| SortOrders := orders; CGComparator := None |}).
Qed.

Lemma CompareKeys_generated_witness :
  let generated := {| SortOrders := [Ascending; Descending]; CGComparator := Some (ComparePrefix Samples.order) |} in
  ∃ z, CompareKeys Samples.order generated (Samples.key 1 5) (Samples.key 1 7) = Ok z ∧ GetSign z = 1.
Proof.
  intros generated. destruct (CompareKeys_generated Samples.order Samples.column compare_datum Samples.sample_order [Ascending; Descending]
    (Samples.key 1 5) (Samples.key 1 7) (Samples.key_point 1 5) (Samples.key_point 1 7) generated eq_refl ltac:(by repeat split) ltac:(by repeat split))
    as (z & z' & E & _ & Hs & Hz). exists z. split; [exact E|]. rewrite Hs, Hz. vm_compute. reflexivity.
Defined.

(** [IsInteriorEmpty] is sound: it answers, and when it says that a range has an empty
    interior, any two keys in the range are equal for the comparator. *)
Theorem IsInteriorEmpty_sound {D} (compare : TUnversionedValue → TUnversionedValue → Result Z)
    (column : nat → TUnversionedValue → D → Prop) (cmp : D → D → Z) (V : ValueOrder compare column cmp) (c : TComparator)
    (k1 k2 : TKey) (lower upper : TKeyBound) (p1 p2 pl pu : TPoint D) (Hcg : CGComparator c = None)
    (H1 : key_at column c k1 p1) (H2 : key_at column c k2 p2) (Hl : bound_at column c lower pl) (Hu : bound_at column c upper pu)
    (El : IsUpper lower = false) (Eu : IsUpper upper = true) (Hset : Prefix lower ≠ None) :
  ∃ empty, IsInteriorEmpty compare c lower upper = Ok empty ∧
    (empty = true → (∀ k, k ∈ [k1; k2] → TestKey compare c k lower = Ok true ∧ TestKey compare c k upper = Ok true) →
     CompareKeys compare c k1 k2 = Ok 0).
Proof.
  destruct (interior_at_most_one compare column cmp c k1 k2 lower upper p1 p2 pl pu H1 H2 Hl Hu El Eu Hset) as (empty & E & H).
  exists empty. split; [done|]. intros He Hin. rewrite (CompareKeys_points compare column cmp c k1 k2 p1 p2 H1 H2 Hcg). f_equal. by apply H.
Qed.

Lemma IsInteriorEmpty_sound_witness :
  IsInteriorEmpty Samples.order Samples.comparator (Samples.bound [1; 5] true false) (Samples.bound [1; 5] true true) = Ok true ∧
  CompareKeys Samples.order Samples.comparator (Samples.key 1 5) (Samples.key 1 5) = Ok 0.
Proof.
  destruct (IsInteriorEmpty_sound Samples.order Samples.column compare_datum Samples.sample_order Samples.comparator
    (Samples.key 1 5) (Samples.key 1 5) (Samples.bound [1; 5] true false) (Samples.bound [1; 5] true true) _ _ _ _ eq_refl
    (Samples.key_ok 1 5) (Samples.key_ok 1 5) (Samples.bound_ok [1; 5] true false ltac:(simpl; lia)) (Samples.bound_ok [1; 5] true true ltac:(simpl; lia))
    eq_refl eq_refl ltac:(done)) as (empty & E & H).
  assert (empty = true) as -> by (vm_compute in E; congruence). split; [exact E|]. apply H; [reflexivity|].
  intros k Hk. assert (k = Samples.key 1 5) as -> by (apply elem_of_cons in Hk as [->|Hk]; [done|]; apply list_elem_of_singleton in Hk; done).
  split; vm_compute; reflexivity.
Defined.

(** The free function [CompareKeys] does not code the column that decides: for two keys
    that first differ in the second column its result is [1], which as a code would point
    at the first column. *)
Theorem CompareKeyRanges_loses_column :
  let lhs := [ValueInt64 1; ValueInt64 5] in
  let rhs := [ValueInt64 1; ValueInt64 3] in
  ComparePrefix Samples.order lhs rhs 2%nat = Ok 2 ∧ CompareKeyRanges lhs rhs (ComparePrefix Samples.order) = Ok 1.
Proof. split; vm_compute; reflexivity. Qed.
