(* ===== verification/RowCodec.v ===== *)
(** Rows on the wire ([yt/yt/client/table_client/unversioned_row.cpp]): the encoding of values
    and rows, the estimates by which callers size their buffers, and the YSON form of a
    value.

    A value carries the id of its column and its flags here. The flags are not part of the
    encoding: what is read has none. A pointer into a buffer is the bytes from it on; reading
    past them is a crash. *)

From S2P Require Import Prelude Coding YsonLexer YsonEvents YsonParser YsonWriter PullParser Compare CompositeCompare RowValues KeyBound.

Record TIdValue := { Id : Z; Flags : Z; Value : TUnversionedValue }.
#[export] Instance TIdValue_eq_dec : EqDecision TIdValue.
Proof. solve_decision. Defined.

(** [EValueFlags::None], the default of the functions that make values. *)
Definition NoFlags : Z := 0.

Definition MaxVarInt64Size : nat := Z.to_nat ((8 * 8 - 1) / 7 + 1).
Definition MaxVarUint32Size : nat := Z.to_nat ((8 * 4 - 1) / 7 + 1).
Definition MaxVarInt32Size : nat := Z.to_nat ((8 * 4 - 1) / 7 + 1).

(** [EHunkValueTag::Inline]. *)
Definition InlineHunkTag : byte := x00.

(** ** Values *)

(** [value.Length] is meaningful for string-like values. *)
Definition StringData (value : TUnversionedValue) : option (list byte) :=
  match value with
  | ValueString data | ValueAny data | ValueComposite data => Some data
  | _ => None
  end.

Definition EstimateRowValueSize (value : TUnversionedValue) (isInlineHunkValue : bool) : nat :=
  MaxVarUint32Size * 2 +
  match value with
  | ValueNull | ValueMin | ValueMax | ValueTheBottom => 0
  | ValueInt64 _ | ValueUint64 _ => MaxVarInt64Size
  | ValueDouble _ => 8
  | ValueBoolean _ => 1
  | ValueString data | ValueAny data | ValueComposite data =>
      (if isInlineHunkValue then 1 else 0) + (MaxVarUint32Size + length data)
  end.

(** What is written behind the id and the type; [Length] is a [ui32]. *)
Definition WriteValueData (value : TUnversionedValue) (isInlineHunkValue : bool) : list byte :=
  match value with
  | ValueNull | ValueMin | ValueMax | ValueTheBottom => []
  | ValueInt64 data => Varint.WriteVarInt64 data
  | ValueUint64 data => Varint.WriteVarUint64 data
  | ValueDouble bits => le_bytes 8 bits
  | ValueBoolean data => [if data : bool then x01 else x00]
  | ValueString data | ValueAny data | ValueComposite data =>
      Varint.WriteVarUint32 (wrap_u 32 (Z.of_nat (length data) + (if isInlineHunkValue then 1 else 0))) ++
      (if isInlineHunkValue then [InlineHunkTag] else []) ++ data
  end.

Definition WriteRowValue (value : TIdValue) (isInlineHunkValue : bool) : list byte :=
  Varint.WriteVarUint32 (Id value) ++
  Varint.WriteVarUint32 (value_type_index (ValueType (Value value))) ++
  WriteValueData (Value value) isInlineHunkValue.

(** [current += Read...(current, &data)]. *)
Definition ReadAt {A} (read : list byte → Result (A * Z)) (current : list byte) : Result (A * list byte) :=
  '(data, size) ← read current; Ok (data, drop (Z.to_nat size) current).

(** [memcpy] of [n] bytes. *)
Definition Take (n : nat) (current : list byte) : Result (list byte * list byte) :=
  if Nat.leb n (length current) then Ok (take n current, drop n current) else Crash.

(** [static_cast<EValueType>]: the underlying type is [ui8]. *)
Definition value_types : list EValueType :=
  [TypeMin; TheBottom; TypeNull; TypeInt64; TypeUint64; TypeDouble; TypeBoolean; TypeString; TypeAny; TypeComposite; TypeMax].
Definition CastValueType (typeValue : Z) : option EValueType :=
  find (λ type, value_type_index type =? wrap_u 8 typeValue) value_types.

Definition ReadValueData (type : EValueType) (current : list byte) : Result (TUnversionedValue * list byte) :=
  match type with
  | TypeNull => Ok (ValueNull, current)
  | TypeMin => Ok (ValueMin, current)
  | TypeMax => Ok (ValueMax, current)
  | TheBottom => Ok (ValueTheBottom, current)
  | TypeInt64 => '(data, current) ← ReadAt Varint.ReadVarInt64_ptr current; Ok (ValueInt64 data, current)
  | TypeUint64 => '(data, current) ← ReadAt Varint.ReadVarUint64_ptr current; Ok (ValueUint64 data, current)
  | TypeDouble => '(data, current) ← Take 8 current; Ok (ValueDouble (le_value data), current)
  | TypeBoolean =>
      match current with
      | [] => Crash
      | b :: current => Ok (ValueBoolean (byte_val b =? 1), current)
      end
  | TypeString | TypeAny | TypeComposite =>
      '(len, current) ← ReadAt Varint.ReadVarUint32_ptr current;
      '(data, current) ← Take (Z.to_nat len) current;
      Ok (match type with TypeAny => ValueAny data | TypeComposite => ValueComposite data | _ => ValueString data end, current)
  end.

(** The id is a [ui16] in the value. *)
Definition ReadRowValue (input : list byte) : Result (TIdValue * list byte) :=
  '(id, current) ← ReadAt Varint.ReadVarUint32_ptr input;
  '(typeValue, current) ← ReadAt Varint.ReadVarUint32_ptr current;
  match CastValueType typeValue with
  | None => Throw EBadValueType
  | Some type =>
      '(value, current) ← ReadValueData type current;
      Ok ({| Id := wrap_u 16 id; Flags := NoFlags; Value := value |}, current)
  end.

(** ** Rows *)

Definition SerializedNullRow : list byte := [].

Definition GetUnversionedRowByteSizeForWire (range : list TIdValue) : nat :=
  2 * MaxVarUint32Size + sum_list_with (λ value, EstimateRowValueSize (Value value) false) range.

Definition SerializeRowToBuffer (range : list TIdValue) : list byte :=
  Varint.WriteVarUint32 0 ++ Varint.WriteVarUint32 (wrap_u 32 (Z.of_nat (length range))) ++
  concat (map (λ value, WriteRowValue value false) range).

(** The buffer has the estimated size; writing past it is a crash. *)
Definition SerializeRangeToString (range : list TIdValue) : Result (list byte) :=
  let buffer := SerializeRowToBuffer range in
  if Nat.leb (length buffer) (GetUnversionedRowByteSizeForWire range) then Ok buffer else Crash.

Definition SerializeToString (row : option (list TIdValue)) : Result (list byte) :=
  match row with Some range => SerializeRangeToString range | None => Ok SerializedNullRow end.

Definition ReadUnversionedRowHeaderFromBuffer (input : list byte) : Result (Z * list byte) :=
  '(version, input) ← ReadAt Varint.ReadVarUint32_ptr input;
  Verify (version =? 0);;
  ReadAt Varint.ReadVarUint32_ptr input.

Fixpoint read_values (valueCount : nat) (current : list byte) : Result (list TIdValue * list byte) :=
  match valueCount with
  | O => Ok ([], current)
  | S valueCount =>
      '(value, current) ← ReadRowValue current;
      '(values, current) ← read_values valueCount current;
      Ok (value :: values, current)
  end.

(** A count that is negative as an [int] leaves the values of the row unset: a crash here. *)
Definition DeserializeFromString (data : list byte) (nullPaddingWidth : option Z) : Result (option (list TIdValue)) :=
  if bool_decide (data = SerializedNullRow) then Ok None
  else
    '(valueCount, current) ← ReadUnversionedRowHeaderFromBuffer data;
    Verify (wrap_s 32 valueCount >=? 0);;
    let nullCount := match nullPaddingWidth with Some width => Z.max 0 (width - wrap_s 32 valueCount) | None => 0 end in
    '(values, _) ← read_values (Z.to_nat valueCount) current;
    Ok (Some (values ++ map (λ index, {| Id := wrap_u 16 (Z.of_nat index); Flags := NoFlags; Value := ValueNull |}) (seq (Z.to_nat valueCount) (Z.to_nat nullCount)))).

(** ** YSON *)

Definition GetYsonSize (value : TUnversionedValue) : Result nat :=
  match value with
  | ValueAny data | ValueComposite data => Ok (length data)
  | ValueNull => Ok 1%nat
  | ValueInt64 _ | ValueUint64 _ => Ok (1 + MaxVarInt64Size)%nat
  | ValueDouble _ => Ok (1 + 8)%nat
  | ValueString data => Ok (1 + MaxVarInt32Size + length data)%nat
  | ValueBoolean _ => Ok (1 + 1)%nat
  | _ => Crash
  end.

Section WriteYson.
Context (FloatToString : Z → list byte).

(** The call of the writer for a value. *)
Definition ScalarEvent (value : TUnversionedValue) : Result TYsonEvent :=
  match value with
  | ValueInt64 data => Ok (OnInt64Scalar data)
  | ValueUint64 data => Ok (OnUint64Scalar data)
  | ValueDouble bits => Ok (OnDoubleScalar bits)
  | ValueString data => Ok (OnStringScalar data)
  | ValueBoolean data => Ok (OnBooleanScalar data)
  | ValueNull => Ok OnEntity
  | _ => Crash
  end.

Definition BinaryConfig : TYsonWriterConfig :=
  {| Format := Binary; Type_ := YsonNode; EnableRaw := false; IndentSize := 4; PassThroughUtf8Characters := false |}.

(** [TMemoryOutput] throws when the buffer is exhausted. *)
Definition WriteYson (unversionedValue : TUnversionedValue) : Result (list byte) :=
  size ← GetYsonSize unversionedValue;
  ev ← ScalarEvent unversionedValue;
  writer ← OnPlainEvent FloatToString BinaryConfig ev NewYsonWriter;
  if Nat.leb (length (Output writer)) size then Ok (Output writer) else Throw EBufferExhausted.
End WriteYson.

(** ** Lemmas *)

(** Values as the types of the code can hold them. *)
Definition value_ok (value : TUnversionedValue) : Prop :=
  match value with
  | ValueInt64 data => in_s 64 data
  | ValueUint64 data | ValueDouble data => in_u 64 data
  | ValueString data | ValueAny data | ValueComposite data => Z.of_nat (length data) < 2 ^ 32 - 1
  | _ => True
  end.
#[export] Instance value_ok_dec value : Decision (value_ok value).
Proof. destruct value; simpl; apply _. Defined.

Definition id_value_ok (value : TIdValue) : Prop := in_u 16 (Id value) ∧ value_ok (Value value).
#[export] Instance id_value_ok_dec value : Decision (id_value_ok value).
Proof. unfold id_value_ok. apply _. Defined.

(** What the encoding keeps of a value. *)
Definition without_flags (value : TIdValue) : TIdValue := {| Id := Id value; Flags := NoFlags; Value := Value value |}.

Lemma ReadAt_write {A} (read : list byte → Result (A * Z)) (data : A) (bytes rest : list byte) :
  read (bytes ++ rest) = Ok (data, Z.of_nat (length bytes)) → ReadAt read (bytes ++ rest) = Ok (data, rest).
Proof. intros E. unfold ReadAt. rewrite E. run_bind. by rewrite Nat2Z.id, drop_app_length. Qed.

Lemma Take_app data rest : Take (length data) (data ++ rest) = Ok (data, rest).
Proof.
  unfold Take. rewrite length_app, (proj2 (Nat.leb_le _ _)) by lia. by rewrite take_app_length, drop_app_length.
Qed.

Lemma CastValueType_index type : CastValueType (value_type_index type) = Some type.
Proof. by destruct type. Qed.

Lemma ReadValueData_write value rest : value_ok value →
  ReadValueData (ValueType value) (WriteValueData value false ++ rest) = Ok (value, rest).
Proof.
  intros Hv. assert (∀ data, Z.of_nat (length data) < 2 ^ 32 - 1 →
    ('(len, current) ← ReadAt Varint.ReadVarUint32_ptr ((Varint.WriteVarUint32 (wrap_u 32 (Z.of_nat (length data) + 0)) ++ [] ++ data) ++ rest);
     Take (Z.to_nat len) current) = Ok (data, rest)) as Hs.
  { intros data Hl. rewrite Z.add_0_r, wrap_u_id by word. rewrite <- app_assoc.
    rewrite (ReadAt_write _ _ _ _ (Varint.ptr32_write (Z.of_nat (length data)) _ ltac:(unfold in_u; lia))). run_bind. rewrite Nat2Z.id. apply (Take_app data). }
  destruct value; cbn [ValueType ReadValueData WriteValueData value_ok app] in *; try done.
  - by rewrite (ReadAt_write _ _ _ _ (Varint.int64_ptr_write _ _ Hv)).
  - by rewrite (ReadAt_write _ _ _ _ (Varint.ptr_write _ _ Hv)).
  - pose proof (Take_app (le_bytes 8 bits) rest) as E. rewrite length_le_bytes in E. rewrite E. run_bind.
    rewrite le_value_bytes; [done|]. exact Hv.
  - by destruct data.
  - specialize (Hs data Hv). destruct (ReadAt _ _) as [[len current]| | |]; [|done..]. run_bind in Hs. run_bind. by rewrite Hs.
  - specialize (Hs yson Hv). destruct (ReadAt _ _) as [[len current]| | |]; [|done..]. run_bind in Hs. run_bind. by rewrite Hs.
  - specialize (Hs yson Hv). destruct (ReadAt _ _) as [[len current]| | |]; [|done..]. run_bind in Hs. run_bind. by rewrite Hs.
Qed.

Lemma type_index_range type : in_u 8 (value_type_index type).
Proof. by destruct type. Qed.

Lemma ReadRowValue_write value rest : id_value_ok value → ReadRowValue (WriteRowValue value false ++ rest) = Ok (without_flags value, rest).
Proof.
  intros [Hi Hv]. unfold ReadRowValue, WriteRowValue. rewrite <- !app_assoc. unfold in_u in Hi.
  rewrite (ReadAt_write _ _ _ _ (Varint.ptr32_write (Id value) _ ltac:(unfold in_u; lia))). run_bind.
  pose proof (type_index_range (ValueType (Value value))) as Ht. unfold in_u in Ht.
  rewrite (ReadAt_write _ _ _ _ (Varint.ptr32_write (value_type_index (ValueType (Value value))) _ ltac:(unfold in_u; lia))). run_bind.
  rewrite CastValueType_index, ReadValueData_write by done. run_bind. by rewrite wrap_u_id by done.
Qed.

Lemma WriteRowValue_size value hunk : id_value_ok value →
  (length (WriteRowValue value hunk) <= EstimateRowValueSize (Value value) hunk)%nat.
Proof.
  intros [Hi Hv]. unfold WriteRowValue, EstimateRowValueSize. rewrite !length_app. unfold in_u in Hi.
  pose proof (type_index_range (ValueType (Value value))) as Ht. unfold in_u in Ht.
  pose proof (Varint.length_WriteVarUint32 (Id value) ltac:(unfold in_u; lia)).
  pose proof (Varint.length_WriteVarUint32 (value_type_index (ValueType (Value value))) ltac:(unfold in_u; lia)).
  change (MaxVarUint32Size * 2)%nat with 10%nat. change MaxVarUint32Size with 5%nat. change MaxVarInt64Size with 10%nat.
  assert (∀ z, in_u 64 z → (length (Varint.WriteVarUint64 z) <= 10)%nat) as H10 by (intros z Hz; apply (Varint.WriteVarUint64_spec z Hz)).
  destruct (Value value) as [| | |z|z|bits|b|s|s|s|]; cbn [WriteValueData value_ok length] in *; try lia.
  - pose proof (H10 _ (ZigZag.encode_range 64 z ltac:(lia) Hv)). unfold Varint.WriteVarInt64, ZigZag.ZigZagEncode64. lia.
  - pose proof (H10 _ Hv). lia.
  - rewrite length_le_bytes. lia.
  - rewrite !length_app. pose proof (Varint.length_WriteVarUint32 _ (wrap_u_range 32 (Z.of_nat (length s) + (if hunk then 1 else 0)) ltac:(lia))).
    destruct hunk; simpl; lia.
  - rewrite !length_app. pose proof (Varint.length_WriteVarUint32 _ (wrap_u_range 32 (Z.of_nat (length s) + (if hunk then 1 else 0)) ltac:(lia))).
    destruct hunk; simpl; lia.
  - rewrite !length_app. pose proof (Varint.length_WriteVarUint32 _ (wrap_u_range 32 (Z.of_nat (length s) + (if hunk then 1 else 0)) ltac:(lia))).
    destruct hunk; simpl; lia.
Qed.

Lemma read_values_write values rest : Forall id_value_ok values →
  read_values (length values) (concat (map (λ value, WriteRowValue value false) values) ++ rest) = Ok (map without_flags values, rest).
Proof.
  induction 1 as [|value values Hv _ IH]; simpl; [done|]. rewrite <- app_assoc, ReadRowValue_write by done. run_bind. by rewrite IH.
Qed.

Lemma SerializeRowToBuffer_size values : Forall id_value_ok values →
  (length (SerializeRowToBuffer values) <= GetUnversionedRowByteSizeForWire values)%nat.
Proof.
  intros Hv. unfold SerializeRowToBuffer, GetUnversionedRowByteSizeForWire. rewrite !length_app.
  pose proof (Varint.length_WriteVarUint32 0 ltac:(unfold in_u; lia)).
  pose proof (Varint.length_WriteVarUint32 _ (wrap_u_range 32 (Z.of_nat (length values)) ltac:(lia))).
  change MaxVarUint32Size with 5%nat.
  assert (length (concat (map (λ value, WriteRowValue value false) values)) <= sum_list_with (λ value, EstimateRowValueSize (Value value) false) values)%nat; [|lia].
  clear -Hv. induction Hv as [|value values Hv _ IH]; cbn [map concat sum_list_with length]; [lia|]. rewrite length_app. pose proof (WriteRowValue_size value false Hv). lia.
Qed.

(** The YSON tree of a scalar value. *)
Definition scalar_tree (value : TUnversionedValue) : option TComposite :=
  match value with
  | ValueInt64 data => Some (CInt64 data)
  | ValueUint64 data => Some (CUint64 data)
  | ValueDouble bits => Some (CDouble bits)
  | ValueString data => Some (CString data)
  | ValueBoolean data => Some (CBoolean data)
  | ValueNull => Some CEntity
  | _ => None
  end.

Lemma WriteYson_tree ff value tree : scalar_tree value = Some tree → representable tree →
  WriteYson ff value = Ok (composite_binary tree).
Proof.
  intros Ht Hr. assert (∀ z, in_u 64 z → (length (Varint.WriteVarUint64 z) <= 10)%nat) as H10 by (intros z Hz; apply (Varint.WriteVarUint64_spec z Hz)).
  unfold WriteYson. destruct value as [| | |z|z|bits|b|s|s|s|]; simplify_eq/=; try done.
  - rewrite (proj2 (Nat.leb_le _ _)); [done|]. apply H10. by apply ZigZag.encode_range.
  - rewrite (proj2 (Nat.leb_le _ _)); [done|]. by apply H10.
  - rewrite wrap_s_id by word. rewrite (proj2 (Nat.leb_le _ _)); [done|]. rewrite length_app.
    assert (length (Varint.WriteVarInt32 (Z.of_nat (length s))) <= 5)%nat; [|change (MaxVarInt32Size + length s)%nat with (5 + length s)%nat; lia].
    apply (Varint.length_WriteVarUint32 (ZigZag.ZigZagEncode32 _)), ZigZag.encode_range; [lia|]. unfold in_s. lia.
Qed.

Lemma compare_tree v1 v2 t1 t2 : scalar_tree v1 = Some t1 → scalar_tree v2 = Some t2 →
  compare_composite t1 t2 = compare_datum (value_type_index (ValueType v1), t1) (value_type_index (ValueType v2), t2).
Proof. intros H1 H2. unfold compare_datum. by destruct v1, v2; simplify_eq/=. Qed.

Lemma tree_column fd value tree : scalar_tree value = Some tree → column_value fd false value (value_type_index (ValueType value), tree).
Proof. intros H. split; [|by destruct value]. split; [done|]. by destruct value; simplify_eq/=. Qed.

(** ** Theorems *)

(** Values survive the wire: for every value (id of 16 bits, data of its width, strings of
    any length below [2^32 - 1]), [ReadRowValue] of what [WriteRowValue] wrote is the value
    without its flags and stops right behind it, and the estimate by which callers size the buffer is enough,
    with or without the inline hunk tag. *)
Theorem WriteRowValue_roundtrip (value : TIdValue) (rest : list byte) (Hvalue : id_value_ok value) :
  ReadRowValue (WriteRowValue value false ++ rest) = Ok (without_flags value, rest) ∧
  (length (WriteRowValue value false) <= EstimateRowValueSize (Value value) false)%nat ∧
  (length (WriteRowValue value true) <= EstimateRowValueSize (Value value) true)%nat.
Proof. split_and!; [by apply ReadRowValue_write|by apply WriteRowValue_size..]. Qed.

Lemma WriteRowValue_roundtrip_witness :
  let value := {| Id := 300; Flags := NoFlags; Value := ValueInt64 (- 2 ^ 63) |} in
  ReadRowValue (WriteRowValue value false ++ [x07]) = Ok (value, [x07]).
Proof. intros value. apply (WriteRowValue_roundtrip value [x07]). split; vm_compute; split; discriminate || reflexivity. Defined.

(** C40. Rows survive the wire except for the flags of their values, which are not encoded: a
    row (null, empty or with values) is serialized without running out of the estimated buffer,
    and [DeserializeFromString] gives back the ids, the types and the data of all its values, in
    order and with no flags (the row itself when no value has flags), padded with nulls up to
    the width asked for, whose ids are their positions. *)
Theorem SerializeToString_roundtrip (row : option (list TIdValue)) (nullPaddingWidth : option Z)
    (Hvalues : Forall id_value_ok (default [] row)) (Hcount : Z.of_nat (length (default [] row)) < 2 ^ 31)
    (Hwidth : default 0 nullPaddingWidth < 2 ^ 31) :
  ∃ data, SerializeToString row = Ok data ∧
    DeserializeFromString data nullPaddingWidth =
      Ok (values ← row;
          Some (map without_flags values ++ map (λ index, {| Id := wrap_u 16 (Z.of_nat index); Flags := NoFlags; Value := ValueNull |})
                              (seq (length values) (Z.to_nat (default 0 nullPaddingWidth) - length values)))).
Proof.
  destruct row as [values|]; [|by exists []]. simpl in Hvalues, Hcount. unfold SerializeToString, SerializeRangeToString.
  rewrite (proj2 (Nat.leb_le _ _) (SerializeRowToBuffer_size values Hvalues)). eexists. split; [done|]. unfold DeserializeFromString.
  assert (∀ l, Varint.WriteVarUint32 0 ++ l ≠ SerializedNullRow) as Hne by done.
  unfold SerializeRowToBuffer. rewrite bool_decide_eq_false_2 by apply Hne. unfold ReadUnversionedRowHeaderFromBuffer.
  rewrite (ReadAt_write _ _ _ _ (Varint.ptr32_write 0 _ ltac:(unfold in_u; lia))). run_bind. rewrite Z.eqb_refl. cbn [Verify]. run_bind.
  rewrite wrap_u_id by word.
  rewrite (ReadAt_write _ _ _ _ (Varint.ptr32_write (Z.of_nat (length values)) _ ltac:(unfold in_u; lia))). run_bind.
  rewrite wrap_s_id by word. rewrite (proj2 (Z.geb_le _ _)) by lia. cbn [Verify]. run_bind.
  rewrite Nat2Z.id. pose proof (read_values_write values [] Hvalues) as E. rewrite app_nil_r in E. rewrite E. run_bind.
  match goal with |- Ok (Some (_ ++ map _ (seq _ ?m))) = _ => replace m with (Z.to_nat (default 0%Z nullPaddingWidth) - length values)%nat; [done|] end.
  destruct nullPaddingWidth; simpl in *; lia.
Qed.

Lemma SerializeToString_roundtrip_witness :
  let row := λ flags, [{| Id := 0; Flags := NoFlags; Value := ValueString (B"key") |}; {| Id := 1; Flags := flags; Value := ValueBoolean true |}] in
  ∃ data, SerializeToString (Some (row 1)) = Ok data ∧
    DeserializeFromString data (Some 3) = Ok (Some (row NoFlags ++ [{| Id := 2; Flags := NoFlags; Value := ValueNull |}])).
Proof.
  intros row. destruct (SerializeToString_roundtrip (Some (row 1)) (Some 3)) as (data & E1 & E2).
  - apply (bool_decide_unpack _). vm_compute. exact I.
  - vm_compute. reflexivity.
  - vm_compute. reflexivity.
  - exists data. split; [exact E1|exact E2].
Defined.

(** The YSON form of a scalar keeps its place in the order: for values of any scalar types
    (null included), [WriteYson] fits the buffer [GetYsonSize] asks for, neither call
    throws, and comparing the two texts with [CompareYsonValues] gives what
    [CompareRowValues] gives for the values, also across types. *)
Theorem WriteYson_order (FloatToString : Z → list byte) (fd : list byte → Result Z) (Hfd : total_conversion fd)
    (v1 v2 : TUnversionedValue) (t1 t2 : TComposite)
    (H1 : scalar_tree v1 = Some t1) (H2 : scalar_tree v2 = Some t2) (R1 : representable t1) (R2 : representable t2) :
  ∃ y1 y2, WriteYson FloatToString v1 = Ok y1 ∧ WriteYson FloatToString v2 = Ok y2 ∧
    CompareYsonValues fd y1 y2 = CompareRowValues fd v1 v2.
Proof.
  exists (composite_binary t1), (composite_binary t2). split_and!; [by apply WriteYson_tree..|].
  rewrite (CompareRowValues_column fd false v1 v2 _ _ Hfd (tree_column fd v1 t1 H1) (tree_column fd v2 t2 H2)), <- compare_tree by done.
  apply CompareYsonValues_composite; [done|apply composite_binary_comparable..]; try done.
  - destruct v1; simplify_eq/=; unfold nesting_limit; lia.
  - destruct v2; simplify_eq/=; unfold nesting_limit; lia.
Qed.

Lemma WriteYson_order_witness :
  ∃ y1 y2, WriteYson (λ _, []) (ValueUint64 1) = Ok y1 ∧ WriteYson (λ _, []) (ValueString (B"ab")) = Ok y2 ∧
    CompareYsonValues (λ _, Ok 0) y1 y2 = CompareRowValues (λ _, Ok 0) (ValueUint64 1) (ValueString (B"ab")) ∧
    CompareRowValues (λ _, Ok 0) (ValueUint64 1) (ValueString (B"ab")) = Ok (-1).
Proof.
  destruct (WriteYson_order (λ _, []) (λ _, Ok 0) ltac:(done) (ValueUint64 1) (ValueString (B"ab")) _ _ eq_refl eq_refl)
    as (y1 & y2 & E1 & E2 & E3); [split; vm_compute; discriminate || reflexivity|vm_compute; reflexivity|].
  exists y1, y2. split; [exact E1|]. split; [exact E2|]. split; [exact E3|vm_compute; reflexivity].
Defined.
