(* ===== verification/KeySuccessors.v ===== *)
(** Successors and widened keys of legacy rows
    ([yt/yt/client/table_client/unversioned_row.cpp]).

    A range of rows is given by rows; the functions here make the row behind a key, or
    behind all keys with a prefix, by adding a sentinel. Rows are compared by [CompareRows];
    [compare_data] is that comparison on what the values denote. Row buffers and builders
    only hold memory: a row is the list of its values. *)

From S2P Require Import Prelude YsonParser Compare CompositeCompare RowValues KeyBound Comparator KeyOrder KeyRanges LegacyRows.

(** [MakeUnversionedSentinelValue] for the sentinel types the callers use. *)
Definition MakeUnversionedSentinelValue (type : EValueType) : TUnversionedValue :=
  match type with TypeMin => ValueMin | TypeMax => ValueMax | TheBottom => ValueTheBottom | _ => ValueNull end.

Definition GetKeySuccessorImpl (key : list TUnversionedValue) (prefixLength : nat) (sentinelType : EValueType) : list TUnversionedValue :=
  let length := Nat.min prefixLength (length key) in
  take length key ++ [MakeUnversionedSentinelValue sentinelType].

Definition GetKeySuccessor (key : list TUnversionedValue) : list TUnversionedValue := GetKeySuccessorImpl key (length key) TypeMin.

Definition GetKeyPrefixSuccessor (key : list TUnversionedValue) (prefixLength : nat) : list TUnversionedValue :=
  GetKeySuccessorImpl key prefixLength TypeMax.

Definition GetKeyPrefix (key : list TUnversionedValue) (prefixLength : nat) : list TUnversionedValue :=
  take (Nat.min (length key) prefixLength) key.

Definition WidenKeyPrefix (key : list TUnversionedValue) (prefixLength keyColumnCount : nat) (sentinelType : EValueType)
    : Result (list TUnversionedValue) :=
  Verify (Nat.leb prefixLength (length key) && Nat.leb prefixLength keyColumnCount);;
  if Nat.eqb (length key) prefixLength && Nat.eqb prefixLength keyColumnCount then Ok key
  else Ok (take prefixLength key ++ replicate (keyColumnCount - prefixLength) (MakeUnversionedSentinelValue sentinelType)).

Definition WidenKey (key : list TUnversionedValue) (keyColumnCount : nat) (sentinelType : EValueType) : Result (list TUnversionedValue) :=
  WidenKeyPrefix key (length key) keyColumnCount sentinelType.

Definition WidenKeySuccessor (key : list TUnversionedValue) (keyColumnCount : nat) (sentinelType : EValueType)
    : Result (list TUnversionedValue) :=
  Verify (Nat.leb (length key) keyColumnCount);;
  Ok (key ++ replicate (keyColumnCount - length key) (MakeUnversionedSentinelValue sentinelType) ++ [MakeUnversionedSentinelValue TypeMax]).

Definition GetStrictKey (key : list TUnversionedValue) (keyColumnCount : nat) (sentinelType : EValueType) : Result (list TUnversionedValue) :=
  if Nat.ltb keyColumnCount (length key) then Ok (GetKeyPrefix key keyColumnCount) else WidenKey key keyColumnCount sentinelType.

Definition GetStrictKeySuccessor (key : list TUnversionedValue) (keyColumnCount : nat) (sentinelType : EValueType)
    : Result (list TUnversionedValue) :=
  if Nat.leb keyColumnCount (length key) then Ok (GetKeyPrefixSuccessor key keyColumnCount)
  else WidenKeySuccessor key keyColumnCount sentinelType.

Definition MakeSentinelKey (type : EValueType) : list TUnversionedValue := [MakeUnversionedSentinelValue type].
Definition MinKey : list TUnversionedValue := MakeSentinelKey TypeMin.
Definition MaxKey : list TUnversionedValue := MakeSentinelKey TypeMax.

Section Choose.
Context (fd : list byte → Result Z) (prefixLength : nat).

Definition ChooseMinKey (a b : list TUnversionedValue) : Result (list TUnversionedValue) :=
  result ← CompareRows fd (Some a) (Some b) prefixLength; Ok (if result <=? 0 then a else b).
Definition ChooseMaxKey (a b : list TUnversionedValue) : Result (list TUnversionedValue) :=
  result ← CompareRows fd (Some a) (Some b) prefixLength; Ok (if result >=? 0 then a else b).
End Choose.

(** ** The order of rows *)

Fixpoint compare_data (d1 d2 : list TDatum) : Z :=
  match d1, d2 with
  | x1 :: d1, x2 :: d2 => let r := compare_datum x1 x2 in if r =? 0 then compare_data d1 d2 else r
  | _, _ => Z.of_nat (length d1) - Z.of_nat (length d2)
  end.

Section Rows.
Context (fd : list byte → Result Z) (Hfd : total_conversion fd) (composite : nat → bool).

#[local] Abbreviation column := (λ i, column_value fd (composite i)).

Lemma CompareValueRanges_data i l1 l2 d1 d2 : row_data column i l1 d1 → row_data column i l2 d2 →
  CompareValueRanges fd l1 l2 = Ok (compare_data d1 d2).
Proof.
  revert i l2 d1 d2. induction l1 as [|v1 l1 IH]; intros i [|v2 l2] [|x1 d1] [|x2 d2]; try done.
  - intros _ H. pose proof (row_data_length column _ _ _ H) as E. unfold CompareValueRanges. simpl in *. f_equal. lia.
  - intros H _. pose proof (row_data_length column _ _ _ H) as E. unfold CompareValueRanges. simpl in *. f_equal. lia.
  - intros [H1 H1'] [H2 H2']. rewrite CompareValueRanges_cons, (CompareRowValues_column fd (composite i) v1 v2 x1 x2 Hfd H1 H2). run_bind.
    rewrite (IH (S i) l2 d1 d2 H1' H2'). simpl. by destruct (compare_datum x1 x2 =? 0).
Qed.

Lemma CompareRows_data l1 l2 d1 d2 n : row_data column 0 l1 d1 → row_data column 0 l2 d2 →
  CompareRows fd (Some l1) (Some l2) n = Ok (compare_data (take n d1) (take n d2)).
Proof.
  intros H1 H2. unfold CompareRows. pose proof (row_data_length column _ _ _ H1) as E1. pose proof (row_data_length column _ _ _ H2) as E2.
  assert (∀ (l : list TUnversionedValue), take (Nat.min (length l) n) l = take n l) as Htake.
  { intros l. destruct (Nat.min_spec (length l) n) as [[? ->]|[? ->]]; [|done]. rewrite firstn_all, take_ge by lia. done. }
  rewrite !Htake. apply (CompareValueRanges_data 0); by apply row_data_take.
Qed.

Lemma min_below i value d : column i value d → 0 <= compare_datum d (value_type_index TypeMin, CEntity).
Proof.
  intros [[Hr Hd] _]. unfold compare_datum. destruct d as [r t]; simpl in *. subst r.
  destruct (Z.eqb_spec (value_type_index (ValueType value)) 0) as [E|E].
  - destruct value; try done. by subst t.
  - destruct value; try done; simpl; lia.
Qed.

Lemma max_above i value d : column i value d → is_data value → compare_datum d (value_type_index TypeMax, CEntity) < 0.
Proof.
  intros [[Hr Hd] _] Hdata. unfold compare_datum. destruct d as [r t]; simpl in *. subst r. unfold is_data in Hdata. by destruct value.
Qed.

Lemma compare_data_nil d : compare_data d [] = Z.of_nat (length d).
Proof. destruct d; simpl; lia. Qed.

Lemma successor_data i row (dr dk : list TDatum) : row_data column i row dr →
  (0 <= compare_data dr (dk ++ [(value_type_index TypeMin, CEntity)]) ↔ 0 < compare_data dr dk).
Proof.
  revert i row dk. induction dr as [|x dr IH]; intros i [|v row] [|y dk] H; simpl in *; try done; try lia.
  - destruct H as [H _]. pose proof (min_below i v x H) as Hmin. simpl in Hmin. rewrite compare_data_nil. destruct (Z.eqb_spec (compare_datum x (0, CEntity)) 0); lia.
  - destruct H as [_ H]. destruct (Z.eqb_spec (compare_datum x y) 0); [by eapply IH|lia].
Qed.

(** Behind all rows of data with a prefix. *)
Lemma prefix_successor_data i row (dr dk : list TDatum) n : row_data column i row dr → Forall is_data row → (n <= length dk)%nat →
  (0 < compare_data dr (take n dk ++ [(value_type_index TypeMax, CEntity)]) ↔ 0 < compare_data (take n dr) (take n dk)) ∧
  compare_data dr (take n dk ++ [(value_type_index TypeMax, CEntity)]) ≠ 0.
Proof.
  revert i row dk n. induction dr as [|x dr IH]; intros i [|v row] [|y dk] [|n] H Hdata Hn; simpl in *; try done; try lia.
  - destruct H as [H _]. pose proof (max_above i v x H (Forall_inv Hdata)) as Hmax. simpl in Hmax.
    rewrite (proj2 (Z.eqb_neq _ 0)) by lia. lia.
  - destruct H as [H _]. pose proof (max_above i v x H (Forall_inv Hdata)) as Hmax. simpl in Hmax.
    rewrite (proj2 (Z.eqb_neq _ 0)) by lia. lia.
  - destruct H as [_ H]. destruct (Z.eqb_spec (compare_datum x y) 0); [|lia].
    apply (IH (S i) row); [done|by eapply Forall_inv_tail|lia].
Qed.

Lemma row_data_sentinel i l (d : list TDatum) type : type = TypeMin ∨ type = TypeMax → row_data column i l d →
  row_data column i (l ++ [MakeUnversionedSentinelValue type]) (d ++ [(value_type_index type, CEntity)]).
Proof.
  intros Ht. revert i d. induction l as [|v l IH]; intros i [|x d]; simpl; try done; [|intros [H1 H2]; split; [done|by apply IH]].
  intros _. split; [|done]. split; destruct Ht as [->| ->]; try done; unfold column_type; destruct (composite i); simpl; auto.
Qed.

End Rows.

(** The strict successor is the strict key with [Max] behind it. *)
Lemma GetStrictKeySuccessor_app key n type : ∃ strict, GetStrictKey key n type = Ok strict ∧
  GetStrictKeySuccessor key n type = Ok (strict ++ [ValueMax]) ∧ length strict = n.
Proof.
  unfold GetStrictKey, GetStrictKeySuccessor, GetKeyPrefix, GetKeyPrefixSuccessor, GetKeySuccessorImpl, WidenKey, WidenKeySuccessor, WidenKeyPrefix.
  rewrite Nat.leb_refl, firstn_all. simpl. destruct (Nat.ltb_spec n (length key)) as [Hlt|Hge].
  - rewrite (proj2 (Nat.leb_le n (length key))), (Nat.min_l n), (Nat.min_r _ n) by lia. eexists. split_and!; [done..|]. rewrite length_take. lia.
  - rewrite (proj2 (Nat.leb_le (length key) n)) by lia. cbn [Verify mbind result_bind]. rewrite Nat.eqb_refl. cbn [andb].
    destruct (Nat.eqb_spec (length key) n) as [<-|Hne].
    + rewrite Nat.leb_refl, Nat.min_id, firstn_all. by eexists.
    + rewrite (proj2 (Nat.leb_gt n (length key))) by lia. eexists. split; [done|]. rewrite <- app_assoc. split; [done|].
      rewrite length_app, length_replicate. lia.
Qed.

(** ** Theorems *)

(** Key successors are least upper rows: for rows whose columns hold comparable values
    (sentinels included), the successor of a key is greater than the key, and a row is not
    less than the successor exactly when it is greater than the key; the successor of a
    prefix is less than a row of data exactly when the row's prefix is greater than the
    key's, and never equal to it. *)
Theorem GetKeySuccessor_least (fd : list byte → Result Z) (Hfd : total_conversion fd) (composite : nat → bool)
    (key row : list TUnversionedValue) (dk dr : list TDatum) (n : nat)
    (Hkey : row_data (λ i, column_value fd (composite i)) 0 key dk) (Hrow : row_data (λ i, column_value fd (composite i)) 0 row dr)
    (Hdata : Forall is_data row) (Hn : (n <= length key)%nat) :
  let max := S (Nat.max (length key) (length row)) in
  ∃ z succ prefix prefix_succ,
    CompareRows fd (Some row) (Some key) max = Ok z ∧
    CompareRows fd (Some row) (Some (GetKeySuccessor key)) max = Ok succ ∧ (0 <= succ ↔ 0 < z) ∧
    CompareRows fd (Some row) (Some key) n = Ok prefix ∧
    CompareRows fd (Some row) (Some (GetKeyPrefixSuccessor key n)) max = Ok prefix_succ ∧ (0 < prefix_succ ↔ 0 < prefix) ∧ prefix_succ ≠ 0.
Proof.
  intros max. assert (S (length key) <= max ∧ S (length row) <= max)%nat as Hmax by (unfold max; lia). clearbody max.
  pose proof (row_data_length _ _ _ _ Hkey) as Lk. pose proof (row_data_length _ _ _ _ Hrow) as Lr.
  unfold GetKeySuccessor, GetKeyPrefixSuccessor, GetKeySuccessorImpl. rewrite Nat.min_id, firstn_all, (Nat.min_l n) by lia.
  pose proof (row_data_sentinel fd composite 0 key dk TypeMin ltac:(by left) Hkey) as Hs.
  pose proof (row_data_sentinel fd composite 0 (take n key) (take n dk) TypeMax ltac:(by right) (row_data_take _ _ n _ _ Hkey)) as Hp.
  rewrite (CompareRows_data fd Hfd composite row key dr dk max Hrow Hkey), (CompareRows_data fd Hfd composite row _ dr _ max Hrow Hs).
  rewrite (CompareRows_data fd Hfd composite row key dr dk n Hrow Hkey), (CompareRows_data fd Hfd composite row _ dr _ max Hrow Hp).
  rewrite !(take_ge _ max) by (rewrite ?length_app, ?length_take; simpl; lia).
  destruct (prefix_successor_data fd composite 0 row dr dk n Hrow Hdata ltac:(rewrite Lk in Hn; exact Hn)) as [H1 H2].
  eexists _, _, _, _. split; [done|]. split; [done|]. split; [by eapply successor_data|]. do 2 (split; [done|]). by split.
Qed.

Lemma GetKeySuccessor_least_witness :
  let key := [ValueInt64 1; ValueInt64 5] in
  let row := [ValueInt64 1; ValueInt64 5; ValueNull] in
  ∃ z succ prefix prefix_succ,
    CompareRows Samples.fd (Some row) (Some key) 4 = Ok z ∧
    CompareRows Samples.fd (Some row) (Some (GetKeySuccessor key)) 4 = Ok succ ∧ (0 <= succ ↔ 0 < z) ∧
    CompareRows Samples.fd (Some row) (Some key) 1 = Ok prefix ∧
    CompareRows Samples.fd (Some row) (Some (GetKeyPrefixSuccessor key 1)) 4 = Ok prefix_succ ∧ (0 < prefix_succ ↔ 0 < prefix) ∧ prefix_succ ≠ 0.
Proof.
  intros key row. apply (GetKeySuccessor_least Samples.fd ltac:(done) (λ _, false) key row
    [Samples.datum 1; Samples.datum 5] [Samples.datum 1; Samples.datum 5; (value_type_index TypeNull, CEntity)] 1).
  - by repeat split.
  - by repeat split.
  - repeat constructor.
  - simpl. lia.
Defined.

(** The strict successor ends the range of a strict key: trimmed or widened to the number
    of key columns, a key has a successor, the strict key with [Max] behind it, and the
    rows of that many data values that are less than the successor are exactly those that
    are not greater than the strict key. *)
Theorem GetStrictKeySuccessor_correct (fd : list byte → Result Z) (Hfd : total_conversion fd) (composite : nat → bool)
    (key strict row : list TUnversionedValue) (sentinelType : EValueType) (ds dr : list TDatum) (n : nat)
    (Hstrict : GetStrictKey key n sentinelType = Ok strict)
    (Hkey : row_data (λ i, column_value fd (composite i)) 0 strict ds) (Hrow : row_data (λ i, column_value fd (composite i)) 0 row dr)
    (Hdata : Forall is_data row) (Hlen : length row = n) :
  ∃ z succ, GetStrictKeySuccessor key n sentinelType = Ok (strict ++ [ValueMax]) ∧ length strict = n ∧
    CompareRows fd (Some row) (Some strict) (S n) = Ok z ∧
    CompareRows fd (Some row) (Some (strict ++ [ValueMax])) (S n) = Ok succ ∧ (succ < 0 ↔ z <= 0).
Proof.
  destruct (GetStrictKeySuccessor_app key n sentinelType) as (strict' & E & Es & Ls). rewrite Hstrict in E. injection E as <-.
  pose proof (row_data_length _ _ _ _ Hkey) as Lk. pose proof (row_data_length _ _ _ _ Hrow) as Lr.
  pose proof (row_data_sentinel fd composite 0 strict ds TypeMax ltac:(by right) Hkey) as Hs.
  destruct (prefix_successor_data fd composite 0 row dr ds n Hrow Hdata ltac:(rewrite <- Ls, Lk; apply le_n)) as [H1 H2].
  assert (take n dr = dr) as Er by (apply take_ge; rewrite <- Lr; lia). assert (take n ds = ds) as Ed by (apply take_ge; rewrite <- Lk; lia).
  rewrite Er, Ed in H1. rewrite Ed in H2.
  rewrite (CompareRows_data fd Hfd composite row strict dr ds (S n) Hrow Hkey), (CompareRows_data fd Hfd composite row (strict ++ [ValueMax]) dr _ (S n) Hrow Hs).
  rewrite !(take_ge _ (S n)) by (rewrite ?length_app, <- ?Lk, <- ?Lr; simpl; lia).
  eexists _, _. do 4 (split; [done|]). split; lia.
Qed.

Lemma GetStrictKeySuccessor_correct_witness :
  ∃ z succ, GetStrictKeySuccessor [ValueInt64 1] 2 TypeNull = Ok [ValueInt64 1; ValueNull; ValueMax] ∧ length [ValueInt64 1; ValueNull] = 2%nat ∧
    CompareRows Samples.fd (Samples.key 1 5) (Some [ValueInt64 1; ValueNull]) 3 = Ok z ∧
    CompareRows Samples.fd (Samples.key 1 5) (Some [ValueInt64 1; ValueNull; ValueMax]) 3 = Ok succ ∧ (succ < 0 ↔ z <= 0).
Proof.
  apply (GetStrictKeySuccessor_correct Samples.fd ltac:(done) (λ _, false) [ValueInt64 1] [ValueInt64 1; ValueNull] [ValueInt64 1; ValueInt64 5]
    TypeNull [Samples.datum 1; (value_type_index TypeNull, CEntity)] [Samples.datum 1; Samples.datum 5] 2).
  - reflexivity.
  - by repeat split.
  - by repeat split.
  - repeat constructor.
  - reflexivity.
Defined.
