(* ===== verification/YsonConsumers.v ===== *)
(** Consumers around consumers: the consumer that ignores its calls (null_consumer.cpp), the
    base class that passes calls on (forwarding_consumer.cpp) with the tee, the consumer
    that limits the depth (depth_limiting_yson_consumer.cpp) and the one that drops attributes
    (attributes_stripper.cpp).

    A forwarding consumer holds pointers to consumers that live outside: their states are
    the objects of [Heap], a pointer is an index, so that what was told to a consumer is
    still there after the pointers are dropped. *)

From S2P Require Import Prelude YsonStream YsonEvents YsonParser YsonGrammar YsonWriter.

(** ** The consumer that ignores everything *)

Abbreviation TNullYsonConsumer := unit.
#[export] Instance NullYsonConsumer : IYsonConsumer TNullYsonConsumer := λ _ c, Ok (c, false).

(** ** Forwarding *)

Module Forwarding.
Section Forwarding.
Context {D S : Type} `{OD : IYsonConsumer D}.

(** [TState]; [OnFinished] may use the consumers and the fields of the derived class. *)
Record TState := {
  ForwardingConsumers : list nat;
  ForwardingDepth : Z;
  ForwardingType : EYsonType;
  OnFinished : option (list D → S → Result (list D * S))
}.

(** A consumer derived from [TForwardingYsonConsumer] with the fields [Derived]. *)
Record t := { State_ : TState; Heap : list D; Derived : S }.

Definition NewState : TState := {| ForwardingConsumers := []; ForwardingDepth := 0; ForwardingType := YsonNode; OnFinished := None |}.

Definition Forward (consumers : list nat) (onFinished : option (list D → S → Result (list D * S))) (type : EYsonType) (c : t) : Result t :=
  _ ← Verify (bool_decide (ForwardingConsumers (State_ c) = []));
  _ ← Verify (negb (bool_decide (consumers = [])));
  _ ← Verify (ForwardingDepth (State_ c) =? 0);
  Ok {| State_ := {| ForwardingConsumers := consumers; ForwardingDepth := ForwardingDepth (State_ c); ForwardingType := type; OnFinished := onFinished |};
        Heap := Heap c; Derived := Derived c |}.

Definition FinishForwarding (c : t) : Result t :=
  let finished := {| ForwardingConsumers := []; ForwardingDepth := ForwardingDepth (State_ c); ForwardingType := ForwardingType (State_ c); OnFinished := None |} in
  match OnFinished (State_ c) with
  | None => Ok {| State_ := finished; Heap := Heap c; Derived := Derived c |}
  | Some onFinished => '(heap, derived) ← onFinished (Heap c) (Derived c); Ok {| State_ := finished; Heap := heap; Derived := derived |}
  end.

Definition CheckForwarding (depthDelta : Z) (c : t) : Result (t * bool) :=
  c ← if ForwardingDepth (State_ c) + depthDelta <? 0 then FinishForwarding c else Ok c;
  Ok (c, negb (bool_decide (ForwardingConsumers (State_ c) = []))).

Definition UpdateDepth (depthDelta : Z) (checkFinish : bool) (c : t) : Result t :=
  let depth := ForwardingDepth (State_ c) + depthDelta in
  let c := {| State_ := {| ForwardingConsumers := ForwardingConsumers (State_ c); ForwardingDepth := depth; ForwardingType := ForwardingType (State_ c); OnFinished := OnFinished (State_ c) |};
              Heap := Heap c; Derived := Derived c |} in
  _ ← Verify (depth >=? 0);
  if checkFinish && bool_decide (ForwardingType (State_ c) = YsonNode) && (depth =? 0) then FinishForwarding c else Ok c.

(** The loop over the consumers. *)
Fixpoint each_consumer (ev : TYsonEvent) (consumers : list nat) (heap : list D) : Result (list D * bool) :=
  match consumers with
  | [] => Ok (heap, false)
  | consumer :: consumers =>
      match heap !! consumer with
      | None => Crash
      | Some d =>
          '(d, stop) ← OnEvent ev d;
          '(heap, stops) ← each_consumer ev consumers (<[consumer := d]> heap);
          Ok (heap, stop || stops)
      end
  end.

(** The argument of [CheckForwarding], and those of [UpdateDepth] where it is called. *)
Definition depth_delta (ev : TYsonEvent) : Z :=
  match ev with
  | OnBeginList | OnBeginMap | OnBeginAttributes => 1
  | OnEndList | OnEndMap | OnEndAttributes => -1
  | _ => 0
  end.
Definition depth_update (ev : TYsonEvent) : option (Z * bool) :=
  match ev with
  | OnListItem | OnKeyedItem _ => None
  | OnEndAttributes => Some (-1, false)
  | _ => Some (depth_delta ev, true)
  end.

(** The methods of the consumer; [OnMy] are those of the derived class. *)
Definition OnForward (OnMy : TYsonEvent → t → Result (t * bool)) (ev : TYsonEvent) (c : t) : Result (t * bool) :=
  '(c, forwarding) ← CheckForwarding (depth_delta ev) c;
  if forwarding : bool then
    '(heap, stop) ← each_consumer ev (ForwardingConsumers (State_ c)) (Heap c);
    let c := {| State_ := State_ c; Heap := heap; Derived := Derived c |} in
    c ← match depth_update ev with None => Ok c | Some (delta, checkFinish) => UpdateDepth delta checkFinish c end;
    Ok (c, stop)
  else OnMy ev c.
End Forwarding.
Arguments TState : clear implicits.
Arguments t : clear implicits.
End Forwarding.

(** ** The tee *)

(** [TTeeYsonConsumer] has no fields and keeps the methods of the base class, which abort. *)
Definition TTeeYsonConsumer (D : Type) : Type := Forwarding.t D unit.

Definition NewTee {D} (consumers : list D) (type : EYsonType) : Result (TTeeYsonConsumer D) :=
  Forwarding.Forward (seq 0 (length consumers)) None type {| Forwarding.State_ := Forwarding.NewState; Forwarding.Heap := consumers; Forwarding.Derived := () |}.

#[export] Instance TeeYsonConsumer {D} `{IYsonConsumer D} : IYsonConsumer (TTeeYsonConsumer D) :=
  Forwarding.OnForward (λ _ _, Crash).

(** ** The limit on the depth *)

Definition TruncatedStubMessage : list byte := B"<truncated>".

Record TDepthLimitingFields U := { UnderlyingConsumer_ : U; DepthLimit_ : Z; Depth_ : Z }.
Arguments UnderlyingConsumer_ {U} _.
Arguments DepthLimit_ {U} _.
Arguments Depth_ {U} _.

(** The consumers it forwards to: its own [NullConsumer_]. *)
Definition TDepthLimitingYsonConsumer (U : Type) : Type := Forwarding.t TNullYsonConsumer (TDepthLimitingFields U).

Section DepthLimiting.
Context {U : Type} `{IYsonConsumer U}.
Context (FromString_double : list byte → Result Z).

Definition NewDepthLimiting (underlyingConsumer : U) (depthLimit : Z) (ysonType : EYsonType) : Result (TDepthLimitingYsonConsumer U) :=
  let c := {| Forwarding.State_ := Forwarding.NewState; Forwarding.Heap := [()];
              Forwarding.Derived := {| UnderlyingConsumer_ := underlyingConsumer; DepthLimit_ := depthLimit; Depth_ := 0 |} |} in
  if depthLimit <? 0 then Throw EOutOfRange
  else if depthLimit =? 0 then Forwarding.Forward [0%nat] None ysonType c else Ok c.

Definition set_Depth (depth : Z) (c : TDepthLimitingYsonConsumer U) : TDepthLimitingYsonConsumer U :=
  {| Forwarding.State_ := Forwarding.State_ c; Forwarding.Heap := Forwarding.Heap c;
     Forwarding.Derived := {| UnderlyingConsumer_ := UnderlyingConsumer_ (Forwarding.Derived c); DepthLimit_ := DepthLimit_ (Forwarding.Derived c); Depth_ := depth |} |}.

(** A call of the underlying consumer. *)
Definition tell (ev : TYsonEvent) (c : TDepthLimitingYsonConsumer U) : Result (TDepthLimitingYsonConsumer U * bool) :=
  '(u, stop) ← OnEvent ev (UnderlyingConsumer_ (Forwarding.Derived c));
  Ok ({| Forwarding.State_ := Forwarding.State_ c; Forwarding.Heap := Forwarding.Heap c;
         Forwarding.Derived := {| UnderlyingConsumer_ := u; DepthLimit_ := DepthLimit_ (Forwarding.Derived c); Depth_ := Depth_ (Forwarding.Derived c) |} |}, stop).

Definition OnMyBegin (ev : TYsonEvent) (stub : option TYsonEvent) (type : EYsonType) (c : TDepthLimitingYsonConsumer U) : Result (TDepthLimitingYsonConsumer U * bool) :=
  let c := set_Depth (Depth_ (Forwarding.Derived c) + 1) c in
  if Depth_ (Forwarding.Derived c) <? DepthLimit_ (Forwarding.Derived c) then tell ev c
  else
    '(c, stop) ← match stub with Some stub => tell stub c | None => Ok (c, false) end;
    c ← Forwarding.Forward [0%nat] None type c;
    Ok (c, stop).

Definition OnMyEnd (ev : TYsonEvent) (c : TDepthLimitingYsonConsumer U) : Result (TDepthLimitingYsonConsumer U * bool) :=
  '(c, stop) ← if Depth_ (Forwarding.Derived c) <? DepthLimit_ (Forwarding.Derived c) then tell ev c else Ok (c, false);
  Ok (set_Depth (Depth_ (Forwarding.Derived c) - 1) c, stop).

(** The methods other than [OnMyRaw]. *)
Definition OnMyPlain (ev : TYsonEvent) (c : TDepthLimitingYsonConsumer U) : Result (TDepthLimitingYsonConsumer U * bool) :=
  match ev with
  | OnBeginList => OnMyBegin ev (Some (OnStringScalar TruncatedStubMessage)) YsonListFragment c
  | OnBeginMap => OnMyBegin ev (Some (OnStringScalar TruncatedStubMessage)) YsonMapFragment c
  | OnBeginAttributes => OnMyBegin ev None YsonMapFragment c
  | OnEndList | OnEndMap | OnEndAttributes => OnMyEnd ev c
  | OnRaw _ _ => Crash
  | _ => tell ev c
  end.

(** [OnMyRaw] parses the text and makes the calls on this consumer. *)
Definition OnMy (ev : TYsonEvent) (c : TDepthLimitingYsonConsumer U) : Result (TDepthLimitingYsonConsumer U * bool) :=
  match ev with
  | OnRaw yson type =>
      p ← DoParse (H := Forwarding.OnForward OnMyPlain) FromString_double DefaultMemoryLimit DefaultYsonParserNestingLevelLimit type (NewParser (TStringReader yson) c);
      Ok (Consumer p, false)
  | _ => OnMyPlain ev c
  end.

#[export] Instance DepthLimitingYsonConsumer : IYsonConsumer (TDepthLimitingYsonConsumer U) := Forwarding.OnForward OnMy.
End DepthLimiting.

(** ** Without attributes *)

Record TYsonAttributesStripper U := { Output_ : U; AttributesDepth_ : Z }.
Arguments Output_ {U} _.
Arguments AttributesDepth_ {U} _.

#[export] Instance YsonAttributesStripper {U} `{IYsonConsumer U} : IYsonConsumer (TYsonAttributesStripper U) := λ ev c,
  match ev with
  | OnBeginAttributes => Ok ({| Output_ := Output_ c; AttributesDepth_ := AttributesDepth_ c + 1 |}, false)
  | OnEndAttributes => Ok ({| Output_ := Output_ c; AttributesDepth_ := AttributesDepth_ c - 1 |}, false)
  | _ =>
      if AttributesDepth_ c =? 0 then
        '(output, stop) ← OnEvent ev (Output_ c);
        Ok ({| Output_ := output; AttributesDepth_ := AttributesDepth_ c |}, stop)
      else Ok (c, false)
  end.

(** [StripAttributes]: the writer is that of a node whatever the type of the text. *)
Definition default_config : TYsonWriterConfig :=
  {| Format := Binary; Type_ := YsonNode; EnableRaw := false; IndentSize := 4; PassThroughUtf8Characters := false |}.

Definition StripAttributes (FloatToString : Z → list byte) (FromString_double : list byte → Result Z) (yson : list byte) (type : EYsonType) : Result (list byte) :=
  p ← DoParse (H := YsonAttributesStripper (H := YsonWriter FloatToString FromString_double default_config))
        FromString_double DefaultMemoryLimit DefaultYsonParserNestingLevelLimit type
        (NewParser (TStringReader yson) {| Output_ := NewYsonWriter; AttributesDepth_ := 0 |});
  Ok (Output (Output_ (Consumer p))).

(** ** A consumer that passes calls on *)

(** Making the calls [evs] on the consumer [c] makes the calls [evs'] on the consumer [u]
    behind it: the outcome is the same, and when all calls are made the states are related. *)
Section Follows.
Context {C U : Type} `{IYsonConsumer C} `{IYsonConsumer U} (behind : C → U).

Definition follows (R : U → C → Prop) (evs : list TYsonEvent) (c : C) (evs' : list TYsonEvent) (u : U) : Prop :=
  match feed evs' u with
  | Ok (u', false) => ∃ c', feed evs c = Ok (c', false) ∧ R u' c'
  | Ok (u', true) => ∃ c', feed evs c = Ok (c', true) ∧ behind c' = u'
  | Throw e => feed evs c = Throw e
  | Crash => feed evs c = Crash
  | OutOfFuel => feed evs c = OutOfFuel
  end.

Lemma follows_nil (R : U → C → Prop) c u : R u c → follows R [] c [] u.
Proof. intros HR. exists c. done. Qed.

Lemma follows_app (R1 R2 : U → C → Prop) evs1 evs2 c evs1' evs2' u :
  follows R1 evs1 c evs1' u → (∀ u1 c1, R1 u1 c1 → follows R2 evs2 c1 evs2' u1) → follows R2 (evs1 ++ evs2) c (evs1' ++ evs2') u.
Proof.
  intros H1 H2. unfold follows in *. rewrite !feed_app. destruct (feed evs1' u) as [[u1 [|]]| | |]; cbn.
  - destruct H1 as (c1 & -> & Hc). cbn. eauto.
  - destruct H1 as (c1 & -> & Hc). cbn. by apply H2.
  - by rewrite H1.
  - by rewrite H1.
  - by rewrite H1.
Qed.

Lemma follows_cons (R1 R2 : U → C → Prop) ev evs c ev' evs' u :
  follows R1 [ev] c [ev'] u → (∀ u1 c1, R1 u1 c1 → follows R2 evs c1 evs' u1) → follows R2 (ev :: evs) c (ev' :: evs') u.
Proof. apply (follows_app R1 R2 [ev] evs c [ev'] evs' u). Qed.

(** One call that is passed on. *)
Lemma follows_one (R : U → C → Prop) ev c ev' u (f : U → C) :
  OnEvent ev c = ('(u', stop) ← OnEvent ev' u; Ok (f u', stop)) → (∀ u', R u' (f u')) → (∀ u', behind (f u') = u') → follows R [ev] c [ev'] u.
Proof.
  intros E HR Hb. unfold follows. cbn [feed]. rewrite E. destruct (OnEvent ev' u) as [[u' [|]]| | |]; cbn; eauto.
Qed.

Lemma follows_silent (R : U → C → Prop) evs1 evs2 c c1 evs' u : feed evs1 c = Ok (c1, false) → follows R evs2 c1 evs' u → follows R (evs1 ++ evs2) c evs' u.
Proof.
  intros E H2. unfold follows in *. rewrite feed_app, E. cbn. done.
Qed.
End Follows.

(** ** What the limit leaves of a document *)

(** [k] levels are left. *)
Fixpoint limit_node (k : nat) (n : TNode) : TNode :=
  match n with
  | Node attributes value =>
      Node (match attributes, k with
            | Some items, S (S _ as k) => Some (map (λ item : list byte * TNode, (item.1, limit_node k item.2)) items)
            | _, _ => None
            end)
           (limit_value k value)
  end
with limit_value (k : nat) (v : TValue) : TValue :=
  match v with
  | VList items => match k with S (S _ as k) => VList (map (limit_node k) items) | _ => VString TruncatedStubMessage end
  | VMap items => match k with S (S _ as k) => VMap (map (λ item : list byte * TNode, (item.1, limit_node k item.2)) items) | _ => VString TruncatedStubMessage end
  | _ => v
  end.

Definition limit_items (k : nat) (items : list (list byte * TNode)) : list (list byte * TNode) := map (λ item, (item.1, limit_node k item.2)) items.

Section Limited.
Context {U : Type} `{O : IYsonConsumer U} (fd : list byte → Result Z) (limit : Z).

#[local] Abbreviation C := (TDepthLimitingYsonConsumer U).
#[local] Existing Instance NullYsonConsumer.
#[local] Instance Limiter : IYsonConsumer C := DepthLimitingYsonConsumer fd.

Definition fields (u : U) (depth : Z) : TDepthLimitingFields U := {| UnderlyingConsumer_ := u; DepthLimit_ := limit; Depth_ := depth |}.

(** Not forwarding, and forwarding to the null consumer. *)
Definition idle (type : EYsonType) (depth : Z) (u : U) : C :=
  {| Forwarding.State_ := {| Forwarding.ForwardingConsumers := []; Forwarding.ForwardingDepth := 0; Forwarding.ForwardingType := type; Forwarding.OnFinished := None |};
     Forwarding.Heap := [()]; Forwarding.Derived := fields u depth |}.
Definition busy (level : Z) (type : EYsonType) (depth : Z) (u : U) : C :=
  {| Forwarding.State_ := {| Forwarding.ForwardingConsumers := [0%nat]; Forwarding.ForwardingDepth := level; Forwarding.ForwardingType := type; Forwarding.OnFinished := None |};
     Forwarding.Heap := [()]; Forwarding.Derived := fields u depth |}.

Lemma busy_step ev level type depth u : 0 <= level + Forwarding.depth_delta ev → (type = YsonNode → 1 <= level + Forwarding.depth_delta ev ∨ Forwarding.depth_update ev = None ∨ ev = OnEndAttributes) →
  OnEvent ev (busy level type depth u) = Ok (busy (level + Forwarding.depth_delta ev) type depth u, false).
Proof.
  intros Hl Hn. unfold OnEvent, Limiter, DepthLimitingYsonConsumer, Forwarding.OnForward, Forwarding.CheckForwarding. cbn [Forwarding.State_ busy Forwarding.ForwardingDepth].
  destruct (Z.ltb_spec (level + Forwarding.depth_delta ev) 0); [lia|]. run_bind. cbn [Forwarding.each_consumer Forwarding.ForwardingConsumers Forwarding.Heap].
  assert (∀ delta check, 0 <= level + delta → (type = YsonNode → 1 <= level + delta ∨ check = false) →
    Forwarding.UpdateDepth delta check (busy level type depth u) = Ok (busy (level + delta) type depth u)) as Hup.
  { intros delta check H1 H2. unfold Forwarding.UpdateDepth. cbn. destruct (Z.geb_spec (level + delta) 0); [|lia]. cbn.
    destruct (decide (type = YsonNode)) as [E|E]; [|by rewrite (bool_decide_eq_false_2 _ E), andb_false_r].
    destruct (H2 E) as [H3| ->]; [|done]. destruct (Z.eqb_spec (level + delta) 0); [lia|]. by rewrite andb_false_r. }
  unfold busy in *. cbn. destruct ev; cbn in *; try (rewrite Hup; [done|lia|]; intros Ht; destruct (Hn Ht) as [?|[?|?]]; [by left|done|try done; by right]).
  all: by rewrite Z.add_0_r.
Qed.

(** Calls while forwarding are ignored, and the level comes back. *)
Definition ignored (evs : list TYsonEvent) : Prop :=
  ∀ level type depth u, 0 <= level → (type = YsonNode → 1 <= level) → feed evs (busy level type depth u) = Ok (busy level type depth u, false).

Lemma ignored_nil : ignored [].
Proof. by intros. Qed.
Lemma ignored_app evs1 evs2 : ignored evs1 → ignored evs2 → ignored (evs1 ++ evs2).
Proof. intros H1 H2 level type depth u Hl Ht. rewrite feed_app, (H1 level type depth u Hl Ht). cbn. by apply H2. Qed.
Lemma ignored_one ev : Forwarding.depth_delta ev = 0 → ignored [ev].
Proof. intros E level type depth u Hl Ht. cbn [feed]. rewrite busy_step, E, Z.add_0_r; [done|lia|]. intros Hn. left. rewrite E. specialize (Ht Hn). lia. Qed.
Lemma ignored_between b e evs : Forwarding.depth_delta b = 1 → Forwarding.depth_delta e = -1 → ignored evs → ignored (b :: evs ++ [e]).
Proof.
  intros Hb He H level type depth u Hl Ht. cbn [feed]. rewrite busy_step by (rewrite Hb; lia). rewrite Hb. run_bind. rewrite feed_app, H by lia. cbn [feed]. run_bind.
  rewrite busy_step, He; [|rewrite He; lia|intros Hn; rewrite He; specialize (Ht Hn); left; lia]. by replace (level + 1 + -1) with level by lia.
Qed.

Lemma ignored_map items : Forall (λ kn : list byte * TNode, ignored (node_events kn.2)) items → ignored (map_events items).
Proof.
  induction 1 as [|[key n] items Hn _ IH]; [apply ignored_nil|]. apply (ignored_app [OnKeyedItem key] (node_events n ++ map_events items)); [by apply ignored_one|by apply ignored_app].
Qed.
Lemma ignored_list items : Forall (λ n, ignored (node_events n)) items → ignored (list_events items).
Proof.
  induction 1 as [|n items Hn _ IH]; [apply ignored_nil|]. apply (ignored_app [OnListItem] (node_events n ++ list_events items)); [by apply ignored_one|by apply ignored_app].
Qed.

Lemma ignored_node n : ignored (node_events n).
Proof.
  apply (node_ind' (λ n, ignored (node_events n)) (λ v, ignored (value_events v))).
  - intros attributes value Ha Hv. rewrite node_events_eq. apply ignored_app; [|done]. destruct attributes as [items|]; [|apply ignored_nil].
    apply ignored_between; [done|done|]. apply ignored_map. by apply Ha.
  - intros. by apply ignored_one.
  - intros. by apply ignored_one.
  - intros. by apply ignored_one.
  - intros. by apply ignored_one.
  - intros. by apply ignored_one.
  - by apply ignored_one.
  - intros items Hi. rewrite value_events_list. apply ignored_between; [done|done|by apply ignored_list].
  - intros items Hi. rewrite value_events_map. apply ignored_between; [done|done|by apply ignored_map].
Qed.

Lemma ignored_items items : ignored (map_events items).
Proof. apply ignored_map, list.Forall_forall. intros kn _. apply ignored_node. Qed.
Lemma ignored_nodes items : ignored (list_events items).
Proof. apply ignored_list, list.Forall_forall. intros n _. apply ignored_node. Qed.

(** Forwarding a node ends with the node. *)
Lemma busy_ends ev depth u : Forwarding.depth_update ev = Some (0, true) → OnEvent ev (busy 0 YsonNode depth u) = Ok (idle YsonNode depth u, false).
Proof. by destruct ev. Qed.

Lemma ignored_document n depth u : feed (node_events n) (busy 0 YsonNode depth u) = Ok (idle YsonNode depth u, false).
Proof.
  destruct n as [attributes value]. rewrite node_events_eq, feed_app.
  assert (feed (attribute_events attributes) (busy 0 YsonNode depth u) = Ok (busy 0 YsonNode depth u, false)) as ->.
  { destruct attributes as [items|]; [|done]. cbn [attribute_events feed]. rewrite busy_step by (cbn; lia). run_bind. rewrite feed_app, ignored_items by (cbn; lia). done. }
  run_bind. destruct value; try done.
  - rewrite value_events_list. cbn [feed]. rewrite busy_step by (cbn; lia). run_bind. rewrite feed_app, ignored_nodes by (cbn; lia). done.
  - rewrite value_events_map. cbn [feed]. rewrite busy_step by (cbn; lia). run_bind. rewrite feed_app, ignored_items by (cbn; lia). done.
Qed.

(** *** Calls that are passed on *)

#[local] Ltac unroll := unfold OnEvent at 1, Limiter, DepthLimitingYsonConsumer, Forwarding.OnForward, Forwarding.CheckForwarding; cbn;
  try change (0 + 1 <? 0) with false; try change (0 + -1 <? 0) with true; try change (0 + 0 <? 0) with false; cbn.

Definition behind (c : C) : U := UnderlyingConsumer_ (Forwarding.Derived c).
Definition is_idle (depth : Z) (u : U) (c : C) : Prop := ∃ type, c = idle type depth u.

Lemma idle_tells ev type depth u : Forwarding.depth_delta ev = 0 → (match ev with OnRaw _ _ => False | _ => True end) →
  OnEvent ev (idle type depth u) = ('(u, stop) ← OnEvent ev u; Ok (idle type depth u, stop)).
Proof. by destruct ev. Qed.

Lemma idle_begins ev type depth u : Forwarding.depth_delta ev = 1 → depth + 1 < limit →
  OnEvent ev (idle type depth u) = ('(u, stop) ← OnEvent ev u; Ok (idle type (depth + 1) u, stop)).
Proof.
  intros Hd Hl. destruct ev; try done; unroll; unfold OnMyBegin; cbn; destruct (Z.ltb_spec (depth + 1) limit); try lia; done.
Qed.

Lemma idle_ends ev type depth u : Forwarding.depth_delta ev = -1 → depth < limit →
  OnEvent ev (idle type depth u) = ('(u, stop) ← OnEvent ev u; Ok (idle type (depth - 1) u, stop)).
Proof.
  intros Hd Hl. destruct ev; try done; unroll; unfold OnMyEnd; cbn; destruct (Z.ltb_spec depth limit); try lia; unfold tell; cbn; by destruct (OnEvent _ u) as [[? ?]| | |].
Qed.

(** The collection at the limit. *)
Lemma idle_truncates ev type depth u : ev = OnBeginList ∨ ev = OnBeginMap → ¬ depth + 1 < limit →
  OnEvent ev (idle type depth u) =
  ('(u, stop) ← OnEvent (OnStringScalar TruncatedStubMessage) u; Ok (busy 0 (if decide (ev = OnBeginList) then YsonListFragment else YsonMapFragment) (depth + 1) u, stop)).
Proof.
  intros [-> | ->] Hl; unroll; unfold OnMyBegin; cbn; destruct (Z.ltb_spec (depth + 1) limit); try lia; unfold tell; cbn; by destruct (OnEvent _ u) as [[? ?]| | |].
Qed.

Lemma idle_drops type depth u : ¬ depth + 1 < limit → OnEvent OnBeginAttributes (idle type depth u) = Ok (busy 0 YsonMapFragment (depth + 1) u, false).
Proof. intros Hl; unroll; unfold OnMyBegin; cbn; destruct (Z.ltb_spec (depth + 1) limit); [lia|done]. Qed.

Lemma busy_closes ev type depth u : Forwarding.depth_delta ev = -1 → ¬ depth < limit → OnEvent ev (busy 0 type depth u) = Ok (idle type (depth - 1) u, false).
Proof. intros Hd Hl. destruct ev; try done; unroll; unfold OnMyEnd; cbn; destruct (Z.ltb_spec depth limit); try lia; done. Qed.

(** *** Documents *)

#[local] Abbreviation passes := (follows (H := Limiter) (H0 := O) behind).

(** With [k] levels left, [evs] become [evs']. *)
Definition limits (k : nat) (evs evs' : list TYsonEvent) : Prop :=
  ∀ depth u c, limit - depth = Z.of_nat k → is_idle depth u c → passes (is_idle depth) evs c evs' u.

Lemma limits_app k evs1 evs2 evs1' evs2' : limits k evs1 evs1' → limits k evs2 evs2' → limits k (evs1 ++ evs2) (evs1' ++ evs2').
Proof. intros H1 H2 depth u c Hk Hc. eapply follows_app; [by apply H1|]. intros u1 c1 Hc1. by apply H2. Qed.

Lemma limits_nil k : limits k [] [].
Proof. intros depth u c Hk Hc. by apply follows_nil. Qed.

Lemma limits_one k ev : Forwarding.depth_delta ev = 0 → (match ev with OnRaw _ _ => False | _ => True end) → limits k [ev] [ev].
Proof.
  intros Hd Hr depth u c Hk [type ->]. eapply (follows_one _ _ _ _ _ _ (idle type depth)); [by apply idle_tells| |done]. intros u'. by eexists.
Qed.

Lemma limits_between k b e evs evs' : Forwarding.depth_delta b = 1 → Forwarding.depth_delta e = -1 → limits (S k) evs evs' → limits (S (S k)) (b :: evs ++ [e]) (b :: evs' ++ [e]).
Proof.
  intros Hb He H depth u c Hk [type ->]. eapply (follows_cons _ (is_idle (depth + 1))).
  { eapply (follows_one _ _ _ _ _ _ (idle type (depth + 1))); [apply idle_begins; [done|lia]| |done]. intros u'. by eexists. }
  intros u1 c1 Hc1. eapply follows_app; [apply (H (depth + 1)); [lia|done]|]. intros u2 c2 [type2 ->].
  eapply (follows_one _ _ _ _ _ _ (idle type2 (depth + 1 - 1))); [apply idle_ends; [done|lia]| |done]. intros u'. exists type2. f_equal. lia.
Qed.

(** A collection becomes a stub, attributes disappear. *)
Lemma limits_stub b e evs : b = OnBeginList ∧ e = OnEndList ∨ b = OnBeginMap ∧ e = OnEndMap → ignored evs → limits 1 (b :: evs ++ [e]) [OnStringScalar TruncatedStubMessage].
Proof.
  intros Hbe Hi depth u c Hk [type ->]. assert (b = OnBeginList ∨ b = OnBeginMap) as Hb by tauto. set (type' := if decide (b = OnBeginList) then YsonListFragment else YsonMapFragment).
  eapply (follows_cons _ (λ u, eq (busy 0 type' (depth + 1) u)) _ b (evs ++ [e]) _ (OnStringScalar TruncatedStubMessage) []).
  { eapply (follows_one _ _ _ _ _ _ (busy 0 type' (depth + 1))); [apply idle_truncates; [done|lia]|done|done]. }
  intros u1 c1 <-. eapply follows_silent; [apply Hi; [lia|]|].
  { unfold type'. by destruct (decide (b = OnBeginList)). }
  eexists. cbn [feed]. rewrite busy_closes by (try lia; by destruct Hbe as [[_ ->]|[_ ->]]). split; [done|]. exists type'. f_equal. lia.
Qed.

Lemma limits_dropped evs : ignored evs → limits 1 (OnBeginAttributes :: evs ++ [OnEndAttributes]) [].
Proof.
  intros Hi depth u c Hk [type ->]. exists (idle YsonMapFragment depth u). split; [|by eexists]. cbn [feed]. rewrite idle_drops by lia. run_bind.
  rewrite feed_app, Hi by done. run_bind. cbn [feed]. rewrite busy_closes by (done || lia). run_bind. by replace (depth + 1 - 1) with depth by lia.
Qed.

Lemma limits_map k items : Forall (λ kn : list byte * TNode, limits (S k) (node_events kn.2) (node_events (limit_node (S k) kn.2))) items →
  limits (S k) (map_events items) (map_events (limit_items (S k) items)).
Proof.
  induction 1 as [|[key n] items Hn _ IH]; [apply limits_nil|].
  change (limits (S k) ([OnKeyedItem key] ++ node_events n ++ map_events items) ([OnKeyedItem key] ++ node_events (limit_node (S k) n) ++ map_events (limit_items (S k) items))).
  apply limits_app; [by apply limits_one|by apply limits_app].
Qed.
Lemma limits_list k items : Forall (λ n, limits (S k) (node_events n) (node_events (limit_node (S k) n))) items →
  limits (S k) (list_events items) (list_events (map (limit_node (S k)) items)).
Proof.
  induction 1 as [|n items Hn _ IH]; [apply limits_nil|].
  change (limits (S k) ([OnListItem] ++ node_events n ++ list_events items) ([OnListItem] ++ node_events (limit_node (S k) n) ++ list_events (map (limit_node (S k)) items))).
  apply limits_app; [by apply limits_one|by apply limits_app].
Qed.

Lemma limits_node n : ∀ k, limits (S k) (node_events n) (node_events (limit_node (S k) n)).
Proof.
  apply (node_ind' (λ n, ∀ k, limits (S k) (node_events n) (node_events (limit_node (S k) n))) (λ v, ∀ k, limits (S k) (value_events v) (value_events (limit_value (S k) v)))).
  - intros attributes value Ha Hv k. cbn [limit_node]. rewrite !node_events_eq. apply limits_app; [|by apply Hv]. destruct attributes as [items|]; [|apply limits_nil].
    destruct k as [|k]; [apply limits_dropped, ignored_items|]. apply limits_between; [done|done|]. apply limits_map.
    eapply list.Forall_impl; [by apply Ha|]. auto.
  - intros. by apply limits_one.
  - intros. by apply limits_one.
  - intros. by apply limits_one.
  - intros. by apply limits_one.
  - intros. by apply limits_one.
  - intros. by apply limits_one.
  - intros items Hi k. rewrite value_events_list. destruct k as [|k]; [apply limits_stub; [by left|apply ignored_nodes]|]. cbn [limit_value]. rewrite value_events_list.
    apply limits_between; [done|done|]. apply limits_list. eapply list.Forall_impl; [exact Hi|]. auto.
  - intros items Hi k. rewrite value_events_map. destruct k as [|k]; [apply limits_stub; [by right|apply ignored_items]|]. cbn [limit_value]. rewrite value_events_map.
    apply limits_between; [done|done|]. apply limits_map. eapply list.Forall_impl; [exact Hi|]. auto.
Qed.
End Limited.

Lemma limit_depth n : ∀ k, (node_depth (limit_node (S k) n) <= S k)%nat.
Proof.
  apply (node_ind' (λ n, ∀ k, (node_depth (limit_node (S k) n) <= S k)%nat) (λ v, ∀ k, (value_depth (limit_value (S k) v) <= k)%nat)); intros; try (cbn; lia).
  - cbn [limit_node]. rewrite node_depth_eq. specialize (H0 k). enough (match (match attributes, S k with Some items, S (S _ as k) => Some (limit_items k items) | _, _ => None end) with None => 0 | Some items => map_depth items end <= k)%nat by (unfold limit_items in *; lia).
    destruct attributes as [items|]; [|lia]. destruct k as [|k]; [done|]. specialize (H items eq_refl). clear -H. induction H as [|[key n] items Hn _ IH]; cbn; [lia|].
    specialize (Hn k). cbn in Hn, IH |- *. unfold limit_items in IH. lia.
  - destruct k as [|k]; [cbn; lia|]. cbn [limit_value]. rewrite value_depth_list. induction H as [|n' items Hn _ IH]; [cbn; lia|]. specialize (Hn k). cbn [map list_depth]. lia.
  - destruct k as [|k]; [cbn; lia|]. cbn [limit_value]. rewrite value_depth_map. induction H as [|[key n'] items Hn _ IH]; [cbn; lia|]. specialize (Hn k). cbn [map map_depth fst snd] in *. lia.
Qed.

Lemma map_id_on {A} (f : A → A) l : Forall (λ x, f x = x) l → map f l = l.
Proof. induction 1 as [|x l Hx _ IH]; [done|]. simpl. by rewrite Hx, IH. Qed.

Lemma limit_small n : ∀ k, (node_depth n < k)%nat → limit_node k n = n.
Proof.
  apply (node_ind' (λ n, ∀ k, (node_depth n < k)%nat → limit_node k n = n) (λ v, ∀ k, (S (value_depth v) < k)%nat → limit_value k v = v)); intros; try done.
  - rewrite node_depth_eq in H1. cbn [limit_node]. f_equal; [|apply H0; lia]. destruct attributes as [items|]; [|done]. destruct k as [|[|k]]; [lia|lia|]. f_equal.
    apply map_id_on. specialize (H items eq_refl). assert (map_depth items < S k)%nat as Hd by lia. clear -H Hd. induction H as [|[key n] items Hn _ IH]; constructor.
    + cbn in Hd. apply (f_equal (pair key)), Hn. cbn. lia.
    + apply IH. cbn in Hd. lia.
  - rewrite value_depth_list in H0. cbn [limit_value]. destruct k as [|[|k]]; [lia|lia|]. f_equal. apply map_id_on. assert (list_depth items < S k)%nat as Hd by lia. clear -H Hd.
    induction H as [|n' items Hn _ IH]; constructor; [apply Hn; cbn in Hd; lia|apply IH; cbn in Hd; lia].
  - rewrite value_depth_map in H0. cbn [limit_value]. destruct k as [|[|k]]; [lia|lia|]. f_equal. apply map_id_on. assert (map_depth items < S k)%nat as Hd by lia. clear -H Hd.
    induction H as [|[key n'] items Hn _ IH]; constructor.
    + cbn in Hd. apply (f_equal (pair key)), Hn. cbn. lia.
    + apply IH. cbn in Hd. lia.
Qed.

(** The calls of a document, list or map fragment, and those that the limit leaves. *)
Definition limited_events (k : nat) (mode : EYsonType) (evs evs' : list TYsonEvent) : Prop :=
  match k with
  | O => ∃ depth, mode_events mode evs depth ∧ evs' = []
  | S _ =>
      match mode with
      | YsonNode => ∃ n, evs = node_events n ∧ evs' = node_events (limit_node k n)
      | YsonListFragment => ∃ items, evs = list_events items ∧ evs' = list_events (map (limit_node k) items)
      | YsonMapFragment => ∃ items, evs = map_events items ∧ evs' = map_events (limit_items k items)
      end
  end.

(** C27. The depth limit: a limiting consumer can be made for every limit that is not negative
    (a negative one throws). Through the calls of any document or fragment it makes, on
    whatever consumer is behind it, exactly the calls of the same document in which lists
    and maps at the limit are replaced by the string <truncated> and attributes at the limit
    are dropped (nothing at all for limit 0), with the same outcome, whatever it is: the
    exceptions, stops and aborts of the consumer behind it, and none of its own. Unless that
    consumer stopped, the depth is back at zero. What is left is not deeper than the limit, and
    a document less deep than the limit is left alone. *)
Theorem DepthLimiting_correct {U : Type} `{O : IYsonConsumer U} (fd : list byte → Result Z) (k : nat) (mode : EYsonType) (evs evs' : list TYsonEvent) (u : U)
    (Hevs : limited_events k mode evs evs') :
  (∃ c, NewDepthLimiting u (Z.of_nat k) mode = Ok c ∧
    match feed evs' u with
    | Ok (u', stop) => ∃ c', feed (H := DepthLimitingYsonConsumer fd) evs c = Ok (c', stop) ∧ UnderlyingConsumer_ (Forwarding.Derived c') = u' ∧ (stop = false → Depth_ (Forwarding.Derived c') = 0)
    | Throw e => feed (H := DepthLimitingYsonConsumer fd) evs c = Throw e
    | Crash => feed (H := DepthLimitingYsonConsumer fd) evs c = Crash
    | OutOfFuel => feed (H := DepthLimitingYsonConsumer fd) evs c = OutOfFuel
    end) ∧
  (∀ n, (node_depth (limit_node (S k) n) <= S k)%nat ∧ ((node_depth n < k)%nat → limit_node k n = n)) ∧
  (∀ limit, limit < 0 → NewDepthLimiting u limit mode = Throw EOutOfRange).
Proof.
  split_and!.
  2: { intros n. split; [apply limit_depth|apply limit_small]. }
  2: { intros limit Hl. unfold NewDepthLimiting. by destruct (Z.ltb_spec limit 0); [|lia]. }
  destruct k as [|k].
  - destruct Hevs as (depth & Hm & ->). exists (busy 0 0 mode 0 u). split; [done|]. cbn [feed].
    destruct mode; [destruct Hm as (n & -> & _)|destruct Hm as (items & -> & _)..].
    + rewrite (ignored_document fd). by eexists.
    + rewrite (ignored_nodes fd) by done. by eexists.
    + rewrite (ignored_items fd) by done. by eexists.
  - exists (idle (Z.of_nat (S k)) YsonNode 0 u). split; [done|].
    enough (follows (H := DepthLimitingYsonConsumer fd) behind (is_idle (Z.of_nat (S k)) 0) evs (idle (Z.of_nat (S k)) YsonNode 0 u) evs' u) as H.
    { unfold follows in H. destruct (feed evs' u) as [[u' [|]]| | |]; try done; [destruct H as (c' & E & Hu); by exists c'|]. destruct H as (c' & E & type & ->). by exists (idle (Z.of_nat (S k)) type 0 u'). }
    assert (limits fd (Z.of_nat (S k)) (S k) evs evs') as H; [|apply H; [lia|by eexists]].
    destruct mode; [destruct Hevs as (n & -> & ->); apply limits_node|destruct Hevs as (items & -> & ->)..].
    + apply limits_list, list.Forall_forall. intros n _. apply limits_node.
    + apply limits_map, list.Forall_forall. intros n _. apply limits_node.
Qed.

Lemma DepthLimiting_correct_witness :
  let n := Node (Some [(B"a", Node None VEntity)]) (VList [Node None (VMap []); Node None (VInt64 1)]) in
  ∃ c c', NewDepthLimiting (U := TRecorder) [] 2 YsonNode = Ok c ∧ feed (H := DepthLimitingYsonConsumer (λ _, Ok 0)) (node_events n) c = Ok (c', false) ∧
    Depth_ (Forwarding.Derived c') = 0 ∧ UnderlyingConsumer_ (Forwarding.Derived c') =
      [OnBeginAttributes; OnKeyedItem (B"a"); OnEntity; OnEndAttributes; OnBeginList; OnListItem; OnStringScalar (B"<truncated>"); OnListItem; OnInt64Scalar 1; OnEndList].
Proof.
  intros n. assert (limited_events 2 YsonNode (node_events n) (node_events (limit_node 2 n))) as Hevs by (exists n; split; reflexivity).
  destruct (DepthLimiting_correct (U := TRecorder) (λ _, Ok 0) 2 YsonNode _ _ [] Hevs) as [(c & Hc & H) _]. change (Z.of_nat 2) with 2 in Hc. rewrite feed_recorder in H.
  destruct H as (c' & Hf & Hu & Hd). exists c, c'. split; [exact Hc|]. split; [exact Hf|]. split; [exact (Hd eq_refl)|]. rewrite Hu. reflexivity.
Defined.

(** ** What is left without attributes *)

Fixpoint strip_node (n : TNode) : TNode :=
  match n with Node _ value => Node None (strip_value value) end
with strip_value (v : TValue) : TValue :=
  match v with
  | VList items => VList (map strip_node items)
  | VMap items => VMap (map (λ item : list byte * TNode, (item.1, strip_node item.2)) items)
  | _ => v
  end.

Definition strip_items (items : list (list byte * TNode)) : list (list byte * TNode) := map (λ item, (item.1, strip_node item.2)) items.

Section Stripped.
Context {U : Type} `{O : IYsonConsumer U}.

Definition stripper (depth : Z) (u : U) : TYsonAttributesStripper U := {| Output_ := u; AttributesDepth_ := depth |}.

(** Inside of attributes. *)
Definition unseen (evs : list TYsonEvent) : Prop := ∀ depth u, 1 <= depth → feed evs (stripper depth u) = Ok (stripper depth u, false).

Lemma unseen_app evs1 evs2 : unseen evs1 → unseen evs2 → unseen (evs1 ++ evs2).
Proof. intros H1 H2 depth u Hd. rewrite feed_app, H1 by done. run_bind. by apply H2. Qed.
Lemma unseen_one ev : ev ≠ OnBeginAttributes → ev ≠ OnEndAttributes → unseen [ev].
Proof.
  intros H1 H2 depth u Hd. cbn [feed]. assert (OnEvent ev (stripper depth u) = Ok (stripper depth u, false)) as ->; [|done].
  unfold OnEvent, YsonAttributesStripper. cbn. destruct (Z.eqb_spec depth 0); [lia|]. by destruct ev.
Qed.
Lemma unseen_attributes evs : unseen evs → unseen (OnBeginAttributes :: evs ++ [OnEndAttributes]).
Proof. intros H depth u Hd. cbn. rewrite feed_app. change ({| Output_ := u; AttributesDepth_ := depth + 1 |}) with (stripper (depth + 1) u). rewrite H by lia. cbn. by replace (depth + 1 - 1) with depth by lia. Qed.
Lemma unseen_between b e evs : b = OnBeginList ∨ b = OnBeginMap → e = OnEndList ∨ e = OnEndMap → unseen evs → unseen (b :: evs ++ [e]).
Proof.
  intros Hb He H. apply (unseen_app [b]); [apply unseen_one; by destruct Hb as [-> | ->]|]. apply unseen_app; [done|]. apply unseen_one; by destruct He as [-> | ->].
Qed.
Lemma unseen_map items : Forall (λ kn : list byte * TNode, unseen (node_events kn.2)) items → unseen (map_events items).
Proof. induction 1 as [|[key n] items Hn _ IH]; [by intros|]. apply (unseen_app [OnKeyedItem key]); [by apply unseen_one|by apply unseen_app]. Qed.
Lemma unseen_list items : Forall (λ n, unseen (node_events n)) items → unseen (list_events items).
Proof. induction 1 as [|n items Hn _ IH]; [by intros|]. apply (unseen_app [OnListItem]); [by apply unseen_one|by apply unseen_app]. Qed.

Lemma unseen_node n : unseen (node_events n).
Proof.
  apply (node_ind' (λ n, unseen (node_events n)) (λ v, unseen (value_events v))); intros; try by apply unseen_one.
  - rewrite node_events_eq. apply unseen_app; [|done]. destruct attributes as [items|]; [|by intros]. apply unseen_attributes, unseen_map. by apply H.
  - rewrite value_events_list. apply unseen_between; [by left|by left|]. by apply unseen_list.
  - rewrite value_events_map. apply unseen_between; [by right|by right|]. by apply unseen_map.
Qed.

(** Outside of attributes. *)
#[local] Abbreviation passes := (follows (H := YsonAttributesStripper) (H0 := O) Output_ (λ u c, c = stripper 0 u)).
Definition strips (evs evs' : list TYsonEvent) : Prop := ∀ u, passes evs (stripper 0 u) evs' u.

Lemma strips_app evs1 evs2 evs1' evs2' : strips evs1 evs1' → strips evs2 evs2' → strips (evs1 ++ evs2) (evs1' ++ evs2').
Proof. intros H1 H2 u. eapply follows_app; [by apply H1|]. intros u1 c1 ->. by apply H2. Qed.
Lemma strips_one ev : ev ≠ OnBeginAttributes → ev ≠ OnEndAttributes → strips [ev] [ev].
Proof. intros H1 H2 u. eapply (follows_one _ _ _ _ _ _ (stripper 0)); [by destruct ev|done|done]. Qed.
Lemma strips_attributes attributes : strips (attribute_events attributes) [].
Proof.
  intros u. exists (stripper 0 u). split; [|done]. destruct attributes as [items|]; [|done]. cbn. rewrite feed_app. change ({| Output_ := u; AttributesDepth_ := 0 + 1 |}) with (stripper 1 u).
  by rewrite unseen_map by (done || apply list.Forall_forall; intros kn _; apply unseen_node).
Qed.
Lemma strips_map items : Forall (λ kn : list byte * TNode, strips (node_events kn.2) (node_events (strip_node kn.2))) items → strips (map_events items) (map_events (strip_items items)).
Proof.
  induction 1 as [|[key n] items Hn _ IH]; [by intros u; exists (stripper 0 u)|]. cbn [map_events strip_items map fst snd].
  apply (strips_app [OnKeyedItem key] _ [OnKeyedItem key]); [by apply strips_one|by apply strips_app].
Qed.
Lemma strips_list items : Forall (λ n, strips (node_events n) (node_events (strip_node n))) items → strips (list_events items) (list_events (map strip_node items)).
Proof.
  induction 1 as [|n items Hn _ IH]; [by intros u; exists (stripper 0 u)|]. cbn [list_events map].
  apply (strips_app [OnListItem] _ [OnListItem]); [by apply strips_one|by apply strips_app].
Qed.

Lemma strips_node n : strips (node_events n) (node_events (strip_node n)).
Proof.
  apply (node_ind' (λ n, strips (node_events n) (node_events (strip_node n))) (λ v, strips (value_events v) (value_events (strip_value v)))); intros; try by apply strips_one.
  - cbn [strip_node]. rewrite !node_events_eq. apply (strips_app _ _ []); [apply strips_attributes|done].
  - cbn [strip_value]. rewrite !value_events_list. apply (strips_app [OnBeginList] _ [OnBeginList]); [by apply strips_one|]. apply strips_app; [by apply strips_list|by apply strips_one].
  - cbn [strip_value]. rewrite !value_events_map. apply (strips_app [OnBeginMap] _ [OnBeginMap]); [by apply strips_one|]. apply strips_app; [by apply strips_map|by apply strips_one].
Qed.
End Stripped.

Lemma strip_events (P : TYsonEvent → Prop) n : Forall P (node_events n) → Forall P (node_events (strip_node n)).
Proof.
  apply (node_ind' (λ n, Forall P (node_events n) → Forall P (node_events (strip_node n))) (λ v, Forall P (value_events v) → Forall P (value_events (strip_value v)))); intros; try done.
  - cbn [strip_node]. rewrite !node_events_eq in *. apply Forall_app in H1 as [_ H1]. by apply H0.
  - cbn [strip_value]. rewrite value_events_list in *. inversion H0 as [|? ? Hb Ht]; subst. apply Forall_app in Ht as [Ht He]. constructor; [done|]. apply Forall_app. split; [|done].
    clear -H Ht. induction H as [|n' items Hn _ IH]; [done|]. cbn [list_events map] in *. inversion Ht as [|? ? Hi Ht']; subst. apply Forall_app in Ht' as [H1 H2].
    constructor; [done|]. apply Forall_app. auto.
  - cbn [strip_value]. rewrite value_events_map in *. inversion H0 as [|? ? Hb Ht]; subst. apply Forall_app in Ht as [Ht He]. constructor; [done|]. apply Forall_app. split; [|done].
    clear -H Ht. induction H as [|[key n'] items Hn _ IH]; [done|]. cbn [map_events map fst snd] in *. inversion Ht as [|? ? Hi Ht']; subst. apply Forall_app in Ht' as [H1 H2].
    constructor; [done|]. apply Forall_app. auto.
Qed.

(** [StripAttributes] of a document: whatever the text (text and binary forms, white space),
    if the document is nested within the limit and its values fit their binary forms, the
    result is a text of the same document without any attributes, at every level. *)
Theorem StripAttributes_correct (FloatToString : Z → list byte) (fd : list byte → Result Z) (n : TNode) (t : list byte)
    (Hdc : double_conversions FloatToString fd) (Ht : ModeText fd DefaultMemoryLimit YsonNode (node_events n) (node_depth n) t)
    (Hdepth : Z.of_nat (node_depth n) <= DefaultYsonParserNestingLevelLimit) (Hok : Forall (event_ok default_config DefaultMemoryLimit) (node_events n)) :
  ∃ out, StripAttributes FloatToString fd t YsonNode = Ok out ∧
    ModeText fd DefaultMemoryLimit YsonNode (node_events (strip_node n)) (node_depth (strip_node n)) out.
Proof.
  pose proof (strip_events _ _ Hok) as Hok'.
  destruct (writer_mode_text FloatToString fd Hdc default_config DefaultMemoryLimit ltac:(by vm_compute) (node_events (strip_node n)) (node_depth (strip_node n))) as (w & Hw & Hout);
    [by exists (strip_node n)|done|].
  exists (Output w). split; [|exact Hout]. set (OW := YsonWriter FloatToString fd default_config).
  assert (feed (H := OW) (node_events (strip_node n)) NewYsonWriter = Ok (w, false)) as Hfeed
    by (unfold OW; rewrite (writer_feed FloatToString fd default_config DefaultMemoryLimit _ _ Hok'), Hw; done).
  pose proof (strips_node (O := OW) n NewYsonWriter) as Hs. unfold follows in Hs. rewrite Hfeed in Hs. destruct Hs as (c' & Hc & ->).
  pose proof (DoParse_accepts (YsonAttributesStripper (H := OW)) fd DefaultMemoryLimit DefaultYsonParserNestingLevelLimit YsonNode _ _ t (TStringReader t)
    (stripper 0 NewYsonWriter) Ht ltac:(split; [done|]; unfold text_of; simpl; by rewrite app_nil_r) Hdepth) as Hp. rewrite Hc in Hp.
  destruct Hp as (p' & Hp & Hcons & _). unfold StripAttributes. fold OW. unfold stripper in Hp. rewrite Hp. run_bind. by rewrite Hcons.
Qed.

Lemma StripAttributes_correct_witness :
  let n := Node (Some [(B"a", Node None VEntity)]) (VBoolean true) in
  ∃ out, StripAttributes ExampleConversions.print_bits ExampleConversions.read_bits (B"<a=#>%true") YsonNode = Ok out ∧
    ModeText ExampleConversions.read_bits DefaultMemoryLimit YsonNode [OnBooleanScalar true] 1 out.
Proof.
  intros n. assert (ModeText ExampleConversions.read_bits DefaultMemoryLimit YsonNode (node_events n) (node_depth n) (B"<a=#>%true")) as Ht.
  { apply (NodeMode ExampleConversions.read_bits DefaultMemoryLimit [] n (B"<a=#>%true") []); [constructor| |constructor].
    apply (AttributedNode _ _ _ (B"a=#") [] _ (B"%true")); [|constructor|apply ScalarValue, (TextBoolean _ _ true); by vm_compute].
    apply (MapLast _ _ [] _ (B"a") [] [] _ (B"#") []); [constructor| |constructor|constructor|apply PlainNode, ScalarValue, TextEntity|constructor].
    apply (UnquotedText _ "a" []); [done|constructor|by vm_compute]. }
  destruct (StripAttributes_correct ExampleConversions.print_bits ExampleConversions.read_bits n (B"<a=#>%true") ExampleConversions.conversions Ht ltac:(by vm_compute)
    ltac:(apply (bool_decide_unpack _); by vm_compute)) as (out & Hout & Hm). exists out. split; [exact Hout|exact Hm].
Defined.

(** The writer of [StripAttributes] takes everything for one node: of a list fragment, the
    separators between the items are lost. *)
Lemma StripAttributes_joins_fragment :
  StripAttributes (λ _, []) (λ _, Ok 0) (B"%true;%false") YsonListFragment = Ok [x05; x04] ∧
  StripAttributes (λ _, []) (λ _, Ok 0) (B"1;2") YsonListFragment = Ok [x02; x02; x02; x04].
Proof. by vm_compute. Qed.
