(* ===== verification/YPath.v ===== *)
(** YPath: literals and the tokenizer of paths (ypath/token.cpp, ypath/tokenizer.cpp), joining
    and splitting of paths (ypath/helpers.cpp, helpers-inl.h).

    A path is a sequence of tokens: slashes, the signs [@], [&] and [*], literals, in which
    special characters are escaped, and a range that takes the rest of the path. Views into
    the path ([TStringBuf]) are lists; where the code takes the distance of two views, the
    model compares lengths, since [Input_] is a suffix of [Path_]. *)

From S2P Require Import Prelude IntCast Escape YsonLexer Tokenizer.

Inductive ETokenType : Set := Literal | Slash | Ampersand | At | Asterisk | StartOfStream | EndOfStream | Range.

#[export] Instance ETokenType_eq_dec : EqDecision ETokenType.
Proof. solve_decision. Defined.

(** ** Literals *)

Definition IsSpecialCharacter (ch : byte) : bool :=
  Byte.eqb ch x5c || Byte.eqb ch "/" || Byte.eqb ch "@" || Byte.eqb ch "*" || Byte.eqb ch "&" || Byte.eqb ch "[" || Byte.eqb ch "{".

Definition IntToHexLowercase : list byte := B"0123456789abcdef".
Definition hex_lowercase (digit : Z) : byte := nth (Z.to_nat digit) IntToHexLowercase x00.

(** What [AppendYPathLiteral] appends for a character. *)
Definition literal_char (ch : byte) : list byte :=
  if IsSpecialCharacter ch then [x5c; ch]
  else if (byte_val ch <? 32) || (byte_val ch >? 127) then
    [x5c; "x"%byte; hex_lowercase (Z.shiftr (byte_val ch) 4); hex_lowercase (Z.land (byte_val ch) 0xf)]
  else [ch].

Definition AppendYPathLiteral (value builder : list byte) : list byte :=
  foldl (λ builder ch, builder ++ literal_char ch) builder value.

Definition ToYPathLiteral (value : list byte) : list byte := AppendYPathLiteral value [].
Definition ToYPathLiteral_int (value : Z) : Result (list byte) := ToString_int value.

Definition ListBeginToken : list byte := B"begin".
Definition ListEndToken : list byte := B"end".
Definition ListBeforeToken : list byte := B"before:".
Definition ListAfterToken : list byte := B"after:".

Definition StartsWith (s prefix : list byte) : bool := bool_decide (take (length prefix) s = prefix).

Definition IsSpecialListKey (key : list byte) : bool :=
  bool_decide (key = ListBeginToken) || bool_decide (key = ListEndToken) || StartsWith key ListBeforeToken || StartsWith key ListAfterToken.

(** [token.find(':')]: what is behind the first colon. *)
Fixpoint after_colon (token : list byte) : option (list byte) :=
  match token with [] => None | c :: token => if Byte.eqb c ":" then Some token else after_colon token end.

Definition ExtractListIndex (token : list byte) : Result (list byte) :=
  match token with
  | [] => Crash
  | c :: _ =>
      if isdigit c then Ok token
      else match after_colon token with None => Ok token | Some rest => Ok rest end
  end.

Definition TryAdjustListIndex (index count : Z) : option Z :=
  let adjustedIndex := if index >=? 0 then index else wrap_s 32 (index + count) in
  if (adjustedIndex <? 0) || (adjustedIndex >=? count) then None else Some adjustedIndex.

(** ** The tokenizer *)

Module YPathTokenizer.
Record t := {
  Path_ : list byte;
  Type_ : ETokenType;
  PreviousType_ : ETokenType;
  Token_ : list byte;
  Input_ : list byte;
  LiteralValue_ : list byte
}.

(** The constructor, [Reset]. *)
Definition New (path : list byte) : t :=
  {| Path_ := path; Type_ := StartOfStream; PreviousType_ := StartOfStream; Token_ := []; Input_ := path; LiteralValue_ := [] |}.

Definition SetType (type : ETokenType) (tokenizer : t) : t :=
  {| Path_ := Path_ tokenizer; Type_ := type; PreviousType_ := Type_ tokenizer; Token_ := Token_ tokenizer;
     Input_ := Input_ tokenizer; LiteralValue_ := LiteralValue_ tokenizer |}.
Definition set_Token (token : list byte) (tokenizer : t) : t :=
  {| Path_ := Path_ tokenizer; Type_ := Type_ tokenizer; PreviousType_ := PreviousType_ tokenizer; Token_ := token;
     Input_ := Input_ tokenizer; LiteralValue_ := LiteralValue_ tokenizer |}.
Definition set_Input (input : list byte) (tokenizer : t) : t :=
  {| Path_ := Path_ tokenizer; Type_ := Type_ tokenizer; PreviousType_ := PreviousType_ tokenizer; Token_ := Token_ tokenizer;
     Input_ := input; LiteralValue_ := LiteralValue_ tokenizer |}.
Definition set_LiteralValue (value : list byte) (tokenizer : t) : t :=
  {| Path_ := Path_ tokenizer; Type_ := Type_ tokenizer; PreviousType_ := PreviousType_ tokenizer; Token_ := Token_ tokenizer;
     Input_ := Input_ tokenizer; LiteralValue_ := value |}.

Definition GetPrefix (tokenizer : t) : list byte := take (length (Path_ tokenizer) - length (Input_ tokenizer)) (Path_ tokenizer).
Definition GetPrefixPlusToken (tokenizer : t) : list byte :=
  take (length (Path_ tokenizer) - length (Input_ tokenizer) + length (Token_ tokenizer)) (Path_ tokenizer).
Definition GetSuffix (tokenizer : t) : list byte := drop (length (Token_ tokenizer)) (Input_ tokenizer).

Definition ParseHexDigit (ch : byte) : Result Z :=
  if in_range ch "0" "9" then Ok (byte_val ch - byte_val "0")
  else if in_range ch "a" "f" then Ok (byte_val ch - byte_val "a" + 10)
  else if in_range ch "A" "F" then Ok (byte_val ch - byte_val "A" + 10)
  else Throw EMalformedEscape.

(** [AdvanceEscaped]: [current] is what is left of the input from the backslash on. *)
Definition AdvanceEscaped (current literal : list byte) : Result (list byte * list byte) :=
  match current with
  | [] => Crash
  | slash :: current =>
      _ ← Verify (Byte.eqb slash x5c);
      match current with
      | [] => Throw EUnexpectedEndOfStream
      | ch :: current =>
          if IsSpecialCharacter ch then Ok (current, literal ++ [ch])
          else if Byte.eqb ch "x" then
            match current with
            | c1 :: c2 :: current =>
                hi ← ParseHexDigit c1; lo ← ParseHexDigit c2;
                Ok (current, literal ++ [byte_of (Z.shiftl hi 4 + lo)])
            | _ => Throw EMalformedEscape
            end
          else Throw EMalformedEscape
      end
  end.

(** The end of [Advance]: the token is the input up to [current]. *)
Definition finish (current : list byte) (tokenizer : t) : t :=
  set_Token (take (length (Input_ tokenizer) - length current) (Input_ tokenizer)) tokenizer.

(** The [switch] of single character tokens. *)
Definition sign (ch : byte) : option ETokenType :=
  match ch with
  | "/"%byte => Some Slash
  | "@"%byte => Some At
  | "&"%byte => Some Ampersand
  | "*"%byte => Some Asterisk
  | _ => None
  end.

Definition opens_range (ch : byte) : bool :=
  match Token.CharToTokenType ch with Token.LeftBracket | Token.LeftBrace => true | _ => false end.

Fixpoint advance_loop (fuel : nat) (current : list byte) (tokenizer : t) : Result t :=
  match fuel with
  | O => OutOfFuel
  | S fuel =>
      match current with
      | [] => Ok (finish [] tokenizer)
      | ch :: rest =>
          let at_begin := Nat.eqb (length current) (length (Input_ tokenizer)) in
          if opens_range ch then
            if at_begin then Ok (finish [] (SetType Range tokenizer)) else Ok (finish current tokenizer)
          else
            match sign ch with
            | Some type => if at_begin then Ok (SetType type (set_Token [ch] tokenizer)) else Ok (finish current tokenizer)
            | None =>
                if Byte.eqb ch x5c then
                  '(current, literal) ← AdvanceEscaped current (LiteralValue_ tokenizer);
                  advance_loop fuel current (set_LiteralValue literal tokenizer)
                else advance_loop fuel rest (set_LiteralValue (LiteralValue_ tokenizer ++ [ch]) tokenizer)
            end
      end
  end.

Definition Advance (tokenizer : t) : Result t :=
  let tokenizer := set_LiteralValue [] (set_Input (GetSuffix tokenizer) tokenizer) in
  match Input_ tokenizer with
  | [] => Ok (set_Token [] (SetType EndOfStream tokenizer))
  | input => advance_loop (S (length input)) input (SetType Literal tokenizer)
  end.

Definition Expect (expectedType : ETokenType) (tokenizer : t) : Result unit :=
  if bool_decide (expectedType = Type_ tokenizer) then Ok ()
  else if bool_decide (Type_ tokenizer = EndOfStream) then Throw EUnexpectedEndOfStream
  else Throw EUnexpectedToken.

Definition ExpectListIndex (tokenizer : t) : Result unit :=
  _ ← Expect Literal tokenizer;
  let token := LiteralValue_ tokenizer in
  if negb (IsSpecialListKey token) && negb (is_ok (FromString_i64 token)) then Throw EUnexpectedToken else Ok ().

Definition Skip (expectedType : ETokenType) (tokenizer : t) : Result (t * bool) :=
  if bool_decide (Type_ tokenizer = expectedType) then tokenizer ← Advance tokenizer; Ok (tokenizer, true) else Ok (tokenizer, false).

(** The destructor of [TCheckpoint] that was made in the state [saved]. *)
Definition Restore (saved tokenizer : t) : t :=
  {| Path_ := Path_ saved; Type_ := Type_ saved; PreviousType_ := PreviousType_ saved; Token_ := Token_ saved;
     Input_ := Input_ saved; LiteralValue_ := [] |}.
End YPathTokenizer.
Import YPathTokenizer.

(** ** Functions on paths *)

(** [path] bounds the number of tokens of the loops below. *)
Definition path_fuel (path : list byte) : nat := S (S (length path)).

Fixpoint has_prefix_loop (fuel : nat) (fullTokenizer prefixTokenizer : t) : Result bool :=
  match fuel with
  | O => OutOfFuel
  | S fuel =>
      prefixTokenizer ← Advance prefixTokenizer;
      if bool_decide (Type_ prefixTokenizer = EndOfStream) then Ok true
      else
        fullTokenizer ← Advance fullTokenizer;
        if bool_decide (Type_ fullTokenizer = EndOfStream) then Ok false
        else if negb (bool_decide (Token_ prefixTokenizer = Token_ fullTokenizer)) then Ok false
        else has_prefix_loop fuel fullTokenizer prefixTokenizer
  end.

Definition HasPrefix (fullPath prefixPath : list byte) : Result bool :=
  has_prefix_loop (path_fuel prefixPath) (New fullPath) (New prefixPath).

Fixpoint escape_loop (fuel : nat) (tokenizer : t) (builder : list byte) : Result (list byte) :=
  match fuel with
  | O => OutOfFuel
  | S fuel =>
      tokenizer ← Advance tokenizer;
      if bool_decide (Type_ tokenizer = EndOfStream) then Ok builder
      else
        escape_loop fuel tokenizer
          (if bool_decide (Type_ tokenizer = Literal) then AppendYPathLiteral (LiteralValue_ tokenizer) builder else builder ++ Token_ tokenizer)
  end.

(** The exception is returned as an error. *)
Definition TryEscapeNonAsciiYPathLiterals (unparsedYPath : list byte) : Result (list byte) :=
  match unparsedYPath with [] => Ok [] | _ => escape_loop (path_fuel unparsedYPath) (New unparsedYPath) [] end.

Definition TryComputeYPathSuffix (path prefix : list byte) : option (list byte) :=
  if negb (StartsWith path prefix) then None
  else if Nat.eqb (length path) (length prefix) then Some []
  else match drop (length prefix) path with
       | c :: _ => if negb (Byte.eqb c "/") then None else Some (drop (length prefix) path)
       | [] => None
       end.

(** [prefix.ends_with('/')], and the prefix without it. *)
Definition strip_slash (prefix : list byte) : list byte :=
  match list.last prefix with
  | Some "/"%byte => take (length prefix - 1) prefix
  | _ => prefix
  end.

Fixpoint dir_name_loop (fuel : nat) (tokenizer : t) : Result (list byte * list byte) :=
  match fuel with
  | O => OutOfFuel
  | S fuel =>
      if bool_decide (Type_ tokenizer = EndOfStream) then Crash
      else
        match GetSuffix tokenizer with
        | [] => Ok (strip_slash (GetPrefix tokenizer), Token_ tokenizer)
        | _ => tokenizer ← Advance tokenizer; dir_name_loop fuel tokenizer
        end
  end.

Definition DirNameAndBaseName (path : list byte) : Result (list byte * list byte) :=
  match path with [] => Ok ([], []) | _ => dir_name_loop (path_fuel path) (New path) end.

Fixpoint points_loop (fuel : nat) (tokenizer : t) : Result bool :=
  match fuel with
  | O => OutOfFuel
  | S fuel =>
      if bool_decide (Type_ tokenizer = EndOfStream) then Ok false
      else if bool_decide (Type_ tokenizer = At) then Ok true
      else tokenizer ← Advance tokenizer; points_loop fuel tokenizer
  end.

Definition IsPathPointingToAttributes (path : list byte) : Result bool := points_loop (path_fuel path) (New path).

Fixpoint strip_loop (fuel : nat) (path : list byte) (tokenizer : t) : Result (list byte) :=
  match fuel with
  | O => OutOfFuel
  | S fuel =>
      if bool_decide (Type_ tokenizer = EndOfStream) then Ok path
      else if bool_decide (Type_ tokenizer = At) then Ok (strip_slash (GetPrefix tokenizer))
      else tokenizer ← Advance tokenizer; strip_loop fuel path tokenizer
  end.

Definition StripAttributes (path : list byte) : Result (list byte) :=
  match path with [] => Ok [] | _ => strip_loop (path_fuel path) path (New path) end.

(** [YPathJoin(path, literals...)]. *)
Definition YPathJoin (path : list byte) (literals : list (list byte)) : list byte :=
  foldl (λ builder literal, AppendYPathLiteral literal (builder ++ ["/"%byte])) path literals.

(** All tokens of a path: the states of the tokenizer up to the end of the stream. *)
Fixpoint tokenize_loop (fuel : nat) (tokenizer : t) : Result (list t) :=
  match fuel with
  | O => OutOfFuel
  | S fuel =>
      tokenizer ← Advance tokenizer;
      if bool_decide (Type_ tokenizer = EndOfStream) then Ok []
      else tokens ← tokenize_loop fuel tokenizer; Ok (tokenizer :: tokens)
  end.

Definition Tokenize (path : list byte) : Result (list t) := tokenize_loop (path_fuel path) (New path).

(** ** The language of paths *)

Inductive TElement :=
| Sign (type : ETokenType)
| Lit (value : list byte)
| Rng (text : list byte).

(** The texts of a literal's value. *)
Inductive LiteralText : list byte → list byte → Prop :=
| LiteralNil : LiteralText [] []
| LiteralPlain c s v : IsSpecialCharacter c = false → LiteralText s v → LiteralText (c :: s) (c :: v)
| LiteralEscaped c s v : IsSpecialCharacter c = true → LiteralText s v → LiteralText (x5c :: c :: s) (c :: v)
| LiteralHex c1 c2 hi lo s v : ParseHexDigit c1 = Ok hi → ParseHexDigit c2 = Ok lo → LiteralText s v →
    LiteralText (x5c :: "x"%byte :: c1 :: c2 :: s) (byte_of (Z.shiftl hi 4 + lo) :: v).

(** What a literal ends at: a sign, a range or the end of the path. *)
Definition literal_end (t : list byte) : Prop := match t with [] => True | c :: _ => opens_range c = true ∨ is_Some (sign c) end.

(** An element and its text. *)
Definition TPart : Type := TElement * list byte.

Inductive PathText : list TPart → list byte → Prop :=
| PathNil : PathText [] []
| PathSign type c es t : sign c = Some type → PathText es t → PathText ((Sign type, [c]) :: es) (c :: t)
| PathRange c t : opens_range c = true → PathText [(Rng (c :: t), c :: t)] (c :: t)
| PathLiteral s v es t : LiteralText s v → s ≠ [] → literal_end t → PathText es t → PathText ((Lit v, s) :: es) (s ++ t).

(** The text of an element: the one text of a sign or a range, the escaped form of a literal. *)
Definition element_text (e : TElement) : list byte :=
  match e with
  | Sign Slash => B"/"
  | Sign At => B"@"
  | Sign Ampersand => B"&"
  | Sign Asterisk => B"*"
  | Sign _ => []
  | Lit value => ToYPathLiteral value
  | Rng text => text
  end.

(** What a token stands for. *)
Definition element (tokenizer : t) : TElement :=
  match Type_ tokenizer with Literal => Lit (LiteralValue_ tokenizer) | Range => Rng (Token_ tokenizer) | type => Sign type end.

Definition part (tokenizer : t) : TPart := (element tokenizer, Token_ tokenizer).

Lemma special_cases c : IsSpecialCharacter c = opens_range c || bool_decide (is_Some (sign c)) || Byte.eqb c x5c.
Proof.
  pose proof (forall_bytes (λ c, eqb (IsSpecialCharacter c) (opens_range c || bool_decide (is_Some (sign c)) || Byte.eqb c x5c)) ltac:(by vm_compute) c) as H.
  by apply eqb_prop in H.
Qed.

(** A plain character, a backslash and an end are different. *)
Lemma plain_char c : IsSpecialCharacter c = false → opens_range c = false ∧ sign c = None ∧ Byte.eqb c x5c = false.
Proof.
  rewrite special_cases. intros H. apply orb_false_elim in H as [[H1 H2]%orb_false_elim H3]. split_and!; [done| |done].
  apply bool_decide_eq_false in H2. destruct (sign c); [|done]. destruct H2. eauto.
Qed.

Lemma literal_end_special c t : literal_end (c :: t) → IsSpecialCharacter c = true ∧ c ≠ x5c.
Proof.
  rewrite special_cases. intros [H|H]; split.
  - by rewrite H.
  - by intros ->.
  - rewrite (bool_decide_eq_true_2 _ H). by rewrite orb_true_r.
  - intros ->. by destruct H.
Qed.

Lemma literal_end_dec t : literal_end t ∨ ∃ c t', t = c :: t' ∧ opens_range c = false ∧ sign c = None.
Proof.
  destruct t as [|c t]; [by left|]. destruct (opens_range c) eqn:E1; [by left; left|]. destruct (sign c) eqn:E2; [left; right; by rewrite E2|].
  right. by exists c, t.
Qed.

(** A text has one reading. *)
Lemma literal_unique s v t s' v' t' : LiteralText s v → literal_end t → LiteralText s' v' → literal_end t' → s ++ t = s' ++ t' →
  s = s' ∧ v = v' ∧ t = t'.
Proof.
  intros Hs. revert s' v'. induction Hs as [|c s v Hc Hs IH|c s v Hc Hs IH|c1 c2 hi lo s v H1 H2 Hs IH]; intros s' v' Ht Hs' Ht' E.
  - destruct Hs' as [|c' s' v' Hc' Hs'|c' s' v' Hc' Hs'|c1' c2' hi' lo' s' v' H1' H2' Hs']; [done|..]; simpl in E; subst t;
      apply literal_end_special in Ht as [Ht Hne]; congruence.
  - destruct Hs' as [|c' s' v' Hc' Hs'|c' s' v' Hc' Hs'|c1' c2' hi' lo' s' v' H1' H2' Hs']; simpl in E.
    + subst t'. apply literal_end_special in Ht' as [Ht' Hne]. congruence.
    + injection E as <- E. destruct (IH _ _ Ht Hs' Ht' E) as (-> & -> & ->). done.
    + injection E as -> _. discriminate Hc.
    + injection E as -> _. discriminate Hc.
  - destruct Hs' as [|c' s' v' Hc' Hs'|c' s' v' Hc' Hs'|c1' c2' hi' lo' s' v' H1' H2' Hs']; simpl in E.
    + subst t'. by apply literal_end_special in Ht' as [Ht' Hne].
    + injection E as <- _. discriminate Hc'.
    + injection E as <- E. destruct (IH _ _ Ht Hs' Ht' E) as (-> & -> & ->). done.
    + injection E as -> _. discriminate Hc.
  - destruct Hs' as [|c' s' v' Hc' Hs'|c' s' v' Hc' Hs'|c1' c2' hi' lo' s' v' H1' H2' Hs']; simpl in E.
    + subst t'. by apply literal_end_special in Ht' as [Ht' Hne].
    + injection E as <- _. discriminate Hc'.
    + injection E as <- _. discriminate Hc'.
    + injection E as <- <- E. destruct (IH _ _ Ht Hs' Ht' E) as (-> & -> & ->). rewrite H1' in H1. rewrite H2' in H2. by simplify_eq.
Qed.

(** ** The tokenizer reads exactly that language *)

Lemma at_begin_false consumed current tk : Input_ tk = consumed ++ current → consumed ≠ [] → Nat.eqb (length current) (length (Input_ tk)) = false.
Proof. intros -> Hc. apply Nat.eqb_neq. rewrite length_app. destruct consumed; [done|]. simpl. lia. Qed.

Definition scanned (tk : t) (current : list byte) (r : Result t) : Prop :=
  match r with
  | Ok tk' => ∃ s v rest, current = s ++ rest ∧ LiteralText s v ∧ literal_end rest ∧ tk' = finish rest (set_LiteralValue (LiteralValue_ tk ++ v) tk)
  | Throw _ => ¬ ∃ s v rest, current = s ++ rest ∧ LiteralText s v ∧ literal_end rest
  | _ => False
  end.

Lemma ParseHexDigit_cases c : (∃ h, ParseHexDigit c = Ok h) ∨ ParseHexDigit c = Throw EMalformedEscape.
Proof. unfold ParseHexDigit. destruct (in_range c "0" "9"), (in_range c "a" "f"), (in_range c "A" "F"); eauto. Qed.

(** A step of the scan. *)
Lemma scanned_step tk current s1 v1 rest r : current = s1 ++ rest →
  (∀ s v, LiteralText s v → LiteralText (s1 ++ s) (v1 ++ v)) →
  (∀ s v t, current = s ++ t → LiteralText s v → literal_end t → ∃ s' v', s = s1 ++ s' ∧ LiteralText s' v') →
  scanned (set_LiteralValue (LiteralValue_ tk ++ v1) tk) rest r → scanned tk current r.
Proof.
  intros -> Hadd Hinv Hr. destruct r as [tk'| | |]; simpl in *; [| |done..].
  - destruct Hr as (s & v & rest' & -> & Hs & He & ->). exists (s1 ++ s), (v1 ++ v), rest'. split_and!; [by rewrite app_assoc|by apply Hadd|done|].
    by rewrite app_assoc.
  - intros (s & v & t & E & Hs & He). destruct (Hinv s v t E Hs He) as (s' & v' & -> & Hs'). apply Hr. exists s', v', t.
    rewrite <- app_assoc in E. apply app_inv_head in E. done.
Qed.

Lemma advance_loop_scans fuel : ∀ consumed current tk, Input_ tk = consumed ++ current → (length current < fuel)%nat →
  (consumed ≠ [] ∨ ¬ literal_end current) → scanned tk current (advance_loop fuel current tk).
Proof.
  induction fuel as [|fuel IH]; intros consumed current tk Hin Hf Hb; [lia|]. cbn [advance_loop].
  destruct (literal_end_dec current) as [He|(c & rest & -> & E1 & E2)].
  - assert (consumed ≠ []) as Hc by (by destruct Hb). assert (scanned tk current (Ok (finish current tk))) as Hfin.
    { exists [], [], current. split_and!; [done|constructor|done|]. rewrite app_nil_r. by destruct tk. }
    destruct current as [|c rest]; [done|]. cbv zeta. rewrite (at_begin_false consumed _ tk Hin Hc).
    destruct (opens_range c) eqn:E1; [done|]. destruct (sign c) eqn:E2; [done|]. simpl in He. rewrite E1, E2 in He. by destruct He as [He|[? He]].
  - cbv zeta. rewrite E1, E2. assert (IsSpecialCharacter c = Byte.eqb c x5c) as Hsp.
    { rewrite special_cases, E1, E2. by rewrite bool_decide_eq_false_2 by (by intros [? [=]]). }
    destruct (Byte.eqb c x5c) eqn:E3.
    + apply byte_dec_bl in E3 as ->. unfold AdvanceEscaped. change (Byte.eqb x5c x5c) with true. run_bind.
      assert (∀ s v t, x5c :: rest = s ++ t → LiteralText s v → literal_end t → ∃ s', s = x5c :: s') as Hhead.
      { intros s v t E Hs He. destruct s as [|c' s]; [|injection E as <- _; eauto]. simpl in E. subst t. by apply literal_end_special in He as [_ He]. }
      destruct rest as [|ch rest]; simpl.
      { intros (s & v & t & E & Hs & He). destruct (Hhead s v t E Hs He) as [s' ->]. injection E as E. destruct s'; [|done]. simpl in E. subst t. by inversion Hs. }
      destruct (IsSpecialCharacter ch) eqn:Ech.
      * eapply (scanned_step tk _ [x5c; ch] [ch] rest); [done|by constructor| |].
        -- intros s v t E Hs He. destruct (Hhead s v t E Hs He) as [s' ->]. inversion Hs; subst; simplify_eq/=; eauto. 
        -- apply (IH (consumed ++ [x5c; ch])); [simpl; rewrite Hin; by rewrite <- app_assoc|simpl in *; lia|left; by destruct consumed].
      * destruct (Byte.eqb ch "x") eqn:Ex.
        -- apply byte_dec_bl in Ex as ->.
           assert (∀ s v t, x5c :: "x"%byte :: rest = s ++ t → LiteralText s v → literal_end t →
             ∃ c1 c2 hi lo s' v', s = x5c :: "x"%byte :: c1 :: c2 :: s' ∧ ParseHexDigit c1 = Ok hi ∧ ParseHexDigit c2 = Ok lo ∧ LiteralText s' v') as Hx.
           { intros s v t E Hs He. destruct (Hhead s v t E Hs He) as [s' ->]. inversion Hs; subst; simplify_eq/=. eauto 10. }
           assert (∀ e, (∀ c1 c2 rest', rest = c1 :: c2 :: rest' → ¬ ((∃ h, ParseHexDigit c1 = Ok h) ∧ ∃ l, ParseHexDigit c2 = Ok l)) →
             scanned tk (x5c :: "x"%byte :: rest) (Throw e)) as Hbad.
           { intros e Hno (s & v & t & E & Hs & He). destruct (Hx s v t E Hs He) as (c1 & c2 & hi & lo & s' & v' & -> & H1 & H2 & _).
             simpl in E. injection E as ->. eapply Hno; [done|]. eauto. }
           destruct rest as [|c1 [|c2 rest]]; [by apply Hbad..|].
           destruct (ParseHexDigit_cases c1) as [[hi H1]|H1]; rewrite H1; run_bind; [|apply Hbad; intros ? ? ? [= <- <- <-] [[? ?] _]; congruence].
           destruct (ParseHexDigit_cases c2) as [[lo H2]|H2]; rewrite H2; run_bind; [|apply Hbad; intros ? ? ? [= <- <- <-] [_ [? ?]]; congruence].
           eapply (scanned_step tk _ [x5c; "x"%byte; c1; c2] [byte_of (Z.shiftl hi 4 + lo)] rest); [done|by constructor| |].
           ++ intros s v t E Hs He. destruct (Hx s v t E Hs He) as (? & ? & ? & ? & s' & v' & -> & _ & _ & Hs'). simplify_eq/=. eauto.
           ++ apply (IH (consumed ++ [x5c; "x"%byte; c1; c2])); [simpl; rewrite Hin; by rewrite <- app_assoc|simpl in *; lia|left; by destruct consumed].
        -- simpl. intros (s & v & t & E & Hs & He). destruct (Hhead s v t E Hs He) as [s' ->]. inversion Hs; subst; simplify_eq/=; congruence.
    + eapply (scanned_step tk _ [c] [c] rest); [done|by constructor| |].
      * intros s v t E Hs He. destruct s as [|c' s]; [simpl in E; subst t; apply literal_end_special in He as [He _]; congruence|].
        injection E as <- E. inversion Hs; subst; eauto; by simplify_eq/=.
      * apply (IH (consumed ++ [c])); [simpl; rewrite Hin; by rewrite <- app_assoc|simpl in *; lia|left; by destruct consumed].
Qed.

(** The text [input] starts with the element [e], and [rest] is behind it. *)
Definition splits (e : TPart) (input rest : list byte) : Prop := ∀ es, PathText es input ↔ ∃ es', es = e :: es' ∧ PathText es' rest.

Lemma PathText_nil es : PathText es [] ↔ es = [].
Proof. split; [|intros ->; constructor]. inversion 1 as [| | |s v ? ? Hs Hne]; subst; [done|]. by destruct s. Qed.

Lemma LiteralText_plain s v t c t' : LiteralText s v → s ≠ [] → s ++ t = c :: t' → opens_range c = false ∧ sign c = None.
Proof.
  intros Hs Hne E. destruct Hs as [|d s v Hd Hs|d s v Hd Hs|? ? ? ? s v ? ? Hs]; [done|..]; simpl in E; injection E as <- _; try done.
  by destruct (plain_char _ Hd) as (? & ? & _).
Qed.

Lemma splits_sign c type t : sign c = Some type → splits (Sign type, [c]) (c :: t) t.
Proof.
  intros Hc es. split; [|intros (es' & -> & H); by constructor]. assert (opens_range c = false) as Hr by (by destruct c).
  inversion 1 as [|? ? ? ? Hc' Ht| |s v ? ? Hs Hne He Ht E1 E2]; simplify_eq; [eauto|congruence|]. destruct (LiteralText_plain _ _ _ _ _ Hs Hne E2). congruence.
Qed.

Lemma splits_range c t : opens_range c = true → splits (Rng (c :: t), c :: t) (c :: t) [].
Proof.
  intros Hc es. assert (sign c = None) as Hn by (by destruct c). split.
  - inversion 1 as [|? ? ? ? Hc' Ht| |s v ? ? Hs Hne He Ht E1 E2]; simplify_eq; [exists []; split; [done|constructor]|].
    destruct (LiteralText_plain _ _ _ _ _ Hs Hne E2). congruence.
  - intros (es' & -> & ->%PathText_nil). by constructor.
Qed.

Lemma splits_literal s v t : LiteralText s v → s ≠ [] → literal_end t → splits (Lit v, s) (s ++ t) t.
Proof.
  intros Hs Hne He es. split; [|intros (es' & -> & H); by constructor].
  assert (∀ c t', s ++ t = c :: t' → opens_range c = false ∧ sign c = None) as Hc by (intros; by eapply LiteralText_plain).
  inversion 1 as [E0 E|type c ? ? Hc' Ht E1 E|c ? Hc' E1 E|s' v' ? ? Hs' Hne' He' Ht' E1 E].
  - symmetry in E. by apply app_nil in E as [-> _].
  - destruct (Hc c t0); congruence.
  - destruct (Hc c t0); congruence.
  - destruct (literal_unique s v t s' v' t0) as (-> & -> & ->); eauto.
Qed.

Lemma take_sub (s t : list byte) : take (length (s ++ t) - length t) (s ++ t) = s.
Proof. by rewrite length_app, Nat.add_sub, take_app_length. Qed.

Definition advanced (tk : t) (r : Result t) : Prop :=
  match r with
  | Ok tk' =>
      Path_ tk' = Path_ tk ∧ Input_ tk' = GetSuffix tk ∧ GetSuffix tk = Token_ tk' ++ GetSuffix tk' ∧
      (if bool_decide (Type_ tk' = EndOfStream) then GetSuffix tk = []
       else Token_ tk' ≠ [] ∧ splits (part tk') (GetSuffix tk) (GetSuffix tk') ∧ (Type_ tk' ≠ Literal → Token_ tk' = element_text (element tk')))
  | Throw _ => ∀ es, ¬ PathText es (GetSuffix tk)
  | _ => False
  end.

Lemma Advance_advanced tk : advanced tk (Advance tk).
Proof.
  unfold Advance. cbv zeta. cbn [Input_ set_LiteralValue set_Input]. destruct (GetSuffix tk) as [|c input] eqn:Ei.
  { unfold advanced. by rewrite Ei. }
  set (tk0 := SetType Literal (set_LiteralValue [] (set_Input (c :: input) tk))).
  destruct (literal_end_dec (c :: input)) as [He|(c' & t' & [= <- <-] & E1 & E2)].
  - cbn [advance_loop]. cbv zeta. change (Input_ tk0) with (c :: input). rewrite Nat.eqb_refl. destruct (opens_range c) eqn:E1.
    + unfold advanced. rewrite Ei. unfold part, element, GetSuffix. simpl. rewrite !firstn_all, drop_all. split_and!; [done|done|by rewrite app_nil_r|done| |done].
      by apply splits_range.
    + destruct (sign c) as [type|] eqn:E2; [|simpl in He; rewrite E1, E2 in He; by destruct He as [He|[? He]]].
      assert (type ≠ EndOfStream ∧ type ≠ Literal ∧ type ≠ Range) as (Ht1 & Ht2 & Ht3) by (destruct c; by simplify_eq/=).
      unfold advanced. rewrite Ei. simpl. rewrite bool_decide_eq_false_2 by done. unfold part, GetSuffix, element. simpl. split_and!; try done.
      * pose proof (splits_sign c type input E2) as Hsp. by destruct type.
      * intros _. by destruct c; simplify_eq/=.
  - assert (¬ literal_end (c :: input)) as Hne by (intros [He|[? He]]; congruence).
    pose proof (advance_loop_scans (S (length (c :: input))) [] (c :: input) tk0 eq_refl ltac:(lia) (or_intror Hne)) as H.
    destruct (advance_loop _ _ _) as [tk'| | |]; simpl in H; try done.
    + destruct H as (s & v & rest & E & Hs & He & ->). assert (s ≠ []) as Hsn by (intros ->; simpl in E; by subst rest).
      unfold advanced. rewrite Ei. unfold part, finish, set_Token, GetSuffix, element. cbn [Path_ Type_ Input_ Token_ LiteralValue_ set_LiteralValue].
      change (Input_ tk0) with (c :: input). change (Type_ tk0) with Literal. change (LiteralValue_ tk0) with (@nil byte). rewrite E, take_sub, drop_app_length.
      rewrite bool_decide_eq_false_2 by done. split_and!; try done. by apply splits_literal.
    + unfold advanced. rewrite Ei. intros es Hes. apply H. inversion Hes as [|type c0 ? ? Hc' Ht E0 E|c0 ? Hc' E0 E|s v ? ? Hs' Hne' He' Ht' E0 E]; simplify_eq/=; [congruence..|].
      by exists s, v, t0.
Qed.

(** The tokenizer's position in its path. *)
Definition path_inv (tk : t) : Prop := GetPrefix tk ++ Token_ tk ++ GetSuffix tk = Path_ tk ∧ Path_ tk = GetPrefix tk ++ Input_ tk.

Lemma New_inv path : path_inv (New path).
Proof. unfold path_inv, GetPrefix, GetSuffix. simpl. by rewrite Nat.sub_diag. Qed.

Lemma Advance_inv tk tk' : path_inv tk → Advance tk = Ok tk' → path_inv tk'.
Proof.
  intros [Hp Hi] E. pose proof (Advance_advanced tk) as H. rewrite E in H. destruct H as (HP & HI & Hs & _).
  assert (GetPrefix tk' = GetPrefix tk ++ Token_ tk) as Hpre.
  { unfold GetPrefix at 1. rewrite HP, HI, <- Hp, app_assoc. apply take_sub. }
  unfold path_inv. rewrite Hpre, HP, HI, <- Hs, <- Hp. by rewrite <- app_assoc.
Qed.

Definition tokenized (input : list byte) (r : Result (list t)) : Prop :=
  match r with
  | Ok tokens => (∀ es, PathText es input ↔ es = map part tokens) ∧ concat (map Token_ tokens) = input ∧
      Forall (λ tk, Token_ tk ≠ [] ∧ Type_ tk ≠ EndOfStream) tokens
  | Throw _ => ∀ es, ¬ PathText es input
  | _ => False
  end.

Lemma tokenize_loop_exact fuel tk : (length (GetSuffix tk) < fuel)%nat → tokenized (GetSuffix tk) (tokenize_loop fuel tk).
Proof.
  revert tk. induction fuel as [|fuel IH]; intros tk Hf; [lia|]. cbn [tokenize_loop]. pose proof (Advance_advanced tk) as H.
  destruct (Advance tk) as [tk'| | |]; simpl in H; try done. run_bind. destruct H as (_ & _ & Hs & H). case_bool_decide as Ht.
  - rewrite H. split_and!; [|done|constructor]. intros es. by rewrite PathText_nil.
  - destruct H as (Hne & Hsp & _). assert (length (GetSuffix tk) = length (Token_ tk') + length (GetSuffix tk'))%nat as Hl by (by rewrite Hs, length_app).
    assert (0 < length (Token_ tk'))%nat by (destruct (Token_ tk'); [done|simpl; lia]). specialize (IH tk' ltac:(lia)).
    destruct (tokenize_loop fuel tk') as [tokens| | |]; simpl in IH |- *; try done.
    + destruct IH as (IH1 & IH2 & IH3). split_and!; [|by rewrite IH2|by constructor]. intros es. rewrite (Hsp es). split.
      * intros (es' & -> & Hes'). f_equal. by apply IH1.
      * intros ->. eexists. split; [done|]. by apply IH1.
    + intros es Hes. apply Hsp in Hes as (es' & -> & Hes'). by eapply IH.
Qed.

Lemma Tokenize_exact path : tokenized path (Tokenize path).
Proof. apply (tokenize_loop_exact _ (New path)). change (GetSuffix (New path)) with path. unfold path_fuel. lia. Qed.

(** What the tokenizer reads from a text of the language. *)
Lemma Tokenize_text es path : PathText es path → ∃ tokens, Tokenize path = Ok tokens ∧ map part tokens = es ∧ concat (map Token_ tokens) = path.
Proof.
  intros H. pose proof (Tokenize_exact path) as Ht. destruct (Tokenize path) as [tokens| | |]; simpl in Ht; try done; [|by eapply Ht in H].
  destruct Ht as (H1 & H2 & _). exists tokens. split_and!; [done| |done]. symmetry. by apply H1.
Qed.

(** ** Literals are read back *)

Lemma AppendYPathLiteral_app value builder : AppendYPathLiteral value builder = builder ++ ToYPathLiteral value.
Proof.
  unfold ToYPathLiteral, AppendYPathLiteral. revert builder. induction value as [|c value IH]; intros builder; simpl; [by rewrite app_nil_r|].
  rewrite IH, (IH (literal_char c)). by rewrite app_assoc.
Qed.

Lemma ToYPathLiteral_cons c value : ToYPathLiteral (c :: value) = literal_char c ++ ToYPathLiteral value.
Proof. unfold ToYPathLiteral at 1. simpl. apply (AppendYPathLiteral_app value (literal_char c)). Qed.

Lemma literal_char_text c s v : LiteralText s v → LiteralText (literal_char c ++ s) (c :: v).
Proof.
  intros Hs. unfold literal_char. destruct (IsSpecialCharacter c) eqn:E; [by constructor|].
  destruct ((byte_val c <? 32) || (byte_val c >? 127)); [|by constructor]. simpl.
  pose proof (forall_bytes (λ c, bool_decide (ParseHexDigit (hex_lowercase (Z.shiftr (byte_val c) 4)) = Ok (Z.shiftr (byte_val c) 4) ∧
    ParseHexDigit (hex_lowercase (Z.land (byte_val c) 15)) = Ok (Z.land (byte_val c) 15) ∧
    byte_of (Z.shiftl (Z.shiftr (byte_val c) 4) 4 + Z.land (byte_val c) 15) = c)) ltac:(by vm_compute) c) as H.
  cbv beta in H. apply bool_decide_eq_true in H as (H1 & H2 & H3). rewrite <- H3 at 3. by constructor.
Qed.

Lemma ToYPathLiteral_text v : LiteralText (ToYPathLiteral v) v.
Proof. induction v as [|c v IH]; [constructor|]. rewrite ToYPathLiteral_cons. by apply literal_char_text. Qed.

Lemma literal_char_ne c : literal_char c ≠ [].
Proof. unfold literal_char. by destruct (IsSpecialCharacter c), ((byte_val c <? 32) || (byte_val c >? 127)). Qed.

Lemma ToYPathLiteral_ne v : v ≠ [] → ToYPathLiteral v ≠ [].
Proof. destruct v as [|c v]; [done|]. intros _. rewrite ToYPathLiteral_cons. pose proof (literal_char_ne c). by destruct (literal_char c). Qed.

(** Escaped literals are ASCII. *)
Definition is_ascii_text (c : byte) : bool := (32 <=? byte_val c) && (byte_val c <=? 127).

Lemma ToYPathLiteral_ascii v : Forall (λ c, is_ascii_text c = true) (ToYPathLiteral v).
Proof.
  induction v as [|c v IH]; [constructor|]. rewrite ToYPathLiteral_cons. apply Forall_app_2; [|done].
  pose proof (forall_bytes (λ c, forallb is_ascii_text (literal_char c)) ltac:(by vm_compute) c) as H. cbv beta in H.
  apply List.Forall_forall. by apply forallb_forall.
Qed.

Definition render (es : list TElement) : list byte := concat (map element_text es).

Lemma literal_end_render es t : PathText es t → literal_end t → literal_end (render es.*1).
Proof.
  intros Ht He. inversion Ht as [E0 E|type c ? ? Hc' Ht' E1 E|c ? Hc' E1 E|s v ? ? Hs Hne He' Ht' E1 E]; subst; [done| | |].
  - assert (∃ t', render ((Sign type, [c]) :: es0).*1 = c :: t') as [t' ->] by (destruct c; simplify_eq/=; by eexists). right. by rewrite Hc'.
  - by left.
  - destruct s as [|d s]; [done|]. destruct (LiteralText_plain _ _ t0 _ _ Hs Hne eq_refl) as [H1 H2]. simpl in He. rewrite H1, H2 in He.
    by destruct He as [He|[? He]].
Qed.

(** The same elements, in their escaped form. *)
Definition written (es : list TElement) : list TPart := map (λ e, (e, element_text e)) es.

Lemma render_text es t : PathText es t → PathText (written es.*1) (render es.*1).
Proof.
  induction 1 as [|type c es t Hc Ht IH|c t Hc|s v es t Hs Hne He Ht IH]; unfold render, written in *; cbn [fmap list_fmap map concat fst] in *.
  - constructor.
  - assert (element_text (Sign type) = [c]) as -> by (destruct c; by simplify_eq/=). by constructor.
  - rewrite app_nil_r. by constructor.
  - cbn [element_text]. constructor; [apply ToYPathLiteral_text| |exact (literal_end_render es t Ht He)|done]. apply ToYPathLiteral_ne. by destruct Hs.
Qed.

(** ** The functions on paths *)

(** One turn of a loop over the tokens. *)
Lemma tokenize_turn fuel tk tokens : tokenize_loop (S fuel) tk = Ok tokens →
  ∃ tk', Advance tk = Ok tk' ∧ ((Type_ tk' = EndOfStream ∧ tokens = []) ∨ (Type_ tk' ≠ EndOfStream ∧ ∃ rest, tokenize_loop fuel tk' = Ok rest ∧ tokens = tk' :: rest)).
Proof.
  cbn [tokenize_loop]. intros E. bind_inv E as (tk' & Ea & E). exists tk'. split; [done|]. case_bool_decide as Ht.
  - left. by injection E as <-.
  - right. split; [done|]. bind_inv E as (rest & Er & [= <-]). by exists rest.
Qed.

Lemma has_prefix_tokens fuel : ∀ fuel' full prefix tf tp, tokenize_loop fuel prefix = Ok tp → tokenize_loop fuel' full = Ok tf →
  has_prefix_loop fuel full prefix = Ok (bool_decide (map Token_ tp `prefix_of` map Token_ tf)).
Proof.
  induction fuel as [|fuel IH]; intros fuel' full prefix tf tp Ep Ef; [done|]. destruct fuel' as [|fuel']; [done|]. cbn [has_prefix_loop].
  destruct (tokenize_turn _ _ _ Ep) as (p' & -> & [[Hp ->]|(Hp & tp' & Ep' & ->)]); run_bind.
  { by rewrite !bool_decide_eq_true_2 by (done || apply prefix_nil). }
  rewrite bool_decide_eq_false_2 by done.
  destruct (tokenize_turn _ _ _ Ef) as (f' & -> & [[Hf ->]|(Hf & tf' & Ef' & ->)]); run_bind.
  { by rewrite bool_decide_eq_true_2 by done. }
  rewrite bool_decide_eq_false_2 by done. case_bool_decide as Ht; cbn [negb map].
  - rewrite (IH fuel' f' p' tf' tp') by done. f_equal. apply bool_decide_ext. rewrite Ht. split; [apply prefix_cons|apply prefix_cons_inv_2].
  - f_equal. symmetry. apply bool_decide_eq_false. intros H. by apply prefix_cons_inv_1 in H.
Qed.

Lemma escape_tokens fuel : ∀ tk builder tokens, tokenize_loop fuel tk = Ok tokens →
  escape_loop fuel tk builder = Ok (builder ++ render (map element tokens)).
Proof.
  induction fuel as [|fuel IH]; intros tk builder tokens E; [done|]. cbn [escape_loop].
  pose proof (Advance_advanced tk) as Had. destruct (tokenize_turn _ _ _ E) as (tk' & E' & [[Ht ->]|(Ht & rest & Er & ->)]); rewrite E' in Had |- *; run_bind.
  { rewrite bool_decide_eq_true_2 by done. by rewrite app_nil_r. }
  destruct Had as (_ & _ & _ & Had). rewrite bool_decide_eq_false_2 in Had |- * by done. destruct Had as (_ & _ & Htext).
  rewrite (IH _ _ _ Er). f_equal. unfold render. cbn [map concat]. rewrite app_assoc. f_equal. case_bool_decide as Hl.
  - rewrite AppendYPathLiteral_app. unfold element. by rewrite Hl.
  - by rewrite Htext.
Qed.

Lemma escape_throws fuel : ∀ tk builder e, tokenize_loop fuel tk = Throw e → escape_loop fuel tk builder = Throw e.
Proof.
  induction fuel as [|fuel IH]; intros tk builder e E; [done|]. cbn [escape_loop tokenize_loop] in *.
  destruct (Advance tk) as [tk'|e'| |]; run_bind in E; run_bind; [|by injection E as ->|done..]. case_bool_decide; [done|].
  apply IH. by destruct (tokenize_loop fuel tk').
Qed.

(** The last token and what is in front of it. *)
Lemma dir_name_tokens fuel : ∀ tk tokens last, tokenize_loop fuel tk = Ok (tokens ++ [last]) → path_inv tk → Type_ tk ≠ EndOfStream →
  ∃ tk', dir_name_loop fuel tk = Ok (strip_slash (GetPrefix tk'), Token_ last) ∧ GetPrefix tk' = GetPrefix tk ++ Token_ tk ++ concat (map Token_ tokens).
Proof.
  induction fuel as [|fuel IH]; intros tk tokens last E Hinv Ht; [done|]. cbn [dir_name_loop]. rewrite bool_decide_eq_false_2 by done.
  pose proof (Advance_advanced tk) as Had. destruct (tokenize_turn _ _ _ E) as (tk' & E' & [[Ht' Hn]|(Ht' & rest & Er & Hc)]); [by destruct tokens|].
  rewrite E' in Had. destruct Had as (HP & HI & Hs & Had). rewrite bool_decide_eq_false_2 in Had by done. destruct Had as (Hne & _).
  pose proof (Advance_inv tk tk' Hinv E') as Hinv'.
  assert (GetPrefix tk' = GetPrefix tk ++ Token_ tk) as Hpre.
  { unfold GetPrefix at 1. rewrite HP, HI, <- (proj1 Hinv), app_assoc. apply take_sub. }
  assert (GetSuffix tk ≠ []) as Hsne by (rewrite Hs; by destruct (Token_ tk')). destruct (GetSuffix tk) eqn:Es; [done|]. rewrite E'. run_bind.
  destruct tokens as [|t0 tokens].
  - injection Hc as E0 Hr. subst rest last. exists tk'. destruct fuel as [|fuel]; [done|]. cbn [dir_name_loop]. rewrite bool_decide_eq_false_2 by done.
    destruct (tokenize_turn _ _ _ Er) as (tk2 & E2 & [[Ht2 _]|(_ & ? & _ & [=])]).
    pose proof (Advance_advanced tk') as Ha. rewrite E2 in Ha. destruct Ha as (_ & _ & _ & Ha). rewrite bool_decide_eq_true_2 in Ha by done. rewrite Ha.
    simpl. by rewrite app_nil_r.
  - injection Hc as E0 Hr. subst rest t0. destruct (IH tk' tokens last Er Hinv' Ht') as (tk2 & E2 & Hp2). exists tk2. split; [done|]. rewrite Hp2, Hpre. simpl.
    by rewrite <- app_assoc.
Qed.

(** The tokens in front of the first [@]. *)
Fixpoint before_at (tokens : list t) : option (list t) :=
  match tokens with
  | [] => None
  | tk :: tokens => if bool_decide (Type_ tk = At) then Some [] else cons tk <$> before_at tokens
  end.

Lemma attribute_tokens fuel : ∀ tk tokens path, tokenize_loop fuel tk = Ok tokens → path_inv tk → Type_ tk ≠ EndOfStream → Type_ tk ≠ At →
  points_loop (S fuel) tk = Ok (bool_decide (is_Some (before_at tokens))) ∧
  strip_loop (S fuel) path tk =
    Ok (match before_at tokens with Some pre => strip_slash (GetPrefix tk ++ Token_ tk ++ concat (map Token_ pre)) | None => path end).
Proof.
  induction fuel as [|fuel IH]; intros tk tokens path E Hinv Ht Ha; [done|].
  change (points_loop (S (S fuel)) tk) with (if bool_decide (Type_ tk = EndOfStream) then Ok false else if bool_decide (Type_ tk = At) then Ok true
    else tokenizer ← Advance tk; points_loop (S fuel) tokenizer).
  change (strip_loop (S (S fuel)) path tk) with (if bool_decide (Type_ tk = EndOfStream) then Ok path
    else if bool_decide (Type_ tk = At) then Ok (strip_slash (GetPrefix tk)) else tokenizer ← Advance tk; strip_loop (S fuel) path tokenizer).
  rewrite (bool_decide_eq_false_2 _ Ht), (bool_decide_eq_false_2 _ Ha).
  destruct (tokenize_turn _ _ _ E) as (tk' & E' & Hcase). pose proof (Advance_inv tk tk' Hinv E') as Hinv'.
  pose proof (Advance_advanced tk) as Had. rewrite E' in Had |- *. run_bind. destruct Had as (HP & HI & _ & _).
  assert (GetPrefix tk' = GetPrefix tk ++ Token_ tk) as Hpre.
  { unfold GetPrefix at 1. rewrite HP, HI, <- (proj1 Hinv), app_assoc. apply take_sub. }
  destruct Hcase as [[Ht' ->]|(Ht' & rest & Er & ->)].
  { cbn [points_loop strip_loop]. by rewrite bool_decide_eq_true_2. }
  destruct (decide (Type_ tk' = At)) as [Ha'|Ha'].
  { cbn [points_loop strip_loop before_at]. rewrite (bool_decide_eq_false_2 _ Ht'), (bool_decide_eq_true_2 _ Ha'). split; [done|].
    rewrite Hpre. simpl. by rewrite app_nil_r. }
  destruct (IH tk' rest path Er Hinv' Ht' Ha') as [-> ->]. cbn [before_at]. rewrite (bool_decide_eq_false_2 _ Ha').
  destruct (before_at rest) as [pre|]; [|done]. split; [done|]. rewrite Hpre. simpl. by rewrite <- app_assoc.
Qed.

(** ** Joining *)

(** The elements that [YPathJoin] adds. *)
Definition key_elements (keys : list (list byte)) : list TElement := keys ≫= λ key, [Sign Slash; Lit key].

Lemma YPathJoin_render path keys : YPathJoin path keys = path ++ render (key_elements keys).
Proof.
  unfold YPathJoin, render, key_elements. revert path. induction keys as [|key keys IH]; intros path; simpl; [by rewrite app_nil_r|].
  rewrite IH, AppendYPathLiteral_app. by rewrite <- !app_assoc.
Qed.

Lemma key_elements_text keys : Forall (λ key, key ≠ []) keys → PathText (written (key_elements keys)) (render (key_elements keys)) ∧ literal_end (render (key_elements keys)).
Proof.
  induction 1 as [|key keys Hk _ [IH1 IH2]]; [split; [constructor|done]|]. change (key_elements (key :: keys)) with (Sign Slash :: Lit key :: key_elements keys).
  unfold render, written in *. cbn [map concat element_text]. split; [|right; by eexists]. apply (PathSign Slash); [done|].
  constructor; [apply ToYPathLiteral_text|by apply ToYPathLiteral_ne|done|done].
Qed.

Definition no_range (es : list TPart) : Prop := Forall (λ e, match e.1 with Rng _ => False | _ => True end) es.

Lemma PathText_app es1 t1 es2 t2 : PathText es1 t1 → no_range es1 → PathText es2 t2 → literal_end t2 → PathText (es1 ++ es2) (t1 ++ t2).
Proof.
  intros H1 Hn H2 He. induction H1 as [|type c es t Hc Ht IH|c t Hc|s v es t Hs Hne He' Ht IH]; [done|..].
  - simpl. constructor; [done|]. apply IH. by inversion Hn.
  - by inversion Hn.
  - rewrite <- app_assoc. simpl. constructor; [done|done| |apply IH; by inversion Hn]. by destruct t.
Qed.

Lemma YPathJoin_text path es keys : PathText es path → no_range es → Forall (λ key, key ≠ []) keys →
  PathText (es ++ written (key_elements keys)) (YPathJoin path keys).
Proof. intros H Hn Hk. rewrite YPathJoin_render. destruct (key_elements_text keys Hk) as [H1 H2]. by apply PathText_app. Qed.

Lemma strip_slash_snoc path : strip_slash (path ++ B"/") = path.
Proof.
  unfold strip_slash. change (B"/") with ["/"%byte]. rewrite last_snoc. rewrite length_app. simpl. rewrite Nat.add_sub. by rewrite take_app_length.
Qed.

Lemma DirName_tokens path tokens last : Tokenize path = Ok (tokens ++ [last]) →
  DirNameAndBaseName path = Ok (strip_slash (concat (map Token_ tokens)), Token_ last).
Proof.
  intros E. destruct path as [|c path]; [destruct tokens as [|? [|? ?]]; discriminate E|]. unfold DirNameAndBaseName.
  destruct (dir_name_tokens _ _ _ _ E (New_inv _) ltac:(done)) as (tk' & -> & ->). unfold GetPrefix at 1. simpl. by rewrite Nat.sub_diag.
Qed.

(** A path and its last key are split where they were joined. *)
Lemma DirName_join path es key : PathText es path → no_range es → key ≠ [] →
  DirNameAndBaseName (YPathJoin path [key]) = Ok (path, ToYPathLiteral key).
Proof.
  intros Hes Hn Hk. pose proof (YPathJoin_text path es [key] Hes Hn ltac:(by constructor)) as Ht.
  destruct (Tokenize_text _ _ Ht) as (tokens & E & Hp & Hc). destruct (Tokenize_text _ _ Hes) as (ptokens & _ & Hpp & Hpc).
  destruct tokens as [|last tokens _] using rev_ind; [by destruct es|]. rewrite map_app in Hp.
  change (written (key_elements [key])) with ([(Sign Slash, B"/")] ++ [(Lit key, ToYPathLiteral key)]) in Hp. rewrite app_assoc in Hp.
  apply app_inj_tail in Hp as [Hp Hl]. assert (Token_ last = ToYPathLiteral key) as Hlast by (by injection Hl).
  assert (map Token_ tokens = map Token_ ptokens ++ [B"/"]) as Htok.
  { assert (∀ l, map Token_ l = (map part l).*2) as Hm by (induction l; [done|]; simpl; by f_equal). by rewrite !Hm, Hp, fmap_app, Hpp. }
  rewrite (DirName_tokens _ _ _ E), Hlast, Htok, concat_app, Hpc. simpl. by rewrite strip_slash_snoc.
Qed.

Lemma TryEscape_tokens path : match Tokenize path with
  | Ok tokens => TryEscapeNonAsciiYPathLiterals path = Ok (render (map element tokens))
  | Throw e => TryEscapeNonAsciiYPathLiterals path = Throw e
  | _ => False
  end.
Proof.
  pose proof (Tokenize_exact path) as H. destruct (Tokenize path) as [tokens|e| |] eqn:E; simpl in H; try done.
  - destruct path as [|c path]; [by injection E as <-|]. by apply (escape_tokens _ _ [] tokens).
  - destruct path as [|c path]; [done|]. by apply escape_throws.
Qed.

Lemma map_part_fst tokens : (map part tokens).*1 = map element tokens.
Proof. induction tokens; [done|]. simpl. by f_equal. Qed.

Lemma written_fst es : (written es).*1 = es.
Proof. induction es as [|e es IH]; [done|]. simpl. by f_equal. Qed.

(** C37. The tokenizer of paths decides its language: on every byte string it returns the
    tokens, whose elements and texts are the only reading of the path and whose texts
    concatenate to the path, or throws exactly when the path has no reading; it never
    aborts, reads outside the path or loops. *)
Theorem YPathTokenizer_decides (path : list byte) :
  match Tokenize path with
  | Ok tokens => (∀ es, PathText es path ↔ es = map part tokens) ∧ concat (map Token_ tokens) = path
  | Throw _ => ∀ es, ¬ PathText es path
  | _ => False
  end.
Proof. pose proof (Tokenize_exact path) as H. destruct (Tokenize path); simpl in H; try done. by destruct H as (? & ? & _). Qed.

(** [TryEscapeNonAsciiYPathLiterals] keeps the meaning of a path: it fails exactly on
    malformed paths, else its result has the same elements (the literals have the same
    values) with every literal in its escaped form, ASCII throughout if the range at the end
    of the path is, and escaping it again changes nothing. *)
Theorem TryEscape_correct (path : list byte) :
  match TryEscapeNonAsciiYPathLiterals path with
  | Ok out => ∃ es, PathText es path ∧ PathText (written es.*1) out ∧ TryEscapeNonAsciiYPathLiterals out = Ok out ∧
      (Forall (λ e, match e.1 with Rng text => Forall (λ c, is_ascii_text c = true) text | _ => True end) es → Forall (λ c, is_ascii_text c = true) out)
  | Throw _ => ∀ es, ¬ PathText es path
  | _ => False
  end.
Proof.
  pose proof (Tokenize_exact path) as H. pose proof (TryEscape_tokens path) as Ht. destruct (Tokenize path) as [tokens|e| |]; simpl in H; try done; rewrite Ht; [|done].
  destruct H as (H1 & _ & _). assert (PathText (map part tokens) path) as Hp by (by apply H1). exists (map part tokens).
  pose proof (render_text _ _ Hp) as Hr. rewrite map_part_fst in Hr |- *. split_and!; [done|done| |].
  - pose proof (TryEscape_tokens (render (map element tokens))) as Ht2. destruct (Tokenize_text _ _ Hr) as (tokens2 & E2 & Hp2 & _). rewrite E2 in Ht2.
    rewrite Ht2. f_equal. f_equal. by rewrite <- map_part_fst, Hp2, written_fst.
  - intros Hasc. unfold render. clear -Hasc. induction tokens as [|tk tokens IH]; [constructor|]. inversion Hasc as [|? ? Ha Hasc']; subst. simpl.
    apply Forall_app_2; [|by apply IH]. unfold part in Ha. simpl in Ha. destruct (element tk) as [type|v|text]; [destruct type; repeat constructor|apply ToYPathLiteral_ascii|done].
Qed.

(** Joining and splitting: a path without a range, joined with keys that are not empty,
    is read back as the elements of the path and, for every key, a slash and a literal with
    the key as its value; [DirNameAndBaseName] splits off the last key again and
    [TryComputeYPathSuffix] the path. *)
Theorem YPathJoin_roundtrip (path : list byte) (es : list TPart) (keys : list (list byte)) (key : list byte)
    (Hpath : PathText es path) (Hrange : no_range es) (Hkeys : Forall (λ key, key ≠ []) keys) (Hkey : key ≠ []) :
  (∃ tokens, Tokenize (YPathJoin path keys) = Ok tokens ∧ map element tokens = es.*1 ++ keys ≫= λ key, [Sign Slash; Lit key]) ∧
  DirNameAndBaseName (YPathJoin path [key]) = Ok (path, ToYPathLiteral key) ∧
  TryComputeYPathSuffix (YPathJoin path keys) path = Some (YPathJoin [] keys).
Proof.
  split_and!.
  - destruct (Tokenize_text _ _ (YPathJoin_text path es keys Hpath Hrange Hkeys)) as (tokens & E & Hp & _). exists tokens. split; [done|].
    rewrite <- map_part_fst, Hp, fmap_app. f_equal. apply written_fst.
  - by apply (DirName_join path es).
  - rewrite !YPathJoin_render. simpl. unfold TryComputeYPathSuffix, StartsWith. rewrite take_app_length, bool_decide_eq_true_2 by done. cbn [negb].
    rewrite drop_app_length, length_app. destruct keys as [|k keys]; [simpl; by rewrite Nat.add_0_r, Nat.eqb_refl|]. simpl.
    destruct (Nat.eqb_spec (length path + S (length (ToYPathLiteral k ++ concat (map element_text (key_elements keys))))) (length path)); [lia|done].
Qed.

Lemma YPathJoin_roundtrip_witness :
  PathText [(Sign Slash, B"/"); (Lit (B"home"), B"home")] (B"/home") ∧
  YPathJoin (B"/home") [B"a/b"] = B"/home/a\/b" ∧
  DirNameAndBaseName (YPathJoin (B"/home") [B"a/b"]) = Ok (B"/home", B"a\/b").
Proof.
  assert (PathText [(Sign Slash, B"/"); (Lit (B"home"), B"home")] (B"/home")) as Hp.
  { apply (PathSign Slash "/"); [done|]. apply (PathLiteral (B"home") (B"home") [] []); [|done|done|constructor]. apply (ToYPathLiteral_text (B"home")). }
  split_and!; [exact Hp|by vm_compute|].
  exact (proj1 (proj2 (YPathJoin_roundtrip (B"/home") _ [B"a/b"] (B"a/b") Hp ltac:(by repeat constructor) ltac:(by repeat constructor) ltac:(done)))).
Defined.

(** [HasPrefix] compares paths by their tokens: of two paths that are read without an
    error, one has the other as a prefix exactly when the texts of its tokens start with
    the texts of the other's. *)
Theorem HasPrefix_correct (fullPath prefixPath : list byte) (full prefix : list t)
    (Hfull : Tokenize fullPath = Ok full) (Hprefix : Tokenize prefixPath = Ok prefix) :
  HasPrefix fullPath prefixPath = Ok (bool_decide (map Token_ prefix `prefix_of` map Token_ full)).
Proof. by eapply has_prefix_tokens. Qed.

Lemma HasPrefix_correct_witness : HasPrefix (B"/ab/c") (B"/ab") = Ok true ∧ HasPrefix (B"/abc") (B"/ab") = Ok false.
Proof.
  split.
  - epose proof (HasPrefix_correct (B"/ab/c") (B"/ab") _ _ ltac:(vm_compute; reflexivity) ltac:(vm_compute; reflexivity)) as H. exact H.
  - epose proof (HasPrefix_correct (B"/abc") (B"/ab") _ _ ltac:(vm_compute; reflexivity) ltac:(vm_compute; reflexivity)) as H. exact H.
Defined.

(** The slash that [DirNameAndBaseName] and [StripAttributes] strip may be an escaped one: the
    result is then not a path. *)
Lemma strip_escaped_slash :
  DirNameAndBaseName (B"/a\/&") = Ok (B"/a\", B"&") ∧ StripAttributes (B"/a\/@b") = Ok (B"/a\") ∧ is_throw (Tokenize (B"/a\")) = true.
Proof. by vm_compute. Qed.

(** Space and delete are not escaped. *)
Lemma space_not_escaped : ToYPathLiteral [x20; x7f] = [x20; x7f].
Proof. by vm_compute. Qed.

(** An empty key is lost, and a slash stays in front of nothing. *)
Lemma empty_key_lost : YPathJoin (B"/a") [[]] = B"/a/" ∧ DirNameAndBaseName (B"/a/") = Ok (B"/a", B"/").
Proof. by vm_compute. Qed.

(** The type in front of a sign is reported as a literal. *)
Lemma previous_type_of_sign : (tk ← Advance (New (B"//a")); tk ← Advance tk; Ok (PreviousType_ tk, Type_ tk)) = Ok (Literal, Slash).
Proof. by vm_compute. Qed.
