(* ===== verification/YPathStack.v ===== *)
(** [TYPathStack] (ypath/stack.h, ypath/stack.cpp): the path of a traversal, as a stack of keys
    and indices whose text is built when it is first asked for and kept up to date from then
    on. [GetPath] is a const method of the code that fills mutable fields: it returns the
    changed stack here. *)

From S2P Require Import Prelude IntCast YsonLexer YPath.

Inductive TEntry := Key (key : list byte) | Index (index : Z).

Module Stack.
Record t := {
  Items_ : list TEntry;
  PreviousPathLengths_ : list nat;
  Path_ : list byte;
  PathMaterialized_ : bool
}.

Definition New : t := {| Items_ := []; PreviousPathLengths_ := []; Path_ := []; PathMaterialized_ := false |}.

(** [Push] of an entry whose text in a path is [text]. *)
Definition push (entry : TEntry) (text : list byte) (stack : t) : t :=
  let stack :=
    if PathMaterialized_ stack then
      {| Items_ := Items_ stack; PreviousPathLengths_ := PreviousPathLengths_ stack ++ [length (Path_ stack)];
         Path_ := Path_ stack ++ B"/" ++ text; PathMaterialized_ := true |}
    else stack in
  {| Items_ := Items_ stack ++ [entry]; PreviousPathLengths_ := PreviousPathLengths_ stack; Path_ := Path_ stack; PathMaterialized_ := PathMaterialized_ stack |}.

Definition PushKey (key : list byte) (stack : t) : Result t := Ok (push (Key key) (ToYPathLiteral key) stack).

Definition PushIndex (index : Z) (stack : t) : Result t := text ← ToString_int index; Ok (push (Index index) text stack).

Definition Pop (stack : t) : Result t :=
  match list.last (Items_ stack) with
  | None => Crash
  | Some _ =>
      let items := take (length (Items_ stack) - 1) (Items_ stack) in
      if PathMaterialized_ stack then
        match list.last (PreviousPathLengths_ stack) with
        | None => Crash
        | Some previous =>
            Ok {| Items_ := items; PreviousPathLengths_ := take (length (PreviousPathLengths_ stack) - 1) (PreviousPathLengths_ stack);
                  Path_ := take previous (Path_ stack); PathMaterialized_ := true |}
        end
      else Ok {| Items_ := items; PreviousPathLengths_ := PreviousPathLengths_ stack; Path_ := Path_ stack; PathMaterialized_ := false |}
  end.

Definition IncreaseLastIndex (stack : t) : Result t :=
  match list.last (Items_ stack) with
  | Some (Index index) => stack ← Pop stack; PushIndex (wrap_s 32 (index + 1)) stack
  | _ => Crash
  end.

Definition IsEmpty (stack : t) : bool := bool_decide (Items_ stack = []).

Definition entry_literal (entry : TEntry) : Result (list byte) :=
  match entry with Key key => Ok (ToYPathLiteral key) | Index index => ToString_int index end.

(** The loop of [GetPath]. *)
Fixpoint materialize (items : list TEntry) (lengths : list nat) (path : list byte) : Result (list nat * list byte) :=
  match items with
  | [] => Ok (lengths, path)
  | entry :: items => text ← entry_literal entry; materialize items (lengths ++ [length path]) (path ++ B"/" ++ text)
  end.

Definition GetPath (stack : t) : Result (t * list byte) :=
  if PathMaterialized_ stack then Ok (stack, Path_ stack)
  else
    '(lengths, path) ← materialize (Items_ stack) (PreviousPathLengths_ stack) (Path_ stack);
    Ok ({| Items_ := Items_ stack; PreviousPathLengths_ := lengths; Path_ := path; PathMaterialized_ := true |}, path).

Definition GetHumanReadablePath (stack : t) : Result (t * list byte) :=
  '(stack, path) ← GetPath stack; Ok (stack, match path with [] => B"(root)" | _ => path end).

Definition ToString (item : TEntry) : Result (list byte) :=
  match item with Key string => Ok string | Index integer => ToString_int integer end.

Definition TryGetStringifiedLastPathToken (stack : t) : Result (option (list byte)) :=
  match list.last (Items_ stack) with None => Ok None | Some item => text ← ToString item; Ok (Some text) end.

Definition Reset (stack : t) : t := New.
End Stack.
Import Stack.

(** The calls of a client. *)
Inductive TStackCall := CallPushKey (key : list byte) | CallPushIndex (index : Z) | CallIncreaseLastIndex | CallPop | CallGetPath | CallReset.

Definition call_stack (call : TStackCall) (stack : t) : Result t :=
  match call with
  | CallPushKey key => PushKey key stack
  | CallPushIndex index => PushIndex index stack
  | CallIncreaseLastIndex => IncreaseLastIndex stack
  | CallPop => Pop stack
  | CallGetPath => '(stack, _) ← GetPath stack; Ok stack
  | CallReset => Ok (Reset stack)
  end.

Fixpoint calls_stack (calls : list TStackCall) (stack : t) : Result t :=
  match calls with [] => Ok stack | call :: calls => stack ← call_stack call stack; calls_stack calls stack end.

(** ** The specification: a list of entries *)

Definition spec_call (call : TStackCall) (items : list TEntry) : option (list TEntry) :=
  match call with
  | CallPushKey key => Some (items ++ [Key key])
  | CallPushIndex index => Some (items ++ [Index index])
  | CallIncreaseLastIndex =>
      match list.last items with Some (Index index) => Some (take (length items - 1) items ++ [Index (wrap_s 32 (index + 1))]) | _ => None end
  | CallPop => match list.last items with Some _ => Some (take (length items - 1) items) | None => None end
  | CallGetPath => Some items
  | CallReset => Some []
  end.

Fixpoint spec_calls (calls : list TStackCall) (items : list TEntry) : option (list TEntry) :=
  match calls with [] => Some items | call :: calls => spec_call call items ≫= spec_calls calls end.

(** The index of an entry is an [int]. *)
Definition entry_ok (entry : TEntry) : Prop := match entry with Index index => in_s 32 index | Key _ => True end.
Definition call_ok (call : TStackCall) : Prop := match call with CallPushIndex index => in_s 32 index | _ => True end.

(** The string of an entry, and the path of a stack of entries. *)
Definition entry_string (entry : TEntry) : list byte :=
  match entry with Key key => key | Index index => match ToString_int index with Ok text => text | _ => [] end end.

Definition entries_path (items : list TEntry) : list byte := YPathJoin [] (map entry_string items).

(** A number needs no escaping. *)
Lemma literal_plain c : isdigit c = true ∨ c = "-"%byte → literal_char c = [c].
Proof.
  intros Hc. pose proof (forall_bytes (λ c, implb (isdigit c || Byte.eqb c "-") (bool_decide (literal_char c = [c]))) ltac:(by vm_compute) c) as H.
  cbv beta in H. destruct Hc as [Hc| ->]; [|done]. rewrite Hc in H. by apply bool_decide_eq_true in H.
Qed.

Lemma literal_digits ds : Forall (λ b, is_dec_digit b = true) ds → ToYPathLiteral ds = ds.
Proof.
  induction 1 as [|c ds Hc _ IH]; [done|]. rewrite ToYPathLiteral_cons, IH, literal_plain; [done|]. left.
  pose proof (forall_bytes (λ c, implb (is_dec_digit c) (isdigit c)) ltac:(by vm_compute) c) as H. cbv beta in H. by rewrite Hc in H.
Qed.

Lemma in_s_32_64 z : in_s 32 z → in_s 64 z.
Proof. unfold in_s. lia. Qed.

Lemma entry_literal_spec entry : entry_ok entry → entry_literal entry = Ok (ToYPathLiteral (entry_string entry)) ∧ ToString entry = Ok (entry_string entry).
Proof.
  destruct entry as [key|index]; [done|]. intros Hi%in_s_32_64. simpl. destruct (ToString_i64 index Hi) as (c & ds & -> & Hc & Hds & _).
  split; [|done]. f_equal. rewrite ToYPathLiteral_cons, (literal_digits ds Hds), literal_plain; [done|]. destruct Hc as [Hc| ->]; [left|by right].
  pose proof (forall_bytes (λ c, implb (is_dec_digit c) (isdigit c)) ltac:(by vm_compute) c) as H. cbv beta in H. by rewrite Hc in H.
Qed.

Lemma entry_string_ne index : in_s 32 index → entry_string (Index index) ≠ [].
Proof. intros Hi%in_s_32_64. simpl. by destruct (ToString_i64 index Hi) as (c & ds & -> & _). Qed.

Lemma entries_path_snoc items entry : entries_path (items ++ [entry]) = entries_path items ++ B"/" ++ ToYPathLiteral (entry_string entry).
Proof.
  unfold entries_path, YPathJoin. rewrite map_app, foldl_app. simpl. rewrite AppendYPathLiteral_app. by rewrite <- app_assoc.
Qed.

(** The lengths of the paths of the proper prefixes. *)
Definition prefix_lengths (items : list TEntry) : list nat := map (λ n, length (entries_path (take n items))) (seq 0 (length items)).

Lemma prefix_lengths_snoc items entry : prefix_lengths (items ++ [entry]) = prefix_lengths items ++ [length (entries_path items)].
Proof.
  unfold prefix_lengths. rewrite length_app, Nat.add_1_r, seq_S, map_app. simpl. rewrite take_app_length. f_equal.
  apply map_ext_in. intros n Hn%in_seq. by rewrite take_app_le by lia.
Qed.

(** The invariant of the code's state. *)
Definition stack_inv (items : list TEntry) (stack : t) : Prop :=
  Items_ stack = items ∧ Forall entry_ok items ∧
  if PathMaterialized_ stack then Path_ stack = entries_path items ∧ PreviousPathLengths_ stack = prefix_lengths items
  else Path_ stack = [] ∧ PreviousPathLengths_ stack = [].

Lemma New_stack_inv : stack_inv [] New.
Proof. split_and!; [done|constructor|done]. Qed.

Lemma push_inv items entry stack : stack_inv items stack → entry_ok entry →
  stack_inv (items ++ [entry]) (push entry (ToYPathLiteral (entry_string entry)) stack).
Proof.
  intros (Hi & Hok & Hm) He. unfold push, stack_inv. destruct (PathMaterialized_ stack) eqn:Em; simpl; rewrite ?Em, Hi; destruct Hm as [Hp Hl].
  - split_and!; [done|by apply Forall_app_2; [|constructor]|by rewrite Hp, entries_path_snoc|by rewrite prefix_lengths_snoc, Hp, Hl].
  - split_and!; [done|by apply Forall_app_2; [|constructor]|done|done].
Qed.

Lemma PushKey_inv items key stack : stack_inv items stack → ∃ stack', PushKey key stack = Ok stack' ∧ stack_inv (items ++ [Key key]) stack'.
Proof. intros H. eexists. split; [done|]. by apply (push_inv items (Key key)). Qed.

Lemma PushIndex_inv items index stack : stack_inv items stack → in_s 32 index →
  ∃ stack', PushIndex index stack = Ok stack' ∧ stack_inv (items ++ [Index index]) stack'.
Proof.
  intros H Hi. destruct (entry_literal_spec (Index index) Hi) as [E _]. simpl in E. unfold PushIndex. rewrite E. run_bind. eexists. split; [done|].
  by apply (push_inv items (Index index)).
Qed.

Lemma Pop_inv items stack : stack_inv items stack →
  match list.last items with
  | None => Pop stack = Crash
  | Some _ => ∃ stack', Pop stack = Ok stack' ∧ stack_inv (take (length items - 1) items) stack'
  end.
Proof.
  intros (Hi & Hok & Hm). unfold Pop. rewrite Hi. destruct items as [|entry items _] using rev_ind; [done|]. rewrite last_snoc.
  rewrite length_app, Nat.add_sub, take_app_length. apply Forall_app in Hok as [Hok _]. unfold stack_inv. destruct (PathMaterialized_ stack); destruct Hm as [Hp Hl].
  - rewrite Hl, prefix_lengths_snoc, last_snoc, length_app, Nat.add_sub, take_app_length. eexists. split; [done|]. simpl. split_and!; [done|done| |done].
    by rewrite Hp, entries_path_snoc, take_app_length.
  - eexists. split; [done|]. by split_and!.
Qed.

Lemma materialize_spec items : ∀ pre, Forall entry_ok items →
  materialize items (prefix_lengths pre) (entries_path pre) = Ok (prefix_lengths (pre ++ items), entries_path (pre ++ items)).
Proof.
  induction items as [|entry items IH]; intros pre Hok; [by rewrite app_nil_r|]. inversion Hok as [|? ? He Hok']; subst. cbn [materialize].
  rewrite (proj1 (entry_literal_spec entry He)). run_bind. rewrite <- entries_path_snoc, <- (prefix_lengths_snoc pre entry), IH by done. by rewrite <- app_assoc.
Qed.

Lemma GetPath_inv items stack : stack_inv items stack → ∃ stack', GetPath stack = Ok (stack', entries_path items) ∧ stack_inv items stack'.
Proof.
  intros (Hi & Hok & Hm). unfold GetPath, stack_inv. destruct (PathMaterialized_ stack) eqn:Em; destruct Hm as [Hp Hl].
  - exists stack. rewrite Hp, Em. by split_and!.
  - rewrite Hi, Hp, Hl. pose proof (materialize_spec items [] Hok) as E. change (materialize items [] [] = Ok (prefix_lengths items, entries_path items)) in E. rewrite E. run_bind. eexists. split; [done|]. by split_and!.
Qed.

(** One call refines the specification. *)
Lemma call_refines call items stack : stack_inv items stack → call_ok call →
  match spec_call call items with
  | Some items' => ∃ stack', call_stack call stack = Ok stack' ∧ stack_inv items' stack'
  | None => call_stack call stack = Crash
  end.
Proof.
  intros Hinv Hok. destruct call as [key|index| | | |]; simpl in Hok |- *.
  - by apply PushKey_inv.
  - by apply PushIndex_inv.
  - unfold IncreaseLastIndex. rewrite (proj1 Hinv). pose proof (Pop_inv items stack Hinv) as Hpop.
    destruct (list.last items) as [[key|index]|] eqn:El; [done| |done]. destruct Hpop as (stack1 & -> & Hinv1). run_bind.
    apply PushIndex_inv; [done|]. by apply wrap_s_range.
  - pose proof (Pop_inv items stack Hinv) as Hpop. by destruct (list.last items).
  - destruct (GetPath_inv items stack Hinv) as (stack' & -> & Hinv'). run_bind. eauto.
  - eexists. split; [done|]. apply New_stack_inv.
Qed.

Lemma calls_refine calls : ∀ items stack, stack_inv items stack → Forall call_ok calls →
  match spec_calls calls items with
  | Some items' => ∃ stack', calls_stack calls stack = Ok stack' ∧ stack_inv items' stack'
  | None => calls_stack calls stack = Crash
  end.
Proof.
  induction calls as [|call calls IH]; intros items stack Hinv Hok; [simpl; eauto|]. inversion Hok as [|? ? Hc Hok']; subst.
  pose proof (call_refines call items stack Hinv Hc) as H. simpl. destruct (spec_call call items) as [items'|]; simpl.
  - destruct H as (stack' & -> & Hinv'). run_bind. by apply IH.
  - by rewrite H.
Qed.

(** The stack refines a list of entries: after any sequence of calls (with [GetPath],
    which fills the lazily built fields, at any place), the items are those of the list,
    [GetPath] returns the path of the list, and a call aborts exactly when it pops or
    increases an element that is not there. The path, when no key is empty, is read back by
    the tokenizer as a slash and a literal with the string of the entry for each of them. *)
Theorem TYPathStack_refines (calls : list TStackCall) (Hcalls : Forall call_ok calls) :
  match spec_calls calls [] with
  | Some items => ∃ stack stack', calls_stack calls New = Ok stack ∧ Items_ stack = items ∧ GetPath stack = Ok (stack', entries_path items) ∧
      (Forall (λ entry, entry ≠ Key []) items → ∃ tokens, Tokenize (entries_path items) = Ok tokens ∧
         map element tokens = items ≫= λ entry, [Sign Slash; Lit (entry_string entry)])
  | None => calls_stack calls New = Crash
  end.
Proof.
  pose proof (calls_refine calls [] New New_stack_inv Hcalls) as H. destruct (spec_calls calls []) as [items|]; [|done].
  destruct H as (stack & E & Hinv). destruct (GetPath_inv items stack Hinv) as (stack' & Eg & _). exists stack, stack'.
  split_and!; [done|apply Hinv|done|]. intros Hne. destruct Hinv as (_ & Hok & _).
  assert (Forall (λ key, key ≠ []) (map entry_string items)) as Hkeys.
  { clear -Hne Hok. induction Hok as [|entry items He _ IH]; [constructor|]. inversion Hne; subst. constructor; [|by apply IH].
    destruct entry as [key|index]; [simpl; by intros ->|by apply entry_string_ne]. }
  destruct (Tokenize_text _ _ (YPathJoin_text [] [] (map entry_string items) PathNil ltac:(constructor) Hkeys)) as (tokens & Et & Hp & _).
  exists tokens. split; [done|]. rewrite <- map_part_fst, Hp. simpl. rewrite written_fst. unfold key_elements. clear. induction items as [|e items IH]; [done|].
  cbn [map]. rewrite !bind_cons. by f_equal.
Qed.

Lemma TYPathStack_refines_witness :
  let calls := [CallPushKey (B"a/b"); CallGetPath; CallPushIndex 9; CallIncreaseLastIndex] in
  (∃ stack stack', calls_stack calls New = Ok stack ∧ GetPath stack = Ok (stack', B"/a\/b/10")) ∧ calls_stack [CallPop] New = Crash.
Proof.
  intros calls. split.
  - pose proof (TYPathStack_refines calls ltac:(repeat constructor; by vm_compute)) as H. destruct H as (stack & stack' & E & _ & Eg & _).
    exists stack, stack'. split; [exact E|]. rewrite Eg. by vm_compute.
  - exact (TYPathStack_refines [CallPop] ltac:(repeat constructor)).
Defined.
