(* ===== verification/StringFilter.v ===== *)
(** Filtering a document by paths (yson/string_filter.cpp): the filterer walks over a document
    with a cursor and a stack that holds its position; the builder writes the values at the
    requested paths, opening and closing the collections around them.

    It ties together the pull parser with its cursor, the path stack and the token writer. *)

From S2P Require Import Prelude YPath YPathStack YsonStream YsonLexer YsonEvents YsonParser YsonGrammar YsonWriter SyntaxChecker PullParser PullTraversal YsonCursor TokenWriter.
Import CheckedWriter.

#[export] Instance TEntry_eq_dec : EqDecision TEntry.
Proof. solve_decision. Defined.

Section Definitions.
Context (FloatToString : Z → list byte) (fd : list byte → Result Z) (ndebug : bool).

(** The writer of a debug build is checked. *)
#[local] Abbreviation Call := (Call FloatToString (negb ndebug) ndebug).
#[local] Abbreviation TWriter := CheckedWriter.t.

(** ** The builder *)

Record TSparseYsonBuilder := { Writer_ : TWriter; BuilderStack_ : Stack.t; IsFirstStack_ : bool }.

Definition NewBuilder : TSparseYsonBuilder :=
  {| Writer_ := New YsonNode DefaultYsonParserNestingLevelLimit; BuilderStack_ := Stack.New; IsFirstStack_ := true |}.

Fixpoint write_entities (count : nat) (w : TWriter) : Result TWriter :=
  match count with O => Ok w | S count => w ← Call Entity w; w ← Call ItemSeparator w; write_entities count w end.

Definition OpenEntry (entry : TEntry) (w : TWriter) : Result TWriter :=
  match entry with
  | Key key => w ← Call BeginMap_ w; w ← Call (BinaryString key) w; Call KeyValueSeparator w
  | Index index => w ← Call BeginList_ w; write_entities (Z.to_nat index) w
  end.

Definition CloseEntry (entry : TEntry) (w : TWriter) : Result TWriter :=
  match entry with Key _ => Call EndMap_ w | Index _ => Call EndList_ w end.

(** The loops over entries. *)
Fixpoint each_entry (f : TEntry → TWriter → Result TWriter) (entries : list TEntry) (w : TWriter) : Result TWriter :=
  match entries with [] => Ok w | entry :: entries => w ← f entry w; each_entry f entries w end.

Definition OnFirstStack (newItems : list TEntry) (w : TWriter) : Result TWriter := each_entry OpenEntry (drop 1 newItems) w.

Fixpoint firstDifferingItemIndex (oldItems newItems : list TEntry) : nat :=
  match oldItems, newItems with
  | o :: oldItems, n :: newItems => if bool_decide (o = n) then S (firstDifferingItemIndex oldItems newItems) else O
  | _, _ => O
  end.

Fixpoint write_gap (count : nat) (w : TWriter) : Result TWriter :=
  match count with O => Ok w | S count => w ← Call ItemSeparator w; w ← Call Entity w; write_gap count w end.

Definition OnIntermediateStack (oldItems newItems : list TEntry) (w : TWriter) : Result TWriter :=
  let index := firstDifferingItemIndex oldItems newItems in
  match oldItems !! index, newItems !! index with
  | Some oldItem, Some newItem =>
      w ← each_entry CloseEntry (rev (drop (S index) oldItems)) w;
      w ← match oldItem, newItem with
          | Key _, Key key => w ← Call ItemSeparator w; w ← Call (BinaryString key) w; Call KeyValueSeparator w
          | Index currentIndex, Index newIndex =>
              _ ← Verify (currentIndex <? newIndex);
              w ← write_gap (Z.to_nat (newIndex - 1 - currentIndex)) w; Call ItemSeparator w
          | _, _ => Crash
          end;
      each_entry OpenEntry (drop (S index) newItems) w
  | _, _ => Crash
  end.

Definition SwitchStack (newStack : Stack.t) (builder : TSparseYsonBuilder) : Result TSparseYsonBuilder :=
  w ← (if IsFirstStack_ builder then OnFirstStack (Stack.Items_ newStack) (Writer_ builder)
       else OnIntermediateStack (Stack.Items_ (BuilderStack_ builder)) (Stack.Items_ newStack) (Writer_ builder));
  Ok {| Writer_ := w; BuilderStack_ := newStack; IsFirstStack_ := false |}.

Definition OnAfterLastStack (builder : TSparseYsonBuilder) : Result TWriter :=
  each_entry CloseEntry (rev (drop 1 (Stack.Items_ (BuilderStack_ builder)))) (Writer_ builder).

(** [None] is the null string. *)
Definition BuilderFlush (builder : TSparseYsonBuilder) : Result (option (list byte)) :=
  if IsFirstStack_ builder then Ok None
  else
    w ← OnAfterLastStack builder;
    _ ← Verify (negb (bool_decide (UncheckedWriter_ w = [])));
    Ok (Some (UncheckedWriter_ w)).

(** ** The filterer *)

(** The back of [StackLevelIsList_] is the head of the list. *)
Record TYsonFilterer := { Builder_ : TSparseYsonBuilder; Cursor_ : Cursor.t; Stack_ : Stack.t; StackLevelIsList_ : list bool }.

Definition NewFilterer (yson : list byte) : Result TYsonFilterer :=
  cursor ← Cursor.New fd YsonNode 0 (NewPullParser (TZeroCopyInputStreamReader [yson]) YsonNode DefaultYsonParserNestingLevelLimit);
  stack ← Stack.PushIndex (-1) Stack.New;
  Ok {| Builder_ := NewBuilder; Cursor_ := cursor; Stack_ := stack; StackLevelIsList_ := [true] |}.

Definition set_Cursor (cursor : Cursor.t) (f : TYsonFilterer) : TYsonFilterer :=
  {| Builder_ := Builder_ f; Cursor_ := cursor; Stack_ := Stack_ f; StackLevelIsList_ := StackLevelIsList_ f |}.
Definition set_Stack (stack : Stack.t) (f : TYsonFilterer) : TYsonFilterer :=
  {| Builder_ := Builder_ f; Cursor_ := Cursor_ f; Stack_ := stack; StackLevelIsList_ := StackLevelIsList_ f |}.
Definition set_Levels (levels : list bool) (f : TYsonFilterer) : TYsonFilterer :=
  {| Builder_ := Builder_ f; Cursor_ := Cursor_ f; Stack_ := Stack_ f; StackLevelIsList_ := levels |}.

Context (paths : list (list byte)).

(** [StaticPrefixLength] bytes of the path are those of the artificial list. *)
Definition TryExtractComposite (f : TYsonFilterer) : Result (TYsonFilterer * bool) :=
  '(stack, path) ← Stack.GetPath (Stack_ f);
  let f := set_Stack stack f in
  if bool_decide (drop 2 path ∈ paths) then
    builder ← SwitchStack stack (Builder_ f);
    '(cursor, w) ← CursorTransferComplexValue FloatToString fd ndebug (Cursor_ f) (Writer_ builder);
    Ok ({| Builder_ := {| Writer_ := w; BuilderStack_ := BuilderStack_ builder; IsFirstStack_ := IsFirstStack_ builder |};
           Cursor_ := cursor; Stack_ := stack; StackLevelIsList_ := StackLevelIsList_ f |}, true)
  else Ok (f, false).

Definition ConsumeItemPrologue (f : TYsonFilterer) : Result (TYsonFilterer * bool) :=
  match StackLevelIsList_ f with
  | [] => Crash
  | true :: _ =>
      if bool_decide (Cursor.GetType (Cursor_ f) = EndList) then Ok (f, false)
      else stack ← Stack.IncreaseLastIndex (Stack_ f); Ok (set_Stack stack f, true)
  | false :: _ =>
      match Cursor.Current_ (Cursor_ f) with
      | Simple EndMap => Ok (f, false)
      | ItemString key =>
          stack ← Stack.Pop (Stack_ f);
          stack ← Stack.PushKey key stack;
          cursor ← Cursor.Next fd ndebug (Cursor_ f);
          Ok (set_Cursor cursor (set_Stack stack f), true)
      | _ => Throw EUnexpectedItem
      end
  end.

(** The [switch] over the value. *)
Definition ConsumeValue (f : TYsonFilterer) : Result TYsonFilterer :=
  match Cursor.GetType (Cursor_ f) with
  | BeginMap =>
      stack ← Stack.PushKey [] (Stack_ f);
      cursor ← Cursor.Next fd ndebug (Cursor_ f);
      Ok (set_Cursor cursor (set_Stack stack (set_Levels (false :: StackLevelIsList_ f) f)))
  | BeginList =>
      stack ← Stack.PushIndex (-1) (Stack_ f);
      cursor ← Cursor.Next fd ndebug (Cursor_ f);
      Ok (set_Cursor cursor (set_Stack stack (set_Levels (true :: StackLevelIsList_ f) f)))
  | StringValue | BooleanValue | DoubleValue | Int64Value | Uint64Value | EntityValue =>
      cursor ← Cursor.Next fd ndebug (Cursor_ f); Ok (set_Cursor cursor f)
  | _ => Throw EUnexpectedItem
  end.

Definition ConsumeItemEpilogue (f : TYsonFilterer) : Result TYsonFilterer :=
  '(f, extracted) ← TryExtractComposite f;
  if extracted : bool then Ok f
  else
    f ← (if bool_decide (Cursor.GetType (Cursor_ f) = BeginAttributes)
         then cursor ← Cursor.SkipAttributes fd (Cursor_ f); Ok (set_Cursor cursor f) else Ok f);
    ConsumeValue f.

Definition FinishComposite (f : TYsonFilterer) : Result TYsonFilterer :=
  match StackLevelIsList_ f with
  | [] => Crash
  | _ :: levels =>
      stack ← Stack.Pop (Stack_ f);
      cursor ← Cursor.Next fd ndebug (Cursor_ f);
      Ok (set_Cursor cursor (set_Stack stack (set_Levels levels f)))
  end.

Fixpoint filter_loop (fuel : nat) (f : TYsonFilterer) : Result TYsonFilterer :=
  match fuel with
  | O => OutOfFuel
  | S fuel =>
      if bool_decide (Cursor.GetType (Cursor_ f) = EndOfStream) then Ok f
      else
        '(f, proceed) ← ConsumeItemPrologue f;
        f ← (if proceed : bool then ConsumeItemEpilogue f else FinishComposite f);
        filter_loop fuel f
  end.

(** Every turn reads an item or ends a collection. *)
Definition filter_fuel (f : TYsonFilterer) : nat := S (Cursor.loop_fuel (Cursor_ f)).

Definition Filter (f : TYsonFilterer) : Result (option (list byte)) :=
  f ← filter_loop (filter_fuel f) f; BuilderFlush (Builder_ f).

Definition FilterYsonStringFallback (yson : list byte) : Result (list byte) :=
  cursor ← Cursor.New fd YsonNode 0 (NewPullParser (TZeroCopyInputStreamReader [yson]) YsonNode DefaultYsonParserNestingLevelLimit);
  cursor ← (if bool_decide (Cursor.GetType cursor = BeginAttributes) then Cursor.SkipAttributes fd cursor else Ok cursor);
  match Cursor.GetType cursor with
  | BeginList => Ok (B"[]")
  | BeginMap => Ok (B"{}")
  | StringValue | Int64Value | Uint64Value | DoubleValue | BooleanValue | EntityValue =>
      '(_, w) ← CursorTransferComplexValue FloatToString fd ndebug cursor (New YsonNode DefaultYsonParserNestingLevelLimit);
      Ok (UncheckedWriter_ w)
  | _ => Throw EUnexpectedItem
  end.

Definition FilterYsonString (yson : list byte) (allowNullResult : bool) : Result (option (list byte)) :=
  filterer ← NewFilterer yson;
  result ← Filter filterer;
  match result with
  | Some _ => Ok result
  | None => if allowNullResult then Ok None else fallback ← FilterYsonStringFallback yson; Ok (Some fallback)
  end.
End Definitions.

(** ** The specification *)

Section Spec.
Context (paths : list (list byte)).

(** The values at the requested paths, in the order of the document; attributes are not
    entered. *)
Fixpoint matches (p : list TEntry) (n : TNode) : list (list TEntry * TNode) :=
  if bool_decide (entries_path p ∈ paths) then [(p, n)]
  else
    match n with
    | Node _ (VMap items) =>
        (fix go (items : list (list byte * TNode)) :=
           match items with [] => [] | (key, n) :: items => matches (p ++ [Key key]) n ++ go items end) items
    | Node _ (VList items) =>
        (fix go (i : nat) (items : list TNode) :=
           match items with [] => [] | n :: items => matches (p ++ [Index (Z.of_nat i)]) n ++ go (S i) items end) O items
    | _ => []
    end.

Fixpoint map_matches (p : list TEntry) (items : list (list byte * TNode)) : list (list TEntry * TNode) :=
  match items with [] => [] | (key, n) :: items => matches (p ++ [Key key]) n ++ map_matches p items end.
Fixpoint list_matches (p : list TEntry) (i : nat) (items : list TNode) : list (list TEntry * TNode) :=
  match items with [] => [] | n :: items => matches (p ++ [Index (Z.of_nat i)]) n ++ list_matches p (S i) items end.

(** Entities up to the last item that is there. *)
Fixpoint fill (items : list (option TNode)) : list TNode :=
  match items with
  | [] => []
  | None :: items => match fill items with [] => [] | rest => Node None VEntity :: rest end
  | Some n :: items => n :: fill items
  end.

(** The smallest document that has the values at the requested paths. *)
Fixpoint filter_node (p : list TEntry) (n : TNode) : option TNode :=
  if bool_decide (entries_path p ∈ paths) then Some n
  else
    match n with
    | Node _ (VMap items) =>
        match (fix go (items : list (list byte * TNode)) :=
                 match items with
                 | [] => []
                 | (key, n) :: items => match filter_node (p ++ [Key key]) n with Some n => (key, n) :: go items | None => go items end
                 end) items with
        | [] => None
        | items => Some (Node None (VMap items))
        end
    | Node _ (VList items) =>
        match fill ((fix go (i : nat) (items : list TNode) :=
                 match items with [] => [] | n :: items => filter_node (p ++ [Index (Z.of_nat i)]) n :: go (S i) items end) O items) with
        | [] => None
        | items => Some (Node None (VList items))
        end
    | _ => None
    end.

Fixpoint filter_map (p : list TEntry) (items : list (list byte * TNode)) : list (list byte * TNode) :=
  match items with
  | [] => []
  | (key, n) :: items => match filter_node (p ++ [Key key]) n with Some n => (key, n) :: filter_map p items | None => filter_map p items end
  end.
Fixpoint filter_list (p : list TEntry) (i : nat) (items : list TNode) : list (option TNode) :=
  match items with [] => [] | n :: items => filter_node (p ++ [Index (Z.of_nat i)]) n :: filter_list p (S i) items end.

Definition wanted (p : list TEntry) : bool := bool_decide (entries_path p ∈ paths).

Lemma matches_eq p attributes value : matches p (Node attributes value) =
  if wanted p then [(p, Node attributes value)]
  else match value with VMap items => map_matches p items | VList items => list_matches p 0 items | _ => [] end.
Proof.
  unfold wanted. destruct (bool_decide (entries_path p ∈ paths)) eqn:E; [by destruct value; simpl; rewrite E|]. destruct value; simpl; rewrite E; try done.
  - generalize 0%nat. induction items as [|n items IH]; intros i; [done|]. simpl. f_equal. apply IH.
  - induction items as [|[key n] items IH]; [done|]. simpl. f_equal. apply IH.
Qed.

Lemma filter_node_eq p attributes value : filter_node p (Node attributes value) =
  if wanted p then Some (Node attributes value)
  else match value with
       | VMap items => match filter_map p items with [] => None | items => Some (Node None (VMap items)) end
       | VList items => match fill (filter_list p 0 items) with [] => None | items => Some (Node None (VList items)) end
       | _ => None
       end.
Proof.
  unfold wanted. destruct (bool_decide (entries_path p ∈ paths)) eqn:E; [by destruct value; simpl; rewrite E|]. destruct value; simpl; rewrite E; try done.
  - match goal with |- match fill (?go 0%nat items) with _ => _ end = _ => assert (∀ i, go i items = filter_list p i items) as -> end; [|done].
    intros i. revert i. induction items as [|n items IH]; intros i; [done|]. simpl. f_equal. apply IH.
  - match goal with |- match ?go items with _ => _ end = _ => assert (go items = filter_map p items) as -> end; [|done].
    induction items as [|[key n] items IH]; [done|]. simpl. rewrite IH. done.
Qed.
End Spec.

(** What the walk needs of a document: keys of a map are distinct and indices are an [int]. *)
Fixpoint filterable (n : TNode) : Prop :=
  match n with
  | Node _ (VMap items) =>
      NoDup items.*1 ∧ (fix go (items : list (list byte * TNode)) := match items with [] => True | (_, n) :: items => filterable n ∧ go items end) items
  | Node _ (VList items) =>
      Z.of_nat (length items) < 2 ^ 31 ∧ (fix go (items : list TNode) := match items with [] => True | n :: items => filterable n ∧ go items end) items
  | _ => True
  end.

Lemma filterable_map attributes items : filterable (Node attributes (VMap items)) ↔ NoDup items.*1 ∧ Forall (λ kn, filterable kn.2) items.
Proof.
  simpl. f_equiv. induction items as [|[key n] items IH]; [done|]. rewrite list.Forall_cons, <- IH. done.
Qed.
Lemma filterable_list attributes items : filterable (Node attributes (VList items)) ↔ Z.of_nat (length items) < 2 ^ 31 ∧ Forall filterable items.
Proof.
  simpl. f_equiv. induction items as [|n items IH]; [done|]. rewrite list.Forall_cons, <- IH. done.
Qed.

(** ** The tokens the builder writes *)

Definition entity_tokens (count : nat) : list TToken := concat (repeat [Item (Simple EntityValue); Separator] count).

Definition open_tokens (entry : TEntry) : list TToken :=
  match entry with
  | Key key => [Item (Simple BeginMap); Item (ItemString key); Equality]
  | Index index => Item (Simple BeginList) :: entity_tokens (Z.to_nat index)
  end.
Definition close_token (entry : TEntry) : TToken := match entry with Key _ => Item (Simple EndMap) | Index _ => Item (Simple EndList) end.

Definition opens (entries : list TEntry) : list TToken := concat (map open_tokens entries).
Definition closes (entries : list TEntry) : list TToken := map close_token (rev entries).

Definition switch_tokens (o n : TEntry) : option (list TToken) :=
  match o, n with
  | Key _, Key key => Some [Separator; Item (ItemString key); Equality]
  | Index i, Index j => if i <? j then Some (Separator :: entity_tokens (Z.to_nat (j - 1 - i))) else None
  | _, _ => None
  end.

(** From one stack to the next. *)
Fixpoint between (old new : list TEntry) : option (list TToken) :=
  match old, new with
  | o :: old, n :: new =>
      if bool_decide (o = n) then between old new
      else s ← switch_tokens o n; Some (closes old ++ s ++ opens new)
  | _, _ => None
  end.

(** All that is written for a sequence of values, from the first value on. *)
Fixpoint body (m : list TEntry * list TToken) (ms : list (list TEntry * list TToken)) : option (list TToken) :=
  match ms with
  | [] => Some m.2
  | m' :: ms => b ← between m.1 m'.1; t ← body m' ms; Some (m.2 ++ b ++ t)
  end.

Definition final (m : list TEntry * list TToken) (ms : list (list TEntry * list TToken)) : list TEntry := from_option fst [] (list.last (m :: ms)).

Definition prefixed (e : TEntry) (mt : list TEntry * list TToken) : list TEntry * list TToken := (e :: mt.1, mt.2).

Lemma between_cons e old new : between (e :: old) (e :: new) = between old new.
Proof. simpl. by rewrite bool_decide_eq_true_2. Qed.

Lemma body_prefixed e m ms : body (prefixed e m) (map (prefixed e) ms) = body m ms.
Proof. revert m. induction ms as [|m' ms IH]; intros m; [done|]. cbn [map body prefixed fst snd]. rewrite between_cons. destruct (between m.1 m'.1); [|done]. simpl. by rewrite <- IH. Qed.

Lemma final_cons m m' ms : final m (m' :: ms) = final m' ms.
Proof. done. Qed.
Lemma final_app m ms m' ms' : final m (ms ++ m' :: ms') = final m' ms'.
Proof. revert m. induction ms as [|m1 ms IH]; intros m; [done|]. simpl app. by rewrite final_cons. Qed.
Lemma final_prefixed e m ms : final (prefixed e m) (map (prefixed e) ms) = e :: final m ms.
Proof. revert m. induction ms as [|m' ms IH]; intros m; [done|]. simpl map. by rewrite !final_cons. Qed.

Lemma body_app m ms m' ms' : body m (ms ++ m' :: ms') = (t1 ← body m ms; b ← between (final m ms) m'.1; t2 ← body m' ms'; Some (t1 ++ b ++ t2)).
Proof.
  revert m. induction ms as [|m1 ms IH]; intros m; [done|]. cbn [app body]. rewrite IH, final_cons. destruct (between m.1 m1.1) as [b|]; [|done]. simpl.
  destruct (body m1 ms) as [t1|]; [|done]. simpl. destruct (between (final m1 ms) m'.1) as [b'|]; [|done]. simpl. destruct (body m' ms'); [|done]. simpl. by rewrite <- !app_assoc.
Qed.

Lemma closes_cons e entries : closes (e :: entries) = closes entries ++ [close_token e].
Proof. unfold closes. simpl. by rewrite map_app. Qed.

Section Built.
Context (paths : list (list byte)).

(** The matches below a path, with their paths from there and their tokens. *)
Definition relative (p : list TEntry) : list TEntry * TNode → list TEntry * list TToken → Prop := λ m mt, m.1 = p ++ mt.1 ∧ NodeTok m.2 mt.2.

Lemma matches_below n : ∀ p, Forall (λ m, p `prefix_of` m.1) (matches paths p n).
Proof.
  apply (node_ind' (λ n, ∀ p, Forall (λ m, p `prefix_of` m.1) (matches paths p n)) (λ v, ∀ p attributes, Forall (λ m, p `prefix_of` m.1) (matches paths p (Node attributes v)))).
  - intros attributes value _ Hv p. apply Hv.
  - intros. rewrite matches_eq. destruct (wanted paths p); [by constructor; [|constructor]|constructor].
  - intros. rewrite matches_eq. destruct (wanted paths p); [by constructor; [|constructor]|constructor].
  - intros. rewrite matches_eq. destruct (wanted paths p); [by constructor; [|constructor]|constructor].
  - intros. rewrite matches_eq. destruct (wanted paths p); [by constructor; [|constructor]|constructor].
  - intros. rewrite matches_eq. destruct (wanted paths p); [by constructor; [|constructor]|constructor].
  - intros. rewrite matches_eq. destruct (wanted paths p); [by constructor; [|constructor]|constructor].
  - intros items Hi p attributes. rewrite matches_eq. destruct (wanted paths p); [by constructor; [|constructor]|]. generalize 0%nat. induction Hi as [|n' items Hn _ IH]; intros i; [constructor|].
    apply Forall_app_2; [|apply IH]. eapply list.Forall_impl; [apply Hn|]. intros m Hm. etrans; [|exact Hm]. by apply prefix_app_r.
  - intros items Hi p attributes. rewrite matches_eq. destruct (wanted paths p); [by constructor; [|constructor]|]. induction Hi as [|[key n'] items Hn _ IH]; [constructor|].
    apply Forall_app_2; [|apply IH]. eapply list.Forall_impl; [apply Hn|]. intros m Hm. etrans; [|exact Hm]. by apply prefix_app_r.
Qed.

Lemma relative_child p e n ms : Forall2 (relative p) (matches paths (p ++ [e]) n) ms → ∃ ms', ms = map (prefixed e) ms' ∧ Forall2 (relative (p ++ [e])) (matches paths (p ++ [e]) n) ms'.
Proof.
  pose proof (matches_below n (p ++ [e])) as Hb. intros H. induction H as [|m mt l ms [Hp Ht] _ IH]; [by exists []|]. inversion Hb as [|? ? [r Hr] Hb']; subst.
  destruct (IH Hb') as (ms' & -> & H'). rewrite Hp in Hr. rewrite <- app_assoc in Hr. apply app_inv_head in Hr. destruct mt as [path t]. simpl in *. subst path.
  exists ((r, t) :: ms'). split; [done|]. constructor; [|done]. split; [|done]. simpl. by rewrite <- app_assoc.
Qed.

(** The tokens that are written for the matches of a node are a text of the filtered node. *)
Definition built (n' : option TNode) (ms : list (list TEntry * list TToken)) : Prop :=
  match ms with
  | [] => n' = None
  | m :: ms => ∃ n t, n' = Some n ∧ body m ms = Some t ∧ NodeTok n (opens m.1 ++ t ++ closes (final m ms))
  end.

Definition map_built (items : list (list byte * TNode)) (keys : list (list byte)) (ms : list (list TEntry * list TToken)) : Prop :=
  match ms with
  | [] => items = []
  | m :: ms => ∃ t key r key' r', m.1 = Key key :: r ∧ final m ms = Key key' :: r' ∧ key ∈ keys ∧ body m ms = Some t ∧ items ≠ [] ∧
      MapTok items (Item (ItemString key) :: Equality :: opens r ++ t ++ closes r')
  end.

Definition list_built (items : list TNode) (i : nat) (ms : list (list TEntry * list TToken)) : Prop :=
  match ms with
  | [] => items = []
  | m :: ms => ∃ t j r j' r', m.1 = Index (Z.of_nat j) :: r ∧ final m ms = Index j' :: r' ∧ (i <= j)%nat ∧ body m ms = Some t ∧ items ≠ [] ∧
      ListTok items (entity_tokens (j - i) ++ opens r ++ t ++ closes r')
  end.

Lemma map_built_node items keys ms : map_built items keys ms → built (match items with [] => None | item :: rest => Some (Node None (VMap (item :: rest))) end) ms.
Proof.
  destruct ms as [|m ms]; [by intros ->|]. intros (t & key & r & key' & r' & Hm & Hf & _ & Hb & Hne & Ht). exists (Node None (VMap items)), t.
  split_and!; [by destruct items|done|]. rewrite Hm, Hf, closes_cons. apply NodeTok_plain.
  change (opens (Key key :: r)) with (Item (Simple BeginMap) :: Item (ItemString key) :: Equality :: opens r). cbn [app close_token].
  replace (Item (ItemString key) :: Equality :: opens r ++ t ++ closes r' ++ [Item (Simple EndMap)]) with ((Item (ItemString key) :: Equality :: opens r ++ t ++ closes r') ++ [Item (Simple EndMap)])
    by (simpl; by rewrite <- !app_assoc).
  by apply ValueTok_map.
Qed.

Lemma list_built_node items ms : list_built items 0 ms → built (match items with [] => None | item :: rest => Some (Node None (VList (item :: rest))) end) ms.
Proof.
  destruct ms as [|m ms]; [by intros ->|]. intros (t & j & r & j' & r' & Hm & Hf & _ & Hb & Hne & Ht). exists (Node None (VList items)), t.
  split_and!; [by destruct items|done|]. rewrite Hm, Hf, closes_cons. apply NodeTok_plain. unfold opens. cbn [map concat open_tokens]. rewrite Nat2Z.id. rewrite Nat.sub_0_r in Ht.
  cbn [app]. rewrite <- app_assoc. fold (opens r). replace (entity_tokens j ++ opens r ++ t ++ closes r' ++ [close_token (Index j')]) with ((entity_tokens j ++ opens r ++ t ++ closes r') ++ [Item (Simple EndList)])
    by (by rewrite <- !app_assoc).
  by apply ValueTok_list.
Qed.

Lemma map_step p key n items ms1 ms2 :
  built (filter_node paths (p ++ [Key key]) n) ms1 → map_built (filter_map paths p items) items.*1 ms2 → key ∉ items.*1 →
  map_built (filter_map paths p ((key, n) :: items)) (key :: items.*1) (map (prefixed (Key key)) ms1 ++ ms2).
Proof.
  intros H1 H2 Hkey. cbn [filter_map]. destruct ms1 as [|m1 ms1].
  - simpl in H1. rewrite H1. simpl. destruct ms2 as [|m2 ms2]; [done|]. destruct H2 as (t & k & r & k' & r' & ? & ? & ? & ? & ? & ?). exists t, k, r, k', r'. split_and!; [done|done|by right|done..].
  - destruct H1 as (n' & t1 & -> & Hb1 & Ht1). destruct ms2 as [|m2 ms2].
    + simpl in H2. rewrite H2, app_nil_r. exists t1, key, m1.1, key, (final m1 ms1). split_and!; [done|apply final_prefixed|by left|by rewrite <- Hb1; apply body_prefixed|done|].
      by apply MapTok_last.
    + destruct H2 as (t2 & k & r & k' & r' & Hm2 & Hf2 & Hk & Hb2 & Hne & Ht2). assert (Key key ≠ Key k) as Hkk by (intros [= ->]; done).
      set (b := closes (final m1 ms1) ++ [Separator; Item (ItemString k); Equality] ++ opens r).
      exists (t1 ++ b ++ t2), key, m1.1, k', r'. split_and!; [done|by rewrite <- Hf2; apply final_app|by left| |done|].
      * change (map (prefixed (Key key)) (m1 :: ms1) ++ m2 :: ms2) with (prefixed (Key key) m1 :: map (prefixed (Key key)) ms1 ++ m2 :: ms2).
        rewrite body_app, body_prefixed, Hb1, final_prefixed, Hm2. simpl. rewrite bool_decide_eq_false_2 by done. simpl. by rewrite Hb2.
      * replace (Item (ItemString key) :: Equality :: opens m1.1 ++ (t1 ++ b ++ t2) ++ closes r') with
          (Item (ItemString key) :: Equality :: (opens m1.1 ++ t1 ++ closes (final m1 ms1)) ++ Separator :: Item (ItemString k) :: Equality :: opens r ++ t2 ++ closes r')
          by (unfold b; simpl; rewrite <- ?app_assoc; simpl; by rewrite <- ?app_assoc).
        by apply MapTok_item.
Qed.

Lemma entity_tokens_S k : entity_tokens (S k) = Item (Simple EntityValue) :: Separator :: entity_tokens k.
Proof. done. Qed.

Lemma list_step p n i items ms1 ms2 :
  built (filter_node paths (p ++ [Index (Z.of_nat i)]) n) ms1 → list_built (fill (filter_list paths p (S i) items)) (S i) ms2 →
  list_built (fill (filter_list paths p i (n :: items))) i (map (prefixed (Index (Z.of_nat i))) ms1 ++ ms2).
Proof.
  intros H1 H2. cbn [filter_list fill]. destruct ms1 as [|m1 ms1].
  - simpl in H1. rewrite H1. simpl. destruct ms2 as [|m2 ms2]; [by rewrite H2|]. destruct H2 as (t & j & r & j' & r' & Hm & Hf & Hj & Hb & Hne & Ht).
    destruct (fill (filter_list paths p (S i) items)) as [|n1 rest]; [done|]. exists t, j, r, j', r'. split_and!; try done; [lia|].
    replace (j - i)%nat with (S (j - S i)) by lia. rewrite entity_tokens_S. apply (ListTok_item (Node None VEntity) [Item (Simple EntityValue)]); [|done].
    apply NodeTok_plain. by constructor.
  - destruct H1 as (n' & t1 & -> & Hb1 & Ht1). destruct ms2 as [|m2 ms2].
    + simpl in H2. rewrite H2, app_nil_r. exists t1, i, m1.1, (Z.of_nat i), (final m1 ms1). split_and!; [done|apply final_prefixed|done|by rewrite <- Hb1; apply body_prefixed|done|].
      rewrite Nat.sub_diag. by apply ListTok_last.
    + destruct H2 as (t2 & j & r & j' & r' & Hm2 & Hf2 & Hj & Hb2 & Hne & Ht2). assert (Index (Z.of_nat i) ≠ Index (Z.of_nat j)) as Hij by (intros [=]; lia).
      set (b := closes (final m1 ms1) ++ (Separator :: entity_tokens (j - S i)) ++ opens r).
      exists (t1 ++ b ++ t2), i, m1.1, j', r'. split_and!; [done|by rewrite <- Hf2; apply final_app|done| |done|].
      * change (map (prefixed (Index (Z.of_nat i))) (m1 :: ms1) ++ m2 :: ms2) with (prefixed (Index (Z.of_nat i)) m1 :: map (prefixed (Index (Z.of_nat i))) ms1 ++ m2 :: ms2).
        rewrite body_app, body_prefixed, Hb1, final_prefixed, Hm2. cbn [between]. rewrite bool_decide_eq_false_2 by done. cbn [switch_tokens].
        destruct (Z.ltb_spec (Z.of_nat i) (Z.of_nat j)); [|lia]. replace (Z.to_nat (Z.of_nat j - 1 - Z.of_nat i)) with (j - S i)%nat by lia. simpl. by rewrite Hb2.
      * rewrite Nat.sub_diag. replace (entity_tokens 0 ++ opens m1.1 ++ (t1 ++ b ++ t2) ++ closes r') with
          ((opens m1.1 ++ t1 ++ closes (final m1 ms1)) ++ Separator :: entity_tokens (j - S i) ++ opens r ++ t2 ++ closes r')
          by (unfold b; simpl; rewrite <- ?app_assoc; simpl; by rewrite <- ?app_assoc).
        by apply ListTok_item.
Qed.

Lemma node_built n : ∀ p ms, filterable n → Forall2 (relative p) (matches paths p n) ms → built (filter_node paths p n) ms.
Proof.
  apply (node_ind' (λ n, ∀ p ms, filterable n → Forall2 (relative p) (matches paths p n) ms → built (filter_node paths p n) ms)
    (λ v, ∀ attributes p ms, filterable (Node attributes v) → Forall2 (relative p) (matches paths p (Node attributes v)) ms → built (filter_node paths p (Node attributes v)) ms)).
  1: { intros attributes value _ Hv. apply Hv. }
  7: intros items Hi attributes p ms Hok; apply filterable_list in Hok as [_ Hok].
  8: intros items Hi attributes p ms Hok; apply filterable_map in Hok as [Hnd Hok].
  1-6: intros; rename select (filterable _) into Hok; rename select (Forall2 _ _ _) into Hrel; revert Hrel.
  all: rewrite matches_eq, filter_node_eq; destruct (wanted paths p);
    [intros (mt & ms' & [Hp Ht] & Hnil & ->)%Forall2_cons_inv_l; apply Forall2_nil_inv_l in Hnil as ->; simpl in Hp; rewrite <- (app_nil_r p) in Hp at 1; apply app_inv_head in Hp; destruct mt as [path tt]; simpl in *; subst path;
      eexists _, tt; split_and!; [done|done|unfold opens, closes, final; simpl; by rewrite app_nil_r]|].
  1-6: by intros ->%Forall2_nil_inv_l.
  - intros H. apply list_built_node. revert H Hok. generalize 0%nat. revert ms. induction Hi as [|n' items Hn _ IH]; intros ms i H Hok; [by apply Forall2_nil_inv_l in H as ->|].
    inversion Hok as [|? ? Hok1 Hok2]; subst. cbn [list_matches] in H. apply Forall2_app_inv_l in H as (ms1 & ms2 & H1 & H2 & ->).
    apply relative_child in H1 as (ms1' & -> & H1). apply list_step; [by apply Hn|by apply IH].
  - intros H. apply (map_built_node _ items.*1). revert H Hok Hnd. revert ms. induction Hi as [|[key n'] items Hn _ IH]; intros ms H Hok Hnd; [by apply Forall2_nil_inv_l in H as ->|].
    inversion Hok as [|? ? Hok1 Hok2]; subst. inversion Hnd as [|? ? Hkey Hnd']; subst. cbn [map_matches] in H. apply Forall2_app_inv_l in H as (ms1 & ms2 & H1 & H2 & ->).
    apply relative_child in H1 as (ms1' & -> & H1). apply map_step; [by apply Hn|by apply IH|done].
Qed.
End Built.

(** ** The builder makes the calls of its tokens *)

Fixpoint emit (old : option (list TEntry)) (ms : list (list TEntry * list TToken)) : option (list TToken) :=
  match ms with
  | [] => Some []
  | m :: ms => b ← (match old with None => Some (opens m.1) | Some old => between old m.1 end); t ← emit (Some m.1) ms; Some (b ++ m.2 ++ t)
  end.
Definition last_of (old : option (list TEntry)) (ms : list (list TEntry * list TToken)) : option (list TEntry) :=
  match ms with [] => old | m :: ms => Some (final m ms) end.

Lemma last_of_app old ms1 ms2 : last_of old (ms1 ++ ms2) = last_of (last_of old ms1) ms2.
Proof. destruct ms1 as [|m1 ms1]; [done|]. destruct ms2 as [|m2 ms2]; [by rewrite app_nil_r|]. simpl. by rewrite final_app. Qed.

Lemma emit_app old ms1 ms2 : emit old (ms1 ++ ms2) = (t1 ← emit old ms1; t2 ← emit (last_of old ms1) ms2; Some (t1 ++ t2)).
Proof.
  revert old. induction ms1 as [|m ms1 IH]; intros old; [simpl; by destruct (emit old ms2)|]. cbn [app emit]. rewrite IH.
  assert (last_of old (m :: ms1) = last_of (Some m.1) ms1) as -> by (destruct ms1; done).
  destruct (match old with None => _ | Some _ => _ end) as [b|]; [|done]. simpl. destruct (emit (Some m.1) ms1) as [t1|]; [|done]. simpl.
  destruct (emit (last_of (Some m.1) ms1) ms2) as [t2|]; [|done]. simpl. by rewrite <- !app_assoc.
Qed.

Lemma emit_body m ms : body m ms = (t ← emit (Some m.1) ms; Some (m.2 ++ t)).
Proof.
  revert m. induction ms as [|m' ms IH]; intros m; cbn [body emit]; [simpl; by rewrite app_nil_r|]. destruct (between m.1 m'.1) as [b|]; [|done]. simpl. rewrite IH.
  by destruct (emit (Some m'.1) ms).
Qed.

Section Calls.
Context (FloatToString : Z → list byte) (ndebug : bool).

#[local] Abbreviation Calls := (Calls FloatToString (negb ndebug) ndebug).
Definition writes (tokens : list TToken) (w : CheckedWriter.t) : Result CheckedWriter.t := Calls (token_calls tokens) w.

Lemma writes_app t1 t2 w : writes (t1 ++ t2) w = (w ← writes t1 w; writes t2 w).
Proof.
  unfold writes, token_calls. rewrite omap_app. generalize (omap token_call t1). intros calls. revert w. induction calls as [|call calls IH]; intros w; [done|].
  cbn [app CheckedWriter.Calls]. destruct (Call _ _ _ call w); [|done..]. run_bind. apply IH.
Qed.
Lemma writes_one token call w : token_call token = Some call → writes [token] w = Call FloatToString (negb ndebug) ndebug call w.
Proof. intros E. unfold writes, token_calls. simpl. rewrite E. simpl. by destruct (Call _ _ _ call w). Qed.
Lemma writes_cons token call tokens w : token_call token = Some call → writes (token :: tokens) w = (w ← Call FloatToString (negb ndebug) ndebug call w; writes tokens w).
Proof. intros E. change (token :: tokens) with ([token] ++ tokens). by rewrite writes_app, (writes_one token call). Qed.

Lemma write_entities_spec count w : write_entities FloatToString ndebug count w = writes (entity_tokens count) w.
Proof.
  revert w. induction count as [|count IH]; intros w; [done|]. rewrite entity_tokens_S, (writes_cons _ Entity) by done. cbn [write_entities].
  destruct (Call _ _ _ Entity w) as [w1| | |]; [|done..]. run_bind. rewrite (writes_cons _ ItemSeparator) by done. destruct (Call _ _ _ ItemSeparator w1); [|done..]. run_bind. apply IH.
Qed.

Lemma OpenEntry_spec entry w : OpenEntry FloatToString ndebug entry w = writes (open_tokens entry) w.
Proof.
  destruct entry as [key|index]; cbn [OpenEntry open_tokens].
  - rewrite (writes_cons _ BeginMap_) by done. destruct (Call _ _ _ BeginMap_ w) as [w1| | |]; [|done..]. run_bind. rewrite (writes_cons _ (BinaryString key)) by done.
    destruct (Call _ _ _ (BinaryString key) w1); [|done..]. run_bind. by rewrite (writes_one _ KeyValueSeparator).
  - rewrite (writes_cons _ BeginList_) by done. destruct (Call _ _ _ BeginList_ w) as [w1| | |]; [|done..]. run_bind. apply write_entities_spec.
Qed.

Lemma CloseEntry_spec entry w : CloseEntry FloatToString ndebug entry w = writes [close_token entry] w.
Proof. destruct entry; [by rewrite (writes_one _ EndMap_)|by rewrite (writes_one _ EndList_)]. Qed.

Lemma each_entry_spec f (tokens : TEntry → list TToken) entries w : (∀ entry w, f entry w = writes (tokens entry) w) → each_entry f entries w = writes (concat (map tokens entries)) w.
Proof.
  intros H. revert w. induction entries as [|entry entries IH]; intros w; [done|]. cbn [each_entry map concat]. rewrite H, writes_app. destruct (writes (tokens entry) w); [|done..]. apply IH.
Qed.
Lemma each_open entries w : each_entry (OpenEntry FloatToString ndebug) entries w = writes (opens entries) w.
Proof. apply each_entry_spec, OpenEntry_spec. Qed.
Lemma each_close entries w : each_entry (CloseEntry FloatToString ndebug) (rev entries) w = writes (closes entries) w.
Proof.
  rewrite (each_entry_spec _ (λ entry, [close_token entry])) by apply CloseEntry_spec. f_equal. unfold closes. generalize (rev entries). intros l.
  induction l; [done|]. simpl. by f_equal.
Qed.

Lemma write_gap_spec count w : (w ← write_gap FloatToString ndebug count w; Call FloatToString (negb ndebug) ndebug ItemSeparator w) = writes (Separator :: entity_tokens count) w.
Proof.
  revert w. induction count as [|count IH]; intros w; [by rewrite (writes_one _ ItemSeparator)|]. rewrite entity_tokens_S. cbn [write_gap].
  rewrite (writes_cons _ ItemSeparator) by done. destruct (Call _ _ _ ItemSeparator w) as [w1| | |]; [|done..]. run_bind. rewrite (writes_cons _ Entity) by done.
  destruct (Call _ _ _ Entity w1) as [w2| | |]; [|done..]. run_bind. apply IH.
Qed.

Lemma OnIntermediateStack_cons e old new w : OnIntermediateStack FloatToString ndebug (e :: old) (e :: new) w = OnIntermediateStack FloatToString ndebug old new w.
Proof. unfold OnIntermediateStack. simpl. by rewrite bool_decide_eq_true_2. Qed.

Lemma OnIntermediateStack_spec old new t w : between old new = Some t → OnIntermediateStack FloatToString ndebug old new w = writes t w.
Proof.
  revert new. induction old as [|o old IH]; intros [|n new] Hb; try discriminate Hb. cbn [between] in Hb. destruct (bool_decide (o = n)) eqn:E.
  - apply bool_decide_eq_true in E as ->. rewrite OnIntermediateStack_cons. by apply IH.
  - destruct (switch_tokens o n) as [s|] eqn:Es; [|done]. injection Hb as <-. unfold OnIntermediateStack. cbn [firstDifferingItemIndex]. rewrite E. cbn [lookup list_lookup drop].
    rewrite ?drop_0, each_close, writes_app. destruct (writes (closes old) w) as [w1| | |]; [|done..]. run_bind. rewrite writes_app.
    assert ((match o, n with
             | Key _, Key key => w ← Call FloatToString (negb ndebug) ndebug ItemSeparator w1; w ← Call FloatToString (negb ndebug) ndebug (BinaryString key) w; Call FloatToString (negb ndebug) ndebug KeyValueSeparator w
             | Index currentIndex, Index newIndex =>
                 _ ← Verify (currentIndex <? newIndex);
                 w ← write_gap FloatToString ndebug (Z.to_nat (newIndex - 1 - currentIndex)) w1; Call FloatToString (negb ndebug) ndebug ItemSeparator w
             | _, _ => Crash
             end) = writes s w1) as ->.
    { destruct o as [k|i], n as [k'|j]; try discriminate Es; cbn [switch_tokens] in Es.
      - injection Es as <-. rewrite (writes_cons _ ItemSeparator) by done. destruct (Call _ _ _ ItemSeparator w1) as [w2| | |]; [|done..]. run_bind.
        rewrite (writes_cons _ (BinaryString k')) by done. destruct (Call _ _ _ (BinaryString k') w2); [|done..]. run_bind. by rewrite (writes_one _ KeyValueSeparator).
      - destruct (i <? j); [|done]. injection Es as <-. apply write_gap_spec. }
    destruct (writes s w1); [|done..]. run_bind. apply each_open.
Qed.
End Calls.

(** ** The walk *)

Lemma entries_path_cons entry entries : entries_path (entry :: entries) = B"/" ++ ToYPathLiteral (entry_string entry) ++ entries_path entries.
Proof. unfold entries_path. rewrite !YPathJoin_render. done. Qed.

Section Walk.
Context (FloatToString : Z → list byte) (fd : list byte → Result Z) (Hfd : total_conversion fd) (ndebug : bool) (paths : list (list byte)).

#[local] Abbreviation L := 256%nat.
#[local] Abbreviation on := (on fd L).
#[local] Abbreviation writes := (writes FloatToString ndebug).
#[local] Abbreviation Epilogue := (ConsumeItemEpilogue FloatToString fd ndebug paths).
#[local] Abbreviation loop := (filter_loop FloatToString fd ndebug paths).

Lemma L_small : Z.of_nat L < 2 ^ 32.
Proof. lia. Qed.

Definition builder_at (old : option (list TEntry)) (w : CheckedWriter.t) (b : TSparseYsonBuilder) : Prop :=
  Writer_ b = w ∧ match old with None => IsFirstStack_ b = true | Some r => IsFirstStack_ b = false ∧ Stack.Items_ (BuilderStack_ b) = Index 0 :: r end.

(** The filterer at the path [p], in front of the tokens. *)
Record position (p : list TEntry) (levels : list bool) (tokens : list TToken) (a : list TFrame) (old : option (list TEntry)) (w : CheckedWriter.t) (f : TYsonFilterer) : Prop := {
  at_stack : stack_inv (Index 0 :: p) (Stack_ f);
  at_levels : StackLevelIsList_ f = levels;
  at_cursor : on (Cursor_ f) tokens a;
  at_builder : builder_at old w (Builder_ f)
}.

Lemma SwitchStack_spec old w b p stack t w' : builder_at old w b → stack_inv (Index 0 :: p) stack →
  (match old with None => Some (opens p) | Some old => between old p end) = Some t → writes t w = Ok w' →
  ∃ b', SwitchStack FloatToString ndebug stack b = Ok b' ∧ builder_at (Some p) w' b'.
Proof.
  intros [Hw Ho] [Hi _] Ht Hwr. unfold SwitchStack. rewrite Hw, Hi. destruct old as [old|].
  - destruct Ho as [-> ->]. rewrite OnIntermediateStack_cons, (OnIntermediateStack_spec _ _ _ _ t), Hwr by done. run_bind. eexists. split; [done|]. split; [done|]. by split.
  - rewrite Ho. injection Ht as <-. unfold OnFirstStack. cbn [drop]. rewrite drop_0, each_open, Hwr. run_bind. eexists. split; [done|]. split; [done|]. by split.
Qed.

Lemma extract p levels n tt tokens c a old w f : NodeTok n tt → position p levels (tt ++ tokens) ((c, PValue) :: a) old w f →
  fits_level L (length a) (node_levels n) →
  if wanted paths p then
    ∀ b t w', (match old with None => Some (opens p) | Some old => between old p end) = Some b → emit old [(p, tt)] = Some t → writes t w = Ok w' →
    ∃ f', TryExtractComposite FloatToString fd ndebug paths f = Ok (f', true) ∧ position p levels tokens ((c, PSeparator) :: a) (Some p) w' f'
  else ∃ f', TryExtractComposite FloatToString fd ndebug paths f = Ok (f', false) ∧ position p levels (tt ++ tokens) ((c, PValue) :: a) old w f'.
Proof.
  intros Hn [Hs Hl Hc Hb] Hf. unfold TryExtractComposite. destruct (GetPath_inv _ _ Hs) as (stack & -> & Hs'). run_bind.
  assert (drop 2 (entries_path (Index 0 :: p)) = entries_path p) as -> by (rewrite entries_path_cons; done). fold (wanted paths p). destruct (wanted paths p).
  - intros b t w' Eb Et Hw. cbn [emit fst snd] in Et. rewrite Eb in Et. injection Et as <-. rewrite writes_app in Hw. apply bind_ok in Hw as (w1 & Hw1 & Hw2). rewrite app_nil_r in Hw2.
    destruct (SwitchStack_spec old w (Builder_ f) p stack b w1 Hb Hs' Eb Hw1) as (b' & Eb' & Hwb & Hob). cbn [Builder_ set_Stack]. rewrite Eb'. run_bind.
    unfold CursorTransferComplexValue. cbn [Cursor_ set_Stack]. destruct (steps_complete L) as (SN & _).
    pose proof (from_on fd Hfd L L_small (WritingVisitor FloatToString ndebug) n tt tokens c a (Cursor_ f) (Writer_ b') Hn Hc Hf) as H.
    rewrite (visit_writes FloatToString ndebug L tt _ _ _ (ModeTok_proper _ _ _ _ (ModeTok_node _ _ Hn)) (SN _ _ Hn c a Hf)) in H. rewrite Hwb in H |- *.
    unfold StringFilter.writes in Hw2. rewrite Hw2 in H. destruct H as (q & -> & cur & Et & Hon). run_bind. rewrite Et. run_bind. eexists. split; [done|]. split; try done.
  - eexists. split; [done|]. by split.
Qed.

(** A turn of the loop that starts a value. *)
Lemma list_turn p levels item rest a old w f i : is_end (GetType item) = false → in_s 32 (i + 1) →
  position (p ++ [Index i]) (true :: levels) (Item item :: rest) a old w f →
  ∃ f', (∀ fuel, loop (S fuel) f = (f ← Epilogue f'; loop fuel f)) ∧ position (p ++ [Index (i + 1)]) (true :: levels) (Item item :: rest) a old w f'.
Proof.
  intros Hi Hr [Hs Hl Hc Hb].
  assert (∃ f', ConsumeItemPrologue fd ndebug f = Ok (f', true) ∧ position (p ++ [Index (i + 1)]) (true :: levels) (Item item :: rest) a old w f') as (f' & E & Hp).
  { unfold ConsumeItemPrologue. rewrite Hl. unfold Cursor.GetType. rewrite (on_current _ _ _ _ _ _ Hc). rewrite bool_decide_eq_false_2 by (intros E; by rewrite E in Hi).
    pose proof (call_refines CallIncreaseLastIndex _ _ Hs I) as H. unfold spec_call in H. rewrite app_comm_cons, last_snoc in H. destruct H as (stack & E & Hs'). simpl in E. rewrite E. run_bind.
    rewrite length_app, Nat.add_sub, take_app_length in Hs'. rewrite (wrap_s_id 32) in Hs' by (done || lia). eexists. split; [done|]. by split. }
  exists f'. split; [|done]. intros fuel. cbn [filter_loop]. rewrite E. unfold Cursor.GetType. rewrite (on_current _ _ _ _ _ _ Hc).
  by rewrite bool_decide_eq_false_2 by (intros E'; by rewrite E' in Hi).
Qed.

Lemma map_turn p levels key rest c a old w f k0 : is_map c = true → position (p ++ [Key k0]) (false :: levels) (Item (ItemString key) :: Equality :: rest) ((c, PKey) :: a) old w f →
  ∃ f', (∀ fuel, loop (S fuel) f = (f ← Epilogue f'; loop fuel f)) ∧ position (p ++ [Key key]) (false :: levels) rest ((c, PValue) :: a) old w f'.
Proof.
  intros Hm [Hs Hl Hc Hb].
  assert (∃ f', ConsumeItemPrologue fd ndebug f = Ok (f', true) ∧ position (p ++ [Key key]) (false :: levels) rest ((c, PValue) :: a) old w f') as (f' & E & Hp).
  { unfold ConsumeItemPrologue. rewrite Hl, (on_current _ _ _ _ _ _ Hc). pose proof (Pop_inv _ _ Hs) as H. rewrite app_comm_cons, last_snoc in H. destruct H as (stack1 & -> & Hs1). run_bind.
    rewrite length_app, Nat.add_sub, take_app_length in Hs1. destruct (PushKey_inv _ key _ Hs1) as (stack2 & -> & Hs2). run_bind.
    destruct (next_on fd ndebug Hfd L L_small _ _ _ ((c, PEquality) :: a) _ Hc) as (cur & -> & Hon); [by destruct c|]. run_bind.
    eexists. split; [done|]. split; [done|done| |done]. by apply (on_punct fd L L_small Equality _ ((c, PEquality) :: a)). }
  exists f'. split; [|done]. intros fuel. cbn [filter_loop]. rewrite E. unfold Cursor.GetType. by rewrite (on_current _ _ _ _ _ _ Hc).
Qed.

(** The turn that ends a collection. *)
Lemma end_turn p e levels b c q rest a old w f : (c = CList ∧ b = true ∨ c = CMap ∧ b = false) →
  position (p ++ [e]) (b :: levels) (Item (Simple (closing c)) :: rest) ((c, q) :: a) old w f →
  ∃ f', (∀ fuel, loop (S fuel) f = loop fuel f') ∧ position p levels rest a old w f'.
Proof.
  intros Hcb [Hs Hl Hc Hb].
  assert (ConsumeItemPrologue fd ndebug f = Ok (f, false)) as E.
  { unfold ConsumeItemPrologue. rewrite Hl. destruct Hcb as [[-> ->]|[-> ->]]; unfold Cursor.GetType; by rewrite (on_current _ _ _ _ _ _ Hc). }
  assert (∃ f', FinishComposite fd ndebug f = Ok f' ∧ position p levels rest a old w f') as (f' & E' & Hp).
  { unfold FinishComposite. rewrite Hl. pose proof (Pop_inv _ _ Hs) as H. rewrite app_comm_cons, last_snoc in H. destruct H as (stack1 & -> & Hs1). run_bind.
    rewrite length_app, Nat.add_sub, take_app_length in Hs1. assert (step L (Item (Simple (closing c))) ((c, q) :: a) = Some a) as Hstep
      by (eapply closing_step; [exact Hc|destruct Hcb as [[-> _]|[-> _]]; auto]).
    destruct (next_on fd ndebug Hfd L L_small _ _ _ a _ Hc Hstep) as (cur & -> & Hon). run_bind. eexists. split; [done|]. by split. }
  exists f'. split; [|done]. intros fuel. cbn [filter_loop]. rewrite E. unfold Cursor.GetType. rewrite (on_current _ _ _ _ _ _ Hc).
  rewrite bool_decide_eq_false_2 by (by destruct Hcb as [[-> _]|[-> _]]). run_bind. by rewrite E'.
Qed.

(** *** Whole values *)

#[local] Abbreviation tagged := (relative []).

(** What happens when the calls of the matches [ms] succeed. *)
Definition node_walks (p : list TEntry) (n : TNode) (tt : list TToken) (ms : list (list TEntry * list TToken)) : Prop :=
  ∀ tokens c a levels old w w' t f, position p levels (tt ++ tokens) ((c, PValue) :: a) old w f → fits_level L (length a) (node_levels n) →
  emit old ms = Some t → writes t w = Ok w' →
  ∃ k f', (k < length tt)%nat ∧ (∀ fuel, (f ← Epilogue f; loop (k + fuel) f) = loop fuel f') ∧ position p levels tokens ((c, PSeparator) :: a) (last_of old ms) w' f'.

Definition value_walks (p : list TEntry) (v : TValue) (tt : list TToken) (ms : list (list TEntry * list TToken)) : Prop :=
  ∀ tokens c q a levels old w w' t f, expects q = true → position p levels (tt ++ tokens) ((c, q) :: a) old w f → fits_level L (length a) (value_levels v) →
  emit old ms = Some t → writes t w = Ok w' →
  ∃ k f', (k < length tt)%nat ∧ (∀ fuel, (f ← ConsumeValue fd ndebug f; loop (k + fuel) f) = loop fuel f') ∧ position p levels tokens ((c, PSeparator) :: a) (last_of old ms) w' f'.

Definition list_walks (p : list TEntry) (i : nat) (items : list TNode) (tt : list TToken) (ms : list (list TEntry * list TToken)) : Prop :=
  ∀ tokens a levels old w w' t f, position (p ++ [Index (Z.of_nat i - 1)]) (true :: levels) (tt ++ Item (Simple EndList) :: tokens) ((CList, PValue) :: a) old w f →
  fits_level L (length a) (list_levels items) → emit old ms = Some t → writes t w = Ok w' →
  ∃ k f' e q, (k <= length tt)%nat ∧ (∀ fuel, loop (k + fuel) f = loop fuel f') ∧
    position (p ++ [e]) (true :: levels) (Item (Simple EndList) :: tokens) ((CList, q) :: a) (last_of old ms) w' f'.

Definition map_walks (p : list TEntry) (items : list (list byte * TNode)) (tt : list TToken) (ms : list (list TEntry * list TToken)) : Prop :=
  ∀ tokens a levels old w w' t f k0, position (p ++ [Key k0]) (false :: levels) (tt ++ Item (Simple EndMap) :: tokens) ((CMap, PKey) :: a) old w f →
  fits_level L (length a) (map_levels items) → emit old ms = Some t → writes t w = Ok w' →
  ∃ k f' key q, (k <= length tt)%nat ∧ (∀ fuel, loop (k + fuel) f = loop fuel f') ∧
    position (p ++ [Key key]) (false :: levels) (Item (Simple EndMap) :: tokens) ((CMap, q) :: a) (last_of old ms) w' f'.

Lemma emit_split old ms1 ms2 t w w' : emit old (ms1 ++ ms2) = Some t → writes t w = Ok w' →
  ∃ t1 t2 w1, emit old ms1 = Some t1 ∧ writes t1 w = Ok w1 ∧ emit (last_of old ms1) ms2 = Some t2 ∧ writes t2 w1 = Ok w'.
Proof.
  rewrite emit_app. destruct (emit old ms1) as [t1|]; [|done]. simpl. destruct (emit (last_of old ms1) ms2) as [t2|]; [|done]. intros [= <-]. rewrite writes_app.
  intros (w1 & H1 & H2)%bind_ok. by exists t1, t2, w1.
Qed.

Lemma list_value_walks p items body ms : list_walks p 0 items body ms → value_walks p (VList items) (Item (Simple BeginList) :: body ++ [Item (Simple EndList)]) ms.
Proof.
  intros H tokens c q a levels old w w' t f Hq [Hs Hl Hc Hb] Hf He Hw. rewrite value_levels_list in Hf. apply fits_S in Hf as [Hlt Hf].
  cbn [app] in Hc. rewrite <- app_assoc in Hc.
  assert (∃ f1, ConsumeValue fd ndebug f = Ok f1 ∧ position (p ++ [Index (-1)]) (true :: levels) (body ++ Item (Simple EndList) :: tokens) ((CList, PValue) :: (c, PSeparator) :: a) old w f1)
    as (f1 & -> & Hp1).
  { unfold ConsumeValue, Cursor.GetType. rewrite (on_current _ _ _ _ _ _ Hc). cbn [GetType].
    destruct (PushIndex_inv _ (-1) _ Hs) as (stack & -> & Hs'); [unfold in_s; lia|]. run_bind.
    destruct (next_on fd ndebug Hfd L L_small _ _ _ ((CList, PValue) :: (c, PSeparator) :: a) _ Hc) as (cur & -> & Hon); [by auto with yson|]. run_bind.
    eexists. split; [done|]. split; [exact Hs'|simpl; by rewrite Hl|exact Hon|exact Hb]. }
  destruct (H tokens ((c, PSeparator) :: a) levels old w w' t f1 Hp1 Hf He Hw) as (k & f2 & e & q' & Hk & Hloop & Hp2).
  destruct (end_turn p e levels true CList q' tokens _ _ _ f2 ltac:(by left) Hp2) as (f3 & Hend & Hp3).
  exists (k + 1)%nat, f3. split_and!; [simpl; rewrite length_app; simpl; lia| |exact Hp3]. intros fuel. run_bind. by rewrite <- Nat.add_assoc, Hloop, <- Hend.
Qed.

Lemma map_value_walks p items body ms : map_walks p items body ms → value_walks p (VMap items) (Item (Simple BeginMap) :: body ++ [Item (Simple EndMap)]) ms.
Proof.
  intros H tokens c q a levels old w w' t f Hq [Hs Hl Hc Hb] Hf He Hw. rewrite value_levels_map in Hf. apply fits_S in Hf as [Hlt Hf].
  cbn [app] in Hc. rewrite <- app_assoc in Hc.
  assert (∃ f1, ConsumeValue fd ndebug f = Ok f1 ∧ position (p ++ [Key []]) (false :: levels) (body ++ Item (Simple EndMap) :: tokens) ((CMap, PKey) :: (c, PSeparator) :: a) old w f1)
    as (f1 & -> & Hp1).
  { unfold ConsumeValue, Cursor.GetType. rewrite (on_current _ _ _ _ _ _ Hc). cbn [GetType].
    destruct (PushKey_inv _ [] _ Hs) as (stack & -> & Hs'). run_bind.
    destruct (next_on fd ndebug Hfd L L_small _ _ _ ((CMap, PKey) :: (c, PSeparator) :: a) _ Hc) as (cur & -> & Hon); [by auto with yson|]. run_bind.
    eexists. split; [done|]. split; [exact Hs'|simpl; by rewrite Hl|exact Hon|exact Hb]. }
  destruct (H tokens ((c, PSeparator) :: a) levels old w w' t f1 [] Hp1 Hf He Hw) as (k & f2 & e & q' & Hk & Hloop & Hp2).
  destruct (end_turn p (Key e) levels false CMap q' tokens _ _ _ f2 ltac:(by right) Hp2) as (f3 & Hend & Hp3).
  exists (k + 1)%nat, f3. split_and!; [simpl; rewrite length_app; simpl; lia| |exact Hp3]. intros fuel. run_bind. by rewrite <- Nat.add_assoc, Hloop, <- Hend.
Qed.

Lemma scalar_walks p v item : scalar_item v = Some item → value_walks p v [Item item] [].
Proof.
  intros Hv tokens c q a levels old w w' t f Hq [Hs Hl Hc Hb] _ He Hw. injection He as <-. unfold StringFilter.writes in Hw. injection Hw as <-.
  destruct (next_on fd ndebug Hfd L L_small _ _ _ ((c, PSeparator) :: a) _ Hc) as (cur & E & Hon); [destruct v; simplify_eq/=; by destruct q|].
  exists 0%nat, (set_Cursor cur f). split_and!; [simpl; lia| |by split]. intros fuel. unfold ConsumeValue, Cursor.GetType. rewrite (on_current _ _ _ _ _ _ Hc), E.
  by destruct v; simplify_eq/=.
Qed.

(** A value that is not asked for is entered, behind its attributes. *)
Lemma enter_walks p attributes v ta tt ms : wanted paths p = false → NodeTok (Node attributes v) (ta ++ tt) →
  match attributes with None => ta = [] | Some items => ∃ body, ta = Item (Simple BeginAttributes) :: body ++ [Item (Simple EndAttributes)] ∧ MapTok items body end →
  ValueTok v tt → value_walks p v tt ms → node_walks p (Node attributes v) (ta ++ tt) ms.
Proof.
  intros Hwant Hn Ha Hv H tokens c a levels old w w' t f Hpos Hf He Hw.
  pose proof (extract p levels _ _ tokens c a old w f Hn Hpos Hf) as Hx. rewrite Hwant in Hx. destruct Hx as (f1 & Ex & Hp1).
  assert (∃ item rest, tt = Item item :: rest ∧ GetType item ≠ BeginAttributes) as (item & rest & Ett & Hitem).
  { destruct Hv as [v item Hv| |]; [|by eexists _, _..]. eexists _, _. split; [done|]. by destruct v; simplify_eq/=. }
  assert (∃ f2 q, expects q = true ∧ position p levels (tt ++ tokens) ((c, q) :: a) old w f2 ∧
    (if bool_decide (Cursor.GetType (Cursor_ f1) = BeginAttributes) then cursor ← Cursor.SkipAttributes fd (Cursor_ f1); Ok (set_Cursor cursor f1) else Ok f1) = Ok f2) as (f2 & q & Hq & Hp2 & E2).
  { destruct Hp1 as [Hs Hl Hc Hb]. unfold Cursor.GetType. destruct attributes as [items|].
    - destruct Ha as (body & -> & Hbody). cbn [app] in Hc. rewrite <- !app_assoc in Hc. rewrite (on_current _ _ _ _ _ _ Hc), bool_decide_eq_true_2 by done.
      rewrite node_levels_attributes in Hf. apply fits_max in Hf as [Hfa _]. apply fits_S in Hfa as [_ Hfa].
      destruct (skip_attributes_on fd Hfd L L_small items body (tt ++ tokens) c a (Cursor_ f1) Hbody Hc Hfa) as (cur & -> & Hon). run_bind.
      exists (set_Cursor cur f1), PAttributeless. split; [done|]. split; [by split|done].
    - subst ta. rewrite Ett in Hc |- *. rewrite (on_current _ _ _ _ _ _ Hc), bool_decide_eq_false_2 by done. exists f1, PValue. split; [done|]. split; [by split|done]. }
  assert (fits_level L (length a) (value_levels v)) as Hfv.
  { destruct attributes as [items|]; [rewrite node_levels_attributes in Hf; by apply fits_max in Hf as [_ ?]|exact Hf]. }
  destruct (H tokens c q a levels old w w' t f2 Hq Hp2 Hfv He Hw) as (k & f3 & Hk & Hloop & Hp3). exists k, f3. split_and!; [rewrite length_app; lia| |done].
  intros fuel. unfold ConsumeItemEpilogue. rewrite Ex. run_bind. rewrite E2. run_bind. apply Hloop.
Qed.

Lemma wanted_walks p n tt : wanted paths p = true → NodeTok n tt → node_walks p n tt [(p, tt)].
Proof.
  intros Hwant Hn tokens c a levels old w w' t f Hpos Hf He Hw. pose proof (extract p levels _ _ tokens c a old w f Hn Hpos Hf) as Hx. rewrite Hwant in Hx.
  pose proof He as He'. cbn [emit fst] in He'. destruct (match old with None => _ | Some _ => _ end) as [b|] eqn:Eb; [|done].
  destruct (Hx b t w' eq_refl He Hw) as (f1 & E & Hp). exists 0%nat, f1. split_and!; [destruct (node_head _ _ Hn) as (? & ? & ->); simpl; lia| |exact Hp].
  intros fuel. unfold ConsumeItemEpilogue. by rewrite E.
Qed.

(** The matches inside of a value. *)
Definition below (p : list TEntry) (v : TValue) : list (list TEntry * TNode) :=
  match v with VMap items => map_matches paths p items | VList items => list_matches paths p 0 items | _ => [] end.

Lemma list_item_walks p i n t items ts ms1 ms2 : Z.of_nat i < 2 ^ 31 → NodeTok n t → node_walks (p ++ [Index (Z.of_nat i)]) n t ms1 → list_walks p (S i) items ts ms2 →
  list_walks p i (n :: items) (t ++ Separator :: ts) (ms1 ++ ms2).
Proof.
  intros Hi Hn H1 H2 tokens a levels old w w' tt f Hpos Hf He Hw. simpl in Hf. apply fits_max in Hf as [Hfn Hfi].
  destruct (emit_split _ _ _ _ _ _ He Hw) as (t1 & t2 & w1 & He1 & Hw1 & He2 & Hw2). destruct (node_head_type _ _ Hn) as (item & rest & Et & Hitem).
  rewrite <- app_assoc in Hpos. pose proof Hpos as Hpos'. rewrite Et in Hpos'.
  destruct (list_turn p levels item (rest ++ (Separator :: ts) ++ Item (Simple EndList) :: tokens) _ old w f (Z.of_nat i - 1) Hitem ltac:(unfold in_s; lia) Hpos') as (f1 & Hturn & Hp1).
  replace (Z.of_nat i - 1 + 1) with (Z.of_nat i) in Hp1 by lia. change (Item item :: rest ++ ?x) with ((Item item :: rest) ++ x) in Hp1. rewrite <- Et in Hp1.
  destruct (H1 _ CList a (true :: levels) old w w1 t1 f1 Hp1 Hfn He1 Hw1) as (k1 & f2 & Hk1 & Hloop1 & Hp2).
  assert (position (p ++ [Index (Z.of_nat (S i) - 1)]) (true :: levels) (ts ++ Item (Simple EndList) :: tokens) ((CList, PValue) :: a) (last_of old ms1) w1 f2) as Hp3.
  { replace (Z.of_nat (S i) - 1) with (Z.of_nat i) by lia. destruct Hp2 as [Hs Hl Hc Hb]. split; [done|done| |done]. by apply (on_punct fd L L_small Separator _ ((CList, PSeparator) :: a)). }
  destruct (H2 _ _ _ _ _ _ _ f2 Hp3 Hfi He2 Hw2) as (k2 & f3 & e & q & Hk2 & Hloop2 & Hp4). exists (S (k1 + k2)), f3, e, q. rewrite last_of_app.
  split_and!; [rewrite length_app; simpl; lia| |done]. intros fuel. change (S (k1 + k2) + fuel)%nat with (S (k1 + k2 + fuel)). by rewrite Hturn, <- Nat.add_assoc, Hloop1.
Qed.

Lemma list_last_walks p i n t ms : Z.of_nat i < 2 ^ 31 → NodeTok n t → node_walks (p ++ [Index (Z.of_nat i)]) n t ms → list_walks p i [n] t ms.
Proof.
  intros Hi Hn H1 tokens a levels old w w' tt f Hpos Hf He Hw. simpl in Hf. apply fits_max in Hf as [Hfn _]. destruct (node_head_type _ _ Hn) as (item & rest & Et & Hitem).
  pose proof Hpos as Hpos'. rewrite Et in Hpos'.
  destruct (list_turn p levels item (rest ++ Item (Simple EndList) :: tokens) _ old w f (Z.of_nat i - 1) Hitem ltac:(unfold in_s; lia) Hpos') as (f1 & Hturn & Hp1).
  replace (Z.of_nat i - 1 + 1) with (Z.of_nat i) in Hp1 by lia. change (Item item :: rest ++ ?x) with ((Item item :: rest) ++ x) in Hp1. rewrite <- Et in Hp1.
  destruct (H1 _ CList a (true :: levels) old w w' tt f1 Hp1 Hfn He Hw) as (k1 & f2 & Hk1 & Hloop1 & Hp2). exists (S k1), f2, (Index (Z.of_nat i)), PSeparator.
  split_and!; [lia| |done]. intros fuel. change (S k1 + fuel)%nat with (S (k1 + fuel)). by rewrite Hturn, Hloop1.
Qed.

Lemma map_item_walks p key n t items ts ms1 ms2 : NodeTok n t → node_walks (p ++ [Key key]) n t ms1 → map_walks p items ts ms2 →
  map_walks p ((key, n) :: items) (Item (ItemString key) :: Equality :: t ++ Separator :: ts) (ms1 ++ ms2).
Proof.
  intros Hn H1 H2 tokens a levels old w w' tt f k0 Hpos Hf He Hw. simpl in Hf. apply fits_max in Hf as [Hfn Hfi].
  destruct (emit_split _ _ _ _ _ _ He Hw) as (t1 & t2 & w1 & He1 & Hw1 & He2 & Hw2). cbn [app] in Hpos. rewrite <- app_assoc in Hpos.
  destruct (map_turn p levels key _ CMap a old w f k0 eq_refl Hpos) as (f1 & Hturn & Hp1).
  destruct (H1 _ CMap a (false :: levels) old w w1 t1 f1 Hp1 Hfn He1 Hw1) as (k1 & f2 & Hk1 & Hloop1 & Hp2).
  assert (position (p ++ [Key key]) (false :: levels) (ts ++ Item (Simple EndMap) :: tokens) ((CMap, PKey) :: a) (last_of old ms1) w1 f2) as Hp3.
  { destruct Hp2 as [Hs Hl Hc Hb]. split; [done|done| |done]. by apply (on_punct fd L L_small Separator _ ((CMap, PSeparator) :: a)). }
  destruct (H2 _ _ _ _ _ _ _ f2 key Hp3 Hfi He2 Hw2) as (k2 & f3 & e & q & Hk2 & Hloop2 & Hp4). exists (S (k1 + k2)), f3, e, q. rewrite last_of_app.
  split_and!; [simpl; rewrite length_app; simpl; lia| |done]. intros fuel. change (S (k1 + k2) + fuel)%nat with (S (k1 + k2 + fuel)). by rewrite Hturn, <- Nat.add_assoc, Hloop1.
Qed.

Lemma map_last_walks p key n t ms : NodeTok n t → node_walks (p ++ [Key key]) n t ms → map_walks p [(key, n)] (Item (ItemString key) :: Equality :: t) ms.
Proof.
  intros Hn H1 tokens a levels old w w' tt f k0 Hpos Hf He Hw. simpl in Hf. apply fits_max in Hf as [Hfn _]. cbn [app] in Hpos.
  destruct (map_turn p levels key _ CMap a old w f k0 eq_refl Hpos) as (f1 & Hturn & Hp1).
  destruct (H1 _ CMap a (false :: levels) old w w' tt f1 Hp1 Hfn He Hw) as (k1 & f2 & Hk1 & Hloop1 & Hp2). exists (S k1), f2, key, PSeparator.
  split_and!; [simpl; lia| |done]. intros fuel. change (S k1 + fuel)%nat with (S (k1 + fuel)). by rewrite Hturn, Hloop1.
Qed.

Lemma all_walks :
  (∀ n t, NodeTok n t → ∀ p, filterable n → ∃ ms, Forall2 tagged (matches paths p n) ms ∧ node_walks p n t ms) ∧
  (∀ v t, ValueTok v t → ∀ p, filterable (Node None v) → ∃ ms, Forall2 tagged (below p v) ms ∧ value_walks p v t ms) ∧
  (∀ items t, ListTok items t → ∀ p i, Z.of_nat (i + length items) < 2 ^ 31 → Forall filterable items → ∃ ms, Forall2 tagged (list_matches paths p i items) ms ∧ list_walks p i items t ms) ∧
  (∀ items t, MapTok items t → ∀ p, Forall (λ kn, filterable kn.2) items → ∃ ms, Forall2 tagged (map_matches paths p items) ms ∧ map_walks p items t ms).
Proof.
  apply Tok_mutind.
  - intros v t Hv IH p Hok. rewrite matches_eq. destruct (wanted paths p) eqn:Ew.
    + exists [(p, t)]. split; [constructor; [split; [done|by constructor]|constructor]|]. by apply wanted_walks; [|constructor].
    + destruct (IH p Hok) as (ms & Hms & Hw). exists ms. split; [exact Hms|]. by apply (enter_walks p None v [] t ms Ew); [constructor|..].
  - intros attributes v ta t Ha _ Hv IH p Hok. rewrite matches_eq. assert (NodeTok (Node (Some attributes) v) (Item (Simple BeginAttributes) :: ta ++ Item (Simple EndAttributes) :: t)) as Hn by (by constructor).
    destruct (wanted paths p) eqn:Ew.
    + exists [(p, Item (Simple BeginAttributes) :: ta ++ Item (Simple EndAttributes) :: t)]. split; [constructor; [split; [done|exact Hn]|constructor]|]. by apply wanted_walks.
    + destruct (IH p ltac:(destruct v; exact Hok)) as (ms & Hms & Hw). exists ms. split; [exact Hms|].
      replace (Item (Simple BeginAttributes) :: ta ++ Item (Simple EndAttributes) :: t) with ((Item (Simple BeginAttributes) :: ta ++ [Item (Simple EndAttributes)]) ++ t) in * by (simpl; by rewrite <- app_assoc).
      apply (enter_walks p (Some attributes) v _ t ms Ew Hn); [by exists ta|done|done].
  - intros v item Hv p _. exists []. split; [destruct v; try discriminate Hv; constructor|]. by apply scalar_walks.
  - intros items t Ht IH p Hok. apply filterable_list in Hok as [Hlen Hok]. destruct (IH p 0%nat Hlen Hok) as (ms & Hms & Hw). exists ms. split; [done|]. by apply list_value_walks.
  - intros items t Ht IH p Hok. apply filterable_map in Hok as [_ Hok]. destruct (IH p Hok) as (ms & Hms & Hw). exists ms. split; [done|]. by apply map_value_walks.
  - intros p i _ _. exists []. split; [constructor|]. intros tokens a levels old w w' t f Hpos _ [= <-] Hw. unfold StringFilter.writes in Hw. injection Hw as <-.
    exists 0%nat, f, (Index (Z.of_nat i - 1)), PValue. by split_and!.
  - intros n t Hn IH p i Hlen Hok. simpl in Hlen. destruct (IH (p ++ [Index (Z.of_nat i)]) ltac:(by apply Forall_inv in Hok)) as (ms & Hms & Hw). exists ms.
    split; [simpl; by rewrite app_nil_r|]. apply list_last_walks; [lia|done|done].
  - intros n t items ts Hn IH1 Hts IH2 p i Hlen Hok. simpl in Hlen. inversion Hok as [|? ? Hok1 Hok2]; subst. destruct (IH1 (p ++ [Index (Z.of_nat i)]) Hok1) as (ms1 & Hms1 & Hw1).
    destruct (IH2 p (S i) ltac:(lia) Hok2) as (ms2 & Hms2 & Hw2). exists (ms1 ++ ms2). split; [by apply Forall2_app|]. apply list_item_walks; [lia|done|done|done].
  - intros p _. exists []. split; [constructor|]. intros tokens a levels old w w' t f k0 Hpos _ [= <-] Hw. unfold StringFilter.writes in Hw. injection Hw as <-.
    exists 0%nat, f, k0, PKey. by split_and!.
  - intros key n t Hn IH p Hok. destruct (IH (p ++ [Key key]) ltac:(by apply Forall_inv in Hok)) as (ms & Hms & Hw). exists ms.
    split; [simpl; by rewrite app_nil_r|]. by apply map_last_walks.
  - intros key n t items ts Hn IH1 Hts IH2 p Hok. inversion Hok as [|? ? Hok1 Hok2]; subst. destruct (IH1 (p ++ [Key key]) Hok1) as (ms1 & Hms1 & Hw1).
    destruct (IH2 p Hok2) as (ms2 & Hms2 & Hw2). exists (ms1 ++ ms2). split; [by apply Forall2_app|]. by apply map_item_walks.
Qed.
End Walk.

(** ** Arguments and levels of what is written *)

Definition item_ok (item : TYsonItem) : Prop := ∀ call, item_call item = Some call → call_ok call.
Definition sized (k : nat) (n : TNode) : Prop := (node_levels n <= k)%nat ∧ Forall item_ok (event_items (node_events n)).

Lemma items_calls tokens : Forall item_ok (token_items tokens) ↔ Forall call_ok (token_calls tokens).
Proof.
  unfold token_calls. induction tokens as [|[item| |] tokens IH]; cbn [token_items omap list_omap token_call]; [split; constructor|..].
  - rewrite list.Forall_cons, IH. unfold item_ok at 1. destruct (item_call item) as [call|]; [rewrite list.Forall_cons|]; (split; [intros [H ?]|]); try done.
    + split; [by apply H|done].
    + intros [H ?]. split; [by intros ? [= <-]|done].
  - rewrite list.Forall_cons, IH. split; [by split|by intros [_ ?]].
  - rewrite list.Forall_cons, IH. split; [by split|by intros [_ ?]].
Qed.

Lemma simple_ok type : item_ok (Simple type).
Proof. by destruct type; intros call [= <-]. Qed.

Lemma sized_value k attributes v : sized k (Node attributes v) → sized k (Node None v).
Proof.
  destruct attributes as [items|]; [|done]. unfold sized. rewrite node_levels_attributes, !node_events_eq, !event_items_app, !list.Forall_app.
  change (node_levels (Node None v)) with (value_levels v). intros [Hl [_ Hv]]. split; [lia|by split; [constructor|]].
Qed.

Lemma sized_list k items : sized k (Node None (VList items)) ↔ (0 < k)%nat ∧ Forall (sized (k - 1)) items.
Proof.
  unfold sized at 1. change (node_levels (Node None (VList items))) with (value_levels (VList items)). rewrite node_events_eq, value_levels_list, value_events_list.
  change (attribute_events None ++ OnBeginList :: list_events items ++ [OnEndList]) with (OnBeginList :: list_events items ++ [OnEndList]).
  change (event_items (OnBeginList :: ?x)) with (Simple BeginList :: event_items x). rewrite event_items_app, list.Forall_cons, list.Forall_app.
  assert (Forall (sized (k - 1)) items ↔ (list_levels items <= k - 1)%nat ∧ Forall item_ok (event_items (list_events items))) as ->.
  { induction items as [|n items IH]; [split; [split; [simpl; lia|constructor]|constructor]|]. rewrite list.Forall_cons, IH. cbn [list_levels list_events].
    change (event_items (OnListItem :: ?x)) with (event_items x). rewrite event_items_app, list.Forall_app, Nat.max_lub_iff. unfold sized. tauto. }
  split; [intros (? & _ & ? & _); split_and!; [lia..|done]|]. intros (? & ? & ?). split_and!; [lia|apply simple_ok|done|]. constructor; [apply simple_ok|constructor].
Qed.

Lemma sized_map k items : sized k (Node None (VMap items)) ↔ (0 < k)%nat ∧ Forall (λ kn, item_ok (ItemString kn.1) ∧ sized (k - 1) kn.2) items.
Proof.
  unfold sized at 1. change (node_levels (Node None (VMap items))) with (value_levels (VMap items)). rewrite node_events_eq, value_levels_map, value_events_map.
  change (attribute_events None ++ OnBeginMap :: map_events items ++ [OnEndMap]) with (OnBeginMap :: map_events items ++ [OnEndMap]).
  change (event_items (OnBeginMap :: ?x)) with (Simple BeginMap :: event_items x). rewrite event_items_app, list.Forall_cons, list.Forall_app.
  assert (Forall (λ kn, item_ok (ItemString kn.1) ∧ sized (k - 1) kn.2) items ↔ (map_levels items <= k - 1)%nat ∧ Forall item_ok (event_items (map_events items))) as ->.
  { induction items as [|[key n] items IH]; [split; [split; [simpl; lia|constructor]|constructor]|]. rewrite list.Forall_cons, IH. cbn [map_levels map_events fst snd].
    change (event_items (OnKeyedItem key :: ?x)) with (ItemString key :: event_items x). rewrite event_items_app, list.Forall_cons, list.Forall_app, Nat.max_lub_iff. unfold sized. tauto. }
  split; [intros (? & _ & ? & _); split_and!; [lia..|done]|]. intros (? & ? & ?). split_and!; [lia|apply simple_ok|done|]. constructor; [apply simple_ok|constructor].
Qed.

Lemma fill_sized k items : Forall (λ n, ∀ n', n = Some n' → sized k n') items → Forall (sized k) (fill items).
Proof.
  induction 1 as [|[n|] items Hn _ IH]; [constructor|..]; cbn [fill]; [constructor; [by apply Hn|done]|]. destruct (fill items); [constructor|].
  constructor; [|done]. split; [simpl; lia|]. constructor; [apply simple_ok|constructor].
Qed.

(** The result is not deeper than the document and has none but its scalars and keys. *)
Lemma filter_sized paths n : ∀ k p n', sized k n → filter_node paths p n = Some n' → sized k n'.
Proof.
  apply (node_ind' (λ n, ∀ k p n', sized k n → filter_node paths p n = Some n' → sized k n')
    (λ v, ∀ k p attributes n', sized k (Node attributes v) → filter_node paths p (Node attributes v) = Some n' → sized k n')).
  1: intros attributes value _ Hv k p n'; apply Hv.
  1-6: intros; match goal with H : filter_node ?paths ?p _ = _ |- _ => rewrite filter_node_eq in H; destruct (wanted paths p); [by injection H as <-|discriminate H] end.
  - intros items Hi k p attributes n' Hs. rewrite filter_node_eq. destruct (wanted paths p); [by intros [= <-]|]. apply sized_value, sized_list in Hs as [Hk Hs].
    intros E. assert (n' = Node None (VList (fill (filter_list paths p 0 items)))) as -> by (destruct (fill _); congruence).
    apply sized_list. split; [done|]. apply fill_sized. clear E. revert Hs. generalize (k - 1)%nat. intros k' Hs. generalize 0%nat. induction Hs as [|n1 items Hn _ IH]; intros i; [constructor|].
    inversion Hi as [|? ? H1 H2]; subst. cbn [filter_list]. constructor; [intros n2 E2; by eapply H1|by apply IH].
  - intros items Hi k p attributes n' Hs. rewrite filter_node_eq. destruct (wanted paths p); [by intros [= <-]|]. apply sized_value, sized_map in Hs as [Hk Hs].
    intros E. assert (n' = Node None (VMap (filter_map paths p items))) as -> by (destruct (filter_map paths p items); congruence).
    apply sized_map. split; [done|]. clear E. induction Hs as [|[key n1] items [Hkey Hn] _ IH]; [constructor|].
    inversion Hi as [|? ? H1 H2]; subst. cbn [filter_map]. specialize (IH H2). destruct (filter_node paths (p ++ [Key key]) n1) as [n2|] eqn:E2; [|done].
    constructor; [|done]. split; [done|]. by eapply H1.
Qed.

(** ** Whole texts *)

(** What is left of a value without matches when the result may not be null. *)
Definition fallback_node (n : TNode) : TNode :=
  match n with Node _ (VList _) => Node None (VList []) | Node _ (VMap _) => Node None (VMap []) | Node _ v => Node None v end.

Definition filtered (paths : list (list byte)) (n : TNode) (allowNullResult : bool) : option TNode :=
  match filter_node paths [] n with
  | Some n' => Some n'
  | None => if allowNullResult then None else Some (fallback_node n)
  end.

Section Whole.
Context (FloatToString : Z → list byte) (fd : list byte → Result Z) (ndebug : bool).
Context (Hdc : double_conversions FloatToString fd) (Hbits : double_bits fd) (Hfd : total_conversion fd).

#[local] Abbreviation writes := (writes FloatToString ndebug).
#[local] Abbreviation L := 256%nat.

(** The output is read as the document. *)
Definition read_as (n : TNode) (out : list byte) : Prop :=
  ∀ s, at_stream s out → ReadItems fd (NewPullParser s YsonNode DefaultYsonParserNestingLevelLimit) = Ok (event_items (node_events n)).

Lemma node_written n tokens : NodeTok n tokens → sized 255 n →
  ∃ w, writes tokens (New YsonNode DefaultYsonParserNestingLevelLimit) = Ok w ∧ UncheckedWriter_ w = calls_text FloatToString (token_calls tokens) ∧
    UncheckedWriter_ w ≠ [] ∧ read_as n (UncheckedWriter_ w).
Proof.
  intros Hn [Hl Hok]. rewrite <- (proj1 token_items_events _ _ Hn), items_calls in Hok. assert (fits_level L 0 (node_levels n)) as Hf by (right; lia).
  pose proof (ModeTok_node _ _ Hn) as Hm. pose proof (ModeTok_proper _ _ _ _ Hm) as Hproper. destruct (ModeTok_valid YsonNode _ _ _ L L_small Hm Hf) as (_ & _ & _ & a' & Ea & _).
  pose proof (calls_TokText FloatToString fd Hdc L L_small (token_calls tokens) (initial YsonNode) a' Hok ltac:(by split_and!; [|left|])) as Htext. rewrite (call_tokens_back tokens Hproper) in Htext. specialize (Htext Ea).
  unfold StringFilter.writes. rewrite (Calls_spec FloatToString fd Hdc (negb ndebug) ndebug), (call_tokens_back tokens Hproper) by done. change DefaultYsonParserNestingLevelLimit with (Z.of_nat L). cbn [Checker_ New UncheckedWriter_].
  destruct (checker_runs YsonNode L tokens _ _ L_small Hm Hf) as (c & Ec & _).
  assert (calls_text FloatToString (token_calls tokens) ≠ []) as Hne.
  { destruct (node_head_type _ _ Hn) as (item & rest & -> & Hend). inversion Hproper as [|? ? Hp _]; subst. destruct (token_call_proper _ Hp) as (call & E).
    unfold token_calls. cbn [omap list_omap]. rewrite E. unfold calls_text. simpl. destruct item as [[]| | | | |]; simplify_eq/=; discriminate. }
  assert (read_as n (calls_text FloatToString (token_calls tokens))) as Hr.
  { intros s Hs. change DefaultYsonParserNestingLevelLimit with (Z.of_nat L). by eapply (ReadItems_tokens fd YsonNode _ _ tokens L _ s Hfd Hm Hf Htext Hs), L_small. }
  destruct ndebug; simpl negb; [|rewrite Ec]; run_bind; eexists; by split_and!.
Qed.

(** Texts, read by a cursor. *)
Definition cursor_over (text : list byte) (tokens : list TToken) : Prop :=
  ∃ cur, Cursor.New fd YsonNode 0 (NewPullParser (TZeroCopyInputStreamReader [text]) YsonNode DefaultYsonParserNestingLevelLimit) = Ok cur ∧ on fd L cur tokens [(CNode, PValue)].

Lemma text_cursor n t ws1 ws2 : spaces ws1 → NodeText fd DefaultMemoryLimit n t → spaces ws2 → (node_depth n < 256)%nat →
  ∃ tokens, NodeTok n tokens ∧ sized 255 n ∧ cursor_over (ws1 ++ t ++ ws2) tokens.
Proof.
  intros Hws1 Ht Hws2 Hd. destruct (grammar_tokens fd) as (HN & _). destruct (HN _ _ Ht) as (tokens & Hn & Htok).
  assert (TokText fd tokens (ws1 ++ t ++ ws2)) as Htext.
  { apply TokText_spaces; [done|]. rewrite <- (app_nil_r tokens). apply Htok; [by constructor|]. rewrite <- (app_nil_r ws2). by apply delimited_spaces. }
  pose proof (proj1 levels_depth n) as Hle. assert (fits_level L 0 (node_levels n)) as Hf by (right; lia).
  exists tokens. split_and!; [done|split; [lia|]|].
  - rewrite <- (proj1 token_items_events _ _ Hn). apply items_calls. by eapply TokText_calls_ok.
  - destruct (new_on fd Hfd L L_small YsonNode tokens _ 0 (ModeTok_valid YsonNode _ _ _ L L_small (ModeTok_node _ _ Hn) Hf) (new_before fd YsonNode L tokens _ L_small Htext)) as (cur & E & Hon & Hstart).
    simpl in Hstart. rewrite consume_false in Hon by done. by exists cur.
Qed.

Context (paths : list (list byte)).

(** The walk over the whole document. *)
Lemma Filter_tokens n tokens text : NodeTok n tokens → sized 255 n → filterable n → cursor_over text tokens →
  match filter_node paths [] n with
  | Some n' => ∃ out, (f ← NewFilterer fd text; Filter FloatToString fd ndebug paths f) = Ok (Some out) ∧ read_as n' out
  | None => (f ← NewFilterer fd text; Filter FloatToString fd ndebug paths f) = Ok None
  end.
Proof.
  intros Hn Hs Hok (cur & Enew & Hon). destruct (proj1 (all_walks FloatToString fd Hfd ndebug paths) n tokens Hn [] Hok) as (ms & Hms & Hwalk).
  pose proof (node_built paths n [] ms Hok Hms) as Hb.
  unfold NewFilterer. rewrite Enew. run_bind. destruct (PushIndex_inv [] (-1) _ New_stack_inv) as (stack & -> & Hst); [unfold in_s; lia|]. run_bind. cbn [app] in Hst.
  set (f0 := {| Builder_ := _; Cursor_ := _; Stack_ := _; StackLevelIsList_ := _ |}). destruct (node_head_type _ _ Hn) as (item & rest & Et & Hend).
  assert (fits_level L 0 (node_levels n)) as Hf by (right; destruct Hs; lia).
  assert (∃ f1, (∀ fuel, filter_loop FloatToString fd ndebug paths (S fuel) f0 = (f ← ConsumeItemEpilogue FloatToString fd ndebug paths f1; filter_loop FloatToString fd ndebug paths fuel f)) ∧
    position fd [] [true] (tokens ++ []) [(CNode, PValue)] None (New YsonNode DefaultYsonParserNestingLevelLimit) f1) as (f1 & Hturn & Hp1).
  { pose proof (call_refines CallIncreaseLastIndex _ _ Hst I) as H. simpl in H. destruct H as (stack1 & E & Hst1). exists (set_Stack stack1 f0).
    split; [|rewrite app_nil_r; split; [exact Hst1|done|exact Hon|by split]]. intros fuel. cbn [filter_loop]. unfold ConsumeItemPrologue, Cursor.GetType.
    change (Cursor_ f0) with cur. change (StackLevelIsList_ f0) with [true]. change (Stack_ f0) with stack. rewrite Et in Hon. rewrite !(on_current _ _ _ _ _ _ Hon). rewrite bool_decide_eq_false_2 by (intros E'; by rewrite E' in Hend).
    rewrite bool_decide_eq_false_2 by (intros E'; by rewrite E' in Hend). simpl in E. by rewrite E. }
  assert (∃ fuel, filter_fuel f0 = S (length tokens + S fuel)) as (fuel & Efuel).
  { unfold filter_fuel. pose proof (on_length fd L _ _ _ Hon ltac:(by rewrite Et)) as Hlen. cbn [Cursor_ f0]. exists (Cursor.loop_fuel cur - S (length tokens))%nat. lia. }
  assert (∀ t w', emit None ms = Some t → writes t (New YsonNode DefaultYsonParserNestingLevelLimit) = Ok w' →
    ∃ f', filter_loop FloatToString fd ndebug paths (filter_fuel f0) f0 = Ok f' ∧ builder_at (last_of None ms) w' (Builder_ f')) as Hloop.
  { intros t w' He Hw. destruct (Hwalk [] CNode [] [true] None _ w' t f1 Hp1 Hf He Hw) as (k & f' & Hk & Hk' & [_ _ (_ & _ & Ho) Hbf]). exists f'. split; [|done].
    rewrite Efuel, Hturn. replace (length tokens + S fuel)%nat with (k + S (length tokens + fuel - k))%nat by lia. rewrite Hk'. cbn [filter_loop]. unfold Cursor.GetType. simpl in Ho. by rewrite Ho. }
  unfold Filter. destruct ms as [|m ms]; simpl in Hb.
  - rewrite Hb. destruct (Hloop [] _ eq_refl eq_refl) as (f' & -> & _ & Hfirst). run_bind. unfold BuilderFlush. simpl in Hfirst. by rewrite Hfirst.
  - destruct Hb as (n' & t & Efilter & Ebody & Htok). rewrite Efilter. destruct (node_written n' _ Htok (filter_sized paths n 255 [] n' Hs Efilter)) as (w & Ew & _ & Hne & Hread).
    rewrite app_assoc, writes_app in Ew. apply bind_ok in Ew as (w1 & Ew1 & Ew2). rewrite emit_body in Ebody. destruct (emit (Some m.1) ms) as [t'|] eqn:Em; [|done]. injection Ebody as <-.
    destruct (Hloop _ w1 ltac:(cbn [emit]; rewrite Em; reflexivity) Ew1) as (f' & -> & Hwf & Hold). run_bind. exists (UncheckedWriter_ w). split; [|done].
    unfold BuilderFlush, OnAfterLastStack. destruct Hold as [-> ->]. cbn [drop]. rewrite drop_0, each_close, Hwf, Ew2. run_bind. by rewrite bool_decide_eq_false_2.
Qed.

(** A scalar is copied. *)
Lemma transfer_scalar v item cur q w w' : scalar_item v = Some item → expects q = true → on fd L cur [Item item] [(CNode, q)] → writes [Item item] w = Ok w' →
  ∃ cur', CursorTransferComplexValue FloatToString fd ndebug cur w = Ok (cur', w').
Proof.
  intros Hv Hq Hon Hw. assert (∃ call, item_call item = Some call) as (call & Ecall) by (destruct v; simplify_eq/=; by eexists). rewrite (writes_one _ _ _ call) in Hw by done.
  unfold CursorTransferComplexValue, TraverseFrom. rewrite (on_current _ _ _ _ _ _ Hon). cbn [WritingVisitor VisitItem]. rewrite Ecall, Hw. run_bind.
  destruct (next_on fd true Hfd L L_small _ _ _ [(CNode, PSeparator)] _ Hon) as (cur' & E & _); [destruct v; simplify_eq/=; by destruct q|].
  unfold Cursor.Next in E. simpl in E. destruct v; simplify_eq/=; run_bind; rewrite E; by exists cur'.
Qed.

Lemma empty_collection c : c = CList ∨ c = CMap → let v := match c with CList => VList [] | _ => VMap [] end in
  ∀ out, out = match c with CList => B"[]" | _ => B"{}" end → read_as (Node None v) out.
Proof.
  intros Hc v out ->. assert (∃ tokens, NodeTok (Node None v) tokens ∧ calls_text FloatToString (token_calls tokens) = match c with CList => B"[]" | _ => B"{}" end) as (tokens & Hn & E).
  { destruct Hc as [-> | ->]; eexists; (split; [constructor; [constructor; constructor]|done]). }
  destruct (node_written (Node None v) tokens Hn) as (w & _ & Ew & _ & Hr); [|by rewrite Ew, E in Hr].
  destruct Hc as [-> | ->]; (split; [simpl; lia|repeat (constructor; [apply simple_ok|]); constructor]).
Qed.

Lemma Fallback_tokens n tokens text : NodeTok n tokens → sized 255 n → cursor_over text tokens →
  ∃ out, FilterYsonStringFallback FloatToString fd ndebug text = Ok out ∧ read_as (fallback_node n) out.
Proof.
  intros Hn Hs (cur & Enew & Hon). destruct n as [attributes v]. unfold FilterYsonStringFallback. rewrite Enew. run_bind.
  assert (∃ tv cur' q, ValueTok v tv ∧ expects q = true ∧ on fd L cur' tv [(CNode, q)] ∧
    (if bool_decide (Cursor.GetType cur = BeginAttributes) then Cursor.SkipAttributes fd cur else Ok cur) = Ok cur') as (tv & cur' & q & Hv & Hq & Hon' & ->).
  { unfold Cursor.GetType. inversion Hn as [? tv Hv|items ? ta tv Ha Hv]; subst.
    - destruct (node_head_type _ _ Hn) as (item & rest & -> & _). exists (Item item :: rest), cur, PValue. split_and!; try done. rewrite (on_current _ _ _ _ _ _ Hon).
      rewrite bool_decide_eq_false_2; [done|]. inversion Hv as [? ? E| |]; subst; try done. by destruct v; simplify_eq/=.
    - rewrite (on_current _ _ _ _ _ _ Hon), bool_decide_eq_true_2 by done. destruct Hs as [Hl _]. rewrite node_levels_attributes in Hl.
      destruct (skip_attributes_on fd Hfd L L_small items ta tv CNode [] cur Ha Hon) as (cur' & E & Hon'); [right; simpl; lia|]. exists tv, cur', PAttributeless. by split_and!. }
  run_bind. apply sized_value in Hs. inversion Hv as [? item Ei|items body Hbody|items body Hbody]; subst.
  - destruct (node_written (Node None v) [Item item] ltac:(by constructor) Hs) as (w & Ew & _ & _ & Hr).
    destruct (transfer_scalar v item cur' q _ w Ei Hq Hon' Ew) as (cur2 & E). unfold Cursor.GetType. rewrite (on_current _ _ _ _ _ _ Hon').
    exists (UncheckedWriter_ w). destruct v; simplify_eq/=; rewrite E; by split.
  - unfold Cursor.GetType. rewrite (on_current _ _ _ _ _ _ Hon'). eexists. split; [done|]. by apply (empty_collection CList); [left|].
  - unfold Cursor.GetType. rewrite (on_current _ _ _ _ _ _ Hon'). eexists. split; [done|]. by apply (empty_collection CMap); [right|].
Qed.
End Whole.

(** ** Theorems *)

(** C26. Filtering gives the smallest document that has the requested values: for every text of
    a document (any mixture of text and binary forms, white space) that is nested less deep
    than the limit, has no map with a repeated key, and every list of paths,
    [FilterYsonString] returns, in debug and in release builds, a text that the pull parser
    reads, cut into blocks in any way, as [filtered]: a value at a requested path is kept
    whole, with its attributes; of any other map the items that contain such a value are
    kept, in their order; of any other list the items up to the last one that does, with
    entities in place of those that do not. When there is none, the result is null if that
    is allowed, and otherwise the empty collection or the scalar itself. No check of the
    builder or of the writer fails. *)
Theorem FilterYsonString_correct (FloatToString : Z → list byte) (fd : list byte → Result Z) (ndebug : bool) (paths : list (list byte))
    (n : TNode) (t ws1 ws2 : list byte) (allowNullResult : bool)
    (Hdc : double_conversions FloatToString fd) (Hbits : double_bits fd) (Hfd : total_conversion fd)
    (Hws1 : spaces ws1) (Ht : NodeText fd DefaultMemoryLimit n t) (Hws2 : spaces ws2) (Hdepth : (node_depth n < 256)%nat) (Hkeys : filterable n) :
  match filtered paths n allowNullResult with
  | Some n' => ∃ out, FilterYsonString FloatToString fd ndebug paths (ws1 ++ t ++ ws2) allowNullResult = Ok (Some out) ∧ read_as fd n' out
  | None => FilterYsonString FloatToString fd ndebug paths (ws1 ++ t ++ ws2) allowNullResult = Ok None
  end.
Proof.
  destruct (text_cursor fd Hbits Hfd n t ws1 ws2 Hws1 Ht Hws2 Hdepth) as (tokens & Hn & Hs & Hc).
  pose proof (Filter_tokens FloatToString fd ndebug Hdc Hfd paths n tokens _ Hn Hs Hkeys Hc) as Hf. unfold FilterYsonString, filtered.
  destruct (filter_node paths [] n) as [n'|].
  - destruct Hf as (out & Ef & Hr). apply bind_ok in Ef as (f & Enew & Ef). rewrite Enew. run_bind. rewrite Ef. run_bind. by exists out.
  - apply bind_ok in Hf as (f & Enew & Ef). rewrite Enew. run_bind. rewrite Ef. run_bind. destruct allowNullResult; [done|].
    destruct (Fallback_tokens FloatToString fd ndebug Hdc Hfd n tokens _ Hn Hs Hc) as (out & E & Hr). rewrite E. by exists out.
Qed.

Lemma FilterYsonString_correct_witness :
  let n := Node None (VMap [(B"b", Node None VEntity); (B"a", Node None (VList [Node None (VBoolean false); Node None (VBoolean true)]))]) in
  NodeText ExampleConversions.read_bits DefaultMemoryLimit n (B"{b=#;a=[%false;%true]}") ∧ filterable n ∧
  ∃ out, FilterYsonString ExampleConversions.print_bits ExampleConversions.read_bits false [B"/a/1"] (B" {b=#;a=[%false;%true]}") true = Ok (Some out) ∧
    read_as ExampleConversions.read_bits (Node None (VMap [(B"a", Node None (VList [Node None VEntity; Node None (VBoolean true)]))])) out.
Proof.
  intros n. assert (NodeText ExampleConversions.read_bits DefaultMemoryLimit n (B"{b=#;a=[%false;%true]}")) as Ht.
  { apply PlainNode, (MapValue _ _ _ (B"b=#;a=[%false;%true]")).
    apply (MapItem _ _ [] _ (B"b") [] [] _ (B"#") [] _ (B"a=[%false;%true]")); [constructor| |constructor|constructor|apply PlainNode, ScalarValue, TextEntity|constructor|].
    - apply (UnquotedText _ "b" []); [done|constructor|by vm_compute].
    - apply (MapLast _ _ [] _ (B"a") [] [] _ (B"[%false;%true]") []); [constructor| |constructor|constructor| |constructor]; [apply (UnquotedText _ "a" []); [done|constructor|by vm_compute]|].
      apply PlainNode, (ListValue _ _ _ (B"%false;%true")). apply (ListItem _ _ [] _ (B"%false") [] _ (B"%true")); [constructor| |constructor|].
      + apply PlainNode, ScalarValue, (YsonGrammar.TextBoolean _ _ false). by vm_compute.
      + apply (ListLast _ _ [] _ (B"%true") []); [constructor| |constructor]. apply PlainNode, ScalarValue, (YsonGrammar.TextBoolean _ _ true). by vm_compute. }
  assert (filterable n) as Hk.
  { simpl. split_and!; try done; try lia. apply (bool_decide_unpack _). by vm_compute. }
  split; [exact Ht|]. split; [exact Hk|].
  pose proof (FilterYsonString_correct ExampleConversions.print_bits ExampleConversions.read_bits false [B"/a/1"] n _ (B" ") [] true ExampleConversions.conversions
    read_bits_double read_bits_total ltac:(by constructor) Ht ltac:(constructor) ltac:(vm_compute; lia) Hk) as H.
  assert (filtered [B"/a/1"] n true = Some (Node None (VMap [(B"a", Node None (VList [Node None VEntity; Node None (VBoolean true)]))]))) as E by (vm_compute; reflexivity).
  rewrite E in H. exact H.
Defined.

(** A map with a repeated key that is asked for ends the process. *)
Lemma Filter_repeated_key_aborts : FilterYsonString (λ _, []) (λ _, Ok 0) true [B"/a"] (B"{a=#;a=#}") true = Crash.
Proof. by vm_compute. Qed.
