(* ===== verification/YPathTrie.v ===== *)
(** Tries of paths (ypath/trie.h, ypath/trie.cpp): a set of paths, viewed by descending token by
    token. A trie of at most one path is kept flat, as the array of its tokens; any other as
    nodes in a deque that point at each other.

    A pointer is an index into the array or the deque ([State_]), so that a view that was made
    before its trie changed refers to what is stored now, and a pointer to storage that is
    gone is an access out of range. [TCompactFlatMap] is a map; its iteration order, that of
    the keys, is written out where it matters. *)

From stdpp Require Import gmap sorting.
From S2P Require Import Prelude Tokenizer YPath Compare.
Import YPathTokenizer.

Definition TToken : Type := list byte.
#[export] Instance TToken_eq_dec : EqDecision TToken := _ : EqDecision (list byte).
#[export] Instance TToken_countable : Countable TToken := _ : Countable (list byte).

(** ** Paths of literals *)

Fixpoint trie_path_loop (fuel : nat) (tokenizer : t) (tokenizedPath : list TToken) : Result (list TToken) :=
  match fuel with
  | O => OutOfFuel
  | S fuel =>
      if bool_decide (Type_ tokenizer = EndOfStream) then Ok tokenizedPath
      else
        _ ← Expect Slash tokenizer;
        tokenizer ← Advance tokenizer;
        _ ← Expect Literal tokenizer;
        let tokenizedPath := tokenizedPath ++ [Token_ tokenizer] in
        tokenizer ← Advance tokenizer;
        trie_path_loop fuel tokenizer tokenizedPath
  end.

Definition TokenizeTriePath (path : list byte) : Result (list TToken) :=
  let tokenizer := New path in
  _ ← Expect StartOfStream tokenizer;
  tokenizer ← Advance tokenizer;
  trie_path_loop (path_fuel path) tokenizer [].

(** ** State *)

Inductive ETrieNodeType : Set := Outlier | Intermediary | Leaf | AfterLeaf.
Inductive ETrieNestedPathPolicy : Set := Shorten | Extend.

#[export] Instance ETrieNodeType_eq_dec : EqDecision ETrieNodeType.
Proof. solve_decision. Defined.
#[export] Instance ETrieNestedPathPolicy_eq_dec : EqDecision ETrieNestedPathPolicy.
Proof. solve_decision. Defined.

(** A node and its [Next]. *)
Abbreviation TNode := (gmap TToken nat).

(** An element of the flat array: a token or a sentinel. *)
Inductive TFlat := FlatToken (token : TToken) | LeafSentinel | AfterLeafSentinel.

Inductive TState := Flat (tokens : list TFlat) | Nodes (nodes : list TNode).

(** [TTrieView::TState]: a pointer to an element of the array or the outlier sentinel, or a
    pointer to a node, null, or the sentinel node behind a leaf. *)
Inductive TViewState := FlatAt (position : nat) | FlatOutlier | NodeAt (position : nat) | NodeNull | NodeAfterLeaf.

Record TTrie := { NestedPathPolicy_ : ETrieNestedPathPolicy; State_ : TState; OwnedPaths_ : list (list byte); ViewState_ : TViewState }.

(** Dereference. *)
Definition flat_at (state : TState) (position : nat) : Result TFlat :=
  match state with Flat tokens => match tokens !! position with Some token => Ok token | None => Crash end | Nodes _ => Crash end.
Definition node_at (state : TState) (position : nat) : Result TNode :=
  match state with Nodes nodes => match nodes !! position with Some node => Ok node | None => Crash end | Flat _ => Crash end.

(** ** Views *)

Definition VisitInplace (state : TState) (token : TToken) (view : TViewState) : Result (TViewState * TToken) :=
  match view with
  | FlatOutlier => Ok (view, [])
  | FlatAt position =>
      nextToken ← flat_at state position;
      match nextToken with
      | AfterLeafSentinel => Ok (view, [])
      | LeafSentinel => Ok (FlatAt (S position), [])
      | FlatToken next => if bool_decide (next = token) then Ok (FlatAt (S position), next) else Ok (FlatOutlier, [])
      end
  | NodeNull | NodeAfterLeaf => Ok (view, [])
  | NodeAt position =>
      currentNode ← node_at state position;
      match currentNode !! token with
      | Some nextNode => Ok (NodeAt nextNode, token)
      | None => if bool_decide (currentNode = ∅) then Ok (NodeAfterLeaf, []) else Ok (NodeNull, [])
      end
  end.

Definition Visit (state : TState) (token : TToken) (view : TViewState) : Result TViewState :=
  '(view, _) ← VisitInplace state token view; Ok view.

Fixpoint VisitTokens (state : TState) (tokens : list TToken) (view : TViewState) : Result TViewState :=
  match tokens with [] => Ok view | token :: tokens => view ← Visit state token view; VisitTokens state tokens view end.

Definition VisitPath (state : TState) (path : list byte) (view : TViewState) : Result TViewState :=
  tokens ← TokenizeTriePath path; VisitTokens state tokens view.

Definition GetType (state : TState) (view : TViewState) : Result ETrieNodeType :=
  match view with
  | FlatOutlier => Ok Outlier
  | FlatAt position =>
      nextToken ← flat_at state position;
      Ok match nextToken with AfterLeafSentinel => AfterLeaf | LeafSentinel => Leaf | FlatToken _ => Intermediary end
  | NodeNull => Ok Outlier
  | NodeAfterLeaf => Ok AfterLeaf
  | NodeAt position => currentNode ← node_at state position; Ok (if bool_decide (currentNode = ∅) then Leaf else Intermediary)
  end.

(** [TTrieTraversalFrame]. *)
Record TTrieTraversalFrame := { View_ : TViewState; VisitedTokens_ : gset TToken }.

Definition Traverse (view : TViewState) : TTrieTraversalFrame := {| View_ := view; VisitedTokens_ := ∅ |}.

Definition FrameVisit (state : TState) (token : TToken) (frame : TTrieTraversalFrame) : Result (TTrieTraversalFrame * TViewState) :=
  '(view, ownedToken) ← VisitInplace state token (View_ frame);
  type ← GetType state view;
  if negb (bool_decide (type = Outlier)) && negb (bool_decide (type = AfterLeaf)) then
    Ok ({| View_ := View_ frame; VisitedTokens_ := {[ ownedToken ]} ∪ VisitedTokens_ frame |}, view)
  else Ok (frame, view).

(** The keys of a map in their order. *)
Definition token_le (a b : TToken) : Prop := string_compare a b <= 0.
#[export] Instance token_le_dec : RelDecision token_le.
Proof. intros a b. unfold token_le. apply _. Defined.
Definition ordered_tokens (node : TNode) : list TToken := merge_sort token_le (elements (dom node)).

Definition GetUnvisitedTokens (state : TState) (frame : TTrieTraversalFrame) : Result (list TToken) :=
  type ← GetType state (View_ frame);
  if negb (bool_decide (type = Intermediary)) then Ok []
  else
    match View_ frame with
    | FlatAt position =>
        nextToken ← flat_at state position;
        match nextToken with FlatToken next => if bool_decide (VisitedTokens_ frame = ∅) then Ok [next] else Ok [] | _ => Ok [] end
    | NodeAt position =>
        currentNode ← node_at state position;
        if Nat.eqb (size currentNode) (size (VisitedTokens_ frame)) then Ok []
        else Ok (List.filter (λ token, negb (bool_decide (token ∈ VisitedTokens_ frame))) (ordered_tokens currentNode))
    | _ => Ok []
    end.

(** Nodes are as deep as the deque is long, a flat trie as its array. *)
Definition nested_fuel (state : TState) : nat := S (match state with Flat tokens => length tokens | Nodes nodes => length nodes end).

Fixpoint nested_paths (fuel : nat) (state : TState) (prefix : list byte) (view : TViewState) : Result (list (list byte)) :=
  match fuel with
  | O => OutOfFuel
  | S fuel =>
      type ← GetType state view;
      if bool_decide (type = Leaf) then Ok [prefix]
      else if negb (bool_decide (type = Intermediary)) then Ok []
      else
        tokens ← GetUnvisitedTokens state (Traverse view);
        (fix each (tokens : list TToken) (nestedPaths : list (list byte)) : Result (list (list byte)) :=
           match tokens with
           | [] => Ok nestedPaths
           | token :: tokens =>
               view ← Visit state token view;
               paths ← nested_paths fuel state (YPathJoin prefix [token]) view;
               each tokens (nestedPaths ++ paths)
           end) tokens []
  end.

Definition GetNestedPaths (trie : TTrie) (prefix : list byte) : Result (list (list byte)) :=
  nested_paths (nested_fuel (State_ trie)) (State_ trie) prefix (ViewState_ trie).

(** ** Building *)

(** [addNodePath]: the loop from the node [current] on. *)
Fixpoint add_node_loop (policy : ETrieNestedPathPolicy) (createdNode : bool) (current : nat) (tokenizedPath : list TToken) (nodes : list TNode)
    : Result (list TNode * nat) :=
  match tokenizedPath with
  | [] => Ok (nodes, current)
  | token :: tokenizedPath =>
      node ← node_at (Nodes nodes) current;
      if negb createdNode && bool_decide (node = ∅) && bool_decide (policy = Shorten) then Ok (nodes, current)
      else
        match node !! token with
        | Some next => add_node_loop policy createdNode next tokenizedPath nodes
        | None =>
            let next := length nodes in
            add_node_loop policy true next tokenizedPath (<[current := <[token := next]> node]> nodes ++ [∅])
        end
  end.

Definition addNodePath (policy : ETrieNestedPathPolicy) (tokenizedPath : list TToken) (nodes : list TNode) : Result (list TNode) :=
  let '(nodes, createdNode) := match nodes with [] => ([∅], true) | _ => (nodes, false) end in
  '(nodes, current) ← add_node_loop policy createdNode 0 tokenizedPath nodes;
  Ok (if bool_decide (policy = Shorten) then <[current := ∅]> nodes else nodes).

(** The tokens of a flat array: [pop_back] twice. *)
Definition flat_tokens (tokens : list TFlat) : Result (list TToken) :=
  mapM (λ token, match token with FlatToken token => Ok token | _ => Crash end) (take (length tokens - 2) tokens).

Definition AddPathUnsafe (policy : ETrieNestedPathPolicy) (tokenizedPath : list TToken) (state : TState) : Result TState :=
  state ← match state with
          | Flat ((_ :: _) as tokens) => path ← flat_tokens tokens; nodes ← addNodePath policy path []; Ok (Nodes nodes)
          | _ => Ok state
          end;
  match state with
  | Flat _ => Ok (Flat (map FlatToken tokenizedPath ++ [LeafSentinel; AfterLeafSentinel]))
  | Nodes nodes => nodes ← addNodePath policy tokenizedPath nodes; Ok (Nodes nodes)
  end.

Definition UpdateRoot (trie : TTrie) : TTrie :=
  {| NestedPathPolicy_ := NestedPathPolicy_ trie; State_ := State_ trie; OwnedPaths_ := OwnedPaths_ trie;
     ViewState_ := match State_ trie with
                   | Flat [] => FlatOutlier
                   | Flat _ => FlatAt 0
                   | Nodes [] => NodeNull
                   | Nodes _ => NodeAt 0
                   end |}.

(** Adding to the trie without its root. *)
Definition add_state (policy : ETrieNestedPathPolicy) (path : list byte) (state : TState) : Result TState :=
  tokens ← TokenizeTriePath path; AddPathUnsafe policy tokens state.

Fixpoint add_states (policy : ETrieNestedPathPolicy) (paths : list (list byte)) (state : TState) : Result TState :=
  match paths with [] => Ok state | path :: paths => state ← add_state policy path state; add_states policy paths state end.

Definition NewTrie (paths : list (list byte)) (enableFlattening : bool) (policy : ETrieNestedPathPolicy) : Result TTrie :=
  state ← add_states policy paths (if enableFlattening && (length paths <? 2)%nat then Flat [] else Nodes []);
  Ok (UpdateRoot {| NestedPathPolicy_ := policy; State_ := state; OwnedPaths_ := paths; ViewState_ := FlatOutlier |}).

Definition AddPath (path : list byte) (trie : TTrie) : Result TTrie :=
  state ← add_state (NestedPathPolicy_ trie) path (State_ trie);
  Ok (UpdateRoot {| NestedPathPolicy_ := NestedPathPolicy_ trie; State_ := state; OwnedPaths_ := OwnedPaths_ trie ++ [path]; ViewState_ := ViewState_ trie |}).

Fixpoint AddPaths (paths : list (list byte)) (trie : TTrie) : Result TTrie :=
  match paths with [] => Ok trie | path :: paths => trie ← AddPath path trie; AddPaths paths trie end.

Definition Merge (other trie : TTrie) : Result TTrie := AddPaths (OwnedPaths_ other) trie.

Definition IsFlat (trie : TTrie) : bool := match State_ trie with Flat _ => true | Nodes _ => false end.
Definition IsEmpty (trie : TTrie) : Result bool := type ← GetType (State_ trie) (ViewState_ trie); Ok (bool_decide (type = Outlier)).

(** [Clear] leaves the root of the view alone. *)
Definition Clear (enableFlattening : bool) (trie : TTrie) : TTrie :=
  {| NestedPathPolicy_ := NestedPathPolicy_ trie; State_ := if enableFlattening then Flat [] else Nodes []; OwnedPaths_ := []; ViewState_ := ViewState_ trie |}.

(** The copy constructor and the assignment of another trie. *)
Definition Copy (other : TTrie) : Result TTrie := NewTrie (OwnedPaths_ other) (IsFlat other) (NestedPathPolicy_ other).

Definition Assign (other trie : TTrie) : Result TTrie :=
  trie ← Merge other (Clear (IsFlat other) trie);
  Ok {| NestedPathPolicy_ := NestedPathPolicy_ other; State_ := State_ trie; OwnedPaths_ := OwnedPaths_ trie; ViewState_ := ViewState_ trie |}.

(** ** The specification: what a set of paths says about a path *)

Section Spec.
Context (policy : ETrieNestedPathPolicy).

(** A proper prefix. *)
Definition below (x y : list TToken) : Prop := x `prefix_of` y ∧ x ≠ y.
#[export] Instance below_dec x y : Decision (below x y).
Proof. unfold below. apply _. Defined.

(** The nodes: prefixes of the paths, under [Shorten] only up to the shortest path on the way. *)
Definition in_trie (paths : list (list TToken)) (x : list TToken) : Prop :=
  Exists (λ p, x `prefix_of` p) paths ∧ (policy = Shorten → Forall (λ q, ¬ below q x) paths).

(** A leaf: a path of the set, or under [Extend] one that no other path extends. *)
Definition is_leaf (paths : list (list TToken)) (x : list TToken) : Prop :=
  in_trie paths x ∧ match policy with Shorten => x ∈ paths | Extend => Forall (λ p, ¬ below x p) paths end.

#[export] Instance in_trie_dec paths x : Decision (in_trie paths x).
Proof. unfold in_trie. apply _. Defined.
#[export] Instance is_leaf_dec paths x : Decision (is_leaf paths x).
Proof. unfold is_leaf. destruct policy; apply _. Defined.

Definition prefixes (x : list TToken) : list (list TToken) := map (λ n, take n x) (seq 0 (length x)).

Definition spec_type (paths : list (list TToken)) (x : list TToken) : ETrieNodeType :=
  if bool_decide (in_trie paths x) then if bool_decide (is_leaf paths x) then Leaf else Intermediary
  else if bool_decide (Exists (is_leaf paths) (prefixes x)) then AfterLeaf else Outlier.

Lemma elem_of_prefixes x y : y ∈ prefixes x ↔ below y x.
Proof.
  unfold prefixes, below. rewrite list_elem_of_In, in_map_iff. split.
  - intros (n & <- & Hn%in_seq). split; [apply prefix_take|]. intros E. apply (f_equal length) in E. rewrite length_take in E. lia.
  - intros [[z ->] Hne]. exists (length y). split; [by rewrite take_app_length|]. apply in_seq. rewrite length_app. destruct z; [by rewrite app_nil_r in Hne|]. simpl. lia.
Qed.

Lemma Exists_leaf paths x : Exists (is_leaf paths) (prefixes x) ↔ ∃ y, below y x ∧ is_leaf paths y.
Proof. rewrite list.Exists_exists. split; intros (y & Hy & ?); exists y; (split; [by apply elem_of_prefixes|done]). Qed.

Lemma below_snoc y x token : below y (x ++ [token]) ↔ y `prefix_of` x.
Proof.
  unfold below. split.
  - intros [[z E] Hne]. destruct z as [|u z _] using rev_ind; [by rewrite app_nil_r in E|]. rewrite app_assoc in E. apply app_inj_tail in E as [-> _].
    by exists z.
  - intros [z ->]. split; [exists (z ++ [token]); by rewrite app_assoc|]. intros E. apply (f_equal length) in E. rewrite !length_app in E. simpl in E. lia.
Qed.

Lemma in_trie_prefix paths x y : in_trie paths y → x `prefix_of` y → in_trie paths x.
Proof.
  intros [Hex Hsh] Hxy. split.
  - eapply list.Exists_impl; [done|]. intros p Hp. by etrans.
  - intros Hp. eapply list.Forall_impl; [by apply Hsh|]. intros q Hq [Hqx Hne]. apply Hq. split; [by etrans|]. intros ->. apply Hne.
    by apply (anti_symm prefix).
Qed.

(** A leaf has no children; an inner node has one. *)
Lemma leaf_children paths x : in_trie paths x → (is_leaf paths x ↔ ∀ token, ¬ in_trie paths (x ++ [token])).
Proof.
  intros Hx. split.
  - intros [_ Hl] token [Hex Hsh]. unfold is_leaf in Hl. destruct policy eqn:Ep.
    + specialize (Hsh eq_refl). rewrite list.Forall_forall in Hsh. apply (Hsh x Hl). by apply below_snoc.
    + apply list.Exists_exists in Hex as (p & Hp & Hxp). rewrite list.Forall_forall in Hl. apply (Hl p Hp). split.
      * etrans; [|exact Hxp]. by exists [token].
      * intros ->. apply prefix_length in Hxp. rewrite length_app in Hxp. simpl in Hxp. lia.
  - intros Hno. split; [done|]. pose proof Hx as [Hex Hsh]. destruct policy eqn:Ep.
    + specialize (Hsh eq_refl). destruct (decide (x ∈ paths)) as [|Hnx]; [done|]. exfalso. apply list.Exists_exists in Hex as (p & Hp & [z ->]).
      destruct z as [|token z]; [by rewrite app_nil_r in Hp|]. apply (Hno token). split.
      * apply list.Exists_exists. exists (x ++ token :: z). split; [done|]. exists z. by rewrite <- app_assoc.
      * intros _. apply list.Forall_forall. intros q Hq Hb%below_snoc. destruct (decide (q = x)) as [->|Hqx]; [done|].
        rewrite list.Forall_forall in Hsh. by apply (Hsh q Hq).
    + apply list.Forall_forall. intros p Hp [[z ->] Hne]. destruct z as [|token z]; [by rewrite app_nil_r in Hne|]. apply (Hno token). split; [|congruence].
      apply list.Exists_exists. exists (x ++ token :: z). split; [done|]. exists z. by rewrite <- app_assoc.
Qed.

(** How the type changes with one more token. *)
Lemma spec_type_snoc paths x token : spec_type paths (x ++ [token]) =
  match spec_type paths x with
  | Leaf | AfterLeaf => AfterLeaf
  | Outlier => Outlier
  | Intermediary =>
      if bool_decide (in_trie paths (x ++ [token])) then if bool_decide (is_leaf paths (x ++ [token])) then Leaf else Intermediary else Outlier
  end.
Proof.
  unfold spec_type. destruct (decide (in_trie paths x)) as [Hx|Hx].
  - rewrite (bool_decide_eq_true_2 _ Hx). assert (∀ y, below y x → ¬ is_leaf paths y) as Hbelow.
    { intros y [[z ->] Hne] Hl. destruct z as [|token' z]; [by rewrite app_nil_r in Hne|].
      pose proof (in_trie_prefix _ y _ Hx ltac:(by exists (token' :: z))) as Hy. apply (proj1 (leaf_children paths y Hy) Hl token').
      apply (in_trie_prefix _ _ _ Hx). exists z. by rewrite <- app_assoc. }
    destruct (decide (is_leaf paths x)) as [Hl|Hl].
    + rewrite (bool_decide_eq_true_2 _ Hl). rewrite bool_decide_eq_false_2 by (by apply (proj1 (leaf_children paths x Hx) Hl)). rewrite bool_decide_eq_true_2; [done|].
      apply Exists_leaf. exists x. by rewrite below_snoc.
    + rewrite (bool_decide_eq_false_2 _ Hl). case_bool_decide; [done|]. rewrite bool_decide_eq_false_2; [done|]. rewrite Exists_leaf.
      intros (y & Hy%below_snoc & Hly). destruct (decide (y = x)) as [->|Hne]; [done|]. by apply (Hbelow y).
  - rewrite (bool_decide_eq_false_2 _ Hx). rewrite bool_decide_eq_false_2 by (intros H; apply Hx; apply (in_trie_prefix _ _ _ H); by exists [token]).
    assert (Exists (is_leaf paths) (prefixes (x ++ [token])) ↔ Exists (is_leaf paths) (prefixes x)) as Hiff.
    { rewrite !Exists_leaf. split; intros (y & Hy & Hl); exists y; (split; [|done]).
      - apply below_snoc in Hy. split; [done|]. intros ->. by destruct Hl.
      - apply below_snoc. apply Hy. }
    rewrite (bool_decide_ext _ _ Hiff). by case_bool_decide.
Qed.
End Spec.

(** ** The deque of nodes as a set of token sequences *)

Definition child (nodes : list TNode) (position : nat) (token : TToken) : option nat := nodes !! position ≫= λ node, node !! token.

(** The node behind a sequence of tokens. *)
Definition follow (nodes : list TNode) (x : list TToken) : option nat := foldl (λ position token, position ≫= λ position, child nodes position token) (Some 0%nat) x.

Lemma follow_snoc nodes x token : follow nodes (x ++ [token]) = follow nodes x ≫= λ position, child nodes position token.
Proof. unfold follow. by rewrite foldl_app. Qed.

(** The deque is a tree whose nodes are the sequences in [N]. *)
Record represents (nodes : list TNode) (N : list TToken → Prop) : Prop := {
  rep_nodes : ∀ x, is_Some (follow nodes x) ↔ N x;
  rep_inj : ∀ x y position, follow nodes x = Some position → follow nodes y = Some position → x = y;
  rep_valid : ∀ x position, follow nodes x = Some position → (position < length nodes)%nat
}.

Lemma represents_ext nodes N N' : (∀ x, N x ↔ N' x) → represents nodes N → represents nodes N'.
Proof. intros H [H1 H2 H3]. split; [|done..]. intros x. by rewrite H1. Qed.

Lemma rep_closed nodes N x token : represents nodes N → N (x ++ [token]) → N x.
Proof. intros [H _ _]. rewrite <- !H, follow_snoc. destruct (follow nodes x); [by eexists|]. by intros []. Qed.

Lemma rep_prefix nodes N x y : represents nodes N → N y → x `prefix_of` y → N x.
Proof.
  intros Hr Hy [z ->]. induction z as [|token z IH] using rev_ind; [by rewrite app_nil_r in Hy|]. apply IH. rewrite app_assoc in Hy. by eapply rep_closed.
Qed.

(** The node at a sequence, and its children. *)
Lemma rep_node nodes N x position : represents nodes N → follow nodes x = Some position →
  ∃ node, nodes !! position = Some node ∧ (∀ token, follow nodes (x ++ [token]) = node !! token) ∧ (node = ∅ ↔ ∀ token, ¬ N (x ++ [token])).
Proof.
  intros Hr Hf. destruct (lookup_lt_is_Some_2 nodes position (rep_valid _ _ Hr _ _ Hf)) as [node Hn]. exists node.
  assert (∀ token, follow nodes (x ++ [token]) = node !! token) as Hc by (intros token; rewrite follow_snoc, Hf; simpl; unfold child; by rewrite Hn).
  split_and!; [done|done|]. split.
  - intros -> token H. apply (rep_nodes _ _ Hr) in H as [j Hj]. rewrite Hc, lookup_empty in Hj. done.
  - intros Hno. apply map_empty. intros token. apply eq_None_not_Some. rewrite <- Hc. rewrite (rep_nodes _ _ Hr). apply Hno.
Qed.

Lemma represents_root : represents [∅] (λ y, y = []).
Proof.
  assert (∀ x, follow [∅] x = if decide (x = []) then Some 0%nat else None) as H.
  { intros x. induction x as [|token x IH] using rev_ind; [done|]. rewrite follow_snoc, IH. destruct (decide (x ++ [token] = [])); [by destruct x|].
    by destruct (decide (x = [])). }
  split.
  - intros x. rewrite H. destruct (decide (x = [])); (split; [|done]); [done|by intros []].
  - intros x y i. rewrite !H. by destruct (decide (x = [])), (decide (y = [])); intros; subst.
  - intros x i. rewrite H. destruct (decide (x = [])); [|done]. intros [= <-]. simpl. lia.
Qed.

Lemma follow_add nodes N x token position node : represents nodes N → follow nodes x = Some position → nodes !! position = Some node → node !! token = None →
  ∀ y, follow (<[position := <[token := length nodes]> node]> nodes ++ [∅]) y = if decide (y = x ++ [token]) then Some (length nodes) else follow nodes y.
Proof.
  intros Hr Hx Hn Ht. set (nodes' := <[position := _]> nodes ++ [∅]).
  assert (follow nodes (x ++ [token]) = None) as Hnone by (rewrite follow_snoc, Hx; simpl; unfold child; by rewrite Hn).
  pose proof (rep_valid _ _ Hr _ _ Hx) as Hlt.
  intros y. induction y as [|u y IH] using rev_ind; [by destruct (decide ([] = x ++ [token])) as [E|]; [destruct x|]|].
  rewrite !follow_snoc, IH. destruct (decide (y = x ++ [token])) as [->|Hy].
  - rewrite decide_False by (intros E; apply (f_equal length) in E; rewrite !length_app in E; simpl in E; lia). rewrite Hnone. simpl. unfold child, nodes'.
    rewrite lookup_app_r by (rewrite length_insert; lia). by rewrite length_insert, Nat.sub_diag.
  - destruct (follow nodes y) as [j|] eqn:Ey; simpl.
    + pose proof (rep_valid _ _ Hr _ _ Ey) as Hj. unfold child, nodes'. rewrite lookup_app_l by (rewrite length_insert; lia).
      destruct (decide (j = position)) as [->|Hjp].
      * pose proof (rep_inj _ _ Hr _ _ _ Ey Hx) as ->. rewrite list_lookup_insert_eq by lia. simpl. destruct (decide (u = token)) as [->|Hu].
        -- rewrite lookup_insert_eq. by rewrite decide_True by done.
        -- rewrite lookup_insert_ne by done. rewrite Hn. rewrite decide_False by (intros E; by apply app_inj_tail in E as [_ ?]). done.
      * rewrite list_lookup_insert_ne by done. rewrite decide_False by (intros E; apply app_inj_tail in E as [-> _]; congruence). done.
    + rewrite decide_False by (intros E; apply app_inj_tail in E as [-> _]; congruence). done.
Qed.

Lemma represents_add nodes N x token position node : represents nodes N → follow nodes x = Some position → nodes !! position = Some node → node !! token = None →
  represents (<[position := <[token := length nodes]> node]> nodes ++ [∅]) (λ y, N y ∨ y = x ++ [token]).
Proof.
  intros Hr Hx Hn Ht. pose proof (follow_add nodes N x token position node Hr Hx Hn Ht) as Hf. set (nodes' := <[position := _]> nodes ++ [∅]) in *.
  assert (length nodes' = S (length nodes)) as Hl by (unfold nodes'; rewrite length_app, length_insert; simpl; lia). split.
  - intros y. rewrite Hf, <- (rep_nodes _ _ Hr). destruct (decide (y = x ++ [token])) as [->|Hy]; split; eauto. by intros [?|?].
  - intros y1 y2 i. rewrite !Hf. destruct (decide (y1 = x ++ [token])) as [->|Hy1], (decide (y2 = x ++ [token])) as [->|Hy2]; try done.
    + intros [= <-] H. apply (rep_valid _ _ Hr) in H. lia.
    + intros H [= <-]. apply (rep_valid _ _ Hr) in H. lia.
    + by apply (rep_inj _ _ Hr).
  - intros y i. rewrite Hf, Hl. destruct (decide (y = x ++ [token])); [intros [= <-]; lia|]. intros H%(rep_valid _ _ Hr). lia.
Qed.

Lemma follow_clear nodes N x position : represents nodes N → follow nodes x = Some position →
  ∀ y, follow (<[position := ∅]> nodes) y = if decide (below x y) then None else follow nodes y.
Proof.
  intros Hr Hx. pose proof (rep_valid _ _ Hr _ _ Hx) as Hlt. intros y. induction y as [|u y IH] using rev_ind.
  { rewrite decide_False; [done|]. intros [[z E] Hne]. by apply Hne; destruct x. }
  rewrite !follow_snoc, IH. destruct (decide (below x y)) as [Hb|Hb].
  - rewrite decide_True; [done|]. apply below_snoc, Hb.
  - destruct (follow nodes y) as [j|] eqn:Ey; simpl; [|by case_decide]. unfold child. destruct (decide (j = position)) as [->|Hj].
    + pose proof (rep_inj _ _ Hr _ _ _ Ey Hx) as ->. rewrite list_lookup_insert_eq by lia. simpl. rewrite decide_True; [done|]. by apply below_snoc.
    + rewrite list_lookup_insert_ne by done. rewrite decide_False; [done|]. rewrite below_snoc. intros Hp. apply Hb. split; [done|]. intros ->. congruence.
Qed.

Lemma represents_clear nodes N x position : represents nodes N → follow nodes x = Some position →
  represents (<[position := ∅]> nodes) (λ y, N y ∧ ¬ below x y).
Proof.
  intros Hr Hx. pose proof (follow_clear nodes N x position Hr Hx) as Hf. split.
  - intros y. rewrite Hf, <- (rep_nodes _ _ Hr). destruct (decide (below x y)); split; [by intros []|by intros [_ ?]|done|by intros [? _]].
  - intros y1 y2 i. rewrite !Hf. destruct (decide (below x y1)), (decide (below x y2)); try done. by apply (rep_inj _ _ Hr).
  - intros y i. rewrite Hf, length_insert. destruct (decide (below x y)); [done|]. by apply (rep_valid _ _ Hr).
Qed.

(** ** Adding a path *)

(** The loop ends at the whole path, or under [Shorten] at a leaf on the way. *)
Definition loop_ends (policy : ETrieNestedPathPolicy) (createdNode : bool) (N : list TToken → Prop) (x path z : list TToken) : Prop :=
  (z = path ∧ (policy = Shorten → createdNode = false → ∀ w, below w path → N (x ++ w) → ∃ token, N (x ++ w ++ [token]))) ∨
  (policy = Shorten ∧ createdNode = false ∧ below z path ∧ N (x ++ z) ∧ ∀ token, ¬ N (x ++ z ++ [token])).

Lemma below_cons token w path : below (token :: w) (token :: path) ↔ below w path.
Proof.
  unfold below. split; intros [Hp Hne]; split.
  - by apply prefix_cons_inv_2 in Hp.
  - congruence.
  - by apply prefix_cons.
  - congruence.
Qed.

Lemma prefix_app_cases (y x z : list TToken) : y `prefix_of` x ++ z → y `prefix_of` x ∨ ∃ w, y = x ++ w ∧ w `prefix_of` z.
Proof.
  intros Hy. destruct (prefix_weak_total y x (x ++ z) Hy ltac:(by apply prefix_app_r)) as [?|[w ->]]; [by left|right].
  exists w. split; [done|]. by apply prefix_app_inv in Hy.
Qed.

Lemma add_node_loop_spec policy path : ∀ createdNode current x nodes N, represents nodes N → follow nodes x = Some current →
  (createdNode = true → ∀ token, ¬ N (x ++ [token])) →
  ∃ nodes' current' z, add_node_loop policy createdNode current path nodes = Ok (nodes', current') ∧ follow nodes' (x ++ z) = Some current' ∧
    represents nodes' (λ y, N y ∨ y `prefix_of` x ++ z) ∧ loop_ends policy createdNode N x path z.
Proof.
  induction path as [|token path IH]; intros createdNode current x nodes N Hr Hx Hcr.
  { exists nodes, current, []. split_and!; [done|by rewrite app_nil_r| |left; split; [done|]; intros _ _ w [Hw%prefix_nil_inv Hne]; done].
    apply (represents_ext nodes N); [|done]. intros y. split; [by left|]. intros [?|Hy]; [done|]. rewrite app_nil_r in Hy.
    eapply rep_prefix; [done| |done]. apply (rep_nodes _ _ Hr). eauto. }
  destruct (rep_node _ _ _ _ Hr Hx) as (node & Hn & Hch & Hempty). assert (N x) as HNx by (apply (rep_nodes _ _ Hr); eauto).
  cbn [add_node_loop]. unfold node_at. rewrite Hn. run_bind.
  destruct (negb createdNode && bool_decide (node = ∅) && bool_decide (policy = Shorten)) eqn:Ebreak.
  { apply andb_prop in Ebreak as [[E1%negb_true_iff E2%bool_decide_eq_true]%andb_prop E3%bool_decide_eq_true]. exists nodes, current, [].
    split_and!; [done|by rewrite app_nil_r| |].
    - apply (represents_ext nodes N); [|done]. intros y. split; [by left|]. intros [?|Hy]; [done|]. rewrite app_nil_r in Hy. by eapply rep_prefix.
    - right. split_and!; [done|done| |by rewrite app_nil_r|]. { split; [apply prefix_nil|done]. } intros token'. simpl. by apply Hempty. }
  assert (∀ z, x ++ token :: z = (x ++ [token]) ++ z) as Hassoc by (intros; by rewrite <- app_assoc).
  destruct (node !! token) as [next|] eqn:Et.
  - assert (follow nodes (x ++ [token]) = Some next) as Hf by (by rewrite Hch). assert (N (x ++ [token])) as HN by (apply (rep_nodes _ _ Hr); eauto).
    destruct (IH createdNode next (x ++ [token]) nodes N Hr Hf) as (nodes2 & current2 & z & E & Hf2 & Hr2 & Hends); [intros Hc; by destruct (Hcr Hc token)|].
    exists nodes2, current2, (token :: z). rewrite Hassoc. split_and!; [done..|]. destruct Hends as [[-> Hw]|(Hp & Hc & Hb & HNz & Hno)].
    + left. split; [done|]. intros Hp Hc [|u w] Hbw HNw; [by exists token|]. pose proof (proj1 Hbw) as Hpre. apply prefix_cons_inv_1 in Hpre as ->.
      apply below_cons in Hbw. rewrite Hassoc in HNw. destruct (Hw Hp Hc w Hbw HNw) as [token' Ht']. exists token'. simpl. by rewrite Hassoc.
    + right. split_and!; [done|done|by apply below_cons|by rewrite Hassoc|]. intros token'. simpl. rewrite Hassoc. apply Hno.
  - assert (¬ N (x ++ [token])) as HN by (rewrite <- (rep_nodes _ _ Hr), Hch, Et; by intros []).
    assert (∀ w, ¬ N (x ++ token :: w)) as HNw by (intros w H; apply HN; eapply rep_prefix; [exact Hr|exact H|]; exists w; apply Hassoc).
    pose proof (represents_add nodes N x token current node Hr Hx Hn Et) as Hr'. pose proof (follow_add nodes N x token current node Hr Hx Hn Et (x ++ [token])) as Hf'.
    rewrite decide_True in Hf' by done.
    destruct (IH true (length nodes) (x ++ [token]) _ _ Hr' Hf') as (nodes2 & current2 & z & E & Hf2 & Hr2 & Hends).
    { intros _ token' [H|H]; [by apply (HNw [token']); rewrite Hassoc|]. apply (f_equal length) in H. rewrite !length_app in H. simpl in H. lia. }
    exists nodes2, current2, (token :: z). rewrite Hassoc. split_and!; [done|done| |].
    + eapply represents_ext; [|exact Hr2]. intros y. split; [|tauto]. intros [[?| ->]|?]; [by left| |by right]. right. by apply prefix_app_r.
    + destruct Hends as [[-> _]|(_ & ? & _)]; [|done]. left. split; [done|]. intros Hp Hc [|u w] Hbw HNxw.
      * rewrite Hc, (bool_decide_eq_true_2 _ Hp), andb_true_r in Ebreak. simpl in Ebreak. apply bool_decide_eq_false in Ebreak.
        destruct (map_choose node Ebreak) as (token' & j & Hj). exists token'. simpl. apply (rep_nodes _ _ Hr). rewrite Hch. eauto.
      * pose proof (proj1 Hbw) as Hpre. apply prefix_cons_inv_1 in Hpre as ->. by apply HNw in HNxw.
Qed.

Lemma in_trie_nil policy x : ¬ in_trie policy [] x.
Proof. intros [H _]. by inversion H. Qed.

Lemma in_trie_one policy path x : in_trie policy [path] x ↔ x `prefix_of` path.
Proof.
  unfold in_trie. rewrite Exists_cons, Exists_nil, Forall_singleton. split; [by intros [[?|?] _]|]. intros Hx. split; [by left|]. intros _ [Hp Hne].
  apply Hne. by apply (anti_symm prefix).
Qed.

(** Of the paths in front of a path, there is a shortest. *)
Lemma shortest_path paths q : q ∈ paths → ∃ w, w `prefix_of` q ∧ w ∈ paths ∧ in_trie Shorten paths w.
Proof.
  remember (length q) as n eqn:En. revert q En. induction (lt_wf n) as [n _ IH]. intros q -> Hq.
  destruct (decide (Exists (λ p, below p q) paths)) as [Hex|Hno].
  - apply list.Exists_exists in Hex as (p & Hp & [Hpq Hne]). destruct (IH (length p)) with (q := p) as (w & Hw & ? & ?); [|done..|].
    { destruct Hpq as [r ->]. rewrite length_app. destruct r; [by rewrite app_nil_r in Hne|]. simpl. lia. }
    exists w. split_and!; [by etrans|done|done].
  - exists q. split_and!; [done|done|]. split; [apply list.Exists_exists; by exists q|]. intros _. apply list.Forall_forall. intros p Hp Hb. apply Hno.
    apply list.Exists_exists. eauto.
Qed.

(** The nodes after a path was added. *)
Lemma in_trie_added policy paths path z x : paths ≠ [] → in_trie policy paths [] → loop_ends policy false (in_trie policy paths) [] path z →
  ((in_trie policy paths x ∨ x `prefix_of` z) ∧ (policy = Shorten → ¬ below z x)) ↔ in_trie policy (paths ++ [path]) x.
Proof.
  intros Hne Hroot Hends. unfold in_trie at 2. rewrite Exists_app, Forall_app, Exists_cons, Exists_nil, Forall_singleton. destruct Hends as [[-> Hw]|(Hp & _ & Hb & HNz & Hno)].
  - split.
    + intros [[[Hex Hsh]|Hx] Hnb]; (split; [tauto|]); intros Hp; (split; [|by apply Hnb]); [by apply Hsh|].
      apply list.Forall_forall. intros q Hq Hqx. assert (below q path) as Hqp.
      { split; [etrans; [apply Hqx|done]|]. intros ->. apply (proj2 Hqx). by apply (anti_symm prefix); [apply Hqx|]. }
      (* The shortest path in front of q is a leaf on the way. *)
      assert (∃ w, w `prefix_of` q ∧ w ∈ paths ∧ in_trie policy paths w) as (w & Hwq & Hwp & Hwt) by (rewrite Hp; by apply shortest_path).
      assert (below w path) as Hwb.
      { split; [etrans; [exact Hwq|apply Hqp]|]. intros ->. apply (proj2 Hqp). apply (anti_symm prefix); [apply Hqp|done]. }
      destruct (Hw Hp eq_refl w Hwb Hwt) as [token Ht]. destruct Ht as [_ Hsh]. specialize (Hsh Hp). rewrite list.Forall_forall in Hsh. apply (Hsh w Hwp). by apply below_snoc.
    + intros [Hex Hsh]. split; [|intros Hp; by apply Hsh]. destruct Hex as [Hex|[Hx|?]]; [left; split; [done|]; intros Hp; by apply Hsh|by right|done].
  - assert (is_leaf policy paths z) as [_ Hleaf] by (apply (proj2 (leaf_children policy paths z HNz)); intros token; apply Hno). rewrite Hp in Hleaf.
    pose proof HNz as [_ Hshz]. split.
    + intros [Hx Hnb]. specialize (Hnb Hp). assert (in_trie policy paths x) as [Hex Hsh] by (destruct Hx as [?|Hx]; [done|by eapply in_trie_prefix]).
      split; [by left|]. intros _. split; [by apply Hsh|]. intros Hpx. specialize (Hsh Hp). rewrite list.Forall_forall in Hsh. apply (Hsh z Hleaf).
      split; [etrans; [apply Hb|apply Hpx]|]. intros ->. apply (proj2 Hb). apply (anti_symm prefix); [apply Hb|apply Hpx].
    + intros [Hex Hsh]. destruct (Hsh Hp) as [Hsh1 Hsh2]. assert (¬ below z x) as Hzx by (rewrite list.Forall_forall in Hsh1; by apply Hsh1). split; [|done].
      left. split; [|done]. destruct Hex as [Hex|[Hx|?]]; [done| |done]. apply list.Exists_exists. exists z. split; [done|].
      destruct (prefix_weak_total x z path Hx (proj1 Hb)) as [?|Hzx']; [done|]. destruct (decide (z = x)) as [->|Hzne]; [done|]. by destruct Hzx.
Qed.

Lemma addNodePath_spec policy paths path nodes :
  (paths = [] ∧ nodes = []) ∨ (paths ≠ [] ∧ represents nodes (in_trie policy paths)) →
  ∃ nodes', addNodePath policy path nodes = Ok nodes' ∧ represents nodes' (in_trie policy (paths ++ [path])).
Proof.
  intros [[-> ->]|[Hne Hr]]; unfold addNodePath.
  - destruct (add_node_loop_spec policy path true 0 [] [∅] _ represents_root eq_refl) as (nodes & current & z & -> & Hf & Hr & Hends); [by intros _ ? ?|].
    run_bind. eexists. split; [done|]. simpl in Hf, Hr. destruct Hends as [[-> _]|(_ & ? & _)]; [|done].
    assert (∀ y, (y = [] ∨ y `prefix_of` path) ↔ y `prefix_of` path) as Hy by (intros y; split; [intros [->|?]; [apply prefix_nil|done]|by right]).
    case_bool_decide.
    + eapply represents_ext; [|by eapply represents_clear]. intros y. simpl. rewrite Hy, in_trie_one. split; [tauto|]. intros Hp. split; [done|].
      intros [Hb Hne]. apply Hne. by apply (anti_symm prefix).
    + eapply represents_ext; [|exact Hr]. intros y. simpl. by rewrite Hy, in_trie_one.
  - assert (in_trie policy paths []) as Hroot.
    { split; [destruct paths as [|p paths]; [done|]; left; apply prefix_nil|]. intros _. apply list.Forall_forall. intros q _ [Hq%prefix_nil_inv Hn]. done. }
    assert (follow nodes [] = Some 0%nat) as H0 by done.
    assert (nodes ≠ []) as Hnn by (intros ->; pose proof (rep_valid _ _ Hr [] 0%nat H0); simpl in *; lia). destruct nodes as [|n0 nodes]; [done|].
    destruct (add_node_loop_spec policy path false 0 [] (n0 :: nodes) _ Hr H0) as (nodes' & current & z & -> & Hf & Hr' & Hends); [done|].
    run_bind. eexists. split; [done|]. simpl in Hf, Hr'. pose proof (λ y, in_trie_added policy paths path z y Hne Hroot Hends) as Hadd. case_bool_decide as Hp.
    + eapply represents_ext; [|by eapply represents_clear]. intros y. simpl. rewrite <- Hadd. tauto.
    + eapply represents_ext; [|exact Hr']. intros y. simpl. rewrite <- Hadd. tauto.
Qed.

(** ** The state of a trie *)

Definition flat_array (path : list TToken) : list TFlat := map FlatToken path ++ [LeafSentinel; AfterLeafSentinel].

Definition state_inv (policy : ETrieNestedPathPolicy) (paths : list (list TToken)) (state : TState) : Prop :=
  match state with
  | Flat tokens => (paths = [] ∧ tokens = []) ∨ (∃ path, paths = [path] ∧ tokens = flat_array path)
  | Nodes nodes => (paths = [] ∧ nodes = []) ∨ (paths ≠ [] ∧ represents nodes (in_trie policy paths))
  end.

Lemma flat_tokens_array path : flat_tokens (flat_array path) = Ok path.
Proof.
  unfold flat_tokens, flat_array. rewrite length_app, Nat.add_sub, take_app_length.
  induction path as [|token path IH]; [done|]. cbn [map mapM]. run_bind. by rewrite IH.
Qed.

Lemma AddPathUnsafe_inv policy paths path state : state_inv policy paths state →
  ∃ state', AddPathUnsafe policy path state = Ok state' ∧ state_inv policy (paths ++ [path]) state'.
Proof.
  assert (∀ (paths : list (list TToken)) path, paths ++ [path] ≠ []) as Hne by (by intros []). intros Hs. unfold AddPathUnsafe. destruct state as [tokens|nodes].
  - destruct Hs as [[-> ->]|(path0 & -> & ->)]; simpl.
    + eexists. split; [done|]. right. by exists path.
    + destruct (flat_array path0) as [|f0 fs] eqn:Ef; [by destruct path0|]. rewrite <- Ef, flat_tokens_array. run_bind.
      destruct (addNodePath_spec policy [] path0 []) as (nodes & -> & Hr); [by left|]. run_bind. simpl in Hr.
      destruct (addNodePath_spec policy [path0] path nodes) as (nodes' & -> & Hr'); [by right|]. run_bind. eexists. split; [done|]. by right.
  - run_bind. destruct (addNodePath_spec policy paths path nodes Hs) as (nodes' & -> & Hr). run_bind. eexists. split; [done|]. right. split; [apply Hne|done].
Qed.

(** ** Views *)

Definition root_view (state : TState) : TViewState :=
  match state with Flat [] => FlatOutlier | Flat _ => FlatAt 0 | Nodes [] => NodeNull | Nodes _ => NodeAt 0 end.

(** A view behind the tokens [x] has the type that the set of paths gives. *)
Definition view_at (policy : ETrieNestedPathPolicy) (paths : list (list TToken)) (state : TState) (x : list TToken) (view : TViewState) : Prop :=
  match view, state with
  | NodeAt position, Nodes nodes => paths ≠ [] ∧ follow nodes x = Some position
  | FlatAt position, Flat _ => ∃ path, paths = [path] ∧ (x `prefix_of` path ∧ position = length x ∨ below path x ∧ position = S (length path))
  | NodeAfterLeaf, Nodes _ => spec_type policy paths x = AfterLeaf
  | NodeNull, Nodes _ | FlatOutlier, Flat _ => spec_type policy paths x = Outlier
  | _, _ => False
  end.

Lemma spec_type_nil policy x : spec_type policy [] x = Outlier.
Proof.
  unfold spec_type. rewrite bool_decide_eq_false_2 by apply in_trie_nil. rewrite bool_decide_eq_false_2; [done|].
  rewrite Exists_leaf. intros (y & _ & [Hy _]). by apply in_trie_nil in Hy.
Qed.

Lemma is_leaf_one policy path x : is_leaf policy [path] x ↔ x = path.
Proof.
  unfold is_leaf. rewrite in_trie_one. split.
  - intros [Hx Hl]. destruct policy; [by apply list_elem_of_singleton in Hl|]. apply Forall_inv in Hl. destruct (decide (x = path)) as [|Hne]; [done|]. by destruct Hl.
  - intros ->. split; [done|]. destruct policy; [by apply list_elem_of_singleton|]. constructor; [by intros [_ ?]|constructor].
Qed.

(** The type by a single path. *)
Lemma spec_type_one policy path x : spec_type policy [path] x =
  if decide (x = path) then Leaf else if decide (x `prefix_of` path) then Intermediary else if decide (path `prefix_of` x) then AfterLeaf else Outlier.
Proof.
  unfold spec_type. rewrite (bool_decide_ext _ _ (in_trie_one policy path x)), (bool_decide_ext _ _ (is_leaf_one policy path x)).
  destruct (decide (x = path)) as [->|Hne].
  - by rewrite !bool_decide_eq_true_2 by done.
  - destruct (decide (x `prefix_of` path)) as [Hp|Hp]; [by rewrite bool_decide_eq_true_2, bool_decide_eq_false_2 by done|].
    rewrite bool_decide_eq_false_2 by done. destruct (decide (path `prefix_of` x)) as [Hx|Hx].
    + rewrite bool_decide_eq_true_2; [done|]. apply Exists_leaf. exists path. split; [by split; [|congruence]|]. by apply is_leaf_one.
    + rewrite bool_decide_eq_false_2; [done|]. rewrite Exists_leaf. intros (y & [Hy _] & ->%is_leaf_one). done.
Qed.

Lemma flat_array_lookup path n : flat_array path !! n =
  match path !! n with Some token => Some (FlatToken token) | None =>
    if (n =? length path)%nat then Some LeafSentinel else if (n =? S (length path))%nat then Some AfterLeafSentinel else None end.
Proof.
  unfold flat_array. destruct (path !! n) as [token|] eqn:E.
  - rewrite lookup_app_l by (rewrite length_map; by eapply lookup_lt_Some). by rewrite list_lookup_fmap, E.
  - apply lookup_ge_None in E. rewrite lookup_app_r by (by rewrite length_map). rewrite length_map.
    destruct (Nat.eqb_spec n (length path)) as [->|]; [by rewrite Nat.sub_diag|]. destruct (Nat.eqb_spec n (S (length path))) as [->|].
    + by replace (S (length path) - length path)%nat with 1%nat by lia.
    + destruct (n - length path)%nat as [|[|k]] eqn:Ek; [lia|lia|done].
Qed.

Lemma view_type policy paths state x view : state_inv policy paths state → view_at policy paths state x view → GetType state view = Ok (spec_type policy paths x).
Proof.
  intros Hs Hv. destruct view as [n| |n| |], state as [tokens|nodes]; simpl in Hv; try done; simpl; try by rewrite Hv.
  - destruct Hv as (path & -> & Hx). destruct Hs as [[[=] _]|(path' & [= <-] & ->)]. rewrite flat_array_lookup, spec_type_one.
    destruct Hx as [[[r ->] ->]|[[[r ->] Hne] ->]].
    + destruct r as [|token r].
      * rewrite app_nil_r. rewrite lookup_ge_None_2, Nat.eqb_refl by done. by rewrite decide_True.
      * rewrite lookup_app_r, Nat.sub_diag by done. simpl. rewrite decide_False by (intros E; apply (f_equal length) in E; rewrite length_app in E; simpl in E; lia).
        by rewrite decide_True by (by apply prefix_app_r).
    + rewrite lookup_ge_None_2 by lia. destruct (Nat.eqb_spec (S (length path)) (length path)); [lia|]. rewrite Nat.eqb_refl. rewrite decide_False by congruence.
      rewrite decide_False by (intros Hp; apply Hne; apply (anti_symm prefix); [by apply prefix_app_r|done]). by rewrite decide_True by (by apply prefix_app_r).
  - destruct Hv as [Hne Hv]. destruct Hs as [[-> ->]|[_ Hr]]; [done|].
    destruct (rep_node _ _ _ _ Hr Hv) as (node & -> & _ & He). run_bind. f_equal. assert (in_trie policy paths x) as Hx by (apply (rep_nodes _ _ Hr); eauto).
    unfold spec_type. rewrite (bool_decide_eq_true_2 _ Hx). assert (node = ∅ ↔ is_leaf policy paths x) as Hiff by (rewrite (leaf_children policy paths x Hx); exact He). by rewrite (bool_decide_ext _ _ Hiff).
Qed.

Lemma root_view_at policy paths state : state_inv policy paths state → view_at policy paths state [] (root_view state).
Proof.
  intros Hs. destruct state as [tokens|nodes]; simpl in Hs.
  - destruct Hs as [[-> ->]|(path & -> & ->)]; [apply spec_type_nil|]. destruct path as [|token path]; simpl; eexists; (split; [done|]); left; (split; [apply prefix_nil|done]).
  - destruct Hs as [[-> ->]|[Hne Hr]]; [apply spec_type_nil|]. destruct nodes as [|node nodes]; [|done].
    pose proof (rep_valid _ _ Hr [] 0%nat eq_refl) as H. simpl in H. lia.
Qed.

(** One more token. *)
Lemma Visit_at policy paths state x token view : state_inv policy paths state → view_at policy paths state x view →
  ∃ view', Visit state token view = Ok view' ∧ view_at policy paths state (x ++ [token]) view'.
Proof.
  intros Hs Hv. pose proof (view_type _ _ _ _ _ Hs Hv) as Hty. pose proof (spec_type_snoc policy paths x token) as Hsnoc. unfold Visit.
  destruct view as [n| |n| |], state as [tokens|nodes]; simpl in Hv; try done.
  - destruct Hv as (path & -> & Hx). destruct Hs as [[[=] _]|(path' & [= <-] & ->)]. simpl. rewrite flat_array_lookup.
    destruct Hx as [[[r ->] ->]|[[[r ->] Hne] ->]].
    + destruct r as [|next r].
      * rewrite app_nil_r. rewrite lookup_ge_None_2, Nat.eqb_refl by done. run_bind. eexists. split; [done|]. exists x. split; [done|]. right. split; [by apply below_snoc|done].
      * rewrite lookup_app_r, Nat.sub_diag by done. simpl. run_bind. destruct (decide (next = token)) as [En|En]; [rewrite (bool_decide_eq_true_2 _ En)|rewrite (bool_decide_eq_false_2 _ En)]; run_bind; (eexists; split; [done|]).
        -- subst next. eexists. split; [done|]. left. split; [exists r; by rewrite <- app_assoc|]. rewrite length_app. simpl. lia.
        -- simpl. rewrite spec_type_one. rewrite decide_False by (intros E; apply app_inv_head in E; congruence).
           rewrite decide_False by (intros [r' E]; rewrite <- app_assoc in E; apply app_inv_head in E; simpl in E; congruence).
           rewrite decide_False; [done|]. intros [r' E]. rewrite <- app_assoc in E. apply app_inv_head in E. simpl in E. congruence.
    + rewrite lookup_ge_None_2 by lia. destruct (Nat.eqb_spec (S (length path)) (length path)); [lia|]. rewrite Nat.eqb_refl. run_bind. eexists. split; [done|].
      exists path. split; [done|]. right. split; [|done]. apply below_snoc. by apply prefix_app_r.
  - eexists. split; [done|]. simpl. by rewrite Hsnoc, Hv.
  - destruct Hv as [Hne Hv]. destruct Hs as [[-> ->]|[_ Hr]]; [done|]. destruct (rep_node _ _ _ _ Hr Hv) as (node & Hn & Hch & He).
    simpl in Hty |- *. rewrite Hn in Hty |- *. run_bind. cbn in Hty. destruct (node !! token) as [next|] eqn:Et.
    + run_bind. eexists. split; [done|]. simpl. by rewrite Hch.
    + assert (¬ in_trie policy paths (x ++ [token])) as Hnt by (rewrite <- (rep_nodes _ _ Hr), Hch, Et; by intros []).
      rewrite (bool_decide_eq_false_2 _ Hnt) in Hsnoc. injection Hty as Hty. rewrite <- Hty in Hsnoc.
      destruct (bool_decide (node = ∅)); run_bind; (eexists; split; [done|]); done.
  - eexists. split; [done|]. simpl. by rewrite Hsnoc, Hv.
  - eexists. split; [done|]. simpl. by rewrite Hsnoc, Hv.
Qed.

Lemma VisitTokens_at policy paths state tokens : state_inv policy paths state → ∀ x view, view_at policy paths state x view →
  ∃ view', VisitTokens state tokens view = Ok view' ∧ view_at policy paths state (x ++ tokens) view'.
Proof.
  intros Hs. induction tokens as [|token tokens IH]; intros x view Hv; cbn [VisitTokens].
  - exists view. by rewrite app_nil_r.
  - destruct (Visit_at _ _ _ _ token _ Hs Hv) as (view1 & -> & Hv1). run_bind. destruct (IH _ _ Hv1) as (view2 & -> & Hv2). exists view2. split; [done|].
    by rewrite <- app_assoc in Hv2.
Qed.

(** ** Building *)

Lemma add_state_inv policy paths path tokens state : state_inv policy paths state → TokenizeTriePath path = Ok tokens →
  ∃ state', add_state policy path state = Ok state' ∧ state_inv policy (paths ++ [tokens]) state'.
Proof. intros Hs Ht. unfold add_state. rewrite Ht. run_bind. by apply AddPathUnsafe_inv. Qed.

Lemma mapM_cons_ok {A C} (f : A → Result C) a l y : mapM f (a :: l) = Ok y → ∃ b k, f a = Ok b ∧ mapM f l = Ok k ∧ y = b :: k.
Proof.
  cbn. destruct (f a) as [b|?| |] eqn:E; simpl; try done. destruct (mapM f l) as [k|?| |]; simpl; try done. intros [= <-]. eauto 6.
Qed.

Lemma add_states_inv policy more : ∀ paths tokens state, state_inv policy paths state → mapM TokenizeTriePath more = Ok tokens →
  ∃ state', add_states policy more state = Ok state' ∧ state_inv policy (paths ++ tokens) state'.
Proof.
  induction more as [|path more IH]; intros paths tokens state Hs Hm; cbn [add_states].
  - injection Hm as <-. exists state. by rewrite app_nil_r.
  - apply mapM_cons_ok in Hm as (b & k & Hb & Hk & ->). destruct (add_state_inv _ _ _ _ _ Hs Hb) as (state1 & -> & Hs1). run_bind.
    destruct (IH _ _ _ Hs1 Hk) as (state2 & -> & Hs2). exists state2. by rewrite <- app_assoc in Hs2.
Qed.

(** The state, the root and the paths of a trie agree. *)
Record trie_inv (policy : ETrieNestedPathPolicy) (S : list (list TToken)) (trie : TTrie) : Prop := {
  inv_policy : NestedPathPolicy_ trie = policy;
  inv_state : state_inv policy S (State_ trie);
  inv_root : ViewState_ trie = root_view (State_ trie);
  inv_paths : mapM TokenizeTriePath (OwnedPaths_ trie) = Ok S
}.

Lemma mapM_app_ok {A C} (f : A → Result C) l1 l2 y : mapM f (l1 ++ l2) = Ok y ↔ ∃ y1 y2, mapM f l1 = Ok y1 ∧ mapM f l2 = Ok y2 ∧ y = y1 ++ y2.
Proof.
  revert y. induction l1 as [|a l1 IH]; intros y; split.
  - intros H. by exists [], y.
  - by intros (y1 & y2 & [= <-] & ? & ->).
  - intros (b & k & Hb & Hk & ->)%mapM_cons_ok. apply IH in Hk as (y1 & y2 & H1 & ? & ->). exists (b :: y1), y2. split_and!; [|done|done].
    cbn. rewrite Hb. run_bind. by rewrite H1.
  - intros (y1 & y2 & (b & k & Hb & Hk & ->)%mapM_cons_ok & H2 & ->). cbn. rewrite Hb. run_bind. by rewrite (proj2 (IH (k ++ y2)) ltac:(by exists k, y2)).
Qed.

Lemma NewTrie_inv policy paths flat S : mapM TokenizeTriePath paths = Ok S → ∃ trie, NewTrie paths flat policy = Ok trie ∧ trie_inv policy S trie ∧ OwnedPaths_ trie = paths.
Proof.
  intros HS. unfold NewTrie. set (state0 := if flat && (length paths <? 2)%nat then Flat [] else Nodes []). destruct (add_states_inv policy paths [] S state0) as (state & -> & Hs); [|done|].
  { unfold state0. by destruct (flat && _); left. }
  run_bind. eexists. split; [done|]. done.
Qed.

Lemma AddPaths_inv policy more : ∀ S S' trie, trie_inv policy S trie → mapM TokenizeTriePath more = Ok S' →
  ∃ trie', AddPaths more trie = Ok trie' ∧ trie_inv policy (S ++ S') trie' ∧ OwnedPaths_ trie' = OwnedPaths_ trie ++ more.
Proof.
  induction more as [|path more IH]; intros S S' trie Hi Hm; cbn [AddPaths].
  - injection Hm as <-. exists trie. by rewrite !app_nil_r.
  - apply mapM_cons_ok in Hm as (tokens & S2 & Ht & HS2 & ->). destruct Hi as [Hp Hs Hr Ho]. unfold AddPath. rewrite Hp.
    destruct (add_state_inv _ _ _ _ _ Hs Ht) as (state1 & -> & Hs1). run_bind.
    set (trie1 := UpdateRoot _). assert (trie_inv policy (S ++ [tokens]) trie1) as Hi1.
    { split; [done..|]. simpl. apply mapM_app_ok. exists S, [tokens]. split_and!; [done| |done]. cbn. by rewrite Ht. }
    destruct (IH _ _ _ Hi1 HS2) as (trie2 & -> & Hi2 & Ho2). exists trie2. rewrite <- app_assoc in Hi2. split_and!; [done|done|]. rewrite Ho2. simpl. by rewrite <- app_assoc.
Qed.

Definition type_at (trie : TTrie) (tokens : list TToken) : Result ETrieNodeType :=
  view ← VisitTokens (State_ trie) tokens (ViewState_ trie); GetType (State_ trie) view.

Lemma type_at_spec policy S trie tokens : trie_inv policy S trie → type_at trie tokens = Ok (spec_type policy S tokens).
Proof.
  intros [Hp Hs Hr Ho]. unfold type_at. rewrite Hr. destruct (VisitTokens_at _ _ _ tokens Hs _ _ (root_view_at _ _ _ Hs)) as (view & -> & Hv). run_bind.
  by apply (view_type _ _ _ _ _ Hs).
Qed.

Lemma spec_type_root policy S : bool_decide (spec_type policy S [] = Outlier) = bool_decide (S = []).
Proof.
  apply bool_decide_ext. split; [|intros ->; apply spec_type_nil]. destruct S as [|p S]; [done|]. unfold spec_type. rewrite bool_decide_eq_true_2; [by case_bool_decide|].
  split; [left; apply prefix_nil|]. intros _. apply list.Forall_forall. by intros q _ [Hq%prefix_nil_inv ?].
Qed.

(** C36. A trie answers what its paths say: whatever paths it is built from, flat or not, and
    whatever paths are added later, it can be built, it is empty exactly if there are no
    paths, and from its root every sequence of tokens leads to a view of the type that the
    set of paths gives the sequence, by the definition over prefixes ([spec_type]); so does
    every copy of it. *)
Theorem TTrie_refines (policy : ETrieNestedPathPolicy) (paths more : list (list byte)) (flat : bool) (S : list (list TToken))
    (HS : mapM TokenizeTriePath (paths ++ more) = Ok S) :
  ∃ trie copy, (trie ← NewTrie paths flat policy; AddPaths more trie) = Ok trie ∧ Copy trie = Ok copy ∧
    IsEmpty trie = Ok (bool_decide (S = [])) ∧
    ∀ tokens, (view ← VisitTokens (State_ trie) tokens (ViewState_ trie); GetType (State_ trie) view) = Ok (spec_type policy S tokens) ∧
              (view ← VisitTokens (State_ copy) tokens (ViewState_ copy); GetType (State_ copy) view) = Ok (spec_type policy S tokens).
Proof.
  apply mapM_app_ok in HS as (S1 & S2 & H1 & H2 & ->). destruct (NewTrie_inv policy paths flat S1 H1) as (trie0 & -> & Hi0 & _). run_bind.
  destruct (AddPaths_inv policy more _ _ _ Hi0 H2) as (trie & -> & Hi & _).
  destruct (NewTrie_inv policy (OwnedPaths_ trie) (IsFlat trie) _ (inv_paths _ _ _ Hi)) as (copy & Hc & Hic & _). exists trie, copy. split_and!; [done|by rewrite <- Hc, <- (inv_policy _ _ _ Hi)| |].
  - pose proof (type_at_spec _ _ _ [] Hi) as Ht. unfold type_at in Ht. cbn in Ht. unfold IsEmpty. rewrite Ht. run_bind. by rewrite spec_type_root.
  - intros tokens. split; by apply type_at_spec.
Qed.

Lemma TTrie_refines_witness :
  mapM TokenizeTriePath ([B"/a/b"] ++ [B"/a"; B"/c"]) = Ok [[B"a"; B"b"]; [B"a"]; [B"c"]] ∧
  ∃ trie, (trie ← NewTrie [B"/a/b"] true Shorten; AddPaths [B"/a"; B"/c"] trie) = Ok trie ∧ type_at trie [B"a"; B"b"] = Ok AfterLeaf.
Proof.
  assert (mapM TokenizeTriePath ([B"/a/b"] ++ [B"/a"; B"/c"]) = Ok [[B"a"; B"b"]; [B"a"]; [B"c"]]) as HS by (vm_compute; reflexivity).
  split; [exact HS|]. destruct (TTrie_refines Shorten [B"/a/b"] [B"/a"; B"/c"] true _ HS) as (trie & copy & Hb & _ & _ & Ht). exists trie. split; [exact Hb|].
  destruct (Ht [B"a"; B"b"]) as [H _]. unfold type_at. rewrite H. vm_compute. reflexivity.
Defined.

(** [GetNestedPaths] joins tokens, which are still escaped, as if they were literals: their
    escapes are escaped again, and the paths it returns are not in the trie. *)
Lemma GetNestedPaths_escapes_twice :
  (trie ← NewTrie [B"/a\/b"] true Shorten; GetNestedPaths trie []) = Ok [B"/a\\\/b"] ∧
  (trie ← NewTrie [B"/a\/b"] true Shorten; view ← VisitPath (State_ trie) (B"/a\\\/b") (ViewState_ trie); GetType (State_ trie) view) = Ok Outlier.
Proof. by vm_compute. Qed.

(** [Clear] keeps the root that points into the storage it drops. *)
Lemma Clear_leaves_root : (trie ← NewTrie [B"/a"] true Shorten; IsEmpty (Clear true trie)) = Crash.
Proof. by vm_compute. Qed.

(** Assignment adds the paths before it takes over the policy: the result differs from a copy. *)
Lemma Assign_uses_old_policy :
  (other ← NewTrie [B"/a"; B"/a/b"] false Extend; trie ← NewTrie [] false Shorten; trie ← Assign other trie; type_at trie [B"a"; B"b"]) = Ok AfterLeaf ∧
  (other ← NewTrie [B"/a"; B"/a/b"] false Extend; copy ← Copy other; type_at copy [B"a"; B"b"]) = Ok Leaf.
Proof. by vm_compute. Qed.
