(* ===== verification/Formula.v ===== *)
(** Formulas over variables (misc/arithmetic_formula.cpp): arithmetic, boolean and time
    formulas are read into tokens, turned into postfix form by a stack of operators, checked
    for types and evaluated on a stack.

    The position of a token serves only the messages of errors and is left out. The sum,
    difference and product of two [i64] wrap around, as the machine computes them. *)

From stdpp Require Import gmap.
From S2P Require Import Prelude IntCast YsonLexer.

Inductive EEvaluationContext := BooleanContext | ArithmeticContext.
#[export] Instance EEvaluationContext_eq_dec : EqDecision EEvaluationContext.
Proof. solve_decision. Defined.

(** ** Names *)

Definition IsSymbolAllowedInName (c : byte) (context : EEvaluationContext) (isFirst : bool) : bool :=
  if isalpha c || Byte.eqb c "_" then true
  else if isdigit c then negb isFirst || bool_decide (context = BooleanContext)
  else bool_decide (context = BooleanContext) && (Byte.eqb c "/" || Byte.eqb c "-" || Byte.eqb c "." || Byte.eqb c ":").

Definition ValidateFormulaVariable (variable : list byte) (context : EEvaluationContext) : Result unit :=
  match variable with
  | [] => Throw EInvalidArgument
  | first :: _ =>
      if negb (forallb (λ c, IsSymbolAllowedInName c context false) variable) then Throw EInvalidArgument
      else if bool_decide (context = BooleanContext) && forallb isdigit variable then Throw EInvalidArgument
      else if negb (IsSymbolAllowedInName first context true) then Throw EInvalidArgument
      else if bool_decide (variable = B"in") then Throw EInvalidArgument
      else Ok ()
  end.

Definition ValidateArithmeticFormulaVariable (variable : list byte) : Result unit := ValidateFormulaVariable variable ArithmeticContext.
Definition ValidateBooleanFormulaVariable (variable : list byte) : Result unit := ValidateFormulaVariable variable BooleanContext.

(** ** Tokens *)

Inductive EFormulaTokenType :=
| FVariable | FNumber | FBooleanLiteral | FSet | FLeftBracket | FRightBracket | FIn | FComma | FLogicalOr | FLogicalAnd
| FBitwiseOr | FBitwiseXor | FBitwiseAnd | FEquals | FNotEquals | FLess | FGreater | FLessOrEqual | FGreaterOrEqual
| FPlus | FMinus | FMultiplies | FDivides | FModulus | FLogicalNot.
#[export] Instance EFormulaTokenType_eq_dec : EqDecision EFormulaTokenType.
Proof. solve_decision. Defined.

Definition Precedence (type : EFormulaTokenType) : nat :=
  match type with
  | FVariable | FNumber | FBooleanLiteral | FSet | FLeftBracket | FRightBracket => 0
  | FIn => 1
  | FComma => 2
  | FLogicalOr => 3
  | FLogicalAnd => 4
  | FBitwiseOr => 5
  | FBitwiseXor => 6
  | FBitwiseAnd => 7
  | FEquals | FNotEquals => 8
  | FLess | FGreater | FLessOrEqual | FGreaterOrEqual => 9
  | FPlus | FMinus => 10
  | FMultiplies | FDivides | FModulus => 11
  | FLogicalNot => 12
  end.

(** The code of the type, as [static_cast<size_t>] gives it. *)
Definition type_code (type : EFormulaTokenType) : Z :=
  match type with
  | FVariable => 0 | FNumber => 1 | FBooleanLiteral => 2 | FSet => 3 | FLeftBracket => 4 | FRightBracket => 5 | FIn => 6 | FComma => 7
  | FLogicalOr => 8 | FLogicalAnd => 9 | FBitwiseOr => 10 | FBitwiseXor => 11 | FBitwiseAnd => 12 | FEquals => 13 | FNotEquals => 14
  | FLess => 15 | FGreater => 16 | FLessOrEqual => 17 | FGreaterOrEqual => 18 | FPlus => 19 | FMinus => 20
  | FMultiplies => 21 | FDivides => 22 | FModulus => 23 | FLogicalNot => 24
  end.

Record TFormulaToken := { TokenType : EFormulaTokenType; Name : list byte; Number : Z }.
#[export] Instance TFormulaToken_eq_dec : EqDecision TFormulaToken.
Proof. solve_decision. Defined.

Definition plain_token (type : EFormulaTokenType) : TFormulaToken := {| TokenType := type; Name := []; Number := 0 |}.

(** *** Reading tokens; the text is what is left of the formula at [pos]. *)

Fixpoint skip_while (f : byte → bool) (text : list byte) : list byte :=
  match text with c :: text' => if f c then skip_while f text' else text | [] => [] end.
Fixpoint take_while (f : byte → bool) (text : list byte) : list byte :=
  match text with c :: text' => if f c then c :: take_while f text' else [] | [] => [] end.

(** The type and by how much [pos] moves. *)
Definition special_token (context : EEvaluationContext) (first second third : byte) : Result (option (EFormulaTokenType * nat)) :=
  if Byte.eqb first "i" && Byte.eqb second "n" then
    Ok (if IsSymbolAllowedInName third context false then None else Some (FIn, 2%nat))
  else
    match first with
    | "^"%byte => Ok (Some (FBitwiseXor, 1%nat))
    | "+"%byte => Ok (Some (FPlus, 1%nat))
    | "-"%byte => Ok (Some (FMinus, 1%nat))
    | "*"%byte => Ok (Some (FMultiplies, 1%nat))
    | "/"%byte => Ok (Some (FDivides, 1%nat))
    | "%"%byte => Ok (Some (FModulus, 1%nat))
    | "("%byte => Ok (Some (FLeftBracket, 1%nat))
    | ")"%byte => Ok (Some (FRightBracket, 1%nat))
    | ","%byte => Ok (Some (FComma, 1%nat))
    | "="%byte => if Byte.eqb second "=" then Ok (Some (FEquals, 2%nat)) else Throw EMalformedFormula
    | "!"%byte => Ok (Some (if Byte.eqb second "=" then (FNotEquals, 2%nat) else (FLogicalNot, 1%nat)))
    | "&"%byte => Ok (Some (if Byte.eqb second "&" then (FLogicalAnd, 2%nat) else (FBitwiseAnd, 1%nat)))
    | "|"%byte => Ok (Some (if Byte.eqb second "|" then (FLogicalOr, 2%nat) else (FBitwiseOr, 1%nat)))
    | "<"%byte => Ok (Some (if Byte.eqb second "=" then (FLessOrEqual, 2%nat) else (FLess, 1%nat)))
    | ">"%byte => Ok (Some (if Byte.eqb second "=" then (FGreaterOrEqual, 2%nat) else (FGreater, 1%nat)))
    | _ => Ok None
    end.

(** [formula[pos + n]], or the zero byte behind the end. *)
Definition char_at (text : list byte) (n : nat) : byte := default x00 (text !! n).

Definition extractSpecialToken (context : EEvaluationContext) (text : list byte) : Result (option (EFormulaTokenType * list byte)) :=
  special ← special_token context (char_at text 0) (char_at text 1) (char_at text 2);
  Ok (match special with Some (type, n) => Some (type, drop n text) | None => None end).

Definition extractNumber (text : list byte) : Result (Z * list byte) :=
  let '(sign, text) := match text with c :: text' => if Byte.eqb c "-" then ([c], text') else ([], text) | [] => ([], text) end in
  match text with
  | c :: _ =>
      if isdigit c then number ← FromString_i64 (sign ++ take_while isdigit text); Ok (number, skip_while isdigit text)
      else Throw EMalformedFormula
  | [] => Throw EMalformedFormula
  end.

Fixpoint variable_loop (context : EEvaluationContext) (isFirst : bool) (text : list byte) : list byte * list byte :=
  match text with
  | c :: text' =>
      if IsSymbolAllowedInName c context isFirst then let '(name, rest) := variable_loop context false text' in (c :: name, rest)
      else ([], text)
  | [] => ([], [])
  end.

Definition extractVariable (context : EEvaluationContext) (text : list byte) : Result (list byte * list byte) :=
  let '(name, text) := variable_loop context true text in
  _ ← ValidateFormulaVariable name context;
  Ok (name, text).

Definition extractBooleanLiteral (text : list byte) : Result (Z * list byte) :=
  match text with
  | c :: text =>
      _ ← Verify (Byte.eqb c "%");
      let buf := take_while isalpha text in
      let text := skip_while isalpha text in
      if bool_decide (buf = B"false") then Ok (0, text)
      else if bool_decide (buf = B"true") then Ok (1, text)
      else Throw EMalformedFormula
  | [] => Crash
  end.

(** A token at a character that is no space, and whether a binary operator may follow. *)
Definition next_token (context : EEvaluationContext) (expectBinaryOperator : bool) (c : byte) (text : list byte) : Result (TFormulaToken * bool * list byte) :=
  if bool_decide (context = ArithmeticContext) && (isdigit c || (Byte.eqb c "-" && negb expectBinaryOperator)) then
    '(number, text) ← extractNumber text;
    Ok ({| TokenType := FNumber; Name := []; Number := number |}, true, text)
  else if negb expectBinaryOperator && Byte.eqb c "%" then
    '(number, text) ← extractBooleanLiteral text;
    Ok ({| TokenType := FBooleanLiteral; Name := []; Number := number |}, true, text)
  else
    special ← extractSpecialToken context text;
    match special with
    | Some (type, text) => Ok (plain_token type, bool_decide (type = FRightBracket), text)
    | None =>
        if IsSymbolAllowedInName c context true then
          '(name, text) ← extractVariable context text;
          Ok ({| TokenType := FVariable; Name := name; Number := 0 |}, true, text)
        else Throw EMalformedFormula
    end.

Fixpoint tokenize_loop (context : EEvaluationContext) (fuel : nat) (expectBinaryOperator : bool) (text : list byte) : Result (list TFormulaToken) :=
  match fuel with
  | O => OutOfFuel
  | S fuel =>
      match skip_while IsSpace text with
      | [] => Ok []
      | c :: text' =>
          '(token, expectBinaryOperator, text) ← next_token context expectBinaryOperator c (c :: text');
          tokens ← tokenize_loop context fuel expectBinaryOperator text;
          Ok (token :: tokens)
      end
  end.

(** Every turn reads a byte. *)
Definition Tokenize (formula : list byte) (context : EEvaluationContext) : Result (list TFormulaToken) :=
  tokenize_loop context (S (length formula)) false formula.

(** ** The postfix form *)

(** The back of the stack is the head of the list. *)
Record TParseState := { Result_ : list TFormulaToken; OpStack : list TFormulaToken; ExpectSubformula : bool }.

Fixpoint finishSubformula (result stack : list TFormulaToken) : list TFormulaToken * list TFormulaToken :=
  match stack with
  | top :: stack' => if bool_decide (TokenType top = FLeftBracket) then (result, stack) else finishSubformula (result ++ [top]) stack'
  | [] => (result, [])
  end.

Fixpoint processBinaryOp (token : TFormulaToken) (result stack : list TFormulaToken) : list TFormulaToken * list TFormulaToken :=
  match stack with
  | top :: stack' =>
      if (Precedence (TokenType token) <=? Precedence (TokenType top))%nat then processBinaryOp token (result ++ [top]) stack' else (result, stack)
  | [] => (result, [])
  end.

Definition parse_token (token : TFormulaToken) (st : TParseState) : Result TParseState :=
  match TokenType token with
  | FVariable | FNumber | FBooleanLiteral =>
      if negb (ExpectSubformula st) then Throw EMalformedFormula
      else Ok {| Result_ := Result_ st ++ [token]; OpStack := OpStack st; ExpectSubformula := false |}
  | FLogicalNot | FLeftBracket =>
      if negb (ExpectSubformula st) then Throw EMalformedFormula
      else Ok {| Result_ := Result_ st; OpStack := token :: OpStack st; ExpectSubformula := ExpectSubformula st |}
  | FRightBracket =>
      if ExpectSubformula st then Throw EMalformedFormula
      else
        match finishSubformula (Result_ st) (OpStack st) with
        | (_, []) => Throw EMalformedFormula
        | (result, _ :: stack) => Ok {| Result_ := result; OpStack := stack; ExpectSubformula := ExpectSubformula st |}
        end
  | _ =>
      if ExpectSubformula st then Throw EMalformedFormula
      else
        let '(result, stack) := processBinaryOp token (Result_ st) (OpStack st) in
        Ok {| Result_ := result; OpStack := token :: stack; ExpectSubformula := true |}
  end.

Fixpoint parse_loop (tokens : list TFormulaToken) (st : TParseState) : Result TParseState :=
  match tokens with [] => Ok st | token :: tokens => st ← parse_token token st; parse_loop tokens st end.

(** Everything up to the checks. *)
Definition to_postfix (tokens : list TFormulaToken) : Result (list TFormulaToken) :=
  st ← parse_loop tokens {| Result_ := []; OpStack := []; ExpectSubformula := true |};
  if ExpectSubformula st then Throw EMalformedFormula
  else match finishSubformula (Result_ st) (OpStack st) with (result, []) => Ok result | _ => Throw EMalformedFormula end.

Definition allowed_in_boolean (type : EFormulaTokenType) : bool :=
  match type with FBitwiseAnd | FBitwiseOr | FLogicalNot | FVariable | FBooleanLiteral => true | _ => false end.

(** ** Types *)

Definition validateIsNumber (type : EFormulaTokenType) : Result unit :=
  if bool_decide (type = FNumber) then Ok () else Throw EMalformedFormula.

Definition check_token (token : TFormulaToken) (stack : list EFormulaTokenType) : Result (list EFormulaTokenType) :=
  match TokenType token with
  | FVariable | FNumber | FBooleanLiteral => Ok (FNumber :: stack)
  | FLogicalNot => match stack with top :: _ => _ ← validateIsNumber top; Ok stack | [] => Crash end
  | FComma => match stack with top :: _ :: stack => _ ← validateIsNumber top; Ok (FSet :: stack) | _ => Crash end
  | FIn => match stack with _ :: second :: stack => _ ← validateIsNumber second; Ok (second :: stack) | _ => Crash end
  | FSet | FLeftBracket | FRightBracket => Crash
  | _ => match stack with top :: second :: stack => _ ← validateIsNumber top; _ ← validateIsNumber second; Ok (second :: stack) | _ => Crash end
  end.

Fixpoint check_loop (tokens : list TFormulaToken) (stack : list EFormulaTokenType) : Result (list EFormulaTokenType) :=
  match tokens with [] => Ok stack | token :: tokens => stack ← check_token token stack; check_loop tokens stack end.

Definition CheckTypeConsistency (tokens : list TFormulaToken) : Result unit :=
  stack ← check_loop tokens [];
  match stack with [] => Ok () | top :: _ => validateIsNumber top end.

Definition Parse (tokens : list TFormulaToken) (context : EEvaluationContext) : Result (list TFormulaToken) :=
  match tokens with
  | [] => Ok []
  | _ =>
      result ← to_postfix tokens;
      _ ← (if bool_decide (context = BooleanContext) && negb (forallb (λ token, allowed_in_boolean (TokenType token)) result) then Throw EMalformedFormula else Ok ());
      _ ← CheckTypeConsistency result;
      Ok result
  end.

(** ** Evaluation *)

Inductive TFormulaValue := VScalar (value : Z) | VVector (values : list Z).

Definition scalar (v : TFormulaValue) : Result Z := match v with VScalar value => Ok value | VVector _ => Crash end.
Definition of_bool (b : bool) : Z := if b then 1 else 0.

(** The operators on numbers, other than division. *)
Definition arithmetic_op (type : EFormulaTokenType) (lhs rhs : Z) : Result Z :=
  match type with
  | FLogicalOr => Ok (of_bool (negb (lhs =? 0) || negb (rhs =? 0)))
  | FLogicalAnd => Ok (of_bool (negb (lhs =? 0) && negb (rhs =? 0)))
  | FBitwiseOr => Ok (Z.lor lhs rhs)
  | FBitwiseXor => Ok (Z.lxor lhs rhs)
  | FBitwiseAnd => Ok (Z.land lhs rhs)
  | FEquals => Ok (of_bool (lhs =? rhs))
  | FNotEquals => Ok (of_bool (negb (lhs =? rhs)))
  | FLess => Ok (of_bool (lhs <? rhs))
  | FGreater => Ok (of_bool (rhs <? lhs))
  | FLessOrEqual => Ok (of_bool (lhs <=? rhs))
  | FGreaterOrEqual => Ok (of_bool (rhs <=? lhs))
  | FPlus => Ok (wrap_s 64 (lhs + rhs))
  | FMinus => Ok (wrap_s 64 (lhs - rhs))
  | FMultiplies => Ok (wrap_s 64 (lhs * rhs))
  | _ => Crash
  end.

Definition Int64Min : Z := - 2 ^ 63.

Section Eval.
Context (values : gmap (list byte) Z) (context : EEvaluationContext).

Definition variableValue (var : list byte) : Result Z :=
  match values !! var with
  | Some value => Ok value
  | None => if bool_decide (context = BooleanContext) then Ok 0 else Throw EUndefinedVariable
  end.

Definition eval_token (token : TFormulaToken) (stack : list TFormulaValue) : Result (list TFormulaValue) :=
  match TokenType token with
  | FVariable => value ← variableValue (Name token); Ok (VScalar value :: stack)
  | FNumber | FBooleanLiteral => Ok (VScalar (Number token) :: stack)
  | FLogicalNot => match stack with back :: stack => value ← scalar back; Ok (VScalar (of_bool (value =? 0)) :: stack) | [] => Crash end
  | FDivides | FModulus =>
      match stack with
      | back :: back' :: stack =>
          top ← scalar back;
          if top =? 0 then Throw EDivisionByZero
          else
            value ← scalar back';
            if (value =? Int64Min) && (top =? -1) then Throw EDivisionOverflow
            else Ok (VScalar (if bool_decide (TokenType token = FDivides) then Z.quot value top else Z.rem value top) :: stack)
      | _ => Crash
      end
  | FComma =>
      match stack with
      | back :: back' :: stack =>
          top ← scalar back;
          Ok (match back' with VScalar v => VVector [v; top] | VVector v => VVector (v ++ [top]) end :: stack)
      | _ => Crash
      end
  | FIn =>
      match stack with
      | back :: back' :: stack =>
          let set := match back with VScalar v => [v] | VVector v => v end in
          element ← scalar back';
          Ok (VScalar (of_bool (bool_decide (element ∈ set))) :: stack)
      | _ => Crash
      end
  | FSet | FLeftBracket | FRightBracket => Crash
  | type =>
      match stack with
      | back :: back' :: stack =>
          top ← scalar back;
          value ← scalar back';
          result ← arithmetic_op type value top;
          Ok (VScalar result :: stack)
      | _ => Crash
      end
  end.

Fixpoint eval_loop (tokens : list TFormulaToken) (stack : list TFormulaValue) : Result (list TFormulaValue) :=
  match tokens with [] => Ok stack | token :: tokens => stack ← eval_token token stack; eval_loop tokens stack end.

Definition EvalFormula (ParsedFormula : list TFormulaToken) : Result Z :=
  stack ← eval_loop ParsedFormula [];
  match stack with
  | [] => if bool_decide (context = ArithmeticContext) then Throw EEmptyFormula else Ok 1
  | [value] => scalar value
  | _ => Crash
  end.
End Eval.

(** ** Formulas *)

(** [HashCombine] of library/cpp/yt/misc/hash-inl.h on 64 bits. *)
Definition HashCombine (h k : Z) : Z :=
  let m := 0xc6a4a7935bd1e995 in
  let k := wrap_u 64 (k * m) in
  let k := Z.lxor k (Z.shiftr k 47) in
  let k := wrap_u 64 (k * m) in
  wrap_u 64 (Z.lxor h k * m).

Record TGenericFormulaImpl := { Formula_ : list byte; Hash_ : Z; ParsedFormula_ : list TFormulaToken }.

Section Formulas.
(** The hash of a string. *)
Context (ComputeHash : list byte → Z).

Definition CalculateHash (tokens : list TFormulaToken) : Z :=
  foldl (λ result token, HashCombine (HashCombine (HashCombine result (type_code (TokenType token))) (ComputeHash (Name token))) (wrap_u 64 (Number token)))
    0x18a92ea497f9bb1e tokens.

Definition MakeGenericFormulaImpl (formula : list byte) (context : EEvaluationContext) : Result TGenericFormulaImpl :=
  tokens ← Tokenize formula context;
  parsed ← Parse tokens context;
  Ok {| Formula_ := formula; Hash_ := CalculateHash parsed; ParsedFormula_ := parsed |}.

Definition FormulaIsEmpty (f : TGenericFormulaImpl) : bool := bool_decide (ParsedFormula_ f = []).
Definition FormulaSize (f : TGenericFormulaImpl) : nat := length (ParsedFormula_ f).

(** [operator==] *)
Definition FormulaEqual (lhs rhs : TGenericFormulaImpl) : bool := bool_decide (ParsedFormula_ lhs = ParsedFormula_ rhs).

Definition GetVariables (f : TGenericFormulaImpl) : gset (list byte) :=
  list_to_set (map Name (filter (λ token, TokenType token = FVariable) (ParsedFormula_ f))).

(** [TArithmeticFormula] *)
Definition MakeArithmeticFormula (formula : list byte) : Result TGenericFormulaImpl := MakeGenericFormulaImpl formula ArithmeticContext.
Definition ArithmeticEval (f : TGenericFormulaImpl) (values : gmap (list byte) Z) : Result Z := EvalFormula values ArithmeticContext (ParsedFormula_ f).

(** [TBooleanFormula] *)
Definition MakeBooleanFormula (formula : list byte) : Result TGenericFormulaImpl := MakeGenericFormulaImpl formula BooleanContext.

(** [TBooleanFormulaTags] *)
Definition PreparedTags (tags : list (list byte)) : gmap (list byte) Z := foldl (λ values key, <[key := 1]> values) ∅ tags.

Definition IsSatisfiedBy (f : TGenericFormulaImpl) (value : list (list byte)) : Result bool :=
  result ← EvalFormula (PreparedTags value) BooleanContext (ParsedFormula_ f); Ok (negb (result =? 0)).

(** [operator&], [operator|] and [operator!] *)
Definition FormulaAnd (lhs rhs : TGenericFormulaImpl) : Result TGenericFormulaImpl :=
  if FormulaIsEmpty lhs then Ok rhs
  else if FormulaIsEmpty rhs then Ok lhs
  else MakeBooleanFormula (B"(" ++ Formula_ lhs ++ B") & (" ++ Formula_ rhs ++ B")").

Definition FormulaOr (lhs rhs : TGenericFormulaImpl) : Result TGenericFormulaImpl :=
  if FormulaIsEmpty lhs || FormulaIsEmpty rhs then MakeBooleanFormula (B"%true")
  else MakeBooleanFormula (B"(" ++ Formula_ lhs ++ B") | (" ++ Formula_ rhs ++ B")").

Definition FormulaNot (formula : TGenericFormulaImpl) : Result TGenericFormulaImpl :=
  if FormulaIsEmpty formula then MakeBooleanFormula (B"%false")
  else MakeBooleanFormula (B"!(" ++ Formula_ formula ++ B")").

(** [TTimeFormula]; the local time is given by its hour and minute. *)
Definition MakeTimeFormula (formula : list byte) : Result TGenericFormulaImpl :=
  arithmeticFormula ← MakeArithmeticFormula formula;
  if forallb (λ variable, bool_decide (variable ∈ [B"minutes"; B"hours"])) (elements (GetVariables arithmeticFormula)) then Ok arithmeticFormula
  else Throw EInvalidArgument.

Definition TimeIsSatisfiedBy (f : TGenericFormulaImpl) (tm_hour tm_min : Z) : Result bool :=
  result ← ArithmeticEval f (<[B"hours" := tm_hour]> (<[B"minutes" := tm_min]> ∅)); Ok (negb (result =? 0)).
End Formulas.

(** ** The language of formulas *)

(** Trees whose nodes carry their tokens. *)
Inductive TExpression :=
| EAtom (token : TFormulaToken)
| ENot (token : TFormulaToken) (e : TExpression)
| EBinary (token : TFormulaToken) (lhs rhs : TExpression).

Definition is_atom (type : EFormulaTokenType) : bool := match type with FVariable | FNumber | FBooleanLiteral => true | _ => false end.
Definition is_binary (type : EFormulaTokenType) : bool :=
  match type with FVariable | FNumber | FBooleanLiteral | FSet | FLeftBracket | FRightBracket | FLogicalNot => false | _ => true end.

(** The tokens of a tree all of whose operators outside of brackets bind at least as tightly as
    [p]: operators of the same precedence are grouped to the left, negation binds tightest. *)
Inductive Derives : nat → TExpression → list TFormulaToken → Prop :=
| DAtom p t : is_atom (TokenType t) = true → Derives p (EAtom t) [t]
| DNot p t e ts : TokenType t = FLogicalNot → Derives 13 e ts → Derives p (ENot t e) (t :: ts)
| DBrackets p l r e ts : TokenType l = FLeftBracket → TokenType r = FRightBracket → Derives 1 e ts → Derives p e (l :: ts ++ [r])
| DBinary p t e1 e2 ts1 ts2 : is_binary (TokenType t) = true → (p <= Precedence (TokenType t))%nat →
    Derives (Precedence (TokenType t)) e1 ts1 → Derives (S (Precedence (TokenType t))) e2 ts2 → Derives p (EBinary t e1 e2) (ts1 ++ t :: ts2).

Fixpoint postfix (e : TExpression) : list TFormulaToken :=
  match e with
  | EAtom t => [t]
  | ENot t e => postfix e ++ [t]
  | EBinary t e1 e2 => postfix e1 ++ postfix e2 ++ [t]
  end.

(** Token [FSet] is in no formula. *)
Definition proper_formula (tokens : list TFormulaToken) : Prop := Forall (λ t, TokenType t ≠ FSet) tokens.

(** *** A formula of the language is accepted *)

#[local] Abbreviation prec t := (Precedence (TokenType t)).

Definition low (p : nat) (stack : list TFormulaToken) : Prop := match stack with [] => True | top :: _ => (prec top < p)%nat end.

Lemma binary_prec t : is_binary (TokenType t) = true → (1 <= prec t <= 11)%nat.
Proof. destruct (TokenType t); simpl; try done; lia. Qed.

Lemma processBinaryOp_pops t ops result stack : Forall (λ o, (prec t <= prec o)%nat) ops → low (prec t) stack →
  processBinaryOp t result (ops ++ stack) = (result ++ ops, stack).
Proof.
  intros Hops Hlow. revert result. induction Hops as [|o ops Ho _ IH]; intros result; cbn [app processBinaryOp].
  - rewrite app_nil_r. destruct stack as [|top stack]; [done|]. cbn [processBinaryOp]. simpl in Hlow. destruct (Nat.leb_spec (prec t) (prec top)); [lia|done].
  - destruct (Nat.leb_spec (prec t) (prec o)); [|lia]. by rewrite IH, <- app_assoc.
Qed.

Lemma finishSubformula_pops ops result stack : Forall (λ o, (1 <= prec o)%nat) ops → match stack with [] => True | top :: _ => TokenType top = FLeftBracket end →
  finishSubformula result (ops ++ stack) = (result ++ ops, stack).
Proof.
  intros Hops Hb. revert result. induction Hops as [|o ops Ho _ IH]; intros result; cbn [app finishSubformula].
  - rewrite app_nil_r. destruct stack as [|top stack]; [done|]. cbn [finishSubformula]. by rewrite bool_decide_eq_true_2.
  - rewrite bool_decide_eq_false_2 by (intros E; rewrite E in Ho; simpl in Ho; lia). by rewrite IH, <- app_assoc.
Qed.

Lemma parse_binary t st : is_binary (TokenType t) = true → ExpectSubformula st = false →
  parse_token t st = let '(result, stack) := processBinaryOp t (Result_ st) (OpStack st) in Ok {| Result_ := result; OpStack := t :: stack; ExpectSubformula := true |}.
Proof. intros Ht He. unfold parse_token. rewrite He. by destruct (TokenType t). Qed.

Lemma parse_loop_app ts1 ts2 st : parse_loop (ts1 ++ ts2) st = (st ← parse_loop ts1 st; parse_loop ts2 st).
Proof. revert st. induction ts1 as [|t ts1 IH]; intros st; [done|]. cbn [app parse_loop]. destruct (parse_token t st); [|done..]. apply IH. Qed.

(** The operators of the tree that are still on the stack are the end of its postfix form. *)
Lemma parse_derives p e ts : Derives p e ts → ∀ result stack, low p stack →
  ∃ out ops, parse_loop ts {| Result_ := result; OpStack := stack; ExpectSubformula := true |} =
      Ok {| Result_ := result ++ out; OpStack := ops ++ stack; ExpectSubformula := false |} ∧
    out ++ ops = postfix e ∧ Forall (λ o, (1 <= prec o)%nat ∧ (p <= prec o ∨ prec o = 12)%nat) ops.
Proof.
  induction 1 as [p t Ht|p t e ts Ht _ IH|p l r e ts Hl Hr _ IH|p t e1 e2 ts1 ts2 Ht Hp _ IH1 _ IH2]; intros result stack Hlow.
  - exists [t], []. split_and!; [|done|constructor]. cbn [parse_loop]. unfold parse_token. by destruct (TokenType t).
  - cbn [parse_loop]. unfold parse_token at 1. rewrite Ht. cbn [negb ExpectSubformula Result_ OpStack]. run_bind.
    destruct (IH result (t :: stack)) as (out & ops & E & Hpost & Hops); [simpl; rewrite Ht; simpl; lia|]. exists out, (ops ++ [t]).
    rewrite E. split_and!; [by rewrite <- app_assoc|simpl; by rewrite app_assoc, Hpost|]. apply Forall_app_2; [|constructor; [rewrite Ht; simpl; lia|constructor]].
    eapply list.Forall_impl; [exact Hops|]. simpl. intros o [? [?|?]]; [|lia]. exfalso. destruct (TokenType o); simpl in *; lia.
  - cbn [parse_loop]. unfold parse_token at 1. rewrite Hl. cbn [negb ExpectSubformula Result_ OpStack]. run_bind. rewrite parse_loop_app.
    destruct (IH result (l :: stack)) as (out & ops & E & Hpost & Hops); [simpl; rewrite Hl; simpl; lia|]. rewrite E. run_bind. cbn [parse_loop]. unfold parse_token. rewrite Hr.
    cbn [ExpectSubformula Result_ OpStack]. rewrite finishSubformula_pops; [|by eapply list.Forall_impl; [exact Hops|]; intros o [? _]|done]. run_bind.
    exists (postfix e), []. rewrite <- app_assoc, Hpost, app_nil_r. split_and!; [done|done|constructor].
  - rewrite parse_loop_app. pose proof (binary_prec t Ht) as Hprec. destruct (IH1 result stack) as (out1 & ops1 & E1 & Hpost1 & Hops1); [destruct stack; [done|]; simpl in *; lia|].
    rewrite E1. run_bind. cbn [parse_loop]. rewrite parse_binary by done. cbn [Result_ OpStack].
    rewrite processBinaryOp_pops; [|by eapply list.Forall_impl; [exact Hops1|]; simpl; intros; lia|destruct stack; [done|]; simpl in *; lia]. run_bind.
    destruct (IH2 ((result ++ out1) ++ ops1) (t :: stack)) as (out2 & ops2 & E2 & Hpost2 & Hops2); [simpl; lia|]. rewrite E2.
    exists (out1 ++ ops1 ++ out2), (ops2 ++ [t]). split_and!.
    + by rewrite <- !app_assoc.
    + simpl. rewrite <- Hpost1, <- Hpost2. by rewrite <- !app_assoc.
    + apply Forall_app_2; [|constructor; [lia|constructor]]. eapply list.Forall_impl; [exact Hops2|]. simpl. intros; lia.
Qed.

Lemma to_postfix_complete e ts : Derives 1 e ts → to_postfix ts = Ok (postfix e).
Proof.
  intros H. unfold to_postfix. destruct (parse_derives 1 e ts H [] [] I) as (out & ops & -> & Hpost & Hops). run_bind. cbn [ExpectSubformula Result_ OpStack].
  rewrite finishSubformula_pops; [by rewrite app_nil_l, Hpost| |done]. by eapply list.Forall_impl; [exact Hops|]; intros o [? _].
Qed.

(** *** What is accepted is a formula of the language *)

(** The part of a formula in front of the subformula that is expected: the stack and the output. *)
Inductive Context_ : list TFormulaToken → list TFormulaToken → list TFormulaToken → Prop :=
| CEmpty : Context_ [] [] []
| CNot t stack result ts : TokenType t = FLogicalNot → Context_ stack result ts → Context_ (t :: stack) result (ts ++ [t])
| CBracket t stack result ts : TokenType t = FLeftBracket → Context_ stack result ts → Context_ (t :: stack) result (ts ++ [t])
| CBinary t e stack result ts ts1 : is_binary (TokenType t) = true → low (prec t) stack → Context_ stack result ts →
    Derives (prec t) e ts1 → Context_ (t :: stack) (result ++ postfix e) (ts ++ ts1 ++ [t]).

(** Behind a subformula, whose operators bind at least as tightly as [q]. *)
Definition behind (q : nat) (stack result ts : list TFormulaToken) : Prop :=
  ∃ result0 ts0 e ts1, Context_ stack result0 ts0 ∧ low q stack ∧ result = result0 ++ postfix e ∧ ts = ts0 ++ ts1 ∧ Derives q e ts1.

Lemma derives_weaken p q e ts : (q <= p)%nat → Derives p e ts → Derives q e ts.
Proof. intros Hq. destruct 1; [by constructor..|]. constructor; [done|lia|done|done]. Qed.

Lemma prec_bound t : (prec t <= 12)%nat.
Proof. destruct (TokenType t); simpl; lia. Qed.

Lemma low_13 stack : low 13 stack.
Proof. destruct stack as [|t stack]; [done|]. simpl. pose proof (prec_bound t). lia. Qed.

(** Popping an operator makes a tree of it. *)
Lemma behind_pop q top stack result ts : (1 <= q)%nat → TokenType top ≠ FLeftBracket → behind q (top :: stack) result ts →
  ∃ q', (1 <= q')%nat ∧ (prec top <= q')%nat ∧ behind q' stack (result ++ [top]) ts.
Proof.
  intros Hq Hb (result0 & ts0 & e & ts1 & Hc & Hlow & -> & -> & Hd). simpl in Hlow. inversion Hc as [|t ? ? ts' Ht Hc'|t ? ? ts' Ht Hc'|t e0 ? result' ts' ts0' Ht Hl Hc' Hd']; subst; [|done|].
  - exists 13%nat. split_and!; [lia|rewrite Ht; simpl; lia|]. exists result0, ts', (ENot top e), (top :: ts1). split_and!; [done|apply low_13|by rewrite <- app_assoc|by rewrite <- app_assoc|].
    constructor; [done|]. rewrite Ht in Hlow. simpl in Hlow. eapply derives_weaken; [|exact Hd]. lia.
  - pose proof (binary_prec top Ht). exists (prec top). split_and!; [lia|lia|]. exists result', ts', (EBinary top e0 e), (ts0' ++ top :: ts1).
    split_and!; [done|done|simpl; by rewrite <- !app_assoc|by rewrite <- !app_assoc|]. constructor; [done|lia|done|]. eapply derives_weaken; [|exact Hd]. lia.
Qed.

Lemma processBinaryOp_behind t q stack result ts : is_binary (TokenType t) = true → (prec t <= q)%nat → behind q stack result ts →
  ∃ q' result' stack', processBinaryOp t result stack = (result', stack') ∧ (prec t <= q')%nat ∧ low (prec t) stack' ∧ behind q' stack' result' ts.
Proof.
  intros Ht. pose proof (binary_prec t Ht) as Hprec. revert q result. induction stack as [|top stack IH]; intros q result Hq Hb; cbn [processBinaryOp]; [by exists q, result, []|].
  destruct (Nat.leb_spec (prec t) (prec top)) as [Hle|Hgt]; [|by exists q, result, (top :: stack)].
  destruct (behind_pop q top stack result ts ltac:(lia)) as (q' & _ & Hq' & Hb'); [intros E; rewrite E in Hle; simpl in Hle; lia|done|]. apply (IH q'); [lia|done].
Qed.

Lemma finishSubformula_behind q stack result ts : (1 <= q)%nat → behind q stack result ts →
  ∃ q' result' stack', finishSubformula result stack = (result', stack') ∧ (1 <= q')%nat ∧ behind q' stack' result' ts ∧
    match stack' with [] => True | top :: _ => TokenType top = FLeftBracket end.
Proof.
  revert q result. induction stack as [|top stack IH]; intros q result Hq Hb; cbn [finishSubformula]; [by exists q, result, []|]. case_bool_decide as E; [by exists q, result, (top :: stack)|].
  destruct (behind_pop q top stack result ts Hq E Hb) as (q' & Hq' & _ & Hb'). by apply (IH q').
Qed.

(** The invariant of the loop. *)
Definition parse_inv (st : TParseState) (ts : list TFormulaToken) : Prop :=
  if ExpectSubformula st then Context_ (OpStack st) (Result_ st) ts else behind 13 (OpStack st) (Result_ st) ts.

Lemma parse_token_inv t st ts st' : TokenType t ≠ FSet → parse_inv st ts → parse_token t st = Ok st' → parse_inv st' (ts ++ [t]).
Proof.
  intros Hset Hinv. destruct st as [result stack expect]. unfold parse_inv in *. cbn [ExpectSubformula Result_ OpStack] in Hinv. destruct (is_binary (TokenType t)) eqn:Hb.
  - destruct expect; [unfold parse_token; by destruct (TokenType t)|]. rewrite parse_binary by done. cbn [Result_ OpStack]. pose proof (binary_prec t Hb).
    destruct (processBinaryOp_behind t 13 stack result ts Hb ltac:(lia) Hinv) as (q & result' & stack' & -> & Hq & Hlow & (r0 & t0 & e & t1 & Hc & _ & -> & -> & Hd)). intros [= <-]. simpl.
    rewrite <- app_assoc. constructor; [done..|]. by eapply derives_weaken.
  - unfold parse_token. cbn [ExpectSubformula Result_ OpStack]. destruct (TokenType t) eqn:Et; try discriminate Hb; try done.
    1-3: destruct expect; [|done]; intros [= <-]; simpl; exists result, ts, (EAtom t), [t]; (split_and!; [done|apply low_13|done|done|by constructor; rewrite Et]).
    + destruct expect; [|done]. intros [= <-]. simpl. by constructor.
    + destruct expect; [done|]. destruct (finishSubformula_behind 13 stack result ts ltac:(lia) Hinv) as (q & result' & stack' & -> & Hq & Hbe & Htop). destruct stack' as [|top stack']; [done|].
      intros [= <-]. simpl. destruct Hbe as (r0 & t0 & e & t1 & Hc & _ & -> & -> & Hd). inversion Hc as [|t' ? ? ts' Ht' Hc'|t' ? ? ts' Ht' Hc'|t' ? ? ? ? ? Ht']; subst; [congruence| |by rewrite Htop in Ht'].
      exists r0, ts', e, (top :: t1 ++ [t]). split_and!; [done|apply low_13|done|by rewrite <- !app_assoc|]. constructor; [done|done|]. by eapply derives_weaken.
    + destruct expect; [|done]. intros [= <-]. simpl. by constructor.
Qed.

Lemma parse_loop_inv tokens st ts st' : proper_formula tokens → parse_inv st ts → parse_loop tokens st = Ok st' → parse_inv st' (ts ++ tokens).
Proof.
  intros Hp. revert st ts. induction Hp as [|t tokens Ht _ IH]; intros st ts Hinv E; [injection E as <-; by rewrite app_nil_r|].
  cbn [parse_loop] in E. apply bind_ok in E as (st1 & E1 & E). apply (parse_token_inv t st ts st1 Ht Hinv) in E1. rewrite cons_middle, app_assoc. by eapply IH.
Qed.

Lemma to_postfix_sound tokens result : proper_formula tokens → to_postfix tokens = Ok result → ∃ e, Derives 1 e tokens ∧ result = postfix e.
Proof.
  intros Hp. unfold to_postfix. intros (st & E & H)%bind_ok. apply (parse_loop_inv _ _ [] _ Hp) in E; [|constructor]. unfold parse_inv in E. destruct (ExpectSubformula st); [done|].
  destruct (finishSubformula_behind 13 (OpStack st) (Result_ st) _ ltac:(lia) E) as (q & result' & stack' & Ef & Hq & (r0 & t0 & e & t1 & Hc & _ & -> & Et & Hd) & _).
  rewrite Ef in H. destruct stack' as [|? ?]; [|done]. injection H as <-. inversion Hc; subst. exists e. split; [|done]. simpl in Et. subst. by eapply derives_weaken.
Qed.

Lemma to_postfix_total tokens : is_ok (to_postfix tokens) || is_throw (to_postfix tokens) = true.
Proof.
  unfold to_postfix. set (st := {| Result_ := _ |}). clearbody st. revert st. induction tokens as [|t tokens IH]; intros st.
  - cbn [parse_loop]. run_bind. destruct (ExpectSubformula st); [done|]. by destruct (finishSubformula _ _) as [? [|? ?]].
  - cbn [parse_loop]. assert ((∃ st', parse_token t st = Ok st') ∨ ∃ e, parse_token t st = Throw e) as [(st' & ->)|(e & ->)]; [|run_bind; apply IH|done].
    unfold parse_token. destruct (ExpectSubformula st); simpl; destruct (TokenType t); eauto; try (destruct (processBinaryOp _ _ _); by eauto); destruct (finishSubformula _ _) as [? [|? ?]]; eauto.
Qed.

(** The tree is determined by its postfix form. *)
Fixpoint rebuild (tokens : list TFormulaToken) (stack : list TExpression) : list TExpression :=
  match tokens with
  | [] => stack
  | t :: tokens =>
      if is_atom (TokenType t) then rebuild tokens (EAtom t :: stack)
      else match stack with
           | e :: stack' =>
               if bool_decide (TokenType t = FLogicalNot) then rebuild tokens (ENot t e :: stack')
               else match stack' with e1 :: stack' => rebuild tokens (EBinary t e1 e :: stack') | [] => [] end
           | [] => []
           end
  end.

Lemma rebuild_postfix p e ts : Derives p e ts → ∀ rest stack, rebuild (postfix e ++ rest) stack = rebuild rest (e :: stack).
Proof.
  induction 1 as [p t Ht|p t e ts Ht _ IH|p l r e ts Hl Hr _ IH|p t e1 e2 ts1 ts2 Ht Hp _ IH1 _ IH2]; intros rest stack; simpl.
  - by rewrite Ht.
  - rewrite <- app_assoc, IH. simpl. by rewrite Ht.
  - apply IH.
  - rewrite <- !app_assoc, IH1, IH2. simpl. destruct (TokenType t); try discriminate Ht; done.
Qed.

Lemma derives_unique p q e1 e2 ts1 ts2 : Derives p e1 ts1 → Derives q e2 ts2 → postfix e1 = postfix e2 → e1 = e2.
Proof.
  intros H1 H2 E. pose proof (rebuild_postfix p e1 ts1 H1 [] []) as R1. pose proof (rebuild_postfix q e2 ts2 H2 [] []) as R2. simpl in R1, R2. rewrite E, R2 in R1. by injection R1.
Qed.

(** *** Types *)

Fixpoint type_of (e : TExpression) : option EFormulaTokenType :=
  match e with
  | EAtom _ => Some FNumber
  | ENot _ e => if bool_decide (type_of e = Some FNumber) then Some FNumber else None
  | EBinary t e1 e2 =>
      match TokenType t with
      | FComma => if bool_decide (type_of e1 ≠ None) && bool_decide (type_of e2 = Some FNumber) then Some FSet else None
      | FIn => if bool_decide (type_of e1 = Some FNumber) && bool_decide (type_of e2 ≠ None) then Some FNumber else None
      | _ => if bool_decide (type_of e1 = Some FNumber) && bool_decide (type_of e2 = Some FNumber) then Some FNumber else None
      end
  end.

Lemma check_binary t top second stack : is_binary (TokenType t) = true → TokenType t ≠ FComma → TokenType t ≠ FIn →
  check_token t (top :: second :: stack) = (_ ← validateIsNumber top; _ ← validateIsNumber second; Ok (second :: stack)).
Proof. unfold check_token. by destruct (TokenType t). Qed.

Lemma type_of_binary t e1 e2 : is_binary (TokenType t) = true → TokenType t ≠ FComma → TokenType t ≠ FIn →
  type_of (EBinary t e1 e2) = if bool_decide (type_of e1 = Some FNumber) && bool_decide (type_of e2 = Some FNumber) then Some FNumber else None.
Proof. simpl. by destruct (TokenType t). Qed.

Lemma type_of_cases e ty : type_of e = Some ty → ty = FNumber ∨ ty = FSet.
Proof.
  destruct e as [t|t e|t e1 e2]; simpl; [intros [= <-]; by left|case_bool_decide; [intros [= <-]; by left|done]|].
  destruct (TokenType t); match goal with |- context [if ?b then _ else _] => destruct b end; try done; intros [= <-]; auto.
Qed.

Lemma validate_type ty : validateIsNumber ty = if bool_decide (Some ty = Some FNumber) then Ok () else Throw EMalformedFormula.
Proof. unfold validateIsNumber. by do 2 case_bool_decide; simplify_eq. Qed.

(** The check computes the type of the tree. *)
Lemma check_postfix p e ts : Derives p e ts → ∀ rest stack,
  check_loop (postfix e ++ rest) stack = match type_of e with Some ty => check_loop rest (ty :: stack) | None => Throw EMalformedFormula end.
Proof.
  induction 1 as [p t Ht|p t e ts Ht _ IH|p l r e ts Hl Hr _ IH|p t e1 e2 ts1 ts2 Ht Hp _ IH1 _ IH2]; intros rest stack; cbn [postfix].
  - simpl. unfold check_token. by destruct (TokenType t).
  - rewrite <- app_assoc, IH. cbn [type_of]. destruct (type_of e) as [ty|]; [|done]. simpl. unfold check_token. rewrite Ht, validate_type. by case_bool_decide; simplify_eq.
  - apply IH.
  - rewrite <- !app_assoc, IH1. destruct (type_of e1) as [ty1|] eqn:T1.
    + rewrite IH2. destruct (type_of e2) as [ty2|] eqn:T2.
      * cbn [app check_loop]. destruct (decide (TokenType t = FComma)) as [Ec|Hc]; [|destruct (decide (TokenType t = FIn)) as [Ei|Hi]].
        -- unfold check_token. cbn [type_of]. rewrite Ec, T1, T2, validate_type, (bool_decide_eq_true_2 (Some ty1 ≠ None)) by done. by case_bool_decide.
        -- unfold check_token. cbn [type_of]. rewrite Ei, T1, T2, validate_type, (bool_decide_eq_true_2 (Some ty2 ≠ None)) by done. by case_bool_decide; simplify_eq/=.
        -- rewrite check_binary, type_of_binary, T1, T2, !validate_type by done. do 2 case_bool_decide; by simplify_eq/=.
      * cbn [type_of]. rewrite T1, T2. destruct (TokenType t); by rewrite andb_false_r.
    + cbn [type_of]. rewrite T1. by destruct (TokenType t).
Qed.

Lemma CheckTypeConsistency_spec p e ts : Derives p e ts →
  CheckTypeConsistency (postfix e) = if bool_decide (type_of e = Some FNumber) then Ok () else Throw EMalformedFormula.
Proof.
  intros H. unfold CheckTypeConsistency. pose proof (check_postfix p e ts H [] []) as E. rewrite app_nil_r in E. rewrite E.
  destruct (type_of e) as [ty|]; [simpl; apply validate_type|done].
Qed.

(** *** The value of a tree *)

Definition members (v : TFormulaValue) : list Z := match v with VScalar z => [z] | VVector zs => zs end.

Definition divide (f : Z → Z → Z) (vl vr : TFormulaValue) : Result TFormulaValue :=
  r ← scalar vr;
  if r =? 0 then Throw EDivisionByZero
  else l ← scalar vl; if (l =? Int64Min) && (r =? -1) then Throw EDivisionOverflow else Ok (VScalar (f l r)).

Definition binary_value (type : EFormulaTokenType) (vl vr : TFormulaValue) : Result TFormulaValue :=
  match type with
  | FComma => x ← scalar vr; Ok (VVector (members vl ++ [x]))
  | FIn => x ← scalar vl; Ok (VScalar (of_bool (bool_decide (x ∈ members vr))))
  | FDivides => divide Z.quot vl vr
  | FModulus => divide Z.rem vl vr
  | _ => r ← scalar vr; l ← scalar vl; z ← arithmetic_op type l r; Ok (VScalar z)
  end.

Section Denote.
Context (values : gmap (list byte) Z) (context : EEvaluationContext).

Fixpoint denote (e : TExpression) : Result TFormulaValue :=
  match e with
  | EAtom t => if bool_decide (TokenType t = FVariable) then z ← variableValue values context (Name t); Ok (VScalar z) else Ok (VScalar (Number t))
  | ENot _ e => v ← denote e; z ← scalar v; Ok (VScalar (of_bool (z =? 0)))
  | EBinary t e1 e2 => v1 ← denote e1; v2 ← denote e2; binary_value (TokenType t) v1 v2
  end.

Lemma eval_binary t v1 v2 stack : is_binary (TokenType t) = true →
  eval_token values context t (v2 :: v1 :: stack) = (v ← binary_value (TokenType t) v1 v2; Ok (v :: stack)).
Proof.
  intros Ht. unfold eval_token, binary_value, divide. destruct (TokenType t); try discriminate Ht; destruct v2 as [z2|s2]; try done; destruct v1 as [z1|s1]; try done; simpl.
  all: destruct (z2 =? 0); [done|]; try done; by destruct ((_ =? Int64Min) && (z2 =? -1)).
Qed.

(** The postfix form puts the value of the tree on the stack. *)
Lemma eval_postfix p e ts : Derives p e ts → ∀ rest stack,
  eval_loop values context (postfix e ++ rest) stack = (v ← denote e; eval_loop values context rest (v :: stack)).
Proof.
  induction 1 as [p t Ht|p t e ts Ht _ IH|p l r e ts Hl Hr _ IH|p t e1 e2 ts1 ts2 Ht Hp _ IH1 _ IH2]; intros rest stack; cbn [postfix].
  - simpl. unfold eval_token. destruct (TokenType t); try discriminate Ht; simpl; try done. by destruct (variableValue values context (Name t)).
  - rewrite <- app_assoc, IH. cbn [denote]. destruct (denote e) as [v| | |]; try done. simpl. unfold eval_token. rewrite Ht. by destruct v.
  - apply IH.
  - rewrite <- !app_assoc, IH1. cbn [denote]. destruct (denote e1) as [v1| | |]; try done. run_bind. rewrite IH2. destruct (denote e2) as [v2| | |]; try done. run_bind.
    cbn [app eval_loop]. rewrite eval_binary by done. by destruct (binary_value (TokenType t) v1 v2).
Qed.

Lemma EvalFormula_spec p e ts : Derives p e ts → EvalFormula values context (postfix e) = denote e ≫= scalar.
Proof.
  intros H. unfold EvalFormula. pose proof (eval_postfix p e ts H [] []) as E. rewrite app_nil_r in E. rewrite E. by destruct (denote e).
Qed.
End Denote.

(** *** Values stay in range *)

Lemma in_s_shiftr z : in_s 64 z ↔ Z.shiftr z 63 = 0 ∨ Z.shiftr z 63 = -1.
Proof. rewrite Z.shiftr_div_pow2 by lia. unfold in_s. change (2 ^ (64 - 1)) with (2 ^ 63). pose proof (Z.div_mod z (2 ^ 63) ltac:(lia)). pose proof (Z.mod_pos_bound z (2 ^ 63) ltac:(lia)). split; nia. Qed.

Lemma in_s_bitwise (f : Z → Z → Z) x y : (∀ a b n, Z.shiftr (f a b) n = f (Z.shiftr a n) (Z.shiftr b n)) → (∀ a b, (a = 0 ∨ a = -1) → (b = 0 ∨ b = -1) → f a b = 0 ∨ f a b = -1) →
  in_s 64 x → in_s 64 y → in_s 64 (f x y).
Proof. rewrite !in_s_shiftr. intros Hs Hf Hx Hy. rewrite Hs. by apply Hf. Qed.

Lemma in_s_of_bool b : in_s 64 (of_bool b).
Proof. unfold in_s. destruct b; simpl; lia. Qed.

Lemma arithmetic_range type x y : is_binary type = true → match type with FComma | FIn | FDivides | FModulus => False | _ => True end → in_s 64 x → in_s 64 y →
  ∃ z, arithmetic_op type x y = Ok z ∧ in_s 64 z.
Proof.
  intros Hb Ht Hx Hy. assert (∀ z, in_s 64 (wrap_s 64 z)) as Hwrap by (intros z; apply wrap_s_range; lia).
  destruct type; try discriminate Hb; try done; simpl; eexists; (split; [reflexivity|]); try apply in_s_of_bool; try apply Hwrap.
  - apply in_s_bitwise; [apply Z.shiftr_lor| |done|done]. intros a b [-> | ->] [-> | ->]; simpl; auto.
  - apply in_s_bitwise; [apply Z.shiftr_lxor| |done|done]. intros a b [-> | ->] [-> | ->]; simpl; auto.
  - apply in_s_bitwise; [apply Z.shiftr_land| |done|done]. intros a b [-> | ->] [-> | ->]; simpl; auto.
Qed.

Lemma quot_range l r : in_s 64 l → r ≠ 0 → (l =? Int64Min) && (r =? -1) = false → in_s 64 (Z.quot l r).
Proof.
  unfold in_s, Int64Min. change (2 ^ (64 - 1)) with (2 ^ 63). intros Hl Hr Hm. destruct (decide (r = -1)) as [-> |Hr1].
  - rewrite andb_true_r in Hm. apply Z.eqb_neq in Hm. replace (Z.quot l (-1)) with (- Z.quot l 1) by (symmetry; apply (Z.quot_opp_r l 1); lia). rewrite Z.quot_1_r. lia.
  - destruct (decide (r = 1)) as [-> |Hr2]; [rewrite Z.quot_1_r; lia|].
    pose proof (Z.quot_abs l r Hr) as Ha. pose proof (Z.quot_le_compat_l (Z.abs l) 2 (Z.abs r) ltac:(lia) ltac:(lia)) as Hle.
    rewrite (Z.quot_div_nonneg (Z.abs l) 2) in Hle by lia. pose proof (Z.div_mod (Z.abs l) 2 ltac:(lia)). pose proof (Z.mod_pos_bound (Z.abs l) 2 ltac:(lia)). lia.
Qed.

Lemma rem_range l r : in_s 64 r → r ≠ 0 → in_s 64 (Z.rem l r).
Proof. unfold in_s. change (2 ^ (64 - 1)) with (2 ^ 63). intros Hl Hr. pose proof (Z.rem_bound_abs l r Hr). lia. Qed.

(** *** Well-typed formulas do not go wrong *)

Definition value_ok (ty : EFormulaTokenType) (v : TFormulaValue) : Prop :=
  match v with VScalar z => ty = FNumber ∧ in_s 64 z | VVector zs => ty = FSet ∧ Forall (in_s 64) zs end.

(** A value of the type, or an error that only an arithmetic formula can have. *)
Definition safe (context : EEvaluationContext) (ty : EFormulaTokenType) (r : Result TFormulaValue) : Prop :=
  match r with
  | Ok v => value_ok ty v
  | Throw e => context = ArithmeticContext ∧ e ∈ [EUndefinedVariable; EDivisionByZero; EDivisionOverflow]
  | _ => False
  end.

Lemma value_ok_number v : value_ok FNumber v → ∃ z, v = VScalar z ∧ in_s 64 z.
Proof. destruct v; [intros [_ ?]; eauto|by intros [? _]]. Qed.

Lemma value_ok_members ty v : value_ok ty v → Forall (in_s 64) (members v).
Proof. destruct v; intros [_ ?]; simpl; [by constructor|done]. Qed.

Lemma value_safe_bind context ty1 ty2 r (f : TFormulaValue → Result TFormulaValue) : safe context ty1 r → (∀ v, value_ok ty1 v → safe context ty2 (f v)) → safe context ty2 (r ≫= f).
Proof. destruct r; simpl; try done. auto. Qed.

Lemma divide_safe context (f : Z → Z → Z) v1 v2 : context = ArithmeticContext → (∀ l r, in_s 64 l → in_s 64 r → r ≠ 0 → (l =? Int64Min) && (r =? -1) = false → in_s 64 (f l r)) →
  value_ok FNumber v1 → value_ok FNumber v2 → safe context FNumber (divide f v1 v2).
Proof.
  intros Hc Hf (l & -> & Hl)%value_ok_number (r & -> & Hr)%value_ok_number. unfold divide. simpl. destruct (Z.eqb_spec r 0) as [Hr0|Hr0]; [split; [done|by right; left]|].
  destruct ((l =? Int64Min) && (r =? -1)) eqn:E; [split; [done|by right; right; left]|]. split; [done|]. by apply Hf.
Qed.

Lemma arithmetic_safe context type v1 v2 : is_binary type = true → match type with FComma | FIn | FDivides | FModulus => False | _ => True end →
  value_ok FNumber v1 → value_ok FNumber v2 → safe context FNumber (r ← scalar v2; l ← scalar v1; z ← arithmetic_op type l r; Ok (VScalar z)).
Proof.
  intros Hb Ht (l & -> & Hl)%value_ok_number (r & -> & Hr)%value_ok_number. cbn [scalar]. run_bind. destruct (arithmetic_range type l r Hb Ht Hl Hr) as (z & -> & Hz). by split.
Qed.

Lemma binary_safe context t e1 e2 ty v1 v2 ty1 ty2 : is_binary (TokenType t) = true → (context = BooleanContext → allowed_in_boolean (TokenType t) = true) →
  type_of (EBinary t e1 e2) = Some ty → type_of e1 = Some ty1 → type_of e2 = Some ty2 → value_ok ty1 v1 → value_ok ty2 v2 → safe context ty (binary_value (TokenType t) v1 v2).
Proof.
  intros Hb Hc Hty T1 T2 H1 H2. simpl in Hty. rewrite T1, T2 in Hty.
  assert (∀ f, (TokenType t = FDivides ∨ TokenType t = FModulus) → (∀ l r, in_s 64 l → in_s 64 r → r ≠ 0 → (l =? Int64Min) && (r =? -1) = false → in_s 64 (f l r)) →
    ty = FNumber → value_ok FNumber v1 → value_ok FNumber v2 → safe context ty (divide f v1 v2)) as Hd.
  { intros f Ht Hf -> H1' H2'. apply divide_safe; [|done..]. destruct context; [|done]. destruct Ht as [Ht|Ht]; rewrite Ht in Hc; by specialize (Hc eq_refl). }
  destruct (TokenType t) eqn:Et; try discriminate Hb; match type of Hty with (if ?b then _ else _) = _ => destruct b eqn:E; [|discriminate Hty] end; injection Hty as <-;
    apply andb_prop in E as [E1 E2]; apply bool_decide_eq_true_1 in E1, E2; simplify_eq.
  all: try solve [by apply arithmetic_safe | by apply Hd; [auto|intros; by apply quot_range|..] | by apply Hd; [auto|intros; by apply rem_range|..]].
  - apply value_ok_number in H1 as (x & -> & Hx). simpl. split; [done|apply in_s_of_bool].
  - apply value_ok_number in H2 as (x & -> & Hx). simpl. split; [done|]. apply Forall_app_2; [by eapply value_ok_members|by constructor].
Qed.

Lemma denote_safe values context p e ts ty : Derives p e ts → map_Forall (λ _ z, in_s 64 z) values → Forall (λ t, in_s 64 (Number t)) (postfix e) →
  (context = BooleanContext → Forall (λ t, allowed_in_boolean (TokenType t) = true) (postfix e)) → type_of e = Some ty → safe context ty (denote values context e).
Proof.
  intros Hd Hv. revert ty. induction Hd as [p t Ht|p t e ts Ht _ IH|p l r e ts Hl Hr _ IH|p t e1 e2 ts1 ts2 Ht Hp _ IH1 _ IH2]; intros ty Hn Hc Hty; cbn [postfix] in Hn, Hc.
  - injection Hty as <-. simpl. case_bool_decide; [|split; [done|by apply Forall_inv in Hn]]. unfold variableValue. destruct (values !! Name t) as [z|] eqn:E; [by split; [|eapply Hv]|].
    case_bool_decide; simpl; [split; [done|unfold in_s; lia]|]. split; [by destruct context|by left].
  - apply Forall_app in Hn as [Hn _]. simpl in Hty. case_bool_decide as Te; [|done]. injection Hty as <-. cbn [denote].
    eapply (value_safe_bind _ FNumber); [apply IH; [done| |done]; intros E; by apply Hc, Forall_app in E as [? _]|]. intros v (z & -> & Hz)%value_ok_number. simpl. split; [done|apply in_s_of_bool].
  - by apply IH.
  - apply Forall_app in Hn as [Hn1 [Hn2 _]%Forall_app]. assert (∃ ty1 ty2, type_of e1 = Some ty1 ∧ type_of e2 = Some ty2) as (ty1 & ty2 & T1 & T2).
    { simpl in Hty. destruct (type_of e1) as [ty1|]; [|by destruct (TokenType t)]. destruct (type_of e2) as [ty2|]; [by eauto|]. destruct (TokenType t); by rewrite andb_false_r in Hty. }
    cbn [denote]. eapply (value_safe_bind _ ty1); [apply IH1; [done| |done]; intros E; by apply Hc, Forall_app in E as [? _]|]. intros v1 H1.
    eapply (value_safe_bind _ ty2); [apply IH2; [done| |done]; intros E; apply Hc, Forall_app in E as [_ E]; by apply Forall_app in E as [? _]|]. intros v2 H2.
    eapply binary_safe; try done. intros E. apply Hc in E. apply Forall_app in E as [_ E]. apply Forall_app in E as [_ E]. by apply Forall_inv in E.
Qed.

(** *** The checks behind the postfix form *)

(** A tree that may be evaluated in the context. *)
Definition acceptable (context : EEvaluationContext) (e : TExpression) : Prop :=
  type_of e = Some FNumber ∧ (context = BooleanContext → Forall (λ t, allowed_in_boolean (TokenType t) = true) (postfix e)).

Lemma Parse_derives context e tokens : Derives 1 e tokens → acceptable context e → Parse tokens context = Ok (postfix e).
Proof.
  intros Hd [Hty Hc]. unfold Parse. destruct tokens as [|t tokens]; [inversion Hd as [| | |? ? ? ? [|]]; done|]. rewrite (to_postfix_complete e _ Hd). run_bind.
  rewrite (CheckTypeConsistency_spec 1 e _ Hd), Hty. rewrite (bool_decide_eq_true_2 (Some FNumber = Some FNumber)) by done.
  destruct context; [|done]. assert (forallb (λ t, allowed_in_boolean (TokenType t)) (postfix e) = true) as ->; [|done].
  apply forallb_forall. intros t' Ht'. specialize (Hc eq_refl). rewrite List.Forall_forall in Hc. by apply Hc.
Qed.

Lemma Parse_sound context tokens result : proper_formula tokens → tokens ≠ [] → Parse tokens context = Ok result →
  ∃ e, Derives 1 e tokens ∧ acceptable context e ∧ result = postfix e.
Proof.
  intros Hp Hne. unfold Parse. destruct tokens as [|t tokens]; [done|]. intros (result' & Hr & H)%bind_ok. apply (to_postfix_sound _ _ Hp) in Hr as (e & Hd & ->).
  apply bind_ok in H as ([] & Hb & H). apply bind_ok in H as ([] & Ht & H). injection H as <-. exists e. split_and!; [done| |done].
  rewrite (CheckTypeConsistency_spec 1 e _ Hd) in Ht. case_bool_decide as Hty; [|done]. split; [done|]. intros ->. simpl in Hb.
  destruct (forallb (λ t, allowed_in_boolean (TokenType t)) (postfix e)) eqn:E; [|done]. apply List.Forall_forall. by apply forallb_forall.
Qed.

Lemma Parse_total context tokens : proper_formula tokens → is_ok (Parse tokens context) || is_throw (Parse tokens context) = true.
Proof.
  intros Hp. unfold Parse. destruct tokens as [|t tokens]; [done|]. pose proof (to_postfix_total (t :: tokens)) as H. destruct (to_postfix (t :: tokens)) as [result| | |] eqn:E; try done. run_bind.
  apply (to_postfix_sound _ _ Hp) in E as (e & Hd & ->). rewrite (CheckTypeConsistency_spec 1 e _ Hd). destruct (_ && negb _); [done|]. run_bind. by case_bool_decide.
Qed.

(** ** Theorems *)

(** C28. The parser of formulas decides the language of formulas and gives the only reading: for
    every non-empty list of tokens, [Parse] returns exactly when the tokens are derived from
    the grammar (twelve levels of precedence, operators of a level grouped to the left,
    negation tightest, brackets), the tree has numbers where numbers are needed and, in a
    boolean formula, uses the boolean operators only; the result is then the postfix form of
    the tree, and no other tree has these tokens. No check of the parser fails. *)
Theorem Parse_correct (tokens : list TFormulaToken) (context : EEvaluationContext) (Hproper : proper_formula tokens) (Hne : tokens ≠ []) :
  match Parse tokens context with
  | Ok result => ∃ e, Derives 1 e tokens ∧ acceptable context e ∧ result = postfix e ∧ ∀ e', Derives 1 e' tokens → e' = e
  | Throw _ => ∀ e, Derives 1 e tokens → ¬ acceptable context e
  | _ => False
  end.
Proof.
  pose proof (Parse_total context tokens Hproper) as Ht. destruct (Parse tokens context) as [result|err| |] eqn:E; try done.
  - apply (Parse_sound _ _ _ Hproper Hne) in E as (e & Hd & Ha & ->). exists e. split_and!; [done..|]. intros e' Hd'. apply (derives_unique 1 1 e' e tokens tokens Hd' Hd).
    apply to_postfix_complete in Hd, Hd'. congruence.
  - intros e Hd Ha. by rewrite (Parse_derives context e tokens Hd Ha) in E.
Qed.

Lemma Parse_correct_witness :
  let t := plain_token in
  let tokens := [t FVariable; t FBitwiseOr; t FLogicalNot; t FLeftBracket; t FVariable; t FBitwiseAnd; t FVariable; t FRightBracket] in
  proper_formula tokens ∧ tokens ≠ [] ∧ Parse tokens BooleanContext = Ok [t FVariable; t FVariable; t FVariable; t FBitwiseAnd; t FLogicalNot; t FBitwiseOr] ∧
  ∃ e, Derives 1 e tokens ∧ ∀ e', Derives 1 e' tokens → e' = e.
Proof.
  intros t tokens. assert (proper_formula tokens) as Hp by (repeat constructor; done). assert (tokens ≠ []) as Hne by done.
  split; [exact Hp|]. split; [exact Hne|]. split; [vm_compute; reflexivity|].
  pose proof (Parse_correct tokens BooleanContext Hp Hne) as H. destruct (Parse tokens BooleanContext) as [result|err| |] eqn:E; [|vm_compute in E; discriminate E..].
  destruct H as (e & Hd & _ & _ & Hu). exists e. split; [exact Hd|exact Hu].
Defined.
