(* ===== verification/FormulaText.v ===== *)
(** Formulas as texts (misc/arithmetic_formula.cpp): what the tokenizer gives, the values of the
    formulas made from a text, and the operators on boolean formulas, which work on texts. *)

From stdpp Require Import gmap.
From S2P Require Import Prelude IntCast YsonLexer YsonEvents YsonParser YsonGrammar SyntaxChecker PullParser PullTraversal YsonCursor Deserialize Formula.

(** *** What the tokenizer gives *)

Lemma special_not_set context first second third type n : special_token context first second third = Ok (Some (type, n)) → type ≠ FSet ∧ is_atom type = false ∧ (1 <= n)%nat.
Proof.
  unfold special_token. destruct (Byte.eqb first "i" && Byte.eqb second "n"); [destruct (IsSymbolAllowedInName third context false); [done|]; intros [= <- <-]; split_and!; [done|done|lia]|].
  destruct first; try discriminate; try (intros [= <- <-]; split_and!; [done|done|lia]); match goal with |- context [if ?b then _ else _] => destruct b end;
    try discriminate; intros [= <- <-]; (split_and!; [done|done|lia]).
Qed.

Definition token_fine (t : TFormulaToken) : Prop := TokenType t ≠ FSet ∧ in_s 64 (Number t).

Lemma length_skip_while f text : (length (skip_while f text) <= length text)%nat.
Proof. induction text as [|c text IH]; simpl; [lia|]. destruct (f c); simpl; lia. Qed.

Lemma variable_loop_length context first text : (length (variable_loop context first text).2 <= length text)%nat.
Proof.
  revert first. induction text as [|c text IH]; intros first; simpl; [lia|]. destruct (IsSymbolAllowedInName c context first); [|simpl; lia].
  specialize (IH false). destruct (variable_loop context false text). simpl in *. lia.
Qed.

Lemma zero_range : in_s 64 0.
Proof. unfold in_s. lia. Qed.

Lemma extractNumber_ok text number rest : extractNumber text = Ok (number, rest) → in_s 64 number ∧ (length rest < length text)%nat.
Proof.
  unfold extractNumber. destruct (match text with [] => _ | _ => _ end) as [sign text'] eqn:E. assert (length text' <= length text)%nat as Hlen.
  { destruct text as [|c text]; [by injection E as <- <-|]. destruct (Byte.eqb c "-"); injection E as <- <-; simpl; lia. }
  destruct text' as [|c text']; [done|]. destruct (isdigit c) eqn:Hd; [|done]. intros (z & Hz & H)%bind_ok. injection H as <- <-. split; [by apply FromString_i64_spec in Hz as [_ ?]|].
  cbn [skip_while]. rewrite Hd. pose proof (length_skip_while isdigit text'). simpl in *. lia.
Qed.

Lemma next_token_ok context expect c text token expect' rest : next_token context expect c (c :: text) = Ok (token, expect', rest) →
  token_fine token ∧ (length rest < length (c :: text))%nat.
Proof.
  unfold next_token. destruct (_ && (isdigit c || _)).
  - intros ([number rest'] & H & E)%bind_ok. injection E as <- <- <-. apply extractNumber_ok in H as [? ?]. split; [by split|done].
  - destruct (negb expect && Byte.eqb c "%").
    + intros ([number rest'] & H & E)%bind_ok. injection E as <- <- <-. unfold extractBooleanLiteral in H. apply bind_ok in H as (? & _ & H).
      pose proof (length_skip_while isalpha text). case_bool_decide; [injection H as <- <-|case_bool_decide; [injection H as <- <-|done]]; (split; [split; [done|unfold in_s; simpl; lia]|simpl; lia]).
    + intros (special & H & E)%bind_ok. unfold extractSpecialToken in H. apply bind_ok in H as (special' & H & E'). injection E' as <-. destruct special' as [[type n]|].
      * injection E as <- <- <-. apply special_not_set in H as (Hs & _ & Hn). split; [split; [done|apply zero_range]|]. rewrite length_drop. simpl. lia.
      * destruct (IsSymbolAllowedInName c context true) eqn:Hc; [|done]. apply bind_ok in E as ([name rest'] & Hv & E). injection E as <- <- <-. unfold extractVariable in Hv.
        pose proof (variable_loop_length context false text) as Hlen. cbn [variable_loop] in Hv. rewrite Hc in Hv. destruct (variable_loop context false text) as [name' text']. apply bind_ok in Hv as (? & _ & Hv). injection Hv as <- <-. split; [split; [done|apply zero_range]|simpl in *; lia].
Qed.

Lemma tokenize_loop_fine context fuel expect text tokens : tokenize_loop context fuel expect text = Ok tokens → Forall token_fine tokens.
Proof.
  revert expect text tokens. induction fuel as [|fuel IH]; intros expect text tokens; [done|]. cbn [tokenize_loop]. destruct (skip_while IsSpace text) as [|c text']; [intros [= <-]; constructor|].
  intros ([[token expect'] rest] & H & E)%bind_ok. apply bind_ok in E as (tokens' & E & E'). injection E' as <-. constructor; [by apply next_token_ok in H as [? _]|by eapply IH].
Qed.

Lemma Tokenize_fine formula context tokens : Tokenize formula context = Ok tokens → Forall token_fine tokens.
Proof. apply tokenize_loop_fine. Qed.

Lemma extractNumber_total text : (∃ r, extractNumber text = Ok r) ∨ ∃ e, extractNumber text = Throw e.
Proof.
  unfold extractNumber. destruct (match text with [] => _ | _ => _ end) as [sign [|d text']]; [by eauto|]. destruct (isdigit d); [|by eauto].
  unfold FromString_i64. destruct (ParseInt_total true 10 llSBounds (sign ++ take_while isdigit (d :: text'))) as [H| ->]; [|by eauto].
  destruct (ParseInt _ _ _ _); try discriminate H. run_bind. by eauto.
Qed.

Lemma next_token_total context expect c text : (∃ r, next_token context expect c (c :: text) = Ok r) ∨ ∃ e, next_token context expect c (c :: text) = Throw e.
Proof.
  unfold next_token. destruct (_ && (isdigit c || _)).
  - destruct (extractNumber_total (c :: text)) as [([number rest] & ->)|(e & ->)]; by eauto.
  - destruct (negb expect && Byte.eqb c "%") eqn:E.
    + apply andb_prop in E as [_ E]. unfold extractBooleanLiteral. rewrite E. simpl. do 2 (case_bool_decide; [by eauto|]). by eauto.
    + unfold extractSpecialToken. assert (∀ a b d, (∃ r, special_token context a b d = Ok r) ∨ ∃ e, special_token context a b d = Throw e) as Hs.
      { intros a b d. unfold special_token. destruct (Byte.eqb a "i" && Byte.eqb b "n"); [by eauto|]. destruct a; try (left; by eexists). destruct (Byte.eqb b "="); [by eauto|by eauto]. }
      destruct (Hs (char_at (c :: text) 0) (char_at (c :: text) 1) (char_at (c :: text) 2)) as [(r & ->)|(e & ->)]; [|by eauto]. run_bind. destruct r as [[type n]|]; [by eauto|].
      destruct (IsSymbolAllowedInName c context true); [|by eauto]. unfold extractVariable. destruct (variable_loop context true (c :: text)) as [name rest].
      assert ((ValidateFormulaVariable name context = Ok ()) ∨ ValidateFormulaVariable name context = Throw EInvalidArgument) as [-> | ->]; [|run_bind; by eauto..].
      unfold ValidateFormulaVariable. destruct name; [by right|]. repeat match goal with |- context [if ?b then _ else _] => destruct b end; auto.
Qed.

Lemma tokenize_loop_total context fuel expect text : (length text < fuel)%nat → (∃ r, tokenize_loop context fuel expect text = Ok r) ∨ ∃ e, tokenize_loop context fuel expect text = Throw e.
Proof.
  revert expect text. induction fuel as [|fuel IH]; intros expect text Hlen; [lia|]. cbn [tokenize_loop]. pose proof (length_skip_while IsSpace text) as Hskip.
  destruct (skip_while IsSpace text) as [|c text']; [by eauto|]. destruct (next_token_total context expect c text') as [([[token expect'] rest] & E)|(e & ->)]; [|by eauto]. rewrite E. run_bind.
  apply next_token_ok in E as [_ E]. destruct (IH expect' rest ltac:(lia)) as [(r & ->)|(e & ->)]; by eauto.
Qed.

(** The fuel does not matter. *)
Lemma tokenize_fuel context fuel1 fuel2 expect text : (length text < fuel1)%nat → (length text < fuel2)%nat →
  tokenize_loop context fuel1 expect text = tokenize_loop context fuel2 expect text.
Proof.
  revert fuel2 expect text. induction fuel1 as [|fuel1 IH]; intros fuel2 expect text H1 H2; [lia|]. destruct fuel2 as [|fuel2]; [lia|]. cbn [tokenize_loop].
  pose proof (length_skip_while IsSpace text) as Hskip. destruct (skip_while IsSpace text) as [|c text']; [done|].
  destruct (next_token context expect c (c :: text')) as [[[token expect'] rest]| | |] eqn:E; try done. run_bind. apply next_token_ok in E as [_ E]. by rewrite (IH fuel2) by lia.
Qed.

(** *** Inside of brackets *)

Section Closing.
Context (context : EEvaluationContext) (r : list byte).
#[local] Abbreviation close := (")"%byte :: r).

Lemma skip_while_close f text : f ")"%byte = false → skip_while f (text ++ close) = skip_while f text ++ close.
Proof. intros Hf. induction text as [|c text IH]; simpl; [by rewrite Hf|]. by destruct (f c). Qed.

Lemma take_while_close f text : f ")"%byte = false → take_while f (text ++ close) = take_while f text.
Proof. intros Hf. induction text as [|c text IH]; simpl; [by rewrite Hf|]. destruct (f c); [by rewrite IH|done]. Qed.

Lemma variable_loop_close first text : variable_loop context first (text ++ close) = ((variable_loop context first text).1, (variable_loop context first text).2 ++ close).
Proof.
  revert first. induction text as [|c text IH]; intros first; simpl; [by destruct context, first|]. destruct (IsSymbolAllowedInName c context first); [|done].
  rewrite IH. by destruct (variable_loop context false text).
Qed.

Lemma extractNumber_close text number rest : extractNumber text = Ok (number, rest) → extractNumber (text ++ close) = Ok (number, rest ++ close).
Proof.
  unfold extractNumber. assert (∀ sign text, match text with [] => Throw EMalformedFormula | c :: _ => if isdigit c then number ← FromString_i64 (sign ++ take_while isdigit text); Ok (number, skip_while isdigit text) else Throw EMalformedFormula end = Ok (number, rest) →
    match text ++ close with [] => Throw EMalformedFormula | c :: _ => if isdigit c then number ← FromString_i64 (sign ++ take_while isdigit (text ++ close)); Ok (number, skip_while isdigit (text ++ close)) else Throw EMalformedFormula end = Ok (number, rest ++ close)) as H.
  { intros sign [|c text']; [done|]. destruct (isdigit c) eqn:Hd; [|done]. rewrite skip_while_close, take_while_close by done. cbn [app]. rewrite Hd. intros (z & -> & E)%bind_ok. injection E as <- <-. done. }
  destruct text as [|c text]; [done|]. cbn [app]. destruct (Byte.eqb c "-"); [exact (H [c] text)|exact (H [] (c :: text))].
Qed.

Lemma special_close c text : special_token context c (char_at (c :: text ++ close) 1) (char_at (c :: text ++ close) 2) = special_token context c (char_at (c :: text) 1) (char_at (c :: text) 2).
Proof.
  destruct text as [|c2 [|c3 text]]; [..|done].
  - cbn [app]. change (char_at [c] 1) with x00. change (char_at [c] 2) with x00. change (char_at (c :: close) 1) with ")"%byte. generalize (char_at (c :: close) 2). intros b.
    unfold special_token. rewrite !andb_false_r. by destruct c.
  - change (char_at [c; c2] 1) with c2. change (char_at [c; c2] 2) with x00. change (char_at (c :: [c2] ++ close) 1) with c2. change (char_at (c :: [c2] ++ close) 2) with ")"%byte.
    unfold special_token. destruct (Byte.eqb c "i" && Byte.eqb c2 "n"); [by destruct context|done].
Qed.

Lemma special_within c text type n : special_token context c (char_at (c :: text) 1) (char_at (c :: text) 2) = Ok (Some (type, n)) → (n <= length (c :: text))%nat.
Proof.
  destruct text as [|c2 text].
  - change (char_at [c] 1) with x00. change (char_at [c] 2) with x00. unfold special_token. rewrite andb_false_r. destruct c; try discriminate; intros [= <- <-]; simpl; lia.
  - generalize (char_at (c :: c2 :: text) 2). change (char_at (c :: c2 :: text) 1) with c2. intros b. unfold special_token.
    destruct (Byte.eqb c "i" && Byte.eqb c2 "n"); [destruct (IsSymbolAllowedInName b context false); [done|]; intros [= <- <-]; simpl; lia|].
    destruct c; try discriminate; try (intros [= <- <-]; simpl; lia); match goal with |- context [if ?x then _ else _] => destruct x end; try discriminate; intros [= <- <-]; simpl; lia.
Qed.

Lemma next_token_close expect c text token expect' rest : next_token context expect c (c :: text) = Ok (token, expect', rest) →
  next_token context expect c (c :: text ++ close) = Ok (token, expect', rest ++ close).
Proof.
  unfold next_token. destruct (_ && (isdigit c || _)).
  - intros ([number rest'] & H & E)%bind_ok. injection E as <- <- <-. apply extractNumber_close in H. cbn [app] in H. by rewrite H.
  - destruct (negb expect && Byte.eqb c "%").
    + unfold extractBooleanLiteral. rewrite skip_while_close, take_while_close by done. destruct (Byte.eqb c "%"); [|done]. cbn [Verify]. run_bind.
      destruct (bool_decide (take_while isalpha text = B"false")); [run_bind; intros E; injection E as <- <- <-; done|].
      destruct (bool_decide (take_while isalpha text = B"true")); [run_bind; intros E; injection E as <- <- <-; done|done].
    + unfold extractSpecialToken. change (char_at (c :: text ++ close) 0) with c. change (char_at (c :: text) 0) with c. rewrite special_close.
      intros (special & H & E)%bind_ok. apply bind_ok in H as (special' & H & E'). injection E' as <-. rewrite H. run_bind. destruct special' as [[type n]|].
      * injection E as <- <- <-. apply special_within in H. by rewrite app_comm_cons, drop_app_le by lia.
      * destruct (IsSymbolAllowedInName c context true) eqn:Hc; [|done]. apply bind_ok in E as ([name rest'] & Hv & E). injection E as <- <- <-. unfold extractVariable in *.
        rewrite app_comm_cons, variable_loop_close. destruct (variable_loop context true (c :: text)) as [name' text']. apply bind_ok in Hv as (u & Hu & Hv). injection Hv as <- <-. cbn [fst snd]. by rewrite Hu.
Qed.

(** A formula in front of a closing bracket has the tokens it has alone. *)
Lemma tokenize_close fuel1 fuel2 expect text tokens : tokenize_loop context fuel1 expect text = Ok tokens → (length (text ++ close) < fuel2)%nat →
  tokenize_loop context fuel2 expect (text ++ close) = (rest ← tokenize_loop context (S (length r)) true r; Ok (tokens ++ plain_token FRightBracket :: rest)).
Proof.
  remember (tokenize_loop context (S (length r)) true r) as tail eqn:Etail.
  revert fuel2 expect text tokens. induction fuel1 as [|fuel1 IH]; intros fuel2 expect text tokens; [done|]. destruct fuel2 as [|fuel2]; [lia|]. cbn [tokenize_loop].
  rewrite skip_while_close by done. pose proof (length_skip_while IsSpace text) as Hskip. destruct (skip_while IsSpace text) as [|c text'].
  - intros [= <-] Hlen. rewrite length_app in Hlen. simpl in Hlen. cbn [app]. assert (next_token context expect ")" close = Ok (plain_token FRightBracket, true, r)) as ->.
    { unfold next_token. simpl. rewrite !andb_false_r. done. }
    run_bind. rewrite (tokenize_fuel context fuel2 (S (length r))) by lia. rewrite <- Etail. by destruct tail.
  - intros ([[token expect'] rest] & H & E)%bind_ok Hlen. apply bind_ok in E as (tokens' & E & E'). injection E' as <-. cbn [app]. rewrite (next_token_close _ _ _ _ _ _ H). run_bind.
    apply next_token_ok in H as [_ H]. rewrite (IH fuel2 expect' rest tokens' E); [|rewrite length_app in Hlen |- *; simpl in *; lia]. by destruct tail.
Qed.
End Closing.

(** ** Texts and trees *)

Definition tokens_of (context : EEvaluationContext) (expect : bool) (text : list byte) : Result (list TFormulaToken) :=
  tokenize_loop context (S (length text)) expect text.

Lemma tokens_of_close context expect text tokens r : tokens_of context expect text = Ok tokens →
  tokens_of context expect (text ++ ")"%byte :: r) = (rest ← tokens_of context true r; Ok (tokens ++ plain_token FRightBracket :: rest)).
Proof. intros H. unfold tokens_of at 1. eapply (tokenize_close context r); [exact H|lia]. Qed.

(** A single character that is a token. *)
Lemma tokens_of_char context expect c text type n : IsSpace c = false → next_token context expect c (c :: text) = Ok (plain_token type, bool_decide (type = FRightBracket), drop n (c :: text)) → (1 <= n)%nat →
  tokens_of context expect (c :: text) = (rest ← tokens_of context (bool_decide (type = FRightBracket)) (drop n (c :: text)); Ok (plain_token type :: rest)).
Proof.
  intros Hs Hn Hlt. unfold tokens_of at 1. cbn [tokenize_loop skip_while]. rewrite Hs, Hn. run_bind. unfold tokens_of. f_equal. apply tokenize_fuel; rewrite length_drop; simpl; lia.
Qed.

Lemma tokens_of_space context expect text : tokens_of context expect (" "%byte :: text) = tokens_of context expect text.
Proof.
  unfold tokens_of. transitivity (tokenize_loop context (S (S (length text))) expect text); [done|]. apply tokenize_fuel; lia.
Qed.

Lemma proper_tokens tokens : Forall token_fine tokens → proper_formula tokens.
Proof. intros H. eapply list.Forall_impl; [exact H|]. by intros t [? _]. Qed.

Lemma derives_postfix p e ts P : Derives p e ts → Forall P ts → Forall P (postfix e).
Proof.
  induction 1 as [p t Ht|p t e ts Ht _ IH|p l r e ts Hl Hr _ IH|p t e1 e2 ts1 ts2 Ht Hp _ IH1 _ IH2]; intros H; cbn [postfix]; [done|..].
  - inversion H; subst. apply Forall_app_2; [auto|by constructor].
  - inversion H as [|? ? _ H']; subst. apply Forall_app in H' as [? _]. auto.
  - apply Forall_app in H as [H1 H2]. inversion H2; subst. apply Forall_app_2; [auto|]. apply Forall_app_2; [auto|by constructor].
Qed.

Section Make.
Context (ComputeHash : list byte → Z).

(** What a formula is: its tokens and, unless it is empty, their tree. *)
Lemma Make_inv formula context f : MakeGenericFormulaImpl ComputeHash formula context = Ok f →
  Formula_ f = formula ∧ ∃ tokens, Tokenize formula context = Ok tokens ∧ Forall token_fine tokens ∧
    (tokens = [] ∧ ParsedFormula_ f = [] ∨ tokens ≠ [] ∧ ∃ e, Derives 1 e tokens ∧ acceptable context e ∧ ParsedFormula_ f = postfix e).
Proof.
  unfold MakeGenericFormulaImpl. intros (tokens & Ht & H)%bind_ok. apply bind_ok in H as (parsed & Hp & H). injection H as <-. split; [done|]. exists tokens.
  pose proof (Tokenize_fine _ _ _ Ht) as Hf. split_and!; [done|done|]. destruct tokens as [|t tokens]; [left; by injection Hp as <-|right]. split; [done|].
  apply Parse_sound in Hp as (e & Hd & Ha & ->); [|by apply proper_tokens|done]. by exists e.
Qed.

Lemma Make_derives formula context tokens e : Tokenize formula context = Ok tokens → Derives 1 e tokens → acceptable context e →
  MakeGenericFormulaImpl ComputeHash formula context = Ok {| Formula_ := formula; Hash_ := CalculateHash ComputeHash (postfix e); ParsedFormula_ := postfix e |}.
Proof. intros Ht Hd Ha. unfold MakeGenericFormulaImpl. rewrite Ht. run_bind. by rewrite (Parse_derives context e tokens Hd Ha). Qed.
End Make.

(** ** Boolean formulas *)

Fixpoint truth (tags : list (list byte)) (e : TExpression) : bool :=
  match e with
  | EAtom t => if bool_decide (TokenType t = FVariable) then bool_decide (Name t ∈ tags) else negb (Number t =? 0)
  | ENot _ e => negb (truth tags e)
  | EBinary t e1 e2 => if bool_decide (TokenType t = FBitwiseAnd) then truth tags e1 && truth tags e2 else truth tags e1 || truth tags e2
  end.

Lemma PreparedTags_lookup tags key : PreparedTags tags !! key = if bool_decide (key ∈ tags) then Some 1 else None.
Proof.
  unfold PreparedTags. assert (∀ m, foldl (λ (values : gmap (list byte) Z) key, <[key := 1]> values) m tags !! key = if bool_decide (key ∈ tags) then Some 1 else m !! key) as H; [|apply H].
  induction tags as [|tag tags IH]; intros m; [done|]. cbn [foldl]. rewrite IH. destruct (decide (key ∈ tags)) as [Hin|Hout].
  - by rewrite !bool_decide_eq_true_2 by (try right; done).
  - rewrite (bool_decide_eq_false_2 (key ∈ tags)) by done. destruct (decide (key = tag)) as [-> |Hne].
    + by rewrite lookup_insert_eq, bool_decide_eq_true_2 by left.
    + rewrite lookup_insert_ne by done. rewrite bool_decide_eq_false_2; [done|]. intros [?|?]%elem_of_cons; done.
Qed.

(** The tokens of boolean literals. *)
Definition literal_fine (t : TFormulaToken) : Prop := TokenType t = FBooleanLiteral → Number t = 0 ∨ Number t = 1.

Lemma tokenize_literals context fuel expect text tokens : tokenize_loop context fuel expect text = Ok tokens → Forall literal_fine tokens.
Proof.
  revert expect text tokens. induction fuel as [|fuel IH]; intros expect text tokens; [done|]. cbn [tokenize_loop]. destruct (skip_while IsSpace text) as [|c text']; [intros [= <-]; constructor|].
  intros ([[token expect'] rest] & H & E)%bind_ok. apply bind_ok in E as (tokens' & E & E'). injection E' as <-. constructor; [|by eapply IH]. clear E IH. unfold next_token in H.
  destruct (_ && (isdigit c || _)); [apply bind_ok in H as ([? ?] & _ & H); by injection H as <- <- <-|]. destruct (negb expect && Byte.eqb c "%").
  - apply bind_ok in H as ([z ?] & Hl & H). injection H as <- <- <-. intros _. simpl. unfold extractBooleanLiteral in Hl. apply bind_ok in Hl as (? & _ & Hl).
    case_bool_decide; [injection Hl as <- <-; auto|]. case_bool_decide; [injection Hl as <- <-; auto|done].
  - apply bind_ok in H as (special & Hs & H). unfold extractSpecialToken in Hs. apply bind_ok in Hs as (special' & Hs & E'). injection E' as <-. destruct special' as [[type n]|].
    + injection H as <- <- <-. apply special_not_set in Hs as (_ & Ha & _). intros E. simpl in E. by subst.
    + destruct (IsSymbolAllowedInName c context true); [|done]. apply bind_ok in H as ([? ?] & _ & H). by injection H as <- <- <-.
Qed.

Lemma truth_denote tags p e ts : Derives p e ts → Forall literal_fine (postfix e) → Forall (λ t, allowed_in_boolean (TokenType t) = true) (postfix e) →
  denote (PreparedTags tags) BooleanContext e = Ok (VScalar (of_bool (truth tags e))).
Proof.
  induction 1 as [p t Ht|p t e ts Ht _ IH|p l r e ts Hl Hr _ IH|p t e1 e2 ts1 ts2 Ht Hp _ IH1 _ IH2]; intros Hf Ha; cbn [postfix] in Hf, Ha.
  - apply Forall_inv in Hf, Ha. cbn [denote truth]. case_bool_decide as Ev.
    + unfold variableValue. rewrite PreparedTags_lookup. by case_bool_decide.
    + destruct (TokenType t) eqn:Et; try discriminate Ht; try discriminate Ha; try done. by destruct (Hf Et) as [-> | ->].
  - apply Forall_app in Hf as [Hf _], Ha as [Ha _]. cbn [denote truth]. rewrite IH by done. by destruct (truth tags e).
  - by apply IH.
  - apply Forall_app in Hf as [Hf1 [Hf2 _]%Forall_app], Ha as [Ha1 [Ha2 Ha3]%Forall_app]. apply Forall_inv in Ha3. cbn [denote truth]. rewrite IH1, IH2 by done.
    destruct (TokenType t); try discriminate Ht; try discriminate Ha3; simpl; destruct (truth tags e1), (truth tags e2); done.
Qed.

Section Boolean.
Context (ComputeHash : list byte → Z).

(** A formula made from a text. *)
Definition boolean_formula (f : TGenericFormulaImpl) : Prop := MakeBooleanFormula ComputeHash (Formula_ f) = Ok f.

Lemma postfix_nonempty e : postfix e ≠ [].
Proof. destruct e; simpl; [done|by destruct (postfix e)|]. destruct (postfix e1); [by destruct (postfix e2)|done]. Qed.

Lemma satisfied_tree f tags p e ts : Derives p e ts → Forall literal_fine ts → acceptable BooleanContext e → ParsedFormula_ f = postfix e → IsSatisfiedBy f tags = Ok (truth tags e).
Proof.
  intros Hd Hf [_ Ha] E. unfold IsSatisfiedBy. rewrite E, (EvalFormula_spec _ _ p e ts Hd), (truth_denote tags p e ts Hd); [|by eapply derives_postfix|by apply Ha].
  simpl. by destruct (truth tags e).
Qed.

Lemma boolean_cases f : boolean_formula f →
  FormulaIsEmpty f = true ∧ (∀ tags, IsSatisfiedBy f tags = Ok true) ∨
  FormulaIsEmpty f = false ∧ ∃ tokens e, tokens_of BooleanContext false (Formula_ f) = Ok tokens ∧ Derives 1 e tokens ∧ acceptable BooleanContext e ∧ ∀ tags, IsSatisfiedBy f tags = Ok (truth tags e).
Proof.
  intros (_ & tokens & Ht & _ & [[-> E]|(Hne & e & Hd & Ha & E)])%Make_inv; unfold FormulaIsEmpty.
  - left. rewrite bool_decide_eq_true_2 by done. split; [done|]. intros tags. unfold IsSatisfiedBy. by rewrite E.
  - right. rewrite bool_decide_eq_false_2 by (rewrite E; apply postfix_nonempty). split; [done|]. exists tokens, e. split_and!; [done..|]. intros tags.
    eapply satisfied_tree; [done| |done|done]. by eapply tokenize_literals.
Qed.

Lemma make_boolean text tokens e : tokens_of BooleanContext false text = Ok tokens → Derives 1 e tokens → acceptable BooleanContext e →
  ∃ f, MakeBooleanFormula ComputeHash text = Ok f ∧ boolean_formula f ∧ ∀ tags, IsSatisfiedBy f tags = Ok (truth tags e).
Proof.
  intros Ht Hd Ha. pose proof (Make_derives ComputeHash text BooleanContext tokens e Ht Hd Ha) as E. eexists. split_and!; [exact E|exact E|]. intros tags.
  eapply satisfied_tree; [done| |done|done]. by eapply tokenize_literals.
Qed.

(** A formula in brackets, and behind it the rest of a text. *)
Lemma tokens_of_brackets text tokens rest rest_tokens : tokens_of BooleanContext false text = Ok tokens → tokens_of BooleanContext true rest = Ok rest_tokens →
  tokens_of BooleanContext false ("("%byte :: text ++ ")"%byte :: rest) = Ok (plain_token FLeftBracket :: tokens ++ plain_token FRightBracket :: rest_tokens).
Proof.
  intros Ht Hr. rewrite (tokens_of_char _ _ _ _ FLeftBracket 1); [|done|done|lia]. cbn [drop]; rewrite ?drop_0. rewrite (tokens_of_close _ _ _ tokens) by exact Ht. by rewrite Hr.
Qed.

Lemma derives_brackets p e tokens : Derives 1 e tokens → Derives p e (plain_token FLeftBracket :: tokens ++ [plain_token FRightBracket]).
Proof. by constructor. Qed.

(** Two formulas in brackets with an operator between them. *)
Lemma make_binary op c text1 text2 tokens1 tokens2 e1 e2 :
  (op = FBitwiseAnd ∧ c = "&"%byte ∨ op = FBitwiseOr ∧ c = "|"%byte) →
  tokens_of BooleanContext false text1 = Ok tokens1 → Derives 1 e1 tokens1 → acceptable BooleanContext e1 →
  tokens_of BooleanContext false text2 = Ok tokens2 → Derives 1 e2 tokens2 → acceptable BooleanContext e2 →
  ∃ f, MakeBooleanFormula ComputeHash (B"(" ++ text1 ++ (B") " ++ [c] ++ B" (") ++ text2 ++ B")") = Ok f ∧ boolean_formula f ∧
    ∀ tags, IsSatisfiedBy f tags = Ok (if bool_decide (op = FBitwiseAnd) then truth tags e1 && truth tags e2 else truth tags e1 || truth tags e2).
Proof.
  intros Hop Ht1 Hd1 [Hty1 Ha1] Ht2 Hd2 [Hty2 Ha2].
  change (B"(" ++ text1 ++ (B") " ++ [c] ++ B" (") ++ text2 ++ B")") with ("("%byte :: text1 ++ ")"%byte :: " "%byte :: c :: " "%byte :: "("%byte :: text2 ++ [")"%byte]).
  apply (make_boolean _ (plain_token FLeftBracket :: tokens1 ++ plain_token FRightBracket :: plain_token op :: plain_token FLeftBracket :: tokens2 ++ [plain_token FRightBracket]) (EBinary (plain_token op) e1 e2)).
  - apply tokens_of_brackets; [done|]. rewrite tokens_of_space, (tokens_of_char _ _ _ _ op 1); [|by destruct Hop as [[-> ->]|[-> ->]]..|lia]. cbn [drop]; rewrite ?drop_0.
    assert (bool_decide (op = FRightBracket) = false) as -> by (by destruct Hop as [[-> _]|[-> _]]). rewrite tokens_of_space, (tokens_of_brackets _ tokens2 [] []) by done. done.
  - change (plain_token FLeftBracket :: tokens1 ++ plain_token FRightBracket :: plain_token op :: ?x) with ((plain_token FLeftBracket :: tokens1) ++ [plain_token FRightBracket] ++ plain_token op :: x).
    rewrite app_assoc. constructor; [by destruct Hop as [[-> _]|[-> _]]|destruct Hop as [[-> _]|[-> _]]; simpl; lia|by apply derives_brackets|by apply derives_brackets].
  - split; [simpl; rewrite Hty1, Hty2; by destruct Hop as [[-> _]|[-> _]]|]. intros Hc. simpl. apply Forall_app_2; [by apply Ha1|]. apply Forall_app_2; [by apply Ha2|].
    constructor; [by destruct Hop as [[-> _]|[-> _]]|constructor].
Qed.

Lemma make_not text tokens e : tokens_of BooleanContext false text = Ok tokens → Derives 1 e tokens → acceptable BooleanContext e →
  ∃ f, MakeBooleanFormula ComputeHash (B"!(" ++ text ++ B")") = Ok f ∧ boolean_formula f ∧ ∀ tags, IsSatisfiedBy f tags = Ok (negb (truth tags e)).
Proof.
  intros Ht Hd [Hty Ha]. change (B"!(" ++ text ++ B")") with ("!"%byte :: "("%byte :: text ++ [")"%byte]).
  apply (make_boolean _ (plain_token FLogicalNot :: plain_token FLeftBracket :: tokens ++ [plain_token FRightBracket]) (ENot (plain_token FLogicalNot) e)).
  - rewrite (tokens_of_char _ _ _ _ FLogicalNot 1); [|done|done|lia]. cbn [drop]; rewrite ?drop_0. change (bool_decide (FLogicalNot = FRightBracket)) with false. by rewrite (tokens_of_brackets _ tokens [] []).
  - constructor; [done|]. by apply derives_brackets.
  - split; [simpl; by rewrite Hty|]. intros Hc. simpl. apply Forall_app_2; [by apply Ha|]. constructor; [done|constructor].
Qed.
End Boolean.

(** ** Theorems *)

Lemma binary_defined type v1 v2 : binary_value type v1 v2 ≠ Throw EUndefinedVariable.
Proof.
  unfold binary_value, divide. destruct v1 as [z1|s1], v2 as [z2|s2], type; simpl; try done; try (by destruct (z2 =? 0)).
  all: destruct (z2 =? 0); [done|]; by destruct ((z1 =? Int64Min) && (z2 =? -1)).
Qed.

Lemma denote_undefined values context p e ts : Derives p e ts → denote values context e = Throw EUndefinedVariable →
  ∃ t, t ∈ postfix e ∧ TokenType t = FVariable ∧ values !! Name t = None.
Proof.
  induction 1 as [p t Ht|p t e ts Ht _ IH|p l r e ts Hl Hr _ IH|p t e1 e2 ts1 ts2 Ht Hp _ IH1 _ IH2]; cbn [denote postfix]; intros E.
  - case_bool_decide; [|done]. exists t. unfold variableValue in E. destruct (values !! Name t); [done|]. split_and!; [by left|done|done].
  - destruct (denote values context e) as [v|err| |] eqn:Ee; try done; run_bind in E; [by destruct v|]. injection E as ->. destruct (IH eq_refl) as (t' & Hin & H). exists t'. split; [|done].
    apply elem_of_app. by left.
  - by apply IH.
  - destruct (denote values context e1) as [v1|err| |]; try done; run_bind in E.
    + destruct (denote values context e2) as [v2|err| |]; try done; run_bind in E; [by apply binary_defined in E|]. injection E as ->. destruct (IH2 eq_refl) as (t' & Hin & H). exists t'. split; [|done].
      apply elem_of_app. right. apply elem_of_app. by left.
    + injection E as ->. destruct (IH1 eq_refl) as (t' & Hin & H). exists t'. split; [|done]. apply elem_of_app. by left.
Qed.

(** C29. Formulas that were made do not go wrong: whatever the text, making a formula returns or
    throws; evaluating a formula that was made, in its context and on values that are [i64],
    gives an [i64] or one of the errors of the evaluation, each only for its reason (a
    variable of the formula without a value, an empty formula, a division), and a boolean
    formula has no errors at all. No check of the evaluator fails: the stack always has the
    operands, of the types they must have, and one value at the end. *)
Theorem Formula_type_safe (ComputeHash : list byte → Z) (formula : list byte) (context : EEvaluationContext) (values : gmap (list byte) Z)
    (Hvalues : map_Forall (λ _ z, in_s 64 z) values) :
  match MakeGenericFormulaImpl ComputeHash formula context with
  | Ok f =>
      match EvalFormula values context (ParsedFormula_ f) with
      | Ok z => in_s 64 z
      | Throw e => context = ArithmeticContext ∧
          (e = EUndefinedVariable ∧ (∃ variable, variable ∈ GetVariables f ∧ values !! variable = None) ∨
           e = EEmptyFormula ∧ FormulaIsEmpty f = true ∨ e = EDivisionByZero ∨ e = EDivisionOverflow)
      | _ => False
      end
  | Throw _ => True
  | _ => False
  end.
Proof.
  destruct (MakeGenericFormulaImpl ComputeHash formula context) as [f| | |] eqn:E; [|done|..].
  - apply Make_inv in E as (_ & tokens & _ & Hf & [[-> E]|(_ & e & Hd & [Hty Ha] & E)]); rewrite E.
    + destruct context; [unfold EvalFormula; simpl; unfold in_s; lia|]. split; [done|]. right. left. split; [done|]. unfold FormulaIsEmpty. by rewrite E.
    + rewrite (EvalFormula_spec _ _ 1 e tokens Hd). assert (Forall (λ t, in_s 64 (Number t)) (postfix e)) as Hn.
      { eapply derives_postfix; [exact Hd|]. eapply list.Forall_impl; [exact Hf|]. by intros t [_ ?]. }
      pose proof (denote_safe values context 1 e tokens FNumber Hd Hvalues Hn Ha Hty) as Hs. destruct (denote values context e) as [v|err| |] eqn:Ed; try done; run_bind.
      * apply value_ok_number in Hs as (z & -> & Hz). exact Hz.
      * destruct Hs as [Hc Herr]. split; [done|]. repeat (apply elem_of_cons in Herr as [-> |Herr]; [|]); [|auto..|by apply elem_of_nil in Herr]. left. split; [done|].
        destruct (denote_undefined values context 1 e tokens Hd Ed) as (t & Hin & Ht & Hl). exists (Name t). split; [|done]. unfold GetVariables. apply elem_of_list_to_set, list_elem_of_In, in_map_iff.
        exists t. split; [done|]. apply list_elem_of_In, list_elem_of_filter. by rewrite E.
  - unfold MakeGenericFormulaImpl in E. destruct (tokenize_loop_total context (S (length formula)) false formula ltac:(lia)) as [(tokens & Ht)|(e & Ht)]; fold (Tokenize formula context) in Ht; rewrite Ht in E; [|done].
    run_bind in E. apply Tokenize_fine, proper_tokens, (Parse_total context) in Ht. by destruct (Parse tokens context).
  - unfold MakeGenericFormulaImpl in E. destruct (tokenize_loop_total context (S (length formula)) false formula ltac:(lia)) as [(tokens & Ht)|(e & Ht)]; fold (Tokenize formula context) in Ht; rewrite Ht in E; [|done].
    run_bind in E. apply Tokenize_fine, proper_tokens, (Parse_total context) in Ht. by destruct (Parse tokens context).
Qed.

Lemma Formula_type_safe_witness :
  let values : gmap (list byte) Z := {[ B"a" := 7 ]} in
  map_Forall (λ _ z, in_s 64 z) values ∧
  ∃ f, MakeGenericFormulaImpl (λ _, 0) (B"(a + 5) * 2 in -1, 24") ArithmeticContext = Ok f ∧ EvalFormula values ArithmeticContext (ParsedFormula_ f) = Ok 1 ∧ in_s 64 1.
Proof.
  intros values. assert (map_Forall (λ _ z, in_s 64 z) values) as Hv by (apply map_Forall_singleton; unfold in_s; lia). split; [exact Hv|].
  pose proof (Formula_type_safe (λ _, 0) (B"(a + 5) * 2 in -1, 24") ArithmeticContext values Hv) as H.
  destruct (MakeGenericFormulaImpl (λ _, 0) (B"(a + 5) * 2 in -1, 24") ArithmeticContext) as [f| | |] eqn:E; [|vm_compute in E; discriminate E..]. exists f. split; [reflexivity|].
  assert (EvalFormula values ArithmeticContext (ParsedFormula_ f) = Ok 1) as Ev by (vm_compute in E; injection E as <-; vm_compute; reflexivity). rewrite Ev in H. split; [exact Ev|exact H].
Defined.

(** C30. A formula means its tree: the tokens of the text of a formula that was made are derived
    from the grammar by one tree, and evaluating it computes the value of that tree, operand
    by operand from left to right with the errors of the operators; the empty formula is true
    as a boolean formula and has no value as an arithmetic one. *)
Theorem Formula_value (ComputeHash : list byte → Z) (formula : list byte) (context : EEvaluationContext) (f : TGenericFormulaImpl)
    (Hmake : MakeGenericFormulaImpl ComputeHash formula context = Ok f) :
  ∃ tokens, Tokenize formula context = Ok tokens ∧
    match tokens with
    | [] => ∀ values, EvalFormula values context (ParsedFormula_ f) = if bool_decide (context = ArithmeticContext) then Throw EEmptyFormula else Ok 1
    | _ => ∃ e, Derives 1 e tokens ∧ (∀ e', Derives 1 e' tokens → e' = e) ∧ ∀ values, EvalFormula values context (ParsedFormula_ f) = denote values context e ≫= scalar
    end.
Proof.
  apply Make_inv in Hmake as (_ & tokens & Ht & _ & [[-> E]|(Hne & e & Hd & _ & E)]).
  - exists []. split; [done|]. intros values. rewrite E. by destruct context.
  - exists tokens. split; [done|]. destruct tokens as [|t tokens]; [done|]. exists e. split_and!; [done| |].
    + intros e' Hd'. apply (derives_unique 1 1 e' e _ _ Hd' Hd). apply to_postfix_complete in Hd, Hd'. congruence.
    + intros values. rewrite E. by eapply EvalFormula_spec.
Qed.

Lemma Formula_value_witness :
  ∃ f tokens e, MakeGenericFormulaImpl (λ _, 0) (B"1 - x - 2") ArithmeticContext = Ok f ∧ Tokenize (B"1 - x - 2") ArithmeticContext = Ok tokens ∧ Derives 1 e tokens ∧
    ∀ values, EvalFormula values ArithmeticContext (ParsedFormula_ f) = denote values ArithmeticContext e ≫= scalar.
Proof.
  destruct (MakeGenericFormulaImpl (λ _, 0) (B"1 - x - 2") ArithmeticContext) as [f| | |] eqn:E; [|vm_compute in E; discriminate E..].
  destruct (Formula_value (λ _, 0) (B"1 - x - 2") ArithmeticContext f E) as (tokens & Ht & H). destruct tokens as [|t tokens]; [vm_compute in Ht; discriminate Ht|].
  destruct H as (e & Hd & _ & Hv). exists f, (t :: tokens), e. split; [reflexivity|]. split; [exact Ht|]. split; [exact Hd|exact Hv].
Defined.

(** The operators on boolean formulas are those of logic, although they work on the texts:
    for formulas that were made, empty ones included, [&], [|] and [!] give formulas (the
    text they put together can be read, whatever the texts of the operands are), which a set
    of tags satisfies exactly when it satisfies both, one, or not the operand; and they can
    be combined further. *)
Theorem BooleanOperators_correct (ComputeHash : list byte → Z) (lhs rhs : TGenericFormulaImpl) (tags : list (list byte))
    (Hlhs : boolean_formula ComputeHash lhs) (Hrhs : boolean_formula ComputeHash rhs) :
  ∃ l r conjunction disjunction negation, IsSatisfiedBy lhs tags = Ok l ∧ IsSatisfiedBy rhs tags = Ok r ∧
    FormulaAnd ComputeHash lhs rhs = Ok conjunction ∧ boolean_formula ComputeHash conjunction ∧ IsSatisfiedBy conjunction tags = Ok (l && r) ∧
    FormulaOr ComputeHash lhs rhs = Ok disjunction ∧ boolean_formula ComputeHash disjunction ∧ IsSatisfiedBy disjunction tags = Ok (l || r) ∧
    FormulaNot ComputeHash lhs = Ok negation ∧ boolean_formula ComputeHash negation ∧ IsSatisfiedBy negation tags = Ok (negb l).
Proof.
  assert (∃ ft, MakeBooleanFormula ComputeHash (B"%true") = Ok ft ∧ boolean_formula ComputeHash ft ∧ IsSatisfiedBy ft tags = Ok true) as (ft & Et & Ht & Hst)
    by (eexists; split_and!; reflexivity).
  assert (∃ ff, MakeBooleanFormula ComputeHash (B"%false") = Ok ff ∧ boolean_formula ComputeHash ff ∧ IsSatisfiedBy ff tags = Ok false) as (ff & Ef & Hf & Hsf)
    by (eexists; split_and!; reflexivity).
  unfold FormulaAnd, FormulaOr, FormulaNot.
  destruct (boolean_cases ComputeHash lhs Hlhs) as [[-> Hl]|[-> (tokens1 & e1 & Ht1 & Hd1 & Ha1 & Hl)]].
  - destruct (boolean_cases ComputeHash rhs Hrhs) as [[_ Hr]|[_ (tokens2 & e2 & _ & _ & _ & Hr)]]; eexists _, _, rhs, ft, ff; by split_and!.
  - destruct (make_not ComputeHash _ tokens1 e1 Ht1 Hd1 Ha1) as (fn & En & Hn & Hsn). rewrite En.
    destruct (boolean_cases ComputeHash rhs Hrhs) as [[-> Hr]|[-> (tokens2 & e2 & Ht2 & Hd2 & Ha2 & Hr)]].
    + eexists _, _, lhs, ft, fn. split_and!; try done; [by rewrite Hl, andb_true_r|by rewrite Hst, orb_true_r].
    + destruct (make_binary ComputeHash FBitwiseAnd "&"%byte _ _ tokens1 tokens2 e1 e2 ltac:(by left) Ht1 Hd1 Ha1 Ht2 Hd2 Ha2) as (fa & Ea & Ha & Hsa).
      destruct (make_binary ComputeHash FBitwiseOr "|"%byte _ _ tokens1 tokens2 e1 e2 ltac:(by right) Ht1 Hd1 Ha1 Ht2 Hd2 Ha2) as (fo & Eo & Ho & Hso).
      eexists _, _, fa, fo, fn. split_and!; try done.
Qed.

Lemma BooleanOperators_correct_witness :
  ∃ lhs rhs conjunction, MakeBooleanFormula (λ _, 0) (B"a | b") = Ok lhs ∧ MakeBooleanFormula (λ _, 0) (B"!c ") = Ok rhs ∧
    boolean_formula (λ _, 0) lhs ∧ boolean_formula (λ _, 0) rhs ∧ FormulaAnd (λ _, 0) lhs rhs = Ok conjunction ∧ IsSatisfiedBy conjunction [B"b"] = Ok true.
Proof.
  destruct (MakeBooleanFormula (λ _, 0) (B"a | b")) as [lhs| | |] eqn:El; [|vm_compute in El; discriminate El..].
  destruct (MakeBooleanFormula (λ _, 0) (B"!c ")) as [rhs| | |] eqn:Er; [|vm_compute in Er; discriminate Er..].
  assert (boolean_formula (λ _, 0) lhs) as Hl by (vm_compute in El; injection El as <-; vm_compute; reflexivity).
  assert (boolean_formula (λ _, 0) rhs) as Hr by (vm_compute in Er; injection Er as <-; vm_compute; reflexivity).
  destruct (BooleanOperators_correct (λ _, 0) lhs rhs [B"b"] Hl Hr) as (l & r & conjunction & _ & _ & Hsl & Hsr & Ec & _ & Hsc & _).
  exists lhs, rhs, conjunction. split; [reflexivity|]. split; [reflexivity|]. split; [exact Hl|]. split; [exact Hr|]. split; [exact Ec|].
  assert (IsSatisfiedBy lhs [B"b"] = Ok true) as Hl' by (vm_compute in El; injection El as <-; vm_compute; reflexivity).
  assert (IsSatisfiedBy rhs [B"b"] = Ok true) as Hr' by (vm_compute in Er; injection Er as <-; vm_compute; reflexivity).
  rewrite Hsc. rewrite Hl' in Hsl. rewrite Hr' in Hsr. injection Hsl as <-. injection Hsr as <-. reflexivity.
Defined.

(** A time formula needs the hour and the minute only. *)
Lemma TimeFormula_defined ComputeHash formula f hour minute : MakeTimeFormula ComputeHash formula = Ok f →
  TimeIsSatisfiedBy f hour minute ≠ Throw EUndefinedVariable.
Proof.
  unfold MakeTimeFormula, TimeIsSatisfiedBy, ArithmeticEval. intros (f' & Hf & H)%bind_ok. destruct (forallb _ (elements (GetVariables f'))) eqn:E; [|done]. injection H as ->.
  apply Make_inv in Hf as (_ & tokens & _ & _ & [[_ Ep]|(_ & e & Hd & _ & Ep)]); rewrite Ep; [done|]. rewrite (EvalFormula_spec _ _ 1 e tokens Hd). intros Hu.
  destruct (denote _ ArithmeticContext e) as [v|err| |] eqn:Ed; try done; run_bind in Hu; [by destruct v|]. injection Hu as ->.
  destruct (denote_undefined _ _ 1 e tokens Hd Ed) as (t & Hin & Ht & Hl). assert (Name t ∈ GetVariables f) as Hv.
  { unfold GetVariables. apply elem_of_list_to_set, list_elem_of_In, in_map_iff. exists t. split; [done|]. apply list_elem_of_In, list_elem_of_filter. by rewrite Ep. }
  rewrite forallb_forall in E. specialize (E (Name t) ltac:(by apply list_elem_of_In, elem_of_elements)). apply bool_decide_eq_true_1 in E.
  apply elem_of_cons in E as [E|E]; [|apply elem_of_cons in E as [E|E]; [|by apply elem_of_nil in E]]; rewrite E in Hl; vm_compute in Hl; discriminate Hl.
Qed.

(** The sum of two numbers has no check for overflow, unlike the quotient. *)
Lemma Formula_sum_overflows :
  (f ← MakeArithmeticFormula (λ _, 0) (B"9223372036854775807 + 1 < 0"); ArithmeticEval f ∅) = Ok 1.
Proof. by vm_compute. Qed.

(** ** Formulas out of documents *)

Section FromYson.
Context (ComputeHash : list byte → Z) (fd : list byte → Result Z) (ndebug : bool).

Definition DeserializeFormula (make : list byte → Result TGenericFormulaImpl) (cursor : Cursor.t) : Result (Cursor.t * TGenericFormulaImpl) :=
  cursor ← MaybeSkipAttributes fd cursor;
  _ ← Cursor.EnsureYsonToken cursor StringValue;
  '(cursor, formula) ← DeserializeString fd ndebug cursor;
  f ← make formula;
  Ok (cursor, f).

Definition DeserializeBooleanFormula := DeserializeFormula (MakeBooleanFormula ComputeHash).
Definition DeserializeTimeFormula := DeserializeFormula (MakeTimeFormula ComputeHash).

(** A formula is read from a string, with or without attributes. *)
Lemma DeserializeFormula_on make L n tt tokens c p (a : list TFrame) cur : total_conversion fd → Z.of_nat L < 2 ^ 32 →
  NodeTok n tt → allowed n p → on fd L cur (tt ++ tokens) ((c, p) :: a) → fits_level L (length a) (node_levels n) →
  moves fd L tokens ((c, PSeparator) :: a) (string_meaning (node_value n) ≫= make) (DeserializeFormula make cur).
Proof.
  intros Hfd HL Hn Hp Hon Hf. unfold DeserializeFormula. eapply (skipping_on fd Hfd L HL _ (λ v, string_meaning v ≫= make)); try done. clear cur Hon. intros v tv q cur Hv Hq Hon Hfv.
  rewrite (ensure_head fd L v tv tokens c q a cur StringValue Hv Hon). pose proof (string_reads fd ndebug L (Node None v) tv tokens c q a cur [] Hfd HL ltac:(by constructor)) as Hs.
  destruct v as [s| | | | | | |]; try done. simpl bool_decide. run_bind. assert (allowed (Node None (VString s)) q) as Hal by (destruct q; try discriminate Hq; first [by left|right; by split]).
  specialize (Hs Hal Hon Hfv). simpl in Hs. destruct Hs as (cur' & E & Hon'). change (Deserialize fd ndebug [] cur) with (DeserializeString fd ndebug cur) in E. rewrite E. run_bind. simpl.
  destruct (make s) as [f| | |]; simpl; try done. by exists cur'.
Qed.
End FromYson.
