(* ===== verification/FenwickTree.v ===== *)
(** Dynamic cumulative sums (misc/fenwick_tree.h, fenwick_tree-inl.h): a Fenwick tree over items
    with addition and subtraction. The abstract state is the list of the items; the tree
    stores sums over blocks that end at every index. *)

From S2P Require Import Prelude.

(** What the tree asks of [TItem]. *)
Class TItem (A : Type) := { item_zero : A; item_add : A → A → A; item_sub : A → A → A }.
Class TItemLaws (A : Type) `{TItem A} := {
  item_add_assoc a b c : item_add a (item_add b c) = item_add (item_add a b) c;
  item_add_comm a b : item_add a b = item_add b a;
  item_add_0_l a : item_add item_zero a = a;
  item_sub_add a b : item_add (item_sub a b) b = a;
  item_add_sub a b : item_sub (item_add a b) b = a
}.

#[export] Instance Z_item : TItem Z := {| item_zero := 0; item_add := Z.add; item_sub := Z.sub |}.
#[export] Instance Z_item_laws : TItemLaws Z.
Proof. split; simpl; lia. Qed.

Section Fenwick.
Context {A : Type} `{TItem A}.

(** [TFenwickTree]: the vector [FenwickSums_]. *)
Definition TFenwickTree : Type := list A.
Implicit Types tree : TFenwickTree.

Definition MaxLength : Z := 2 ^ 30.
Definition Size (tree : TFenwickTree) : Z := Z.of_nat (length tree).

Definition sum_at (tree : TFenwickTree) (index : Z) : Result A :=
  if index <? 0 then Crash else match tree !! Z.to_nat index with Some sum => Ok sum | None => Crash end.

Fixpoint incomplete_loop (fuel : nat) (tree : TFenwickTree) (index bit : Z) (sum : A) : Result A :=
  match fuel with
  | O => OutOfFuel
  | S fuel =>
      if Z.land index bit =? 0 then Ok sum
      else item ← sum_at tree (index - 1); incomplete_loop fuel tree (Z.lxor index bit) (wrap_s 32 (Z.shiftl bit 1)) (item_add sum item)
  end.

(** An [int] has 32 bits. *)
Definition CalculateIncompleteFenwickSum (tree : TFenwickTree) (index : Z) : Result A :=
  _ ← Verify (index >=? 0);
  _ ← Verify (index <=? Size tree);
  incomplete_loop 33 tree index 1 item_zero.

Definition PushBack (item : A) (tree : TFenwickTree) : Result TFenwickTree :=
  let newItemIndex := Size tree in
  _ ← Verify (Size tree <=? MaxLength);
  sum ← CalculateIncompleteFenwickSum tree newItemIndex;
  Ok (tree ++ [item_add sum item]).

(** The item is constructed from the arguments. *)
Definition EmplaceBack {Args} (construct : Args → A) (args : Args) (tree : TFenwickTree) : Result TFenwickTree :=
  let newItemIndex := Size tree in
  _ ← Verify (Size tree <=? MaxLength);
  sum ← CalculateIncompleteFenwickSum tree newItemIndex;
  Ok (tree ++ [item_add sum (construct args)]).

Definition GetValue (tree : TFenwickTree) (index : Z) : Result A :=
  _ ← Verify (index >=? 0);
  _ ← Verify (index <? Size tree);
  sum ← sum_at tree index;
  incomplete ← CalculateIncompleteFenwickSum tree index;
  Ok (item_sub sum incomplete).

Fixpoint increment_loop (fuel : nat) (index : Z) (delta : A) (tree : TFenwickTree) : Result TFenwickTree :=
  match fuel with
  | O => OutOfFuel
  | S fuel =>
      if index <? Size tree then
        sum ← sum_at tree index;
        increment_loop fuel (Z.lor index (wrap_s 32 (index + 1))) delta (<[Z.to_nat index := item_add sum delta]> tree)
      else Ok tree
  end.

(** The index grows in every turn. The index is not checked: a negative one reads outside of the vector. *)
Definition Increment (index : Z) (delta : A) (tree : TFenwickTree) : Result TFenwickTree :=
  increment_loop (S (length tree)) index delta tree.

Definition SetValue (index : Z) (item : A) (tree : TFenwickTree) : Result TFenwickTree :=
  _ ← Verify (index >=? 0);
  _ ← Verify (index <? Size tree);
  value ← GetValue tree index;
  Increment index (item_sub item value) tree.

Definition PopBack (tree : TFenwickTree) : Result TFenwickTree :=
  _ ← Verify (Size tree >? 0);
  Ok (take (length tree - 1) tree).

Fixpoint cumulative_loop (fuel : nat) (tree : TFenwickTree) (index : Z) (result : A) : Result A :=
  match fuel with
  | O => OutOfFuel
  | S fuel =>
      if index >=? 0 then
        sum ← sum_at tree index;
        cumulative_loop fuel tree (Z.land index (index + 1) - 1) (item_add result sum)
      else Ok result
  end.

(** The index shrinks in every turn. *)
Definition GetCumulativeSum (tree : TFenwickTree) (index : Z) : Result A :=
  _ ← Verify (index >=? 0);
  _ ← Verify (index <=? Size tree);
  cumulative_loop (S (Z.to_nat index)) tree (index - 1) item_zero.

(** [step] is an [int]. *)
Fixpoint step_loop (fuel : nat) (size step : Z) : Result Z :=
  match fuel with
  | O => OutOfFuel
  | S fuel => if step <=? size then step_loop fuel size (wrap_s 32 (step * 2)) else Ok step
  end.

Fixpoint descend_loop (fuel : nat) (comparer : A → bool) (tree : TFenwickTree) (step resultIndex : Z) (foundSum : A) : Result Z :=
  match fuel with
  | O => OutOfFuel
  | S fuel =>
      if step >=? 1 then
        let newIndex := wrap_s 32 (resultIndex + step - 1) in
        if newIndex <? Size tree then
          sum ← sum_at tree newIndex;
          if comparer (item_add foundSum sum) then descend_loop fuel comparer tree (step / 2) (resultIndex + step) (item_add foundSum sum)
          else descend_loop fuel comparer tree (step / 2) resultIndex foundSum
        else descend_loop fuel comparer tree (step / 2) resultIndex foundSum
      else Ok resultIndex
  end.

(** The comparer is given the sum to look for. *)
Definition LowerBound (comparer : A → bool) (tree : TFenwickTree) : Result Z :=
  if negb (comparer item_zero) then Ok 0
  else
    step ← step_loop 33 (Size tree) 1;
    resultIndex ← descend_loop 33 comparer tree step 0 item_zero;
    Ok (resultIndex + 1).

(** [lessThan] is [comparer(sum, .)]. *)
Definition UpperBound (lessThan : A → bool) (tree : TFenwickTree) : Result Z := LowerBound (λ lhs, negb (lessThan lhs)) tree.

Definition Clear : TFenwickTree := [].
End Fenwick.
Arguments TFenwickTree : clear implicits.

(** ** Blocks *)

Lemma land_even_odd x y : Z.land (2 * x) (2 * y + 1) = 2 * Z.land x y.
Proof.
  apply Z.bits_inj'. intros n Hn. rewrite Z.land_spec. destruct (decide (n = 0)) as [-> |Hn0]; [by rewrite !Z.testbit_even_0|].
  replace n with (Z.succ (n - 1)) by lia. rewrite !Z.testbit_even_succ, Z.testbit_odd_succ, Z.land_spec by lia. done.
Qed.

Lemma lor_even_odd x y : Z.lor (2 * x) (2 * y + 1) = 2 * Z.lor x y + 1.
Proof.
  apply Z.bits_inj'. intros n Hn. rewrite Z.lor_spec. destruct (decide (n = 0)) as [-> |Hn0]; [by rewrite !Z.testbit_odd_0, orb_true_r|].
  replace n with (Z.succ (n - 1)) by lia. rewrite Z.testbit_even_succ, !Z.testbit_odd_succ, Z.lor_spec by lia. done.
Qed.

(** Clearing and filling up from the lowest bit that is set. *)
Lemma land_pred q t : Z.land ((2 * q + 1) * 2 ^ Z.of_nat t) ((2 * q + 1) * 2 ^ Z.of_nat t - 1) = 2 * q * 2 ^ Z.of_nat t.
Proof.
  induction t as [|t IH].
  - rewrite Z.pow_0_r, !Z.mul_1_r. replace (2 * q + 1 - 1) with (2 * q) by lia. rewrite Z.land_comm, land_even_odd, Z.land_diag. lia.
  - rewrite Nat2Z.inj_succ, Z.pow_succ_r by lia. set (p := 2 ^ Z.of_nat t) in *. replace ((2 * q + 1) * (2 * p)) with (2 * ((2 * q + 1) * p)) by lia.
    replace (2 * ((2 * q + 1) * p) - 1) with (2 * ((2 * q + 1) * p - 1) + 1) by lia. rewrite land_even_odd, IH. lia.
Qed.

Lemma lor_pred q t : Z.lor ((2 * q + 1) * 2 ^ Z.of_nat t) ((2 * q + 1) * 2 ^ Z.of_nat t - 1) = (2 * q + 2) * 2 ^ Z.of_nat t - 1.
Proof.
  induction t as [|t IH].
  - rewrite Z.pow_0_r, !Z.mul_1_r. replace (2 * q + 1 - 1) with (2 * q) by lia. rewrite Z.lor_comm, lor_even_odd, Z.lor_diag. lia.
  - rewrite Nat2Z.inj_succ, Z.pow_succ_r by lia. set (p := 2 ^ Z.of_nat t) in *. replace ((2 * q + 1) * (2 * p)) with (2 * ((2 * q + 1) * p)) by lia.
    replace (2 * ((2 * q + 1) * p) - 1) with (2 * ((2 * q + 1) * p - 1) + 1) by lia. rewrite lor_even_odd, IH. lia.
Qed.

(** Every positive number is an odd multiple of a power of two. *)
Lemma odd_power c : 0 < c → ∃ q t, 0 <= q ∧ c = (2 * q + 1) * 2 ^ Z.of_nat t.
Proof.
  intros Hc. assert (∀ n c, 0 < c → (Z.to_nat c <= n)%nat → ∃ q t, 0 <= q ∧ c = (2 * q + 1) * 2 ^ Z.of_nat t) as Hind; [|by apply (Hind (Z.to_nat c))].
  clear c Hc. intros n. induction n as [|n IH]; intros c Hc Hn; [lia|]. destruct (Z.Even_or_Odd c) as [[k Hk]|[k Hk]].
  - destruct (IH k ltac:(lia) ltac:(lia)) as (q & t & Hq & Ht). exists q, (S t). split; [done|]. rewrite Nat2Z.inj_succ, Z.pow_succ_r by lia. lia.
  - exists k, 0%nat. split; [lia|]. rewrite Z.pow_0_r. lia.
Qed.

Definition block_start (i : Z) : Z := Z.land i (i + 1).

Lemma block_start_spec i q t : i + 1 = (2 * q + 1) * 2 ^ Z.of_nat t → block_start i = 2 * q * 2 ^ Z.of_nat t.
Proof. intros Hi. unfold block_start. rewrite Z.land_comm, Hi. replace i with ((2 * q + 1) * 2 ^ Z.of_nat t - 1) by lia. apply land_pred. Qed.

Lemma block_start_bounds i : 0 <= i → 0 <= block_start i <= i.
Proof.
  intros Hi. destruct (odd_power (i + 1) ltac:(lia)) as (q & t & Hq & Ht). rewrite (block_start_spec i q t Ht). pose proof (Z.pow_pos_nonneg 2 (Z.of_nat t) ltac:(lia) ltac:(lia)). nia.
Qed.

Definition next_index (i : Z) : Z := Z.lor i (i + 1).

Lemma next_index_spec i q t : i + 1 = (2 * q + 1) * 2 ^ Z.of_nat t → next_index i = (2 * q + 2) * 2 ^ Z.of_nat t - 1.
Proof. intros Hi. unfold next_index. rewrite Z.lor_comm, Hi. replace i with ((2 * q + 1) * 2 ^ Z.of_nat t - 1) by lia. apply lor_pred. Qed.

Lemma next_index_grows i : 0 <= i → i < next_index i.
Proof.
  intros Hi. destruct (odd_power (i + 1) ltac:(lia)) as (q & t & Hq & Ht). rewrite (next_index_spec i q t Ht). pose proof (Z.pow_pos_nonneg 2 (Z.of_nat t) ltac:(lia) ltac:(lia)). nia.
Qed.

(** The blocks that contain [k] and end behind it are those that contain the next index. *)
Lemma next_block k j : 0 <= k < j → block_start j <= k ↔ block_start j <= next_index k <= j.
Proof.
  intros Hkj. destruct (odd_power (k + 1) ltac:(lia)) as (q & s & Hq & Hs). destruct (odd_power (j + 1) ltac:(lia)) as (m & t & Hm & Ht).
  rewrite (block_start_spec j m t Ht), (next_index_spec k q s Hs). destruct (Nat.lt_ge_cases s t) as [Hst|Hst].
  - assert (2 ^ Z.of_nat t = 2 ^ Z.of_nat s * (2 * 2 ^ Z.of_nat (t - s - 1))) as Ep by (rewrite <- Z.pow_succ_r, <- Z.pow_add_r by lia; f_equal; lia).
    rewrite Ep in *. pose proof (Z.pow_pos_nonneg 2 (Z.of_nat s) ltac:(lia) ltac:(lia)). pose proof (Z.pow_pos_nonneg 2 (Z.of_nat (t - s - 1)) ltac:(lia) ltac:(lia)).
    set (p := 2 ^ Z.of_nat s) in *. set (r := 2 ^ Z.of_nat (t - s - 1)) in *. clearbody p r. clear Ep.
    assert (2 * m * (p * (2 * r)) = p * (4 * m * r)) as -> by lia. assert (k = p * (2 * q + 1) - 1) as -> by lia. assert (j = p * ((2 * m + 1) * (2 * r)) - 1) as -> by lia.
    assert ((2 * q + 2) * p - 1 = p * (2 * q + 2) - 1) as -> by lia. set (u := m * r) in *. assert (4 * m * r = 4 * u) as -> by (subst u; lia).
    assert ((2 * m + 1) * (2 * r) = 4 * u + 2 * r) as E by (subst u; lia). rewrite E in *. clearbody u. clear E. split; [intros H1|intros [H1 H2]].
    + assert (4 * u < 2 * q + 1) by nia. assert (2 * q + 1 < 4 * u + 2 * r) by nia. split; nia.
    + assert (4 * u < 2 * q + 2) by nia. nia.
  - assert (2 ^ Z.of_nat s = 2 ^ Z.of_nat t * 2 ^ Z.of_nat (s - t)) as Ep by (rewrite <- Z.pow_add_r by lia; f_equal; lia).
    rewrite Ep in *. pose proof (Z.pow_pos_nonneg 2 (Z.of_nat t) ltac:(lia) ltac:(lia)). pose proof (Z.pow_pos_nonneg 2 (Z.of_nat (s - t)) ltac:(lia) ltac:(lia)).
    set (p := 2 ^ Z.of_nat t) in *. set (r := 2 ^ Z.of_nat (s - t)) in *. clearbody p r. clear Ep. set (u := (2 * q + 1) * r). set (v := (q + 1) * r).
    assert (k = p * u - 1) as -> by (subst u; lia). assert (j = p * (2 * m + 1) - 1) as -> by lia. assert ((2 * q + 2) * (p * r) - 1 = p * (2 * v) - 1) as -> by (subst v; lia).
    assert (2 * m * p = p * (2 * m)) as -> by lia. clearbody u v. split; [intros H1|intros [H1 H2]].
    + assert (u < 2 * m + 1) by nia. assert (2 * m < u) by nia. lia.
    + assert (2 * m < 2 * v) by nia. assert (2 * v <= 2 * m + 1) by nia. lia.
Qed.

Lemma land_bit d j : 0 <= j → Z.land (d * 2 ^ j) (2 ^ j) = d mod 2 * 2 ^ j.
Proof.
  intros Hj. rewrite <- (Z.mul_1_l (2 ^ j)) at 2. rewrite <- !Z.shiftl_mul_pow2, <- Z.shiftl_land by done. f_equal. apply (Z.land_ones d 1). lia.
Qed.

Lemma lxor_bit q j : 0 <= j → Z.lxor ((2 * q + 1) * 2 ^ j) (2 ^ j) = 2 * q * 2 ^ j.
Proof.
  intros Hj. rewrite <- (Z.mul_1_l (2 ^ j)) at 2. rewrite <- !Z.shiftl_mul_pow2, <- Z.shiftl_lxor by done. f_equal. apply Z.bits_inj'. intros n Hn. rewrite Z.lxor_spec.
  destruct (decide (n = 0)) as [-> |Hn0]; [by rewrite Z.testbit_odd_0, Z.testbit_even_0|]. replace n with (Z.succ (n - 1)) by lia. rewrite Z.testbit_odd_succ, Z.testbit_even_succ by lia.
  rewrite (Z.bits_above_log2 1 (Z.succ (n - 1))); [apply xorb_false_r|lia|simpl; lia].
Qed.

(** A block that ends at a multiple of a power of two is at least as long. *)
Lemma block_start_multiple i d t : 0 <= i → i + 1 = d * 2 ^ Z.of_nat t → block_start i <= i + 1 - 2 ^ Z.of_nat t.
Proof.
  intros Hi Hd. destruct (odd_power (i + 1) ltac:(lia)) as (q & s & Hq & Hs). rewrite (block_start_spec i q s Hs), Hs.
  enough (2 ^ Z.of_nat t <= 2 ^ Z.of_nat s) by lia. destruct (Nat.lt_ge_cases s t) as [Hst|Hst]; [|apply Z.pow_le_mono_r; lia]. exfalso.
  assert (2 ^ Z.of_nat t = 2 ^ Z.of_nat s * (2 * 2 ^ Z.of_nat (t - s - 1))) as Ep by (rewrite <- Z.pow_succ_r, <- Z.pow_add_r by lia; f_equal; lia).
  rewrite Ep in Hd. pose proof (Z.pow_pos_nonneg 2 (Z.of_nat s) ltac:(lia) ltac:(lia)). assert (2 * q + 1 = 2 * (d * 2 ^ Z.of_nat (t - s - 1))) by nia. lia.
Qed.

(** ** The tree represents a list *)

Section Refinement.
Context {A : Type} `{TItemLaws A}.
Implicit Types (xs : list A) (tree : TFenwickTree A) (i j k : nat).

#[local] Infix "⊕" := item_add (at level 50, left associativity).

Definition sum_of xs : A := foldr item_add item_zero xs.

(** The items with indices in [[a, b)]. *)
Definition range_sum xs (a b : nat) : A := sum_of (take (b - a) (drop a xs)).

Lemma item_add_0_r (a : A) : a ⊕ item_zero = a.
Proof. by rewrite item_add_comm, item_add_0_l. Qed.

Lemma sum_of_app xs ys : sum_of (xs ++ ys) = sum_of xs ⊕ sum_of ys.
Proof. induction xs as [|x xs IH]; simpl; [by rewrite item_add_0_l|]. by rewrite IH, item_add_assoc. Qed.

Lemma range_sum_empty xs a : range_sum xs a a = item_zero.
Proof. unfold range_sum. by rewrite Nat.sub_diag. Qed.

Lemma range_sum_split xs a b c : (a <= b <= c)%nat → range_sum xs a c = range_sum xs a b ⊕ range_sum xs b c.
Proof.
  intros Hab. unfold range_sum. rewrite <- sum_of_app. f_equal. replace (c - a)%nat with ((b - a) + (c - b))%nat by lia. rewrite <- take_take_drop, drop_drop. do 3 f_equal. lia.
Qed.

Lemma range_sum_one xs a x : xs !! a = Some x → range_sum xs a (S a) = x.
Proof. intros Hx. unfold range_sum. replace (S a - a)%nat with 1%nat by lia. rewrite (drop_S xs x a Hx). simpl. apply item_add_0_r. Qed.

Lemma range_sum_app xs ys a b : (b <= length xs)%nat → range_sum (xs ++ ys) a b = range_sum xs a b.
Proof.
  intros Hb. unfold range_sum. f_equal. destruct (Nat.lt_ge_cases b a) as [Hlt|Hge]; [by replace (b - a)%nat with 0%nat by lia|].
  rewrite drop_app_le by lia. by rewrite take_app_le by (rewrite length_drop; lia).
Qed.

Lemma range_sum_take xs n a b : (b <= n)%nat → range_sum (take n xs) a b = range_sum xs a b.
Proof.
  intros Hb. unfold range_sum. rewrite skipn_firstn_comm, take_take. do 2 f_equal. lia.
Qed.

(** Adding to one item adds to the ranges that contain it. *)
Lemma range_sum_insert xs k x delta a b : xs !! k = Some x → (a <= b)%nat → range_sum (<[k := x ⊕ delta]> xs) a b = if decide (a <= k < b)%nat then range_sum xs a b ⊕ delta else range_sum xs a b.
Proof.
  intros Hx Hab. destruct (decide (a <= k < b)%nat) as [Hin|Hout].
  - rewrite (range_sum_split _ a k b), (range_sum_split _ k (S k) b) by lia. rewrite (range_sum_one _ k (x ⊕ delta)) by (apply list_lookup_insert_eq; by eapply lookup_lt_Some).
    rewrite (range_sum_split xs a k b), (range_sum_split xs k (S k) b), (range_sum_one xs k x Hx) by lia.
    assert (range_sum (<[k := x ⊕ delta]> xs) a k = range_sum xs a k) as -> by (unfold range_sum; f_equal; rewrite drop_insert_ge, take_insert_ge by lia; done).
    assert (range_sum (<[k := x ⊕ delta]> xs) (S k) b = range_sum xs (S k) b) as -> by (unfold range_sum; by rewrite drop_insert_lt by lia).
    rewrite <- !item_add_assoc. do 2 f_equal. apply item_add_comm.
  - unfold range_sum. destruct (Nat.lt_ge_cases k a); [by rewrite drop_insert_lt by lia|]. rewrite drop_insert_ge, take_insert_ge by lia. done.
Qed.

Definition start i : nat := Z.to_nat (block_start (Z.of_nat i)).

Lemma start_le i : (start i <= i)%nat.
Proof. unfold start. pose proof (block_start_bounds (Z.of_nat i) ltac:(lia)). lia. Qed.

(** Every entry is the sum of a block. *)
Definition represents xs tree : Prop :=
  length tree = length xs ∧ ∀ i, (i < length xs)%nat → tree !! i = Some (range_sum xs (start i) (S i)).

Lemma sum_at_spec xs tree i : represents xs tree → (i < length xs)%nat → sum_at tree (Z.of_nat i) = Ok (range_sum xs (start i) (S i)).
Proof. intros [_ Ht] Hi. unfold sum_at. destruct (Z.ltb_spec (Z.of_nat i) 0); [lia|]. by rewrite Nat2Z.id, Ht. Qed.

(** *** Cumulative sums *)

Lemma cumulative_loop_spec xs tree fuel i result : represents xs tree → (i <= length xs)%nat → (i < fuel)%nat →
  cumulative_loop fuel tree (Z.of_nat i - 1) result = Ok (result ⊕ range_sum xs 0 i).
Proof.
  intros Ht. revert i result. induction fuel as [|fuel IH]; intros i result Hi Hf; [lia|]. cbn [cumulative_loop]. rewrite Z.geb_leb. destruct (Z.leb_spec 0 (Z.of_nat i - 1)) as [Hpos|Hneg].
  - destruct i as [|i]; [lia|]. replace (Z.of_nat (S i) - 1) with (Z.of_nat i) by lia. rewrite (sum_at_spec xs tree i Ht) by lia. run_bind. fold (block_start (Z.of_nat i)).
    pose proof (block_start_bounds (Z.of_nat i) ltac:(lia)) as Hb. pose proof (start_le i). replace (block_start (Z.of_nat i)) with (Z.of_nat (start i)) by (unfold start; lia).
    rewrite IH by lia. rewrite (range_sum_split xs 0 (start i) (S i)) by lia. rewrite <- item_add_assoc. do 2 f_equal. apply item_add_comm.
  - destruct i; [|lia]. by rewrite range_sum_empty, item_add_0_r.
Qed.

Lemma GetCumulativeSum_spec xs tree i : represents xs tree → (i <= length xs)%nat → GetCumulativeSum tree (Z.of_nat i) = Ok (sum_of (take i xs)).
Proof.
  intros Ht Hi. unfold GetCumulativeSum, Size. rewrite Z.geb_leb. destruct (Z.leb_spec 0 (Z.of_nat i)); [|lia]. rewrite (proj1 Ht). destruct (Z.leb_spec (Z.of_nat i) (Z.of_nat (length xs))); [|lia].
  simpl Verify. run_bind. rewrite Nat2Z.id, (cumulative_loop_spec xs) by (done || lia). rewrite item_add_0_l. unfold range_sum. by rewrite Nat.sub_0_r.
Qed.

(** *** New items *)

#[local] Abbreviation limit := (2 ^ 30 + 1).

Lemma incomplete_loop_spec xs tree n fuel t d sum : represents xs tree → Z.of_nat (length xs) <= limit → (n <= length xs)%nat → 0 <= d → Z.of_nat n + 1 = (d + 1) * 2 ^ Z.of_nat t → (32 <= fuel + t)%nat →
  incomplete_loop fuel tree (d * 2 ^ Z.of_nat t) (2 ^ Z.of_nat t) sum = Ok (sum ⊕ range_sum xs (start n) (Z.to_nat (d * 2 ^ Z.of_nat t))).
Proof.
  intros Ht Hlimit Hn. revert t d sum. induction fuel as [|fuel IH]; intros t d sum Hd Hnd Hfuel.
  - exfalso. pose proof (Z.pow_le_mono_r 2 32 (Z.of_nat t) ltac:(lia) ltac:(lia)). change (2 ^ 32) with (4 * 2 ^ 30) in *. nia.
  - cbn [incomplete_loop]. rewrite land_bit by lia. pose proof (Z.pow_pos_nonneg 2 (Z.of_nat t) ltac:(lia) ltac:(lia)) as Hp. destruct (Z.Even_or_Odd d) as [[q Hq]|[q Hq]]; subst d.
    + replace (2 * q) with (q * 2) at 1 by lia. rewrite Z.mod_mul by lia. cbn [Z.mul Z.eqb]. assert (start n = Z.to_nat (2 * q * 2 ^ Z.of_nat t)) as ->; [|by rewrite range_sum_empty, item_add_0_r].
      unfold start. by rewrite (block_start_spec _ q t Hnd).
    + replace (2 * q + 1) with (1 + q * 2) at 1 by lia. rewrite Z.mod_add, Z.mod_small by lia. destruct (Z.eqb_spec (1 * 2 ^ Z.of_nat t) 0); [lia|]. rewrite lxor_bit by lia.
      set (c := Z.to_nat ((2 * q + 1) * 2 ^ Z.of_nat t)). assert (Z.of_nat c = (2 * q + 1) * 2 ^ Z.of_nat t) as Hc by (unfold c; nia). rewrite <- Hc.
      replace (Z.of_nat c - 1) with (Z.of_nat (c - 1)) by nia. rewrite (sum_at_spec xs tree (c - 1) Ht) by nia. run_bind. replace (S (c - 1)) with c by nia.
      assert (2 ^ Z.of_nat (S t) = 2 * 2 ^ Z.of_nat t) as Ep by (rewrite Nat2Z.inj_succ, Z.pow_succ_r by lia; lia).
      assert (wrap_s 32 (Z.shiftl (2 ^ Z.of_nat t) 1) = 2 ^ Z.of_nat (S t)) as ->.
      { rewrite Z.shiftl_mul_pow2, Z.pow_1_r by lia. rewrite Z.mul_comm, <- Ep. apply wrap_s_id; [lia|]. unfold in_s. change (2 ^ (32 - 1)) with (2 * 2 ^ 30). nia. }
      replace (2 * q * 2 ^ Z.of_nat t) with (q * 2 ^ Z.of_nat (S t)) by lia. rewrite IH by nia.
      assert (start (c - 1) = Z.to_nat (q * 2 ^ Z.of_nat (S t))) as Es by (unfold start; rewrite (block_start_spec _ q t) by nia; f_equal; lia).
      assert (start n <= start (c - 1))%nat as Hle. { unfold start in Es |- *. pose proof (block_start_multiple (Z.of_nat n) (q + 1) (S t) ltac:(lia) ltac:(nia)). nia. }
      rewrite (range_sum_split xs (start n) (start (c - 1)) c) by (pose proof (start_le (c - 1)); lia). rewrite <- Es, <- item_add_assoc. do 2 f_equal. apply item_add_comm.
Qed.

Lemma Incomplete_spec xs tree n : represents xs tree → Z.of_nat (length xs) <= limit → (n <= length xs)%nat → CalculateIncompleteFenwickSum tree (Z.of_nat n) = Ok (range_sum xs (start n) n).
Proof.
  intros Ht Hl Hn. unfold CalculateIncompleteFenwickSum, Size. rewrite Z.geb_leb, (proj1 Ht). destruct (Z.leb_spec 0 (Z.of_nat n)); [|lia]. destruct (Z.leb_spec (Z.of_nat n) (Z.of_nat (length xs))); [|lia].
  simpl Verify. run_bind. pose proof (incomplete_loop_spec xs tree n 33 0 (Z.of_nat n) item_zero Ht Hl Hn ltac:(lia)) as E. change (2 ^ Z.of_nat 0) with 1 in E. rewrite !Z.mul_1_r, Nat2Z.id, item_add_0_l in E.
  apply E; lia.
Qed.

Lemma PushBack_spec xs tree x : represents xs tree → Z.of_nat (length xs) < limit → ∃ tree', PushBack x tree = Ok tree' ∧ represents (xs ++ [x]) tree'.
Proof.
  intros Ht Hl. unfold PushBack, Size, MaxLength. rewrite (proj1 Ht). destruct (Z.leb_spec (Z.of_nat (length xs)) (2 ^ 30)); [|lia]. simpl Verify. run_bind.
  rewrite (Incomplete_spec xs tree (length xs) Ht) by lia. run_bind. eexists. split; [done|]. destruct Ht as [Hlen Ht]. split; [rewrite !length_app; simpl; lia|]. intros i Hi.
  rewrite length_app in Hi. simpl in Hi. destruct (decide (i = length xs)) as [-> |Hne].
  - rewrite lookup_app_r by lia. rewrite Hlen, Nat.sub_diag. simpl. f_equal. pose proof (start_le (length xs)). rewrite (range_sum_split (xs ++ [x]) (start (length xs)) (length xs)) by lia.
    by rewrite range_sum_app, (range_sum_one (xs ++ [x]) (length xs) x) by (done || by apply list_lookup_middle).
  - rewrite lookup_app_l by lia. rewrite Ht by lia. by rewrite range_sum_app by lia.
Qed.

Lemma GetValue_spec xs tree i x : represents xs tree → Z.of_nat (length xs) <= limit → xs !! i = Some x → GetValue tree (Z.of_nat i) = Ok x.
Proof.
  intros Ht Hl Hx. pose proof (lookup_lt_Some _ _ _ Hx) as Hi. unfold GetValue, Size. rewrite Z.geb_leb, (proj1 Ht). destruct (Z.leb_spec 0 (Z.of_nat i)); [|lia].
  destruct (Z.ltb_spec (Z.of_nat i) (Z.of_nat (length xs))); [|lia]. simpl Verify. run_bind. rewrite (sum_at_spec xs tree i Ht Hi). run_bind. rewrite (Incomplete_spec xs tree i Ht Hl) by lia. run_bind.
  pose proof (start_le i). by rewrite (range_sum_split xs (start i) i (S i)), (range_sum_one xs i x Hx), item_add_comm, item_add_sub by lia.
Qed.

Lemma PopBack_spec xs x tree : represents (xs ++ [x]) tree → ∃ tree', PopBack tree = Ok tree' ∧ represents xs tree'.
Proof.
  intros [Hlen Ht]. unfold PopBack, Size. rewrite length_app in *. simpl in *. rewrite Z.gtb_ltb. destruct (Z.ltb_spec 0 (Z.of_nat (length tree))); [|lia]. simpl Verify. run_bind. eexists. split; [done|].
  split; [rewrite length_take; lia|]. intros i Hi. rewrite lookup_take_lt by lia. rewrite Ht by lia. by rewrite range_sum_app by lia.
Qed.

(** *** Changing items *)

(** Halfway through the loop: the blocks that end in front of [k] are done, and of the others
    those have the item that have [k]. *)
Definition halfway xs xs' (index k : nat) tree : Prop :=
  length tree = length xs ∧ (∀ j, (j < length xs)%nat → tree !! j = Some (range_sum (if decide (j < k)%nat then xs' else xs) (start j) (S j))) ∧
  ∀ j, (k <= j)%nat → (start j <= index <= j ↔ start j <= k)%nat.

Lemma increment_loop_spec xs index x delta fuel k tree : xs !! index = Some x → Z.of_nat (length xs) <= limit → halfway xs (<[index := x ⊕ delta]> xs) index k tree → (0 < fuel)%nat → (length xs < fuel + k)%nat →
  ∃ tree', increment_loop fuel (Z.of_nat k) delta tree = Ok tree' ∧ represents (<[index := x ⊕ delta]> xs) tree'.
Proof.
  intros Hx Hlimit. revert k tree. induction fuel as [|fuel IH]; intros k tree (Hlen & Ht & Hk) Hpos Hf; [lia|]. cbn [increment_loop]. unfold Size. rewrite Hlen.
  destruct (Z.ltb_spec (Z.of_nat k) (Z.of_nat (length xs))) as [Hlt|Hge].
  - unfold sum_at. destruct (Z.ltb_spec (Z.of_nat k) 0); [lia|]. rewrite Nat2Z.id, Ht by lia. rewrite decide_False by lia. run_bind. rewrite wrap_s_id by (lia || (unfold in_s; change (2 ^ (32 - 1)) with (2 * 2 ^ 30); lia)).
    fold (next_index (Z.of_nat k)). pose proof (next_index_grows (Z.of_nat k) ltac:(lia)) as Hgrow. set (k' := Z.to_nat (next_index (Z.of_nat k))). replace (next_index (Z.of_nat k)) with (Z.of_nat k') by lia.
    assert (∀ j, (k < j)%nat → (start j <= k ↔ start j <= k' <= j)%nat) as Hnext.
    { intros j Hj. pose proof (next_block (Z.of_nat k) (Z.of_nat j) ltac:(lia)) as Hn. pose proof (block_start_bounds (Z.of_nat j) ltac:(lia)). unfold start, k'. lia. }
    apply IH; [|lia|lia]. split_and!; [by rewrite length_insert| |].
    + intros j Hj. destruct (decide (j = k)) as [-> |Hne].
      * rewrite list_lookup_insert_eq by lia. rewrite decide_True by lia. f_equal. pose proof (start_le k). rewrite (range_sum_insert xs index x delta) by (done || lia).
        rewrite decide_True; [done|]. pose proof (Hk k ltac:(lia)). lia.
      * rewrite list_lookup_insert_ne by done. rewrite Ht by done. destruct (decide (j < k)%nat) as [Hjk|Hjk]; [by rewrite decide_True by lia|]. destruct (decide (j < k')%nat) as [Hjk'|Hjk']; [|done].
        f_equal. pose proof (start_le j). rewrite (range_sum_insert xs index x delta) by (done || lia). rewrite decide_False; [done|]. pose proof (Hk j ltac:(lia)). pose proof (Hnext j ltac:(lia)). lia.
    + intros j Hj. pose proof (Hk j ltac:(lia)). pose proof (Hnext j ltac:(lia)). lia.
  - exists tree. split; [done|]. split; [by rewrite length_insert|]. intros j Hj. rewrite length_insert in Hj. rewrite Ht by done. by rewrite decide_True by lia.
Qed.

Lemma Increment_spec xs tree index x delta : represents xs tree → Z.of_nat (length xs) <= limit → xs !! index = Some x →
  ∃ tree', Increment (Z.of_nat index) delta tree = Ok tree' ∧ represents (<[index := x ⊕ delta]> xs) tree'.
Proof.
  intros [Hlen Ht] Hl Hx. unfold Increment. pose proof (lookup_lt_Some _ _ _ Hx). apply increment_loop_spec; [done|done| |lia|lia]. split_and!; [done| |].
  - intros j Hj. rewrite Ht by done. destruct (decide (j < index)%nat) as [Hlt|Hge]; [|done]. f_equal. pose proof (start_le j). rewrite (range_sum_insert xs index x delta) by (done || lia). by rewrite decide_False by lia.
  - intros j Hj. lia.
Qed.

Lemma SetValue_spec xs tree index x y : represents xs tree → Z.of_nat (length xs) <= limit → xs !! index = Some x →
  ∃ tree', SetValue (Z.of_nat index) y tree = Ok tree' ∧ represents (<[index := y]> xs) tree'.
Proof.
  intros Ht Hl Hx. pose proof (lookup_lt_Some _ _ _ Hx). unfold SetValue, Size. rewrite Z.geb_leb, (proj1 Ht). destruct (Z.leb_spec 0 (Z.of_nat index)); [|lia].
  destruct (Z.ltb_spec (Z.of_nat index) (Z.of_nat (length xs))); [|lia]. simpl Verify. run_bind. rewrite (GetValue_spec xs tree index x Ht Hl Hx). run_bind.
  destruct (Increment_spec xs tree index x (item_sub y x) Ht Hl Hx) as (tree' & E & Ht'). exists tree'. split; [done|]. by rewrite item_add_comm, item_sub_add in Ht'.
Qed.

(** *** Search *)

Section Search.
Context (xs : list A) (tree : TFenwickTree A) (Ht : represents xs tree) (Hsize : Z.of_nat (length xs) < 2 ^ 30) (comparer : A → bool).
#[local] Abbreviation prefix i := (sum_of (take i xs)).
Context (Hmonotone : ∀ i j, (i <= j <= length xs)%nat → comparer (prefix j) = true → comparer (prefix i) = true).

Lemma step_loop_spec fuel e : (e <= 30)%nat → (30 < fuel + e)%nat → ∃ e', (e' <= 30)%nat ∧ step_loop fuel (Size tree) (2 ^ Z.of_nat e) = Ok (2 ^ Z.of_nat e') ∧ Size tree < 2 ^ Z.of_nat e'.
Proof.
  revert e. induction fuel as [|fuel IH]; intros e He Hf; [lia|]. cbn [step_loop]. destruct (Z.leb_spec (2 ^ Z.of_nat e) (Size tree)) as [Hle|Hgt]; [|by exists e].
  assert (e < 30)%nat as He'. { destruct (Nat.lt_ge_cases e 30) as [?|Hge]; [done|]. exfalso. pose proof (Z.pow_le_mono_r 2 30 (Z.of_nat e) ltac:(lia) ltac:(lia)). unfold Size in Hle. rewrite (proj1 Ht) in Hle. lia. }
  assert (wrap_s 32 (2 ^ Z.of_nat e * 2) = 2 ^ Z.of_nat (S e)) as ->.
  { rewrite Nat2Z.inj_succ, Z.pow_succ_r, (Z.mul_comm 2) by lia. apply wrap_s_id; [lia|]. unfold in_s. change (2 ^ (32 - 1)) with (2 * 2 ^ 30). pose proof (Z.pow_le_mono_r 2 (Z.of_nat e) 29 ltac:(lia) ltac:(lia)).
    pose proof (Z.pow_pos_nonneg 2 (Z.of_nat e) ltac:(lia) ltac:(lia)). lia. }
  apply IH; lia.
Qed.

Lemma prefix_split r s : (r <= s)%nat → prefix s = prefix r ⊕ range_sum xs r s.
Proof. intros Hrs. pose proof (range_sum_split xs 0 r s ltac:(lia)) as E. unfold range_sum in E at 1 2. by rewrite !Nat.sub_0_r, !drop_0 in E. Qed.

(** Between [r], where the comparer holds, and [r + 2 * step], from where on it does not. *)
(** One turn of the loop. *)
Lemma descend_turn fuel e m : (e <= 30)%nat → let r := (m * 2 ^ S e)%nat in (r <= length xs)%nat → comparer (prefix r) = true →
  (∀ i, (r + 2 ^ S e <= i <= length xs)%nat → comparer (prefix i) = false) →
  ∃ m', let r' := (m' * 2 ^ e)%nat in
    descend_loop (S fuel) comparer tree (2 ^ Z.of_nat e) (Z.of_nat r) (prefix r) = descend_loop fuel comparer tree (2 ^ Z.of_nat e / 2) (Z.of_nat r') (prefix r') ∧
    (r' <= length xs)%nat ∧ comparer (prefix r') = true ∧ ∀ i, (r' + 2 ^ e <= i <= length xs)%nat → comparer (prefix i) = false.
Proof.
  intros He r Hr Htrue Hfalse. assert (2 ^ S e = 2 * 2 ^ e)%nat as Ep by (simpl; lia). set (p := (2 ^ e)%nat) in *. assert (2 ^ Z.of_nat e = Z.of_nat p) as Ez by (unfold p; by rewrite Nat2Z.inj_pow).
  assert (0 < p)%nat as Hp by (pose proof (Nat.pow_nonzero 2 e); unfold p; lia). assert (Z.of_nat p <= 2 ^ 30) as Hp30 by (rewrite <- Ez; apply Z.pow_le_mono_r; lia).
  assert (r = 2 * m * p)%nat as Er by (unfold r; lia). cbn [descend_loop]. rewrite Ez, Z.geb_leb. destruct (Z.leb_spec 1 (Z.of_nat p)); [|lia].
  rewrite wrap_s_id by (lia || (unfold in_s; change (2 ^ (32 - 1)) with (2 * 2 ^ 30); lia)). replace (Z.of_nat r + Z.of_nat p - 1) with (Z.of_nat (r + p - 1)) by lia. unfold Size. rewrite (proj1 Ht).
  destruct (Z.ltb_spec (Z.of_nat (r + p - 1)) (Z.of_nat (length xs))) as [Hin|Hout].
  - rewrite (sum_at_spec xs tree (r + p - 1) Ht) by lia. run_bind. replace (S (r + p - 1)) with (r + p)%nat by lia.
    assert (start (r + p - 1) = r) as ->. { unfold start. rewrite (block_start_spec _ (Z.of_nat m) e); [rewrite Ez; lia|rewrite Ez; lia]. }
    rewrite <- prefix_split by lia. destruct (comparer (prefix (r + p))) eqn:Ec.
    + exists (2 * m + 1)%nat. replace ((2 * m + 1) * p)%nat with (r + p)%nat by lia. replace (Z.of_nat r + Z.of_nat p) with (Z.of_nat (r + p)) by lia. split_and!; [done|lia|done|]. intros i Hi. apply Hfalse. lia.
    + exists (2 * m)%nat. rewrite <- Er. split_and!; [done|lia|done|]. intros i Hi. destruct (comparer (prefix i)) eqn:Ei; [|done]. by rewrite (Hmonotone (r + p) i ltac:(lia) Ei) in Ec.
  - exists (2 * m)%nat. rewrite <- Er. split_and!; [done|lia|done|]. intros i Hi. lia.
Qed.

Lemma descend_loop_spec fuel e m : (e <= 30)%nat → (S e < fuel)%nat → let r := (m * 2 ^ S e)%nat in (r <= length xs)%nat → comparer (prefix r) = true →
  (∀ i, (r + 2 ^ S e <= i <= length xs)%nat → comparer (prefix i) = false) →
  ∃ r', descend_loop fuel comparer tree (2 ^ Z.of_nat e) (Z.of_nat r) (prefix r) = Ok (Z.of_nat r') ∧ (r' <= length xs)%nat ∧ comparer (prefix r') = true ∧ ∀ i, (r' < i <= length xs)%nat → comparer (prefix i) = false.
Proof.
  revert fuel m. induction e as [|e IH]; intros fuel m He Hfuel r Hr Htrue Hfalse; subst r; (destruct fuel as [|fuel]; [lia|]).
  - destruct (descend_turn fuel 0 m He Hr Htrue Hfalse) as (m' & -> & Hr' & Htrue' & Hfalse'). destruct fuel as [|fuel]; [lia|]. eexists. split_and!; [reflexivity|done|done|]. intros i Hi. apply Hfalse'. simpl in *. lia.
  - destruct (descend_turn fuel (S e) m He Hr Htrue Hfalse) as (m' & -> & Hr' & Htrue' & Hfalse'). rewrite Nat2Z.inj_succ, Z.pow_succ_r, Z.mul_comm, Z.div_mul by lia. apply IH; [lia|lia|done..].
Qed.

(** The first index, or one past the last, where the comparer does not hold of the sum. *)
Lemma LowerBound_spec : ∃ r, LowerBound comparer tree = Ok (Z.of_nat r) ∧ (r <= S (length xs))%nat ∧ ∀ i, (i <= length xs)%nat → comparer (prefix i) = bool_decide (i < r)%nat.
Proof.
  unfold LowerBound. assert (∃ fuel : nat, fuel = 33%nat) as [fuel Hfuel] by eauto. rewrite <- Hfuel. destruct (comparer item_zero) eqn:E0; simpl negb; cbn iota.
  - destruct (step_loop_spec fuel 0 ltac:(lia) ltac:(lia)) as (e & He & Estep & Hlt). change (2 ^ Z.of_nat 0) with 1 in Estep. rewrite Estep. run_bind.
    destruct (descend_loop_spec fuel e 0 He ltac:(lia) ltac:(simpl; lia) E0) as (r & Er & Hr & Htrue & Hfalse).
    { intros i Hi. unfold Size in Hlt. rewrite (proj1 Ht) in Hlt. assert (2 ^ Z.of_nat e = Z.of_nat (2 ^ e)) as Ez by (by rewrite Nat2Z.inj_pow). rewrite Ez in Hlt. simpl in Hi. lia. }
    change (Z.of_nat (0 * 2 ^ S e)) with 0 in Er. change (prefix (0 * 2 ^ S e)) with (item_zero (A := A)) in Er. rewrite Er. run_bind. exists (S r). split; [f_equal; lia|]. split; [lia|]. intros i Hi.
    case_bool_decide as Hir; [|apply Hfalse; lia]. apply (Hmonotone i r); [lia|done].
  - exists 0%nat. split_and!; [done|lia|]. intros i Hi. rewrite bool_decide_eq_false_2 by lia. destruct (comparer (prefix i)) eqn:Ei; [|done]. apply (Hmonotone 0) in Ei; [|lia]. simpl in Ei. by rewrite E0 in Ei.
Qed.
End Search.

(** *** Sequences of calls *)

Inductive TFenwickCall :=
| CallPushBack (item : A)
| CallSetValue (index : Z) (item : A)
| CallIncrement (index : Z) (delta : A)
| CallPopBack
| CallClear.

Definition fenwick_call (call : TFenwickCall) (tree : TFenwickTree A) : Result (TFenwickTree A) :=
  match call with
  | CallPushBack item => PushBack item tree
  | CallSetValue index item => SetValue index item tree
  | CallIncrement index delta => Increment index delta tree
  | CallPopBack => PopBack tree
  | CallClear => Ok Clear
  end.

Fixpoint fenwick_calls (calls : list TFenwickCall) (tree : TFenwickTree A) : Result (TFenwickTree A) :=
  match calls with [] => Ok tree | call :: calls => tree ← fenwick_call call tree; fenwick_calls calls tree end.

(** The same calls on the list of the items; [None] is an abort. *)
Definition items_call (call : TFenwickCall) xs : option (list A) :=
  match call with
  | CallPushBack item => if Z.of_nat (length xs) <=? MaxLength then Some (xs ++ [item]) else None
  | CallSetValue index item => if (0 <=? index) && (index <? Z.of_nat (length xs)) then Some (<[Z.to_nat index := item]> xs) else None
  | CallIncrement index delta => match xs !! Z.to_nat index with Some x => Some (<[Z.to_nat index := x ⊕ delta]> xs) | None => None end
  | CallPopBack => match rev xs with [] => None | _ :: ys => Some (rev ys) end
  | CallClear => Some []
  end.

Fixpoint items_calls (calls : list TFenwickCall) xs : option (list A) :=
  match calls with [] => Some xs | call :: calls => match items_call call xs with Some xs => items_calls calls xs | None => None end end.

(** What the header asks of a caller and the code does not check: [Increment] is called with the index of an item. *)
Definition call_allowed (call : TFenwickCall) xs : bool :=
  match call with CallIncrement index _ => (0 <=? index) && (index <? Z.of_nat (length xs)) | _ => true end.

Fixpoint calls_allowed (calls : list TFenwickCall) xs : bool :=
  match calls with [] => true | call :: calls => call_allowed call xs && match items_call call xs with Some xs => calls_allowed calls xs | None => true end end.

Lemma represents_nil : represents [] Clear.
Proof. split; [done|]. simpl. lia. Qed.

Lemma SetValue_out_of_range index item tree : (0 <=? index) && (index <? Size tree) = false → SetValue index item tree = Crash.
Proof. intros E. unfold SetValue. rewrite Z.geb_leb. destruct (0 <=? index); [|done]. simpl in E. by rewrite E. Qed.

Lemma fenwick_call_refines call xs tree : call_allowed call xs = true → represents xs tree → Z.of_nat (length xs) <= limit →
  match items_call call xs with
  | Some ys => ∃ tree', fenwick_call call tree = Ok tree' ∧ represents ys tree' ∧ Z.of_nat (length ys) <= limit
  | None => fenwick_call call tree = Crash
  end.
Proof.
  intros Ha Ht Hl. pose proof (proj1 Ht) as Hlen. destruct call as [item|index item|index delta| |]; simpl.
  - destruct (Z.leb_spec (Z.of_nat (length xs)) MaxLength) as [Hle|Hgt]; unfold MaxLength in *.
    + destruct (PushBack_spec xs tree item Ht ltac:(lia)) as (tree' & E & Ht'). exists tree'. split_and!; [done..|]. rewrite length_app. simpl. lia.
    + unfold PushBack, Size, MaxLength. rewrite Hlen. by destruct (Z.leb_spec (Z.of_nat (length xs)) (2 ^ 30)); [lia|].
  - destruct ((0 <=? index) && (index <? Z.of_nat (length xs))) eqn:Ei; [|apply SetValue_out_of_range; unfold Size; by rewrite Hlen].
    apply andb_true_iff in Ei as [Hnn Hi]. apply Z.leb_le in Hnn. apply Z.ltb_lt in Hi. destruct (lookup_lt_is_Some_2 xs (Z.to_nat index) ltac:(lia)) as [x Hx].
    destruct (SetValue_spec xs tree (Z.to_nat index) x item Ht Hl Hx) as (tree' & E & Ht'). rewrite Z2Nat.id in E by done. exists tree'. by rewrite length_insert.
  - cbn [call_allowed] in Ha. apply andb_true_iff in Ha as [Hnn%Z.leb_le Hi%Z.ltb_lt]. destruct (lookup_lt_is_Some_2 xs (Z.to_nat index) ltac:(lia)) as [x Hx]. rewrite Hx.
    destruct (Increment_spec xs tree (Z.to_nat index) x delta Ht Hl Hx) as (tree' & E & Ht'). rewrite Z2Nat.id in E by done. exists tree'. by rewrite length_insert.
  - destruct (rev xs) as [|x ys] eqn:Er.
    + apply (f_equal (@length _)) in Er. rewrite length_rev in Er. unfold PopBack, Size. by rewrite Hlen, Er.
    + assert (xs = rev ys ++ [x]) as -> by (rewrite <- (rev_involutive xs), Er; done). destruct (PopBack_spec (rev ys) x tree Ht) as (tree' & E & Ht'). exists tree'. split_and!; [done..|].
      rewrite length_app in Hl. simpl in Hl. lia.
  - exists Clear. split_and!; [done|apply represents_nil|simpl; lia].
Qed.

Lemma fenwick_calls_refine calls xs tree : calls_allowed calls xs = true → represents xs tree → Z.of_nat (length xs) <= limit →
  match items_calls calls xs with
  | Some ys => ∃ tree', fenwick_calls calls tree = Ok tree' ∧ represents ys tree' ∧ Z.of_nat (length ys) <= limit
  | None => fenwick_calls calls tree = Crash
  end.
Proof.
  revert xs tree. induction calls as [|call calls IH]; intros xs tree Ha Ht Hl; [simpl; eauto|]. cbn [calls_allowed] in Ha. apply andb_true_iff in Ha as [Ha Hrest]. pose proof (fenwick_call_refines call xs tree Ha Ht Hl) as Hcall. simpl. destruct (items_call call xs) as [ys|].
  - destruct Hcall as (tree' & -> & Ht' & Hl'). run_bind. by apply IH.
  - by rewrite Hcall.
Qed.

Lemma GetCumulativeSum_total xs tree index : represents xs tree →
  GetCumulativeSum tree index = if (0 <=? index) && (index <=? Size tree) then Ok (sum_of (take (Z.to_nat index) xs)) else Crash.
Proof.
  intros Ht. destruct (Z.leb_spec 0 index) as [Hnn|Hnn].
  - destruct (Z.leb_spec index (Size tree)) as [Hcall|Hcall]; simpl.
    + unfold Size in Hcall. rewrite (proj1 Ht) in Hcall. rewrite <- (GetCumulativeSum_spec xs tree) by (done || lia). by rewrite Z2Nat.id.
    + unfold GetCumulativeSum. rewrite Z.geb_leb. destruct (Z.leb_spec 0 index); [|done]. by destruct (Z.leb_spec index (Size tree)); [lia|].
  - unfold GetCumulativeSum. rewrite Z.geb_leb. by destruct (Z.leb_spec 0 index); [lia|].
Qed.

(** The comparer holds of a prefix of the cumulative sums. *)
Definition monotone_on (comparer : A → bool) xs : Prop :=
  ∀ i j, (i <= j <= length xs)%nat → comparer (sum_of (take j xs)) = true → comparer (sum_of (take i xs)) = true.

(** C31. The tree refines the list of its items. After any sequence of [PushBack], [SetValue],
    [Increment], [PopBack] and [Clear] on an empty tree in which [Increment] is only called with
    the index of an item, as the header demands, [GetCumulativeSum] returns the sums of the
    prefixes of the list and aborts outside of [[0, Size()]]; [LowerBound] returns the smallest
    index whose cumulative sum the comparer rejects (one past the last when it rejects none),
    provided that the comparer accepts a prefix of the sums and that there are fewer than
    [2 ^ 30] items. Such a sequence aborts exactly when it sets or removes an item that is not
    there, or adds one to more than [2 ^ 30]. *)
Theorem TFenwickTree_refines (calls : list TFenwickCall) : calls_allowed calls [] = true →
  match items_calls calls [] with
  | Some xs => ∃ tree, fenwick_calls calls Clear = Ok tree ∧ Size tree = Z.of_nat (length xs) ∧
      (∀ index, GetCumulativeSum tree index = if (0 <=? index) && (index <=? Size tree) then Ok (sum_of (take (Z.to_nat index) xs)) else Crash) ∧
      (∀ comparer, Size tree < MaxLength → monotone_on comparer xs →
        ∃ r, LowerBound comparer tree = Ok (Z.of_nat r) ∧ (r <= S (length xs))%nat ∧ ∀ i, (i <= length xs)%nat → comparer (sum_of (take i xs)) = bool_decide (i < r)%nat)
  | None => fenwick_calls calls Clear = Crash
  end.
Proof.
  intros Ha. pose proof (fenwick_calls_refine calls [] Clear Ha represents_nil ltac:(simpl; lia)) as Hcall. destruct (items_calls calls []) as [xs|]; [|done].
  destruct Hcall as (tree & E & Ht & Hl). assert (Size tree = Z.of_nat (length xs)) as Hsize by (unfold Size; by rewrite (proj1 Ht)). exists tree. split_and!; [done|done| |].
  - intros index. by apply GetCumulativeSum_total.
  - intros comparer Hmax Hmono. apply LowerBound_spec; [done|unfold MaxLength in Hmax; lia|done].
Qed.
End Refinement.
Arguments TFenwickCall : clear implicits.

(** Nonnegative items and the comparison of sums. *)
Lemma less_monotone (bound : Z) (xs : list Z) : Forall (λ x, 0 <= x) xs → monotone_on (λ sum, sum <? bound) xs.
Proof.
  intros Hxs i j Hij. rewrite !Z.ltb_lt. intros Hj. enough (sum_of (take i xs) <= sum_of (take j xs)) by lia.
  replace j with (i + (j - i))%nat by lia. rewrite <- take_take_drop, sum_of_app. enough (0 <= sum_of (take (j - i) (drop i xs))) by (simpl; lia).
  apply (Forall_drop _ i), (Forall_take _ (j - i)) in Hxs. induction Hxs; simpl; lia.
Qed.

Lemma TFenwickTree_refines_witness :
  let calls := [CallPushBack 3; CallPushBack 0; CallPushBack 5; CallPushBack 1; CallSetValue 0 2; CallIncrement 1 4; CallPopBack] in
  (∃ tree, fenwick_calls calls Clear = Ok tree ∧ GetCumulativeSum tree 2 = Ok 6 ∧ GetCumulativeSum tree 4 = Crash ∧
    ∃ r, LowerBound (λ sum, sum <? 7) tree = Ok (Z.of_nat r) ∧ r = 3%nat) ∧
  fenwick_calls (A := Z) [CallPushBack 1; CallPopBack; CallPopBack] Clear = Crash.
Proof.
  intros calls. split; [|exact (TFenwickTree_refines (A := Z) [CallPushBack 1; CallPopBack; CallPopBack] eq_refl)].
  destruct (TFenwickTree_refines calls eq_refl) as (tree & E & Hsize & Hsum & Hlower). change (Z.of_nat _) with 3 in Hsize. rewrite Hsize in *. exists tree. split; [done|].
  split; [exact (Hsum 2)|]. split; [exact (Hsum 4)|].
  destruct (Hlower (λ sum, sum <? 7) ltac:(done) ltac:(apply less_monotone; change (rev _) with [2; 4; 5]; repeat constructor; lia)) as (r & Er & Hr & Hi). exists r. split; [done|].
  simpl in Hr. pose proof (Hi 2%nat ltac:(simpl; lia)) as H2. pose proof (Hi 3%nat ltac:(simpl; lia)) as H3. simpl in H2, H3. symmetry in H2, H3.
  apply bool_decide_eq_true in H2. apply bool_decide_eq_false in H3. lia.
Defined.

(** With [2 ^ 30] items, which [PushBack] allows, the loop of [LowerBound] that looks for a
    step does not end: the step overflows to a negative number and then to zero. *)
Lemma LowerBound_step_overflows fuel : step_loop fuel MaxLength 1 = OutOfFuel.
Proof.
  assert (∀ fuel step, step <= 0 → wrap_s 32 (step * 2) = 0 → step_loop fuel MaxLength step = OutOfFuel) as Hzero.
  { clear. intros fuel. induction fuel as [|fuel IH]; intros step Hstep Hwrap; [done|]. cbn [step_loop]. destruct (Z.leb_spec step MaxLength); [|unfold MaxLength in *; lia]. rewrite Hwrap. by apply IH. }
  do 31 (destruct fuel as [|fuel]; [done|]; cbn [step_loop]; match goal with |- (if ?c then _ else _) = _ => change c with true end; cbn iota; match goal with |- step_loop _ _ ?s = _ => let v := eval vm_compute in s in change s with v end).
  by apply Hzero.
Qed.
