(* ===== verification/Heap.v ===== *)
(** Binary heaps on a range (misc/heap.h, heap-inl.h). Iterators are offsets from [begin]; the
    callback [onAssign] is modelled by the list of its calls. *)

From S2P Require Import Prelude.

Section HeapOperations.
Context {A : Type}.

(** The array, and the offsets [onAssign] was called with together with the items that were
    there at the call. *)
Record THeap := { Items : list A; Assigned : list (nat * A) }.

Definition item (heap : THeap) (offset : nat) : Result A :=
  match Items heap !! offset with Some value => Ok value | None => Crash end.

Definition store (offset : nat) (value : A) (heap : THeap) : THeap :=
  {| Items := <[offset := value]> (Items heap); Assigned := Assigned heap |}.

Definition onAssign (offset : nat) (heap : THeap) : Result THeap :=
  value ← item heap offset;
  Ok {| Items := Items heap; Assigned := Assigned heap ++ [(offset, value)] |}.

Context (comparer : A → A → bool).

(** The loop of [SiftDown]; [value] has been moved out of the array. *)
Fixpoint sift_down_loop (fuel size offset : nat) (value : A) (heap : THeap) : Result (nat * THeap) :=
  match fuel with
  | O => OutOfFuel
  | S fuel =>
      let left := (2 * offset + 1)%nat in
      if (size <=? left)%nat then Ok (offset, heap)
      else
        let right := S left in
        min ← (if (size <=? right)%nat then Ok left
               else leftValue ← item heap left; rightValue ← item heap right; Ok (if comparer leftValue rightValue then left else right));
        minValue ← item heap min;
        if comparer value minValue then Ok (offset, heap)
        else heap ← onAssign offset (store offset minValue heap); sift_down_loop fuel size min value heap
  end.

Definition SiftDown (size offset : nat) (heap : THeap) : Result THeap :=
  value ← item heap offset;
  '(offset, heap) ← sift_down_loop (S size) size offset value heap;
  onAssign offset (store offset value heap).

(** The loop of [SiftUp], and of [AdjustHeapItem], which also notes whether it moved. *)
Fixpoint sift_up_loop (fuel current : nat) (value : A) (hasSiftedUp : bool) (heap : THeap) : Result (nat * bool * THeap) :=
  match fuel with
  | O => OutOfFuel
  | S fuel =>
      if (current =? 0)%nat then Ok (current, hasSiftedUp, heap)
      else
        let parent := ((current - 1) / 2)%nat in
        parentValue ← item heap parent;
        if comparer parentValue value then Ok (current, hasSiftedUp, heap)
        else heap ← onAssign current (store current parentValue heap); sift_up_loop fuel parent value true heap
  end.

Definition SiftUp (current : nat) (heap : THeap) : Result THeap :=
  value ← item heap current;
  '(current, _, heap) ← sift_up_loop (S current) current value false heap;
  onAssign current (store current value heap).

(** [for (current = size / 2; current > 0; ) { --current; ... }] *)
Fixpoint make_heap_loop (current size : nat) (heap : THeap) : Result THeap :=
  match current with
  | O => Ok heap
  | S current => heap ← SiftDown size current heap; make_heap_loop current size heap
  end.

Definition MakeHeap (size : nat) (heap : THeap) : Result THeap :=
  if (1 <? size)%nat then make_heap_loop (size / 2) size heap else Ok heap.

Definition AdjustHeapFront (size : nat) (heap : THeap) : Result THeap :=
  if (1 <? size)%nat then SiftDown size 0 heap else Ok heap.

Definition AdjustHeapBack (size : nat) (heap : THeap) : Result THeap :=
  if (1 <? size)%nat then SiftUp (size - 1) heap else Ok heap.

Definition AdjustHeapItem (size current : nat) (heap : THeap) : Result THeap :=
  value ← item heap current;
  '(current, hasSiftedUp, heap) ← sift_up_loop (S current) current value false heap;
  let heap := store current value heap in
  if (hasSiftedUp : bool) then onAssign current heap
  else
    value ← item heap current;
    '(offset, heap) ← sift_down_loop (S size) size current value heap;
    onAssign offset (store offset value heap).

Definition swap_items (i j : nat) (heap : THeap) : Result THeap :=
  x ← item heap i; y ← item heap j; Ok (store j x (store i y heap)).

Definition ExtractHeapItem (size current : nat) (heap : THeap) : Result THeap :=
  _ ← Verify (negb (size =? 0)%nat);
  let newEnd := (size - 1)%nat in
  if (current =? newEnd)%nat then Ok heap
  else
    heap ← swap_items current newEnd heap;
    heap ← onAssign current heap;
    heap ← onAssign newEnd heap;
    AdjustHeapItem newEnd current heap.

Definition ExtractHeap (size : nat) (heap : THeap) : Result THeap :=
  _ ← Verify (negb (size =? 0)%nat);
  let newEnd := (size - 1)%nat in
  if (newEnd =? 0)%nat then Ok heap
  else
    heap ← swap_items 0 newEnd heap;
    heap ← onAssign 0 heap;
    heap ← onAssign newEnd heap;
    SiftDown newEnd 0 heap.
End HeapOperations.
Arguments THeap : clear implicits.

(** ** Arrays *)

Definition parent (c : nat) : nat := ((c - 1) / 2)%nat.

Lemma parent_child c o : (0 < c)%nat → parent c = o ↔ (c = 2 * o + 1 ∨ c = 2 * o + 2)%nat.
Proof. intros Hc. unfold parent. pose proof (Nat.div_mod (c - 1) 2 ltac:(lia)). pose proof (Nat.mod_upper_bound (c - 1) 2 ltac:(lia)). lia. Qed.

Lemma parent_lt c : (0 < c)%nat → (parent c < c)%nat.
Proof. intros Hc. pose proof (proj1 (parent_child c (parent c) Hc) eq_refl). lia. Qed.

Section Arrays.
Context {A : Type}.
Implicit Types (h : list A) (x value : A).

Lemma insert_Permutation h o x : (o < length h)%nat → <[o := x]> h ≡ₚ x :: delete o h.
Proof.
  intros Ho. rewrite insert_take_drop by done. rewrite delete_take_drop. by rewrite Permutation_middle.
Qed.

(** Moving an item into the hole moves the hole. *)
Lemma move_Permutation h o m x value : o ≠ m → (o < length h)%nat → h !! m = Some x → <[m := value]> (<[o := x]> h) ≡ₚ <[o := value]> h.
Proof.
  intros Hne Ho Hm. pose proof (lookup_lt_Some _ _ _ Hm) as Hlt. assert ((<[o := x]> h) !! m = Some x) as Hx by (by rewrite list_lookup_insert_ne).
  rewrite (insert_Permutation _ m) by (by rewrite length_insert). rewrite (insert_Permutation h o value) by done. apply Permutation_skip. apply (Permutation_cons_inv (a := x)).
  rewrite <- (delete_Permutation _ _ _ Hx). by apply insert_Permutation.
Qed.

Lemma lookup_move h o m x value i : o ≠ m → (o < length h)%nat → h !! m = Some x →
  (<[m := value]> (<[o := x]> h)) !! i = if decide (i = m) then Some value else if decide (i = o) then Some x else (<[o := value]> h) !! i.
Proof.
  intros Hne Ho Hm. pose proof (lookup_lt_Some _ _ _ Hm) as Hlt. repeat case_decide; subst.
  - rewrite list_lookup_insert_eq; [done|by rewrite length_insert].
  - rewrite list_lookup_insert_ne by done. by rewrite list_lookup_insert_eq.
  - by rewrite !list_lookup_insert_ne by done.
Qed.

(** *** Order *)

Context (comparer : A → A → bool).

(** A strict weak order. *)
Class StrictWeakOrder := {
  less_asymmetric x y : comparer x y = true → comparer y x = false;
  not_less_transitive x y z : comparer y x = false → comparer z y = false → comparer z x = false
}.

Definition edge h (p c : nat) : Prop := ∀ x y, h !! p = Some x → h !! c = Some y → comparer y x = false.

(** No item of the first [size] is less than its parent, for the parents from [k] on. *)
Definition heap_from (size k : nat) h : Prop := ∀ c, (0 < c < size)%nat → (k <= parent c)%nat → edge h (parent c) c.
Definition is_heap (size : nat) h : Prop := heap_from size 0 h.

(** The same, except for the children of [o], which are not less than the parent of [o]. *)
Definition heap_above (size k o : nat) h : Prop :=
  (∀ c, (0 < c < size)%nat → (k <= parent c)%nat → parent c ≠ o → edge h (parent c) c) ∧
  (∀ c, (0 < c < size)%nat → parent c = o → (0 < o)%nat → (k <= parent o)%nat → edge h (parent o) c).

(** The same, except for [o] itself. *)
Definition heap_below (size o : nat) h : Prop :=
  (∀ c, (0 < c < size)%nat → c ≠ o → edge h (parent c) c) ∧
  (∀ c, (0 < c < size)%nat → parent c = o → (0 < o)%nat → edge h (parent o) c).

Context `{!StrictWeakOrder}.

Lemma heap_above_done size k o h : heap_above size k o h → (∀ c, (0 < c < size)%nat → parent c = o → edge h o c) → heap_from size k h.
Proof. intros [Hab _] Hc c Hlt Hk. destruct (decide (parent c = o)) as [E|Hne]; [rewrite E; by apply Hc|by apply Hab]. Qed.

Lemma heap_below_done size o h : heap_below size o h → ((0 < o < size)%nat → edge h (parent o) o) → is_heap size h.
Proof. intros [Hb _] Ho c Hlt _. destruct (decide (c = o)) as [-> |Hne]; [by apply Ho|by apply Hb]. Qed.

(** [SiftDown]: the lesser child moves up. *)
Lemma heap_above_move size k o m h x value : (o < size <= length h)%nat → (0 < m < size)%nat → parent m = o → (k <= o)%nat → h !! m = Some x → comparer value x = false →
  (∀ c y, (0 < c < size)%nat → parent c = o → h !! c = Some y → comparer y x = false) →
  heap_above size k o (<[o := value]> h) → heap_above size k m (<[m := value]> (<[o := x]> h)).
Proof.
  intros Ho Hm Hpm Hk Hx Hle Hmin [Hab Hgrand]. pose proof (parent_lt m ltac:(lia)) as Hlt. assert (o ≠ m) as Hne by lia. split.
  - intros c Hc Hkc Hpc y z. rewrite !(lookup_move h o m x value) by (done || lia). pose proof (parent_lt c ltac:(lia)) as Hcc. rewrite (decide_False (P := parent c = m)) by done.
    destruct (decide (parent c = o)) as [Epo|Hpo]; intros [= <-] || intros Hy.
    + destruct (decide (c = m)) as [-> |Hcm]; [by intros [= <-]|]. rewrite decide_False by lia. rewrite list_lookup_insert_ne by lia. by apply Hmin.
    + destruct (decide (c = m)) as [-> |Hcm]; [done|]. destruct (decide (c = o)) as [-> |Hco].
      * intros [= <-]. refine (Hgrand m ltac:(lia) Hpm _ Hkc y x Hy _); [lia|]. by rewrite list_lookup_insert_ne.
      * intros Hz. by apply (Hab c Hc Hkc Hpo y z).
  - intros c Hc Hpc H0 Hkm y z. rewrite Hpm in *. rewrite !(lookup_move h o m x value) by (done || lia). pose proof (parent_lt c ltac:(lia)) as Hcc.
    rewrite (decide_False (P := o = m)) by done. rewrite (decide_True (P := o = o)) by done. intros [= <-]. rewrite decide_False by lia. rewrite decide_False by lia.
    intros Hz. apply (Hab c Hc); [lia|lia| |done]. rewrite Hpc. by rewrite list_lookup_insert_ne.
Qed.

(** [SiftUp]: the parent moves down. *)
Lemma heap_below_move size o h x value : (0 < o < size)%nat → (size <= length h)%nat → h !! parent o = Some x → comparer x value = false →
  heap_below size o (<[o := value]> h) → heap_below size (parent o) (<[parent o := value]> (<[o := x]> h)).
Proof.
  intros Ho Hs Hx Hle [Hb Hgrand]. pose proof (parent_lt o ltac:(lia)) as Hlt. set (m := parent o) in *. assert (o ≠ m) as Hne by lia.
  assert (∀ c y, (0 < c < size)%nat → parent c = m → c ≠ o → (<[o := value]> h) !! c = Some y → comparer y x = false) as Hsibling.
  { intros c y Hc Hpc Hco Hy. apply (Hb c Hc Hco x y); [|done]. by rewrite Hpc, list_lookup_insert_ne. } split.
  - intros c Hc Hcm y z. rewrite !(lookup_move h o m x value) by (done || lia). pose proof (parent_lt c ltac:(lia)) as Hcc. rewrite (decide_False (P := c = m)) by done.
    destruct (decide (c = o)) as [-> |Hco].
    + fold m. rewrite decide_True by done. intros [= <-] [= <-]. done.
    + destruct (decide (parent c = m)) as [Epm|Hpm].
      * intros [= <-] Hz. apply (not_less_transitive _ x); [done|]. by apply (Hsibling c).
      * destruct (decide (parent c = o)) as [Epo|Hpo]; [|by apply Hb]. intros [= <-] Hz. apply (Hgrand c Hc Epo ltac:(lia) x z); [|done]. by rewrite list_lookup_insert_ne.
  - intros c Hc Hpc H0 y z. pose proof (parent_lt m H0) as Hpm. pose proof (parent_lt c ltac:(lia)) as Hcc. rewrite !(lookup_move h o m x value) by (done || lia).
    rewrite (decide_False (P := parent m = m)), (decide_False (P := parent m = o)) by lia. rewrite (decide_False (P := c = m)) by lia. intros Hy.
    assert (comparer x y = false) as Hxy by (apply (Hb m ltac:(lia) ltac:(lia) y x Hy); by rewrite list_lookup_insert_ne).
    destruct (decide (c = o)) as [-> |Hco]; [by intros [= <-]|]. intros Hz. apply (not_less_transitive _ x); [done|]. by apply (Hsibling c).
Qed.
End Arrays.

(** ** Loops *)

Section Loops.
Context {A : Type} (comparer : A → A → bool).
Implicit Types (h : list A) (heap : THeap A).

(** The first [size] items are rearranged. *)
Definition rearranged (size : nat) h h' : Prop := h' ≡ₚ h ∧ drop size h' = drop size h.

#[export] Instance rearranged_preorder size : PreOrder (rearranged size).
Proof. split; [by split|]. intros h1 h2 h3 [Hp1 Hd1] [Hp2 Hd2]. split; [by rewrite Hp2|by rewrite Hd2]. Qed.

Lemma rearranged_length size h h' : rearranged size h h' → length h' = length h.
Proof. intros [Hp _]. by rewrite Hp. Qed.

(** Who repeats the assignments that are reported has the same array. *)
Definition replay (assigned : list (nat * A)) h : list A := foldl (λ h '(offset, value), <[offset := value]> h) h assigned.
Definition mirrors h heap : Prop := Items heap = replay (Assigned heap) h.

(** A store and its report. *)
Lemma report offset value heap : (offset < length (Items heap))%nat →
  ∃ heap', onAssign offset (store offset value heap) = Ok heap' ∧ Items heap' = <[offset := value]> (Items heap) ∧ ∀ h, mirrors h heap → mirrors h heap'.
Proof.
  intros Ho. unfold onAssign, item, store. simpl. rewrite list_lookup_insert_eq by done. run_bind. eexists. split_and!; [done..|].
  intros h Hm. unfold mirrors, replay in *. simpl. rewrite foldl_app. simpl. by rewrite <- Hm.
Qed.

Lemma item_ok heap offset : (offset < length (Items heap))%nat → ∃ value, item heap offset = Ok value ∧ Items heap !! offset = Some value.
Proof. intros Ho. destruct (lookup_lt_is_Some_2 _ _ Ho) as [value Hv]. exists value. unfold item. by rewrite Hv. Qed.

Lemma rearranged_move size h o m x value : o ≠ m → (o < size <= length h)%nat → (m < size)%nat → h !! m = Some x → rearranged size (<[o := value]> h) (<[m := value]> (<[o := x]> h)).
Proof. intros Hne Ho Hm Hx. split; [by apply move_Permutation; [done|lia|]|]. by rewrite !drop_insert_lt by lia. Qed.

(** The choice of a child. *)
Lemma choose_child heap size offset : (2 * offset + 1 < size <= length (Items heap))%nat →
  ∃ m x, (if (size <=? S (2 * offset + 1))%nat then Ok (2 * offset + 1)%nat
          else leftValue ← item heap (2 * offset + 1); rightValue ← item heap (S (2 * offset + 1)); Ok (if comparer leftValue rightValue then 2 * offset + 1 else S (2 * offset + 1))%nat) = Ok m ∧
    Items heap !! m = Some x ∧ (0 < m < size)%nat ∧ parent m = offset ∧
    (StrictWeakOrder comparer → ∀ c y, (0 < c < size)%nat → parent c = offset → Items heap !! c = Some y → comparer y x = false).
Proof.
  intros Hs. destruct (item_ok heap (2 * offset + 1) ltac:(lia)) as (l & El & Hl). assert (StrictWeakOrder comparer → ∀ x, comparer x x = false) as Hirr.
  { intros Hswo x. destruct (comparer x x) eqn:E; [|done]. by rewrite (less_asymmetric _ _ _ E) in E. }
  destruct (Nat.leb_spec size (S (2 * offset + 1))) as [Hr|Hr].
  - exists (2 * offset + 1)%nat, l. split_and!; [done|done|lia|lia|apply parent_child; lia|]. intros Hswo c y Hc Hpc Hy. apply parent_child in Hpc; [|lia]. assert (c = 2 * offset + 1)%nat as -> by lia.
    rewrite Hl in Hy. injection Hy as <-. by apply Hirr.
  - destruct (item_ok heap (S (2 * offset + 1)) ltac:(lia)) as (r & Er & Hr'). rewrite El, Er. run_bind. destruct (comparer l r) eqn:Ec.
    + exists (2 * offset + 1)%nat, l. split_and!; [done|done|lia|lia|apply parent_child; lia|]. intros Hswo c y Hc Hpc Hy. apply parent_child in Hpc; [|lia]. destruct Hpc as [-> | ->].
      * rewrite Hl in Hy. injection Hy as <-. by apply Hirr.
      * replace (2 * offset + 2)%nat with (S (2 * offset + 1)) in Hy by lia. rewrite Hr' in Hy. injection Hy as <-. by apply (less_asymmetric comparer).
    + exists (S (2 * offset + 1)), r. split_and!; [done|done|lia|lia|apply parent_child; lia|]. intros Hswo c y Hc Hpc Hy. apply parent_child in Hpc; [|lia]. destruct Hpc as [-> | ->].
      * rewrite Hl in Hy. by injection Hy as <-.
      * replace (2 * offset + 2)%nat with (S (2 * offset + 1)) in Hy by lia. rewrite Hr' in Hy. injection Hy as <-. by apply Hirr.
Qed.

Lemma sift_down_loop_spec fuel size offset value heap : (offset < size <= length (Items heap))%nat → (size < fuel + offset)%nat →
  ∃ offset' heap', sift_down_loop comparer fuel size offset value heap = Ok (offset', heap') ∧ (offset' < size)%nat ∧
    rearranged size (<[offset := value]> (Items heap)) (<[offset' := value]> (Items heap')) ∧ (∀ h, mirrors h heap → mirrors h heap') ∧
    (StrictWeakOrder comparer → ∀ k, (k <= offset)%nat → heap_above comparer size k offset (<[offset := value]> (Items heap)) → heap_from comparer size k (<[offset' := value]> (Items heap'))).
Proof.
  revert offset heap. induction fuel as [|fuel IH]; intros offset heap Ho Hf; [lia|]. cbn [sift_down_loop]. destruct (Nat.leb_spec size (2 * offset + 1)) as [Hl|Hl].
  - exists offset, heap. split_and!; [done|lia|done|done|]. intros Hswo k Hk Hab. apply (heap_above_done _ _ _ _ _ Hab). intros c Hc Hpc. apply parent_child in Hpc; lia.
  - destruct (choose_child heap size offset ltac:(lia)) as (m & x & -> & Hx & Hm & Hpm & Hmin). run_bind. unfold item at 1. rewrite Hx. run_bind. pose proof (parent_lt m ltac:(lia)) as Hlt. destruct (comparer value x) eqn:Ec.
    + exists offset, heap. split_and!; [done|lia|done|done|]. intros Hswo k Hk Hab. apply (heap_above_done _ _ _ _ _ Hab). intros c Hc Hpc y z. rewrite list_lookup_insert_eq by lia. intros [= <-].
      rewrite list_lookup_insert_ne by (pose proof (parent_lt c ltac:(lia)); lia). intros Hz. apply (not_less_transitive comparer _ x); [by apply (less_asymmetric comparer)|by apply (Hmin Hswo c)].
    + destruct (report offset x heap ltac:(lia)) as (heap1 & -> & Ei & Hrep). run_bind. destruct (IH m heap1) as (offset' & heap' & E & Ho' & Hre & Hmir & Hheap); [rewrite Ei, length_insert; lia|lia|].
      exists offset', heap'. rewrite Ei in Hre, Hheap. split_and!; [done|done| |by auto|].
      * etrans; [apply (rearranged_move size _ offset m x value); [lia|lia|lia|done]|done].
      * intros Hswo k Hk Hab. apply Hheap; [done|lia|]. apply heap_above_move; [lia|lia|done|lia|done|done| |done]. by apply Hmin.
Qed.

Lemma SiftDown_spec size offset heap : (offset < size <= length (Items heap))%nat →
  ∃ heap', SiftDown comparer size offset heap = Ok heap' ∧ rearranged size (Items heap) (Items heap') ∧ (∀ h, mirrors h heap → mirrors h heap') ∧
    (StrictWeakOrder comparer → ∀ k, (k <= offset)%nat → heap_above comparer size k offset (Items heap) → heap_from comparer size k (Items heap')).
Proof.
  intros Ho. unfold SiftDown. destruct (item_ok heap offset ltac:(lia)) as (value & -> & Hv). run_bind.
  destruct (sift_down_loop_spec (S size) size offset value heap Ho ltac:(lia)) as (offset' & heap' & -> & Ho' & Hre & Hmir & Hheap). run_bind. rewrite list_insert_id in Hre, Hheap by done.
  pose proof (rearranged_length _ _ _ Hre) as Hlen. rewrite length_insert in Hlen. destruct (report offset' value heap' ltac:(lia)) as (heap'' & E & Ei & Hrep). exists heap''. rewrite Ei. split_and!; [done|done|by auto|done].
Qed.

Lemma sift_up_loop_spec fuel current value flag heap : (current < length (Items heap))%nat → (current < fuel)%nat →
  ∃ current' flag' heap', sift_up_loop comparer fuel current value flag heap = Ok (current', flag', heap') ∧ (current' <= current)%nat ∧
    (∀ size, (current < size <= length (Items heap))%nat → rearranged size (<[current := value]> (Items heap)) (<[current' := value]> (Items heap'))) ∧
    (∀ h, mirrors h heap → mirrors h heap') ∧ ((flag' = flag ∧ current' = current ∧ heap' = heap) ∨ flag' = true) ∧
    (StrictWeakOrder comparer → ∀ size, (current < size <= length (Items heap))%nat → heap_below comparer size current (<[current := value]> (Items heap)) → is_heap comparer size (<[current' := value]> (Items heap'))) ∧
    (flag' = false → (0 < current)%nat → StrictWeakOrder comparer → edge comparer (<[current := value]> (Items heap)) (parent current) current) ∧
    (flag = false → flag' = true → (0 < current)%nat ∧ ∀ x, Items heap !! parent current = Some x → comparer x value = false).
Proof.
  revert current flag heap. induction fuel as [|fuel IH]; intros current flag heap Hc Hf; [lia|]. cbn [sift_up_loop]. destruct (Nat.eqb_spec current 0) as [-> |Hne].
  - exists 0%nat, flag, heap. split_and!; [done|lia|done|done|by left| |lia|by intros ->]. intros Hswo size Hs Hb. apply (heap_below_done _ _ _ _ Hb). lia.
  - fold (parent current). pose proof (parent_lt current ltac:(lia)) as Hlt. destruct (item_ok heap (parent current) ltac:(lia)) as (x & -> & Hx). run_bind. destruct (comparer x value) eqn:Ec.
    + assert (StrictWeakOrder comparer → edge comparer (<[current := value]> (Items heap)) (parent current) current) as Hedge.
      { intros Hswo y z. rewrite list_lookup_insert_ne by lia. rewrite list_lookup_insert_eq by lia. rewrite Hx. intros [= <-] [= <-]. by apply (less_asymmetric comparer). }
      exists current, flag, heap. split_and!; [done|lia|done|done|by left| |by auto|by intros ->]. intros Hswo size Hs Hb. apply (heap_below_done _ _ _ _ Hb). by auto.
    + destruct (report current x heap Hc) as (heap1 & -> & Ei & Hrep). run_bind. destruct (IH (parent current) true heap1) as (current' & flag' & heap' & E & Hc' & Hre & Hmir & Hflag & Hheap & _ & _); [rewrite Ei, length_insert; lia|lia|].
      assert (flag' = true) as -> by (by destruct Hflag as [(-> & _)|]). rewrite Ei in Hre, Hheap. rewrite length_insert in Hre, Hheap. exists current', true, heap'.
      split_and!; [done|lia| |by auto|by right| |done|intros _ _; split; [lia|intros y Hy; by simplify_eq]].
      * intros size Hs. etrans; [apply (rearranged_move size _ current (parent current) x value); [lia|lia|lia|done]|]. apply Hre. lia.
      * intros Hswo size Hs Hb. apply Hheap; [done|lia|]. apply heap_below_move; [done|lia|lia|done|done|done].
Qed.

Lemma SiftUp_spec size current heap : (current < size <= length (Items heap))%nat →
  ∃ heap', SiftUp comparer current heap = Ok heap' ∧ rearranged size (Items heap) (Items heap') ∧ (∀ h, mirrors h heap → mirrors h heap') ∧
    (StrictWeakOrder comparer → heap_below comparer size current (Items heap) → is_heap comparer size (Items heap')).
Proof.
  intros Hc. unfold SiftUp. destruct (item_ok heap current ltac:(lia)) as (value & -> & Hv). run_bind.
  destruct (sift_up_loop_spec (S current) current value false heap ltac:(lia) ltac:(lia)) as (current' & flag & heap' & -> & Hc' & Hre & Hmir & _ & Hheap & _). run_bind. rewrite list_insert_id in Hre, Hheap by done.
  pose proof (rearranged_length _ _ _ (Hre size Hc)) as Hlen. rewrite length_insert in Hlen. destruct (report current' value heap' ltac:(lia)) as (heap'' & E & Ei & Hrep). exists heap''. rewrite Ei. split_and!; [done|by apply Hre|by auto|by auto].
Qed.

(** Any item at [o]: the rest is a heap. *)
Definition heap_except (size o : nat) (h : list A) : Prop :=
  (∀ c, (0 < c < size)%nat → c ≠ o → parent c ≠ o → edge comparer h (parent c) c) ∧
  (∀ c, (0 < c < size)%nat → parent c = o → (0 < o)%nat → edge comparer h (parent o) c).

Lemma heap_except_above size o h : heap_except size o h → ((0 < o)%nat → edge comparer h (parent o) o) → heap_above comparer size 0 o h.
Proof. intros [He Hg] Ho. split; [|by intros c Hc Hpc H0 _; apply Hg]. intros c Hc _ Hpc. destruct (decide (c = o)) as [-> |Hne]; [apply Ho; lia|by apply He]. Qed.

Lemma heap_except_below size o h x value : StrictWeakOrder comparer → (0 < o)%nat → heap_except size o h → h !! o = Some value → h !! parent o = Some x → comparer x value = false → heap_below comparer size o h.
Proof.
  intros Hswo Ho [He Hg] Hv Hx Hle. split; [|done]. intros c Hc Hco. destruct (decide (parent c = o)) as [E|Hne]; [|by apply He]. intros y z. rewrite E, Hv. intros [= <-] Hz.
  apply (not_less_transitive comparer _ x); [done|]. by apply (Hg c Hc E Ho x z).
Qed.

Lemma AdjustHeapItem_spec size current heap : (current < size <= length (Items heap))%nat →
  ∃ heap', AdjustHeapItem comparer size current heap = Ok heap' ∧ rearranged size (Items heap) (Items heap') ∧ (∀ h, mirrors h heap → mirrors h heap') ∧
    (StrictWeakOrder comparer → heap_except size current (Items heap) → is_heap comparer size (Items heap')).
Proof.
  intros Hc. unfold AdjustHeapItem. destruct (item_ok heap current ltac:(lia)) as (value & -> & Hv). run_bind.
  destruct (sift_up_loop_spec (S current) current value false heap ltac:(lia) ltac:(lia)) as (current' & flag & heap' & -> & Hc' & Hre & Hmir & Hflag & Hheap & Hedge & Hmoved). run_bind. rewrite list_insert_id in Hre, Hheap, Hedge by done.
  destruct flag.
  - pose proof (rearranged_length _ _ _ (Hre size Hc)) as Hlen. rewrite length_insert in Hlen. destruct (report current' value heap' ltac:(lia)) as (heap'' & E & Ei & Hrep). exists heap''. rewrite Ei.
    split_and!; [done|by apply Hre|by auto|]. intros Hswo Hex. apply Hheap; [done|done|]. destruct (Hmoved eq_refl eq_refl) as [Hpos Hle]. pose proof (parent_lt current Hpos).
    destruct (item_ok heap (parent current) ltac:(lia)) as (x & _ & Hx). by apply (heap_except_below size current _ x value); auto.
  - destruct Hflag as [(_ & -> & ->)|]; [|done]. assert (store current value heap = heap) as -> by (unfold store; rewrite list_insert_id by done; by destruct heap). fold (SiftDown comparer size current heap).
    destruct (SiftDown_spec size current heap Hc) as (heap'' & E & Hre' & Hmir' & Hheap'). exists heap''. split_and!; [done..|]. intros Hswo Hex. apply Hheap'; [done|lia|]. by apply heap_except_above; auto.
Qed.

Lemma make_heap_loop_spec current size heap : (current <= size <= length (Items heap))%nat →
  ∃ heap', make_heap_loop comparer current size heap = Ok heap' ∧ rearranged size (Items heap) (Items heap') ∧ (∀ h, mirrors h heap → mirrors h heap') ∧
    (StrictWeakOrder comparer → heap_from comparer size current (Items heap) → is_heap comparer size (Items heap')).
Proof.
  revert heap. induction current as [|current IH]; intros heap Hc; [by exists heap|]. simpl. destruct (SiftDown_spec size current heap ltac:(lia)) as (heap1 & -> & Hre1 & Hmir1 & Hheap1). run_bind.
  pose proof (rearranged_length _ _ _ Hre1) as Hlen. destruct (IH heap1 ltac:(lia)) as (heap' & E & Hre & Hmir & Hheap). exists heap'. split_and!; [done|by etrans|by auto|].
  intros Hswo Hfrom. apply Hheap; [done|]. apply Hheap1; [done|done|]. split; [intros c Hlt Hk Hne; apply Hfrom; lia|]. intros c Hlt Hp H0 Hk. pose proof (parent_lt current H0). lia.
Qed.
End Loops.

(** ** The operations *)

Section Operations.
Context {A : Type} (comparer : A → A → bool).
Implicit Types (h : list A) (heap : THeap A).

(** Exchange and report both. *)
Lemma exchange i j heap : (i < j)%nat → (j < length (Items heap))%nat → ∃ x y heap1 heap2 heap3, Items heap !! i = Some x ∧ Items heap !! j = Some y ∧
  swap_items i j heap = Ok heap1 ∧ onAssign i heap1 = Ok heap2 ∧ onAssign j heap2 = Ok heap3 ∧ Items heap3 = <[j := x]> (<[i := y]> (Items heap)) ∧
  Items heap3 ≡ₚ Items heap ∧ ∀ h, mirrors h heap → mirrors h heap3.
Proof.
  intros Hij Hj. destruct (item_ok heap i ltac:(lia)) as (x & Ex & Hx). destruct (item_ok heap j Hj) as (y & Ey & Hy). exists x, y. unfold swap_items. rewrite Ex, Ey. run_bind. do 3 eexists. split_and!; [done..| | | | |].
  - unfold onAssign, item. simpl. rewrite list_lookup_insert_ne, list_lookup_insert_eq by lia. reflexivity.
  - unfold onAssign, item. simpl. rewrite list_lookup_insert_eq by (rewrite length_insert; lia). reflexivity.
  - done.
  - simpl. rewrite (move_Permutation (Items heap) i j y x) by (done || lia). by rewrite list_insert_id.
  - intros h Hm. unfold mirrors, replay in *. simpl. rewrite !foldl_app. simpl. by rewrite <- Hm.
Qed.

Lemma edge_agree h h' p c : h' !! p = h !! p → h' !! c = h !! c → edge comparer h p c → edge comparer h' p c.
Proof. intros Ep Ec He x y. rewrite Ep, Ec. apply He. Qed.

(** A heap with another item at [o]. *)
Lemma heap_replace size o h h' : StrictWeakOrder comparer → is_heap comparer size h → (o < size <= length h)%nat → (∀ i, (i < size)%nat → i ≠ o → h' !! i = h !! i) → heap_except comparer size o h'.
Proof.
  intros Hswo Hheap Ho Hag. split.
  - intros c Hc Hco Hpo. pose proof (parent_lt c ltac:(lia)). apply (edge_agree h); [apply Hag; lia|apply Hag; lia|]. apply Hheap; lia.
  - intros c Hc Hpc Hpos. pose proof (parent_lt c ltac:(lia)). pose proof (parent_lt o Hpos). apply (edge_agree h); [apply Hag; lia|apply Hag; lia|]. intros x z Hx Hz.
    destruct (lookup_lt_is_Some_2 h o ltac:(lia)) as [y Hy]. apply (not_less_transitive comparer x y z).
    + apply (Hheap o); [lia|lia|done|done].
    + apply (Hheap c); [lia|lia|by rewrite Hpc|done].
Qed.

Lemma is_heap_fewer n size h h' : (n <= size)%nat → is_heap comparer size h → (∀ i, (i < n)%nat → h' !! i = h !! i) → is_heap comparer n h'.
Proof. intros Hn Hheap Hag c Hc _. pose proof (parent_lt c ltac:(lia)). apply (edge_agree h); [apply Hag; lia..|]. apply Hheap; lia. Qed.

Lemma is_heap_small size h : (size <= 1)%nat → is_heap comparer size h.
Proof. intros Hs c Hc. lia. Qed.

(** Nothing is less than the front. *)
Lemma front_least size h x i y : StrictWeakOrder comparer → is_heap comparer size h → (size <= length h)%nat → h !! 0%nat = Some x → (i < size)%nat → h !! i = Some y → comparer y x = false.
Proof.
  intros Hswo Hheap Hs Hx. revert y. induction i as [i IH] using lt_wf_ind. intros y Hi Hy. destruct (decide (i = 0%nat)) as [-> |Hne].
  - rewrite Hx in Hy. injection Hy as <-. destruct (comparer x x) eqn:E; [|done]. by rewrite (less_asymmetric _ _ _ E) in E.
  - pose proof (parent_lt i ltac:(lia)). destruct (lookup_lt_is_Some_2 h (parent i) ltac:(lia)) as [p Hp]. apply (not_less_transitive comparer x p y); [by apply (IH (parent i)); [lia|lia|]|]. by apply (Hheap i); [lia|lia| |].
Qed.

Lemma MakeHeap_spec heap : ∃ heap', MakeHeap comparer (length (Items heap)) heap = Ok heap' ∧ rearranged (length (Items heap)) (Items heap) (Items heap') ∧ (∀ h, mirrors h heap → mirrors h heap') ∧
  (StrictWeakOrder comparer → is_heap comparer (length (Items heap)) (Items heap')).
Proof.
  set (size := length (Items heap)). unfold MakeHeap. destruct (Nat.ltb_spec 1 size) as [Hs|Hs]; [|exists heap; split_and!; [done..|]; intros _; by apply is_heap_small].
  pose proof (Nat.div_mod size 2 ltac:(lia)). pose proof (Nat.mod_upper_bound size 2 ltac:(lia)).
  destruct (make_heap_loop_spec comparer (size / 2) size heap ltac:(lia)) as (heap' & E & Hre & Hmir & Hheap). exists heap'. split_and!; [done..|]. intros Hswo. apply Hheap; [done|].
  intros c Hc Hk. pose proof (proj1 (parent_child c (parent c) ltac:(lia)) eq_refl). lia.
Qed.

(** The ways a client keeps its heap: [push_back] and [AdjustHeapBack], a new front and
    [AdjustHeapFront], a new item and [AdjustHeapItem], [ExtractHeap] and [pop_back]. *)
Inductive THeapCall :=
| HeapPush (value : A)
| HeapReplaceFront (value : A)
| HeapReplace (offset : nat) (value : A)
| HeapExtract
| HeapExtractItem (offset : nat).

Definition start_heap h : THeap A := {| Items := h; Assigned := [] |}.

(** The array before the last step, that of [pop_back]. *)
Definition heap_call (call : THeapCall) h : Result (THeap A) :=
  match call with
  | HeapPush value => AdjustHeapBack comparer (S (length h)) (start_heap (h ++ [value]))
  | HeapReplaceFront value => AdjustHeapFront comparer (length h) (start_heap (<[0%nat := value]> h))
  | HeapReplace offset value => AdjustHeapItem comparer (length h) offset (start_heap (<[offset := value]> h))
  | HeapExtract => ExtractHeap comparer (length h) (start_heap h)
  | HeapExtractItem offset => ExtractHeapItem comparer (length h) offset (start_heap h)
  end.

Definition call_valid (call : THeapCall) h : Prop :=
  match call with
  | HeapPush _ => True
  | HeapReplaceFront _ | HeapExtract => h ≠ []
  | HeapReplace offset _ | HeapExtractItem offset => (offset < length h)%nat
  end.

(** The array handed to the operation, how much of it is a heap afterwards, and what is left
    behind that. *)
Definition call_array (call : THeapCall) h : list A :=
  match call with
  | HeapPush value => h ++ [value]
  | HeapReplaceFront value => <[0%nat := value]> h
  | HeapReplace offset value => <[offset := value]> h
  | HeapExtract | HeapExtractItem _ => h
  end.

Definition call_size (call : THeapCall) h : nat :=
  match call with HeapPush _ => S (length h) | HeapReplaceFront _ | HeapReplace _ _ => length h | HeapExtract | HeapExtractItem _ => (length h - 1)%nat end.

Definition call_extracted (call : THeapCall) h : list A :=
  match call with
  | HeapExtract => option_list (h !! 0%nat)
  | HeapExtractItem offset => option_list (h !! offset)
  | _ => []
  end.

Lemma mirrors_start h : mirrors h (start_heap h).
Proof. done. Qed.

Lemma extract_case offset h heap3 heap' x y : (offset < length h - 1)%nat → h !! offset = Some x → h !! (length h - 1)%nat = Some y → Items heap3 = <[(length h - 1)%nat := x]> (<[offset := y]> h) → Items heap3 ≡ₚ h →
  rearranged (length h - 1) (Items heap3) (Items heap') → Items heap' ≡ₚ h ∧ drop (length h - 1) (Items heap') = [x].
Proof.
  intros Ho Hx Hy E3 Hp3 [Hp Hd]. split; [by rewrite Hp|]. rewrite Hd, E3. rewrite (drop_S _ x) by (rewrite list_lookup_insert_eq; [done|rewrite length_insert; lia]).
  by rewrite drop_ge by (rewrite !length_insert; lia).
Qed.

(** What every call does. *)
Definition call_ok (call : THeapCall) h heap' : Prop :=
  Items heap' ≡ₚ call_array call h ∧ drop (call_size call h) (Items heap') = call_extracted call h ∧ mirrors (call_array call h) heap' ∧
  (StrictWeakOrder comparer → is_heap comparer (length h) h → is_heap comparer (call_size call h) (Items heap')).

Lemma push_ok value h : ∃ heap', heap_call (HeapPush value) h = Ok heap' ∧ call_ok (HeapPush value) h heap'.
Proof.
  unfold heap_call, AdjustHeapBack, call_ok. cbn [call_array call_size call_extracted]. assert (length (h ++ [value]) = S (length h)) as Hlen by (rewrite length_app; simpl; lia).
  destruct (Nat.ltb_spec 1 (S (length h))) as [Hs|Hs].
  - replace (S (length h) - 1)%nat with (length h) by lia. destruct (SiftUp_spec comparer (S (length h)) (length h) (start_heap (h ++ [value]))) as (heap' & E & [Hp Hd] & Hmir & Hheap); [simpl; lia|].
    exists heap'. split; [done|]. split_and!; [done|by rewrite Hd; simpl; rewrite drop_ge by lia|by apply Hmir|]. intros Hswo Hh. apply Hheap; [done|]. simpl. split.
    + intros c Hc Hne. pose proof (parent_lt c ltac:(lia)). apply (edge_agree h); [by rewrite lookup_app_l by lia..|]. apply Hh; lia.
    + intros c Hc Hpc. pose proof (parent_lt c ltac:(lia)). lia.
  - exists (start_heap (h ++ [value])). split_and!; [done|done|simpl; by rewrite drop_ge by lia|done|]. intros _ _. apply is_heap_small. lia.
Qed.

Lemma replace_front_ok value h : h ≠ [] → ∃ heap', heap_call (HeapReplaceFront value) h = Ok heap' ∧ call_ok (HeapReplaceFront value) h heap'.
Proof.
  intros Hne. unfold heap_call, AdjustHeapFront, call_ok. cbn [call_array call_size call_extracted]. destruct (Nat.ltb_spec 1 (length h)) as [Hs|Hs].
  - destruct (SiftDown_spec comparer (length h) 0 (start_heap (<[0%nat := value]> h))) as (heap' & E & [Hp Hd] & Hmir & Hheap); [simpl; rewrite length_insert; lia|].
    exists heap'. split; [done|]. split_and!; [done|rewrite Hd; simpl; by rewrite drop_ge by (rewrite length_insert; lia)|by apply Hmir|]. intros Hswo Hh. apply Hheap; [done|lia|]. apply heap_except_above; [|lia].
    apply (heap_replace _ _ h); [done|done|lia|]. intros i Hi Hi0. simpl. by rewrite list_lookup_insert_ne.
  - exists (start_heap (<[0%nat := value]> h)). split_and!; [done|done|simpl; by rewrite drop_ge by (rewrite length_insert; lia)|done|]. intros _ _. by apply is_heap_small.
Qed.

Lemma replace_ok offset value h : (offset < length h)%nat → ∃ heap', heap_call (HeapReplace offset value) h = Ok heap' ∧ call_ok (HeapReplace offset value) h heap'.
Proof.
  intros Ho. unfold heap_call, call_ok. cbn [call_array call_size call_extracted].
  destruct (AdjustHeapItem_spec comparer (length h) offset (start_heap (<[offset := value]> h))) as (heap' & E & [Hp Hd] & Hmir & Hheap); [simpl; rewrite length_insert; lia|].
  exists heap'. split; [done|]. split_and!; [done|rewrite Hd; simpl; by rewrite drop_ge by (rewrite length_insert; lia)|by apply Hmir|]. intros Hswo Hh. apply Hheap; [done|].
  apply (heap_replace _ _ h); [done|done|lia|]. intros i Hi Hi0. simpl. by rewrite list_lookup_insert_ne.
Qed.

Lemma last_ok offset h x : (length h - 1 = offset)%nat → h !! offset = Some x → drop (length h - 1) h = [x].
Proof. intros <- Hx. pose proof (lookup_lt_Some _ _ _ Hx). rewrite (drop_S h x) by done. by rewrite drop_ge by lia. Qed.

Lemma extract_ok h : h ≠ [] → ∃ heap', heap_call HeapExtract h = Ok heap' ∧ call_ok HeapExtract h heap'.
Proof.
  intros Hne. assert (0 < length h)%nat as Hpos by (destruct h; [done|simpl; lia]). unfold heap_call, ExtractHeap, call_ok. cbn [call_array call_size call_extracted]. destruct (Nat.eqb_spec (length h) 0); [lia|]. simpl Verify. run_bind.
  destruct (Nat.eqb_spec (length h - 1) 0) as [Hs|Hs].
  - exists (start_heap h). destruct (lookup_lt_is_Some_2 h 0 Hpos) as [x Hx]. split_and!; [done|done|rewrite Hx; by apply (last_ok 0)|done|]. intros _ _. apply is_heap_small. lia.
  - destruct (exchange 0 (length h - 1) (start_heap h)) as (x & y & heap1 & heap2 & heap3 & Hx & Hy & -> & E2 & E3 & Ei & Hp3 & Hmir3); [lia|simpl; lia|]. run_bind. rewrite E2. run_bind. rewrite E3. run_bind. simpl in Hx, Hy.
    assert (length (Items heap3) = length h) as Hlen by (by rewrite Hp3). destruct (SiftDown_spec comparer (length h - 1) 0 heap3) as (heap' & E & Hre & Hmir & Hheap); [lia|].
    exists heap'. destruct (extract_case 0 h heap3 heap' x y) as [Hp Hd]; [lia|done..|]. split_and!; [done|done|by rewrite Hx|by auto using mirrors_start|]. intros Hswo Hh. apply Hheap; [done|lia|]. apply heap_except_above; [|lia].
    apply (heap_replace _ _ h); [done|by apply (is_heap_fewer _ (length h) h); [lia| |]|lia|]. intros i Hi Hi0. rewrite Ei. simpl. by rewrite !list_lookup_insert_ne by lia.
Qed.

Lemma extract_item_ok offset h : (offset < length h)%nat → ∃ heap', heap_call (HeapExtractItem offset) h = Ok heap' ∧ call_ok (HeapExtractItem offset) h heap'.
Proof.
  intros Ho. unfold heap_call, ExtractHeapItem, call_ok. cbn [call_array call_size call_extracted]. destruct (Nat.eqb_spec (length h) 0); [lia|]. simpl Verify. run_bind. destruct (Nat.eqb_spec offset (length h - 1)) as [Hs|Hs].
  - exists (start_heap h). destruct (lookup_lt_is_Some_2 h offset Ho) as [x Hx]. split_and!; [done|done|rewrite Hx; by apply (last_ok offset)|done|]. intros _ Hh. by apply (is_heap_fewer _ (length h) h); [lia| |].
  - destruct (exchange offset (length h - 1) (start_heap h)) as (x & y & heap1 & heap2 & heap3 & Hx & Hy & -> & E2 & E3 & Ei & Hp3 & Hmir3); [lia|simpl; lia|]. run_bind. rewrite E2. run_bind. rewrite E3. run_bind. simpl in Hx, Hy.
    assert (length (Items heap3) = length h) as Hlen by (by rewrite Hp3). destruct (AdjustHeapItem_spec comparer (length h - 1) offset heap3) as (heap' & E & Hre & Hmir & Hheap); [lia|].
    exists heap'. destruct (extract_case offset h heap3 heap' x y) as [Hp Hd]; [lia|done..|]. split_and!; [done|done|by rewrite Hx|by auto using mirrors_start|]. intros Hswo Hh. apply Hheap; [done|].
    apply (heap_replace _ _ h); [done|by apply (is_heap_fewer _ (length h) h); [lia| |]|lia|]. intros i Hi Hi0. rewrite Ei. simpl. by rewrite !list_lookup_insert_ne by lia.
Qed.

Lemma heap_call_ok call h : call_valid call h → ∃ heap', heap_call call h = Ok heap' ∧ call_ok call h heap'.
Proof. destruct call; intros Hv; [apply push_ok|by apply replace_front_ok|by apply replace_ok|by apply extract_ok|by apply extract_item_ok]. Qed.

(** [MakeHeap] turns any array into a heap: it returns for every comparer, with the same
    items in another order and every assignment reported to [onAssign]; for a strict weak
    order nothing is less than the front. *)
Theorem MakeHeap_correct h :
  ∃ heap', MakeHeap comparer (length h) (start_heap h) = Ok heap' ∧ Items heap' ≡ₚ h ∧ replay (Assigned heap') h = Items heap' ∧
    (StrictWeakOrder comparer → is_heap comparer (length h) (Items heap') ∧ ∀ x y, Items heap' !! 0%nat = Some x → y ∈ Items heap' → comparer y x = false).
Proof.
  destruct (MakeHeap_spec (start_heap h)) as (heap' & E & [Hp Hd] & Hmir & Hheap). simpl in *. exists heap'. split_and!; [done|done|by rewrite (Hmir h)|]. intros Hswo. split; [by apply Hheap|].
  intros x y Hx Hy. apply list_elem_of_lookup in Hy as [i Hi]. pose proof (lookup_lt_Some _ _ _ Hi) as Hlt. rewrite Hp in Hlt. apply (front_least (length h) (Items heap') x i y); [done|by apply Hheap|by rewrite Hp|done|done|done].
Qed.

(** C32. The heap invariant is kept by every way to change a heap ([push_back] and
    [AdjustHeapBack], a new front and [AdjustHeapFront], a new item and [AdjustHeapItem], both
    forms of [ExtractHeap]): on a heap, the call returns, leaves a heap in front of the items
    it extracted, which are the front or the item asked for, and has lost and invented none.
    The front that is extracted is a least item. Who repeats the assignments reported to
    [onAssign] ends with the same array. *)
Theorem HeapCalls_correct (Hswo : StrictWeakOrder comparer) (call : THeapCall) h (Hheap : is_heap comparer (length h) h) (Hvalid : call_valid call h) :
  ∃ heap', heap_call call h = Ok heap' ∧ is_heap comparer (call_size call h) (Items heap') ∧
    take (call_size call h) (Items heap') ++ call_extracted call h ≡ₚ call_array call h ∧ replay (Assigned heap') (call_array call h) = Items heap' ∧
    (call = HeapExtract → ∃ x, call_extracted call h = [x] ∧ ∀ y, y ∈ h → comparer y x = false).
Proof.
  destruct (heap_call_ok call h Hvalid) as (heap' & E & Hp & Hd & Hmir & Hh). exists heap'. split_and!; [done|by apply Hh|by rewrite <- Hd, take_drop|done|].
  intros ->. simpl in *. destruct (lookup_lt_is_Some_2 h 0) as [x Hx]; [destruct h; [done|simpl; lia]|]. exists x. rewrite Hx. split; [done|]. intros y Hy.
  apply list_elem_of_lookup in Hy as [i Hi]. by apply (front_least (length h) h x i y); [| | | |eapply lookup_lt_Some|].
Qed.
End Operations.
Arguments THeapCall : clear implicits.

#[export] Instance Z_order : StrictWeakOrder Z.ltb.
Proof. split; intros *; rewrite ?Z.ltb_lt, ?Z.ltb_ge; lia. Qed.

Lemma HeapCalls_correct_witness :
  let h := [1; 3; 2; 7; 4] in
  (∃ heap', heap_call Z.ltb HeapExtract h = Ok heap' ∧ is_heap Z.ltb 4 (Items heap') ∧ take 4 (Items heap') ++ [1] ≡ₚ h) ∧ Items <$> (match heap_call Z.ltb HeapExtract h with Ok heap => Some heap | _ => None end) = Some [2; 3; 4; 7; 1].
Proof.
  intros h. split; [|by vm_compute]. assert (is_heap Z.ltb 5 h) as Hheap.
  { intros c Hc _ x y. do 5 (destruct c as [|c]; [try lia; by intros [= <-] [= <-]|]). lia. }
  destruct (HeapCalls_correct Z.ltb Z_order HeapExtract h Hheap ltac:(done)) as (heap' & E & Hh & Hp & _). exists heap'. split_and!; [exact E|exact Hh|exact Hp].
Defined.
