(* ===== verification/SlidingWindow.v ===== *)
(** Reordering of packets by sequence number (misc/sliding_window.h, sliding_window-inl.h): one
    window, and one window for every source. A hash map is a finite map; the order in which
    its entries are visited is a parameter. *)

From stdpp Require Import gmap.
From S2P Require Import Prelude.

Section Window.
Context {TPacket : Type}.

Record TSlidingWindow := { MaxSize_ : Z; NextPacketSequenceNumber_ : Z; Window_ : gmap Z TPacket }.

Definition NewSlidingWindow (maxSize : Z) : TSlidingWindow := {| MaxSize_ := maxSize; NextPacketSequenceNumber_ := 0; Window_ := ∅ |}.

Definition GetNextSequenceNumber (window : TSlidingWindow) : Z := NextPacketSequenceNumber_ window.
Definition IsEmpty (window : TSlidingWindow) : bool := bool_decide (Window_ window = ∅).

(** The packets handed to the callback, in order. *)
Fixpoint deliver_loop (fuel : nat) (next : Z) (packets : gmap Z TPacket) : Result (Z * gmap Z TPacket * list TPacket) :=
  match fuel with
  | O => OutOfFuel
  | S fuel =>
      match packets !! next with
      | None => Ok (next, packets, [])
      | Some packet => '(next, packets, delivered) ← deliver_loop fuel (next + 1) (delete next packets); Ok (next, packets, packet :: delivered)
      end
  end.

(** Every turn of the loop takes a packet out. *)
Definition AddPacket (sequenceNumber : Z) (packet : TPacket) (window : TSlidingWindow) : Result (TSlidingWindow * list TPacket) :=
  if sequenceNumber <? GetNextSequenceNumber window then Throw EPacketTooSmall
  else if bool_decide (is_Some (Window_ window !! sequenceNumber)) then Throw EPacketQueued
  else if Z.of_nat (size (Window_ window)) >=? MaxSize_ window then Throw EWindowOverflow
  else
    let packets := <[sequenceNumber := packet]> (Window_ window) in
    '(next, packets, delivered) ← deliver_loop (S (size packets)) (NextPacketSequenceNumber_ window) packets;
    Ok ({| MaxSize_ := MaxSize_ window; NextPacketSequenceNumber_ := next; Window_ := packets |}, delivered).

Record TMultiSlidingWindowSequenceNumber := { SourceId : Z; Value : Z }.

Record TMultiSlidingWindow := { MultiMaxSize_ : Z; WindowPerSource_ : gmap Z TSlidingWindow }.

Definition NewMultiSlidingWindow (maxSize : Z) : TMultiSlidingWindow := {| MultiMaxSize_ := maxSize; WindowPerSource_ := ∅ |}.

(** The window of a new source stays when its first packet is refused. *)
Definition MultiAddPacket (sequenceNumber : TMultiSlidingWindowSequenceNumber) (packet : TPacket) (multi : TMultiSlidingWindow) : TMultiSlidingWindow * Result (list TPacket) :=
  let window := match WindowPerSource_ multi !! SourceId sequenceNumber with Some window => window | None => NewSlidingWindow (MultiMaxSize_ multi) end in
  let put window := {| MultiMaxSize_ := MultiMaxSize_ multi; WindowPerSource_ := <[SourceId sequenceNumber := window]> (WindowPerSource_ multi) |} in
  match AddPacket (Value sequenceNumber) packet window with
  | Ok (window, delivered) => (put window, Ok delivered)
  | Throw error => (put window, Throw error)
  | Crash => (put window, Crash)
  | OutOfFuel => (put window, OutOfFuel)
  end.

(** [windows] are the entries of [WindowPerSource_], in the order of the hash map. *)
Fixpoint TryGetMissingSequenceNumber (windows : list (Z * TSlidingWindow)) : option TMultiSlidingWindowSequenceNumber :=
  match windows with
  | [] => None
  | (sourceId, window) :: windows =>
      if negb (IsEmpty window) then Some {| SourceId := sourceId; Value := GetNextSequenceNumber window |}
      else TryGetMissingSequenceNumber windows
  end.
End Window.
Arguments TSlidingWindow : clear implicits.
Arguments TMultiSlidingWindow : clear implicits.

(** ** One window *)

Section Delivery.
Context {TPacket : Type}.
Implicit Types (accepted : gmap Z TPacket) (window : TSlidingWindow TPacket).

Lemma deliver_loop_spec fuel next (packets : gmap Z TPacket) : (size packets < fuel)%nat →
  ∃ k packets' delivered, deliver_loop fuel next packets = Ok (next + k, packets', delivered) ∧ 0 <= k ∧ map Some delivered = map (λ i, packets !! i) (seqZ next k) ∧
    packets !! (next + k) = None ∧ ∀ i, packets' !! i = if bool_decide (next <= i < next + k) then None else packets !! i.
Proof.
  revert next packets. induction fuel as [|fuel IH]; intros next packets Hf; [lia|]. simpl. destruct (packets !! next) as [packet|] eqn:E.
  - pose proof (map_size_delete_Some next packets (mk_is_Some _ _ E)) as Hs. assert (size packets ≠ 0%nat) as Hne by (intros H0; apply map_size_empty_inv in H0; by rewrite H0, lookup_empty in E). destruct (IH (next + 1) (delete next packets)) as (k & packets' & delivered & -> & Hk & Hd & Hn & Hp); [lia|]. run_bind.
    exists (k + 1), packets', (packet :: delivered). split_and!; [do 3 f_equal; lia|lia| | |].
    + rewrite seqZ_cons by lia. simpl. rewrite E. f_equal. rewrite Hd. replace (Z.pred (k + 1)) with k by lia. replace (Z.succ next) with (next + 1) by lia. apply map_ext_in. intros i Hi. apply list_elem_of_In, elem_of_seqZ in Hi.
      by rewrite lookup_delete_ne by lia.
    + rewrite <- Hn, lookup_delete_ne by lia. f_equal. lia.
    + intros i. rewrite Hp. destruct (decide (i = next)) as [-> |Hin].
      * rewrite (bool_decide_eq_true_2 (next <= next < next + (k + 1))) by lia. rewrite bool_decide_eq_false_2 by lia. apply lookup_delete_eq.
      * rewrite lookup_delete_ne by done. by rewrite (bool_decide_ext (next + 1 <= i < next + 1 + k) (next <= i < next + (k + 1))) by lia.
  - exists 0, packets, []. rewrite Z.add_0_r. split_and!; [done|lia|done|done|]. intros i. by rewrite bool_decide_eq_false_2 by lia.
Qed.

(** [accepted] are the packets that were not refused; those in front of the first missing one
    have been delivered and the others wait. *)
Record window_inv accepted (delivered : list TPacket) window : Prop := {
  inv_next : 0 <= NextPacketSequenceNumber_ window;
  inv_delivered : map Some delivered = map (λ i, accepted !! i) (seqZ 0 (NextPacketSequenceNumber_ window));
  inv_missing : accepted !! NextPacketSequenceNumber_ window = None;
  inv_waiting : ∀ i, Window_ window !! i = if bool_decide (NextPacketSequenceNumber_ window <= i) then accepted !! i else None;
  inv_negative : ∀ i, i < 0 → accepted !! i = None;
  inv_size : Z.of_nat (size (Window_ window)) <= Z.max 0 (MaxSize_ window)
}.

Lemma new_window_inv maxSize : window_inv ∅ [] (NewSlidingWindow maxSize).
Proof. split; simpl; [lia|done|done| |done|]; [intros i; by case_bool_decide|rewrite map_size_empty; lia]. Qed.

(** Every packet in front of the first missing one has been accepted. *)
Lemma delivered_accepted accepted delivered window i : window_inv accepted delivered window → 0 <= i < NextPacketSequenceNumber_ window → is_Some (accepted !! i).
Proof.
  intros Hinv Hi. pose proof (inv_delivered _ _ _ Hinv) as Hd. apply (f_equal (λ l, l !! Z.to_nat i)) in Hd. rewrite !list_lookup_fmap in Hd. rewrite lookup_seqZ_lt in Hd by lia. simpl in Hd.
  replace (0 + Z.of_nat (Z.to_nat i)) with i in Hd by lia. destruct (delivered !! Z.to_nat i) as [packet|]; [|done]. injection Hd as <-. eauto.
Qed.

Lemma AddPacket_inv accepted delivered window sequenceNumber packet : window_inv accepted delivered window →
  if bool_decide (sequenceNumber < 0 ∨ is_Some (accepted !! sequenceNumber) ∨ MaxSize_ window <= Z.of_nat (size (Window_ window)))
  then ∃ error, AddPacket sequenceNumber packet window = Throw error
  else ∃ window' packets, AddPacket sequenceNumber packet window = Ok (window', packets) ∧ window_inv (<[sequenceNumber := packet]> accepted) (delivered ++ packets) window' ∧ MaxSize_ window' = MaxSize_ window.
Proof.
  intros Hinv. pose proof (inv_next _ _ _ Hinv) as Hnext. pose proof (inv_waiting _ _ _ Hinv) as Hwait. unfold AddPacket, GetNextSequenceNumber. destruct (Z.ltb_spec sequenceNumber (NextPacketSequenceNumber_ window)) as [Hlt|Hge].
  - rewrite bool_decide_eq_true_2; [eauto|]. destruct (Z.lt_ge_cases sequenceNumber 0); [by left|]. right. left. apply (delivered_accepted _ _ _ _ Hinv). lia.
  - rewrite Hwait, (bool_decide_eq_true_2 (NextPacketSequenceNumber_ window <= sequenceNumber)) by done. destruct (bool_decide (is_Some (accepted !! sequenceNumber))) eqn:Hq; [apply bool_decide_eq_true in Hq; rewrite bool_decide_eq_true_2 by auto; eauto|apply bool_decide_eq_false in Hq]. rewrite Z.geb_leb.
    destruct (Z.leb_spec (MaxSize_ window) (Z.of_nat (size (Window_ window)))) as [Hfull|Hfits]; [rewrite bool_decide_eq_true_2 by auto; eauto|]. rewrite bool_decide_eq_false_2 by (intros [?|[?|?]]; [lia|done|lia]).
    apply eq_None_not_Some in Hq. set (packets := <[sequenceNumber := packet]> (Window_ window)).
    destruct (deliver_loop_spec (S (size packets)) (NextPacketSequenceNumber_ window) packets ltac:(lia)) as (k & packets' & more & -> & Hk & Hd & Hn & Hp). run_bind. eexists _, _. split; [done|]. split; [|done].
    assert (∀ i, packets !! i = if bool_decide (NextPacketSequenceNumber_ window <= i) then <[sequenceNumber := packet]> accepted !! i else None) as Hpk.
    { intros i. unfold packets. destruct (decide (i = sequenceNumber)) as [-> |Hne]; [rewrite !lookup_insert_eq; by rewrite bool_decide_eq_true_2|]. rewrite !lookup_insert_ne by done. apply Hwait. }
    split; simpl; [lia| | | | |].
    + rewrite seqZ_app by lia. rewrite !map_app. rewrite Z.add_0_l, Hd, (inv_delivered _ _ _ Hinv). f_equal; apply map_ext_in; intros i Hi; apply list_elem_of_In, elem_of_seqZ in Hi.
      * by rewrite lookup_insert_ne by lia.
      * rewrite Hpk. by rewrite bool_decide_eq_true_2 by lia.
    + rewrite Hpk in Hn. by rewrite bool_decide_eq_true_2 in Hn by lia.
    + intros i. rewrite Hp, Hpk. repeat case_bool_decide; try done; lia.
    + intros i Hi. rewrite lookup_insert_ne by lia. by apply (inv_negative _ _ _ Hinv).
    + assert (packets' ⊆ packets) as Hsub. { apply map_subseteq_spec. intros i x Hx. rewrite Hp in Hx. by case_bool_decide. }
      apply map_subseteq_size in Hsub. unfold packets in Hsub. rewrite map_size_insert_None in Hsub; [lia|]. rewrite Hwait. by rewrite bool_decide_eq_true_2.
Qed.

(** A sequence of packets: one that is refused changes nothing. *)
Fixpoint add_packets (calls : list (Z * TPacket)) window (delivered : list TPacket) accepted : Result (TSlidingWindow TPacket * list TPacket * gmap Z TPacket) :=
  match calls with
  | [] => Ok (window, delivered, accepted)
  | (sequenceNumber, packet) :: calls =>
      match AddPacket sequenceNumber packet window with
      | Ok (window, packets) => add_packets calls window (delivered ++ packets) (<[sequenceNumber := packet]> accepted)
      | Throw _ => add_packets calls window delivered accepted
      | Crash => Crash
      | OutOfFuel => OutOfFuel
      end
  end.

Lemma add_packets_inv calls accepted delivered window : window_inv accepted delivered window →
  ∃ window' delivered' accepted', add_packets calls window delivered accepted = Ok (window', delivered', accepted') ∧ window_inv accepted' delivered' window' ∧ MaxSize_ window' = MaxSize_ window.
Proof.
  revert accepted delivered window. induction calls as [|[sequenceNumber packet] calls IH]; intros accepted delivered window Hinv; simpl; [eauto 10|]. pose proof (AddPacket_inv _ _ _ sequenceNumber packet Hinv) as Hadd. case_bool_decide.
  - destruct Hadd as [error ->]. by apply IH.
  - destruct Hadd as (window' & packets & -> & Hinv' & Hmax). destruct (IH _ _ _ Hinv') as (window'' & delivered'' & accepted'' & E & Hinv'' & Hmax'). exists window'', delivered'', accepted''. split_and!; [done|done|congruence].
Qed.

(** The window delivers every accepted packet exactly once and in order. After any sequence
    of packets, in any order and with repetitions, the callback has got the accepted packets
    with the numbers from 0 up to the first missing one, in this order and nothing else; the
    window is empty when none beyond it is accepted, and never holds more than [MaxSize_]. A
    packet is refused exactly when its number is negative, a packet with its number has been
    accepted, or the window is full; [AddPacket] always returns or throws. *)
Theorem TSlidingWindow_correct (maxSize : Z) (calls : list (Z * TPacket)) :
  ∃ window delivered accepted, add_packets calls (NewSlidingWindow maxSize) [] ∅ = Ok (window, delivered, accepted) ∧
    map Some delivered = map (λ i, accepted !! i) (seqZ 0 (GetNextSequenceNumber window)) ∧ accepted !! GetNextSequenceNumber window = None ∧
    (IsEmpty window = true ↔ ∀ i, GetNextSequenceNumber window <= i → accepted !! i = None) ∧ Z.of_nat (size (Window_ window)) <= Z.max 0 maxSize ∧
    ∀ sequenceNumber packet, if bool_decide (sequenceNumber < 0 ∨ is_Some (accepted !! sequenceNumber) ∨ maxSize <= Z.of_nat (size (Window_ window)))
      then ∃ error, AddPacket sequenceNumber packet window = Throw error else ∃ window' packets, AddPacket sequenceNumber packet window = Ok (window', packets).
Proof.
  destruct (add_packets_inv calls ∅ [] (NewSlidingWindow maxSize) (new_window_inv maxSize)) as (window & delivered & accepted & E & Hinv & Hmax). simpl in Hmax. exists window, delivered, accepted.
  split_and!; [done|apply Hinv|apply Hinv| |rewrite <- Hmax; apply Hinv|].
  - unfold IsEmpty, GetNextSequenceNumber. rewrite bool_decide_eq_true. pose proof (inv_waiting _ _ _ Hinv) as Hw. split.
    + intros He i Hi. specialize (Hw i). by rewrite He, lookup_empty, bool_decide_eq_true_2 in Hw.
    + intros Hall. apply map_eq. intros i. rewrite Hw, lookup_empty. case_bool_decide; [by apply Hall|done].
  - intros sequenceNumber packet. pose proof (AddPacket_inv _ _ _ sequenceNumber packet Hinv) as Hadd. rewrite <- Hmax. case_bool_decide; [done|]. destruct Hadd as (window' & packets & -> & _). eauto.
Qed.

(** A full window takes nothing more, not even the packet that would empty it. *)
Lemma full_window_stuck calls window delivered accepted : MaxSize_ window <= Z.of_nat (size (Window_ window)) → add_packets calls window delivered accepted = Ok (window, delivered, accepted).
Proof.
  intros Hfull. induction calls as [|[sequenceNumber packet] calls IH]; [done|]. simpl. unfold AddPacket. destruct (sequenceNumber <? GetNextSequenceNumber window); [done|]. case_bool_decide; [done|].
  rewrite Z.geb_leb. by destruct (Z.leb_spec (MaxSize_ window) (Z.of_nat (size (Window_ window)))); [|lia].
Qed.

(** ** Windows of sources *)

Implicit Types multi : TMultiSlidingWindow TPacket.

(** The packets that were delivered, with their sources. *)
Fixpoint multi_add_packets (calls : list (TMultiSlidingWindowSequenceNumber * TPacket)) multi : TMultiSlidingWindow TPacket * list (Z * TPacket) :=
  match calls with
  | [] => (multi, [])
  | (sequenceNumber, packet) :: calls =>
      let '(multi, result) := MultiAddPacket sequenceNumber packet multi in
      let delivered := match result with Ok packets => map (λ packet, (SourceId sequenceNumber, packet)) packets | _ => [] end in
      let '(multi, rest) := multi_add_packets calls multi in (multi, delivered ++ rest)
  end.

Definition of_source (source : Z) (calls : list (TMultiSlidingWindowSequenceNumber * TPacket)) : list (Z * TPacket) :=
  omap (λ '(sequenceNumber, packet), if bool_decide (SourceId sequenceNumber = source) then Some (Value sequenceNumber, packet) else None) calls.

Definition to_source (source : Z) (delivered : list (Z * TPacket)) : list TPacket :=
  omap (λ '(s, packet), if bool_decide (s = source) then Some packet else None) delivered.

Definition source_window (source : Z) multi : TSlidingWindow TPacket := default (NewSlidingWindow (MultiMaxSize_ multi)) (WindowPerSource_ multi !! source).

Lemma to_source_cons source s packet delivered : to_source source ((s, packet) :: delivered) = if bool_decide (s = source) then packet :: to_source source delivered else to_source source delivered.
Proof. unfold to_source. simpl. by case_bool_decide. Qed.

Lemma to_source_same source packets : to_source source (map (λ packet, (source, packet)) packets) = packets.
Proof. induction packets as [|packet packets IH]; [done|]. cbn [map]. rewrite to_source_cons, IH. by rewrite bool_decide_eq_true_2. Qed.

Lemma to_source_other source source' packets : source ≠ source' → to_source source (map (λ packet, (source', packet)) packets) = [].
Proof. intros Hne. induction packets as [|packet packets IH]; [done|]. cbn [map]. rewrite to_source_cons, IH. by rewrite bool_decide_eq_false_2. Qed.

Lemma to_source_app source l1 l2 : to_source source (l1 ++ l2) = to_source source l1 ++ to_source source l2.
Proof. apply omap_app. Qed.

(** The other sources do not notice. *)
Lemma MultiAddPacket_other sequenceNumber packet multi source : SourceId sequenceNumber ≠ source → source_window source (fst (MultiAddPacket sequenceNumber packet multi)) = source_window source multi.
Proof.
  intros Hne. unfold MultiAddPacket, source_window. destruct (WindowPerSource_ multi !! SourceId sequenceNumber) as [w|]; destruct (AddPacket _ _ _) as [[w' packets]| | |]; simpl; by rewrite lookup_insert_ne.
Qed.

Lemma MultiAddPacket_same sequenceNumber packet multi :
  MultiAddPacket sequenceNumber packet multi = 
    (let window := source_window (SourceId sequenceNumber) multi in
     let put window := {| MultiMaxSize_ := MultiMaxSize_ multi; WindowPerSource_ := <[SourceId sequenceNumber := window]> (WindowPerSource_ multi) |} in
     match AddPacket (Value sequenceNumber) packet window with
     | Ok (window, delivered) => (put window, Ok delivered) | Throw error => (put window, Throw error) | Crash => (put window, Crash) | OutOfFuel => (put window, OutOfFuel)
     end).
Proof. unfold MultiAddPacket, source_window. by destruct (WindowPerSource_ multi !! SourceId sequenceNumber). Qed.

Lemma MultiAddPacket_max sequenceNumber packet multi : MultiMaxSize_ (fst (MultiAddPacket sequenceNumber packet multi)) = MultiMaxSize_ multi.
Proof. rewrite MultiAddPacket_same. cbn zeta. by destruct (AddPacket _ _ _) as [[w' packets]| | |]. Qed.

Lemma multi_add_packets_source calls multi source delivered accepted : window_inv accepted delivered (source_window source multi) → ∃ accepted',
  add_packets (of_source source calls) (source_window source multi) delivered accepted =
    Ok (source_window source (fst (multi_add_packets calls multi)), delivered ++ to_source source (snd (multi_add_packets calls multi)), accepted').
Proof.
  revert multi delivered accepted. induction calls as [|[sequenceNumber packet] calls IH]; intros multi delivered accepted Hinv; [exists accepted; simpl; by rewrite app_nil_r|]. cbn [multi_add_packets].
  destruct (decide (SourceId sequenceNumber = source)) as [Hs|Hne].
  - unfold of_source. cbn [omap list_omap]. rewrite bool_decide_eq_true_2 by done. fold (of_source source calls). cbn [add_packets]. rewrite MultiAddPacket_same, Hs. cbn zeta.
    pose proof (AddPacket_inv _ _ _ (Value sequenceNumber) packet Hinv) as Hadd. case_bool_decide.
    + destruct Hadd as [error E]. rewrite E. set (multi' := {| MultiMaxSize_ := _; WindowPerSource_ := _ |}). assert (source_window source multi' = source_window source multi) as Ew by (unfold source_window at 1, multi'; simpl; by rewrite lookup_insert_eq).
      destruct (IH multi' delivered accepted) as [accepted' Er]; [by rewrite Ew|]. rewrite Ew in Er. exists accepted'. rewrite Er. by destruct (multi_add_packets calls multi').
    + destruct Hadd as (window' & packets & E & Hinv' & Hmax). rewrite E. set (multi' := {| MultiMaxSize_ := _; WindowPerSource_ := _ |}). assert (source_window source multi' = window') as Ew by (unfold source_window, multi'; simpl; by rewrite lookup_insert_eq).
      destruct (IH multi' (delivered ++ packets) (<[Value sequenceNumber := packet]> accepted)) as [accepted' Er]; [by rewrite Ew|]. rewrite Ew in Er. exists accepted'. rewrite Er. destruct (multi_add_packets calls multi') as [multi'' rest]. cbn [fst snd].
      by rewrite to_source_app, to_source_same, app_assoc.
  - unfold of_source. cbn [omap list_omap]. rewrite bool_decide_eq_false_2 by done. fold (of_source source calls). pose proof (MultiAddPacket_other sequenceNumber packet multi source Hne) as Ew.
    destruct (MultiAddPacket sequenceNumber packet multi) as [multi' result]. cbn [fst] in Ew. destruct (IH multi' delivered accepted) as [accepted' Er]; [by rewrite Ew|]. rewrite Ew in Er. exists accepted'. rewrite Er.
    destruct (multi_add_packets calls multi') as [multi'' rest]. cbn [fst snd]. rewrite to_source_app. destruct result as [packets| | |]; [by rewrite to_source_other by done|done..].
Qed.

Lemma multi_add_packets_max calls multi : MultiMaxSize_ (fst (multi_add_packets calls multi)) = MultiMaxSize_ multi.
Proof.
  revert multi. induction calls as [|[sequenceNumber packet] calls IH]; intros multi; [done|]. cbn [multi_add_packets]. pose proof (MultiAddPacket_max sequenceNumber packet multi) as E.
  destruct (MultiAddPacket sequenceNumber packet multi) as [multi' result]. specialize (IH multi'). destruct (multi_add_packets calls multi') as [multi'' rest]. simpl in *. by rewrite IH.
Qed.

Lemma TryGetMissing_spec windows : match TryGetMissingSequenceNumber (TPacket := TPacket) windows with
  | None => ∀ source window, (source, window) ∈ windows → IsEmpty window = true
  | Some missing => ∃ window, (SourceId missing, window) ∈ windows ∧ IsEmpty window = false ∧ Value missing = GetNextSequenceNumber window
  end.
Proof.
  induction windows as [|[source window] windows IH]; simpl; [by intros ? ? ?%not_elem_of_nil|]. destruct (IsEmpty window) eqn:E; simpl.
  - destruct (TryGetMissingSequenceNumber windows) as [missing|].
    + destruct IH as (w & Hw & He & Hv). exists w. split_and!; [by right|done|done].
    + intros source' window' [[= -> ->]|Hin]%elem_of_cons; [done|by apply IH in Hin].
  - exists window. split_and!; [by left|done|done].
Qed.

(** The sources are independent: for every source, the window and what the callback got are
    those of a window of its own that is given the packets of this source alone, whatever the
    interleaving. [TryGetMissingSequenceNumber] returns, in any order of the hash map, nothing
    when every window is empty and otherwise the first missing number of a source that has
    packets waiting. *)
Theorem TMultiSlidingWindow_correct (maxSize : Z) (calls : list (TMultiSlidingWindowSequenceNumber * TPacket)) :
  let '(multi, delivered) := multi_add_packets calls (NewMultiSlidingWindow maxSize) in
  (∀ source, ∃ accepted, add_packets (of_source source calls) (NewSlidingWindow maxSize) [] ∅ = Ok (source_window source multi, to_source source delivered, accepted)) ∧
  ∀ windows, windows ≡ₚ map_to_list (WindowPerSource_ multi) →
    match TryGetMissingSequenceNumber windows with
    | None => ∀ source, IsEmpty (source_window source multi) = true
    | Some missing => IsEmpty (source_window (SourceId missing) multi) = false ∧ Value missing = GetNextSequenceNumber (source_window (SourceId missing) multi)
    end.
Proof.
  destruct (multi_add_packets calls (NewMultiSlidingWindow maxSize)) as [multi delivered] eqn:Em. split.
  - intros source. destruct (multi_add_packets_source calls (NewMultiSlidingWindow maxSize) source [] ∅ (new_window_inv maxSize)) as [accepted E]. rewrite Em in E. by exists accepted.
  - intros windows Hp. pose proof (TryGetMissing_spec windows) as Ht. assert (∀ source window, (source, window) ∈ windows ↔ WindowPerSource_ multi !! source = Some window) as Hin by (intros source window; by rewrite Hp, elem_of_map_to_list).
    destruct (TryGetMissingSequenceNumber windows) as [missing|].
    + destruct Ht as (window & Hw & He & Hv). apply Hin in Hw. unfold source_window. by rewrite Hw.
    + intros source. unfold source_window. destruct (WindowPerSource_ multi !! source) as [window|] eqn:E; [by apply (Ht source), Hin|done].
Qed.
End Delivery.

(** The window of size 2 with the packets 1 and 2 refuses packet 0 for ever; and a packet far
    beyond the window is not refused when there is room. *)
Lemma full_window_refuses_first (calls : list (Z * nat)) : ∃ window, add_packets ((1, 1%nat) :: (2, 2%nat) :: calls) (NewSlidingWindow 2) [] ∅ = Ok (window, [], {[ 1 := 1%nat; 2 := 2%nat ]}) ∧
  GetNextSequenceNumber window = 0 ∧ AddPacket 0 0%nat window = Throw EWindowOverflow.
Proof.
  set (window := {| MaxSize_ := 2; NextPacketSequenceNumber_ := 0; Window_ := {[ 1 := 1%nat; 2 := 2%nat ]} |}). exists window. split; [|by vm_compute].
  change ((1, 1%nat) :: (2, 2%nat) :: calls) with ([(1, 1%nat); (2, 2%nat)] ++ calls).
  assert (add_packets ([(1, 1%nat); (2, 2%nat)] ++ calls) (NewSlidingWindow 2) [] ∅ = add_packets calls window [] {[ 1 := 1%nat; 2 := 2%nat ]}) as -> by (cbn [app add_packets]; reflexivity).
  apply full_window_stuck. by vm_compute.
Qed.

Lemma far_packet_accepted : ∃ window, AddPacket 1000 7%nat (NewSlidingWindow 2) = Ok (window, []).
Proof. by eexists. Qed.
