(* ===== verification/TopologicalOrdering.v ===== *)
(** Topological ordering of a growing graph (misc/topological_ordering.h,
    topological_ordering-inl.h). Hash maps and hash sets are finite maps and sets; the orders in
    which their elements are visited are parameters. *)

From stdpp Require Import gmap.
From S2P Require Import Prelude.

#[local] Set Warnings "-clear-no-such-hyp".

(** Any order in which a hash container visits its elements, each of them once. *)
Class HashOrder (V : Type) `{Countable V} := {
  edges_order : gmap V (gset V) → list (V * gset V);
  degrees_order : gmap V Z → list (V * Z);
  set_order : gset V → list V
}.
Class HashOrderLaws (V : Type) `{HashOrder V} := {
  edges_order_perm edges : edges_order edges ≡ₚ map_to_list edges;
  degrees_order_perm degrees : degrees_order degrees ≡ₚ map_to_list degrees;
  set_order_perm vertices : set_order vertices ≡ₚ elements vertices
}.

Section Ordering.
Context {V : Type} `{Countable V, !HashOrder V}.

Record TIncrementalTopologicalOrdering := { TopologicalOrdering_ : list V; OutgoingEdges_ : gmap V (gset V) }.

Definition NewOrdering : TIncrementalTopologicalOrdering := {| TopologicalOrdering_ := []; OutgoingEdges_ := ∅ |}.

Definition GetOrdering (ordering : TIncrementalTopologicalOrdering) : list V := TopologicalOrdering_ ordering.

(** [map[key]], which makes an entry appear. *)
Definition degree_of (inDegree : gmap V Z) (vertex : V) : Z := default 0 (inDegree !! vertex).

Definition count_edges (inDegree : gmap V Z) (entry : V * gset V) : gmap V Z :=
  let '(srcVertex, dstVertices) := entry in
  let inDegree := <[srcVertex := degree_of inDegree srcVertex]> inDegree in
  foldl (λ inDegree dstVertex, <[dstVertex := degree_of inDegree dstVertex + 1]> inDegree) inDegree (set_order dstVertices).

Definition in_degrees (edges : gmap V (gset V)) : gmap V Z := foldl count_edges ∅ (edges_order edges).

Definition sources (inDegree : gmap V Z) : list V := omap (λ '(vertex, degree), if degree =? 0 then Some vertex else None) (degrees_order inDegree).

(** The edges that leave a vertex are removed. *)
Fixpoint relax_loop (nexts queue : list V) (inDegree : gmap V Z) : list V * gmap V Z :=
  match nexts with
  | [] => (queue, inDegree)
  | nextVertex :: nexts =>
      let degree := degree_of inDegree nextVertex - 1 in
      relax_loop nexts (if degree =? 0 then queue ++ [nextVertex] else queue) (<[nextVertex := degree]> inDegree)
  end.

Fixpoint order_loop (fuel : nat) (queue : list V) (inDegree : gmap V Z) (ordering : list V) (edges : gmap V (gset V)) : Result (gmap V Z * list V * gmap V (gset V)) :=
  match fuel with
  | O => OutOfFuel
  | S fuel =>
      match queue with
      | [] => Ok (inDegree, ordering, edges)
      | vertex :: queue =>
          _ ← Verify (bool_decide (inDegree !! vertex = Some 0));
          let inDegree := delete vertex inDegree in
          let ordering := ordering ++ [vertex] in
          let nexts := default ∅ (edges !! vertex) in
          let edges := <[vertex := nexts]> edges in
          let '(queue, inDegree) := relax_loop (set_order nexts) queue inDegree in
          order_loop fuel queue inDegree ordering edges
      end
  end.

(** Every turn takes a vertex out of [inDegree]. *)
Definition Rebuild (edges : gmap V (gset V)) : Result TIncrementalTopologicalOrdering :=
  let inDegree := in_degrees edges in
  let queue := sources inDegree in
  '(inDegree, ordering, edges) ← order_loop (S (size inDegree)) queue inDegree [] edges;
  _ ← Verify (bool_decide (inDegree = ∅));
  Ok {| TopologicalOrdering_ := ordering; OutgoingEdges_ := edges |}.

Definition AddEdge (from to : V) (ordering : TIncrementalTopologicalOrdering) : Result TIncrementalTopologicalOrdering :=
  let targets := default ∅ (OutgoingEdges_ ordering !! from) in
  if bool_decide (to ∈ targets) then Ok ordering else Rebuild (<[from := {[to]} ∪ targets]> (OutgoingEdges_ ordering)).

Definition AddVertex (from : V) (ordering : TIncrementalTopologicalOrdering) : Result TIncrementalTopologicalOrdering :=
  match OutgoingEdges_ ordering !! from with
  | Some _ => Ok ordering
  | None => Rebuild (<[from := ∅]> (OutgoingEdges_ ordering))
  end.
End Ordering.
Arguments TIncrementalTopologicalOrdering V {_ _}.

(** ** Graphs *)

Section Graph.
Context {V : Type} `{Countable V}.
Implicit Types (edges : gmap V (gset V)) (S : gset V).

Definition out edges (u : V) : gset V := default ∅ (edges !! u).
Definition is_edge edges (u v : V) : Prop := v ∈ out edges u.
Definition is_vertex edges (v : V) : Prop := v ∈ dom edges ∨ ∃ u, is_edge edges u v.

(** The predecessors of a vertex in a set. *)
Definition count edges S (v : V) : Z := Z.of_nat (size (filter (λ u, v ∈ out edges u) S)).

Lemma count_add edges S u v : u ∉ S → count edges ({[u]} ∪ S) v = count edges S v + (if bool_decide (v ∈ out edges u) then 1 else 0).
Proof.
  intros Hu. unfold count. case_bool_decide as Hv.
  - assert (filter (λ w, v ∈ out edges w) ({[u]} ∪ S) = {[u]} ∪ filter (λ w, v ∈ out edges w) S) as -> by set_solver. rewrite size_union by set_solver. rewrite size_singleton. lia.
  - assert (filter (λ w, v ∈ out edges w) ({[u]} ∪ S) = filter (λ w, v ∈ out edges w) S) as -> by set_solver. lia.
Qed.

Lemma count_zero edges S v : count edges S v = 0 ↔ ∀ u, u ∈ S → v ∉ out edges u.
Proof.
  unfold count. split.
  - intros Hc u Hu Hv. assert (size (filter (λ w, v ∈ out edges w) S) = 0%nat) as E by lia. apply size_empty_inv in E. set_solver.
  - intros Hall. assert (filter (λ w, v ∈ out edges w) S = ∅) as -> by set_solver. by rewrite size_empty.
Qed.

Lemma count_positive edges S v : count edges S v ≠ 0 → ∃ u, u ∈ S ∧ v ∈ out edges u.
Proof.
  unfold count. intros Hc. assert (filter (λ w, v ∈ out edges w) S ≢ ∅) as Hne by (intros E; rewrite E, size_empty in Hc; lia). apply set_choose in Hne as [u Hu]. exists u. set_solver.
Qed.

(** A list repeats an element or does not. *)
Lemma repeats (l : list V) : NoDup l ∨ ∃ i j x, (i < j)%nat ∧ l !! i = Some x ∧ l !! j = Some x.
Proof.
  induction l as [|y l IH]; [left; constructor|]. destruct IH as [Hnd|(i & j & x & Hij & Hi & Hj)]; [|right; exists (S i), (S j), x; split_and!; [lia|done|done]].
  destruct (decide (y ∈ l)) as [Hin|Hnin]; [|left; by constructor]. right. apply list_elem_of_lookup in Hin as [j Hj]. exists 0%nat, (S j), y. split_and!; [lia|done|done].
Qed.

(** In a finite set in which everything has a predecessor there is a cycle. *)
Lemma finite_cycle (R : V → V → Prop) S v0 : v0 ∈ S → (∀ v, v ∈ S → ∃ u, u ∈ S ∧ R u v) → ∃ v, tc R v v.
Proof.
  intros Hv0 Hpred. assert (∀ n, ∃ l : list V, length l = n ∧ (∀ x, x ∈ l → x ∈ S) ∧ ∀ i j x y, (i < j)%nat → l !! i = Some x → l !! j = Some y → tc R y x) as Hwalk.
  { assert (∀ n, ∃ (l : list V) last, length l = n ∧ last ∈ S ∧ (∀ x, x ∈ l → x ∈ S) ∧ (∀ x, x ∈ l → tc R last x) ∧ ∀ i j x y, (i < j)%nat → l !! i = Some x → l !! j = Some y → tc R y x) as Hw.
    { intros n. induction n as [|n (l & last & Hlen & Hlast & Hin & Hbefore & Htc)]; [exists [], v0; split_and!; [done|done|by intros ? ?%not_elem_of_nil..|done]|].
      destruct (Hpred last Hlast) as (u & Hu & Hr). exists (l ++ [last]), u. split_and!; [rewrite length_app; simpl; lia|done|set_solver| |].
      - intros x [Hx|Hx]%elem_of_app; [by apply (tc_l _ _ last); [|apply Hbefore]|]. apply list_elem_of_singleton in Hx as ->. by constructor.
      - intros i j x y Hij Hi Hj. apply lookup_app_Some in Hj as [Hj|[Hlj Hj]].
        + pose proof (lookup_lt_Some _ _ _ Hj). rewrite lookup_app_l in Hi by lia. by apply (Htc i j).
        + destruct (j - length l)%nat as [|k] eqn:Ej; [|done]. injection Hj as <-. rewrite lookup_app_l in Hi by lia. by apply Hbefore; eapply list_elem_of_lookup_2. }
    intros n. destruct (Hw n) as (l & _ & Hlen & _ & Hin & _ & Htc). eauto. }
  destruct (Hwalk (Datatypes.S (size S))) as (l & Hlen & Hin & Htc). destruct (repeats l) as [Hnd|(i & j & x & Hij & Hi & Hj)]; [|exists x; by apply (Htc i j)].
  exfalso. assert (size (list_to_set l : gset V) <= size S)%nat by (apply subseteq_size; intros x Hx; apply Hin; set_solver). rewrite size_list_to_set in * by done. lia.
Qed.
End Graph.

(** ** Degrees *)

Section Degrees.
Context {V : Type} `{Countable V, !HashOrder V, !HashOrderLaws V}.
Implicit Types (edges : gmap V (gset V)) (D : gmap V Z).

Lemma elem_of_set_order (s : gset V) v : v ∈ set_order s ↔ v ∈ s.
Proof. by rewrite set_order_perm, elem_of_elements. Qed.

Lemma NoDup_set_order (s : gset V) : NoDup (set_order s).
Proof. rewrite set_order_perm. apply NoDup_elements. Qed.

Lemma out_dom edges u v : v ∈ out edges u → u ∈ dom edges.
Proof. unfold out. intros Hv. destruct (edges !! u) as [s|] eqn:E; [by apply elem_of_dom_2 in E|by apply not_elem_of_empty in Hv]. Qed.

Lemma increments (l : list V) D v : NoDup l →
  foldl (λ D u, <[u := degree_of D u + 1]> D) D l !! v = if bool_decide (v ∈ l) then Some (degree_of D v + 1) else D !! v.
Proof.
  revert D. induction l as [|x l IH]; intros D Hnd; [by rewrite bool_decide_eq_false_2 by apply not_elem_of_nil|]. apply list.NoDup_cons in Hnd as [Hx Hnd]. simpl. rewrite IH by done. destruct (decide (v = x)) as [-> |Hne].
  - rewrite bool_decide_eq_false_2 by done. rewrite bool_decide_eq_true_2 by (by left). by rewrite lookup_insert_eq.
  - rewrite lookup_insert_ne by done. rewrite (bool_decide_ext (v ∈ x :: l) (v ∈ l)) by set_solver. unfold degree_of. by rewrite lookup_insert_ne.
Qed.

(** The degrees when the edges of [s] have been counted. *)
Definition counted edges (s : gset V) D : Prop := ∀ v d, D !! v = Some d ↔ (v ∈ s ∨ ∃ u, u ∈ s ∧ v ∈ out edges u) ∧ d = count edges s v.

Lemma counted_degree edges s D v : counted edges s D → degree_of D v = count edges s v.
Proof.
  intros HD. unfold degree_of. destruct (D !! v) as [d|] eqn:E; [by apply HD in E as [_ ->]|]. simpl. symmetry. apply count_zero. intros u Hu Hv.
  assert (D !! v = Some (count edges s v)) as E' by (apply HD; split; [right; eauto|done]). by rewrite E in E'.
Qed.

Lemma counted_step edges s D u : counted edges s D → u ∉ s → counted edges ({[u]} ∪ s) (count_edges D (u, out edges u)).
Proof.
  intros HD Hu v d. simpl. rewrite increments by apply NoDup_set_order. rewrite (bool_decide_ext _ _ (elem_of_set_order (out edges u) v)). rewrite count_add by done.
  assert (∀ w, degree_of (<[u := degree_of D u]> D) w = count edges s w) as Hdeg.
  { intros w. rewrite <- (counted_degree edges s D) by done. unfold degree_of at 1. destruct (decide (w = u)) as [-> |Hne]; [by rewrite lookup_insert_eq|by rewrite lookup_insert_ne]. }
  rewrite Hdeg. case_bool_decide as Hv; [split; [intros [= <-]; split; [set_solver|done]|intros [_ ->]; done]|]. rewrite Z.add_0_r. destruct (decide (v = u)) as [-> |Hne].
  - rewrite lookup_insert_eq, (counted_degree edges s D) by done. split; [intros [= <-]; split; [set_solver|done]|by intros [_ ->]].
  - rewrite lookup_insert_ne by done. rewrite (HD v d). set_solver.
Qed.

Lemma counted_fold edges (l : list (V * gset V)) s D : counted edges s D → NoDup (map fst l) → (∀ u targets, ((u, targets) ∈ l) → (u ∉ s) ∧ targets = out edges u) →
  counted edges (list_to_set (map fst l) ∪ s) (foldl count_edges D l).
Proof.
  revert s D. induction l as [|[u targets] l IH]; intros s D HD Hnd Hl; [simpl; by rewrite union_empty_l_L|]. cbn [map foldl list_to_set fst] in *. apply list.NoDup_cons in Hnd as [Hu Hnd].
  destruct (Hl u targets ltac:(by left)) as [Hus ->]. replace ({[u]} ∪ list_to_set (map fst l) ∪ s) with (list_to_set (map fst l) ∪ ({[u]} ∪ s)) by set_solver. apply IH; [by apply counted_step|done|].
  intros w targets Hw. destruct (Hl w targets ltac:(by right)) as [Hws ->]. split; [|done]. assert (w ∈ map fst l) by (apply list_elem_of_fmap; by exists (w, out edges w)). set_solver.
Qed.

Lemma in_degrees_spec edges v d : in_degrees edges !! v = Some d ↔ is_vertex edges v ∧ d = count edges (dom edges) v.
Proof.
  unfold in_degrees. assert (counted edges (list_to_set (map fst (edges_order edges)) ∪ ∅) (foldl count_edges ∅ (edges_order edges))) as Hc.
  { apply counted_fold.
    - intros w e. rewrite lookup_empty. split; [done|]. intros [[Hw|(u & Hu & _)] _]; set_solver.
    - rewrite (Permutation_map fst (edges_order_perm edges)). apply NoDup_fst_map_to_list.
    - intros u targets Hu. rewrite edges_order_perm in Hu. apply elem_of_map_to_list in Hu. split; [set_solver|]. unfold out. by rewrite Hu. }
  rewrite union_empty_r_L in Hc. assert (list_to_set (map fst (edges_order edges)) = dom edges) as Ed.
  { apply set_eq. intros u. rewrite elem_of_list_to_set, (Permutation_map fst (edges_order_perm edges)), elem_of_dom. split.
    - intros Hu. apply list_elem_of_fmap in Hu as ([w targets] & -> & Hw). apply elem_of_map_to_list in Hw. by eexists.
    - intros [targets Hu]. apply list_elem_of_fmap. exists (u, targets). split; [done|]. by apply elem_of_map_to_list. }
  rewrite Ed in Hc. rewrite (Hc v d). unfold is_vertex, is_edge. split; [|].
  - intros [[Hv|(u & _ & Hv)] ->]; eauto.
  - intros [[Hv|(u & Hv)] ->]; [eauto|]. split; [|done]. right. exists u. split; [by eapply out_dom|done].
Qed.

Lemma elem_of_sources D v : v ∈ sources D ↔ D !! v = Some 0.
Proof.
  unfold sources. rewrite list_elem_of_omap. split.
  - intros ([w d] & Hw & E). rewrite degrees_order_perm in Hw. apply elem_of_map_to_list in Hw. destruct (Z.eqb_spec d 0) as [-> |]; [|done]. by injection E as <-.
  - intros Hv. exists (v, 0). split; [|done]. rewrite degrees_order_perm. by apply elem_of_map_to_list.
Qed.

Lemma NoDup_sources D : NoDup (sources D).
Proof.
  unfold sources. assert (NoDup (map fst (degrees_order D))) as Hnd by (rewrite (Permutation_map fst (degrees_order_perm D)); apply NoDup_fst_map_to_list). revert Hnd. generalize (degrees_order D) as l.
  induction l as [|[w d] l IH]; intros Hnd; [constructor|]. cbn [map fst] in Hnd. apply list.NoDup_cons in Hnd as [Hw Hnd]. simpl. destruct (d =? 0); [|by apply IH]. constructor; [|by apply IH].
  rewrite list_elem_of_omap. intros ([w' d'] & Hw' & E). destruct (d' =? 0); [|done]. injection E as <-. apply Hw. apply list_elem_of_fmap. by exists (w', d').
Qed.

Lemma filter_agree (P Q : V → Prop) `{!∀ x, Decision (P x), !∀ x, Decision (Q x)} (l : list V) : (∀ x, x ∈ l → P x ↔ Q x) → filter P l = filter Q l.
Proof.
  induction l as [|x l IH]; intros Hl; [done|]. rewrite !filter_cons, IH by (intros y Hy; apply Hl; by right). specialize (Hl x ltac:(by left)). by destruct (decide (P x)), (decide (Q x)); [|exfalso; tauto..|].
Qed.

Lemma relax_loop_spec (nexts queue : list V) D : NoDup nexts → (∀ v, v ∈ nexts → is_Some (D !! v)) →
  ∃ D', relax_loop nexts queue D = (queue ++ filter (λ v, D !! v = Some 1) nexts, D') ∧ ∀ v, D' !! v = if bool_decide (v ∈ nexts) then (λ d, d - 1) <$> D !! v else D !! v.
Proof.
  revert queue D. induction nexts as [|x nexts IH]; intros queue D Hnd Hin; [exists D; split; [simpl; by rewrite app_nil_r|]; intros v; by rewrite bool_decide_eq_false_2 by apply not_elem_of_nil|].
  apply list.NoDup_cons in Hnd as [Hx Hnd]. destruct (Hin x ltac:(by left)) as [d Hd]. cbn [relax_loop]. unfold degree_of. rewrite Hd. simpl default.
  destruct (IH (if d - 1 =? 0 then queue ++ [x] else queue) (<[x := d - 1]> D) Hnd) as (D' & E & HD').
  { intros v Hv. rewrite lookup_insert_ne by (by intros ->). apply Hin. by right. }
  exists D'. split.
  - rewrite E. f_equal. rewrite filter_cons. assert (filter (λ v, <[x := d - 1]> D !! v = Some 1) nexts = filter (λ v, D !! v = Some 1) nexts) as ->.
    { apply filter_agree. intros v Hv. by rewrite lookup_insert_ne by (by intros ->). }
    destruct (Z.eqb_spec (d - 1) 0) as [E0|E0].
    + rewrite decide_True by (rewrite Hd; f_equal; lia). by rewrite <- app_assoc.
    + rewrite decide_False; [done|]. rewrite Hd. intros [= ->]. lia.
  - intros v. rewrite HD'. destruct (decide (v = x)) as [-> |Hne].
    + rewrite bool_decide_eq_false_2 by done. rewrite bool_decide_eq_true_2 by (by left). by rewrite lookup_insert_eq, Hd.
    + rewrite lookup_insert_ne by done. by rewrite (bool_decide_ext (v ∈ x :: nexts) (v ∈ nexts)) by set_solver.
Qed.
End Degrees.

(** ** The ordering *)

Section Kahn.
Context {V : Type} `{Countable V, !HashOrder V, !HashOrderLaws V}.
Implicit Types (edges : gmap V (gset V)) (D : gmap V Z) (O queue : list V).

(** Whatever an edge comes from is in front. *)
Definition topological (R : V → V → Prop) O : Prop := ∀ i u v, R u v → O !! i = Some v → ∃ j, (j < i)%nat ∧ O !! j = Some u.

Lemma topological_acyclic R O v : topological R O → v ∈ O → ¬ tc R v v.
Proof.
  intros Ht Hv Hc. assert (∀ x y, tc R x y → ∀ i, O !! i = Some y → ∃ j, (j < i)%nat ∧ O !! j = Some x) as Hback.
  { intros x y Hxy. induction Hxy as [x y Hr|x y z Hr Hyz IH]; intros i Hi; [by apply (Ht i x y)|]. destruct (IH i Hi) as (j & Hj & Hy). destruct (Ht j x y Hr Hy) as (k & Hk & Hx). exists k. split; [lia|done]. }
  apply list_elem_of_lookup in Hv as [i Hi]. revert Hi. induction i as [i IH] using lt_wf_ind. intros Hi. destruct (Hback v v Hc i Hi) as (j & Hj & Hv). by apply (IH j).
Qed.

Lemma tc_more (R R' : V → V → Prop) x y : (∀ a b, R a b → R' a b) → tc R x y → tc R' x y.
Proof. intros Hsub Hc. induction Hc as [x y Hr|x y z Hr _ IH]; [by constructor; apply Hsub|]. apply (tc_l _ _ y); [by apply Hsub|done]. Qed.

Lemma tc_last (R : V → V → Prop) x y : tc R x y → ∃ u, R u y.
Proof. intros Hc. induction Hc as [x y Hr|x y z Hr _ IH]; [by exists x|done]. Qed.

Lemma count_pop edges O x v : x ∉ O → count edges (dom edges ∖ list_to_set O) v = count edges (dom edges ∖ list_to_set (O ++ [x])) v + (if bool_decide (v ∈ out edges x) then 1 else 0).
Proof.
  intros Hx. destruct (decide (x ∈ dom edges)) as [Hd|Hd].
  - rewrite <- count_add by set_solver. f_equal. apply set_eq. intros w. destruct (decide (w = x)) as [-> |]; set_solver.
  - rewrite bool_decide_eq_false_2 by (intros Hv; apply out_dom in Hv; done). rewrite Z.add_0_r. f_equal. set_solver.
Qed.

(** The state of the loop: [O] is out, the degrees count the edges between the others. *)
Record kahn edges queue D O (edges' : gmap V (gset V)) : Prop := {
  k_nodup : NoDup O;
  k_dom v : is_Some (D !! v) ↔ is_vertex edges v ∧ (v ∉ O);
  k_vertex v : v ∈ O → is_vertex edges v;
  k_count v d : D !! v = Some d → d = count edges (dom edges ∖ list_to_set O) v;
  k_queue_nodup : NoDup queue;
  k_queue v : v ∈ queue ↔ D !! v = Some 0;
  k_topological : topological (is_edge edges) O;
  k_out u : out edges' u = out edges u;
  k_dom_old u : u ∈ dom edges → u ∈ dom edges';
  k_dom_new u : u ∈ dom edges' → is_vertex edges u
}.

Lemma kahn_start edges : kahn edges (sources (in_degrees edges)) (in_degrees edges) [] edges.
Proof.
  split; [constructor| |by intros v ?%not_elem_of_nil| |apply NoDup_sources|apply elem_of_sources|done|done|done|by left].
  - intros v. split; [intros [d Hd]; apply in_degrees_spec in Hd as [Hd _]; split; [done|apply not_elem_of_nil]|]. intros [Hv _]. eexists. apply in_degrees_spec. split; [done|reflexivity].
  - intros v d Hd. apply in_degrees_spec in Hd as [_ ->]. f_equal. set_solver.
Qed.

Section Step.
Context (edges : gmap V (gset V)) (x : V) (queue : list V) (D : gmap V Z) (O : list V) (edges' : gmap V (gset V)) (Hk : kahn edges (x :: queue) D O edges').

Lemma front_degree : D !! x = Some 0.
Proof. apply (k_queue _ _ _ _ _ Hk). by left. Qed.

Lemma front_vertex : is_vertex edges x ∧ x ∉ O.
Proof. apply (k_dom _ _ _ _ _ Hk). rewrite front_degree. eauto. Qed.

Lemma front_preds u : is_edge edges u x → u ∈ O.
Proof.
  intros Hu. pose proof (k_count _ _ _ _ _ Hk x 0 front_degree) as Hc. symmetry in Hc. pose proof (proj1 (count_zero _ _ _) Hc u) as Hz. pose proof (out_dom _ _ _ Hu) as Hd.
  destruct (decide (u ∈ O)) as [|Hn]; [done|]. exfalso. apply Hz; [set_solver|done].
Qed.

(** The successors of the front are waiting and have a degree. *)
Lemma front_next v : v ∈ out edges x → v ≠ x ∧ (v ∉ O) ∧ ∃ d, D !! v = Some d ∧ d ≠ 0.
Proof.
  intros Hv. destruct front_vertex as [_ Hx]. assert (v ∉ O) as HvO. { intros HO. apply list_elem_of_lookup in HO as [i Hi]. destruct (k_topological _ _ _ _ _ Hk i x v Hv Hi) as (j & _ & Hj). apply Hx. by eapply list_elem_of_lookup_2. }
  split_and!; [intros ->; by apply Hx, front_preds|done|]. destruct (proj2 (k_dom _ _ _ _ _ Hk v)) as [d Hd]; [split; [right; by exists x|done]|]. exists d. split; [done|]. intros ->.
  pose proof (k_count _ _ _ _ _ Hk v 0 Hd) as Hc. symmetry in Hc. apply (proj1 (count_zero _ _ _) Hc x); [|done]. pose proof (out_dom _ _ _ Hv). set_solver.
Qed.

Lemma kahn_topological : topological (is_edge edges) (O ++ [x]).
Proof.
  intros i u v Huv Hi. apply lookup_app_Some in Hi as [Hi|[Hlen Hi]].
  - destruct (k_topological _ _ _ _ _ Hk i u v Huv Hi) as (j & Hj & Hu). exists j. split; [done|]. by apply lookup_app_l_Some.
  - destruct (i - length O)%nat as [|n] eqn:En; [|done]. injection Hi as <-. apply front_preds, list_elem_of_lookup in Huv as [j Hj]. exists j. pose proof (lookup_lt_Some _ _ _ Hj). split; [lia|by apply lookup_app_l_Some].
Qed.

Lemma kahn_step D' : (∀ v, D' !! v = if bool_decide (v ∈ set_order (out edges x)) then (λ d, d - 1) <$> delete x D !! v else delete x D !! v) →
  kahn edges (queue ++ filter (λ v, delete x D !! v = Some 1) (set_order (out edges x))) D' (O ++ [x]) (<[x := out edges x]> edges').
Proof.
  intros HD'. destruct front_vertex as [Hvx Hx]. pose proof (k_queue_nodup _ _ _ _ _ Hk) as Hnd. apply list.NoDup_cons in Hnd as [Hxq Hnd].
  assert (∀ v, D' !! v = if decide (v = x) then None else if bool_decide (v ∈ out edges x) then (λ d, d - 1) <$> D !! v else D !! v) as HD.
  { intros v. rewrite HD', (bool_decide_ext _ _ (elem_of_set_order (out edges x) v)). case_decide as Hv; [subst v|by rewrite lookup_delete_ne]. rewrite lookup_delete_eq. by case_bool_decide. }
  assert (∀ v, v ∈ queue ↔ v ≠ x ∧ D !! v = Some 0) as Hq.
  { intros v. pose proof (k_queue _ _ _ _ _ Hk v) as E. rewrite <- E, elem_of_cons. split; [intros Hv; split; [by intros ->|by right]|]. by intros [Hne [->|Hv]]. }
  assert (∀ v, v ∈ filter (λ v, delete x D !! v = Some 1) (set_order (out edges x)) ↔ v ∈ out edges x ∧ D !! v = Some 1) as Hf.
  { intros v. rewrite list_elem_of_filter, elem_of_set_order. split; intros [H1 H2]; [|destruct (front_next v H1) as [Hne _]].
    - destruct (front_next v H2) as [Hne _]. by rewrite lookup_delete_ne in H1.
    - by rewrite lookup_delete_ne. }
  split.
  - apply list.NoDup_app. split_and!; [apply Hk|set_solver|apply NoDup_singleton].
  - intros v. rewrite HD. case_decide as Hv; [subst v; split; [by intros []|set_solver]|]. pose proof (k_dom _ _ _ _ _ Hk v) as Hdom. case_bool_decide; rewrite ?fmap_is_Some, Hdom; set_solver.
  - intros v. rewrite elem_of_app, list_elem_of_singleton. intros [Hv| ->]; [by apply (k_vertex _ _ _ _ _ Hk)|done].
  - intros v d. rewrite HD. case_decide; [done|]. pose proof (count_pop edges O x v Hx) as Hc. pose proof (k_count _ _ _ _ _ Hk v) as Hcount. case_bool_decide.
    + rewrite fmap_Some. intros (d' & Hd & ->). rewrite (Hcount d' Hd). lia.
    + intros Hd. rewrite (Hcount d Hd). lia.
  - apply list.NoDup_app. split_and!; [done| |apply list.NoDup_filter, NoDup_set_order]. intros v Hv Hv'. apply Hq in Hv as [_ Hv]. apply Hf in Hv' as [_ Hv']. by rewrite Hv in Hv'.
  - intros v. rewrite elem_of_app, Hq, Hf, HD. case_decide as Hv; [subst v; split; [|done]; intros [[? _]|[Hin _]]; [done|by destruct (front_next x Hin)]|]. case_bool_decide as Hin.
    + destruct (front_next v Hin) as (_ & _ & d & Hd & Hd0). rewrite Hd. simpl. split; [intros [[_ [= ->]]|[_ [= ->]]]; [done|done]|]. intros [= E]. right. split; [done|f_equal; lia].
    + split; [intros [[_ ?]|[? _]]; done|]. by left.
  - apply kahn_topological.
  - intros u. unfold out at 1. destruct (decide (u = x)) as [-> |Hne]; [by rewrite lookup_insert_eq|]. rewrite lookup_insert_ne by done. apply Hk.
  - intros u Hu. rewrite dom_insert. apply (k_dom_old _ _ _ _ _ Hk) in Hu. set_solver.
  - intros u. rewrite dom_insert, elem_of_union, elem_of_singleton. intros [->|Hu]; [done|by apply (k_dom_new _ _ _ _ _ Hk)].
Qed.
End Step.

Lemma order_loop_spec fuel edges queue D O edges' : kahn edges queue D O edges' → (size D < fuel)%nat →
  ∃ D' O' edges'', order_loop fuel queue D O edges' = Ok (D', O', edges'') ∧ kahn edges [] D' O' edges''.
Proof.
  revert queue D O edges'. induction fuel as [|fuel IH]; intros queue D O edges' Hk Hf; [lia|]. destruct queue as [|x queue]; [simpl; eauto 10|]. cbn [order_loop]. pose proof (front_degree _ _ _ _ _ _ Hk) as Hx.
  rewrite bool_decide_eq_true_2 by done. simpl Verify. run_bind. fold (out edges' x). rewrite (k_out _ _ _ _ _ Hk x).
  destruct (relax_loop_spec (set_order (out edges x)) queue (delete x D)) as (D' & -> & HD'); [apply NoDup_set_order| |].
  { intros v Hv. apply elem_of_set_order in Hv. destruct (front_next _ _ _ _ _ _ Hk v Hv) as (Hne & _ & d & Hd & _). rewrite lookup_delete_ne by done. eauto. }
  apply IH; [by apply kahn_step|]. assert (dom D' = dom (delete x D)) as Ed. { apply set_eq. intros v. rewrite !elem_of_dom, HD'. case_bool_decide; [by rewrite fmap_is_Some|done]. }
  rewrite <- !size_dom, Ed, size_dom. pose proof (map_size_delete_Some x D (mk_is_Some _ _ Hx)). assert (size D ≠ 0%nat) by (intros E0; apply map_size_empty_inv in E0; by rewrite E0, lookup_empty in Hx). lia.
Qed.

(** [Rebuild] finds an ordering, or there is a cycle. *)
Lemma Rebuild_spec edges : match Rebuild edges with
  | Ok ordering => NoDup (TopologicalOrdering_ ordering) ∧ (∀ v, v ∈ TopologicalOrdering_ ordering ↔ is_vertex edges v) ∧ topological (is_edge edges) (TopologicalOrdering_ ordering) ∧
      (∀ u, out (OutgoingEdges_ ordering) u = out edges u) ∧ (∀ v, is_vertex (OutgoingEdges_ ordering) v ↔ is_vertex edges v)
  | Crash => ∃ v, tc (is_edge edges) v v
  | _ => False
  end.
Proof.
  unfold Rebuild. destruct (order_loop_spec (S (size (in_degrees edges))) edges _ _ _ _ (kahn_start edges) ltac:(lia)) as (D & O & edges' & -> & Hk). run_bind. case_bool_decide as HD; simpl.
  - split_and!; [apply Hk| |apply Hk|apply Hk|].
    + intros v. split; [apply Hk|]. intros Hv. pose proof (k_dom _ _ _ _ _ Hk v) as Hd. rewrite HD, lookup_empty in Hd. destruct (decide (v ∈ O)) as [|Hn]; [done|]. by destruct (proj2 Hd (conj Hv Hn)).
    + intros v. unfold is_vertex, is_edge. setoid_rewrite (k_out _ _ _ _ _ Hk). split; intros [Hv|Hv]; [by apply (k_dom_new _ _ _ _ _ Hk)|by right|left; by apply (k_dom_old _ _ _ _ _ Hk)|by right].
  - apply map_choose in HD as (v0 & d0 & Hv0). apply (finite_cycle _ (dom D) v0); [by apply elem_of_dom_2 in Hv0|]. intros v Hv. apply elem_of_dom in Hv as [d Hd]. pose proof (k_count _ _ _ _ _ Hk v d Hd) as Hc.
    destruct (count_positive edges (dom edges ∖ list_to_set O) v) as (u & Hu & Huv).
    { intros E. rewrite E in Hc. subst d. by apply (k_queue _ _ _ _ _ Hk), not_elem_of_nil in Hd. }
    exists u. split; [|done]. apply elem_of_dom, (k_dom _ _ _ _ _ Hk). split; [left; set_solver|set_solver].
Qed.

(** *** Sequences of calls *)

Inductive TOrderingCall :=
| CallAddEdge (from to : V)
| CallAddVertex (from : V).

Definition ordering_call (call : TOrderingCall) (ordering : TIncrementalTopologicalOrdering V) : Result (TIncrementalTopologicalOrdering V) :=
  match call with CallAddEdge from to => AddEdge from to ordering | CallAddVertex from => AddVertex from ordering end.

Fixpoint ordering_calls (calls : list TOrderingCall) (ordering : TIncrementalTopologicalOrdering V) : Result (TIncrementalTopologicalOrdering V) :=
  match calls with [] => Ok ordering | call :: calls => ordering ← ordering_call call ordering; ordering_calls calls ordering end.

(** The graph that was asked for. *)
Definition edge_in (calls : list TOrderingCall) (u v : V) : Prop := CallAddEdge u v ∈ calls.
Definition vertex_in (calls : list TOrderingCall) (v : V) : Prop := CallAddVertex v ∈ calls ∨ ∃ u, CallAddEdge u v ∈ calls ∨ CallAddEdge v u ∈ calls.

Definition ordered (done : list TOrderingCall) (ordering : TIncrementalTopologicalOrdering V) : Prop :=
  NoDup (TopologicalOrdering_ ordering) ∧ (∀ v, v ∈ TopologicalOrdering_ ordering ↔ is_vertex (OutgoingEdges_ ordering) v) ∧ topological (is_edge (OutgoingEdges_ ordering)) (TopologicalOrdering_ ordering) ∧
  (∀ u v, is_edge (OutgoingEdges_ ordering) u v ↔ edge_in done u v) ∧ (∀ v, is_vertex (OutgoingEdges_ ordering) v ↔ vertex_in done v).

Lemma ordered_new : ordered [] NewOrdering.
Proof.
  assert (∀ v, ¬ vertex_in [] v) as Hnone by (intros v [Hv|(u & [Hv|Hv])]; by apply not_elem_of_nil in Hv). assert (∀ u v, ¬ is_edge (V := V) ∅ u v) as Hedge by (intros u v Hv; unfold is_edge, out in Hv; rewrite lookup_empty in Hv; by apply not_elem_of_empty in Hv).
  assert (∀ v, ¬ is_vertex (V := V) ∅ v) as Hvertex by (intros v [Hv|[u Hv]]; [by rewrite dom_empty in Hv; apply not_elem_of_empty in Hv|by apply Hedge in Hv]).
  split_and!; simpl; [constructor| |done| |].
  - intros v. split; [by intros ?%not_elem_of_nil|by intros ?%Hvertex].
  - intros u v. split; [by intros ?%Hedge|by intros ?%not_elem_of_nil].
  - intros v. split; [by intros ?%Hvertex|by intros ?%Hnone].
Qed.

(** [Rebuild] on the edges with those of one more call. *)
Lemma ordered_rebuild calls edges : (∀ u v, is_edge edges u v ↔ edge_in calls u v) → (∀ v, is_vertex edges v ↔ vertex_in calls v) →
  match Rebuild edges with Ok ordering => ordered calls ordering | Crash => ∃ v, tc (edge_in calls) v v | _ => False end.
Proof.
  intros Hedge Hvertex. pose proof (Rebuild_spec edges) as Hr. destruct (Rebuild edges) as [ordering| | |]; [|done| |done].
  - destruct Hr as (Hnd & Hin & Ht & Hout & Hv). split_and!; [done| | | |].
    + intros v. by rewrite Hin, Hv.
    + intros i u v Huv. apply Ht. unfold is_edge in *. by rewrite <- Hout.
    + intros u v. rewrite <- Hedge. unfold is_edge. by rewrite Hout.
    + intros v. by rewrite Hv.
  - destruct Hr as [v Hv]. exists v. revert Hv. apply tc_more. intros x y Hxy. by apply Hedge.
Qed.

Lemma edge_in_snoc calls call u v : edge_in (calls ++ [call]) u v ↔ edge_in calls u v ∨ call = CallAddEdge u v.
Proof. unfold edge_in. rewrite elem_of_app, list_elem_of_singleton. naive_solver. Qed.

Lemma vertex_in_edge calls from to v : vertex_in (calls ++ [CallAddEdge from to]) v ↔ vertex_in calls v ∨ v = from ∨ v = to.
Proof. unfold vertex_in. setoid_rewrite elem_of_app. setoid_rewrite list_elem_of_singleton. naive_solver. Qed.

Lemma vertex_in_vertex calls from v : vertex_in (calls ++ [CallAddVertex from]) v ↔ vertex_in calls v ∨ v = from.
Proof. unfold vertex_in. setoid_rewrite elem_of_app. setoid_rewrite list_elem_of_singleton. naive_solver. Qed.

Lemma ordering_call_spec calls call ordering : ordered calls ordering →
  match ordering_call call ordering with Ok ordering' => ordered (calls ++ [call]) ordering' | Crash => ∃ v, tc (edge_in (calls ++ [call])) v v | _ => False end.
Proof.
  intros Ho. pose proof Ho as (Hnd & Hin & Ht & Hedge & Hvertex). assert (∀ call', (∀ u v, edge_in (calls ++ [call']) u v ↔ edge_in calls u v) → (∀ v, vertex_in (calls ++ [call']) v ↔ vertex_in calls v) → ordered (calls ++ [call']) ordering) as Hsame.
  { intros call' He Hv. split_and!; [done..| |]; [intros u v; by rewrite He|intros v; by rewrite Hv]. }
  destruct call as [from to|from]; simpl.
  - unfold AddEdge. fold (out (OutgoingEdges_ ordering) from). case_bool_decide as Hto.
    + apply Hsame; [intros u v; rewrite edge_in_snoc; split; [|by left]; intros [?|[= -> ->]]; [done|by apply Hedge]|].
      intros v. rewrite vertex_in_edge. split; [|by left]. intros [?|[->| ->]]; [done|apply Hvertex; left; by eapply out_dom|apply Hvertex; right; by exists from].
    + assert (∀ u v, is_edge (<[from := {[to]} ∪ out (OutgoingEdges_ ordering) from]> (OutgoingEdges_ ordering)) u v ↔ is_edge (OutgoingEdges_ ordering) u v ∨ u = from ∧ v = to) as Hins.
      { intros u v. unfold is_edge. unfold out at 1. destruct (decide (u = from)) as [-> |Hne]; [rewrite lookup_insert_eq; set_solver|]. rewrite lookup_insert_ne by done. fold (out (OutgoingEdges_ ordering) u). split; [by left|]. by intros [?|[? _]]. }
      apply ordered_rebuild.
      * intros u v. rewrite Hins, edge_in_snoc, Hedge. naive_solver.
      * intros v. rewrite vertex_in_edge, <- Hvertex. unfold is_vertex. setoid_rewrite Hins. rewrite dom_insert, elem_of_union, elem_of_singleton. naive_solver.
  - unfold AddVertex. destruct (OutgoingEdges_ ordering !! from) as [targets|] eqn:E.
    + apply Hsame; [intros u v; rewrite edge_in_snoc; split; [|by left]; by intros [?|?]|]. intros v. rewrite vertex_in_vertex. split; [|by left]. intros [?| ->]; [done|]. apply Hvertex. left. by apply elem_of_dom_2 in E.
    + assert (∀ u v, is_edge (<[from := ∅]> (OutgoingEdges_ ordering)) u v ↔ is_edge (OutgoingEdges_ ordering) u v) as Hins.
      { intros u v. unfold is_edge, out. destruct (decide (u = from)) as [-> |Hne]; [by rewrite lookup_insert_eq, E|by rewrite lookup_insert_ne]. }
      apply ordered_rebuild.
      * intros u v. rewrite Hins, edge_in_snoc, Hedge. naive_solver.
      * intros v. rewrite vertex_in_vertex, <- Hvertex. unfold is_vertex. setoid_rewrite Hins. rewrite dom_insert, elem_of_union, elem_of_singleton. naive_solver.
Qed.

Lemma ordering_calls_spec calls earlier ordering : ordered earlier ordering →
  match ordering_calls calls ordering with Ok ordering' => ordered (earlier ++ calls) ordering' | Crash => ∃ v, tc (edge_in (earlier ++ calls)) v v | _ => False end.
Proof.
  revert earlier ordering. induction calls as [|call calls IH]; intros earlier ordering Ho; [simpl; by rewrite app_nil_r|]. simpl. pose proof (ordering_call_spec earlier call ordering Ho) as Hc.
  destruct (ordering_call call ordering) as [ordering'| | |]; [|done| |done]; run_bind.
  - specialize (IH (earlier ++ [call]) ordering' Hc). by rewrite <- app_assoc in IH.
  - destruct Hc as [v Hv]. exists v. revert Hv. apply tc_more. intros x y. unfold edge_in. set_solver.
Qed.

(** C33. The ordering is kept topological. For any sequence of [AddEdge] and [AddVertex], and any
    order in which the hash containers are visited: when the edges have no cycle the calls
    return and [GetOrdering] holds every vertex of the calls exactly once, with the source of
    every edge in front of its target; when they have a cycle, one of the calls aborts. *)
Theorem TopologicalOrdering_correct (calls : list TOrderingCall) :
  match ordering_calls calls NewOrdering with
  | Ok ordering => NoDup (GetOrdering ordering) ∧ (∀ v, v ∈ GetOrdering ordering ↔ vertex_in calls v) ∧ topological (edge_in calls) (GetOrdering ordering) ∧ ¬ ∃ v, tc (edge_in calls) v v
  | Crash => ∃ v, tc (edge_in calls) v v
  | _ => False
  end.
Proof.
  pose proof (ordering_calls_spec calls [] NewOrdering ordered_new) as Hc. simpl in Hc. destruct (ordering_calls calls NewOrdering) as [ordering| | |]; [|done..].
  destruct Hc as (Hnd & Hin & Ht & Hedge & Hvertex). assert (topological (edge_in calls) (TopologicalOrdering_ ordering)) as Ht' by (intros i u v Huv; by apply Ht, Hedge).
  split_and!; [done|intros v; by rewrite <- Hvertex|done|]. intros [v Hv]. apply (topological_acyclic _ _ v Ht'); [|done]. apply Hin, Hvertex. right. apply tc_last in Hv as (u & Hu). exists u. by left.
Qed.
End Kahn.
Arguments TOrderingCall : clear implicits.

(** The orders of the finite maps themselves. *)
#[export] Instance nat_hash_order : HashOrder nat := {| edges_order := map_to_list; degrees_order := map_to_list; set_order := elements |}.
#[export] Instance nat_hash_order_laws : HashOrderLaws nat.
Proof. by split. Qed.

Lemma TopologicalOrdering_correct_witness :
  let calls := [CallAddEdge 3 1; CallAddVertex 7; CallAddEdge 1 2; CallAddEdge 3 2]%nat in
  (∃ ordering, ordering_calls calls NewOrdering = Ok ordering ∧ NoDup (GetOrdering ordering) ∧ topological (edge_in calls) (GetOrdering ordering)) ∧ ordering_calls (calls ++ [CallAddEdge 2 3]%nat) NewOrdering = Crash.
Proof.
  intros calls. split; [|by vm_compute]. pose proof (TopologicalOrdering_correct calls) as H1. destruct (ordering_calls calls NewOrdering) as [ordering| | |] eqn:E; [|by vm_compute in E..].
  destruct H1 as (Hnd & _ & Ht & _). exists ordering. exact (conj eq_refl (conj Hnd Ht)).
Defined.
