(* ===== verification/Decimal.v ===== *)
(** Decimals (yt/yt/library/decimal/decimal.h, decimal.cpp): fixed-point numbers of up to 76
    digits as text and as binary strings whose order is that of the numbers. The code is
    generic over four integers; those of 32, 64 and 128 bits are the machine's, those of 256
    bits are arrays of eight words with an arithmetic of their own. The integers are instances
    of a class; its laws say what the conversions rely on, and the arithmetic of 256 bits is
    proved to satisfy them. *)

From S2P Require Import Prelude YsonLexer.

(** ** The integers *)

(** [T] is a signed integer and [U] the unsigned one of the same size. *)
Class DecimalInteger (T U : Type) := {
  SizeOf : nat;
  OfDigit : Z → T;
  GetNan : T;
  GetPlusInf : T;
  Negate : T → T;
  Equal : T → T → bool;
  LessEqual : T → T → bool;
  IsNegativeInteger : T → bool;
  DecimalIntegerToUnsigned : T → U;
  DecimalIntegerToSigned : U → T;
  UnsignedEqual : U → U → bool;
  UnsignedAdd : U → U → U;
  FlipMSB : T → T;
  GetNextDigit : U → Z * U;
  MultiplyByTen : U → U;
  DecimalHostToInet : T → T;
  FromMemory : list byte → T;
  ToMemory : T → list byte;
  MaxValueTable : Z → Result T
}.

(** The bytes of a word in the other order. *)
Definition byte_swap (n : nat) (v : Z) : Z := le_value (rev (le_bytes n v)).

(** An integer of the machine with [n] bytes; signed overflow of the negation wraps around. *)
Definition native (n : nat) (hostToInet : Z → Z) (table : Z → Result Z) : DecimalInteger Z Z :=
  let w := 8 * Z.of_nat n in
  {| SizeOf := n;
     OfDigit digit := digit;
     GetNan := 2 ^ (w - 1) - 1;
     GetPlusInf := 2 ^ (w - 1) - 2;
     Negate value := wrap_s w (- value);
     Equal := Z.eqb;
     LessEqual := Z.leb;
     IsNegativeInteger value := value <? 0;
     DecimalIntegerToUnsigned := wrap_u w;
     DecimalIntegerToSigned := wrap_s w;
     UnsignedEqual := Z.eqb;
     UnsignedAdd lhs rhs := wrap_u w (lhs + rhs);
     FlipMSB value := wrap_s w (Z.lxor (wrap_u w value) (Z.shiftl 1 (w - 1)));
     GetNextDigit value := (value mod 10, value / 10);
     MultiplyByTen value := wrap_u w (value * 10);
     DecimalHostToInet value := wrap_s w (hostToInet (wrap_u w value));
     FromMemory bytes := wrap_s w (le_value bytes);
     ToMemory value := le_bytes n (wrap_u w value);
     MaxValueTable := table |}.

Definition at_table {A} (table : list A) (index : Z) : Result A :=
  if index <? 0 then Crash else match table !! Z.to_nat index with Some value => Ok value | None => Crash end.

Definition Decimal32IntegerMaxValueTable : list Z := [0; 9; 99; 999; 9999; 99999; 999999; 9999999; 99999999; 999999999].

Definition Decimal64IntegerMaxValueTable : list Z :=
  [9999999999; 99999999999; 999999999999; 9999999999999; 99999999999999; 999999999999999; 9999999999999999; 99999999999999999; 999999999999999999].

Definition Decimal128IntegerMaxValueTable : list Z :=
  [Z.lor 0x8ac7230489e7ffff (Z.shiftl 0x0 64);
   Z.lor 0x6bc75e2d630fffff (Z.shiftl 0x5 64);
   Z.lor 0x35c9adc5de9fffff (Z.shiftl 0x36 64);
   Z.lor 0x19e0c9bab23fffff (Z.shiftl 0x21e 64);
   Z.lor 0x02c7e14af67fffff (Z.shiftl 0x152d 64);
   Z.lor 0x1bcecceda0ffffff (Z.shiftl 0xd3c2 64);
   Z.lor 0x1614014849ffffff (Z.shiftl 0x84595 64);
   Z.lor 0xdcc80cd2e3ffffff (Z.shiftl 0x52b7d2 64);
   Z.lor 0x9fd0803ce7ffffff (Z.shiftl 0x33b2e3c 64);
   Z.lor 0x3e2502610fffffff (Z.shiftl 0x204fce5e 64);
   Z.lor 0x6d7217ca9fffffff (Z.shiftl 0x1431e0fae 64);
   Z.lor 0x4674edea3fffffff (Z.shiftl 0xc9f2c9cd0 64);
   Z.lor 0xc0914b267fffffff (Z.shiftl 0x7e37be2022 64);
   Z.lor 0x85acef80ffffffff (Z.shiftl 0x4ee2d6d415b 64);
   Z.lor 0x38c15b09ffffffff (Z.shiftl 0x314dc6448d93 64);
   Z.lor 0x378d8e63ffffffff (Z.shiftl 0x1ed09bead87c0 64);
   Z.lor 0x2b878fe7ffffffff (Z.shiftl 0x13426172c74d82 64);
   Z.lor 0xb34b9f0fffffffff (Z.shiftl 0xc097ce7bc90715 64);
   Z.lor 0x00f4369fffffffff (Z.shiftl 0x785ee10d5da46d9 64);
   Z.lor 0x098a223fffffffff (Z.shiftl 0x4b3b4ca85a86c47a 64)].

Definition Decimal256IntegerMaxValueTable : list (list Z) :=
  [[0xffffffff; 0x5f65567f; 0x8943acc4; 0xf050fe93; 0x2; 0x0; 0x0; 0x0];
   [0xffffffff; 0xb9f560ff; 0x5ca4bfab; 0x6329f1c3; 0x1d; 0x0; 0x0; 0x0];
   [0xffffffff; 0x4395c9ff; 0x9e6f7cb5; 0xdfa371a1; 0x125; 0x0; 0x0; 0x0];
   [0xffffffff; 0xa3d9e3ff; 0x305adf14; 0xbc627050; 0xb7a; 0x0; 0x0; 0x0];
   [0xffffffff; 0x6682e7ff; 0xe38cb6ce; 0x5bd86321; 0x72cb; 0x0; 0x0; 0x0];
   [0xffffffff; 0x011d0fff; 0xe37f2410; 0x9673df52; 0x47bf1; 0x0; 0x0; 0x0];
   [0xffffffff; 0x0b229fff; 0xe2f768a0; 0xe086b93c; 0x2cd76f; 0x0; 0x0; 0x0];
   [0xffffffff; 0x6f5a3fff; 0xddaa1640; 0xc5433c60; 0x1c06a5e; 0x0; 0x0; 0x0];
   [0xffffffff; 0x59867fff; 0xa8a4de84; 0xb4a05bc8; 0x118427b3; 0x0; 0x0; 0x0];
   [0xffffffff; 0x7f40ffff; 0x9670b12b; 0x0e4395d6; 0xaf298d05; 0x0; 0x0; 0x0];
   [0xffffffff; 0xf889ffff; 0xe066ebb2; 0x8ea3da61; 0xd79f8232; 0x6; 0x0; 0x0];
   [0xffffffff; 0xb563ffff; 0xc40534fd; 0x926687d2; 0x6c3b15f9; 0x44; 0x0; 0x0];
   [0xffffffff; 0x15e7ffff; 0xa83411e9; 0xb8014e3b; 0x3a4edbbf; 0x2ac; 0x0; 0x0];
   [0xffffffff; 0xdb0fffff; 0x9208b31a; 0x300d0e54; 0x4714957d; 0x1aba; 0x0; 0x0];
   [0xffffffff; 0x8e9fffff; 0xb456ff0c; 0xe0828f4d; 0xc6cdd6e3; 0x10b46; 0x0; 0x0];
   [0xffffffff; 0x923fffff; 0x0b65f67d; 0xc5199909; 0xc40a64e6; 0xa70c3; 0x0; 0x0];
   [0xffffffff; 0xb67fffff; 0x71fba0e7; 0xb2fffa5a; 0xa867f103; 0x6867a5; 0x0; 0x0];
   [0xffffffff; 0x20ffffff; 0x73d4490d; 0xfdffc788; 0x940f6a24; 0x4140c78; 0x0; 0x0];
   [0xffffffff; 0x49ffffff; 0x864ada83; 0xebfdcb54; 0xc89a2571; 0x28c87cb5; 0x0; 0x0];
   [0xffffffff; 0xe3ffffff; 0x3eec8920; 0x37e9f14d; 0xd6057673; 0x97d4df19; 0x1; 0x0];
   [0xffffffff; 0xe7ffffff; 0x753d5b48; 0x2f236d04; 0x5c36a080; 0xee50b702; 0xf; 0x0];
   [0xffffffff; 0x0fffffff; 0x946590d9; 0xd762422c; 0x9a224501; 0x4f272617; 0x9f; 0x0];
   [0xffffffff; 0x9fffffff; 0xcbf7a87a; 0x69d695bd; 0x0556b212; 0x17877cec; 0x639; 0x0];
   [0xffffffff; 0x3fffffff; 0xf7ac94ca; 0x2261d969; 0x3562f4b8; 0xeb4ae138; 0x3e3a; 0x0];
   [0xffffffff; 0x7fffffff; 0xacbdcfe6; 0x57d27e23; 0x15dd8f31; 0x30eccc32; 0x26e4d; 0x0];
   [0xffffffff; 0xffffffff; 0xbf6a1f00; 0x6e38ed64; 0xdaa797ed; 0xe93ff9f4; 0x184f03; 0x0];
   [0xffffffff; 0xffffffff; 0x7a253609; 0x4e3945ef; 0x8a8bef46; 0x1c7fc390; 0xf31627; 0x0];
   [0xffffffff; 0xffffffff; 0xc5741c63; 0x0e3cbb5a; 0x697758bf; 0x1cfda3a5; 0x97edd87; 0x0];
   [0xffffffff; 0xffffffff; 0xb6891be7; 0x8e5f518b; 0x1ea97776; 0x21e86476; 0x5ef4a747; 0x0];
   [0xffffffff; 0xffffffff; 0x215b170f; 0x8fb92f75; 0x329eaaa1; 0x5313ec9d; 0xb58e88c7; 0x3];
   [0xffffffff; 0xffffffff; 0x4d8ee69f; 0x9d3bda93; 0xfa32aa4f; 0x3ec73e23; 0x179157c9; 0x25];
   [0xffffffff; 0xffffffff; 0x0795023f; 0x245689c1; 0xc5faa71c; 0x73c86d67; 0xebad6ddc; 0x172];
   [0xffffffff; 0xffffffff; 0x4bd2167f; 0x6b61618a; 0xbbca8719; 0x85d4460d; 0x34c64a9c; 0xe7d];
   [0xffffffff; 0xffffffff; 0xf634e0ff; 0x31cdcf66; 0x55e946fe; 0x3a4abc89; 0x0fbeea1d; 0x90e4];
   [0xffffffff; 0xffffffff; 0x9e10c9ff; 0xf20a1a05; 0x5b1cc5ed; 0x46eb5d5d; 0x9d752524; 0x5a8e8];
   [0xffffffff; 0xffffffff; 0x2ca7e3ff; 0x74650438; 0x8f1fbb4b; 0xc531a5a5; 0x2693736a; 0x389916];
   [0xffffffff; 0xffffffff; 0xbe8ee7ff; 0x8bf22a31; 0x973d50f2; 0xb3f07877; 0x81c2822b; 0x235fadd];
   [0xffffffff; 0xffffffff; 0x71950fff; 0x7775a5f1; 0xe8652979; 0x0764b4ab; 0x119915b5; 0x161bcca7]].

(** [GetDecimalMaxIntegerValue], without its first check, which is that of the caller. *)
Definition max32 (precision : Z) : Result Z := _ ← Verify (precision <=? 9); at_table Decimal32IntegerMaxValueTable precision.
Definition max64 (precision : Z) : Result Z := _ ← Verify ((precision >=? 10) && (precision <=? 18)); at_table Decimal64IntegerMaxValueTable (precision - 10).
Definition max128 (precision : Z) : Result Z := _ ← Verify ((precision >=? 19) && (precision <=? 38)); at_table Decimal128IntegerMaxValueTable (precision - 19).
Definition max256 (precision : Z) : Result (list Z) := _ ← Verify ((precision >=? 39) && (precision <=? 76)); at_table Decimal256IntegerMaxValueTable (precision - 39).

(** [T(HostToInet(GetLow(value)), HostToInet(GetHigh(value)))]: the high half comes first. *)
Definition swap128 (v : Z) : Z := Z.lor (Z.shiftl (byte_swap 8 (wrap_u 64 v)) 64) (byte_swap 8 (Z.shiftr v 64)).

Definition Int32 : DecimalInteger Z Z := native 4 (byte_swap 4) max32.
Definition Int64 : DecimalInteger Z Z := native 8 (byte_swap 8) max64.
Definition Int128 : DecimalInteger Z Z := native 16 swap128 max128.

(** *** 256 bits: eight words, the lowest first *)

Definition TValue256 : Type := list Z.

Definition Parts8 (f : nat → Z) : TValue256 := map f (seq 0 8).

(** [operator-]: invert and add one. *)
Fixpoint increment (parts : TValue256) : TValue256 :=
  match parts with
  | [] => []
  | part :: parts => let part := wrap_u 32 (part + 1) in if part =? 0 then part :: increment parts else part :: parts
  end.

Definition negate256 (value : TValue256) : TValue256 := increment (map (λ part, wrap_u 32 (Z.lnot part)) value).

Definition back (value : TValue256) : Z := List.last value 0.

Definition negative256 (value : TValue256) : bool := negb (Z.land (back value) (Z.shiftl 1 31) =? 0).

(** [operator<=>]: the loop runs from the highest word down. *)
Fixpoint compare_parts (lhs rhs : list Z) : comparison :=
  match lhs, rhs with
  | l :: lhs, r :: rhs => if negb (l =? r) then Z.compare l r else compare_parts lhs rhs
  | _, _ => Eq
  end.

Definition compare256 (lhs rhs : TValue256) : comparison :=
  if negative256 lhs && negb (negative256 rhs) then Lt
  else if negb (negative256 lhs) && negative256 rhs then Gt
  else compare_parts (rev lhs) (rev rhs).

Definition equal256 (lhs rhs : TValue256) : bool := bool_decide (lhs = rhs).

(** [operator+]. *)
Fixpoint add_parts (carry : Z) (lhs rhs : TValue256) : TValue256 :=
  match lhs, rhs with
  | l :: lhs, r :: rhs => let carry := wrap_u 64 (carry + l + r) in wrap_u 32 carry :: add_parts (Z.shiftr carry 32) lhs rhs
  | _, _ => []
  end.

(** [ShiftUp]: the loop runs from the highest word down, so that every word takes the high
    bits of the old word below it. *)
Fixpoint shift_parts (shift below : Z) (parts : TValue256) : TValue256 :=
  match parts with
  | [] => []
  | part :: parts => Z.lor (wrap_u 32 (Z.shiftl part shift)) (Z.shiftr below (32 - shift)) :: shift_parts shift part parts
  end.

Definition ShiftUp (shift : Z) (value : TValue256) : TValue256 := shift_parts shift 0 value.

(** The division by ten, from the highest word down. *)
Fixpoint divide_parts (remainder : Z) (parts : list Z) : list Z * Z :=
  match parts with
  | [] => ([], remainder)
  | part :: parts =>
      let dividend := part + Z.shiftl remainder 32 in
      let '(quotients, remainder) := divide_parts (dividend mod 10) parts in (wrap_u 32 (dividend / 10) :: quotients, remainder)
  end.

Definition next_digit256 (value : TValue256) : Z * TValue256 :=
  let '(quotients, remainder) := divide_parts 0 (rev value) in (remainder, rev quotients).

Definition flip256 (value : TValue256) : TValue256 := <[7%nat := Z.lxor (back value) (Z.shiftl 1 31)]> value.

(** The words of the two halves are exchanged and their bytes swapped. *)
Definition swap256 (value : TValue256) : TValue256 := rev (map (byte_swap 4) value).

Fixpoint words (n : nat) (bytes : list byte) : list Z :=
  match n with O => [] | S n => le_value (take 4 bytes) :: words n (drop 4 bytes) end.

Definition Int256 : DecimalInteger TValue256 TValue256 :=
  {| SizeOf := 32;
     OfDigit digit := Parts8 (λ i, if Nat.eqb i 0 then digit else 0);
     GetNan := Parts8 (λ i, if Nat.eqb i 7 then 2 ^ 31 - 1 else 2 ^ 32 - 1);
     GetPlusInf := Parts8 (λ i, if Nat.eqb i 7 then 2 ^ 31 - 1 else if Nat.eqb i 0 then 2 ^ 32 - 2 else 2 ^ 32 - 1);
     Negate := negate256;
     Equal := equal256;
     LessEqual lhs rhs := match compare256 lhs rhs with Gt => false | _ => true end;
     IsNegativeInteger := negative256;
     DecimalIntegerToUnsigned value := value;
     DecimalIntegerToSigned value := value;
     UnsignedEqual := equal256;
     UnsignedAdd := add_parts 0;
     FlipMSB := flip256;
     GetNextDigit := next_digit256;
     MultiplyByTen value := ShiftUp 1 (add_parts 0 (ShiftUp 2 value) value);
     DecimalHostToInet := swap256;
     FromMemory := words 8;
     ToMemory value := concat (map (le_bytes 4) value);
     MaxValueTable := max256 |}.

(** ** Conversions *)

Definition MaxPrecision : Z := 76.
Definition MaxTextSize : nat := 79.

Definition ValidatePrecisionAndScale (precision scale : Z) : Result () :=
  if (precision <=? 0) || (precision >? MaxPrecision) then Throw EInvalidDecimal
  else if (scale <? 0) || (scale >? precision) then Throw EInvalidDecimal
  else Ok ().

Definition GetDecimalBinaryValueSize (precision : Z) : Z :=
  if precision >? 0 then
    if precision <=? 9 then 4
    else if precision <=? 18 then 8
    else if precision <=? 38 then 16
    else if precision <=? 76 then 32
    else 0
  else 0.

Definition GetValueBinarySize (precision : Z) : Result Z :=
  let result := GetDecimalBinaryValueSize precision in
  if result <=? 0 then _ ← ValidatePrecisionAndScale precision 0; Crash else Ok result.

Section Generic.
Context {T U : Type} `{DecimalInteger T U}.

Definition MinusInf : T := Negate GetPlusInf.
Definition unsigned_zero : U := DecimalIntegerToUnsigned (OfDigit 0).

(** [DecimalInetToHost] is the same function as [DecimalHostToInet]. *)
Definition DecimalBinaryToIntegerUnchecked (binaryValue : list byte) : T := FlipMSB (DecimalHostToInet (FromMemory (take SizeOf binaryValue))).

Definition DecimalIntegerToBinaryUnchecked (decodedValue : T) : list byte := ToMemory (DecimalHostToInet (FlipMSB decodedValue)).

Definition GetDecimalMaxIntegerValue (precision : Z) : Result T :=
  size ← GetValueBinarySize precision;
  if size >? Z.of_nat SizeOf then Crash else MaxValueTable precision.

Definition digit_char (digit : Z) : byte := byte_of (48 + digit).

(** The digits, the lowest first; [digits] is an array of [MaxTextSize]. *)
Fixpoint digits_loop (fuel : nat) (absValue : U) : Result (list Z) :=
  if UnsignedEqual absValue unsigned_zero then Ok []
  else
    match fuel with
    | O => Crash
    | S fuel => let '(digit, absValue) := GetNextDigit absValue in digits ← digits_loop fuel absValue; Ok (digit :: digits)
    end.

Definition WriteTextDecimalUnchecked (decodedValue : T) (scale : Z) : Result (list byte) :=
  if Equal decodedValue MinusInf then Ok (B"-inf")
  else if Equal decodedValue GetPlusInf then Ok (B"inf")
  else if Equal decodedValue GetNan then Ok (B"nan")
  else
    let negative := IsNegativeInteger decodedValue in
    let absValue := DecimalIntegerToUnsigned (if negative then Negate decodedValue else decodedValue) in
    digits ← digits_loop MaxTextSize absValue;
    let digits := if Z.of_nat (length digits) <=? scale then digits ++ repeat 0 (Z.to_nat scale + 1 - length digits) else digits in
    let whole := map digit_char (rev (drop (Z.to_nat scale) digits)) in
    let fraction := if scale >? 0 then B"." ++ map digit_char (rev (take (Z.to_nat scale) digits)) else [] in
    Ok ((if negative then B"-" else []) ++ whole ++ fraction).

(** *** Text to integers *)

Definition is_char (lower upper ch : byte) : bool := Byte.eqb ch lower || Byte.eqb ch upper.

(** [char] is signed. *)
Definition addDigit (digit : byte) (result : U) : Result U :=
  let currentDigit := wrap_u 16 (wrap_s 8 (byte_val digit) - 48) in
  if currentDigit >? 9 then Throw EInvalidDecimal
  else Ok (UnsignedAdd (MultiplyByTen result) (DecimalIntegerToUnsigned (OfDigit currentDigit))).

Fixpoint after_loop (text : list byte) (result : U) (afterPoint : Z) : Result (U * Z) :=
  match text with
  | [] => Ok (result, afterPoint)
  | ch :: text => result ← addDigit ch result; after_loop text result (afterPoint + 1)
  end.

Fixpoint before_loop (text : list byte) (result : U) (beforePoint : Z) : Result (U * Z * Z) :=
  match text with
  | [] => Ok (result, beforePoint, 0)
  | ch :: text =>
      if Byte.eqb ch "."%byte then '(result, afterPoint) ← after_loop text result 0; Ok (result, beforePoint, afterPoint)
      else result ← addDigit ch result; before_loop text result (beforePoint + 1)
  end.

Definition finish_decimal (negative : bool) (precision scale : Z) (result : U) (beforePoint afterPoint : Z) : Result T :=
  let result := Nat.iter (Z.to_nat (scale - afterPoint)) MultiplyByTen result in
  if afterPoint >? scale then Throw EInvalidDecimal
  else if beforePoint + scale >? precision then Throw EInvalidDecimal
  else let signedResult := DecimalIntegerToSigned result in Ok (if negative then Negate signedResult else signedResult).

Definition DecimalTextToInteger (textValue : list byte) (precision scale : Z) : Result T :=
  match textValue with
  | [] => Throw EInvalidDecimal
  | first :: rest =>
      let negative := Byte.eqb first "-"%byte in
      let cur := if negative || Byte.eqb first "+"%byte then rest else textValue in
      match cur with
      | [] => Throw EInvalidDecimal
      | ch :: tail =>
          if is_char "i" "I" ch then
            match tail with
            | [c2; c3] => if is_char "n" "N" c2 && is_char "f" "F" c3 then Ok (if negative then MinusInf else GetPlusInf) else Throw EInvalidDecimal
            | _ => Throw EInvalidDecimal
            end
          else if is_char "n" "N" ch then
            match tail with
            | [c2; c3] => if negb negative && is_char "a" "A" c2 && is_char "n" "N" c3 then Ok GetNan else Throw EInvalidDecimal
            | _ => Throw EInvalidDecimal
            end
          else
            '(result, beforePoint, afterPoint) ← before_loop cur unsigned_zero 0;
            finish_decimal negative precision scale result beforePoint afterPoint
      end
  end.

Definition DecimalBinaryToTextUncheckedImpl (value : list byte) (scale : Z) : Result (list byte) :=
  WriteTextDecimalUnchecked (DecimalBinaryToIntegerUnchecked value) scale.

Definition TextToBinaryImpl (textDecimal : list byte) (precision scale : Z) : Result (list byte) :=
  decoded ← DecimalTextToInteger textDecimal precision scale; Ok (DecimalIntegerToBinaryUnchecked decoded).

(** The text of a value that is refused is part of the message. *)
Definition ValidateDecimalBinaryValueImpl (binaryDecimal : list byte) (precision scale : Z) : Result () :=
  let decoded := DecimalBinaryToIntegerUnchecked binaryDecimal in
  maxValue ← GetDecimalMaxIntegerValue precision;
  if LessEqual (Negate maxValue) decoded && LessEqual decoded maxValue then Ok ()
  else if Equal decoded MinusInf || Equal decoded GetPlusInf || Equal decoded GetNan then Ok ()
  else _ ← WriteTextDecimalUnchecked decoded scale; Throw EInvalidDecimal.

Definition CheckDecimalIntBits (precision : Z) : Result () :=
  expectedSize ← GetValueBinarySize precision;
  if negb (expectedSize =? Z.of_nat SizeOf) then Throw EInvalidDecimal else Ok ().

(** [WriteBinary32] and its siblings. *)
Definition WriteBinary (precision : Z) (value : T) (bufferLength : Z) : Result (list byte) :=
  resultLength ← GetValueBinarySize precision;
  _ ← CheckDecimalIntBits precision;
  _ ← Verify (bufferLength >=? resultLength);
  Ok (DecimalIntegerToBinaryUnchecked value).

(** [ParseBinary32] and its siblings. *)
Definition ParseBinary (precision : Z) (buffer : list byte) : Result T :=
  _ ← CheckDecimalIntBits precision;
  if negb (Z.of_nat SizeOf =? Z.of_nat (length buffer)) then Throw EInvalidDecimal
  else Ok (DecimalBinaryToIntegerUnchecked buffer).
End Generic.

(** *** [TDecimal] *)

Definition CheckDecimalValueSize (value : list byte) (precision scale : Z) : Result () :=
  expectedSize ← GetValueBinarySize precision;
  if negb (Z.of_nat (length value) =? expectedSize) then Throw EInvalidDecimal else Ok ().

Definition BinaryToText (binaryDecimal : list byte) (precision scale : Z) : Result (list byte) :=
  _ ← ValidatePrecisionAndScale precision scale;
  match length binaryDecimal with
  | 4%nat => DecimalBinaryToTextUncheckedImpl (H := Int32) binaryDecimal scale
  | 8%nat => DecimalBinaryToTextUncheckedImpl (H := Int64) binaryDecimal scale
  | 16%nat => DecimalBinaryToTextUncheckedImpl (H := Int128) binaryDecimal scale
  | 32%nat => DecimalBinaryToTextUncheckedImpl (H := Int256) binaryDecimal scale
  | _ => _ ← CheckDecimalValueSize binaryDecimal precision scale; Crash
  end.

Definition TextToBinary (textValue : list byte) (precision scale : Z) : Result (list byte) :=
  _ ← ValidatePrecisionAndScale precision scale;
  byteSize ← GetValueBinarySize precision;
  if byteSize =? 4 then TextToBinaryImpl (H := Int32) textValue precision scale
  else if byteSize =? 8 then TextToBinaryImpl (H := Int64) textValue precision scale
  else if byteSize =? 16 then TextToBinaryImpl (H := Int128) textValue precision scale
  else if byteSize =? 32 then TextToBinaryImpl (H := Int256) textValue precision scale
  else Crash.

Definition ValidateBinaryValue (binaryDecimal : list byte) (precision scale : Z) : Result () :=
  _ ← CheckDecimalValueSize binaryDecimal precision scale;
  match length binaryDecimal with
  | 4%nat => ValidateDecimalBinaryValueImpl (H := Int32) binaryDecimal precision scale
  | 8%nat => ValidateDecimalBinaryValueImpl (H := Int64) binaryDecimal precision scale
  | 16%nat => ValidateDecimalBinaryValueImpl (H := Int128) binaryDecimal precision scale
  | 32%nat => ValidateDecimalBinaryValueImpl (H := Int256) binaryDecimal precision scale
  | _ => Crash
  end.


(** *** Integers of a wider type *)

Definition WriteBinary128Variadic (precision : Z) (value : Z) (bufferLength : Z) : Result (list byte) :=
  resultLength ← GetValueBinarySize precision;
  let low := wrap_u 64 value in
  if resultLength =? 4 then WriteBinary (H := Int32) precision (wrap_s 32 low) bufferLength
  else if resultLength =? 8 then WriteBinary (H := Int64) precision (wrap_s 64 low) bufferLength
  else if resultLength =? 16 then WriteBinary (H := Int128) precision value bufferLength
  else Throw EInvalidDecimal.

(** The first bytes of the words are read as an integer of the size of the result. *)
Definition WriteBinary256Variadic (precision : Z) (value : TValue256) (bufferLength : Z) : Result (list byte) :=
  resultLength ← GetValueBinarySize precision;
  let memory := ToMemory (DecimalInteger := Int256) value in
  if resultLength =? 4 then WriteBinary (H := Int32) precision (FromMemory (DecimalInteger := Int32) (take 4 memory)) bufferLength
  else if resultLength =? 8 then WriteBinary (H := Int64) precision (FromMemory (DecimalInteger := Int64) (take 8 memory)) bufferLength
  else if resultLength =? 16 then WriteBinary (H := Int128) precision (FromMemory (DecimalInteger := Int128) (take 16 memory)) bufferLength
  else if resultLength =? 32 then WriteBinary (H := Int256) precision value bufferLength
  else Throw EInvalidDecimal.
