(* ===== verification/DecimalIntegers.v ===== *)
(** The integers of decimals: what the conversions rely on, and that the integers of the
    machine and the arithmetic of 256 bits by words satisfy it. *)

From S2P Require Import Prelude YsonLexer Decimal.

(** Big-endian strings. *)
Definition be_value (bytes : list byte) : Z := le_value (rev bytes).
Definition be_bytes (n : nat) (v : Z) : list byte := rev (le_bytes n v).

Definition bits T U `{DecimalInteger T U} : Z := 8 * Z.of_nat (SizeOf (T := T) (U := U)).

(** [sval] and [uval] are the numbers that the integers stand for. *)
Class DecimalLaws (T U : Type) `{D : DecimalInteger T U} := {
  sval : T → Z;
  uval : U → Z;
  ok : T → Prop;
  uok : U → Prop;
  bits_range : 32 <= bits T U <= 256;
  sval_range v : ok v → in_s (bits T U) (sval v);
  uval_range u : uok u → in_u (bits T U) (uval u);
  OfDigit_spec digit : 0 <= digit <= 9 → ok (OfDigit digit) ∧ sval (OfDigit digit) = digit;
  GetNan_spec : ok GetNan ∧ sval GetNan = 2 ^ (bits T U - 1) - 1;
  GetPlusInf_spec : ok GetPlusInf ∧ sval GetPlusInf = 2 ^ (bits T U - 1) - 2;
  Negate_spec v : ok v → ok (Negate v) ∧ sval (Negate v) = wrap_s (bits T U) (- sval v);
  Equal_spec v w : ok v → ok w → Equal v w = (sval v =? sval w);
  LessEqual_spec v w : ok v → ok w → LessEqual v w = (sval v <=? sval w);
  IsNegative_spec v : ok v → IsNegativeInteger v = (sval v <? 0);
  ToUnsigned_spec v : ok v → uok (DecimalIntegerToUnsigned v) ∧ uval (DecimalIntegerToUnsigned v) = wrap_u (bits T U) (sval v);
  ToSigned_spec u : uok u → ok (DecimalIntegerToSigned u) ∧ sval (DecimalIntegerToSigned u) = wrap_s (bits T U) (uval u);
  UnsignedEqual_spec u v : uok u → uok v → UnsignedEqual u v = (uval u =? uval v);
  UnsignedAdd_spec u v : uok u → uok v → uok (UnsignedAdd u v) ∧ uval (UnsignedAdd u v) = wrap_u (bits T U) (uval u + uval v);
  GetNextDigit_spec u : uok u → (GetNextDigit u).1 = uval u mod 10 ∧ uok (GetNextDigit u).2 ∧ uval (GetNextDigit u).2 = uval u / 10;
  MultiplyByTen_spec u : uok u → uok (MultiplyByTen u) ∧ uval (MultiplyByTen u) = wrap_u (bits T U) (uval u * 10);
  decode_spec bytes : length bytes = SizeOf → ok (DecimalBinaryToIntegerUnchecked bytes) ∧ sval (DecimalBinaryToIntegerUnchecked bytes) = be_value bytes - 2 ^ (bits T U - 1);
  encode_spec v : ok v → DecimalIntegerToBinaryUnchecked v = be_bytes SizeOf (sval v + 2 ^ (bits T U - 1));
  max_spec precision : GetDecimalBinaryValueSize precision = Z.of_nat SizeOf → ∃ m, MaxValueTable precision = Ok m ∧ ok m ∧ sval m = 10 ^ precision - 1
}.

(** ** Bytes *)

Lemma le_value_range bytes : 0 <= le_value bytes < 256 ^ Z.of_nat (length bytes).
Proof.
  induction bytes as [|b bytes IH]; [simpl; lia|]. cbn [le_value length]. rewrite Nat2Z.inj_succ, Z.pow_succ_r by lia. pose proof (byte_val_range b). lia.
Qed.

Lemma le_bytes_value bytes : le_bytes (length bytes) (le_value bytes) = bytes.
Proof.
  induction bytes as [|b bytes IH]; [done|]. cbn [length le_bytes le_value]. pose proof (byte_val_range b). f_equal.
  - apply byte_val_inj. rewrite byte_val_of. replace (byte_val b + 256 * le_value bytes) with (byte_val b + le_value bytes * 256) by lia. rewrite Z.mod_add by lia. by apply Z.mod_small.
  - replace (byte_val b + 256 * le_value bytes) with (byte_val b + le_value bytes * 256) by lia. rewrite Z.div_add, Z.div_small by lia. by rewrite Z.add_0_l.
Qed.

Lemma le_value_app b1 b2 : le_value (b1 ++ b2) = le_value b1 + 256 ^ Z.of_nat (length b1) * le_value b2.
Proof. induction b1 as [|b b1 IH]; [simpl; lia|]. cbn [app le_value length]. rewrite IH, Nat2Z.inj_succ, Z.pow_succ_r by lia. lia. Qed.

Lemma le_bytes_app n m v : le_bytes (n + m) v = le_bytes n v ++ le_bytes m (v / 256 ^ Z.of_nat n).
Proof.
  revert v. induction n as [|n IH]; intros v; [simpl; by rewrite Z.div_1_r|]. cbn [Nat.add le_bytes app]. rewrite IH. do 2 f_equal.
  rewrite Nat2Z.inj_succ, Z.pow_succ_r, Z.div_div by lia. done.
Qed.

Lemma le_bytes_mod n v : le_bytes n (v mod 256 ^ Z.of_nat n) = le_bytes n v.
Proof.
  revert v. induction n as [|n IH]; intros v; [done|]. cbn [le_bytes]. rewrite Nat2Z.inj_succ, Z.pow_succ_r by lia. pose proof (Z.pow_pos_nonneg 256 (Z.of_nat n)). rewrite Z.rem_mul_r by lia. f_equal.
  - apply byte_val_inj. rewrite !byte_val_of, (Z.mul_comm 256 (_ mod _)), Z.mod_add by lia. by rewrite Zmod_mod.
  - rewrite <- (IH (v / 256)). f_equal. rewrite (Z.mul_comm 256), Z.div_add by lia. rewrite Z.div_small by (apply Z.mod_pos_bound; lia). by rewrite Z.add_0_l.
Qed.

Lemma byte_swap_value n bytes : length bytes = n → byte_swap n (le_value bytes) = be_value bytes.
Proof. intros <-. unfold byte_swap, be_value. by rewrite le_bytes_value. Qed.

Lemma le_bytes_swap n v : le_bytes n (byte_swap n v) = be_bytes n v.
Proof. unfold byte_swap, be_bytes. rewrite <- (le_bytes_value (rev (le_bytes n v))) at 2. by rewrite length_rev, length_le_bytes. Qed.

Lemma byte_swap_range n v : 0 <= byte_swap n v < 256 ^ Z.of_nat n.
Proof. unfold byte_swap. pose proof (le_value_range (rev (le_bytes n v))) as Hr. by rewrite length_rev, length_le_bytes in Hr. Qed.

Lemma pow_256 n : 256 ^ Z.of_nat n = 2 ^ (8 * Z.of_nat n).
Proof. rewrite Z.pow_mul_r by lia. done. Qed.

(** ** Flipping the highest bit *)

Lemma lxor_top k z : 0 <= k → 0 <= z < 2 ^ k * 2 → Z.lxor z (2 ^ k) = if z <? 2 ^ k then z + 2 ^ k else z - 2 ^ k.
Proof.
  intros Hk Hz. assert (∀ y, 0 <= y < 2 ^ k → Z.lxor y (2 ^ k) = y + 2 ^ k) as Hlow.
  { intros y Hy. symmetry. apply Z.add_nocarry_lxor. apply Z.bits_inj'. intros i Hi. rewrite Z.land_spec, Z.bits_0. destruct (decide (i = k)) as [-> |Hne].
    - assert (Z.testbit y k = false) as ->; [|done]. destruct (Z.eq_dec y 0) as [-> |]; [apply Z.bits_0|]. apply Z.bits_above_log2; [lia|]. apply Z.log2_lt_pow2; lia.
    - rewrite Z.pow2_bits_false by lia. apply andb_false_r. }
  destruct (Z.ltb_spec z (2 ^ k)) as [Hlt|Hge]; [by apply Hlow; lia|]. replace z with (Z.lxor (z - 2 ^ k) (2 ^ k)) at 1 by (rewrite Hlow by lia; lia).
  by rewrite Z.lxor_assoc, Z.lxor_nilpotent, Z.lxor_0_r.
Qed.

Lemma flip_signed w z : 0 < w → in_u w z → wrap_s w (Z.lxor z (2 ^ (w - 1))) = z - 2 ^ (w - 1).
Proof.
  intros Hw Hz. pose proof (pow2_split w Hw) as Hp. unfold in_u in Hz. rewrite lxor_top by lia. destruct (Z.ltb_spec z (2 ^ (w - 1))).
  - unfold wrap_s. rewrite Z.mod_small by lia. destruct (Z.ltb_spec (z + 2 ^ (w - 1)) (2 ^ (w - 1))); lia.
  - apply wrap_s_id; [done|]. unfold in_s. lia.
Qed.

Lemma flip_unsigned w v : 0 < w → in_s w v → Z.lxor (wrap_u w v) (2 ^ (w - 1)) = v + 2 ^ (w - 1).
Proof.
  intros Hw Hv. pose proof (pow2_split w Hw) as Hp. unfold in_s in Hv. pose proof (wrap_u_range w v ltac:(lia)) as Hr. unfold in_u in Hr. rewrite lxor_top by lia. unfold wrap_u in *. destruct (Z.lt_ge_cases v 0) as [Hneg|Hpos].
  - assert (v mod 2 ^ w = v + 2 ^ w) as -> by (rewrite <- (Z.mod_add v 1), Z.mul_1_l, Z.mod_small by lia; done). destruct (Z.ltb_spec (v + 2 ^ w) (2 ^ (w - 1))); lia.
  - rewrite Z.mod_small by lia. destruct (Z.ltb_spec v (2 ^ (w - 1))); lia.
Qed.

Lemma wrap_u_wrap_s w z : 0 < w → wrap_u w (wrap_s w z) = wrap_u w z.
Proof.
  intros Hw. unfold wrap_u, wrap_s. destruct (z mod 2 ^ w <? 2 ^ (w - 1)); [by rewrite Z.mod_mod by lia|]. rewrite <- (Z.mul_1_l (2 ^ w)) at 2. rewrite <- Z.add_opp_r, <- Z.mul_opp_l, Z.mod_add by lia. by rewrite Z.mod_mod by lia.
Qed.

(** ** The integers of the machine *)

Section Native.
Context (n : nat) (hostToInet : Z → Z) (table : Z → Result Z) (Hn : (4 <= n <= 16)%nat).
Context (Hswap : ∀ u, in_u (8 * Z.of_nat n) u → hostToInet u = byte_swap n u).
Context (Htable : ∀ precision, GetDecimalBinaryValueSize precision = Z.of_nat n → table precision = Ok (10 ^ precision - 1) ∧ in_s (8 * Z.of_nat n) (10 ^ precision - 1)).
#[local] Abbreviation w := (8 * Z.of_nat n).
#[local] Abbreviation D := (native n hostToInet table).

Lemma native_flip v : FlipMSB (DecimalInteger := D) v = wrap_s w (Z.lxor (wrap_u w v) (2 ^ (w - 1))).
Proof. cbn [FlipMSB native]. by rewrite Z.shiftl_mul_pow2, Z.mul_1_l by lia. Qed.

Lemma native_decode bytes : length bytes = n → DecimalBinaryToIntegerUnchecked (H := D) bytes = be_value bytes - 2 ^ (w - 1).
Proof.
  intros Hlen. unfold DecimalBinaryToIntegerUnchecked. rewrite native_flip. cbn [DecimalHostToInet FromMemory SizeOf native]. rewrite take_ge by lia. rewrite !wrap_u_wrap_s by lia.
  pose proof (le_value_range bytes) as Hr. rewrite Hlen, pow_256 in Hr. rewrite (wrap_u_id w (le_value bytes)) by done. rewrite Hswap by done. rewrite byte_swap_value by done.
  pose proof (le_value_range (rev bytes)) as Hr'. rewrite length_rev, Hlen, pow_256 in Hr'. rewrite wrap_u_id by done. apply flip_signed; [lia|done].
Qed.

Lemma native_encode v : in_s w v → DecimalIntegerToBinaryUnchecked (H := D) v = be_bytes n (v + 2 ^ (w - 1)).
Proof.
  intros Hv. unfold DecimalIntegerToBinaryUnchecked. rewrite native_flip. cbn [DecimalHostToInet ToMemory SizeOf native]. rewrite !wrap_u_wrap_s by lia. rewrite flip_unsigned by (done || lia).
  pose proof (pow2_split w ltac:(lia)). unfold in_s in Hv. rewrite (wrap_u_id w (v + _)) by (unfold in_u; lia). rewrite Hswap by (unfold in_u; lia).
  rewrite wrap_u_id by (unfold in_u; rewrite <- pow_256; apply byte_swap_range). apply le_bytes_swap.
Qed.

Definition native_laws : DecimalLaws (D := D) Z Z.
Proof.
  assert (2 ^ 31 <= 2 ^ (w - 1)) as Hbig by (apply Z.pow_le_mono_r; lia). pose proof (pow2_split w ltac:(lia)) as Hp.
  refine {| sval := λ v, v; uval := λ u, u; ok := in_s w; uok := in_u w |}; unfold bits; cbn -[Z.mul Z.pow Z.of_nat wrap_s wrap_u Z.div Z.modulo DecimalBinaryToIntegerUnchecked DecimalIntegerToBinaryUnchecked].
  - lia.
  - done.
  - done.
  - intros d Hd. split; [unfold in_s; lia|done].
  - split; [unfold in_s; lia|done].
  - split; [unfold in_s; lia|done].
  - intros v Hv. split; [apply wrap_s_range; lia|done].
  - done.
  - done.
  - done.
  - intros v Hv. split; [apply wrap_u_range; lia|done].
  - intros u Hu. split; [apply wrap_s_range; lia|done].
  - done.
  - intros u v Hu Hv. split; [apply wrap_u_range; lia|done].
  - intros u Hu. split; [done|]. split; [|done]. unfold in_u in *. split; [apply Z.div_pos; lia|]. apply Z.div_lt_upper_bound; lia.
  - intros u Hu. split; [apply wrap_u_range; lia|done].
  - intros bytes Hlen. rewrite native_decode by done. split; [|done]. pose proof (le_value_range (rev bytes)) as Hr. rewrite length_rev, Hlen, pow_256 in Hr. unfold be_value, in_s. lia.
  - intros v Hv. by apply native_encode.
  - intros precision Hsize. destruct (Htable precision Hsize) as [E Hr]. by exists (10 ^ precision - 1).
Defined.
End Native.

Lemma byte_swap_mod n v : byte_swap n (v mod 256 ^ Z.of_nat n) = byte_swap n v.
Proof. unfold byte_swap. by rewrite le_bytes_mod. Qed.

Lemma swap128_spec u : in_u 128 u → swap128 u = byte_swap 16 u.
Proof.
  intros Hu. unfold swap128, byte_swap at 3. rewrite (le_bytes_app 8 8), rev_app_distr, le_value_app, length_rev, length_le_bytes.
  change (256 ^ Z.of_nat 8) with (2 ^ 64). rewrite Z.shiftl_mul_pow2, Z.shiftr_div_pow2 by lia. rewrite Z.lor_comm, lor_low_high; [|lia|exact (byte_swap_range 8 _)].
  unfold wrap_u. change (2 ^ 64) with (256 ^ Z.of_nat 8) at 4. rewrite byte_swap_mod. change (256 ^ Z.of_nat 8) with (2 ^ 64). unfold byte_swap. lia.
Qed.

(** ** The tables *)

Lemma size_cases precision size : GetDecimalBinaryValueSize precision = size → size ≠ 0 →
  (size = 4 ∧ 1 <= precision <= 9) ∨ (size = 8 ∧ 10 <= precision <= 18) ∨ (size = 16 ∧ 19 <= precision <= 38) ∨ (size = 32 ∧ 39 <= precision <= 76).
Proof.
  unfold GetDecimalBinaryValueSize. destruct (Z.gtb_spec precision 0); [|lia]. destruct (Z.leb_spec precision 9); [lia|]. destruct (Z.leb_spec precision 18); [lia|].
  destruct (Z.leb_spec precision 38); [lia|]. destruct (Z.leb_spec precision 76); lia.
Qed.

(** A decidable property of the numbers of an interval, by evaluation. *)
Lemma interval_true (f : Z → bool) low count z : forallb (λ i, f (low + Z.of_nat i)) (seq 0 count) = true → low <= z < low + Z.of_nat count → f z = true.
Proof.
  intros Hall Hz. rewrite forallb_forall in Hall. specialize (Hall (Z.to_nat (z - low))).
  replace z with (low + Z.of_nat (Z.to_nat (z - low))) by lia. apply Hall, in_seq. lia.
Qed.

Lemma interval_spec (P : Z → Prop) `{∀ z, Decision (P z)} low count z : forallb (λ i, bool_decide (P (low + Z.of_nat i))) (seq 0 count) = true →
  low <= z < low + Z.of_nat count → P z.
Proof. intros Hall Hz. apply (bool_decide_unpack (P z)), Is_true_true. exact (interval_true (λ x, bool_decide (P x)) low count z Hall Hz). Qed.

Lemma max32_spec precision : GetDecimalBinaryValueSize precision = Z.of_nat 4 → max32 precision = Ok (10 ^ precision - 1) ∧ in_s 32 (10 ^ precision - 1).
Proof. intros [|[|[|]]]%size_cases; [|lia..]. apply (interval_spec (λ p, max32 p = Ok (10 ^ p - 1) ∧ in_s 32 (10 ^ p - 1)) 1 9); [vm_compute; reflexivity|lia]. Qed.

Lemma max64_spec precision : GetDecimalBinaryValueSize precision = Z.of_nat 8 → max64 precision = Ok (10 ^ precision - 1) ∧ in_s 64 (10 ^ precision - 1).
Proof. intros [|[|[|]]]%size_cases; [lia| |lia..]. apply (interval_spec (λ p, max64 p = Ok (10 ^ p - 1) ∧ in_s 64 (10 ^ p - 1)) 10 9); [vm_compute; reflexivity|lia]. Qed.

Lemma max128_spec precision : GetDecimalBinaryValueSize precision = Z.of_nat 16 → max128 precision = Ok (10 ^ precision - 1) ∧ in_s 128 (10 ^ precision - 1).
Proof. intros [|[|[|]]]%size_cases; [lia..| |lia|lia]. apply (interval_spec (λ p, max128 p = Ok (10 ^ p - 1) ∧ in_s 128 (10 ^ p - 1)) 19 20); [vm_compute; reflexivity|lia]. Qed.

#[export] Instance Int32_laws : DecimalLaws (D := Int32) Z Z := native_laws 4 (byte_swap 4) max32 ltac:(lia) ltac:(done) max32_spec.
#[export] Instance Int64_laws : DecimalLaws (D := Int64) Z Z := native_laws 8 (byte_swap 8) max64 ltac:(lia) ltac:(done) max64_spec.
#[export] Instance Int128_laws : DecimalLaws (D := Int128) Z Z := native_laws 16 swap128 max128 ltac:(lia) swap128_spec max128_spec.

(** ** Numbers by words *)

#[local] Abbreviation base := (2 ^ 32).

Definition value256 (parts : TValue256) : Z := foldr (λ part high, part + base * high) 0 parts.
Definition words_ok (parts : TValue256) : Prop := Forall (in_u 32) parts.
Definition size_of (parts : TValue256) : Z := base ^ Z.of_nat (length parts).

Lemma size_of_cons part parts : size_of (part :: parts) = base * size_of parts.
Proof. unfold size_of. cbn [length]. by rewrite Nat2Z.inj_succ, Z.pow_succ_r by lia. Qed.

Lemma size_of_pos parts : 0 < size_of parts.
Proof. unfold size_of. apply Z.pow_pos_nonneg; lia. Qed.

Lemma value_range parts : words_ok parts → 0 <= value256 parts < size_of parts.
Proof.
  induction 1 as [|part parts Hpart _ IH]; [done|]. rewrite size_of_cons. cbn [value256 foldr]. fold (value256 parts). unfold in_u in Hpart. lia.
Qed.

Lemma value_app low high : value256 (low ++ high) = value256 low + size_of low * value256 high.
Proof.
  induction low as [|part low IH]; [unfold size_of; simpl; lia|]. rewrite size_of_cons. cbn [app value256 foldr]. fold (value256 (low ++ high)) (value256 low). rewrite IH. lia.
Qed.

Lemma value_inj l1 l2 : length l1 = length l2 → words_ok l1 → words_ok l2 → value256 l1 = value256 l2 → l1 = l2.
Proof.
  intros Hlen H1. revert l2 Hlen. induction H1 as [|p1 l1 Hp1 H1 IH]; intros [|p2 l2] Hlen H2 Hv; simplify_eq/=; [done|]. apply list.Forall_cons in H2 as [Hp2 H2].
  fold (value256 l1) (value256 l2) in Hv. unfold in_u in *. assert (value256 l1 = value256 l2) as Hv' by lia. f_equal; [lia|]. by apply IH.
Qed.

(** A low word and the value of the words above it, modulo the size. *)
Lemma mod_words part high size : 0 < size → in_u 32 part → (part + base * high) mod (base * size) = part + base * (high mod size).
Proof.
  intros Hs Hp. unfold in_u in Hp. rewrite Z.rem_mul_r by lia. rewrite (Z.mul_comm base high), Z.mod_add, Z.div_add by lia. rewrite Z.mod_small, Z.div_small by lia. by rewrite Z.add_0_l.
Qed.

Lemma wrap_u_carry x : x = wrap_u 32 x + base * (x / base).
Proof. unfold wrap_u. pose proof (Z.div_mod x base). lia. Qed.

Lemma increment_spec parts : words_ok parts → words_ok (increment parts) ∧ length (increment parts) = length parts ∧ value256 (increment parts) = (value256 parts + 1) mod size_of parts.
Proof.
  induction 1 as [|part parts Hpart Hparts (IHok & IHlen & IH)]; [by repeat constructor|]. rewrite size_of_cons. cbn [increment]. pose proof (size_of_pos parts). pose proof (value_range _ Hparts).
  pose proof (wrap_u_range 32 (part + 1) ltac:(lia)) as Hw. pose proof (wrap_u_carry (part + 1)) as Hc. destruct (Z.eqb_spec (wrap_u 32 (part + 1)) 0) as [E|E].
  - split; [by constructor|]. split; [simpl; by rewrite IHlen|]. cbn [value256 foldr]. fold (value256 parts) (value256 (increment parts)). rewrite IH, E. unfold in_u in *.
    replace (part + base * value256 parts + 1) with (0 + base * (value256 parts + 1)) by lia. rewrite mod_words by (unfold in_u; lia). done.
  - split; [by constructor|]. split; [done|]. cbn [value256 foldr]. fold (value256 parts). unfold in_u in *.
    replace (part + base * value256 parts + 1) with (wrap_u 32 (part + 1) + base * value256 parts) by lia. rewrite mod_words by (unfold in_u; lia). by rewrite Z.mod_small by lia.
Qed.

Lemma lnot_spec parts : words_ok parts → words_ok (map (λ part, wrap_u 32 (Z.lnot part)) parts) ∧ value256 (map (λ part, wrap_u 32 (Z.lnot part)) parts) = size_of parts - 1 - value256 parts.
Proof.
  induction 1 as [|part parts Hpart Hparts [IHok IH]]; [by repeat constructor|]. rewrite size_of_cons. assert (wrap_u 32 (Z.lnot part) = base - 1 - part) as E.
  { unfold in_u in Hpart. unfold wrap_u, Z.lnot. rewrite <- (Z.mod_add _ 1) by lia. rewrite Z.mod_small; lia. }
  split; [constructor; [apply wrap_u_range; lia|done]|]. cbn [map value256 foldr]. fold (value256 parts). fold (value256 (map (λ part, wrap_u 32 (Z.lnot part)) parts)). rewrite IH, E. lia.
Qed.

Lemma negate256_spec parts : words_ok parts → words_ok (negate256 parts) ∧ length (negate256 parts) = length parts ∧ value256 (negate256 parts) = (- value256 parts) mod size_of parts.
Proof.
  intros Hok. destruct (lnot_spec parts Hok) as [Hn Hv]. unfold negate256. destruct (increment_spec _ Hn) as (Hi & Hlen & Hvi). rewrite length_map in Hlen. split; [done|]. split; [done|].
  rewrite Hvi, Hv. unfold size_of. rewrite length_map. fold (size_of parts). pose proof (size_of_pos parts). replace (_ - 1 - _ + 1) with (- value256 parts + 1 * size_of parts) by lia. by rewrite Z.mod_add by lia.
Qed.

Lemma add_parts_spec carry lhs rhs : length lhs = length rhs → 0 <= carry <= 1 → words_ok lhs → words_ok rhs →
  words_ok (add_parts carry lhs rhs) ∧ length (add_parts carry lhs rhs) = length lhs ∧ value256 (add_parts carry lhs rhs) = (carry + value256 lhs + value256 rhs) mod size_of lhs.
Proof.
  intros Hlen Hc Hl. revert carry rhs Hlen Hc. induction Hl as [|l lhs Hl Hlhs IH]; intros carry [|r rhs] Hlen Hc Hr; try discriminate; [split; [constructor|]; split; [done|]; by rewrite Z.mod_1_r|].
  apply list.Forall_cons in Hr as [Hr Hrhs]. injection Hlen as Hlen. cbn [add_parts]. unfold in_u in *. rewrite (wrap_u_id 64) by (unfold in_u; lia). rewrite Z.shiftr_div_pow2 by lia.
  assert (0 <= (carry + l + r) / base <= 1) as Hq by (split; [apply Z.div_pos; lia|apply Z.lt_succ_r, Z.div_lt_upper_bound; lia]).
  destruct (IH _ rhs Hlen Hq Hrhs) as (Hok & Hl' & Hv). split; [constructor; [apply wrap_u_range; lia|done]|]. split; [simpl; by rewrite Hl'|].
  rewrite size_of_cons. cbn [value256 foldr]. fold (value256 lhs) (value256 rhs). fold (value256 (add_parts ((carry + l + r) / base) lhs rhs)). rewrite Hv. pose proof (wrap_u_carry (carry + l + r)) as Hw. pose proof (size_of_pos lhs).
  rewrite <- mod_words by (done || apply wrap_u_range; lia). f_equal. lia.
Qed.

Lemma shift_parts_spec shift below parts : 0 < shift < 32 → in_u 32 below → words_ok parts →
  words_ok (shift_parts shift below parts) ∧ length (shift_parts shift below parts) = length parts ∧
  value256 (shift_parts shift below parts) = (below / 2 ^ (32 - shift) + value256 parts * 2 ^ shift) mod size_of parts.
Proof.
  intros Hs Hb Hok. revert below Hb. induction Hok as [|part parts Hpart Hparts IH]; intros below Hb; [split; [constructor|]; split; [done|]; by rewrite Z.mod_1_r|]. destruct (IH part Hpart) as (Hok' & Hlen & Hv).
  assert (base = 2 ^ shift * 2 ^ (32 - shift)) as Hbase by (rewrite <- Z.pow_add_r by lia; f_equal; lia).
  pose proof (Z.pow_pos_nonneg 2 shift). pose proof (Z.pow_pos_nonneg 2 (32 - shift)). assert (in_u shift (below / 2 ^ (32 - shift))) as Hlow.
  { unfold in_u in *. split; [apply Z.div_pos; lia|]. apply Z.div_lt_upper_bound; lia. }
  assert (wrap_u 32 (Z.shiftl part shift) = (part mod 2 ^ (32 - shift)) * 2 ^ shift) as Ew.
  { unfold wrap_u. rewrite Z.shiftl_mul_pow2 by lia. rewrite Hbase, (Z.mul_comm (2 ^ shift)). apply Z.mul_mod_distr_r; lia. }
  cbn [shift_parts]. rewrite Ew, Z.shiftr_div_pow2, Z.lor_comm, lor_low_high by (done || lia).
  assert (in_u 32 (below / 2 ^ (32 - shift) + part mod 2 ^ (32 - shift) * 2 ^ shift)) as Hword.
  { unfold in_u in *. pose proof (Z.mod_pos_bound part (2 ^ (32 - shift)) ltac:(lia)). rewrite Hbase. nia. }
  split; [by constructor|]. split; [simpl; by rewrite Hlen|]. rewrite size_of_cons. cbn [value256 foldr]. fold (value256 parts). fold (value256 (shift_parts shift part parts)). rewrite Hv. pose proof (size_of_pos parts).
  rewrite <- mod_words by done. f_equal. pose proof (Z.div_mod part (2 ^ (32 - shift)) ltac:(lia)). rewrite Hbase. nia.
Qed.

(** From the highest word down. *)
Definition down_value (parts : list Z) : Z := value256 (rev parts).

Lemma size_of_rev parts : size_of (rev parts) = size_of parts.
Proof. unfold size_of. by rewrite length_rev. Qed.

Lemma down_value_cons part parts : down_value (part :: parts) = down_value parts + size_of parts * part.
Proof. unfold down_value. cbn [rev]. rewrite value_app, size_of_rev. cbn. lia. Qed.

Lemma words_ok_rev parts : words_ok parts → words_ok (rev parts).
Proof. apply Forall_rev. Qed.

Lemma down_value_range parts : words_ok parts → 0 <= down_value parts < size_of parts.
Proof. intros Hok. rewrite <- size_of_rev. by apply value_range, words_ok_rev. Qed.

Lemma divide_parts_spec remainder parts : 0 <= remainder <= 9 → words_ok parts → ∃ quotients rest, divide_parts remainder parts = (quotients, rest) ∧
  words_ok quotients ∧ length quotients = length parts ∧ 0 <= rest <= 9 ∧ remainder * size_of parts + down_value parts = 10 * down_value quotients + rest.
Proof.
  intros Hr Hok. revert remainder Hr. induction Hok as [|part parts Hpart Hparts IH]; intros remainder Hr.
  { exists [], remainder. split; [done|]. split; [constructor|]. split; [done|]. split; [done|]. change (size_of []) with 1. change (down_value []) with 0. lia. }
  cbn [divide_parts]. rewrite Z.shiftl_mul_pow2 by lia. set (dividend := part + remainder * base). pose proof (Z.mod_pos_bound dividend 10 ltac:(lia)). pose proof (Z.div_mod dividend 10 ltac:(lia)).
  destruct (IH (dividend mod 10) ltac:(lia)) as (quotients & rest & -> & Hq & Hlen & Hrest & Hv). unfold in_u in Hpart.
  assert (in_u 32 (dividend / 10)) as Hd by (unfold in_u; subst dividend; split; [apply Z.div_pos; lia|apply Z.div_lt_upper_bound; lia]).
  rewrite wrap_u_id by done. exists (dividend / 10 :: quotients), rest. split; [done|]. split; [by constructor|]. split; [simpl; by rewrite Hlen|]. split; [done|].
  rewrite !down_value_cons, size_of_cons. replace (size_of quotients) with (size_of parts) by (unfold size_of; by rewrite Hlen). subst dividend. nia.
Qed.

Lemma next_digit256_spec parts : words_ok parts → (next_digit256 parts).1 = value256 parts mod 10 ∧ words_ok (next_digit256 parts).2 ∧
  length (next_digit256 parts).2 = length parts ∧ value256 (next_digit256 parts).2 = value256 parts / 10.
Proof.
  intros Hok. unfold next_digit256. destruct (divide_parts_spec 0 (rev parts) ltac:(lia) (words_ok_rev _ Hok)) as (quotients & rest & -> & Hq & Hlen & Hrest & Hv). cbn [fst snd].
  unfold down_value in Hv. rewrite rev_involutive, Z.mul_0_l, Z.add_0_l in Hv. rewrite length_rev in Hlen. split; [|split; [by apply words_ok_rev|split; [by rewrite length_rev|]]].
  - rewrite Hv, (Z.mul_comm 10), Z.add_comm, Z.mod_add, Z.mod_small by lia. done.
  - rewrite Hv, (Z.mul_comm 10), Z.add_comm, Z.div_add, Z.div_small by lia. lia.
Qed.

Lemma compare_parts_spec lhs rhs : length lhs = length rhs → words_ok lhs → words_ok rhs → compare_parts lhs rhs = Z.compare (down_value lhs) (down_value rhs).
Proof.
  intros Hlen Hl. revert rhs Hlen. induction Hl as [|l lhs Hl Hlhs IH]; intros [|r rhs] Hlen Hr; try discriminate; [done|]. apply list.Forall_cons in Hr as [Hr Hrhs]. injection Hlen as Hlen.
  rewrite !down_value_cons. pose proof (down_value_range _ Hlhs). pose proof (down_value_range _ Hrhs). replace (size_of rhs) with (size_of lhs) in * by (unfold size_of; by rewrite Hlen).
  cbn [compare_parts]. destruct (Z.eqb_spec l r) as [-> |Hne]; cbn [negb].
  - rewrite IH by done. destruct (Z.compare_spec (down_value lhs) (down_value rhs)); symmetry; [apply Z.compare_eq_iff|apply Z.compare_lt_iff|apply Z.compare_gt_iff]; lia.
  - destruct (Z.compare_spec l r); [done|..]; symmetry; [apply Z.compare_lt_iff|apply Z.compare_gt_iff]; nia.
Qed.

(** ** 256 bits *)

Definition ok256 (parts : TValue256) : Prop := length parts = 8%nat ∧ words_ok parts.
Definition sval256 (parts : TValue256) : Z := wrap_s 256 (value256 parts).

Lemma ok256_size parts : ok256 parts → size_of parts = 2 ^ 256.
Proof. intros [Hlen _]. unfold size_of. by rewrite Hlen. Qed.

Lemma ok256_range parts : ok256 parts → in_u 256 (value256 parts).
Proof. intros Hok. pose proof (value_range parts (proj2 Hok)) as Hr. by rewrite ok256_size in Hr. Qed.

Lemma ok256_split parts : ok256 parts → ∃ low top, parts = low ++ [top] ∧ length low = 7%nat ∧ words_ok low ∧ in_u 32 top ∧ back parts = top ∧ value256 parts = value256 low + 2 ^ 224 * top ∧ 0 <= value256 low < 2 ^ 224.
Proof.
  intros [Hlen Hok]. destruct (exists_last (l := parts)) as (low & top & ->); [by destruct parts|]. rewrite length_app in Hlen. cbn in Hlen. assert (length low = 7%nat) as Hlow by lia.
  apply list.Forall_app in Hok as [Hok Htop]. apply list.Forall_cons in Htop as [Htop _]. exists low, top. pose proof (value_range _ Hok) as Hr. unfold size_of in Hr. rewrite Hlow in Hr.
  split; [done|]. split; [done|]. split; [exact Hok|]. split; [exact Htop|]. split; [apply last_last|]. split; [|done]. rewrite value_app. unfold size_of. rewrite Hlow. cbn [value256 foldr]. change (base ^ Z.of_nat 7) with (2 ^ 224). lia.
Qed.

Lemma negative256_spec parts : ok256 parts → negative256 parts = (sval256 parts <? 0).
Proof.
  intros Hok. destruct (ok256_split parts Hok) as (low & top & -> & Hlen & Hlow & Htop & Eb & Hv & Hr). unfold negative256, sval256, wrap_s. rewrite Eb, Hv. unfold in_u in Htop.
  rewrite (Z.mod_small _ (2 ^ 256)) by lia. rewrite Z.shiftl_1_l. assert (Z.land top (2 ^ 31) = if top <? 2 ^ 31 then 0 else 2 ^ 31) as ->.
  { pose proof (lxor_top 31 top ltac:(lia) ltac:(lia)) as Hx. pose proof (Z.lxor_lor top (2 ^ 31)) as _. pose proof (Z.add_lor_land top (2 ^ 31)) as Ha. pose proof (Z.add_lxor_2land top (2 ^ 31)) as Hb. destruct (top <? 2 ^ 31); lia. }
  destruct (Z.ltb_spec top (2 ^ 31)), (Z.ltb_spec (value256 low + 2 ^ 224 * top) (2 ^ (256 - 1))); cbn [negb Z.eqb]; symmetry; (apply Z.ltb_lt || apply Z.ltb_ge); lia.
Qed.

Lemma sval256_cases parts : ok256 parts → (sval256 parts < 0 ∧ value256 parts = sval256 parts + 2 ^ 256) ∨ (0 <= sval256 parts ∧ value256 parts = sval256 parts).
Proof.
  intros Hok. pose proof (ok256_range _ Hok) as Hr. unfold in_u in Hr. unfold sval256, wrap_s. rewrite Z.mod_small by lia. destruct (Z.ltb_spec (value256 parts) (2 ^ (256 - 1))); lia.
Qed.

Lemma compare256_spec lhs rhs : ok256 lhs → ok256 rhs → compare256 lhs rhs = Z.compare (sval256 lhs) (sval256 rhs).
Proof.
  intros Hl Hr. unfold compare256. rewrite !negative256_spec by done. rewrite compare_parts_spec; [|rewrite !length_rev; destruct Hl, Hr; congruence|apply words_ok_rev, Hl|apply words_ok_rev, Hr].
  unfold down_value. rewrite !rev_involutive. pose proof (ok256_range _ Hl) as Rl. pose proof (ok256_range _ Hr) as Rr. unfold in_u in *.
  destruct (sval256_cases _ Hl) as [[L1 L2]|[L1 L2]], (sval256_cases _ Hr) as [[R1 R2]|[R1 R2]]; rewrite L2, R2;
    destruct (Z.ltb_spec (sval256 lhs) 0), (Z.ltb_spec (sval256 rhs) 0); try lia; cbn [andb negb]; symmetry.
  - rewrite !(Z.add_comm _ (2 ^ 256)). symmetry. apply Zcompare_plus_compat.
  - by apply Z.compare_lt_iff; lia.
  - by apply Z.compare_gt_iff; lia.
  - done.
Qed.

Lemma flip256_spec parts : ok256 parts → ok256 (flip256 parts) ∧ value256 (flip256 parts) = sval256 parts + 2 ^ 255 ∧ sval256 (flip256 parts) = value256 parts - 2 ^ 255.
Proof.
  intros Hok. pose proof (sval256_cases _ Hok) as Hs. destruct (ok256_split parts Hok) as (low & top & -> & Hlen & Hlow & Htop & Eb & Hv & Hr). unfold flip256. rewrite Eb.
  assert (∀ x, <[7%nat := x]> (low ++ [top]) = low ++ [x]) as -> by (intros x; rewrite <- Hlen, <- (Nat.add_0_r (length low)); exact (insert_app_r low [top] 0%nat x)). rewrite Z.shiftl_1_l, lxor_top by (unfold in_u in Htop; lia).
  unfold in_u in Htop. set (flipped := if top <? 2 ^ 31 then top + 2 ^ 31 else top - 2 ^ 31). assert (0 <= flipped < 2 ^ 32) as Hf by (subst flipped; destruct (Z.ltb_spec top (2 ^ 31)); lia).
  assert (value256 (low ++ [flipped]) = value256 low + 2 ^ 224 * flipped) as Hv'.
  { rewrite value_app. unfold size_of. rewrite Hlen. cbn [value256 foldr]. change (base ^ Z.of_nat 7) with (2 ^ 224). lia. }
  assert (value256 (low ++ [flipped]) = if top <? 2 ^ 31 then value256 (low ++ [top]) + 2 ^ 255 else value256 (low ++ [top]) - 2 ^ 255) as Hf'.
  { rewrite Hv', Hv. subst flipped. destruct (top <? 2 ^ 31); lia. }
  pose proof (ok256_range _ Hok) as Rv. unfold in_u in Rv. split; [|split].
  - split; [rewrite length_app, Hlen; done|]. apply list.Forall_app. split; [done|]. constructor; [done|constructor].
  - rewrite Hf'. unfold sval256, wrap_s. rewrite Z.mod_small by lia. destruct (Z.ltb_spec top (2 ^ 31)), (Z.ltb_spec (value256 (low ++ [top])) (2 ^ (256 - 1))); lia.
  - unfold sval256 at 1, wrap_s. rewrite Hf'. destruct (Z.ltb_spec top (2 ^ 31)); rewrite Z.mod_small by lia; [destruct (Z.ltb_spec (value256 (low ++ [top]) + 2 ^ 255) (2 ^ (256 - 1))) | destruct (Z.ltb_spec (value256 (low ++ [top]) - 2 ^ 255) (2 ^ (256 - 1)))]; lia.
Qed.

(** *** Bytes and words *)

Lemma words_spec n bytes : length bytes = (4 * n)%nat → length (swap256 (words n bytes)) = n ∧ words_ok (swap256 (words n bytes)) ∧ value256 (swap256 (words n bytes)) = be_value bytes.
Proof.
  revert bytes. induction n as [|n IH]; intros bytes Hlen; [destruct bytes; [|discriminate]; split; [done|split; [constructor|done]]|].
  destruct (IH (drop 4 bytes)) as (Hl & Hok & Hv); [rewrite length_drop; lia|]. assert (length (take 4 bytes) = 4%nat) as Ht by (rewrite length_take; lia).
  unfold swap256 in *. cbn [words map rev]. rewrite byte_swap_value by done. pose proof (le_value_range (rev (take 4 bytes))) as Hr. rewrite length_rev, Ht in Hr. split; [|split].
  - rewrite length_app, Hl. simpl. lia.
  - apply list.Forall_app. split; [done|]. constructor; [exact Hr|constructor].
  - rewrite value_app, Hv. unfold size_of. rewrite Hl. rewrite <- (take_drop 4 bytes) at 3. unfold be_value. rewrite rev_app_distr, le_value_app, length_rev, length_drop, Hlen.
    cbn [value256 foldr]. rewrite Z.mul_0_r, Z.add_0_r. replace (256 ^ Z.of_nat (4 * S n - 4)) with (base ^ Z.of_nat n); [done|]. change base with (256 ^ 4). rewrite <- Z.pow_mul_r by lia. f_equal. lia.
Qed.

Lemma be_bytes_words parts : words_ok parts → concat (map (le_bytes 4) (swap256 parts)) = be_bytes (4 * length parts) (value256 parts).
Proof.
  unfold swap256. induction 1 as [|part parts Hpart _ IH]; [done|]. cbn [map rev]. rewrite map_app, concat_app, IH. cbn [map concat]. rewrite app_nil_r, le_bytes_swap. unfold be_bytes.
  replace (4 * length (part :: parts))%nat with (4 + 4 * length parts)%nat by (simpl; lia). rewrite le_bytes_app, rev_app_distr. cbn [value256 foldr]. fold (value256 parts). f_equal.
  - f_equal. f_equal. change (256 ^ Z.of_nat 4) with base. rewrite (Z.mul_comm base), Z.div_add, Z.div_small by (done || lia). lia.
  - f_equal. rewrite <- (le_bytes_mod 4 (part + _)). change (256 ^ Z.of_nat 4) with base. rewrite (Z.mul_comm base), Z.mod_add, Z.mod_small by (done || lia). done.
Qed.

Lemma max256_spec precision : GetDecimalBinaryValueSize precision = Z.of_nat 32 → ∃ m, max256 precision = Ok m ∧ ok256 m ∧ sval256 m = 10 ^ precision - 1.
Proof.
  intros [|[|[|]]]%size_cases; [lia..| |lia].
  assert (match max256 precision with Ok m => bool_decide (length m = 8%nat ∧ Forall (in_u 32) m) && (sval256 m =? 10 ^ precision - 1) | _ => false end = true) as Hm.
  { apply (interval_true (λ p, match max256 p with Ok m => bool_decide (length m = 8%nat ∧ Forall (in_u 32) m) && (sval256 m =? 10 ^ p - 1) | _ => false end) 39 38);
      [vm_compute; reflexivity|lia]. }
  destruct (max256 precision) as [m|e| |]; [|done..]. apply andb_true_iff in Hm as [Hok%bool_decide_eq_true Hv%Z.eqb_eq]. by exists m.
Qed.

Lemma closed256 parts z : bool_decide (length parts = 8%nat ∧ Forall (in_u 32) parts) = true → (value256 parts =? z) = true → in_s 256 z → ok256 parts ∧ value256 parts = z ∧ sval256 parts = z.
Proof.
  intros Hok Hv Hz. apply bool_decide_eq_true in Hok. apply Z.eqb_eq in Hv. split; [exact Hok|]. split; [done|]. unfold sval256. rewrite Hv. apply wrap_s_id; [lia|done].
Qed.

Lemma equal256_spec v w : ok256 v → ok256 w → equal256 v w = (value256 v =? value256 w).
Proof.
  intros [Lv Ov] [Lw Ow]. unfold equal256. apply eq_true_iff_eq. rewrite bool_decide_eq_true, Z.eqb_eq. split; [by intros ->|]. apply value_inj; congruence.
Qed.

Lemma sval256_eqb v w : ok256 v → ok256 w → (value256 v =? value256 w) = (sval256 v =? sval256 w).
Proof.
  intros Hv Hw. pose proof (sval256_cases _ Hv). pose proof (sval256_cases _ Hw). pose proof (ok256_range _ Hv) as Rv. pose proof (ok256_range _ Hw) as Rw. unfold in_u in *.
  pose proof (wrap_s_range 256 (value256 v) ltac:(lia)) as Sv. pose proof (wrap_s_range 256 (value256 w) ltac:(lia)) as Sw. fold (sval256 v) (sval256 w) in *. unfold in_s in *.
  apply eq_true_iff_eq. rewrite !Z.eqb_eq. lia.
Qed.

Lemma sval256_wrap v : ok256 v → value256 v = wrap_u 256 (sval256 v).
Proof. intros Hv. unfold sval256. rewrite wrap_u_wrap_s by lia. symmetry. by apply wrap_u_id, ok256_range. Qed.

Lemma MultiplyByTen256_spec v : ok256 v → ok256 (ShiftUp 1 (add_parts 0 (ShiftUp 2 v) v)) ∧ value256 (ShiftUp 1 (add_parts 0 (ShiftUp 2 v) v)) = wrap_u 256 (value256 v * 10).
Proof.
  intros Hv. pose proof (ok256_size _ Hv) as Hs. destruct Hv as [Lv Ov]. unfold ShiftUp. destruct (shift_parts_spec 2 0 v ltac:(lia) ltac:(by unfold in_u) Ov) as (O2 & L2 & V2).
  destruct (add_parts_spec 0 (shift_parts 2 0 v) v L2 ltac:(lia) O2 Ov) as (Oa & La & Va). destruct (shift_parts_spec 1 0 _ ltac:(lia) ltac:(by unfold in_u) Oa) as (O1 & L1 & V1).
  split; [split; [congruence|done]|]. rewrite V1, Va, V2. unfold size_of in *. rewrite La, L2, Hs. unfold wrap_u. rewrite !Z.div_0_l, !Z.add_0_l by lia.
  rewrite Zplus_mod_idemp_l, Zmult_mod_idemp_l. f_equal. lia.
Qed.

#[export] Instance Int256_laws : DecimalLaws (D := Int256) TValue256 TValue256.
Proof.
  refine {| sval := sval256; uval := value256; ok := ok256; uok := ok256 |}; unfold bits; change (8 * Z.of_nat SizeOf) with 256;
    cbn -[Z.mul Z.pow Z.of_nat wrap_s wrap_u Z.div Z.modulo DecimalBinaryToIntegerUnchecked DecimalIntegerToBinaryUnchecked value256 sval256 Parts8 max256 Z.sub ok256].
  - lia.
  - intros v Hv. apply wrap_s_range. lia.
  - apply ok256_range.
  - intros digit Hd. assert (ok256 (Parts8 (λ i, if Nat.eqb i 0 then digit else 0))) as Hok by (split; [done|]; repeat (constructor; [unfold in_u; simpl; lia|]); constructor).
    split; [done|]. unfold sval256. replace (value256 _) with digit by (cbn [Parts8 seq map value256 foldr Nat.eqb]; lia). apply wrap_s_id; [lia|unfold in_s; lia].
  - destruct (closed256 (Parts8 (λ i, if Nat.eqb i 7 then 2 ^ 31 - 1 else 2 ^ 32 - 1)) (2 ^ (256 - 1) - 1)) as (? & _ & ?); [vm_compute; reflexivity..|unfold in_s; lia|done].
  - destruct (closed256 (Parts8 (λ i, if Nat.eqb i 7 then 2 ^ 31 - 1 else if Nat.eqb i 0 then 2 ^ 32 - 2 else 2 ^ 32 - 1)) (2 ^ (256 - 1) - 2)) as (? & _ & ?); [vm_compute; reflexivity..|unfold in_s; lia|done].
  - intros v Hv. destruct (negate256_spec v (proj2 Hv)) as (Ho & Hl & E). rewrite ok256_size in E by done. split; [split; [destruct Hv; congruence|done]|].
    unfold sval256 at 1. rewrite E, (sval256_wrap v) by done. fold (wrap_u 256 (- wrap_u 256 (sval256 v))). rewrite wrap_s_wrap_u by lia. unfold wrap_s, wrap_u. by rewrite <- !Z.sub_0_l, !Zminus_mod_idemp_r.
  - intros v w Hv Hw. rewrite equal256_spec by done. by apply sval256_eqb.
  - intros v w Hv Hw. rewrite compare256_spec by done. unfold Z.leb. by destruct (sval256 v ?= sval256 w).
  - intros v Hv. by apply negative256_spec.
  - intros v Hv. split; [done|]. by apply sval256_wrap.
  - intros v Hv. done.
  - intros v w. apply equal256_spec.
  - intros u v Hu Hv. destruct (add_parts_spec 0 u v ltac:(destruct Hu, Hv; congruence) ltac:(lia) (proj2 Hu) (proj2 Hv)) as (Ho & Hl & E). split; [split; [destruct Hu; congruence|done]|].
    by rewrite E, ok256_size, Z.add_0_l.
  - intros u Hu. destruct (next_digit256_spec u (proj2 Hu)) as (E1 & Ho & Hl & E2). split; [done|]. split; [|done]. split; [destruct Hu; congruence|done].
  - intros u Hu. by apply MultiplyByTen256_spec.
  - intros bytes Hlen. unfold DecimalBinaryToIntegerUnchecked. cbn [FlipMSB DecimalHostToInet FromMemory SizeOf Int256]. rewrite take_ge by lia. destruct (words_spec 8 bytes Hlen) as (Hl & Ho & E).
    destruct (flip256_spec (swap256 (words 8 bytes))) as (Hf & _ & Ef); [done|]. split; [done|]. by rewrite Ef, E.
  - intros v Hv. unfold DecimalIntegerToBinaryUnchecked. cbn [FlipMSB DecimalHostToInet ToMemory Int256]. destruct (flip256_spec v Hv) as ([Lf Of] & Ef & _). rewrite be_bytes_words by done. by rewrite Lf, Ef.
  - apply max256_spec.
Defined.
