(* ===== verification/DecimalText.v ===== *)
(** Decimals as text, as binary strings and as numbers: the conversions against a reference
    reading of the texts, the round trip, the order of binary strings and validation. *)

From S2P Require Import Prelude YsonLexer IntCast Compare Decimal DecimalIntegers.
Import TBasicIntParser.

(** ** What decimals mean *)

(** A number is counted in units of the last digit of its scale. *)
Inductive decimal : Set := MinusInfinity | Number (v : Z) | Infinity | NotANumber.

#[export] Instance decimal_eq_dec : EqDecision decimal.
Proof. solve_decision. Defined.

(** The integer of [w] bits that stands for a decimal. *)
Definition code (w : Z) (d : decimal) : Z :=
  match d with MinusInfinity => - (2 ^ (w - 1) - 2) | Number v => v | Infinity => 2 ^ (w - 1) - 2 | NotANumber => 2 ^ (w - 1) - 1 end.

Definition decimal_of_code (w z : Z) : decimal :=
  if z =? - (2 ^ (w - 1) - 2) then MinusInfinity
  else if z =? 2 ^ (w - 1) - 2 then Infinity
  else if z =? 2 ^ (w - 1) - 1 then NotANumber
  else Number z.

Definition width (bytes : list byte) : Z := 8 * Z.of_nat (length bytes).

(** A binary string is its integer plus half of the range, the highest byte first. *)
Definition decimal_of_bytes (bytes : list byte) : decimal := decimal_of_code (width bytes) (be_value bytes - 2 ^ (width bytes - 1)).
Definition bytes_of_decimal (size : nat) (d : decimal) : list byte := be_bytes size (code (8 * Z.of_nat size) d + 2 ^ (8 * Z.of_nat size - 1)).

(** *** The reference reading of a text *)

(** What is before the first point and what is behind it. *)
Fixpoint split_point (text : list byte) : list byte * list byte :=
  match text with
  | [] => ([], [])
  | ch :: text => if Byte.eqb ch "."%byte then ([], text) else let '(whole, fraction) := split_point text in (ch :: whole, fraction)
  end.

Definition number_of_text (precision scale : Z) (text : list byte) : option Z :=
  let '(whole, fraction) := split_point text in
  match digits_value 10 (whole ++ fraction) with
  | Some v => if (Z.of_nat (length fraction) <=? scale) && (Z.of_nat (length whole) + scale <=? precision) then Some (v * 10 ^ (scale - Z.of_nat (length fraction))) else None
  | None => None
  end.

Definition lower (ch : byte) : byte := if (65 <=? byte_val ch) && (byte_val ch <=? 90) then byte_of (byte_val ch + 32) else ch.

Definition unsigned_decimal (negative : bool) (precision scale : Z) (text : list byte) : option decimal :=
  if bool_decide (text = []) then None
  else if bool_decide (map lower text = B"inf") then Some (if negative then MinusInfinity else Infinity)
  else if bool_decide (map lower text = B"nan") then (if negative then None else Some NotANumber)
  else match number_of_text precision scale text with Some v => Some (Number (if negative then - v else v)) | None => None end.

Definition decimal_of_text (precision scale : Z) (text : list byte) : option decimal :=
  match text with
  | [] => None
  | first :: rest => unsigned_decimal (Byte.eqb first "-"%byte) precision scale (if Byte.eqb first "-"%byte || Byte.eqb first "+"%byte then rest else text)
  end.

(** *** The texts that are printed *)

Definition no_leading_zero (whole : list byte) : Prop := length whole = 1%nat ∨ ∃ ch rest, whole = ch :: rest ∧ ch ≠ "0"%byte.

Definition Shows (scale : Z) (d : decimal) (text : list byte) : Prop :=
  match d with
  | MinusInfinity => text = B"-inf"
  | Infinity => text = B"inf"
  | NotANumber => text = B"nan"
  | Number v => ∃ whole fraction, text = (if v <? 0 then B"-" else []) ++ whole ++ (if scale >? 0 then B"." ++ fraction else []) ∧
      no_leading_zero whole ∧ Z.of_nat (length fraction) = scale ∧ digits_value 10 (whole ++ fraction) = Some (Z.abs v)
  end.

(** ** Digits *)

Definition is_digit (d : Z) : Prop := 0 <= d <= 9.

Lemma addDigit_char {T U} `{DecimalInteger T U} ch u : addDigit ch u = match CharToDigit 10 ch with Some d => Ok (UnsignedAdd (MultiplyByTen u) (DecimalIntegerToUnsigned (OfDigit d))) | None => Throw EInvalidDecimal end.
Proof. destruct ch; reflexivity. Qed.

Definition low_value (ds : list Z) : Z := foldr (λ d high, d + 10 * high) 0 ds.

Lemma low_value_app l h : low_value (l ++ h) = low_value l + 10 ^ Z.of_nat (length l) * low_value h.
Proof.
  induction l as [|d l IH]; [change (10 ^ Z.of_nat (length [])) with 1; simpl; lia|]. cbn [app low_value foldr length]. fold (low_value (l ++ h)) (low_value l). rewrite IH, Nat2Z.inj_succ, Z.pow_succ_r by lia. lia.
Qed.

Lemma low_value_zeros n : low_value (repeat 0 n) = 0.
Proof. induction n as [|n IH]; [done|]. cbn [repeat low_value foldr]. fold (low_value (repeat 0 n)). lia. Qed.

Lemma low_value_range ds : Forall is_digit ds → 0 <= low_value ds < 10 ^ Z.of_nat (length ds).
Proof.
  induction 1 as [|d ds Hd _ IH]; [done|]. cbn [low_value foldr length]. fold (low_value ds). rewrite Nat2Z.inj_succ, Z.pow_succ_r by lia. unfold is_digit in Hd. lia.
Qed.

Lemma CharToDigit_digit d : is_digit d → CharToDigit 10 (digit_char d) = Some d.
Proof. unfold is_digit, digit_char. intros Hd. rewrite Z.add_comm. apply CharToDigit_dec. lia. Qed.

Lemma digits_text ds : Forall is_digit ds → digits_value 10 (map digit_char (rev ds)) = Some (low_value ds).
Proof.
  unfold digits_value. induction 1 as [|d ds Hd _ IH]; [done|]. cbn [rev]. rewrite map_app, value_from_app, IH. cbn [mbind option_bind map value_from]. rewrite CharToDigit_digit by done.
  cbn [low_value foldr]. fold (low_value ds). f_equal. lia.
Qed.

Lemma digit_char_zero d : is_digit d → digit_char d = "0"%byte → d = 0.
Proof. intros Hd E. pose proof (CharToDigit_digit d Hd) as Hc. rewrite E in Hc. by injection Hc. Qed.

Lemma value_from_lower acc ds v : 0 <= acc → value_from 10 acc ds = Some v → acc * 10 ^ Z.of_nat (length ds) <= v.
Proof.
  revert acc. induction ds as [|c ds IH]; intros acc Ha Hv; [injection Hv as <-; change (10 ^ Z.of_nat (length [])) with 1; lia|].
  cbn [value_from] in Hv. destruct (CharToDigit 10 c) as [d|] eqn:E; [|done]. pose proof (CharToDigit_range 10 c d ltac:(lia) E). cbn [length]. rewrite Nat2Z.inj_succ, Z.pow_succ_r by lia.
  specialize (IH (acc * 10 + d) ltac:(lia) Hv). pose proof (Z.pow_pos_nonneg 10 (Z.of_nat (length ds))). nia.
Qed.

(** A text of digits without a superfluous zero has as many digits as the number needs. *)
Lemma leading_digit ch rest v : ch ≠ "0"%byte → digits_value 10 (ch :: rest) = Some v → 10 ^ Z.of_nat (length rest) <= v.
Proof.
  intros Hch Hv. unfold digits_value in Hv. cbn [value_from] in Hv. destruct (CharToDigit 10 ch) as [d|] eqn:E; [|done].
  assert (1 <= d) as Hd by (pose proof (CharToDigit_range 10 ch d ltac:(lia) E); destruct (decide (d = 0)) as [-> |]; [destruct ch; done|lia]).
  apply value_from_lower in Hv; [|lia]. pose proof (Z.pow_pos_nonneg 10 (Z.of_nat (length rest))). nia.
Qed.

Lemma digits_value_range ds v : digits_value 10 ds = Some v → 0 <= v < 10 ^ Z.of_nat (length ds).
Proof.
  intros Hv. unfold digits_value in Hv. pose proof (value_from_ge 10 0 ds v ltac:(lia) ltac:(lia) Hv). pose proof (value_from_lt 10 0 ds v ltac:(lia) ltac:(lia) Hv). lia.
Qed.

(** ** The conversions over any integer that satisfies the laws *)

Section Laws.
Context {T U : Type} {D : DecimalInteger T U} {L : DecimalLaws T U}.
#[local] Abbreviation w := (bits T U).

Lemma pow_bits : 2 ^ 31 <= 2 ^ (w - 1) <= 2 ^ 255 ∧ 2 ^ w = 2 * 2 ^ (w - 1).
Proof. pose proof bits_range as Hw. split; [split; apply Z.pow_le_mono_r; lia|]. apply pow2_split. lia. Qed.

Lemma MinusInf_spec : ok MinusInf ∧ sval MinusInf = - (2 ^ (w - 1) - 2).
Proof.
  pose proof pow_bits. pose proof bits_range. unfold MinusInf. destruct GetPlusInf_spec as [Hok E]. destruct (Negate_spec GetPlusInf Hok) as [Hn En]. split; [done|]. rewrite En, E.
  apply wrap_s_id; [lia|]. unfold in_s. lia.
Qed.

Lemma unsigned_zero_spec : uok (unsigned_zero (T := T) (U := U)) ∧ uval (unsigned_zero (T := T) (U := U)) = 0.
Proof.
  unfold unsigned_zero. destruct (OfDigit_spec 0 ltac:(lia)) as [Hok E]. destruct (ToUnsigned_spec _ Hok) as [Hu Eu]. split; [done|]. rewrite Eu, E. apply wrap_u_id. pose proof pow_bits. unfold in_u. lia.
Qed.

(** *** Reading *)

Lemma addDigit_spec u acc d : uok u → uval u = wrap_u w acc → is_digit d →
  uok (UnsignedAdd (MultiplyByTen u) (DecimalIntegerToUnsigned (OfDigit d))) ∧ uval (UnsignedAdd (MultiplyByTen u) (DecimalIntegerToUnsigned (OfDigit d))) = wrap_u w (acc * 10 + d).
Proof.
  intros Hu Ea Hd. destruct (OfDigit_spec d Hd) as [Ho Eo]. destruct (ToUnsigned_spec _ Ho) as [Hd' Ed]. destruct (MultiplyByTen_spec u Hu) as [Hm Em]. destruct (UnsignedAdd_spec _ _ Hm Hd') as [Hs Es].
  split; [done|]. rewrite Es, Em, Ed, Eo, Ea. unfold wrap_u. by rewrite <- Zplus_mod, Zplus_mod, Zmult_mod_idemp_l, <- Zplus_mod.
Qed.

Lemma after_loop_spec text u acc k : uok u → uval u = wrap_u w acc →
  match value_from 10 acc text with
  | Some v => ∃ u', after_loop text u k = Ok (u', k + Z.of_nat (length text)) ∧ uok u' ∧ uval u' = wrap_u w v
  | None => after_loop text u k = Throw EInvalidDecimal
  end.
Proof.
  revert u acc k. induction text as [|ch text IH]; intros u acc k Hu Ea; [exists u; simpl; by rewrite Z.add_0_r|]. cbn [value_from after_loop length]. rewrite addDigit_char. destruct (CharToDigit 10 ch) as [d|] eqn:E; [|done].
  pose proof (CharToDigit_range 10 ch d ltac:(lia) E) as Hd. destruct (addDigit_spec u acc d Hu Ea ltac:(unfold is_digit; lia)) as [Hu' Eu']. run_bind. specialize (IH _ _ (k + 1) Hu' Eu').
  destruct (value_from 10 (acc * 10 + d) text) as [v|]; [|done]. destruct IH as (u' & -> & Hok & Hv). exists u'. split; [do 2 f_equal; lia|done].
Qed.

Lemma before_loop_spec text u acc k : uok u → uval u = wrap_u w acc → let '(whole, fraction) := split_point text in
  match value_from 10 acc (whole ++ fraction) with
  | Some v => ∃ u', before_loop text u k = Ok (u', k + Z.of_nat (length whole), Z.of_nat (length fraction)) ∧ uok u' ∧ uval u' = wrap_u w v
  | None => before_loop text u k = Throw EInvalidDecimal
  end.
Proof.
  revert u acc k. induction text as [|ch text IH]; intros u acc k Hu Ea; [exists u; simpl; by rewrite Z.add_0_r|]. cbn [split_point before_loop]. destruct (Byte.eqb ch ".").
  { pose proof (after_loop_spec text u acc 0 Hu Ea) as Ha. cbn [app]. destruct (value_from 10 acc text) as [v|]; [|by rewrite Ha]. destruct Ha as (u' & -> & Hok & Hv). exists u'. split; [|done]. run_bind. do 2 f_equal. cbn [length]. f_equal. lia. }
  destruct (split_point text) as [whole fraction]. cbn [app value_from length]. rewrite addDigit_char. destruct (CharToDigit 10 ch) as [d|] eqn:E; [|done].
  pose proof (CharToDigit_range 10 ch d ltac:(lia) E) as Hd. destruct (addDigit_spec u acc d Hu Ea ltac:(unfold is_digit; lia)) as [Hu' Eu']. run_bind. specialize (IH _ _ (k + 1) Hu' Eu').
  destruct (value_from 10 (acc * 10 + d) (whole ++ fraction)) as [v|]; [|done]. destruct IH as (u' & -> & Hok & Hv). exists u'. split; [do 3 f_equal; lia|done].
Qed.

Lemma times_ten_spec n u v : uok u → uval u = wrap_u w v → uok (Nat.iter n MultiplyByTen u) ∧ uval (Nat.iter n MultiplyByTen u) = wrap_u w (v * 10 ^ Z.of_nat n).
Proof.
  intros Hu Ev. induction n as [|n [IHok IH]]; [simpl; by rewrite Z.mul_1_r|]. rewrite Nat.iter_succ. destruct (MultiplyByTen_spec _ IHok) as [Hok E]. split; [done|]. rewrite E, IH. unfold wrap_u. rewrite Zmult_mod_idemp_l.
  f_equal. rewrite Nat2Z.inj_succ, Z.pow_succ_r by lia. lia.
Qed.

(** [precision] digits fit, and are not taken for a special value. *)
Definition fits (precision : Z) : Prop := 10 ^ precision <= 2 ^ (w - 1) - 2.

Lemma finish_decimal_spec negative precision scale u v before after : 0 <= scale → 0 <= after → fits precision → uok u → uval u = wrap_u w v → 0 <= v < 10 ^ (before + after) → 0 <= before →
  if (after <=? scale) && (before + scale <=? precision) then
    ∃ x, finish_decimal negative precision scale u before after = Ok x ∧ ok x ∧ sval x = (if negative then - (v * 10 ^ (scale - after)) else v * 10 ^ (scale - after))
  else finish_decimal negative precision scale u before after = Throw EInvalidDecimal.
Proof.
  intros Hs Ha Hfits Hu Ev Hv Hb. unfold finish_decimal. rewrite Z.gtb_ltb, Z.ltb_antisym. destruct (Z.leb_spec after scale) as [Hle|]; [|done]. cbn [negb andb]. rewrite Z.gtb_ltb, Z.ltb_antisym.
  destruct (Z.leb_spec (before + scale) precision) as [Hp|]; [|done]. cbn [negb]. destruct (times_ten_spec (Z.to_nat (scale - after)) u v Hu Ev) as [Hok E]. rewrite Z2Nat.id in E by lia.
  set (x := v * 10 ^ (scale - after)) in *. assert (0 <= x < 10 ^ precision) as Hx.
  { subst x. pose proof (Z.pow_pos_nonneg 10 (scale - after)). split; [nia|]. apply Z.lt_le_trans with (10 ^ (before + after) * 10 ^ (scale - after)); [nia|]. rewrite <- Z.pow_add_r by lia. apply Z.pow_le_mono_r; lia. }
  pose proof pow_bits. pose proof bits_range. unfold fits in Hfits. destruct (ToSigned_spec _ Hok) as [Hok' E']. rewrite E, wrap_s_wrap_u, wrap_s_id in E' by (unfold in_s; lia). destruct negative; [|by eexists].
  destruct (Negate_spec _ Hok') as [Hn En]. eexists. split; [reflexivity|]. split; [done|]. rewrite En, E'. apply wrap_s_id; [lia|]. unfold in_s. lia.
Qed.

(** *** Words *)

Lemma number_of_letter precision scale ch tail : CharToDigit 10 ch = None → Byte.eqb ch "." = false → number_of_text precision scale (ch :: tail) = None.
Proof. intros E Hp. unfold number_of_text. cbn [split_point]. rewrite Hp. destruct (split_point tail) as [whole fraction]. unfold digits_value. cbn [app value_from]. by rewrite E. Qed.

Lemma letter_spec ch : is_char "i" "I" ch || is_char "n" "N" ch = true → CharToDigit 10 ch = None ∧ Byte.eqb ch "." = false.
Proof. by destruct ch. Qed.

Lemma is_char_lower ch : (is_char "i" "I" ch = bool_decide (lower ch = "i"%byte)) ∧ (is_char "n" "N" ch = bool_decide (lower ch = "n"%byte)) ∧
  (is_char "f" "F" ch = bool_decide (lower ch = "f"%byte)) ∧ (is_char "a" "A" ch = bool_decide (lower ch = "a"%byte)).
Proof. by destruct ch. Qed.

Lemma word_cases (text : list byte) (a b c : byte) : bool_decide (map lower text = [a; b; c]) =
  match text with [x; y; z] => bool_decide (lower x = a) && bool_decide (lower y = b) && bool_decide (lower z = c) | _ => false end.
Proof.
  apply eq_true_iff_eq. rewrite bool_decide_eq_true. destruct text as [|x [|y [|z [|t text]]]]; try done.
  cbn [map]. rewrite !andb_true_iff, !bool_decide_eq_true. split; [by intros [= -> -> ->]|by intros [[-> ->] ->]].
Qed.

Lemma unsigned_decimal_word negative precision scale ch tail : is_char "i" "I" ch || is_char "n" "N" ch = true → unsigned_decimal negative precision scale (ch :: tail) =
  if is_char "i" "I" ch then match tail with [y; z] => if is_char "n" "N" y && is_char "f" "F" z then Some (if negative then MinusInfinity else Infinity) else None | _ => None end
  else match tail with [y; z] => if negb negative && is_char "a" "A" y && is_char "n" "N" z then Some NotANumber else None | _ => None end.
Proof.
  intros Hch. destruct (letter_spec ch Hch) as [Hd Hp]. unfold unsigned_decimal. rewrite number_of_letter by done. rewrite (bool_decide_eq_false_2 (ch :: tail = [])) by done.
  change (B"inf") with ["i"; "n"; "f"]%byte. change (B"nan") with ["n"; "a"; "n"]%byte. rewrite !word_cases. destruct (is_char_lower ch) as (<- & <- & _).
  assert (is_char "i" "I" ch = true → is_char "n" "N" ch = false) as Hx by (by destruct ch).
  destruct tail as [|y [|z [|t tail]]]; [by destruct (is_char "i" "I" ch)..| |by destruct (is_char "i" "I" ch)].
  destruct (is_char_lower y) as (_ & <- & _ & <-). destruct (is_char_lower z) as (_ & <- & <- & _).
  destruct (is_char "i" "I" ch); [rewrite Hx by done; by destruct (is_char "n" "N" y), (is_char "f" "F" z)|]. cbn [orb] in Hch. rewrite Hch. destruct negative, (is_char "a" "A" y), (is_char "n" "N" z); reflexivity.
Qed.

Lemma plain_cases negative precision scale ch tail : is_char "i" "I" ch || is_char "n" "N" ch = false → unsigned_decimal negative precision scale (ch :: tail) =
  match number_of_text precision scale (ch :: tail) with Some v => Some (Number (if negative then - v else v)) | None => None end.
Proof.
  intros Hch. unfold unsigned_decimal. rewrite (bool_decide_eq_false_2 (ch :: tail = [])) by done. change (B"inf") with ["i"; "n"; "f"]%byte. change (B"nan") with ["n"; "a"; "n"]%byte. rewrite !word_cases.
  destruct (is_char_lower ch) as (<- & <- & _). apply orb_false_iff in Hch as [-> ->]. by destruct tail as [|y [|z [|t tail]]].
Qed.

Lemma DecimalTextToInteger_spec text precision scale : 0 <= scale → fits precision →
  match decimal_of_text precision scale text with
  | Some d => ∃ x, DecimalTextToInteger text precision scale = Ok x ∧ ok x ∧ sval x = code w d
  | None => DecimalTextToInteger (T := T) text precision scale = Throw EInvalidDecimal
  end.
Proof.
  intros Hs Hfits. destruct text as [|first rest]; [done|]. cbn [decimal_of_text DecimalTextToInteger]. set (negative := Byte.eqb first "-"). set (cur := if negative || Byte.eqb first "+" then rest else first :: rest).
  destruct cur as [|ch tail]; [done|]. pose proof MinusInf_spec. pose proof GetPlusInf_spec. pose proof GetNan_spec. destruct (is_char "i" "I" ch || is_char "n" "N" ch) eqn:Hch.
  { rewrite unsigned_decimal_word by done. destruct (is_char "i" "I" ch); [|cbn [orb] in Hch; rewrite Hch]; destruct tail as [|y [|z [|t tail]]]; try done.
    - destruct (is_char "n" "N" y && is_char "f" "F" z); [|done]. destruct negative; by eexists.
    - destruct (negb negative && is_char "a" "A" y && is_char "n" "N" z); [|done]. by eexists. }
  rewrite plain_cases by done. apply orb_false_iff in Hch as [-> ->]. unfold number_of_text. destruct unsigned_zero_spec as [Hz Ez]. pose proof (before_loop_spec (ch :: tail) unsigned_zero 0 0 Hz Ez) as Hl.
  destruct (split_point (ch :: tail)) as [whole fraction]. unfold digits_value in *. destruct (value_from 10 0 (whole ++ fraction)) as [v|] eqn:Ev; [|by rewrite Hl].
  destruct Hl as (u & -> & Hu & Eu). run_bind. pose proof (digits_value_range _ _ Ev) as Hv. rewrite length_app, Nat2Z.inj_add in Hv. rewrite Z.add_0_l.
  pose proof (finish_decimal_spec negative precision scale u v (Z.of_nat (length whole)) (Z.of_nat (length fraction)) Hs ltac:(lia) Hfits Hu Eu Hv ltac:(lia)) as Hf.
  destruct ((Z.of_nat (length fraction) <=? scale) && (Z.of_nat (length whole) + scale <=? precision)); [|done]. destruct Hf as (x & -> & Hok & Ex). exists x. split; [done|]. split; [done|]. by destruct negative.
Qed.

Lemma TextToBinaryImpl_spec text precision scale : 0 <= scale → fits precision →
  TextToBinaryImpl (T := T) text precision scale = match decimal_of_text precision scale text with Some d => Ok (bytes_of_decimal (SizeOf (T := T) (U := U)) d) | None => Throw EInvalidDecimal end.
Proof.
  intros Hs Hfits. unfold TextToBinaryImpl. pose proof (DecimalTextToInteger_spec text precision scale Hs Hfits) as Ht. destruct (decimal_of_text precision scale text) as [d|]; [|by rewrite Ht].
  destruct Ht as (x & -> & Hok & Ex). run_bind. by rewrite encode_spec, Ex.
Qed.

(** *** Printing *)

(** The highest digit is not zero. *)
Definition trimmed (ds : list Z) : Prop := ds = [] ∨ ∃ low top, ds = low ++ [top] ∧ top ≠ 0.

Lemma trimmed_cons d ds : trimmed ds → (ds = [] → d ≠ 0) → trimmed (d :: ds).
Proof. intros [-> |(low & top & -> & Ht)] Hd; right; [by exists [], d; auto|]. by exists (d :: low), top. Qed.

Lemma digits_loop_spec fuel u : uok u → uval u < 10 ^ Z.of_nat fuel → ∃ ds, digits_loop (T := T) fuel u = Ok ds ∧ Forall is_digit ds ∧ low_value ds = uval u ∧ trimmed ds.
Proof.
  destruct unsigned_zero_spec as [Hz Ez]. revert u. induction fuel as [|fuel IH]; intros u Hu Hlt; cbn [digits_loop]; rewrite UnsignedEqual_spec, Ez by done; destruct (Z.eqb_spec (uval u) 0) as [E|E].
  1,3: exists []; split; [done|]; split; [constructor|]; split; [done|by left].
  { pose proof (uval_range u Hu) as Hr. unfold in_u in Hr. change (10 ^ Z.of_nat 0) with 1 in Hlt. lia. }
  destruct (GetNextDigit_spec u Hu) as (Ed & Hn & En). destruct (GetNextDigit u) as [digit rest]. cbn [fst snd] in *. rewrite Nat2Z.inj_succ, Z.pow_succ_r in Hlt by lia. pose proof (uval_range u Hu) as Hr. unfold in_u in Hr.
  pose proof (Z.div_mod (uval u) 10 ltac:(lia)) as Hdm. pose proof (Z.mod_pos_bound (uval u) 10 ltac:(lia)) as Hmod.
  destruct (IH rest Hn) as (ds & -> & Hds & Ev & Ht); [lia|]. exists (digit :: ds). split; [done|]. split; [constructor; [unfold is_digit; lia|done]|]. split.
  - cbn [low_value foldr]. fold (low_value ds). lia.
  - apply trimmed_cons; [done|]. intros -> ->. change (low_value []) with 0 in Ev. lia.
Qed.

Lemma trimmed_length ds n : Forall is_digit ds → trimmed ds → low_value ds < 10 ^ Z.of_nat n → (length ds <= n)%nat.
Proof.
  intros Hds [-> |(low & top & -> & Ht)] Hv; [simpl; lia|]. apply list.Forall_app in Hds as [Hl Htop]. apply list.Forall_cons in Htop as [Htop _]. unfold is_digit in Htop. rewrite low_value_app in Hv. cbn [low_value foldr] in Hv.
  pose proof (low_value_range _ Hl) as Hr. destruct (decide (length low < n)%nat); [rewrite length_app; simpl; lia|]. assert (10 ^ Z.of_nat n <= 10 ^ Z.of_nat (length low)) by (apply Z.pow_le_mono_r; lia). pose proof (Z.pow_pos_nonneg 10 (Z.of_nat (length low))). nia.
Qed.

(** Digits padded with zeros so that there is one before the point. *)
Definition padded (scale : Z) (ds : list Z) : list Z := if Z.of_nat (length ds) <=? scale then ds ++ repeat 0 (Z.to_nat scale + 1 - length ds) else ds.

Lemma padded_spec scale ds : 0 <= scale → Forall is_digit ds → trimmed ds → let ds' := padded scale ds in
  Forall is_digit ds' ∧ low_value ds' = low_value ds ∧ length ds' = Nat.max (length ds) (Z.to_nat scale + 1) ∧ no_leading_zero (map digit_char (rev (drop (Z.to_nat scale) ds'))).
Proof.
  intros Hs Hds Ht. unfold padded. destruct (Z.leb_spec (Z.of_nat (length ds)) scale) as [Hle|Hgt]; cbn zeta.
  - assert (length (ds ++ repeat 0 (Z.to_nat scale + 1 - length ds)) = (Z.to_nat scale + 1)%nat) as Hlen by (rewrite length_app, repeat_length; lia). split; [|split; [|split]].
    + apply list.Forall_app. split; [done|]. apply list.Forall_forall. intros x Hx%list_elem_of_In%repeat_spec. subst x. unfold is_digit. lia.
    + rewrite low_value_app, low_value_zeros. lia.
    + rewrite Hlen. lia.
    + left. rewrite length_map, length_rev, length_drop, Hlen. lia.
  - split; [done|]. split; [done|]. split; [lia|]. destruct Ht as [-> |(low & top & -> & Ht)]; [simpl in Hgt; lia|]. rewrite length_app in Hgt. cbn [length] in Hgt. rewrite drop_app_le by lia.
    rewrite rev_app_distr. cbn [rev app map]. right. do 2 eexists. split; [reflexivity|]. intros E. apply list.Forall_app in Hds as [_ Htop]. apply list.Forall_cons in Htop as [Htop _]. by apply Ht, digit_char_zero.
Qed.

Lemma abs_spec v : ok v → let a := DecimalIntegerToUnsigned (if IsNegativeInteger v then Negate v else v) in uok a ∧ uval a = Z.abs (sval v).
Proof.
  intros Hv. pose proof pow_bits. pose proof bits_range. pose proof (sval_range v Hv) as Hr. unfold in_s in Hr. rewrite IsNegative_spec by done. cbn zeta. destruct (Z.ltb_spec (sval v) 0) as [Hneg|Hpos].
  - destruct (Negate_spec v Hv) as [Hn En]. destruct (ToUnsigned_spec _ Hn) as [Hu Eu]. split; [done|]. rewrite Eu, En, wrap_u_wrap_s by lia. rewrite wrap_u_id by (unfold in_u; lia). lia.
  - destruct (ToUnsigned_spec _ Hv) as [Hu Eu]. split; [done|]. rewrite Eu, wrap_u_id by (unfold in_u; lia). lia.
Qed.

Lemma WriteTextDecimal_spec v scale : ok v → 0 <= scale <= MaxPrecision → ∃ text, WriteTextDecimalUnchecked v scale = Ok text ∧ Shows scale (decimal_of_code w (sval v)) text ∧ (length text <= MaxTextSize)%nat.
Proof.
  intros Hv Hs. unfold WriteTextDecimalUnchecked, decimal_of_code. destruct MinusInf_spec as [Hm Em], GetPlusInf_spec as [Hp Ep], GetNan_spec as [Hn En]. rewrite !Equal_spec, Em, Ep, En by done.
  destruct (sval v =? - (2 ^ (w - 1) - 2)); [eexists; split; [reflexivity|]; split; [done|simpl; unfold MaxTextSize; lia]|].
  destruct (sval v =? 2 ^ (w - 1) - 2); [eexists; split; [reflexivity|]; split; [done|simpl; unfold MaxTextSize; lia]|].
  destruct (sval v =? 2 ^ (w - 1) - 1); [eexists; split; [reflexivity|]; split; [done|simpl; unfold MaxTextSize; lia]|].
  destruct (abs_spec v Hv) as [Ha Ea]. pose proof pow_bits. pose proof (sval_range v Hv) as Hr. unfold in_s in Hr. assert (2 ^ 255 < 10 ^ Z.of_nat 77) as H77 by (apply Z.ltb_lt; vm_compute; reflexivity).
  assert (10 ^ Z.of_nat 77 <= 10 ^ Z.of_nat MaxTextSize) as H79 by (apply Z.pow_le_mono_r; unfold MaxTextSize; lia).
  destruct (digits_loop_spec MaxTextSize _ Ha) as (ds & -> & Hds & Eds & Ht); [lia|]. run_bind. rewrite Ea in Eds. pose proof (trimmed_length ds 77 Hds Ht ltac:(lia)) as Hlen.
  destruct (padded_spec scale ds ltac:(lia) Hds Ht) as (Hds' & Ev' & Hlen' & Hz). fold (padded scale ds). set (ds' := padded scale ds) in *. rewrite IsNegative_spec by done. eexists. split; [reflexivity|]. unfold MaxPrecision in Hs. clear H77 H79 H. split.
  - exists (map digit_char (rev (drop (Z.to_nat scale) ds'))), (map digit_char (rev (take (Z.to_nat scale) ds'))). split; [reflexivity|]. split; [exact Hz|]. split.
    + rewrite length_map, length_rev, length_take, Hlen'. lia.
    + rewrite <- map_app, <- rev_app_distr, take_drop. rewrite digits_text by done. by rewrite Ev', Eds.
  - rewrite !length_app, length_map, length_rev, length_drop. unfold MaxTextSize. destruct (sval v <? 0), (scale >? 0); rewrite ?length_app, ?length_map, ?length_rev, ?length_take; simpl; lia.
Qed.
End Laws.

(** ** Reading what was printed *)

Lemma split_point_digits whole fraction v : digits_value 10 whole = Some v → split_point (whole ++ "."%byte :: fraction) = (whole, fraction) ∧ split_point whole = (whole, []).
Proof.
  unfold digits_value. generalize 0. induction whole as [|c whole IH]; intros acc Hv; [done|]. cbn [value_from] in Hv. destruct (CharToDigit 10 c) as [d|] eqn:E; [|done]. destruct (IH _ Hv) as [E1 E2].
  cbn [app split_point]. assert (Byte.eqb c "." = false) as -> by (by destruct c). by rewrite E1, E2.
Qed.

Lemma first_digit c d : CharToDigit 10 c = Some d → Byte.eqb c "-" = false ∧ Byte.eqb c "+" = false ∧ is_char "i" "I" c || is_char "n" "N" c = false.
Proof. by destruct c. Qed.

Lemma Shows_read precision scale d text : 0 <= scale < precision → Shows scale d text → (∀ v, d = Number v → Z.abs v < 10 ^ precision) → decimal_of_text precision scale text = Some d.
Proof.
  intros Hs Hshow Hfit. destruct d as [|v| |]; [by rewrite Hshow| |by rewrite Hshow..]. destruct Hshow as (whole & fraction & -> & Hz & Hf & Hv). specialize (Hfit v eq_refl).
  assert (Z.of_nat (length whole) + scale <= precision) as Hlen.
  { destruct Hz as [-> |(c & rest & -> & Hc)]; [lia|]. apply leading_digit in Hv; [|done]. rewrite length_app, Nat2Z.inj_add, Hf in Hv. cbn [length].
    assert (Z.of_nat (length rest) + scale < precision); [|lia]. apply (Z.pow_lt_mono_r_iff 10); lia. }
  pose proof Hv as Hw. unfold digits_value in Hw. rewrite value_from_app in Hw. apply bind_Some in Hw as (a & Hw & _). destruct whole as [|c rest]; [by destruct Hz as [|(? & ? & ? & _)]|].
  assert (∃ x, CharToDigit 10 c = Some x) as [x Hx] by (cbn [value_from] in Hw; destruct (CharToDigit 10 c); [by eexists|done]). destruct (first_digit c x Hx) as (Hm & Hp & Hi).
  set (body := (c :: rest) ++ (if scale >? 0 then B"." ++ fraction else [])). assert (split_point body = (c :: rest, fraction)) as Hsplit.
  { subst body. destruct (split_point_digits _ fraction a Hw) as [E1 E2]. destruct (Z.gtb_spec scale 0); [exact E1|]. rewrite app_nil_r, E2. destruct fraction; [done|]. cbn [length] in Hf. lia. }
  assert (number_of_text precision scale body = Some (Z.abs v)) as Hn.
  { unfold number_of_text. rewrite Hsplit, Hv, Hf, Z.leb_refl, (proj2 (Z.leb_le _ _) Hlen). cbn [andb]. by rewrite Z.sub_diag, Z.mul_1_r. }
  destruct (Z.ltb_spec v 0) as [Hneg|Hpos].
  - cbn [app decimal_of_text]. change (Byte.eqb "-" "-") with true. cbn [orb]. change (unsigned_decimal true precision scale body = Some (Number v)). subst body. cbn [app] in Hn |- *. rewrite plain_cases by done. rewrite Hn. do 2 f_equal. lia.
  - subst body. cbn [app decimal_of_text] in Hn |- *. rewrite Hm, Hp. cbn [orb]. rewrite plain_cases by done. rewrite Hn. do 2 f_equal. lia.
Qed.

Lemma decimal_of_text_fits precision scale text v : 0 <= scale → decimal_of_text precision scale text = Some (Number v) → Z.abs v < 10 ^ precision.
Proof.
  intros Hs. destruct text as [|first rest]; [done|]. cbn [decimal_of_text]. generalize (if Byte.eqb first "-" || Byte.eqb first "+" then rest else first :: rest) as cur. generalize (Byte.eqb first "-") as negative. intros negative cur. unfold unsigned_decimal.
  destruct (bool_decide (cur = [])); [done|]. destruct (bool_decide (map lower cur = _)); [by destruct negative|]. destruct (bool_decide (map lower cur = _)); [by destruct negative|]. unfold number_of_text. destruct (split_point cur) as [whole fraction].
  destruct (digits_value 10 (whole ++ fraction)) as [x|] eqn:Ex; [|done]. apply digits_value_range in Ex. destruct (Z.leb_spec (Z.of_nat (length fraction)) scale); [|done]. cbn [andb].
  destruct (Z.leb_spec (Z.of_nat (length whole) + scale) precision); [|done]. intros [= <-]. pose proof (Z.pow_pos_nonneg 10 (scale - Z.of_nat (length fraction))) as Hp. rewrite length_app, Nat2Z.inj_add in Ex.
  assert (x * 10 ^ (scale - Z.of_nat (length fraction)) < 10 ^ precision); [|destruct negative; nia].
  apply Z.lt_le_trans with (10 ^ (Z.of_nat (length whole) + Z.of_nat (length fraction)) * 10 ^ (scale - Z.of_nat (length fraction))); [nia|]. rewrite <- Z.pow_add_r by lia. apply Z.pow_le_mono_r; lia.
Qed.

(** ** Binary strings *)

Lemma be_value_cons b bytes : be_value (b :: bytes) = be_value bytes + 256 ^ Z.of_nat (length bytes) * byte_val b.
Proof. unfold be_value. cbn [rev]. rewrite le_value_app, length_rev. cbn [le_value]. lia. Qed.

Lemma be_value_range bytes : 0 <= be_value bytes < 256 ^ Z.of_nat (length bytes).
Proof. unfold be_value. rewrite <- length_rev. apply le_value_range. Qed.

Lemma be_value_bytes n v : 0 <= v < 256 ^ Z.of_nat n → be_value (be_bytes n v) = v.
Proof. intros Hv. unfold be_value, be_bytes. rewrite rev_involutive. by apply le_value_bytes. Qed.

Lemma be_bytes_value bytes : be_bytes (length bytes) (be_value bytes) = bytes.
Proof. unfold be_value, be_bytes. rewrite <- (length_rev bytes), le_bytes_value. apply rev_involutive. Qed.

Lemma length_be_bytes n v : length (be_bytes n v) = n.
Proof. unfold be_bytes. by rewrite length_rev, length_le_bytes. Qed.

(** Strings of one length compare as the numbers they are. *)
Lemma be_compare b1 b2 : length b1 = length b2 → TernaryCompare_string b1 b2 = TernaryCompare (be_value b1) (be_value b2).
Proof.
  unfold TernaryCompare_string. revert b2. induction b1 as [|x b1 IH]; intros [|y b2] Hlen; try discriminate; [done|]. injection Hlen as Hlen. specialize (IH b2 Hlen). rewrite !be_value_cons. cbn [string_compare].
  pose proof (be_value_range b1). pose proof (be_value_range b2). rewrite <- Hlen in *. pose proof (Z.pow_pos_nonneg 256 (Z.of_nat (length b1))). destruct (Z.eqb_spec (byte_val x) (byte_val y)) as [E|E].
  - rewrite IH, E. unfold TernaryCompare. destruct (Z.eqb_spec (be_value b1) (be_value b2)), (Z.eqb_spec (be_value b1 + 256 ^ Z.of_nat (length b1) * byte_val y) (be_value b2 + 256 ^ Z.of_nat (length b1) * byte_val y)),
      (Z.ltb_spec (be_value b1) (be_value b2)), (Z.ltb_spec (be_value b1 + 256 ^ Z.of_nat (length b1) * byte_val y) (be_value b2 + 256 ^ Z.of_nat (length b1) * byte_val y)); lia.
  - unfold GetSign, TernaryCompare. destruct (Z.lt_ge_cases (byte_val x) (byte_val y)).
    + rewrite (proj2 (Z.ltb_lt _ 0)) by lia. destruct (Z.eqb_spec (be_value b1 + 256 ^ Z.of_nat (length b1) * byte_val x) (be_value b2 + 256 ^ Z.of_nat (length b1) * byte_val y)); [nia|]. rewrite (proj2 (Z.ltb_lt _ _)) by nia. done.
    + rewrite (proj2 (Z.ltb_ge _ 0)) by lia. rewrite Z.gtb_ltb, (proj2 (Z.ltb_lt 0 _)) by lia. destruct (Z.eqb_spec (be_value b1 + 256 ^ Z.of_nat (length b1) * byte_val x) (be_value b2 + 256 ^ Z.of_nat (length b1) * byte_val y)); [nia|]. rewrite (proj2 (Z.ltb_ge _ _)) by nia. done.
Qed.

(** *** The order of decimals *)

Definition class (d : decimal) : Z := match d with MinusInfinity => 0 | Number _ => 1 | Infinity => 2 | NotANumber => 3 end.

Definition decimal_compare (d1 d2 : decimal) : Z :=
  match d1, d2 with Number v1, Number v2 => TernaryCompare v1 v2 | _, _ => TernaryCompare (class d1) (class d2) end.

(** The decimals that a column of a precision holds. *)
Definition holds (precision : Z) (d : decimal) : bool := match d with Number v => Z.abs v <? 10 ^ precision | _ => true end.

(** Precisions and the sizes of their integers. *)
Definition size_of_precision (precision : Z) : nat := Z.to_nat (GetDecimalBinaryValueSize precision).

Lemma precision_size precision : 1 <= precision <= MaxPrecision → GetValueBinarySize precision = Ok (Z.of_nat (size_of_precision precision)) ∧
  GetDecimalBinaryValueSize precision = Z.of_nat (size_of_precision precision) ∧ 10 ^ precision <= 2 ^ (8 * Z.of_nat (size_of_precision precision) - 1) - 2 ∧
  (size_of_precision precision = 4%nat ∨ size_of_precision precision = 8%nat ∨ size_of_precision precision = 16%nat ∨ size_of_precision precision = 32%nat).
Proof.
  unfold MaxPrecision. intros Hp.
  apply (interval_spec (λ precision, GetValueBinarySize precision = Ok (Z.of_nat (size_of_precision precision)) ∧
    GetDecimalBinaryValueSize precision = Z.of_nat (size_of_precision precision) ∧ 10 ^ precision <= 2 ^ (8 * Z.of_nat (size_of_precision precision) - 1) - 2 ∧
    (size_of_precision precision = 4%nat ∨ size_of_precision precision = 8%nat ∨ size_of_precision precision = 16%nat ∨ size_of_precision precision = 32%nat)) 1 76); [vm_compute; reflexivity|lia].
Qed.

Lemma ValidatePrecision_ok precision scale : ValidatePrecisionAndScale precision scale = if bool_decide (1 <= precision <= MaxPrecision ∧ 0 <= scale <= precision) then Ok () else Throw EInvalidDecimal.
Proof.
  unfold ValidatePrecisionAndScale. rewrite !Z.gtb_ltb. destruct (bool_decide _) eqn:E; [apply bool_decide_eq_true in E|apply bool_decide_eq_false in E];
    destruct (Z.leb_spec precision 0), (Z.ltb_spec MaxPrecision precision), (Z.ltb_spec scale 0), (Z.ltb_spec precision scale); try done; exfalso; unfold MaxPrecision in *; lia.
Qed.

Lemma code_holds precision d w : holds precision d = true → 10 ^ precision <= 2 ^ (w - 1) - 2 → 0 < w → 0 < 10 ^ precision → 0 <= code w d + 2 ^ (w - 1) < 2 ^ w ∧ decimal_of_code w (code w d) = d.
Proof.
  intros Hd Hfit Hw Hpos. pose proof (pow2_split w Hw) as Hs. unfold decimal_of_code. destruct d as [|v| |]; cbn [holds code] in *.
  - split; [lia|]. by rewrite Z.eqb_refl.
  - apply Z.ltb_lt in Hd. split; [lia|]. destruct (Z.eqb_spec v (- (2 ^ (w - 1) - 2))), (Z.eqb_spec v (2 ^ (w - 1) - 2)), (Z.eqb_spec v (2 ^ (w - 1) - 1)); lia || done.
  - split; [lia|]. destruct (Z.eqb_spec (2 ^ (w - 1) - 2) (- (2 ^ (w - 1) - 2))); [lia|]. by rewrite Z.eqb_refl.
  - split; [lia|]. destruct (Z.eqb_spec (2 ^ (w - 1) - 1) (- (2 ^ (w - 1) - 2))), (Z.eqb_spec (2 ^ (w - 1) - 1) (2 ^ (w - 1) - 2)); try lia. by rewrite Z.eqb_refl.
Qed.

Lemma code_of_code w z : code w (decimal_of_code w z) = z.
Proof.
  unfold decimal_of_code. destruct (Z.eqb_spec z (- (2 ^ (w - 1) - 2))) as [-> |]; [done|]. destruct (Z.eqb_spec z (2 ^ (w - 1) - 2)) as [-> |]; [done|]. by destruct (Z.eqb_spec z (2 ^ (w - 1) - 1)) as [-> |].
Qed.

Lemma bytes_of_decimal_of bytes : bytes_of_decimal (length bytes) (decimal_of_bytes bytes) = bytes.
Proof. unfold bytes_of_decimal, decimal_of_bytes, width. rewrite code_of_code, Z.sub_add. apply be_bytes_value. Qed.

Lemma code_compare precision d1 d2 w : holds precision d1 = true → holds precision d2 = true → 10 ^ precision <= 2 ^ (w - 1) - 2 → 0 < 10 ^ precision →
  TernaryCompare (code w d1) (code w d2) = decimal_compare d1 d2.
Proof.
  intros H1 H2 Hfit Hpos. unfold TernaryCompare. destruct d1 as [|v1| |], d2 as [|v2| |]; cbn [holds code decimal_compare class] in *; rewrite ?Z.ltb_lt in *; rewrite ?Z.eqb_refl; try done;
    repeat match goal with |- context [?x =? ?y] => destruct (Z.eqb_spec x y) | |- context [?x <? ?y] => destruct (Z.ltb_spec x y) end; lia || done.
Qed.

(** ** The generic conversions on binary strings *)

Section Strings.
Context {T U : Type} {D : DecimalInteger T U} {L : DecimalLaws T U}.

Lemma decoded_spec bytes : length bytes = SizeOf (T := T) (U := U) → ok (DecimalBinaryToIntegerUnchecked (T := T) bytes) ∧
  decimal_of_code (bits T U) (sval (DecimalBinaryToIntegerUnchecked (T := T) bytes)) = decimal_of_bytes bytes.
Proof.
  intros Hlen. destruct (decode_spec bytes Hlen) as [Hok E]. split; [done|]. rewrite E. unfold decimal_of_bytes, width, bits. by rewrite Hlen.
Qed.

Lemma BinaryToTextImpl_spec bytes scale : length bytes = SizeOf (T := T) (U := U) → 0 <= scale <= MaxPrecision →
  ∃ text, DecimalBinaryToTextUncheckedImpl (T := T) bytes scale = Ok text ∧ Shows scale (decimal_of_bytes bytes) text ∧ (length text <= MaxTextSize)%nat.
Proof.
  intros Hlen Hs. destruct (decoded_spec bytes Hlen) as [Hok Ed]. unfold DecimalBinaryToTextUncheckedImpl. destruct (WriteTextDecimal_spec _ scale Hok Hs) as (text & E & Hshow & Hl). exists text. by rewrite <- Ed.
Qed.

Lemma holds_code precision w z : 10 ^ precision <= 2 ^ (w - 1) - 2 → holds precision (decimal_of_code w z) =
  (- (10 ^ precision - 1) <=? z) && (z <=? 10 ^ precision - 1) || (z =? - (2 ^ (w - 1) - 2)) || (z =? 2 ^ (w - 1) - 2) || (z =? 2 ^ (w - 1) - 1).
Proof.
  intros Hfit. unfold decimal_of_code. destruct (z =? - (2 ^ (w - 1) - 2)); [by rewrite orb_true_r|]. destruct (z =? 2 ^ (w - 1) - 2); [by rewrite orb_true_r|]. destruct (z =? 2 ^ (w - 1) - 1); [by rewrite orb_true_r|].
  cbn [holds]. rewrite !orb_false_r. apply eq_true_iff_eq. rewrite andb_true_iff, Z.ltb_lt, !Z.leb_le. lia.
Qed.

Lemma ValidateImpl_spec bytes precision scale : length bytes = SizeOf (T := T) (U := U) → 1 <= precision <= MaxPrecision → size_of_precision precision = SizeOf (T := T) (U := U) → 0 <= scale <= MaxPrecision →
  ValidateDecimalBinaryValueImpl (T := T) bytes precision scale = if holds precision (decimal_of_bytes bytes) then Ok () else Throw EInvalidDecimal.
Proof.
  intros Hlen Hp Hsize Hs. destruct (precision_size precision Hp) as (Eg & Es & Hfit & _). rewrite Hsize in *. change (8 * Z.of_nat SizeOf) with (bits T U) in Hfit. destruct (decoded_spec bytes Hlen) as [Hok Ed]. rewrite <- Ed, holds_code by done.
  unfold ValidateDecimalBinaryValueImpl, GetDecimalMaxIntegerValue. rewrite Eg. run_bind. rewrite Z.gtb_ltb, Z.ltb_irrefl. destruct (max_spec precision Es) as (m & -> & Hm & Em). run_bind.
  destruct (Negate_spec m Hm) as [Hn En]. pose proof (pow_bits (T := T) (U := U)). pose proof (bits_range (T := T) (U := U)). pose proof (Z.pow_pos_nonneg 10 precision). rewrite Em, wrap_s_id in En by (unfold in_s; lia).
  destruct MinusInf_spec as [Hmi Emi], GetPlusInf_spec as [Hpi Epi], GetNan_spec as [Hnan Enan]. rewrite !LessEqual_spec, !Equal_spec, En, Em, Emi, Epi, Enan by done.
  destruct (_ && _); [done|]. cbn [orb]. destruct (_ || _ || _); [done|]. destruct (WriteTextDecimal_spec _ scale Hok Hs) as (text & -> & _). done.
Qed.

(** [WriteBinary32] and its siblings write what [ParseBinary32] and its siblings read. *)
Lemma WriteBinary_ParseBinary precision v : 1 <= precision <= MaxPrecision → size_of_precision precision = SizeOf (T := T) (U := U) → ok v →
  ∃ bytes v', WriteBinary precision v (Z.of_nat (SizeOf (T := T) (U := U))) = Ok bytes ∧ ParseBinary precision bytes = Ok v' ∧ ok v' ∧ sval v' = sval v.
Proof.
  intros Hp Hsize Hv. destruct (precision_size precision Hp) as (Eg & Es & Hfit & _). rewrite Hsize in *. pose proof (pow_bits (T := T) (U := U)). pose proof (sval_range v Hv) as Hr. unfold in_s in Hr.
  unfold WriteBinary, ParseBinary, CheckDecimalIntBits. rewrite Eg. run_bind. rewrite Z.eqb_refl, Z.geb_leb, Z.leb_refl. cbn [negb Verify]. run_bind. rewrite encode_spec by done. do 2 eexists. split; [reflexivity|]. rewrite length_be_bytes, Z.eqb_refl. cbn [negb].
  split; [reflexivity|]. destruct (decode_spec (be_bytes SizeOf (sval v + 2 ^ (bits T U - 1))) (length_be_bytes _ _)) as [Hok E]. split; [done|]. rewrite E, be_value_bytes; [lia|]. rewrite pow_256. change (8 * Z.of_nat SizeOf) with (bits T U). lia.
Qed.
End Strings.

(** ** Writing integers of a wider type *)

Lemma WriteBinary_spec {T U} {D : DecimalInteger T U} {L : DecimalLaws T U} precision v : 1 <= precision <= MaxPrecision → size_of_precision precision = SizeOf (T := T) (U := U) → ok v →
  WriteBinary precision v (Z.of_nat (SizeOf (T := T) (U := U))) = Ok (bytes_of_decimal (SizeOf (T := T) (U := U)) (Number (sval v))).
Proof.
  intros Hp Hsize Hv. destruct (precision_size precision Hp) as (Eg & _). rewrite Hsize in *. unfold WriteBinary, CheckDecimalIntBits. rewrite Eg. run_bind. rewrite Z.eqb_refl, Z.geb_leb, Z.leb_refl. cbn [negb Verify]. run_bind. by rewrite encode_spec.
Qed.

Lemma memory_value parts : words_ok parts → le_value (concat (map (le_bytes 4) parts)) = value256 parts.
Proof.
  induction 1 as [|part parts Hpart _ IH]; [done|]. cbn [map concat]. rewrite le_value_app, IH, length_le_bytes, le_value_bytes by done. done.
Qed.

Lemma take_value n bytes : (n <= length bytes)%nat → le_value (take n bytes) = wrap_u (8 * Z.of_nat n) (le_value bytes).
Proof.
  intros Hn. rewrite <- (take_drop n bytes) at 2. rewrite le_value_app, length_take_le by done. unfold wrap_u. rewrite <- pow_256. rewrite (Z.mul_comm (256 ^ _)), Z.mod_add by (pose proof (Z.pow_pos_nonneg 256 (Z.of_nat n)); lia).
  symmetry. apply Z.mod_small. pose proof (le_value_range (take n bytes)) as Hr. by rewrite length_take_le in Hr.
Qed.

Lemma read_prefix n value : ok256 value → (0 < n <= 32)%nat → in_s (8 * Z.of_nat n) (sval256 value) →
  wrap_s (8 * Z.of_nat n) (le_value (take n (concat (map (le_bytes 4) value)))) = sval256 value.
Proof.
  intros Hv Hn Hr. assert (length (concat (map (le_bytes 4) value)) = 32%nat) as Hlen.
  { destruct Hv as [Hl _]. do 8 (destruct value as [|? value]; [done|]). by destruct value. }
  rewrite take_value by lia. rewrite memory_value by apply Hv. rewrite (sval256_wrap value Hv). rewrite wrap_s_wrap_u by lia.
  assert (∃ k, 2 ^ 256 = k * 2 ^ (8 * Z.of_nat n)) as [k Hk] by (exists (2 ^ (256 - 8 * Z.of_nat n)); rewrite <- Z.pow_add_r by lia; f_equal; lia).
  rewrite <- (wrap_s_id (8 * Z.of_nat n) (sval256 value)) at 2 by (done || lia). unfold wrap_s, wrap_u. by rewrite !Z.mod_mod_divide by (by exists k).
Qed.

(** [WriteBinary256Variadic] writes the string of the number for every value that the precision holds. *)
Lemma WriteBinary256Variadic_spec precision value : 1 <= precision <= MaxPrecision → ok256 value → Z.abs (sval256 value) < 10 ^ precision →
  WriteBinary256Variadic precision value (Z.of_nat (size_of_precision precision)) = Ok (bytes_of_decimal (size_of_precision precision) (Number (sval256 value))).
Proof.
  intros Hp Hv Hfits. destruct (precision_size precision Hp) as (Eg & _ & Hfit & Hcases). unfold WriteBinary256Variadic. rewrite Eg. run_bind.
  assert (∀ n, size_of_precision precision = n → in_s (8 * Z.of_nat n) (sval256 value)) as Hr by (intros n <-; unfold in_s; lia).
  destruct Hcases as [E|[E|[E|E]]]; rewrite E in *; specialize (Hr _ eq_refl); cbn [Z.of_nat Z.eqb Pos.eqb Pos.of_succ_nat Pos.succ].
  - cbn [FromMemory ToMemory Int32 Int256 native]. rewrite (read_prefix 4) by (done || lia). exact (WriteBinary_spec (D := Int32) precision (sval256 value) Hp E Hr).
  - cbn [FromMemory ToMemory Int64 Int256 native]. rewrite (read_prefix 8) by (done || lia). exact (WriteBinary_spec (D := Int64) precision (sval256 value) Hp E Hr).
  - cbn [FromMemory ToMemory Int128 Int256 native]. rewrite (read_prefix 16) by (done || lia). exact (WriteBinary_spec (D := Int128) precision (sval256 value) Hp E Hr).
  - exact (WriteBinary_spec (D := Int256) precision value Hp E Hv).
Qed.

(** ** [TDecimal] *)

Lemma TextToBinary_spec text precision scale : 1 <= precision <= MaxPrecision → 0 <= scale <= precision → TextToBinary text precision scale =
  match decimal_of_text precision scale text with Some d => Ok (bytes_of_decimal (size_of_precision precision) d) | None => Throw EInvalidDecimal end.
Proof.
  intros Hp Hs. unfold TextToBinary. rewrite ValidatePrecision_ok, bool_decide_eq_true_2 by done. run_bind. destruct (precision_size precision Hp) as (-> & _ & Hfit & Hcases). run_bind.
  destruct Hcases as [E|[E|[E|E]]]; rewrite E in *; cbn [Z.of_nat Z.eqb Pos.eqb Pos.of_succ_nat Pos.succ].
  - exact (TextToBinaryImpl_spec (D := Int32) text precision scale (proj1 Hs) Hfit).
  - exact (TextToBinaryImpl_spec (D := Int64) text precision scale (proj1 Hs) Hfit).
  - exact (TextToBinaryImpl_spec (D := Int128) text precision scale (proj1 Hs) Hfit).
  - exact (TextToBinaryImpl_spec (D := Int256) text precision scale (proj1 Hs) Hfit).
Qed.

Lemma BinaryToText_spec bytes precision scale : 1 <= precision <= MaxPrecision → 0 <= scale <= precision → (length bytes = 4 ∨ length bytes = 8 ∨ length bytes = 16 ∨ length bytes = 32)%nat →
  ∃ text, BinaryToText bytes precision scale = Ok text ∧ Shows scale (decimal_of_bytes bytes) text ∧ (length text <= MaxTextSize)%nat.
Proof.
  intros Hp Hs Hlen. unfold BinaryToText. rewrite ValidatePrecision_ok, bool_decide_eq_true_2 by done. run_bind. destruct Hlen as [E|[E|[E|E]]]; rewrite E;
    [apply (BinaryToTextImpl_spec (D := Int32))|apply (BinaryToTextImpl_spec (D := Int64))|apply (BinaryToTextImpl_spec (D := Int128))|apply (BinaryToTextImpl_spec (D := Int256))]; (exact E || lia).
Qed.

Lemma ValidateBinaryValue_spec bytes precision scale : 1 <= precision <= MaxPrecision → 0 <= scale <= precision → ValidateBinaryValue bytes precision scale =
  if bool_decide (length bytes = size_of_precision precision) && holds precision (decimal_of_bytes bytes) then Ok () else Throw EInvalidDecimal.
Proof.
  intros Hp Hs. unfold ValidateBinaryValue, CheckDecimalValueSize. destruct (precision_size precision Hp) as (-> & _ & _ & Hcases). run_bind. destruct (bool_decide (length bytes = size_of_precision precision)) eqn:Hb.
  - apply bool_decide_eq_true in Hb. rewrite Hb, Z.eqb_refl. cbn [negb]. run_bind. destruct Hcases as [E|[E|[E|E]]]; rewrite E in *; cbn [andb];
      [apply (ValidateImpl_spec (D := Int32))|apply (ValidateImpl_spec (D := Int64))|apply (ValidateImpl_spec (D := Int128))|apply (ValidateImpl_spec (D := Int256))]; (exact Hb || exact E || lia || done).
  - apply bool_decide_eq_false in Hb. destruct (Z.eqb_spec (Z.of_nat (length bytes)) (Z.of_nat (size_of_precision precision))); [lia|]. done.
Qed.

(** C34. [TDecimal::TextToBinary], over integers of 32, 64, 128 or 256 bits by precision, accepts exactly the texts
    that the reference reading gives a meaning: an optional sign, then "inf" or "nan" in any case of letters, or
    digits with at most one point that fit the precision and the scale; the result is the string of that decimal,
    whatever carries and wraps the arithmetic by words makes, and all other texts are refused by an exception.
    The strings of two texts compare as bytes exactly as the decimals compare: minus infinity, the numbers,
    infinity, not a number. *)
Theorem TextToBinary_correct precision scale : 1 <= precision <= MaxPrecision → 0 <= scale <= precision →
  (∀ text, TextToBinary text precision scale = match decimal_of_text precision scale text with Some d => Ok (bytes_of_decimal (size_of_precision precision) d) | None => Throw EInvalidDecimal end) ∧
  (∀ text1 text2 d1 d2 bytes1 bytes2, decimal_of_text precision scale text1 = Some d1 → decimal_of_text precision scale text2 = Some d2 →
    TextToBinary text1 precision scale = Ok bytes1 → TextToBinary text2 precision scale = Ok bytes2 → TernaryCompare_string bytes1 bytes2 = decimal_compare d1 d2).
Proof.
  intros Hp Hs. split; [intros text; by apply TextToBinary_spec|]. intros text1 text2 d1 d2 bytes1 bytes2 E1 E2. rewrite !TextToBinary_spec, E1, E2 by done. intros [= <-] [= <-].
  destruct (precision_size precision Hp) as (_ & _ & Hfit & Hcases). assert (0 < 10 ^ precision) by (apply Z.pow_pos_nonneg; lia).
  assert (∀ text d, decimal_of_text precision scale text = Some d → holds precision d = true) as Hholds.
  { intros text d E. destruct d as [|v| |]; try done. apply Z.ltb_lt. by apply (decimal_of_text_fits precision scale text); [lia|]. }
  assert (0 < 8 * Z.of_nat (size_of_precision precision)) as Hw by lia. pose proof (Hholds _ _ E1) as H1. pose proof (Hholds _ _ E2) as H2.
  destruct (code_holds _ d1 _ H1 Hfit Hw ltac:(done)) as [R1 _]. destruct (code_holds _ d2 _ H2 Hfit Hw ltac:(done)) as [R2 _].
  unfold bytes_of_decimal. rewrite be_compare by (by rewrite !length_be_bytes). rewrite !be_value_bytes by (by rewrite pow_256). rewrite <- (code_compare precision d1 d2 _ H1 H2 Hfit) by done.
  unfold TernaryCompare. repeat match goal with |- context [?x =? ?y] => destruct (Z.eqb_spec x y) | |- context [?x <? ?y] => destruct (Z.ltb_spec x y) end; lia.
Qed.

(** C35. [TDecimal::BinaryToText] returns for every string of 4, 8, 16 or 32 bytes, valid or not: the text shows the
    decimal of the string with exactly the digits of the scale and no superfluous zero, and never is longer than
    the buffer of MaxTextSize, which the code does not check. When the scale is less than the precision,
    TextToBinary gives back the string of every text printed for a valid value. *)
Theorem BinaryToText_correct bytes precision scale : 1 <= precision <= MaxPrecision → 0 <= scale <= precision → (length bytes = 4 ∨ length bytes = 8 ∨ length bytes = 16 ∨ length bytes = 32)%nat →
  ∃ text, BinaryToText bytes precision scale = Ok text ∧ Shows scale (decimal_of_bytes bytes) text ∧ (length text <= MaxTextSize)%nat ∧
    (scale < precision → ValidateBinaryValue bytes precision scale = Ok () → TextToBinary text precision scale = Ok bytes).
Proof.
  intros Hp Hs Hlen. destruct (BinaryToText_spec bytes precision scale Hp Hs Hlen) as (text & E & Hshow & Hl). exists text. split; [done|]. split; [done|]. split; [done|]. intros Hlt Hvalid.
  rewrite ValidateBinaryValue_spec in Hvalid by done. destruct (bool_decide (length bytes = size_of_precision precision)) eqn:Hb; [|done]. apply bool_decide_eq_true in Hb. cbn [andb] in Hvalid.
  destruct (holds precision (decimal_of_bytes bytes)) eqn:Hholds; [|done]. rewrite TextToBinary_spec, (Shows_read _ _ (decimal_of_bytes bytes)); [|lia|done| |done..].
  - by rewrite <- Hb, bytes_of_decimal_of.
  - intros v Ev. rewrite Ev in Hholds. by apply Z.ltb_lt.
Qed.

Lemma decimal_of_bytes_of precision d : 1 <= precision <= MaxPrecision → holds precision d = true →
  length (bytes_of_decimal (size_of_precision precision) d) = size_of_precision precision ∧ decimal_of_bytes (bytes_of_decimal (size_of_precision precision) d) = d.
Proof.
  intros Hp Hd. destruct (precision_size precision Hp) as (_ & _ & Hfit & Hcases). split; [apply length_be_bytes|]. destruct (code_holds _ d _ Hd Hfit) as [Hr E]; [lia|apply Z.pow_pos_nonneg; lia|].
  unfold decimal_of_bytes, width, bytes_of_decimal. rewrite length_be_bytes, be_value_bytes by (by rewrite pow_256). by rewrite Z.add_simpl_r.
Qed.

Lemma TextToBinary_correct_witness : TextToBinary (B"-12.5") 40 2 = Ok (bytes_of_decimal 32 (Number (-1250))) ∧ TextToBinary (B"1.5.0") 40 2 = Throw EInvalidDecimal ∧
  TernaryCompare_string (bytes_of_decimal 32 (Number (-1250))) (bytes_of_decimal 32 Infinity) = -1.
Proof.
  destruct (TextToBinary_correct 40 2) as [H1 H2]; [unfold MaxPrecision; lia|lia|]. split; [rewrite H1; reflexivity|]. split; [rewrite H1; reflexivity|].
  apply (H2 (B"-12.5") (B"+INF") (Number (-1250)) Infinity); [reflexivity|reflexivity|rewrite H1; reflexivity|rewrite H1; reflexivity].
Defined.

Lemma BinaryToText_correct_witness : ∃ text, BinaryToText (bytes_of_decimal 4 (Number (-5))) 9 4 = Ok text ∧ TextToBinary text 9 4 = Ok (bytes_of_decimal 4 (Number (-5))) ∧ text = B"-0.0005".
Proof.
  destruct (BinaryToText_correct (bytes_of_decimal 4 (Number (-5))) 9 4) as (text & E & _ & _ & Hround); [unfold MaxPrecision; lia|lia|by left|].
  exists text. split; [exact E|]. split; [apply Hround; [lia|vm_compute; reflexivity]|]. vm_compute in E. injection E as <-. reflexivity.
Defined.

(** [TDecimal::ValidateBinaryValue] accepts exactly the strings of the size of the precision that are
    infinities, the not-a-number or numbers with at most [precision] digits (the tables of the greatest integers,
    for every precision, hold 10^precision - 1), and refuses all others by an exception. So it accepts whatever
    TextToBinary returns. *)
Theorem ValidateBinaryValue_correct precision scale : 1 <= precision <= MaxPrecision → 0 <= scale <= precision →
  (∀ bytes, ValidateBinaryValue bytes precision scale = if bool_decide (length bytes = size_of_precision precision) && holds precision (decimal_of_bytes bytes) then Ok () else Throw EInvalidDecimal) ∧
  (∀ text bytes, TextToBinary text precision scale = Ok bytes → ValidateBinaryValue bytes precision scale = Ok ()).
Proof.
  intros Hp Hs. split; [intros bytes; by apply ValidateBinaryValue_spec|]. intros text bytes E. rewrite TextToBinary_spec in E by done. destruct (decimal_of_text precision scale text) as [d|] eqn:Ed; [|done]. injection E as <-.
  assert (holds precision d = true) as Hd by (destruct d; try done; apply Z.ltb_lt; by apply (decimal_of_text_fits precision scale text); [lia|]).
  destruct (decimal_of_bytes_of precision d Hp Hd) as [Hl E]. rewrite ValidateBinaryValue_spec by done. by rewrite Hl, E, Hd, bool_decide_eq_true_2.
Qed.

Lemma ValidateBinaryValue_correct_witness : ValidateBinaryValue (bytes_of_decimal 16 (Number (10 ^ 20 - 1))) 20 3 = Ok () ∧ ValidateBinaryValue (bytes_of_decimal 16 (Number (10 ^ 20))) 20 3 = Throw EInvalidDecimal.
Proof.
  destruct (ValidateBinaryValue_correct 20 3) as [H1 _]; [unfold MaxPrecision; lia|lia|]. split; rewrite H1; vm_compute; reflexivity.
Defined.

(** With a scale equal to the precision a number is printed with the zero before the point, and no text with a digit
    there is read: the printed text of a valid value is refused. *)
Lemma full_scale_not_read : ValidateBinaryValue (bytes_of_decimal 4 (Number 5)) 1 1 = Ok () ∧ BinaryToText (bytes_of_decimal 4 (Number 5)) 1 1 = Ok (B"0.5") ∧
  TextToBinary (B"0.5") 1 1 = Throw EInvalidDecimal ∧ TextToBinary (B".5") 1 1 = Ok (bytes_of_decimal 4 (Number 5)).
Proof. vm_compute. done. Qed.

(** The string of zeros is the least integer: its negation, for the text in the message of the exception, overflows. *)
Lemma least_integer_negated : DecimalBinaryToIntegerUnchecked (H := Int32) (repeat "000"%byte 4) = - 2 ^ 31 ∧ (- (- 2 ^ 31) > 2 ^ 31 - 1) ∧
  BinaryToText (repeat "000"%byte 4) 9 0 = Ok (B"-2147483648") ∧ ValidateBinaryValue (repeat "000"%byte 4) 9 0 = Throw EInvalidDecimal.
Proof. vm_compute. done. Qed.
