(* ===== verification/LogicalType.v ===== *)
(** Logical types (yt/yt/client/table_client/logical_type.h, logical_type.cpp, row_base.h): the
    types of columns, what values of them look like on the wire, removal of tags, equality,
    and the validation of types. Pointers to types are the types themselves: comparing them
    in [DetagLogicalType] and [operator==] only saves work. *)

From S2P Require Import Prelude Utf8 CompositeCompare.

(** ** Types *)

Inductive ESimpleLogicalValueType : Set :=
| SimpleNull | SimpleInt64 | SimpleUint64 | SimpleDouble | SimpleBoolean | SimpleString | SimpleAny
| SimpleInt8 | SimpleUint8 | SimpleInt16 | SimpleUint16 | SimpleInt32 | SimpleUint32 | SimpleUtf8
| SimpleDate | SimpleDatetime | SimpleTimestamp | SimpleInterval | SimpleVoid | SimpleFloat | SimpleJson | SimpleUuid
| SimpleDate32 | SimpleDatetime64 | SimpleTimestamp64 | SimpleInterval64
| SimpleTzDate | SimpleTzDatetime | SimpleTzTimestamp | SimpleTzDate32 | SimpleTzDatetime64 | SimpleTzTimestamp64.

#[export] Instance ESimpleLogicalValueType_eq_dec : EqDecision ESimpleLogicalValueType.
Proof. solve_decision. Defined.

Definition GetPhysicalType (type : ESimpleLogicalValueType) : EValueType :=
  match type with
  | SimpleNull | SimpleVoid => TypeNull
  | SimpleInt64 | SimpleInt8 | SimpleInt16 | SimpleInt32 | SimpleInterval => TypeInt64
  | SimpleDate32 | SimpleDatetime64 | SimpleTimestamp64 | SimpleInterval64 => TypeInt64
  | SimpleUint64 | SimpleUint8 | SimpleUint16 | SimpleUint32 | SimpleDate | SimpleDatetime | SimpleTimestamp => TypeUint64
  | SimpleDouble | SimpleFloat => TypeDouble
  | SimpleBoolean => TypeBoolean
  | SimpleString | SimpleUtf8 | SimpleJson | SimpleUuid => TypeString
  | SimpleTzDate | SimpleTzDatetime | SimpleTzTimestamp | SimpleTzDate32 | SimpleTzDatetime64 | SimpleTzTimestamp64 => TypeString
  | SimpleAny => TypeAny
  end.

Definition GetLogicalType (type : EValueType) : Result ESimpleLogicalValueType :=
  match type with
  | TypeNull => Ok SimpleNull | TypeInt64 => Ok SimpleInt64 | TypeUint64 => Ok SimpleUint64 | TypeDouble => Ok SimpleDouble
  | TypeBoolean => Ok SimpleBoolean | TypeString => Ok SimpleString | TypeAny => Ok SimpleAny
  | TypeComposite | TypeMin | TypeMax | TheBottom => Throw EBadLogicalType
  end.

Definition IsIntegralType (type : ESimpleLogicalValueType) : bool :=
  match type with
  | SimpleInt8 | SimpleInt16 | SimpleInt32 | SimpleInt64 | SimpleUint8 | SimpleUint16 | SimpleUint32 | SimpleUint64 => true
  | _ => false
  end.

Definition IsFloatingPointType (type : ESimpleLogicalValueType) : bool := match type with SimpleDouble | SimpleFloat => true | _ => false end.

Definition IsStringLikeType (type : ESimpleLogicalValueType) : bool :=
  match type with SimpleString | SimpleAny | SimpleUtf8 | SimpleJson | SimpleUuid => true | _ => false end.

Definition IsTzSimpleType (type : ESimpleLogicalValueType) : bool :=
  match type with SimpleTzDate | SimpleTzDatetime | SimpleTzTimestamp | SimpleTzDate32 | SimpleTzDatetime64 | SimpleTzTimestamp64 => true | _ => false end.

Inductive EAggregateFunction : Set := Sum | Avg | Min | Max.

#[export] Instance EAggregateFunction_eq_dec : EqDecision EAggregateFunction.
Proof. solve_decision. Defined.

Record TStructField (T : Type) := { Name : list byte; StableName : list byte; FieldType : T }.
Arguments Name {T}.
Arguments StableName {T}.
Arguments FieldType {T}.
Arguments Build_TStructField {T}.

#[local] Unset Elimination Schemes.
Inductive TLogicalType :=
| SimpleType (element : ESimpleLogicalValueType)
| DecimalType (precision scale : Z)
| OptionalType (element : TLogicalType)
| ListType (element : TLogicalType)
| StructType (fields : list (TStructField TLogicalType)) (removedFieldStableNames : list (list byte))
| TupleType (elements : list TLogicalType)
| VariantStructType (fields : list (TStructField TLogicalType))
| VariantTupleType (elements : list TLogicalType)
| DictType (key value : TLogicalType)
| TaggedType (tag : list byte) (element : TLogicalType)
| AggregateStateType (function : EAggregateFunction) (argumentType element : TLogicalType).

#[local] Set Elimination Schemes.

(** The induction principle, with the types inside lists. *)
Section Induction.
Context (P : TLogicalType → Prop).
Context (HSimple : ∀ s, P (SimpleType s)) (HDecimal : ∀ precision scale, P (DecimalType precision scale)).
Context (HOptional : ∀ t, P t → P (OptionalType t)) (HList : ∀ t, P t → P (ListType t)).
Context (HStruct : ∀ fields removed, Forall (λ f, P (FieldType f)) fields → P (StructType fields removed)).
Context (HTuple : ∀ elements, Forall P elements → P (TupleType elements)).
Context (HVariantStruct : ∀ fields, Forall (λ f, P (FieldType f)) fields → P (VariantStructType fields)).
Context (HVariantTuple : ∀ elements, Forall P elements → P (VariantTupleType elements)).
Context (HDict : ∀ k v, P k → P v → P (DictType k v)) (HTagged : ∀ tag t, P t → P (TaggedType tag t)).
Context (HAggregate : ∀ f a t, P a → P t → P (AggregateStateType f a t)).

Fixpoint TLogicalType_induction (t : TLogicalType) : P t :=
  let fields := fix fields (l : list (TStructField TLogicalType)) : Forall (λ f, P (FieldType f)) l :=
    match l with
    | [] => @List.Forall_nil _ _
    | field :: l => @List.Forall_cons _ (λ f, P (FieldType f)) field l (match field as f return P (FieldType f) with Build_TStructField _ _ type => TLogicalType_induction type end) (fields l)
    end in
  let elements := fix elements (l : list TLogicalType) : Forall P l :=
    match l with [] => @List.Forall_nil _ _ | type :: l => @List.Forall_cons _ P type l (TLogicalType_induction type) (elements l) end in
  match t with
  | SimpleType s => HSimple s
  | DecimalType precision scale => HDecimal precision scale
  | OptionalType t => HOptional t (TLogicalType_induction t)
  | ListType t => HList t (TLogicalType_induction t)
  | StructType l removed => HStruct l removed (fields l)
  | TupleType l => HTuple l (elements l)
  | VariantStructType l => HVariantStruct l (fields l)
  | VariantTupleType l => HVariantTuple l (elements l)
  | DictType k v => HDict k v (TLogicalType_induction k) (TLogicalType_induction v)
  | TaggedType tag t => HTagged tag t (TLogicalType_induction t)
  | AggregateStateType f a t => HAggregate f a t (TLogicalType_induction a) (TLogicalType_induction t)
  end.
End Induction.

(** ** Properties of types *)

Fixpoint IsNullable (type : TLogicalType) : bool :=
  match type with
  | SimpleType element => bool_decide (GetPhysicalType element = TypeNull)
  | OptionalType _ => true
  | TaggedType _ element | AggregateStateType _ _ element => IsNullable element
  | DecimalType _ _ | ListType _ | StructType _ _ | TupleType _ | VariantStructType _ | VariantTupleType _ | DictType _ _ => false
  end.

Definition is_optional (type : TLogicalType) : bool := match type with OptionalType _ => true | _ => false end.
Definition is_simple (type : TLogicalType) : bool := match type with SimpleType _ => true | _ => false end.

(** [TOptionalLogicalType::Simplify]. *)
Definition Simplify (element : TLogicalType) : option ESimpleLogicalValueType :=
  match element with SimpleType s => if IsNullable element then None else Some s | _ => None end.

Definition sum_of {A} (f : A → Z) (l : list A) : Z := foldr (λ x sum, f x + sum) 0 l.

Fixpoint GetTypeComplexity (type : TLogicalType) : Z :=
  match type with
  | SimpleType _ | DecimalType _ _ => 1
  | OptionalType element => if is_simple element then 1 else 1 + GetTypeComplexity element
  | ListType element | TaggedType _ element | AggregateStateType _ _ element => 1 + GetTypeComplexity element
  | StructType fields removed => 1 + sum_of (λ field, GetTypeComplexity (FieldType field)) fields + Z.of_nat (length removed)
  | VariantStructType fields => 1 + sum_of (λ field, GetTypeComplexity (FieldType field)) fields
  | TupleType elements | VariantTupleType elements => 1 + sum_of GetTypeComplexity elements
  | DictType key value => 1 + GetTypeComplexity key + GetTypeComplexity value
  end.

(** *** The old type system and the wire *)

Record TTypeV3Info := { V1Type : ESimpleLogicalValueType; WireType : EValueType; Required : bool; IsPureV1Type : bool }.

Fixpoint GetTypeV3Info (logicalType : TLogicalType) : TTypeV3Info :=
  match logicalType with
  | SimpleType element => {| V1Type := element; WireType := GetPhysicalType element; Required := negb (IsNullable logicalType); IsPureV1Type := true |}
  | DecimalType _ _ => {| V1Type := SimpleString; WireType := TypeString; Required := true; IsPureV1Type := false |}
  | OptionalType element =>
      if IsNullable element then {| V1Type := SimpleAny; WireType := TypeComposite; Required := false; IsPureV1Type := false |}
      else let elementInfo := GetTypeV3Info element in
        {| V1Type := V1Type elementInfo; WireType := WireType elementInfo; Required := false; IsPureV1Type := IsPureV1Type elementInfo |}
  | TaggedType _ element | AggregateStateType _ _ element => GetTypeV3Info element
  | ListType _ | StructType _ _ | TupleType _ | VariantStructType _ | VariantTupleType _ | DictType _ _ =>
      {| V1Type := SimpleAny; WireType := TypeComposite; Required := true; IsPureV1Type := false |}
  end.

Definition CastToV1Type (logicalType : TLogicalType) : ESimpleLogicalValueType * bool := let info := GetTypeV3Info logicalType in (V1Type info, Required info).
Definition IsV1Type (logicalType : TLogicalType) : bool := IsPureV1Type (GetTypeV3Info logicalType).
Definition GetWireType (logicalType : TLogicalType) : EValueType := WireType (GetTypeV3Info logicalType).
Definition IsV3Composite (logicalType : TLogicalType) : bool := bool_decide (GetWireType logicalType = TypeComposite).
Definition IsTzType (logicalType : TLogicalType) : bool := IsTzSimpleType (fst (CastToV1Type logicalType)).

(** *** Tags *)

Definition map_field {T T'} (f : T → T') (field : TStructField T) : TStructField T' :=
  {| Name := Name field; StableName := StableName field; FieldType := f (FieldType field) |}.

(** [DetagFields] and [DetagElements] are maps. *)
Fixpoint DetagLogicalType (type : TLogicalType) : TLogicalType :=
  match type with
  | SimpleType _ | DecimalType _ _ => type
  | OptionalType element => OptionalType (DetagLogicalType element)
  | ListType element => ListType (DetagLogicalType element)
  | StructType fields removed => StructType (map (map_field DetagLogicalType) fields) removed
  | TupleType elements => TupleType (map DetagLogicalType elements)
  | VariantStructType fields => VariantStructType (map (map_field DetagLogicalType) fields)
  | VariantTupleType elements => VariantTupleType (map DetagLogicalType elements)
  | DictType key value => DictType (DetagLogicalType key) (DetagLogicalType value)
  | TaggedType _ element | AggregateStateType _ _ element => DetagLogicalType element
  end.

Definition DenullifyLogicalType (type : TLogicalType) : TLogicalType :=
  let detagged := DetagLogicalType type in
  match detagged with OptionalType element => if IsNullable element then detagged else element | _ => detagged end.

(** *** Equality *)

Section ListEqual.
Context {A : Type} (equal : A → A → bool).

Fixpoint list_equal (lhs rhs : list A) : bool :=
  match lhs, rhs with
  | [], [] => true
  | l :: lhs, r :: rhs => equal l r && list_equal lhs rhs
  | _, _ => false
  end.
End ListEqual.

Definition field_equal {T} (equal : T → T → bool) (lhs rhs : TStructField T) : bool :=
  bool_decide (Name lhs = Name rhs) && bool_decide (StableName lhs = StableName rhs) && equal (FieldType lhs) (FieldType rhs).

(** [operator==]; the element of an aggregate state is not compared. *)
Fixpoint type_equal (lhs rhs : TLogicalType) : bool :=
  match lhs, rhs with
  | SimpleType l, SimpleType r => bool_decide (l = r)
  | OptionalType l, OptionalType r => type_equal l r
  | ListType l, ListType r => type_equal l r
  | StructType lhs lr, StructType rhs rr => list_equal (field_equal type_equal) lhs rhs && bool_decide (lr = rr)
  | TupleType lhs, TupleType rhs => list_equal type_equal lhs rhs
  | VariantStructType lhs, VariantStructType rhs => list_equal (field_equal type_equal) lhs rhs
  | VariantTupleType lhs, VariantTupleType rhs => list_equal type_equal lhs rhs
  | DictType lk lv, DictType rk rv => type_equal lk rk && type_equal lv rv
  | TaggedType ltag l, TaggedType rtag r => bool_decide (ltag = rtag) && type_equal l r
  | DecimalType lp ls, DecimalType rp rs => (lp =? rp) && (ls =? rs)
  | AggregateStateType lf la _, AggregateStateType rf ra _ => bool_decide (lf = rf) && type_equal la ra
  | _, _ => false
  end.

(** *** Comparable types, aggregate states *)

Definition simple_comparable (type : ESimpleLogicalValueType) : bool := match type with SimpleAny | SimpleJson => false | _ => true end.

Fixpoint IsComparable (type : TLogicalType) : bool :=
  match type with
  | SimpleType element => simple_comparable element
  | DecimalType _ _ => true
  | OptionalType element | ListType element | TaggedType _ element => IsComparable element
  | TupleType elements | VariantTupleType elements => forallb IsComparable elements
  | StructType _ _ | VariantStructType _ | DictType _ _ | AggregateStateType _ _ _ => false
  end.

Fixpoint HasAggregateStateType (logicalType : TLogicalType) : bool :=
  match logicalType with
  | SimpleType _ | DecimalType _ _ => false
  | OptionalType element | ListType element | TaggedType _ element => HasAggregateStateType element
  | StructType fields _ | VariantStructType fields => existsb (λ field, HasAggregateStateType (FieldType field)) fields
  | TupleType elements | VariantTupleType elements => existsb HasAggregateStateType elements
  | DictType key value => HasAggregateStateType key || HasAggregateStateType value
  | AggregateStateType _ _ _ => true
  end.

Definition NullLogicalType : TLogicalType := SimpleType SimpleNull.

Definition GetAggregateStateSumType (argumentType : ESimpleLogicalValueType) : TLogicalType :=
  match argumentType with
  | SimpleInt8 | SimpleInt16 | SimpleInt32 | SimpleInt64 => SimpleType SimpleInt64
  | SimpleUint8 | SimpleUint16 | SimpleUint32 | SimpleUint64 => SimpleType SimpleUint64
  | SimpleFloat | SimpleDouble => SimpleType SimpleDouble
  | _ => NullLogicalType
  end.

Definition InferAggregateStateElementType (function : EAggregateFunction) (argumentType : TLogicalType) : TLogicalType :=
  match argumentType with
  | SimpleType argument =>
      match function with
      | Sum => GetAggregateStateSumType argument
      | Min | Max => OptionalType argumentType
      | Avg => StructType [{| Name := B"sum"; StableName := B"sum"; FieldType := GetAggregateStateSumType argument |};
                           {| Name := B"count"; StableName := B"count"; FieldType := SimpleType SimpleInt64 |}] []
      end
  | _ => NullLogicalType
  end.

Definition InferAggregateStateTypeIfNull (function : EAggregateFunction) (argumentType : TLogicalType) (elementType : option TLogicalType) : TLogicalType :=
  match elementType with Some elementType => elementType | None => InferAggregateStateElementType function argumentType end.

Definition AggregateStateLogicalType (function : EAggregateFunction) (argumentType : TLogicalType) (elementType : option TLogicalType) : TLogicalType :=
  AggregateStateType function argumentType (InferAggregateStateTypeIfNull function argumentType elementType).

Definition MakeOptionalIfNot (element : TLogicalType) : TLogicalType := if is_optional element then element else OptionalType element.

Definition MakeLogicalType (element : ESimpleLogicalValueType) (required : bool) : Result TLogicalType :=
  match element with
  | SimpleNull | SimpleVoid => if required then Throw EBadLogicalType else Ok (SimpleType element)
  | _ => Ok (if required then SimpleType element else OptionalType (SimpleType element))
  end.

(** ** Validation of types *)

Section Each.
Context {A : Type} (f : A → Result ()).

Fixpoint each (l : list A) : Result () := match l with [] => Ok () | x :: l => _ ← f x; each l end.
End Each.

(** The stack of the walk, the innermost type first. *)
Section Walk.
Context (onElement : list TLogicalType → TLogicalType → Result ()).

Fixpoint WalkImpl (stack : list TLogicalType) (type : TLogicalType) : Result () :=
  _ ← onElement stack type;
  let stack := type :: stack in
  match type with
  | SimpleType _ | DecimalType _ _ => Ok ()
  | OptionalType element | ListType element | TaggedType _ element | AggregateStateType _ _ element => WalkImpl stack element
  | StructType fields _ | VariantStructType fields => each (λ field, WalkImpl stack (FieldType field)) fields
  | TupleType elements | VariantTupleType elements => each (WalkImpl stack) elements
  | DictType key value => _ ← WalkImpl stack key; WalkImpl stack value
  end.

Definition Walk (type : TLogicalType) : Result () := WalkImpl [] type.
End Walk.

Definition throw_if (condition : bool) : Result () := if condition then Throw EBadLogicalType else Ok ().

Definition MaxColumnNameLength : Z := 256.

Fixpoint validateFieldNames (usedNames : list (list byte)) (names : list (list byte)) : Result () :=
  match names with
  | [] => Ok ()
  | fieldName :: names =>
      _ ← throw_if (bool_decide (fieldName = []));
      _ ← throw_if (bool_decide (fieldName ∈ usedNames));
      _ ← throw_if (Z.of_nat (length fieldName) >? MaxColumnNameLength);
      _ ← throw_if (negb (IsUtf fieldName));
      validateFieldNames (fieldName :: usedNames) names
  end.

(** [TStructLogicalTypeBase::ValidateNode]. *)
Definition validate_fields (fields : list (TStructField TLogicalType)) : Result () :=
  _ ← validateFieldNames [] (map Name fields); validateFieldNames [] (map StableName fields).

Fixpoint validate_removed (removedFieldStableNames : list (list byte)) (names : list (list byte)) : Result () :=
  match names with
  | [] => Ok ()
  | stableName :: names => _ ← throw_if (bool_decide (stableName ∈ removedFieldStableNames)); validate_removed (stableName :: removedFieldStableNames) names
  end.

Definition dict_key_element (_ : list TLogicalType) (type : TLogicalType) : Result () :=
  match type with SimpleType (SimpleAny | SimpleJson) => Throw EBadLogicalType | _ => Ok () end.

Definition MinPrecision : Z := 1.
Definition MaxDecimalPrecision : Z := 76.

Definition ValidateNode (stack : list TLogicalType) (type : TLogicalType) : Result () :=
  match type with
  | SimpleType element =>
      throw_if (bool_decide (element = SimpleAny) && match stack with [] => true | parent :: _ => negb (is_optional parent) end)
  | DecimalType precision scale =>
      _ ← throw_if ((precision <? MinPrecision) || (precision >? MaxDecimalPrecision));
      _ ← throw_if (scale <? 0);
      throw_if (scale >? precision)
  | OptionalType _ | ListType _ | TupleType _ | VariantTupleType _ => Ok ()
  | StructType fields removed =>
      _ ← validate_fields fields;
      _ ← validate_removed [] removed;
      each (λ field, throw_if (bool_decide (StableName field ∈ removed))) fields
  | VariantStructType fields => validate_fields fields
  | DictType key _ => Walk dict_key_element key
  | TaggedType tag _ =>
      _ ← throw_if (bool_decide (tag = []));
      _ ← throw_if (Z.of_nat (length tag) >? MaxColumnNameLength);
      throw_if (negb (IsUtf tag))
  | AggregateStateType function argumentType element =>
      match argumentType with
      | SimpleType simpleType =>
          _ ← match function with
              | Sum | Avg => throw_if (negb (IsIntegralType simpleType) && negb (IsFloatingPointType simpleType))
              | Min | Max => throw_if (negb (IsComparable argumentType))
              end;
          throw_if (negb (type_equal (InferAggregateStateElementType function argumentType) element))
      | _ => Throw EBadLogicalType
      end
  end.

Definition ValidateLogicalType (depthLimit : option Z) (type : TLogicalType) : Result () :=
  Walk (λ stack type,
    _ ← ValidateNode stack type;
    match depthLimit with Some limit => throw_if (Z.of_nat (length stack) >? limit) | None => Ok () end) type.

(** ** Reference: the occurrences of types *)

Definition children (type : TLogicalType) : list TLogicalType :=
  match type with
  | SimpleType _ | DecimalType _ _ => []
  | OptionalType element | ListType element | TaggedType _ element | AggregateStateType _ _ element => [element]
  | StructType fields _ | VariantStructType fields => map FieldType fields
  | TupleType elements | VariantTupleType elements => elements
  | DictType key value => [key; value]
  end.

(** [type] occurs in the root below the types of the stack, the innermost first. *)
Inductive Occurs (root : TLogicalType) : list TLogicalType → TLogicalType → Prop :=
| occurs_root : Occurs root [] root
| occurs_child stack type child : Occurs root stack type → child ∈ children type → Occurs root (type :: stack) child.

Definition name_ok (name : list byte) : Prop := name ≠ [] ∧ Z.of_nat (length name) <= MaxColumnNameLength ∧ IsUtf name = true.
Definition names_ok (names : list (list byte)) : Prop := Forall name_ok names ∧ NoDup names.

(** What is required of a type by itself, below its parent. *)
Definition node_ok (parent : option TLogicalType) (type : TLogicalType) : Prop :=
  match type with
  | SimpleType element => element = SimpleAny → ∃ e, parent = Some (OptionalType e)
  | DecimalType precision scale => 1 <= precision <= 76 ∧ 0 <= scale <= precision
  | OptionalType _ | ListType _ | TupleType _ | VariantTupleType _ => True
  | StructType fields removed => names_ok (map Name fields) ∧ names_ok (map StableName fields) ∧ NoDup removed ∧ Forall (λ f, (StableName f ∉ removed)) fields
  | VariantStructType fields => names_ok (map Name fields) ∧ names_ok (map StableName fields)
  | DictType key _ => ∀ stack t, Occurs key stack t → t ≠ SimpleType SimpleAny ∧ t ≠ SimpleType SimpleJson
  | TaggedType tag _ => name_ok tag
  | AggregateStateType function argumentType element => element = InferAggregateStateElementType function argumentType ∧
      ∃ s, argumentType = SimpleType s ∧
        match function with Sum | Avg => IsIntegralType s = true ∨ IsFloatingPointType s = true | Min | Max => s ≠ SimpleAny ∧ s ≠ SimpleJson end
  end.

Definition WellFormed (depthLimit : option Z) (root : TLogicalType) : Prop :=
  ∀ stack type, Occurs root stack type → node_ok (head stack) type ∧ from_option (λ limit, Z.of_nat (length stack) <= limit) True depthLimit.

(** ** Equality *)

Lemma list_equal_spec {A} (equal : A → A → bool) (R : A → A → Prop) l r : Forall (λ x, ∀ y, equal x y = true ↔ R x y) l → (list_equal equal l r = true ↔ Forall2 R l r).
Proof.
  intros Hl. revert r. induction Hl as [|x l Hx _ IH]; intros [|y r]; cbn [list_equal].
  - split; [constructor|done].
  - split; [done|inversion 1].
  - split; [done|inversion 1].
  - rewrite andb_true_iff, Hx, IH. split; [intros [? ?]; by constructor|inversion 1; subst; done].
Qed.

Lemma Forall2_eq_list {A} (l r : list A) : Forall2 eq l r ↔ l = r.
Proof. split; [induction 1; congruence|intros ->; induction r; by constructor]. Qed.

Lemma Forall2_eq_map {A C} (f : A → C) l r : Forall2 (λ x y, f x = f y) l r ↔ map f l = map f r.
Proof. rewrite <- Forall2_eq_list. by rewrite Forall2_fmap. Qed.

(** A type up to the elements of aggregate states. *)
Fixpoint erase (type : TLogicalType) : TLogicalType :=
  match type with
  | SimpleType _ | DecimalType _ _ => type
  | OptionalType element => OptionalType (erase element)
  | ListType element => ListType (erase element)
  | StructType fields removed => StructType (map (map_field erase) fields) removed
  | TupleType elements => TupleType (map erase elements)
  | VariantStructType fields => VariantStructType (map (map_field erase) fields)
  | VariantTupleType elements => VariantTupleType (map erase elements)
  | DictType key value => DictType (erase key) (erase value)
  | TaggedType tag element => TaggedType tag (erase element)
  | AggregateStateType function argumentType _ => AggregateStateType function (erase argumentType) NullLogicalType
  end.

Lemma field_equal_spec (equal : TLogicalType → TLogicalType → bool) (x y : TStructField TLogicalType) :
  (∀ t, equal (FieldType x) t = true ↔ erase (FieldType x) = erase t) → (field_equal equal x y = true ↔ map_field erase x = map_field erase y).
Proof.
  intros Hx. unfold field_equal, map_field. rewrite !andb_true_iff, !bool_decide_eq_true, Hx. split; [by intros [[-> ->] ->]|by intros [= -> -> ->]].
Qed.

Lemma fields_equal_spec l r : Forall (λ f, ∀ t, type_equal (FieldType f) t = true ↔ erase (FieldType f) = erase t) l →
  (list_equal (field_equal type_equal) l r = true ↔ map (map_field erase) l = map (map_field erase) r).
Proof.
  intros Hl. rewrite (list_equal_spec _ (λ x y, map_field erase x = map_field erase y)); [apply Forall2_eq_map|]. eapply list.Forall_impl; [exact Hl|]. intros x Hx y. by apply field_equal_spec.
Qed.

Lemma elements_equal_spec l r : Forall (λ x, ∀ t, type_equal x t = true ↔ erase x = erase t) l → (list_equal type_equal l r = true ↔ map erase l = map erase r).
Proof. intros Hl. rewrite (list_equal_spec _ (λ x y, erase x = erase y)) by done. apply Forall2_eq_map. Qed.

(** [operator==] is equality up to the elements of aggregate states. *)
Lemma type_equal_spec lhs rhs : type_equal lhs rhs = true ↔ erase lhs = erase rhs.
Proof.
  revert rhs. induction lhs as [s|p sc|t IH|t IH|fields removed IH|elements IH|fields IH|elements IH|k v IHk IHv|tag t IH|f a t IHa _] using TLogicalType_induction; intros rhs; destruct rhs; try done; cbn [type_equal erase].
  - rewrite bool_decide_eq_true. split; [by intros ->|by intros [= ->]].
  - rewrite andb_true_iff, !Z.eqb_eq. split; [by intros [-> ->]|by intros [= -> ->]].
  - rewrite IH. split; [by intros ->|by intros [= ->]].
  - rewrite IH. split; [by intros ->|by intros [= ->]].
  - rewrite andb_true_iff, bool_decide_eq_true, fields_equal_spec by done. split; [by intros [-> ->]|by intros [= -> ->]].
  - rewrite elements_equal_spec by done. split; [by intros ->|by intros [= ->]].
  - rewrite fields_equal_spec by done. split; [by intros ->|by intros [= ->]].
  - rewrite elements_equal_spec by done. split; [by intros ->|by intros [= ->]].
  - rewrite andb_true_iff, IHk, IHv. split; [by intros [-> ->]|by intros [= -> ->]].
  - rewrite andb_true_iff, bool_decide_eq_true, IH. split; [by intros [-> ->]|by intros [= -> ->]].
  - rewrite andb_true_iff, bool_decide_eq_true, IHa. split; [by intros [-> ->]|by intros [= -> ->]].
Qed.

Lemma simple_erase t s : erase t = SimpleType s → t = SimpleType s.
Proof. by destruct t. Qed.

Lemma optional_erase t e : erase t = OptionalType e → ∃ e', t = OptionalType e' ∧ erase e' = e.
Proof. destruct t; try done. intros [= <-]. by eexists. Qed.

Lemma sum_type_simple s : ∃ s', GetAggregateStateSumType s = SimpleType s'.
Proof. destruct s; by eexists. Qed.

(** The states that are inferred have no aggregate states in them. *)
Lemma inferred_equal function s element : type_equal (InferAggregateStateElementType function (SimpleType s)) element = true ↔ element = InferAggregateStateElementType function (SimpleType s).
Proof.
  rewrite type_equal_spec. split; [|by intros ->]. destruct (sum_type_simple s) as [s' Es]. destruct function; cbn [InferAggregateStateElementType]; rewrite ?Es; cbn [erase map map_field Name StableName FieldType]; intros E; symmetry in E.
  - by apply simple_erase.
  - destruct element; try done. injection E as E ->. destruct fields as [|[n1 m1 t1] [|[n2 m2 t2] [|]]]; try done. cbn in E. injection E as -> -> E1 -> -> E2. apply simple_erase in E1, E2. by rewrite E1, E2.
  - apply optional_erase in E as (e & -> & E). f_equal. by apply simple_erase.
  - apply optional_erase in E as (e & -> & E). f_equal. by apply simple_erase.
Qed.

(** ** The walk visits every occurrence *)

Lemma children_induction (P : TLogicalType → Prop) : (∀ t, Forall P (children t) → P t) → ∀ t, P t.
Proof.
  intros Hstep t. induction t using TLogicalType_induction; apply Hstep; cbn [children]; repeat constructor; try done; by apply Forall_fmap.
Qed.

Lemma occurs_cases root rel t : Occurs root rel t ↔ (rel = [] ∧ t = root) ∨ ∃ c rel', c ∈ children root ∧ Occurs c rel' t ∧ rel = rel' ++ [root].
Proof.
  split.
  - induction 1 as [|stack type child Ho IH Hc]; [by left|]. right. destruct IH as [[-> ->]|(c & rel' & Hc' & Ho' & ->)].
    + exists child, []. split; [done|]. split; [constructor|done].
    + exists c, (type :: rel'). split; [done|]. split; [by eapply occurs_child|done].
  - intros [[-> ->]|(c & rel' & Hc & Ho & ->)]; [constructor|]. induction Ho as [|stack type child Ho IH Hc']; cbn [app].
    + eapply occurs_child; [constructor|done].
    + by eapply occurs_child.
Qed.

Lemma bind_unit (r : Result ()) : (_ ← r; Ok ()) = r.
Proof. by destruct r as [[]| | |]. Qed.

Lemma each_map {A C} (g : C → Result ()) (f : A → C) l : each (λ x, g (f x)) l = each g (map f l).
Proof. induction l as [|x l IH]; [done|]. cbn [each map]. by rewrite IH. Qed.

Lemma WalkImpl_eq onElement stack type : WalkImpl onElement stack type = (_ ← onElement stack type; each (WalkImpl onElement (type :: stack)) (children type)).
Proof.
  destruct type; cbn [WalkImpl children each]; rewrite ?bind_unit, <- ?each_map; done.
Qed.

(** A call that returns or throws [e]; it returns exactly when [P] holds. *)
Definition decides (e : TError) (r : Result ()) (P : Prop) : Prop := (r = Ok () ∧ P) ∨ (r = Throw e ∧ ¬ P).

Lemma decides_iff e r P Q : decides e r P → (P ↔ Q) → decides e r Q.
Proof. unfold decides. tauto. Qed.

#[export] Instance decides_proper e r : Proper (iff ==> iff) (decides e r).
Proof. intros P Q HPQ. split; intros Hd; eapply decides_iff; [exact Hd|done|exact Hd|done]. Qed.

Lemma decides_ok e r P : decides e r P → (r = Ok () ↔ P).
Proof. unfold decides. intros [[-> H]|[-> H]]; split; congruence || tauto. Qed.

Lemma decides_bind e r s P Q : decides e r P → decides e s Q → decides e (_ ← r; s) (P ∧ Q).
Proof. unfold decides. intros [[-> H]|[-> H]] Hs; run_bind; [|tauto]. destruct Hs as [[-> ?]|[-> ?]]; tauto. Qed.

Lemma decides_each {A} e (f : A → Result ()) (P : A → Prop) l : (∀ x, x ∈ l → decides e (f x) (P x)) → decides e (each f l) (Forall P l).
Proof.
  induction l as [|x l IH]; intros Hl; [left; split; [done|constructor]|]. cbn [each]. rewrite list.Forall_cons. apply decides_bind; [apply Hl; by left|]. apply IH. intros y Hy. apply Hl. by right.
Qed.

Lemma decides_throw_if condition P : (condition = false ↔ P) → decides EBadLogicalType (throw_if condition) P.
Proof. unfold decides, throw_if. destruct condition; intros [H1 H2]; [right|left]; split; try done; [|by apply H1]. intros HP. by apply H2 in HP. Qed.

Lemma walk_decides e onElement (P : list TLogicalType → TLogicalType → Prop) type stack : (∀ stack t, decides e (onElement stack t) (P stack t)) →
  decides e (WalkImpl onElement stack type) (∀ rel t, Occurs type rel t → P (rel ++ stack) t).
Proof.
  intros Hon. revert stack. induction type as [type IH] using children_induction. intros stack. rewrite WalkImpl_eq. eapply decides_iff.
  { apply decides_bind; [apply Hon|]. apply (decides_each e _ (λ c, ∀ rel t, Occurs c rel t → P (rel ++ type :: stack) t)). intros c Hc. rewrite list.Forall_forall in IH. by apply IH. }
  rewrite list.Forall_forall. split.
  - intros [Hroot Hchildren] rel t Ho. apply occurs_cases in Ho as [[-> ->]|(c & rel' & Hc & Ho & ->)]; [done|]. rewrite <- app_assoc. by apply (Hchildren c).
  - intros Hall. split; [apply (Hall []); constructor|]. intros c Hc rel t Ho. specialize (Hall (rel ++ [type]) t). rewrite <- app_assoc in Hall. apply Hall. apply occurs_cases. right. by exists c, rel.
Qed.

(** ** Validation of nodes *)

Lemma field_names_decides used names : decides EBadLogicalType (validateFieldNames used names) (names_ok names ∧ Forall (λ name, (name ∉ used)) names).
Proof.
  revert used. induction names as [|name names IH]; intros used; [left; split; [done|]; split; [split; constructor|constructor]|]. cbn [validateFieldNames]. eapply decides_iff.
  { repeat (apply decides_bind; [apply decides_throw_if; reflexivity|]). apply IH. }
  unfold names_ok, name_ok. rewrite !list.Forall_cons, list.NoDup_cons, !bool_decide_eq_false, Z.gtb_ltb, Z.ltb_ge, negb_false_iff. rewrite !list.Forall_forall. setoid_rewrite not_elem_of_cons.
  split.
  - intros (H1 & H2 & H3 & H4 & (H5 & H6) & Hn). split; [split; [split; [split_and!; done|done]|split; [intros Hin; by destruct (Hn name Hin)|done]]|split; [done|intros x Hx; by destruct (Hn x Hx)]].
  - intros [[[(H1 & H2 & H3) H4] [H5 H6]] [H7 H8]]. split_and!; try done. intros x Hx. split; [by intros ->|by apply H8].
Qed.

Lemma removed_decides used names : decides EBadLogicalType (validate_removed used names) (NoDup names ∧ Forall (λ name, (name ∉ used)) names).
Proof.
  revert used. induction names as [|name names IH]; intros used; [left; split; [done|]; split; constructor|]. cbn [validate_removed]. eapply decides_iff.
  { apply decides_bind; [apply decides_throw_if; reflexivity|]. apply IH. }
  rewrite list.Forall_cons, list.NoDup_cons, bool_decide_eq_false. rewrite !list.Forall_forall. setoid_rewrite not_elem_of_cons. split.
  - intros (H1 & H2 & Hn). split; [split; [intros Hin; by destruct (Hn name Hin)|done]|split; [done|intros x Hx; by destruct (Hn x Hx)]].
  - intros [[H1 H2] [H3 H4]]. split_and!; try done. intros x Hx. split; [by intros ->|by apply H4].
Qed.

Lemma fields_decides fields : decides EBadLogicalType (validate_fields fields) (names_ok (map Name fields) ∧ names_ok (map StableName fields)).
Proof.
  eapply decides_iff; [apply decides_bind; apply field_names_decides|]. rewrite !list.Forall_forall. split; [tauto|]. intros [? ?]. split; (split; [done|]); intros x _; apply not_elem_of_nil.
Qed.

Lemma dict_key_decides stack t : decides EBadLogicalType (dict_key_element stack t) (t ≠ SimpleType SimpleAny ∧ t ≠ SimpleType SimpleJson).
Proof. unfold dict_key_element. destruct t as [[]| | | | | | | | | |]; ((left; split; [done|by split]) || (right; split; [done|intros [? ?]; done])). Qed.

Lemma comparable_simple s : simple_comparable s = true ↔ s ≠ SimpleAny ∧ s ≠ SimpleJson.
Proof. destruct s; cbn; split; done || (intros [? ?]; done). Qed.

Lemma aggregate_decides function argumentType element : decides EBadLogicalType (ValidateNode [] (AggregateStateType function argumentType element))
  (node_ok None (AggregateStateType function argumentType element)).
Proof.
  cbn [ValidateNode node_ok]. destruct argumentType as [s| | | | | | | | | |]; [|right; split; [done|intros (_ & s & ? & _); done]..].
  assert (decides EBadLogicalType (match function with Sum | Avg => throw_if (negb (IsIntegralType s) && negb (IsFloatingPointType s)) | Min | Max => throw_if (negb (IsComparable (SimpleType s))) end)
    (match function with Sum | Avg => IsIntegralType s = true ∨ IsFloatingPointType s = true | Min | Max => s ≠ SimpleAny ∧ s ≠ SimpleJson end)) as Hf.
  { destruct function; apply decides_throw_if; cbn [IsComparable]; rewrite ?negb_false_iff, ?comparable_simple, ?andb_false_iff, ?negb_false_iff; done. }
  eapply decides_iff; [apply decides_bind; [exact Hf|]; apply decides_throw_if; reflexivity|]. rewrite negb_false_iff, inferred_equal. split.
  - intros [H1 ->]. split; [done|]. by exists s.
  - intros [-> (s' & [= <-] & H)]. done.
Qed.

Lemma node_decides stack type : decides EBadLogicalType (ValidateNode stack type) (node_ok (head stack) type).
Proof.
  destruct type as [s|precision scale| | |fields removed| |fields| |key value|tag t|function a t]; cbn [ValidateNode]; try (left; done).
  - apply decides_throw_if. cbn [node_ok]. rewrite andb_false_iff, bool_decide_eq_false. destruct stack as [|parent stack]; cbn [head]; [split; [by intros [?|?]|intros H; left; intros E; by destruct (H E)]|].
    rewrite negb_false_iff. split.
    + intros [?|?]; [done|]. intros _. destruct parent; try done. by eexists.
    + intros H. destruct (decide (s = SimpleAny)) as [E|]; [right|by left]. by destruct (H E) as [e [= ->]].
  - eapply decides_iff; [apply decides_bind; [apply decides_throw_if; reflexivity|]; apply decides_bind; apply decides_throw_if; reflexivity|].
    unfold MinPrecision, MaxDecimalPrecision. cbn [node_ok]. rewrite orb_false_iff, !Z.gtb_ltb, !Z.ltb_ge. lia.
  - eapply decides_iff; [apply decides_bind; [apply fields_decides|]; apply decides_bind; [apply removed_decides|]|].
    { apply (decides_each _ _ (λ f, (StableName f ∉ removed))). intros f _. apply decides_throw_if. by rewrite bool_decide_eq_false. }
    cbn [node_ok]. rewrite (list.Forall_forall (λ name, name ∉ [])). split; [tauto|]. intros (? & ? & ? & ?). split_and!; try done. intros x _. apply not_elem_of_nil.
  - apply fields_decides.
  - eapply decides_iff; [apply (walk_decides _ _ (λ _ t, t ≠ SimpleType SimpleAny ∧ t ≠ SimpleType SimpleJson)); apply dict_key_decides|]. cbn [node_ok]. done.
  - eapply decides_iff; [apply decides_bind; [apply decides_throw_if; reflexivity|]; apply decides_bind; apply decides_throw_if; reflexivity|].
    cbn [node_ok]. unfold name_ok. by rewrite bool_decide_eq_false, Z.gtb_ltb, Z.ltb_ge, negb_false_iff.
  - apply aggregate_decides.
Qed.

Lemma ValidateLogicalType_decides depthLimit type : decides EBadLogicalType (ValidateLogicalType depthLimit type) (WellFormed depthLimit type).
Proof.
  eapply decides_iff.
  { apply (walk_decides _ _ (λ stack t, node_ok (head stack) t ∧ from_option (λ limit, Z.of_nat (length stack) <= limit) True depthLimit)). intros stack t. apply decides_bind; [apply node_decides|].
    destruct depthLimit as [limit|]; [|by left]. apply decides_throw_if. rewrite Z.gtb_ltb. cbn [from_option]. by rewrite Z.ltb_ge. }
  unfold WellFormed. split; intros Hall stack t Ho; specialize (Hall stack t Ho); by rewrite app_nil_r in *.
Qed.

(** ** Validated types *)

Lemma WellFormed_child depthLimit root c : WellFormed depthLimit root → c ∈ children root → ∀ stack t, Occurs c stack t → stack ≠ [] → node_ok (head stack) t.
Proof.
  intros Hwf Hc stack t Ho Hne. destruct (Hwf (stack ++ [root]) t) as [Hn _]; [apply occurs_cases; right; by exists c, stack|]. by destruct stack.
Qed.

(** What is required below the root of a type. *)
Definition inner_ok (root : TLogicalType) : Prop := ∀ stack t, Occurs root stack t → match t with AggregateStateType f a e => e = InferAggregateStateElementType f a ∧ is_simple a = true | _ => True end.

Lemma inner_ok_child root c : inner_ok root → c ∈ children root → inner_ok c.
Proof. intros Hok Hc stack t Ho. apply (Hok (stack ++ [root]) t). apply occurs_cases. right. by exists c, stack. Qed.

Lemma WellFormed_inner depthLimit root : WellFormed depthLimit root → inner_ok root.
Proof. intros Hwf stack t Ho. destruct (Hwf stack t Ho) as [Hn _]. destruct t; try done. destruct Hn as (-> & s & -> & _). done. Qed.

Lemma map_erase_inj {A} (f : A → A) l r : Forall (λ x, ∀ y, y ∈ r → f x = f y → x = y) l → map f l = map f r → l = r.
Proof.
  intros Hl. revert r Hl. induction l as [|x l IH]; intros [|y r] Hl E; try done. cbn [map] in E. injection E as Ex El. apply list.Forall_cons in Hl as [Hx Hl]. f_equal; [by apply Hx; [left|]|].
  apply IH; [|done]. eapply list.Forall_impl; [exact Hl|]. intros z Hz y' Hy'. apply Hz. by right.
Qed.

Lemma fields_erase_inj l r : Forall (λ f, inner_ok (FieldType f) → ∀ t, inner_ok t → erase (FieldType f) = erase t → FieldType f = t) l →
  (∀ f, f ∈ l → inner_ok (FieldType f)) → (∀ f, f ∈ r → inner_ok (FieldType f)) → map (map_field erase) l = map (map_field erase) r → l = r.
Proof.
  intros IH Hl Hr. apply map_erase_inj. rewrite list.Forall_forall in *. intros [n1 m1 t1] Hx [n2 m2 t2] Hy [= -> -> E]. f_equal. apply (IH _ Hx); [by apply (Hl _ Hx)|by apply (Hr _ Hy)|done].
Qed.

Lemma elements_erase_inj l r : Forall (λ x, inner_ok x → ∀ t, inner_ok t → erase x = erase t → x = t) l →
  (∀ x, x ∈ l → inner_ok x) → (∀ x, x ∈ r → inner_ok x) → map erase l = map erase r → l = r.
Proof. intros IH Hl Hr. apply map_erase_inj. rewrite list.Forall_forall in *. intros x Hx y Hy E. by apply (IH x Hx); [apply Hl|apply Hr|]. Qed.

Ltac inner := match goal with H : inner_ok ?t |- inner_ok _ => apply (inner_ok_child t); [exact H|cbn [children]; first [by left|by right; left|by apply list_elem_of_fmap; eexists|done]] end.

(** The types whose aggregate states are the inferred ones are equal when they are equal up to those. *)
Lemma erase_inj t1 t2 : inner_ok t1 → inner_ok t2 → erase t1 = erase t2 → t1 = t2.
Proof.
  intros H1 H2. revert H1 t2 H2. induction t1 as [s|p sc|t IH|t IH|fields removed IH|elements IH|fields IH|elements IH|k v IHk IHv|tag t IH|f a t IHa _] using TLogicalType_induction; intros H1 t2 H2; destruct t2; try done; cbn [erase].
  - intros [= E]. f_equal. apply IH; [inner|inner|done].
  - intros [= E]. f_equal. apply IH; [inner|inner|done].
  - intros [= E ->]. f_equal. apply fields_erase_inj; [done| | |done]; intros f Hf; inner.
  - intros [= E]. f_equal. apply elements_erase_inj; [done| | |done]; intros f Hf; inner.
  - intros [= E]. f_equal. apply fields_erase_inj; [done| | |done]; intros f Hf; inner.
  - intros [= E]. f_equal. apply elements_erase_inj; [done| | |done]; intros f Hf; inner.
  - intros [= Ek Ev]. f_equal; [apply IHk|apply IHv]; try inner; done.
  - intros [= -> E]. f_equal. apply IH; [inner|inner|done].
  - intros [= -> E]. destruct (H1 [] _ (occurs_root _)) as [-> Hs1], (H2 [] _ (occurs_root _)) as [-> Hs2]. destruct a; try done. destruct t2_1; try done. by injection E as ->.
Qed.

(** ** Removal of tags *)

Lemma Detag_nullable type : IsNullable (DetagLogicalType type) = IsNullable type.
Proof. induction type using TLogicalType_induction; cbn; done. Qed.

(** Without tags a value has the same form on the wire. *)
Lemma Detag_info type : GetTypeV3Info (DetagLogicalType type) = GetTypeV3Info type.
Proof. induction type using TLogicalType_induction; cbn; try done. by rewrite Detag_nullable, IHtype. Qed.

Lemma map_unchanged {A} (f : A → A) l : Forall (λ x, f x = x) l → map f l = l.
Proof. induction 1 as [|x l Hx _ IH]; [done|]. cbn. by rewrite Hx, IH. Qed.

Lemma map_field_twice (f : TLogicalType → TLogicalType) (fields : list (TStructField TLogicalType)) : Forall (λ x, f (f (FieldType x)) = f (FieldType x)) fields →
  map (map_field f) (map (map_field f) fields) = map (map_field f) fields.
Proof. intros Hf. rewrite map_map. apply map_ext_in. intros [n m t] Hin%list_elem_of_In. rewrite list.Forall_forall in Hf. unfold map_field. cbn. f_equal. by apply (Hf _ Hin). Qed.

Lemma map_twice (f : TLogicalType → TLogicalType) elements : Forall (λ x, f (f x) = f x) elements → map f (map f elements) = map f elements.
Proof. intros Hf. rewrite map_map. apply map_ext_in. intros x Hin%list_elem_of_In. rewrite list.Forall_forall in Hf. by apply Hf. Qed.

Lemma Detag_idempotent type : DetagLogicalType (DetagLogicalType type) = DetagLogicalType type.
Proof.
  induction type using TLogicalType_induction; cbn [DetagLogicalType]; try done; f_equal; try done; by apply map_field_twice || by apply map_twice.
Qed.

Lemma existsb_map {A C} (f : C → bool) (g : A → C) l : existsb f (map g l) = existsb (λ x, f (g x)) l.
Proof. induction l as [|x l IH]; [done|]. cbn. by rewrite IH. Qed.

Lemma existsb_false {A} (f : A → bool) l : Forall (λ x, f x = false) l → existsb f l = false.
Proof. induction 1 as [|x l Hx _ IH]; [done|]. cbn. by rewrite Hx, IH. Qed.

Lemma Detag_no_state type : HasAggregateStateType (DetagLogicalType type) = false.
Proof.
  induction type using TLogicalType_induction; cbn [DetagLogicalType HasAggregateStateType]; try done; rewrite ?existsb_map; try (by apply existsb_false). by rewrite IHtype1, IHtype2.
Qed.

(** [DenullifyLogicalType] keeps the type on the wire. *)
Lemma Denullify_wire type : GetWireType (DenullifyLogicalType type) = GetWireType type.
Proof.
  unfold GetWireType. rewrite <- (Detag_info type). unfold DenullifyLogicalType. destruct (DetagLogicalType type) as [| |element| | | | | | | |]; try done. destruct (IsNullable element) eqn:En; [done|]. cbn. by rewrite En.
Qed.

(** ** Properties of all types inside a type *)

Definition throughout (P : TLogicalType → Prop) (root : TLogicalType) : Prop := ∀ stack type, Occurs root stack type → P type.

Lemma throughout_child (P : TLogicalType → Prop) root c : throughout P root → c ∈ children root → throughout P c.
Proof. intros HP Hc stack t Ho. apply (HP (stack ++ [root])). apply occurs_cases. right. by exists c, stack. Qed.

Lemma throughout_root (P : TLogicalType → Prop) root : throughout P root → P root.
Proof. intros HP. apply (HP []). constructor. Qed.

Lemma throughout_intro (P : TLogicalType → Prop) root : P root → (∀ c, c ∈ children root → throughout P c) → throughout P root.
Proof. intros Hr Hc stack t Ho. apply occurs_cases in Ho as [[_ ->]|(c & stack' & Hin & Ho & _)]; [done|]. by apply (Hc c Hin stack'). Qed.

Lemma type_children_induction (P : TLogicalType → Prop) : (∀ root, (∀ c, c ∈ children root → P c) → P root) → ∀ type, P type.
Proof.
  intros Hstep type. induction type using TLogicalType_induction; apply Hstep; intros c Hc; cbn [children] in Hc.
  all: repeat match goal with H : _ ∈ _ :: _ |- _ => apply elem_of_cons in H as [-> |H]; [done|] | H : _ ∈ [] |- _ => by apply not_elem_of_nil in H end.
  all: match goal with H : Forall _ _ |- _ => rewrite list.Forall_forall in H end.
  all: first [by auto|apply list_elem_of_fmap in Hc as (field & -> & Hc); by auto].
Qed.

(** ** Theorems *)

(** C23. [ValidateLogicalType] returns exactly on the well-formed types and throws on all others, whatever the order of
    its walk: every Any stands directly inside an optional, decimals have a precision and a scale in range, the names
    and the stable names of fields are distinct, short, non-empty and UTF-8, removed names are distinct and not used,
    tags are names, keys of dictionaries have no Any or Json anywhere inside, aggregate states have a simple argument
    that suits the function and the element inferred from it, and no type is nested deeper than the limit. On types
    that passed, [operator==], which does not look at the elements of aggregate states, is equality. *)
Theorem ValidateLogicalType_correct (depthLimit : option Z) (type : TLogicalType) :
  ((ValidateLogicalType depthLimit type = Ok () ∧ WellFormed depthLimit type) ∨ (ValidateLogicalType depthLimit type = Throw EBadLogicalType ∧ ¬ WellFormed depthLimit type)) ∧
  ∀ other, ValidateLogicalType depthLimit type = Ok () → ValidateLogicalType depthLimit other = Ok () → (type_equal type other = true ↔ type = other).
Proof.
  split; [apply ValidateLogicalType_decides|]. intros other H1 H2. apply (decides_ok _ _ _ (ValidateLogicalType_decides _ _)) in H1, H2. rewrite type_equal_spec.
  split; [apply erase_inj; by eapply WellFormed_inner|by intros ->].
Qed.

Lemma ValidateLogicalType_correct_witness (type := DictType (SimpleType SimpleString) (OptionalType (SimpleType SimpleAny))) :
  WellFormed (Some 2) type ∧ ¬ WellFormed (Some 1) type ∧ type_equal type type = true.
Proof.
  destruct (ValidateLogicalType_correct (Some 2) type) as [[[_ H2]|[H2 _]] He]; [|exfalso; vm_compute in H2; discriminate].
  destruct (ValidateLogicalType_correct (Some 1) type) as [[[H1 _]|[_ H1]] _]; [exfalso; vm_compute in H1; discriminate|].
  split_and!; [exact H2|exact H1|]. apply (proj2 (He type ltac:(vm_compute; reflexivity) ltac:(vm_compute; reflexivity))). reflexivity.
Defined.

(** Two aggregate states with different elements are equal by [operator==] when they were not validated. *)
Lemma states_equal_unvalidated : type_equal (AggregateStateType Sum (SimpleType SimpleInt8) (SimpleType SimpleInt64)) (AggregateStateType Sum (SimpleType SimpleInt8) (SimpleType SimpleString)) = true.
Proof. reflexivity. Qed.
