(* ===== verification/ComplexTypeValidator.v ===== *)
(** Validation of values by logical types (table_client/validate_logical_type.h, -inl.h, .cpp, the
    time zone strings of library/tz_types): the checks of simple values, and the validator that
    goes through the YSON of a composite value with a cursor. Reading JSON is a parameter; the
    descriptions of fields, which only go into the texts of exceptions, are not modelled. *)

From S2P Require Import Prelude Utf8 YsonStream YsonLexer YsonEvents YsonParser YsonGrammar YsonWriter SyntaxChecker PullParser PullTraversal YsonCursor Compare CompositeCompare Decimal LogicalType.

(** ** Simple values *)

Definition DateUpperBound : Z := 49673.
Definition DatetimeUpperBound : Z := DateUpperBound * 86400.
Definition TimestampUpperBound : Z := DatetimeUpperBound * 1000000.
Definition Date32UpperBound : Z := 53375808.
Definition Date32LowerBound : Z := - Date32UpperBound - 1.
Definition Datetime64UpperBound : Z := Date32UpperBound * 86400.
Definition Datetime64LowerBound : Z := Date32LowerBound * 86400.
Definition Timestamp64UpperBound : Z := Datetime64UpperBound * 1000000.
Definition Timestamp64LowerBound : Z := Datetime64LowerBound * 1000000.
Definition Interval64UpperBound : Z := Timestamp64UpperBound - Timestamp64LowerBound + 1.

Definition ValidateNumericRange (value min max : Z) : Result () := if (value <? min) || (value >? max) then Throw ESchemaViolation else Ok ().

(** [GetLogicalTypeMax] and [GetLogicalTypeMin] of the integers; they are not instantiated for other types. *)
Definition GetLogicalTypeMax (type : ESimpleLogicalValueType) : Z :=
  match type with
  | SimpleInt8 => max_s 8 | SimpleInt16 => max_s 16 | SimpleInt32 => max_s 32 | SimpleInt64 => max_s 64
  | SimpleUint8 => max_u 8 | SimpleUint16 => max_u 16 | SimpleUint32 => max_u 32 | SimpleUint64 => max_u 64
  | SimpleDate => DateUpperBound - 1 | SimpleDatetime => DatetimeUpperBound - 1 | SimpleTimestamp => TimestampUpperBound - 1
  | SimpleInterval => TimestampUpperBound - 1
  | SimpleDate32 => Date32UpperBound - 1 | SimpleDatetime64 => Datetime64UpperBound - 1 | SimpleTimestamp64 => Timestamp64UpperBound - 1
  | SimpleInterval64 => Interval64UpperBound - 1
  | _ => 0
  end.

Definition GetLogicalTypeMin (type : ESimpleLogicalValueType) : Z :=
  match type with
  | SimpleInt8 => - 2 ^ 7 | SimpleInt16 => - 2 ^ 15 | SimpleInt32 => - 2 ^ 31 | SimpleInt64 => - 2 ^ 63
  | SimpleUint8 | SimpleUint16 | SimpleUint32 | SimpleUint64 | SimpleDate | SimpleDatetime | SimpleTimestamp => 0
  | SimpleInterval => - TimestampUpperBound + 1
  | SimpleDate32 => Date32LowerBound | SimpleDatetime64 => Datetime64LowerBound | SimpleTimestamp64 => Timestamp64LowerBound
  | SimpleInterval64 => - Interval64UpperBound + 1
  | _ => 0
  end.

(** The greatest [float] as a [double], and its negation. *)
Definition float_max : Z := 0x47EFFFFFE0000000.
Definition float_lowest : Z := 0xC7EFFFFFE0000000.

Definition isinf (d : Z) : bool := magnitude d =? 0x7FF0000000000000.

Definition ValidateSimpleLogicalType_int64 (type : ESimpleLogicalValueType) (value : Z) : Result () :=
  match type with SimpleInt64 => Ok () | _ => ValidateNumericRange value (GetLogicalTypeMin type) (GetLogicalTypeMax type) end.

Definition ValidateSimpleLogicalType_uint64 (type : ESimpleLogicalValueType) (value : Z) : Result () :=
  match type with SimpleUint64 => Ok () | _ => ValidateNumericRange value (GetLogicalTypeMin type) (GetLogicalTypeMax type) end.

Definition ValidateSimpleLogicalType_double (type : ESimpleLogicalValueType) (value : Z) : Result () :=
  match type with
  | SimpleFloat =>
      if negb (isinf value) && negb (isnan value) then
        if double_lt value float_lowest || double_lt float_max value then Throw ESchemaViolation else Ok ()
      else Ok ()
  | _ => Ok ()
  end.

(** *** Time zones *)

(** [ParsePresorted]: the bytes of a number, the highest first; the sign is flipped. *)
Definition ParsePresorted (isSigned : bool) (size : nat) (from : list byte) : Z :=
  let value := byte_swap size (le_value (take size from)) in
  if isSigned then wrap_s (8 * Z.of_nat size) (Z.lxor value (2 ^ (8 * Z.of_nat size - 1))) else value.

Definition ParseTzValue (isSigned : bool) (size : nat) (from : list byte) : Result (Z * Z) :=
  if negb (Nat.eqb (length from) (size + 2)) then Throw EInvalidArgument
  else Ok (ParsePresorted isSigned size from, ParsePresorted false 2 (drop size from)).

(** [IsValidTimezoneIndex], of a generated file. *)
Definition IsValidTimezoneIndex (idx : Z) : bool := (idx <? 600) && negb (idx =? 586) && negb (idx =? 593).
Definition ValidateTzId (tzId : Z) : Result () := if IsValidTimezoneIndex tzId then Ok () else Throw EInvalidArgument.

(** [GetUnderlyingDateType] and [TUnderlyingTimestampIntegerType]: the type of the time, whether it is signed, its size. *)
Definition GetUnderlyingDateType (type : ESimpleLogicalValueType) : option (ESimpleLogicalValueType * bool * nat) :=
  match type with
  | SimpleTzDate => Some (SimpleDate, false, 2%nat)
  | SimpleTzDatetime => Some (SimpleDatetime, false, 4%nat)
  | SimpleTzTimestamp => Some (SimpleTimestamp, false, 8%nat)
  | SimpleTzDate32 => Some (SimpleDate32, true, 4%nat)
  | SimpleTzDatetime64 => Some (SimpleDatetime64, true, 8%nat)
  | SimpleTzTimestamp64 => Some (SimpleTimestamp64, true, 8%nat)
  | _ => None
  end.

(** [catch (const std::exception&)] that throws a schema violation. *)
Definition as_violation {A} (r : Result A) : Result A := match r with Throw _ => Throw ESchemaViolation | r => r end.

Definition validate_tz (underlying : ESimpleLogicalValueType) (isSigned : bool) (size : nat) (value : list byte) : Result () :=
  as_violation (
    '(timestamp, tzId) ← ParseTzValue isSigned size value;
    _ ← as_violation (if isSigned then ValidateSimpleLogicalType_int64 underlying timestamp else ValidateSimpleLogicalType_uint64 underlying timestamp);
    ValidateTzId tzId).

Section Json.
(** [ReadJson] with the callbacks of the validator; its exceptions become schema violations. *)
Context (validate_json : list byte → bool).

Definition ValidateSimpleLogicalType_string (type : ESimpleLogicalValueType) (value : list byte) : Result () :=
  match GetUnderlyingDateType type with
  | Some (underlying, isSigned, size) => validate_tz underlying isSigned size value
  | None =>
      match type with
      | SimpleUtf8 => match UTF8Detect value with NotUTF8 => Throw ESchemaViolation | _ => Ok () end
      | SimpleUuid => if negb (Nat.eqb (length value) 16) then Throw ESchemaViolation else Ok ()
      | SimpleJson => if validate_json value then Ok () else Throw ESchemaViolation
      | _ => Ok ()
      end
  end.

(** ** Composite values *)

(** [ExpectedYsonItemType]; it is not instantiated for other types. *)
Definition ExpectedYsonItemType (physicalType : EValueType) : EYsonItemType :=
  match physicalType with
  | TypeBoolean => BooleanValue
  | TypeInt64 => Int64Value
  | TypeUint64 => Uint64Value
  | TypeDouble => DoubleValue
  | TypeString => StringValue
  | _ => EntityValue
  end.

Section Validator.
Context (fd : list byte → Result Z) (ndebug : bool).

Definition ValidateYsonTokenType (cursor : Cursor.t) (type : EYsonItemType) : Result () :=
  if bool_decide (Cursor.GetType cursor = type) then Ok () else Throw ESchemaViolation.

(** The checks of a value of a type other than Any. *)
Definition check_item (type : ESimpleLogicalValueType) (item : TYsonItem) : Result () :=
  match item with
  | Simple _ | ItemBoolean _ => Ok ()
  | ItemInt64 value => ValidateSimpleLogicalType_int64 type value
  | ItemUint64 value => ValidateSimpleLogicalType_uint64 type value
  | ItemDouble value => ValidateSimpleLogicalType_double type value
  | ItemString value => ValidateSimpleLogicalType_string type value
  end.

Definition ValidateSimpleType (type : ESimpleLogicalValueType) (cursor : Cursor.t) : Result Cursor.t :=
  if bool_decide (type = SimpleAny) then
    match Cursor.GetType cursor with
    | EntityValue => Throw ESchemaViolation
    | Int64Value | BooleanValue | Uint64Value | DoubleValue | StringValue => Cursor.Next fd ndebug cursor
    | BeginAttributes => Throw ESchemaViolation
    | BeginList | BeginMap => Cursor.SkipComplexValue fd cursor
    | _ => Crash
    end
  else
    _ ← ValidateYsonTokenType cursor (ExpectedYsonItemType (GetPhysicalType type));
    _ ← check_item type (Cursor.Current_ cursor);
    Cursor.Next fd ndebug cursor.

(** [Cursor_.Next()] past an item of a type that is checked first. *)
Definition expect_next (type : EYsonItemType) (cursor : Cursor.t) : Result Cursor.t := _ ← ValidateYsonTokenType cursor type; Cursor.Next fd ndebug cursor.

(** The loops of the validator; [validate] is [ValidateLogicalType]. *)
Section Loops.
Context (validate : TLogicalType → Cursor.t → Result Cursor.t).

Fixpoint struct_loop (fields : list (TStructField TLogicalType)) (cursor : Cursor.t) : Result Cursor.t :=
  match fields with
  | [] => Ok cursor
  | field :: rest =>
      if bool_decide (Cursor.GetType cursor = EndList) then
        if forallb (λ field, is_optional (FieldType field)) fields then Ok cursor else Throw ESchemaViolation
      else cursor ← validate (FieldType field) cursor; struct_loop rest cursor
  end.

Fixpoint tuple_loop (elements : list TLogicalType) (cursor : Cursor.t) : Result Cursor.t :=
  match elements with
  | [] => Ok cursor
  | element :: rest =>
      if bool_decide (Cursor.GetType cursor = EndList) then Throw ESchemaViolation
      else cursor ← validate element cursor; tuple_loop rest cursor
  end.

(** [elements[alternativeIndex]], an index in range. *)
Fixpoint alternative (elements : list TLogicalType) (alternativeIndex : nat) (cursor : Cursor.t) : Result Cursor.t :=
  match elements, alternativeIndex with
  | [], _ => Crash
  | element :: _, O => validate element cursor
  | _ :: elements, S alternativeIndex => alternative elements alternativeIndex cursor
  end.

Fixpoint field_alternative (fields : list (TStructField TLogicalType)) (alternativeIndex : nat) (cursor : Cursor.t) : Result Cursor.t :=
  match fields, alternativeIndex with
  | [], _ => Crash
  | field :: _, O => validate (FieldType field) cursor
  | _ :: fields, S alternativeIndex => field_alternative fields alternativeIndex cursor
  end.
End Loops.

Definition ValidateVariantTypeImpl (size : nat) (validate_alternative : nat → Cursor.t → Result Cursor.t) (cursor : Cursor.t) : Result Cursor.t :=
  cursor ← expect_next BeginList cursor;
  _ ← ValidateYsonTokenType cursor Int64Value;
  match Cursor.Current_ cursor with
  | ItemInt64 alternativeIndex =>
      cursor ← Cursor.Next fd ndebug cursor;
      if alternativeIndex <? 0 then Throw ESchemaViolation
      else if alternativeIndex >=? Z.of_nat size then Throw ESchemaViolation
      else cursor ← validate_alternative (Z.to_nat alternativeIndex) cursor; expect_next EndList cursor
  | _ => Crash
  end.

(** [while (Cursor_.GetCurrent().GetType() != EYsonItemType::EndList) ...], then [Next]. *)
Definition until_end_list (f : Cursor.t → Result Cursor.t) (cursor : Cursor.t) : Result Cursor.t :=
  '(cursor, _) ← Cursor.parse_loop EndList (λ cursor _, cursor ← f cursor; Ok (cursor, ())) (Cursor.loop_fuel cursor) cursor ();
  Cursor.Next fd ndebug cursor.

Definition ValidateDecimalType (precision scale : Z) (cursor : Cursor.t) : Result Cursor.t :=
  _ ← ValidateYsonTokenType cursor StringValue;
  match Cursor.Current_ cursor with
  | ItemString value => _ ← as_violation (ValidateBinaryValue value precision scale); Cursor.Next fd ndebug cursor
  | _ => Crash
  end.

Fixpoint ValidateLogicalType (type : TLogicalType) (cursor : Cursor.t) : Result Cursor.t :=
  match type with
  | SimpleType element => ValidateSimpleType element cursor
  | OptionalType element =>
      if bool_decide (Cursor.GetType cursor = EntityValue) then Cursor.Next fd ndebug cursor
      else if negb (IsNullable element) then ValidateLogicalType element cursor
      else
        cursor ← expect_next BeginList cursor;
        if bool_decide (Cursor.GetType cursor = EndList) then Throw ESchemaViolation
        else cursor ← ValidateLogicalType element cursor; expect_next EndList cursor
  | ListType element => cursor ← expect_next BeginList cursor; until_end_list (ValidateLogicalType element) cursor
  | StructType fields _ =>
      cursor ← expect_next BeginList cursor;
      cursor ← struct_loop ValidateLogicalType fields cursor;
      expect_next EndList cursor
  | TupleType elements =>
      cursor ← expect_next BeginList cursor;
      cursor ← tuple_loop ValidateLogicalType elements cursor;
      expect_next EndList cursor
  | VariantStructType fields => ValidateVariantTypeImpl (length fields) (field_alternative ValidateLogicalType fields) cursor
  | VariantTupleType elements => ValidateVariantTypeImpl (length elements) (alternative ValidateLogicalType elements) cursor
  | DictType key value =>
      cursor ← expect_next BeginList cursor;
      until_end_list (λ cursor,
        cursor ← expect_next BeginList cursor;
        cursor ← ValidateLogicalType key cursor;
        cursor ← ValidateLogicalType value cursor;
        expect_next EndList cursor) cursor
  | TaggedType _ element => ValidateLogicalType element cursor
  | DecimalType precision scale => ValidateDecimalType precision scale cursor
  | AggregateStateType _ _ element => ValidateLogicalType element cursor
  end.

Definition ValidateComplexLogicalType (ysonData : list byte) (type : TLogicalType) : Result () :=
  let parser := NewPullParser (TZeroCopyInputStreamReader [ysonData]) YsonNode DefaultYsonParserNestingLevelLimit in
  cursor ← Cursor.New fd YsonNode 0 parser;
  _ ← ValidateLogicalType type cursor;
  Ok ().
End Validator.
End Json.
