(* ===== verification/ComplexTypeValues.v ===== *)
(** What values conform to a logical type, and that the validator of composite values decides it on
    every document. *)

From stdpp Require Import gmap.
From S2P Require Import Prelude Compare CompositeCompare Utf8 YsonStream YsonLexer YsonEvents YsonParser YsonGrammar YsonWriter SyntaxChecker PullParser PullTraversal YsonCursor Deserialize Decimal DecimalText LogicalType ComplexTypeValidator.

(** ** Reference: what the validator finds in the tree of a value *)

Definition violation : Result () := Throw ESchemaViolation.

Section Reference.
Context (validate_json : list byte → bool).

(** A type met at the end of a list: Any does not expect it. *)
Fixpoint at_end (type : TLogicalType) : Result () :=
  match type with
  | SimpleType SimpleAny => Crash
  | OptionalType element => if IsNullable element then violation else at_end element
  | TaggedType _ element | AggregateStateType _ _ element => at_end element
  | _ => violation
  end.

Definition check_simple (type : ESimpleLogicalValueType) (v : TValue) : Result () :=
  if bool_decide (type = SimpleAny) then match v with VEntity => violation | _ => Ok () end
  else if bool_decide (GetType (value_head v) = ExpectedYsonItemType (GetPhysicalType type)) then check_item validate_json type (value_head v)
  else violation.

Section Items.
Context (check : TLogicalType → TNode → Result ()).

(** A type takes the next item; the items left over. *)
Definition take_item (type : TLogicalType) (items : list TNode) (k : list TNode → Result ()) : Result () :=
  match items with [] => at_end type | n :: items => _ ← check type n; k items end.

Definition no_more (items : list TNode) : Result () := match items with [] => Ok () | _ => violation end.

Fixpoint struct_items (fields : list (TStructField TLogicalType)) (items : list TNode) : Result () :=
  match fields, items with
  | [], _ => no_more items
  | _, [] => if forallb (λ field, is_optional (FieldType field)) fields then Ok () else violation
  | field :: fields, n :: items => _ ← check (FieldType field) n; struct_items fields items
  end.

Fixpoint tuple_items (elements : list TLogicalType) (items : list TNode) : Result () :=
  match elements, items with
  | [], _ => no_more items
  | _, [] => violation
  | element :: elements, n :: items => _ ← check element n; tuple_items elements items
  end.

Fixpoint alternative_items (elements : list TLogicalType) (index : nat) (items : list TNode) : Result () :=
  match elements, index with
  | [], _ => violation
  | element :: _, O => take_item element items no_more
  | _ :: elements, S index => alternative_items elements index items
  end.

Fixpoint field_alternative_items (fields : list (TStructField TLogicalType)) (index : nat) (items : list TNode) : Result () :=
  match fields, index with
  | [], _ => violation
  | field :: _, O => take_item (FieldType field) items no_more
  | _ :: fields, S index => field_alternative_items fields index items
  end.

Definition pair_items (key value : TLogicalType) (n : TNode) : Result () :=
  match n with
  | Node None (VList items) => take_item key items (λ items, take_item value items no_more)
  | _ => violation
  end.
End Items.

Definition variant_items (k : nat → list TNode → Result ()) (items : list TNode) : Result () :=
  match items with
  | Node None (VInt64 index) :: items => if index <? 0 then violation else k (Z.to_nat index) items
  | _ => violation
  end.

Fixpoint check (type : TLogicalType) (n : TNode) : Result () :=
  match n with
  | Node (Some _) _ => violation
  | Node None v =>
      match type with
      | SimpleType element => check_simple element v
      | DecimalType precision scale => match v with VString value => as_violation (ValidateBinaryValue value precision scale) | _ => violation end
      | OptionalType element =>
          match v with
          | VEntity => Ok ()
          | _ =>
              if negb (IsNullable element) then check element n
              else match v with VList [] => violation | VList items => take_item check element items no_more | _ => violation end
          end
      | ListType element => match v with VList items => each (check element) items | _ => violation end
      | StructType fields _ => match v with VList items => struct_items check fields items | _ => violation end
      | TupleType elements => match v with VList items => tuple_items check elements items | _ => violation end
      | VariantStructType fields => match v with VList items => variant_items (field_alternative_items check fields) items | _ => violation end
      | VariantTupleType elements => match v with VList items => variant_items (alternative_items check elements) items | _ => violation end
      | DictType key value => match v with VList items => each (pair_items check key value) items | _ => violation end
      | TaggedType _ element | AggregateStateType _ _ element => check element n
      end
  end.
End Reference.

(** ** The validator computes it *)

Lemma at_end_never_ok type : at_end type ≠ Ok ().
Proof. induction type using TLogicalType_induction; cbn [at_end]; try done; [by destruct s|by destruct (IsNullable type)]. Qed.

Section Simulation.
Context (fd : list byte → Result Z) (ndebug : bool) (Hfd : total_conversion fd) (L : nat) (HL : Z.of_nat L < 2 ^ 32) (validate_json : list byte → bool).
#[local] Abbreviation on := (on fd L).
#[local] Abbreviation in_list := (in_list fd L).
#[local] Abbreviation Validate := (ValidateLogicalType validate_json fd ndebug).
#[local] Abbreviation Check := (check validate_json).

(** A call with the outcome [r] that, when it returns, leaves the cursor as [Q] says. *)
Definition goes (Q : Cursor.t → Prop) (r : Result ()) (lhs : Result Cursor.t) : Prop :=
  match r with
  | Ok _ => ∃ cur, lhs = Ok cur ∧ Q cur
  | Throw e => lhs = Throw e
  | Crash => lhs = Crash
  | OutOfFuel => lhs = OutOfFuel
  end.

Lemma goes_bind (Q Q' : Cursor.t → Prop) r s lhs g : goes Q r lhs → (∀ cur, Q cur → goes Q' s (g cur)) → goes Q' (_ ← r; s) (lhs ≫= g).
Proof. intros Hr Hk. destruct r as [u|e| |]; cbn [goes] in Hr; [|by rewrite Hr..]. destruct Hr as (cur & -> & HQ). run_bind. by apply Hk. Qed.

Lemma goes_ok (Q Q' : Cursor.t → Prop) s lhs g : (∃ cur, lhs = Ok cur ∧ Q cur) → (∀ cur, Q cur → goes Q' s (g cur)) → goes Q' s (lhs ≫= g).
Proof. intros (cur & -> & HQ) Hk. run_bind. by apply Hk. Qed.

Lemma goes_mono (Q Q' : Cursor.t → Prop) r lhs : goes Q r lhs → (∀ cur, Q cur → Q' cur) → goes Q' r lhs.
Proof. intros Hr HQ. destruct r as [u|e| |]; cbn [goes] in *; try done. destruct Hr as (cur & -> & H). exists cur. auto. Qed.

Lemma token_type cur type : ValidateYsonTokenType cur type = if bool_decide (Cursor.GetType cur = type) then Ok () else Throw ESchemaViolation.
Proof. done. Qed.

Lemma expect_wrong type cur : Cursor.GetType cur ≠ type → expect_next fd ndebug type cur = Throw ESchemaViolation.
Proof. intros Hne. unfold expect_next. by rewrite token_type, bool_decide_eq_false_2. Qed.

Lemma expect_right type cur : Cursor.GetType cur = type → expect_next fd ndebug type cur = Cursor.Next fd ndebug cur.
Proof. intros He. unfold expect_next. by rewrite token_type, bool_decide_eq_true_2. Qed.

(** The beginning and the end of a list. *)
Lemma open_list items tv tokens c (a : list TFrame) cur : ValueTok (VList items) tv → on cur (tv ++ tokens) ((c, PValue) :: a) → fits_level L (length a) (value_levels (VList items)) →
  ∃ cur', expect_next fd ndebug BeginList cur = Ok cur' ∧ in_list items cur' tokens ((c, PSeparator) :: a).
Proof.
  intros Hv Hon Hf. rewrite expect_right by (unfold Cursor.GetType; by rewrite (value_current fd L _ _ _ _ _ _ _ Hv Hon)).
  inversion Hv as [? ? E|items' body Hbody|]; [done|]; subst. cbn [app] in Hon. rewrite <- app_assoc in Hon. rewrite value_levels_list in Hf. apply fits_S in Hf as [Hlt Hfi].
  destruct (next_on fd ndebug Hfd L HL _ _ _ ((CList, PValue) :: (c, PSeparator) :: a) cur Hon) as (cur2 & -> & Hon2); [by auto with yson|].
  exists cur2. split; [done|]. exists body, PValue. split_and!; [by left|done..].
Qed.

Lemma close_list cur tokens (a : list TFrame) : in_list [] cur tokens a → ∃ cur', expect_next fd ndebug EndList cur = Ok cur' ∧ on cur' tokens a.
Proof.
  intros Hin. rewrite expect_right by (by eapply in_list_nil). destruct Hin as (body & p & Hbody & Hon & _). assert (body = []) as -> by (destruct Hbody as [[Hb _]|(_ & -> & _)]; [by inversion Hb|done]).
  cbn [app] in Hon. apply (next_on fd ndebug Hfd L HL _ _ _ a cur Hon). by apply (closing_step fd L CList p _ tokens cur); [|left].
Qed.

Lemma no_more_goes items cur tokens (a : list TFrame) : in_list items cur tokens a → goes (λ cur, on cur tokens a) (no_more items) (expect_next fd ndebug EndList cur).
Proof.
  intros Hin. destruct items as [|n items]; [by apply close_list|]. cbn [no_more violation goes]. apply expect_wrong. by destruct (in_list_cons fd L n items cur tokens a HL Hin) as [Hne _].
Qed.

(** *** A type where no value is *)

Lemma Validate_at_end type cur : Cursor.GetType cur = EndList → Validate type cur = (_ ← at_end type; Crash).
Proof.
  intros He. induction type using TLogicalType_induction; cbn [ValidateLogicalType at_end]; rewrite ?expect_wrong by congruence; try done.
  - unfold ValidateSimpleType. case_bool_decide as Es; [subst s; by rewrite He|]. rewrite token_type, bool_decide_eq_false_2 by (rewrite He; by destruct s). by destruct s.
  - unfold ValidateDecimalType. by rewrite token_type, bool_decide_eq_false_2 by congruence.
  - rewrite bool_decide_eq_false_2 by congruence. destruct (IsNullable type); cbn [negb]; [done|exact IHtype].
  - unfold ValidateVariantTypeImpl. by rewrite expect_wrong by congruence.
  - unfold ValidateVariantTypeImpl. by rewrite expect_wrong by congruence.
Qed.

Lemma Validate_attributes type cur : Cursor.GetType cur = BeginAttributes → Validate type cur = Throw ESchemaViolation.
Proof.
  intros He. induction type using TLogicalType_induction; cbn [ValidateLogicalType]; rewrite ?expect_wrong by congruence; try done.
  - unfold ValidateSimpleType. case_bool_decide as Es; [by rewrite He|]. rewrite token_type, bool_decide_eq_false_2 by (rewrite He; by destruct s). done.
  - unfold ValidateDecimalType. by rewrite token_type, bool_decide_eq_false_2 by congruence.
  - rewrite bool_decide_eq_false_2 by congruence. destruct (IsNullable type); cbn [negb]; [done|exact IHtype].
  - unfold ValidateVariantTypeImpl. by rewrite expect_wrong by congruence.
  - unfold ValidateVariantTypeImpl. by rewrite expect_wrong by congruence.
Qed.

(** *** Items of lists *)

(** The validator of a type does on a cursor what [Check] does on nodes. *)
Definition simulates_type (type : TLogicalType) : Prop := ∀ n tt tokens c (a : list TFrame) cur, NodeTok n tt → on cur (tt ++ tokens) ((c, PValue) :: a) →
  fits_level L (length a) (node_levels n) → goes (λ cur, on cur tokens ((c, PSeparator) :: a)) (Check type n) (Validate type cur).

Lemma item_goes type n items cur tokens (a : list TFrame) : simulates_type type → in_list (n :: items) cur tokens a →
  goes (λ cur, in_list items cur tokens a) (Check type n) (Validate type cur).
Proof.
  intros Hsim Hin. destruct (in_list_cons fd L n items cur tokens a HL Hin) as (_ & tt & ts & Hn & Hon & Hf & Hrest). eapply goes_mono; [by eapply Hsim|]. exact Hrest.
Qed.

Lemma take_item_goes type items cur tokens (a : list TFrame) k g : simulates_type type → in_list items cur tokens a →
  (∀ items' cur', in_list items' cur' tokens a → goes (λ cur, on cur tokens a) (k items') (g cur')) →
  goes (λ cur, on cur tokens a) (take_item Check type items k) (cur ← Validate type cur; g cur).
Proof.
  intros Hsim Hin Hk. destruct items as [|n items]; cbn [take_item].
  - rewrite Validate_at_end by (by eapply in_list_nil). pose proof (at_end_never_ok type) as Hne. destruct (at_end type) as [[]|e| |]; done.
  - eapply goes_bind; [by eapply item_goes|]. intros cur' Hin'. by apply Hk.
Qed.

(** A list that a function goes through item by item. *)
Lemma until_end_goes (f : Cursor.t → Result Cursor.t) (g : TNode → Result ()) items cur tokens (a : list TFrame) :
  (∀ n tt tokens c (a : list TFrame) cur, NodeTok n tt → on cur (tt ++ tokens) ((c, PValue) :: a) → fits_level L (length a) (node_levels n) → goes (λ cur, on cur tokens ((c, PSeparator) :: a)) (g n) (f cur)) →
  in_list items cur tokens a → goes (λ cur, on cur tokens a) (each g items) (until_end_list fd ndebug f cur).
Proof.
  intros Hf Hin. unfold until_end_list. set (f' := λ (cursor : Cursor.t) (_ : ()), _). destruct Hin as (body & p & Hbody & Hon & Hfit).
  assert (∀ n, consumes fd L f' n (λ _, g n)) as Hg.
  { intros n tt ts c b cur1 v Hn Hon1 Hf1. specialize (Hf n tt ts c b cur1 Hn Hon1 Hf1). unfold f'. destruct (g n) as [[]|e| |]; cbn [goes] in Hf; [|by rewrite Hf..]. destruct Hf as (cur2 & -> & Hon2). run_bind. by exists cur2. }
  assert (∀ items, over_items (λ n (_ : ()), g n) items () = each g items) as Hover.
  { clear. intros items. induction items as [|n items IH]; [done|]. cbn [over_items each]. destruct (g n) as [[]|e| |]; [|done..]. run_bind. apply IH. }
  assert (∀ cur p, on cur (Item (Simple EndList) :: tokens) ((CList, p) :: a) → Cursor.GetType cur = EndList) as Htail.
  { intros. by eapply (tail_end fd L CList). }
  assert (ends fd L CList a (Item (Simple EndList) :: tokens) (each g items) (Cursor.parse_loop EndList f' (Cursor.loop_fuel cur) cur ())) as [q Hends].
  { destruct Hbody as [[Hbody ->]|(-> & -> & ->)]; [|by eapply loop_end].
    rewrite <- (Hover items). eapply (loop_list fd L HL f' EndList eq_refl CList a _ Htail (λ n _, g n) items body); try done; [by left|].
    pose proof (on_length fd L _ _ _ Hon (list_starts _ _ (Item (Simple EndList) :: tokens) Hbody I)) as Hlen. rewrite length_app in Hlen. apply list_count in Hbody. lia. }
  destruct (each g items) as [[]|e| |]; cbn [moves goes] in *; [|by rewrite Hends..]. destruct Hends as (cur' & -> & Hon'). run_bind.
  apply (next_on fd ndebug Hfd L HL _ _ _ a cur' Hon'). by apply (closing_step fd L CList q _ tokens cur'); [|left].
Qed.

Lemma struct_goes fields items cur tokens (a : list TFrame) : Forall (λ f, simulates_type (FieldType f)) fields → in_list items cur tokens a →
  goes (λ cur, on cur tokens a) (struct_items Check fields items) (cur ← struct_loop Validate fields cur; expect_next fd ndebug EndList cur).
Proof.
  intros Hsim. revert items cur. induction Hsim as [|field fields Hf _ IH]; intros items cur Hin; [run_bind; by apply no_more_goes|]. cbn [struct_loop struct_items]. destruct items as [|n items].
  - rewrite bool_decide_eq_true_2 by (by eapply in_list_nil). destruct (forallb _ _); [run_bind; by apply close_list|done].
  - rewrite bool_decide_eq_false_2 by (by apply (in_list_cons fd L n items cur tokens a HL Hin)). rewrite bind_assoc_result. eapply goes_bind; [by eapply item_goes|]. intros cur' Hin'. by apply IH.
Qed.

Lemma tuple_goes elements items cur tokens (a : list TFrame) : Forall simulates_type elements → in_list items cur tokens a →
  goes (λ cur, on cur tokens a) (tuple_items Check elements items) (cur ← tuple_loop Validate elements cur; expect_next fd ndebug EndList cur).
Proof.
  intros Hsim. revert items cur. induction Hsim as [|element elements Hf _ IH]; intros items cur Hin; [run_bind; by apply no_more_goes|]. cbn [tuple_loop tuple_items]. destruct items as [|n items].
  - by rewrite bool_decide_eq_true_2 by (by eapply in_list_nil).
  - rewrite bool_decide_eq_false_2 by (by apply (in_list_cons fd L n items cur tokens a HL Hin)). rewrite bind_assoc_result. eapply goes_bind; [by eapply item_goes|]. intros cur' Hin'. by apply IH.
Qed.

Lemma alternative_goes elements index items cur tokens (a : list TFrame) : Forall simulates_type elements → (index < length elements)%nat → in_list items cur tokens a →
  goes (λ cur, on cur tokens a) (alternative_items Check elements index items) (cur ← alternative Validate elements index cur; expect_next fd ndebug EndList cur).
Proof.
  intros Hsim. revert index. induction Hsim as [|element elements He _ IH]; intros index Hi Hin; [simpl in Hi; lia|]. destruct index as [|index]; cbn [alternative alternative_items].
  - apply take_item_goes; [done|done|]. intros items' cur' Hin'. by apply no_more_goes.
  - apply IH; [simpl in Hi; lia|done].
Qed.

Lemma field_alternative_goes fields index items cur tokens (a : list TFrame) : Forall (λ f, simulates_type (FieldType f)) fields → (index < length fields)%nat → in_list items cur tokens a →
  goes (λ cur, on cur tokens a) (field_alternative_items Check fields index items) (cur ← field_alternative Validate fields index cur; expect_next fd ndebug EndList cur).
Proof.
  intros Hsim. revert index. induction Hsim as [|field fields He _ IH]; intros index Hi Hin; [simpl in Hi; lia|]. destruct index as [|index]; cbn [field_alternative field_alternative_items].
  - apply take_item_goes; [done|done|]. intros items' cur' Hin'. by apply no_more_goes.
  - apply IH; [simpl in Hi; lia|done].
Qed.

Lemma alternative_beyond elements index items : (length elements <= index)%nat → alternative_items Check elements index items = violation.
Proof. revert index. induction elements as [|e elements IH]; intros [|index] Hi; try done; [simpl in Hi; lia|]. apply IH. simpl in Hi. lia. Qed.

Lemma field_alternative_beyond fields index items : (length fields <= index)%nat → field_alternative_items Check fields index items = violation.
Proof. revert index. induction fields as [|e fields IH]; intros [|index] Hi; try done; [simpl in Hi; lia|]. apply IH. simpl in Hi. lia. Qed.

(** The current item of a node. *)
Lemma node_current n tt tokens c p (a : list TFrame) cur : NodeTok n tt → on cur (tt ++ tokens) ((c, p) :: a) →
  Cursor.Current_ cur = match n with Node None v => value_head v | Node (Some _) _ => Simple BeginAttributes end.
Proof. intros Hn Hon. destruct Hn as [v t Hv|attributes v ta t Hm Hv]; [by eapply value_current|]. by rewrite (on_current _ _ _ _ _ _ Hon). Qed.

Lemma pair_goes key value : simulates_type key → simulates_type value → ∀ n tt tokens c (a : list TFrame) cur, NodeTok n tt → on cur (tt ++ tokens) ((c, PValue) :: a) → fits_level L (length a) (node_levels n) →
  goes (λ cur, on cur tokens ((c, PSeparator) :: a)) (pair_items Check key value n)
    (cursor ← expect_next fd ndebug BeginList cur; cursor ← Validate key cursor; cursor ← Validate value cursor; expect_next fd ndebug EndList cursor).
Proof.
  intros Hk Hv n tt tokens c a cur Hn Hon Hf. pose proof (node_current _ _ _ _ _ _ _ Hn Hon) as Hcur. destruct n as [[attributes|] v]; [cbn [pair_items goes violation]; rewrite expect_wrong; [done|unfold Cursor.GetType; by rewrite Hcur]|].
  inversion Hn as [v' t' Hv'|]; subst. destruct v as [| | | | | |items|]; try (cbn [pair_items goes violation]; rewrite expect_wrong; [done|unfold Cursor.GetType; by rewrite Hcur]).
  eapply goes_ok; [by eapply open_list|]. intros cur' Hin. apply take_item_goes; [done|done|]. intros items' cur2 Hin2. apply take_item_goes; [done|done|]. intros items3 cur3 Hin3. by apply no_more_goes.
Qed.

(** *** The validator *)

(** No type has attributes. *)
Lemma plain_suffices type : (∀ v tv tokens c (a : list TFrame) cur, ValueTok v tv → on cur (tv ++ tokens) ((c, PValue) :: a) → fits_level L (length a) (value_levels v) →
    goes (λ cur, on cur tokens ((c, PSeparator) :: a)) (Check type (Node None v)) (Validate type cur)) → simulates_type type.
Proof.
  intros Hplain n tt tokens c a cur Hn Hon Hf. destruct Hn as [v tv Hv|attributes v ta tv Ha Hv]; [by eapply Hplain|].
  assert (Check type (Node (Some attributes) v) = violation) as -> by (by destruct type). apply Validate_attributes. unfold Cursor.GetType. by rewrite (on_current _ _ _ _ _ _ Hon).
Qed.

(** A list is opened, or the value is refused. *)
Lemma opens v tv tokens c (a : list TFrame) cur k g : ValueTok v tv → on cur (tv ++ tokens) ((c, PValue) :: a) → fits_level L (length a) (value_levels v) →
  (∀ items cur', in_list items cur' tokens ((c, PSeparator) :: a) → goes (λ cur, on cur tokens ((c, PSeparator) :: a)) (k items) (g cur')) →
  goes (λ cur, on cur tokens ((c, PSeparator) :: a)) (match v with VList items => k items | _ => violation end) (cur ← expect_next fd ndebug BeginList cur; g cur).
Proof.
  intros Hv Hon Hf Hk. pose proof (value_current fd L _ _ _ _ _ _ _ Hv Hon) as Hcur.
  destruct v as [| | | | | |items|]; try (cbn [goes violation]; rewrite expect_wrong; [done|unfold Cursor.GetType; by rewrite Hcur]).
  eapply goes_ok; [by eapply open_list|]. intros cur' Hin. by apply Hk.
Qed.

Lemma variant_goes size f k v cur tokens (a : list TFrame) tv c :
  (∀ index items cur, (index < size)%nat → in_list items cur tokens ((c, PSeparator) :: a) →
     goes (λ cur, on cur tokens ((c, PSeparator) :: a)) (k index items) (cur ← f index cur; expect_next fd ndebug EndList cur)) →
  (∀ index items, (size <= index)%nat → k index items = violation) →
  ValueTok v tv → on cur (tv ++ tokens) ((c, PValue) :: a) → fits_level L (length a) (value_levels v) →
  goes (λ cur, on cur tokens ((c, PSeparator) :: a)) (match v with VList items => variant_items k items | _ => violation end) (ValidateVariantTypeImpl fd ndebug size f cur).
Proof.
  intros Hk Hbeyond Hv Hon Hfit. unfold ValidateVariantTypeImpl. eapply opens; [done..|]. clear cur Hon Hv Hfit v. intros items cur Hin. rewrite token_type. destruct items as [|n items].
  { rewrite bool_decide_eq_false_2 by (rewrite (in_list_nil _ _ _ _ _ Hin); done). done. }
  destruct (in_list_cons fd L n items cur tokens _ HL Hin) as (_ & tt & ts & Hn & Hon & Hf & Hrest). pose proof (node_current _ _ _ _ _ _ _ Hn Hon) as Hcur. unfold Cursor.GetType. rewrite Hcur.
  destruct n as [[attributes|] v]; [done|]. destruct v as [| index | | | | | |]; try done. cbn [value_head scalar_item GetType]. rewrite bool_decide_eq_true_2 by done. run_bind. cbn [variant_items].
  inversion Hn as [v' t' Hv'|]; subst; clear Hn. destruct (scalar_next fd ndebug Hfd L HL (VInt64 index) (ItemInt64 index) tt ts CList PValue _ cur Hv' eq_refl eq_refl Hon) as (cur' & -> & Hon'). run_bind. cbn [default from_option id].
  destruct (Z.ltb_spec index 0); [exact eq_refl|]. rewrite Z.geb_leb. destruct (Z.leb_spec (Z.of_nat size) index); [rewrite Hbeyond by lia; exact eq_refl|]. apply Hk; [lia|]. by apply Hrest.
Qed.

Lemma scalar_goes v tv tokens c (a : list TFrame) cur : ValueTok v tv → scalar_item v ≠ None → on cur (tv ++ tokens) ((c, PValue) :: a) →
  goes (λ cur, on cur tokens ((c, PSeparator) :: a)) (Ok ()) (Cursor.Next fd ndebug cur).
Proof. intros Hv Hs Hon. destruct (scalar_item v) as [item|] eqn:E; [|done]. by apply (scalar_next fd ndebug Hfd L HL v item tv tokens c PValue a cur). Qed.

Lemma skip_goes v tv tokens c (a : list TFrame) cur : ValueTok v tv → on cur (tv ++ tokens) ((c, PValue) :: a) → fits_level L (length a) (value_levels v) →
  goes (λ cur, on cur tokens ((c, PSeparator) :: a)) (Ok ()) (Cursor.SkipComplexValue fd cur).
Proof. intros Hv Hon Hf. by apply (skip_on fd Hfd L HL (Node None v) tv); [constructor| |]. Qed.

Lemma simple_goes s : simulates_type (SimpleType s).
Proof.
  apply plain_suffices. intros v tv tokens c a cur Hv Hon Hf. pose proof (value_current fd L _ _ _ _ _ _ _ Hv Hon) as Hcur. cbn [check ValidateLogicalType]. unfold check_simple, ValidateSimpleType.
  case_bool_decide as Es.
  - unfold Cursor.GetType. rewrite Hcur. destruct v as [| | | | | |items|items]; first [exact eq_refl|by apply (scalar_goes _ tv _ _ _ _ Hv)|by apply (skip_goes _ tv _ _ _ _ Hv)].
  - rewrite token_type. unfold Cursor.GetType. rewrite Hcur. case_bool_decide as Et; [|done]. run_bind. destruct (check_item _ _ _) as [[]|e| |]; try done. run_bind.
    destruct v as [| | | | | |items|items]; first [by apply (scalar_goes _ tv _ _ _ _ Hv)|by destruct s].
Qed.

Lemma decimal_goes precision scale : simulates_type (DecimalType precision scale).
Proof.
  apply plain_suffices. intros v tv tokens c a cur Hv Hon Hf. pose proof (value_current fd L _ _ _ _ _ _ _ Hv Hon) as Hcur. cbn [check ValidateLogicalType]. unfold ValidateDecimalType. rewrite token_type. unfold Cursor.GetType. rewrite Hcur.
  destruct v; try done. cbn [value_head scalar_item default from_option id GetType]. rewrite bool_decide_eq_true_2 by done. run_bind.
  destruct (as_violation _) as [[]|e| |]; try done. run_bind. by apply (scalar_goes _ tv _ _ _ _ Hv).
Qed.

Lemma non_entity {A} v (x y : A) : v ≠ VEntity → match v with VEntity => x | _ => y end = y.
Proof. by destruct v. Qed.

Lemma optional_goes element : simulates_type element → simulates_type (OptionalType element).
Proof.
  intros Hsim. apply plain_suffices. intros v tv tokens c a cur Hv Hon Hf. pose proof (value_current fd L _ _ _ _ _ _ _ Hv Hon) as Hcur. cbn [check ValidateLogicalType].
  assert (v = VEntity ∨ v ≠ VEntity) as [-> |Hv0] by (destruct v; auto).
  1: (rewrite bool_decide_eq_true_2 by (unfold Cursor.GetType; by rewrite Hcur); by apply (scalar_goes _ tv _ _ _ _ Hv)).
  rewrite bool_decide_eq_false_2 by (unfold Cursor.GetType; rewrite Hcur; by destruct v).
  destruct (IsNullable element); cbn [negb].
  - rewrite (non_entity v _ _ Hv0).
    eapply opens; [done..|]. intros items cur' Hin. destruct items as [|n items]; [by rewrite bool_decide_eq_true_2 by (by eapply in_list_nil)|].
    rewrite bool_decide_eq_false_2 by (by apply (in_list_cons fd L n items cur' tokens _ HL Hin)). apply take_item_goes; [done|done|]. intros items' cur2 Hin2. by apply no_more_goes.
  - rewrite (non_entity v _ _ Hv0). by eapply (Hsim (Node None v) tv); [constructor| |].
Qed.

Lemma simulates_all type : simulates_type type.
Proof.
  induction type using TLogicalType_induction; [apply simple_goes|apply decimal_goes|by apply optional_goes|..]; apply plain_suffices; intros v tv tokens c a cur Hv Hon Hf; cbn [check ValidateLogicalType].
  all: try (by eapply (IHtype (Node None v) tv); [constructor| |]).
  - eapply opens; [done..|]. intros items cur' Hin. apply until_end_goes; [exact IHtype|done].
  - eapply opens; [done..|]. intros items cur' Hin. by apply struct_goes.
  - eapply opens; [done..|]. intros items cur' Hin. by apply tuple_goes.
  - eapply variant_goes; [|apply field_alternative_beyond|done..]. intros index items cur' Hi Hin. by apply field_alternative_goes.
  - eapply variant_goes; [|apply alternative_beyond|done..]. intros index items cur' Hi Hin. by apply alternative_goes.
  - eapply opens; [done..|]. intros items cur' Hin. apply until_end_goes; [by apply pair_goes|done].
  - by eapply (IHtype2 (Node None v) tv); [constructor| |].
Qed.
End Simulation.

(** The outcome on a text of a node is that of the reference on the node. *)
Lemma ValidateComplexLogicalType_text validate_json fd ndebug type n t ws1 ws2 : total_conversion fd → spaces ws1 → NodeText fd DefaultMemoryLimit n t → spaces ws2 →
  (node_depth n < 256)%nat → ValidateComplexLogicalType validate_json fd ndebug (ws1 ++ t ++ ws2) type = check validate_json type n.
Proof.
  intros Hfd Hws1 Ht Hws2 Hd. destruct (grammar_tokens fd) as (HN & _). destruct (HN _ _ Ht) as (tokens & Hn & Htok).
  assert (TokText fd tokens (ws1 ++ t ++ ws2)) as Htext.
  { apply TokText_spaces; [done|]. rewrite <- (app_nil_r tokens). apply Htok; [by constructor|]. rewrite <- (app_nil_r ws2). by apply delimited_spaces. }
  assert (fits_level 256 0 (node_levels n)) as Hf by (right; pose proof (proj1 levels_depth n); lia).
  assert (Z.of_nat 256 < 2 ^ 32) as HL by lia. pose proof (ModeTok_valid YsonNode _ _ _ 256 HL (ModeTok_node _ _ Hn) Hf) as Hv.
  set (s := TZeroCopyInputStreamReader [ws1 ++ t ++ ws2]). pose proof (new_before fd YsonNode 256 tokens _ HL Htext) as Hb. fold s in Hb.
  destruct (new_on fd Hfd 256 HL YsonNode tokens _ 0 Hv Hb) as (cur & E & Hon & Hstart). simpl in Hstart. rewrite consume_false in Hon by done.
  unfold ValidateComplexLogicalType. change DefaultYsonParserNestingLevelLimit with (Z.of_nat 256). fold s. rewrite E. run_bind. rewrite <- (app_nil_r tokens) in Hon.
  pose proof (simulates_all fd ndebug Hfd 256 HL validate_json type n tokens [] CNode [] cur Hn Hon Hf) as Hs. destruct (check validate_json type n) as [[]|e| |]; cbn [goes] in Hs; [|by rewrite Hs..].
  by destruct Hs as (cur' & -> & _).
Qed.

(** ** The values of a type *)

Section Conformance.
Context (validate_json : list byte → bool).

Definition ranges (type : ESimpleLogicalValueType) (x : Z) : Prop := GetLogicalTypeMin type <= x <= GetLogicalTypeMax type.

(** A string of a type: the time of a zoned date and the index of the zone are written with the highest byte first. *)
Definition StringConforms (type : ESimpleLogicalValueType) (value : list byte) : Prop :=
  match GetUnderlyingDateType type with
  | Some (underlying, isSigned, size) => length value = (size + 2)%nat ∧ ranges underlying (ParsePresorted isSigned size value) ∧ IsValidTimezoneIndex (ParsePresorted false 2 (drop size value)) = true
  | None =>
      match type with
      | SimpleUtf8 => IsUtf value = true
      | SimpleUuid => length value = 16%nat
      | SimpleJson => validate_json value = true
      | _ => True
      end
  end.

Definition FloatFits (d : Z) : Prop := isinf d = true ∨ Compare.isnan d = true ∨ double_lt d float_lowest = false ∧ double_lt float_max d = false.

Definition SimpleConforms (type : ESimpleLogicalValueType) (v : TValue) : Prop :=
  match v with
  | VEntity => GetPhysicalType type = TypeNull
  | VInt64 x => GetPhysicalType type = TypeInt64 ∧ (type = SimpleInt64 ∨ ranges type x)
  | VUint64 x => GetPhysicalType type = TypeUint64 ∧ (type = SimpleUint64 ∨ ranges type x)
  | VDouble d => GetPhysicalType type = TypeDouble ∧ (type = SimpleFloat → FloatFits d)
  | VBoolean _ => GetPhysicalType type = TypeBoolean
  | VString value => GetPhysicalType type = TypeString ∧ StringConforms type value
  | VList _ | VMap _ => False
  end.

#[local] Unset Elimination Schemes.
Inductive Conforms : TLogicalType → TNode → Prop :=
| conforms_any v : v ≠ VEntity → Conforms (SimpleType SimpleAny) (Node None v)
| conforms_simple type v : SimpleConforms type v → Conforms (SimpleType type) (Node None v)
| conforms_decimal precision scale value : length value = size_of_precision precision → holds precision (decimal_of_bytes value) = true → Conforms (DecimalType precision scale) (Node None (VString value))
| conforms_null element : Conforms (OptionalType element) (Node None VEntity)
| conforms_some element n : IsNullable element = false → Conforms element n → Conforms (OptionalType element) n
| conforms_boxed element n : IsNullable element = true → Conforms element n → Conforms (OptionalType element) (Node None (VList [n]))
| conforms_list element items : Forall (Conforms element) items → Conforms (ListType element) (Node None (VList items))
| conforms_struct present absent removed items : Forall2 (λ field n, Conforms (FieldType field) n) present items → Forall (λ field, is_optional (FieldType field) = true) absent →
    Conforms (StructType (present ++ absent) removed) (Node None (VList items))
| conforms_tuple elements items : Forall2 Conforms elements items → Conforms (TupleType elements) (Node None (VList items))
| conforms_variant_struct fields index field n : 0 <= index → fields !! Z.to_nat index = Some field → Conforms (FieldType field) n →
    Conforms (VariantStructType fields) (Node None (VList [Node None (VInt64 index); n]))
| conforms_variant_tuple elements index element n : 0 <= index → elements !! Z.to_nat index = Some element → Conforms element n →
    Conforms (VariantTupleType elements) (Node None (VList [Node None (VInt64 index); n]))
| conforms_dict key value items : Forall (λ n, ∃ k v, n = Node None (VList [k; v]) ∧ Conforms key k ∧ Conforms value v) items → Conforms (DictType key value) (Node None (VList items))
| conforms_tagged tag element n : Conforms element n → Conforms (TaggedType tag element) n
| conforms_state function argument element n : Conforms element n → Conforms (AggregateStateType function argument element) n.

#[local] Set Elimination Schemes.

(** Any behind optionals and tags. *)
Fixpoint takes_any (type : TLogicalType) : bool :=
  match type with
  | SimpleType SimpleAny => true
  | OptionalType element => negb (IsNullable element) && takes_any element
  | TaggedType _ element | AggregateStateType _ _ element => takes_any element
  | _ => false
  end.

(** No alternative of a variant and no key or value of a dictionary is Any: what the validator does not expect to be missing. *)
Definition any_enclosed (type : TLogicalType) : Prop :=
  match type with
  | VariantStructType fields => Forall (λ field, takes_any (FieldType field) = false) fields
  | VariantTupleType elements => Forall (λ element, takes_any element = false) elements
  | DictType key value => takes_any key = false ∧ takes_any value = false
  | _ => True
  end.

Definition decimal_ok (type : TLogicalType) : Prop := match type with DecimalType precision scale => 1 <= precision <= 76 ∧ 0 <= scale <= precision | _ => True end.

(** ** The reference decides it *)

Lemma at_end_spec type : at_end type = if takes_any type then Crash else violation.
Proof. induction type using TLogicalType_induction; cbn [at_end takes_any]; try done; [by destruct s|by destruct (IsNullable type)]. Qed.

(** An outcome that tells whether [P] holds; a crash is excluded by [safe]. *)
Definition settles (safe P : Prop) (r : Result ()) : Prop :=
  match r with Ok _ => P | Throw e => e = ESchemaViolation ∧ ¬ P | Crash => ¬ safe ∧ ¬ P | OutOfFuel => False end.

Lemma settles_iff (safe P Q : Prop) r : settles safe P r → (P ↔ Q) → settles safe Q r.
Proof. unfold settles. destruct r; tauto. Qed.

Lemma settles_safe (safe safe' P : Prop) r : settles safe P r → (safe' → safe) → settles safe' P r.
Proof. unfold settles. destruct r; tauto. Qed.

Lemma settles_and (safe P Q : Prop) r s : settles safe P r → settles safe Q s → settles safe (P ∧ Q) (_ ← r; s).
Proof. unfold settles. destruct r as [[]|e| |]; run_bind; [destruct s|..]; tauto. Qed.

Lemma settles_no (safe P : Prop) : ¬ P → settles safe P violation.
Proof. intros HP. by split. Qed.

Lemma settles_if (safe : Prop) (b : bool) : settles safe (b = true) (if b then Ok () else violation).
Proof. by destruct b. Qed.

Lemma each_settles {A} (safe : Prop) (P : A → Prop) f l : (∀ x, settles safe (P x) (f x)) → settles safe (Forall P l) (each f l).
Proof. intros Hf. induction l as [|x l IH]; [constructor|]. cbn [each]. eapply settles_iff; [by apply settles_and|]. by rewrite list.Forall_cons. Qed.

Lemma range_settles (safe : Prop) type x : settles safe (ranges type x) (ValidateNumericRange x (GetLogicalTypeMin type) (GetLogicalTypeMax type)).
Proof. unfold ValidateNumericRange, ranges. destruct (Z.ltb_spec x (GetLogicalTypeMin type)), (Z.gtb_spec x (GetLogicalTypeMax type)); cbn [orb settles]; [split; [done|lia]..|lia]. Qed.

Lemma int64_settles (safe : Prop) type x : settles safe (type = SimpleInt64 ∨ ranges type x) (ValidateSimpleLogicalType_int64 type x).
Proof. destruct type; try (eapply settles_iff; [apply range_settles|]; split; [by right|by intros [?|?]]). by left. Qed.

Lemma uint64_settles (safe : Prop) type x : settles safe (type = SimpleUint64 ∨ ranges type x) (ValidateSimpleLogicalType_uint64 type x).
Proof. destruct type; try (eapply settles_iff; [apply range_settles|]; split; [by right|by intros [?|?]]). by left. Qed.

Lemma double_settles (safe : Prop) type d : settles safe (type = SimpleFloat → FloatFits d) (ValidateSimpleLogicalType_double type d).
Proof.
  destruct type; try done. eapply settles_iff with (P := FloatFits d); [|split; [done|auto]]. cbn [ValidateSimpleLogicalType_double]. unfold FloatFits.
  destruct (isinf d), (Compare.isnan d); cbn [negb andb]. 1-3: cbn [settles]; by auto. destruct (double_lt d float_lowest), (double_lt float_max d); cbn [orb settles]; first [by auto|split; [done|by intros [?|[?|[? ?]]]]].
Qed.

Lemma as_violation_settles (safe P : Prop) r : settles safe P r → settles safe P (as_violation r).
Proof. destruct r; [done|intros [-> ?]; done|done..]. Qed.

Lemma tz_settles (safe : Prop) underlying (isSigned : bool) size value : (if isSigned then underlying ≠ SimpleInt64 else underlying ≠ SimpleUint64) →
  settles safe (length value = (size + 2)%nat ∧ ranges underlying (ParsePresorted isSigned size value) ∧ IsValidTimezoneIndex (ParsePresorted false 2 (drop size value)) = true) (validate_tz underlying isSigned size value).
Proof.
  intros Hne. unfold validate_tz, ParseTzValue, ValidateTzId. destruct (Nat.eqb_spec (length value) (size + 2)) as [El|El]; cbn [negb]; [|split; [done|tauto]]. run_bind.
  eapply settles_iff with (P := ranges underlying (ParsePresorted isSigned size value) ∧ IsValidTimezoneIndex (ParsePresorted false 2 (drop size value)) = true); [|tauto].
  set (r := if isSigned then ValidateSimpleLogicalType_int64 underlying _ else _). assert (settles safe (ranges underlying (ParsePresorted isSigned size value)) r) as Hr.
  { unfold r. destruct isSigned; (eapply settles_iff; [apply int64_settles || apply uint64_settles|tauto]). }
  destruct r as [[]|e| |]; cbn [as_violation]; run_bind; cbn [settles as_violation] in *; [|tauto..]. destruct (IsValidTimezoneIndex _); cbn [settles as_violation]; [done|]. split; [done|]. by intros [_ ?].
Qed.

Lemma string_settles (safe : Prop) type value : settles safe (StringConforms type value) (ValidateSimpleLogicalType_string validate_json type value).
Proof.
  unfold StringConforms, ValidateSimpleLogicalType_string. destruct (GetUnderlyingDateType type) as [[[underlying isSigned] size]|] eqn:E; [apply tz_settles; destruct type; by simplify_eq/=|].
  destruct type; try done.
  - unfold IsUtf. by destruct (UTF8Detect value).
  - apply settles_if.
  - by destruct (Nat.eqb_spec (length value) 16); cbn [negb settles].
Qed.

Lemma simple_settles (safe : Prop) type v : settles safe (Conforms (SimpleType type) (Node None v)) (check_simple validate_json type v).
Proof.
  unfold check_simple. case_bool_decide as Es.
  - subst type. eapply settles_iff with (P := v ≠ VEntity); [destruct v; try done; apply settles_no; intros Hv; by apply Hv|]. split; [by constructor|]. inversion 1 as [|? ? Hs| | | | | | | | | | | |]; subst; [done|]. by destruct v.
  - eapply settles_iff with (P := SimpleConforms type v); [|split; [by constructor|by inversion 1]]. case_bool_decide as Et.
    + destruct v; cbn [value_head scalar_item default from_option id check_item SimpleConforms GetType] in *; [..|by destruct type|by destruct type].
      all: try (by destruct type). all: eapply settles_iff; [apply int64_settles || apply uint64_settles || apply double_settles || apply string_settles|].
      all: split; [|by intros [_ ?]]; intros ?; split; [|done]; by destruct type.
    + apply settles_no. intros Hs. apply Et. destruct v; cbn [SimpleConforms] in Hs; try done. all: repeat match goal with H : _ ∧ _ |- _ => destruct H as [H _] end; cbn; by rewrite Hs.
Qed.

#[local] Abbreviation Check := (check validate_json).

(** The reference decides the values of a type below a root that is [safe]. *)
Definition settled (safe : Prop) (type : TLogicalType) : Prop := ∀ n, settles safe (Conforms type n) (Check type n).

Lemma no_more_settles (safe : Prop) items : settles safe (items = []) (no_more items).
Proof. destruct items; [done|by apply settles_no]. Qed.

Lemma take_item_settles (safe : Prop) type (K : list TNode → Prop) k items : settled safe type → (safe → takes_any type = false) → (∀ items, settles safe (K items) (k items)) →
  settles safe (∃ n rest, items = n :: rest ∧ Conforms type n ∧ K rest) (take_item Check type items k).
Proof.
  intros Hs Ha Hk. destruct items as [|n items]; cbn [take_item].
  - rewrite at_end_spec. destruct (takes_any type); [split; [|by intros (? & ? & ? & _)]; intros Hsafe; by specialize (Ha Hsafe)|]. apply settles_no. by intros (? & ? & ? & _).
  - eapply settles_iff; [by apply settles_and; [apply Hs|apply Hk]|]. split; [intros [? ?]; by exists n, items|]. by intros (? & ? & [= <- <-] & ? & ?).
Qed.

Lemma struct_settles (safe : Prop) fields items : Forall (λ field, settled safe (FieldType field)) fields →
  settles safe (∃ present absent, fields = present ++ absent ∧ Forall2 (λ field n, Conforms (FieldType field) n) present items ∧ Forall (λ field, is_optional (FieldType field) = true) absent) (struct_items Check fields items).
Proof.
  intros Hf. revert items. induction Hf as [|field fields Hf _ IH]; intros items; cbn [struct_items].
  - eapply settles_iff; [apply no_more_settles|]. split; [intros ->; by exists [], []|]. intros (present & absent & E & H2 & _). symmetry in E. apply app_eq_nil in E as [-> ->]. by inversion H2.
  - destruct items as [|n items].
    + eapply settles_iff; [apply settles_if|]. rewrite forallb_forall. split.
      * intros Ho. exists [], (field :: fields). split_and!; [done|constructor|]. apply list.Forall_forall. intros x Hx%list_elem_of_In. by apply Ho.
      * intros (present & absent & E & H2 & Ha). inversion H2; subst. cbn [app] in E. subst. rewrite list.Forall_forall in Ha. intros x Hx%list_elem_of_In. by apply Ha.
    + eapply settles_iff; [apply settles_and; [apply Hf|apply IH]|]. split.
      * intros (Hn & present & absent & -> & H2 & Ha). exists (field :: present), absent. split_and!; [done|by constructor|done].
      * intros (present & absent & E & H2 & Ha). inversion H2 as [|x ? present' ? Hx H2']; subst. cbn [app] in E. injection E as -> ->. split; [done|]. by exists present', absent.
Qed.

Lemma tuple_settles (safe : Prop) elements items : Forall (settled safe) elements → settles safe (Forall2 Conforms elements items) (tuple_items Check elements items).
Proof.
  intros Hf. revert items. induction Hf as [|element elements Hf _ IH]; intros items; cbn [tuple_items].
  - eapply settles_iff; [apply no_more_settles|]. split; [intros ->; constructor|by inversion 1].
  - destruct items as [|n items]; [apply settles_no; by inversion 1|]. eapply settles_iff; [apply settles_and; [apply Hf|apply IH]|]. by rewrite list.Forall2_cons.
Qed.

Lemma alternative_settles (safe : Prop) elements index items : Forall (λ element, settled safe element ∧ (safe → takes_any element = false)) elements →
  settles safe (∃ element n, elements !! index = Some element ∧ items = [n] ∧ Conforms element n) (alternative_items Check elements index items).
Proof.
  intros Hf. revert index. induction Hf as [|element elements [Hf Ha] _ IH]; intros index; [apply settles_no; by intros (? & ? & ? & _)|]. destruct index as [|index]; cbn [alternative_items lookup list_lookup].
  - eapply settles_iff; [apply (take_item_settles safe element (λ items, items = [])); [done|done|apply no_more_settles]|]. split.
    + intros (n & rest & -> & Hn & ->). by exists element, n.
    + intros (e & n & [= <-] & -> & Hn). by exists n, [].
  - apply IH.
Qed.

Lemma field_alternative_settles (safe : Prop) fields index items : Forall (λ field, settled safe (FieldType field) ∧ (safe → takes_any (FieldType field) = false)) fields →
  settles safe (∃ field n, fields !! index = Some field ∧ items = [n] ∧ Conforms (FieldType field) n) (field_alternative_items Check fields index items).
Proof.
  intros Hf. revert index. induction Hf as [|field fields [Hf Ha] _ IH]; intros index; [apply settles_no; by intros (? & ? & ? & _)|]. destruct index as [|index]; cbn [field_alternative_items lookup list_lookup].
  - eapply settles_iff; [apply (take_item_settles safe (FieldType field) (λ items, items = [])); [done|done|apply no_more_settles]|]. split.
    + intros (n & rest & -> & Hn & ->). by exists field, n.
    + intros (e & n & [= <-] & -> & Hn). by exists n, [].
  - apply IH.
Qed.

Lemma variant_settles (safe : Prop) (K : nat → list TNode → Prop) k items : (∀ index items, settles safe (K index items) (k index items)) →
  settles safe (∃ index rest, 0 <= index ∧ items = Node None (VInt64 index) :: rest ∧ K (Z.to_nat index) rest) (variant_items k items).
Proof.
  intros Hk.
  destruct items as [|[[attributes|] v] items]; [apply settles_no; by intros (? & ? & ? & ? & _)..|]. destruct v as [| index | | | | | |]; try (apply settles_no; by intros (? & ? & ? & ? & _)).
  cbn [variant_items]. destruct (Z.ltb_spec index 0).
  - apply settles_no. intros (? & ? & ? & [= <- <-] & _). lia.
  - eapply settles_iff; [apply Hk|]. split; [intros ?; by exists index, items|]. by intros (? & ? & ? & [= <- <-] & ?).
Qed.

Lemma pair_settles (safe : Prop) key value n : settled safe key → settled safe value → (safe → takes_any key = false ∧ takes_any value = false) →
  settles safe (∃ k v, n = Node None (VList [k; v]) ∧ Conforms key k ∧ Conforms value v) (pair_items Check key value n).
Proof.
  intros Hk Hv Ha. destruct n as [[attributes|] v]; [apply settles_no; by intros (? & ? & ? & _)|]. destruct v as [| | | | | |items|]; try (apply settles_no; by intros (? & ? & ? & _)). cbn [pair_items].
  eapply settles_iff.
  - apply (take_item_settles safe key (λ items, ∃ n rest, items = n :: rest ∧ Conforms value n ∧ rest = [])); [done|by intros [? ?]%Ha|]. intros items'. apply (take_item_settles safe value (λ items, items = [])); [done|by intros [? ?]%Ha|apply no_more_settles].
  - split; [intros (k & rest & -> & Hk' & v & rest' & -> & Hv' & ->); by exists k, v|]. intros (k & v & [= ->] & ? & ?). exists k, [v]. split_and!; [done|done|]. by exists v, [].
Qed.

Lemma Conforms_plain type n : Conforms type n → node_attributes n = None.
Proof. induction type using TLogicalType_induction; inversion 1; subst; auto. Qed.

Lemma plain_settles (safe : Prop) type : (∀ v, settles safe (Conforms type (Node None v)) (Check type (Node None v))) → settled safe type.
Proof.
  intros Hp [[attributes|] v]; [|apply Hp]. assert (Check type (Node (Some attributes) v) = violation) as -> by (by destruct type). apply settles_no. by intros ?%Conforms_plain.
Qed.

(** A type whose values are lists. *)
Lemma list_settles (safe : Prop) type (K : list TNode → Prop) k : (∀ v, Check type (Node None v) = match v with VList items => k items | _ => violation end) →
  (∀ v, Conforms type (Node None v) ↔ ∃ items, v = VList items ∧ K items) → (∀ items, settles safe (K items) (k items)) → settled safe type.
Proof.
  intros Hc HK Hk. apply plain_settles. intros v. rewrite Hc. eapply settles_iff; [|symmetry; apply HK]. destruct v as [| | | | | |items|]; try (apply settles_no; by intros (? & ? & _)).
  eapply settles_iff; [apply Hk|]. split; [by exists items|]. by intros (? & [= <-] & ?).
Qed.

Lemma optional_settles (safe : Prop) element : settled safe element → settled safe (OptionalType element).
Proof.
  intros Hs. apply plain_settles. intros v. cbn [check]. assert (v = VEntity ∨ v ≠ VEntity) as [-> |Hv] by (destruct v; auto); [constructor|]. rewrite (non_entity v _ _ Hv). destruct (IsNullable element) eqn:En; cbn [negb].
  - eapply settles_iff with (P := ∃ n, v = VList [n] ∧ Conforms element n); [|split; [by intros (n & -> & ?); apply conforms_boxed|inversion 1; subst; [done|congruence|by eexists]]].
    destruct v as [| | | | | |[|n items]|]; try (apply settles_no; by intros (? & ? & _)). cbn [take_item]. eapply settles_iff; [by apply settles_and; [apply Hs|apply no_more_settles]|].
    split; [intros [? ->]; by exists n|]. by intros (? & [= -> ->] & ?).
  - eapply settles_iff; [apply Hs|]. split; [by apply conforms_some|]. inversion 1; subst; [done..|congruence].
Qed.

Lemma decimal_settles (safe : Prop) precision scale : 1 <= precision <= 76 ∧ 0 <= scale <= precision → settled safe (DecimalType precision scale).
Proof.
  intros [Hp Hs]. apply plain_settles. intros v. cbn [check]. destruct v; try (apply settles_no; by inversion 1). rewrite ValidateBinaryValue_spec by done.
  eapply settles_iff with (P := length s = size_of_precision precision ∧ holds precision (decimal_of_bytes s) = true); [|split; [intros [? ?]; by constructor|by inversion 1]].
  case_bool_decide; cbn [andb]; [|apply settles_no; tauto]. destruct (holds _ _); [done|]. apply settles_no. by intros [_ ?].
Qed.

Lemma children_settle root : decimal_ok root → (∀ c, c ∈ children root → settled (throughout any_enclosed root) c) → settled (throughout any_enclosed root) root.
Proof.
  set (safe := throughout any_enclosed root). intros Hd Hc. pose proof (throughout_root any_enclosed root) as Ha. fold safe in Ha.
  assert (∀ fields, children root = map FieldType fields → Forall (λ field, settled safe (FieldType field)) fields) as Hfields.
  { intros fields E. apply list.Forall_forall. intros field Hf. apply Hc. rewrite E. apply list_elem_of_fmap. by exists field. }
  assert (Forall (settled safe) (children root)) as Helements by (by apply list.Forall_forall).
  clearbody safe. destruct root as [s|precision scale|element|element|fields removed|elements|fields|elements|key value|tag element|function argument element]; cbn [children any_enclosed] in *.
  - apply plain_settles. intros v. apply simple_settles.
  - by apply decimal_settles.
  - apply optional_settles. by apply list.Forall_singleton.
  - apply (list_settles safe _ (Forall (Conforms element)) (each (Check element))); [done|..].
    + intros v. split; [inversion 1; subst; by eexists|]. intros (items & -> & ?). by constructor.
    + intros items. apply each_settles. rewrite list.Forall_singleton in Helements. exact Helements.
  - eapply (list_settles safe); [done| |intros items; apply struct_settles; by apply Hfields].
    intros v. split; [inversion 1; subst; by repeat eexists|]. intros (items & -> & present & absent & -> & ? & ?). by constructor.
  - eapply (list_settles safe); [done| |intros items; by apply tuple_settles].
    intros v. split; [inversion 1; subst; by eexists|]. intros (items & -> & ?). by constructor.
  - eapply (list_settles safe); [done| |intros items; apply variant_settles; intros index rest; apply field_alternative_settles].
    + intros v. split; [inversion 1; subst; by repeat eexists|]. intros (items & -> & index & rest & ? & -> & field & n & ? & -> & ?). by econstructor.
    + apply list.Forall_and; split; [by apply Hfields|]. apply list.Forall_forall. intros field Hf Hs. specialize (Ha Hs). rewrite list.Forall_forall in Ha. by apply Ha.
  - eapply (list_settles safe); [done| |intros items; apply variant_settles; intros index rest; apply alternative_settles].
    + intros v. split; [inversion 1; subst; by repeat eexists|]. intros (items & -> & index & rest & ? & -> & element & n & ? & -> & ?). by econstructor.
    + apply list.Forall_and; split; [done|]. apply list.Forall_forall. intros element Hf Hs. specialize (Ha Hs). rewrite list.Forall_forall in Ha. by apply Ha.
  - apply list.Forall_cons in Helements as [Hk Hv]. rewrite list.Forall_singleton in Hv. eapply (list_settles safe); [done| |intros items; apply each_settles; intros n; by apply pair_settles].
    intros v. split; [inversion 1; subst; by eexists|]. intros (items & -> & ?). by constructor.
  - rewrite list.Forall_singleton in Helements. apply plain_settles. intros v. eapply settles_iff; [apply Helements|]. split; [by constructor|by inversion 1].
  - rewrite list.Forall_singleton in Helements. apply plain_settles. intros v. eapply settles_iff; [apply Helements|]. split; [by constructor|by inversion 1].
Qed.

Lemma check_settles type : throughout decimal_ok type → settled (throughout any_enclosed type) type.
Proof.
  induction type as [root IH] using type_children_induction. intros Hd. apply children_settle; [by apply throughout_root|].
  intros c Hc n. eapply settles_safe; [by apply IH; [|eapply throughout_child]|]. intros Ht. by eapply throughout_child.
Qed.

(** ** Tags *)

(** Fields that are optional only behind a tag. *)
Definition optional_bare (type : TLogicalType) : Prop :=
  match type with StructType fields _ => Forall (λ field, is_optional (DetagLogicalType (FieldType field)) = true → is_optional (FieldType field) = true) fields | _ => True end.

Lemma Detag_fields fields : map FieldType (map (map_field DetagLogicalType) fields) = map DetagLogicalType (map FieldType fields).
Proof. by rewrite !map_map. Qed.

(** A type that is not a tag or a state. *)
Definition bare (type : TLogicalType) : bool := match type with TaggedType _ _ | AggregateStateType _ _ _ => false | _ => true end.

Lemma Detag_children type : bare type = true → children (DetagLogicalType type) = map DetagLogicalType (children type).
Proof. by destruct type; cbn [DetagLogicalType children]; rewrite ?Detag_fields. Qed.

Lemma Detag_throughout (P : TLogicalType → Prop) type : (∀ t, bare t = true → P t → P (DetagLogicalType t)) → throughout P type → throughout P (DetagLogicalType type).
Proof.
  intros HP. induction type as [type IH] using type_children_induction. intros Ht. destruct (bare type) eqn:Eb.
  - apply throughout_intro; [by apply HP, throughout_root|]. intros c Hc. rewrite Detag_children in Hc by done. apply list_elem_of_fmap in Hc as (c' & -> & Hc). apply IH; [done|]. by eapply throughout_child.
  - destruct type; try done; cbn [DetagLogicalType]; (apply IH; [by left|]; eapply throughout_child; [done|by left]).
Qed.

Lemma Detag_decimals type : throughout decimal_ok type → throughout decimal_ok (DetagLogicalType type).
Proof. apply Detag_throughout. by intros []. Qed.

Lemma Detag_struct present absent items : Forall (λ field, ∀ n, Conforms (FieldType field) n → Conforms (DetagLogicalType (FieldType field)) n) (present ++ absent) →
  Forall2 (λ field n, Conforms (FieldType field) n) present items → Forall (λ field, is_optional (FieldType field) = true) absent →
  Forall2 (λ field n, Conforms (FieldType field) n) (map (map_field DetagLogicalType) present) items ∧ Forall (λ field, is_optional (FieldType field) = true) (map (map_field DetagLogicalType) absent).
Proof.
  intros [Hp _]%list.Forall_app H2 Ha. split.
  - induction H2 as [|field n present items Hn _ IH]; [constructor|]. apply list.Forall_cons in Hp as [Hf Hp]. constructor; [by apply Hf|by apply IH].
  - apply list.Forall_fmap. eapply list.Forall_impl; [exact Ha|]. intros [name stable type]. cbn. by destruct type.
Qed.

Lemma Detag_conforms type n : Conforms type n → Conforms (DetagLogicalType type) n.
Proof.
  revert n. induction type using TLogicalType_induction; intros n; cbn [DetagLogicalType]; try done; inversion 1; subst; auto.
  - constructor.
  - apply conforms_some; rewrite ?Detag_nullable; auto.
  - apply conforms_boxed; rewrite ?Detag_nullable; auto.
  - constructor. eapply list.Forall_impl; [done|]. exact IHtype.
  - rewrite map_app. constructor; by eapply Detag_struct.
  - constructor. match goal with H2 : Forall2 _ _ _ |- _ => revert H2 end. clear - H. intros H2. induction H2 as [|element n' elements items Hn _ IH]; [constructor|]. apply list.Forall_cons in H as [He Hes]. constructor; [by apply He|by apply IH].
  - match goal with El : fields !! _ = Some ?field |- _ => apply (conforms_variant_struct _ index (map_field DetagLogicalType field)); [done|by rewrite list_lookup_fmap, El|]; rewrite list.Forall_forall in H; apply (H field); [by eapply list_elem_of_lookup_2|done] end.
  - match goal with El : elements !! _ = Some ?element |- _ => apply (conforms_variant_tuple _ index (DetagLogicalType element)); [done|by rewrite list_lookup_fmap, El|]; rewrite list.Forall_forall in H; apply (H element); [by eapply list_elem_of_lookup_2|done] end.
  - constructor. eapply list.Forall_impl; [done|]. intros n' (k & v & -> & Hk & Hv). exists k, v. auto.
Qed.

Lemma Forall2_map_impl {A A' C} (f : A → A') (P : A' → C → Prop) (Q : A → C → Prop) l k : Forall2 P (map f l) k → (∀ x y, x ∈ l → P (f x) y → Q x y) → Forall2 Q l k.
Proof. revert k. induction l as [|x l IH]; intros k H2 HP; inversion H2; subst; [constructor|]. constructor; [by apply HP; [left|]|]. apply IH; [done|]. intros ? ? ?. apply HP. by right. Qed.

(** The converse, when no optional field is behind a tag. *)
Lemma Detag_conforms_inv type n : throughout optional_bare type → Conforms (DetagLogicalType type) n → Conforms type n.
Proof.
  revert n. induction type as [type IH] using type_children_induction. intros n Ht. pose proof (throughout_root _ _ Ht) as Hr.
  assert (∀ c n, c ∈ children type → Conforms (DetagLogicalType c) n → Conforms c n) as Hc by (intros c n' Hc; apply IH; [done|by eapply throughout_child]). clear IH Ht.
  destruct type; cbn [DetagLogicalType children optional_bare] in *; try done; try (intros Hn; constructor; apply Hc; [by left|done]); inversion 1; subst; auto.
  - constructor.
  - apply conforms_some; [by rewrite <- Detag_nullable|]. apply Hc; [by left|done].
  - apply conforms_boxed; [by rewrite <- Detag_nullable|]. apply Hc; [by left|done].
  - constructor. eapply list.Forall_impl; [done|]. intros n'. apply Hc. by left.
  - match goal with E : _ ++ _ = map _ _ |- _ => symmetry in E; apply map_eq_app in E as (p & q & -> & <- & <-) end. constructor.
    + match goal with H2 : Forall2 _ _ _ |- _ => eapply Forall2_map_impl; [exact H2|] end. intros field n' Hin Hn'. apply Hc; [|done]. apply list_elem_of_fmap. exists field. split; [done|]. apply elem_of_app. by left.
    + apply list.Forall_app in Hr as [_ Hr]. apply list.Forall_forall. intros field Hin. rewrite list.Forall_forall in Hr. apply Hr; [done|]. match goal with Ha : Forall _ (map _ _) |- _ => rewrite list.Forall_fmap, list.Forall_forall in Ha; exact (Ha field Hin) end.
  - constructor. match goal with H2 : Forall2 _ _ _ |- _ => eapply Forall2_map_impl; [exact H2|] end. intros element n' Hin. by apply Hc.
  - match goal with El : map _ _ !! _ = Some _ |- _ => rewrite list_lookup_fmap in El; apply fmap_Some in El as (field' & El & ->) end. econstructor; [done|done|]. apply Hc; [|done]. apply list_elem_of_fmap. exists field'. split; [done|]. by eapply list_elem_of_lookup_2.
  - match goal with El : map _ _ !! _ = Some _ |- _ => rewrite list_lookup_fmap in El; apply fmap_Some in El as (element' & El & ->) end. econstructor; [done|done|]. apply Hc; [|done]. by eapply list_elem_of_lookup_2.
  - constructor. eapply list.Forall_impl; [done|]. intros n' (k & v & -> & Hk & Hv). exists k, v. split_and!; [done|apply Hc; [by left|done]|apply Hc; [by right; left|done]].
Qed.
End Conformance.

Lemma WellFormed_decimals depthLimit type : WellFormed depthLimit type → throughout decimal_ok type.
Proof. intros Hwf stack t Ho. destruct (Hwf stack t Ho) as [Hn _]. by destruct t. Qed.

Lemma validated_decimals depthLimit type : LogicalType.ValidateLogicalType depthLimit type = Ok () → throughout decimal_ok type.
Proof. intros E. eapply WellFormed_decimals. by apply (decides_ok _ _ _ (ValidateLogicalType_decides depthLimit type)). Qed.

(** The constants of the types fit the integers of their values. *)
Lemma bounds_representable type :
  (GetPhysicalType type = TypeInt64 → - 2 ^ 63 <= GetLogicalTypeMin type ∧ GetLogicalTypeMin type <= GetLogicalTypeMax type ∧ GetLogicalTypeMax type < 2 ^ 63) ∧
  (GetPhysicalType type = TypeUint64 → GetLogicalTypeMin type = 0 ∧ 0 < GetLogicalTypeMax type < 2 ^ 64).
Proof. destruct type; split; intros E; try discriminate; vm_compute; repeat split; discriminate. Qed.

(** ** Theorems *)

(** C22. For a type that passed its validation, [ValidateComplexLogicalType] on the YSON of a value, in any spelling,
    returns exactly when the value conforms to the type: simple values have the physical type and the range of the type
    (zoned dates included), decimals fit, an optional of a nullable type boxes its value in a list of one item, a struct
    may lack optional fields at its end, tuples have all their elements, a variant is an index in range and a value,
    a dictionary is a list of pairs, tags are looked through and nothing has attributes. Otherwise it throws a schema
    violation; it aborts at most when an alternative of a variant or a key or value of a dictionary is Any. *)
Theorem ValidateComplexLogicalType_correct validate_json fd ndebug depthLimit type n t ws1 ws2 : total_conversion fd →
  LogicalType.ValidateLogicalType depthLimit type = Ok () → spaces ws1 → NodeText fd DefaultMemoryLimit n t → spaces ws2 → (node_depth n < 256)%nat →
  let r := ValidateComplexLogicalType validate_json fd ndebug (ws1 ++ t ++ ws2) type in
  r = Ok () ∧ Conforms validate_json type n ∨
  r = Throw ESchemaViolation ∧ ¬ Conforms validate_json type n ∨
  r = Crash ∧ ¬ Conforms validate_json type n ∧ ¬ throughout any_enclosed type.
Proof.
  intros Hfd Htype H1 Ht H2 Hd r. pose proof (check_settles validate_json type (validated_decimals _ _ Htype) n) as Hs. unfold r. rewrite (ValidateComplexLogicalType_text _ _ _ _ n) by done.
  destruct (check validate_json type n) as [[]|e| |]; cbn [settles] in Hs; [by left|destruct Hs as [-> ?]; by auto|destruct Hs; by auto|done].
Qed.

(** A value accepted for a type is accepted for the type without its tags ([DetagLogicalType]). The converse holds
    when no field of a struct is optional only behind a tag: such a field may be missing at the end of a value
    of the type without tags, but not of the type itself. *)
Theorem Detag_validation validate_json fd ndebug depthLimit type n t ws1 ws2 : total_conversion fd →
  LogicalType.ValidateLogicalType depthLimit type = Ok () → spaces ws1 → NodeText fd DefaultMemoryLimit n t → spaces ws2 → (node_depth n < 256)%nat →
  let validate type := ValidateComplexLogicalType validate_json fd ndebug (ws1 ++ t ++ ws2) type in
  (validate type = Ok () → validate (DetagLogicalType type) = Ok ()) ∧
  (throughout optional_bare type → validate (DetagLogicalType type) = Ok () → validate type = Ok ()).
Proof.
  intros Hfd Htype H1 Ht H2 Hd validate. pose proof (validated_decimals _ _ Htype) as Hdec.
  assert (∀ type, throughout decimal_ok type → validate type = Ok () ↔ Conforms validate_json type n) as Hv.
  { clear type Htype Hdec. intros type Hdec. unfold validate. rewrite (ValidateComplexLogicalType_text _ _ _ _ n) by done. pose proof (check_settles validate_json type Hdec n) as Hs.
    destruct (check validate_json type n) as [[]|e| |]; cbn [settles] in Hs; [done|..|done]; split; try done; tauto. }
  rewrite !Hv by (done || by apply Detag_decimals). split; [apply Detag_conforms|]. intros ?. by apply Detag_conforms_inv.
Qed.

(** A struct whose second field may be missing, and a text of a value without it. *)
Definition example_type : TLogicalType :=
  StructType [Build_TStructField (B"a") (B"a") (TaggedType (B"t") (SimpleType SimpleBoolean)); Build_TStructField (B"b") (B"b") (OptionalType (SimpleType SimpleAny))] [].

Lemma example_text : NodeText (λ _, Ok 0) DefaultMemoryLimit (Node None (VList [Node None (VBoolean true)])) (B"[%true]").
Proof.
  apply PlainNode. apply (ListValue _ _ [Node None (VBoolean true)] (B"%true")). apply (ListLast _ _ [] _ (B"%true") []); [constructor| |constructor].
  apply PlainNode, ScalarValue, (TextBoolean _ _ true). by vm_compute.
Qed.

Lemma ValidateComplexLogicalType_correct_witness :
  LogicalType.ValidateLogicalType None example_type = Ok () ∧ Conforms (λ _, true) example_type (Node None (VList [Node None (VBoolean true)])).
Proof.
  split; [vm_compute; reflexivity|].
  destruct (ValidateComplexLogicalType_correct (λ _, true) (λ _, Ok 0) false None example_type (Node None (VList [Node None (VBoolean true)])) (B"[%true]") [] []
    ltac:(done) ltac:(vm_compute; reflexivity) ltac:(constructor) example_text ltac:(constructor) ltac:(simpl; lia)) as [[_ H]|[[H _]|[H _]]]; [exact H|exfalso; vm_compute in H; discriminate..].
Defined.

Lemma Detag_validation_witness : ValidateComplexLogicalType (λ _, true) (λ _, Ok 0) false (B"[%true]") (DetagLogicalType example_type) = Ok ().
Proof.
  exact (proj1 (Detag_validation (λ _, true) (λ _, Ok 0) false None example_type (Node None (VList [Node None (VBoolean true)])) (B"[%true]") [] []
    ltac:(done) ltac:(vm_compute; reflexivity) ltac:(constructor) example_text ltac:(constructor) ltac:(simpl; lia)) ltac:(vm_compute; reflexivity)).
Defined.

(** The validator aborts on a missing value of Any in a variant or a dictionary, of types that pass validation. *)
Lemma missing_any_aborts (type := OptionalType (SimpleType SimpleAny)) :
  LogicalType.ValidateLogicalType None (VariantTupleType [type]) = Ok () ∧ ValidateComplexLogicalType (λ _, true) (λ _, Ok 0) false (B"[0]") (VariantTupleType [type]) = Crash ∧
  LogicalType.ValidateLogicalType None (DictType (SimpleType SimpleString) type) = Ok () ∧
  ValidateComplexLogicalType (λ _, true) (λ _, Ok 0) false (B"[[k]]") (DictType (SimpleType SimpleString) type) = Crash.
Proof. split_and!; vm_compute; reflexivity. Qed.

(** A field that is optional behind a tag may not be missing, but it may when the tag is removed. *)
Lemma tagged_optional_required (type := StructType [Build_TStructField (B"a") (B"a") (TaggedType (B"t") (OptionalType (SimpleType SimpleBoolean)))] []) :
  LogicalType.ValidateLogicalType None type = Ok () ∧ ValidateComplexLogicalType (λ _, true) (λ _, Ok 0) false (B"[]") type = Throw ESchemaViolation ∧
  ValidateComplexLogicalType (λ _, true) (λ _, Ok 0) false (B"[]") (DetagLogicalType type) = Ok ().
Proof. split_and!; vm_compute; reflexivity. Qed.
