(* ===== verification/LogicalTypeText.v ===== *)
(** The text form of logical types (table_client/logical_type.cpp: [TLogicalTypeParser], [ToString];
    [EscapeCAndSingleQuotes] of helpers.cpp; the reading of enumerations of library/cpp/yt/string).
    [Str_] and [Index_] of the parser are the text that is not yet read, and the current identifier
    is what [ConsumeIdentifier] returns. [atoi] is that of glibc, on the digits in front of an
    identifier. *)

From S2P Require Import Prelude IntCast Escape YsonLexer Utf8 CompositeCompare LogicalType.

(** ** Literals of enumerations *)

Definition literal (type : ESimpleLogicalValueType) : list byte :=
  match type with
  | SimpleNull => B"Null" | SimpleInt64 => B"Int64" | SimpleUint64 => B"Uint64" | SimpleDouble => B"Double" | SimpleBoolean => B"Boolean"
  | SimpleString => B"String" | SimpleAny => B"Any" | SimpleInt8 => B"Int8" | SimpleUint8 => B"Uint8" | SimpleInt16 => B"Int16"
  | SimpleUint16 => B"Uint16" | SimpleInt32 => B"Int32" | SimpleUint32 => B"Uint32" | SimpleUtf8 => B"Utf8" | SimpleDate => B"Date"
  | SimpleDatetime => B"Datetime" | SimpleTimestamp => B"Timestamp" | SimpleInterval => B"Interval" | SimpleVoid => B"Void"
  | SimpleFloat => B"Float" | SimpleJson => B"Json" | SimpleUuid => B"Uuid" | SimpleDate32 => B"Date32" | SimpleDatetime64 => B"Datetime64"
  | SimpleTimestamp64 => B"Timestamp64" | SimpleInterval64 => B"Interval64" | SimpleTzDate => B"TzDate" | SimpleTzDatetime => B"TzDatetime"
  | SimpleTzTimestamp => B"TzTimestamp" | SimpleTzDate32 => B"TzDate32" | SimpleTzDatetime64 => B"TzDatetime64"
  | SimpleTzTimestamp64 => B"TzTimestamp64"
  end.

Definition simple_domain : list ESimpleLogicalValueType :=
  [SimpleNull; SimpleInt64; SimpleUint64; SimpleDouble; SimpleBoolean; SimpleString; SimpleAny; SimpleInt8; SimpleUint8; SimpleInt16; SimpleUint16;
   SimpleInt32; SimpleUint32; SimpleUtf8; SimpleDate; SimpleDatetime; SimpleTimestamp; SimpleInterval; SimpleVoid; SimpleFloat; SimpleJson; SimpleUuid;
   SimpleDate32; SimpleDatetime64; SimpleTimestamp64; SimpleInterval64; SimpleTzDate; SimpleTzDatetime; SimpleTzTimestamp; SimpleTzDate32;
   SimpleTzDatetime64; SimpleTzTimestamp64].

(** [TEnumTraits<T>::FindValueByLiteral]. *)
Definition FindValueByLiteral {T} (literal : T → list byte) (domain : list T) (text : list byte) : option T :=
  List.find (λ value, bool_decide (literal value = text)) domain.

Inductive ELogicalMetatype : Set :=
| MetaSimple | MetaOptional | MetaList | MetaStruct | MetaTuple | MetaVariantStruct | MetaVariantTuple | MetaDict | MetaTagged | MetaDecimal | MetaAggregateState.

Definition metatype_literal (metatype : ELogicalMetatype) : list byte :=
  match metatype with
  | MetaSimple => B"Simple" | MetaOptional => B"Optional" | MetaList => B"List" | MetaStruct => B"Struct" | MetaTuple => B"Tuple"
  | MetaVariantStruct => B"VariantStruct" | MetaVariantTuple => B"VariantTuple" | MetaDict => B"Dict" | MetaTagged => B"Tagged"
  | MetaDecimal => B"Decimal" | MetaAggregateState => B"AggregateState"
  end.

Definition metatype_domain : list ELogicalMetatype :=
  [MetaSimple; MetaOptional; MetaList; MetaStruct; MetaTuple; MetaVariantStruct; MetaVariantTuple; MetaDict; MetaTagged; MetaDecimal; MetaAggregateState].

Definition function_literal (function : EAggregateFunction) : list byte :=
  match function with Sum => B"Sum" | Avg => B"Avg" | Min => B"Min" | Max => B"Max" end.

Definition function_domain : list EAggregateFunction := [Sum; Avg; Min; Max].

Definition isupper (c : byte) : bool := Escape.in_range c "A" "Z".
Definition islower (c : byte) : bool := Escape.in_range c "a" "z".
Definition toupper (c : byte) : byte := if islower c then byte_of (byte_val c - 32) else c.
Definition tolower (c : byte) : byte := if isupper c then byte_of (byte_val c + 32) else c.

Fixpoint underscore_loop (first upper : bool) (str : list byte) : list byte :=
  match str with
  | [] => []
  | c :: str =>
      if Byte.eqb c "_" then underscore_loop false true str
      else
        let prefix := if upper && negb (isalpha c) && negb first then ["_"%byte] else [] in
        prefix ++ (if upper then toupper c else c) :: underscore_loop false false str
  end.

Definition UnderscoreCaseToCamelCase (str : list byte) : list byte := underscore_loop true true str.

Fixpoint camel_loop (first : bool) (str : list byte) : list byte :=
  match str with
  | [] => []
  | c :: str => if isupper c && isalpha c then (if negb first then ["_"%byte] else []) ++ tolower c :: camel_loop false str else c :: camel_loop false str
  end.

Definition CamelCaseToUnderscoreCase (str : list byte) : list byte := camel_loop true str.

Definition TryDecodeEnumValue (value : list byte) : option (list byte) :=
  let camelValue := UnderscoreCaseToCamelCase value in
  if bool_decide (value = CamelCaseToUnderscoreCase camelValue) then Some camelValue else None.

(** [ParseEnum] of an enumeration without an unknown value. *)
Definition TryParseEnum {T} (literal : T → list byte) (domain : list T) (str : list byte) : option T :=
  match FindValueByLiteral literal domain str with
  | Some value => Some value
  | None => decoded ← TryDecodeEnumValue str; FindValueByLiteral literal domain decoded
  end.

Definition ParseEnum {T} (literal : T → list byte) (domain : list T) (str : list byte) : Result T :=
  match TryParseEnum literal domain str with Some value => Ok value | None => Throw EFromString end.

(** ** Reading *)

Definition isalnum (c : byte) : bool := isdigit c || isalpha c.
Definition isspace (c : byte) : bool := IsSpace c.
Definition is_identifier (c : byte) : bool := Byte.eqb c "_" || isalnum c.

Fixpoint ConsumeWhitespaces (str : list byte) : list byte :=
  match str with c :: str' => if isspace c then ConsumeWhitespaces str' else str | [] => [] end.

Definition ConsumeCharacterOrThrow (character : byte) (str : list byte) : Result (list byte) :=
  match str with
  | [] => Throw EBadLogicalType
  | c :: str => if Byte.eqb c character then Ok (ConsumeWhitespaces str) else Throw EBadLogicalType
  end.

Fixpoint identifier_run (str : list byte) : list byte * list byte :=
  match str with
  | [] => ([], [])
  | c :: str' => if is_identifier c then let '(run, rest) := identifier_run str' in (c :: run, rest) else ([], str)
  end.

(** Up to the closing quote, which is dropped: none when the text ends before it. *)
Fixpoint quoted_run (str : list byte) : option (list byte * list byte) :=
  match str with
  | [] => None
  | c :: str =>
      if Byte.eqb c "\" then
        match str with [] => None | d :: str => '(run, rest) ← quoted_run str; Some (c :: d :: run, rest) end
      else if Byte.eqb c "'" then Some ([], str)
      else '(run, rest) ← quoted_run str; Some (c :: run, rest)
  end.

(** The identifier and [QuotedIdentifier_]; none at the end of the text, where [Identifier_] is cleared. *)
Definition ConsumeIdentifier (allowQuotedIdentifier : bool) (str : list byte) : Result (option (list byte * bool) * list byte) :=
  match str with
  | [] => Ok (None, [])
  | c :: str' =>
      if is_identifier c then let '(run, rest) := identifier_run str in Ok (Some (run, false), ConsumeWhitespaces rest)
      else if Byte.eqb c "'" then
        if negb allowQuotedIdentifier then Throw EBadLogicalType
        else
          match quoted_run str' with
          | None => Throw EBadLogicalType
          | Some (run, rest) =>
              identifier ← UnescapeC run;
              if bool_decide (identifier = []) then match rest with [] => Crash | _ => Throw EBadLogicalType end
              else Ok (Some (identifier, true), ConsumeWhitespaces rest)
          end
      else Throw EBadLogicalType
  end.

Definition identifier_text (identifier : option (list byte * bool)) : list byte := from_option fst [] identifier.

(** [static_cast<int>(strtol(str, nullptr, 10))]. *)
Fixpoint strtol_loop (acc : Z) (str : list byte) : Z :=
  match str with c :: str => if isdigit c then strtol_loop (acc * 10 + (byte_val c - 48)) str else acc | [] => acc end.

(** [Identifier_.begin()] of a cleared identifier is a null pointer. *)
Definition atoi (identifier : option (list byte * bool)) : Result Z :=
  match identifier with None => Crash | Some (str, _) => Ok (wrap_s 32 (Z.min (max_s 64) (strtol_loop 0 str))) end.

Section Fields.
Context (ParseType : list byte → Result (TLogicalType * list byte)).

Fixpoint fields_loop (fuel : nat) (types : list TLogicalType) (names : list (list byte)) (str : list byte) : Result (list TLogicalType * list (list byte) * list byte) :=
  match fuel with
  | O => OutOfFuel
  | S fuel =>
      match str with
      | [] => Throw EBadLogicalType
      | c :: str' =>
          if Byte.eqb c ">" then str ← ConsumeCharacterOrThrow ">" str; Ok (types, names, str)
          else if negb (Byte.eqb c ",") then Throw EBadLogicalType
          else
            let str := ConsumeWhitespaces str' in
            if Nat.eqb (length names) (length types) then
              '(identifier, str) ← ConsumeIdentifier true str;
              str ← ConsumeCharacterOrThrow ":" str;
              '(type, str) ← ParseType str;
              fields_loop fuel (types ++ [type]) (names ++ [identifier_text identifier]) str
            else
              '(type, str) ← ParseType str;
              fields_loop fuel (types ++ [type]) names str
      end
  end.

Definition ParseFields (str : list byte) : Result (list TLogicalType * list (list byte) * list byte) :=
  start ← ConsumeCharacterOrThrow "<" str;
  match start with
  | ">"%byte :: str => Ok ([], [], str)
  | _ =>
      '(identifier, str) ← ConsumeIdentifier true start;
      match str with
      | [] => Throw EBadLogicalType
      | c :: _ =>
          if Byte.eqb c ":" then
            str ← ConsumeCharacterOrThrow ":" str;
            '(type, str) ← ParseType str;
            fields_loop (S (length str)) [type] [identifier_text identifier] str
          else if from_option snd false identifier then Throw EBadLogicalType
          else
            '(type, str) ← ParseType start;
            fields_loop (S (length str)) [type] [] str
      end
  end.
End Fields.

Definition make_fields (types : list TLogicalType) (names : list (list byte)) : list (TStructField TLogicalType) :=
  zip_with (λ name type, Build_TStructField name name type) names types.

(** The question marks behind a type. *)
Fixpoint optional_loop (fuel : nat) (type : TLogicalType) (str : list byte) : Result (TLogicalType * list byte) :=
  match fuel with
  | O => OutOfFuel
  | S fuel =>
      match str with
      | "?"%byte :: str => optional_loop fuel (OptionalType type) (ConsumeWhitespaces str)
      | _ => Ok (type, str)
      end
  end.

Definition ParseMetatype (ParseType : list byte → Result (TLogicalType * list byte)) (metatype : ELogicalMetatype) (str : list byte) : Result (TLogicalType * list byte) :=
  match metatype with
  | MetaDecimal =>
      str ← ConsumeCharacterOrThrow "(" str;
      '(identifier, str) ← ConsumeIdentifier false str;
      precision ← atoi identifier;
      str ← ConsumeCharacterOrThrow "," str;
      '(identifier, str) ← ConsumeIdentifier false str;
      scale ← atoi identifier;
      str ← ConsumeCharacterOrThrow ")" str;
      Ok (DecimalType precision scale, str)
  | MetaList =>
      '(types, names, str) ← ParseFields ParseType str;
      match types, names with [type], [] => Ok (ListType type, str) | _, _ => Throw EBadLogicalType end
  | MetaOptional =>
      '(types, names, str) ← ParseFields ParseType str;
      match types, names with [type], [] => Ok (OptionalType type, str) | _, _ => Throw EBadLogicalType end
  | MetaDict =>
      '(types, names, str) ← ParseFields ParseType str;
      match types, names with [key; value], [] => Ok (DictType key value, str) | _, _ => Throw EBadLogicalType end
  | MetaTuple =>
      '(types, names, str) ← ParseFields ParseType str;
      match names with [] => Ok (TupleType types, str) | _ => Throw EBadLogicalType end
  | MetaStruct =>
      '(types, names, str) ← ParseFields ParseType str;
      if negb (Nat.eqb (length types) (length names)) then Throw EBadLogicalType else Ok (StructType (make_fields types names) [], str)
  | MetaTagged =>
      str ← ConsumeCharacterOrThrow "<" str;
      '(baseType, str) ← ParseType str;
      str ← ConsumeCharacterOrThrow "," str;
      '(identifier, str) ← ConsumeIdentifier true str;
      str ← ConsumeCharacterOrThrow ">" str;
      Ok (TaggedType (identifier_text identifier) baseType, str)
  | MetaAggregateState =>
      str ← ConsumeCharacterOrThrow "<" str;
      '(identifier, str) ← ConsumeIdentifier false str;
      function ← ParseEnum function_literal function_domain (identifier_text identifier);
      str ← ConsumeCharacterOrThrow "," str;
      '(argumentType, str) ← ParseType str;
      str ← ConsumeCharacterOrThrow ">" str;
      Ok (AggregateStateLogicalType function argumentType None, str)
  | MetaVariantTuple | MetaVariantStruct | MetaSimple => Throw EBadLogicalType
  end.

(** [ParseType] of the parser, up to the question marks. *)
Definition ParseNamedType (ParseType : list byte → Result (TLogicalType * list byte)) (str : list byte) : Result (TLogicalType * list byte) :=
  '(identifier, str) ← ConsumeIdentifier false str;
  let name := identifier_text identifier in
  match FindValueByLiteral literal simple_domain name with
  | Some simpleType => if bool_decide (simpleType = SimpleBoolean) then Throw EBadLogicalType else Ok (SimpleType simpleType, str)
  | None =>
      if bool_decide (name = B"Bool") then Ok (SimpleType SimpleBoolean, str)
      else if bool_decide (name = B"Variant") then
        '(types, names, str) ← ParseFields ParseType str;
        Ok (match names with [] => VariantTupleType types | _ => VariantStructType (make_fields types names) end, str)
      else
        match FindValueByLiteral metatype_literal metatype_domain name with
        | Some metatype => ParseMetatype ParseType metatype str
        | None => Throw EBadLogicalType
        end
  end.

Fixpoint ParseTypeText (fuel : nat) (str : list byte) : Result (TLogicalType * list byte) :=
  match fuel with
  | O => OutOfFuel
  | S fuel => '(type, str) ← ParseNamedType (ParseTypeText fuel) str; optional_loop (S (length str)) type str
  end.

Definition ParseTypeAndValidate (typeString : list byte) : Result TLogicalType :=
  '(type, str) ← ParseTypeText (S (length typeString)) (ConsumeWhitespaces typeString);
  if negb (bool_decide (str = [])) then Throw EBadLogicalType
  else _ ← ValidateLogicalType None type; Ok type.

(** The function [ParseType]. *)
Definition ParseType (typeString : list byte) : Result TLogicalType := ParseTypeAndValidate typeString.

(** ** Printing *)

(** The loop of [EscapeCAndSingleQuotes] over the buffer that was made longer: from the back, [from] characters are
    still to be read and [rit] are still to be written. *)
Fixpoint quotes_loop (from : nat) (rit : nat) (escaped : list byte) : Result (list byte) :=
  match from with
  | O => Ok escaped
  | S from =>
      match escaped !! from, rit with
      | Some character, S rit =>
          let escaped := <[rit := character]> escaped in
          if Byte.eqb character "'" then
            match rit with O => Crash | S rit => quotes_loop from rit (<[rit := "\"%byte]> escaped) end
          else quotes_loop from rit escaped
      | _, _ => Crash
      end
  end.

Definition is_quote (c : byte) : bool := Byte.eqb c "'".

Definition EscapeCAndSingleQuotes (str : list byte) : Result (list byte) :=
  let escaped := EscapeC str in
  let size := length escaped in
  let newSize := (size + length (List.filter is_quote escaped))%nat in
  quotes_loop size newSize (escaped ++ repeat x00 (newSize - size)).

Section Lists.
Context {A : Type} (format : A → Result (list byte)).

Fixpoint format_rest (l : list A) : Result (list byte) :=
  match l with [] => Ok [] | x :: l => text ← format x; rest ← format_rest l; Ok (","%byte :: text ++ rest) end.

Definition format_list (l : list A) : Result (list byte) :=
  match l with [] => Ok [] | x :: l => text ← format x; rest ← format_rest l; Ok (text ++ rest) end.
End Lists.

Definition format_field (ToString : TLogicalType → Result (list byte)) (field : TStructField TLogicalType) : Result (list byte) :=
  escapedName ← EscapeCAndSingleQuotes (Name field);
  text ← ToString (FieldType field);
  Ok (["'"%byte] ++ escapedName ++ ["'"%byte] ++ [":"%byte] ++ text).

Fixpoint ToString (logicalType : TLogicalType) : Result (list byte) :=
  match logicalType with
  | SimpleType element => Ok (if bool_decide (element = SimpleBoolean) then B"Bool" else literal element)
  | DecimalType precision scale =>
      precision ← ToString_int precision; scale ← ToString_int scale; Ok (B"Decimal(" ++ precision ++ [","%byte] ++ scale ++ [")"%byte])
  | OptionalType element => text ← ToString element; Ok (B"Optional<" ++ text ++ [">"%byte])
  | ListType element => text ← ToString element; Ok (B"List<" ++ text ++ [">"%byte])
  | StructType fields _ => text ← format_list (format_field ToString) fields; Ok (B"Struct<" ++ text ++ [">"%byte])
  | TupleType elements => text ← format_list ToString elements; Ok (B"Tuple<" ++ text ++ [">"%byte])
  | VariantTupleType elements => text ← format_list ToString elements; Ok (B"Variant<" ++ text ++ [">"%byte])
  | VariantStructType fields => text ← format_list (format_field ToString) fields; Ok (B"Variant<" ++ text ++ [">"%byte])
  | DictType key value => text ← format_list ToString [key; value]; Ok (B"Dict<" ++ text ++ [">"%byte])
  | TaggedType tag element =>
      escapedTag ← EscapeCAndSingleQuotes tag;
      text ← ToString element;
      Ok (B"Tagged<" ++ text ++ B",'" ++ escapedTag ++ B"'>")
  | AggregateStateType function argumentType _ =>
      text ← ToString argumentType; Ok (B"AggregateState<" ++ function_literal function ++ [","%byte] ++ text ++ [">"%byte])
  end.

(** ** Reference: the language of types *)

Definition spaces (ws : list byte) : Prop := Forall (λ c, isspace c = true) ws.
Definition word (w : list byte) : Prop := w ≠ [] ∧ Forall (λ c, is_identifier c = true) w.

(** The characters between quotes. *)
Inductive QuotedText : list byte → Prop :=
| quoted_end : QuotedText []
| quoted_escape d t : QuotedText t → QuotedText ("\"%byte :: d :: t)
| quoted_char c t : c ≠ "\"%byte → c ≠ "'"%byte → QuotedText t → QuotedText (c :: t).

(** A name: an identifier or a quoted string that is not empty. *)
Inductive NameText : list byte → list byte → Prop :=
| name_word w : word w → NameText w w
| name_quoted t name : QuotedText t → UnescapeC t = Ok name → name ≠ [] → NameText name ("'"%byte :: t ++ ["'"%byte]).

(** The value of the digits in front of a word. *)
Definition word_number (w : list byte) : Z := wrap_s 32 (Z.min (max_s 64) (strtol_loop 0 w)).

(** Texts of types, with the spaces behind them; [marks] of them behind a type make it optional. The list of a type
    without fields has no spaces behind it. *)
Inductive TypeText : TLogicalType → list byte → Prop :=
| text_plain type t : BaseText type t → TypeText type t
| text_optional type t ws : TypeText type t → spaces ws → TypeText (OptionalType type) (t ++ "?"%byte :: ws)
with BaseText : TLogicalType → list byte → Prop :=
| text_simple type ws : type ≠ SimpleBoolean → spaces ws → BaseText (SimpleType type) (literal type ++ ws)
| text_bool ws : spaces ws → BaseText (SimpleType SimpleBoolean) (B"Bool" ++ ws)
| text_decimal w1 w2 ws ws1 ws2 ws3 ws4 ws5 : word w1 → word w2 → spaces ws → spaces ws1 → spaces ws2 → spaces ws3 → spaces ws4 → spaces ws5 →
    BaseText (DecimalType (word_number w1) (word_number w2)) (B"Decimal" ++ ws ++ "("%byte :: ws1 ++ w1 ++ ws2 ++ ","%byte :: ws3 ++ w2 ++ ws4 ++ ")"%byte :: ws5)
| text_list type ws t : spaces ws → FieldsText [type] [] t → BaseText (ListType type) (B"List" ++ ws ++ t)
| text_optional_of type ws t : spaces ws → FieldsText [type] [] t → BaseText (OptionalType type) (B"Optional" ++ ws ++ t)
| text_dict key value ws t : spaces ws → FieldsText [key; value] [] t → BaseText (DictType key value) (B"Dict" ++ ws ++ t)
| text_tuple types ws t : spaces ws → FieldsText types [] t → BaseText (TupleType types) (B"Tuple" ++ ws ++ t)
| text_variant_tuple types ws t : spaces ws → FieldsText types [] t → BaseText (VariantTupleType types) (B"Variant" ++ ws ++ t)
| text_struct types names ws t : spaces ws → length types = length names → FieldsText types names t → BaseText (StructType (make_fields types names) []) (B"Struct" ++ ws ++ t)
| text_variant_struct types names ws t : spaces ws → names ≠ [] → FieldsText types names t → BaseText (VariantStructType (make_fields types names)) (B"Variant" ++ ws ++ t)
| text_tagged tag type ws ws1 ws2 ws3 ws4 t n : spaces ws → spaces ws1 → TypeText type t → spaces ws2 → NameText tag n → spaces ws3 → spaces ws4 →
    BaseText (TaggedType tag type) (B"Tagged" ++ ws ++ "<"%byte :: ws1 ++ t ++ ","%byte :: ws2 ++ n ++ ws3 ++ ">"%byte :: ws4)
| text_state function type w ws ws1 ws2 ws3 ws4 t : spaces ws → spaces ws1 → word w → ParseEnum function_literal function_domain w = Ok function → spaces ws2 → spaces ws3 →
    TypeText type t → spaces ws4 →
    BaseText (AggregateStateLogicalType function type None) (B"AggregateState" ++ ws ++ "<"%byte :: ws1 ++ w ++ ws2 ++ ","%byte :: ws3 ++ t ++ ">"%byte :: ws4)
(** What stands in angle brackets: types and, when there are names, their names. *)
with FieldsText : list TLogicalType → list (list byte) → list byte → Prop :=
| fields_none ws : spaces ws → FieldsText [] [] ("<"%byte :: ws ++ [">"%byte])
| fields_types types ws t : spaces ws → ItemsText types t → FieldsText types [] ("<"%byte :: ws ++ t)
| fields_named types names ws t : spaces ws → NamedText types names t → FieldsText types names ("<"%byte :: ws ++ t)
with ItemsText : list TLogicalType → list byte → Prop :=
| items_last type t ws : TypeText type t → spaces ws → ItemsText [type] (t ++ ">"%byte :: ws)
| items_cons type types t ws t' : TypeText type t → spaces ws → ItemsText types t' → ItemsText (type :: types) (t ++ ","%byte :: ws ++ t')
with NamedText : list TLogicalType → list (list byte) → list byte → Prop :=
| named_last name type n ws1 ws2 t ws : NameText name n → spaces ws1 → spaces ws2 → TypeText type t → spaces ws → NamedText [type] [name] (n ++ ws1 ++ ":"%byte :: ws2 ++ t ++ ">"%byte :: ws)
| named_cons name type names types n ws1 ws2 t ws t' : NameText name n → spaces ws1 → spaces ws2 → TypeText type t → spaces ws → NamedText types names t' →
    NamedText (type :: types) (name :: names) (n ++ ws1 ++ ":"%byte :: ws2 ++ t ++ ","%byte :: ws ++ t').
