(* ===== verification/LogicalTypeParsing.v ===== *)
(** The parser of logical types decides the language of their texts, and reads back what is printed. *)

From S2P Require Import Prelude IntCast Escape YsonLexer Utf8 CompositeCompare LogicalType LogicalTypeText.

(** ** Tokens *)

Definition unspaced (rest : list byte) : Prop := match rest with c :: _ => isspace c = false | [] => True end.

(** What may follow a word: neither a character of it nor a space. *)
Definition ends (rest : list byte) : Prop := match rest with c :: _ => is_identifier c = false ∧ isspace c = false | [] => True end.

Lemma ends_cons c rest : is_identifier c = false → isspace c = false → ends (c :: rest).
Proof. by split. Qed.

Lemma space_not_identifier c : isspace c = true → is_identifier c = false.
Proof. by destruct c. Qed.

Lemma ends_unspaced rest : ends rest → unspaced rest.
Proof. by destruct rest as [|c rest]; [|intros [_ ?]]. Qed.

Lemma skip_spaces ws rest : spaces ws → unspaced rest → ConsumeWhitespaces (ws ++ rest) = rest.
Proof. intros Hws Hr. induction Hws as [|c ws Hc _ IH]; cbn [app ConsumeWhitespaces]; [destruct rest as [|c rest]; [done|]; cbn in *; by rewrite Hr|by rewrite Hc]. Qed.

Lemma skip_spaces_inv str : ∃ ws, str = ws ++ ConsumeWhitespaces str ∧ spaces ws.
Proof.
  induction str as [|c str IH]; [exists []; split; [done|constructor]|]. cbn [ConsumeWhitespaces]. destruct (isspace c) eqn:Ec; [|exists []; split; [done|constructor]].
  destruct IH as (ws & E & Hws). exists (c :: ws). split; [cbn [app]; congruence|by constructor].
Qed.

Lemma character_ok c ws rest : spaces ws → unspaced rest → ConsumeCharacterOrThrow c (c :: ws ++ rest) = Ok rest.
Proof. intros Hws Hr. cbn [ConsumeCharacterOrThrow]. by rewrite byte_eqb_refl, skip_spaces. Qed.

Lemma character_inv c str rest : ConsumeCharacterOrThrow c str = Ok rest → ∃ ws, str = c :: ws ++ rest ∧ spaces ws.
Proof.
  destruct str as [|d str]; cbn [ConsumeCharacterOrThrow]; [done|]. destruct (Byte.eqb d c) eqn:E; [|done]. apply byte_dec_bl in E as ->. intros [= <-].
  destruct (skip_spaces_inv str) as (ws & E & Hws). exists ws. by rewrite <- E.
Qed.

Lemma run_word w rest : Forall (λ c, is_identifier c = true) w → match rest with c :: _ => is_identifier c = false | [] => True end → identifier_run (w ++ rest) = (w, rest).
Proof. intros Hw Hr. induction Hw as [|c w Hc _ IH]; cbn [app identifier_run]; [destruct rest as [|c rest]; [done|]; cbn; by rewrite Hr|by rewrite Hc, IH]. Qed.

Lemma run_inv str : let '(run, rest) := identifier_run str in str = run ++ rest ∧ Forall (λ c, is_identifier c = true) run.
Proof. induction str as [|c str IH]; cbn; [done|]. destruct (is_identifier c) eqn:Ec; [|by split]. destruct (identifier_run str) as [run rest]. destruct IH as [-> ?]. split; [done|by constructor]. Qed.

Lemma spaces_ends ws rest : spaces ws → ends rest → match ws ++ rest with c :: _ => is_identifier c = false | [] => True end.
Proof. intros Hws Hr. destruct Hws as [|c ws Hc Hws]; cbn [app]; [destruct rest; [done|by destruct Hr]|by apply space_not_identifier]. Qed.

Lemma identifier_word b w ws rest : word w → spaces ws → ends rest → ConsumeIdentifier b (w ++ ws ++ rest) = Ok (Some (w, false), rest).
Proof.
  intros [Hne Hw] Hws Hr. unfold ConsumeIdentifier. destruct w as [|c w]; [done|]. pose proof Hw as Hc. apply list.Forall_cons in Hc as [Hc _]. change ((c :: w) ++ ws ++ rest) with (c :: (w ++ ws ++ rest)).
  cbn iota. rewrite Hc. change (c :: (w ++ ws ++ rest)) with ((c :: w) ++ ws ++ rest). rewrite run_word by (done || by apply spaces_ends). by rewrite skip_spaces by auto using ends_unspaced.
Qed.

Lemma quoted_ok t rest : QuotedText t → quoted_run (t ++ "'"%byte :: rest) = Some (t, rest).
Proof.
  induction 1 as [|d t _ IH|c t H1 H2 _ IH]; [done|cbn [app quoted_run Byte.eqb]; by rewrite IH|]. cbn [app quoted_run].
  rewrite !byte_eqb_neq by done. by rewrite IH.
Qed.

Lemma quoted_inv n str run rest : (length str <= n)%nat → quoted_run str = Some (run, rest) → str = run ++ "'"%byte :: rest ∧ QuotedText run.
Proof.
  revert str run rest. induction n as [|n IH]; intros [|c str] run rest Hn; cbn [quoted_run]; try done; [simpl in Hn; lia|]. destruct (Byte.eqb c "\") eqn:E1.
  - apply byte_dec_bl in E1 as ->. destruct str as [|d str]; [done|]. destruct (quoted_run str) as [[run' rest']|] eqn:E; [|done]. intros [= <- <-]. destruct (IH str _ _ ltac:(simpl in Hn; lia) E) as [-> ?]. split; [done|by constructor].
  - destruct (Byte.eqb c "'") eqn:E2; [apply byte_dec_bl in E2 as ->; intros [= <- <-]; split; [done|constructor]|].
    destruct (quoted_run str) as [[run' rest']|] eqn:E; [|done]. intros [= <- <-]. destruct (IH str _ _ ltac:(simpl in Hn; lia) E) as [-> ?]. split; [done|]. constructor; [by intros ->|by intros ->|done].
Qed.

Lemma identifier_name name n ws rest : NameText name n → spaces ws → ends rest → ∃ quoted, ConsumeIdentifier true (n ++ ws ++ rest) = Ok (Some (name, quoted), rest).
Proof.
  intros Hn Hws Hr. destruct Hn as [w Hw|t name Ht Hu Hne]; [exists false; by apply identifier_word|]. exists true. cbn [app]. rewrite <- app_assoc. cbn [app ConsumeIdentifier is_identifier Byte.eqb]. 
  cbv beta iota. rewrite quoted_ok by done. rewrite Hu. run_bind. rewrite bool_decide_eq_false_2 by done. by rewrite skip_spaces by auto using ends_unspaced.
Qed.

Lemma identifier_inv b str identifier rest : ConsumeIdentifier b str = Ok (identifier, rest) →
  match identifier with None => str = [] ∧ rest = [] | Some (name, quoted) => ∃ n ws, str = n ++ ws ++ rest ∧ spaces ws ∧ NameText name n ∧ (b = false ∨ quoted = false → n = name ∧ word name) end.
Proof.
  destruct str as [|c str]; cbn [ConsumeIdentifier]; [by intros [= <- <-]|]. destruct (is_identifier c) eqn:Ec.
  - pose proof (run_inv (c :: str)) as Hrun. destruct (identifier_run (c :: str)) as [run rest'] eqn:Er. intros [= <- <-]. destruct Hrun as [E Hw]. destruct (skip_spaces_inv rest') as (ws & Ews & Hws).
    assert (word run) as Hword by (split; [|done]; cbn [identifier_run] in Er; rewrite Ec in Er; destruct (identifier_run str); by injection Er as <- _).
    exists run, ws. rewrite <- Ews. split_and!; [done|done|by constructor|done].
  - destruct (Byte.eqb c "'") eqn:E1; [|done]. apply byte_dec_bl in E1 as ->. destruct b; [|done]. cbn [negb]. destruct (quoted_run str) as [[run rest']|] eqn:Eq; [|done].
    destruct (UnescapeC run) as [name| | |] eqn:Eu; try done. run_bind. case_bool_decide as En; [by destruct rest'|]. intros [= <- <-]. destruct (quoted_inv (length str) str _ _ ltac:(lia) Eq) as [-> Hq].
    destruct (skip_spaces_inv rest') as (ws & Ews & Hws). exists ("'"%byte :: run ++ ["'"%byte]), ws. rewrite <- Ews. split_and!; [cbn [app]; by rewrite <- app_assoc|done|by apply name_quoted|by intros [?|?]].
Qed.

(** ** Question marks *)

Definition marks (type : TLogicalType) (str : list byte) : Result (TLogicalType * list byte) := optional_loop (S (length str)) type str.

Lemma length_skip str : (length (ConsumeWhitespaces str) <= length str)%nat.
Proof. induction str as [|c str IH]; cbn [ConsumeWhitespaces]; [done|]. destruct (isspace c); cbn [length] in *; lia. Qed.

Lemma optional_fuel fuel type str : (length str < fuel)%nat → optional_loop fuel type str = marks type str.
Proof.
  unfold marks. remember (S (length str)) as m eqn:Em. assert (length str < m)%nat as Hm by lia. clear Em. revert m type str Hm.
  induction fuel as [|fuel IH]; intros m type str Hm Hf; [lia|]. destruct m as [|m]; [lia|]. cbn [optional_loop]. destruct str as [|c str]; [done|]. cbn [length] in *.
  destruct (decide (c = "?"%byte)) as [-> |Hc]; [|by destruct c]. pose proof (length_skip str). apply IH; lia.
Qed.

Lemma marks_more type ws rest : spaces ws → ends rest → marks type ("?"%byte :: ws ++ rest) = marks (OptionalType type) rest.
Proof.
  intros Hws Hr. unfold marks at 1. change (optional_loop (S (length ("?"%byte :: ws ++ rest))) type ("?"%byte :: ws ++ rest)) with (optional_loop (length ("?"%byte :: ws ++ rest)) (OptionalType type) (ConsumeWhitespaces (ws ++ rest))).
  rewrite skip_spaces by auto using ends_unspaced. apply optional_fuel. cbn [length]. rewrite length_app. lia.
Qed.

Lemma marks_none type rest : match rest with c :: _ => c ≠ "?"%byte | [] => True end → marks type rest = Ok (type, rest).
Proof. unfold marks. destruct rest as [|c rest]; [done|]. intros Hc. cbn [optional_loop]. by destruct c. Qed.

Lemma marks_inv fuel type str type' rest : optional_loop fuel type str = Ok (type', rest) →
  ∃ u, str = u ++ rest ∧ ∀ t, TypeText type t → TypeText type' (t ++ u).
Proof.
  revert type str. induction fuel as [|fuel IH]; intros type str; cbn [optional_loop]; [done|]. destruct str as [|c str]; [intros [= <- <-]; exists []; split; [done|intros t; by rewrite app_nil_r]|].
  destruct (decide (c = "?"%byte)) as [-> |Hc].
  - intros E. apply IH in E as (u & Eu & Hu). destruct (skip_spaces_inv str) as (ws & Es & Hws). exists ("?"%byte :: ws ++ u). split; [cbn [app]; by rewrite <- app_assoc, <- Eu, <- Es|].
    intros t Ht. specialize (Hu _ (text_optional _ _ _ Ht Hws)). by rewrite <- app_assoc in Hu.
  - intros E. assert (Ok (type, c :: str) = Ok (type', rest)) as [= <- <-] by (rewrite <- E; by destruct c). exists []. split; [done|]. intros t. by rewrite app_nil_r.
Qed.

(** ** Accepted texts are in the language *)

Lemma literal_inj a b : literal a = literal b → a = b.
Proof. intros E. assert (bool_decide (literal a = literal b) = bool_decide (a = b)) as H by (destruct a, b; reflexivity). by rewrite (bool_decide_eq_true_2 _ E) in H; symmetry in H; apply bool_decide_eq_true in H. Qed.

Lemma find_sound {T} (lit : T → list byte) domain text value : FindValueByLiteral lit domain text = Some value → lit value = text.
Proof. intros E. apply find_some in E as [_ E]. by apply bool_decide_eq_true in E. Qed.

(** A parser of types whose results are texts of types. *)
Definition sound_parser (parse : list byte → Result (TLogicalType * list byte)) : Prop := ∀ str type rest, parse str = Ok (type, rest) → ∃ t, str = t ++ rest ∧ TypeText type t.

Section Soundness.
Context (parse : list byte → Result (TLogicalType * list byte)) (Hparse : sound_parser parse).

Lemma items_sound fuel types str types' names' rest : types ≠ [] → fields_loop parse fuel types [] str = Ok (types', names', rest) →
  names' = [] ∧ ∃ more u, types' = types ++ more ∧ str = u ++ rest ∧ ∀ type t, TypeText type t → ItemsText (type :: more) (t ++ u).
Proof.
  revert types str. induction fuel as [|fuel IH]; intros types str Hne; cbn [fields_loop]; [done|]. destruct str as [|c str]; [done|]. destruct (Byte.eqb c ">") eqn:E1.
  - destruct (ConsumeCharacterOrThrow ">" (c :: str)) as [str'| | |] eqn:Ec; try done. run_bind. intros [= <- <- <-]. apply character_inv in Ec as (ws & E & Hws). split; [done|].
    exists [], (">"%byte :: ws). rewrite app_nil_r. split_and!; [done|by rewrite E|]. intros type t Ht. by constructor.
  - destruct (Byte.eqb c ",") eqn:E2; [|done]. cbn [negb]. apply byte_dec_bl in E2 as ->. destruct types as [|t0 types]; [done|]. cbn [length Nat.eqb].
    destruct (parse (ConsumeWhitespaces str)) as [[type str']| | |] eqn:Ep; try done. run_bind. intros E. apply IH in E as (-> & more & u & -> & -> & Hu); [|done]. split; [done|]. apply Hparse in Ep as (t & Et & Ht).
    destruct (skip_spaces_inv str) as (ws & Es & Hws). exists (type :: more), (","%byte :: ws ++ t ++ u). split_and!; [by rewrite <- app_assoc|cbn [app]; by rewrite <- !app_assoc, <- Et, <- Es|].
    intros type' t' Ht'. constructor; [done|done|]. by apply Hu.
Qed.

Lemma name_sound str identifier rest c rest' : ConsumeIdentifier true str = Ok (identifier, rest) → ConsumeCharacterOrThrow c rest = Ok rest' →
  ∃ n ws1 ws2, str = n ++ ws1 ++ c :: ws2 ++ rest' ∧ NameText (identifier_text identifier) n ∧ spaces ws1 ∧ spaces ws2.
Proof.
  intros E1 E2. apply identifier_inv in E1. destruct identifier as [[name quoted]|]; [|by destruct E1 as [_ ->]]. destruct E1 as (n & ws1 & -> & Hws1 & Hn & _). apply character_inv in E2 as (ws2 & -> & Hws2).
  exists n, ws1, ws2. by split_and!.
Qed.

Lemma word_sound str identifier rest c rest' : ConsumeIdentifier false str = Ok (identifier, rest) → ConsumeCharacterOrThrow c rest = Ok rest' →
  ∃ ws1 ws2, str = identifier_text identifier ++ ws1 ++ c :: ws2 ++ rest' ∧ word (identifier_text identifier) ∧ spaces ws1 ∧ spaces ws2.
Proof.
  intros E1 E2. apply identifier_inv in E1. destruct identifier as [[name quoted]|]; [|by destruct E1 as [_ ->]]. destruct E1 as (n & ws1 & -> & Hws1 & _ & Hw). destruct (Hw ltac:(by left)) as [-> Hword].
  apply character_inv in E2 as (ws2 & -> & Hws2). exists ws1, ws2. by split_and!.
Qed.

Lemma named_sound fuel types names str types' names' rest : length names = length types → fields_loop parse fuel types names str = Ok (types', names', rest) →
  ∃ more more_names u, types' = types ++ more ∧ names' = names ++ more_names ∧ length more_names = length more ∧ str = u ++ rest ∧
    ∀ name n ws1 ws2 type t, NameText name n → spaces ws1 → spaces ws2 → TypeText type t → NamedText (type :: more) (name :: more_names) (n ++ ws1 ++ ":"%byte :: ws2 ++ t ++ u).
Proof.
  revert types names str. induction fuel as [|fuel IH]; intros types names str Hlen; cbn [fields_loop]; [done|]. destruct str as [|c str]; [done|]. destruct (Byte.eqb c ">") eqn:E1.
  - destruct (ConsumeCharacterOrThrow ">" (c :: str)) as [str'| | |] eqn:Ec; try done. run_bind. intros [= <- <- <-]. apply character_inv in Ec as (ws & E & Hws).
    exists [], [], (">"%byte :: ws). rewrite !app_nil_r. split_and!; [done|done|done|by rewrite E|]. intros. by constructor.
  - destruct (Byte.eqb c ",") eqn:E2; [|done]. cbn [negb]. apply byte_dec_bl in E2 as ->. rewrite Hlen, Nat.eqb_refl.
    destruct (ConsumeIdentifier true (ConsumeWhitespaces str)) as [[identifier str1]| | |] eqn:Ei; try done. run_bind.
    destruct (ConsumeCharacterOrThrow ":" str1) as [str2| | |] eqn:Ec; try done. run_bind. destruct (name_sound _ _ _ _ _ Ei Ec) as (n & ws1 & ws2 & En & Hn & Hws1 & Hws2).
    destruct (parse str2) as [[type str']| | |] eqn:Ep; try done. run_bind. intros E. apply IH in E as (more & more_names & u & -> & -> & Hl & -> & Hu); [|by rewrite !length_app, Hlen]. apply Hparse in Ep as (t & Et & Ht).
    destruct (skip_spaces_inv str) as (ws & Es & Hws). exists (type :: more), (identifier_text identifier :: more_names), (","%byte :: ws ++ n ++ ws1 ++ ":"%byte :: ws2 ++ t ++ u).
    split_and!; [by rewrite <- app_assoc|by rewrite <- app_assoc|by cbn; rewrite Hl| |].
    + rewrite Es, En, Et. cbn [app]. f_equal. rewrite <- !app_assoc. cbn [app]. by rewrite <- !app_assoc.
    + intros name' n' ws1' ws2' type' t' ? ? ? ?. constructor; try done. by apply Hu.
Qed.

Lemma not_close {A} (start : list byte) (f : list byte → A) g : head start ≠ Some ">"%byte → match start with ">"%byte :: str => f str | _ => g end = g.
Proof. by destruct start as [|[] start]. Qed.

Lemma ParseFields_sound str types names rest : ParseFields parse str = Ok (types, names, rest) → ∃ t, str = t ++ rest ∧ FieldsText types names t ∧ (names = [] ∨ length names = length types).
Proof.
  unfold ParseFields. destruct (ConsumeCharacterOrThrow "<" str) as [start| | |] eqn:Es; try done. run_bind. apply character_inv in Es as (ws & -> & Hws).
  destruct (decide (head start = Some ">"%byte)) as [Eh|Eh].
  { destruct start as [|c start]; [done|]. injection Eh as ->. intros [= <- <- <-]. exists ("<"%byte :: ws ++ [">"%byte]). split_and!; [cbn [app]; by rewrite <- app_assoc|by constructor|by left]. }
  rewrite (not_close start (λ str, Ok ([], [], str)) _ Eh).
  destruct (ConsumeIdentifier true start) as [[identifier str1]| | |] eqn:Ei; try done. run_bind. destruct str1 as [|c str1]; [done|]. destruct (Byte.eqb c ":") eqn:Ec.
  - destruct (ConsumeCharacterOrThrow ":" (c :: str1)) as [str2| | |] eqn:Ec2; try done. run_bind. destruct (name_sound _ _ _ _ _ Ei Ec2) as (n & ws1 & ws2 & -> & Hn & Hws1 & Hws2).
    destruct (parse str2) as [[type str3]| | |] eqn:Ep; try done. run_bind. apply Hparse in Ep as (t & -> & Ht). intros E. apply named_sound in E as (more & more_names & u & -> & -> & Hl & -> & Hu); [|done].
    exists ("<"%byte :: ws ++ n ++ ws1 ++ ":"%byte :: ws2 ++ t ++ u). split_and!; [cbn [app]; f_equal; rewrite <- !app_assoc; cbn [app]; by rewrite <- !app_assoc| |right; by cbn; rewrite Hl]. apply fields_named; [done|]. by apply Hu.
  - destruct (from_option snd false identifier); [done|]. destruct (parse start) as [[type str3]| | |] eqn:Ep; try done. run_bind. apply Hparse in Ep as (t & -> & Ht). intros E.
    apply items_sound in E as (-> & more & u & -> & -> & Hu); [|done]. exists ("<"%byte :: ws ++ t ++ u). split_and!; [cbn [app]; by rewrite <- !app_assoc| |by left]. apply fields_types; [done|]. by apply Hu.
Qed.

Lemma ParseMetatype_sound metatype str type rest : ParseMetatype parse metatype str = Ok (type, rest) → ∃ t, str = t ++ rest ∧ ∀ ws, spaces ws → BaseText type (metatype_literal metatype ++ ws ++ t).
Proof.
  destruct metatype; cbn [ParseMetatype]; try done.
  1-5: destruct (ParseFields parse str) as [[[types names] str']| | |] eqn:E; try done; run_bind; apply ParseFields_sound in E as (t & -> & Ht & _).
  - destruct types as [|x [|]], names; try done. intros [= <- <-]. exists t. split; [done|]. intros. by constructor.
  - destruct types as [|x [|]], names; try done. intros [= <- <-]. exists t. split; [done|]. intros. by constructor.
  - destruct (Nat.eqb_spec (length types) (length names)); [|done]. intros [= <- <-]. exists t. split; [done|]. intros. by constructor.
  - destruct names; try done. intros [= <- <-]. exists t. split; [done|]. intros. by constructor.
  - destruct types as [|x [|y [|]]], names; try done. intros [= <- <-]. exists t. split; [done|]. intros. by constructor.
  - destruct (ConsumeCharacterOrThrow "<" str) as [str1| | |] eqn:E1; try done. run_bind. apply character_inv in E1 as (ws1 & -> & Hws1). destruct (parse str1) as [[base str2]| | |] eqn:E2; try done. run_bind. apply Hparse in E2 as (t & -> & Ht).
    destruct (ConsumeCharacterOrThrow "," str2) as [str3| | |] eqn:E3; try done. run_bind. apply character_inv in E3 as (ws2 & -> & Hws2). destruct (ConsumeIdentifier true str3) as [[identifier str4]| | |] eqn:E4; try done. run_bind.
    destruct (ConsumeCharacterOrThrow ">" str4) as [str5| | |] eqn:E5; try done. run_bind. intros [= <- <-]. destruct (name_sound _ _ _ _ _ E4 E5) as (n & ws3 & ws4 & -> & Hn & Hws3 & Hws4).
    exists ("<"%byte :: ws1 ++ t ++ ","%byte :: ws2 ++ n ++ ws3 ++ ">"%byte :: ws4). split; [cbn [app]; f_equal; by repeat (rewrite <- !app_assoc; cbn [app])|]. intros ws Hws. by apply text_tagged.
  - destruct (ConsumeCharacterOrThrow "(" str) as [str1| | |] eqn:E1; try done. run_bind. apply character_inv in E1 as (ws1 & -> & Hws1). destruct (ConsumeIdentifier false str1) as [[id1 str2]| | |] eqn:E2; try done. run_bind.
    destruct (atoi id1) as [precision| | |] eqn:Ea1; try done. run_bind. destruct (ConsumeCharacterOrThrow "," str2) as [str3| | |] eqn:E3; try done. run_bind. destruct (word_sound _ _ _ _ _ E2 E3) as (ws2 & ws3 & -> & Hw1 & Hws2 & Hws3).
    destruct (ConsumeIdentifier false str3) as [[id2 str4]| | |] eqn:E4; try done. run_bind. destruct (atoi id2) as [scale| | |] eqn:Ea2; try done. run_bind. destruct (ConsumeCharacterOrThrow ")" str4) as [str5| | |] eqn:E5; try done. run_bind. intros [= <- <-].
    destruct (word_sound _ _ _ _ _ E4 E5) as (ws4 & ws5 & -> & Hw2 & Hws4 & Hws5). destruct id1 as [[w1 q1]|]; [|done]. destruct id2 as [[w2 q2]|]; [|done]. injection Ea1 as <-. injection Ea2 as <-. cbn [identifier_text from_option fst] in *.
    exists ("("%byte :: ws1 ++ w1 ++ ws2 ++ ","%byte :: ws3 ++ w2 ++ ws4 ++ ")"%byte :: ws5). split; [cbn [app]; f_equal; by repeat (rewrite <- !app_assoc; cbn [app])|]. intros ws Hws. by apply text_decimal.
  - destruct (ConsumeCharacterOrThrow "<" str) as [str1| | |] eqn:E1; try done. run_bind. apply character_inv in E1 as (ws1 & -> & Hws1). destruct (ConsumeIdentifier false str1) as [[identifier str2]| | |] eqn:E2; try done. run_bind.
    destruct (ParseEnum _ _ _) as [function| | |] eqn:Ef; try done. run_bind. destruct (ConsumeCharacterOrThrow "," str2) as [str3| | |] eqn:E3; try done. run_bind. destruct (word_sound _ _ _ _ _ E2 E3) as (ws2 & ws3 & -> & Hw & Hws2 & Hws3).
    destruct (parse str3) as [[argument str4]| | |] eqn:E4; try done. run_bind. apply Hparse in E4 as (t & -> & Ht). destruct (ConsumeCharacterOrThrow ">" str4) as [str5| | |] eqn:E5; try done. run_bind. intros [= <- <-]. apply character_inv in E5 as (ws4 & -> & Hws4).
    exists ("<"%byte :: ws1 ++ identifier_text identifier ++ ws2 ++ ","%byte :: ws3 ++ t ++ ">"%byte :: ws4). split; [cbn [app]; f_equal; by repeat (rewrite <- !app_assoc; cbn [app])|]. intros ws Hws. by apply text_state.
Qed.

Lemma ParseNamedType_sound str type rest : ParseNamedType parse str = Ok (type, rest) → ∃ t, str = t ++ rest ∧ BaseText type t.
Proof.
  unfold ParseNamedType. destruct (ConsumeIdentifier false str) as [[identifier str1]| | |] eqn:Ei; try done. run_bind. apply identifier_inv in Ei. destruct identifier as [[name quoted]|].
  2: { intros E. by vm_compute in E. }
  destruct Ei as (n & ws & -> & Hws & _ & Hw). destruct (Hw ltac:(by left)) as [-> _]. clear Hw. cbn [identifier_text from_option fst].
  destruct (FindValueByLiteral literal simple_domain name) as [s|] eqn:Es.
  { apply find_sound in Es as <-. case_bool_decide; [done|]. intros [= <- <-]. exists (literal s ++ ws). split; [by rewrite app_assoc|by constructor]. }
  case_bool_decide as Eb; [intros [= <- <-]; exists (name ++ ws); split; [by rewrite app_assoc|]; subst name; by constructor|].
  case_bool_decide as Ev.
  { destruct (ParseFields parse str1) as [[[types names] str']| | |] eqn:E; try done. run_bind. apply ParseFields_sound in E as (t & -> & Ht & _). intros [= <- <-]. exists (name ++ ws ++ t). split; [by rewrite !app_assoc|]. subst name. destruct names; by constructor. }
  destruct (FindValueByLiteral metatype_literal metatype_domain name) as [metatype|] eqn:Em; [|done]. apply find_sound in Em as <-. intros E. apply ParseMetatype_sound in E as (t & -> & Ht).
  exists (metatype_literal metatype ++ ws ++ t). split; [by rewrite !app_assoc|]. by apply Ht.
Qed.
End Soundness.

Lemma ParseTypeText_sound fuel : sound_parser (ParseTypeText fuel).
Proof.
  induction fuel as [|fuel IH]; intros str type rest; cbn [ParseTypeText]; [done|]. destruct (ParseNamedType (ParseTypeText fuel) str) as [[base str1]| | |] eqn:E; try done. run_bind.
  intros Em. apply (ParseNamedType_sound _ IH) in E as (t & -> & Ht). apply marks_inv in Em as (u & -> & Hu). exists (t ++ u). split; [by rewrite app_assoc|]. by apply Hu, text_plain.
Qed.

(** ** Texts of the language are accepted *)

Scheme TypeText_ind5 := Induction for TypeText Sort Prop
with BaseText_ind5 := Induction for BaseText Sort Prop
with FieldsText_ind5 := Induction for FieldsText Sort Prop
with ItemsText_ind5 := Induction for ItemsText Sort Prop
with NamedText_ind5 := Induction for NamedText Sort Prop.
Combined Scheme texts_ind from TypeText_ind5, BaseText_ind5, FieldsText_ind5, ItemsText_ind5, NamedText_ind5.

(** How texts begin: a word, spaces, and a bracket or a question mark or nothing. *)
Definition opening (u : list byte) : Prop := match u with c :: _ => c = "("%byte ∨ c = "<"%byte ∨ c = "?"%byte | [] => True end.
Definition begins (t : list byte) : Prop := ∃ w ws u, t = w ++ ws ++ u ∧ word w ∧ spaces ws ∧ opening u.

Lemma FieldsText_open types names t : FieldsText types names t → ∃ u, t = "<"%byte :: u.
Proof. destruct 1; by eexists. Qed.

Lemma word_check w : (negb (bool_decide (w = [])) && forallb is_identifier w) = true → word w.
Proof. intros [Hne Hw]%andb_prop. apply negb_true_iff, bool_decide_eq_false in Hne. split; [done|]. apply list.Forall_forall. intros c Hc%list_elem_of_In. rewrite forallb_forall in Hw. by apply Hw. Qed.

Lemma literal_word s : word (literal s).
Proof. apply word_check. by destruct s. Qed.

Lemma BaseText_begins type t : BaseText type t → begins t.
Proof.
  destruct 1; unfold begins; try match goal with H : FieldsText _ _ _ |- _ => destruct (FieldsText_open _ _ _ H) as (u & ->) end.
  all: first [exists (literal type), ws, []; rewrite app_nil_r; split_and!; [done|apply literal_word|done|done]
             |exists (B"Bool"), ws, []; rewrite app_nil_r; split_and!; [done|by apply word_check|done|done]
             |eexists _, ws, (_ :: _); split_and!; [reflexivity|by apply word_check|done|cbn; by auto]].
Qed.

Lemma TypeText_begins type t : TypeText type t → begins t.
Proof.
  induction 1 as [type t Ht|type t ws _ (w & ws' & u & -> & Hw & Hws' & Hu) Hws]; [by apply (BaseText_begins type)|]. exists w, ws', (u ++ "?"%byte :: ws). split_and!; [by rewrite <- !app_assoc|done|done|].
  destruct u; [cbn; by auto|done].
Qed.

Lemma begins_length t : begins t → (0 < length t)%nat.
Proof. intros (w & ws & u & -> & [Hne _] & _). destruct w; [done|]. simpl. lia. Qed.


Lemma word_unspaced w rest : word w → unspaced (w ++ rest).
Proof. intros [Hne Hw]. destruct Hw as [|c w Hc _]; [done|]. cbn. destruct (isspace c) eqn:E; [|done]. by rewrite space_not_identifier in Hc. Qed.

Lemma begins_unspaced t rest : begins t → unspaced (t ++ rest).
Proof. intros (w & ws & u & -> & Hw & _). rewrite <- app_assoc. by apply word_unspaced. Qed.

Lemma type_unspaced type t rest : TypeText type t → unspaced (t ++ rest).
Proof. intros ?%TypeText_begins. by apply begins_unspaced. Qed.

Lemma name_unspaced name n rest : NameText name n → unspaced (n ++ rest).
Proof. destruct 1; [by apply word_unspaced|done]. Qed.

Lemma opening_ends u rest : opening u → ends rest → ends (u ++ rest).
Proof. destruct u as [|c u]; [done|]. by intros [-> |[-> | ->]] _. Qed.

(** The head of a list of types is not taken for a name. *)
Lemma begins_identifier t rest : begins t → ends rest → ∃ w u, ConsumeIdentifier true (t ++ rest) = Ok (Some (w, false), u ++ rest) ∧ opening u.
Proof.
  intros (w & ws & u & -> & Hw & Hws & Hu) Hr. exists w, u. split; [|done]. rewrite <- !app_assoc. apply identifier_word; [done|done|]. by apply opening_ends.
Qed.

(** What is found for a word. *)
Lemma find_literal s : FindValueByLiteral literal simple_domain (literal s) = Some s.
Proof. by destruct s. Qed.

Lemma find_metatype m : FindValueByLiteral metatype_literal metatype_domain (metatype_literal m) = Some m.
Proof. by destruct m. Qed.

Lemma metatype_names m : FindValueByLiteral literal simple_domain (metatype_literal m) = None ∧ metatype_literal m ≠ B"Bool" ∧ metatype_literal m ≠ B"Variant" ∧ word (metatype_literal m).
Proof. destruct m; (split_and!; [reflexivity|discriminate|discriminate|by apply word_check]). Qed.

Section Completeness.
Context (fuel : nat).
#[local] Abbreviation parse := (ParseTypeText fuel).

Lemma ParseNamedType_metatype m ws t rest : spaces ws → ends (t ++ rest) → ParseNamedType parse (metatype_literal m ++ ws ++ t ++ rest) = ParseMetatype parse m (t ++ rest).
Proof.
  intros Hws Hr. destruct (metatype_names m) as (E1 & E2 & E3 & Hw). unfold ParseNamedType. rewrite identifier_word by done. run_bind. cbn [identifier_text from_option fst]. rewrite E1, !bool_decide_eq_false_2 by done. by rewrite find_metatype.
Qed.
End Completeness.

Lemma parse_shorter fuel str type rest : ParseTypeText fuel str = Ok (type, rest) → (length rest < length str)%nat.
Proof. intros (t & -> & Ht)%ParseTypeText_sound. apply TypeText_begins, begins_length in Ht. rewrite length_app. lia. Qed.

Lemma identifier_shorter b str identifier rest : ConsumeIdentifier b str = Ok (identifier, rest) → (length rest <= length str)%nat.
Proof. intros E%identifier_inv. destruct identifier as [[name quoted]|]; [|by destruct E as [-> ->]]. destruct E as (n & ws & -> & _). rewrite !length_app. lia. Qed.

(** A list of types: the text of the first, then a comma or a bracket. *)
Definition begins_item (t : list byte) : Prop := ∃ u v, t = u ++ v ∧ begins u ∧ match v with c :: _ => c = ","%byte ∨ c = ">"%byte | [] => False end.

Definition parses_type (type : TLogicalType) (t : list byte) : Prop := ∀ fuel rest, (length t <= fuel)%nat → ends rest → ParseTypeText fuel (t ++ rest) = marks type rest.

Definition parses_base (type : TLogicalType) (t : list byte) : Prop := ∀ fuel rest, (length t <= S fuel)%nat → ends rest → ParseNamedType (ParseTypeText fuel) (t ++ rest) = Ok (type, rest).

Definition parses_fields (types : list TLogicalType) (names : list (list byte)) (t : list byte) : Prop := ∀ fuel rest, (length t <= fuel)%nat → ends rest →
  ParseFields (ParseTypeText fuel) (t ++ rest) = Ok (types, names, rest).

Definition parses_items (types : list TLogicalType) (t : list byte) : Prop := ∀ fuel rest, (length t <= fuel)%nat → ends rest →
  ∃ type str, ParseTypeText fuel (t ++ rest) = Ok (type, str) ∧
    ∀ n acc, (length str < n)%nat → fields_loop (ParseTypeText fuel) n (acc ++ [type]) [] str = Ok (acc ++ types, [], rest).

Definition parses_named (types : list TLogicalType) (names : list (list byte)) (t : list byte) : Prop := ∀ fuel rest, (length t <= fuel)%nat → ends rest →
  ∃ identifier str1 str2 type str, ConsumeIdentifier true (t ++ rest) = Ok (identifier, ":"%byte :: str1) ∧ ConsumeCharacterOrThrow ":" (":"%byte :: str1) = Ok str2 ∧ ParseTypeText fuel str2 = Ok (type, str) ∧
    ∀ n acc acc_names, length acc = length acc_names → (length str < n)%nat →
      fields_loop (ParseTypeText fuel) n (acc ++ [type]) (acc_names ++ [identifier_text identifier]) str = Ok (acc ++ types, acc_names ++ names, rest).

(** A type in front of a character that is not a question mark. *)
Lemma type_then type t fuel c rest : parses_type type t → (length t <= fuel)%nat → is_identifier c = false → isspace c = false → c ≠ "?"%byte →
  ParseTypeText fuel (t ++ c :: rest) = Ok (type, c :: rest).
Proof. intros Ht Hf H1 H2 H3. rewrite Ht by done. by apply marks_none. Qed.

Lemma items_last_parses type t ws : parses_type type t → spaces ws → parses_items [type] (t ++ ">"%byte :: ws).
Proof.
  intros Ht Hws fuel rest Hf Hr. rewrite length_app in Hf. rewrite <- app_assoc. cbn [app]. exists type, (">"%byte :: ws ++ rest). split; [by apply type_then; [|lia| | |]|]. intros n acc Hn. destruct n as [|n]; [lia|].
  cbn [fields_loop]. change (Byte.eqb ">" ">") with true. cbv iota. by rewrite character_ok by auto using ends_unspaced.
Qed.

Lemma items_cons_parses type types t ws t' : parses_type type t → spaces ws → parses_items types t' → unspaced t' → t' ≠ [] → parses_items (type :: types) (t ++ ","%byte :: ws ++ t').
Proof.
  intros Ht Hws Hitems Hu Hne fuel rest Hf Hr. rewrite length_app in Hf. cbn [length] in Hf. rewrite length_app in Hf. rewrite <- app_assoc. cbn [app]. rewrite <- app_assoc. exists type, (","%byte :: ws ++ t' ++ rest).
  split; [by apply type_then; [|lia| | |]|]. destruct (Hitems fuel rest ltac:(lia) Hr) as (type' & str & Ep & Hloop). intros n acc Hn. destruct n as [|n]; [lia|].
  cbn [fields_loop]. change (Byte.eqb "," ">") with false. change (Byte.eqb "," ",") with true. cbv iota. cbn [negb]. rewrite skip_spaces by (done || by destruct t'). 
  rewrite length_app. cbn [length]. rewrite Nat.add_1_r. cbn [Nat.eqb]. rewrite Ep. run_bind. rewrite Hloop; [by rewrite <- app_assoc|].
  apply parse_shorter in Ep. cbn [length] in Hn. rewrite !length_app in *. lia.
Qed.

Lemma named_last_parses name type n ws1 ws2 t ws : NameText name n → spaces ws1 → spaces ws2 → parses_type type t → begins t → spaces ws → parses_named [type] [name] (n ++ ws1 ++ ":"%byte :: ws2 ++ t ++ ">"%byte :: ws).
Proof.
  intros Hn Hws1 Hws2 Ht Hb Hws fuel rest Hf Hr. repeat (rewrite length_app in Hf; cbn [length] in Hf). repeat (rewrite <- !app_assoc; cbn [app]).
  destruct (identifier_name name n ws1 (":"%byte :: ws2 ++ t ++ ">"%byte :: ws ++ rest) Hn Hws1 ltac:(done)) as (quoted & Ei).
  eexists _, _, (t ++ ">"%byte :: ws ++ rest), type, (">"%byte :: ws ++ rest). split; [exact Ei|]. split; [apply character_ok; [done|by apply begins_unspaced]|]. split; [by apply type_then; [|lia| | |]|].
  intros m acc acc_names Hlen Hm. destruct m as [|m]; [lia|]. cbn [fields_loop]. change (Byte.eqb ">" ">") with true. cbv iota. by rewrite character_ok by auto using ends_unspaced.
Qed.

Lemma named_cons_parses name type names types n ws1 ws2 t ws t' : NameText name n → spaces ws1 → spaces ws2 → parses_type type t → begins t → spaces ws → parses_named types names t' → (∀ rest, unspaced (t' ++ rest)) →
  parses_named (type :: types) (name :: names) (n ++ ws1 ++ ":"%byte :: ws2 ++ t ++ ","%byte :: ws ++ t').
Proof.
  intros Hn Hws1 Hws2 Ht Hb Hws Hnamed Hu fuel rest Hf Hr. repeat (rewrite length_app in Hf; cbn [length] in Hf). repeat (rewrite <- !app_assoc; cbn [app]).
  destruct (identifier_name name n ws1 (":"%byte :: ws2 ++ t ++ ","%byte :: ws ++ t' ++ rest) Hn Hws1 ltac:(done)) as (quoted & Ei).
  eexists _, _, (t ++ ","%byte :: ws ++ t' ++ rest), type, (","%byte :: ws ++ t' ++ rest). split; [exact Ei|]. split; [apply character_ok; [done|by apply begins_unspaced]|]. split; [by apply type_then; [|lia| | |]|].
  destruct (Hnamed fuel rest ltac:(lia) Hr) as (identifier & str1 & str2 & type' & str & Ei' & Ec & Ep & Hloop). intros m acc acc_names Hlen Hm. destruct m as [|m]; [lia|].
  cbn [fields_loop]. change (Byte.eqb "," ">") with false. change (Byte.eqb "," ",") with true. cbv iota. cbn [negb]. rewrite skip_spaces by (done || by apply Hu).
  rewrite !length_app, Hlen, Nat.eqb_refl. rewrite Ei'. run_bind. rewrite Ec. run_bind. rewrite Ep. run_bind. rewrite Hloop; [by rewrite <- !app_assoc|by rewrite !length_app, Hlen|].
  apply parse_shorter in Ep. apply character_inv in Ec as (ws' & Ec & _). apply identifier_shorter in Ei'. rewrite Ec in Ei'. cbn [length] in *. rewrite !length_app in *. lia.
Qed.

Lemma fields_types_parses types ws t : spaces ws → parses_items types t → begins_item t → parses_fields types [] ("<"%byte :: ws ++ t).
Proof.
  intros Hws Hitems (u & v & -> & Hb & Hv) fuel rest Hf Hr. cbn [length] in Hf. rewrite length_app in Hf. cbn [app]. rewrite <- app_assoc. unfold ParseFields. assert (unspaced ((u ++ v) ++ rest)) as Hu by (rewrite <- app_assoc; by apply begins_unspaced).
  rewrite character_ok by done. run_bind. rewrite not_close by (destruct Hb as (w & ? & ? & -> & [Hne Hw] & _); destruct Hw as [|c w Hc]; [done|]; cbn; by intros [= ->]).
  destruct (Hitems fuel rest ltac:(lia) Hr) as (type & str & Ep & Hloop).
  destruct (begins_identifier u (v ++ rest) Hb) as (w & u' & Ei & Hu'); [by destruct v as [|c v]; [|destruct Hv as [-> | ->]]|]. rewrite <- app_assoc in *. rewrite Ei. run_bind.
  assert (∃ c r, u' ++ v ++ rest = c :: r ∧ Byte.eqb c ":" = false) as (c & r & E & Ec).
  { destruct u' as [|c u']; [|exists c, (u' ++ v ++ rest); split; [done|]; by destruct Hu' as [-> |[-> | ->]]]. destruct v as [|c v]; [done|]. exists c, (v ++ rest). split; [done|]. by destruct Hv as [-> | ->]. }
  rewrite E, Ec. cbn [from_option snd]. rewrite Ep. run_bind. apply (Hloop _ []). lia.
Qed.

Lemma fields_named_parses types names ws t : spaces ws → parses_named types names t → (∀ rest, unspaced (t ++ rest)) → head t ≠ Some ">"%byte → t ≠ [] → parses_fields types names ("<"%byte :: ws ++ t).
Proof.
  intros Hws Hnamed Hu Hh Hne fuel rest Hf Hr. cbn [length] in Hf. rewrite length_app in Hf. cbn [app]. rewrite <- app_assoc. unfold ParseFields. rewrite character_ok by (done || apply Hu). run_bind. rewrite not_close by (by destruct t).
  destruct (Hnamed fuel rest ltac:(lia) Hr) as (identifier & str1 & str2 & type & str & Ei & Ec & Ep & Hloop). rewrite Ei. run_bind. change (Byte.eqb ":" ":") with true. cbv iota. rewrite Ec. run_bind. rewrite Ep. run_bind. by apply (Hloop _ [] []); [|lia].
Qed.

Lemma optional_parses type t ws : parses_type type t → spaces ws → parses_type (OptionalType type) (t ++ "?"%byte :: ws).
Proof. intros Ht Hws fuel rest Hf Hr. rewrite length_app in Hf. rewrite <- app_assoc. cbn [app]. rewrite Ht by (lia || done). by apply marks_more. Qed.

Lemma plain_parses type t : parses_base type t → begins t → parses_type type t.
Proof. intros Ht Hb fuel rest Hf Hr. apply begins_length in Hb. destruct fuel as [|fuel]; [lia|]. cbn [ParseTypeText]. by rewrite Ht. Qed.

Lemma simple_parses s ws : s ≠ SimpleBoolean → spaces ws → parses_base (SimpleType s) (literal s ++ ws).
Proof.
  intros Hs Hws fuel rest Hf Hr. unfold ParseNamedType. rewrite <- app_assoc, identifier_word by (done || apply literal_word). run_bind. cbn [identifier_text from_option fst]. by rewrite find_literal, bool_decide_eq_false_2.
Qed.

Lemma bool_parses ws : spaces ws → parses_base (SimpleType SimpleBoolean) (B"Bool" ++ ws).
Proof. intros Hws fuel rest Hf Hr. unfold ParseNamedType. rewrite <- app_assoc, identifier_word by (done || by apply word_check). run_bind. reflexivity. Qed.

(** A word with fields behind it. *)
Lemma fields_ends types names t rest : FieldsText types names t → ends (t ++ rest).
Proof. intros (u & ->)%FieldsText_open. by apply ends_cons. Qed.

Lemma metatype_parses m type types names ws t : spaces ws → FieldsText types names t → parses_fields types names t →
  (∀ parse str rest, ParseFields parse str = Ok (types, names, rest) → ParseMetatype parse m str = Ok (type, rest)) → parses_base type (metatype_literal m ++ ws ++ t).
Proof.
  intros Hws Hfields Ht Hm fuel rest Hf Hr. rewrite !length_app in Hf. assert (0 < length (metatype_literal m))%nat by (destruct m; simpl; lia). rewrite <- !app_assoc, ParseNamedType_metatype by (done || by eapply fields_ends). apply Hm, Ht; [lia|done].
Qed.

Lemma variant_parses type types names ws t : spaces ws → FieldsText types names t → parses_fields types names t → type = match names with [] => VariantTupleType types | _ => VariantStructType (make_fields types names) end →
  parses_base type (B"Variant" ++ ws ++ t).
Proof.
  intros Hws Hfields Ht -> fuel rest Hf Hr. rewrite !length_app in Hf. cbn in Hf. unfold ParseNamedType. rewrite <- !app_assoc, identifier_word by (done || by apply word_check || by eapply fields_ends). run_bind. cbn [identifier_text from_option fst].
  change (FindValueByLiteral literal simple_domain (B"Variant")) with (@None ESimpleLogicalValueType). cbv iota. rewrite bool_decide_eq_false_2, bool_decide_eq_true_2 by done. rewrite Ht by (lia || done). by run_bind.
Qed.

Lemma decimal_parses w1 w2 ws ws1 ws2 ws3 ws4 ws5 : word w1 → word w2 → spaces ws → spaces ws1 → spaces ws2 → spaces ws3 → spaces ws4 → spaces ws5 →
  parses_base (DecimalType (word_number w1) (word_number w2)) (B"Decimal" ++ ws ++ "("%byte :: ws1 ++ w1 ++ ws2 ++ ","%byte :: ws3 ++ w2 ++ ws4 ++ ")"%byte :: ws5).
Proof.
  intros Hw1 Hw2 Hws Hws1 Hws2 Hws3 Hws4 Hws5 fuel rest _ Hr. rewrite <- !app_assoc. change (B"Decimal") with (metatype_literal MetaDecimal). rewrite ParseNamedType_metatype by done. cbn [ParseMetatype app].
  repeat (rewrite <- !app_assoc; cbn [app]). rewrite character_ok by (done || by apply word_unspaced). run_bind. rewrite identifier_word by done. run_bind. cbn [atoi]. run_bind.
  rewrite character_ok by (done || by apply word_unspaced). run_bind. rewrite identifier_word by done. run_bind. cbn [atoi]. run_bind. by rewrite character_ok by auto using ends_unspaced.
Qed.

Lemma tagged_parses tag type ws ws1 ws2 ws3 ws4 t n : spaces ws → spaces ws1 → parses_type type t → begins t → spaces ws2 → NameText tag n → spaces ws3 → spaces ws4 →
  parses_base (TaggedType tag type) (B"Tagged" ++ ws ++ "<"%byte :: ws1 ++ t ++ ","%byte :: ws2 ++ n ++ ws3 ++ ">"%byte :: ws4).
Proof.
  intros Hws Hws1 Ht Hb Hws2 Hn Hws3 Hws4 fuel rest Hf Hr. repeat (rewrite length_app in Hf; cbn [length] in Hf). cbn in Hf. rewrite <- !app_assoc. change (B"Tagged") with (metatype_literal MetaTagged). rewrite ParseNamedType_metatype by done. cbn [ParseMetatype app].
  repeat (rewrite <- !app_assoc; cbn [app]). rewrite character_ok by (done || by apply begins_unspaced). run_bind. rewrite (type_then type) by (done || lia). run_bind.
  rewrite character_ok by (done || by eapply name_unspaced). run_bind. destruct (identifier_name tag n ws3 (">"%byte :: ws4 ++ rest) Hn Hws3 ltac:(done)) as (quoted & ->). run_bind. by rewrite character_ok by auto using ends_unspaced.
Qed.

Lemma state_parses function type w ws ws1 ws2 ws3 ws4 t : spaces ws → spaces ws1 → word w → ParseEnum function_literal function_domain w = Ok function → spaces ws2 → spaces ws3 → parses_type type t → begins t → spaces ws4 →
  parses_base (AggregateStateLogicalType function type None) (B"AggregateState" ++ ws ++ "<"%byte :: ws1 ++ w ++ ws2 ++ ","%byte :: ws3 ++ t ++ ">"%byte :: ws4).
Proof.
  intros Hws Hws1 Hw Hfun Hws2 Hws3 Ht Hb Hws4 fuel rest Hf Hr. repeat (rewrite length_app in Hf; cbn [length] in Hf). cbn in Hf. rewrite <- !app_assoc. change (B"AggregateState") with (metatype_literal MetaAggregateState). rewrite ParseNamedType_metatype by done.
  cbn [ParseMetatype app]. repeat (rewrite <- !app_assoc; cbn [app]). rewrite character_ok by (done || by apply word_unspaced). run_bind. rewrite identifier_word by done. run_bind. cbn [identifier_text from_option fst]. rewrite Hfun. run_bind.
  rewrite character_ok by (done || by apply begins_unspaced). run_bind. rewrite (type_then type) by (done || lia). run_bind. by rewrite character_ok by auto using ends_unspaced.
Qed.

Lemma texts_parse : (∀ type t, TypeText type t → parses_type type t) ∧ (∀ type t, BaseText type t → parses_base type t) ∧ (∀ types names t, FieldsText types names t → parses_fields types names t) ∧
  (∀ types t, ItemsText types t → parses_items types t ∧ begins_item t) ∧ (∀ types names t, NamedText types names t → parses_named types names t ∧ ∃ name n u, t = n ++ u ∧ NameText name n).
Proof.
  apply texts_ind.
  - intros. apply plain_parses; [done|by eapply BaseText_begins].
  - intros. by apply optional_parses.
  - intros. by apply simple_parses.
  - intros. by apply bool_parses.
  - intros. by apply decimal_parses.
  - intros. eapply (metatype_parses MetaList); try done. intros parse str rest E. cbn. by rewrite E.
  - intros. eapply (metatype_parses MetaOptional); try done. intros parse str rest E. cbn. by rewrite E.
  - intros. eapply (metatype_parses MetaDict); try done. intros parse str rest E. cbn. by rewrite E.
  - intros. eapply (metatype_parses MetaTuple); try done. intros parse str rest E. cbn. by rewrite E.
  - intros. by eapply variant_parses.
  - intros types names ws t Hws Hl Hf IH. eapply (metatype_parses MetaStruct); try done. intros parse str rest E. cbn. by rewrite E; run_bind; rewrite Hl, Nat.eqb_refl.
  - intros types names ws t Hws Hne Hf IH. eapply variant_parses; try done. by destruct names.
  - intros. apply tagged_parses; try done. by eapply TypeText_begins.
  - intros. apply state_parses; try done. by eapply TypeText_begins.
  - intros ws Hws fuel rest _ Hr. cbn [app]. rewrite <- app_assoc. unfold ParseFields. by rewrite character_ok by done.
  - intros types ws t Hws _ [IH Hb]. by apply fields_types_parses.
  - intros types names ws t Hws _ [IH (name & n & u & -> & Hn)]. apply fields_named_parses; try done.
    + intros rest. rewrite <- app_assoc. by eapply name_unspaced.
    + destruct Hn as [w [Hne Hw]|]; [|done]. destruct Hw as [|c w Hc]; [done|]. cbn. by intros [= ->].
    + destruct Hn as [w [Hne Hw]|]; [|done]. by destruct w.
  - intros type t ws Ht IH Hws. split; [by apply items_last_parses|]. exists t, (">"%byte :: ws). split_and!; [done|by eapply TypeText_begins|by right].
  - intros type types t ws t' Ht IH Hws _ [IH' (u & v & -> & Hb & Hv)]. split.
    + apply items_cons_parses; try done; [by apply begins_unspaced|]. apply begins_length in Hb. by destruct u; [simpl in Hb; lia|].
    + exists t, (","%byte :: ws ++ u ++ v). split_and!; [done|by eapply TypeText_begins|by left].
  - intros. split; [apply named_last_parses; try done; by eapply TypeText_begins|]. by repeat eexists.
  - intros name type names types n ws1 ws2 t ws t' Hn Hws1 Hws2 Ht IH Hws _ [IH' (name' & n' & u & -> & Hn')]. split; [|by repeat eexists].
    apply named_cons_parses; try done; [by eapply TypeText_begins|]. intros rest. rewrite <- app_assoc. by eapply name_unspaced.
Qed.

(** ** The fuel is enough *)

Lemma character_total c str : ConsumeCharacterOrThrow c str ≠ OutOfFuel.
Proof. destruct str as [|d str]; cbn; [done|]. by destruct (Byte.eqb d c). Qed.

Lemma character_shorter c str rest : ConsumeCharacterOrThrow c str = Ok rest → (length rest < length str)%nat.
Proof. intros (ws & -> & _)%character_inv. cbn [length]. rewrite length_app. lia. Qed.

Lemma identifier_total b str : ConsumeIdentifier b str ≠ OutOfFuel.
Proof.
  destruct str as [|c str]; cbn [ConsumeIdentifier]; [done|]. destruct (is_identifier c); [by destruct (identifier_run (c :: str))|]. destruct (Byte.eqb c "'"), b; cbn [negb]; try done. destruct (quoted_run str) as [[run rest]|]; [|done].
  destruct (UnescapeC_total (length run) run ltac:(lia)) as (out & -> & _). run_bind. case_bool_decide; [by destruct rest|done].
Qed.

Lemma optional_total fuel type str : (length str < fuel)%nat → optional_loop fuel type str ≠ OutOfFuel.
Proof.
  revert type str. induction fuel as [|fuel IH]; intros type str Hf; [lia|]. cbn [optional_loop]. destruct str as [|c str]; [done|]. destruct (decide (c = "?"%byte)) as [-> |Hc]; [|by destruct c].
  apply IH. pose proof (length_skip str). cbn [length] in Hf. lia.
Qed.

Lemma bind_total {A C} (r : Result A) (f : A → Result C) : r ≠ OutOfFuel → (∀ x, r = Ok x → f x ≠ OutOfFuel) → (r ≫= f) ≠ OutOfFuel.
Proof. destruct r; run_bind; try done. intros _ H. by apply H. Qed.

Section Total.
Context (parse : list byte → Result (TLogicalType * list byte)) (N : nat).
Context (Hparse : ∀ str, (length str < N)%nat → parse str ≠ OutOfFuel) (Hshorter : ∀ str type rest, parse str = Ok (type, rest) → (length rest < length str)%nat).

Lemma fields_total n types names str : (length str < n)%nat → (length str <= N)%nat → fields_loop parse n types names str ≠ OutOfFuel.
Proof.
  revert types names str. induction n as [|n IH]; intros types names str Hn HN; [lia|]. cbn [fields_loop]. destruct str as [|c str]; [done|]. cbn [length] in *.
  destruct (Byte.eqb c ">"); [apply bind_total; [apply character_total|done]|]. destruct (negb _); [done|]. pose proof (length_skip str). destruct (Nat.eqb _ _).
  - apply bind_total; [apply identifier_total|]. intros [identifier str1] Ei. apply identifier_shorter in Ei. apply bind_total; [apply character_total|]. intros str2 Ec. apply character_shorter in Ec.
    apply bind_total; [apply Hparse; lia|]. intros [type str3] Ep. apply Hshorter in Ep. apply IH; lia.
  - apply bind_total; [apply Hparse; lia|]. intros [type str3] Ep. apply Hshorter in Ep. apply IH; lia.
Qed.

Lemma ParseFields_total str : (length str <= N)%nat → ParseFields parse str ≠ OutOfFuel.
Proof.
  intros HN. unfold ParseFields. apply bind_total; [apply character_total|]. intros start Es. apply character_shorter in Es. destruct (decide (head start = Some ">"%byte)) as [Eh|Eh]; [by destruct start as [|c start]; [|injection Eh as ->]|].
  rewrite (not_close start (λ str, Ok ([], [], str)) _ Eh). apply bind_total; [apply identifier_total|]. intros [identifier str1] Ei. apply identifier_shorter in Ei. destruct str1 as [|c str1]; [done|]. destruct (Byte.eqb c ":").
  - apply bind_total; [apply character_total|]. intros str2 Ec. apply character_shorter in Ec. apply bind_total; [apply Hparse; lia|]. intros [type str3] Ep. apply Hshorter in Ep. apply fields_total; lia.
  - destruct (from_option _ _ _); [done|]. apply bind_total; [apply Hparse; lia|]. intros [type str3] Ep. apply Hshorter in Ep. apply fields_total; lia.
Qed.

Lemma ParseMetatype_total metatype str : (length str <= N)%nat → ParseMetatype parse metatype str ≠ OutOfFuel.
Proof.
  intros HN. destruct metatype; cbn [ParseMetatype]; try done.
  1-5: apply bind_total; [by apply ParseFields_total|]; intros [[types names] str'] _; repeat case_match; done.
  - apply bind_total; [apply character_total|]. intros str1 E1%character_shorter. apply bind_total; [apply Hparse; lia|]. intros [type str2] _. apply bind_total; [apply character_total|]. intros str3 _.
    apply bind_total; [apply identifier_total|]. intros [identifier str4] _. by apply bind_total; [apply character_total|].
  - apply bind_total; [apply character_total|]. intros str1 _. apply bind_total; [apply identifier_total|]. intros [[[w q]|] str2] _; [|done]. cbn [atoi]. run_bind. apply bind_total; [apply character_total|]. intros str3 _.
    apply bind_total; [apply identifier_total|]. intros [[[w' q']|] str4] _; [|done]. cbn [atoi]. run_bind. by apply bind_total; [apply character_total|].
  - apply bind_total; [apply character_total|]. intros str1 E1%character_shorter. apply bind_total; [apply identifier_total|]. intros [identifier str2] E2%identifier_shorter. apply bind_total; [unfold ParseEnum; by destruct (TryParseEnum _ _ _)|]. intros function _.
    apply bind_total; [apply character_total|]. intros str3 E3%character_shorter. apply bind_total; [apply Hparse; lia|]. intros [type str4] _. by apply bind_total; [apply character_total|].
Qed.
End Total.

Lemma ParseTypeText_total fuel str : (length str < fuel)%nat → ParseTypeText fuel str ≠ OutOfFuel.
Proof.
  revert str. induction fuel as [|fuel IH]; intros str Hf; [lia|]. cbn [ParseTypeText]. apply bind_total; [|intros [type str'] _; apply optional_total; lia].
  unfold ParseNamedType. apply bind_total; [apply identifier_total|]. intros [identifier str1] Ei%identifier_inv. destruct identifier as [[name quoted]|]; [|by vm_compute].
  destruct Ei as (n & ws & -> & _ & Hn & Hw). destruct (Hw ltac:(by left)) as [-> [Hne _]]. assert (0 < length name)%nat by (destruct name; [done|simpl; lia]). rewrite !length_app in Hf. cbn [identifier_text from_option fst].
  destruct (FindValueByLiteral literal _ _); [by case_bool_decide|]. case_bool_decide; [done|]. case_bool_decide.
  - apply bind_total; [|by intros [[types names] str']]. apply (ParseFields_total _ fuel); [done|apply parse_shorter|lia].
  - destruct (FindValueByLiteral _ _ _); [|done]. apply (ParseMetatype_total _ fuel); [done|apply parse_shorter|lia].
Qed.

(** ** Aborts *)

(** A text that ends behind an open bracket, a comma or a quote, but for spaces. *)
Definition unfinished (str : list byte) : Prop :=
  ∃ before c ws, str = before ++ c :: ws ∧ (c = "("%byte ∨ c = ","%byte ∨ c = "'"%byte) ∧ spaces ws.

Lemma unfinished_app t str : unfinished str → unfinished (t ++ str).
Proof. intros (before & c & ws & -> & Hc & Hws). exists (t ++ before), c, ws. by rewrite app_assoc. Qed.

(** A call that aborts only on unfinished texts, and whose rest is the end of the text. *)
Definition abrupt {A} (str : list byte) (r : Result A) : Prop := r = Crash → unfinished str.

Lemma abrupt_bind {A C} str (r : Result A) (f : A → Result C) : abrupt str r → (∀ x, r = Ok x → abrupt str (f x)) → abrupt str (r ≫= f).
Proof. unfold abrupt. destruct r; run_bind; intros H1 H2 E; [by eapply H2|done|by apply H1|done]. Qed.

Lemma abrupt_rest {A} t str (r : Result A) : abrupt str r → abrupt (t ++ str) r.
Proof. intros H E. by apply unfinished_app, H. Qed.

Lemma character_abrupt c str : abrupt str (ConsumeCharacterOrThrow c str).
Proof. destruct str as [|d str]; cbn; [done|]. by destruct (Byte.eqb d c). Qed.

Lemma identifier_abrupt b str : abrupt str (ConsumeIdentifier b str).
Proof.
  destruct str as [|c str]; cbn [ConsumeIdentifier]; [done|]. destruct (is_identifier c); [by destruct (identifier_run (c :: str))|]. destruct (Byte.eqb c "'"), b; cbn [negb]; try done.
  destruct (quoted_run str) as [[run rest]|] eqn:Eq; [|done]. destruct (UnescapeC_total (length run) run ltac:(lia)) as (out & -> & _). run_bind. case_bool_decide; [|done]. destruct rest; [|done].
  intros _. destruct (quoted_inv (length str) str _ _ ltac:(lia) Eq) as [-> _]. exists (c :: run), "'"%byte, []. split; [done|]. split; [by auto|constructor].
Qed.

Lemma identifier_rest b str identifier rest : ConsumeIdentifier b str = Ok (identifier, rest) → ∃ t, str = t ++ rest.
Proof. intros Hi%identifier_inv. destruct identifier as [[name quoted]|]; [destruct Hi as (n & ws & -> & _); exists (n ++ ws); by rewrite <- app_assoc|destruct Hi as [-> ->]; by exists []]. Qed.

Lemma character_rest c str rest : ConsumeCharacterOrThrow c str = Ok rest → ∃ t, str = t ++ rest.
Proof. intros (ws & -> & _)%character_inv. by exists (c :: ws). Qed.

(** A number behind a bracket or a comma: [atoi] is called with the cleared identifier at the end of the text only. *)
Lemma number_abrupt {A} c str rest (f : Z → list byte → Result A) : c = "("%byte ∨ c = ","%byte → ConsumeCharacterOrThrow c str = Ok rest → (∀ t rest' value, rest = t ++ rest' → abrupt rest' (f value rest')) →
  abrupt str ('(identifier, rest) ← ConsumeIdentifier false rest; value ← atoi identifier; f value rest).
Proof.
  intros Hc (ws & -> & Hws)%character_inv Hf. apply abrupt_bind; [apply (abrupt_rest (c :: ws)), identifier_abrupt|]. intros [identifier rest'] Ei. destruct identifier as [[w q]|].
  - cbn [atoi]. run_bind. destruct (identifier_rest _ _ _ _ Ei) as (t & ->). change (c :: ws ++ t ++ rest') with ((c :: ws) ++ t ++ rest'). by apply abrupt_rest, abrupt_rest, (Hf t).
  - apply identifier_inv in Ei as [-> ->]. intros _. exists [], c, ws. rewrite app_nil_r. split; [done|]. split; [by destruct Hc; auto|done].
Qed.

Section Abrupt.
Context (parse : list byte → Result (TLogicalType * list byte)).
Context (Hparse : ∀ str, abrupt str (parse str)) (Hrest : ∀ str type rest, parse str = Ok (type, rest) → ∃ t, str = t ++ rest).

Lemma fields_abrupt n types names str : abrupt str (fields_loop parse n types names str).
Proof.
  revert types names str. induction n as [|n IH]; intros types names str; [done|]. cbn [fields_loop]. destruct str as [|c str]; [done|].
  destruct (Byte.eqb c ">"); [apply abrupt_bind; [apply character_abrupt|done]|]. destruct (negb _); [done|]. apply (abrupt_rest [c]). destruct (skip_spaces_inv str) as (ws & E & _). rewrite E at 1. apply abrupt_rest. clear E. set (str' := ConsumeWhitespaces str). clearbody str'. destruct (Nat.eqb _ _).
  - apply abrupt_bind; [apply identifier_abrupt|]. intros [identifier str1] (t1 & ->)%identifier_rest. apply abrupt_rest, abrupt_bind; [apply character_abrupt|]. intros str2 (t2 & ->)%character_rest.
    apply abrupt_rest, abrupt_bind; [apply Hparse|]. intros [type str3] (t3 & ->)%Hrest. apply abrupt_rest, IH.
  - apply abrupt_bind; [apply Hparse|]. intros [type str3] (t3 & ->)%Hrest. apply abrupt_rest, IH.
Qed.

Lemma ParseFields_abrupt str : abrupt str (ParseFields parse str).
Proof.
  unfold ParseFields. apply abrupt_bind; [apply character_abrupt|]. intros start (t0 & ->)%character_rest. apply abrupt_rest. destruct (decide (head start = Some ">"%byte)) as [Eh|Eh]; [by destruct start as [|c start]; [|injection Eh as ->]|].
  rewrite (not_close start (λ str, Ok ([], [], str)) _ Eh). apply abrupt_bind; [apply identifier_abrupt|]. intros [identifier str1] (t1 & E1)%identifier_rest. destruct str1 as [|c str1]; [done|]. destruct (Byte.eqb c ":").
  - rewrite E1. apply abrupt_rest, abrupt_bind; [apply character_abrupt|]. intros str2 (t2 & ->)%character_rest. apply abrupt_rest, abrupt_bind; [apply Hparse|]. intros [type str3] (t3 & ->)%Hrest. apply abrupt_rest, fields_abrupt.
  - destruct (from_option _ _ _); [done|]. apply abrupt_bind; [apply Hparse|]. intros [type str3] (t3 & ->)%Hrest. apply abrupt_rest, fields_abrupt.
Qed.

Lemma ParseMetatype_abrupt metatype str : abrupt str (ParseMetatype parse metatype str).
Proof.
  destruct metatype; cbn [ParseMetatype]; try done.
  1-5: apply abrupt_bind; [by apply ParseFields_abrupt|]; intros [[types names] str'] _; repeat case_match; done.
  - apply abrupt_bind; [apply character_abrupt|]. intros str1 (t1 & ->)%character_rest. apply abrupt_rest, abrupt_bind; [apply Hparse|]. intros [type str2] (t2 & ->)%Hrest. apply abrupt_rest, abrupt_bind; [apply character_abrupt|]. intros str3 (t3 & ->)%character_rest.
    apply abrupt_rest, abrupt_bind; [apply identifier_abrupt|]. intros [identifier str4] (t4 & ->)%identifier_rest. apply abrupt_rest. by apply abrupt_bind; [apply character_abrupt|].
  - apply abrupt_bind; [apply character_abrupt|]. intros str1 E1. apply (number_abrupt "("%byte _ _ _ ltac:(by left) E1). intros t rest precision ->. apply abrupt_bind; [apply character_abrupt|]. intros str2 E2. apply (number_abrupt ","%byte _ _ _ ltac:(by right) E2).
    intros t' rest' scale _. by apply abrupt_bind; [apply character_abrupt|].
  - apply abrupt_bind; [apply character_abrupt|]. intros str1 (t1 & ->)%character_rest. apply abrupt_rest, abrupt_bind; [apply identifier_abrupt|]. intros [identifier str2] (t2 & ->)%identifier_rest. apply abrupt_rest, abrupt_bind; [unfold ParseEnum; by destruct (TryParseEnum _ _ _)|]. intros function _.
    apply abrupt_bind; [apply character_abrupt|]. intros str3 (t3 & ->)%character_rest. apply abrupt_rest, abrupt_bind; [apply Hparse|]. intros [type str4] (t4 & ->)%Hrest. apply abrupt_rest. by apply abrupt_bind; [apply character_abrupt|].
Qed.
End Abrupt.

Lemma optional_abrupt fuel type str : optional_loop fuel type str ≠ Crash.
Proof. revert type str. induction fuel as [|fuel IH]; intros type str; [done|]. cbn [optional_loop]. destruct str as [|c str]; [done|]. destruct (decide (c = "?"%byte)) as [-> |Hc]; [apply IH|by destruct c]. Qed.

Lemma ParseTypeText_abrupt fuel str : abrupt str (ParseTypeText fuel str).
Proof.
  revert str. induction fuel as [|fuel IH]; intros str; [done|]. cbn [ParseTypeText]. assert (∀ str type rest, ParseTypeText fuel str = Ok (type, rest) → ∃ t, str = t ++ rest) as Hrest by (intros ? ? ? (t & -> & _)%ParseTypeText_sound; by exists t).
  apply abrupt_bind; [|intros [type str'] _ E; by apply optional_abrupt in E]. unfold ParseNamedType. apply abrupt_bind; [apply identifier_abrupt|]. intros [identifier str1] (t1 & ->)%identifier_rest. apply abrupt_rest.
  destruct (FindValueByLiteral literal _ _); [by case_bool_decide|]. case_bool_decide; [done|]. case_bool_decide.
  - apply abrupt_bind; [by apply ParseFields_abrupt|]. by intros [[types names] str'].
  - destruct (FindValueByLiteral _ _ _); [|done]. by apply ParseMetatype_abrupt.
Qed.

(** ** Printing *)

Definition quote (s : list byte) : list byte := concat (map (λ c, if is_quote c then ["\"%byte; c] else [c]) s).
Definition quote_count (s : list byte) : nat := length (List.filter is_quote s).

Lemma quote_app a b : quote (a ++ b) = quote a ++ quote b.
Proof. unfold quote. by rewrite map_app, concat_app. Qed.

Lemma insert_behind {A} (a b : list A) x y tail n : n = (length a + length b)%nat → <[n := x]> (a ++ b ++ y :: tail) = a ++ b ++ x :: tail.
Proof. intros ->. rewrite !(app_assoc a b). rewrite <- length_app. rewrite insert_app_r_alt by lia. by rewrite Nat.sub_diag. Qed.

Lemma quote_cons c s : quote (c :: s) = (if is_quote c then ["\"%byte; c] else [c]) ++ quote s.
Proof. done. Qed.

(** The buffer is filled from the back: behind the part that is still to be read there is a gap for the backslashes. *)
Lemma quotes_loop_spec prefix gap tail : length gap = quote_count prefix → quotes_loop (length prefix) (length prefix + length gap) (prefix ++ gap ++ tail) = Ok (quote prefix ++ tail).
Proof.
  revert gap tail. induction prefix as [|c prefix IH] using rev_ind; intros gap tail Hgap; [by destruct gap|]. unfold quote_count in Hgap. rewrite List.filter_app, length_app in Hgap. rewrite length_app, Nat.add_1_r. cbn [Nat.add quotes_loop].
  rewrite <- app_assoc. cbn [app]. rewrite (list_lookup_middle prefix _ c (length prefix)) by done. unfold quote. rewrite map_app, concat_app. cbn [map concat app]. fold (quote prefix). cbn [List.filter] in Hgap.
  destruct (exists_last (l := c :: gap) ltac:(done)) as (g & y & Eg). assert (length g = length gap) as Hg by (apply (f_equal length) in Eg; rewrite length_app in Eg; simpl in Eg; lia).
  change (prefix ++ c :: gap ++ tail) with (prefix ++ (c :: gap) ++ tail). rewrite Eg, <- app_assoc. cbn [app].
  rewrite insert_behind by lia.
  unfold is_quote in *. destruct (Byte.eqb c "'") eqn:Ec; cbn [length] in Hgap.
  - destruct (exists_last (l := g)) as (g' & y' & ->); [intros ->; simpl in Hg; lia|]. rewrite length_app in Hg. cbn [length] in Hg. destruct gap as [|z gap]; [simpl in Hg; lia|]. cbn [length] in *. rewrite Nat.add_succ_r. rewrite <- app_assoc. cbn [app].
    rewrite insert_behind by lia.
    replace (length gap) with (length g') by lia. rewrite IH by (unfold quote_count, is_quote; lia). by rewrite <- app_assoc.
  - rewrite <- Hg. rewrite IH by (unfold quote_count, is_quote; lia). by rewrite <- app_assoc.
Qed.

Lemma EscapeCAndSingleQuotes_spec str : EscapeCAndSingleQuotes str = Ok (quote (escape_all str)).
Proof.
  unfold EscapeCAndSingleQuotes. rewrite EscapeC_all. set (e := escape_all str). replace (length e + length (List.filter is_quote e) - length e)%nat with (quote_count e) by (unfold quote_count; lia).
  fold (quote_count e). rewrite <- (repeat_length x00 (quote_count e)) at 1. rewrite <- (app_nil_r (repeat _ _)) at 2. rewrite quotes_loop_spec by apply repeat_length. by rewrite app_nil_r.
Qed.

Lemma quote_plain t : forallb (λ c, negb (is_quote c)) t = true → quote t = t.
Proof. induction t as [|c t IH]; [done|]. cbn [forallb]. intros [Hc Ht]%andb_prop. apply negb_true_iff in Hc. unfold quote. cbn [map concat]. rewrite Hc. cbn [app]. f_equal. by apply IH. Qed.

(** An escape sequence: after the backslash and a character that is no quote, neither occurs. *)
Definition ordinary (c : byte) : bool := negb (is_quote c) && negb (Byte.eqb c "\").

Lemma special_shape c next : is_plain c = false → ∃ e q, EscapeC_char c next = "\"%byte :: e :: q ∧ is_quote e = false ∧ forallb ordinary q = true.
Proof.
  intros Hc. assert ((is_plain c || match EscapeC_char c next with x :: e :: q => Byte.eqb x "\" && negb (is_quote e) && forallb ordinary q | _ => false end) = true) as H.
  { revert c next Hc. intros c next _. revert c next. apply forall_bytes2. by vm_compute. }
  rewrite Hc in H. cbn [orb] in H. destruct (EscapeC_char c next) as [|x [|e q]]; try done. apply andb_prop in H as [[Hx He]%andb_prop Hq]. apply byte_dec_bl in Hx as ->. exists e, q. by apply negb_true_iff in He.
Qed.

Lemma ordinary_quote q : forallb ordinary q = true → quote q = q.
Proof. intros Hq. apply quote_plain. revert Hq. induction q as [|c q IH]; [done|]. cbn [forallb]. intros [[Hc _]%andb_prop Hq]%andb_prop. by rewrite Hc, IH. Qed.

Lemma special_quote c next : is_plain c = false → quote (EscapeC_char c next) = EscapeC_char c next.
Proof. intros Hc. destruct (special_shape c next Hc) as (e & q & -> & He & Hq). unfold quote. cbn [map concat]. rewrite He. cbn [app]. do 2 f_equal. by apply ordinary_quote. Qed.

Lemma follows_quote s : follows (next_char s) (quote (escape_all s)).
Proof.
  destruct s as [|c s]; [done|]. cbn [escape_all next_char]. rewrite quote_app. destruct (is_plain c) eqn:Hc.
  - rewrite EscapeC_char_plain by done. unfold quote. cbn [map concat]. destruct (is_quote c); [by right|by left].
  - rewrite special_quote by done. destruct (special_shape c (next_char s) Hc) as (e & q & -> & _). by right.
Qed.

Lemma UnescapeC_quote s : UnescapeC (quote (escape_all s)) = Ok s.
Proof.
  induction s as [|c s IH]; [done|]. cbn [escape_all]. rewrite quote_app. destruct (is_plain c) eqn:Hc.
  - rewrite EscapeC_char_plain by done. rewrite quote_cons. change (quote []) with (@nil byte). rewrite app_nil_r. destruct (is_quote c) eqn:Eq; cbn [app].
    + apply byte_dec_bl in Eq as ->. rewrite (UnescapeC_escape _ _ ["'"%byte] 0) by done. rewrite drop_0. by rewrite IH.
    + rewrite UnescapeC_plain, IH; [done|]. unfold is_plain in Hc. apply andb_prop in Hc as [_ Hb]. by destruct (Byte.eqb c x5c).
  - rewrite special_quote by done. destruct (EscapeC_char_special c (next_char s) Hc) as (e & q & Hr). rewrite Hr. cbn [app]. rewrite (UnescapeC_escape e (q ++ quote (escape_all s)) [c] (length q)).
    + by rewrite drop_app_length, IH.
    + eapply switch_escape; [done|done|apply follows_quote].
Qed.

Lemma QuotedText_ordinary q t : forallb ordinary q = true → QuotedText t → QuotedText (q ++ t).
Proof. intros Hq Ht. induction q as [|c q IH]; [done|]. cbn [forallb] in Hq. apply andb_prop in Hq as [[H1 H2]%andb_prop Hq]. constructor; [by intros ->|by intros ->|by apply IH]. Qed.

Lemma quote_text s : QuotedText (quote (escape_all s)).
Proof.
  induction s as [|c s IH]; [constructor|]. cbn [escape_all]. rewrite quote_app. destruct (is_plain c) eqn:Hc.
  - rewrite EscapeC_char_plain by done. rewrite quote_cons. change (quote []) with (@nil byte). rewrite app_nil_r. destruct (is_quote c) eqn:Eq; cbn [app]; [by constructor|]. constructor; [by intros ->|by intros ->|done].
  - rewrite special_quote by done. destruct (special_shape c (next_char s) Hc) as (e & q & -> & _ & Hq). cbn [app]. constructor. by apply QuotedText_ordinary.
Qed.

Lemma quoted_name name : name ≠ [] → NameText name ("'"%byte :: quote (escape_all name) ++ ["'"%byte]).
Proof. intros Hne. constructor; [apply quote_text|apply UnescapeC_quote|done]. Qed.

(** What the text of a type tells. *)
Definition fields_printable (fields : list (TStructField TLogicalType)) : Prop := Forall (λ field, StableName field = Name field ∧ Name field ≠ []) fields.

Definition printable (type : TLogicalType) : Prop :=
  match type with
  | DecimalType precision scale => 1 <= precision <= 76 ∧ 0 <= scale <= precision
  | StructType fields removed => removed = [] ∧ fields_printable fields
  | VariantStructType fields => fields ≠ [] ∧ fields_printable fields
  | TaggedType tag _ => tag ≠ []
  | AggregateStateType function argument element => element = InferAggregateStateElementType function argument ∧ ∃ s, argument = SimpleType s
  | _ => True
  end.

Definition prints (type : TLogicalType) : Prop := ∃ text, ToString type = Ok text ∧ TypeText type text.

Lemma no_spaces : spaces [].
Proof. constructor. Qed.
#[local] Hint Resolve no_spaces : core.

Lemma number_text v : 0 <= v <= 76 → ∃ w, ToString_int v = Ok w ∧ word w ∧ word_number w = v.
Proof.
  intros Hv. assert (forallb (λ n, match ToString_int (Z.of_nat n) with Ok w => negb (bool_decide (w = [])) && forallb is_identifier w && (word_number w =? Z.of_nat n) | _ => false end) (seq 0 77) = true) as H by (by vm_compute).
  rewrite forallb_forall in H. specialize (H (Z.to_nat v) ltac:(apply in_seq; lia)). rewrite Z2Nat.id in H by lia. destruct (ToString_int v) as [w| | |]; try done. apply andb_prop in H as [Hw Hn%Z.eqb_eq]. exists w. split_and!; [done|by apply word_check|done].
Qed.

Lemma simple_prints s : prints (SimpleType s).
Proof.
  unfold prints. cbn [ToString]. case_bool_decide as E.
  - subst s. eexists. split; [reflexivity|]. apply text_plain. rewrite <- (app_nil_r (B"Bool")). by apply text_bool.
  - eexists. split; [reflexivity|]. apply text_plain. rewrite <- (app_nil_r (literal s)). by apply text_simple.
Qed.

Lemma types_print type types : prints type → Forall prints types → ∃ text, format_list ToString (type :: types) = Ok text ∧ ItemsText (type :: types) (text ++ [">"%byte]).
Proof.
  intros Ht Hts. revert type Ht. induction Hts as [|type' types Ht' Hts IH]; intros type (text & E & Ht).
  - exists text. cbn [format_list format_rest]. rewrite E. run_bind. rewrite app_nil_r. split; [done|]. by apply items_last.
  - destruct (IH _ Ht') as (text' & E' & Hitems). exists (text ++ ","%byte :: text'). cbn [format_list format_rest] in *. rewrite E. run_bind. destruct (ToString type') as [t1| | |]; try done. run_bind. run_bind in E'.
    destruct (format_rest ToString types) as [t2| | |]; try done. run_bind. run_bind in E'. injection E' as <-. split; [done|]. rewrite <- app_assoc. cbn [app]. by apply (items_cons type (type' :: types) text [] _).
Qed.

Lemma fields_print field fields : prints (FieldType field) → Name field ≠ [] → Forall (λ f, prints (FieldType f) ∧ Name f ≠ []) fields →
  ∃ text, format_list (format_field ToString) (field :: fields) = Ok text ∧ NamedText (map FieldType (field :: fields)) (map Name (field :: fields)) (text ++ [">"%byte]).
Proof.
  intros Hf Hne Hfs. revert field Hf Hne. induction Hfs as [|field' fields [Hf' Hne'] Hfs IH]; intros field (text & E & Ht) Hne.
  - eexists. cbn [format_list format_rest]. unfold format_field. rewrite EscapeCAndSingleQuotes_spec. run_bind. rewrite E. run_bind. rewrite app_nil_r. split; [reflexivity|]. cbn [map].
    pose proof (named_last _ _ _ [] [] text [] (quoted_name _ Hne) ltac:(done) ltac:(done) Ht ltac:(done)) as H. cbn [app] in H |- *. repeat (rewrite <- !app_assoc in H; cbn [app] in H). repeat (rewrite <- !app_assoc; cbn [app]). exact H.
  - destruct (IH _ Hf' Hne') as (text' & E' & Hnamed). assert (∃ head, format_field ToString field = Ok (head ++ text) ∧ head = ["'"%byte] ++ quote (escape_all (Name field)) ++ ["'"%byte] ++ [":"%byte]) as (h & Eh & Hh).
    { eexists. unfold format_field. rewrite EscapeCAndSingleQuotes_spec. run_bind. rewrite E. run_bind. split; [|reflexivity]. by rewrite <- !app_assoc. }
    exists ((h ++ text) ++ ","%byte :: text'). cbn [format_list format_rest] in *. rewrite Eh. run_bind. destruct (format_field ToString field') as [t1| | |]; try done. run_bind. run_bind in E'. destruct (format_rest _ fields) as [t2| | |]; try done. run_bind. run_bind in E'. injection E' as <-.
    split; [done|]. cbn [map] in *. pose proof (named_cons _ _ _ _ _ [] [] text [] _ (quoted_name _ Hne) ltac:(done) ltac:(done) Ht ltac:(done) Hnamed) as H. subst h. cbn [app] in H |- *. repeat (rewrite <- !app_assoc in H; cbn [app] in H). repeat (rewrite <- !app_assoc; cbn [app]). exact H.
Qed.

Lemma make_fields_printable fields : fields_printable fields → make_fields (map FieldType fields) (map Name fields) = fields.
Proof. induction 1 as [|[name stable type] fields [E _] _ IH]; [done|]. cbn in *. subst stable. f_equal. exact IH. Qed.

(** Lists in brackets. *)
Lemma types_bracketed types : Forall prints types → ∃ text, format_list ToString types = Ok text ∧ FieldsText types [] ("<"%byte :: text ++ [">"%byte]).
Proof.
  destruct 1 as [|type types Ht Hts]; [exists []; split; [done|]; by apply (fields_none [])|]. destruct (types_print type types Ht Hts) as (text & E & H). exists text. split; [done|]. by apply (fields_types _ []).
Qed.

Lemma fields_bracketed fields : Forall prints (map FieldType fields) → fields_printable fields →
  ∃ text, format_list (format_field ToString) fields = Ok text ∧ FieldsText (map FieldType fields) (map Name fields) ("<"%byte :: text ++ [">"%byte]).
Proof.
  intros Hp Hf. destruct fields as [|field fields]; [exists []; split; [done|]; by apply (fields_none [])|]. cbn [map] in Hp. apply list.Forall_cons in Hp as [Hp Hps]. apply list.Forall_cons in Hf as [[_ Hne] Hfs].
  destruct (fields_print field fields Hp Hne) as (text & E & H); [|exists text; split; [done|]; by apply (fields_named _ _ [])].
  apply list.Forall_forall. intros f Hin. rewrite list.Forall_forall in Hps. unfold fields_printable in Hfs. rewrite list.Forall_forall in Hfs. split; [apply Hps, list_elem_of_fmap; by exists f|by apply (Hfs f)].
Qed.

Lemma one_bracketed type : prints type → ∃ text, ToString type = Ok text ∧ TypeText type text ∧ FieldsText [type] [] ("<"%byte :: text ++ [">"%byte]).
Proof. intros (text & E & Ht). exists text. split_and!; [done|done|]. apply (fields_types _ []); [done|]. by apply items_last. Qed.

Lemma ToString_text type : throughout printable type → prints type.
Proof.
  induction type as [root IH] using type_children_induction. intros Hp. pose proof (throughout_root _ _ Hp) as Hr.
  assert (Forall prints (children root)) as Hc by (apply list.Forall_forall; intros c Hin; apply IH; [done|]; by eapply throughout_child). clear IH Hp.
  destruct root as [s|precision scale|element|element|fields removed|elements|fields|elements|key value|tag element|function argument element]; cbn [printable children] in *; [apply simple_prints|..].
  all: unfold prints; cbn [ToString]; try (rewrite list.Forall_singleton in Hc; destruct (one_bracketed _ Hc) as (text & E & Ht & Hb)).
  - destruct Hr as [H1 H2]. destruct (number_text precision) as (w1 & E1 & Hw1 & <-); [lia|]. destruct (number_text scale) as (w2 & E2 & Hw2 & <-); [lia|]. rewrite E1. run_bind. rewrite E2. run_bind. eexists. split; [reflexivity|].
    apply text_plain. pose proof (text_decimal w1 w2 [] [] [] [] [] [] Hw1 Hw2) as H. cbn [app] in H. by apply H.
  - rewrite E. run_bind. eexists. split; [reflexivity|]. apply text_plain. by apply (text_optional_of element []).
  - rewrite E. run_bind. eexists. split; [reflexivity|]. apply text_plain. by apply (text_list element []).
  - destruct Hr as [-> Hf]. destruct (fields_bracketed fields Hc Hf) as (text & E & Hb). rewrite E. run_bind. eexists. split; [reflexivity|]. apply text_plain. rewrite <- (make_fields_printable fields Hf) at 1. apply (text_struct _ _ []); [done|by rewrite !length_map|done].
  - destruct (types_bracketed elements Hc) as (text & E & Hb). rewrite E. run_bind. eexists. split; [reflexivity|]. apply text_plain. by apply (text_tuple elements []).
  - destruct Hr as [Hne Hf]. destruct (fields_bracketed fields Hc Hf) as (text & E & Hb). rewrite E. run_bind. eexists. split; [reflexivity|]. apply text_plain. rewrite <- (make_fields_printable fields Hf) at 1. apply (text_variant_struct _ _ []); [done|by destruct fields|done].
  - destruct (types_bracketed elements Hc) as (text & E & Hb). rewrite E. run_bind. eexists. split; [reflexivity|]. apply text_plain. by apply (text_variant_tuple elements []).
  - destruct (types_bracketed [key; value] Hc) as (text & E & Hb). rewrite E. run_bind. eexists. split; [reflexivity|]. apply text_plain. by apply (text_dict key value []).
  - rewrite EscapeCAndSingleQuotes_spec. run_bind. rewrite E. run_bind. eexists. split; [reflexivity|]. apply text_plain. pose proof (text_tagged tag element [] [] [] [] [] text _ ltac:(done) ltac:(done) Ht ltac:(done) (quoted_name tag Hr) ltac:(done) ltac:(done)) as H.
    cbn [app] in H. repeat (rewrite <- !app_assoc in H; cbn [app] in H). exact H.
  - destruct Hr as (-> & s & ->). destruct (simple_prints s) as (text' & E' & Ht'). rewrite E'. run_bind. eexists. split; [reflexivity|].
    apply text_plain. pose proof (text_state function (SimpleType s) (function_literal function) [] [] [] [] [] text' ltac:(done) ltac:(done)) as H. cbn [app] in H. apply H; try done; [by apply word_check; destruct function|by destruct function].
Qed.

(** ** Theorems *)

Lemma ParseType_iff typeString type : ParseType typeString = Ok type ↔ ∃ ws t, typeString = ws ++ t ∧ spaces ws ∧ TypeText type t ∧ WellFormed None type.
Proof.
  unfold ParseType, ParseTypeAndValidate. split.
  - destruct (ParseTypeText _ _) as [[type' str]| | |] eqn:E; try done. run_bind. case_bool_decide as Er; [|done]. cbn [negb]. destruct (ValidateLogicalType None type') as [[]| | |] eqn:Ev; try done. run_bind. intros [= ->].
    apply ParseTypeText_sound in E as (t & Et & Ht). destruct (skip_spaces_inv typeString) as (ws & Es & Hws). exists ws, t. subst str. rewrite app_nil_r in Et. rewrite Et in Es. split_and!; [done..|]. by apply (decides_ok _ _ _ (ValidateLogicalType_decides None type)).
  - intros (ws & t & -> & Hws & Ht & Hwf). rewrite skip_spaces; [|done|rewrite <- (app_nil_r t); by eapply type_unspaced]. rewrite <- (app_nil_r t) at 2. rewrite (proj1 texts_parse type t Ht) by (done || rewrite length_app; lia). rewrite marks_none by done. run_bind.
    rewrite bool_decide_eq_true_2 by done. cbn [negb]. by rewrite (proj2 (decides_ok _ _ _ (ValidateLogicalType_decides None type)) Hwf).
Qed.

(** Fields have their names as stable names, none was removed, and a variant with names has some. *)
Definition stable_fields (fields : list (TStructField TLogicalType)) : Prop := Forall (λ field, StableName field = Name field) fields.
Definition stable (type : TLogicalType) : Prop :=
  match type with StructType fields removed => removed = [] ∧ stable_fields fields | VariantStructType fields => fields ≠ [] ∧ stable_fields fields | _ => True end.

Lemma stable_printable fields : stable_fields fields → names_ok (map Name fields) → fields_printable fields.
Proof.
  intros Hs [Hn _]. apply list.Forall_forall. intros field Hin. unfold stable_fields in Hs. rewrite list.Forall_forall in Hs. rewrite list.Forall_forall in Hn. split; [by apply Hs|]. apply (Hn (Name field)). apply list_elem_of_fmap. by exists field.
Qed.

Lemma wellformed_printable type : WellFormed None type → throughout stable type → throughout printable type.
Proof.
  intros Hwf Hs stack t Ho. destruct (Hwf stack t Ho) as [Hn _]. specialize (Hs stack t Ho). destruct t; cbn [printable stable node_ok] in *; try done.
  - destruct Hs as [-> Hs], Hn as [Hn _]. split; [done|by apply stable_printable].
  - destruct Hs as [Hne Hs], Hn as [Hn _]. split; [done|by apply stable_printable].
  - by destruct Hn.
  - destruct Hn as (-> & s & -> & _). split; [done|by exists s].
Qed.

(** C15. [ParseType] accepts exactly the texts of the language of types whose type is well-formed, and gives this type:
    names of types, fields with and without names in identifiers or quotes, question marks for optionals, decimals,
    tags and aggregate states, spaces between tokens. On every other text it throws, except for texts that end, but
    for spaces, in an open bracket, a comma or a quote: there it throws or aborts (see below). It never runs on: the
    recursion is no deeper than the text is long. *)
Theorem ParseType_correct typeString :
  (∀ type, ParseType typeString = Ok type ↔ ∃ ws t, typeString = ws ++ t ∧ spaces ws ∧ TypeText type t ∧ WellFormed None type) ∧
  ((∃ type, ParseType typeString = Ok type) ∨ (∃ e, ParseType typeString = Throw e) ∨ ParseType typeString = Crash ∧ unfinished typeString).
Proof.
  split; [intros type; apply ParseType_iff|]. assert (ParseType typeString ≠ OutOfFuel) as Hfuel.
  { unfold ParseType, ParseTypeAndValidate. apply bind_total; [apply ParseTypeText_total; pose proof (length_skip typeString); lia|].
    intros [type str] _. destruct (negb _); [done|]. apply bind_total; [|done]. by destruct (ValidateLogicalType_decides None type) as [[-> _]|[-> _]]. }
  assert (abrupt typeString (ParseType typeString)) as Habrupt.
  { unfold ParseType, ParseTypeAndValidate. apply abrupt_bind; [destruct (skip_spaces_inv typeString) as (ws & E & _); rewrite E at 1; apply abrupt_rest, ParseTypeText_abrupt|].
    intros [type str] _. destruct (negb _); [done|]. apply abrupt_bind; [|done]. by destruct (ValidateLogicalType_decides None type) as [[-> _]|[-> _]]. }
  destruct (ParseType typeString) as [type|e| |]; [left; by exists type|right; left; by exists e|right; right; by auto|done].
Qed.

(** C21. [ToString] prints every validated type whose fields have their names as stable names, none removed (what the
    text does not tell) and whose variants with names are not empty, and [ParseType] reads the text back as the same
    type: quotes and escapes in names, put in place from the back of the buffer, are undone. *)
Theorem ToString_roundtrip type : ValidateLogicalType None type = Ok () → throughout stable type → ∃ text, ToString type = Ok text ∧ ParseType text = Ok type.
Proof.
  intros Hv Hs. apply (decides_ok _ _ _ (ValidateLogicalType_decides None type)) in Hv. destruct (ToString_text type (wellformed_printable type Hv Hs)) as (text & E & Ht). exists text. split; [done|].
  apply ParseType_iff. exists [], text. by split_and!.
Qed.

Lemma ToString_roundtrip_witness (type := StructType [Build_TStructField (B"it's") (B"it's") (OptionalType (DecimalType 10 2))] []) :
  ∃ text, ToString type = Ok text ∧ text = B"Struct<'it\'s':Optional<Decimal(10,2)>>" ∧ ParseType text = Ok type.
Proof.
  destruct (ToString_roundtrip type) as (text & E & Hp); [vm_compute; reflexivity| |].
  - apply throughout_intro; [split; [reflexivity|repeat constructor]|]. intros c Hc. apply list_elem_of_singleton in Hc as ->. apply throughout_intro; [exact I|]. intros c Hc. apply list_elem_of_singleton in Hc as ->. apply throughout_intro; [exact I|]. intros c Hc. by apply elem_of_nil in Hc.
  - exists text. split; [exact E|]. split; [|exact Hp]. vm_compute in E. injection E as <-. reflexivity.
Defined.

(** The text of a variant with names but without alternatives is read as one without names. *)
Lemma empty_variant_changes : ToString (VariantStructType []) = Ok (B"Variant<>") ∧ ParseType (B"Variant<>") = Ok (VariantTupleType []).
Proof. split; vm_compute; reflexivity. Qed.

(** Behind empty brackets spaces are not skipped. *)
Lemma space_behind_empty : ParseType (B"Tuple<> ") = Throw EBadLogicalType ∧ ParseType (B"Tuple<Int64> ") = Ok (TupleType [SimpleType SimpleInt64]).
Proof. split; vm_compute; reflexivity. Qed.

(** At the end of the text [atoi] is given the null pointer of a cleared identifier. *)
Lemma unfinished_decimal : ParseType (B"Decimal(") = Crash ∧ ParseType (B"Decimal(10, ") = Crash.
Proof. split; vm_compute; reflexivity. Qed.
