(* ===== verification/TypeCompatibility.v ===== *)
(** Compatibility of logical types (client/complex_types/check_type_compatibility.cpp): whether
    data of the old type can be read as data of the new one. The errors that describe an incompatibility are not
    modelled, only the level; field descriptors are the types they describe. The hash maps of stable
    names are finite maps, the order in which they are visited is a parameter. *)

From stdpp Require Import gmap.
From S2P Require Import Prelude Utf8 CompositeCompare LogicalType.

Inductive ESchemaCompatibility : Set := Incompatible | RequireValidation | FullyCompatible.

#[export] Instance ESchemaCompatibility_eq_dec : EqDecision ESchemaCompatibility.
Proof. solve_decision. Defined.

Definition level (compatibility : ESchemaCompatibility) : Z := match compatibility with Incompatible => 0 | RequireValidation => 1 | FullyCompatible => 2 end.

Definition MinCompatibility (lhs rhs : ESchemaCompatibility) : ESchemaCompatibility := if level lhs <=? level rhs then lhs else rhs.

Record TTypeCompatibilityOptions := { AllowStructFieldRenaming : bool; AllowStructFieldRemoval : bool; IgnoreUnknownRemovedFieldNames : bool }.

(** ** Simple types *)

Inductive ESimpleTypeClass : Set := ClassInt | ClassUint | ClassFloating | ClassString.

Definition GetSimpleTypeRank (typeClass : ESimpleTypeClass) (type : ESimpleLogicalValueType) : Z :=
  match typeClass with
  | ClassInt => match type with SimpleInt8 => 8 | SimpleInt16 => 16 | SimpleInt32 => 32 | SimpleInt64 => 64 | _ => -1 end
  | ClassUint => match type with SimpleUint8 => 8 | SimpleUint16 => 16 | SimpleUint32 => 32 | SimpleUint64 => 64 | _ => -1 end
  | ClassFloating => match type with SimpleFloat => 32 | SimpleDouble => 64 | _ => -1 end
  | ClassString => match type with SimpleUtf8 => 1 | SimpleString => 2 | _ => -1 end
  end.

Definition CheckCompatibilityUsingClass (typeClass : ESimpleTypeClass) (oldType newType : ESimpleLogicalValueType) : Result ESchemaCompatibility :=
  let oldRank := GetSimpleTypeRank typeClass oldType in
  if oldRank <=? 0 then Throw EBadLogicalType
  else
    let newRank := GetSimpleTypeRank typeClass newType in
    if newRank <? 0 then Ok Incompatible
    else if newRank >=? oldRank then Ok FullyCompatible
    else Ok RequireValidation.

Definition CheckTypeCompatibilitySimple (oldElement newElement : ESimpleLogicalValueType) : Result ESchemaCompatibility :=
  if bool_decide (newElement = SimpleAny) then
    Ok match oldElement with
       | SimpleInt8 | SimpleInt16 | SimpleInt32 | SimpleInt64 | SimpleUint8 | SimpleUint16 | SimpleUint32 | SimpleUint64
       | SimpleFloat | SimpleDouble | SimpleString | SimpleUtf8 | SimpleBoolean | SimpleDate | SimpleDatetime | SimpleTimestamp | SimpleInterval
       | SimpleNull | SimpleVoid | SimpleDate32 | SimpleDatetime64 | SimpleTimestamp64 | SimpleInterval64 | SimpleAny => FullyCompatible
       | _ => Incompatible
       end
  else
    match oldElement with
    | SimpleInt8 | SimpleInt16 | SimpleInt32 | SimpleInt64 => CheckCompatibilityUsingClass ClassInt oldElement newElement
    | SimpleUint8 | SimpleUint16 | SimpleUint32 | SimpleUint64 => CheckCompatibilityUsingClass ClassUint oldElement newElement
    | SimpleFloat | SimpleDouble => CheckCompatibilityUsingClass ClassFloating oldElement newElement
    | SimpleUtf8 | SimpleString => CheckCompatibilityUsingClass ClassString oldElement newElement
    | _ => Ok (if bool_decide (oldElement = newElement) then FullyCompatible else Incompatible)
    end.

Fixpoint UnwrapOptionalAndTagged (type : TLogicalType) : TLogicalType * nat :=
  match type with
  | OptionalType element => let '(current, nesting) := UnwrapOptionalAndTagged element in (current, S nesting)
  | TaggedType _ element => UnwrapOptionalAndTagged element
  | _ => (type, O)
  end.

(** ** Elements and fields *)

Abbreviation stable_names := (gmap (list byte) (option nat)).

(** Any order in which a hash map visits its entries, each of them once. *)
Class NamesOrder := names_order : stable_names → list (list byte * option nat).
Class NamesOrderLaws `{NamesOrder} := names_order_perm names : names_order names ≡ₚ map_to_list names.

Definition EmplaceOrCrash (result : stable_names) (stableName : list byte) (index : option nat) : Result stable_names :=
  match result !! stableName with None => Ok (<[stableName := index]> result) | Some _ => Crash end.

Fixpoint emplace_fields (result : stable_names) (fieldIndex : nat) (fields : list (TStructField TLogicalType)) : Result stable_names :=
  match fields with
  | [] => Ok result
  | field :: fields => result ← EmplaceOrCrash result (StableName field) (Some fieldIndex); emplace_fields result (S fieldIndex) fields
  end.

Fixpoint emplace_removed (result : stable_names) (removed : list (list byte)) : Result stable_names :=
  match removed with [] => Ok result | stableName :: removed => result ← EmplaceOrCrash result stableName None; emplace_removed result removed end.

(** [removed] is empty for variants. *)
Definition buildStableNameToIndexMapping (fields : list (TStructField TLogicalType)) (removed : list (list byte)) : Result stable_names :=
  result ← emplace_fields ∅ 0 fields; emplace_removed result removed.

Section Check.
Context `{NamesOrder} (options : TTypeCompatibilityOptions).

Section Rec.
(** [CheckTypeCompatibilityImpl] of what is inside. *)
Context (check : TLogicalType → TLogicalType → Result ESchemaCompatibility).

Fixpoint elements_loop (result : ESchemaCompatibility) (oldElements newElements : list TLogicalType) : Result ESchemaCompatibility :=
  match result, oldElements with
  | Incompatible, _ | _, [] => Ok result
  | _, oldElement :: oldElements =>
      match newElements with
      | [] => Crash
      | newElement :: newElements => compatibility ← check oldElement newElement; elements_loop (MinCompatibility result compatibility) oldElements newElements
      end
  end.

Definition CheckElementsCompatibility (oldElements newElements : list TLogicalType) (allowNewElements : bool) : Result ESchemaCompatibility :=
  if Nat.ltb (length newElements) (length oldElements) then Ok Incompatible
  else if negb allowNewElements && negb (Nat.eqb (length oldElements) (length newElements)) then Ok Incompatible
  else elements_loop FullyCompatible oldElements newElements.

Section FieldsCheck.
Context (isStruct : bool) (oldFields newFields : list (TStructField TLogicalType)) (stableNameToOldIndex stableNameToNewIndex : stable_names).

Definition onNewField (newIndex : nat) (result : ESchemaCompatibility) : Result ESchemaCompatibility :=
  match newFields !! newIndex with
  | None => Crash
  | Some field => if negb isStruct then Ok result else if IsNullable (FieldType field) then Ok result else Ok Incompatible
  end.

Definition onUnknownRemovedField (result : ESchemaCompatibility) : ESchemaCompatibility := if IgnoreUnknownRemovedFieldNames options then result else Incompatible.

(** Unknown names: the loop ends at an incompatibility. *)
Fixpoint unknown_loop (entries : list (list byte * option nat)) (result : ESchemaCompatibility) : Result ESchemaCompatibility :=
  match entries with
  | [] => Ok result
  | (stableName, newIndex) :: entries =>
      match stableNameToOldIndex !! stableName with
      | Some _ => unknown_loop entries result
      | None =>
          result ← match newIndex with Some newIndex => onNewField newIndex result | None => Ok (onUnknownRemovedField result) end;
          if bool_decide (result = Incompatible) then Ok result else unknown_loop entries result
      end
  end.

Definition onRemovedField (result : ESchemaCompatibility) : ESchemaCompatibility :=
  if negb (AllowStructFieldRemoval options) then Incompatible
  else if isStruct then result
  else MinCompatibility result RequireValidation.

Definition onDroppedField (result : ESchemaCompatibility) : ESchemaCompatibility := if negb isStruct then onRemovedField result else Incompatible.

Definition onRenamedField (result : ESchemaCompatibility) : ESchemaCompatibility := if AllowStructFieldRenaming options then result else Incompatible.

(** A name that existed or was removed: the level, and whether a field was retained. *)
Definition known_name (stableName : list byte) (oldIndex : option nat) (result : ESchemaCompatibility) (areSomeFieldsRetained : bool) : Result (ESchemaCompatibility * bool) :=
  match stableNameToNewIndex !! stableName, oldIndex with
  | Some None, Some _ => Ok (onRemovedField result, areSomeFieldsRetained)
  | Some (Some _), None => Ok (Incompatible, areSomeFieldsRetained)
  | Some (Some newIndex), Some oldIndex =>
      match oldFields !! oldIndex, newFields !! newIndex with
      | Some oldField, Some newField =>
          let result := if bool_decide (Name oldField ≠ Name newField) then onRenamedField result else result in
          compatibility ← check (FieldType oldField) (FieldType newField);
          Ok (MinCompatibility result compatibility, true)
      | _, _ => Crash
      end
  | Some None, None => Ok (result, areSomeFieldsRetained)
  | None, Some _ => Ok (onDroppedField result, areSomeFieldsRetained)
  | None, None => Ok (Incompatible, areSomeFieldsRetained)
  end.

Fixpoint known_loop (entries : list (list byte * option nat)) (result : ESchemaCompatibility) (areSomeFieldsRetained : bool) : Result (ESchemaCompatibility * bool) :=
  match entries with
  | [] => Ok (result, areSomeFieldsRetained)
  | (stableName, oldIndex) :: entries =>
      '(result, areSomeFieldsRetained) ← known_name stableName oldIndex result areSomeFieldsRetained;
      if bool_decide (result = Incompatible) then Ok (result, areSomeFieldsRetained) else known_loop entries result areSomeFieldsRetained
  end.

(** The order of the fields; [lastNewField] whether a new field was met. *)
Fixpoint order_check (fields : list (TStructField TLogicalType)) (lastOldIndex : option nat) (lastNewField : bool) (result : ESchemaCompatibility) : Result ESchemaCompatibility :=
  match fields with
  | [] => Ok result
  | field :: fields =>
      match stableNameToOldIndex !! StableName field with
      | None => order_check fields lastOldIndex true result
      | Some None => Crash
      | Some (Some oldIndex) =>
          if lastNewField then Ok Incompatible
          else if match lastOldIndex with Some lastOldIndex => Nat.ltb oldIndex lastOldIndex | None => false end then Ok Incompatible
          else order_check fields (Some oldIndex) lastNewField result
      end
  end.

Definition check_fields : Result ESchemaCompatibility :=
  result ← unknown_loop (names_order stableNameToNewIndex) FullyCompatible;
  if bool_decide (result = Incompatible) then Ok result
  else
    '(result, areSomeFieldsRetained) ← known_loop (names_order stableNameToOldIndex) result false;
    if bool_decide (result = Incompatible) then Ok result
    else if negb isStruct && negb areSomeFieldsRetained then Ok Incompatible
    else if AllowStructFieldRenaming options && AllowStructFieldRemoval options then Ok result
    else order_check newFields None false result.
End FieldsCheck.

Definition CheckFieldsCompatibility (isStruct : bool) (oldFields : list (TStructField TLogicalType)) (oldRemoved : list (list byte)) (newFields : list (TStructField TLogicalType)) (newRemoved : list (list byte)) : Result ESchemaCompatibility :=
  stableNameToOldIndex ← buildStableNameToIndexMapping oldFields oldRemoved;
  stableNameToNewIndex ← buildStableNameToIndexMapping newFields newRemoved;
  check_fields isStruct oldFields newFields stableNameToOldIndex stableNameToNewIndex.

Definition CheckDictTypeCompatibility (oldKey oldValue newKey newValue : TLogicalType) : Result ESchemaCompatibility :=
  keyCompatibility ← check oldKey newKey;
  if bool_decide (keyCompatibility = Incompatible) then Ok keyCompatibility
  else valueCompatibility ← check oldValue newValue; Ok (MinCompatibility keyCompatibility valueCompatibility).

Definition CheckDecimalTypeCompatibility (oldType newType : TLogicalType) : ESchemaCompatibility := if type_equal oldType newType then FullyCompatible else Incompatible.

(** Both types are not optional and not tagged. *)
Definition CheckBareTypes (oldType newType : TLogicalType) : Result ESchemaCompatibility :=
  match oldType, newType with
  | SimpleType oldElement, SimpleType newElement => CheckTypeCompatibilitySimple oldElement newElement
  | ListType oldElement, ListType newElement => check oldElement newElement
  | VariantStructType oldFields, VariantStructType newFields => CheckFieldsCompatibility false oldFields [] newFields []
  | StructType oldFields oldRemoved, StructType newFields newRemoved => CheckFieldsCompatibility true oldFields oldRemoved newFields newRemoved
  | TupleType oldElements, TupleType newElements => CheckElementsCompatibility oldElements newElements false
  | VariantTupleType oldElements, VariantTupleType newElements => CheckElementsCompatibility oldElements newElements true
  | DictType oldKey oldValue, DictType newKey newValue => CheckDictTypeCompatibility oldKey oldValue newKey newValue
  | DecimalType _ _, DecimalType _ _ => Ok (CheckDecimalTypeCompatibility oldType newType)
  | AggregateStateType oldFunction _ oldElement, AggregateStateType newFunction _ newElement =>
      if negb (bool_decide (oldFunction = newFunction)) then Ok Incompatible
      else
        elementCompatibility ← check oldElement newElement;
        if bool_decide (elementCompatibility ≠ FullyCompatible) then Ok Incompatible else Ok elementCompatibility
  | AggregateStateType _ _ oldElement, _ => check oldElement newType
  | _, _ => Ok Incompatible
  end.

Definition is_state (type : TLogicalType) : bool := match type with AggregateStateType _ _ _ => true | _ => false end.
Definition state_element (type : TLogicalType) : TLogicalType := match type with AggregateStateType _ _ element => element | _ => type end.

Definition CheckWrappedTypes (oldType newType : TLogicalType) : Result ESchemaCompatibility :=
  let '(oldElement, oldNesting) := UnwrapOptionalAndTagged oldType in
  let '(newElement, newNesting) := UnwrapOptionalAndTagged newType in
  let '(oldElement, oldNesting) :=
    if is_state oldElement && negb (is_state newElement) then
      let '(aggregateElement, aggregateNesting) := UnwrapOptionalAndTagged (state_element oldElement) in (aggregateElement, (oldNesting + aggregateNesting)%nat)
    else (oldElement, oldNesting) in
  if Nat.eqb oldNesting newNesting || Nat.eqb oldNesting 0 && Nat.eqb newNesting 1 then check oldElement newElement
  else if Nat.eqb oldNesting 1 && Nat.eqb newNesting 0 then compatibility ← check oldElement newElement; Ok (MinCompatibility compatibility RequireValidation)
  else Ok Incompatible.

Definition is_wrapped (type : TLogicalType) : bool := match type with OptionalType _ | TaggedType _ _ => true | _ => false end.
End Rec.

Fixpoint CheckTypeCompatibilityImpl (fuel : nat) (oldType newType : TLogicalType) : Result ESchemaCompatibility :=
  match fuel with
  | O => OutOfFuel
  | S fuel =>
      if is_wrapped oldType || is_wrapped newType then CheckWrappedTypes (CheckTypeCompatibilityImpl fuel) oldType newType
      else CheckBareTypes (CheckTypeCompatibilityImpl fuel) oldType newType
  end.

(** Every call looks inside one of the types. *)
Fixpoint type_size (type : TLogicalType) : nat :=
  match type with
  | SimpleType _ | DecimalType _ _ => 1
  | OptionalType element | ListType element | TaggedType _ element | AggregateStateType _ _ element => S (type_size element)
  | StructType fields _ | VariantStructType fields => S (fold_right (λ field size, type_size (FieldType field) + size)%nat 0%nat fields)
  | TupleType elements | VariantTupleType elements => S (fold_right (λ element size, type_size element + size)%nat 0%nat elements)
  | DictType key value => S (type_size key + type_size value)
  end.

Definition CheckTypeCompatibility (oldType newType : TLogicalType) : Result ESchemaCompatibility :=
  CheckTypeCompatibilityImpl (S (type_size oldType + type_size newType)) oldType newType.
End Check.
