(* ===== verification/TypeCompatibilityValues.v ===== *)
(** Fully compatible types: every value of the old type is a value of the new one. *)

From stdpp Require Import gmap.
From S2P Require Import Prelude CompositeCompare Utf8 YsonEvents YsonGrammar LogicalType Deserialize Decimal ComplexTypeValidator ComplexTypeValues TypeCompatibility.

#[local] Set Warnings "-clear-no-such-hyp".

(** ** Layers of optionals *)

Section Layers.
Context (validate_json : list byte → bool).
#[local] Abbreviation Conforms := (Conforms validate_json).

(** The values of a type that is wrapped into [nesting] optionals, each of a nullable type in a list of its own. *)
Fixpoint Layers (nesting : nat) (core : TLogicalType) (n : TNode) : Prop :=
  match nesting with
  | O => Conforms core n
  | S nesting => n = Node None VEntity ∨ if Nat.ltb 0 nesting || IsNullable core then ∃ m, n = Node None (VList [m]) ∧ Layers nesting core m else Layers nesting core n
  end.

Lemma unwrap_nullable type core nesting : UnwrapOptionalAndTagged type = (core, nesting) → IsNullable type = Nat.ltb 0 nesting || IsNullable core.
Proof.
  revert core nesting. induction type using TLogicalType_induction; cbn [UnwrapOptionalAndTagged IsNullable]; intros core nesting; try (by intros [= <- <-]); [|by apply IHtype].
  destruct (UnwrapOptionalAndTagged type) as [core' nesting']. by intros [= <- <-].
Qed.

Lemma unwrap_conforms type core nesting n : UnwrapOptionalAndTagged type = (core, nesting) → Conforms type n ↔ Layers nesting core n.
Proof.
  revert core nesting n. induction type using TLogicalType_induction; cbn [UnwrapOptionalAndTagged]; intros core nesting n; try (by intros [= <- <-]).
  - destruct (UnwrapOptionalAndTagged type) as [core' nesting'] eqn:E. intros [= <- <-]. cbn [Layers]. rewrite <- (unwrap_nullable _ _ _ E). split.
    + inversion 1 as [| | | |? ? En Hn|? m En Hm| | | | | | | |]; subst; [by left|right; rewrite En; by apply IHtype|right; rewrite En; exists m; split; [done|]; by apply IHtype].
    + intros [-> |Hn]; [constructor|]. destruct (IsNullable type) eqn:En; [destruct Hn as (m & -> & Hm); apply conforms_boxed; [done|]; by eapply IHtype|apply conforms_some; [done|]; by eapply IHtype].
  - intros E. rewrite <- (IHtype _ _ n E). split; [by inversion 1|by constructor].
Qed.

Lemma unwrap_bare type core nesting : UnwrapOptionalAndTagged type = (core, nesting) → is_wrapped core = false.
Proof.
  revert core nesting. induction type using TLogicalType_induction; cbn [UnwrapOptionalAndTagged]; intros core nesting; try (by intros [= <- <-]); [|by apply IHtype].
  destruct (UnwrapOptionalAndTagged type) as [core' nesting'] eqn:E. intros [= <- <-]. by eapply IHtype.
Qed.

Lemma unwrap_throughout (P : TLogicalType → Prop) type core nesting : UnwrapOptionalAndTagged type = (core, nesting) → throughout P type → throughout P core.
Proof.
  revert core nesting. induction type using TLogicalType_induction; cbn [UnwrapOptionalAndTagged]; intros core nesting; try (by intros [= <- <-]).
  - destruct (UnwrapOptionalAndTagged type) as [core' nesting'] eqn:E. intros [= <- <-] HP. apply (IHtype core' nesting'); [done|]. eapply throughout_child; [done|by left].
  - intros E HP. apply (IHtype core nesting); [done|]. eapply throughout_child; [done|by left].
Qed.

Lemma not_null type : IsNullable type = false → ¬ Conforms type (Node None VEntity).
Proof.
  induction type using TLogicalType_induction; cbn [IsNullable]; intros En; inversion 1; subst; try done; try (by apply IHtype); try (by apply IHtype2).
  by apply bool_decide_eq_false in En.
Qed.

(** Values of bare types go over to values of wrapped ones. *)
Lemma layers_mono oldCore newCore nesting n :
  (∀ m, Conforms oldCore m → Conforms newCore m ∨ newCore = SimpleType SimpleAny ∧ m = Node None VEntity) → IsNullable oldCore = IsNullable newCore ∨ newCore = SimpleType SimpleAny →
  ((0 < nesting)%nat ∨ newCore ≠ SimpleType SimpleAny) → Layers nesting oldCore n → Layers nesting newCore n.
Proof.
  intros Hcore Hnull. revert n. induction nesting as [|nesting IH]; intros n Hany; cbn [Layers].
  - intros Hn. destruct (Hcore n Hn) as [?|[-> _]]; [done|]. by destruct Hany as [?|?]; [lia|].
  - intros [-> |Hn]; [by left|]. destruct nesting as [|nesting]; cbn [Nat.ltb Nat.leb orb] in *.
    + assert (IsNullable oldCore = false → IsNullable newCore = false) as Hf by (intros E; destruct Hnull as [Hnull| ->]; [by rewrite <- Hnull|done]). destruct (IsNullable oldCore) eqn:Eo.
      * right. destruct Hn as (m & -> & Hm). destruct Hnull as [Hnull| ->]; [|by constructor]. rewrite <- Hnull. exists m. split; [done|]. by destruct (Hcore m Hm) as [?|[-> ->]].
      * rewrite Hf by done. destruct (Hcore n Hn) as [?|[_ ->]]; [by right|by left].
    + right. destruct Hn as (m & -> & Hm). exists m. split; [done|]. apply IH; [left; lia|done].
Qed.
End Layers.

(** ** Fields *)

Lemma emplace_fields_spec M k fields M' : emplace_fields M k fields = Ok M' →
  (∀ i field, fields !! i = Some field → M' !! StableName field = Some (Some (k + i)%nat)) ∧ (∀ name x, M !! name = Some x → M' !! name = Some x) ∧
  (∀ name x, M' !! name = Some x → M !! name = Some x ∨ ∃ i field, fields !! i = Some field ∧ StableName field = name ∧ x = Some (k + i)%nat).
Proof.
  revert M k. induction fields as [|field fields IH]; intros M k; cbn [emplace_fields]; [intros [= <-]; split_and!; [done|done|by left]|].
  unfold EmplaceOrCrash. destruct (M !! StableName field) as [x|] eqn:E; [done|]. run_bind. intros HM. destruct (IH _ _ HM) as (H1 & H2 & H3). split_and!.
  - intros [|i] f Hf; [injection Hf as <-; rewrite Nat.add_0_r; apply H2, lookup_insert_eq|]. rewrite Nat.add_succ_r. by apply (H1 i).
  - intros name x Hx. apply H2. rewrite lookup_insert_ne; [done|]. by intros <-; rewrite E in Hx.
  - intros name x Hx. destruct (H3 name x Hx) as [Hins|(i & f & Hf & Hn & ->)]; [|right; exists (S i), f; split_and!; [done|done|by rewrite Nat.add_succ_r]].
    destruct (decide (name = StableName field)) as [-> |Hne]; [|left; by rewrite lookup_insert_ne in Hins].
    rewrite lookup_insert_eq in Hins. injection Hins as <-. right. exists 0%nat, field. by rewrite Nat.add_0_r.
Qed.

Lemma emplace_removed_spec M removed M' : emplace_removed M removed = Ok M' →
  (∀ name x, M !! name = Some x → M' !! name = Some x) ∧ (∀ name x, M' !! name = Some x → M !! name = Some x ∨ x = None ∧ name ∈ removed) ∧ (∀ name, name ∈ removed → M' !! name = Some None).
Proof.
  revert M. induction removed as [|stableName removed IH]; intros M; cbn [emplace_removed]; [intros [= <-]; split_and!; [done|by left|by intros ? ?%not_elem_of_nil]|].
  unfold EmplaceOrCrash. destruct (M !! stableName) as [x|] eqn:E; [done|]. run_bind. intros HM. destruct (IH _ HM) as (H1 & H2 & H3). split_and!.
  - intros name x Hx. apply H1. rewrite lookup_insert_ne; [done|]. by intros <-; rewrite E in Hx.
  - intros name x Hx. destruct (H2 name x Hx) as [Hins|[-> Hin]]; [|right; split; [done|by right]]. destruct (decide (name = stableName)) as [-> |Hne]; [|left; by rewrite lookup_insert_ne in Hins].
    rewrite lookup_insert_eq in Hins. injection Hins as <-. right. split; [done|by left].
  - intros name [-> |Hin]%elem_of_cons; [apply H1, lookup_insert_eq|by apply H3].
Qed.

(** The maps: the indices of the fields, and no index for what was removed. *)
Definition indexes (fields : list (TStructField TLogicalType)) (M : stable_names) : Prop :=
  (∀ i field, fields !! i = Some field → M !! StableName field = Some (Some i)) ∧ (∀ name i, M !! name = Some (Some i) → ∃ field, fields !! i = Some field ∧ StableName field = name).

Lemma build_spec fields removed M : buildStableNameToIndexMapping fields removed = Ok M → indexes fields M.
Proof.
  unfold buildStableNameToIndexMapping. destruct (emplace_fields ∅ 0 fields) as [M1| | |] eqn:E1; try done. run_bind. intros E2. destruct (emplace_fields_spec _ _ _ _ E1) as (H1 & _ & H3). destruct (emplace_removed_spec _ _ _ E2) as (R1 & R2 & _). split.
  - intros i field Hf. by apply R1, (H1 i).
  - intros name i Hi. destruct (R2 _ _ Hi) as [Hi'|[? _]]; [|done]. destruct (H3 _ _ Hi') as [?|(j & field & Hf & Hn & [= ->])]; [by rewrite lookup_empty in *|]. by exists field.
Qed.

Lemma build_removed fields removed M : buildStableNameToIndexMapping fields removed = Ok M → ∀ name, M !! name = Some None ↔ name ∈ removed.
Proof.
  unfold buildStableNameToIndexMapping. destruct (emplace_fields ∅ 0 fields) as [M1| | |] eqn:E1; try done. run_bind. intros E2 name. destruct (emplace_fields_spec _ _ _ _ E1) as (_ & _ & H3). destruct (emplace_removed_spec _ _ _ E2) as (_ & R2 & R3). split; [|apply R3].
  intros Hx. destruct (R2 _ _ Hx) as [Hx'|[_ ?]]; [|done]. destruct (H3 _ _ Hx') as [?|(i & field & _ & _ & ?)]; [by rewrite lookup_empty in *|done].
Qed.

Lemma min_full a b : MinCompatibility a b = FullyCompatible ↔ a = FullyCompatible ∧ b = FullyCompatible.
Proof. destruct a, b; cbn; naive_solver. Qed.

Section Aligned.
Context `{NamesOrder} (options : TTypeCompatibilityOptions) (Hremoval : AllowStructFieldRemoval options = false) (check : TLogicalType → TLogicalType → Result ESchemaCompatibility).
Context (isStruct : bool) (oldFields newFields : list (TStructField TLogicalType)) (M1 M2 : stable_names) (HM1 : indexes oldFields M1) (HM2 : indexes newFields M2).

Lemma unknown_full entries result c : unknown_loop options isStruct newFields M1 entries result = Ok c → c ≠ Incompatible →
  c = result ∧ ∀ name j field, (name, Some j) ∈ entries → M1 !! name = None → newFields !! j = Some field → isStruct = true → IsNullable (FieldType field) = true.
Proof.
  revert result. induction entries as [|[name index] entries IH]; intros result; cbn [unknown_loop]; [intros [= <-] _; split; [done|]; by intros ? ? ? ?%not_elem_of_nil|]. destruct (M1 !! name) as [x|] eqn:E1.
  - intros E Hc. destruct (IH _ E Hc) as [-> Hin]. split; [done|]. intros name' j field [[= -> <-]|Hin']%elem_of_cons; [congruence|by eapply Hin].
  - assert (∀ r, (match index with Some newIndex => onNewField isStruct newFields newIndex result | None => Ok (onUnknownRemovedField options result) end) = Ok r → r ≠ Incompatible →
      r = result ∧ ∀ j field, index = Some j → newFields !! j = Some field → isStruct = true → IsNullable (FieldType field) = true) as Hstep.
    { intros r. destruct index as [j|]; [|unfold onUnknownRemovedField; destruct (IgnoreUnknownRemovedFieldNames options); intros [= <-]; by split]. unfold onNewField. destruct (newFields !! j) as [f|] eqn:Ef; [|done].
      destruct isStruct; cbn [negb]; [|intros [= <-] _; by split]. destruct (IsNullable (FieldType f)) eqn:En; intros [= <-] ?; [|done]. split; [done|]. intros j' field [= <-] Hf _. congruence. }
    destruct (match index with Some newIndex => _ | None => _ end) as [r| | |]; try done. run_bind. case_bool_decide as Er; [intros [= <-]; by subst r|]. destruct (Hstep r eq_refl Er) as [-> Hfield]. intros E Hc. destruct (IH _ E Hc) as [-> Hin]. split; [done|].
    intros name' j field [[= -> <-]|Hin']%elem_of_cons; [intros _; by apply Hfield|by eapply Hin].
Qed.

Lemma known_name_full name oldIndex result retained retained' : known_name options check isStruct oldFields newFields M2 name oldIndex result retained = Ok (FullyCompatible, retained') → result = FullyCompatible ∧
  match oldIndex with
  | None => True
  | Some i => ∃ j oldField newField, M2 !! name = Some (Some j) ∧ oldFields !! i = Some oldField ∧ newFields !! j = Some newField ∧ check (FieldType oldField) (FieldType newField) = Ok FullyCompatible
  end.
Proof.
  unfold known_name, onDroppedField, onRemovedField. rewrite Hremoval. destruct (M2 !! name) as [[j|]|], oldIndex as [i|]; cbn [negb]; try done.
  - destruct (oldFields !! i) as [f|] eqn:Ef; [|done]. destruct (newFields !! j) as [g|] eqn:Eg; [|done]. destruct (check _ _) as [c| | |] eqn:Ec; try done. run_bind. intros [= Emin _]. apply min_full in Emin as [Er ->]. split; [|by exists j, f, g].
    revert Er. case_bool_decide; [|done]. unfold onRenamedField. by destruct (AllowStructFieldRenaming options).
  - by intros [= -> _].
  - by destruct isStruct.
Qed.

Lemma known_full entries result retained retained' : known_loop options check isStruct oldFields newFields M2 entries result retained = Ok (FullyCompatible, retained') → result = FullyCompatible ∧
  ∀ name i, (name, Some i) ∈ entries → ∃ j oldField newField, M2 !! name = Some (Some j) ∧ oldFields !! i = Some oldField ∧ newFields !! j = Some newField ∧ check (FieldType oldField) (FieldType newField) = Ok FullyCompatible.
Proof.
  revert result retained. induction entries as [|[name index] entries IH]; intros result retained; cbn [known_loop]; [intros [= -> _]; split; [done|]; by intros ? ? ?%not_elem_of_nil|].
  destruct (known_name _ _ _ _ _ _ _ _ _ _) as [[c r]| | |] eqn:E; try done. run_bind. case_bool_decide as Ec; [by intros [= ? _]; subst c|]. intros El. destruct (IH _ _ El) as [-> Hin]. apply known_name_full in E as [-> Hname]. split; [done|].
  intros name' i [[= -> <-]|Hin']%elem_of_cons; [done|by apply Hin].
Qed.

Lemma order_new fields last result c : order_check M1 fields last true result = Ok c → c ≠ Incompatible → c = result ∧ Forall (λ field, M1 !! StableName field = None) fields.
Proof.
  revert last. induction fields as [|field fields IH]; intros last; cbn [order_check]; [by intros [= <-]|]. destruct (M1 !! StableName field) as [[i|]|] eqn:E; [by intros [= <-]|done|]. intros Eo Hc. destruct (IH _ Eo Hc) as [-> Hf]. split; [done|by constructor].
Qed.

Lemma order_after fields last result c field j : order_check M1 fields (Some last) false result = Ok c → c ≠ Incompatible → field ∈ fields → M1 !! StableName field = Some (Some j) → (last <= j)%nat.
Proof.
  revert last. induction fields as [|f fields IH]; intros last; [by intros _ _ ?%not_elem_of_nil|]. cbn [order_check]. destruct (M1 !! StableName f) as [[i|]|] eqn:E.
  - destruct (Nat.ltb_spec i last) as [Hi|Hi]; [by intros [= <-]|]. intros Eo Hc [-> |Hin]%elem_of_cons Hj; [rewrite E in Hj; injection Hj as ->; lia|]. specialize (IH _ Eo Hc Hin Hj). lia.
  - done.
  - intros Eo Hc [-> |Hin]%elem_of_cons Hj; [congruence|]. apply order_new in Eo as [_ Hf]; [|done]. rewrite list.Forall_forall in Hf. by rewrite (Hf _ Hin) in Hj.
Qed.

(** All old fields are among the new ones. *)
Context (Hretained : ∀ i oldField, oldFields !! i = Some oldField → ∃ j newField, newFields !! j = Some newField ∧ StableName newField = StableName oldField).

Definition same_name (oldField newField : TStructField TLogicalType) : Prop := StableName newField = StableName oldField.

Lemma position_unique i j f g : newFields !! i = Some f → newFields !! j = Some g → StableName f = StableName g → i = j.
Proof. intros Hf Hg E. destruct HM2 as [Hi _]. pose proof (Hi i f Hf) as H1. pose proof (Hi j g Hg) as H2. rewrite E in H1. congruence. Qed.

(** An old field that has not been met yet stands in the rest. *)
Lemma in_rest ret rest i oldField : newFields = ret ++ rest → Forall2 same_name (take (length ret) oldFields) ret → oldFields !! i = Some oldField → (length ret <= i)%nat →
  ∃ field, field ∈ rest ∧ M1 !! StableName field = Some (Some i).
Proof.
  intros E Hret Hi Hlen. destruct (Hretained i oldField Hi) as (j & field & Hj & Hn). exists field. destruct HM1 as [HI _]. pose proof (HI i oldField Hi) as Hi1. rewrite <- Hn in Hi1. split; [|done].
  destruct (decide (j < length ret)%nat) as [Hlt|Hge]; [|rewrite E, lookup_app_r in Hj by lia; by eapply list_elem_of_lookup_2]. exfalso. rewrite E, lookup_app_l in Hj by done.
  destruct (Forall2_lookup_r _ _ _ _ _ Hret Hj) as (o & Ho & Hs). apply lookup_take_Some in Ho as [Ho _]. pose proof (HI j o Ho) as Hj1. rewrite <- Hs in Hj1. rewrite Hj1 in Hi1. injection Hi1 as ->. lia.
Qed.

Lemma all_met ret rest : newFields = ret ++ rest → Forall2 same_name (take (length ret) oldFields) ret → Forall (λ field, M1 !! StableName field = None) rest → Forall2 same_name oldFields ret.
Proof.
  intros E Hret Hrest. destruct (decide (length oldFields <= length ret)%nat) as [Hle|Hgt]; [by rewrite take_ge in Hret|]. exfalso.
  destruct (lookup_lt_is_Some_2 oldFields (length ret) ltac:(lia)) as (o & Ho). destruct (in_rest ret rest _ o E Hret Ho ltac:(lia)) as (field & Hin & Hi). rewrite list.Forall_forall in Hrest. by rewrite (Hrest _ Hin) in Hi.
Qed.

Lemma align ret rest last result c : newFields = ret ++ rest → Forall2 same_name (take (length ret) oldFields) ret → order_check M1 rest last false result = Ok c → c ≠ Incompatible →
  c = result ∧ ∃ ret' added, newFields = ret' ++ added ∧ Forall2 same_name oldFields ret' ∧ Forall (λ field, M1 !! StableName field = None) added.
Proof.
  revert ret last. induction rest as [|f rest IH]; intros ret last E Hret; cbn [order_check].
  - intros [= <-] _. split; [done|]. exists ret, []. split_and!; [done|by eapply all_met; [| |constructor]|constructor].
  - destruct (M1 !! StableName f) as [[i|]|] eqn:Ef; [|done|].
    + destruct (match last with Some l => _ | None => _ end); [by intros [= <-]|]. intros Eo Hc. destruct HM1 as [HI1 HI2]. destruct (HI2 _ _ Ef) as (o & Ho & Hn).
      assert (newFields !! length ret = Some f) as Hpos by (rewrite E, lookup_app_r, Nat.sub_diag by lia; done).
      assert (i = length ret) as ->.
      { destruct (lt_eq_lt_dec i (length ret)) as [[Hlt|]|Hgt]; [|done|].
        - destruct (Forall2_lookup_l _ _ _ i o Hret) as (g & Hg & Hs); [by rewrite lookup_take_lt|]. exfalso. assert (i = length ret) by (apply (position_unique i (length ret) g f); [rewrite E; by rewrite lookup_app_l|done|by rewrite Hs, Hn]). lia.
        - exfalso. destruct (lookup_lt_is_Some_2 oldFields (length ret)) as (o' & Ho'); [apply lookup_lt_Some in Ho; lia|]. destruct (in_rest ret (f :: rest) _ o' E Hret Ho' ltac:(lia)) as (field & Hin & Hi).
          apply elem_of_cons in Hin as [-> |Hin]; [rewrite Ef in Hi; injection Hi as ->; lia|]. pose proof (order_after _ _ _ _ _ _ Eo Hc Hin Hi). lia. }
      apply (IH (ret ++ [f]) (Some (length ret))); [by rewrite <- app_assoc| |done|done]. rewrite length_app. cbn [length]. rewrite Nat.add_1_r, (take_S_r _ _ o Ho). apply Forall2_app; [done|]. by constructor.
    + intros Eo Hc. apply order_new in Eo as [-> Hnew]; [|done]. split; [done|]. exists ret, (f :: rest). split_and!; [done|eapply all_met; [done|done|by constructor]|by constructor].
Qed.
End Aligned.

(** Fully compatible fields: the old ones, each with its compatible type, then new ones, which may be null in a struct. *)
Lemma check_fields_full `{NamesOrderLaws} options (Hremoval : AllowStructFieldRemoval options = false) check isStruct oldFields oldRemoved newFields newRemoved :
  CheckFieldsCompatibility options check isStruct oldFields oldRemoved newFields newRemoved = Ok FullyCompatible →
  ∃ retained added, newFields = retained ++ added ∧ Forall2 (λ o n, check (FieldType o) (FieldType n) = Ok FullyCompatible) oldFields retained ∧ (isStruct = true → Forall (λ field, IsNullable (FieldType field) = true) added).
Proof.
  unfold CheckFieldsCompatibility. destruct (buildStableNameToIndexMapping oldFields oldRemoved) as [M1| | |] eqn:E1; try done. destruct (buildStableNameToIndexMapping newFields newRemoved) as [M2| | |] eqn:E2; try done. run_bind.
  apply build_spec in E1 as HM1. apply build_spec in E2 as HM2. unfold check_fields. destruct (unknown_loop _ _ _ _ _ _) as [u| | |] eqn:Eu; try done. run_bind. case_bool_decide as Hu; [by intros [= ?]; subst u|]. apply unknown_full in Eu as [-> Hnew]; [|done].
  destruct (known_loop _ _ _ _ _ _ _ _ _) as [[k r]| | |] eqn:Ek; try done. run_bind. case_bool_decide as Hk; [by intros [= ?]; subst k|]. destruct (negb isStruct && negb r); [done|]. rewrite Hremoval, andb_false_r.
  intros Eo. assert (k = FullyCompatible) as ->.
  { revert Eo. generalize (@None nat) as last, false as new. induction newFields as [|f fields IH] in |- *; intros last new; cbn [order_check]; [by intros [= ->]|]. destruct (M1 !! StableName f) as [[i|]|]; [|done|apply IH]. destruct new; [done|]. destruct (match last with Some l => _ | None => _ end); [done|apply IH]. }
  apply (known_full _ Hremoval) in Ek as [_ Hknown].
  assert (∀ i o, oldFields !! i = Some o → ∃ j n, newFields !! j = Some n ∧ StableName n = StableName o ∧ check (FieldType o) (FieldType n) = Ok FullyCompatible) as Hret.
  { intros i o Ho. destruct HM1 as [HI _]. destruct (Hknown (StableName o) i) as (j & o' & n & Hj & Ho' & Hn & Hc); [rewrite names_order_perm; by apply elem_of_map_to_list, HI|]. assert (o' = o) as -> by congruence. exists j, n. split_and!; [done| |done].
    destruct HM2 as [_ HI2]. destruct (HI2 _ _ Hj) as (n' & Hn' & <-). congruence. }
  destruct (align oldFields newFields M1 M2 HM1 HM2) with (ret := @nil (TStructField TLogicalType)) (rest := newFields) (last := @None nat) (result := FullyCompatible) (c := FullyCompatible) as (_ & retained & added & E & Hsame & Hadded); try done.
  { intros i o Ho. destruct (Hret i o Ho) as (j & n & Hn & Hs & _). by exists j, n. }
  exists retained, added. split_and!; [done| |].
  - apply Forall2_same_length_lookup. split; [by eapply Forall2_length|]. intros i o n Ho Hn. destruct (Hret i o Ho) as (j & n' & Hn' & Hs & Hc). assert (newFields !! i = Some n) as Hn2 by (rewrite E; by apply lookup_app_l_Some).
    destruct (Forall2_lookup_lr _ _ _ _ _ _ Hsame Ho Hn). assert (i = j) as -> by (eapply (position_unique newFields M2 HM2); [exact Hn2|exact Hn'|congruence]). congruence.
  - intros Hstruct. apply list.Forall_forall. intros field Hin. rewrite list.Forall_forall in Hadded. pose proof (Hadded _ Hin) as Hnone. destruct (list_elem_of_lookup_1 _ _ Hin) as (i & Hi). assert (newFields !! (length retained + i)%nat = Some field) as Hf by (rewrite E, lookup_app_r by lia; by replace (length retained + i - length retained)%nat with i by lia).
    eapply Hnew; [|done|done|done]. rewrite names_order_perm. apply elem_of_map_to_list. destruct HM2 as [HI _]. by apply HI.
Qed.

Lemma elements_full check result old new : elements_loop check result old new = Ok FullyCompatible →
  result = FullyCompatible ∧ ∃ prefix rest, new = prefix ++ rest ∧ Forall2 (λ o n, check o n = Ok FullyCompatible) old prefix.
Proof.
  revert result new. induction old as [|o old IH]; intros result new; cbn [elements_loop].
  - intros E. assert (result = FullyCompatible) as -> by (by destruct result). split; [done|]. by exists [], new.
  - destruct new as [|n new]; [by destruct result|]. intros E. assert ((compatibility ← check o n; elements_loop check (MinCompatibility result compatibility) old new) = Ok FullyCompatible) as E' by (by destruct result). clear E.
    destruct (check o n) as [c| | |] eqn:Ec; try done. run_bind in E'. apply IH in E' as [Em (prefix & rest & -> & H2)]. apply min_full in Em as [-> ->]. split; [done|]. exists (n :: prefix), rest. split; [done|by constructor].
Qed.

Lemma check_elements_full check old new allow : CheckElementsCompatibility check old new allow = Ok FullyCompatible →
  ∃ prefix rest, new = prefix ++ rest ∧ Forall2 (λ o n, check o n = Ok FullyCompatible) old prefix ∧ (allow = false → rest = []).
Proof.
  unfold CheckElementsCompatibility. destruct (Nat.ltb _ _); [done|]. destruct (negb allow && negb (Nat.eqb (length old) (length new))) eqn:Ea; [done|]. intros (_ & prefix & rest & -> & H2)%elements_full. exists prefix, rest. split_and!; [done|done|].
  intros ->. cbn [negb andb] in Ea. apply negb_false_iff, Nat.eqb_eq in Ea. rewrite length_app, (list.Forall2_length _ _ _ H2) in Ea. destruct rest; [done|]. simpl in Ea. lia.
Qed.

(** ** Conditions on the types *)

(** States hold what their function makes of a simple argument. *)
Definition state_ok (type : TLogicalType) : Prop := match type with AggregateStateType _ _ _ => ∃ parent, node_ok parent type | _ => True end.

(** Any stands in optionals only. *)
Definition any_inside (type : TLogicalType) : Prop := match type with OptionalType _ => True | _ => (SimpleType SimpleAny ∉ children type) end.

(** Fields that may be null are optionals themselves, not behind a tag. *)
Definition fields_optional (type : TLogicalType) : Prop := match type with StructType fields _ => Forall (λ field, IsNullable (FieldType field) = true → is_optional (FieldType field) = true) fields | _ => True end.

(** No optional of a state that may be null itself. *)
Definition state_unboxed (type : TLogicalType) : Prop := match type with OptionalType element => let core := (UnwrapOptionalAndTagged element).1 in is_state core && IsNullable core = false | _ => True end.

Definition target_ok (type : TLogicalType) : Prop := state_ok type ∧ any_inside type ∧ fields_optional type ∧ state_unboxed type.

Lemma throughout_impl (P Q : TLogicalType → Prop) type : (∀ t, P t → Q t) → throughout P type → throughout Q type.
Proof. intros HPQ HP stack t Ho. by eapply HPQ, HP. Qed.

Lemma state_nullable function argument element : state_ok (AggregateStateType function argument element) → IsNullable element = match function with Min | Max => true | Sum | Avg => false end.
Proof. intros (parent & -> & s & -> & Hf). destruct function; try done. by destruct s; destruct Hf. Qed.

Lemma wrapped_unboxed type core nesting : throughout state_unboxed type → UnwrapOptionalAndTagged type = (core, S nesting) → is_state core && IsNullable core = false.
Proof.
  revert core nesting. induction type using TLogicalType_induction; cbn [UnwrapOptionalAndTagged]; intros core nesting Ht; try done.
  - intros E. apply throughout_root in Ht. cbn [state_unboxed] in Ht. destruct (UnwrapOptionalAndTagged type) as [core' n']. by injection E as <- _.
  - intros E. eapply IHtype; [|exact E]. eapply throughout_child; [done|by left].
Qed.

Lemma tagged_any type : throughout any_inside type → UnwrapOptionalAndTagged type = (SimpleType SimpleAny, 0%nat) → type = SimpleType SimpleAny.
Proof.
  induction type using TLogicalType_induction; cbn [UnwrapOptionalAndTagged]; intros Ht; try congruence; [by destruct (UnwrapOptionalAndTagged type)|]. intros E. pose proof (throughout_root _ _ Ht) as Hroot. exfalso. apply Hroot.
  cbn [children]. rewrite IHtype; [by left| |done]. eapply throughout_child; [done|by left].
Qed.

(** ** Values taken over *)

Section Absorbs.
Context (validate_json : list byte → bool).
#[local] Abbreviation Conforms := (Conforms validate_json).

Lemma simple_sound oldElement newElement n : CheckTypeCompatibilitySimple oldElement newElement = Ok FullyCompatible → newElement ≠ SimpleAny → Conforms (SimpleType oldElement) n → Conforms (SimpleType newElement) n.
Proof.
  intros E Hany Hn. destruct (decide (oldElement = newElement)) as [-> |Hne]; [done|]. unfold CheckTypeCompatibilitySimple in E. rewrite bool_decide_eq_false_2 in E by done.
  inversion Hn as [v Hv|? v Hs| | | | | | | | | | | |]; subst; [by destruct newElement|]. constructor.
  destruct oldElement, newElement; try discriminate E; try done; destruct v; cbn [SimpleConforms GetPhysicalType] in Hs |- *; try (destruct Hs; discriminate); try discriminate; try done.
  all: try (split; [done|]; destruct Hs as [_ [?|Hr]]; [discriminate|]; first [by left|right; unfold ranges in *; cbn [GetLogicalTypeMin GetLogicalTypeMax] in *; unfold max_s, max_u in *; lia]).
Qed.

Lemma core_any newType : newType = SimpleType SimpleAny ∨ newType ≠ SimpleType SimpleAny.
Proof. destruct newType as [s| | | | | | | | | |]; try by right. destruct (decide (s = SimpleAny)) as [-> |]; [by left|right; congruence]. Qed.

(** Every value of the old core is one of the new core; nulls may become those of the optional around Any. *)
Definition takes_over (oldCore newCore : TLogicalType) : Prop := ∀ m, Conforms oldCore m → Conforms newCore m ∨ newCore = SimpleType SimpleAny ∧ m = Node None VEntity.

Lemma core_sound oldCore newCore : (newCore ≠ SimpleType SimpleAny → ∀ n, Conforms oldCore n → Conforms newCore n) →
  takes_over oldCore newCore.
Proof.
  intros Hsound m Hm. destruct (core_any newCore) as [-> |Hne]; [|left; by apply Hsound]. apply Conforms_plain in Hm. destruct m as [[attributes|] v]; [done|]. destruct v; try (left; by constructor). by right.
Qed.

(** The nullable types that are not wrapped: nulls and states. *)
Lemma bare_null type n : is_wrapped type = false → is_state type && IsNullable type = false → IsNullable type = true → Conforms type n → n = Node None VEntity.
Proof.
  destruct type as [s| | | | | | | | | |]; cbn [is_wrapped is_state andb IsNullable]; try done; [|congruence]. intros _ _ En%bool_decide_eq_true. inversion 1 as [v Hv|? v Hs| | | | | | | | | | | |]; subst; [done|]. destruct v; cbn [SimpleConforms] in Hs; try done; first [congruence|destruct Hs; congruence].
Qed.

Lemma state_ok_element type : throughout state_ok type → throughout state_ok (state_element type).
Proof. destruct type; try done. intros Ht. eapply throughout_child; [done|by left]. Qed.

Lemma state_conforms type n : Conforms type n ↔ Conforms (state_element type) n.
Proof. destruct type; try done. split; [by inversion 1|by constructor]. Qed.

Lemma state_core type core nesting : state_ok type → is_state type = true → UnwrapOptionalAndTagged (state_element type) = (core, nesting) → is_state core = false.
Proof. destruct type as [| | | | | | | | | |function argument element]; try done. intros (parent & -> & s & -> & _) _. cbn [state_element]. destruct function; cbn; by intros [= <- _] || by destruct s; intros [= <- _]. Qed.

Lemma layers_compose nesting core inner k n : (∀ m, Conforms core m ↔ Layers validate_json k inner m) → IsNullable core = Nat.ltb 0 k || IsNullable inner →
  Layers validate_json nesting core n ↔ Layers validate_json (nesting + k) inner n.
Proof.
  intros Hcore Hnull. revert n. induction nesting as [|nesting IH]; intros n; [apply Hcore|]. cbn [Layers Nat.add].
  replace (Nat.ltb 0 (nesting + k) || IsNullable inner) with (Nat.ltb 0 nesting || IsNullable core) by (rewrite Hnull; by destruct nesting, k).
  destruct (Nat.ltb 0 nesting || IsNullable core); [|by rewrite IH]. split; (intros [?|(m & -> & Hm)]; [by left|right; exists m; split; [done|by apply IH]]).
Qed.

(** What the old type is compared by: its core, or that of the element of its state. *)
Lemma old_core oldType newState core nesting : throughout state_ok oldType →
  (let '(oldElement, oldNesting) := UnwrapOptionalAndTagged oldType in
   if is_state oldElement && negb newState then let '(aggregateElement, aggregateNesting) := UnwrapOptionalAndTagged (state_element oldElement) in (aggregateElement, (oldNesting + aggregateNesting)%nat) else (oldElement, oldNesting)) = (core, nesting) →
  is_wrapped core = false ∧ throughout state_ok core ∧ is_state core && negb newState = false ∧ (is_optional oldType = true → (0 < nesting)%nat) ∧ ∀ n, Conforms oldType n ↔ Layers validate_json nesting core n.
Proof.
  intros Hok. destruct (UnwrapOptionalAndTagged oldType) as [oldElement oldNesting] eqn:E. pose proof (unwrap_throughout _ _ _ _ E Hok) as Hcore.
  assert (is_optional oldType = true → (0 < oldNesting)%nat) as Hopt by (destruct oldType; try done; cbn [UnwrapOptionalAndTagged] in E; destruct (UnwrapOptionalAndTagged oldType); injection E as <- <-; lia).
  destruct (is_state oldElement && negb newState) eqn:Es.
  2: { intros [= <- <-]. split_and!; [by eapply unwrap_bare|done|done|done|]. intros n. by apply unwrap_conforms. }
  apply andb_prop in Es as [Es En]. destruct (UnwrapOptionalAndTagged (state_element oldElement)) as [c k] eqn:Ec. intros [= <- <-]. split_and!; [by eapply unwrap_bare|by eapply unwrap_throughout, state_ok_element| | |].
  - by rewrite (state_core oldElement c k) by (done || by apply throughout_root).
  - intros ?%Hopt. lia.
  - intros n. rewrite (unwrap_conforms _ _ _ _ n E). apply layers_compose; [intros m; rewrite state_conforms; by apply unwrap_conforms|]. destruct oldElement; try done. exact (unwrap_nullable _ _ _ Ec).
Qed.

(** What a core takes over, the type around it takes over: behind as many optionals, or behind one more. *)
Lemma layers_same oldCore newType newCore nesting n : throughout target_ok newType → UnwrapOptionalAndTagged newType = (newCore, nesting) → newType ≠ SimpleType SimpleAny → takes_over oldCore newCore →
  IsNullable oldCore = IsNullable newCore ∨ newCore = SimpleType SimpleAny → Layers validate_json nesting oldCore n → Conforms newType n.
Proof.
  intros Hnew En Hany Hv Hnull Hn. apply (unwrap_conforms _ _ _ _ n En). apply (layers_mono _ oldCore newCore); [done|done| |done].
  destruct nesting; [right|left; lia]. intros ->. apply Hany. eapply tagged_any; [|exact En]. eapply throughout_impl; [|exact Hnew]. by intros t (_ & ? & _).
Qed.

Lemma layers_raise oldCore newType newCore n : throughout target_ok newType → UnwrapOptionalAndTagged newType = (newCore, 1%nat) → takes_over oldCore newCore → Conforms oldCore n → Conforms newType n.
Proof.
  intros Hnew En Hv Hn. apply (unwrap_conforms _ _ _ _ n En). cbn [Layers Nat.ltb Nat.leb orb].
  assert (is_state newCore && IsNullable newCore = false) as Hs by (apply (wrapped_unboxed newType newCore 0); [|done]; apply (throughout_impl target_ok); [|done]; unfold target_ok; tauto).
  destruct (Hv n Hn) as [Hn'|[_ ->]]; [|by left]. destruct (IsNullable newCore) eqn:Enull; [left; apply (bare_null newCore); [by eapply unwrap_bare|by rewrite Enull|done..]|by right].
Qed.

Lemma target_child newType c : throughout target_ok newType → c ∈ children newType → is_optional newType = false → throughout target_ok c ∧ c ≠ SimpleType SimpleAny.
Proof.
  intros Ht Hc Ho. split; [by eapply throughout_child|]. intros ->. apply throughout_root in Ht as (_ & Ha & _). by destruct newType.
Qed.

Lemma children_ok (P : TLogicalType → Prop) root : throughout P root → Forall (throughout P) (children root).
Proof. intros HP. apply list.Forall_forall. intros c Hc. by eapply throughout_child. Qed.

Lemma targets_ok newType : throughout target_ok newType → is_optional newType = false → Forall (λ t, throughout target_ok t ∧ t ≠ SimpleType SimpleAny) (children newType).
Proof. intros Ht Ho. apply list.Forall_forall. intros c Hc. by apply (target_child newType). Qed.

Lemma field_children (P : TLogicalType → Prop) (fields : list (TStructField TLogicalType)) : Forall P (map FieldType fields) → Forall (λ x, P (FieldType x)) fields.
Proof. intros HP. apply list.Forall_forall. intros field Hf. rewrite list.Forall_forall in HP. apply HP, list_elem_of_fmap. by exists field. Qed.

(** The new type takes every value of the old one and may be missing where the old one may be. *)
Definition absorbs (newType oldType : TLogicalType) : Prop := throughout target_ok newType → newType ≠ SimpleType SimpleAny →
  (∀ n, Conforms oldType n → Conforms newType n) ∧ (is_optional oldType = true → IsNullable newType = true).

Lemma absorbs_values newType oldType n : absorbs newType oldType → throughout target_ok newType ∧ newType ≠ SimpleType SimpleAny → Conforms oldType n → Conforms newType n.
Proof. intros Habs [Ht Hany]. by apply (proj1 (Habs Ht Hany)). Qed.

Lemma absorbs_bare newType oldType : is_optional oldType = false → (throughout target_ok newType → newType ≠ SimpleType SimpleAny → ∀ n, Conforms oldType n → Conforms newType n) → absorbs newType oldType.
Proof. intros Ho Hv Ht Hany. split; [by apply Hv|by rewrite Ho]. Qed.

Lemma absorbs_items {A} (f : A → TLogicalType) oldTypes newTypes items : Forall2 (λ o n, absorbs (f n) (f o)) oldTypes newTypes → Forall (λ x, throughout target_ok (f x) ∧ f x ≠ SimpleType SimpleAny) newTypes →
  Forall2 (λ x n, Conforms (f x) n) oldTypes items → Forall2 (λ x n, Conforms (f x) n) newTypes items.
Proof.
  intros Habs. revert items. induction Habs as [|o n oldTypes newTypes Ha _ IH]; intros items Hn; inversion 1; subst; [constructor|]. apply list.Forall_cons in Hn as [Hn Hns]. constructor; [by apply (absorbs_values (f n) (f o))|by apply IH].
Qed.

Lemma absorbs_list newElement oldElement : absorbs newElement oldElement → absorbs (ListType newElement) (ListType oldElement).
Proof.
  intros Habs. apply absorbs_bare; [done|]. intros Ht _ n. inversion 1 as [| | | | | |? items Hitems| | | | | | |]; subst. constructor. eapply list.Forall_impl; [done|]. intros m. apply absorbs_values; [done|]. apply (target_child _ _ Ht); [by left|done].
Qed.

Lemma absorbs_dict newKey newValue oldKey oldValue : absorbs newKey oldKey → absorbs newValue oldValue → absorbs (DictType newKey newValue) (DictType oldKey oldValue).
Proof.
  intros Hk Hv. apply absorbs_bare; [done|]. intros Ht _ n. inversion 1 as [| | | | | | | | | | |? ? items Hitems| |]; subst. constructor. eapply list.Forall_impl; [done|]. intros m (k & v & -> & Hck & Hcv). exists k, v.
  split_and!; [done|eapply absorbs_values; [exact Hk|apply (target_child _ _ Ht); [by left|done]|done]|eapply absorbs_values; [exact Hv|apply (target_child _ _ Ht); [by right; left|done]|done]].
Qed.

Lemma absorbs_tuple newElements oldElements : Forall2 (λ o n, absorbs n o) oldElements newElements → absorbs (TupleType newElements) (TupleType oldElements).
Proof.
  intros Habs. apply absorbs_bare; [done|]. intros Ht _ n. inversion 1 as [| | | | | | | |? items Hitems| | | | |]; subst. constructor. apply (absorbs_items (λ x, x) oldElements newElements); [done|exact (targets_ok _ Ht eq_refl)|done].
Qed.

Lemma absorbs_variant_tuple retained added oldElements : Forall2 (λ o n, absorbs n o) oldElements retained → absorbs (VariantTupleType (retained ++ added)) (VariantTupleType oldElements).
Proof.
  intros Habs. apply absorbs_bare; [done|]. intros Ht _ n. pose proof (targets_ok _ Ht eq_refl) as Hn. inversion 1 as [| | | | | | | | | |? index element m Hi Hf Hm| | |]; subst. destruct (Forall2_lookup_l _ _ _ _ _ Habs Hf) as (element' & Hf' & Ha).
  apply (conforms_variant_tuple _ _ _ element'); [done|by apply lookup_app_l_Some|]. rewrite list.Forall_forall in Hn. apply (absorbs_values _ element); [done| |done]. apply Hn. cbn [children]. apply elem_of_app. left. by eapply list_elem_of_lookup_2.
Qed.

Lemma absorbs_variant_struct retained added oldFields : Forall2 (λ o n, absorbs (FieldType n) (FieldType o)) oldFields retained → absorbs (VariantStructType (retained ++ added)) (VariantStructType oldFields).
Proof.
  intros Habs. apply absorbs_bare; [done|]. intros Ht _ n. pose proof (field_children _ _ (targets_ok _ Ht eq_refl)) as Hn. inversion 1 as [| | | | | | | | |? index field m Hi Hf Hm| | | |]; subst. destruct (Forall2_lookup_l _ _ _ _ _ Habs Hf) as (field' & Hf' & Ha).
  apply (conforms_variant_struct _ _ _ field'); [done|by apply lookup_app_l_Some|]. rewrite list.Forall_forall in Hn. apply (absorbs_values _ (FieldType field)); [done| |done]. apply Hn, elem_of_app. left. by eapply list_elem_of_lookup_2.
Qed.

(** Fields that are missing or new are null. *)
Lemma absorbs_struct retained added newRemoved oldFields oldRemoved : Forall2 (λ o n, absorbs (FieldType n) (FieldType o)) oldFields retained → Forall (λ field, IsNullable (FieldType field) = true) added →
  absorbs (StructType (retained ++ added) newRemoved) (StructType oldFields oldRemoved).
Proof.
  intros Habs Hadded. apply absorbs_bare; [done|]. intros Ht _ n. pose proof (field_children _ _ (targets_ok _ Ht eq_refl)) as Hn. apply throughout_root in Ht as (_ & _ & Hfields & _). cbn [fields_optional] in Hfields. inversion 1 as [| | | | | | |present absent ? items Hp Ha| | | | | |]; subst.
  apply Forall2_app_inv_l in Habs as (r1 & r2 & Hc1 & Hc2 & ->). rewrite <- app_assoc in *. apply list.Forall_app in Hn as [Hn1 Hn2]. apply list.Forall_app in Hfields as [_ Hfields]. apply conforms_struct; [by apply (absorbs_items FieldType present r1)|].
  apply list.Forall_app in Hfields as [Hf2 Hf3]. apply list.Forall_app in Hn2 as [Hn2 _]. apply list.Forall_app. split.
  - clear - Hc2 Hn2 Hf2 Ha. induction Hc2 as [|o n absent r2 Hc _ IH2]; [constructor|]. apply list.Forall_cons in Ha as [Ha Has]. apply list.Forall_cons in Hn2 as [[Hn Hany] Hns]. apply list.Forall_cons in Hf2 as [Hf Hfs].
    constructor; [|by apply IH2]. apply Hf. by apply (Hc Hn Hany).
  - apply list.Forall_forall. intros field Hin. rewrite list.Forall_forall in Hadded. rewrite list.Forall_forall in Hf3. apply Hf3; [done|]. by apply Hadded.
Qed.

End Absorbs.

(** ** The check is sound *)

Section Sound.
Context `{NamesOrderLaws} (options : TTypeCompatibilityOptions) (Hremoval : AllowStructFieldRemoval options = false) (validate_json : list byte → bool).
#[local] Abbreviation Conforms := (Conforms validate_json).
#[local] Abbreviation Check := (CheckTypeCompatibilityImpl options).
#[local] Abbreviation absorbs := (absorbs validate_json).

Definition sound_at (check : TLogicalType → TLogicalType → Result ESchemaCompatibility) : Prop := ∀ oldType newType, throughout state_ok oldType → check oldType newType = Ok FullyCompatible → absorbs newType oldType.

Lemma bare_nullable fuel oldCore newCore : is_wrapped oldCore = false → is_wrapped newCore = false → state_ok oldCore → state_ok newCore → is_state oldCore && negb (is_state newCore) = false →
  Check fuel oldCore newCore = Ok FullyCompatible → IsNullable oldCore = IsNullable newCore ∨ newCore = SimpleType SimpleAny.
Proof.
  intros Ho Hn So Sn Hs. destruct fuel as [|fuel]; [done|]. cbn [CheckTypeCompatibilityImpl]. rewrite Ho, Hn. cbn [orb].
  destruct oldCore as [o| | | | | | | | | |oldFunction oldArgument oldElement], newCore as [n| | | | | | | | | |newFunction newArgument newElement]; try done; cbn [CheckBareTypes]; try (by intros _; left).
  - destruct (decide (n = SimpleAny)) as [-> |Hne]; [by right|]. unfold CheckTypeCompatibilitySimple. rewrite bool_decide_eq_false_2 by done. intros E. left. cbn [IsNullable]. destruct o, n; try discriminate E; done.
  - case_bool_decide as Ef; [|done]. subst newFunction. intros _. left. cbn [IsNullable]. rewrite (state_nullable _ _ _ So). by rewrite (state_nullable _ _ _ Sn).
Qed.

Lemma wrapped_sound fuel oldType newType : sound_at (Check fuel) → throughout state_ok oldType → CheckWrappedTypes (Check fuel) oldType newType = Ok FullyCompatible → absorbs newType oldType.
Proof.
  intros IH Hold E Hnew Hany. revert E. unfold CheckWrappedTypes. destruct (UnwrapOptionalAndTagged newType) as [newCore newNesting] eqn:En. pose proof (old_core validate_json oldType (is_state newCore)) as Hcore.
  destruct (UnwrapOptionalAndTagged oldType) as [oldElement oldNesting']. destruct (if is_state oldElement && negb (is_state newCore) then _ else _) as [oldCore oldNesting] eqn:Eo.
  destruct (Hcore oldCore oldNesting Hold eq_refl) as (Hbare & Hok & Hstate & Hopt & Hvalues). clear Hcore Eo oldElement oldNesting'.
  pose proof (unwrap_bare _ _ _ En) as Hbare'. pose proof (unwrap_throughout _ _ _ _ En Hnew) as Hok'. rewrite (unwrap_nullable _ _ _ En). 
  assert (∀ r, r = Check fuel oldCore newCore → r = Ok FullyCompatible → takes_over validate_json oldCore newCore ∧ (IsNullable oldCore = IsNullable newCore ∨ newCore = SimpleType SimpleAny)) as Hfull.
  { intros r -> E. split; [apply core_sound; intros Hcore; by apply (IH oldCore newCore)|]. eapply bare_nullable; try done; [by apply throughout_root|]. apply throughout_root in Hok' as [? _]. done. }
  destruct (Nat.eqb_spec oldNesting newNesting) as [-> |Hne]; cbn [orb].
  - intros E. destruct (Hfull _ eq_refl E) as [Hv Hnull]. split.
    + intros n Hn. apply (layers_same _ oldCore newType newCore newNesting); try done. by apply Hvalues.
    + intros ?%Hopt. destruct newNesting; [lia|done].
  - destruct (Nat.eqb_spec oldNesting 0) as [-> |Hpos]; cbn [andb].
    + destruct (Nat.eqb_spec newNesting 1) as [-> |Hone]; cbn [andb]; [|done]. intros E. destruct (Hfull _ eq_refl E) as [Hv Hnull]. split; [|intros ?%Hopt; lia].
      intros n Hn. apply (layers_raise _ oldCore newType newCore); try done. by apply Hvalues in Hn.
    + destruct (Nat.eqb oldNesting 1 && Nat.eqb newNesting 0); [|done]. destruct (Check fuel oldCore newCore) as [c| | |]; try done. run_bind. by intros [= [_ ?]%min_full].
Qed.

Lemma forall2_sound {A} (f : A → TLogicalType) check oldTypes newTypes : sound_at check → Forall (λ x, throughout state_ok (f x)) oldTypes →
  Forall2 (λ o n, check (f o) (f n) = Ok FullyCompatible) oldTypes newTypes → Forall2 (λ o n, absorbs (f n) (f o)) oldTypes newTypes.
Proof.
  intros IH Ho Hc. induction Hc as [|o n oldTypes newTypes Hc _ IHc]; [constructor|]. apply list.Forall_cons in Ho as [Ho Hos]. constructor; [by apply IH|by apply IHc].
Qed.

Lemma bare_sound check oldType newType : sound_at check → is_wrapped oldType = false → is_wrapped newType = false → throughout state_ok oldType → CheckBareTypes options check oldType newType = Ok FullyCompatible → absorbs newType oldType.
Proof.
  intros IH Ho Hn Hold E. destruct (is_state oldType && negb (is_state newType)) eqn:Es.
  { apply andb_prop in Es as [Eo En]. destruct oldType as [| | | | | | | | | |function argument element]; try done. apply absorbs_bare; [done|]. intros Ht Hany n. inversion 1; subst. assert (absorbs newType element) as Habs; [|by apply (proj1 (Habs Ht Hany))].
    apply IH; [eapply throughout_child; [exact Hold|by left]|by destruct newType]. }
  pose proof (children_ok _ _ Hold) as Hchildren.
  destruct oldType as [o|p s|e|e|oldFields oldRemoved|oldElements|oldFields|oldElements|key value|tag e|function argument element], newType as [o'|p' s'|e'|e'|newFields newRemoved|newElements|newFields|newElements|key' value'|tag' e'|function' argument' element'];
    try discriminate; cbn [CheckBareTypes] in E; cbn [children] in Hchildren; rewrite ?list.Forall_cons in Hchildren.
  - apply absorbs_bare; [done|]. intros _ Hany n. apply (simple_sound _ o o'); [done|congruence].
  - unfold CheckDecimalTypeCompatibility in E. cbn [type_equal] in E. destruct ((p =? p') && (s =? s')) eqn:Eq; [|done]. apply andb_prop in Eq as [->%Z.eqb_eq ->%Z.eqb_eq]. by apply absorbs_bare.
  - apply absorbs_list. apply IH; [exact (proj1 Hchildren)|done].
  - apply (check_fields_full options Hremoval) in E as (retained & added & -> & Hc & Hadded). apply absorbs_struct; [|by apply Hadded]. apply (forall2_sound FieldType check); [done|by apply field_children|done].
  - apply check_elements_full in E as (prefix & rest & -> & Hc & Hrest). rewrite Hrest, app_nil_r by done. apply absorbs_tuple. by apply (forall2_sound (λ x, x) check).
  - apply (check_fields_full options Hremoval) in E as (retained & added & -> & Hc & _). apply absorbs_variant_struct. apply (forall2_sound FieldType check); [done|by apply field_children|done].
  - apply check_elements_full in E as (prefix & rest & -> & Hc & _). apply absorbs_variant_tuple. by apply (forall2_sound (λ x, x) check).
  - unfold CheckDictTypeCompatibility in E. destruct (check key key') as [c1| | |] eqn:E1; try done. run_bind in E. case_bool_decide as Ec; [by subst c1|]. destruct (check value value') as [c2| | |] eqn:E2; try done. run_bind in E. injection E as Em. apply min_full in Em as [-> ->].
    destruct Hchildren as (Hk & Hv & _). apply absorbs_dict; by apply IH.
  - case_bool_decide as Ef; [|done]. cbn [negb] in E. destruct (check element element') as [c| | |] eqn:Ec; try done. run_bind in E. case_bool_decide as Efull; [done|]. injection E as ->. apply absorbs_bare; [done|]. intros Ht _ n. inversion 1; subst. constructor.
    eapply absorbs_values; [apply IH; [exact (proj1 Hchildren)|exact Ec]|apply (target_child _ _ Ht); [by left|done]|done].
Qed.

Lemma check_sound fuel : sound_at (Check fuel).
Proof.
  induction fuel as [|fuel IH]; [done|]. intros oldType newType Hold. cbn [CheckTypeCompatibilityImpl]. destruct (is_wrapped oldType || is_wrapped newType) eqn:Ew; [by apply wrapped_sound|]. apply orb_false_iff in Ew as [Eo En]. by apply bare_sound.
Qed.
End Sound.

(** ** Validated types are always compared *)

Definition valid (type : TLogicalType) : Prop := ∃ parent, node_ok parent type.

Lemma WellFormed_valid depthLimit type : WellFormed depthLimit type → throughout valid type.
Proof. intros Hwf stack t Ho. destruct (Hwf stack t Ho) as [Hn _]. by exists (head stack). Qed.

Lemma valid_state type : valid type → state_ok type.
Proof. by destruct type. Qed.

Lemma WellFormed_any depthLimit type : WellFormed depthLimit type → throughout any_inside type ∧ type ≠ SimpleType SimpleAny.
Proof.
  intros Hwf. split.
  - intros stack t Ho. assert ((SimpleType SimpleAny ∈ children t) → is_optional t = true) as Ha; [|destruct t; cbn [any_inside]; try (intros Hin; by specialize (Ha Hin)); done].
    intros Hin. destruct (Hwf (t :: stack) (SimpleType SimpleAny)) as [Hn _]; [by apply occurs_child|]. destruct (Hn eq_refl) as (e & [= ->]). done.
  - intros ->. destruct (Hwf [] (SimpleType SimpleAny)) as [Hn _]; [constructor|]. by destruct (Hn eq_refl).
Qed.

Lemma emplace_fields_ok M k fields : NoDup (map StableName fields) → (∀ field, field ∈ fields → M !! StableName field = None) → ∃ M', emplace_fields M k fields = Ok M'.
Proof.
  revert M k. induction fields as [|field fields IH]; intros M k Hnd HM; cbn [emplace_fields]; [by eexists|]. cbn [map] in Hnd. apply list.NoDup_cons in Hnd as [Hnot Hnd]. unfold EmplaceOrCrash. rewrite HM by (by left). run_bind. apply IH; [done|].
  intros f Hf. rewrite lookup_insert_ne; [apply HM; by right|]. intros E. apply Hnot. rewrite E. apply list_elem_of_fmap. by exists f.
Qed.

Lemma emplace_removed_ok M removed : NoDup removed → (∀ name, name ∈ removed → M !! name = None) → ∃ M', emplace_removed M removed = Ok M'.
Proof.
  revert M. induction removed as [|name removed IH]; intros M Hnd HM; cbn [emplace_removed]; [by eexists|]. apply list.NoDup_cons in Hnd as [Hnot Hnd]. unfold EmplaceOrCrash. rewrite HM by (by left). run_bind. apply IH; [done|].
  intros n Hn. rewrite lookup_insert_ne; [apply HM; by right|]. by intros ->.
Qed.

Lemma build_ok fields removed : NoDup (map StableName fields) → NoDup removed → Forall (λ field, (StableName field ∉ removed)) fields →
  ∃ M, buildStableNameToIndexMapping fields removed = Ok M.
Proof.
  intros Hf Hr Hd. unfold buildStableNameToIndexMapping. destruct (emplace_fields_ok ∅ 0 fields Hf) as (M1 & E1); [intros; apply lookup_empty|]. rewrite E1. run_bind. apply emplace_removed_ok; [done|].
  intros name Hin. destruct (M1 !! name) as [x|] eqn:Ex; [|done]. exfalso. destruct (emplace_fields_spec _ _ _ _ E1) as (_ & _ & H3). destruct (H3 _ _ Ex) as [?|(i & field & Hi & <- & _)]; [by rewrite lookup_empty in *|].
  rewrite list.Forall_forall in Hd. apply (Hd field); [by eapply list_elem_of_lookup_2|done].
Qed.

(** The names of the fields of a valid type can be gathered. *)
Definition names_valid (fields : list (TStructField TLogicalType)) (removed : list (list byte)) : Prop := NoDup (map StableName fields) ∧ NoDup removed ∧ Forall (λ field, (StableName field ∉ removed)) fields.

Section Total.
Context `{NamesOrderLaws} (options : TTypeCompatibilityOptions).

Lemma unknown_total isStruct newFields M1 M2 entries result : indexes newFields M2 → (∀ name x, (name, x) ∈ entries → M2 !! name = Some x) → ∃ c, unknown_loop options isStruct newFields M1 entries result = Ok c.
Proof.
  intros [_ HI]. revert result. induction entries as [|[name index] entries IH]; intros result He; cbn [unknown_loop]; [by eexists|]. assert (∀ name x, (name, x) ∈ entries → M2 !! name = Some x) as He' by (intros; apply He; by right). destruct (M1 !! name); [by apply IH|].
  assert (∃ r, match index with Some newIndex => onNewField isStruct newFields newIndex result | None => Ok (onUnknownRemovedField options result) end = Ok r) as (r & ->).
  { destruct index as [j|]; [|by eexists]. destruct (HI name j) as (field & Hf & _); [apply He; by left|]. unfold onNewField. rewrite Hf. destruct (negb isStruct); [by eexists|]. destruct (IsNullable _); by eexists. }
  run_bind. case_bool_decide; [by eexists|by apply IH].
Qed.

Lemma known_total check isStruct oldFields newFields M1 M2 entries result retained : indexes oldFields M1 → indexes newFields M2 → (∀ o n, o ∈ oldFields → n ∈ newFields → ∃ c, check (FieldType o) (FieldType n) = Ok c) → (∀ name x, (name, x) ∈ entries → M1 !! name = Some x) →
  ∃ c r, known_loop options check isStruct oldFields newFields M2 entries result retained = Ok (c, r) ∧ (c ≠ Incompatible → ∀ name, (name, None) ∈ entries → ∀ j, M2 !! name ≠ Some (Some j)).
Proof.
  intros [_ HI1] [_ HI2] Hcheck. revert result retained. induction entries as [|[name index] entries IH]; intros result retained He; cbn [known_loop]; [eexists _, _; split; [done|]; by intros _ ? ?%not_elem_of_nil|].
  assert (∃ c r, known_name options check isStruct oldFields newFields M2 name index result retained = Ok (c, r) ∧ (index = None → c ≠ Incompatible → ∀ j, M2 !! name ≠ Some (Some j))) as (c & r & -> & Hname).
  { unfold known_name. destruct (M2 !! name) as [[j|]|] eqn:E2, index as [i|]; try (eexists _, _; split; [reflexivity|]; done).
    destruct (HI1 name i) as (o & Ho & _); [apply He; by left|]. destruct (HI2 name j E2) as (n & Hn & _). rewrite Ho, Hn. destruct (Hcheck o n) as (c & ->); [by eapply list_elem_of_lookup_2..|]. run_bind. eexists _, _. by split. }
  run_bind. case_bool_decide as Ec; [exists c, r; split; [done|]; by intros ?|]. destruct (IH c r) as (c' & r' & -> & Hrest); [intros; apply He; by right|]. exists c', r'. split; [done|]. intros Hc' name' [[= -> <-]|Hin]%elem_of_cons; [by apply Hname|by apply Hrest].
Qed.

Lemma order_total M1 fields last new result : (∀ field, field ∈ fields → M1 !! StableName field ≠ Some None) → ∃ c, order_check M1 fields last new result = Ok c.
Proof.
  revert last new. induction fields as [|f fields IH]; intros last new Hf; cbn [order_check]; [by eexists|]. assert (∀ field, field ∈ fields → M1 !! StableName field ≠ Some None) as Hf' by (intros; apply Hf; by right).
  destruct (M1 !! StableName f) as [[i|]|] eqn:E; [|by destruct (Hf f (list_elem_of_here _ _) E)|by apply IH]. destruct new; [by eexists|]. destruct (match last with Some l => _ | None => _ end); [by eexists|by apply IH].
Qed.

Lemma check_fields_total check isStruct oldFields oldRemoved newFields newRemoved : names_valid oldFields oldRemoved → names_valid newFields newRemoved → (∀ o n, o ∈ oldFields → n ∈ newFields → ∃ c, check (FieldType o) (FieldType n) = Ok c) →
  ∃ c, CheckFieldsCompatibility options check isStruct oldFields oldRemoved newFields newRemoved = Ok c.
Proof.
  intros (No & Ro & Do) (Nn & Rn & Dn) Hcheck. unfold CheckFieldsCompatibility. destruct (build_ok _ _ No Ro Do) as (M1 & E1). destruct (build_ok _ _ Nn Rn Dn) as (M2 & E2). rewrite E1, E2. run_bind. apply build_spec in E1 as HM1. apply build_spec in E2 as HM2.
  unfold check_fields. assert (∀ M name x, (name, x) ∈ names_order M → M !! name = Some x) as Horder by (intros M name x; rewrite names_order_perm; apply elem_of_map_to_list).
  destruct (unknown_total isStruct newFields M1 M2 (names_order M2) FullyCompatible HM2 (Horder M2)) as (u & ->). run_bind. case_bool_decide; [by eexists|].
  destruct (known_total check isStruct oldFields newFields M1 M2 (names_order M1) u false HM1 HM2 Hcheck (Horder M1)) as (k & r & -> & Hundead). run_bind. case_bool_decide as Ek; [by eexists|]. destruct (negb isStruct && negb r); [by eexists|]. destruct (_ && _); [by eexists|].
  apply order_total. intros field Hin E. destruct (list_elem_of_lookup_1 _ _ Hin) as (j & Hj). destruct HM2 as [HI _]. apply (Hundead Ek (StableName field)) with (j := j); [rewrite names_order_perm; by apply elem_of_map_to_list|by apply HI].
Qed.

Lemma elements_total check result old new : (length old <= length new)%nat → (∀ o n, o ∈ old → n ∈ new → ∃ c, check o n = Ok c) → ∃ c, elements_loop check result old new = Ok c.
Proof.
  revert result new. induction old as [|o old IH]; intros result new Hl Hc; cbn [elements_loop]; [destruct result; by eexists|]. destruct new as [|n new]; [simpl in Hl; lia|]. destruct (Hc o n) as (c & ->); [by left..|]. run_bind.
  destruct (IH (MinCompatibility result c) new) as (c' & E); [simpl in Hl; lia|intros; apply Hc; by right|]. destruct result; by eexists.
Qed.

Lemma class_total typeClass oldType newType : 0 < GetSimpleTypeRank typeClass oldType → ∃ c, CheckCompatibilityUsingClass typeClass oldType newType = Ok c.
Proof. unfold CheckCompatibilityUsingClass. intros Hr. destruct (Z.leb_spec (GetSimpleTypeRank typeClass oldType) 0); [lia|]. destruct (_ <? _); [by eexists|]. destruct (_ >=? _); by eexists. Qed.

Lemma simple_total oldElement newElement : ∃ c, CheckTypeCompatibilitySimple oldElement newElement = Ok c.
Proof. unfold CheckTypeCompatibilitySimple. case_bool_decide; [by eexists|]. destruct oldElement; first [by eexists|apply class_total; vm_compute; reflexivity]. Qed.

Lemma child_size type c : c ∈ children type → (type_size c < type_size type)%nat.
Proof.
  assert (∀ elements, c ∈ elements → (type_size c <= fold_right (λ element size, type_size element + size)%nat 0%nat elements)%nat) as Hsum.
  { induction elements as [|e elements IH]; [by intros ?%not_elem_of_nil|]. cbn [fold_right]. intros [-> |Hin]%elem_of_cons; [lia|]. specialize (IH Hin). lia. }
  assert (∀ fields, c ∈ map FieldType fields → (type_size c <= fold_right (λ field size, type_size (FieldType field) + size)%nat 0%nat fields)%nat) as Hfields.
  { induction fields as [|e fields IH]; [by intros ?%not_elem_of_nil|]. cbn [fold_right map]. intros [-> |Hin]%elem_of_cons; [lia|]. specialize (IH Hin). lia. }
  destruct type; cbn [children type_size]; rewrite ?elem_of_cons; try (intros [-> |?%not_elem_of_nil]; [lia|done]); try (by intros ?%not_elem_of_nil); try (intros Hin%Hfields; lia); try (intros Hin%Hsum; lia).
  intros [-> |[-> |?%not_elem_of_nil]]; [lia..|done].
Qed.

Lemma unwrap_size type core nesting : UnwrapOptionalAndTagged type = (core, nesting) → (type_size core + (if is_wrapped type then 1 else 0) <= type_size type)%nat.
Proof.
  revert core nesting. induction type using TLogicalType_induction; cbn [UnwrapOptionalAndTagged is_wrapped type_size]; intros core nesting; try (intros [= <- _]; cbn [type_size]; lia).
  - destruct (UnwrapOptionalAndTagged type) as [core' nesting'] eqn:E. intros [= <- _]. specialize (IHtype _ _ eq_refl). lia.
  - intros E. specialize (IHtype _ _ E). lia.
Qed.

(** Comparing two valid types inside given ones returns. *)
Definition total_below (check : TLogicalType → TLogicalType → Result ESchemaCompatibility) (oldType newType : TLogicalType) : Prop := ∀ o n, throughout valid o → throughout valid n →
  (type_size o + type_size n < type_size oldType + type_size newType)%nat → ∃ c, check o n = Ok c.

Lemma children_total check oldType newType o n : total_below check oldType newType → throughout valid oldType → throughout valid newType → o ∈ children oldType → n ∈ children newType → ∃ c, check o n = Ok c.
Proof.
  intros IH Ho Hn Hin Hin'. apply IH; [exact (throughout_child _ _ _ Ho Hin)|exact (throughout_child _ _ _ Hn Hin')|]. pose proof (child_size _ _ Hin). pose proof (child_size _ _ Hin'). lia.
Qed.

Lemma wrapped_total check oldType newType : total_below check oldType newType → throughout valid oldType → throughout valid newType → is_wrapped oldType || is_wrapped newType = true → ∃ c, CheckWrappedTypes check oldType newType = Ok c.
Proof.
  intros IH Ho Hn Hw. unfold CheckWrappedTypes. destruct (UnwrapOptionalAndTagged oldType) as [oldCore oldNesting] eqn:Eo. destruct (UnwrapOptionalAndTagged newType) as [newCore newNesting] eqn:En.
  pose proof (unwrap_size _ _ _ Eo) as So. pose proof (unwrap_size _ _ _ En) as Sn. pose proof (unwrap_throughout _ _ _ _ Eo Ho) as Vo. pose proof (unwrap_throughout _ _ _ _ En Hn) as Vn.
  assert (∀ core, throughout valid core → (type_size core <= type_size oldCore)%nat → ∃ c, check core newCore = Ok c) as Hcheck.
  { intros core Vc Sc. apply IH; [done|done|]. destruct (is_wrapped oldType), (is_wrapped newType); try done; lia. }
  assert (∀ core nesting, throughout valid core → (type_size core <= type_size oldCore)%nat → ∃ c, (if Nat.eqb nesting newNesting || Nat.eqb nesting 0 && Nat.eqb newNesting 1 then check core newCore
    else if Nat.eqb nesting 1 && Nat.eqb newNesting 0 then compatibility ← check core newCore; Ok (MinCompatibility compatibility RequireValidation) else Ok Incompatible) = Ok c) as Hstep.
  { intros core nesting Vc Sc. destruct (Hcheck core Vc Sc) as (c & ->). destruct (Nat.eqb nesting newNesting || _); [by eexists|]. destruct (Nat.eqb nesting 1 && _); [|by eexists]. run_bind. by eexists. }
  destruct (is_state oldCore && negb (is_state newCore)) eqn:Es; [|by apply Hstep]. destruct oldCore as [| | | | | | | | | |function argument element]; try done. cbn [state_element].
  destruct (UnwrapOptionalAndTagged element) as [core nesting] eqn:Ee. pose proof (unwrap_size _ _ _ Ee) as Se. apply Hstep; [|cbn [type_size]; lia]. apply (unwrap_throughout _ _ _ _ Ee). eapply throughout_child; [exact Vo|by left].
Qed.

Lemma struct_names fields removed : throughout valid (StructType fields removed) → names_valid fields removed.
Proof. intros (parent & _ & [_ Hs] & Hr & Hd)%throughout_root. by split_and!. Qed.

Lemma variant_names fields : throughout valid (VariantStructType fields) → names_valid fields [].
Proof. intros (parent & _ & [_ Hs])%throughout_root. split_and!; [done|constructor|]. apply list.Forall_forall. intros field _. apply not_elem_of_nil. Qed.

Lemma bare_total check oldType newType : total_below check oldType newType → throughout valid oldType → throughout valid newType → ∃ c, CheckBareTypes options check oldType newType = Ok c.
Proof.
  intros IH Ho Hn. pose proof (children_total check oldType newType) as Hc. specialize (λ o n, Hc o n IH Ho Hn). destruct (is_state oldType && negb (is_state newType)) eqn:Es.
  { apply andb_prop in Es as [Eo En]. destruct oldType as [| | | | | | | | | |function argument element]; try done. assert (∃ c, check element newType = Ok c) as (c & Ec) by (apply IH; [eapply throughout_child; [exact Ho|by left]|done|cbn [type_size]; lia]). destruct newType; try done; by eexists. }
  destruct oldType as [o|p s|e|e|oldFields oldRemoved|oldElements|oldFields|oldElements|key value|tag e|function argument element], newType as [o'|p' s'|e'|e'|newFields newRemoved|newElements|newFields|newElements|key' value'|tag' e'|function' argument' element'];
    try discriminate; cbn [CheckBareTypes]; try (by eexists); cbn [children] in Hc.
  - apply simple_total.
  - apply Hc; by left.
  - apply check_fields_total; [by apply struct_names..|]. intros o n Hin Hin'. apply Hc; apply list_elem_of_fmap; by eexists.
  - unfold CheckElementsCompatibility. destruct (Nat.ltb_spec (length newElements) (length oldElements)); [by eexists|]. destruct (negb _ && negb _); [by eexists|]. by apply elements_total.
  - apply check_fields_total; [by apply variant_names..|]. intros o n Hin Hin'. apply Hc; apply list_elem_of_fmap; by eexists.
  - unfold CheckElementsCompatibility. destruct (Nat.ltb_spec (length newElements) (length oldElements)); [by eexists|]. destruct (negb _ && negb _); [by eexists|]. by apply elements_total.
  - unfold CheckDictTypeCompatibility. destruct (Hc key key') as (c & ->); [by left..|]. run_bind. case_bool_decide; [by eexists|]. destruct (Hc value value') as (c' & ->); [by right; left..|]. run_bind. by eexists.
  - case_bool_decide; cbn [negb]; [|by eexists]. destruct (Hc element element') as (c & ->); [by left..|]. run_bind. case_bool_decide; by eexists.
Qed.

Lemma check_total fuel oldType newType : throughout valid oldType → throughout valid newType → (type_size oldType + type_size newType < fuel)%nat → ∃ c, CheckTypeCompatibilityImpl options fuel oldType newType = Ok c.
Proof.
  revert oldType newType. induction fuel as [|fuel IH]; intros oldType newType Ho Hn Hf; [lia|]. cbn [CheckTypeCompatibilityImpl].
  assert (total_below (CheckTypeCompatibilityImpl options fuel) oldType newType) as Hbelow by (intros o n Vo Vn Hs; apply IH; [done|done|lia]).
  destruct (is_wrapped oldType || is_wrapped newType) eqn:Ew; [by apply wrapped_total|by apply bare_total].
Qed.

(** *** Types that are compatible *)

Section Extended.
Context (check : TLogicalType → TLogicalType → Result ESchemaCompatibility) (isStruct : bool) (oldFields retained added : list (TStructField TLogicalType)) (M1 M2 : stable_names).
Context (HM1 : indexes oldFields M1) (HM2 : indexes (retained ++ added) M2) (Hkept : ∀ name x, M1 !! name = Some x → M2 !! name = Some x) (Hremoved : ∀ name, M2 !! name = Some None → M1 !! name = Some None).
Context (Hadded : ∀ f, f ∈ added → M1 !! StableName f = None) (Hnullable : isStruct = true → Forall (λ f, IsNullable (FieldType f) = true) added).
Context (Hfull : Forall2 (λ o n, Name o = Name n ∧ StableName o = StableName n ∧ check (FieldType o) (FieldType n) = Ok FullyCompatible) oldFields retained).

Lemma unknown_extended entries : (∀ name x, (name, x) ∈ entries → M2 !! name = Some x) → unknown_loop options isStruct (retained ++ added) M1 entries FullyCompatible = Ok FullyCompatible.
Proof.
  induction entries as [|[name index] entries IH]; intros He; cbn [unknown_loop]; [done|]. assert (∀ name x, (name, x) ∈ entries → M2 !! name = Some x) as He' by (intros; apply He; by right). pose proof (He name index ltac:(by left)) as E2. destruct (M1 !! name) as [x|] eqn:E1; [by apply IH|].
  destruct index as [j|]; [|apply Hremoved in E2; congruence]. destruct HM2 as [_ HI2]. destruct (HI2 _ _ E2) as (f & Hf & <-). unfold onNewField. rewrite Hf. apply lookup_app_Some in Hf as [Hf|[_ Hf]].
  - destruct (Forall2_lookup_r _ _ _ _ _ Hfull Hf) as (o & Ho & _ & Hs & _). destruct HM1 as [HI1 _]. rewrite <- Hs, (HI1 _ _ Ho) in E1. done.
  - assert (negb isStruct = true ∨ IsNullable (FieldType f) = true) as Hn by (destruct isStruct; [right; specialize (Hnullable eq_refl); rewrite list.Forall_forall in Hnullable; apply Hnullable; by eapply list_elem_of_lookup_2|by left]).
    destruct (negb isStruct); [|destruct Hn as [?| ->]; [done|]]; run_bind; (rewrite bool_decide_eq_false_2 by done); by apply IH.
Qed.

Lemma known_extended entries met : (∀ name x, (name, x) ∈ entries → M1 !! name = Some x) →
  ∃ r, known_loop options check isStruct oldFields (retained ++ added) M2 entries FullyCompatible met = Ok (FullyCompatible, r) ∧ (met = true ∨ (∃ name i, (name, Some i) ∈ entries) → r = true).
Proof.
  revert met. induction entries as [|[name index] entries IH]; intros met He; cbn [known_loop]; [exists met; split; [done|]; by intros [?|(? & ? & ?%not_elem_of_nil)]|].
  assert (∀ name x, (name, x) ∈ entries → M1 !! name = Some x) as He' by (intros; apply He; by right). pose proof (He name index ltac:(by left)) as E1. unfold known_name at 1. rewrite (Hkept _ _ E1). destruct index as [i|].
  - destruct HM1 as [_ HI1]. destruct (HI1 _ _ E1) as (o & Ho & _). destruct (Forall2_lookup_l _ _ _ _ _ Hfull Ho) as (n & Hn & Hname & _ & Hc). rewrite Ho, (lookup_app_l_Some _ _ _ _ Hn), bool_decide_eq_false_2 by (by intros []). rewrite Hc. run_bind. rewrite bool_decide_eq_false_2 by done.
    destruct (IH true He') as (r & Er & Hr). exists r. split; [exact Er|]. intros _. apply Hr. by left.
  - run_bind. rewrite bool_decide_eq_false_2 by done. destruct (IH met He') as (r & Er & Hr). exists r. split; [exact Er|]. intros [?|(n & i & [?|Hin]%elem_of_cons)]; [apply Hr; by left|done|apply Hr; right; by exists n, i].
Qed.

Lemma order_extended rest k last result : (∀ i f, rest !! i = Some f → M1 !! StableName f = Some (Some (k + i)%nat)) → from_option (λ l, (l < k)%nat) True last → order_check M1 (rest ++ added) last false result = Ok result.
Proof.
  revert k last. induction rest as [|f rest IH]; intros k last Hf Hl; cbn [order_check app].
  - assert (∀ fields new, (∀ f, f ∈ fields → M1 !! StableName f = None) → order_check M1 fields last new result = Ok result) as Hend; [|by apply Hend]. induction fields as [|f fields IH]; intros new Hnone; cbn [order_check]; [done|]. rewrite (Hnone f) by (by left). apply IH. intros; apply Hnone; by right.
  - rewrite (Hf 0%nat f eq_refl), Nat.add_0_r. assert (match last with Some l => Nat.ltb k l | None => false end = false) as -> by (destruct last as [l|]; [apply Nat.ltb_ge; simpl in Hl; lia|done]).
    apply (IH (S k)); [|simpl; lia]. intros i g Hg. rewrite Nat.add_succ_l, <- Nat.add_succ_r. by apply (Hf (S i)).
Qed.
End Extended.

(** Fields with the same names, of fully compatible types, and new nullable fields behind them. *)
Lemma fields_extended check isStruct oldFields retained added removed : names_valid oldFields removed → names_valid (retained ++ added) removed → isStruct = true ∨ oldFields ≠ [] → (isStruct = true → Forall (λ f, IsNullable (FieldType f) = true) added) →
  Forall2 (λ o n, Name o = Name n ∧ StableName o = StableName n ∧ check (FieldType o) (FieldType n) = Ok FullyCompatible) oldFields retained → CheckFieldsCompatibility options check isStruct oldFields removed (retained ++ added) removed = Ok FullyCompatible.
Proof.
  intros (Hn & Hr & Hd) (Hn' & _ & Hd') Hne Hnullable Hfull. unfold CheckFieldsCompatibility. destruct (build_ok _ _ Hn Hr Hd) as (M1 & E1). destruct (build_ok _ _ Hn' Hr Hd') as (M2 & E2). rewrite E1, E2. run_bind.
  apply build_spec in E1 as HM1. apply build_spec in E2 as HM2. pose proof (build_removed _ _ _ E1) as R1. pose proof (build_removed _ _ _ E2) as R2. assert (∀ M name x, (name, x) ∈ names_order M → M !! name = Some x) as Horder by (intros M name x; rewrite names_order_perm; apply elem_of_map_to_list).
  assert (∀ name x, M1 !! name = Some x → M2 !! name = Some x) as Hkept.
  { intros name [i|] Hx; [|by apply R2, R1]. destruct HM1 as [_ HI1], HM2 as [HI2 _]. destruct (HI1 _ _ Hx) as (o & Ho & <-). destruct (Forall2_lookup_l _ _ _ _ _ Hfull Ho) as (n & Hnew & _ & -> & _). apply HI2. by apply lookup_app_l_Some. }
  assert (∀ f, f ∈ added → M1 !! StableName f = None) as Hadded.
  { intros f Hin. destruct (M1 !! StableName f) as [x|] eqn:Ex; [|done]. exfalso. destruct (list_elem_of_lookup_1 _ _ Hin) as (j & Hj). pose proof (Hkept _ _ Ex) as Ex2. destruct HM2 as [HI2 _]. rewrite (HI2 (length retained + j)%nat f) in Ex2 by (rewrite lookup_app_r by lia; rewrite <- Hj; f_equal; lia).
    injection Ex2 as <-. destruct HM1 as [_ HI1]. destruct (HI1 _ _ Ex) as (o & Ho & _). apply lookup_lt_Some in Ho. rewrite (list.Forall2_length _ _ _ Hfull) in Ho. lia. }
  unfold check_fields. rewrite (unknown_extended check isStruct oldFields retained added M1 M2); [|done|done|intros name ?%R2; by apply R1|done|done|apply Horder]. run_bind. rewrite bool_decide_eq_false_2 by done.
  destruct (known_extended check isStruct oldFields retained added M1 M2 HM1 Hkept Hfull (names_order M1) false (Horder M1)) as (r & -> & Hret). run_bind. rewrite bool_decide_eq_false_2 by done. destruct HM1 as [HI1 _].
  assert (negb isStruct && negb r = false) as ->.
  { destruct Hne as [-> |Hne]; [done|]. destruct oldFields as [|f fields]; [done|]. rewrite Hret; [by rewrite andb_false_r|]. right. exists (StableName f), 0%nat. rewrite names_order_perm. apply elem_of_map_to_list. by apply HI1. }
  destruct (_ && _); [done|]. apply (order_extended added M1 Hadded retained 0); [|done]. intros i f Hf. destruct (Forall2_lookup_r _ _ _ _ _ Hfull Hf) as (o & Ho & _ & <- & _). by apply HI1.
Qed.

Lemma fields_refl check isStruct fields removed : names_valid fields removed → isStruct = true ∨ fields ≠ [] → (∀ f, f ∈ fields → check (FieldType f) (FieldType f) = Ok FullyCompatible) →
  CheckFieldsCompatibility options check isStruct fields removed fields removed = Ok FullyCompatible.
Proof.
  intros Hv Hne Hc. pose proof (fields_extended check isStruct fields fields [] removed) as Hext. rewrite app_nil_r in Hext. apply Hext; [done|done|done|constructor|]. apply Forall2_same_length_lookup. split; [done|]. intros i o n Ho Hn. assert (o = n) as -> by congruence. split_and!; [done|done|]. apply Hc. by eapply list_elem_of_lookup_2.
Qed.

Lemma elements_refl check elements allow : (∀ e, e ∈ elements → check e e = Ok FullyCompatible) → CheckElementsCompatibility check elements elements allow = Ok FullyCompatible.
Proof.
  intros Hc. unfold CheckElementsCompatibility. rewrite Nat.ltb_irrefl, Nat.eqb_refl, andb_false_r. induction elements as [|e elements IH]; cbn [elements_loop]; [done|]. rewrite Hc by (by left). run_bind. apply IH. intros. apply Hc. by right.
Qed.

(** Variants have an alternative. *)
Definition inhabited_variant (type : TLogicalType) : Prop := type ≠ VariantStructType [].

Lemma simple_refl s : CheckTypeCompatibilitySimple s s = Ok FullyCompatible.
Proof. by destruct s. Qed.

Lemma check_refl fuel type : throughout valid type → throughout inhabited_variant type → (type_size type < fuel)%nat → CheckTypeCompatibilityImpl options fuel type type = Ok FullyCompatible.
Proof.
  revert type. induction fuel as [|fuel IH]; intros type Hv Hi Hf; [lia|]. cbn [CheckTypeCompatibilityImpl]. rewrite orb_diag. destruct (is_wrapped type) eqn:Ew.
  - unfold CheckWrappedTypes. destruct (UnwrapOptionalAndTagged type) as [core nesting] eqn:E. rewrite andb_negb_r, Nat.eqb_refl. cbn [orb]. apply IH; [by eapply unwrap_throughout|by eapply unwrap_throughout|]. pose proof (unwrap_size _ _ _ E) as Hs. rewrite Ew in Hs. lia.
  - assert (∀ c, c ∈ children type → CheckTypeCompatibilityImpl options fuel c c = Ok FullyCompatible) as Hc by (intros c Hin; apply IH; [exact (throughout_child _ _ _ Hv Hin)|exact (throughout_child _ _ _ Hi Hin)|pose proof (child_size _ _ Hin); lia]).
    destruct type as [s|p s|e|e|fields removed|elements|fields|elements|key value|tag e|function argument element]; try done; cbn [CheckBareTypes children] in *.
    + apply simple_refl.
    + unfold CheckDecimalTypeCompatibility. cbn [type_equal]. by rewrite !Z.eqb_refl.
    + apply Hc. by left.
    + apply fields_refl; [by apply struct_names|by left|]. intros f Hin. apply Hc, list_elem_of_fmap. by exists f.
    + by apply elements_refl.
    + apply fields_refl; [by apply variant_names| |]; [right; intros ->; by apply (throughout_root _ _ Hi)|]. intros f Hin. apply Hc, list_elem_of_fmap. by exists f.
    + by apply elements_refl.
    + unfold CheckDictTypeCompatibility. rewrite (Hc key) by (by left). run_bind. rewrite bool_decide_eq_false_2 by done. rewrite (Hc value) by (by right; left). done.
    + rewrite bool_decide_eq_true_2 by done. cbn [negb]. rewrite (Hc element) by (by left). done.
Qed.
End Total.

(** ** Theorems *)

(** C16. Two validated types are always compared: no error and no abort, in whatever order the maps of names are
    visited. A type in which no variant with names is empty is fully compatible with itself. When the check finds the
    new type fully compatible with the old one, every value of the old type is a value of the new one, so that data
    written under the old schema need not be looked at again: integers, floating-point numbers and strings go over
    to wider ones, types to optional ones, variants gain alternatives at the end, structs gain nullable fields at the
    end, aggregate states are read as their elements. This holds when the removal of fields is not allowed and the new
    type has no struct field that is nullable without being an optional itself and no optional of an aggregate state
    that may be null; [empty_variant_incompatible], [new_field_missing] and [optional_state_boxed] show that the code
    fails without these restrictions. *)
Theorem CheckTypeCompatibility_sound `{NamesOrderLaws} options validate_json oldType newType :
  LogicalType.ValidateLogicalType None oldType = Ok () → LogicalType.ValidateLogicalType None newType = Ok () →
  (∃ compatibility, CheckTypeCompatibility options oldType newType = Ok compatibility) ∧
  (throughout inhabited_variant oldType → CheckTypeCompatibility options oldType oldType = Ok FullyCompatible) ∧
  (AllowStructFieldRemoval options = false → throughout fields_optional newType → throughout state_unboxed newType →
   CheckTypeCompatibility options oldType newType = Ok FullyCompatible → ∀ n, Conforms validate_json oldType n → Conforms validate_json newType n).
Proof.
  intros Ho%(decides_ok _ _ _ (ValidateLogicalType_decides _ _)) Hn%(decides_ok _ _ _ (ValidateLogicalType_decides _ _)). pose proof (WellFormed_valid _ _ Ho) as Vo. pose proof (WellFormed_valid _ _ Hn) as Vn. unfold CheckTypeCompatibility. split_and!.
  - apply check_total; [done|done|lia].
  - intros Hi. apply check_refl; [done|done|lia].
  - intros Hremoval Hfields Hstates E n. destruct (WellFormed_any _ _ Hn) as [Hany Hne]. apply (check_sound options Hremoval validate_json (S (type_size oldType + type_size newType)) oldType newType); [|done| |done].
    + by apply (throughout_impl valid); [apply valid_state|].
    + intros stack t Ht. split_and!; [by apply valid_state, (Vn stack)|by apply (Hany stack)|by apply (Hfields stack)|by apply (Hstates stack)].
Qed.

#[local] Instance lexical_order : NamesOrder := map_to_list.
#[local] Instance lexical_order_laws : NamesOrderLaws.
Proof. by intros names. Qed.

Definition strict_options : TTypeCompatibilityOptions := {| AllowStructFieldRenaming := false; AllowStructFieldRemoval := false; IgnoreUnknownRemovedFieldNames := false |}.

Lemma CheckTypeCompatibility_sound_witness (oldType := StructType [Build_TStructField (B"a") (B"a") (SimpleType SimpleInt8)] [])
  (newType := StructType [Build_TStructField (B"a") (B"a") (OptionalType (SimpleType SimpleInt64)); Build_TStructField (B"b") (B"b") (OptionalType (SimpleType SimpleString))] []) :
  CheckTypeCompatibility strict_options oldType newType = Ok FullyCompatible ∧ CheckTypeCompatibility strict_options oldType oldType = Ok FullyCompatible ∧
  Conforms (λ _, true) newType (Node None (VList [Node None (VInt64 5)])).
Proof.
  destruct (CheckTypeCompatibility_sound strict_options (λ _, true) oldType newType) as (_ & Hrefl & Hsound); [vm_compute; reflexivity..|]. split_and!.
  - vm_compute. reflexivity.
  - apply Hrefl. repeat (apply throughout_intro; [discriminate|]; intros ? ?%list_elem_of_In; cbn in *; destruct_or?; subst; try done).
  - assert (∀ s, throughout fields_optional (SimpleType s) ∧ throughout state_unboxed (SimpleType s)) as Hs by (intros s; split; apply throughout_intro; try done; by intros ? ?%not_elem_of_nil).
    assert (∀ s, throughout fields_optional (OptionalType (SimpleType s)) ∧ throughout state_unboxed (OptionalType (SimpleType s))) as Hopt by (intros s; split; (apply throughout_intro; [done|]); intros ? ->%list_elem_of_singleton; apply Hs).
    apply Hsound; [reflexivity| | |vm_compute; reflexivity|].
    + apply throughout_intro; [by repeat constructor|]. intros c. cbn. intros [-> |[-> |?%not_elem_of_nil]%elem_of_cons]%elem_of_cons; [apply Hopt..|done].
    + apply throughout_intro; [done|]. intros c. cbn. intros [-> |[-> |?%not_elem_of_nil]%elem_of_cons]%elem_of_cons; [apply Hopt..|done].
    + apply (conforms_struct _ [Build_TStructField (B"a") (B"a") (SimpleType SimpleInt8)] []); [|constructor]. constructor; [|constructor]. apply conforms_simple. vm_compute. split; [reflexivity|]. right. split; discriminate.
Defined.

(** A new field that is nullable but not an optional is fully compatible, yet the old values are refused: only
    optionals may be missing. *)
Lemma new_field_missing (field := Build_TStructField (B"a") (B"a") (SimpleType SimpleInt64))
  (newType := λ type, StructType [field; Build_TStructField (B"b") (B"b") type] []) :
  ValidateComplexLogicalType (λ _, true) (λ _, Ok 0) false (B"[1]") (StructType [field] []) = Ok () ∧
  Forall (λ type, LogicalType.ValidateLogicalType None (newType type) = Ok () ∧ CheckTypeCompatibility strict_options (StructType [field] []) (newType type) = Ok FullyCompatible ∧
    ValidateComplexLogicalType (λ _, true) (λ _, Ok 0) false (B"[1]") (newType type) = Throw ESchemaViolation)
    [SimpleType SimpleNull; TaggedType (B"t") (OptionalType (SimpleType SimpleInt64))].
Proof. split; [vm_compute; reflexivity|]. repeat constructor; vm_compute; reflexivity. Qed.

(** A state that may be null is fully compatible with the optional of it, which boxes its values. *)
Lemma optional_state_boxed (oldType := AggregateStateType Min (SimpleType SimpleInt64) (OptionalType (SimpleType SimpleInt64))) :
  LogicalType.ValidateLogicalType None oldType = Ok () ∧ CheckTypeCompatibility strict_options oldType (OptionalType oldType) = Ok FullyCompatible ∧
  ValidateComplexLogicalType (λ _, true) (λ _, Ok 0) false (B"5") oldType = Ok () ∧ ValidateComplexLogicalType (λ _, true) (λ _, Ok 0) false (B"5") (OptionalType oldType) = Throw ESchemaViolation.
Proof. split_and!; vm_compute; reflexivity. Qed.

(** The variant without alternatives passes validation and is not compatible with itself. *)
Lemma empty_variant_incompatible : LogicalType.ValidateLogicalType None (VariantStructType []) = Ok () ∧ CheckTypeCompatibility strict_options (VariantStructType []) (VariantStructType []) = Ok Incompatible.
Proof. split; vm_compute; reflexivity. Qed.
