(* ===== verification/TypeMerging.v ===== *)
(** Merging of logical types (client/complex_types/merge_complex_types.cpp): the one type under which
    the data of two types is read together. All errors are one; field descriptors are the types they
    describe. *)

From stdpp Require Import gmap.
From S2P Require Import Prelude CompositeCompare Utf8 YsonEvents YsonGrammar LogicalType Deserialize Decimal ComplexTypeValidator ComplexTypeValues TypeCompatibility TypeCompatibilityValues.

#[local] Set Warnings "-clear-no-such-hyp".

(** ** The code *)

Definition UnwrapOptionalType (type : TLogicalType) : TLogicalType := match type with OptionalType element => element | _ => type end.
Definition UnwrapTaggedType (type : TLogicalType) : TLogicalType := match type with TaggedType _ element => element | _ => type end.
Definition is_tagged (type : TLogicalType) : bool := match type with TaggedType _ _ => true | _ => false end.
Definition GetTag (type : TLogicalType) : Result (list byte) := match type with TaggedType tag _ => Ok tag | _ => Crash end.
Definition ExtractTagFromOneOfTypes (firstType secondType : TLogicalType) : Result (list byte) := if is_tagged firstType then GetTag firstType else if is_tagged secondType then GetTag secondType else Crash.

Definition CompatibilityOptions : TTypeCompatibilityOptions := {| AllowStructFieldRenaming := false; AllowStructFieldRemoval := false; IgnoreUnknownRemovedFieldNames := false |}.

Definition areTypesCompatible `{NamesOrder} (lhs rhs : TLogicalType) : Result bool := result ← CheckTypeCompatibility CompatibilityOptions lhs rhs; Ok (bool_decide (result = FullyCompatible)).

Section Merge.
(** [MergeTypes] of what is inside. *)
Context (merge : TLogicalType → TLogicalType → Result TLogicalType).

Fixpoint elements_merge (firstElements secondElements : list TLogicalType) : Result (list TLogicalType) :=
  match firstElements, secondElements with
  | [], _ => Ok secondElements
  | _ :: _, [] => Crash
  | firstElement :: firstElements, secondElement :: secondElements =>
      mergedType ← merge firstElement secondElement; resultElements ← elements_merge firstElements secondElements; Ok (mergedType :: resultElements)
  end.

Definition MergeTupleTypes (allowNewElements : bool) (firstElements secondElements : list TLogicalType) : Result (list TLogicalType) :=
  let '(firstElements, secondElements) := if Nat.ltb (length secondElements) (length firstElements) then (secondElements, firstElements) else (firstElements, secondElements) in
  if negb allowNewElements && negb (Nat.eqb (length firstElements) (length secondElements)) then Throw EBadLogicalType
  else elements_merge firstElements secondElements.

(** A field that only the longer of two types has. *)
Definition extra_field (makeNullability : bool) (field : TStructField TLogicalType) : TStructField TLogicalType :=
  if negb (IsNullable (FieldType field)) && makeNullability then Build_TStructField (Name field) (Name field) (OptionalType (FieldType field)) else field.

Fixpoint fields_merge (makeNullability : bool) (firstFields secondFields : list (TStructField TLogicalType)) : Result (list (TStructField TLogicalType)) :=
  match firstFields, secondFields with
  | [], _ => Ok (map (extra_field makeNullability) secondFields)
  | _ :: _, [] => Crash
  | firstField :: firstFields, secondField :: secondFields =>
      if bool_decide (Name firstField ≠ Name secondField) then Throw EBadLogicalType
      else
        mergedField ← match merge (FieldType firstField) (FieldType secondField) with Throw _ => Throw EBadLogicalType | r => r end;
        resultFields ← fields_merge makeNullability firstFields secondFields;
        Ok (Build_TStructField (Name firstField) (Name firstField) mergedField :: resultFields)
  end.

Definition MergeStructTypes (makeNullability : bool) (firstFields secondFields : list (TStructField TLogicalType)) : Result (list (TStructField TLogicalType)) :=
  if Nat.ltb (length secondFields) (length firstFields) then fields_merge makeNullability secondFields firstFields else fields_merge makeNullability firstFields secondFields.

Definition MergeDictTypes (firstKey firstValue secondKey secondValue : TLogicalType) : Result TLogicalType :=
  mergedKey ← merge firstKey secondKey; mergedValue ← merge firstValue secondValue; Ok (DictType mergedKey mergedValue).

(** Both types are not optional and not tagged. *)
Definition MergeBareTypes `{NamesOrder} (firstType secondType : TLogicalType) : Result TLogicalType :=
  match firstType, secondType with
  | SimpleType _, SimpleType _ =>
      compatible ← areTypesCompatible firstType secondType;
      if (compatible : bool) then Ok secondType
      else compatible ← areTypesCompatible secondType firstType; if (compatible : bool) then Ok firstType else Throw EBadLogicalType
  | ListType firstElement, ListType secondElement => mergedType ← merge firstElement secondElement; Ok (ListType mergedType)
  | VariantStructType firstFields, VariantStructType secondFields => mergedFields ← MergeStructTypes false firstFields secondFields; Ok (VariantStructType mergedFields)
  | StructType firstFields _, StructType secondFields _ => mergedFields ← MergeStructTypes true firstFields secondFields; Ok (StructType mergedFields [])
  | TupleType firstElements, TupleType secondElements => mergedElements ← MergeTupleTypes false firstElements secondElements; Ok (TupleType mergedElements)
  | VariantTupleType firstElements, VariantTupleType secondElements => mergedElements ← MergeTupleTypes true firstElements secondElements; Ok (VariantTupleType mergedElements)
  | DictType firstKey firstValue, DictType secondKey secondValue => MergeDictTypes firstKey firstValue secondKey secondValue
  | AggregateStateType _ _ _, AggregateStateType _ _ _ | DecimalType _ _, DecimalType _ _ => if type_equal firstType secondType then Ok firstType else Throw EBadLogicalType
  | _, _ => Throw EBadLogicalType
  end.

(** The tags of two tagged types are equal. *)
Definition check_tags (firstType secondType : TLogicalType) : Result () :=
  if is_tagged firstType && is_tagged secondType then firstTag ← GetTag firstType; secondTag ← GetTag secondType; if bool_decide (firstTag ≠ secondTag) then Throw EBadLogicalType else Ok () else Ok ().

Definition MergeTaggedTypes (firstType secondType : TLogicalType) : Result TLogicalType :=
  _ ← check_tags firstType secondType;
  mergedType ← merge (UnwrapTaggedType firstType) (UnwrapTaggedType secondType);
  tag ← ExtractTagFromOneOfTypes firstType secondType;
  Ok (TaggedType tag mergedType).

Definition MergeOptionalTypes (firstType secondType : TLogicalType) : Result TLogicalType :=
  let firstLayerCount := (UnwrapOptionalAndTagged firstType).2 in
  let secondLayerCount := (UnwrapOptionalAndTagged secondType).2 in
  if negb (Nat.eqb firstLayerCount secondLayerCount) && (Nat.ltb 1 firstLayerCount || Nat.ltb 1 secondLayerCount) then Throw EBadLogicalType
  else mergedType ← merge (UnwrapOptionalType firstType) (UnwrapOptionalType secondType); Ok (OptionalType mergedType).
End Merge.

Section MergeTypes.
Context `{NamesOrder}.

Fixpoint MergeTypesImpl (fuel : nat) (firstType secondType : TLogicalType) : Result TLogicalType :=
  match fuel with
  | O => OutOfFuel
  | S fuel =>
      if is_tagged firstType || is_tagged secondType then MergeTaggedTypes (MergeTypesImpl fuel) firstType secondType
      else if is_optional firstType || is_optional secondType then MergeOptionalTypes (MergeTypesImpl fuel) firstType secondType
      else MergeBareTypes (MergeTypesImpl fuel) firstType secondType
  end.

Definition MergeTypes (firstType secondType : TLogicalType) : Result TLogicalType := MergeTypesImpl (S (type_size firstType + type_size secondType)) firstType secondType.
End MergeTypes.

(** ** The merged type and its core *)

Lemma unwrap_of_bare type : is_wrapped type = false → UnwrapOptionalAndTagged type = (type, 0%nat).
Proof. by destruct type. Qed.

Lemma unwrap_of_tagged type : UnwrapOptionalAndTagged (UnwrapTaggedType type) = UnwrapOptionalAndTagged type.
Proof. by destruct type. Qed.

Lemma not_wrapped type : is_tagged type = false → is_optional type = false → is_wrapped type = false.
Proof. by destruct type. Qed.

Section Core.
Context `{NamesOrder}.

Lemma bare_result merge firstType secondType type : is_wrapped firstType = false → is_wrapped secondType = false → MergeBareTypes merge firstType secondType = Ok type → is_wrapped type = false.
Proof.
  destruct firstType, secondType; try done; intros _ _; cbn [MergeBareTypes]; try (destruct (type_equal _ _); [by intros [= <-]|done]).
  - destruct (areTypesCompatible (SimpleType element) _) as [c| | |]; try done. run_bind. destruct c; [by intros [= <-]|]. destruct (areTypesCompatible _ _) as [c| | |]; try done. run_bind. destruct c; [by intros [= <-]|done].
  - destruct (merge _ _); try done. by intros [= <-].
  - destruct (MergeStructTypes _ _ _ _); try done. by intros [= <-].
  - destruct (MergeTupleTypes _ _ _ _); try done. by intros [= <-].
  - destruct (MergeStructTypes _ _ _ _); try done. by intros [= <-].
  - destruct (MergeTupleTypes _ _ _ _); try done. by intros [= <-].
  - unfold MergeDictTypes. destruct (merge firstType1 _); try done. run_bind. destruct (merge _ _); try done. by intros [= <-].
Qed.

(** Tags and optionals are put around what the cores merge to; numbers of optionals are equal or zero and one. *)
Lemma merge_core fuel firstType secondType type firstCore firstCount secondCore secondCount : MergeTypesImpl fuel firstType secondType = Ok type →
  UnwrapOptionalAndTagged firstType = (firstCore, firstCount) → UnwrapOptionalAndTagged secondType = (secondCore, secondCount) →
  ∃ fuel' core, (fuel' < fuel)%nat ∧ UnwrapOptionalAndTagged type = (core, Nat.max firstCount secondCount) ∧ MergeBareTypes (MergeTypesImpl fuel') firstCore secondCore = Ok core ∧ (firstCount = secondCount ∨ (firstCount + secondCount = 1)%nat).
Proof.
  revert firstType secondType type firstCount secondCount. induction fuel as [|fuel IH]; [done|]. intros firstType secondType type firstCount secondCount E E1 E2. cbn [MergeTypesImpl] in E.
  destruct (is_tagged firstType || is_tagged secondType) eqn:Et; [|destruct (is_optional firstType || is_optional secondType) eqn:Eo].
  - unfold MergeTaggedTypes in E. destruct (check_tags _ _); try done. run_bind in E. destruct (MergeTypesImpl fuel _ _) as [m| | |] eqn:Em; try done. run_bind in E. destruct (ExtractTagFromOneOfTypes _ _) as [tag| | |]; try done. run_bind in E. injection E as <-.
    destruct (IH _ _ _ firstCount secondCount Em) as (fuel' & core & Hf & Hu & Hb & Hc); [by rewrite unwrap_of_tagged..|]. exists fuel', core. split_and!; [lia|done..].
  - apply orb_false_iff in Et as [T1 T2]. unfold MergeOptionalTypes in E. rewrite E1, E2 in E. cbn [snd] in E. destruct (negb (Nat.eqb firstCount secondCount) && _) eqn:Ec; [done|]. destruct (MergeTypesImpl fuel _ _) as [m| | |] eqn:Em; try done. run_bind in E. injection E as <-.
    assert (∀ t core count, is_tagged t = false → UnwrapOptionalAndTagged t = (core, count) → UnwrapOptionalAndTagged (UnwrapOptionalType t) = (core, Nat.pred count) ∧ (if is_optional t then (0 < count)%nat else count = 0%nat)) as Hpred.
    { intros t core count Ht Eu. destruct t; try discriminate Ht; cbn [UnwrapOptionalAndTagged UnwrapOptionalType is_optional] in *; try (by injection Eu as <- <-). destruct (UnwrapOptionalAndTagged t). injection Eu as <- <-. split; [done|lia]. }
    destruct (Hpred _ _ _ T1 E1) as [P1 C1], (Hpred _ _ _ T2 E2) as [P2 C2]. destruct (IH _ _ _ _ _ Em P1 P2) as (fuel' & core & Hf & Hu & Hb & Hc). exists fuel', core. cbn [UnwrapOptionalAndTagged]. rewrite Hu.
    assert (firstCount = secondCount ∨ (firstCount <= 1 ∧ secondCount <= 1)%nat) as Hcount.
    { apply andb_false_iff in Ec as [Ec%negb_false_iff%Nat.eqb_eq|Ec]; [by left|]. apply orb_false_iff in Ec as [?%Nat.ltb_ge ?%Nat.ltb_ge]. by right. }
    split_and!; [lia| |done|destruct (is_optional firstType), (is_optional secondType); try done; lia]. f_equal. destruct (is_optional firstType), (is_optional secondType); try done; lia.
  - apply orb_false_iff in Et as [T1 T2]. apply orb_false_iff in Eo as [O1 O2]. pose proof (not_wrapped _ T1 O1) as W1. pose proof (not_wrapped _ T2 O2) as W2. rewrite unwrap_of_bare in E1, E2 by done. injection E1 as <- <-. injection E2 as <- <-.
    exists fuel, type. split_and!; [lia| |done|by left]. rewrite unwrap_of_bare; [done|]. exact (bare_result _ _ _ _ W1 W2 E).
Qed.
End Core.

(** ** Values of both types *)

Section Values.
Context `{NamesOrder} (validate_json : list byte → bool).
#[local] Abbreviation Conforms := (Conforms validate_json).
#[local] Abbreviation absorbs := (absorbs validate_json).

Lemma absorbs_refl type : absorbs type type.
Proof. intros _ _. split; [done|]. by destruct type. Qed.

(** A type around a core absorbs what the core absorbs, with as many optionals or one more. *)
Lemma absorbs_wrapped type core count oldType oldCore oldCount : UnwrapOptionalAndTagged type = (core, count) → UnwrapOptionalAndTagged oldType = (oldCore, oldCount) → (oldCount = count ∨ oldCount = 0%nat ∧ count = 1%nat) →
  absorbs core oldCore → IsNullable oldCore = IsNullable core ∨ core = SimpleType SimpleAny → absorbs type oldType.
Proof.
  intros E Eo Hcount Habs Hnull Ht Hany. assert (takes_over validate_json oldCore core) as Hv by (apply core_sound; intros Hc; apply (Habs (unwrap_throughout _ _ _ _ E Ht) Hc)). split.
  - intros n. rewrite (unwrap_conforms _ _ _ _ n Eo). destruct Hcount as [-> |[-> ->]]; [by apply (layers_same validate_json oldCore type core)|by apply (layers_raise validate_json oldCore type core)].
  - intros Ho. rewrite (unwrap_nullable _ _ _ E). assert (0 < oldCount)%nat as Hpos; [|by destruct count; [lia|]]. destruct oldType; try discriminate Ho. cbn [UnwrapOptionalAndTagged] in Eo. destruct (UnwrapOptionalAndTagged oldType). injection Eo as _ <-. lia.
Qed.

Definition merges (merge : TLogicalType → TLogicalType → Result TLogicalType) : Prop :=
  ∀ firstType secondType type, throughout state_ok firstType → throughout state_ok secondType → merge firstType secondType = Ok type → absorbs type firstType ∧ absorbs type secondType.

Lemma elements_merge_spec merge firstElements secondElements elements : merges merge → Forall (throughout state_ok) firstElements → Forall (throughout state_ok) secondElements → elements_merge merge firstElements secondElements = Ok elements →
  ∃ merged extra, elements = merged ++ extra ∧ Forall2 (λ o n, absorbs n o) firstElements merged ∧ Forall2 (λ o n, absorbs n o) secondElements elements ∧ (length firstElements = length secondElements → extra = []).
Proof.
  intros IH. revert secondElements elements. induction firstElements as [|f firstElements IHf]; intros secondElements elements H1 H2; cbn [elements_merge].
  - assert (Forall2 (λ o n, absorbs n o) secondElements secondElements) as Hrefl by (clear; induction secondElements; constructor; [apply absorbs_refl|done]). destruct secondElements; intros [= <-]; [by exists [], []|]. exists [], (t :: secondElements). by split_and!.
  - destruct secondElements as [|s secondElements]; [done|]. apply list.Forall_cons in H1 as [Hf Hfs], H2 as [Hs Hss]. destruct (merge f s) as [m| | |] eqn:Em; try done. run_bind. destruct (elements_merge _ _ _) as [ms| | |] eqn:Ems; try done. run_bind. intros [= <-].
    destruct (IH f s m Hf Hs Em) as [A1 A2]. destruct (IHf _ _ Hfs Hss Ems) as (merged & extra & -> & B1 & B2 & B3). exists (m :: merged), extra. split_and!; [done|by constructor|by constructor|]. intros [= ?]. by apply B3.
Qed.

Lemma extra_field_absorbs makeNullability field : absorbs (FieldType (extra_field makeNullability field)) (FieldType field).
Proof.
  unfold extra_field. destruct (negb (IsNullable (FieldType field)) && makeNullability) eqn:E; [|apply absorbs_refl]. apply andb_prop in E as [E%negb_true_iff _]. cbn [FieldType]. intros _ _. split; [|done]. intros n Hn. by apply conforms_some.
Qed.

Lemma extra_field_nullable field : IsNullable (FieldType (extra_field true field)) = true.
Proof. unfold extra_field. by destruct (IsNullable (FieldType field)) eqn:E. Qed.

Lemma fields_merge_spec merge makeNullability firstFields secondFields fields : merges merge → Forall (λ f, throughout state_ok (FieldType f)) firstFields → Forall (λ f, throughout state_ok (FieldType f)) secondFields →
  fields_merge merge makeNullability firstFields secondFields = Ok fields →
  ∃ merged extra, fields = merged ++ extra ∧ Forall2 (λ o n, absorbs (FieldType n) (FieldType o)) firstFields merged ∧ Forall2 (λ o n, absorbs (FieldType n) (FieldType o)) secondFields fields ∧
    (makeNullability = true → Forall (λ f, IsNullable (FieldType f) = true) extra).
Proof.
  intros IH. revert secondFields fields. induction firstFields as [|f firstFields IHf]; intros secondFields fields H1 H2; cbn [fields_merge].
  - assert (fields = map (extra_field makeNullability) secondFields → ∃ merged extra, fields = merged ++ extra ∧ Forall2 (λ o n, absorbs (FieldType n) (FieldType o)) [] merged ∧
      Forall2 (λ o n, absorbs (FieldType n) (FieldType o)) secondFields fields ∧ (makeNullability = true → Forall (λ f, IsNullable (FieldType f) = true) extra)) as Hend; [|destruct secondFields; intros [= E]; by apply Hend].
    intros ->. exists [], (map (extra_field makeNullability) secondFields). split_and!; [done|constructor| |].
    + clear. induction secondFields; constructor; [apply extra_field_absorbs|done].
    + intros ->. apply list.Forall_forall. intros x (y & -> & _)%list_elem_of_fmap. apply extra_field_nullable.
  - destruct secondFields as [|s secondFields]; [done|]. apply list.Forall_cons in H1 as [Hf Hfs], H2 as [Hs Hss]. case_bool_decide; [done|]. destruct (merge (FieldType f) (FieldType s)) as [m| | |] eqn:Em; try done. run_bind. destruct (fields_merge _ _ _ _) as [ms| | |] eqn:Ems; try done. run_bind. intros [= <-].
    destruct (IH _ _ m Hf Hs Em) as [A1 A2]. destruct (IHf _ _ Hfs Hss Ems) as (merged & extra & -> & B1 & B2 & B3). exists (Build_TStructField (Name f) (Name f) m :: merged), extra. split_and!; [done|by constructor|by constructor|done].
Qed.

(** Both of two types, whichever is longer. *)
Lemma struct_merge_spec merge makeNullability firstFields secondFields fields : merges merge → Forall (λ f, throughout state_ok (FieldType f)) firstFields → Forall (λ f, throughout state_ok (FieldType f)) secondFields →
  MergeStructTypes merge makeNullability firstFields secondFields = Ok fields → Forall (λ oldFields, ∃ merged extra, fields = merged ++ extra ∧ Forall2 (λ o n, absorbs (FieldType n) (FieldType o)) oldFields merged ∧
    (makeNullability = true → Forall (λ f, IsNullable (FieldType f) = true) extra)) [firstFields; secondFields].
Proof.
  intros IH H1 H2. unfold MergeStructTypes. destruct (Nat.ltb _ _); intros (merged & extra & -> & B1 & B2 & B3)%fields_merge_spec; try done; rewrite !list.Forall_cons; split_and!; try constructor; first [by exists merged, extra|exists (merged ++ extra), []; split_and!; [by rewrite app_nil_r|done|by constructor]].
Qed.

Lemma tuple_merge_spec merge allow firstElements secondElements elements : merges merge → Forall (throughout state_ok) firstElements → Forall (throughout state_ok) secondElements → MergeTupleTypes merge allow firstElements secondElements = Ok elements →
  Forall (λ oldElements, ∃ merged extra, elements = merged ++ extra ∧ Forall2 (λ o n, absorbs n o) oldElements merged ∧ (allow = false → extra = [])) [firstElements; secondElements].
Proof.
  intros IH H1 H2. unfold MergeTupleTypes. assert (∀ short long, Forall (throughout state_ok) short → Forall (throughout state_ok) long → (if negb allow && negb (Nat.eqb (length short) (length long)) then Throw EBadLogicalType else elements_merge merge short long) = Ok elements →
    (∃ merged extra, elements = merged ++ extra ∧ Forall2 (λ o n, absorbs n o) short merged ∧ (allow = false → extra = [])) ∧ (∃ merged extra, elements = merged ++ extra ∧ Forall2 (λ o n, absorbs n o) long merged ∧ (allow = false → extra = []))) as Hspec.
  { intros short long Hs Hl. destruct (negb allow && _) eqn:Ea; [done|]. intros (merged & extra & -> & B1 & B2 & B3)%elements_merge_spec; try done. split.
    - exists merged, extra. split_and!; [done|done|]. intros ->. apply B3. by apply negb_false_iff, Nat.eqb_eq in Ea.
    - exists (merged ++ extra), []. by rewrite app_nil_r. }
  destruct (Nat.ltb _ _); intros [S1 S2]%Hspec; try done; rewrite !list.Forall_cons; by split_and!.
Qed.

Lemma state_equal firstType secondType : is_wrapped firstType = false → match firstType with AggregateStateType _ _ _ | DecimalType _ _ => True | _ => False end → state_ok firstType → state_ok secondType → type_equal firstType secondType = true → firstType = secondType.
Proof.
  destruct firstType, secondType; try done; intros _ _ S1 S2; cbn [type_equal]; [by intros [->%Z.eqb_eq ->%Z.eqb_eq]%andb_prop|]. destruct S1 as (? & -> & s1 & -> & _), S2 as (? & -> & s2 & -> & _). intros [Ef Es]%andb_prop. apply bool_decide_eq_true in Ef as ->. cbn [type_equal] in Es. by apply bool_decide_eq_true in Es as ->.
Qed.

Lemma simple_merge firstElement secondElement type : MergeBareTypes (λ _ _, OutOfFuel) (SimpleType firstElement) (SimpleType secondElement) = Ok type →
  (type = SimpleType secondElement ∧ CheckTypeCompatibilitySimple firstElement secondElement = Ok FullyCompatible) ∨ (type = SimpleType firstElement ∧ CheckTypeCompatibilitySimple secondElement firstElement = Ok FullyCompatible).
Proof.
  cbn [MergeBareTypes]. unfold areTypesCompatible, CheckTypeCompatibility. cbn [type_size Nat.add CheckTypeCompatibilityImpl is_wrapped orb CheckBareTypes].
  destruct (CheckTypeCompatibilitySimple firstElement secondElement) as [c| | |] eqn:E1; try done. run_bind. case_bool_decide as Hc; [intros [= <-]; left; by subst c|].
  destruct (CheckTypeCompatibilitySimple secondElement firstElement) as [c'| | |] eqn:E2; try done. run_bind. case_bool_decide as Hc'; [intros [= <-]; right; by subst c'|done].
Qed.

(** What is known of one of the two types. *)
Definition taken (type oldType : TLogicalType) : Prop := absorbs type oldType ∧ (IsNullable oldType = IsNullable type ∨ type = SimpleType SimpleAny).

Lemma taken_refl type : taken type type.
Proof. split; [apply absorbs_refl|by left]. Qed.

Lemma simple_taken oldElement newElement : CheckTypeCompatibilitySimple oldElement newElement = Ok FullyCompatible → taken (SimpleType newElement) (SimpleType oldElement).
Proof.
  intros E. split; [apply absorbs_bare; [done|]; intros _ Hany n; apply (simple_sound _ oldElement newElement); [done|congruence]|]. by apply (bare_nullable CompatibilityOptions 1).
Qed.

Lemma bare_merge merge firstType secondType type : merges merge → throughout state_ok firstType → throughout state_ok secondType → is_wrapped firstType = false → is_wrapped secondType = false →
  MergeBareTypes merge firstType secondType = Ok type → taken type firstType ∧ taken type secondType.
Proof.
  intros IH H1 H2 W1 W2. pose proof (children_ok _ _ H1) as C1. pose proof (children_ok _ _ H2) as C2.
  destruct firstType as [o|p s|e|e|oldFields oldRemoved|oldElements|oldFields|oldElements|key value|tag e|function argument element], secondType as [o'|p' s'|e'|e'|newFields newRemoved|newElements|newFields|newElements|key' value'|tag' e'|function' argument' element'];
    try discriminate; cbn [MergeBareTypes]; try done; cbn [children] in C1, C2; rewrite ?list.Forall_cons in C1, C2.
  - intros [[-> E]|[-> E]]%(simple_merge o o' type); [split; [by apply simple_taken|apply taken_refl]|split; [apply taken_refl|by apply simple_taken]].
  - destruct (type_equal _ _) eqn:E; [|done]. intros [= <-]. rewrite <- (state_equal _ _ W1 I (throughout_root _ _ H1) (throughout_root _ _ H2) E). split; apply taken_refl.
  - destruct (merge e e') as [m| | |] eqn:Em; try done. run_bind. intros [= <-]. destruct (IH e e' m (proj1 C1) (proj1 C2) Em) as [A1 A2]. split; (split; [by apply absorbs_list|by left]).
  - destruct (MergeStructTypes _ _ _ _) as [fields| | |] eqn:Em; try done. run_bind. intros [= <-]. apply struct_merge_spec in Em; [|done|by apply field_children..]. rewrite !list.Forall_cons in Em. destruct Em as ((m1 & x1 & E1 & A1 & N1) & (m2 & x2 & E2 & A2 & N2) & _).
    split; (split; [|by left]); [rewrite E1; apply absorbs_struct; [done|by apply N1]|rewrite E2; apply absorbs_struct; [done|by apply N2]].
  - destruct (MergeTupleTypes _ _ _ _) as [elements| | |] eqn:Em; try done. run_bind. intros [= <-]. apply tuple_merge_spec in Em; [|done..]. rewrite !list.Forall_cons in Em. destruct Em as ((m1 & x1 & E1 & A1 & N1) & (m2 & x2 & E2 & A2 & N2) & _).
    rewrite N1, app_nil_r in E1 by done. rewrite N2, app_nil_r in E2 by done. split; (split; [|by left]); apply absorbs_tuple; [by rewrite E1|by rewrite E2].
  - destruct (MergeStructTypes _ _ _ _) as [fields| | |] eqn:Em; try done. run_bind. intros [= <-]. apply struct_merge_spec in Em; [|done|by apply field_children..]. rewrite !list.Forall_cons in Em. destruct Em as ((m1 & x1 & E1 & A1 & _) & (m2 & x2 & E2 & A2 & _) & _).
    split; (split; [|by left]); [rewrite E1; by apply absorbs_variant_struct|rewrite E2; by apply absorbs_variant_struct].
  - destruct (MergeTupleTypes _ _ _ _) as [elements| | |] eqn:Em; try done. run_bind. intros [= <-]. apply tuple_merge_spec in Em; [|done..]. rewrite !list.Forall_cons in Em. destruct Em as ((m1 & x1 & E1 & A1 & _) & (m2 & x2 & E2 & A2 & _) & _).
    split; (split; [|by left]); [rewrite E1; by apply absorbs_variant_tuple|rewrite E2; by apply absorbs_variant_tuple].
  - unfold MergeDictTypes. destruct (merge key key') as [k| | |] eqn:Ek; try done. run_bind. destruct (merge value value') as [v| | |] eqn:Ev; try done. run_bind. intros [= <-].
    destruct C1 as (K1 & V1 & _), C2 as (K2 & V2 & _). destruct (IH _ _ _ K1 K2 Ek) as [A1 A2], (IH _ _ _ V1 V2 Ev) as [B1 B2]. split; (split; [by apply absorbs_dict|by left]).
  - destruct (type_equal _ _) eqn:E; [|done]. intros [= <-]. rewrite <- (state_equal _ _ W1 I (throughout_root _ _ H1) (throughout_root _ _ H2) E). split; apply taken_refl.
Qed.

Lemma merge_sound fuel : merges (MergeTypesImpl fuel).
Proof.
  induction fuel as [fuel IH] using lt_wf_ind. intros firstType secondType type H1 H2 E. destruct (UnwrapOptionalAndTagged firstType) as [firstCore firstCount] eqn:E1. destruct (UnwrapOptionalAndTagged secondType) as [secondCore secondCount] eqn:E2.
  destruct (merge_core _ _ _ _ _ _ _ _ E E1 E2) as (fuel' & core & Hf & Eu & Eb & Hcount).
  destruct (bare_merge _ _ _ _ (IH fuel' Hf) (unwrap_throughout _ _ _ _ E1 H1) (unwrap_throughout _ _ _ _ E2 H2) (unwrap_bare _ _ _ E1) (unwrap_bare _ _ _ E2) Eb) as [[A1 N1] [A2 N2]].
  split; [by apply (absorbs_wrapped type core _ firstType firstCore firstCount Eu E1); [lia|..]|by apply (absorbs_wrapped type core _ secondType secondCore secondCount Eu E2); [lia|..]].
Qed.
End Values.

(** ** The merge returns or throws *)

Definition returns_or_throws {A} (r : Result A) : Prop := (∃ x, r = Ok x) ∨ r = Throw EBadLogicalType.

Lemma returns_ok {A} (x : A) : returns_or_throws (Ok x).
Proof. left. by eexists. Qed.

Lemma throws_ok {A} : returns_or_throws (A := A) (Throw EBadLogicalType).
Proof. by right. Qed.

Lemma returns_or_throws_bind {A C} (r : Result A) (f : A → Result C) : returns_or_throws r → (∀ x, returns_or_throws (f x)) → returns_or_throws (r ≫= f).
Proof. intros [(x & ->)| ->] Hf; [apply Hf|apply throws_ok]. Qed.

Section Settles.
Context `{NamesOrder}.

Create HintDb settling.
#[local] Hint Resolve returns_ok throws_ok : settling.

Lemma compatible_settles firstElement secondElement : returns_or_throws (areTypesCompatible (SimpleType firstElement) (SimpleType secondElement)).
Proof. unfold areTypesCompatible, CheckTypeCompatibility. cbn [type_size Nat.add CheckTypeCompatibilityImpl is_wrapped orb CheckBareTypes]. destruct (simple_total firstElement secondElement) as (c & ->). apply returns_ok. Qed.

Lemma elements_settle merge first second : (length first <= length second)%nat → (∀ o n, o ∈ first → n ∈ second → returns_or_throws (merge o n)) → returns_or_throws (elements_merge merge first second).
Proof.
  revert second. induction first as [|f first IH]; intros second Hl Hm; cbn [elements_merge]; [destruct second; apply returns_ok|]. destruct second as [|s second]; [simpl in Hl; lia|].
  apply returns_or_throws_bind; [apply Hm; by left|]. intros m. apply returns_or_throws_bind; [|auto with settling]. apply IH; [simpl in Hl; lia|]. intros; apply Hm; by right.
Qed.

Lemma fields_settle merge nullability first second : (length first <= length second)%nat → (∀ o n, o ∈ first → n ∈ second → returns_or_throws (merge (FieldType o) (FieldType n))) → returns_or_throws (fields_merge merge nullability first second).
Proof.
  revert second. induction first as [|f first IH]; intros second Hl Hm; cbn [fields_merge]; [destruct second; apply returns_ok|]. destruct second as [|s second]; [simpl in Hl; lia|].
  case_bool_decide; [apply throws_ok|]. apply returns_or_throws_bind; [destruct (Hm f s) as [(m & ->)| ->]; [by left..|apply returns_ok|apply throws_ok]|]. intros m. apply returns_or_throws_bind; [|auto with settling]. apply IH; [simpl in Hl; lia|]. intros; apply Hm; by right.
Qed.

(** The merge of what is inside. *)
Definition below (merge : TLogicalType → TLogicalType → Result TLogicalType) (size : nat) : Prop := ∀ o n, (type_size o + type_size n < size)%nat → returns_or_throws (merge o n).

Lemma bare_settles merge firstType secondType : below merge (type_size firstType + type_size secondType) → returns_or_throws (MergeBareTypes merge firstType secondType).
Proof.
  intros IH. assert (∀ o n, o ∈ children firstType → n ∈ children secondType → returns_or_throws (merge o n) ∧ returns_or_throws (merge n o)) as Hc.
  { intros o n H1%child_size H2%child_size. split; apply IH; lia. }
  assert (∀ fields fields', map FieldType fields = children firstType → map FieldType fields' = children secondType → ∀ nullability, returns_or_throws (MergeStructTypes merge nullability fields fields')) as Hstruct.
  { intros fields fields' E E' nullability. unfold MergeStructTypes. destruct (Nat.ltb_spec (length fields') (length fields)); (apply fields_settle; [lia|]); intros o n Ho Hn; [apply (Hc (FieldType n) (FieldType o))|apply (Hc (FieldType o) (FieldType n))]; rewrite <- ?E, <- ?E'; apply list_elem_of_fmap; eauto. }
  assert (∀ allow, returns_or_throws (MergeTupleTypes merge allow (children firstType) (children secondType))) as Htuple.
  { intros allow. unfold MergeTupleTypes. destruct (Nat.ltb_spec (length (children secondType)) (length (children firstType))); (destruct (_ && _); [apply throws_ok|]; apply elements_settle; [lia|]); intros o n Ho Hn; [by apply (Hc n o)|by apply (Hc o n)]. }
  destruct firstType, secondType; cbn [MergeBareTypes children] in *; try apply throws_ok; try (destruct (type_equal _ _); auto with settling).
  - apply returns_or_throws_bind; [apply compatible_settles|]. intros []; [apply returns_ok|]. apply returns_or_throws_bind; [apply compatible_settles|]. intros []; auto with settling.
  - apply returns_or_throws_bind; [apply (Hc firstType secondType); by left|auto with settling].
  - apply returns_or_throws_bind; [by apply Hstruct|auto with settling].
  - apply returns_or_throws_bind; [apply Htuple|auto with settling].
  - apply returns_or_throws_bind; [by apply Hstruct|auto with settling].
  - apply returns_or_throws_bind; [apply Htuple|auto with settling].
  - apply returns_or_throws_bind; [apply (Hc firstType1 secondType1); by left|]. intros k. apply returns_or_throws_bind; [apply (Hc firstType2 secondType2); by right; left|auto with settling].
Qed.

Lemma unwrap_less type : (type_size (UnwrapTaggedType type) <= type_size type)%nat ∧ (type_size (UnwrapOptionalType type) <= type_size type)%nat ∧
  (is_tagged type = true → (type_size (UnwrapTaggedType type) < type_size type)%nat) ∧ (is_optional type = true → (type_size (UnwrapOptionalType type) < type_size type)%nat).
Proof. destruct type; cbn [UnwrapTaggedType UnwrapOptionalType is_tagged is_optional type_size]; split_and!; try done; lia. Qed.

Lemma merge_settles fuel firstType secondType : (type_size firstType + type_size secondType < fuel)%nat → returns_or_throws (MergeTypesImpl fuel firstType secondType).
Proof.
  revert firstType secondType. induction fuel as [|fuel IH]; intros firstType secondType Hf; [lia|]. cbn [MergeTypesImpl]. destruct (unwrap_less firstType) as (T1 & O1 & T1' & O1'), (unwrap_less secondType) as (T2 & O2 & T2' & O2').
  destruct (is_tagged firstType || is_tagged secondType) eqn:Et; [|destruct (is_optional firstType || is_optional secondType) eqn:Eo].
  - apply returns_or_throws_bind; [unfold check_tags; destruct firstType, secondType; cbn; auto with settling; case_bool_decide; auto with settling|]. intros _. apply returns_or_throws_bind; [apply IH; apply orb_true_iff in Et as [?%T1'|?%T2']; lia|].
    intros m. apply returns_or_throws_bind; [|auto with settling]. destruct firstType, secondType; try discriminate Et; apply returns_ok.
  - unfold MergeOptionalTypes. destruct (negb _ && _); [apply throws_ok|]. apply returns_or_throws_bind; [|auto with settling]. apply IH. apply orb_true_iff in Eo as [?%O1'|?%O2']; lia.
  - apply bare_settles. intros o n Hs. apply IH. lia.
Qed.
End Settles.

(** ** The merged type and the check of compatibility *)

(** Fields without stable names of their own, and none removed. *)
Definition plain (type : TLogicalType) : Prop :=
  match type with
  | StructType fields removed => Forall (λ f, StableName f = Name f) fields ∧ removed = []
  | VariantStructType fields => Forall (λ f, StableName f = Name f) fields
  | _ => True
  end.

Definition regular (type : TLogicalType) : Prop := valid type ∧ plain type ∧ inhabited_variant type.

Section Compatible.
Context `{NamesOrderLaws}.
#[local] Abbreviation Check := (CheckTypeCompatibilityImpl CompatibilityOptions).

Lemma regular_refl fuel type : throughout regular type → (type_size type < fuel)%nat → Check fuel type type = Ok FullyCompatible.
Proof. intros Hr Hf. apply check_refl; [| |done]; (eapply throughout_impl; [|exact Hr]); unfold regular; tauto. Qed.

(** Cores are compared inside of optionals and tags. *)
Lemma check_wrapped fuel oldType oldCore oldCount newType newCore newCount : UnwrapOptionalAndTagged oldType = (oldCore, oldCount) → UnwrapOptionalAndTagged newType = (newCore, newCount) → (oldCount = newCount ∨ oldCount = 0%nat ∧ newCount = 1%nat) →
  is_state oldCore && negb (is_state newCore) = false → (type_size oldType + type_size newType < fuel)%nat →
  (∀ fuel, (type_size oldCore + type_size newCore <= fuel)%nat → CheckBareTypes CompatibilityOptions (Check fuel) oldCore newCore = Ok FullyCompatible) → Check fuel oldType newType = Ok FullyCompatible.
Proof.
  intros Eo En Hcount Hs Hf Hbare. pose proof (unwrap_size _ _ _ Eo) as So. pose proof (unwrap_size _ _ _ En) as Sn. destruct fuel as [|fuel]; [lia|]. cbn [CheckTypeCompatibilityImpl]. destruct (is_wrapped oldType || is_wrapped newType) eqn:Ew.
  - unfold CheckWrappedTypes. rewrite Eo, En, Hs. assert (Nat.eqb oldCount newCount || Nat.eqb oldCount 0 && Nat.eqb newCount 1 = true) as -> by (destruct Hcount as [-> |[-> ->]]; [by rewrite Nat.eqb_refl|done]).
    assert (type_size oldCore + type_size newCore < fuel)%nat as Hlt by (destruct (is_wrapped oldType), (is_wrapped newType); try done; lia). destruct fuel as [|fuel]; [lia|]. cbn [CheckTypeCompatibilityImpl]. rewrite (unwrap_bare _ _ _ Eo), (unwrap_bare _ _ _ En). cbn [orb]. apply Hbare. lia.
  - apply orb_false_iff in Ew as [Wo Wn]. rewrite unwrap_of_bare in Eo, En by done. injection Eo as <- <-. injection En as <- <-. apply Hbare. lia.
Qed.

Lemma check_optional fuel type : throughout regular type → IsNullable type = false → (type_size type + type_size (OptionalType type) < fuel)%nat → Check fuel type (OptionalType type) = Ok FullyCompatible.
Proof.
  intros Hr Hn Hf. destruct (UnwrapOptionalAndTagged type) as [core count] eqn:E. assert (count = 0%nat) as -> by (rewrite (unwrap_nullable _ _ _ E) in Hn; by destruct count).
  apply (check_wrapped _ _ core 0 _ core 1); [done|by cbn [UnwrapOptionalAndTagged]; rewrite E|by right|by destruct (is_state core)|done|]. intros fuel' Hfuel. pose proof (regular_refl (S fuel') core (unwrap_throughout _ _ _ _ E Hr) ltac:(lia)) as Hcore. cbn [CheckTypeCompatibilityImpl] in Hcore. by rewrite (unwrap_bare _ _ _ E) in Hcore.
Qed.

(** Both types are fully compatible with the merged one. *)
Definition compatible (oldType type : TLogicalType) : Prop := ∀ fuel, (type_size oldType + type_size type < fuel)%nat → Check fuel oldType type = Ok FullyCompatible.

Definition merges_compatible (merge : TLogicalType → TLogicalType → Result TLogicalType) : Prop :=
  ∀ firstType secondType type, throughout regular firstType → throughout regular secondType → merge firstType secondType = Ok type → compatible firstType type ∧ compatible secondType type.

Lemma compatible_refl type : throughout regular type → compatible type type.
Proof. intros Hr fuel Hf. apply regular_refl; [done|lia]. Qed.

Lemma extra_compatible makeNullability field : throughout regular (FieldType field) → compatible (FieldType field) (FieldType (extra_field makeNullability field)).
Proof.
  intros Hr. unfold extra_field. destruct (negb (IsNullable (FieldType field)) && makeNullability) eqn:E; [|by apply compatible_refl]. apply andb_prop in E as [E%negb_true_iff _]. intros fuel Hf. by apply check_optional.
Qed.

Definition field_compatible (o n : TStructField TLogicalType) : Prop := Name o = Name n ∧ StableName o = StableName n ∧ compatible (FieldType o) (FieldType n).

Definition field_regular (f : TStructField TLogicalType) : Prop := throughout regular (FieldType f) ∧ StableName f = Name f.

Lemma fields_compatible merge makeNullability firstFields secondFields fields : merges_compatible merge → Forall field_regular firstFields → Forall field_regular secondFields → fields_merge merge makeNullability firstFields secondFields = Ok fields →
  ∃ merged extra, fields = merged ++ extra ∧ Forall2 field_compatible firstFields merged ∧ Forall2 field_compatible secondFields fields ∧ (makeNullability = true → Forall (λ f, IsNullable (FieldType f) = true) extra).
Proof.
  intros IH. revert secondFields fields. induction firstFields as [|f firstFields IHf]; intros secondFields fields H1 H2; cbn [fields_merge].
  - assert (fields = map (extra_field makeNullability) secondFields → ∃ merged extra, fields = merged ++ extra ∧ Forall2 field_compatible [] merged ∧ Forall2 field_compatible secondFields fields ∧ (makeNullability = true → Forall (λ f, IsNullable (FieldType f) = true) extra)) as Hend;
      [|destruct secondFields; intros [= E]; by apply Hend].
    intros ->. exists [], (map (extra_field makeNullability) secondFields). split_and!; [done|constructor| |].
    + induction H2 as [|s secondFields [Hr Hs] _ IHs]; constructor; [|done]. pose proof (extra_compatible makeNullability s Hr) as Hc. revert Hc. unfold field_compatible, extra_field. by destruct (negb _ && _).
    + intros ->. apply list.Forall_forall. intros x (y & -> & _)%list_elem_of_fmap. apply extra_field_nullable.
  - destruct secondFields as [|s secondFields]; [done|]. apply list.Forall_cons in H1 as [[Hf Nf] Hfs], H2 as [[Hs Ns] Hss]. case_bool_decide as En; [done|]. destruct (merge (FieldType f) (FieldType s)) as [m| | |] eqn:Em; try done. run_bind. destruct (fields_merge _ _ _ _) as [ms| | |] eqn:Ems; try done. run_bind. intros [= <-].
    destruct (IH _ _ m Hf Hs Em) as [A1 A2]. destruct (IHf _ _ Hfs Hss Ems) as (merged & extra & -> & B1 & B2 & B3). exists (Build_TStructField (Name f) (Name f) m :: merged), extra. split_and!; [done| | |done]; (constructor; [|done]); split_and!; cbn [Name StableName FieldType]; try done; congruence.
Qed.

Lemma regular_fields fields : Forall (λ f, StableName f = Name f) fields → Forall (throughout regular) (map FieldType fields) → Forall field_regular fields.
Proof. intros Hn Ht%field_children. rewrite list.Forall_forall in *. intros f Hf. split; [by apply Ht|by apply Hn]. Qed.

(** Fields of both types against those of the merged one. *)
Lemma struct_compatible merge isStruct firstFields secondFields fields : merges_compatible merge → Forall field_regular firstFields → Forall field_regular secondFields → names_valid firstFields [] → names_valid secondFields [] →
  MergeStructTypes merge isStruct firstFields secondFields = Ok fields →
  Forall (λ oldFields, ∀ fuel, (∀ o n, o ∈ oldFields → n ∈ fields → type_size (FieldType o) + type_size (FieldType n) < fuel)%nat → isStruct = true ∨ oldFields ≠ [] → CheckFieldsCompatibility CompatibilityOptions (Check fuel) isStruct oldFields [] fields [] = Ok FullyCompatible) [firstFields; secondFields].
Proof.
  intros IH H1 H2 V1 V2. assert (∀ long, names_valid long [] → Forall2 field_compatible long fields → names_valid fields []) as Hvalid.
  { intros long (Hn & _ & _) Hc. split_and!; [|constructor|apply list.Forall_forall; intros; apply not_elem_of_nil]. replace (map StableName fields) with (map StableName long); [done|]. clear - Hc. induction Hc as [|o n ? ? (_ & Hs & _) _ IHc]; [done|]. cbn [map]. by rewrite Hs, IHc. }
  assert (∀ oldFields merged extra, fields = merged ++ extra → names_valid fields [] → names_valid oldFields [] → Forall2 field_compatible oldFields merged → (isStruct = true → Forall (λ f, IsNullable (FieldType f) = true) extra) → ∀ fuel,
    (∀ o n, o ∈ oldFields → n ∈ fields → type_size (FieldType o) + type_size (FieldType n) < fuel)%nat → isStruct = true ∨ oldFields ≠ [] → CheckFieldsCompatibility CompatibilityOptions (Check fuel) isStruct oldFields [] fields [] = Ok FullyCompatible) as Hext.
  { intros oldFields merged extra E Vf Vo Hc Hx fuel Hsize Hne. rewrite E in Vf. rewrite E. apply fields_extended; try done. apply Forall2_same_length_lookup. split; [by eapply list.Forall2_length|]. intros i o n Ho Hn. destruct (Forall2_lookup_lr _ _ _ _ _ _ Hc Ho Hn) as (? & ? & Hcomp). split_and!; [done|done|].
    apply Hcomp, Hsize; [by eapply list_elem_of_lookup_2|rewrite E; apply elem_of_app; left; by eapply list_elem_of_lookup_2]. }
  unfold MergeStructTypes. destruct (Nat.ltb _ _); intros (merged & extra & E & B1 & B2 & B3)%fields_compatible; try done; rewrite !list.Forall_cons; split_and!; try constructor;
    first [apply (Hext _ merged extra); [done|by eapply Hvalid; [|exact B2]|done..]|apply (Hext _ fields []); [by rewrite app_nil_r|by eapply Hvalid; [|exact B2]|done|done|constructor]].
Qed.

Lemma elements_compatible merge firstElements secondElements elements : merges_compatible merge → Forall (throughout regular) firstElements → Forall (throughout regular) secondElements → elements_merge merge firstElements secondElements = Ok elements →
  ∃ merged extra, elements = merged ++ extra ∧ Forall2 compatible firstElements merged ∧ Forall2 compatible secondElements elements.
Proof.
  intros IH. revert secondElements elements. induction firstElements as [|f firstElements IHf]; intros secondElements elements H1 H2; cbn [elements_merge].
  - assert (Forall2 compatible secondElements secondElements) as Hrefl by (induction H2; constructor; [by apply compatible_refl|done]). destruct secondElements; intros [= <-]; [by exists [], []|]. exists [], (t :: secondElements). by split_and!.
  - destruct secondElements as [|s secondElements]; [done|]. apply list.Forall_cons in H1 as [Hf Hfs], H2 as [Hs Hss]. destruct (merge f s) as [m| | |] eqn:Em; try done. run_bind. destruct (elements_merge _ _ _) as [ms| | |] eqn:Ems; try done. run_bind. intros [= <-].
    destruct (IH f s m Hf Hs Em) as [A1 A2]. destruct (IHf _ _ Hfs Hss Ems) as (merged & extra & -> & B1 & B2). exists (m :: merged), extra. split_and!; [done|by constructor|by constructor].
Qed.

Lemma elements_extended check allow oldElements merged extra : Forall2 (λ o n, check o n = Ok FullyCompatible) oldElements merged → (allow = true ∨ extra = []) → CheckElementsCompatibility check oldElements (merged ++ extra) allow = Ok FullyCompatible.
Proof.
  intros Hc Ha. unfold CheckElementsCompatibility. pose proof (list.Forall2_length _ _ _ Hc) as Hl. rewrite length_app. destruct (Nat.ltb_spec (length merged + length extra) (length oldElements)); [lia|].
  assert (negb allow && negb (Nat.eqb (length oldElements) (length merged + length extra)) = false) as -> by (destruct Ha as [-> | ->]; [done|]; rewrite Nat.add_0_r, Hl, Nat.eqb_refl; by destruct allow).
  clear - Hc. induction Hc as [|o n oldElements merged Hc _ IH]; cbn [elements_loop app]; [by destruct extra|]. rewrite Hc. run_bind. apply IH.
Qed.

Lemma tuple_compatible merge allow firstElements secondElements elements : merges_compatible merge → Forall (throughout regular) firstElements → Forall (throughout regular) secondElements → MergeTupleTypes merge allow firstElements secondElements = Ok elements →
  Forall (λ oldElements, ∀ fuel, (∀ o n, o ∈ oldElements → n ∈ elements → type_size o + type_size n < fuel)%nat → CheckElementsCompatibility (Check fuel) oldElements elements allow = Ok FullyCompatible) [firstElements; secondElements].
Proof.
  intros IH H1 H2. assert (∀ oldElements merged extra fuel, elements = merged ++ extra → Forall2 compatible oldElements merged → allow = true ∨ extra = [] → (∀ o n, o ∈ oldElements → n ∈ elements → type_size o + type_size n < fuel)%nat →
    CheckElementsCompatibility (Check fuel) oldElements elements allow = Ok FullyCompatible) as Hext.
  { intros oldElements merged extra fuel E Hc Hx Hsize. rewrite E. apply elements_extended; [|done]. apply Forall2_same_length_lookup. split; [by eapply list.Forall2_length|]. intros i o n Ho Hn. apply (Forall2_lookup_lr _ _ _ _ _ _ Hc Ho Hn), Hsize; [by eapply list_elem_of_lookup_2|rewrite E; apply elem_of_app; left; by eapply list_elem_of_lookup_2]. }
  assert (∀ short long, Forall (throughout regular) short → Forall (throughout regular) long → (if negb allow && negb (Nat.eqb (length short) (length long)) then Throw EBadLogicalType else elements_merge merge short long) = Ok elements →
    ∀ fuel, ((∀ o n, o ∈ short → n ∈ elements → type_size o + type_size n < fuel)%nat → CheckElementsCompatibility (Check fuel) short elements allow = Ok FullyCompatible) ∧ ((∀ o n, o ∈ long → n ∈ elements → type_size o + type_size n < fuel)%nat → CheckElementsCompatibility (Check fuel) long elements allow = Ok FullyCompatible)) as Hspec.
  { intros short long Hs Hl. destruct (negb allow && _) eqn:Ea; [done|]. intros (merged & extra & E & B1 & B2)%elements_compatible fuel; try done. split; [|apply (Hext long elements []); [by rewrite app_nil_r|done|by right]]. apply (Hext short merged extra); [done|done|]. destruct allow; [by left|right].
    apply negb_false_iff, Nat.eqb_eq in Ea. apply list.Forall2_length in B1, B2. rewrite E, length_app in B2. destruct extra; [done|]. simpl in B2. lia. }
  unfold MergeTupleTypes. destruct (Nat.ltb _ _); intros Hm; rewrite !list.Forall_cons; split_and!; try constructor; intros fuel; first [apply (Hspec _ _ H1 H2 Hm fuel)|apply (Hspec _ _ H2 H1 Hm fuel)].
Qed.

Lemma bare_refl fuel type : throughout regular type → is_wrapped type = false → (type_size type <= fuel)%nat → CheckBareTypes CompatibilityOptions (Check fuel) type type = Ok FullyCompatible.
Proof. intros Hr Hw Hf. pose proof (regular_refl (S fuel) type Hr ltac:(lia)) as E. cbn [CheckTypeCompatibilityImpl] in E. by rewrite Hw in E. Qed.

(** Cores that are fully compatible, below any number of optionals and tags. *)
Definition bare_compatible (oldType type : TLogicalType) : Prop := is_state oldType && negb (is_state type) = false ∧ ∀ fuel, (type_size oldType + type_size type <= fuel)%nat → CheckBareTypes CompatibilityOptions (Check fuel) oldType type = Ok FullyCompatible.

Lemma bare_compatible_refl type : throughout regular type → is_wrapped type = false → bare_compatible type type.
Proof. intros Hr Hw. split; [by destruct (is_state type)|]. intros fuel Hf. apply bare_refl; [done|done|lia]. Qed.

Lemma child_sizes oldType type fuel o n : (type_size oldType + type_size type <= fuel)%nat → o ∈ children oldType → n ∈ children type → (type_size o + type_size n < fuel)%nat.
Proof. intros Hf Ho%child_size Hn%child_size. lia. Qed.

Lemma bare_merge_compatible merge firstType secondType type : merges_compatible merge → throughout regular firstType → throughout regular secondType → is_wrapped firstType = false → is_wrapped secondType = false →
  MergeBareTypes merge firstType secondType = Ok type → bare_compatible firstType type ∧ bare_compatible secondType type.
Proof.
  intros IH H1 H2 W1 W2. pose proof (children_ok _ _ H1) as C1. pose proof (children_ok _ _ H2) as C2. pose proof (bare_compatible_refl _ H1 W1) as R1. pose proof (bare_compatible_refl _ H2 W2) as R2. pose proof (throughout_root _ _ H1) as (V1 & P1 & I1). pose proof (throughout_root _ _ H2) as (V2 & P2 & I2).
  assert (throughout valid firstType ∧ throughout valid secondType) as [T1 T2] by (split; (eapply throughout_impl; [|done]); unfold regular; tauto).
  destruct firstType as [o|p s|e|e|oldFields oldRemoved|oldElements|oldFields|oldElements|key value|tag e|function argument element], secondType as [o'|p' s'|e'|e'|newFields newRemoved|newElements|newFields|newElements|key' value'|tag' e'|function' argument' element'];
    try discriminate; cbn [MergeBareTypes]; try done; cbn [children plain] in *; rewrite ?list.Forall_cons in C1, C2.
  - intros [[-> E]|[-> E]]%(simple_merge o o' type); by split.
  - destruct (type_equal _ _) eqn:E; [|done]. intros [= <-]. split; [done|]. by rewrite (state_equal _ _ W1 I (valid_state _ V1) (valid_state _ V2) E).
  - destruct (merge e e') as [m| | |] eqn:Em; try done. run_bind. intros [= <-]. destruct (IH e e' m (proj1 C1) (proj1 C2) Em) as [A1 A2]. split; (split; [done|]); intros fuel Hf; [apply A1|apply A2]; cbn [type_size] in Hf; lia.
  - destruct (MergeStructTypes _ _ _ _) as [fields| | |] eqn:Em; try done. run_bind. intros [= <-]. destruct P1 as [P1 ->], P2 as [P2 ->]. apply struct_compatible in Em; [|done|by apply regular_fields|by apply regular_fields|by apply struct_names|by apply struct_names]. rewrite !list.Forall_cons in Em. destruct Em as (A1 & A2 & _).
    split; (split; [done|]); intros fuel Hf; [apply A1|apply A2]; try (by left); intros o n Ho Hn; (eapply child_sizes; [exact Hf|apply list_elem_of_fmap; by exists o|apply list_elem_of_fmap; by exists n]).
  - destruct (MergeTupleTypes _ _ _ _) as [elements| | |] eqn:Em; try done. run_bind. intros [= <-]. apply tuple_compatible in Em; [|done..]. rewrite !list.Forall_cons in Em. destruct Em as (A1 & A2 & _). split; (split; [done|]); intros fuel Hf; [apply A1|apply A2]; intros o n Ho Hn; by eapply child_sizes.
  - destruct (MergeStructTypes _ _ _ _) as [fields| | |] eqn:Em; try done. run_bind. intros [= <-]. apply struct_compatible in Em; [|done|by apply regular_fields|by apply regular_fields|by apply variant_names|by apply variant_names]. rewrite !list.Forall_cons in Em. destruct Em as (A1 & A2 & _).
    split; (split; [done|]); intros fuel Hf; [apply A1|apply A2]; try (right; by intros ->); intros o n Ho Hn; (eapply child_sizes; [exact Hf|apply list_elem_of_fmap; by exists o|apply list_elem_of_fmap; by exists n]).
  - destruct (MergeTupleTypes _ _ _ _) as [elements| | |] eqn:Em; try done. run_bind. intros [= <-]. apply tuple_compatible in Em; [|done..]. rewrite !list.Forall_cons in Em. destruct Em as (A1 & A2 & _). split; (split; [done|]); intros fuel Hf; [apply A1|apply A2]; intros o n Ho Hn; by eapply child_sizes.
  - unfold MergeDictTypes. destruct (merge key key') as [k| | |] eqn:Ek; try done. run_bind. destruct (merge value value') as [v| | |] eqn:Ev; try done. run_bind. intros [= <-].
    destruct C1 as (K1 & U1 & _), C2 as (K2 & U2 & _). destruct (IH _ _ _ K1 K2 Ek) as [A1 A2], (IH _ _ _ U1 U2 Ev) as [B1 B2].
    split; (split; [done|]); intros fuel Hf; cbn [CheckBareTypes type_size] in *; unfold CheckDictTypeCompatibility; [rewrite A1 by lia|rewrite A2 by lia]; run_bind; (rewrite bool_decide_eq_false_2 by done); [rewrite B1 by lia|rewrite B2 by lia]; done.
  - destruct (type_equal _ _) eqn:E; [|done]. intros [= <-]. split; [done|]. by rewrite (state_equal _ _ W1 I (valid_state _ V1) (valid_state _ V2) E).
Qed.

Lemma merge_compatible fuel : merges_compatible (MergeTypesImpl fuel).
Proof.
  induction fuel as [fuel IH] using lt_wf_ind. intros firstType secondType type H1 H2 E. destruct (UnwrapOptionalAndTagged firstType) as [firstCore firstCount] eqn:E1. destruct (UnwrapOptionalAndTagged secondType) as [secondCore secondCount] eqn:E2.
  destruct (merge_core _ _ _ _ _ _ _ _ E E1 E2) as (fuel' & core & Hf & Eu & Eb & Hcount).
  destruct (bare_merge_compatible _ _ _ _ (IH fuel' Hf) (unwrap_throughout _ _ _ _ E1 H1) (unwrap_throughout _ _ _ _ E2 H2) (unwrap_bare _ _ _ E1) (unwrap_bare _ _ _ E2) Eb) as [[S1 A1] [S2 A2]].
  split; intros fuel2 Hfuel2; [apply (check_wrapped fuel2 firstType firstCore firstCount type core (Nat.max firstCount secondCount)); try done; lia|apply (check_wrapped fuel2 secondType secondCore secondCount type core (Nat.max firstCount secondCount)); try done; lia].
Qed.
End Compatible.

(** ** A type merged with itself *)

Fixpoint forget_names (type : TLogicalType) : TLogicalType :=
  match type with
  | SimpleType _ | DecimalType _ _ | AggregateStateType _ _ _ => type
  | OptionalType element => OptionalType (forget_names element)
  | ListType element => ListType (forget_names element)
  | TaggedType tag element => TaggedType tag (forget_names element)
  | StructType fields _ => StructType (map (λ f, Build_TStructField (Name f) (Name f) (forget_names (FieldType f))) fields) []
  | VariantStructType fields => VariantStructType (map (λ f, Build_TStructField (Name f) (Name f) (forget_names (FieldType f))) fields)
  | TupleType elements => TupleType (map forget_names elements)
  | VariantTupleType elements => VariantTupleType (map forget_names elements)
  | DictType key value => DictType (forget_names key) (forget_names value)
  end.

Section Itself.
Context `{NamesOrder}.

Lemma elements_self merge elements : (∀ e, e ∈ elements → merge e e = Ok (forget_names e)) → elements_merge merge elements elements = Ok (map forget_names elements).
Proof. induction elements as [|e elements IH]; intros Hm; cbn [elements_merge map]; [done|]. rewrite Hm by (by left). run_bind. rewrite IH by (intros; apply Hm; by right). done. Qed.

Lemma fields_self merge nullability fields : (∀ f, f ∈ fields → merge (FieldType f) (FieldType f) = Ok (forget_names (FieldType f))) →
  fields_merge merge nullability fields fields = Ok (map (λ f, Build_TStructField (Name f) (Name f) (forget_names (FieldType f))) fields).
Proof. induction fields as [|f fields IH]; intros Hm; cbn [fields_merge map]; [done|]. rewrite bool_decide_eq_false_2 by (by intros []). rewrite Hm by (by left). run_bind. rewrite IH by (intros; apply Hm; by right). done. Qed.

Lemma merge_self fuel type : (type_size type < fuel)%nat → MergeTypesImpl fuel type type = Ok (forget_names type).
Proof.
  revert type. induction fuel as [|fuel IH]; intros type Hf; [lia|]. assert (∀ c, c ∈ children type → MergeTypesImpl fuel c c = Ok (forget_names c)) as Hc by (intros c Hin%child_size; apply IH; lia).
  destruct type as [s|p s|e|e|fields removed|elements|fields|elements|key value|tag e|function argument element]; cbn [MergeTypesImpl is_tagged is_optional orb MergeBareTypes children forget_names] in *.
  - unfold areTypesCompatible, CheckTypeCompatibility. cbn [type_size Nat.add CheckTypeCompatibilityImpl is_wrapped orb CheckBareTypes]. by rewrite simple_refl.
  - assert (type_equal (DecimalType p s) (DecimalType p s) = true) as -> by (by apply type_equal_spec). done.
  - unfold MergeOptionalTypes. rewrite Nat.eqb_refl. cbn [negb andb UnwrapOptionalType]. rewrite Hc by (by left). done.
  - rewrite Hc by (by left). done.
  - unfold MergeStructTypes. rewrite Nat.ltb_irrefl, fields_self; [done|]. intros f Hin. apply Hc, list_elem_of_fmap. by exists f.
  - unfold MergeTupleTypes. rewrite Nat.ltb_irrefl, Nat.eqb_refl. cbn [negb andb]. by rewrite elements_self.
  - unfold MergeStructTypes. rewrite Nat.ltb_irrefl, fields_self; [done|]. intros f Hin. apply Hc, list_elem_of_fmap. by exists f.
  - unfold MergeTupleTypes. rewrite Nat.ltb_irrefl. cbn [negb andb]. by rewrite elements_self.
  - unfold MergeDictTypes. rewrite (Hc key) by (by left). run_bind. by rewrite (Hc value) by (by right; left).
  - unfold MergeTaggedTypes, check_tags. cbn [is_tagged andb GetTag UnwrapTaggedType]. run_bind. rewrite bool_decide_eq_false_2 by (by intros []). run_bind. rewrite Hc by (by left). done.
  - assert (type_equal (AggregateStateType function argument element) (AggregateStateType function argument element) = true) as -> by (by apply type_equal_spec). done.
Qed.
End Itself.

(** ** Theorems *)

(** C17. [MergeTypes] of two validated types returns a type or throws, and merging a type with itself only forgets the
    stable names of fields and the removed ones. Every value of either type is a value of the merged type, provided that
    the merged type is valid (which [merged_names_clash] and [merged_any_tagged] show not to follow), has no field that
    is nullable without being an optional and no optional of an aggregate state that may be null. Both types are fully
    compatible with the merged one by [CheckTypeCompatibility], provided that in both no field has a stable name of its
    own, no field was removed and no variant with names is empty. *)
Theorem MergeTypes_correct `{NamesOrderLaws} validate_json firstType secondType :
  LogicalType.ValidateLogicalType None firstType = Ok () → LogicalType.ValidateLogicalType None secondType = Ok () →
  ((∃ type, MergeTypes firstType secondType = Ok type) ∨ MergeTypes firstType secondType = Throw EBadLogicalType) ∧
  MergeTypes firstType firstType = Ok (forget_names firstType) ∧
  ∀ type, MergeTypes firstType secondType = Ok type →
    (LogicalType.ValidateLogicalType None type = Ok () → throughout fields_optional type → throughout state_unboxed type →
      ∀ n, Conforms validate_json firstType n ∨ Conforms validate_json secondType n → Conforms validate_json type n) ∧
    (throughout plain firstType → throughout plain secondType → throughout inhabited_variant firstType → throughout inhabited_variant secondType →
      CheckTypeCompatibility CompatibilityOptions firstType type = Ok FullyCompatible ∧ CheckTypeCompatibility CompatibilityOptions secondType type = Ok FullyCompatible).
Proof.
  intros H1%(decides_ok _ _ _ (ValidateLogicalType_decides _ _)) H2%(decides_ok _ _ _ (ValidateLogicalType_decides _ _)). pose proof (WellFormed_valid _ _ H1) as V1. pose proof (WellFormed_valid _ _ H2) as V2. split_and!.
  - apply merge_settles. lia.
  - apply merge_self. lia.
  - intros type E. split.
    + intros Hm%(decides_ok _ _ _ (ValidateLogicalType_decides _ _)) Hfields Hstates n. pose proof (WellFormed_valid _ _ Hm) as Vm. destruct (WellFormed_any _ _ Hm) as [Hany Hne].
      destruct (merge_sound validate_json _ _ _ _ (throughout_impl _ _ _ valid_state V1) (throughout_impl _ _ _ valid_state V2) E) as [A1 A2].
      assert (throughout target_ok type) as Ht by (intros stack t Ht; split_and!; [by apply valid_state, (Vm stack)|by apply (Hany stack)|by apply (Hfields stack)|by apply (Hstates stack)]).
      intros [Hn|Hn]; [by apply (A1 Ht Hne)|by apply (A2 Ht Hne)].
    + intros P1 P2 I1 I2. destruct (merge_compatible (S (type_size firstType + type_size secondType)) firstType secondType type) with (3 := E) as [A1 A2]; [by intros stack t Ho; split_and!; [apply (V1 stack)|apply (P1 stack)|apply (I1 stack)]|by intros stack t Ho; split_and!; [apply (V2 stack)|apply (P2 stack)|apply (I2 stack)]|].
      split; [apply A1; lia|apply A2; lia].
Qed.

#[local] Existing Instances lexical_order lexical_order_laws.

Lemma MergeTypes_correct_witness (firstType := TupleType [OptionalType (SimpleType SimpleInt8); SimpleType SimpleUtf8]) (secondType := TupleType [SimpleType SimpleInt64; SimpleType SimpleString])
  (type := TupleType [OptionalType (SimpleType SimpleInt64); SimpleType SimpleString]) :
  MergeTypes firstType secondType = Ok type ∧ CheckTypeCompatibility CompatibilityOptions firstType type = Ok FullyCompatible ∧ CheckTypeCompatibility CompatibilityOptions secondType type = Ok FullyCompatible ∧
  MergeTypes firstType firstType = Ok firstType ∧ Conforms (λ _, true) type (Node None (VList [Node None (VInt64 300); Node None (VString (B"a"))])).
Proof.
  assert (∀ P : TLogicalType → Prop, (∀ t, P (SimpleType t)) → (∀ t, P (OptionalType (SimpleType t))) → (∀ ts, P (TupleType ts)) → ∀ s s' s'', throughout P (TupleType [OptionalType (SimpleType s); SimpleType s']) ∧ throughout P (TupleType [SimpleType s''; SimpleType s'])) as Hall.
  { intros P Ps Po Pt s s' s''. assert (∀ t, throughout P (SimpleType t)) as Hs by (intros t; apply throughout_intro; [done|]; by intros ? ?%not_elem_of_nil).
    assert (throughout P (OptionalType (SimpleType s))) as Ho by (apply throughout_intro; [done|]; intros ? ->%list_elem_of_singleton; apply Hs).
    split; (apply throughout_intro; [done|]; intros c; cbn; intros [-> |[-> |?%not_elem_of_nil]%elem_of_cons]%elem_of_cons; done). }
  destruct (MergeTypes_correct (λ _, true) firstType secondType) as (_ & Hself & Hmerge); [vm_compute; reflexivity..|]. destruct (Hmerge type) as [Hvalues Hcompatible]; [vm_compute; reflexivity|].
  destruct Hcompatible as [C1 C2]; [apply (Hall plain) with (s'' := SimpleInt8); done|apply (Hall plain) with (s := SimpleInt8); done|apply (Hall inhabited_variant) with (s'' := SimpleInt8); done|apply (Hall inhabited_variant) with (s := SimpleInt8); done|].
  split_and!; [vm_compute; reflexivity|done|done|exact Hself|]. apply Hvalues; [vm_compute; reflexivity|apply (Hall fields_optional) with (s'' := SimpleInt8); done|apply (Hall state_unboxed) with (s'' := SimpleInt8); done|].
  right. apply conforms_tuple. repeat constructor; first [left; discriminate|right; split; discriminate|idtac].
Defined.

(** A field that only one of two structs has keeps its stable name when it is nullable: with the names that merged
    fields get, the merged type of two valid types may repeat a stable name. *)
Lemma merged_names_clash (field := λ name stable, Build_TStructField name stable (OptionalType (SimpleType SimpleInt64)))
  (firstType := StructType [field (B"a") (B"a")] []) (secondType := StructType [field (B"a") (B"x"); field (B"b") (B"a")] []) (type := StructType [field (B"a") (B"a"); field (B"b") (B"a")] []) :
  LogicalType.ValidateLogicalType None firstType = Ok () ∧ LogicalType.ValidateLogicalType None secondType = Ok () ∧ MergeTypes firstType secondType = Ok type ∧
  LogicalType.ValidateLogicalType None type = Throw EBadLogicalType ∧ CheckTypeCompatibility CompatibilityOptions type type = Crash.
Proof. split_and!; vm_compute; reflexivity. Qed.

(** Any takes the place of a tagged type inside of an optional, where it is not valid. *)
Lemma merged_any_tagged (firstType := OptionalType (TaggedType (B"t") (SimpleType SimpleInt64))) (secondType := OptionalType (SimpleType SimpleAny)) (type := OptionalType (TaggedType (B"t") (SimpleType SimpleAny))) :
  LogicalType.ValidateLogicalType None firstType = Ok () ∧ LogicalType.ValidateLogicalType None secondType = Ok () ∧ MergeTypes firstType secondType = Ok type ∧ LogicalType.ValidateLogicalType None type = Throw EBadLogicalType.
Proof. split_and!; vm_compute; reflexivity. Qed.
