(* ===== verification/RowValidation.v ===== *)
(** Validation of the values of rows (client/table_client/unversioned_row.cpp) by the columns of a
    schema (schema.h, schema.cpp), and of the rows that clients write. Messages of errors are not
    modelled; the limits are those of public.h. *)

From stdpp Require Import gmap.
From S2P Require Import Prelude CompositeCompare Utf8 YsonStream YsonLexer YsonEvents YsonParser YsonGrammar YsonWriter LogicalType Compare RowValues RowCodec Deserialize Decimal DecimalText ComplexTypeValidator ComplexTypeValues Comparator.

#[local] Set Warnings "-clear-no-such-hyp".

(** ** Any *)

(** The depth stays below the nesting limit of the parser. *)
Record TYsonAnyValidator := { Depth_ : Z; MapFound_ : bool; AttributesFound_ : bool }.

Definition NewAnyValidator : TYsonAnyValidator := {| Depth_ := 0; MapFound_ := false; AttributesFound_ := false |}.

#[export] Instance YsonAnyValidator : IYsonConsumer TYsonAnyValidator := λ ev v,
  match ev with
  | OnBeginList => Ok ({| Depth_ := Depth_ v + 1; MapFound_ := MapFound_ v; AttributesFound_ := AttributesFound_ v |}, false)
  | OnBeginMap => Ok ({| Depth_ := Depth_ v + 1; MapFound_ := true; AttributesFound_ := AttributesFound_ v |}, false)
  | OnEndList | OnEndMap => Ok ({| Depth_ := Depth_ v - 1; MapFound_ := MapFound_ v; AttributesFound_ := AttributesFound_ v |}, false)
  | OnBeginAttributes => if Depth_ v =? 0 then Throw EConsumer else Ok ({| Depth_ := Depth_ v; MapFound_ := MapFound_ v; AttributesFound_ := true |}, false)
  | _ => Ok (v, false)
  end.

Definition CanBeSorted (v : TYsonAnyValidator) : bool := negb (MapFound_ v) && negb (AttributesFound_ v).

Section Any.
Context (fd : list byte → Result Z).

(** [ParseYsonStringBuffer] with the validator as the consumer. *)
Definition validate_any (yson : list byte) : Result TYsonAnyValidator :=
  p ← DoParse fd DefaultMemoryLimit DefaultYsonParserNestingLevelLimit YsonNode (NewParser (TStringReader yson) NewAnyValidator); Ok (Consumer p).

Definition CheckSortedAnyValue (yson : list byte) : Result bool := validator ← validate_any yson; Ok (CanBeSorted validator).

Definition ValidateAnyValue (yson : list byte) : Result () := _ ← validate_any yson; Ok ().
End Any.

(** ** Columns *)

(** [SetLogicalType] computes the other members from the type; the lock, the group and the sizes of hunks play no part here. *)
Record TColumnSchema := { ColumnStableName : list byte; ColumnName : list byte; LogicalTypeOf : TLogicalType; SortOrder : option ESortOrder; Expression : option (list byte); Materialized : option bool; Aggregate : option (list byte) }.

Definition ColumnRequired (column : TColumnSchema) : bool := Required (GetTypeV3Info (LogicalTypeOf column)).
Definition ColumnV1Type (column : TColumnSchema) : ESimpleLogicalValueType := V1Type (GetTypeV3Info (LogicalTypeOf column)).
Definition IsOfV1Type (column : TColumnSchema) : bool := IsPureV1Type (GetTypeV3Info (LogicalTypeOf column)).

(** ** Values *)

Definition IsAnyOrComposite (type : EValueType) : bool := bool_decide (type = TypeAny) || bool_decide (type = TypeComposite).

Definition IsAnyColumnCompatibleType (type : EValueType) : bool :=
  match type with TypeNull | TypeInt64 | TypeUint64 | TypeDouble | TypeBoolean | TypeString | TypeAny | TypeComposite => true | _ => false end.

Definition ValidateColumnType (expected : EValueType) (value : TUnversionedValue) : Result () := if bool_decide (ValueType value = expected) then Ok () else Throw ESchemaViolation.

(** [AsStringBuf] of a value that is like a string. *)
Definition AsStringBuf (value : TUnversionedValue) : Result (list byte) := match value with ValueString data | ValueAny data | ValueComposite data => Ok data | _ => Crash end.

Fixpoint skip_tags (type : TLogicalType) : TLogicalType := match type with TaggedType _ element => skip_tags element | _ => type end.

Definition UnwrapTaggedAndOptional (type : TLogicalType) : TLogicalType :=
  match skip_tags type with OptionalType element => if IsNullable element then OptionalType element else skip_tags element | current => current end.

Section Validation.
Context (validate_json : list byte → bool) (fd : list byte → Result Z) (ndebug : bool).

(** [ValidateSimpleLogicalType<type>(GetValue<type>(value))]. *)
Definition validate_simple (type : ESimpleLogicalValueType) (value : TUnversionedValue) : Result () :=
  _ ← ValidateColumnType (GetPhysicalType type) value;
  match value with
  | ValueInt64 data => ValidateSimpleLogicalType_int64 type data
  | ValueUint64 data => ValidateSimpleLogicalType_uint64 type data
  | ValueDouble bits => ValidateSimpleLogicalType_double type bits
  | ValueBoolean _ => Ok ()
  | ValueString data => ValidateSimpleLogicalType_string validate_json type data
  | _ => Crash
  end.

Definition validate_any_column (value : TUnversionedValue) (column : TColumnSchema) (typeAnyAcceptsAllValues validateAnyIsValidYson : bool) : Result () :=
  _ ← (if negb typeAnyAcceptsAllValues then ValidateColumnType TypeAny value else if negb (IsAnyColumnCompatibleType (ValueType value)) then Throw ESchemaViolation else Ok ());
  if IsAnyOrComposite (ValueType value) then
    match SortOrder column with
    | Some _ => yson ← AsStringBuf value; canBeSorted ← CheckSortedAnyValue fd yson; if negb canBeSorted then Throw ESchemaViolation else Ok ()
    | None => if validateAnyIsValidYson then yson ← AsStringBuf value; ValidateAnyValue fd yson else Ok ()
    end
  else Ok ().

Definition ValidateValueType (value : TUnversionedValue) (columnSchema : TColumnSchema) (typeAnyAcceptsAllValues ignoreRequired validateAnyIsValidYson : bool) : Result () :=
  if bool_decide (ValueType value = TypeNull) then if ColumnRequired columnSchema then if ignoreRequired then Ok () else Throw ESchemaViolation else Ok ()
  else
    as_violation
      match ColumnV1Type columnSchema with
      | SimpleNull | SimpleVoid => ValidateColumnType TypeNull value
      | SimpleAny =>
          if IsOfV1Type columnSchema then validate_any_column value columnSchema typeAnyAcceptsAllValues validateAnyIsValidYson
          else _ ← ValidateColumnType TypeComposite value; yson ← AsStringBuf value; ValidateComplexLogicalType validate_json fd ndebug yson (LogicalTypeOf columnSchema)
      | SimpleString =>
          if IsOfV1Type columnSchema then validate_simple SimpleString value
          else
            _ ← ValidateColumnType TypeString value;
            yson ← AsStringBuf value;
            match UnwrapTaggedAndOptional (LogicalTypeOf columnSchema) with DecimalType precision scale => ValidateBinaryValue yson precision scale | _ => Crash end
      | type => validate_simple type value
      end.

(** ** Values of dynamic tables *)

Definition MB : Z := 1024 * 1024.
Definition MaxStringValueLength : Z := 16 * MB.
Definition MaxAnyValueLength : Z := 16 * MB.
Definition MaxRowWeightLimit : Z := 128 * MB.
Definition MaxValuesPerRow : Z := 1024.
Definition MaxKeyColumnCount : Z := 256.
Definition MaxRowsPerRowset : Z := 15 * 1024 * 1024.
Definition MaxClientVersionedRowDataWeight : Z := 128 * MB.

Definition ValidateDynamicValue (value : TUnversionedValue) (isKey : bool) : Result () :=
  match value with
  | ValueString data => if Z.of_nat (length data) >? MaxStringValueLength then Throw EBadRow else Ok ()
  | ValueAny data => if Z.of_nat (length data) >? MaxAnyValueLength then Throw EBadRow else ValidateAnyValue fd data
  | ValueDouble bits => if isKey && Compare.isnan bits then Throw EBadRow else Ok ()
  | _ => Ok ()
  end.

Definition ValidateStaticValue (value : TUnversionedValue) : Result () :=
  _ ← ValidateDataValueType (ValueType value);
  match AsStringBuf value with Ok data => if Z.of_nat (length data) >? MaxRowWeightLimit then Throw EBadRow else Ok () | _ => Ok () end.

(** [EValueFlags::Aggregate]. *)
Definition AggregateFlag : Z := 1.

Definition ValidateDataValue (value : TIdValue) : Result () :=
  if negb (Z.ldiff (Flags value) AggregateFlag =? 0) then Throw EBadRow
  else _ ← ValidateDataValueType (ValueType (Value value)); ValidateDynamicValue (Value value) false.

Definition ValidateKeyValue (value : TIdValue) : Result () :=
  if negb (Flags value =? 0) then Throw EBadRow
  else _ ← ValidateKeyValueType (ValueType (Value value)); ValidateDynamicValue (Value value) true.

(** ** Rows *)

Definition limit_count (limit count : Z) : Result () := if count <? 0 then Throw EBadRow else if count >? limit then Throw EBadRow else Ok ().
Definition ValidateRowValueCount (count : Z) : Result () := limit_count MaxValuesPerRow count.
Definition ValidateKeyColumnCount (count : Z) : Result () := limit_count MaxKeyColumnCount count.
Definition ValidateRowCount (count : Z) : Result () := limit_count MaxRowsPerRowset count.

Definition value_weight (value : TUnversionedValue) : Z :=
  match value with
  | ValueNull | ValueMin | ValueMax | ValueTheBottom => 0
  | ValueInt64 _ | ValueUint64 _ | ValueDouble _ => 8
  | ValueBoolean _ => 1
  | ValueString data | ValueAny data | ValueComposite data => Z.of_nat (length data)
  end.

Definition GetDataWeight (row : list TIdValue) : Z := 1 + sum_of (λ value, value_weight (Value value)) row.

(** [KeyColumnCount_] of a schema with the columns. *)
Definition GetKeyColumnCount (columns : list TColumnSchema) : Z := Z.of_nat (length (filter (λ column, is_Some (SortOrder column)) columns)).

Definition ApplyIdMapping (value : TIdValue) (idMapping : list Z) : Result Z := match idMapping !! Z.to_nat (Id value) with Some mappedId => Ok mappedId | None => Throw EBadRow end.

(** [schema.Columns()[mappedId]]. *)
Definition column_at (columns : list TColumnSchema) (mappedId : Z) : option TColumnSchema := if mappedId <? 0 then None else columns !! Z.to_nat mappedId.

Section Rows.
Context (columns : list TColumnSchema) (idMapping : list Z).

(** The loop over the values: the key columns that were seen, and whether a data column was. *)
Fixpoint client_values (isKey : bool) (row : list TIdValue) (keyColumnSeen : gset Z) (haveDataColumns : bool) : Result (gset Z * bool) :=
  match row with
  | [] => Ok (keyColumnSeen, haveDataColumns)
  | value :: row =>
      mappedId ← ApplyIdMapping value idMapping;
      match column_at columns mappedId with
      | None => Throw EBadRow
      | Some column =>
          _ ← ValidateValueType (Value value) column false false false;
          if negb (Z.land (Flags value) AggregateFlag =? 0) && bool_decide (Aggregate column = None) then Throw EBadRow
          else if mappedId <? GetKeyColumnCount columns then
            if bool_decide (mappedId ∈ keyColumnSeen) then Throw EBadRow
            else _ ← ValidateKeyValue value; client_values isKey row ({[mappedId]} ∪ keyColumnSeen) haveDataColumns
          else if isKey then Throw EBadRow
          else _ ← ValidateDataValue value; client_values isKey row keyColumnSeen true
      end
  end.

(** The column of tablet indexes is not checked to be a key column: [keyColumnSeen] has [MaxKeyColumnCount] entries. *)
Definition mark_tablet_index (tabletIndexColumnId : option Z) (keyColumnSeen : gset Z) : Result (gset Z) :=
  match tabletIndexColumnId with
  | None => Ok keyColumnSeen
  | Some id =>
      match idMapping !! Z.to_nat id with
      | Some mappedId => if (id <? 0) || (mappedId <? 0) || (MaxKeyColumnCount <=? mappedId) then Crash else Ok ({[mappedId]} ∪ keyColumnSeen)
      | None => Crash
      end
  end.

Definition missing_key (keyColumnSeen : gset Z) (index : nat) : bool :=
  bool_decide (Z.of_nat index ∉ keyColumnSeen) && match columns !! index with Some column => bool_decide (Expression column = None) | None => true end.

Definition ValidateClientRow (row : option (list TIdValue)) (isKey allowMissingKeyColumns : bool) (tabletIndexColumnId : option Z) : Result () :=
  match row with
  | None => Throw EBadRow
  | Some row =>
      _ ← ValidateRowValueCount (Z.of_nat (length row));
      _ ← ValidateKeyColumnCount (GetKeyColumnCount columns);
      '(keyColumnSeen, haveDataColumns) ← client_values isKey row ∅ false;
      if negb isKey && negb haveDataColumns then Throw EBadRow
      else
        keyColumnSeen ← mark_tablet_index tabletIndexColumnId keyColumnSeen;
        if negb allowMissingKeyColumns && existsb (missing_key keyColumnSeen) (seq 0 (Z.to_nat (GetKeyColumnCount columns))) then Throw EBadRow
        else if GetDataWeight row >=? MaxClientVersionedRowDataWeight then Throw EBadRow
        else Ok ()
  end.

Definition ValidateClientDataRow (row : option (list TIdValue)) (tabletIndexColumnId : option Z) (allowMissingKeyColumns : bool) : Result () := ValidateClientRow row false allowMissingKeyColumns tabletIndexColumnId.

Definition ValidateClientKey (key : option (list TIdValue)) (allowMissingKeyColumns : bool) : Result () := ValidateClientRow key true allowMissingKeyColumns None.

Fixpoint duplicate_columns (row : list TIdValue) (columnSeen : gset Z) : Result (gset Z) :=
  match row with
  | [] => Ok columnSeen
  | value :: row =>
      mappedId ← ApplyIdMapping value idMapping;
      if mappedId <? 0 then duplicate_columns row columnSeen
      else match column_at columns mappedId with
           | None => Crash
           | Some _ => if bool_decide (mappedId ∈ columnSeen) then Throw EBadRow else duplicate_columns row ({[mappedId]} ∪ columnSeen)
           end
  end.

Definition missing_required (columnSeen : gset Z) (index : nat) : bool :=
  bool_decide (Z.of_nat index ∉ columnSeen) && match columns !! index with Some column => ColumnRequired column | None => false end.

Definition ValidateDuplicateAndRequiredValueColumns (row : list TIdValue) : Result () :=
  columnSeen ← duplicate_columns row ∅;
  let keys := Z.to_nat (GetKeyColumnCount columns) in
  if existsb (missing_required columnSeen) (seq keys (length columns - keys)) then Throw EBadRow else Ok ().
End Rows.
End Validation.
