(* ===== verification/ColumnValues.v ===== *)
(** The values that a column of a schema takes: [ValidateValueType] accepts exactly the values of the
    logical type of the column, by the same meaning of types as the composite values inside of them. *)

From stdpp Require Import gmap.
From S2P Require Import Prelude CompositeCompare Utf8 YsonStream YsonLexer YsonEvents YsonParser YsonGrammar YsonWriter YsonReplay LogicalType Compare RowValues Deserialize Decimal DecimalText ComplexTypeValidator ComplexTypeValues Comparator TypeCompatibility TypeCompatibilityValues RowValidation.

#[local] Set Warnings "-clear-no-such-hyp".

(** ** Documents in Any *)

Definition has_map (n : TNode) : bool := bool_decide (OnBeginMap ∈ node_events n).
Definition has_attributes (n : TNode) : bool := bool_decide (OnBeginAttributes ∈ node_events n).
Definition attributed (n : TNode) : bool := match n with Node None _ => false | _ => true end.

(** The validator after calls that end at the depth they began at. *)
Definition marked (evs : list TYsonEvent) (v : TYsonAnyValidator) : TYsonAnyValidator :=
  {| Depth_ := Depth_ v; MapFound_ := MapFound_ v || bool_decide (OnBeginMap ∈ evs); AttributesFound_ := AttributesFound_ v || bool_decide (OnBeginAttributes ∈ evs) |}.

Definition marks_from (depth : Z) (evs : list TYsonEvent) : Prop := ∀ v, depth <= Depth_ v → feed evs v = Ok (marked evs v, false).

Lemma bool_decide_app (ev : TYsonEvent) evs1 evs2 : bool_decide (ev ∈ evs1 ++ evs2) = bool_decide (ev ∈ evs1) || bool_decide (ev ∈ evs2).
Proof. apply eq_true_iff_eq. rewrite orb_true_iff, !bool_decide_eq_true. apply elem_of_app. Qed.

Lemma bool_decide_between (ev x y : TYsonEvent) evs : bool_decide (ev ∈ x :: evs ++ [y]) = bool_decide (ev = x) || (bool_decide (ev ∈ evs) || bool_decide (ev = y)).
Proof. apply eq_true_iff_eq. rewrite !orb_true_iff, !bool_decide_eq_true. rewrite elem_of_cons, elem_of_app, list_elem_of_singleton. tauto. Qed.

Lemma marked_app evs1 evs2 v : marked (evs1 ++ evs2) v = marked evs2 (marked evs1 v).
Proof. unfold marked. cbn. by rewrite !bool_decide_app, !orb_assoc. Qed.

Lemma marks_app depth evs1 evs2 : marks_from depth evs1 → marks_from depth evs2 → marks_from depth (evs1 ++ evs2).
Proof. intros H1 H2 v Hd. rewrite feed_app, H1 by done. run_bind. rewrite H2 by done. by rewrite marked_app. Qed.

Lemma marks_one depth ev : match ev with OnBeginList | OnEndList | OnBeginMap | OnEndMap | OnBeginAttributes => False | _ => True end → marks_from depth [ev].
Proof. intros He v _. destruct v as [d m a], ev; try done; unfold marked; cbn; by rewrite !orb_false_r. Qed.

Lemma marks_between depth evs : 0 <= depth → marks_from (depth + 1) evs → marks_from depth (OnBeginList :: evs ++ [OnEndList]) ∧ marks_from depth (OnBeginMap :: evs ++ [OnEndMap]).
Proof.
  intros H0 Hevs. split; intros [d m a] Hd; cbn [Depth_] in Hd; cbn [feed OnEvent YsonAnyValidator]; run_bind; cbn [Depth_ MapFound_ AttributesFound_]; rewrite feed_app, Hevs by (cbn; lia); run_bind; cbn [feed OnEvent YsonAnyValidator]; run_bind; unfold marked; cbn [Depth_ MapFound_ AttributesFound_]; rewrite !bool_decide_between; replace (d + 1 - 1) with d by lia.
  all: cbn; generalize (bool_decide (OnBeginMap ∈ evs)), (bool_decide (OnBeginAttributes ∈ evs)); intros [] []; by destruct m, a.
Qed.

Lemma marks_attributes evs : marks_from 1 evs → marks_from 1 (OnBeginAttributes :: evs ++ [OnEndAttributes]).
Proof.
  intros Hevs [d m a] Hd. cbn [Depth_] in Hd. cbn [feed OnEvent YsonAnyValidator]. destruct (Z.eqb_spec (Depth_ {| Depth_ := d; MapFound_ := m; AttributesFound_ := a |}) 0) as [E|_]; [cbn in E; lia|]. run_bind. cbn [Depth_ MapFound_ AttributesFound_]. rewrite feed_app, Hevs by done. run_bind. cbn [feed OnEvent YsonAnyValidator]. run_bind.
  unfold marked. cbn [Depth_ MapFound_ AttributesFound_]. rewrite !bool_decide_between. cbn. generalize (bool_decide (OnBeginMap ∈ evs)), (bool_decide (OnBeginAttributes ∈ evs)). intros [] []; by destruct m, a.
Qed.

Lemma marks_list depth items : Forall (λ n, marks_from depth (node_events n)) items → marks_from depth (list_events items).
Proof. induction 1 as [|n items Hn _ IH]; [intros [d m a] _; unfold marked; cbn; by rewrite !orb_false_r|]. apply (marks_app _ [OnListItem]); [by apply marks_one|by apply marks_app]. Qed.

Lemma marks_map depth items : Forall (λ kn : list byte * TNode, marks_from depth (node_events kn.2)) items → marks_from depth (map_events items).
Proof. induction 1 as [|[key n] items Hn _ IH]; [intros [d m a] _; unfold marked; cbn; by rewrite !orb_false_r|]. apply (marks_app _ [OnKeyedItem key]); [by apply marks_one|by apply marks_app]. Qed.

Lemma marks_node n : marks_from 1 (node_events n).
Proof.
  apply (node_ind' (λ n, marks_from 1 (node_events n)) (λ v, marks_from 1 (value_events v))); intros; try by apply marks_one.
  - rewrite node_events_eq. apply marks_app; [|done]. destruct attributes as [items|]; [|intros [d m a] _; unfold marked; cbn; by rewrite !orb_false_r]. apply marks_attributes, marks_map. by apply H.
  - rewrite value_events_list. apply (marks_between 1); [lia|]. intros v Hv. apply (marks_list 1 items H v). lia.
  - rewrite value_events_map. apply (marks_between 1); [lia|]. intros v Hv. apply (marks_map 1 items H v). lia.
Qed.

(** A value without attributes of its own, also at depth zero. *)
Lemma marks_value v : marks_from 0 (node_events (Node None v)).
Proof.
  change (node_events (Node None v)) with (value_events v). destruct v; try by apply marks_one.
  - rewrite value_events_list. apply (marks_between 0); [lia|]. apply marks_list, list.Forall_forall. intros n _. apply marks_node.
  - rewrite value_events_map. apply (marks_between 0); [lia|]. apply marks_map, list.Forall_forall. intros n _. apply marks_node.
Qed.

(** The text of a document, as it stands in a value. *)
Definition DocumentText (fd : list byte → Result Z) (n : TNode) (yson : list byte) : Prop :=
  ∃ ws1 t ws2, yson = ws1 ++ t ++ ws2 ∧ spaces ws1 ∧ NodeText fd DefaultMemoryLimit n t ∧ spaces ws2 ∧ (node_depth n < 256)%nat.

(** The document that any bytes stand for, by the calls that the parser makes. *)
Definition Document (fd : list byte → Result Z) (yson : list byte) (n : TNode) : Prop := Calls fd YsonNode yson (node_events n).

Lemma document_text fd n yson : DocumentText fd n yson → Document fd yson n.
Proof.
  intros (ws1 & t & ws2 & -> & H1 & Ht & H2 & Hd).
  pose proof (DoParse_accepts Recorder fd DefaultMemoryLimit DefaultYsonParserNestingLevelLimit YsonNode (node_events n) (node_depth n) (ws1 ++ t ++ ws2) (TStringReader (ws1 ++ t ++ ws2)) []
    (NodeMode _ _ _ _ _ _ H1 Ht H2) ltac:(split; [done|]; unfold text_of; simpl; by rewrite app_nil_r) ltac:(unfold DefaultYsonParserNestingLevelLimit; lia)) as Hp.
  rewrite feed_recorder in Hp. destruct Hp as (q & E & Hc & _). by exists q.
Qed.

Lemma attributed_events n : attributed n = bool_decide (head (node_events n) = Some OnBeginAttributes).
Proof. destruct n as [[items|] v]; [by rewrite node_events_eq|]. by destruct v. Qed.

(** Documents of the same bytes differ in nothing that is looked at. *)
Lemma document_unique fd yson n1 n2 : Document fd yson n1 → Document fd yson n2 → attributed n1 = attributed n2 ∧ has_map n1 = has_map n2 ∧ has_attributes n1 = has_attributes n2.
Proof. intros H1 H2. pose proof (Calls_unique _ _ _ _ _ H1 H2) as E. unfold has_map, has_attributes. by rewrite !attributed_events, E. Qed.

(** The validator on any bytes. *)
Lemma validate_any_spec fd yson : total_conversion fd →
  (∃ n, Document fd yson n ∧ validate_any fd yson = if attributed n then Throw EConsumer else Ok (marked (node_events n) NewAnyValidator)) ∨ (∀ n, ¬ Document fd yson n) ∧ ∃ e, validate_any fd yson = Throw e.
Proof.
  intros Hfd. destruct (parse_consumer fd YsonNode yson NewAnyValidator Hfd) as [(evs & Hc & E)|[Hnone E]].
  - intros ev v. destruct ev; cbn; try done. by destruct (_ =? _).
  - intros ev v v'. destruct ev; cbn; try done. by destruct (_ =? _).
  - left. destruct (Calls_decide fd YsonNode yson) as [(evs' & depth & Hc' & n & -> & _)|Hnone]; [|by destruct (Hnone evs)]. rewrite (Calls_unique _ _ _ _ _ Hc Hc') in *. exists n. split; [done|]. unfold validate_any. rewrite E.
    destruct n as [[items|] v]; cbn [attributed]; [by rewrite node_events_eq|]. by rewrite (marks_value v NewAnyValidator).
  - right. split; [|done]. intros n Hn. by apply (Hnone (node_events n)).
Qed.

(** ** What is known of a type *)

(** Columns of type Any of the old type system. *)
Definition any_column (type : TLogicalType) : bool := bool_decide (V1Type (GetTypeV3Info type) = SimpleAny) && IsPureV1Type (GetTypeV3Info type).

Lemma required_nullable type : Required (GetTypeV3Info type) = negb (IsNullable type).
Proof. induction type using TLogicalType_induction; cbn [GetTypeV3Info IsNullable Required]; try done. by destruct (IsNullable type). Qed.

Lemma pure_wire type : IsPureV1Type (GetTypeV3Info type) = true → WireType (GetTypeV3Info type) = GetPhysicalType (V1Type (GetTypeV3Info type)).
Proof. induction type using TLogicalType_induction; cbn [GetTypeV3Info]; try done. by destruct (IsNullable type). Qed.

Lemma not_pure_wire type : IsPureV1Type (GetTypeV3Info type) = false →
  V1Type (GetTypeV3Info type) = SimpleAny ∧ WireType (GetTypeV3Info type) = TypeComposite ∨ V1Type (GetTypeV3Info type) = SimpleString ∧ WireType (GetTypeV3Info type) = TypeString.
Proof. induction type using TLogicalType_induction; cbn [GetTypeV3Info]; try done; [by right|destruct (IsNullable type); [by left|by apply IHtype]|by left..]. Qed.

Section Pure.
Context (validate_json : list byte → bool).
#[local] Abbreviation Conforms := (Conforms validate_json).

Lemma pure_conforms type v : IsPureV1Type (GetTypeV3Info type) = true → V1Type (GetTypeV3Info type) ≠ SimpleAny → v ≠ VEntity → Conforms type (Node None v) ↔ SimpleConforms validate_json (V1Type (GetTypeV3Info type)) v.
Proof.
  induction type using TLogicalType_induction; cbn [GetTypeV3Info]; try done; intros Hp Ha Hv.
  - cbn [V1Type]. split; [inversion 1; subst; done|by constructor].
  - destruct (IsNullable type) eqn:En; [done|]. cbn [V1Type IsPureV1Type] in *. rewrite <- IHtype by done. split; [inversion 1; subst; congruence || done|by apply conforms_some].
  - rewrite <- IHtype by done. split; [by inversion 1|by constructor].
  - rewrite <- IHtype2 by done. split; [by inversion 1|by constructor].
Qed.

(** Decimals behind tags and one optional. *)
Lemma decimal_column type : throughout state_ok type → IsPureV1Type (GetTypeV3Info type) = false → V1Type (GetTypeV3Info type) = SimpleString →
  ∃ precision scale, UnwrapTaggedAndOptional type = DecimalType precision scale ∧ (IsNullable type = false → skip_tags type = DecimalType precision scale) ∧
    (throughout decimal_ok type → decimal_ok (DecimalType precision scale)) ∧ ∀ v, v ≠ VEntity → Conforms type (Node None v) ↔ Conforms (DecimalType precision scale) (Node None v).
Proof.
  induction type as [|precision scale| | | | | | | | |f a t IHa IHt] using TLogicalType_induction; cbn [GetTypeV3Info IsNullable]; try done; intros Hs Hp Hv.
  - exists precision, scale. split_and!; try done. by apply throughout_root.
  - destruct (IsNullable type) eqn:En; [done|]. cbn [V1Type IsPureV1Type] in *. destruct IHtype as (p & s & _ & Hskip & Hd & Hc); [eapply throughout_child; [exact Hs|by left]|done|done|]. exists p, s. split_and!.
    + unfold UnwrapTaggedAndOptional. cbn [skip_tags]. rewrite En. by apply Hskip.
    + done.
    + intros Ht. apply Hd. eapply throughout_child; [exact Ht|by left].
    + intros v Hne. rewrite <- Hc by done. split; [inversion 1; subst; congruence || done|by apply conforms_some].
  - destruct IHtype as (p & s & Hu & Hskip & Hd & Hc); [eapply throughout_child; [exact Hs|by left]|done|done|]. exists p, s. split_and!; [done|done|intros Ht; apply Hd; eapply throughout_child; [exact Ht|by left]|].
    intros v Hne. rewrite <- Hc by done. split; [by inversion 1|by constructor].
  - exfalso. apply throughout_root in Hs as (parent & -> & s & -> & _). destruct f; cbn in Hp, Hv; try done; destruct s; done.
Qed.

(** Nulls of nullable types. *)
Lemma nullable_null type : IsNullable type = true → Conforms type (Node None VEntity).
Proof.
  induction type using TLogicalType_induction; cbn [IsNullable]; try done; intros En; [|constructor|constructor; by apply IHtype|constructor; by apply IHtype2].
  apply bool_decide_eq_true in En. by constructor.
Qed.
End Pure.

(** ** Values of columns *)

(** The document that a value of a row stands for. *)
Inductive Holds (fd : list byte → Result Z) : TUnversionedValue → TNode → Prop :=
| holds_null : Holds fd ValueNull (Node None VEntity)
| holds_int64 x : Holds fd (ValueInt64 x) (Node None (VInt64 x))
| holds_uint64 x : Holds fd (ValueUint64 x) (Node None (VUint64 x))
| holds_double d : Holds fd (ValueDouble d) (Node None (VDouble d))
| holds_boolean b : Holds fd (ValueBoolean b) (Node None (VBoolean b))
| holds_string s : Holds fd (ValueString s) (Node None (VString s))
| holds_any n yson : DocumentText fd n yson → Holds fd (ValueAny yson) n
| holds_composite n yson : DocumentText fd n yson → Holds fd (ValueComposite yson) n.

Section Takes.
Context (validate_json : list byte → bool) (fd : list byte → Result Z) (ndebug : bool) (Hfd : total_conversion fd).
Context (typeAnyAcceptsAllValues ignoreRequired validateAnyIsValidYson : bool).
#[local] Abbreviation Conforms := (Conforms validate_json).

(** What is asked of the bytes in a column of type Any. *)
Definition any_fits (column : TColumnSchema) (yson : list byte) : Prop :=
  match SortOrder column with
  | Some _ => ∃ n, Document fd yson n ∧ attributed n = false ∧ has_map n = false ∧ has_attributes n = false
  | None => validateAnyIsValidYson = true → ∃ n, Document fd yson n ∧ attributed n = false
  end.

(** The values of a column: nulls unless it is required, in columns of type Any values of the types that exist there,
    bytes being documents where that is checked, and elsewhere the values of the logical type in the form of its wire
    type. *)
Definition Takes (column : TColumnSchema) (value : TUnversionedValue) : Prop :=
  if bool_decide (value = ValueNull) then IsNullable (LogicalTypeOf column) = true ∨ ignoreRequired = true
  else if any_column (LogicalTypeOf column) then
    (if typeAnyAcceptsAllValues then IsAnyColumnCompatibleType (ValueType value) = true else ValueType value = TypeAny) ∧ match value with ValueAny yson | ValueComposite yson => any_fits column yson | _ => True end
  else ValueType value = GetWireType (LogicalTypeOf column) ∧ ∃ n, Holds fd value n ∧ Conforms (LogicalTypeOf column) n.

Lemma simple_value_settles (safe : Prop) type value n : Holds fd value n → value ≠ ValueNull → GetPhysicalType type ≠ TypeAny →
  settles safe (ValueType value = GetPhysicalType type ∧ ∃ v, n = Node None v ∧ SimpleConforms validate_json type v) (validate_simple validate_json type value).
Proof.
  intros Hh Hn Ha. unfold validate_simple, ValidateColumnType. case_bool_decide as Et; run_bind; [|split; [done|tauto]].
  assert (∀ v r, n = Node None v → settles safe (SimpleConforms validate_json type v) r → settles safe (ValueType value = GetPhysicalType type ∧ ∃ v, n = Node None v ∧ SimpleConforms validate_json type v) r) as Hv.
  { intros v r -> Hr. eapply settles_iff; [exact Hr|]. split; [intros ?; split; [done|]; by exists v|]. by intros (_ & w & [= ->] & ?). }
  destruct Hh; try done; cbn [ValueType] in Et; try (by destruct type); (eapply Hv; [reflexivity|]); cbn [SimpleConforms].
  - eapply settles_iff; [apply int64_settles|]. rewrite <- Et. tauto.
  - eapply settles_iff; [apply uint64_settles|]. rewrite <- Et. tauto.
  - eapply settles_iff; [apply double_settles|]. rewrite <- Et. tauto.
  - done.
  - eapply settles_iff; [apply string_settles|]. rewrite <- Et. tauto.
Qed.

Lemma any_value_settles (safe : Prop) column value : value ≠ ValueNull →
  settles safe ((if typeAnyAcceptsAllValues then IsAnyColumnCompatibleType (ValueType value) = true else ValueType value = TypeAny) ∧ match value with ValueAny yson | ValueComposite yson => any_fits column yson | _ => True end)
    (as_violation (validate_any_column fd value column typeAnyAcceptsAllValues validateAnyIsValidYson)).
Proof.
  intros Hnull. unfold validate_any_column. set (fits := if typeAnyAcceptsAllValues then _ else _). assert ((if negb typeAnyAcceptsAllValues then ValidateColumnType TypeAny value else if negb (IsAnyColumnCompatibleType (ValueType value)) then Throw ESchemaViolation else Ok ()) = Ok () ∧ fits ∨
    (if negb typeAnyAcceptsAllValues then ValidateColumnType TypeAny value else if negb (IsAnyColumnCompatibleType (ValueType value)) then Throw ESchemaViolation else Ok ()) = Throw ESchemaViolation ∧ ¬ fits) as [[-> Hf]|[-> Hf]]; [|run_bind..].
  { unfold fits, ValidateColumnType. destruct typeAnyAcceptsAllValues; cbn [negb]; [by destruct (IsAnyColumnCompatibleType (ValueType value)); [left|right]|]. by case_bool_decide; [left|right]. }
  2: { split; [done|]. by intros [? _]. }
  eapply settles_iff with (P := match value with ValueAny yson | ValueComposite yson => any_fits column yson | _ => True end); [|tauto].
  assert (∀ yson, settles safe (any_fits column yson) (as_violation
    match SortOrder column with
    | Some _ => canBeSorted ← CheckSortedAnyValue fd yson; if negb canBeSorted then Throw ESchemaViolation else Ok ()
    | None => if validateAnyIsValidYson then ValidateAnyValue fd yson else Ok ()
    end)) as Hbytes.
  { intros yson. unfold any_fits, CheckSortedAnyValue, ValidateAnyValue. destruct (validate_any_spec fd yson Hfd) as [(n & Hn & ->)|[Hnone (e & ->)]]; destruct (SortOrder column).
    - destruct (attributed n) eqn:Ea; run_bind.
      + split; [done|]. intros (n' & Hn' & Ha & _). destruct (document_unique _ _ _ _ Hn Hn') as [E _]. congruence.
      + destruct (has_map n) eqn:Em, (has_attributes n) eqn:Et; unfold CanBeSorted; cbn; fold (has_map n) (has_attributes n); rewrite Em, Et; cbn; try (by exists n); (split; [done|]; intros (n' & Hn' & _ & Hm & Ht); destruct (document_unique _ _ _ _ Hn Hn') as (_ & E1 & E2); congruence).
    - destruct validateAnyIsValidYson; [|done]. destruct (attributed n) eqn:Ea; run_bind; [|by exists n]. split; [done|]. intros H. destruct (H eq_refl) as (n' & Hn' & Ha). destruct (document_unique _ _ _ _ Hn Hn') as [E _]. congruence.
    - run_bind. split; [done|]. intros (n & Hn & _). by apply (Hnone n).
    - destruct validateAnyIsValidYson; [|done]. run_bind. split; [done|]. intros H. destruct (H eq_refl) as (n & Hn & _). by apply (Hnone n). }
  destruct value as [| | | | | | | |yson|yson|]; cbn [ValueType IsAnyOrComposite AsStringBuf]; try done; exact (Hbytes yson).
Qed.

Lemma value_type_null value : ValueType value = TypeNull ↔ value = ValueNull.
Proof. by destruct value. Qed.

(** Values that hold a document, in columns of other types than Any. *)
Lemma column_settles column value n : LogicalType.ValidateLogicalType None (LogicalTypeOf column) = Ok () → Holds fd value n → value ≠ ValueNull → any_column (LogicalTypeOf column) = false →
  settles (throughout any_enclosed (LogicalTypeOf column)) (ValueType value = GetWireType (LogicalTypeOf column) ∧ Conforms (LogicalTypeOf column) n) (ValidateValueType validate_json fd ndebug value column typeAnyAcceptsAllValues ignoreRequired validateAnyIsValidYson).
Proof.
  intros Hvalid Hh En Ha. unfold ValidateValueType. pose proof (value_type_null value) as Hnull. rewrite bool_decide_eq_false_2 by (by rewrite Hnull). revert Ha.
  pose proof (validated_decimals _ _ Hvalid) as Hdec. apply (decides_ok _ _ _ (ValidateLogicalType_decides _ _)) in Hvalid. pose proof (throughout_impl _ _ _ valid_state (WellFormed_valid _ _ Hvalid)) as Hstates.
  set (safe := throughout any_enclosed (LogicalTypeOf column)). set (type := LogicalTypeOf column) in *. unfold any_column, GetWireType, ColumnV1Type, IsOfV1Type. fold type. destruct (IsPureV1Type (GetTypeV3Info type)) eqn:Ep.
  - rewrite (pure_wire _ Ep). rewrite andb_true_r.
    assert (V1Type (GetTypeV3Info type) ≠ SimpleAny → settles safe (ValueType value = GetPhysicalType (V1Type (GetTypeV3Info type)) ∧ Conforms type n) (validate_simple validate_json (V1Type (GetTypeV3Info type)) value)) as Hsimple.
    { intros Ha. eapply settles_iff; [apply (simple_value_settles safe _ value n); [done|done|by destruct (V1Type (GetTypeV3Info type))]|]. assert (∀ v, n = Node None v → ValueType value = GetPhysicalType (V1Type (GetTypeV3Info type)) → v ≠ VEntity) as Hv by (intros v -> Et ->; inversion Hh; subst; try done; cbn in Et; by destruct (V1Type (GetTypeV3Info type))).
      split; [intros (Et & v & -> & Hs); split; [done|]; apply (pure_conforms validate_json type v); [done|done|by apply Hv|done]|]. intros (Et & Hc). split; [done|]. apply Conforms_plain in Hc as Hpl. destruct n as [[?|] v]; [done|]. exists v. split; [done|]. apply (pure_conforms validate_json type v); [done|done|by apply Hv|done]. }
    assert (V1Type (GetTypeV3Info type) = SimpleNull ∨ V1Type (GetTypeV3Info type) = SimpleVoid → settles safe (ValueType value = GetPhysicalType (V1Type (GetTypeV3Info type)) ∧ Conforms type n) (ValidateColumnType TypeNull value)) as Hnulls.
    { intros Hv. unfold ValidateColumnType. rewrite bool_decide_eq_false_2 by (by rewrite Hnull). split; [done|]. intros [Et _]. destruct Hv as [Hv|Hv]; rewrite Hv in Et; cbn in Et; by apply Hnull in Et. }
    intros Ea%bool_decide_eq_false. specialize (Hsimple Ea).
    destruct (V1Type (GetTypeV3Info type)); try (by destruct Ea); apply as_violation_settles; first [exact Hsimple|apply Hnulls; by auto].
  - intros _. destruct (not_pure_wire _ Ep) as [[Ev Ew]|[Ev Ew]]; rewrite Ev, Ew; unfold ValidateColumnType; case_bool_decide as Et; run_bind; try (split; [done|tauto]).
    + apply as_violation_settles. assert (∃ yson, AsStringBuf value = Ok yson ∧ DocumentText fd n yson) as (yson & -> & ws1 & t & ws2 & -> & H1 & Ht & H2 & Hd) by (destruct Hh; try done; by eexists). run_bind. rewrite (ValidateComplexLogicalType_text _ _ _ _ n) by done. eapply settles_iff; [apply (check_settles validate_json type Hdec n)|]. tauto.
    + destruct (decimal_column validate_json type Hstates Ep Ev) as (p & s & -> & _ & Hok & Hc). destruct (Hok Hdec) as [Hp Hs]. assert (∃ data, value = ValueString data ∧ n = Node None (VString data)) as (data & -> & ->) by (destruct Hh; try done; by eexists). cbn [AsStringBuf]. run_bind.
      eapply settles_iff with (P := Conforms (DecimalType p s) (Node None (VString data))); [|rewrite Hc by done; tauto]. rewrite ValidateBinaryValue_spec by done.
      pose proof (decimal_settles validate_json safe p s (conj Hp Hs) (Node None (VString data))) as Hset. cbn [check] in Hset. rewrite ValidateBinaryValue_spec in Hset by done. by destruct (_ && _).
Qed.

(** A value of another type than that of the column. *)
Lemma column_mismatch column value : value ≠ ValueNull → any_column (LogicalTypeOf column) = false → ValueType value ≠ GetWireType (LogicalTypeOf column) →
  ValidateValueType validate_json fd ndebug value column typeAnyAcceptsAllValues ignoreRequired validateAnyIsValidYson = Throw ESchemaViolation.
Proof.
  intros En. unfold ValidateValueType. rewrite bool_decide_eq_false_2 by (by rewrite value_type_null). unfold any_column, GetWireType, ColumnV1Type, IsOfV1Type. destruct (IsPureV1Type (GetTypeV3Info (LogicalTypeOf column))) eqn:Ep.
  - rewrite (pure_wire _ Ep), andb_true_r. intros Ea%bool_decide_eq_false Et. destruct (V1Type (GetTypeV3Info (LogicalTypeOf column))); try (by destruct Ea); cbn [GetPhysicalType] in Et; unfold validate_simple, ValidateColumnType; cbn [GetPhysicalType]; by rewrite bool_decide_eq_false_2.
  - intros _ Et. destruct (not_pure_wire _ Ep) as [[Ev Ew]|[Ev Ew]]; rewrite Ew in Et; rewrite Ev; unfold ValidateColumnType; by rewrite bool_decide_eq_false_2.
Qed.

(** The bytes of a composite value in a column of another type than Any are those of a document. *)
Definition composite_ok (column : TColumnSchema) (value : TUnversionedValue) : Prop :=
  ∀ yson, value = ValueComposite yson → any_column (LogicalTypeOf column) = false → ∃ n, DocumentText fd n yson.

Lemma wire_any type : GetWireType type = TypeAny → any_column type = true.
Proof.
  unfold GetWireType, any_column. destruct (IsPureV1Type (GetTypeV3Info type)) eqn:Ep; [rewrite (pure_wire _ Ep); by destruct (V1Type (GetTypeV3Info type))|]. by destruct (not_pure_wire _ Ep) as [[_ ->]|[_ ->]].
Qed.

Lemma wire_stored type : GetWireType type ≠ TypeMin ∧ GetWireType type ≠ TypeMax ∧ GetWireType type ≠ TheBottom.
Proof.
  unfold GetWireType. destruct (IsPureV1Type (GetTypeV3Info type)) eqn:Ep; [rewrite (pure_wire _ Ep); by destruct (V1Type (GetTypeV3Info type))|]. by destruct (not_pure_wire _ Ep) as [[_ ->]|[_ ->]].
Qed.

Lemma value_holds column value : composite_ok column value → any_column (LogicalTypeOf column) = false → ValueType value = GetWireType (LogicalTypeOf column) → ∃ n, Holds fd value n.
Proof.
  intros Hc Ha Et. destruct (wire_stored (LogicalTypeOf column)) as (W1 & W2 & W3). destruct value as [| | |x|x|d|b|data|yson|yson|]; cbn [ValueType] in Et; try congruence; try (by eexists; constructor).
  - symmetry in Et. apply wire_any in Et. congruence.
  - destruct (Hc yson eq_refl Ha) as (n & Hn). exists n. by constructor.
Qed.

Lemma ValidateValueType_settles column value : LogicalType.ValidateLogicalType None (LogicalTypeOf column) = Ok () → composite_ok column value →
  settles (throughout any_enclosed (LogicalTypeOf column)) (Takes column value) (ValidateValueType validate_json fd ndebug value column typeAnyAcceptsAllValues ignoreRequired validateAnyIsValidYson).
Proof.
  intros Hvalid Hc. unfold Takes. case_bool_decide as En.
  { subst value. unfold ValidateValueType, ColumnRequired. cbn. rewrite required_nullable. destruct (IsNullable (LogicalTypeOf column)); cbn [negb]; [by left|]. destruct ignoreRequired; [by right|]. split; [done|]. by intros [?|?]. }
  destruct (any_column (LogicalTypeOf column)) eqn:Ea.
  - unfold ValidateValueType. rewrite bool_decide_eq_false_2 by (by rewrite value_type_null). pose proof Ea as [Ev%bool_decide_eq_true Ep]%andb_prop. unfold ColumnV1Type, IsOfV1Type. rewrite Ev, Ep. by apply any_value_settles.
  - destruct (decide (ValueType value = GetWireType (LogicalTypeOf column))) as [Et|Et]; [|rewrite column_mismatch by done; split; [done|tauto]]. destruct (value_holds column value Hc Ea Et) as (n & Hn).
    pose proof (λ n Hn, column_settles column value n Hvalid Hn En Ea) as Hs. pose proof (Hs n Hn) as Hs0. destruct (ValidateValueType _ _ _ _ _ _ _ _) as [[]|e| |]; cbn [settles] in *.
    + split; [done|]. exists n. by destruct Hs0.
    + split; [by destruct Hs0|]. intros (_ & n' & Hn' & Hc'). destruct (Hs n' Hn') as [_ H']. by apply H'.
    + split; [by destruct Hs0|]. intros (_ & n' & Hn' & Hc'). destruct (Hs n' Hn') as [_ H']. by apply H'.
    + done.
Qed.
End Takes.

(** ** Theorems *)

(** C19. For a column with a validated type and every value, whatever bytes it has, [ValidateValueType] returns exactly
    when the column takes the value and otherwise throws a schema violation, for every setting of its flags: null unless
    the column is required; in a column of type Any the values of the types that the flag allows, of which bytes (Any
    and composite) must be what the parser reads as one document without attributes of its own where that is to be
    checked, and one without any map or attributes where the column is sorted; elsewhere values in the form of the wire
    type of the column that conform to its logical type. The sentinels of keys are taken nowhere. Two things are left
    out: it is assumed that the bytes of a composite value in a column of another type than Any are the text of a
    document, and for such a column whose type has Any as an alternative of a variant or in a dictionary the call may
    abort instead of throwing. *)
Theorem ValidateValueType_correct validate_json fd ndebug typeAnyAcceptsAllValues ignoreRequired validateAnyIsValidYson column value :
  total_conversion fd → LogicalType.ValidateLogicalType None (LogicalTypeOf column) = Ok () → composite_ok fd column value →
  let r := ValidateValueType validate_json fd ndebug value column typeAnyAcceptsAllValues ignoreRequired validateAnyIsValidYson in
  let takes := Takes validate_json fd typeAnyAcceptsAllValues ignoreRequired validateAnyIsValidYson column value in
  r = Ok () ∧ takes ∨ r = Throw ESchemaViolation ∧ ¬ takes ∨ r = Crash ∧ ¬ takes ∧ ¬ throughout any_enclosed (LogicalTypeOf column).
Proof.
  intros Hfd Htype Hc r takes. pose proof (ValidateValueType_settles validate_json fd ndebug Hfd typeAnyAcceptsAllValues ignoreRequired validateAnyIsValidYson column value Htype Hc) as Hs. fold r takes in Hs.
  destruct r as [[]|e| |]; cbn [settles] in Hs; [by left|destruct Hs as [-> ?]; by auto|destruct Hs; by auto|done].
Qed.

Lemma ValidateValueType_correct_witness
  (column := λ type order, {| ColumnStableName := B"c"; ColumnName := B"c"; LogicalTypeOf := type; SortOrder := order; Expression := None; Materialized := None; Aggregate := None |})
  (takes := Takes (λ _, true) (λ _, Ok 0) false false true) (any := OptionalType (SimpleType SimpleAny)) (int8 := OptionalType (SimpleType SimpleInt8)) :
  takes (column int8 None) (ValueInt64 127) ∧ ¬ takes (column int8 None) (ValueInt64 128) ∧ ¬ takes (column any None) (ValueAny (B"1;2")) ∧ takes (column any None) (ValueAny (B"{a=1}")) ∧ ¬ takes (column any (Some Ascending)) (ValueAny (B"{a=1}")).
Proof.
  pose proof (λ column value, ValidateValueType_correct (λ _, true) (λ _, Ok 0) false false false true column value ltac:(done)) as H.
  assert (∀ type order value, (∀ yson, value ≠ ValueComposite yson) → composite_ok (λ _, Ok 0) (column type order) value) as Hc by (intros type order value Hv yson E; by destruct (Hv yson)).
  split_and!.
  - destruct (H (column int8 None) (ValueInt64 127)) as [[_ T]|[[T _]|[T _]]]; [vm_compute; reflexivity|by apply Hc|exact T|vm_compute in T; discriminate..].
  - destruct (H (column int8 None) (ValueInt64 128)) as [[T _]|[[_ T]|[T _]]]; [vm_compute; reflexivity|by apply Hc|vm_compute in T; discriminate|exact T|vm_compute in T; discriminate].
  - destruct (H (column any None) (ValueAny (B"1;2"))) as [[T _]|[[_ T]|[T _]]]; [vm_compute; reflexivity|by apply Hc|vm_compute in T; discriminate|exact T|vm_compute in T; discriminate].
  - destruct (H (column any None) (ValueAny (B"{a=1}"))) as [[_ T]|[[T _]|[T _]]]; [vm_compute; reflexivity|by apply Hc|exact T|vm_compute in T; discriminate..].
  - destruct (H (column any (Some Ascending)) (ValueAny (B"{a=1}"))) as [[T _]|[[_ T]|[T _]]]; [vm_compute; reflexivity|by apply Hc|vm_compute in T; discriminate|exact T|vm_compute in T; discriminate].
Defined.
