(* ===== verification/SchemaCompatibility.v ===== *)
(** Compatibility of table schemas (client/table_client/check_schema_compatibility.cpp): whether the rows
    of a table with the input schema can be read as rows of a table with the output schema. A schema is
    its columns, in order, the stable names of deleted columns, and two flags; the maps from names to
    columns give the first column of a name. The errors that describe an incompatibility are not
    modelled, only the level. *)

From stdpp Require Import gmap.
From S2P Require Import Prelude CompositeCompare Utf8 YsonStream YsonLexer YsonEvents YsonParser YsonGrammar YsonWriter YsonReplay LogicalType Compare RowValues Deserialize Decimal DecimalText ComplexTypeValidator ComplexTypeValues Comparator TypeCompatibility TypeCompatibilityValues RowValidation ColumnValues.

#[local] Set Warnings "-clear-no-such-hyp".

(** ** Schemas *)

Record TTableSchema := { Columns : list TColumnSchema; DeletedColumns : list (list byte); Strict : bool; UniqueKeys : bool }.

Definition find_column (name_of : TColumnSchema → list byte) (columns : list TColumnSchema) (name : list byte) : option TColumnSchema := head (filter (λ column, name_of column = name) columns).
Definition FindColumn (schema : TTableSchema) (name : list byte) : option TColumnSchema := find_column ColumnName (Columns schema) name.
Definition FindColumnByStableName (schema : TTableSchema) (stableName : list byte) : option TColumnSchema := find_column ColumnStableName (Columns schema) stableName.
Definition FindDeletedColumn (schema : TTableSchema) (stableName : list byte) : bool := bool_decide (stableName ∈ DeletedColumns schema).

(** [ToKeys()->Columns()]. *)
Definition KeyColumns (schema : TTableSchema) : list TColumnSchema := take (Z.to_nat (GetKeyColumnCount (Columns schema))) (Columns schema).

Fixpoint unique_columns (columns : list TColumnSchema) (columnNames columnStableNames : gset (list byte)) : Result (gset (list byte)) :=
  match columns with
  | [] => Ok columnStableNames
  | column :: columns =>
      if bool_decide (ColumnStableName column ∈ columnStableNames) then Throw EInvalidArgument
      else if bool_decide (ColumnName column ∈ columnNames) then Throw EInvalidArgument
      else unique_columns columns ({[ColumnName column]} ∪ columnNames) ({[ColumnStableName column]} ∪ columnStableNames)
  end.

Fixpoint unique_deleted (deletedColumns : list (list byte)) (columnStableNames : gset (list byte)) : Result () :=
  match deletedColumns with
  | [] => Ok ()
  | stableName :: deletedColumns => if bool_decide (stableName ∈ columnStableNames) then Throw EInvalidArgument else unique_deleted deletedColumns ({[stableName]} ∪ columnStableNames)
  end.

Definition ValidateColumnUniqueness (schema : TTableSchema) : Result () :=
  columnStableNames ← unique_columns (Columns schema) ∅ ∅; unique_deleted (DeletedColumns schema) columnStableNames.

Definition ValidateKeyColumnsFormPrefix (schema : TTableSchema) : Result () :=
  if forallb (λ column, bool_decide (is_Some (SortOrder column))) (KeyColumns schema) then Ok () else Throw EInvalidArgument.

(** ** The check *)

Record TTableSchemaCompatibilityOptions := { TypeCompatibilityOptions : TTypeCompatibilityOptions; IgnoreSortOrder : bool; ForbidExtraComputedColumns : bool; IgnoreStableNamesDifference : bool; AllowTimestampColumns : bool }.

Definition TimestampColumnPrefix : list byte := B"$timestamp:".

Definition GetTimestampColumnOriginalNameOrNull (name : list byte) : option (list byte) :=
  if bool_decide (take (length TimestampColumnPrefix) name = TimestampColumnPrefix) then Some (drop (length TimestampColumnPrefix) name) else None.

Lemma timestamp_name name originalName : GetTimestampColumnOriginalNameOrNull name = Some originalName → name = TimestampColumnPrefix ++ originalName.
Proof. unfold GetTimestampColumnOriginalNameOrNull. case_bool_decide as E; [|done]. intros [= <-]. rewrite <- E at 1. by rewrite take_drop. Qed.

Section Check.
Context `{NamesOrder} (options : TTableSchemaCompatibilityOptions) (inputSchema outputSchema : TTableSchema).

Definition input_column_found (inputColumn : TColumnSchema) : bool :=
  bool_decide (is_Some (FindColumn outputSchema (ColumnName inputColumn))) ||
  AllowTimestampColumns options && match GetTimestampColumnOriginalNameOrNull (ColumnName inputColumn) with Some originalColumnName => bool_decide (is_Some (FindColumn outputSchema originalColumnName)) | None => false end.

(** Computed, materialized and aggregated columns stay what they are. *)
Definition mismatch (outputColumn inputColumn : TColumnSchema) : bool :=
  bool_decide (is_Some (Expression outputColumn)) && bool_decide (Expression inputColumn ≠ Expression outputColumn) ||
  bool_decide (default true (Materialized outputColumn) ≠ default true (Materialized inputColumn)) ||
  bool_decide (is_Some (Aggregate outputColumn)) && bool_decide (Aggregate inputColumn ≠ Aggregate outputColumn).

(** [None] where the function returns an incompatibility, else the level so far. *)
Fixpoint columns_loop (outputColumns : list TColumnSchema) (result : ESchemaCompatibility) : Result (option ESchemaCompatibility) :=
  match outputColumns with
  | [] => Ok (Some result)
  | outputColumn :: outputColumns =>
      if FindDeletedColumn inputSchema (ColumnStableName outputColumn) then Ok None
      else match FindColumn inputSchema (ColumnName outputColumn) with
      | Some inputColumn =>
          if negb (IgnoreStableNamesDifference options) && bool_decide (ColumnStableName inputColumn ≠ ColumnStableName outputColumn) then Ok None
          else
            currentTypeCompatibility ← CheckTypeCompatibility (TypeCompatibilityOptions options) (LogicalTypeOf inputColumn) (LogicalTypeOf outputColumn);
            let result := if level currentTypeCompatibility <? level result then currentTypeCompatibility else result in
            if bool_decide (result = Incompatible) then Ok (Some result)
            else if mismatch outputColumn inputColumn then Ok None
            else columns_loop outputColumns result
      | None =>
          if ForbidExtraComputedColumns options && bool_decide (is_Some (Expression outputColumn)) then Ok None
          else if negb (Strict inputSchema) then Ok None
          else if ColumnRequired outputColumn then Ok None
          else columns_loop outputColumns result
      end
  end.

Definition deleted_ok : bool :=
  forallb (λ stableName, bool_decide (is_Some (FindColumnByStableName inputSchema stableName)) || FindDeletedColumn inputSchema stableName) (DeletedColumns outputSchema) &&
  forallb (FindDeletedColumn outputSchema) (DeletedColumns inputSchema).

(** Complex types are not moved to the part without a schema. *)
Definition complex_kept : bool := forallb (λ inputColumn, negb (IsV3Composite (LogicalTypeOf inputColumn)) || bool_decide (is_Some (FindColumn outputSchema (ColumnName inputColumn)))) (Columns inputSchema).

Definition key_matches (inputColumn outputColumn : TColumnSchema) : bool :=
  (IgnoreStableNamesDifference options || bool_decide (ColumnStableName inputColumn = ColumnStableName outputColumn)) && bool_decide (SortOrder inputColumn = SortOrder outputColumn).

Fixpoint keys_loop (inputKeys outputKeys : list TColumnSchema) : Result bool :=
  match outputKeys with
  | [] => Ok true
  | outputColumn :: outputKeys =>
      match inputKeys with
      | [] => Crash
      | inputColumn :: inputKeys => if key_matches inputColumn outputColumn then keys_loop inputKeys outputKeys else Ok false
      end
  end.

Definition keys_ok : Result bool :=
  let cmp := GetKeyColumnCount (Columns outputSchema) - GetKeyColumnCount (Columns inputSchema) in
  if cmp >? 0 then Ok false
  else if UniqueKeys outputSchema && (negb (UniqueKeys inputSchema) || negb (cmp =? 0)) then Ok false
  else keys_loop (KeyColumns inputSchema) (KeyColumns outputSchema).

Definition CheckTableSchemaCompatibility : Result ESchemaCompatibility :=
  if Strict outputSchema && (negb (Strict inputSchema) || negb (forallb input_column_found (Columns inputSchema))) then Ok Incompatible
  else
    result ← columns_loop (Columns outputSchema) FullyCompatible;
    match result with
    | None => Ok Incompatible
    | Some result =>
        if negb deleted_ok then Ok Incompatible
        else if negb (Strict outputSchema) && negb complex_kept then Ok Incompatible
        else if IgnoreSortOrder options then Ok result
        else keys ← keys_ok; if (keys : bool) then Ok result else Ok Incompatible
    end.
End Check.

(** ** The form of values on the wire *)

(** Composite values and documents of type Any, in a type around a core. *)
Definition composite (type : TLogicalType) : bool := bool_decide (GetWireType type = TypeComposite).

Definition composite_in (nesting : nat) (core : TLogicalType) : bool := Nat.leb 2 nesting || Nat.eqb nesting 1 && IsNullable core || composite core.
Definition any_in (nesting : nat) (core : TLogicalType) : bool := (Nat.eqb nesting 0 || Nat.eqb nesting 1 && negb (IsNullable core)) && any_column core.

Lemma composite_optional element : composite (OptionalType element) = IsNullable element || composite element.
Proof. unfold composite, GetWireType. cbn [GetTypeV3Info]. by destruct (IsNullable element). Qed.

Lemma any_optional element : any_column (OptionalType element) = negb (IsNullable element) && any_column element.
Proof. unfold any_column. cbn [GetTypeV3Info]. by destruct (IsNullable element). Qed.

Lemma unwrap_wire type core nesting : UnwrapOptionalAndTagged type = (core, nesting) → composite type = composite_in nesting core ∧ any_column type = any_in nesting core.
Proof.
  revert core nesting. induction type using TLogicalType_induction; cbn [UnwrapOptionalAndTagged]; intros core nesting; try (by intros [= <- <-]); [|by intros E; apply (IHtype _ _ E)].
  destruct (UnwrapOptionalAndTagged type) as [core' n'] eqn:E. intros [= <- <-]. destruct (IHtype _ _ eq_refl) as [Hc Ha]. rewrite composite_optional, any_optional, Hc, Ha, (unwrap_nullable _ _ _ E). unfold composite_in, any_in.
  destruct n' as [|[|n']]; cbn; destruct (IsNullable core'), (composite core'), (any_column core'); done.
Qed.

(** The element of a state in place of the state. *)
Lemma state_wire nesting type core inner : is_state type = true → UnwrapOptionalAndTagged (state_element type) = (core, inner) → composite_in nesting type = composite_in (nesting + inner) core ∧ any_in nesting type = any_in (nesting + inner) core.
Proof.
  intros Hs E. destruct type as [| | | | | | | | | |f a e]; try done. cbn [state_element] in E. destruct (unwrap_wire _ _ _ E) as [Hc Ha]. pose proof (unwrap_nullable _ _ _ E) as Hn.
  assert (composite (AggregateStateType f a e) = composite e ∧ any_column (AggregateStateType f a e) = any_column e ∧ IsNullable (AggregateStateType f a e) = IsNullable e) as (C & A & N) by done.
  unfold composite_in at 1, any_in at 1. rewrite C, A, N, Hc, Ha, Hn. unfold composite_in, any_in. destruct nesting as [|[|nesting]], inner as [|[|inner]]; cbn; destruct (IsNullable core), (composite core), (any_column core); done.
Qed.

(** Documents without maps and attributes. *)
Definition plain_document (n : TNode) : Prop := attributed n = false ∧ has_map n = false ∧ has_attributes n = false.

Section Wire.
Context `{NamesOrder} (options : TTypeCompatibilityOptions) (validate_json : list byte → bool).
#[local] Abbreviation Conforms := (Conforms validate_json).
#[local] Abbreviation Check := (CheckTypeCompatibilityImpl options).

(** Any stays Any; composite values stay composite or are plain documents in Any. *)
Definition wire_kept (oldType newType : TLogicalType) : Prop :=
  (any_column oldType = true → any_column newType = true) ∧
  (composite oldType = true → composite newType = true ∨ any_column newType = true ∧ ∀ n, Conforms oldType n → plain_document n).

Definition wire_at (check : TLogicalType → TLogicalType → Result ESchemaCompatibility) : Prop :=
  ∀ oldType newType, throughout state_ok oldType → throughout state_ok newType → check oldType newType = Ok FullyCompatible → wire_kept oldType newType.

Lemma any_to_any oldElement newElement : CheckTypeCompatibilitySimple oldElement newElement = Ok FullyCompatible → oldElement = SimpleAny → newElement = SimpleAny.
Proof. intros E ->. by destruct newElement. Qed.

Lemma simple_any s : any_column (SimpleType s) = bool_decide (s = SimpleAny).
Proof. unfold any_column. cbn [GetTypeV3Info V1Type IsPureV1Type]. by rewrite andb_true_r. Qed.

Lemma state_not_any f a e : throughout state_ok (AggregateStateType f a e) → any_column (AggregateStateType f a e) = false.
Proof. intros (parent & -> & s & -> & Hf)%throughout_root. unfold any_column. cbn [GetTypeV3Info]. destruct f; cbn; try (by destruct s); destruct Hf as [Hs _]; destruct s; done. Qed.

(** Cores, a state only beside a state. *)
Lemma bare_wire check oldType newType : wire_at check → is_wrapped oldType = false → is_wrapped newType = false → is_state oldType && negb (is_state newType) = false → throughout state_ok oldType → throughout state_ok newType →
  CheckBareTypes options check oldType newType = Ok FullyCompatible → (any_column oldType = true → newType = SimpleType SimpleAny) ∧ (composite oldType = true → composite newType = true).
Proof.
  intros IH Ho Hn Hs Hold Hnew E.
  destruct oldType as [o|p s|e|e|oldFields oldRemoved|oldElements|oldFields|oldElements|key value|tag e|function argument element], newType as [o'|p' s'|e'|e'|newFields newRemoved|newElements|newFields|newElements|key' value'|tag' e'|function' argument' element']; try discriminate; try done; cbn [CheckBareTypes] in E.
  - split; [rewrite simple_any; intros Ha%bool_decide_eq_true; f_equal; by eapply any_to_any|]. unfold composite, GetWireType. cbn [GetTypeV3Info WireType]. by destruct o.
  - split; [by rewrite (state_not_any function argument element)|]. case_bool_decide as Ef; [|done]. subst function'. cbn [negb] in E. destruct (check element element') as [c| | |] eqn:Ec; try done. run_bind in E. case_bool_decide as Efull; [done|]. injection E as ->.
    assert (throughout state_ok element) as He by (eapply throughout_child; [exact Hold|by left]). assert (throughout state_ok element') as He' by (eapply throughout_child; [exact Hnew|by left]).
    intros Hc. destruct (IH _ _ He He' Ec) as [_ Hcomp]. destruct (Hcomp Hc) as [Hc'|[Ha _]]; [done|]. exfalso. pose proof (state_not_any _ _ _ Hnew) as Hna. unfold any_column in Hna, Ha. cbn [GetTypeV3Info] in Hna. congruence.
Qed.

Lemma null_plain s n : GetPhysicalType s = TypeNull → Conforms (SimpleType s) n → n = Node None VEntity.
Proof. intros Hs Hn. apply (bare_null validate_json (SimpleType s)); try done. cbn [IsNullable]. by apply bool_decide_eq_true. Qed.

(** The layers of an old type around its core against those of the new type. *)
Lemma layers_wire oldType oldCore oldNesting newType newCore newNesting : composite oldType = composite_in oldNesting oldCore → any_column oldType = any_in oldNesting oldCore → (∀ n, Conforms oldType n ↔ Layers validate_json oldNesting oldCore n) →
  UnwrapOptionalAndTagged newType = (newCore, newNesting) → (oldNesting = newNesting ∨ oldNesting = 0%nat ∧ newNesting = 1%nat) → is_wrapped oldCore = false → is_state oldCore && negb (is_state newCore) = false →
  IsNullable oldCore = IsNullable newCore ∨ newCore = SimpleType SimpleAny → (any_column oldCore = true → newCore = SimpleType SimpleAny) → (composite oldCore = true → composite newCore = true) → wire_kept oldType newType.
Proof.
  intros Hc Ha Hv En Hcount Hbare Hs Hnull Hany Hcomp. destruct (unwrap_wire _ _ _ En) as [Hc' Ha']. unfold wire_kept. rewrite Hc, Ha, Hc', Ha'. split.
  - unfold any_in at 1. intros [Hn Hoa]%andb_prop. rewrite (Hany Hoa). unfold any_in. cbn. rewrite andb_true_r. destruct Hcount as [<- |[-> ->]]; [|done]. destruct oldNesting as [|[|]]; done.
  - unfold composite_in at 1. intros [[Hk|Hk]%orb_prop|Hoc]%orb_prop.
    + left. destruct Hcount as [<- |[-> ->]]; [|done]. unfold composite_in. by rewrite Hk.
    + apply andb_prop in Hk as [Hone%Nat.eqb_eq Hon]. destruct Hcount as [<- |[-> _]]; [|done]. subst oldNesting. destruct Hnull as [Hnull| ->]; [left; unfold composite_in; cbn; by rewrite <- Hnull, Hon|].
      right. split; [done|]. intros n [-> |Hn]%Hv; [by split_and!|]. rewrite Hon in Hn. cbn in Hn. destruct Hn as (m & -> & Hm). rewrite andb_true_r in Hs. destruct oldCore as [s| | | | | | | | | |]; try done. cbn [IsNullable] in Hon. apply bool_decide_eq_true in Hon. rewrite (null_plain s m Hon Hm). by split_and!.
    + left. unfold composite_in. by rewrite (Hcomp Hoc), orb_true_r.
Qed.

Lemma wrapped_wire fuel oldType newType : wire_at (Check fuel) → throughout state_ok oldType → throughout state_ok newType → CheckWrappedTypes (Check (S fuel)) oldType newType = Ok FullyCompatible → wire_kept oldType newType.
Proof.
  intros IH Hold Hnew. unfold CheckWrappedTypes. destruct (UnwrapOptionalAndTagged newType) as [newCore newNesting] eqn:En. pose proof (old_core validate_json oldType (is_state newCore)) as Hcore. destruct (UnwrapOptionalAndTagged oldType) as [oldElement oldNesting'] eqn:Eo.
  destruct (if is_state oldElement && negb (is_state newCore) then _ else _) as [oldCore oldNesting] eqn:Ec. destruct (Hcore oldCore oldNesting Hold eq_refl) as (Hbare & Hok & Hstate & _ & Hvalues). clear Hcore.
  assert (composite oldType = composite_in oldNesting oldCore ∧ any_column oldType = any_in oldNesting oldCore) as [Wc Wa].
  { destruct (unwrap_wire _ _ _ Eo) as [-> ->]. destruct (is_state oldElement && negb (is_state newCore)) eqn:Es; [|by injection Ec as <- <-]. apply andb_prop in Es as [Es _]. destruct (UnwrapOptionalAndTagged (state_element oldElement)) as [c k] eqn:Ee. injection Ec as <- <-. by apply state_wire. }
  pose proof (unwrap_bare _ _ _ En) as Hbare'. pose proof (unwrap_throughout _ _ _ _ En Hnew) as Hok'.
  assert (Check (S fuel) oldCore newCore = Ok FullyCompatible → (oldNesting = newNesting ∨ oldNesting = 0%nat ∧ newNesting = 1%nat) → wire_kept oldType newType) as Hkept.
  { intros E Hcount. pose proof (bare_nullable options (S fuel) oldCore newCore Hbare Hbare' (throughout_root _ _ Hok) (throughout_root _ _ Hok') Hstate E) as Hnull. cbn [CheckTypeCompatibilityImpl] in E. rewrite Hbare, Hbare' in E. cbn [orb] in E.
    destruct (bare_wire _ _ _ IH Hbare Hbare' Hstate Hok Hok' E) as [Hany Hcomp]. by apply (layers_wire oldType oldCore oldNesting newType newCore newNesting). }
  destruct (Nat.eqb_spec oldNesting newNesting) as [-> |Hne]; cbn [orb]; [intros E; apply Hkept; [done|by left]|]. destruct (Nat.eqb_spec oldNesting 0) as [-> |Hpos]; cbn [andb].
  - destruct (Nat.eqb_spec newNesting 1) as [-> |Hone]; cbn [andb]; [|done]. intros E. apply Hkept; [done|by right].
  - destruct (Nat.eqb oldNesting 1 && Nat.eqb newNesting 0); [|done]. destruct (Check (S fuel) oldCore newCore) as [c| | |]; try done. run_bind. by intros [= [_ ?]%min_full].
Qed.

Lemma check_wire fuel : wire_at (Check fuel).
Proof.
  induction fuel as [fuel IH] using lt_wf_ind. intros oldType newType Hold Hnew. destruct fuel as [|fuel]; [done|]. cbn [CheckTypeCompatibilityImpl]. destruct (is_wrapped oldType || is_wrapped newType) eqn:Ew.
  - destruct fuel as [|fuel]; [|apply wrapped_wire; [apply IH; lia|done|done]]. unfold CheckWrappedTypes. destruct (UnwrapOptionalAndTagged oldType) as [oldElement ?], (UnwrapOptionalAndTagged newType) as [newElement ?]. destruct (if is_state oldElement && negb (is_state newElement) then _ else _) as [core ?].
    by repeat match goal with |- (if ?b then _ else _) = _ → _ => destruct b end.
  - apply orb_false_iff in Ew as [Eo En]. intros E. destruct (is_state oldType && negb (is_state newType)) eqn:Es.
    + apply andb_prop in Es as [So Sn]. destruct oldType as [| | | | | | | | | |f a e]; try done. assert (throughout state_ok e) as He by (eapply throughout_child; [exact Hold|by left]).
      destruct (IH fuel ltac:(lia) e newType He Hnew) as [Ha Hc]; [by destruct newType|]. split; [done|]. intros Hcomp. destruct (Hc Hcomp) as [?|[? Hp]]; [by left|right]. split; [done|]. intros n Hn. apply Hp. by inversion Hn.
    + destruct (bare_wire _ _ _ (IH fuel ltac:(lia)) Eo En Es Hold Hnew E) as [Ha Hc]. split; [by intros ->%Ha|]. intros ?. left. by apply Hc.
Qed.
End Wire.

(** ** Columns *)

Definition scalar_type (v : TValue) : option EValueType :=
  match v with VInt64 _ => Some TypeInt64 | VUint64 _ => Some TypeUint64 | VDouble _ => Some TypeDouble | VBoolean _ => Some TypeBoolean | VString _ => Some TypeString | _ => None end.

Lemma any_wire type : any_column type = true → GetWireType type = TypeAny.
Proof. unfold GetWireType, any_column. intros [Ev%bool_decide_eq_true Ep]%andb_prop. by rewrite (pure_wire _ Ep), Ev. Qed.

(** A scalar tells the wire type of the types it belongs to. *)
Lemma scalar_wire validate_json type v t : Conforms validate_json type (Node None v) → scalar_type v = Some t → GetWireType type = t ∨ any_column type = true.
Proof.
  induction type using TLogicalType_induction; intros Hc Ht; try (inversion Hc; subst; discriminate Ht).
  - inversion Hc as [? Hv|? ? Hs| | | | | | | | | | | |]; subst; [by right|]. left. unfold GetWireType. cbn [GetTypeV3Info WireType]. destruct v; try discriminate Ht; injection Ht as <-; cbn [SimpleConforms] in Hs; first [exact Hs|exact (proj1 Hs)].
  - inversion Hc; subst. injection Ht as <-. by left.
  - rewrite any_optional. unfold GetWireType. cbn [GetTypeV3Info]. inversion Hc as [| | |?|? ? En Hn|? ? En Hn| | | | | | | |]; subst; try discriminate Ht. rewrite En. cbn [WireType negb andb]. by apply IHtype.
  - inversion Hc; subst. by apply IHtype.
  - inversion Hc; subst. by apply IHtype2.
Qed.

(** A column whose type is valid and of which the check of compatibility speaks (see [CheckTypeCompatibility]). *)
Definition column_valid (column : TColumnSchema) : Prop := LogicalType.ValidateLogicalType None (LogicalTypeOf column) = Ok ().
Definition column_plain (column : TColumnSchema) : Prop := throughout fields_optional (LogicalTypeOf column) ∧ throughout state_unboxed (LogicalTypeOf column).

Lemma column_takes `{NamesOrderLaws} options validate_json fd ignoreRequired validateAnyIsValidYson inputColumn outputColumn value : AllowStructFieldRemoval options = false → column_valid inputColumn → column_valid outputColumn → column_plain outputColumn →
  (is_Some (SortOrder outputColumn) → is_Some (SortOrder inputColumn)) → CheckTypeCompatibility options (LogicalTypeOf inputColumn) (LogicalTypeOf outputColumn) = Ok FullyCompatible →
  Takes validate_json fd true ignoreRequired validateAnyIsValidYson inputColumn value → Takes validate_json fd true ignoreRequired validateAnyIsValidYson outputColumn value.
Proof.
  intros Hr Hi%(decides_ok _ _ _ (ValidateLogicalType_decides _ _)) Ho%(decides_ok _ _ _ (ValidateLogicalType_decides _ _)) [Hf Hu] Hsort E. pose proof (throughout_impl _ _ _ valid_state (WellFormed_valid _ _ Hi)) as Si. pose proof (throughout_impl _ _ _ valid_state (WellFormed_valid _ _ Ho)) as So.
  destruct (WellFormed_any _ _ Ho) as [Hany Hne]. assert (throughout target_ok (LogicalTypeOf outputColumn)) as Ht by (intros stack t Hocc; split_and!; [by apply (So stack)|by apply (Hany stack)|by apply (Hf stack)|by apply (Hu stack)]).
  destruct (check_sound options Hr validate_json _ _ _ Si E Ht Hne) as [Hvalues _]. destruct (check_wire options validate_json _ _ _ Si So E) as [Wany Wcomp]. clear E. set (input := LogicalTypeOf inputColumn) in *. set (output := LogicalTypeOf outputColumn) in *. unfold Takes. fold input output. case_bool_decide as Ev.
  { intros [En|?]; [left|by right]. destruct (IsNullable output) eqn:Eo; [done|]. exfalso. apply (not_null validate_json output Eo). apply Hvalues. by apply nullable_null. }
  destruct (any_column input) eqn:Ai.
  { rewrite (Wany eq_refl). intros [Hcompatible Hfits]. split; [done|]. assert (∀ yson, any_fits fd validateAnyIsValidYson inputColumn yson → any_fits fd validateAnyIsValidYson outputColumn yson) as Hany'; [|by destruct value; auto].
    intros yson. unfold any_fits. destruct (SortOrder inputColumn), (SortOrder outputColumn); try done; [by intros (n & ? & ? & _) _; exists n|]. by destruct (Hsort ltac:(by eexists)). }
  intros (Ew & n & Hh & Hc). pose proof (Hvalues n Hc) as Hc'. assert (GetWireType input ≠ TypeAny) as Hna by (intros Ea; by rewrite (wire_any _ Ea) in Ai).
  assert (ValueType value = TypeComposite → GetWireType output = TypeComposite ∨ any_column output = true ∧ plain_document n) as Hcomp.
  { intros Et. destruct (Wcomp ltac:(apply bool_decide_eq_true; congruence)) as [Hw%bool_decide_eq_true|[Ha Hp]]; [by left|right; split; [done|by apply Hp]]. }
  destruct (any_column output) eqn:Ao.
  - split; [by destruct Hh|]. destruct Hh as [| | | | | |n yson Hd|n yson Hd]; try done. destruct (Hcomp eq_refl) as [Hw|[_ (P1 & P2 & P3)]]; [by rewrite (any_wire _ Ao) in Hw|]. apply document_text in Hd. unfold any_fits. destruct (SortOrder outputColumn); [by exists n|intros _; by exists n].
  - split; [|by exists n]. destruct Hh; cbn [ValueType] in *; try done; try (destruct (scalar_wire validate_json output _ _ Hc' eq_refl) as [->|?]; [done|congruence]). by destruct (Hcomp eq_refl) as [->|[? _]].
Qed.

Lemma composite_kept `{NamesOrderLaws} options fd inputColumn outputColumn value : column_valid inputColumn → column_valid outputColumn →
  CheckTypeCompatibility options (LogicalTypeOf inputColumn) (LogicalTypeOf outputColumn) = Ok FullyCompatible → composite_ok fd inputColumn value → composite_ok fd outputColumn value.
Proof.
  intros Hi%(decides_ok _ _ _ (ValidateLogicalType_decides _ _)) Ho%(decides_ok _ _ _ (ValidateLogicalType_decides _ _)) E Hv yson -> Ha. pose proof (throughout_impl _ _ _ valid_state (WellFormed_valid _ _ Hi)) as Si. pose proof (throughout_impl _ _ _ valid_state (WellFormed_valid _ _ Ho)) as So.
  destruct (check_wire options (λ _, true) _ _ _ Si So E) as [Wany _]. apply (Hv yson eq_refl). destruct (any_column (LogicalTypeOf inputColumn)) eqn:Ai; [|done]. by rewrite Wany in Ha.
Qed.

(** ** Schemas *)

Lemma find_column_some name_of columns name column : find_column name_of columns name = Some column → column ∈ columns ∧ name_of column = name.
Proof.
  unfold find_column. destruct (filter _ columns) as [|c rest] eqn:E; [done|]. intros [= <-]. assert (c ∈ filter (λ column, name_of column = name) columns) as Hin by (rewrite E; by left). by apply list_elem_of_filter in Hin as [-> ?].
Qed.

Lemma find_column_none name_of columns name : find_column name_of columns name = None → Forall (λ column, name_of column ≠ name) columns.
Proof.
  unfold find_column. destruct (filter _ columns) as [|c rest] eqn:E; [|done]. intros _. apply list.Forall_forall. intros c Hin Hn. assert (c ∈ filter (λ column, name_of column = name) columns) as Hf by (by apply list_elem_of_filter). rewrite E in Hf. by apply not_elem_of_nil in Hf.
Qed.

Lemma unique_columns_spec columns names stables result : unique_columns columns names stables = Ok result → NoDup (map ColumnName columns) ∧ NoDup (map ColumnStableName columns) ∧ Forall (λ column, (ColumnStableName column ∉ stables)) columns ∧ Forall (λ column, (ColumnName column ∉ names)) columns.
Proof.
  revert names stables. induction columns as [|c columns IH]; intros names stables; cbn [unique_columns map]; [intros _; split_and!; constructor|]. case_bool_decide as Hs; [done|]. case_bool_decide as Hn; [done|]. intros (N & S & FS & FN)%IH. rewrite list.Forall_forall in FS, FN.
  split_and!; try (constructor; [|done]).
  - intros (d & Ed & Hd)%list_elem_of_fmap. specialize (FN _ Hd). set_solver.
  - intros (d & Ed & Hd)%list_elem_of_fmap. specialize (FS _ Hd). set_solver.
  - constructor; [done|]. apply list.Forall_forall. intros d Hd. specialize (FS _ Hd). set_solver.
  - constructor; [done|]. apply list.Forall_forall. intros d Hd. specialize (FN _ Hd). set_solver.
Qed.

Lemma uniqueness_spec schema : ValidateColumnUniqueness schema = Ok () → NoDup (map ColumnName (Columns schema)) ∧ NoDup (map ColumnStableName (Columns schema)).
Proof. unfold ValidateColumnUniqueness. destruct (unique_columns _ _ _) as [s| | |] eqn:E; try done. intros _. apply unique_columns_spec in E as (? & ? & _). done. Qed.

Lemma filter_all {A} (P : A → Prop) `{!∀ x, Decision (P x)} l : Forall P l → filter P l = l.
Proof. induction 1; [done|]. rewrite filter_cons_True by done. by f_equal. Qed.

(** Key columns form a prefix: a column is sorted exactly when it is among them. *)
Lemma key_prefix_spec schema i column : ValidateKeyColumnsFormPrefix schema = Ok () → Columns schema !! i = Some column → is_Some (SortOrder column) → (i < length (KeyColumns schema))%nat.
Proof.
  unfold ValidateKeyColumnsFormPrefix, KeyColumns, GetKeyColumnCount. rewrite Nat2Z.id. set (columns := Columns schema). set (sorted := λ column, is_Some (SortOrder column)). set (k := length (filter sorted columns)). destruct (forallb _ _) eqn:Ef; [|done]. intros _ Hi Hs.
  assert (k <= length columns)%nat as Hk by apply length_filter. rewrite length_take, Nat.min_l by done. destruct (decide (i < k)%nat) as [|Hge]; [done|exfalso]. assert (filter sorted (take k columns) = take k columns) as Htake.
  { apply filter_all. apply list.Forall_forall. intros c Hc. rewrite forallb_forall in Ef. apply list_elem_of_In, Ef in Hc. by apply bool_decide_eq_true in Hc. }
  assert (length (filter sorted columns) = k) as Hlen by done. rewrite <- (take_drop k columns) in Hlen at 1. rewrite list.filter_app, Htake, length_app, length_take, Nat.min_l in Hlen by done.
  assert (column ∈ filter sorted (drop k columns)) as Hin by (apply list_elem_of_filter; split; [done|]; apply (list_elem_of_lookup_2 _ (i - k)); rewrite lookup_drop; rewrite <- Hi; f_equal; lia).
  destruct (filter sorted (drop k columns)); [by apply not_elem_of_nil in Hin|]. simpl in Hlen. lia.
Qed.

Section Schemas.
Context `{NamesOrderLaws} (options : TTableSchemaCompatibilityOptions) (inputSchema outputSchema : TTableSchema).

Lemma columns_full columns result : columns_loop options inputSchema columns result = Ok (Some FullyCompatible) → result = FullyCompatible ∧
  Forall (λ outputColumn, match FindColumn inputSchema (ColumnName outputColumn) with
    | Some inputColumn => (IgnoreStableNamesDifference options = false → ColumnStableName inputColumn = ColumnStableName outputColumn) ∧
        CheckTypeCompatibility (TypeCompatibilityOptions options) (LogicalTypeOf inputColumn) (LogicalTypeOf outputColumn) = Ok FullyCompatible
    | None => Strict inputSchema = true ∧ ColumnRequired outputColumn = false
    end) columns.
Proof.
  revert result. induction columns as [|o columns IH]; intros result; cbn [columns_loop]; [intros [= ->]; by split|]. destruct (FindDeletedColumn _ _); [done|]. destruct (FindColumn inputSchema (ColumnName o)) as [i|] eqn:Ei.
  - destruct (negb (IgnoreStableNamesDifference options) && _) eqn:Es; [done|]. destruct (CheckTypeCompatibility _ _ _) as [c| | |] eqn:Ec; try done. run_bind. set (next := if level c <? level result then c else result). destruct (bool_decide (next = Incompatible)) eqn:Er; [by apply bool_decide_eq_true in Er; rewrite Er|]. destruct (mismatch _ _); [done|]. intros [El Hall]%IH.
    assert (c = FullyCompatible ∧ result = FullyCompatible) as [-> ->] by (by unfold next in El; destruct c, result). split; [done|]. constructor; [|done]. rewrite Ei. split; [|done]. intros Eign. rewrite Eign in Es. cbn in Es. by apply bool_decide_eq_false, dec_stable in Es.
  - destruct (_ && _); [done|]. destruct (Strict inputSchema) eqn:Estrict; [|done]. cbn [negb]. destruct (ColumnRequired o) eqn:Er; [done|]. intros [-> Hall]%IH. split; [done|]. constructor; [|done]. by rewrite Ei.
Qed.

Lemma columns_total columns result : Forall column_valid (Columns inputSchema) → Forall column_valid columns → ∃ r, columns_loop options inputSchema columns result = Ok r.
Proof.
  intros Hin. revert result. induction columns as [|o columns IH]; intros result Hout; cbn [columns_loop]; [by eexists|]. apply list.Forall_cons in Hout as [Ho Hos]. destruct (FindDeletedColumn _ _); [by eexists|]. destruct (FindColumn inputSchema (ColumnName o)) as [i|] eqn:Ei.
  - destruct (_ && _); [by eexists|]. apply find_column_some in Ei as [Hi _]. rewrite list.Forall_forall in Hin. pose proof (Hin _ Hi) as Hv. destruct (check_total (TypeCompatibilityOptions options) (S (type_size (LogicalTypeOf i) + type_size (LogicalTypeOf o))) (LogicalTypeOf i) (LogicalTypeOf o)) as (c & Ec).
    + eapply WellFormed_valid. by apply (decides_ok _ _ _ (ValidateLogicalType_decides _ _)) in Hv.
    + eapply WellFormed_valid. by apply (decides_ok _ _ _ (ValidateLogicalType_decides _ _)) in Ho.
    + lia.
    + unfold CheckTypeCompatibility. rewrite Ec. run_bind. case_bool_decide; [by eexists|]. destruct (mismatch _ _); [by eexists|]. by apply IH.
  - destruct (_ && _); [by eexists|]. destruct (negb _); [by eexists|]. destruct (ColumnRequired o); [by eexists|]. by apply IH.
Qed.

Lemma keys_loop_full inputKeys outputKeys : keys_loop options inputKeys outputKeys = Ok true → IgnoreStableNamesDifference options = false →
  map (λ column, (ColumnStableName column, SortOrder column)) outputKeys `prefix_of` map (λ column, (ColumnStableName column, SortOrder column)) inputKeys.
Proof.
  revert outputKeys. induction inputKeys as [|i inputKeys IH]; intros [|o outputKeys]; cbn [keys_loop map]; try (intros _ _; apply prefix_nil); [done|]. destruct (key_matches options i o) eqn:Ek; [|done]. intros Hl Eign. unfold key_matches in Ek. rewrite Eign in Ek. cbn [orb] in Ek.
  apply andb_prop in Ek as [Es%bool_decide_eq_true Eo%bool_decide_eq_true]. cbn [map]. rewrite Es, Eo. by apply prefix_cons, IH.
Qed.

Lemma keys_loop_total inputKeys outputKeys : (length outputKeys <= length inputKeys)%nat → ∃ r, keys_loop options inputKeys outputKeys = Ok r.
Proof.
  revert outputKeys. induction inputKeys as [|i inputKeys IH]; intros [|o outputKeys] Hl; cbn [keys_loop]; try (by eexists); [simpl in Hl; lia|]. destruct (key_matches options i o); [|by eexists]. apply IH. simpl in Hl. lia.
Qed.

Lemma keys_length schema : Z.of_nat (length (KeyColumns schema)) = GetKeyColumnCount (Columns schema).
Proof. unfold KeyColumns, GetKeyColumnCount. rewrite Nat2Z.id, length_take, Nat.min_l; [done|]. apply length_filter. Qed.

Lemma keys_total : ∃ r, keys_ok options inputSchema outputSchema = Ok r.
Proof.
  unfold keys_ok. destruct (Z.gtb_spec (GetKeyColumnCount (Columns outputSchema) - GetKeyColumnCount (Columns inputSchema)) 0) as [|Hle]; [by eexists|]. destruct (_ && _); [by eexists|]. apply keys_loop_total. pose proof (keys_length inputSchema). pose proof (keys_length outputSchema). lia.
Qed.
End Schemas.

(** Names are distinct, key columns come first, types are valid. *)
Definition schema_valid (schema : TTableSchema) : Prop := ValidateColumnUniqueness schema = Ok () ∧ ValidateKeyColumnsFormPrefix schema = Ok () ∧ Forall column_valid (Columns schema).

Section Sound.
Context `{NamesOrderLaws} (options : TTableSchemaCompatibilityOptions) (inputSchema outputSchema : TTableSchema).
Context (Hsort : IgnoreSortOrder options = false) (Hstable : IgnoreStableNamesDifference options = false) (Hin : schema_valid inputSchema) (Hout : schema_valid outputSchema).

(** What the check tells when it finds full compatibility. *)
Lemma schema_full : CheckTableSchemaCompatibility options inputSchema outputSchema = Ok FullyCompatible →
  (Strict outputSchema = true → forallb (input_column_found options outputSchema) (Columns inputSchema) = true) ∧ columns_loop options inputSchema (Columns outputSchema) FullyCompatible = Ok (Some FullyCompatible) ∧ keys_ok options inputSchema outputSchema = Ok true.
Proof.
  unfold CheckTableSchemaCompatibility. rewrite Hsort. destruct (Strict outputSchema && _) eqn:Es; [done|]. destruct (columns_loop _ _ _ _) as [[result|]| | |] eqn:Ec; try done. run_bind. destruct (negb (deleted_ok _ _)); [done|]. destruct (negb (Strict outputSchema) && _); [done|].
  destruct (keys_ok _ _ _) as [keys| | |]; try done. run_bind. destruct keys; [|done]. intros [= ->]. split_and!; [|done|done]. intros Estrict. rewrite Estrict in Es. cbn in Es. apply orb_false_iff in Es as [_ Es]. by apply negb_false_iff in Es.
Qed.

Lemma schema_total : ∃ c, CheckTableSchemaCompatibility options inputSchema outputSchema = Ok c.
Proof.
  unfold CheckTableSchemaCompatibility. destruct (_ && _); [by eexists|]. destruct Hin as (_ & _ & Ti), Hout as (_ & _ & To). destruct (columns_total options inputSchema (Columns outputSchema) FullyCompatible Ti To) as (r & ->). run_bind. destruct r as [result|]; [|by eexists].
  destruct (negb (deleted_ok _ _)); [by eexists|]. destruct (_ && _); [by eexists|]. destruct (IgnoreSortOrder options); [by eexists|]. destruct (keys_total options inputSchema outputSchema) as (k & ->). run_bind. destruct k; by eexists.
Qed.

Lemma keys_full : keys_ok options inputSchema outputSchema = Ok true →
  map (λ column, (ColumnStableName column, SortOrder column)) (KeyColumns outputSchema) `prefix_of` map (λ column, (ColumnStableName column, SortOrder column)) (KeyColumns inputSchema) ∧
  (UniqueKeys outputSchema = true → UniqueKeys inputSchema = true ∧ length (KeyColumns outputSchema) = length (KeyColumns inputSchema)).
Proof.
  unfold keys_ok. destruct (_ >? 0); [done|]. destruct (UniqueKeys outputSchema && _) eqn:Eu; [done|]. intros Hk. split; [by apply (keys_loop_full options)|]. intros E. rewrite E in Eu. cbn in Eu. apply orb_false_iff in Eu as [?%negb_false_iff Ez%negb_false_iff%Z.eqb_eq]. split; [done|].
  pose proof (keys_length inputSchema). pose proof (keys_length outputSchema). lia.
Qed.

(** A column that is sorted in the output is sorted in the input. *)
Lemma sorted_kept inputColumn outputColumn : keys_ok options inputSchema outputSchema = Ok true → inputColumn ∈ Columns inputSchema → outputColumn ∈ Columns outputSchema → ColumnStableName inputColumn = ColumnStableName outputColumn →
  is_Some (SortOrder outputColumn) → is_Some (SortOrder inputColumn).
Proof.
  intros [[rest Hprefix] _]%keys_full Hi Ho Hn Hs. destruct (list_elem_of_lookup_1 _ _ Ho) as (j & Hj). destruct Hin as (Ui & _ & _), Hout as (_ & Po & _). pose proof (key_prefix_spec _ _ _ Po Hj Hs) as Hlt.
  set (f := λ column, (ColumnStableName column, SortOrder column)) in Hprefix. assert (KeyColumns outputSchema !! j = Some outputColumn) as Hk by (unfold KeyColumns; rewrite lookup_take_lt; [done|]; pose proof (keys_length outputSchema); lia).
  assert (map f (KeyColumns inputSchema) !! j = Some (f outputColumn)) as Hm by (rewrite Hprefix; apply lookup_app_l_Some; by rewrite list_lookup_fmap, Hk). rewrite list_lookup_fmap in Hm. destruct (KeyColumns inputSchema !! j) as [c|] eqn:Ec; [|done]. injection Hm as Hs1 Hs2.
  assert (c ∈ Columns inputSchema) as Hc by (unfold KeyColumns in Ec; apply lookup_take_Some in Ec as [Ec _]; by eapply list_elem_of_lookup_2). assert (c = inputColumn) as ->; [|by rewrite Hs2].
  apply uniqueness_spec in Ui as [_ Ui]. destruct (list_elem_of_lookup_1 _ _ Hc) as (x & Hx), (list_elem_of_lookup_1 _ _ Hi) as (y & Hy). assert (x = y) as ->; [|congruence]. eapply NoDup_lookup; [exact Ui|by rewrite list_lookup_fmap, Hx|]. rewrite list_lookup_fmap, Hy. cbn. by rewrite Hs1, Hn.
Qed.
End Sound.

(** ** Theorems *)

(** C18. Two valid table schemas are always compared, provided that the sort order and stable names are compared and
    struct fields may not be removed. When the check then finds full compatibility, the rows of the input table are rows
    of the output table. A column of the output that the input has, too, accepts every value that the input column
    accepts, as [ValidateValueType] decides it with columns of type Any open to all values: this supposes that the type
    of the output column has no struct field that is nullable without being an optional and no optional of an aggregate
    state that may be null ([new_field_missing], [optional_state_boxed]), and that composite values hold documents. A
    column that the input does not have is not required and accepts the nulls that it is filled with. When the output is
    strict, every input column is one of its columns or, if the option for them is set, the column of timestamps of
    one. Its keys are a prefix of the keys of the input in the same sort order, all of them where keys are unique. *)
Theorem CheckTableSchemaCompatibility_sound `{NamesOrderLaws} validate_json fd ndebug options inputSchema outputSchema :
  total_conversion fd → AllowStructFieldRemoval (TypeCompatibilityOptions options) = false → IgnoreSortOrder options = false → IgnoreStableNamesDifference options = false →
  schema_valid inputSchema → schema_valid outputSchema → Forall column_plain (Columns outputSchema) →
  (∃ compatibility, CheckTableSchemaCompatibility options inputSchema outputSchema = Ok compatibility) ∧
  (CheckTableSchemaCompatibility options inputSchema outputSchema = Ok FullyCompatible →
    (∀ outputColumn ignoreRequired validateAny, outputColumn ∈ Columns outputSchema →
      match FindColumn inputSchema (ColumnName outputColumn) with
      | Some inputColumn => ∀ value, composite_ok fd inputColumn value → ValidateValueType validate_json fd ndebug value inputColumn true ignoreRequired validateAny = Ok () → ValidateValueType validate_json fd ndebug value outputColumn true ignoreRequired validateAny = Ok ()
      | None => ValidateValueType validate_json fd ndebug ValueNull outputColumn true ignoreRequired validateAny = Ok ()
      end) ∧
    (Strict outputSchema = true → ∀ inputColumn, inputColumn ∈ Columns inputSchema →
      is_Some (FindColumn outputSchema (ColumnName inputColumn)) ∨ AllowTimestampColumns options = true ∧ ∃ originalColumnName, ColumnName inputColumn = TimestampColumnPrefix ++ originalColumnName ∧ is_Some (FindColumn outputSchema originalColumnName)) ∧
    map (λ column, (ColumnStableName column, SortOrder column)) (KeyColumns outputSchema) `prefix_of` map (λ column, (ColumnStableName column, SortOrder column)) (KeyColumns inputSchema) ∧
    (UniqueKeys outputSchema = true → UniqueKeys inputSchema = true ∧ length (KeyColumns outputSchema) = length (KeyColumns inputSchema))).
Proof.
  intros Hfd Hremoval Hsort Hstable Hin Hout Hplain. split; [by apply schema_total|]. intros (Hstrict & Hcols & Hkeys)%schema_full; [|done]. apply columns_full in Hcols as [_ Hcols]. split_and!; [|..|by apply (keys_full options)|by apply (keys_full options)].
  - intros outputColumn ignoreRequired validateAny Ho. rewrite list.Forall_forall in Hcols. specialize (Hcols _ Ho). destruct (FindColumn inputSchema (ColumnName outputColumn)) as [inputColumn|] eqn:Ei.
    + destruct Hcols as [Hname Hc]. specialize (Hname Hstable). apply find_column_some in Ei as [Hi _]. intros value Hv E. pose proof Hin as (_ & _ & Ti). pose proof Hout as (_ & _ & To). rewrite list.Forall_forall in Ti. rewrite list.Forall_forall in To. rewrite list.Forall_forall in Hplain.
      pose proof (ValidateValueType_settles validate_json fd ndebug Hfd true ignoreRequired validateAny inputColumn value (Ti _ Hi) Hv) as S1. rewrite E in S1. cbn [settles] in S1.
      assert (Takes validate_json fd true ignoreRequired validateAny outputColumn value) as Ht by (apply (column_takes (TypeCompatibilityOptions options) validate_json fd ignoreRequired validateAny inputColumn); try done; [by apply Ti|by apply To|by apply Hplain|by apply (sorted_kept options inputSchema outputSchema)]).
      assert (composite_ok fd outputColumn value) as Hv' by (by eapply composite_kept; [by apply Ti|by apply To|..]).
      pose proof (ValidateValueType_settles validate_json fd ndebug Hfd true ignoreRequired validateAny outputColumn value (To _ Ho) Hv') as S2.
      destruct (ValidateValueType _ _ _ _ outputColumn _ _ _) as [[]|e| |]; cbn [settles] in S2; [done|destruct S2; done|destruct S2; done|done].
    + destruct Hcols as [_ Hr]. unfold ValidateValueType. cbn. by rewrite Hr.
  - intros Es inputColumn Hi. specialize (Hstrict Es). rewrite forallb_forall in Hstrict. apply list_elem_of_In, Hstrict in Hi. unfold input_column_found in Hi. apply orb_prop in Hi as [Hi%bool_decide_eq_true|[Ht Hi]%andb_prop]; [by left|right]. split; [done|].
    destruct (GetTimestampColumnOriginalNameOrNull (ColumnName inputColumn)) as [name|] eqn:En; [|done]. apply bool_decide_eq_true in Hi. exists name. split; [by apply timestamp_name|done].
Qed.

#[local] Existing Instances lexical_order lexical_order_laws.

Lemma CheckTableSchemaCompatibility_sound_witness
  (column := λ name type order, {| ColumnStableName := name; ColumnName := name; LogicalTypeOf := type; SortOrder := order; Expression := None; Materialized := None; Aggregate := None |})
  (input := {| Columns := [column (B"k") (SimpleType SimpleInt32) (Some Ascending); column (B"v") (SimpleType SimpleUtf8) None]; DeletedColumns := []; Strict := true; UniqueKeys := false |})
  (output := {| Columns := [column (B"k") (SimpleType SimpleInt64) (Some Ascending); column (B"v") (OptionalType (SimpleType SimpleString)) None; column (B"w") (OptionalType (SimpleType SimpleAny)) None]; DeletedColumns := []; Strict := true; UniqueKeys := false |})
  (options := {| TypeCompatibilityOptions := strict_options; IgnoreSortOrder := false; ForbidExtraComputedColumns := true; IgnoreStableNamesDifference := false; AllowTimestampColumns := false |}) :
  CheckTableSchemaCompatibility options input output = Ok FullyCompatible ∧
  ValidateValueType (λ _, true) (λ _, Ok 0) false ValueNull (column (B"w") (OptionalType (SimpleType SimpleAny)) None) true false false = Ok ().
Proof.
  assert (∀ s, throughout fields_optional (SimpleType s) ∧ throughout state_unboxed (SimpleType s)) as Hs by (intros s; split; apply throughout_intro; try done; by intros ? ?%not_elem_of_nil).
  assert (∀ s, throughout fields_optional (OptionalType (SimpleType s)) ∧ throughout state_unboxed (OptionalType (SimpleType s))) as Hopt by (intros s; split; (apply throughout_intro; [done|]); intros ? ->%list_elem_of_singleton; apply Hs).
  destruct (CheckTableSchemaCompatibility_sound (λ _, true) (λ _, Ok 0) false options input output) as [_ Hsound]; try reflexivity; [done|..].
  - split_and!; [vm_compute; reflexivity..|]. repeat constructor; vm_compute; reflexivity.
  - split_and!; [vm_compute; reflexivity..|]. repeat constructor; vm_compute; reflexivity.
  - repeat (apply list.Forall_cons; split; [first [exact (Hs _)|exact (Hopt _)]|]). constructor.
  - assert (CheckTableSchemaCompatibility options input output = Ok FullyCompatible) as E by (vm_compute; reflexivity). split; [exact E|]. destruct (Hsound E) as [Hc _]. apply (Hc (column (B"w") (OptionalType (SimpleType SimpleAny)) None) false false). by right; right; left.
Defined.
