(* ===== verification/ClientRows.v ===== *)
(** The rows that clients may write: [ValidateClientRow] as a condition on the row. *)

From stdpp Require Import gmap.
From S2P Require Import Prelude CompositeCompare Utf8 YsonStream YsonLexer YsonEvents YsonParser YsonGrammar YsonWriter YsonReplay LogicalType Compare RowValues RowCodec Deserialize Decimal DecimalText ComplexTypeValidator ComplexTypeValues Comparator RowValidation ColumnValues.

#[local] Set Warnings "-clear-no-such-hyp".

(** A call that returns or throws, or aborts where [excuse] holds. *)
Definition steady {A} (excuse : Prop) (r : Result A) : Prop := match r with Ok _ | Throw _ => True | Crash => excuse | OutOfFuel => False end.

Lemma steady_bind {A C} excuse (r : Result A) (f : A → Result C) : steady excuse r → (∀ x, steady excuse (f x)) → steady excuse (r ≫= f).
Proof. intros Hr Hf. destruct r; cbn; by auto. Qed.

Lemma existsb_none {A} (f : A → bool) l : existsb f l = false ↔ ∀ x, List.In x l → f x = false.
Proof. rewrite <- not_true_iff_false, existsb_exists. split; [intros Hn x Hx; apply not_true_iff_false; intros ?; apply Hn; by exists x|]. intros Hall (x & Hx & Hf). by rewrite Hall in Hf. Qed.

Section Rows.
Context (validate_json : list byte → bool) (fd : list byte → Result Z) (ndebug : bool) (columns : list TColumnSchema) (idMapping : list Z).

#[local] Abbreviation K := (GetKeyColumnCount columns).
#[local] Abbreviation validate value column := (ValidateValueType validate_json fd ndebug value column false false false).

Definition mapped (value : TIdValue) : option Z := idMapping !! Z.to_nat (Id value).
Definition key_of (value : TIdValue) : option Z := match mapped value with Some id => if id <? K then Some id else None | None => None end.
Definition is_data (value : TIdValue) : bool := match mapped value with Some id => negb (id <? K) | None => false end.

(** A value by itself, as the code finds it. *)
Definition accepted (isKey : bool) (value : TIdValue) : Prop :=
  ∃ id column, mapped value = Some id ∧ column_at columns id = Some column ∧ validate (Value value) column = Ok () ∧
    (Z.land (Flags value) AggregateFlag ≠ 0 → is_Some (Aggregate column)) ∧
    (if id <? K then ValidateKeyValue fd value = Ok () else isKey = false ∧ ValidateDataValue fd value = Ok ()).

(** What a row has to satisfy, for a condition on its values. *)
Definition row_with (fine : TIdValue → Prop) (isKey allowMissingKeyColumns : bool) (tabletIndex : option Z) (row : list TIdValue) : Prop :=
  Z.of_nat (length row) <= 1024 ∧ K <= 256 ∧ Forall fine row ∧ NoDup (omap key_of row) ∧ (isKey = true ∨ existsb is_data row = true) ∧
  (allowMissingKeyColumns = true ∨ ∀ index column, Z.of_nat index < K → columns !! index = Some column → Z.of_nat index ∈ omap key_of row ∨ tabletIndex = Some (Z.of_nat index) ∨ is_Some (Expression column)) ∧
  GetDataWeight row < 128 * 1024 * 1024.

(** Values that can be stored: strings and documents of at most 16 megabytes, documents without attributes of their own
    and, in keys, numbers. *)
Definition storable (isKey : bool) (value : TUnversionedValue) : Prop :=
  match value with
  | ValueString data => Z.of_nat (length data) <= 16 * 1024 * 1024
  | ValueAny yson => Z.of_nat (length yson) <= 16 * 1024 * 1024 ∧ ∃ n, Document fd yson n ∧ attributed n = false
  | ValueDouble bits => isKey = true → Compare.isnan bits = false
  | _ => True
  end.

(** A value of a row: it belongs to a column that takes it, can be stored, and has no flags but that of aggregation in
    a column of data that aggregates. *)
Definition value_fine (isKey : bool) (value : TIdValue) : Prop :=
  ∃ id column, mapped value = Some id ∧ column_at columns id = Some column ∧ Takes validate_json fd false false false column (Value value) ∧ storable (id <? K) (Value value) ∧
    (if id <? K then Flags value = 0 else isKey = false ∧ (Flags value = 0 ∨ Flags value = AggregateFlag ∧ is_Some (Aggregate column))).

Definition RowOk (isKey : bool) : bool → option Z → list TIdValue → Prop := row_with (value_fine isKey) isKey.

Lemma key_of_cons value row id : mapped value = Some id → omap key_of (value :: row) = if id <? K then id :: omap key_of row else omap key_of row.
Proof. intros E. cbn [omap list_omap]. unfold key_of at 1. rewrite E. by destruct (id <? K). Qed.

Lemma client_values_ok isKey row seen have : Forall (accepted isKey) row → NoDup (omap key_of row) → (∀ k, k ∈ omap key_of row → k ∉ seen) →
  client_values validate_json fd ndebug columns idMapping isKey row seen have = Ok (list_to_set (omap key_of row) ∪ seen, have || existsb is_data row).
Proof.
  revert seen have. induction row as [|value row IH]; intros seen have Hv Hn Hd; cbn [client_values existsb]; [cbn; by rewrite orb_false_r, union_empty_l_L|]. apply list.Forall_cons in Hv as [(id & column & Em & Ec & Ev & Ea & Ek) Hvs]. rewrite (key_of_cons _ _ _ Em) in *. unfold ApplyIdMapping. unfold mapped in Em. rewrite Em. run_bind. rewrite Ec, Ev. run_bind.
  assert (negb (Z.land (Flags value) AggregateFlag =? 0) && bool_decide (Aggregate column = None) = false) as ->.
  { destruct (Z.eqb_spec (Z.land (Flags value) AggregateFlag) 0) as [|Hf]; [done|]. cbn [negb andb]. apply bool_decide_eq_false. intros En. destruct (Ea Hf) as [? E]. congruence. }
  assert (is_data value = negb (id <? K)) as Hdata by (unfold is_data, mapped; by rewrite Em). rewrite Hdata. destruct (id <? K).
  - apply list.NoDup_cons in Hn as [Hnot Hn]. rewrite bool_decide_eq_false_2 by (apply Hd; by left). rewrite Ek. run_bind. rewrite IH; [|done|done|].
    + f_equal. f_equal. cbn [list_to_set]. set_solver.
    + intros k Hk Hin. apply elem_of_union in Hin as [->%elem_of_singleton|Hin]; [done|]. apply (Hd k); [by right|done].
  - destruct Ek as [-> Ek]. rewrite Ek. run_bind. rewrite IH by done. f_equal. f_equal. cbn. by rewrite orb_true_r.
Qed.

Lemma client_values_inv isKey row seen have r : client_values validate_json fd ndebug columns idMapping isKey row seen have = Ok r → Forall (accepted isKey) row ∧ NoDup (omap key_of row) ∧ (∀ k, k ∈ omap key_of row → k ∉ seen).
Proof.
  revert seen have. induction row as [|value row IH]; intros seen have; cbn [client_values]; [intros _; split_and!; [constructor|constructor|]; by intros ? ?%not_elem_of_nil|]. unfold ApplyIdMapping. destruct (idMapping !! Z.to_nat (Id value)) as [id|] eqn:Em; [|done]. run_bind.
  destruct (column_at columns id) as [column|] eqn:Ec; [|done]. destruct (validate (Value value) column) as [[]| | |] eqn:Ev; try done. run_bind. destruct (negb _ && bool_decide (Aggregate column = None)) eqn:Ea; [done|].
  assert (Z.land (Flags value) AggregateFlag ≠ 0 → is_Some (Aggregate column)) as Hagg.
  { intros Hf. destruct (Z.eqb_spec (Z.land (Flags value) AggregateFlag) 0); [done|]. cbn [negb andb] in Ea. apply bool_decide_eq_false in Ea. destruct (Aggregate column); [by eexists|done]. }
  rewrite (key_of_cons value row id Em). destruct (id <? K) eqn:Elt.
  - destruct (bool_decide (id ∈ seen)) eqn:Hs; [done|]. apply bool_decide_eq_false in Hs. destruct (ValidateKeyValue fd value) as [[]| | |] eqn:Ekey; try done. run_bind. intros (Hvs & Hn & Hd)%IH. split_and!.
    + constructor; [|done]. exists id, column. split_and!; try done. by rewrite Elt.
    + apply list.NoDup_cons. split; [|done]. intros Hin. apply (Hd _ Hin). set_solver.
    + intros k [-> |Hin]%elem_of_cons; [done|]. specialize (Hd _ Hin). set_solver.
  - destruct isKey; [done|]. destruct (ValidateDataValue fd value) as [[]| | |] eqn:Edata; try done. run_bind. intros (Hvs & Hn & Hd)%IH. split_and!; [|done|done]. constructor; [|done]. exists id, column. split_and!; try done. by rewrite Elt.
Qed.

Context (Hfd : total_conversion fd).

Lemma any_steady yson excuse : steady excuse (ValidateAnyValue fd yson).
Proof.
  unfold ValidateAnyValue, validate_any. pose proof (DoParse_ok (O := YsonAnyValidator)) as Hok. assert (total_consumer YsonAnyValidator) as Htotal by (intros ev v; destruct ev; cbn; try done; by destruct (_ =? _)).
  specialize (Hok Htotal fd Hfd DefaultMemoryLimit DefaultYsonParserNestingLevelLimit YsonNode (NewParser (TStringReader yson) NewAnyValidator) (NewLexer_ready DefaultMemoryLimit (TStringReader yson) eq_refl)). by destruct (DoParse _ _ _ _ _).
Qed.

Lemma dynamic_steady value isKey excuse : steady excuse (ValidateDynamicValue fd value isKey).
Proof. destruct value; cbn [ValidateDynamicValue]; try done; try (by destruct (_ >? _)); [by destruct (_ && _)|]. destruct (_ >? _); [done|apply any_steady]. Qed.

Lemma key_value_steady value excuse : steady excuse (ValidateKeyValue fd value).
Proof. unfold ValidateKeyValue. destruct (negb _); [done|]. apply steady_bind; [by destruct (Value value)|]. intros _. apply dynamic_steady. Qed.

Lemma data_value_steady value excuse : steady excuse (ValidateDataValue fd value).
Proof. unfold ValidateDataValue. destruct (negb _); [done|]. apply steady_bind; [by destruct (Value value)|]. intros _. apply dynamic_steady. Qed.

Lemma client_values_steady excuse isKey row seen have : (∀ value column, value ∈ row → column ∈ columns → steady excuse (validate (Value value) column)) → steady excuse (client_values validate_json fd ndebug columns idMapping isKey row seen have).
Proof.
  revert seen have. induction row as [|value row IH]; intros seen have Hv; cbn [client_values]; [done|]. unfold ApplyIdMapping. destruct (idMapping !! Z.to_nat (Id value)) as [id|]; [|done]. run_bind. destruct (column_at columns id) as [column|] eqn:Ec; [|done].
  assert (∀ seen have, steady excuse (client_values validate_json fd ndebug columns idMapping isKey row seen have)) as Hrest by (intros; apply IH; intros; apply Hv; [by right|done]).
  apply steady_bind; [apply Hv; [by left|]; unfold column_at in Ec; destruct (id <? 0); [done|]; by eapply list_elem_of_lookup_2|]. intros _. destruct (_ && _); [done|]. destruct (id <? K); [case_bool_decide; [done|]; apply steady_bind; [apply key_value_steady|done]|]. destruct isKey; [done|]. apply steady_bind; [apply data_value_steady|done].
Qed.

Lemma missing_spec seen (Hk : K <= 256) : existsb (missing_key columns seen) (seq 0 (Z.to_nat K)) = false ↔ ∀ index column, Z.of_nat index < K → columns !! index = Some column → Z.of_nat index ∈ seen ∨ is_Some (Expression column).
Proof.
  rewrite existsb_none. setoid_rewrite in_seq. split.
  - intros Hall index column Hi Hc. specialize (Hall index ltac:(lia)). unfold missing_key in Hall. rewrite Hc in Hall. apply andb_false_iff in Hall as [Hall|Hall]; [left; by apply bool_decide_eq_false, dec_stable in Hall|right]. apply bool_decide_eq_false in Hall. destruct (Expression column); [by eexists|done].
  - intros Hall index Hi. unfold missing_key. assert (K <= Z.of_nat (length columns)) as Hlen by (unfold GetKeyColumnCount; apply inj_le, length_filter). destruct (lookup_lt_is_Some_2 columns index ltac:(lia)) as (column & Hc). rewrite Hc. destruct (Hall index column ltac:(lia) Hc) as [Hs|[e He]]; [rewrite bool_decide_eq_false_2 by (by intros ?); done|].
    rewrite (bool_decide_eq_false_2 (Expression column = None)) by congruence. apply andb_false_r.
Qed.

Lemma count_spec limit count : 0 <= count → limit_count limit count = if count <=? limit then Ok () else Throw EBadRow.
Proof. intros Hc. unfold limit_count. destruct (Z.ltb_spec count 0); [lia|]. rewrite Z.gtb_ltb. destruct (Z.ltb_spec limit count), (Z.leb_spec count limit); done || lia. Qed.

(** The column of tablet indexes is known and fits the array of key columns. *)
Definition tablet_index (tabletIndexColumnId tabletIndex : option Z) : Prop :=
  match tabletIndexColumnId with
  | None => tabletIndex = None
  | Some columnId => ∃ id, 0 <= columnId ∧ idMapping !! Z.to_nat columnId = Some id ∧ 0 <= id < 256 ∧ tabletIndex = Some id
  end.

Lemma mark_spec tabletIndexColumnId tabletIndex seen : tablet_index tabletIndexColumnId tabletIndex →
  mark_tablet_index idMapping tabletIndexColumnId seen = Ok (match tabletIndex with Some id => {[id]} ∪ seen | None => seen end).
Proof.
  unfold tablet_index, mark_tablet_index. destruct tabletIndexColumnId as [columnId|]; [|by intros ->]. intros (id & Hc & Em & Hid & ->). rewrite Em. destruct (Z.ltb_spec columnId 0); [lia|]. destruct (Z.ltb_spec id 0); [lia|]. unfold MaxKeyColumnCount. destruct (Z.leb_spec 256 id); [lia|]. done.
Qed.

Lemma row_outcome excuse isKey allowMissing tabletIndexColumnId tabletIndex row : tablet_index tabletIndexColumnId tabletIndex → (∀ value column, value ∈ row → column ∈ columns → steady excuse (validate (Value value) column)) →
  let r := ValidateClientRow validate_json fd ndebug columns idMapping (Some row) isKey allowMissing tabletIndexColumnId in steady excuse r ∧ (r = Ok () ↔ row_with (accepted isKey) isKey allowMissing tabletIndex row).
Proof.
  intros Ht Hsteady r. unfold r, ValidateClientRow, ValidateRowValueCount, ValidateKeyColumnCount, row_with. rewrite !count_spec by (unfold GetKeyColumnCount; lia). change MaxValuesPerRow with 1024. change MaxKeyColumnCount with 256.
  destruct (Z.leb_spec (Z.of_nat (length row)) 1024) as [Hlen|]; run_bind; [|split; [done|]; split; [done|lia]]. destruct (Z.leb_spec K 256) as [Hk|]; run_bind; [|split; [done|]; split; [done|lia]].
  pose proof (client_values_steady excuse isKey row ∅ false Hsteady) as Hs. destruct (client_values _ _ _ _ _ _ _ _ _) as [result| | |] eqn:Ev; try done; run_bind.
  2-3: split; [done|]; split; [done|]; intros (_ & _ & Hv & Hn & _); rewrite client_values_ok in Ev; [done|done|done|]; intros k _; apply not_elem_of_empty.
  destruct (client_values_inv _ _ _ _ _ Ev) as (Hv & Hn & _). rewrite client_values_ok in Ev; [|done|done|intros k _; apply not_elem_of_empty]. injection Ev as <-. cbn [orb]. rewrite union_empty_r_L.
  destruct (negb isKey && negb (existsb is_data row)) eqn:Ed.
  { split; [done|]. split; [done|]. intros (_ & _ & _ & _ & Hd & _). apply andb_prop in Ed as [E1%negb_true_iff E2%negb_true_iff]. destruct Hd; congruence. }
  rewrite (mark_spec _ tabletIndex) by done. run_bind. set (seen := match tabletIndex with Some id => {[id]} ∪ list_to_set (omap key_of row) | None => list_to_set (omap key_of row) end : gset Z).
  assert (∀ index, Z.of_nat index ∈ seen ↔ Z.of_nat index ∈ omap key_of row ∨ tabletIndex = Some (Z.of_nat index)) as Hseen by (intros index; unfold seen; destruct tabletIndex as [id|]; rewrite ?elem_of_union, ?elem_of_singleton, elem_of_list_to_set; naive_solver).
  assert (isKey = true ∨ existsb is_data row = true) as Hdata by (destruct isKey, (existsb is_data row); by auto). destruct (negb allowMissing && existsb (missing_key columns seen) (seq 0 (Z.to_nat K))) eqn:Em.
  { split; [done|]. split; [done|]. intros (_ & _ & _ & _ & _ & Hm & _). apply andb_prop in Em as [E1%negb_true_iff E2]. destruct Hm as [?|Hm]; [congruence|]. apply not_false_iff_true in E2. exfalso. apply E2, missing_spec; [done|]. intros index column Hi Hc. rewrite Hseen. destruct (Hm index column Hi Hc) as [?|[?|?]]; by auto. }
  assert (allowMissing = true ∨ ∀ index column, Z.of_nat index < K → columns !! index = Some column → Z.of_nat index ∈ omap key_of row ∨ tabletIndex = Some (Z.of_nat index) ∨ is_Some (Expression column)) as Hmissing.
  { destruct allowMissing; [by left|right]. intros index column Hi Hc. cbn [negb andb] in Em. destruct (proj1 (missing_spec seen Hk) Em index column Hi Hc) as [Hin|?]; [apply Hseen in Hin as [?|?]; by auto|by auto]. }
  change MaxClientVersionedRowDataWeight with (128 * 1024 * 1024). rewrite Z.geb_leb. destruct (Z.leb_spec (128 * 1024 * 1024) (GetDataWeight row)); (split; [done|]).
  - split; [done|]. lia.
  - split; [|done]. intros _. by split_and!.
Qed.

(** ** Conditions on values *)

Lemma any_storable yson : ValidateAnyValue fd yson = Ok () ↔ ∃ n, Document fd yson n ∧ attributed n = false.
Proof.
  unfold ValidateAnyValue. destruct (validate_any_spec fd yson Hfd) as [(n & Hn & ->)|[Hnone (e & ->)]]; [|run_bind; split; [done|]; intros (n & Hn & _); by destruct (Hnone n)].
  destruct (attributed n) eqn:Ea; run_bind; split; try done; [|by exists n]. intros (n' & Hn' & Ha). destruct (document_unique _ _ _ _ Hn Hn') as [E _]. congruence.
Qed.

Lemma dynamic_storable isKey value : ValidateDynamicValue fd value isKey = Ok () ↔ storable isKey value.
Proof.
  destruct value as [| | |x|x|bits|b|data|yson|yson|]; cbn [ValidateDynamicValue storable]; try done.
  - destruct isKey; cbn [andb]; [destruct (Compare.isnan bits)|]; naive_solver.
  - change MaxStringValueLength with (16 * 1024 * 1024). destruct (Z.gtb_spec (Z.of_nat (length data)) (16 * 1024 * 1024)); split; done || lia.
  - change MaxAnyValueLength with (16 * 1024 * 1024). rewrite <- any_storable. destruct (Z.gtb_spec (Z.of_nat (length yson)) (16 * 1024 * 1024)); split; try done; try tauto; lia.
Qed.

(** Flags that leave nothing but that of aggregation. *)
Lemma aggregate_flags flags : Z.ldiff flags AggregateFlag = 0 → flags = 0 ∨ flags = AggregateFlag.
Proof.
  intros E. pose proof (Z.lor_ldiff_and flags AggregateFlag) as Hl. rewrite E, Z.lor_0_l in Hl. unfold AggregateFlag in *. change 1 with (Z.ones 1) in Hl at 1. rewrite Z.land_ones in Hl by lia. pose proof (Z.mod_pos_bound flags (2 ^ 1) ltac:(lia)). lia.
Qed.

(** The code accepts a value exactly when it is fine. *)
Lemma accepted_fine isKey value : (∀ column, column ∈ columns → (validate (Value value) column = Ok () ↔ Takes validate_json fd false false false column (Value value))) → accepted isKey value ↔ value_fine isKey value.
Proof.
  intros Hv. assert (∀ id column, column_at columns id = Some column → column ∈ columns) as Hin by (intros id column; unfold column_at; destruct (id <? 0); [done|]; apply list_elem_of_lookup_2).
  assert (∀ column, Takes validate_json fd false false false column (Value value) → ValidateDataValueType (ValueType (Value value)) = Ok () ∧ ValidateKeyValueType (ValueType (Value value)) = Ok ()) as Htypes.
  { intros column. unfold Takes. destruct (wire_stored (LogicalTypeOf column)) as (W1 & W2 & W3). case_bool_decide as En; [by rewrite En|]. destruct (any_column (LogicalTypeOf column)); [intros [-> _]; done|]. intros [Et _]. destruct (Value value); cbn [ValueType] in *; try done; congruence. }
  unfold accepted, value_fine, ValidateKeyValue, ValidateDataValue. split.
  - intros (id & column & Em & Ec & Ev & Ea & Ek). pose proof (Hin _ _ Ec) as Hc. apply (Hv column Hc) in Ev. destruct (Htypes column Ev) as [E1 E2]. exists id, column. rewrite E1, E2 in Ek. destruct (id <? K).
    + destruct (Z.eqb_spec (Flags value) 0); [|done]. run_bind in Ek. cbn [negb] in Ek. apply dynamic_storable in Ek. by split_and!.
    + destruct Ek as [-> Ek]. destruct (Z.eqb_spec (Z.ldiff (Flags value) AggregateFlag) 0) as [Ed|]; [|done]. cbn [negb] in Ek. run_bind in Ek. apply dynamic_storable in Ek. split_and!; try done. destruct (aggregate_flags _ Ed) as [?|Ef]; [by left|right]. split; [done|]. apply Ea. by rewrite Ef.
  - intros (id & column & Em & Ec & Ev & Es & Ek). destruct (Htypes column Ev) as [E1 E2]. exists id, column. rewrite E1, E2. split_and!; [done|done|by apply Hv; [eapply Hin|]|..].
    + destruct (id <? K); [rewrite Ek; done|]. destruct Ek as [_ [->|[_ ?]]]; done.
    + destruct (id <? K); [rewrite Ek; by apply dynamic_storable|]. destruct Ek as [-> Ek]. split; [done|]. assert (Z.ldiff (Flags value) AggregateFlag = 0) as -> by (destruct Ek as [->|[-> _]]; done). by apply dynamic_storable.
Qed.
End Rows.

(** ** Theorem *)

(** C20. [ValidateClientRow] of a row in columns with validated types, whatever the bytes of its values are, returns
    exactly when the row has no more than 1024 values and the schema no more than 256 key columns, every value
    belongs to a column, which takes it (see [Takes]), is not larger than 16 megabytes (composite values apart) nor, in a
    key, a NaN, is a document without attributes of its own if it is of type Any, and has no flags but that of
    aggregation in a column that aggregates, no key column is repeated, a data row has a data column, no key column
    is missing that is neither computed nor the index of the tablet (unless that is allowed), and the row weighs less than
    128 megabytes. Otherwise it throws, or it aborts, the latter only when some column has Any as an alternative of a
    variant or in a dictionary of its type. It is assumed that the column of tablet indexes, if there is one, is mapped
    to one of the first 256 columns (the code verifies or relies on it) and that the bytes of composite values in
    columns of other types than Any are texts of documents. *)
Theorem ValidateClientRow_correct validate_json fd ndebug columns idMapping isKey allowMissingKeyColumns tabletIndexColumnId tabletIndex row : total_conversion fd →
  Forall (λ column, LogicalType.ValidateLogicalType None (LogicalTypeOf column) = Ok ()) columns → Forall (λ value, Forall (λ column, composite_ok fd column (Value value)) columns) row → tablet_index idMapping tabletIndexColumnId tabletIndex →
  let r := ValidateClientRow validate_json fd ndebug columns idMapping (Some row) isKey allowMissingKeyColumns tabletIndexColumnId in
  let ok := RowOk validate_json fd columns idMapping isKey allowMissingKeyColumns tabletIndex row in
  r = Ok () ∧ ok ∨ (∃ e, r = Throw e) ∧ ¬ ok ∨ r = Crash ∧ ¬ ok ∧ ∃ column, column ∈ columns ∧ ¬ throughout any_enclosed (LogicalTypeOf column).
Proof.
  intros Hfd Hcolumns Hrow Ht r ok. rewrite list.Forall_forall in Hcolumns. rewrite list.Forall_forall in Hrow.
  assert (∀ value column, value ∈ row → column ∈ columns → settles (throughout any_enclosed (LogicalTypeOf column)) (Takes validate_json fd false false false column (Value value)) (ValidateValueType validate_json fd ndebug (Value value) column false false false)) as Hsettles.
  { intros value column Hv Hc. apply ValidateValueType_settles; [done|by apply Hcolumns|]. pose proof (Hrow _ Hv) as Hcs. rewrite list.Forall_forall in Hcs. by apply Hcs. }
  destruct (row_outcome validate_json fd ndebug columns idMapping Hfd (∃ column, column ∈ columns ∧ ¬ throughout any_enclosed (LogicalTypeOf column)) isKey allowMissingKeyColumns tabletIndexColumnId tabletIndex row Ht) as [Hs Hiff].
  { intros value column Hv Hc. specialize (Hsettles value column Hv Hc). destruct (ValidateValueType _ _ _ _ _ _ _ _); cbn in *; try done. exists column. by destruct Hsettles. }
  assert (row_with columns idMapping (accepted validate_json fd ndebug columns idMapping isKey) isKey allowMissingKeyColumns tabletIndex row ↔ ok) as Hok.
  { assert (Forall (accepted validate_json fd ndebug columns idMapping isKey) row ↔ Forall (value_fine validate_json fd columns idMapping isKey) row) as E; [|unfold ok, RowOk, row_with; by rewrite E].
    rewrite !list.Forall_forall. apply forall_proper. intros value. split; intros H Hv; specialize (H Hv); revert H; apply accepted_fine; try done; intros column Hc; specialize (Hsettles value column Hv Hc); (split; [intros E; by rewrite E in Hsettles|]); intros Htakes; destruct (ValidateValueType _ _ _ _ _ _ _ _) as [[]| | |]; cbn in Hsettles; try done; by destruct Hsettles. }
  fold r in Hs, Hiff. rewrite Hok in Hiff. destruct r as [[]|e| |]; cbn in Hs; [left; by split; [|apply Hiff]|right; left|right; right|done].
  - split; [by eexists|]. intros H. by apply Hiff in H.
  - split_and!; [done| |done]. intros H. by apply Hiff in H.
Qed.

Lemma ValidateClientRow_correct_witness
  (column := λ name type order, {| ColumnStableName := name; ColumnName := name; LogicalTypeOf := type; SortOrder := order; Expression := None; Materialized := None; Aggregate := None |})
  (columns := [column (B"k") (SimpleType SimpleInt64) (Some Ascending); column (B"v") (OptionalType (SimpleType SimpleString)) None]) (key := {| Id := 1; Flags := 0; Value := ValueInt64 7 |}) (data := {| Id := 0; Flags := 0; Value := ValueString (B"x") |}) :
  RowOk (λ _, true) (λ _, Ok 0) columns [1; 0] false false None [key; data] ∧ ¬ RowOk (λ _, true) (λ _, Ok 0) columns [1; 0] false false None [data] ∧ ¬ RowOk (λ _, true) (λ _, Ok 0) columns [1; 0] false false None [key; data; key].
Proof.
  assert (Forall (λ column, LogicalType.ValidateLogicalType None (LogicalTypeOf column) = Ok ()) columns) as Hcolumns by (repeat constructor; vm_compute; reflexivity).
  assert (∀ row, Forall (λ value, value = key ∨ value = data) row → Forall (λ value, Forall (λ column, composite_ok (λ _, Ok 0) column (Value value)) columns) row) as Hrow.
  { intros row Hr. eapply list.Forall_impl; [exact Hr|]. intros value Hv. apply list.Forall_forall. intros c _ yson E. by destruct Hv as [-> | ->]. }
  assert (total_conversion (λ _ : list byte, Ok 0 : Result Z)) as Hfd by done.
  pose proof (λ row (Hr : Forall (λ value, value = key ∨ value = data) row), ValidateClientRow_correct (λ _, true) (λ _, Ok 0) false columns [1; 0] false false None None row Hfd Hcolumns (Hrow row Hr) eq_refl) as H.
  split_and!.
  - destruct (H [key; data]) as [[_ H1]|[[[e H1] _]|[H1 _]]]; [repeat constructor; by auto|exact H1|vm_compute in H1; discriminate..].
  - destruct (H [data]) as [[H1 _]|[[_ H1]|[H1 _]]]; [repeat constructor; by auto|vm_compute in H1; discriminate|exact H1|vm_compute in H1; discriminate].
  - destruct (H [key; data; key]) as [[H1 _]|[[_ H1]|[H1 _]]]; [repeat constructor; by auto|vm_compute in H1; discriminate|exact H1|vm_compute in H1; discriminate].
Defined.
